(* ===== verification/_CoqProject ===== *)
-Q . S2P
Prelude.v
Names.v
ListHandle.v
Value.v
TypeRegistry.v
OperandStack.v
Ir.v
FunctionTable.v
RuntimeError.v
ParseError.v
StringLiteral.v
Display.v
ErrorSchema.v
ProcessRuntime.v
Machine.v
Opcodes.v
Frames.v
VmProps.v
Calls.v
Driver.v
DriverProps.v
Cancellation.v
Scheduler.v
Loader.v
LoaderProps.v
Linking.v
Assembler.v
AssemblerProps.v
Fusion.v
Artifact.v
ArtifactProps.v
Composition.v
Container.v
ContainerProps.v
Lexer.v
LexerProps.v
ListBuilder.v
ListBuilderProps.v
Collections.v
SortProps.v
Generators.v
CollectionsProps.v
GeneratorProps.v
Scalars.v
ScalarProps.v
CodePoints.v
Random.v
Lifecycle.v
ExecutionProps.v
SupervisionProps.v
ParserCore.v
ParserLaws.v
TypeParser.v
TypeGrammar.v
TypeParserProps.v
WhereClause.v
WhereClauseProps.v
Scope.v
TypeEnv.v
TypeEnvProps.v
DeclaredTypes.v
Documents.v
Sources.v
DocumentsProps.v
SourcesProps.v
ParseCache.v
HandlerBindings.v
HandlerProps.v
HandlerAcquire.v
HandlerQueue.v
HandlerTheorems.v
TraitPatterns.v
Unification.v
UnifierProps.v
Coherence.v
Contracts.v
ExprOperators.v
ExprGrammar.v
ExprProps.v
ExprTheorems.v
