(* ===== verification/Prelude.v ===== *)
(** * Surtr: a verification development for the runtime core

    Surtr is a compiled, statically typed language.  A source file goes through the
    parser ([crates/spire]), the resolver ([crates/sigil]), the type checker
    ([crates/scar]) and the code generator ([crates/forge]); the virtual machine
    ([crates/eldr]) runs the bytecode.  [crates/sindr] holds what the passes share:
    the bytecode, the runtime values, the verifier of function tables.  The command
    line ([crates/rune]), the interactive session ([crates/xldr]) and the language
    server sit on top.

    This development models the front of that pipeline (the tokenizer, the token cursor of
    the parser, types, type parameters and [where] clauses, operator expressions), the
    scopes of the resolver, the environment of the checker with its trait patterns and
    their unification, and everything behind the lowering of the typed tree: the assembler of the code generator, the file format,
    the loader, the machine with its builtins over lists, maps and generators, and the
    scheduling, lifecycle, supervision and output files of processes.  For the language
    server it models documents, positions and the parse cache.  Everything is executable.

    ** Files, components and sources

    Shared data ([crates/sindr/src/runtime.rs], [names.rs], [ir.rs]):
    - [Prelude]: [Result] with its [let?] notation, loops that may fail, runs that
      may panic ([Run]), machine integers, strings as lists of code points.
    - [Names]: canonical ([Global::]) and surface names.
    - [ListHandle]: persistent chunked lists, [struct ListHandle] and its iterators.
    - [Value]: every constructor of [Value], callables, rich errors, handles.
    - [TypeRegistry]: the registry of tagged types; validation, extension, rollback.
    - [Display]: [HashMapHandle] and [Value::to_display_string].
    - [Ir]: opcodes, constants, templates, process specifications, [Bytecode] and
      [BytecodeChunk].
    - [FunctionTable]: the shared validation of function tables.
    - [ErrorSchema]: [ErrorValueSchema::accepts], the check of error payloads.
    - [Container]: the ELDR file, [Bytecode::encode] and [decode]: header, chunk
      table, payloads, and the tables of the viewer that are derived on writing.

    Parser ([crates/spire/src]):
    - [ParseError] ([error.rs]) and [StringLiteral] ([string_literal.rs], the
      triple-quoted form of [lexer.rs], and the quoting function of [sindr]).
    - [Lexer] ([lexer.rs], [func_literal.rs], [token.rs]): [tokenize].
    - [ParserCore] ([parser/mod.rs]): the cursor [Parser] over the tokens, with the
      tokens split off a longer one, expected tokens, newlines, qualified names and the
      nesting limit, as a state and error monad.
    - [TypeParser] ([parser/ty.rs]): [parse_type_in_context] and its contexts.
    - [WhereClause] ([parser/decl.rs]): type parameter lists, [where] clauses, and the
      bounds of nominal declarations.
    - [ExprOperators] ([parser/expr.rs], [func_literal.rs], [sindr/src/pattern.rs]): the
      tiers of infix operators, quoted operators and pattern consumers, from [parse_expr]
      down to the operands, which are the interface [OperandParser].

    Resolver and type checker:
    - [Scope] ([crates/sigil/src/scope.rs], [with_child_scope] of [resolver/expr.rs]):
      lexical scopes and unique ids, with their theorem.
    - [TypeEnv] ([crates/scar/src/env.rs], [types.rs]): the types of variables with an
      undo journal per scope, the tables of declared types and variants.
    - [TraitPatterns], [Unification] ([crates/scar/src/checker/trait_selection.rs],
      [predeclare/traits.rs]): canonical types, method contracts up to renaming, the keys of
      implementations, [CanonicalUnifier], the overlap check and the index of
      implementations.

    Code generator ([crates/forge/src/codegen.rs]):
    - [Assembler]: labels, slots, the constant pool, [emit] with its peephole
      fusions, [finalize].
    - [Artifact]: chunk-local indices, [compose_bytecode_with_chunk],
      [normalize_function_table].

    Virtual machine ([crates/eldr/src]):
    - [RuntimeError] ([error.rs]): errors whose kind lives in a detail line.
    - [OperandStack] ([vm/operand_stack.rs]): values and the shared, copy-on-write
      index of pending futures.
    - [ProcessRuntime] ([struct ProcessRuntime] of [vm.rs]): futures, deadlines,
      replies, waiting processes, the run queue.
    - [Machine] ([vm.rs], [vm/continuation.rs]): the state [VM], with the fields it
      shares with [ExecutionContext] grouped in [Exec]; a state-and-error monad; the
      helpers of the instructions.
    - [Opcodes]: [VM::execute_opcode], every instruction.
    - [Driver]: execution contexts, continuations, [step_context], [run_quantum],
      [scheduler_tick], cancellation.  The bodies of the builtins are the interface
      [Builtins].
    - [Loader]: verification of programs and chunks, relocation, [execute_chunk] up
      to the run, checkpoints.
    - [Lifecycle] ([vm.rs], [vm/process_continuation.rs]): allocation of processes, the
      protocol of an execution, stopping and reclaiming, supervisors, worker sets.
    - [HandlerBindings] ([vm/handler_bindings.rs]): the output handlers of processes; contexts
      with counted references, files opened once and leased by several machines, queued
      writes.  What the operating system answers is the record [Os], an argument of
      every operation, and the calls made to it are a log in the state.

    Language server ([crates/surtr-analysis], [crates/surtr-lsp], [crates/diagnostics]):
    - [Documents] ([document.rs]): the line index and its positions, open documents.
    - [Sources] ([diagnostics/src/source.rs], [surtr-lsp/src/lib.rs]): lines and columns
      of messages, the registry of sources, file URIs.
    - [ParseCache] ([parse_cache.rs]): the cache of parse results shared by threads, as
      critical sections that interleave, with its theorem.

    Builtins ([crates/eldr/src/builtin.rs] and [builtin/]):
    - [ListBuilder] ([list_builder.rs]): reference-counted segments as a store with
      counts, which [push], [clone], [drop] and [finish] share and free.
    - [Collections] ([list_flat_map.rs], [list_finish.rs], [map_values.rs]): the
      builtins that call closures or sort, with their continuations.
    - [Generators] ([generator.rs]): unfolding, stepping, materializing, ranges, and
      the dispatch of all continuations.
    - [Scalars], [CodePoints], [Random] ([builtin.rs]): integers and bits, indexed
      access to lists and maps, strings as code points, the random generator, and
      how a builtin raises a language error ([language_error_outcome] of [vm.rs]).

    Proofs:
    - [Frames]: the triple [keeps] and the hint database of the same name, which
      prove that an instruction leaves code, frames and continuations alone.
    - [VmProps], [Calls], [DriverProps], [Cancellation], [Scheduler], [LoaderProps],
      [Linking] about the machine; [AssemblerProps], [Fusion], [ArtifactProps],
      [Composition], [ContainerProps] about code and files; [LexerProps];
      [ListBuilderProps], [SortProps], [CollectionsProps], [GeneratorProps],
      [ScalarProps] about the builtins; [ExecutionProps], [SupervisionProps] about
      processes; [ParserLaws] (the weakest precondition of a parsing function and the
      reading relation), [TypeGrammar], [TypeParserProps], [WhereClauseProps] about the
      parser; [ExprGrammar] (what a tier of operators accepts, for every tier at once),
      [ExprProps], [ExprTheorems] about operator expressions; [TypeEnvProps],
      [DeclaredTypes] about the environment; [UnifierProps], [Coherence], [Contracts]
      about traits; [HandlerProps] (the invariant and the weakest
      precondition of an operation), [HandlerAcquire], [HandlerQueue],
      [HandlerTheorems] about handlers; [DocumentsProps], [SourcesProps].  The files of the
      smaller components hold their own theorems.

    ** Interfaces

    Code outside of a component enters through type classes: [RustFmt] (how Rust
    renders floats, escaped strings and opcodes), [BuiltinTable] (the static table of
    builtins), [DbgReporter] (terminal output of [dbg]), [Builtins] (what a builtin
    does when it is invoked or resumed), [ProcessContinuations] (the continuation of a
    process call), [TokenDebug] (how Rust renders a token), [HashOrder] and
    [BindingOrder] (the iteration order of a hash map, with the law that every entry is
    visited once), [Bincode] with [BincodeLaws] (the codec of a payload of the file
    format and its round-trip law), [DocumentParser] (the parser as the cache calls it),
    [OperandParser] with [OperandLaws] (the parser of operands and of patterns, and that it
    accepts exactly a syntax whose operands start on their line; the sample instance
    reads names).  The theorems hold for every instance and ask for
    no other laws of it; where one speaks of a particular answer
    of a builtin, that answer is a hypothesis of the theorem, and its witness has an
    instance that gives it.

    ** What the theorems show

    - Instructions (C1-C3): the control flow of every instruction refines
      a small control machine; frames and addresses stay well formed, also when an
      instruction fails; tail calls are equivalent to calls.
    - Driver (C4-C8): calling a builtin is transparent to its caller; a quantum is
      the step-by-step run, and preemption is invisible; a cancelled context always
      ends with the error it was cancelled with; the scheduler loses no wake-up.
    - Operand stack and processes (C9-C12): refinement of a plain vector under any
      sequence of operations, clones included; the invariants of every reachable state
      of the process tables and of supervision; executions follow their protocol.
    - Handlers (C13-C14): whatever a machine and the machines that share its files did, a
      file is open exactly while a context needs it, no operation panics, and failed
      operations undo what they did; writes happen once and in the order of acceptance.
    - Loading and linking (C15-C18): a verified chunk means in the program what it
      meant on its own; rollback restores the machine; verified chunks can be
      appended; composing a prefix with a chunk keeps the meaning of both.
    - Builtins (C19-C21): a pool of list builders that share segments refines one
      plain list per builder and frees what nobody holds; [flat_map] ends with the
      result of its reference definition; the sort sorts, within a bound on its steps.
    - Code generation (C22-C23): fused instructions do what the separate ones do;
      jumps are resolved to the instructions of their labels.
    - Files and tokens (C24-C26): a program comes back from its file, and reading an
      arbitrary file never reads outside of it; tokens that are spelled out and
      scanned come back.
    - Parser (C27-C30): the parser of types accepts exactly what a grammar derives and
      returns the type it denotes, spans included, and never panics; the parser of
      operator expressions is its grammar, with the tiers in their order, to the left in
      all but one, and one reading per text; a nominal declaration gives every
      parameter the one bound its clause asks for.
    - Scopes and environment (C31-C33): a resolver's scopes are one flat environment
      and one counter of ids; the undo journals are one environment per scope; declared
      types and variants stay consistent and are found again.
    - Traits (C34-C37): unification ends, with a most general solution or because there is
      none; in a registry that grew by checked registrations no request is covered
      twice, and exactly the patterns that would break this are rejected; a method is
      accepted when its types are its contract's up to an injective renaming; keys
      identify heads up to renaming.
    - Language server (C38-C40): positions are those of a reference definition and come
      back as offsets; the cache of parse results is invisible, however its calls
      interleave, and every call returns.

    The same files prove more: closures bind their captures and arguments in order
    ([closure_call_beta]), error payloads come back out ([error_payload_roundtrip]),
    finishing the last execution of a stopped process reclaims it everywhere
    ([finish_reclaims]), shutting down returns all leases ([shutdown_returns_leases]),
    strings come back from their code points ([codepoints_roundtrip]), random sampling
    ends inside its range ([random_range_total]), emission keeps the windows of the
    peephole closed ([assembly_windows]), localizing and relocating a chunk is the
    identity ([localize_relocate_roundtrip]), the tokens of any text tile it
    ([tokenize_tiles]), [where] clauses are read as their grammar says
    ([where_clause_sound]), an isolated scope restores everything
    ([isolated_scope_restores]), the registry of sources refines a map
    ([registry_refines]), paths come back from their URIs ([uri_roundtrip]).

    ** Integers, panics and fuel

    Indices that Rust keeps in [usize] are [nat]; fixed-width integers are [N], with
    their width written out where the code checks, saturates or wraps.  Indexing and
    subtraction that panic in Rust are [Run] computations whose error is the panic.
    Failure of an allocation is not modelled.
    Loops whose recursion is not structural take fuel, and run-out is a value of its
    own or excluded by a theorem.  The loops of [StringLiteral] get the length of the
    source, since every turn consumes a character ([scan_string_total]), and
    [tokenize] one more than it ([tokenize_tiles]); [to_display_string] needs the
    nesting depth of the value ([display_total]); [accepts] needs three steps per
    level of the value ([accepts_total]), for which a builtin that raises a language
    error takes the parameter [depth]; [from_items_loop] and the iterators of
    [ListHandle] get the number of items ([from_items_roundtrip],
    [iter_refs_agrees_with_iter]); [run_quantum_loop] gets one more than the
    remaining budget, because every turn charges a reduction
    ([quantum_equals_steps]); [drop_loop] gets the number of segments ever
    allocated, each of which is freed at most once ([builder_pool_refines]); the
    UTF-8 decoder gets the number of bytes; the rejection loop of [Random] takes its
    fuel as an argument, and [random_range_total] gives the amount that suffices.
    [str_replace] gets the length of the text and [to_hex_loop] the eight digits of a
    32-bit number.  The recursion of [parse_type_fuel] gets one level more than
    [MAX_PARSE_NESTING], since every recursive call is one level deeper
    ([type_parser_sound]); the loops of the parser consume a token per turn and get the
    number of tokens left ([expression_grammar] for those of operators).  The binary
    search of the line index gets the length of its vector, which it halves.  The unifier
    follows chains of bindings; the theorems about it say that from some amount of fuel on
    the result is always the same one ([eventually]).

    ** What is not modelled, and the plan

    Terminal access, regular expressions, JSON and the test runner are outside the modelled
    machine; files appear as the sinks of handlers.  The boot of singletons, detached tasks
    and the process builtins are not modelled, and of the parser neither operands,
    statements and declarations nor the program level, which the chumsky crate drives: they
    are mutually recursive over the whole syntax tree.  The lowering of [forge] and the passes
    of [sigil] and [scar] walk trees with several hundred node and type forms and share the
    state of the whole pass, so that only the parts with a state of their own (scopes,
    environment, trait patterns) can be translated without the rest.  Next would come patterns,
    their parser and the exhaustiveness check of [scar], and then operands. *)

From stdpp Require Export base list gmap strings sorting.
From Stdlib Require Export ZArith Lia.
From Stdlib Require Import Ascii.

#[global] Set Default Goal Selector "!".

(** ** Fallible computations: Rust's [Result] *)

Inductive Result (E A : Type) : Type :=
| Ok (a : A)
| Err (e : E).
Arguments Ok {E A} a.
Arguments Err {E A} e.

Definition rbind {E A B : Type} (m : Result E A) (k : A → Result E B) : Result E B :=
  match m with
  | Ok a => k a
  | Err e => Err e
  end.

Declare Scope result_scope.
Delimit Scope result_scope with result.
Notation "'let?' x ':=' m 'in' k" := (rbind m (λ x, k))
  (at level 10, x name, m at level 100, k at level 200) : result_scope.
Notation "'let?' ' p ':=' m 'in' k" := (rbind m (λ x, match x with p => k end))
  (at level 10, p strict pattern, m at level 100, k at level 200) : result_scope.
#[global] Open Scope result_scope.

Definition is_ok {E A} (m : Result E A) : bool :=
  match m with Ok _ => true | Err _ => false end.

(** [Option::ok_or_else]. *)
Definition ok_or {E A} (o : option A) (e : E) : Result E A :=
  match o with Some a => Ok a | None => Err e end.

Definition map_err {E E' A} (f : E → E') (m : Result E A) : Result E' A :=
  match m with Ok a => Ok a | Err e => Err (f e) end.

(** A [for] loop whose body may return early with an error. *)
Fixpoint for_each {E A} (f : A → Result E unit) (l : list A) : Result E unit :=
  match l with
  | [] => Ok tt
  | x :: l' => let? _ := f x in for_each f l'
  end.

(** A [for] loop over indexed elements ([iter().enumerate()]). *)
Fixpoint for_each_from {E A} (i : nat) (f : nat → A → Result E unit) (l : list A) : Result E unit :=
  match l with
  | [] => Ok tt
  | x :: l' => let? _ := f i x in for_each_from (S i) f l'
  end.

(** [iter().map(f).collect::<Result<Vec<_>, _>>()]: stops at the first error. *)
Fixpoint map_result {E A B} (f : A → Result E B) (l : list A) : Result E (list B) :=
  match l with
  | [] => Ok []
  | x :: l' => let? y := f x in let? ys := map_result f l' in Ok (y :: ys)
  end.

Lemma rbind_Ok {E A B} (m : Result E A) (k : A → Result E B) (b : B) :
  rbind m k = Ok b ↔ ∃ a, m = Ok a ∧ k a = Ok b.
Proof. destruct m; naive_solver. Qed.

Lemma rbind_Err {E A B} (m : Result E A) (k : A → Result E B) (e : E) :
  rbind m k = Err e ↔ m = Err e ∨ ∃ a, m = Ok a ∧ k a = Err e.
Proof. destruct m; naive_solver. Qed.

Lemma map_err_Ok {E E' A} (f : E → E') (m : Result E A) (a : A) :
  map_err f m = Ok a ↔ m = Ok a.
Proof. destruct m; naive_solver. Qed.

Lemma ok_or_Ok {E A} (o : option A) (e : E) (a : A) :
  ok_or o e = Ok a ↔ o = Some a.
Proof. destruct o; naive_solver. Qed.

Lemma for_each_Ok {E A} (f : A → Result E unit) (l : list A) :
  for_each f l = Ok tt ↔ Forall (λ x, f x = Ok tt) l.
Proof.
  induction l as [|x l IH]; simpl; [by split; auto|].
  rewrite rbind_Ok, Forall_cons, <- IH. split.
  - by intros ([] & ? & ?).
  - intros [??]. by exists tt.
Qed.

Lemma for_each_from_Ok {E A} (f : nat → A → Result E unit) (l : list A) (i : nat) :
  for_each_from i f l = Ok tt ↔ ∀ j x, l !! j = Some x → f (i + j) x = Ok tt.
Proof.
  revert i. induction l as [|x l IH]; intros i; simpl.
  { split; [intros _ j x; by rewrite lookup_nil|done]. }
  rewrite rbind_Ok. split.
  - intros ([] & Hx & Hl) [|j] y; simpl; intros Hy.
    + simplify_eq. by rewrite Nat.add_0_r.
    + rewrite <- Nat.add_succ_comm. by apply (proj1 (IH (S i)) Hl).
  - intros H. exists tt. split.
    + specialize (H 0 x eq_refl). by rewrite Nat.add_0_r in H.
    + apply IH. intros j y Hy. rewrite Nat.add_succ_comm. by apply H.
Qed.

Lemma map_result_Ok {E A B} (f : A → Result E B) (l : list A) (ys : list B) :
  map_result f l = Ok ys ↔ Forall2 (λ x y, f x = Ok y) l ys.
Proof.
  revert ys. induction l as [|x l IH]; intros ys; simpl.
  { split; [by intros [= <-]|by intros ->%Forall2_nil_inv_l]. }
  rewrite rbind_Ok. split.
  - intros (y & Hy & H). apply rbind_Ok in H as (zs & Hzs & [= <-]).
    constructor; [done|by apply IH].
  - intros H. apply Forall2_cons_inv_l in H as (y & zs & Hy & Hzs & ->).
    exists y. split; [done|]. apply rbind_Ok. exists zs.
    split; [by apply IH|done].
Qed.

(** ** Machine integers

    [usize] values that index vectors are [nat]; fixed-width integers are [N]
    with the width written out where the source checks or saturates. *)

Definition u8_max : N := 255.
Definition u16_max : N := 65535.
Definition u32_max : N := 4294967295.
Definition u64_max : N := 18446744073709551615.

(** [u32::try_from(usize)]. *)
Definition u32_try_from (n : nat) : option N :=
  if decide (N.of_nat n ≤ u32_max)%N then Some (N.of_nat n) else None.

(** [u32::checked_add]. *)
Definition u32_checked_add (a b : N) : option N :=
  if decide (a + b ≤ u32_max)%N then Some (a + b)%N else None.

(** [x as u32] of a [usize]: truncation. *)
Definition as_u32 (n : nat) : N := (N.of_nat n `mod` (u32_max + 1))%N.

(** [n += 1] on [u32], which wraps around in a release build. *)
Definition u32_succ (n : N) : N := if decide (n = u32_max) then 0%N else (n + 1)%N.

(** [u64::saturating_add]. *)
Definition u64_saturating_add (a b : N) : N := N.min (a + b) u64_max.

(** [u64::saturating_sub]. *)
Definition u64_saturating_sub (a b : N) : N := (a - b)%N.

Lemma u32_try_from_Some n m : u32_try_from n = Some m ↔ m = N.of_nat n ∧ (m ≤ u32_max)%N.
Proof. unfold u32_try_from. case_decide; naive_solver. Qed.

Lemma u32_checked_add_Some a b c :
  u32_checked_add a b = Some c ↔ c = (a + b)%N ∧ (c ≤ u32_max)%N.
Proof. unfold u32_checked_add. case_decide; naive_solver. Qed.

Lemma u32_succ_small n : (n + 1 ≤ u32_max)%N → u32_succ n = (n + 1)%N.
Proof. intros. unfold u32_succ. rewrite decide_False; [done|]. lia. Qed.

Lemma as_u32_small n : (N.of_nat n ≤ u32_max)%N → as_u32 n = N.of_nat n.
Proof. intros. unfold as_u32. apply N.mod_small. unfold u32_max in *. lia. Qed.

(** [usize] is 64 bits wide on the supported targets. *)
Definition usize_max : N := u64_max.

(** [usize::checked_add]. *)
Definition usize_checked_add (a b : nat) : option nat :=
  if decide (N.of_nat (a + b) ≤ usize_max)%N then Some (a + b) else None.

(** [usize::checked_sub]. *)
Definition usize_checked_sub (a b : nat) : option nat :=
  if decide (b ≤ a) then Some (a - b) else None.

Lemma usize_checked_add_Some a b c :
  usize_checked_add a b = Some c ↔ c = a + b ∧ (N.of_nat c ≤ usize_max)%N.
Proof. unfold usize_checked_add. case_decide; naive_solver. Qed.

(** ** Panics

    Rust code that indexes out of range, asserts, or calls [expect] on an absent
    value panics.  [Run] makes that an explicit outcome, so that "does not
    panic" is a theorem and not a modelling choice.  [PFuel] is the one
    constructor without a counterpart in the source: a loop modelled with fuel
    that ran out.  Every loop comes with a theorem that its fuel suffices. *)

Inductive panic : Type :=
| PIndex
| PAssert
| PExpect
| PUnreachable
| PFuel.

Abbreviation Run := (Result panic).

(** Code that may both panic and fail with an error [E]. *)
Inductive failure (E : Type) : Type :=
| Panicked (p : panic)
| Failed (e : E).
Arguments Panicked {E} p.
Arguments Failed {E} e.

Abbreviation Try E := (Result (failure E)).

Definition fail {E A} (e : E) : Try E A := Err (Failed e).
Definition lift_run {E A} (m : Run A) : Try E A := map_err Panicked m.
Definition lift_res {E A} (m : Result E A) : Try E A := map_err Failed m.

(** The computation neither panics nor runs out of fuel. *)
Definition no_panic {E A} (m : Try E A) : Prop := ∀ p, m ≠ Err (Panicked p).

(** [v[i]]. *)
Definition index {A} (l : list A) (i : nat) : Run A := ok_or (l !! i) PIndex.

(** [o.expect(..)]. *)
Definition expect {A} (o : option A) : Run A := ok_or o PExpect.

(** ** Text

    A Rust [String] is a valid UTF-8 sequence, hence a list of Unicode scalar
    values; [str] keeps exactly that list, so that [chars()] is the identity. *)

Abbreviation char := N (only parsing).
Abbreviation str := (list N).

(** A source literal as text. *)
Definition lit (s : string) : str :=
  (λ a, N_of_ascii a) <$> String.list_ascii_of_string s.
Arguments lit s%_stdpp_scope : simpl never.

(** [str::strip_prefix]. *)
Fixpoint strip_prefix (p s : str) : option str :=
  match p, s with
  | [], _ => Some s
  | a :: p', b :: s' => if decide (a = b) then strip_prefix p' s' else None
  | _ :: _, [] => None
  end.

Definition starts_with (s p : str) : bool :=
  match strip_prefix p s with Some _ => true | None => false end.

Definition ends_with (s p : str) : bool := starts_with (reverse s) (reverse p).

(** [str::contains] with a string needle: some suffix starts with the needle. *)
Fixpoint str_contains (s p : str) : bool :=
  starts_with s p ||
  match s with
  | [] => false
  | _ :: s' => str_contains s' p
  end.

Lemma strip_prefix_Some p s r : strip_prefix p s = Some r ↔ s = p ++ r.
Proof.
  revert s. induction p as [|a p IH]; intros [|b s]; simpl; [naive_solver..|].
  case_decide; naive_solver.
Qed.

Lemma strip_prefix_app p r : strip_prefix p (p ++ r) = Some r.
Proof. by apply strip_prefix_Some. Qed.

Lemma starts_with_true s p : starts_with s p = true ↔ p `prefix_of` s.
Proof.
  unfold starts_with. destruct (strip_prefix p s) as [r|] eqn:H.
  - apply strip_prefix_Some in H as ->. split; [|done]. intros _. by eexists.
  - split; [done|]. intros [r ->]. by rewrite strip_prefix_app in H.
Qed.

Lemma ends_with_true s p : ends_with s p = true ↔ p `suffix_of` s.
Proof. unfold ends_with. by rewrite starts_with_true, suffix_prefix_reverse. Qed.

Lemma str_contains_true s p : str_contains s p = true ↔ ∃ a b, s = a ++ p ++ b.
Proof.
  induction s as [|c s IH]; simpl; rewrite orb_true_iff, starts_with_true.
  - split.
    + intros [[r Hr]|]; [|done]. by exists [], r.
    + intros (a & b & H). left. destruct a; [|done]. by exists b.
  - rewrite IH. split.
    + intros [[r Hr]|(a & b & ->)]; [by exists [], r|by exists (c :: a), b].
    + intros ([|x a] & b & H); simplify_eq/=; [left; by exists b|right; by exists a, b].
Qed.

(** ** Shared list lemmas *)

(** [&v[i..j]] for indices in range. *)
Definition slice {A} (l : list A) (i j : nat) : list A := take (j - i) (drop i l).

(** The longest prefix that satisfies [f] ([while f(v[i]) { i += 1 }]). *)
Fixpoint take_while {A} (f : A → bool) (l : list A) : list A :=
  match l with
  | [] => []
  | x :: l' => if f x then x :: take_while f l' else []
  end.

Lemma length_take_while {A} (f : A → bool) (l : list A) : length (take_while f l) ≤ length l.
Proof. induction l as [|x l IH]; simpl; [done|]. destruct (f x); simpl; lia. Qed.

Lemma length_slice {A} (l : list A) i j : length (slice l i j) = (j - i) `min` (length l - i).
Proof. unfold slice. by rewrite length_take, length_drop. Qed.

Lemma drop_lookup_cons {A} (l : list A) i x :
  l !! i = Some x → drop i l = x :: drop (S i) l.
Proof. intros H. by apply drop_S. Qed.

Lemma drop_of_drop {A} (l a b : list A) i n :
  drop i l = a ++ b → n = length a → drop (i + n) l = b.
Proof. intros H ->. by rewrite <- drop_drop, H, drop_app_length. Qed.

Lemma lookup_of_drop {A} (l : list A) i k d :
  drop i l = d → l !! (i + k) = d !! k.
Proof. intros <-. by rewrite lookup_drop. Qed.

Lemma length_of_drop {A} (l d : list A) off : drop off l = d → d ≠ [] → length l = off + length d.
Proof.
  intros <- Hne. rewrite length_drop. destruct (decide (off ≤ length l)); [lia|].
  rewrite drop_ge in Hne by lia. done.
Qed.

(** [Vec::truncate] is [take]; [iter().position] is the first index that
    satisfies a boolean predicate. *)
Fixpoint position {A} (f : A → bool) (l : list A) : option nat :=
  match l with
  | [] => None
  | x :: l' => if f x then Some 0 else S <$> position f l'
  end.

Lemma position_Some {A} (f : A → bool) l i :
  position f l = Some i →
  ∃ x, l !! i = Some x ∧ f x = true ∧
       ∀ j y, j < i → l !! j = Some y → f y = false.
Proof.
  revert i. induction l as [|x l IH]; intros i; simpl; [done|].
  destruct (f x) eqn:Hx.
  - intros [= <-]. exists x. split_and!; [done..|]. intros; lia.
  - intros H. apply fmap_Some in H as (i' & Hi & ->).
    destruct (IH _ Hi) as (y & ? & ? & Hlt). exists y. split_and!; [done..|].
    intros [|j] z ? Hz; simpl in *; [naive_solver|]. apply (Hlt j); [lia|done].
Qed.

Lemma position_None {A} (f : A → bool) l :
  position f l = None ↔ Forall (λ x, f x = false) l.
Proof.
  induction l as [|x l IH]; simpl; [by split; auto|].
  rewrite Forall_cons, <- IH. destruct (f x); [naive_solver|].
  rewrite fmap_None. naive_solver.
Qed.

Lemma position_app_Some {A} (f : A → bool) l k i :
  position f l = Some i → position f (l ++ k) = Some i.
Proof.
  revert i. induction l as [|x l IH]; intros i; simpl; [done|].
  destruct (f x); [done|]. intros (j & Hj & ->)%fmap_Some. by rewrite (IH _ Hj).
Qed.

Lemma position_lt {A} (f : A → bool) l i : position f l = Some i → i < length l.
Proof. intros (x & Hx & _)%position_Some. by eapply lookup_lt_Some. Qed.

(** [iter().find]: the first element that satisfies a boolean predicate. *)
Fixpoint find {A} (f : A → bool) (l : list A) : option A :=
  match l with
  | [] => None
  | x :: l' => if f x then Some x else find f l'
  end.

Lemma find_Some {A} (f : A → bool) l x : find f l = Some x → x ∈ l ∧ f x = true.
Proof.
  induction l as [|y l IH]; simpl; [done|].
  destruct (f y) eqn:Hy; [intros [= ->]; by split; [left|]|].
  intros [??]%IH. split; [by right|done].
Qed.

Lemma find_None {A} (f : A → bool) l : find f l = None ↔ Forall (λ x, f x = false) l.
Proof.
  induction l as [|y l IH]; simpl; [by split; auto|].
  rewrite Forall_cons, <- IH. destruct (f y); naive_solver.
Qed.

Lemma existsb_exists_elem {A} (f : A → bool) l :
  existsb f l = true ↔ ∃ x, x ∈ l ∧ f x = true.
Proof. rewrite existsb_exists. setoid_rewrite list_elem_of_In. done. Qed.

Lemma sorted_lt_NoDup (l : list nat) : StronglySorted lt l → NoDup l.
Proof.
  induction 1 as [|x l Hs IH Hall]; constructor; [|done].
  intros Hx. rewrite Forall_forall in Hall. specialize (Hall x Hx). lia.
Qed.

(** Strictly sorted lists are determined by their elements. *)
Lemma sorted_lt_unique (l k : list nat) :
  StronglySorted lt l → StronglySorted lt k → (∀ i, i ∈ l ↔ i ∈ k) → l = k.
Proof.
  intros Hl Hk Heq. apply (StronglySorted_unique_strong lt); [|done..|].
  - intros x y _ _ ??. lia.
  - apply NoDup_Permutation; auto using sorted_lt_NoDup.
Qed.

Lemma sorted_lt_filter (f : nat → bool) (l : list nat) :
  StronglySorted lt l → StronglySorted lt (List.filter f l).
Proof.
  induction 1 as [|x l Hs IH Hall]; simpl; [constructor|].
  destruct (f x); [|done]. constructor; [done|].
  rewrite Forall_forall in *. intros y Hy%list_elem_of_In.
  apply filter_In in Hy as [Hy _]. by apply Hall, list_elem_of_In.
Qed.

(** ** Proof automation *)

(** Splits a successful or failed monadic computation found in a hypothesis. *)
Ltac inv_result :=
  repeat match goal with
  | H : rbind _ _ = Ok _ |- _ =>
      let a := fresh "a" in let Ha := fresh "Hok" in
      apply rbind_Ok in H as (a & Ha & H)
  | H : ok_or _ _ = Ok _ |- _ => apply ok_or_Ok in H
  | H : map_err _ _ = Ok _ |- _ => apply map_err_Ok in H
  | H : Ok _ = Ok _ |- _ => injection H as H; subst
  | H : Err _ = Ok _ |- _ => discriminate H
  | H : Ok _ = Err _ |- _ => discriminate H
  | u : unit |- _ => destruct u
  end.

(** Case analysis on the conditions of a hypothesis about a handler. *)
Ltac case_hyp H :=
  repeat (case_match || case_decide); simplify_eq/=; try discriminate H.

Create HintDb surtr discriminated.
Create Rewrite HintDb surtr_len.
#[export] Hint Resolve position_lt position_app_Some strip_prefix_app : surtr.
#[export] Hint Rewrite @length_app @length_take @length_drop @length_map
  @length_insert @length_replicate @length_reverse : surtr_len.

(** Length arithmetic on lists. *)
Ltac len := autorewrite with surtr_len in *; simpl in *; try lia.
