(* ===== verification/Names.v ===== *)
(** * Canonical and surface names ([crates/sindr/src/names.rs])

    Canonical identities carry the implicit root namespace [Global::]; user-facing
    surfaces hide it.  The type registry, the [EqPid] opcode and the process
    registry all compare names through these functions. *)

From S2P Require Import Prelude.

Definition IMPLICIT_ROOT_NAMESPACE_PREFIX : str := lit "Global::".

(** The canonical identity of a compiler-generated error head; the source
    asserts that the head is unqualified. *)
Definition compiler_global_error_kind (kind : str) : Run str :=
  if str_contains kind (lit "::") then Err PAssert
  else Ok (IMPLICIT_ROOT_NAMESPACE_PREFIX ++ kind).

Definition surface_path_name (name : str) : str :=
  default name (strip_prefix IMPLICIT_ROOT_NAMESPACE_PREFIX name).

Definition surface_path_eq (left right : str) : bool :=
  bool_decide (surface_path_name left = surface_path_name right).

(** [str::replace(pat, to)] for a non-empty pattern: leftmost, non-overlapping.
    The fuel is the length of the text: every step consumes a character. *)
Fixpoint str_replace (fuel : nat) (s pat to : str) : str :=
  match fuel with
  | 0 => s
  | S fuel' =>
      match strip_prefix pat s with
      | Some rest => to ++ str_replace fuel' rest pat to
      | None =>
          match s with
          | [] => []
          | c :: s' => c :: str_replace fuel' s' pat to
          end
      end
  end.

Definition surface_rendered_name (name : str) : str :=
  let path := surface_path_name name in
  str_replace (S (length path)) path (lit "::Global::") (lit "::").

Definition surface_rendered_eq (left right : str) : bool :=
  bool_decide (surface_rendered_name left = surface_rendered_name right).

Lemma surface_path_name_global name :
  surface_path_name (IMPLICIT_ROOT_NAMESPACE_PREFIX ++ name) = name.
Proof. unfold surface_path_name. by rewrite strip_prefix_app. Qed.

Lemma surface_path_eq_true a b :
  surface_path_eq a b = true ↔ surface_path_name a = surface_path_name b.
Proof. apply bool_decide_eq_true. Qed.

Lemma surface_path_name_cases name :
  surface_path_name name = name ∨ name = IMPLICIT_ROOT_NAMESPACE_PREFIX ++ surface_path_name name.
Proof.
  unfold surface_path_name.
  destruct (strip_prefix IMPLICIT_ROOT_NAMESPACE_PREFIX name) as [r|] eqn:H; [right|by left].
  by apply strip_prefix_Some in H.
Qed.
