(* ===== verification/ListHandle.v ===== *)
(** * Persistent lists of the runtime ([crates/sindr/src/runtime.rs])

    The VM's [List] values are [ListHandle]s: an immutable sequence made of cons
    nodes and packed chunks of at most [LIST_CHUNK_CAPACITY] values, with a cached
    logical length.  The nodes are reference counted but never mutated, so a
    handle is modelled by the value it denotes.  [lh_items] is the abstract
    sequence, [lh_wf] the representation invariant; every operation is shown to
    implement the corresponding operation on plain lists and not to panic. *)

From S2P Require Import Prelude.

(** [struct ListHandle { repr, len }] with its [enum ListRepr]: the three
    shapes of the representation, each carrying the cached length. *)
Inductive ListHandle (A : Type) : Type :=
| Empty (len : nat)
| Cons (value : A) (tail : ListHandle A) (len : nat)
| Packed (items : list A) (tail : ListHandle A) (offset : nat) (len : nat).

Arguments Empty {A} len.
Arguments Cons {A} value tail len.
Arguments Packed {A} items tail offset len.

Definition LIST_CHUNK_CAPACITY : nat := 256.

Module ListHandle.

Definition len {A} (h : ListHandle A) : nat :=
  match h with Empty n | Cons _ _ n | Packed _ _ _ n => n end.

Section operations.
Context {A : Type}.
Implicit Types (h tail : ListHandle A) (items : list A).

Definition empty : ListHandle A := Empty 0.

Definition is_empty h : bool := bool_decide (len h = 0).

Definition cons (head : A) (tail : ListHandle A) : Run (ListHandle A) :=
  let? n := expect (usize_checked_add (len tail) 1) in
  Ok (Cons head tail n).

Definition prepend_items items tail : Run (ListHandle A) :=
  if negb (bool_decide (items = [])) && bool_decide (length items ≤ LIST_CHUNK_CAPACITY) then
    let? n := expect (usize_checked_add (len tail) (length items)) in
    Ok (Packed items tail 0 n)
  else Err PAssert.

(** The [loop] of [from_items]: [remaining] is the reversed input not consumed
    yet, [chunk_len] the size of the next chunk. *)
Fixpoint from_items_loop (fuel : nat) (remaining : list A) (chunk_len : nat)
    (output : ListHandle A) : Run (ListHandle A) :=
  match fuel with
  | 0 => Err PFuel
  | S fuel' =>
      let chunk := take chunk_len remaining in
      match chunk with
      | [] => Ok output
      | _ =>
          let? output' := prepend_items (reverse chunk) output in
          from_items_loop fuel' (drop chunk_len remaining) LIST_CHUNK_CAPACITY output'
      end
  end.

Definition from_items items : Run (ListHandle A) :=
  let n := length items in
  if decide (n = 0) then Ok empty
  else if decide (n ≤ LIST_CHUNK_CAPACITY) then prepend_items items empty
  else from_items_loop (S n) (reverse items) ((n - 1) `mod` LIST_CHUNK_CAPACITY + 1) empty.

Definition head_value h : Run (option A) :=
  match h with
  | Empty _ => Ok None
  | Cons v _ _ => Ok (Some v)
  | Packed items _ offset _ => let? v := index items offset in Ok (Some v)
  end.

Definition tail_handle h : Run (option (ListHandle A)) :=
  match h with
  | Empty _ => Ok None
  | Cons _ tail _ => Ok (Some tail)
  | Packed items tail offset _ =>
      let? offset' := expect (usize_checked_add offset 1) in
      let? n := expect (usize_checked_sub (len h) 1) in
      Ok (Some (if decide (offset' = length items) then tail
                else Packed items tail offset' n))
  end.

(** [ListIter::next]: the handle itself is the iterator state. *)
Definition iter_next h : Run (option A * ListHandle A) :=
  let? head := head_value h in
  match head with
  | None => Ok (None, h)
  | Some v =>
      let? t := tail_handle h in
      let? tail := expect t in
      Ok (Some v, tail)
  end.

(** Collecting an iterator, as [iter().collect()] and [iter().eq(..)] do. *)
Fixpoint iter_collect (fuel : nat) h : Run (list A) :=
  match fuel with
  | 0 => Err PFuel
  | S fuel' =>
      let? '(item, rest) := iter_next h in
      match item with
      | None => Ok []
      | Some v => let? vs := iter_collect fuel' rest in Ok (v :: vs)
      end
  end.

Definition to_vec h : Run (list A) := iter_collect (S (len h)) h.

(** [PartialEq for ListHandle], over an element equality. *)
Definition eq (eqb : A → A → bool) h1 h2 : Run bool :=
  if decide (len h1 = len h2) then
    let? l1 := to_vec h1 in
    let? l2 := to_vec h2 in
    Ok (forallb (λ p, eqb p.1 p.2) (zip l1 l2) && bool_decide (length l1 = length l2))
  else Ok false.

End operations.

(** [ListRefIter]: a borrowing iterator that walks inside a packed chunk with
    its own offset instead of building tail handles. *)
Record ListRefIter (A : Type) : Type := mkRefIter {
  remaining : ListHandle A;
  iter_offset : option nat;
  iter_len : nat;
}.
Arguments mkRefIter {A} remaining iter_offset iter_len.
Arguments remaining {A} _.
Arguments iter_offset {A} _.
Arguments iter_len {A} _.

Section ref_iter.
Context {A : Type}.
Implicit Types (h : ListHandle A) (it : ListRefIter A).

Definition iter_refs h : ListRefIter A := mkRefIter h None (len h).

Definition ref_next it : Run (option A * ListRefIter A) :=
  let step (v : A) (rem : ListHandle A) (off : option nat) : Run (option A * ListRefIter A) :=
    let? n := expect (usize_checked_sub (iter_len it) 1) in
    Ok (Some v, mkRefIter rem off n) in
  match remaining it with
  | Empty _ => Ok (None, it)
  | Cons v tail _ => step v tail (iter_offset it)
  | Packed items tail packed_offset _ =>
      let offset := default packed_offset (iter_offset it) in
      let? v := index items offset in
      if decide (offset + 1 = length items) then step v tail None
      else step v (remaining it) (Some (offset + 1))
  end.

Fixpoint ref_collect (fuel : nat) it : Run (list A) :=
  match fuel with
  | 0 => Err PFuel
  | S fuel' =>
      let? '(item, it') := ref_next it in
      match item with
      | None => Ok []
      | Some v => let? vs := ref_collect fuel' it' in Ok (v :: vs)
      end
  end.

End ref_iter.

(** ** Abstraction and representation invariant *)

Fixpoint items {A} (h : ListHandle A) : list A :=
  match h with
  | Empty _ => []
  | Cons v tail _ => v :: items tail
  | Packed chunk tail offset _ => drop offset chunk ++ items tail
  end.

Fixpoint wf {A} (h : ListHandle A) : Prop :=
  len h = length (items h) ∧ (N.of_nat (len h) ≤ usize_max)%N ∧
  match h with
  | Empty _ => True
  | Cons _ tail _ => wf tail
  | Packed chunk tail offset _ =>
      offset < length chunk ∧ length chunk ≤ LIST_CHUNK_CAPACITY ∧ wf tail
  end.

Section proofs.
Context {A : Type}.
Implicit Types (h tail : ListHandle A) (l : list A).

Lemma wf_len h : wf h → len h = length (items h).
Proof. by destruct h; intros [? _]. Qed.

Lemma wf_bound h : wf h → (N.of_nat (length (items h)) ≤ usize_max)%N.
Proof. intros Hwf. rewrite <- wf_len by done. by destruct h; destruct Hwf as (_ & ? & _). Qed.

Lemma empty_spec : wf (@empty A) ∧ items (@empty A) = [].
Proof. done. Qed.

Lemma cons_spec v tail :
  wf tail → (N.of_nat (S (len tail)) ≤ usize_max)%N →
  ∃ h, cons v tail = Ok h ∧ wf h ∧ items h = v :: items tail.
Proof.
  intros Hwf Hb. unfold cons, expect, usize_checked_add.
  rewrite Nat.add_1_r, decide_True by done. simpl. eexists. split; [done|].
  simpl. rewrite <- (wf_len _ Hwf). split; [by split_and!|done].
Qed.

Lemma prepend_items_spec l tail :
  l ≠ [] → length l ≤ LIST_CHUNK_CAPACITY → wf tail →
  (N.of_nat (len tail + length l) ≤ usize_max)%N →
  ∃ h, prepend_items l tail = Ok h ∧ wf h ∧ items h = l ++ items tail.
Proof.
  intros Hne Hcap Hwf Hb. unfold prepend_items, expect, usize_checked_add.
  rewrite bool_decide_false, bool_decide_true by done. simpl.
  rewrite decide_True by done. simpl. eexists. split; [done|]. simpl.
  rewrite drop_0. rewrite (wf_len _ Hwf) in *. split; [|done].
  split_and!; [len|done| |done..].
  destruct l; simpl; [done|lia].
Qed.

Lemma from_items_loop_spec fuel l chunk_len out :
  length l < fuel → 0 < chunk_len ≤ LIST_CHUNK_CAPACITY → wf out →
  (N.of_nat (len out + length l) ≤ usize_max)%N →
  ∃ h, from_items_loop fuel (reverse l) chunk_len out = Ok h ∧ wf h ∧ items h = l ++ items out.
Proof.
  revert l chunk_len out.
  induction fuel as [|fuel IH]; intros l n out Hfuel Hn Hwf Hb; [lia|]. simpl.
  assert (∃ k c, l = k ++ c ∧ take n (reverse l) = reverse c ∧ drop n (reverse l) = reverse k)
    as (k & c & -> & Htake & Hdrop).
  { exists (take (length l - n) l), (drop (length l - n) l).
    by rewrite take_drop, take_reverse, drop_reverse. }
  rewrite Htake, Hdrop, reverse_involutive. len.
  destruct (decide (c = [])) as [->|Hc].
  { assert (k = []) as ->; [|by exists out].
    apply nil_length_inv. apply (f_equal length) in Htake. len. }
  assert (length c = n ∨ k = []) as Hlen.
  { apply (f_equal length) in Htake. destruct k as [|x k]; [by right|left].
    apply (f_equal length) in Hdrop. len. }
  assert (length c ≤ LIST_CHUNK_CAPACITY).
  { apply (f_equal length) in Htake. len. }
  destruct (prepend_items_spec c out) as (h & -> & Hh & Hitems); [done..|lia|].
  destruct (reverse c) as [|y ys] eqn:Hrev.
  { exfalso. apply Hc. apply (f_equal length) in Hrev. len. by apply nil_length_inv. }
  simpl. destruct (IH k LIST_CHUNK_CAPACITY h) as (h' & ? & ? & Hh').
  - destruct c; [done|]. simpl in *. lia.
  - unfold LIST_CHUNK_CAPACITY. lia.
  - done.
  - rewrite (wf_len _ Hh), Hitems. rewrite (wf_len _ Hwf) in Hb. len.
  - exists h'. split_and!; [done..|]. by rewrite Hh', Hitems, app_assoc.
Qed.

Lemma from_items_ok l :
  (N.of_nat (length l) ≤ usize_max)%N →
  ∃ h, from_items l = Ok h ∧ wf h ∧ items h = l.
Proof.
  intros Hb. unfold from_items. case_decide as H0.
  { exists empty. apply nil_length_inv in H0 as ->. split; [done|apply empty_spec]. }
  case_decide as Hcap.
  - destruct (prepend_items_spec l empty) as (h & ? & ? & Hi); try done.
    { by intros ->. }
    exists h. by rewrite Hi, app_nil_r.
  - destruct (from_items_loop_spec (S (length l)) l
      ((length l - 1) `mod` LIST_CHUNK_CAPACITY + 1) empty) as (h & ? & ? & Hi).
    + lia.
    + pose proof (Nat.mod_upper_bound (length l - 1) LIST_CHUNK_CAPACITY).
      unfold LIST_CHUNK_CAPACITY in *. lia.
    + done.
    + done.
    + exists h. by rewrite Hi, app_nil_r.
Qed.

Lemma head_value_spec h : wf h → head_value h = Ok (head (items h)).
Proof.
  destruct h as [n|v t n|chunk t off n]; [done..|]. intros (_ & _ & Hoff & _).
  unfold head_value, index. simpl.
  destruct (lookup_lt_is_Some_2 chunk off Hoff) as [x Hx].
  rewrite Hx. simpl. by rewrite (drop_S _ _ _ Hx).
Qed.

Lemma tail_handle_spec h :
  wf h →
  match items h with
  | [] => tail_handle h = Ok None
  | _ :: l => ∃ t, tail_handle h = Ok (Some t) ∧ wf t ∧ items t = l
  end.
Proof.
  destruct h as [n|v t n|chunk t off n]; [done|..].
  { intros (_ & _ & Hwf). by exists t. }
  intros (Hn & Hb & Hoff & Hcap & Hwf). simpl in *. subst n.
  destruct (lookup_lt_is_Some_2 chunk off Hoff) as [x Hx].
  rewrite (drop_S _ _ _ Hx) in *. simpl in *.
  unfold tail_handle, expect, usize_checked_add, usize_checked_sub. simpl.
  rewrite Nat.add_1_r. len. rewrite decide_True.
  2:{ unfold usize_max, u64_max, LIST_CHUNK_CAPACITY in *. lia. }
  simpl. case_decide as Hend.
  - eexists. split_and!; [done..|]. rewrite (drop_ge chunk) by lia. done.
  - eexists. split_and!; [done| |done]. simpl. split_and!; [len..|done].
Qed.

Lemma iter_next_spec h :
  wf h →
  match items h with
  | [] => iter_next h = Ok (None, h)
  | v :: l => ∃ t, iter_next h = Ok (Some v, t) ∧ wf t ∧ items t = l
  end.
Proof.
  intros Hwf. pose proof (head_value_spec h Hwf) as Hh.
  pose proof (tail_handle_spec h Hwf) as Ht.
  unfold iter_next. rewrite Hh. destruct (items h) as [|v l]; [done|].
  destruct Ht as (t & Ht & ? & ?). simpl. rewrite Ht. by exists t.
Qed.

Lemma iter_collect_spec fuel h :
  wf h → length (items h) < fuel → iter_collect fuel h = Ok (items h).
Proof.
  revert h. induction fuel as [|fuel IH]; intros h Hwf Hlt; [lia|]. simpl.
  pose proof (iter_next_spec h Hwf) as Hn. destruct (items h) as [|v l].
  - by rewrite Hn.
  - destruct Hn as (t & -> & Ht & <-). simpl in *. rewrite IH by (done || lia). done.
Qed.

Lemma to_vec_spec h : wf h → to_vec h = Ok (items h).
Proof. intros Hwf. apply iter_collect_spec; [done|]. rewrite (wf_len _ Hwf). lia. Qed.

(** The sequence a borrowing iterator still has to yield. *)
Definition ref_items (it : ListRefIter A) : list A :=
  match remaining it, iter_offset it with
  | Packed chunk tail _ _, Some o => drop o chunk ++ items tail
  | _, _ => items (remaining it)
  end.

Definition ref_wf (it : ListRefIter A) : Prop :=
  wf (remaining it) ∧ iter_len it = length (ref_items it) ∧
  match iter_offset it with
  | None => True
  | Some o => ∃ chunk tail p n, remaining it = Packed chunk tail p n ∧ o < length chunk
  end.

Lemma ref_fresh h n :
  wf h → n = length (items h) →
  ref_wf (mkRefIter h None n) ∧ ref_items (mkRefIter h None n) = items h.
Proof.
  intros Hwf ->. assert (ref_items (mkRefIter h None (length (items h))) = items h) as Heq.
  { unfold ref_items. simpl. by destruct h. }
  split; [|done]. split_and!; [done| |done]. by rewrite Heq.
Qed.

Lemma iter_refs_wf h : wf h → ref_wf (iter_refs h) ∧ ref_items (iter_refs h) = items h.
Proof. intros Hwf. apply ref_fresh; [done|by apply wf_len]. Qed.

Lemma ref_next_packed it chunk tail p n o x :
  remaining it = Packed chunk tail p n →
  default p (iter_offset it) = o → wf (remaining it) → chunk !! o = Some x →
  iter_len it = length (drop o chunk ++ items tail) →
  ∃ it', ref_next it = Ok (Some x, it') ∧ ref_wf it' ∧
         ref_items it' = drop (S o) chunk ++ items tail.
Proof.
  destruct it as [h off k]. simpl. intros -> Ho Hwf Hx ->.
  pose proof (lookup_lt_Some _ _ _ Hx) as Hlt.
  rewrite (drop_S _ _ _ Hx). simpl. unfold ref_next, index. simpl.
  rewrite Ho, Hx. simpl. rewrite Nat.add_1_r.
  case_decide as Hend; simpl; eexists; (split; [done|]).
  - rewrite (drop_ge chunk) by lia. apply ref_fresh; [by destruct Hwf as (_ & _ & _ & _ & ?)|].
    simpl. lia.
  - unfold ref_wf, ref_items. simpl. split; [|done]. split_and!; [apply Hwf..|lia|].
    eexists _, _, _, _. split; [done|]. lia.
Qed.

Lemma ref_next_spec it :
  ref_wf it →
  match ref_items it with
  | [] => ref_next it = Ok (None, it)
  | v :: l => ∃ it', ref_next it = Ok (Some v, it') ∧ ref_wf it' ∧ ref_items it' = l
  end.
Proof.
  destruct it as [[n|v t n|chunk t p n] off k]; unfold ref_wf, ref_items; simpl.
  - by intros (_ & -> & _).
  - intros ((_ & _ & Ht) & -> & Hoff). destruct off as [o|].
    { by destruct Hoff as (? & ? & ? & ? & ? & _). }
    eexists. unfold ref_next. simpl. split; [done|]. apply ref_fresh; [done|lia].
  - intros (Hwf & Hk & Hoff).
    assert (∃ o, default p off = o ∧ o < length chunk ∧ k = length (drop o chunk ++ items t) ∧
      match off with Some o => drop o chunk ++ items t | None => drop p chunk ++ items t end =
      drop o chunk ++ items t) as (o & Ho & Hlt & Hk' & ->).
    { destruct off as [o|]; simpl in *.
      - destruct Hoff as (? & ? & ? & ? & [= <- <- <- <-] & ?). by exists o.
      - exists p. naive_solver. }
    destruct (lookup_lt_is_Some_2 chunk o Hlt) as [x Hx].
    rewrite (drop_S _ _ _ Hx). simpl. by eapply ref_next_packed.
Qed.

Lemma ref_collect_spec fuel it :
  ref_wf it → length (ref_items it) < fuel → ref_collect fuel it = Ok (ref_items it).
Proof.
  revert it. induction fuel as [|fuel IH]; intros it Hwf Hlt; [lia|]. simpl.
  pose proof (ref_next_spec it Hwf) as Hn. destruct (ref_items it) as [|v l].
  - by rewrite Hn.
  - destruct Hn as (t & -> & Ht & <-). simpl in *. rewrite IH by (done || lia). done.
Qed.

(** ** Properties *)

(** packing a vector into chunks and iterating it again gives back the same
    values in the same order, for every length: [from_items] never violates the
    chunk-size contract of [prepend_items], its loop terminates within the
    number of items, and the result satisfies the representation invariant. *)
Theorem from_items_roundtrip (l : list A)
    (Hb : (N.of_nat (length l) ≤ usize_max)%N) :
  ∃ h, from_items l = Ok h ∧ wf h ∧ len h = length l ∧ to_vec h = Ok l.
Proof.
  destruct (from_items_ok l Hb) as (h & Hh & Hwf & <-). exists h.
  split_and!; [done..|by apply wf_len|by apply to_vec_spec].
Qed.

(** on a well-formed handle [head_value], [tail_handle] and [is_empty]
    agree with the sequence it denotes, whichever node it is made of, and the
    tail is again well formed with its cached length one smaller. *)
Theorem uncons_refines (h : ListHandle A) (Hwf : wf h) :
  head_value h = Ok (head (items h)) ∧
  is_empty h = bool_decide (items h = []) ∧
  match items h with
  | [] => tail_handle h = Ok None
  | _ :: l => ∃ t, tail_handle h = Ok (Some t) ∧ wf t ∧ items t = l ∧ len h = S (len t)
  end.
Proof.
  split_and!; [by apply head_value_spec| |].
  - unfold is_empty. rewrite (wf_len _ Hwf). apply bool_decide_ext.
    split; [apply nil_length_inv|by intros ->].
  - pose proof (tail_handle_spec h Hwf) as Ht. pose proof (wf_len _ Hwf) as Hlen.
    destruct (items h); [done|]. destruct Ht as (t & ? & Hwt & <-).
    exists t. by rewrite Hlen, (wf_len _ Hwt).
Qed.

(** The borrowing iterator, which walks inside packed chunks with its own
    offset, yields exactly what the owning iterator yields, and neither runs out
    of the cached length. *)
Theorem iter_refs_agrees_with_iter (h : ListHandle A) (Hwf : wf h) :
  ref_collect (S (len h)) (iter_refs h) = to_vec h ∧ to_vec h = Ok (items h).
Proof.
  destruct (iter_refs_wf h Hwf) as [Hr Heq].
  rewrite to_vec_spec by done. split; [|done].
  rewrite ref_collect_spec; [by rewrite Heq|done|]. rewrite Heq, (wf_len _ Hwf). lia.
Qed.

(** Equality of handles is equality of the sequences they denote, whatever the
    two representations are. *)
Lemma eq_spec (eqb : A → A → bool) (Heqb : ∀ x y, eqb x y = true ↔ x = y)
    (h1 h2 : ListHandle A) (H1 : wf h1) (H2 : wf h2) :
  ∃ b, eq eqb h1 h2 = Ok b ∧ (b = true ↔ items h1 = items h2).
Proof.
  unfold eq. rewrite (wf_len _ H1), (wf_len _ H2). case_decide as Hl.
  2:{ exists false. split; [done|]. split; [done|]. intros Heq; by rewrite Heq in Hl. }
  rewrite !to_vec_spec by done. simpl. eexists. split; [done|].
  rewrite bool_decide_true, andb_true_r by done. revert Hl.
  generalize (items h1), (items h2). intros l1.
  induction l1 as [|x l1 IH]; intros [|y l2] Hl; simplify_eq/=; [done|].
  rewrite andb_true_iff, Heqb, (IH l2 Hl). naive_solver.
Qed.

End proofs.

(** A three-element list split over two chunks, at a one-chunk boundary that is
    small enough to evaluate. *)
Definition sample : ListHandle nat :=
  Packed [9; 1; 2] (Cons 3 empty 1) 1 3.

Lemma from_items_roundtrip_witness :
  (N.of_nat (length (seq 0 600)) ≤ usize_max)%N ∧
  ∃ h, from_items (seq 0 600) = Ok h ∧ wf h ∧ len h = length (seq 0 600) ∧
       to_vec h = Ok (seq 0 600).
Proof. split; [vm_compute; discriminate|]. apply (from_items_roundtrip (seq 0 600)). vm_compute; discriminate. Defined.

Lemma uncons_refines_witness :
  wf sample ∧ head_value sample = Ok (head (items sample)) ∧
  is_empty sample = bool_decide (items sample = []) ∧
  match items sample with
  | [] => tail_handle sample = Ok None
  | _ :: l => ∃ t, tail_handle sample = Ok (Some t) ∧ wf t ∧ items t = l ∧ len sample = S (len t)
  end.
Proof.
  assert (wf sample) as Hwf by (simpl; unfold LIST_CHUNK_CAPACITY, usize_max, u64_max; repeat split; lia).
  split; [exact Hwf|]. exact (uncons_refines sample Hwf).
Defined.

Lemma iter_refs_agrees_with_iter_witness :
  wf sample ∧ ref_collect 4 (iter_refs sample) = to_vec sample ∧ to_vec sample = Ok [1; 2; 3].
Proof.
  assert (wf sample) as Hwf by (simpl; unfold LIST_CHUNK_CAPACITY, usize_max, u64_max; repeat split; lia).
  split; [exact Hwf|]. exact (iter_refs_agrees_with_iter sample Hwf).
Defined.

End ListHandle.
