(* ===== verification/Value.v ===== *)
(** * Runtime values ([crates/sindr/src/runtime.rs])

    The data the virtual machine computes with: tagged values, callables, rich
    errors, and the handles of the runtime's tables.  Reference-counted payloads
    that are never mutated are modelled by the value they hold; a [PidHandle]
    keeps the address of its shared identity, because the runtime compares
    handles by pointer. *)

From S2P Require Import Prelude Names ListHandle.
From Stdlib Require Export SpecFloat.

(** [SurtrInt] is an unbounded [BigInt]; tags and table indices are fixed width. *)
Abbreviation SurtrInt := Z.
Abbreviation RuntimeTag := N (only parsing).
Abbreviation BuiltinId := N (only parsing).
Abbreviation FunctionId := N (only parsing).

(** ** IEEE 754 binary64 *)

Abbreviation f64 := spec_float.
Definition f64_prec : Z := 53.
Definition f64_emax : Z := 1024.

Definition is_finite (f : f64) : bool :=
  match f with
  | S754_zero _ | S754_finite _ _ _ => true
  | S754_infinity _ | S754_nan => false
  end.

Definition f64_add := SFadd f64_prec f64_emax.
Definition f64_sub := SFsub f64_prec f64_emax.
Definition f64_mul := SFmul f64_prec f64_emax.
Definition f64_neg := SFopp.
Definition f64_eq := SFeqb.
Definition f64_lt := SFltb.
Definition f64_le := SFleb.

(** ** Runtime type metadata *)

Inductive TypeKind : Type := TkStruct | TkRecord | TkEnumVariant.
#[export] Instance TypeKind_eq_dec : EqDecision TypeKind.
Proof. solve_decision. Defined.

Record TypeEntry : Type := mkTypeEntry {
  te_tag : RuntimeTag;
  te_name : str;
  te_kind : TypeKind;
  te_field_names : list str;
  te_private_flags : list bool;
}.
#[export] Instance TypeEntry_eq_dec : EqDecision TypeEntry.
Proof. solve_decision. Defined.

(** ** Source locations and stack traces *)

Record Location : Type := mkLocation {
  loc_file : str;
  loc_func : str;
  loc_line : N;
  loc_column : N;
  loc_span_start : N;
  loc_span_end : N;
}.
#[export] Instance Location_eq_dec : EqDecision Location.
Proof. solve_decision. Defined.

Inductive RuntimeExecutionPhase : Type := PhaseVmInit | PhaseRuntime.

Inductive RuntimeCallKind : Type :=
| DirectFunction
| ClosureFunction
| CkBuiltin
| CallableTemplateCall
| ProcessMessage
| CkTask
| StandbyInit
| EagerInit.

Record RuntimeProcessTraceContext : Type := mkProcessTrace {
  ptc_pid : option N;
  ptc_process_name : option str;
  ptc_trigger : option str;
}.

Record RuntimeStackFrame : Type := mkStackFrame {
  sf_phase : RuntimeExecutionPhase;
  sf_function : option str;
  sf_fun_idx : option N;
  sf_call_kind : RuntimeCallKind;
  sf_location : option Location;
  sf_process : option RuntimeProcessTraceContext;
  sf_tco : bool;
}.

(** ** Handles *)

Record RegexHandle : Type := mkRegex { rx_pattern : str }.

Record RegexCapturesHandle : Type := mkRegexCaptures {
  rc_input : str;
  rc_groups : list (option (nat * nat));
  rc_name_to_index : gmap str nat;
}.

Record RegexMatchHandle : Type := mkRegexMatch {
  rm_input : str;
  rm_start : nat;
  rm_end : nat;
}.

Record RandomGeneratorHandle : Type := mkRandomGenerator { rg_state : N }.

Inductive PidKind : Type := PkSingleton | PkWorker | PkHandler.
#[export] Instance PidKind_eq_dec : EqDecision PidKind.
Proof. solve_decision. Defined.

Record PidIdentity : Type := mkPidIdentity {
  pi_id : N;
  pi_process_name : str;
  pi_kind : PidKind;
}.
#[export] Instance PidIdentity_eq_dec : EqDecision PidIdentity.
Proof. solve_decision. Defined.

(** [identity : Rc<PidIdentity>]: [pid_ptr] is the allocation's address. *)
Record PidHandle : Type := mkPid {
  pid_ptr : N;
  pid_identity : PidIdentity;
}.

Definition same_identity (a b : PidHandle) : bool := bool_decide (pid_ptr a = pid_ptr b).

Record FileHandleValue : Type := mkFileHandle { fh_id : N }.
Record WorkersHandle : Type := mkWorkers { wh_id : N; wh_process_name : str }.
Record WorkerLeaseHandle : Type := mkWorkerLease { wl_workers_id : N; wl_pid : PidHandle }.

(** ** Callables *)

Inductive CallableTarget : Type :=
| CtBuiltin (id : BuiltinId)
| CtFunction (id : FunctionId)
| CtTemplate (id : N).

Inductive CallableOrigin : Type := OriginUnknown | OriginClosure | OriginCapture.
#[export] Instance CallableOrigin_eq_dec : EqDecision CallableOrigin.
Proof. solve_decision. Defined.

Record CallableMetadata : Type := mkMetadata {
  cm_origin : CallableOrigin;
  cm_module : option str;
  cm_name : option str;
  cm_full_signature : option str;
  cm_origin_source : option nat;
  cm_delegate_function : option N;
}.

Definition default_metadata : CallableMetadata :=
  mkMetadata OriginUnknown None None None None None.

Inductive RuntimeErrorDiagnostic : Type :=
| LiteralPatternMismatch (lhs rhs : str)
| SafeBindPatternFailure (rule : str) (input_source : option str).

(** ** Values *)

Unset Elimination Schemes.
Inductive Value : Type :=
| VInt (n : SurtrInt)
| VTag (tag : RuntimeTag)
| VFloat (f : f64)
| VStr (s : str)
| VBool (b : bool)
| VUnit
| VList (handle : ListHandle Value)
| VHashMap (entries : gmap str Value)
| VTuple (items : list Value)
| VTagged (tag : RuntimeTag) (fields : list Value)
| VCallable (callable : Callable)
| VError (rich : RichError)
| VErrorKind (kind : str)
| VRegex (handle : RegexHandle)
| VRegexCaptures (handle : RegexCapturesHandle)
| VRegexMatch (handle : RegexMatchHandle)
| VRandomGenerator (handle : RandomGeneratorHandle)
| VGenerator (producer : GeneratorProducer)
| VInfiniteGenerator (state : Value) (step : Callable)
| VPid (handle : PidHandle)
| VFileHandle (handle : FileHandleValue)
| VWorkers (handle : WorkersHandle)
| VWorkerLease (handle : WorkerLeaseHandle)
| VTaskHandle (future_id : N)
| VPendingFuture (future_id : N)
with Callable : Type :=
| mkCallable (target : CallableTarget) (lexical_captures : list Value)
    (metadata : CallableMetadata)
with GeneratorProducer : Type :=
| GpUnfold (state : Value) (step : Callable)
| GpRange (current stop step : SurtrInt)
| GpRangeChar (current stop step : SurtrInt)
| GpTerminal
with RichError : Type :=
| mkRichError (kind message : str) (payload : list Value) (location : Location)
    (cause : option RichError) (diagnostic : option RuntimeErrorDiagnostic)
    (stack_trace : list RuntimeStackFrame).
Set Elimination Schemes.

Definition call_target (c : Callable) : CallableTarget := let '(mkCallable t _ _) := c in t.
Definition call_captures (c : Callable) : list Value := let '(mkCallable _ l _) := c in l.
Definition call_metadata (c : Callable) : CallableMetadata := let '(mkCallable _ _ m) := c in m.

Definition err_kind (e : RichError) : str := let '(mkRichError k _ _ _ _ _ _) := e in k.
Definition err_message (e : RichError) : str := let '(mkRichError _ m _ _ _ _ _) := e in m.
Definition err_payload (e : RichError) : list Value := let '(mkRichError _ _ p _ _ _ _) := e in p.
Definition err_location (e : RichError) : Location := let '(mkRichError _ _ _ l _ _ _) := e in l.
Definition err_cause (e : RichError) : option RichError := let '(mkRichError _ _ _ _ c _ _) := e in c.

(** ** Rich errors *)

(** [RichError::new]. *)
Definition new_rich_error (kind message : str) (location : Location)
    (cause : option RichError) : RichError :=
  mkRichError kind message [] location cause None [].

Definition with_diagnostic (e : RichError) (d : RuntimeErrorDiagnostic) : RichError :=
  let '(mkRichError k m p l c _ t) := e in mkRichError k m p l c (Some d) t.

Definition with_stack_trace (e : RichError) (t : list RuntimeStackFrame) : RichError :=
  let '(mkRichError k m p l c d _) := e in mkRichError k m p l c d t.

(** Appends a cause at the end of the cause chain. *)
Fixpoint append_cause_tail (e : RichError) (cause : RichError) : RichError :=
  match e with
  | mkRichError k m p l c d t =>
      mkRichError k m p l
        (Some match c with
              | Some existing => append_cause_tail existing cause
              | None => cause
              end) d t
  end.

(** The cause chain, outermost error first. *)
Fixpoint cause_chain (e : RichError) : list RichError :=
  e :: match e with
       | mkRichError _ _ _ _ (Some c) _ _ => cause_chain c
       | mkRichError _ _ _ _ None _ _ => []
       end.

(** The loop of [to_eprint_lines]: one line for a cause and for each of its own
    causes. *)
Fixpoint eprint_cause (e : RichError) : list str :=
  match e with
  | mkRichError k m _ _ next _ _ =>
      (lit "Caused by: " ++ surface_path_name k ++ lit ": " ++ m) ::
      match next with Some c => eprint_cause c | None => [] end
  end.

Definition to_eprint_lines (e : RichError) : list str :=
  (lit "Error: " ++ surface_path_name (err_kind e) ++ lit ": " ++ err_message e) ::
  match err_cause e with Some c => eprint_cause c | None => [] end.

(** ** Results as values: tags 0 and 1 are reserved for [Ok] and [Err]. *)

Definition ok_vm_result (v : Value) : Value := VTagged 0 [v].
Definition err_vm_result (e : RichError) : Value := VTagged 1 [VError e].

Definition is_pending_future (v : Value) : bool :=
  match v with VPendingFuture _ => true | _ => false end.

(** An induction principle for errors along the cause chain. *)
Lemma RichError_chain_ind (P : RichError → Prop)
    (Hleaf : ∀ k m p l d t, P (mkRichError k m p l None d t))
    (Hcause : ∀ k m p l c d t, P c → P (mkRichError k m p l (Some c) d t)) :
  ∀ e, P e.
Proof.
  fix IH 1. intros [k m p l [c|] d t]; [|by apply Hleaf]. apply Hcause, IH.
Qed.

Lemma eprint_cause_append e c :
  eprint_cause (append_cause_tail e c) = eprint_cause e ++ eprint_cause c.
Proof. induction e as [|k m p l e' d t IH] using RichError_chain_ind; simpl; [done|]. by rewrite IH. Qed.

Lemma length_eprint_cause e : length (eprint_cause e) = length (cause_chain e).
Proof. induction e as [|k m p l e' d t IH] using RichError_chain_ind; simpl; [done|]. by rewrite IH. Qed.

(** Appending a cause keeps the whole existing chain of an error, in order,
    and puts the new cause, with its own causes, at its end: the lines printed
    for the result are those of the original followed by one per error of the
    appended chain. *)
Theorem append_cause_tail_lines (e c : RichError) :
  to_eprint_lines (append_cause_tail e c) = to_eprint_lines e ++ eprint_cause c ∧
  length (to_eprint_lines (append_cause_tail e c)) =
    length (cause_chain e) + length (cause_chain c).
Proof.
  assert (to_eprint_lines (append_cause_tail e c) = to_eprint_lines e ++ eprint_cause c) as ->.
  { destruct e as [k m p l [e'|] d t]; unfold to_eprint_lines; simpl; [|done].
    by rewrite eprint_cause_append. }
  split; [done|]. rewrite length_app, length_eprint_cause. f_equal.
  destruct e as [k m p l [e'|] d t]; simpl; [|done]. by rewrite length_eprint_cause.
Qed.
