(* ===== verification/TypeRegistry.v ===== *)
(** * The registry of tagged runtime types ([TypeRegistry], [crates/sindr/src/runtime.rs])

    The registry is an append-only list of type entries with an index from tag to
    position.  [valid_entries] is what [validate_type_registry_append] checks of a
    whole registry; [wf] adds that the index is exactly the index of the list. *)

From S2P Require Import Prelude Names Value.

Module TypeRegistry.

Inductive TypeRegistryError : Type :=
| PrivateFlagsLength (name : str) (flags fields : nat)
| ReservedTag (tag : RuntimeTag)
| DuplicateTag (tag : RuntimeTag)
| DuplicateName (name previous : str).

Record TypeRegistry : Type := mkRegistry {
  entries : list TypeEntry;
  tag_to_index : gmap RuntimeTag nat;
}.

Definition new : TypeRegistry := mkRegistry [] ∅.

Definition validate_type_entry_shape (entry : TypeEntry) : Result TypeRegistryError unit :=
  if decide (length (te_private_flags entry) = length (te_field_names entry)) then Ok tt
  else Err (PrivateFlagsLength (te_name entry)
              (length (te_private_flags entry)) (length (te_field_names entry))).

(** One iteration of the two loops of [validate_type_registry_append], which have
    the same body: the maps of tags and surface names seen so far are threaded. *)
Definition validate_one (entry : TypeEntry)
    (seen : gmap RuntimeTag TypeEntry * gmap str TypeEntry) :
    Result TypeRegistryError (gmap RuntimeTag TypeEntry * gmap str TypeEntry) :=
  let '(by_tag, by_surface_name) := seen in
  let? _ := validate_type_entry_shape entry in
  if bool_decide (te_tag entry = 0%N) || bool_decide (te_tag entry = 1%N) then
    Err (ReservedTag (te_tag entry))
  else match by_tag !! te_tag entry with
  | Some _ => Err (DuplicateTag (te_tag entry))
  | None =>
      let surface_name := surface_path_name (te_name entry) in
      match by_surface_name !! surface_name with
      | Some previous => Err (DuplicateName (te_name entry) (te_name previous))
      | None => Ok (<[te_tag entry := entry]> by_tag, <[surface_name := entry]> by_surface_name)
      end
  end.

Fixpoint validate_loop (es : list TypeEntry)
    (seen : gmap RuntimeTag TypeEntry * gmap str TypeEntry) :
    Result TypeRegistryError (gmap RuntimeTag TypeEntry * gmap str TypeEntry) :=
  match es with
  | [] => Ok seen
  | e :: es' => let? seen' := validate_one e seen in validate_loop es' seen'
  end.

Definition validate_type_registry_append (existing new_entries : list TypeEntry) :
    Result TypeRegistryError unit :=
  let? seen := validate_loop existing (∅, ∅) in
  let? _ := validate_loop new_entries seen in
  Ok tt.

Definition register_unchecked (r : TypeRegistry) (entry : TypeEntry) : TypeRegistry :=
  mkRegistry (entries r ++ [entry])
    (<[te_tag entry := length (entries r)]> (tag_to_index r)).

Definition try_extend (r : TypeRegistry) (es : list TypeEntry) : Result TypeRegistryError TypeRegistry :=
  let? _ := validate_type_registry_append (entries r) es in
  Ok (foldl register_unchecked r es).

Definition try_register (r : TypeRegistry) (entry : TypeEntry) : Result TypeRegistryError TypeRegistry :=
  let? _ := validate_type_registry_append (entries r) [entry] in
  Ok (register_unchecked r entry).

Definition try_from_entries (es : list TypeEntry) : Result TypeRegistryError TypeRegistry :=
  try_extend new es.

(** [entries().iter().enumerate().map(|(idx, e)| (e.tag, idx)).collect()]: later
    entries overwrite earlier ones. *)
Definition build_index (es : list TypeEntry) : gmap RuntimeTag nat :=
  foldl (λ m p, <[te_tag p.2 := p.1]> m) ∅ (imap pair es).

Definition truncate (r : TypeRegistry) (n : nat) : TypeRegistry :=
  let es := take n (entries r) in mkRegistry es (build_index es).

Definition lookup (r : TypeRegistry) (tag : RuntimeTag) : option TypeEntry :=
  tag_to_index r !! tag ≫= λ idx, entries r !! idx.

Definition lookup_by_name (r : TypeRegistry) (qualified_name : str) : option TypeEntry :=
  find (λ entry, bool_decide (te_name entry = qualified_name)
                 || surface_path_eq (te_name entry) qualified_name) (entries r).

Definition tag_by_name (r : TypeRegistry) (qualified_name : str) : option RuntimeTag :=
  te_tag <$> lookup_by_name r qualified_name.

Inductive ValueDisplayError : Type :=
| UnknownRuntimeTag (tag : RuntimeTag)
| InvalidPayload (tag : RuntimeTag) (expected got : nat)
| InvalidDiscriminant (tag : RuntimeTag).

(** Shape check run before a tagged value is displayed. *)
Definition validate_display_fields (r : TypeRegistry) (tag : RuntimeTag) (fields : list Value) :
    Result ValueDisplayError unit :=
  let? expected :=
    match lookup r tag with
    | Some entry =>
        Ok (length (te_field_names entry)
            + if decide (te_kind entry = TkEnumVariant) then 1 else 0)
    | None => if decide (tag = 0%N ∨ tag = 1%N) then Ok 1 else Err (UnknownRuntimeTag tag)
    end in
  if decide (length fields = expected) then
    match lookup r tag with
    | Some entry =>
        if decide (te_kind entry = TkEnumVariant) then
          match head fields with
          | Some (VInt _) => Ok tt
          | _ => Err (InvalidDiscriminant tag)
          end
        else Ok tt
    | None => Ok tt
    end
  else Err (InvalidPayload tag expected (length fields)).

(** ** Specification *)

Definition entry_surface_name (e : TypeEntry) : str := surface_path_name (te_name e).

(** What a registry promises of its entries: shapes agree, the result tags are
    reserved, tags are unique, and surface names are unique. *)
Definition valid_entries (es : list TypeEntry) : Prop :=
  Forall (λ e, length (te_private_flags e) = length (te_field_names e)) es ∧
  Forall (λ e, (1 < te_tag e)%N) es ∧
  NoDup (te_tag <$> es) ∧
  NoDup (entry_surface_name <$> es).

Definition wf (r : TypeRegistry) : Prop :=
  valid_entries (entries r) ∧ tag_to_index r = build_index (entries r).

(** The loops thread exactly the maps of the entries seen. *)
Definition seen_of (es : list TypeEntry) (seen : gmap RuntimeTag TypeEntry * gmap str TypeEntry) : Prop :=
  (∀ t, is_Some (seen.1 !! t) ↔ t ∈ te_tag <$> es) ∧
  (∀ n, is_Some (seen.2 !! n) ↔ n ∈ entry_surface_name <$> es).

Lemma seen_of_nil : seen_of [] (∅, ∅).
Proof.
  split; intros k; simpl; rewrite lookup_empty;
    (split; [by intros [? ?]|intros Hk; by apply elem_of_nil in Hk]).
Qed.

Lemma valid_entries_snoc es e :
  valid_entries (es ++ [e]) ↔
  valid_entries es ∧ length (te_private_flags e) = length (te_field_names e) ∧
  (1 < te_tag e)%N ∧ (te_tag e ∉ te_tag <$> es) ∧
  (entry_surface_name e ∉ entry_surface_name <$> es).
Proof.
  unfold valid_entries. rewrite !Forall_app, !Forall_singleton, !fmap_app.
  simpl. rewrite !NoDup_app. setoid_rewrite list_elem_of_singleton.
  assert (∀ {B} (l : list B) x, (∀ y, y ∈ l → y ≠ x) ↔ x ∉ l) as Hnot.
  { intros B l x. split; [intros H Hx; by eapply H|intros H y Hy ->; done]. }
  rewrite !Hnot. pose proof (NoDup_singleton (te_tag e)).
  pose proof (NoDup_singleton (entry_surface_name e)). naive_solver.
Qed.

Lemma validate_one_spec es seen e :
  seen_of es seen → valid_entries es →
  (valid_entries (es ++ [e]) ∧ ∃ seen', validate_one e seen = Ok seen' ∧ seen_of (es ++ [e]) seen') ∨
  (¬ valid_entries (es ++ [e]) ∧ ∃ err, validate_one e seen = Err err).
Proof.
  destruct seen as [bt bn]. intros [Ht Hn] Hv. simpl in *. rewrite valid_entries_snoc.
  unfold validate_one, validate_type_entry_shape.
  case_decide as Hshape; simpl; [|right; naive_solver].
  destruct (bool_decide (te_tag e = 0%N)) eqn:H0; simpl.
  { apply bool_decide_eq_true in H0. right. split; [lia|eauto]. }
  destruct (bool_decide (te_tag e = 1%N)) eqn:H1; simpl.
  { apply bool_decide_eq_true in H1. right. split; [lia|eauto]. }
  apply bool_decide_eq_false in H0, H1.
  destruct (bt !! te_tag e) as [e1|] eqn:Htag.
  { right. split; [|eauto]. specialize (Ht (te_tag e)). rewrite Htag in Ht. naive_solver. }
  destruct (bn !! surface_path_name (te_name e)) as [e2|] eqn:Hname.
  { right. split; [|eauto]. specialize (Hn (surface_path_name (te_name e))).
    rewrite Hname in Hn. unfold entry_surface_name. naive_solver. }
  assert (te_tag e ∉ te_tag <$> es).
  { rewrite <- Ht, Htag. by intros [? ?]. }
  assert (entry_surface_name e ∉ entry_surface_name <$> es).
  { rewrite <- Hn. unfold entry_surface_name. rewrite Hname. by intros [? ?]. }
  left. split; [split_and!; auto with lia|]. eexists. split; [done|].
  split; simpl; intros k; rewrite fmap_app, elem_of_app; simpl;
    rewrite list_elem_of_singleton, lookup_insert; case_decide as Hk.
  - split; [by right|eauto].
  - rewrite Ht. naive_solver.
  - split; [by right|eauto].
  - rewrite Hn. naive_solver.
Qed.

Lemma valid_entries_app_l es l : valid_entries (es ++ l) → valid_entries es.
Proof.
  unfold valid_entries. rewrite !Forall_app, !fmap_app, !NoDup_app. naive_solver.
Qed.

Lemma validate_loop_spec l es seen :
  seen_of es seen → valid_entries es →
  (valid_entries (es ++ l) ∧ ∃ seen', validate_loop l seen = Ok seen' ∧ seen_of (es ++ l) seen') ∨
  (¬ valid_entries (es ++ l) ∧ ∃ err, validate_loop l seen = Err err).
Proof.
  revert es seen. induction l as [|e l IH]; intros es seen Hs Hv; simpl.
  { rewrite app_nil_r. left. eauto. }
  destruct (validate_one_spec es seen e Hs Hv) as [(Hv' & seen' & -> & Hs')|(Hnv & err & ->)]; simpl.
  - destruct (IH (es ++ [e]) seen' Hs' Hv') as [?|?]; rewrite <- (app_assoc es [e] l) in *; auto.
  - right. split; [|eauto]. intros Hv2. apply Hnv.
    apply (valid_entries_app_l _ l). by rewrite <- app_assoc.
Qed.

Lemma validate_append_Ok es l :
  validate_type_registry_append es l = Ok tt ↔ valid_entries (es ++ l).
Proof.
  unfold validate_type_registry_append.
  assert (valid_entries []) as Hnil by (split_and!; constructor).
  destruct (validate_loop_spec es [] _ seen_of_nil Hnil)
    as [(Hv & seen & -> & Hs)|(Hnv & err & ->)]; simpl in *.
  - destruct (validate_loop_spec l es seen Hs Hv) as [(? & ? & -> & _)|(? & ? & ->)]; by simpl.
  - split; [done|]. by intros ?%valid_entries_app_l.
Qed.

Lemma build_index_snoc es e : build_index (es ++ [e]) = <[te_tag e := length es]> (build_index es).
Proof.
  unfold build_index. rewrite imap_app, foldl_app. simpl. by rewrite Nat.add_0_r.
Qed.

Lemma build_index_lookup es t i :
  NoDup (te_tag <$> es) →
  build_index es !! t = Some i ↔ ∃ e, es !! i = Some e ∧ te_tag e = t.
Proof.
  induction es as [|e es IH] using rev_ind; intros Hnd.
  { split; [done|]. by intros (e & ? & _). }
  rewrite fmap_app, NoDup_app in Hnd. destruct Hnd as (Hnd & Hdis & _).
  rewrite build_index_snoc, lookup_insert. case_decide as Ht.
  - split.
    + intros [= <-]. exists e. by rewrite list_lookup_middle.
    + intros (e' & He' & <-). apply lookup_app_Some in He' as [He'|[Hle He']].
      * exfalso. apply (Hdis (te_tag e')); [|set_solver].
        by apply list_elem_of_fmap_2, list_elem_of_lookup_2 with i.
      * apply list_lookup_singleton_Some in He' as [? ->]. f_equal. lia.
  - rewrite IH by done. split; intros (e' & He' & <-); exists e'.
    + split; [|done]. by apply lookup_app_l_Some.
    + apply lookup_app_Some in He' as [?|[_ He']]; [done|].
      by apply list_lookup_singleton_Some in He' as [_ ->].
Qed.

Lemma register_fold_spec r es :
  tag_to_index r = build_index (entries r) →
  entries (foldl register_unchecked r es) = entries r ++ es ∧
  tag_to_index (foldl register_unchecked r es) = build_index (entries r ++ es).
Proof.
  revert r. induction es as [|e es IH]; intros r Hr; simpl; [by rewrite app_nil_r|].
  destruct (IH (register_unchecked r e)) as [-> ->].
  - simpl. by rewrite build_index_snoc, Hr.
  - simpl. by rewrite <- (app_assoc (entries r) [e] es).
Qed.

Lemma lookup_Some r t e : wf r → lookup r t = Some e ↔ e ∈ entries r ∧ te_tag e = t.
Proof.
  intros [(_ & _ & Hnd & _) Hidx]. unfold lookup. rewrite Hidx, bind_Some. split.
  - intros (i & Hi & He). apply build_index_lookup in Hi as (e' & He' & <-); [|done].
    simplify_eq. split; [by eapply list_elem_of_lookup_2|done].
  - intros [[i He]%list_elem_of_lookup <-]. exists i. split; [|done].
    apply build_index_lookup; eauto.
Qed.

Lemma try_extend_cases r es :
  wf r →
  match try_extend r es with
  | Ok r' => valid_entries (entries r ++ es) ∧ wf r' ∧ entries r' = entries r ++ es
  | Err _ => ¬ valid_entries (entries r ++ es)
  end.
Proof.
  intros [_ Hidx]. unfold try_extend.
  destruct (validate_type_registry_append (entries r) es) as [[]|err] eqn:Hv; simpl.
  - apply validate_append_Ok in Hv.
    destruct (register_fold_spec r es Hidx) as [He Hi]. unfold wf. by rewrite He, Hi.
  - intros H. apply validate_append_Ok in H. congruence.
Qed.

(** ** Properties *)

(** extending a well-formed registry is all or nothing: it succeeds exactly
    when the old and the new entries together have agreeing shapes, no reserved
    result tag, no duplicate tag and no duplicate surface name, and then the new
    registry is the old one with the entries appended and its tag index exact. *)
Theorem try_extend_spec (r : TypeRegistry) (es : list TypeEntry) (Hwf : wf r) :
  match try_extend r es with
  | Ok r' => valid_entries (entries r ++ es) ∧ wf r' ∧ entries r' = entries r ++ es
  | Err _ => ¬ valid_entries (entries r ++ es)
  end.
Proof.
  by apply try_extend_cases.
Qed.

(** lookups by tag and by name are exact in a well-formed registry: a tag
    finds the one entry that has it, and a name finds the one entry whose surface
    name it has, whether the name is given canonically or on the surface. *)
Theorem lookups_exact (r : TypeRegistry) (tag : RuntimeTag) (name : str) (e : TypeEntry)
    (Hwf : wf r) :
  (lookup r tag = Some e ↔ e ∈ entries r ∧ te_tag e = tag) ∧
  (lookup_by_name r name = Some e ↔
     e ∈ entries r ∧ surface_path_name (te_name e) = surface_path_name name).
Proof.
  split; [by apply lookup_Some|]. unfold lookup_by_name.
  assert (∀ e, bool_decide (te_name e = name) || surface_path_eq (te_name e) name = true ↔
               surface_path_name (te_name e) = surface_path_name name) as Hf.
  { intros e'. rewrite orb_true_iff, bool_decide_eq_true, surface_path_eq_true.
    split; [by intros [->|?]|by right]. }
  split.
  - intros [? H%Hf]%find_Some. done.
  - intros [He Hn]. destruct (find _ _) as [e'|] eqn:Hfind.
    + apply find_Some in Hfind as [He' Hn'%Hf].
      destruct Hwf as [(_ & _ & _ & Hnd) _].
      apply list_elem_of_lookup in He as [i Hi]. apply list_elem_of_lookup in He' as [j Hj].
      assert (i = j) as ->; [|congruence].
      eapply (NoDup_lookup _ i j (surface_path_name name)); [done|..]; rewrite list_lookup_fmap.
      * rewrite Hi. simpl. by rewrite <- Hn.
      * rewrite Hj. simpl. by rewrite <- Hn'.
    + apply find_None in Hfind. rewrite Forall_forall in Hfind.
      specialize (Hfind e He). by rewrite (proj2 (Hf e) Hn) in Hfind.
Qed.

(** Truncating a registry to its old length undoes an extension exactly,
    index included, so rolling back a failed chunk restores the registry. *)
Theorem truncate_undoes_extend (r r' : TypeRegistry) (es : list TypeEntry)
    (Hwf : wf r) (Hext : try_extend r es = Ok r') :
  truncate r' (length (entries r)) = r.
Proof.
  pose proof (try_extend_cases r es Hwf) as Hs. rewrite Hext in Hs.
  destruct Hs as (_ & _ & He). unfold truncate. rewrite He, take_app_length.
  destruct Hwf as [_ Hidx]. destruct r as [es0 idx]. simpl in *. by rewrite Hidx.
Qed.

Definition sample_entry (tag : N) (name : str) : TypeEntry :=
  mkTypeEntry tag name TkStruct [lit "x"] [false].
Definition sample : TypeRegistry :=
  mkRegistry [sample_entry 10 (lit "Global::User")] {[10%N := 0]}.

Lemma sample_wf : wf sample.
Proof.
  split; [|reflexivity].
  split_and!; repeat constructor; simpl; auto using not_elem_of_nil.
Defined.

(** The second entry clashes with the first on its surface name only. *)
Lemma try_extend_spec_witness :
  wf sample ∧
  match try_extend sample [sample_entry 11 (lit "User")] with
  | Ok r' => valid_entries (entries sample ++ [sample_entry 11 (lit "User")]) ∧ wf r' ∧
             entries r' = entries sample ++ [sample_entry 11 (lit "User")]
  | Err _ => ¬ valid_entries (entries sample ++ [sample_entry 11 (lit "User")])
  end.
Proof. split; [exact sample_wf|]. apply (try_extend_spec sample). exact sample_wf. Defined.

Lemma lookups_exact_witness :
  wf sample ∧
  (lookup sample 10 = Some (sample_entry 10 (lit "Global::User")) ↔
     sample_entry 10 (lit "Global::User") ∈ entries sample ∧
     te_tag (sample_entry 10 (lit "Global::User")) = 10%N) ∧
  (lookup_by_name sample (lit "User") = Some (sample_entry 10 (lit "Global::User")) ↔
     sample_entry 10 (lit "Global::User") ∈ entries sample ∧
     surface_path_name (te_name (sample_entry 10 (lit "Global::User"))) =
     surface_path_name (lit "User")).
Proof.
  split; [exact sample_wf|].
  apply (lookups_exact sample 10 (lit "User") (sample_entry 10 (lit "Global::User"))).
  exact sample_wf.
Defined.

Lemma truncate_undoes_extend_witness :
  try_extend sample [sample_entry 11 (lit "Order")] =
    Ok (mkRegistry [sample_entry 10 (lit "Global::User"); sample_entry 11 (lit "Order")]
          {[10%N := 0; 11%N := 1]}) ∧
  truncate (mkRegistry [sample_entry 10 (lit "Global::User"); sample_entry 11 (lit "Order")]
          {[10%N := 0; 11%N := 1]}) 1 = sample.
Proof.
  split; [reflexivity|].
  apply (truncate_undoes_extend sample _ [sample_entry 11 (lit "Order")]);
    [exact sample_wf|reflexivity].
Defined.

End TypeRegistry.
