(* ===== verification/OperandStack.v ===== *)
(** * The operand stack ([crates/eldr/src/vm/operand_stack.rs])

    The stack keeps, next to its values, the sorted positions of the top-level
    [PendingFuture] slots, in a reference-counted vector that clones share until
    one of them changes it.  [positions_exact] is the promise of the source
    comment: the positions are exactly those of the pending values.  Every
    operation preserves it and acts on the values as the plain vector operation
    does; what the sharing flag of the vector is makes no observable difference. *)

From S2P Require Import Prelude ListHandle Value.

(** A reference-counted cell as one of its owners sees it: [rc_shared] tells
    whether another strong reference exists. *)
Record Rc (A : Type) : Type := mkRc { rc_shared : bool; rc_val : A }.
Arguments mkRc {A} rc_shared rc_val.
Arguments rc_shared {A} _.
Arguments rc_val {A} _.

(** [Rc::new]. *)
Definition rc_new {A} (a : A) : Rc A := mkRc false a.

(** [Rc::make_mut] followed by a mutation: a shared cell is copied first, so the
    owner is the only one afterwards. *)
Definition rc_make_mut {A} (f : A → A) (r : Rc A) : Rc A := mkRc false (f (rc_val r)).

(** [Rc::get_mut]: only the unique owner gets access. *)
Definition rc_get_mut {A} (r : Rc A) : option A := if rc_shared r then None else Some (rc_val r).

Module OperandStack.

Record OperandStack : Type := mkStack {
  values : list Value;
  pending_slots : option (Rc (list nat));
}.

(** [OperandStack::default]. *)
Definition stack_default : OperandStack := mkStack [] None.

Definition pending_positions (s : OperandStack) : list nat :=
  match pending_slots s with Some slots => rc_val slots | None => [] end.

Definition has_pending_futures (s : OperandStack) : bool :=
  negb (bool_decide (pending_positions s = [])).

(** Reads one pending slot; any other value there is a broken invariant. *)
Definition pending_id_at (vs : list Value) (slot : nat) : Run N :=
  let? v := index vs slot in
  match v with
  | VPendingFuture id => Ok id
  | _ => Err PUnreachable
  end.

Definition pending_future_ids (s : OperandStack) : Run (list N) :=
  map_result (pending_id_at (values s)) (pending_positions s).

Definition push_pending_position (s : OperandStack) : OperandStack :=
  let slots := match pending_slots s with Some slots => slots | None => rc_new [] end in
  mkStack (values s) (Some (rc_make_mut (λ l, l ++ [length (values s)]) slots)).

Definition push (v : Value) (s : OperandStack) : OperandStack :=
  let s' := if is_pending_future v then push_pending_position s else s in
  mkStack (values s' ++ [v]) (pending_slots s').

(** The buffer is kept when it is owned, dropped when it is shared. *)
Definition clear_pending_positions (s : OperandStack) : OperandStack :=
  match pending_slots s with
  | Some slots =>
      match rc_get_mut slots with
      | Some _ => mkStack (values s) (Some (mkRc (rc_shared slots) []))
      | None => mkStack (values s) None
      end
  | None => s
  end.

Definition pop (s : OperandStack) : option (Value * OperandStack) :=
  match usize_checked_sub (length (values s)) 1 with
  | None => None
  | Some slot =>
      let s' :=
        match pending_slots s with
        | Some slots =>
            if decide (last (rc_val slots) = Some slot) then
              if decide (length (rc_val slots) = 1) then clear_pending_positions s
              else mkStack (values s)
                     (Some (rc_make_mut (λ l, take (length l - 1) l) slots))
            else s
        | None => s
        end in
      v ← last (values s');
      Some (v, mkStack (take (length (values s') - 1) (values s')) (pending_slots s'))
  end.

Definition clear (s : OperandStack) : OperandStack :=
  clear_pending_positions (mkStack [] (pending_slots s)).

(** [slice::partition_point] of a partitioned slice: the length of the prefix
    that satisfies the predicate. *)
Fixpoint partition_point (f : nat → bool) (l : list nat) : nat :=
  match l with
  | [] => 0
  | x :: l' => if f x then S (partition_point f l') else 0
  end.

Definition truncate (n : nat) (s : OperandStack) : OperandStack :=
  if decide (length (values s) ≤ n) then s
  else
    let s' :=
      match pending_slots s with
      | Some slots =>
          let kept := partition_point (λ slot, bool_decide (slot < n)) (rc_val slots) in
          if decide (kept = 0) then clear_pending_positions s
          else if decide (kept < length (rc_val slots)) then
            mkStack (values s) (Some (rc_make_mut (take kept) slots))
          else s
      | None => s
      end in
    mkStack (take n (values s')) (pending_slots s').

(** [last_callable_mut], as a read of the callable on top ... *)
Definition last_callable (s : OperandStack) : option Callable :=
  match last (values s) with
  | Some (VCallable c) => Some c
  | _ => None
  end.

(** ... and a write through the reference it returns. *)
Definition set_last_callable (c : Callable) (s : OperandStack) : OperandStack :=
  mkStack (<[length (values s) - 1 := VCallable c]> (values s)) (pending_slots s).

(** The loop of [replace_ready_futures]: overwrite the resolved slots and count
    the slots that still hold a pending future. *)
Fixpoint replace_loop (ready : gmap N Value) (slots : list nat) (vs : list Value)
    (remaining : nat) : Run (list Value * nat) :=
  match slots with
  | [] => Ok (vs, remaining)
  | slot :: slots' =>
      let? id := pending_id_at vs slot in
      let vs' := match ready !! id with Some resolved => <[slot := resolved]> vs | None => vs end in
      let? now := index vs' slot in
      replace_loop ready slots' vs' (remaining + if is_pending_future now then 1 else 0)
  end.

(** [retain]'s predicate on a slot, an indexed read in the source. *)
Definition slot_is_pending (vs : list Value) (slot : nat) : bool :=
  match vs !! slot with Some v => is_pending_future v | None => false end.

Definition replace_ready_futures (ready : gmap N Value) (s : OperandStack) : Run OperandStack :=
  match pending_slots s with
  | None => Ok s
  | Some slots =>
      let? '(vs, remaining) := replace_loop ready (rc_val slots) (values s) 0 in
      if decide (remaining = 0) then Ok (clear_pending_positions (mkStack vs (Some slots)))
      else if decide (remaining < length (rc_val slots)) then
        Ok (mkStack vs (Some (rc_make_mut (List.filter (slot_is_pending vs)) slots)))
      else Ok (mkStack vs (Some slots))
  end.

(** Positions of the pending values of a vector, as [From<Vec<Value>>] computes
    them. *)
Definition pending_indices (vs : list Value) : list nat :=
  omap (λ p, if is_pending_future p.2 then Some p.1 else None) (imap pair vs).

Definition from_vec (vs : list Value) : OperandStack :=
  let slots := pending_indices vs in
  mkStack vs (if decide (slots = []) then None else Some (rc_new slots)).

(** [Clone]: the copy shares a non-empty position buffer and omits an empty one.
    The result is the pair of the original and the copy. *)
Definition clone (s : OperandStack) : OperandStack * OperandStack :=
  match pending_slots s with
  | Some slots =>
      if decide (rc_val slots = []) then (s, mkStack (values s) None)
      else (mkStack (values s) (Some (mkRc true (rc_val slots))),
            mkStack (values s) (Some (mkRc true (rc_val slots))))
  | None => (s, mkStack (values s) None)
  end.

(** Another owner of the buffer appears or goes away. *)
Definition set_shared (b : bool) (s : OperandStack) : OperandStack :=
  mkStack (values s) (match pending_slots s with
                      | Some slots => Some (mkRc b (rc_val slots))
                      | None => None
                      end).

(** ** Invariant *)

Definition positions_exact (s : OperandStack) : Prop :=
  pending_positions s = pending_indices (values s).

Lemma pending_indices_snoc vs v :
  pending_indices (vs ++ [v]) =
  pending_indices vs ++ (if is_pending_future v then [length vs] else []).
Proof.
  unfold pending_indices. rewrite imap_app, omap_app. simpl. rewrite Nat.add_0_r.
  by destruct (is_pending_future v).
Qed.

Lemma pending_indices_elem vs i :
  i ∈ pending_indices vs ↔ ∃ id, vs !! i = Some (VPendingFuture id).
Proof.
  induction vs as [|v vs IH] using rev_ind.
  { unfold pending_indices. simpl. split; [set_solver|]. by intros [? ?]. }
  rewrite pending_indices_snoc, elem_of_app, IH. split.
  - intros [[id Hid]|Hi].
    + exists id. by apply lookup_app_l_Some.
    + destruct v; simpl in Hi; try (by apply elem_of_nil in Hi).
      apply list_elem_of_singleton in Hi as ->. exists future_id. by rewrite list_lookup_middle.
  - intros [id Hid]. apply lookup_app_Some in Hid as [?|[Hle Hid]]; [left; eauto|].
    apply list_lookup_singleton_Some in Hid as [? ->]. right. simpl.
    apply list_elem_of_singleton. lia.
Qed.

Lemma pending_indices_lt vs i : i ∈ pending_indices vs → i < length vs.
Proof. intros [id Hid]%pending_indices_elem. by eapply lookup_lt_Some. Qed.

Lemma pending_indices_sorted vs : StronglySorted lt (pending_indices vs).
Proof.
  induction vs as [|v vs IH] using rev_ind; [constructor|].
  rewrite pending_indices_snoc. destruct (is_pending_future v); [|by rewrite app_nil_r].
  apply StronglySorted_app_2; [|done|repeat constructor].
  intros i j Hi%pending_indices_lt Hj%list_elem_of_singleton. lia.
Qed.

Lemma pending_indices_unique vs l :
  StronglySorted lt l → (∀ i, i ∈ l ↔ ∃ id, vs !! i = Some (VPendingFuture id)) →
  l = pending_indices vs.
Proof.
  intros Hs Heq. apply sorted_lt_unique; [done|apply pending_indices_sorted|].
  intros i. by rewrite Heq, pending_indices_elem.
Qed.

Lemma clear_pending_positions_spec s :
  values (clear_pending_positions s) = values s ∧ pending_positions (clear_pending_positions s) = [].
Proof.
  unfold clear_pending_positions, rc_get_mut.
  destruct (pending_slots s) as [[sh l]|] eqn:H; [by destruct sh|].
  split; [done|]. unfold pending_positions. by rewrite H.
Qed.

Lemma from_vec_spec vs : values (from_vec vs) = vs ∧ positions_exact (from_vec vs).
Proof.
  split; [done|]. unfold from_vec, positions_exact, pending_positions. simpl. by case_decide.
Qed.

Lemma push_spec v s :
  positions_exact s → values (push v s) = values s ++ [v] ∧ positions_exact (push v s).
Proof.
  unfold positions_exact, push. destruct s as [vs slots]. simpl. intros Hs.
  destruct (is_pending_future v) eqn:Hv; simpl; (split; [done|]);
    rewrite pending_indices_snoc, Hv, <- Hs; [|by rewrite app_nil_r].
  unfold pending_positions. simpl. by destruct slots.
Qed.

Lemma pop_nil s : values s = [] → pop s = None.
Proof. unfold pop. by intros ->. Qed.

Lemma pop_snoc s vs v :
  positions_exact s → values s = vs ++ [v] →
  ∃ s', pop s = Some (v, s') ∧ values s' = vs ∧ positions_exact s'.
Proof.
  destruct s as [vals slots]. unfold positions_exact. simpl. intros Hs ->.
  rewrite pending_indices_snoc in Hs. unfold pop, usize_checked_sub. simpl.
  rewrite length_app. simpl. rewrite decide_True by lia. rewrite Nat.add_sub.
  assert (∀ slots', (v0 ← last (vs ++ [v]);
      Some (v0, mkStack (take (length (vs ++ [v]) - 1) (vs ++ [v])) slots'))
    = Some (v, mkStack vs slots')) as Hfin.
  { intros slots'. rewrite last_snoc. simpl. by rewrite length_app, Nat.add_sub, take_app_length. }
  destruct slots as [slots|]; simpl in *.
  2:{ rewrite Hfin. eexists. split_and!; [done..|]. simpl.
      unfold pending_positions in *. simpl in *. by destruct (pending_indices vs). }
  unfold pending_positions in Hs. simpl in Hs. rewrite Hs.
  destruct (is_pending_future v) eqn:Hv; simpl.
  - rewrite last_snoc, decide_True by done. case_decide as Hone.
    + destruct (clear_pending_positions_spec (mkStack (vs ++ [v]) (Some slots))) as [Hc1 Hc2].
      rewrite Hc1. simpl. rewrite Hfin. eexists. split_and!; [done..|].
      unfold pending_positions in *. simpl in *. rewrite Hc2.
      rewrite length_app in Hone. simpl in Hone.
      symmetry. apply nil_length_inv. lia.
    + rewrite Hfin. eexists. split_and!; [done..|].
      unfold pending_positions, rc_make_mut. simpl.
      by rewrite Hs, length_app, Nat.add_sub, take_app_length.
  - rewrite app_nil_r in *. rewrite decide_False.
    2:{ intros Hl. apply last_Some_elem_of, pending_indices_lt in Hl. lia. }
    simpl. rewrite Hfin. eexists. by split_and!.
Qed.

Lemma clear_spec s : values (clear s) = [] ∧ positions_exact (clear s).
Proof.
  unfold clear, positions_exact.
  destruct (clear_pending_positions_spec (mkStack [] (pending_slots s))) as [-> ->]. done.
Qed.

Lemma partition_point_spec n l :
  StronglySorted lt l →
  let k := partition_point (λ slot, bool_decide (slot < n)) l in
  k ≤ length l ∧ ∀ i, i ∈ take k l ↔ i ∈ l ∧ i < n.
Proof.
  induction 1 as [|x l Hs IH Hall]; simpl; [set_solver|].
  destruct IH as [IH1 IH2]. case_bool_decide as Hx; simpl.
  - split; [lia|]. intros i. rewrite !elem_of_cons, IH2. naive_solver.
  - split; [lia|]. intros i. rewrite elem_of_cons. split; [set_solver|].
    rewrite Forall_forall in Hall. intros [[->|Hi%Hall] ?]; lia.
Qed.

Lemma sorted_take k l : StronglySorted lt l → StronglySorted lt (take k l).
Proof. intros H. rewrite <- (take_drop k l) in H. by apply StronglySorted_app_1_l in H. Qed.

Lemma pending_indices_take n vs l :
  l = pending_indices vs →
  take (partition_point (λ slot, bool_decide (slot < n)) l) l = pending_indices (take n vs).
Proof.
  intros ->. pose proof (pending_indices_sorted vs) as Hs.
  destruct (partition_point_spec n _ Hs) as [_ Hk].
  apply pending_indices_unique; [by apply sorted_take|].
  intros i. rewrite Hk, pending_indices_elem. split.
  - intros [[id ?] ?]. exists id. by rewrite lookup_take_lt.
  - intros [id Hid]. pose proof (lookup_lt_Some _ _ _ Hid) as Hlt. rewrite length_take in Hlt.
    rewrite lookup_take_lt in Hid by lia. split; [eauto|lia].
Qed.

Lemma truncate_spec n s :
  positions_exact s → values (truncate n s) = take n (values s) ∧ positions_exact (truncate n s).
Proof.
  unfold truncate. intros Hs. case_decide as Hlen.
  { by rewrite take_ge by lia. }
  destruct s as [vs [slots|]]; simpl in *.
  2:{ split; [done|]. unfold positions_exact, pending_positions in *. simpl in *.
      by rewrite <- (pending_indices_take n vs []). }
  unfold positions_exact in Hs. unfold pending_positions in Hs at 1. simpl in Hs.
  pose proof (pending_indices_take n vs _ Hs) as Ht.
  destruct (clear_pending_positions_spec (mkStack vs (Some slots))) as [Hc1 Hc2].
  simpl in *. case_decide as H0; [|case_decide as Hlt]; simpl.
  - rewrite Hc1. split; [done|]. unfold positions_exact, pending_positions in *. simpl in *.
    rewrite Hc2, <- Ht, H0. done.
  - split; [done|]. unfold positions_exact, pending_positions. simpl. by rewrite <- Ht.
  - split; [done|]. unfold positions_exact, pending_positions. simpl. rewrite <- Ht.
    rewrite take_ge; [done|lia].
Qed.

Lemma set_last_callable_spec c c' vs s :
  positions_exact s → values s = vs ++ [VCallable c] →
  values (set_last_callable c' s) = vs ++ [VCallable c'] ∧
  positions_exact (set_last_callable c' s).
Proof.
  destruct s as [vals slots]. unfold positions_exact, set_last_callable. simpl.
  intros Hs ->. rewrite length_app, Nat.add_sub. rewrite insert_app_r_alt by lia.
  rewrite Nat.sub_diag. simpl. split; [done|].
  unfold pending_positions in *. simpl in *. by rewrite Hs, !pending_indices_snoc.
Qed.

Lemma clone_spec s :
  positions_exact s →
  let '(orig, copy) := clone s in
  values orig = values s ∧ values copy = values s ∧ positions_exact orig ∧ positions_exact copy.
Proof.
  unfold clone, positions_exact, pending_positions. destruct s as [vs [slots|]]; simpl; [|done].
  case_decide as Hnil; simpl; [|done]. by rewrite Hnil.
Qed.

Lemma set_shared_spec b s :
  positions_exact s → values (set_shared b s) = values s ∧ positions_exact (set_shared b s).
Proof. unfold set_shared, positions_exact, pending_positions. destruct s as [vs [slots|]]; by simpl. Qed.

(** What resolving does to one value. *)
Definition resolve_value (ready : gmap N Value) (v : Value) : Value :=
  match v with
  | VPendingFuture id => default v (ready !! id)
  | _ => v
  end.

Lemma replace_loop_spec ready slots vs remaining :
  NoDup slots → (∀ i, i ∈ slots → ∃ id, vs !! i = Some (VPendingFuture id)) →
  ∃ vs', replace_loop ready slots vs remaining =
           Ok (vs', remaining + length (List.filter (slot_is_pending vs') slots)) ∧
         (∀ i, i ∉ slots → vs' !! i = vs !! i) ∧
         (∀ i, i ∈ slots → vs' !! i = resolve_value ready <$> vs !! i).
Proof.
  revert vs remaining. induction slots as [|slot slots IH]; intros vs remaining Hnd Hp; simpl.
  { exists vs. rewrite Nat.add_0_r. set_solver. }
  apply NoDup_cons in Hnd as [Hni Hnd].
  destruct (Hp slot) as [id Hid]; [set_solver|].
  unfold pending_id_at, index. rewrite Hid. simpl.
  set (vs1 := match ready !! id with Some r => <[slot:=r]> vs | None => vs end).
  assert (vs1 !! slot = Some (resolve_value ready (VPendingFuture id))) as H1.
  { unfold vs1. simpl. destruct (ready !! id); simpl; [|done].
    apply list_lookup_insert_eq. by eapply lookup_lt_Some. }
  assert (∀ i, i ≠ slot → vs1 !! i = vs !! i) as Hne.
  { intros i Hi. unfold vs1. destruct (ready !! id); [|done]. by rewrite list_lookup_insert_ne. }
  rewrite H1. cbn [ok_or rbind].
  destruct (IH vs1 (remaining + if is_pending_future (resolve_value ready (VPendingFuture id)) then 1 else 0))
    as (vs' & Hrun & Hout & Hin); [done|..].
  { intros i Hi. destruct (Hp i) as [id' ?]; [set_solver|]. exists id'. rewrite Hne; [done|].
    by intros ->. }
  exists vs'. split_and!.
  - rewrite Hrun. do 2 f_equal. simpl.
    assert (slot_is_pending vs' slot =
            is_pending_future (resolve_value ready (VPendingFuture id))) as ->.
    { unfold slot_is_pending. rewrite Hout by done. by rewrite H1. }
    destruct (is_pending_future _); simpl; lia.
  - intros i Hi. rewrite Hout by set_solver. apply Hne. set_solver.
  - intros i [->|Hi]%elem_of_cons.
    + by rewrite Hout, H1, Hid by done.
    + rewrite Hin by done. rewrite Hne; [done|]. by intros ->.
Qed.

Lemma filter_pending_unique ready vs vs' :
  vs' = resolve_value ready <$> vs →
  List.filter (slot_is_pending vs') (pending_indices vs) = pending_indices vs'.
Proof.
  intros ->. apply pending_indices_unique.
  { apply sorted_lt_filter, pending_indices_sorted. }
  intros i. rewrite list_elem_of_In, filter_In, <- list_elem_of_In, pending_indices_elem.
  unfold slot_is_pending. rewrite list_lookup_fmap. split.
  - intros [[id ->] Hv]. simpl in *. destruct (default _ _); try done. by eexists.
  - intros [id' Hid]. destruct (vs !! i) as [v|]; simplify_eq/=.
    rewrite Hid. split; [|done]. destruct v; simplify_eq/=; eauto.
Qed.

Lemma replace_ready_futures_spec ready s :
  positions_exact s →
  ∃ s', replace_ready_futures ready s = Ok s' ∧
        values s' = resolve_value ready <$> values s ∧ positions_exact s'.
Proof.
  destruct s as [vs [slots|]]; unfold positions_exact, replace_ready_futures; simpl; intros Hs.
  2:{ eexists. split; [done|]. simpl. unfold pending_positions in Hs. simpl in Hs.
      assert (resolve_value ready <$> vs = vs) as ->; [|by split].
      apply list_eq. intros i. rewrite list_lookup_fmap. destruct (vs !! i) as [v|] eqn:Hv; [|done].
      simpl. f_equal. destruct v; try done.
      assert (i ∈ pending_indices vs) as Hi by (apply pending_indices_elem; eauto).
      rewrite <- Hs in Hi. by apply elem_of_nil in Hi. }
  unfold pending_positions in Hs. simpl in Hs.
  destruct (replace_loop_spec ready (rc_val slots) vs 0) as (vs' & -> & Hout & Hin).
  { rewrite Hs. apply sorted_lt_NoDup, pending_indices_sorted. }
  { intros i Hi. rewrite Hs in Hi. by apply pending_indices_elem in Hi. }
  assert (vs' = resolve_value ready <$> vs) as Hvs'.
  { apply list_eq. intros i. rewrite list_lookup_fmap.
    destruct (decide (i ∈ rc_val slots)) as [Hi|Hi]; [by apply Hin|].
    rewrite Hout by done. destruct (vs !! i) as [v|] eqn:Hv; [|done]. simpl. f_equal.
    destruct v; try done. exfalso. apply Hi. rewrite Hs. apply pending_indices_elem. eauto. }
  pose proof (filter_pending_unique ready vs vs' Hvs') as Hf. rewrite <- Hs in Hf.
  simpl. rewrite Hf.
  destruct (clear_pending_positions_spec (mkStack vs' (Some slots))) as [Hc1 Hc2].
  case_decide as H0; [|case_decide as Hlt]; eexists; (split; [done|]); simpl.
  - rewrite Hc1, Hc2. split; [done|]. symmetry. by apply nil_length_inv.
  - split; [done|]. unfold pending_positions. simpl. by rewrite Hf.
  - split; [done|]. unfold pending_positions. simpl. rewrite <- Hf.
    clear -Hlt Hf. rewrite <- Hf in Hlt. clear Hf. revert Hlt. generalize (slot_is_pending vs').
    intros f. induction (rc_val slots) as [|x l IH]; simpl; [done|].
    pose proof (List.filter_length_le f l) as Hle. destruct (f x); simpl; intros Hlt; [|lia].
    f_equal. apply IH. lia.
Qed.

(** ** Sequences of operations against the plain-vector specification *)

Inductive op : Type :=
| OpPush (v : Value)
| OpPop
| OpClear
| OpTruncate (n : nat)
| OpResolve (ready : gmap N Value)
| OpClone
| OpKeepOriginal
| OpShare (shared : bool).

(** One operation of the code: the popped value, if any, and the new stack.
    [OpClone] goes on with the copy and [OpKeepOriginal] with the original of a
    [clone]; [OpShare] is an effect of another owner of the position buffer. *)
Definition run_op (o : op) (s : OperandStack) : Run (option Value * OperandStack) :=
  match o with
  | OpPush v => Ok (None, push v s)
  | OpPop => Ok match pop s with Some (v, s') => (Some v, s') | None => (None, s) end
  | OpClear => Ok (None, clear s)
  | OpTruncate n => Ok (None, truncate n s)
  | OpResolve ready => let? s' := replace_ready_futures ready s in Ok (None, s')
  | OpClone => Ok (None, (clone s).2)
  | OpKeepOriginal => Ok (None, (clone s).1)
  | OpShare b => Ok (None, set_shared b s)
  end.

(** The same operation on a plain vector of values. *)
Definition spec_op (o : op) (vs : list Value) : option Value * list Value :=
  match o with
  | OpPush v => (None, vs ++ [v])
  | OpPop => (last vs, take (length vs - 1) vs)
  | OpClear => (None, [])
  | OpTruncate n => (None, take n vs)
  | OpResolve ready => (None, resolve_value ready <$> vs)
  | OpClone | OpKeepOriginal | OpShare _ => (None, vs)
  end.

Fixpoint run_ops (os : list op) (s : OperandStack) : Run (list (option Value) * OperandStack) :=
  match os with
  | [] => Ok ([], s)
  | o :: os' =>
      let? '(out, s') := run_op o s in
      let? '(outs, s'') := run_ops os' s' in
      Ok (out :: outs, s'')
  end.

Fixpoint spec_ops (os : list op) (vs : list Value) : list (option Value) * list Value :=
  match os with
  | [] => ([], vs)
  | o :: os' =>
      let '(out, vs') := spec_op o vs in
      let '(outs, vs'') := spec_ops os' vs' in
      (out :: outs, vs'')
  end.

Lemma run_op_refines o s :
  positions_exact s →
  ∃ s', run_op o s = Ok ((spec_op o (values s)).1, s') ∧
        values s' = (spec_op o (values s)).2 ∧ positions_exact s'.
Proof.
  intros Hs. destruct o as [v| | |n|ready| | |b]; simpl.
  - eexists. split; [done|]. by apply push_spec.
  - destruct (values s) as [|v vs _] eqn:Hv using rev_ind.
    + rewrite pop_nil by done. by exists s.
    + destruct (pop_snoc s vs v Hs Hv) as (s' & -> & ? & ?). exists s'.
      by rewrite last_snoc, length_app, Nat.add_sub, take_app_length.
  - eexists. split; [done|]. apply clear_spec.
  - eexists. split; [done|]. by apply truncate_spec.
  - destruct (replace_ready_futures_spec ready s Hs) as (s' & -> & ? & ?). by exists s'.
  - eexists. split; [done|]. pose proof (clone_spec s Hs) as Hc.
    destruct (clone s). simpl. naive_solver.
  - eexists. split; [done|]. pose proof (clone_spec s Hs) as Hc.
    destruct (clone s). simpl. naive_solver.
  - eexists. split; [done|]. by apply set_shared_spec.
Qed.

Lemma run_ops_refines os s :
  positions_exact s →
  ∃ s', run_ops os s = Ok ((spec_ops os (values s)).1, s') ∧
        values s' = (spec_ops os (values s)).2 ∧ positions_exact s'.
Proof.
  revert s. induction os as [|o os IH]; intros s Hs; simpl; [by exists s|].
  destruct (run_op_refines o s Hs) as (s1 & -> & H1 & Hs1). simpl.
  destruct (IH s1 Hs1) as (s2 & -> & H2 & Hs2). rewrite H1 in *.
  exists s2. destruct (spec_op o (values s)). simpl. by destruct (spec_ops os _).
Qed.

(** C9: every sequence of stack operations, started from any vector and
    interleaved in any way with clones and with other owners of the shared
    position buffer coming and going, behaves as the same sequence on a plain
    vector: same popped values, same contents, never a panic; and the recorded
    positions are exactly the pending slots at the end. *)
Theorem operand_stack_refines_vec (vs : list Value) (os : list op) :
  ∃ s, run_ops os (from_vec vs) = Ok ((spec_ops os vs).1, s) ∧
       values s = (spec_ops os vs).2 ∧ positions_exact s.
Proof.
  destruct (from_vec_spec vs) as [Hv Hs].
  destruct (run_ops_refines os _ Hs) as (s & ? & ? & ?). by exists s.
Qed.

Definition pending_id (v : Value) : option N :=
  match v with VPendingFuture id => Some id | _ => None end.

Lemma map_pending_ids vs k slots :
  k = length slots →
  map_result (pending_id_at (slots ++ vs))
    (omap (λ p, if is_pending_future p.2 then Some p.1 else None)
       (imap (λ n v, (k + n, v)) vs)) = Ok (omap pending_id vs).
Proof.
  revert k slots. induction vs as [|v vs IH]; intros k slots ->; [done|].
  specialize (IH (S (length slots)) (slots ++ [v])).
  rewrite length_app, <- app_assoc in IH. simpl in IH. specialize (IH ltac:(lia)).
  assert (imap ((λ n v0, (length slots + n, v0)) ∘ S) vs =
          imap (λ n v0, (S (length slots + n), v0)) vs) as Heq.
  { apply imap_ext. intros n x _. simpl. f_equal. lia. }
  destruct v; simpl; rewrite Heq; try done.
  assert (pending_id_at (slots ++ VPendingFuture future_id :: vs) (length slots + 0) =
          Ok future_id) as ->.
  { unfold pending_id_at, index. by rewrite Nat.add_0_r, list_lookup_middle. }
  simpl in *. unfold omap in IH. by rewrite IH.
Qed.

(** What the interpreter loop asks the index is exact. *)
Lemma index_exact s :
  positions_exact s →
  has_pending_futures s = existsb is_pending_future (values s) ∧
  pending_future_ids s = Ok (omap pending_id (values s)).
Proof.
  unfold positions_exact. intros Hex. split.
  - unfold has_pending_futures. rewrite Hex. apply eq_bool_prop_intro.
    rewrite negb_True, bool_decide_spec, Is_true_true, existsb_exists_elem. split.
    + intros Hne. destruct (pending_indices (values s)) as [|i l] eqn:Hi; [done|].
      assert (i ∈ pending_indices (values s)) as [id Hid]%pending_indices_elem
        by (rewrite Hi; by left).
      eexists. split; [by eapply list_elem_of_lookup_2|done].
    + intros (v & [i Hv]%list_elem_of_lookup & Hp) Hnil. destruct v; try done.
      assert (i ∈ pending_indices (values s)) as Hi by (apply pending_indices_elem; eauto).
      rewrite Hnil in Hi. by apply elem_of_nil in Hi.
  - unfold pending_future_ids. rewrite Hex. by apply (map_pending_ids (values s) 0 []).
Qed.

(** the fast path of the interpreter loop is exact on every reachable stack:
    [has_pending_futures] tells whether some top-level value is a pending future,
    and [pending_future_ids] lists the identifiers of all of them, bottom to top,
    without ever reading a slot that is not pending. *)
Theorem pending_index_is_exact (vs : list Value) (os : list op)
    (outs : list (option Value)) (s : OperandStack)
    (Hrun : run_ops os (from_vec vs) = Ok (outs, s)) :
  has_pending_futures s = existsb is_pending_future (values s) ∧
  pending_future_ids s = Ok (omap pending_id (values s)).
Proof.
  destruct (from_vec_spec vs) as [_ Hs].
  destruct (run_ops_refines os _ Hs) as (s' & Hrun' & _ & Hex).
  rewrite Hrun in Hrun'. injection Hrun' as _ <-. by apply index_exact.
Qed.

Lemma pending_index_is_exact_witness :
  run_ops [OpPush (VPendingFuture 7); OpClone; OpResolve {[1%N := VUnit]}]
      (from_vec [VPendingFuture 1; VInt 3]) =
    Ok ([None; None; None],
        mkStack [VUnit; VInt 3; VPendingFuture 7] (Some (mkRc false [2]))) ∧
  has_pending_futures (mkStack [VUnit; VInt 3; VPendingFuture 7] (Some (mkRc false [2]))) =
    existsb is_pending_future [VUnit; VInt 3; VPendingFuture 7] ∧
  pending_future_ids (mkStack [VUnit; VInt 3; VPendingFuture 7] (Some (mkRc false [2]))) = Ok [7%N].
Proof.
  split; [reflexivity|].
  apply (pending_index_is_exact [VPendingFuture 1; VInt 3]
    [OpPush (VPendingFuture 7); OpClone; OpResolve {[1%N := VUnit]}] [None; None; None]).
  reflexivity.
Defined.

End OperandStack.
