(* ===== verification/Ir.v ===== *)
(** * Bytecode ([crates/sindr/src/ir.rs])

    The instruction set, the constant pool, and the tables of a compiled program
    ([Bytecode]) and of an incremental one ([BytecodeChunk]), with the source's
    constructors and fields.  [u32]/[u16]/[u8] operands are [N]. *)

From S2P Require Import Prelude Names ListHandle Value TypeRegistry.
Export TypeRegistry (TypeRegistry).

Inductive RuntimeErrorDiagnosticTemplate : Type :=
| TplLiteralPatternMismatch (lhs : str)
| TplSafeBindPatternFailure (rule : str) (input_source : option str).
#[export] Instance RuntimeErrorDiagnosticTemplate_eq_dec :
  EqDecision RuntimeErrorDiagnosticTemplate.
Proof. solve_decision. Defined.

Inductive Opcode : Type :=
| LoadConst (idx : N)
| LoadBuiltinRef (builtin_id : BuiltinId)
| LoadFunctionRef (fun_idx : FunctionId)
| LoadLocal (slot : N)
| StoreLocal (slot : N)
| AddInt | SubInt | MulInt
| BitNotInt | BitAndInt | BitOrInt | BitXorInt
| AddFloat | SubFloat | MulFloat
| EqInt | NeqInt | LtInt | GtInt | LteInt | GteInt
| EqFloat | NeqFloat | LtFloat | GtFloat | LteFloat | GteFloat
| EqStr | NeqStr
| EqBool | NeqBool
| ConcatStr | StringIsEmpty | StringHead | StringTail
| NegInt | NegFloat | NotBool
| ListEmpty | ListNil | ListCons | ListIsEmpty | ListHead | ListTail
| ListFromItems (len : N)
| TupleNew (len : N)
| GetTupleField (field_index : N)
| StructNew (field_count : N)
| GetField (field_index : N)
| GetTag
| EqTag
| Dbg (template_id : N) (arg_count : N)
| CallBuiltin (builtin_id : BuiltinId) (arity span_start span_end : N)
| Call (fun_idx : FunctionId) (arity span_start span_end : N)
| CaptureClosure (num_captured : N)
| MakeError (template_id : N)
| Reserved56
| CallClosure (arity span_start span_end : N)
| Jump (addr : N)
| JumpIfFalse (addr : N)
| JumpIfTrue (addr : N)
| Pop
| Return
| Halt
| StoreConstLocal (const_idx local_idx : N)
| CopyLocal (src_local_idx dst_local_idx : N)
| EqLocalTag (local_idx tag_const_idx : N)
| StringLen | ListLen | StringContains | StringStartsWith | StringEndsWith
| MakeOk | MakeErr
| JumpIfLocalTagEq (local_idx tag_const_idx target_pc : N)
| JumpIfLocalTagNe (local_idx tag_const_idx target_pc : N)
| TailCallClosure (arity span_start span_end : N)
| LoadCallableTemplateRef (template_id : N)
| SetCallableSignature (signature : str)
| SetCallableOriginSource (capture_index : N)
| SetCallableDelegateFunction (fun_idx : N)
| EqPid
| IsErrorKind (kind : str)
| GetErrorPayload (kind : str) (field_index payload_len : N)
| AnnotateError (diagnostic : RuntimeErrorDiagnosticTemplate)
| RuntimeContractViolation (message : str).
#[export] Instance Opcode_eq_dec : EqDecision Opcode.
Proof. solve_decision. Defined.

Definition kind_name (op : Opcode) : string :=
  match op with
  | LoadConst _ => "LoadConst"
  | LoadBuiltinRef _ => "LoadBuiltinRef"
  | LoadFunctionRef _ => "LoadFunctionRef"
  | LoadLocal _ => "LoadLocal"
  | StoreLocal _ => "StoreLocal"
  | StoreConstLocal _ _ => "StoreConstLocal"
  | CopyLocal _ _ => "CopyLocal"
  | EqLocalTag _ _ => "EqLocalTag"
  | StringLen => "StringLen"
  | ListLen => "ListLen"
  | StringContains => "StringContains"
  | StringStartsWith => "StringStartsWith"
  | StringEndsWith => "StringEndsWith"
  | MakeOk => "MakeOk"
  | MakeErr => "MakeErr"
  | JumpIfLocalTagEq _ _ _ => "JumpIfLocalTagEq"
  | JumpIfLocalTagNe _ _ _ => "JumpIfLocalTagNe"
  | TailCallClosure _ _ _ => "TailCallClosure"
  | LoadCallableTemplateRef _ => "LoadCallableTemplateRef"
  | SetCallableSignature _ => "SetCallableSignature"
  | SetCallableOriginSource _ => "SetCallableOriginSource"
  | SetCallableDelegateFunction _ => "SetCallableDelegateFunction"
  | EqPid => "EqPid"
  | AddInt => "AddInt" | SubInt => "SubInt" | MulInt => "MulInt"
  | BitNotInt => "BitNotInt" | BitAndInt => "BitAndInt"
  | BitOrInt => "BitOrInt" | BitXorInt => "BitXorInt"
  | AddFloat => "AddFloat" | SubFloat => "SubFloat" | MulFloat => "MulFloat"
  | EqInt => "EqInt" | NeqInt => "NeqInt" | LtInt => "LtInt"
  | GtInt => "GtInt" | LteInt => "LteInt" | GteInt => "GteInt"
  | EqFloat => "EqFloat" | NeqFloat => "NeqFloat" | LtFloat => "LtFloat"
  | GtFloat => "GtFloat" | LteFloat => "LteFloat" | GteFloat => "GteFloat"
  | EqStr => "EqStr" | NeqStr => "NeqStr"
  | EqBool => "EqBool" | NeqBool => "NeqBool"
  | ConcatStr => "ConcatStr" | StringIsEmpty => "StringIsEmpty"
  | StringHead => "StringHead" | StringTail => "StringTail"
  | NegInt => "NegInt" | NegFloat => "NegFloat" | NotBool => "NotBool"
  | ListEmpty => "ListEmpty" | ListNil => "ListNil" | ListCons => "ListCons"
  | ListIsEmpty => "ListIsEmpty" | ListHead => "ListHead" | ListTail => "ListTail"
  | ListFromItems _ => "ListFromItems"
  | TupleNew _ => "TupleNew"
  | GetTupleField _ => "GetTupleField"
  | StructNew _ => "StructNew"
  | GetField _ => "GetField"
  | GetTag => "GetTag"
  | EqTag => "EqTag"
  | Dbg _ _ => "Dbg"
  | CallBuiltin _ _ _ _ => "CallBuiltin"
  | Call _ _ _ _ => "Call"
  | CaptureClosure _ => "CaptureClosure"
  | MakeError _ => "MakeError"
  | IsErrorKind _ => "IsErrorKind"
  | GetErrorPayload _ _ _ => "GetErrorPayload"
  | AnnotateError _ => "AnnotateError"
  | RuntimeContractViolation _ => "RuntimeContractViolation"
  | Reserved56 => "Reserved56"
  | CallClosure _ _ _ => "CallClosure"
  | Jump _ => "Jump"
  | JumpIfFalse _ => "JumpIfFalse"
  | JumpIfTrue _ => "JumpIfTrue"
  | Pop => "Pop"
  | Return => "Return"
  | Halt => "Halt"
  end.

(** ** Constants and error templates *)

Inductive Constant : Type :=
| CInt (n : SurtrInt)
| CTag (tag : RuntimeTag)
| CFloat (f : f64)
| CStr (s : str)
| CBool (b : bool)
| CUnit
| CErrorKind (kind : str).

Unset Elimination Schemes.
Inductive ErrorValueSchema : Type :=
| SInt | SFloat | SString | SBoolean | SUnit | SError
| SCallable (parameters : list ErrorValueSchema) (result : ErrorValueSchema)
| STypeParameter (index : N)
| SList (item : ErrorValueSchema)
| STuple (items : list ErrorValueSchema)
| SResult (ok error : ErrorValueSchema)
| SEnumError (name : str) (kinds : list str) (has_other : bool)
| SMatchResult (ok : ErrorValueSchema)
| SPid (marker : ErrorValueSchema)
| SProcessMarker (name : str)
| SNamed (name : str) (arguments : list ErrorValueSchema)
| SStruct (name : str) (arguments fields : list ErrorValueSchema)
| SEnum (name : str) (arguments : list ErrorValueSchema) (variants : list ErrorVariantSchema)
| SHashMap (item : ErrorValueSchema)
| SRecursive (name : str) (arguments : list ErrorValueSchema)
| SErrorKind
with ErrorVariantSchema : Type :=
| mkVariantSchema (name : str) (tag : N) (discriminant : SurtrInt)
    (fields : list ErrorValueSchema).
Set Elimination Schemes.

Record ErrTemplate : Type := mkErrTemplate {
  et_id : N;
  et_kind : str;
  et_constructor_fun_idx : N;
  et_input_types : list ErrorValueSchema;
  et_payload_fields : list (str * ErrorValueSchema);
}.

Record DbgArgTemplate : Type := mkDbgArg {
  da_span_start : N;
  da_span_end : N;
  da_ty_name : str;
}.

Record DbgTemplate : Type := mkDbgTemplate {
  dt_id : N;
  dt_span_start : N;
  dt_span_end : N;
  dt_source_name : option str;
  dt_args : list DbgArgTemplate;
}.

(** ** Callable templates *)

Inductive CallableTemplateDirectTarget : Type :=
| DirectBuiltin (id : BuiltinId)
| DirectUserFunction (id : FunctionId).

Inductive CallableTemplateArg : Type :=
| ArgBound (i : N)
| ArgRuntime (i : N).

Inductive CallableTemplateComposeFlavor : Type := Plain.

Inductive CallableTemplateKind : Type :=
| PartialDirectCall (target : CallableTemplateDirectTarget)
    (arg_sources : list CallableTemplateArg)
| InjectDirectCall (target : CallableTemplateDirectTarget) (bound_arg_count : N)
| ComposeDirect (flavor : CallableTemplateComposeFlavor).

Record CallableTemplateMetadata : Type := mkTemplateMetadata {
  ctm_origin : CallableOrigin;
  ctm_module : option str;
  ctm_name : option str;
  ctm_full_signature : option str;
}.

Record CallableTemplate : Type := mkCallableTemplate {
  ct_template_id : N;
  ct_kind : CallableTemplateKind;
  ct_metadata : CallableTemplateMetadata;
}.

(** ** Functions *)

Record FunctionFlags : Type := mkFunctionFlags {
  ff_public : bool;
  ff_closure : bool;
  ff_partial_apply_wrapper : bool;
  ff_builtin_wrapper : bool;
  ff_tail_entry : bool;
  ff_generated : bool;
}.

Record FunctionEntry : Type := mkFunctionEntry {
  fe_fun_idx : FunctionId;
  fe_entry_pc : N;
  fe_num_locals : N;
  fe_arity : N;
  fe_qualified_name : option str;
  fe_signature : option str;
  fe_end_pc : N;
  fe_span_start : N;
  fe_span_end : N;
  fe_flags : FunctionFlags;
}.

(** ** Source metadata *)

Record OpcodeSource : Type := mkOpcodeSource {
  os_opcode_index : N;
  os_span_start : N;
  os_span_end : N;
  os_line : N;
  os_column : N;
  os_source_name : option str;
}.
#[export] Instance OpcodeSource_eq_dec : EqDecision OpcodeSource.
Proof. solve_decision. Defined.

(** [SourceMap] is its list of entries. *)
Abbreviation SourceMap := (list OpcodeSource).

Record LabelEntry : Type := mkLabel { lb_name : str; lb_pc : N }.

Inductive ImportKind : Type := ImportBuiltin | ImportFunction | ImportRuntime.

Record ImportEntry : Type := mkImport {
  im_symbol : str;
  im_kind : ImportKind;
  im_arity : N;
  im_builtin_id : option N;
  im_function_id : option N;
  im_call_pcs : list N;
}.

Record ExportEntry : Type := mkExport {
  ex_symbol : str;
  ex_arity : N;
  ex_function_id : N;
  ex_entry_pc : N;
  ex_doc_qualified_name : option str;
}.

Inductive LiteralKind : Type :=
| LkInt | LkTag | LkFloat | LkStr | LkBool | LkUnit | LkErrorKind.

Record LiteralEntry : Type := mkLiteral {
  li_const_idx : N;
  li_kind : LiteralKind;
  li_display : str;
}.

Record LineEntry : Type := mkLine {
  ln_line : N;
  ln_start_pc : N;
  ln_end_pc : N;
  ln_source_name : option str;
}.

Record SpanEntry : Type := mkSpan {
  sp_span_id : N;
  sp_span_start : N;
  sp_span_end : N;
  sp_line : N;
  sp_column : N;
  sp_source_name : option str;
}.

Record PcSpanEntry : Type := mkPcSpan { ps_pc : N; ps_span_id : N }.

Record SourceFileEntry : Type := mkSourceFile {
  sr_source_id : N;
  sr_path : str;
  sr_normalized_path : option str;
  sr_content_hash : option str;
  sr_text : option str;
}.

Inductive DocKind : Type := DocModule | DocType | DocFunction.
#[export] Instance DocKind_eq_dec : EqDecision DocKind.
Proof. solve_decision. Defined.

Record DocEntry : Type := mkDoc {
  dc_qualified_name : str;
  dc_kind : DocKind;
  dc_module_path : str;
  dc_signature : option str;
  dc_doc : str;
}.
#[export] Instance DocEntry_eq_dec : EqDecision DocEntry.
Proof. solve_decision. Defined.

Record SignatureEntry : Type := mkSignature {
  sg_qualified_name : str;
  sg_kind : DocKind;
  sg_module_path : str;
  sg_signature : str;
}.

Record CompileInfo : Type := mkCompileInfo {
  ci_bytecode_version : N;
  ci_debug_level : N;
  ci_num_locals : nat;
  ci_compiler_version : option str;
  ci_target : option str;
  ci_build_profile : option str;
  ci_source_hash : option str;
  ci_module_hash : option str;
}.

(** [CompileInfo::default]. *)
Definition default_compile_info : CompileInfo := mkCompileInfo 3 2 0 None None None None None.

(** ** Process specifications and the boot plan *)

Inductive RuntimeProcessKind : Type :=
| PkAgent | PkGenServer | PkSupervisor | PkRuntimeSupervisor | PkDynamicSupervisor | PkTask.
#[export] Instance RuntimeProcessKind_eq_dec : EqDecision RuntimeProcessKind.
Proof. solve_decision. Defined.

Inductive RuntimeProcessInstance : Type := SingletonInstance | WorkerInstance.
Inductive RuntimeInitPolicy : Type := PolicyEager | PolicyStandby.

Record RuntimeTypeRef : Type := mkTypeRef { tr_name : str }.

Inductive RuntimeInitResultShape : Type :=
| EagerState (result_type : RuntimeTypeRef)
| StandbyProcessInit (result_type : RuntimeTypeRef).

Record RuntimeHandlerArg : Type := mkHandlerArg { ha_name : str; ha_value : str }.
Record RuntimeHandlerTarget : Type := mkHandlerTarget {
  ht_name : str;
  ht_named_args : list RuntimeHandlerArg;
}.

Record RuntimeHandlerDependency : Type := mkHandlerDependency {
  hd_slot : str;
  hd_capability : str;
  hd_default_target : RuntimeHandlerTarget;
}.

Inductive RuntimeHandlerKind : Type := HkInit | HkGet | HkSet | HkCall | HkCast.

Record RuntimeHandlerSpec : Type := mkHandlerSpec {
  hs_handler_id : N;
  hs_name : str;
  hs_kind : RuntimeHandlerKind;
  hs_fun_idx : FunctionId;
  hs_arity : N;
}.

Record RuntimeInitSpec : Type := mkInitSpec {
  in_callable_fun_idx : FunctionId;
  in_policy : RuntimeInitPolicy;
  in_result_shape : RuntimeInitResultShape;
  in_state_type : RuntimeTypeRef;
  in_init_route : option str;
}.

Record RuntimeLifecycleSpec : Type := mkLifecycle {
  lc_owner : option str;
  lc_exit_sink : option str;
  lc_restart_target : option str;
}.

Record RuntimeSupervisorPolicy : Type := mkSupervisorPolicy {
  sv_strategy : str;
  sv_max_restarts : N;
  sv_max_seconds : N;
  sv_child_restart_default : str;
  sv_allow_adopt : bool;
  sv_shutdown_timeout_ms : option N;
}.

Record RuntimeSupervisionSpec : Type := mkSupervision {
  su_parent : option str;
  su_children : list str;
  su_policy : option RuntimeSupervisorPolicy;
}.

Record RuntimeProcessSpec : Type := mkProcessSpec {
  rp_process_id : N;
  rp_type_name : str;
  rp_kind : RuntimeProcessKind;
  rp_instance : RuntimeProcessInstance;
  rp_state_type : RuntimeTypeRef;
  rp_init : RuntimeInitSpec;
  rp_handlers : list RuntimeHandlerSpec;
  rp_handler_dependencies : list RuntimeHandlerDependency;
  rp_lifecycle : RuntimeLifecycleSpec;
  rp_supervision : RuntimeSupervisionSpec;
}.

Inductive BootEntrySource : Type := ExplicitConfig | BuiltinStandardIo.

Record SingletonBootEntry : Type := mkSingletonBoot {
  sb_process_name : str;
  sb_init_timeout_ms : N;
  sb_source : BootEntrySource;
}.

Record StandardOverrideEntry : Type := mkStandardOverride {
  so_standard_name : str;
  so_handler_target : RuntimeHandlerTarget;
}.

Record RuntimeHandlerOverride : Type := mkHandlerOverride {
  ho_target_process : str;
  ho_slot : str;
  ho_handler_target : RuntimeHandlerTarget;
}.

Record RuntimeSupervisorOverrideEntry : Type := mkSupervisorOverride {
  sve_process_name : str;
  sve_policy : RuntimeSupervisorPolicy;
}.

Record RuntimeLimitConfig : Type := mkLimits {
  lm_default_init_timeout_ms : N;
  lm_min_init_timeout_ms : N;
  lm_max_init_timeout_ms : N;
  lm_pending_initial_retry_ms : N;
  lm_pending_max_retry_ms : N;
  lm_min_scheduler_tick_ms : N;
}.

(** [RuntimeLimitConfig::default]. *)
Definition default_limits : RuntimeLimitConfig := mkLimits 5000 1 60000 10 1000 1.

Record RuntimeBootPlan : Type := mkBootPlan {
  bp_root_name : option str;
  bp_singletons : list SingletonBootEntry;
  bp_standard_overrides : list StandardOverrideEntry;
  bp_handler_overrides : list RuntimeHandlerOverride;
  bp_supervisor_overrides : list RuntimeSupervisorOverrideEntry;
  bp_runtime_limits : RuntimeLimitConfig;
}.

Definition default_boot_plan : RuntimeBootPlan := mkBootPlan None [] [] [] [] default_limits.

(** ** Programs *)

Record Bytecode : Type := mkBytecode {
  opcodes : list Opcode;
  constants : list Constant;
  num_locals : nat;
  type_registry : TypeRegistry;
  error_templates : list ErrTemplate;
  dbg_templates : list DbgTemplate;
  callable_templates : list CallableTemplate;
  functions : list FunctionEntry;
  source_map : option SourceMap;
  docs : list DocEntry;
  signatures : list SignatureEntry;
  compile_info : CompileInfo;
  labels : list LabelEntry;
  imports : list ImportEntry;
  exports : list ExportEntry;
  literals : list LiteralEntry;
  lines : list LineEntry;
  spans : list SpanEntry;
  sources : list SourceFileEntry;
  pc_spans : list PcSpanEntry;
  runtime_process_specs : list RuntimeProcessSpec;
  runtime_boot_plan : RuntimeBootPlan;
}.

(** [Bytecode::default]. *)
Definition default_bytecode : Bytecode :=
  mkBytecode [] [] 0 TypeRegistry.new [] [] [] [] None [] [] default_compile_info
    [] [] [] [] [] [] [] [] [] default_boot_plan.

Record BytecodeChunk : Type := mkChunk {
  ch_opcodes : list Opcode;
  ch_source_map : option SourceMap;
  ch_const_base : N;
  ch_constants : list Constant;
  ch_new_locals : nat;
  ch_type_registry_base : N;
  ch_type_entries : list TypeEntry;
  ch_error_template_base : N;
  ch_error_templates : list ErrTemplate;
  ch_dbg_template_base : N;
  ch_dbg_templates : list DbgTemplate;
  ch_callable_templates : list CallableTemplate;
  ch_functions : list FunctionEntry;
  ch_docs : list DocEntry;
  ch_signatures : list SignatureEntry;
  ch_runtime_process_specs : list RuntimeProcessSpec;
  ch_runtime_boot_plan : RuntimeBootPlan;
}.

(** ** The builtin table

    [builtin_meta_by_id] reads a static table of names, arities and signatures. *)
Record BuiltinMeta : Type := mkBuiltinMeta { bm_name : str; bm_arity : N; bm_sig_str : str }.
Class BuiltinTable : Type := builtin_meta_by_id : N → option BuiltinMeta.

(** ** Module source spans: every registered source owns one stride of offsets. *)

Definition MODULE_SPAN_STRIDE : N := 1000000.

Definition decode_module_source_span (start end_ : N) : option (N * N * N) :=
  if decide (start < MODULE_SPAN_STRIDE)%N then None
  else
    let bucket := (start / MODULE_SPAN_STRIDE)%N in
    let base := (bucket * MODULE_SPAN_STRIDE)%N in
    Some (((bucket - 1) `mod` (u32_max + 1))%N, (start - base)%N, (end_ - base)%N).

(** A span of source [id] is recovered from its encoding: offsets inside one
    stride decode to the source and the offsets they were encoded from. *)
Lemma decode_module_source_span_encode (id s e : N) :
  (id ≤ u32_max)%N → (s < MODULE_SPAN_STRIDE)%N →
  decode_module_source_span ((id + 1) * MODULE_SPAN_STRIDE + s) ((id + 1) * MODULE_SPAN_STRIDE + e)
  = Some (id, s, e).
Proof.
  intros Hid Hs. unfold decode_module_source_span, MODULE_SPAN_STRIDE in *.
  rewrite decide_False by lia.
  rewrite N.div_add_l, N.div_small by lia.
  rewrite N.mod_small; [|unfold u32_max in *; lia]. f_equal. f_equal; [f_equal|]; lia.
Qed.
