(* ===== verification/FunctionTable.v ===== *)
(** * Function-table validation ([crates/sindr/src/ir.rs])

    The shared verifier of the producers and of the VM: the top level ends at the
    first [Halt], functions start after it and inside the code, the table is
    indexed by [fun_idx] without holes, and no opcode, callable template or
    process specification names a function outside the table. *)

From S2P Require Import Prelude Names ListHandle Value TypeRegistry Ir.

Module FunctionTable.

Inductive RefContext : Type := RefOpcode | RefTemplate | RefProcessInit | RefProcessHandler.

(** [BytecodeValidationError] by message. *)
Inductive BytecodeValidationError : Type :=
| ReturnAtTopLevel
| MissingHalt (context : string)
| TableIndexMismatch (idx : nat) (fun_idx : N)
| DuplicateFunction (fun_idx : N)
| EntryPcOutOfBounds (fun_idx : N) (context : string) (entry_pc : N)
| EntryPcBeforeHalt (fun_idx entry_pc : N) (halt : nat)
| ReplacesPrefix (idx base : nat)
| HoleInTable (idx next : nat)
| UnknownFunction (fun_idx : N) (context : RefContext) (len : nat)
| RegistryError (err : TypeRegistry.TypeRegistryError).

Abbreviation VResult := (Result BytecodeValidationError).

Definition is_halt (op : Opcode) : bool := match op with Halt => true | _ => false end.

Definition is_return_like (op : Opcode) : bool :=
  match op with Return | TailCallClosure _ _ _ => true | _ => false end.

Definition top_level_halt_pos (ops : list Opcode) (context : string) : VResult nat :=
  match position is_halt ops with
  | Some pos => Ok pos
  | None => if existsb is_return_like ops then Err ReturnAtTopLevel else Err (MissingHalt context)
  end.

Definition validate_function_entry_pc (entry : FunctionEntry) (opcode_len halt_pos : nat)
    (context : string) : VResult unit :=
  if decide (opcode_len ≤ N.to_nat (fe_entry_pc entry)) then
    Err (EntryPcOutOfBounds (fe_fun_idx entry) context (fe_entry_pc entry))
  else if decide (N.to_nat (fe_entry_pc entry) ≤ halt_pos) then
    Err (EntryPcBeforeHalt (fe_fun_idx entry) (fe_entry_pc entry) halt_pos)
  else Ok tt.

Definition validate_function_ref (function_len : nat) (fun_idx : FunctionId)
    (context : RefContext) : VResult unit :=
  if decide (function_len ≤ N.to_nat fun_idx) then Err (UnknownFunction fun_idx context function_len)
  else Ok tt.

Definition validate_opcode_ref (function_len : nat) (op : Opcode) : VResult unit :=
  match op with
  | LoadFunctionRef fun_idx | Call fun_idx _ _ _ =>
      validate_function_ref function_len fun_idx RefOpcode
  | _ => Ok tt
  end.

Definition validate_template_ref (function_len : nat) (t : CallableTemplate) : VResult unit :=
  match ct_kind t with
  | PartialDirectCall target _ | InjectDirectCall target _ =>
      match target with
      | DirectUserFunction fun_idx => validate_function_ref function_len fun_idx RefTemplate
      | DirectBuiltin _ => Ok tt
      end
  | ComposeDirect _ => Ok tt
  end.

Definition validate_spec_ref (function_len : nat) (spec : RuntimeProcessSpec) : VResult unit :=
  let? _ := validate_function_ref function_len (in_callable_fun_idx (rp_init spec)) RefProcessInit in
  for_each (λ handler, validate_function_ref function_len (hs_fun_idx handler) RefProcessHandler)
    (rp_handlers spec).

Definition validate_function_refs (function_len : nat) (ops : list Opcode)
    (templates : list CallableTemplate) (specs : list RuntimeProcessSpec) : VResult unit :=
  let? _ := for_each (validate_opcode_ref function_len) ops in
  let? _ := for_each (validate_template_ref function_len) templates in
  for_each (validate_spec_ref function_len) specs.

(** The loop of [validate_program_function_table], with its set of seen indices. *)
Fixpoint program_table_loop (idx : nat) (seen : gset N) (opcode_len halt_pos : nat)
    (entries : list FunctionEntry) : VResult unit :=
  match entries with
  | [] => Ok tt
  | entry :: rest =>
      if decide (N.to_nat (fe_fun_idx entry) ≠ idx) then
        Err (TableIndexMismatch idx (fe_fun_idx entry))
      else if decide (fe_fun_idx entry ∈ seen) then Err (DuplicateFunction (fe_fun_idx entry))
      else
        let? _ := validate_function_entry_pc entry opcode_len halt_pos "" in
        program_table_loop (S idx) ({[fe_fun_idx entry]} ∪ seen) opcode_len halt_pos rest
  end.

Definition validate_program_function_table (ops : list Opcode)
    (templates : list CallableTemplate) (specs : list RuntimeProcessSpec)
    (functions : list FunctionEntry) : VResult unit :=
  let? halt_pos := top_level_halt_pos ops "bytecode" in
  let? _ := program_table_loop 0 ∅ (length ops) halt_pos functions in
  validate_function_refs (length functions) ops templates specs.

(** [sort_by_key(|entry| entry.fun_idx)]: a stable sort. *)
Definition fun_idx_le (a b : FunctionEntry) : Prop := (fe_fun_idx a ≤ fe_fun_idx b)%N.
#[export] Instance fun_idx_le_dec : RelDecision fun_idx_le.
Proof. intros a b. unfold fun_idx_le. apply _. Defined.
#[export] Instance fun_idx_le_total : Total fun_idx_le.
Proof. intros a b. unfold fun_idx_le. lia. Qed.
#[export] Instance fun_idx_le_trans : Transitive fun_idx_le.
Proof. intros a b c. unfold fun_idx_le. lia. Qed.

(** The loop of [validate_chunk_function_table] over the sorted entries. *)
Fixpoint chunk_table_loop (seen : gset N) (next_append_idx base_function_len : nat)
    (allow_existing_replacements : bool) (opcode_len halt_pos : nat)
    (entries : list FunctionEntry) : VResult nat :=
  match entries with
  | [] => Ok next_append_idx
  | entry :: rest =>
      let idx := N.to_nat (fe_fun_idx entry) in
      if decide (fe_fun_idx entry ∈ seen) then Err (DuplicateFunction (fe_fun_idx entry))
      else
        let? next' :=
          if decide (idx < base_function_len) then
            if allow_existing_replacements then Ok next_append_idx
            else Err (ReplacesPrefix idx base_function_len)
          else if decide (idx = next_append_idx) then Ok (S next_append_idx)
          else Err (HoleInTable idx next_append_idx) in
        let? _ := validate_function_entry_pc entry opcode_len halt_pos "chunk " in
        chunk_table_loop ({[fe_fun_idx entry]} ∪ seen) next' base_function_len
          allow_existing_replacements opcode_len halt_pos rest
  end.

Definition validate_chunk_function_table (ops : list Opcode)
    (templates : list CallableTemplate) (specs : list RuntimeProcessSpec)
    (functions : list FunctionEntry) (base_function_len : nat)
    (allow_existing_replacements : bool) : VResult nat :=
  let? halt_pos := top_level_halt_pos ops "chunk" in
  let? next := chunk_table_loop ∅ base_function_len base_function_len
                 allow_existing_replacements (length ops) halt_pos
                 (merge_sort fun_idx_le functions) in
  let? _ := validate_function_refs next ops templates specs in
  Ok next.

(** ** Specification *)

(** The function indices an opcode, a template or a process refers to. *)
Definition opcode_refs (op : Opcode) : list N :=
  match op with LoadFunctionRef f | Call f _ _ _ => [f] | _ => [] end.

Definition template_refs (t : CallableTemplate) : list N :=
  match ct_kind t with
  | PartialDirectCall (DirectUserFunction f) _ | InjectDirectCall (DirectUserFunction f) _ => [f]
  | _ => []
  end.

Definition spec_refs (spec : RuntimeProcessSpec) : list N :=
  in_callable_fun_idx (rp_init spec) :: (hs_fun_idx <$> rp_handlers spec).

Definition all_refs (ops : list Opcode) (templates : list CallableTemplate)
    (specs : list RuntimeProcessSpec) : list N :=
  (ops ≫= opcode_refs) ++ (templates ≫= template_refs) ++ (specs ≫= spec_refs).

(** Entry points lie strictly between the top-level [Halt] and the end. *)
Definition entry_ok (opcode_len halt_pos : nat) (e : FunctionEntry) : Prop :=
  halt_pos < N.to_nat (fe_entry_pc e) < opcode_len.

Lemma validate_function_entry_pc_Ok e n h c :
  validate_function_entry_pc e n h c = Ok tt ↔ entry_ok n h e.
Proof. unfold validate_function_entry_pc, entry_ok. repeat case_decide; split; (done || lia). Qed.

Lemma validate_function_ref_Ok n f c : validate_function_ref n f c = Ok tt ↔ N.to_nat f < n.
Proof. unfold validate_function_ref. case_decide; split; (done || lia). Qed.

Lemma top_level_halt_pos_Ok ops c p : top_level_halt_pos ops c = Ok p ↔ position is_halt ops = Some p.
Proof. unfold top_level_halt_pos. repeat case_match; naive_solver. Qed.

Lemma validate_function_refs_Ok n ops templates specs :
  validate_function_refs n ops templates specs = Ok tt ↔
  Forall (λ f, N.to_nat f < n) (all_refs ops templates specs).
Proof.
  unfold validate_function_refs, all_refs. rewrite !Forall_app, !Forall_bind.
  assert (Hb : ∀ (A : Type) (v : A → VResult unit) (refs : A → list N) l,
    (∀ x, v x = Ok tt ↔ Forall (λ f, N.to_nat f < n) (refs x)) →
    for_each v l = Ok tt ↔ Forall (λ x, Forall (λ f, N.to_nat f < n) (refs x)) l).
  { intros A v refs l Hv. rewrite for_each_Ok. by apply Forall_proper; [intros x; apply Hv|]. }
  rewrite rbind_Ok. setoid_rewrite rbind_Ok.
  rewrite <- (Hb _ (validate_opcode_ref n) opcode_refs),
    <- (Hb _ (validate_template_ref n) template_refs),
    <- (Hb _ (validate_spec_ref n) spec_refs).
  - split.
    + by intros ([] & ? & [] & ? & ?).
    + intros (? & ? & ?). exists tt. split; [done|]. by exists tt.
  - intros spec. unfold validate_spec_ref, spec_refs.
    rewrite rbind_Ok, Forall_cons, Forall_fmap, <- (validate_function_ref_Ok n _ RefProcessInit).
    setoid_rewrite for_each_Ok.
    assert (Forall ((λ f, N.to_nat f < n) ∘ hs_fun_idx) (rp_handlers spec) ↔
      Forall (λ h, validate_function_ref n (hs_fun_idx h) RefProcessHandler = Ok tt)
        (rp_handlers spec)) as ->.
    { apply Forall_proper; [|done]. intros h. symmetry. apply validate_function_ref_Ok. }
    split; [by intros ([] & ? & ?)|]. intros [? ?]. by exists tt.
  - intros t. unfold validate_template_ref, template_refs.
    repeat case_match; rewrite ?Forall_singleton, ?validate_function_ref_Ok, ?Forall_nil; done.
  - intros op. unfold validate_opcode_ref, opcode_refs.
    repeat case_match; rewrite ?Forall_singleton, ?validate_function_ref_Ok, ?Forall_nil; done.
Qed.

Lemma program_table_loop_Ok idx seen n h l :
  (∀ f, f ∈ seen → N.to_nat f < idx) →
  program_table_loop idx seen n h l = Ok tt ↔
  (∀ i e, l !! i = Some e → N.to_nat (fe_fun_idx e) = idx + i) ∧ Forall (entry_ok n h) l.
Proof.
  revert idx seen. induction l as [|e l IH]; intros idx seen Hseen; simpl.
  { split; [|done]. intros _. split; [|constructor]. intros i e. by rewrite lookup_nil. }
  case_decide as Hidx.
  { split; [done|]. intros [H _]. specialize (H 0 e eq_refl). lia. }
  assert (N.to_nat (fe_fun_idx e) = idx) as Heq by (destruct (decide (N.to_nat (fe_fun_idx e) = idx)); naive_solver).
  rewrite decide_False by (intros ?%Hseen; lia).
  rewrite rbind_Ok.
  rewrite Forall_cons. split.
  - intros ([] & Hpc%validate_function_entry_pc_Ok & Hl).
    apply IH in Hl as [Hl1 Hl2]; [|set_solver by lia].
    split; [|done]. intros [|i] e' He'; simplify_eq/=; [lia|].
    specialize (Hl1 i e' He'). lia.
  - intros (Hall & Hpc & Hl). exists tt. split; [by apply validate_function_entry_pc_Ok|].
    apply IH; [set_solver by lia|]. split; [|done].
    intros i e' He'. specialize (Hall (S i) e' He'). lia.
Qed.

(** What a chunk's function entries must look like on top of [base] functions:
    no index twice, the indices beyond the base are [base .. next-1] without
    holes, and existing functions are only replaced when that is allowed. *)
Definition chunk_entries_ok (base next : nat) (allow : bool) (l : list FunctionEntry) : Prop :=
  base ≤ next ∧ NoDup (fe_fun_idx <$> l) ∧
  (∀ e, e ∈ l → N.to_nat (fe_fun_idx e) < next ∧ (allow = false → base ≤ N.to_nat (fe_fun_idx e))) ∧
  (∀ i, base ≤ i < next → ∃ e, e ∈ l ∧ N.to_nat (fe_fun_idx e) = i).

Lemma chunk_entries_ok_perm base next allow l l' :
  l ≡ₚ l' → chunk_entries_ok base next allow l ↔ chunk_entries_ok base next allow l'.
Proof.
  intros Hp. unfold chunk_entries_ok.
  assert (∀ e, e ∈ l ↔ e ∈ l') as Hin by (intros e; by rewrite Hp).
  rewrite Hp. by setoid_rewrite Hin.
Qed.

Lemma chunk_table_loop_sound seen next0 base allow n h l next :
  base ≤ next0 → chunk_table_loop seen next0 base allow n h l = Ok next →
  next0 ≤ next ∧ NoDup (fe_fun_idx <$> l) ∧ Forall (entry_ok n h) l ∧
  (∀ e, e ∈ l → (fe_fun_idx e ∉ seen) ∧
     (N.to_nat (fe_fun_idx e) < base ∧ allow = true ∨ next0 ≤ N.to_nat (fe_fun_idx e) < next)) ∧
  (∀ i, next0 ≤ i < next → ∃ e, e ∈ l ∧ N.to_nat (fe_fun_idx e) = i).
Proof.
  revert seen next0. induction l as [|e l IH]; intros seen next0 Hb; simpl.
  { intros [= <-]. split_and!; [done|constructor..| |lia]. intros e He. by apply elem_of_nil in He. }
  case_decide as Hseen; [done|]. intros H. inv_result.
  apply validate_function_entry_pc_Ok in Hok0. rename a into next1.
  assert (next0 ≤ next1 ∧ (N.to_nat (fe_fun_idx e) < base ∧ allow = true ∧ next1 = next0 ∨
      N.to_nat (fe_fun_idx e) = next0 ∧ next1 = S next0)) as [Hle Hcase].
  { revert Hok. repeat case_decide; [destruct allow|..]; intros; simplify_eq; lia || auto. }
  apply IH in H as (Hn & Hnd & Hall & Hin & Hcov); [|lia].
  split_and!; [lia| |by constructor| |].
  - simpl. constructor; [|done]. intros (e' & He' & Hx)%list_elem_of_fmap.
    destruct (Hin e' Hx) as [Hnot _]. rewrite <- He' in Hnot. set_solver.
  - intros e' [->|He']%elem_of_cons.
    + split; [done|]. destruct Hcase as [(?&?&?)|(?&?)]; [auto|right; lia].
    + destruct (Hin e' He') as [Hnot Hc]. split; [set_solver|].
      destruct Hc as [?|?]; [auto|right; lia].
  - intros i Hi. destruct Hcase as [(?&?&->)|(He&->)].
    + destruct (Hcov i) as (e' & ? & ?); [lia|]. exists e'. by split; [right|].
    + destruct (decide (i = next0)) as [->|].
      * exists e. by split; [left|].
      * destruct (Hcov i) as (e' & ? & ?); [lia|]. exists e'. by split; [right|].
Qed.

Lemma chunk_table_loop_complete seen next0 base allow n h l next :
  StronglySorted fun_idx_le l → NoDup (fe_fun_idx <$> l) → Forall (entry_ok n h) l →
  base ≤ next0 ≤ next →
  (∀ e, e ∈ l → (fe_fun_idx e ∉ seen) ∧
     (N.to_nat (fe_fun_idx e) < base ∧ allow = true ∨ next0 ≤ N.to_nat (fe_fun_idx e) < next)) →
  (∀ i, next0 ≤ i < next → ∃ e, e ∈ l ∧ N.to_nat (fe_fun_idx e) = i) →
  chunk_table_loop seen next0 base allow n h l = Ok next.
Proof.
  intros Hs. revert seen next0. induction Hs as [|e l Hs IH Hmin];
    intros seen next0 Hnd Hpc Hb Hin Hcov; simpl.
  { f_equal. destruct (decide (next0 = next)) as [|Hne]; [done|].
    destruct (Hcov next0) as (e & He & _); [lia|]. by apply elem_of_nil in He. }
  simpl in Hnd. apply NoDup_cons in Hnd as [Hni Hnd]. apply Forall_cons in Hpc as [He Hpc].
  destruct (Hin e) as [Hseen Hcase]; [by left|]. rewrite decide_False by done.
  apply validate_function_entry_pc_Ok with (c := "chunk ") in He.
  assert (∀ e', e' ∈ l → fe_fun_idx e ≠ fe_fun_idx e') as Hdiff.
  { intros e' He' Heq. apply Hni. rewrite Heq. by apply list_elem_of_fmap_2. }
  rewrite Forall_forall in Hmin. unfold fun_idx_le in Hmin.
  destruct Hcase as [[Hlt ->]|Hge].
  - rewrite decide_True by done. simpl. rewrite He. simpl. apply IH; [done..| |].
    + intros e' He'. destruct (Hin e') as [? Hc]; [by right|]. specialize (Hdiff e' He').
      split; [set_solver|done].
    + intros i Hi. destruct (Hcov i Hi) as (e' & [->|He']%elem_of_cons & ?); [lia|eauto].
  - rewrite decide_False by lia.
    assert (N.to_nat (fe_fun_idx e) = next0) as Heq.
    { destruct (Hcov next0) as (e' & [->|He']%elem_of_cons & ?); [lia|done|].
      specialize (Hmin e' He'). lia. }
    rewrite decide_True by done. simpl. rewrite He. simpl. apply IH; [done..|lia| |].
    + intros e' He'. destruct (Hin e') as [? Hc]; [by right|]. specialize (Hdiff e' He').
      split; [set_solver|]. destruct Hc as [?|?]; [by left|right].
      specialize (Hmin e' He'). lia.
    + intros i Hi. destruct (Hcov i) as (e' & [->|He']%elem_of_cons & ?); [lia|lia|eauto].
Qed.

(** ** Properties *)

Lemma program_table_iff (ops : list Opcode) (templates : list CallableTemplate)
    (specs : list RuntimeProcessSpec) (fns : list FunctionEntry) :
  validate_program_function_table ops templates specs fns = Ok tt ↔
  ∃ halt, position is_halt ops = Some halt ∧
    (∀ i e, fns !! i = Some e → N.to_nat (fe_fun_idx e) = i) ∧
    Forall (entry_ok (length ops) halt) fns ∧
    Forall (λ f, N.to_nat f < length fns) (all_refs ops templates specs).
Proof.
  unfold validate_program_function_table. rewrite rbind_Ok.
  setoid_rewrite top_level_halt_pos_Ok. setoid_rewrite rbind_Ok.
  setoid_rewrite validate_function_refs_Ok.
  assert (∀ h, program_table_loop 0 ∅ (length ops) h fns = Ok tt ↔
    (∀ i e, fns !! i = Some e → N.to_nat (fe_fun_idx e) = i) ∧
    Forall (entry_ok (length ops) h) fns) as Hloop.
  { intros h. by rewrite program_table_loop_Ok by set_solver. }
  split.
  - intros (h & ? & [] & [??]%Hloop & ?). exists h. done.
  - intros (h & ? & ? & ? & ?). exists h. split; [done|]. exists tt. split; [by apply Hloop|done].
Qed.

(** a program's function table is accepted exactly when the program has a
    top-level [Halt], entry [i] of the table has index [i], every function starts
    after the first [Halt] and inside the code, and no opcode, callable template
    or process specification refers to a function outside the table. *)
Theorem program_table_exact (ops : list Opcode) (templates : list CallableTemplate)
    (specs : list RuntimeProcessSpec) (fns : list FunctionEntry) :
  validate_program_function_table ops templates specs fns = Ok tt ↔
  ∃ halt, position is_halt ops = Some halt ∧
    (∀ i e, fns !! i = Some e → N.to_nat (fe_fun_idx e) = i) ∧
    Forall (entry_ok (length ops) halt) fns ∧
    Forall (λ f, N.to_nat f < length fns) (all_refs ops templates specs).
Proof. apply program_table_iff. Qed.

Lemma chunk_table_iff (ops : list Opcode) (templates : list CallableTemplate)
    (specs : list RuntimeProcessSpec) (fns : list FunctionEntry)
    (base next : nat) (allow : bool) :
  validate_chunk_function_table ops templates specs fns base allow = Ok next ↔
  ∃ halt, position is_halt ops = Some halt ∧
    chunk_entries_ok base next allow fns ∧
    Forall (entry_ok (length ops) halt) fns ∧
    Forall (λ f, N.to_nat f < next) (all_refs ops templates specs).
Proof.
  pose proof (merge_sort_Permutation fun_idx_le fns) as Hperm.
  pose proof (StronglySorted_merge_sort fun_idx_le fns) as Hsort.
  assert (∀ h, chunk_table_loop ∅ base base allow (length ops) h (merge_sort fun_idx_le fns) = Ok next ↔
    chunk_entries_ok base next allow fns ∧ Forall (entry_ok (length ops) h) fns) as Hloop.
  { intros h. revert Hperm Hsort. generalize (merge_sort fun_idx_le fns). intros sorted Hperm Hsort.
    rewrite <- (chunk_entries_ok_perm _ _ _ _ _ Hperm), <- Hperm. unfold chunk_entries_ok. split.
    - intros (? & ? & ? & Hin & ?)%chunk_table_loop_sound; [|done].
      split_and!; [done..| |done|done]. intros e He. destruct (Hin e He) as [_ [[? ->]|?]].
      + split; [lia|done].
      + split; [lia|]. lia.
    - intros ((Hle & Hnd & Hin & Hcov) & Hpc).
      apply chunk_table_loop_complete; [done..|lia| |done].
      intros e He. destruct (Hin e He) as [? Ha]. split; [set_solver|].
      destruct (decide (N.to_nat (fe_fun_idx e) < base)); [left|right; lia].
      split; [done|]. destruct allow; [done|]. specialize (Ha eq_refl). lia. }
  unfold validate_chunk_function_table. rewrite rbind_Ok.
  setoid_rewrite top_level_halt_pos_Ok. setoid_rewrite rbind_Ok. setoid_rewrite rbind_Ok.
  setoid_rewrite validate_function_refs_Ok || idtac. split.
  - intros (h & ? & next' & Hl & [] & Hrefs%validate_function_refs_Ok & [= ->]).
    apply Hloop in Hl as [??]. by exists h.
  - intros (h & ? & ? & ? & Hrefs). exists h. split; [done|]. exists next.
    split; [by apply Hloop|]. exists tt. split; [by apply validate_function_refs_Ok|done].
Qed.

(** a chunk's function table is accepted, with [next] functions afterwards,
    exactly when the chunk has a [Halt], its entries extend the existing table
    without duplicates or holes (replacing old functions only if allowed), every
    entry point lies after that [Halt] and inside the chunk, and every function
    reference stays below [next]. *)
Theorem chunk_table_exact (ops : list Opcode) (templates : list CallableTemplate)
    (specs : list RuntimeProcessSpec) (fns : list FunctionEntry)
    (base next : nat) (allow : bool) :
  validate_chunk_function_table ops templates specs fns base allow = Ok next ↔
  ∃ halt, position is_halt ops = Some halt ∧
    chunk_entries_ok base next allow fns ∧
    Forall (entry_ok (length ops) halt) fns ∧
    Forall (λ f, N.to_nat f < next) (all_refs ops templates specs).
Proof. apply chunk_table_iff. Qed.

End FunctionTable.
