(* ===== verification/RuntimeError.v ===== *)
(** * Runtime errors ([crates/eldr/src/error.rs])

    A [RuntimeError] is a message with a context; its kind is not a field but one
    of the context's detail lines, marked by a reserved prefix.  The theorem of
    this file shows that the encoding is sound: no operation on errors loses or
    changes a kind. *)

From stdpp Require Import pretty.
From S2P Require Import Prelude Names ListHandle Value.

(** Decimal rendering ([{}] of an unsigned integer). *)
Definition fmt_N (n : N) : str := lit (pretty n).
Definition fmt_nat (n : nat) : str := fmt_N (N.of_nat n).

(** [parts.join(sep)]. *)
Fixpoint join (sep : str) (parts : list str) : str :=
  match parts with
  | [] => []
  | [p] => p
  | p :: rest => p ++ sep ++ join sep rest
  end.

Inductive RuntimeErrorKind : Type :=
| Generic
| ProcessInitTimeout
| ProcessInitFailed
| TaskTimeout
| CallTimeout
| ProcessLifecycleFailed.
#[export] Instance RuntimeErrorKind_eq_dec : EqDecision RuntimeErrorKind.
Proof. solve_decision. Defined.

Record RuntimeErrorContext : Type := mkErrorContext {
  rec_pc : option nat;
  rec_opcode : option str;
  rec_function : option str;
  rec_call_site : option Location;
  rec_details : list str;
  rec_stack_trace : list RuntimeStackFrame;
}.

Record RuntimeError : Type := mkRuntimeError {
  re_message : str;
  re_context : RuntimeErrorContext;
}.

(** [RuntimeErrorContext::default()]. *)
Definition default_error_context : RuntimeErrorContext := mkErrorContext None None None None [] [].

Definition set_details (f : list str → list str) (e : RuntimeError) : RuntimeError :=
  let c := re_context e in
  mkRuntimeError (re_message e)
    (mkErrorContext (rec_pc c) (rec_opcode c) (rec_function c) (rec_call_site c)
       (f (rec_details c)) (rec_stack_trace c)).

Module RuntimeError.

Definition RUNTIME_ERROR_KIND_DETAIL_PREFIX : str := lit "__surtr_runtime_error_kind=".

Definition as_detail_value (k : RuntimeErrorKind) : str :=
  match k with
  | Generic => lit "generic"
  | ProcessInitTimeout => lit "process_init_timeout"
  | ProcessInitFailed => lit "process_init_failed"
  | TaskTimeout => lit "task_timeout"
  | CallTimeout => lit "call_timeout"
  | ProcessLifecycleFailed => lit "process_lifecycle_failed"
  end.

Definition from_detail_value (value : str) : option RuntimeErrorKind :=
  if decide (value = lit "generic") then Some Generic
  else if decide (value = lit "process_init_timeout") then Some ProcessInitTimeout
  else if decide (value = lit "process_init_failed") then Some ProcessInitFailed
  else if decide (value = lit "task_timeout") then Some TaskTimeout
  else if decide (value = lit "call_timeout") then Some CallTimeout
  else if decide (value = lit "process_lifecycle_failed") then Some ProcessLifecycleFailed
  else None.

Definition new (message : str) : RuntimeError := mkRuntimeError message default_error_context.

Definition detail_kind (detail : str) : option RuntimeErrorKind :=
  match strip_prefix RUNTIME_ERROR_KIND_DETAIL_PREFIX detail with
  | Some value => from_detail_value value
  | None => None
  end.

(** [details.iter().find_map(..).unwrap_or(Generic)]. *)
Fixpoint find_kind (details : list str) : RuntimeErrorKind :=
  match details with
  | [] => Generic
  | d :: rest => match detail_kind d with Some k => k | None => find_kind rest end
  end.

Definition kind (e : RuntimeError) : RuntimeErrorKind := find_kind (rec_details (re_context e)).

Definition is_kind_detail (detail : str) : bool :=
  starts_with detail RUNTIME_ERROR_KIND_DETAIL_PREFIX.

Definition set_kind (e : RuntimeError) (k : RuntimeErrorKind) : RuntimeError :=
  let e' := set_details (List.filter (λ d, negb (is_kind_detail d))) e in
  if decide (k = Generic) then e'
  else set_details (λ ds, ds ++ [RUNTIME_ERROR_KIND_DETAIL_PREFIX ++ as_detail_value k]) e'.

Definition with_context (e : RuntimeError) (c : RuntimeErrorContext) : RuntimeError :=
  set_kind (mkRuntimeError (re_message e) c) (kind e).

Definition with_kind (message : str) (k : RuntimeErrorKind) : RuntimeError :=
  set_kind (new message) k.

Definition format_runtime_error (e : RuntimeError) : str := lit "RuntimeError: " ++ re_message e.

(** The loop over the secondary failure's details. *)
Fixpoint retain_details (secondary details : list str) : list str :=
  match secondary with
  | [] => details
  | d :: rest =>
      retain_details rest
        (if negb (is_kind_detail d) && bool_decide (d ∉ details) then details ++ [d] else details)
  end.

Definition retain_secondary_failure (e secondary : RuntimeError) (label : str) : RuntimeError :=
  let e1 :=
    if decide (re_message secondary ≠ re_message e ∨ kind secondary ≠ kind e)
    then set_details (λ ds, ds ++ [label ++ lit ": " ++ format_runtime_error secondary]) e
    else e in
  set_details (retain_details (rec_details (re_context secondary))) e1.

Definition format_runtime_error_with_location (e : RuntimeError) (location : option Location) : str :=
  match location with
  | Some l =>
      format_runtime_error e ++ lit " (" ++ loc_file l ++ lit ":" ++ fmt_N (loc_line l)
        ++ lit ":" ++ fmt_N (loc_column l) ++ lit ")"
  | None => format_runtime_error e
  end.

Definition format_stack_frame (f : RuntimeStackFrame) : str :=
  from_option id (lit "<top-level>") (sf_function f)
  ++ match sf_location f with
     | Some l => lit " at " ++ loc_file l ++ lit ":" ++ fmt_N (loc_line l) ++ lit ":"
                 ++ fmt_N (loc_column l)
     | None => []
     end
  ++ if sf_tco f then lit " tail-call" else [].

Definition format_runtime_error_verbose (e : RuntimeError) : str :=
  let c := re_context e in
  join [10%N]
    ([format_runtime_error e]
     ++ match rec_pc c with Some pc => [lit "  pc: " ++ fmt_nat pc] | None => [] end
     ++ match rec_opcode c with Some op => [lit "  opcode: " ++ op] | None => [] end
     ++ match rec_function c with Some f => [lit "  function: " ++ f] | None => [] end
     ++ match rec_call_site c with
        | Some l => [lit "  call_site: " ++ loc_file l ++ lit ":" ++ fmt_N (loc_line l)
                     ++ lit ":" ++ fmt_N (loc_column l)]
        | None => []
        end
     ++ ((λ d, lit "  detail: " ++ d) <$> rec_details c)
     ++ match rec_stack_trace c with
        | [] => []
        | trace =>
            lit "Stack trace:" ::
            imap (λ i f, lit "  " ++ fmt_nat i ++ lit ": " ++ format_stack_frame f) trace
        end).

(** ** Lemmas *)

Lemma from_as_detail_value k : from_detail_value (as_detail_value k) = Some k.
Proof. by destruct k; vm_compute. Qed.

Lemma detail_kind_prefixed k :
  detail_kind (RUNTIME_ERROR_KIND_DETAIL_PREFIX ++ as_detail_value k) = Some k.
Proof. unfold detail_kind. by rewrite strip_prefix_app; simpl; apply from_as_detail_value. Qed.

Lemma detail_kind_plain d : is_kind_detail d = false → detail_kind d = None.
Proof. unfold is_kind_detail, starts_with, detail_kind. by destruct (strip_prefix _ d). Qed.

Lemma find_kind_app ds ds' :
  Forall (λ d, detail_kind d = None) ds → find_kind (ds ++ ds') = find_kind ds'.
Proof. induction 1 as [|d ds Hd _ IH]; simpl; [done|]. by rewrite Hd. Qed.

Lemma find_kind_none ds : Forall (λ d, detail_kind d = None) ds → find_kind ds = Generic.
Proof. induction 1 as [|d ds Hd _ IH]; simpl; [done|]. by rewrite Hd. Qed.

(** Adding a line that does not carry a kind never changes the kind. *)
Lemma find_kind_snoc ds d : detail_kind d = None → find_kind (ds ++ [d]) = find_kind ds.
Proof.
  intros Hd. induction ds as [|x ds IH]; simpl; [by rewrite Hd|]. by rewrite IH.
Qed.

Lemma kind_set_kind e k : kind (set_kind e k) = k.
Proof.
  unfold kind, set_kind.
  assert (Forall (λ d, detail_kind d = None)
    (List.filter (λ d, negb (is_kind_detail d)) (rec_details (re_context e)))) as Hplain.
  { apply Forall_forall. intros d Hd%list_elem_of_In. apply filter_In in Hd as [_ Hd].
    apply detail_kind_plain. by destruct (is_kind_detail d). }
  case_decide as Hk.
  - subst. by apply find_kind_none.
  - cbn [set_details re_context rec_details]. rewrite find_kind_app by done. cbn [find_kind]. by rewrite detail_kind_prefixed.
Qed.

Lemma find_kind_retain secondary details :
  find_kind (retain_details secondary details) = find_kind details.
Proof.
  revert details. induction secondary as [|d rest IH]; intros details; simpl; [done|].
  rewrite IH. destruct (is_kind_detail d) eqn:Hd; simpl; [done|].
  case_bool_decide; [|done]. by apply find_kind_snoc, detail_kind_plain.
Qed.

(** A line carries a kind only if it starts with an underscore. *)
Lemma detail_kind_head d : head d ≠ Some 95%N → detail_kind d = None.
Proof.
  intros Hd. apply detail_kind_plain. unfold is_kind_detail, starts_with.
  destruct (strip_prefix _ _) as [r|] eqn:Hs; [|done].
  apply strip_prefix_Some in Hs. subst d. by destruct Hd.
Qed.

Lemma label_line_plain label rest :
  head label ≠ Some 95%N → detail_kind (label ++ lit ": " ++ rest) = None.
Proof. intros Hl. apply detail_kind_head. by destruct label. Qed.

(** Two errors with the same message and the same kind. *)
Definition same_error (e e' : RuntimeError) : Prop := re_message e' = re_message e ∧ kind e' = kind e.

Lemma same_error_refl e : same_error e e.
Proof. done. Qed.

Lemma same_error_trans e1 e2 e3 : same_error e1 e2 → same_error e2 e3 → same_error e1 e3.
Proof. intros [??] [??]. split; congruence. Qed.

Lemma retain_same_error e secondary label :
  head label ≠ Some 95%N → same_error e (retain_secondary_failure e secondary label).
Proof.
  intros Hl. unfold retain_secondary_failure. split; [simpl; by case_decide|].
  unfold kind at 1. simpl. rewrite find_kind_retain. case_decide; [|done]. simpl.
  apply find_kind_snoc. by apply label_line_plain.
Qed.

(** ** Properties *)

(** the kind of an error survives every operation the runtime applies to
    it: replacing its context, whatever details the new context brings along,
    and recording a secondary failure, whatever kind that failure has.  An error
    built with a kind has that kind, and its message never changes. *)
Theorem kind_is_stable (e secondary : RuntimeError) (c : RuntimeErrorContext) (message label : str)
    (k : RuntimeErrorKind) (Hlabel : head label ≠ Some 95%N) :
  kind (with_kind message k) = k ∧
  kind (with_context e c) = kind e ∧ re_message (with_context e c) = re_message e ∧
  kind (retain_secondary_failure e secondary label) = kind e ∧
  re_message (retain_secondary_failure e secondary label) = re_message e ∧
  (∀ d, d ∈ rec_details (re_context e) →
    d ∈ rec_details (re_context (retain_secondary_failure e secondary label))).
Proof.
  assert (∀ s ds d, d ∈ ds → d ∈ retain_details s ds) as Hkeep.
  { induction s as [|x s IH]; simpl; [done|]. intros ds d Hd. apply IH.
    case_match; [|done]. apply elem_of_app. by left. }
  split_and!.
  - apply kind_set_kind.
  - apply kind_set_kind.
  - unfold with_context, set_kind. by case_decide.
  - by apply retain_same_error.
  - by apply retain_same_error.
  - intros d Hd. unfold retain_secondary_failure. simpl. apply Hkeep.
    case_decide; [|done]. simpl. apply elem_of_app. by left.
Qed.

(** The label the runtime uses when cleanup fails after a cancellation. *)
Lemma kind_is_stable_witness :
  kind (retain_secondary_failure (with_kind (lit "primary") TaskTimeout)
    (with_kind (lit "flush failed") ProcessLifecycleFailed) (lit "cancellation cleanup"))
  = TaskTimeout.
Proof.
  pose proof (kind_is_stable (with_kind (lit "primary") TaskTimeout)
    (with_kind (lit "flush failed") ProcessLifecycleFailed) default_error_context
    (lit "primary") (lit "cancellation cleanup") TaskTimeout) as H.
  rewrite (proj1 (proj2 (proj2 (proj2 (H ltac:(vm_compute; discriminate)))))).
  vm_compute. reflexivity.
Defined.

End RuntimeError.
