(* ===== verification/ParseError.v ===== *)
(** * Parse errors ([crates/spire/src/error.rs])

    The error values of the parser: incomplete input, which the interactive
    session answers by asking for another line, and syntax errors. *)

From S2P Require Import Prelude.

Record Span : Type := mkSpanRange { span_start : nat; span_end : nat }.
#[export] Instance Span_eq_dec : EqDecision Span.
Proof. solve_decision. Defined.

Inductive ParseErrorReason : Type :=
| IncompleteInput
| UnexpectedToken
| DeclarationSyntax
| ExpressionSyntax
| StatementSyntax
| PatternSyntax
| TypeSyntax
| LiteralSyntax
| PositionRule
| SourcePolicy
| UserBuiltinDeclaration
| UserStandardTypeDeclaration
| InterpolationSyntax
| ReturnTypeArgumentArityMismatch
| InvalidDoCarrierReturnTypeArgument
| CompilerInvariant.
#[export] Instance ParseErrorReason_eq_dec : EqDecision ParseErrorReason.
Proof. solve_decision. Defined.

Inductive ParseErrorGuidance : Type :=
| GuideUnexpectedToken
| GuideTopLevelDeclaration
| GuideTopLevelExpression
| GuideUnitPattern
| GuideAsPatternAlias
| GuideRangeLiteral
| GuideOperatorCapture (op : str)
| GuidePairConstructorCapture
| GuideReturnPositionImplTrait
| GuideWhereClause
| GuideMissingMetaState
| GuideMissingMetaInstance
| GuideMissingMetaInitPolicy
| GuideAnonymousCaptureIdentity
| GuideAnonymousCaptureRequiresHelper
| GuideImmediateAnonymousCall
| GuideDoCarrierReturnTypeArgument.

Inductive ParseError : Type :=
| Incomplete (expected : str) (span : Span) (expected_tokens : list str) (cursor_span : Span)
    (guidance : option ParseErrorGuidance) (token_kind : option str)
| SyntaxError (message : str) (span : Span) (reason : ParseErrorReason)
    (expected_tokens : list str) (cursor_span : Span)
    (guidance : option ParseErrorGuidance) (token_kind : option str).

Module ParseError.

Definition incomplete (expected : str) (span : Span) : ParseError :=
  Incomplete expected span [expected] span None None.

Definition syntax (reason : ParseErrorReason) (message : str) (span : Span) : ParseError :=
  SyntaxError message span reason [] span None None.

Definition with_guidance (e : ParseError) (g : ParseErrorGuidance) : ParseError :=
  match e with
  | Incomplete x s t c _ k => Incomplete x s t c (Some g) k
  | SyntaxError m s r t c _ k => SyntaxError m s r t c (Some g) k
  end.

Definition with_token_kind (e : ParseError) (kind : str) : ParseError :=
  match e with
  | Incomplete x s t c g _ => Incomplete x s t c g (Some kind)
  | SyntaxError m s r t c g _ => SyntaxError m s r t c g (Some kind)
  end.

Definition with_parser_context (e : ParseError) (tokens : list str) (cursor : Span) : ParseError :=
  let pick stored := match tokens with [] => stored | _ => tokens end in
  match e with
  | Incomplete x s t _ g k => Incomplete x s (pick t) cursor g k
  | SyntaxError m s r t _ g k => SyntaxError m s r (pick t) cursor g k
  end.

Definition map_spans (e : ParseError) (map : Span → Span) : ParseError :=
  match e with
  | Incomplete x s t c g k => Incomplete x (map s) t (map c) g k
  | SyntaxError m s r t c g k => SyntaxError m (map s) r t (map c) g k
  end.

Definition with_span (e : ParseError) (s : Span) : ParseError :=
  match e with
  | Incomplete x _ t _ g k => Incomplete x s t s g k
  | SyntaxError m _ r t _ g k => SyntaxError m s r t s g k
  end.

Definition reason (e : ParseError) : ParseErrorReason :=
  match e with
  | Incomplete _ _ _ _ _ _ => IncompleteInput
  | SyntaxError _ _ r _ _ _ _ => r
  end.

Definition span (e : ParseError) : Span :=
  match e with
  | Incomplete _ s _ _ _ _ | SyntaxError _ s _ _ _ _ _ => s
  end.

Definition message (e : ParseError) : str :=
  match e with
  | Incomplete x _ _ _ _ _ => lit "Incomplete input: expected " ++ x
  | SyntaxError m _ _ _ _ _ _ => m
  end.

Definition is_incomplete (e : ParseError) : bool :=
  match e with Incomplete _ _ _ _ _ _ => true | SyntaxError _ _ _ _ _ _ _ => false end.

End ParseError.
