(* ===== verification/StringLiteral.v ===== *)
(** * String literals: the scanner and the quoting function

    [crates/spire/src/string_literal.rs] scans a quoted literal of the source,
    decoding its escapes and cutting out its interpolations; the raw triple-quoted
    form comes from [crates/spire/src/lexer.rs].  The runtime prints strings with
    [quote_surtr_string_literal] of [crates/sindr/src/runtime.rs].  The theorems
    show that scanning is total and in bounds, that only Unicode scalars come out
    of it, and that what the runtime prints scans back to the same text. *)

From S2P Require Import Prelude ParseError.

(** ** Characters *)

Definition c_tab : char := 9%N.
Definition c_newline : char := 10%N.
Definition c_return : char := 13%N.
Definition c_space : char := 32%N.
Definition c_quote : char := 34%N.
Definition c_hash : char := 35%N.
Definition c_apostrophe : char := 39%N.
Definition c_backslash : char := 92%N.
Definition c_backtick : char := 96%N.
Definition c_n : char := 110%N.
Definition c_t : char := 116%N.
Definition c_u : char := 117%N.
Definition c_open : char := 123%N.
Definition c_close : char := 125%N.

Definition is_surrogate (n : N) : bool := ((55296 <=? n) && (n <=? 57343))%N.

(** A Unicode scalar value: what a [char] can be, and what [char::from_u32] accepts. *)
Definition is_scalar (n : N) : bool := negb (is_surrogate n) && (n <=? 1114111)%N.

Definition from_u32 (n : N) : option char := if is_scalar n then Some n else None.

(** [char::to_digit(16)]. *)
Definition hex_digit (c : char) : option N :=
  if ((48 <=? c) && (c <=? 57))%N then Some (c - 48)%N
  else if ((97 <=? c) && (c <=? 102))%N then Some (c - 87)%N
  else if ((65 <=? c) && (c <=? 70))%N then Some (c - 55)%N
  else None.

Module StringLiteral.

Inductive StringPart : Type :=
| Text (text : str)
| Expr (source : str) (span : Span).

Inductive StringLiteral : Type :=
| Plain (value : str)
| Interpolated (parts : list StringPart).

Abbreviation PResult := (Try ParseError).

Definition invalid (message : str) (start end_ : nat) : ParseError :=
  ParseError.syntax LiteralSyntax message (mkSpanRange start end_).

(** ** Escapes *)

(** The loop over the digits of [\u{...}]: [i] is the next position, [digits] the
    number of digits read and [value] what they denote. *)
Fixpoint unicode_loop (fuel : nat) (chars : list char) (start i : nat) (digits : nat) (value : N) :
    PResult (N * nat) :=
  match fuel with
  | O => Err (Panicked PFuel)
  | S fuel' =>
      match chars !! i with
      | None => fail (ParseError.incomplete (lit "'}' in Unicode escape") (mkSpanRange start i))
      | Some ch =>
          if decide (ch = c_close) then
            if decide (digits = 0) then
              fail (invalid (lit "Unicode escape requires at least one hexadecimal digit") start (i + 1))
            else if is_surrogate value then
              fail (invalid (lit "Unicode escape must not contain a surrogate value") start (i + 1))
            else if (1114111 <? value)%N then
              fail (invalid (lit "Unicode escape value is outside the Unicode scalar range") start (i + 1))
            else Ok (value, i + 1)
          else if decide (ch = c_quote ∨ ch = c_apostrophe) then
            fail (invalid (lit "Expected '}' in Unicode escape before closing quote") start i)
          else
            match hex_digit ch with
            | None => fail (invalid (lit "Unicode escape requires hexadecimal digits") start (i + 1))
            | Some digit =>
                let digits' := digits + 1 in
                if decide (6 < digits') then
                  fail (invalid (lit "Unicode escape allows at most six hexadecimal digits") start (i + 1))
                else
                  let value' := (value * 16 + digit)%N in
                  let i' := i + 1 in
                  if decide (digits' = 6) then
                    let end_ := i' + if decide (chars !! i' = Some c_close) then 1 else 0 in
                    if (1114111 <? value')%N then
                      fail (invalid (lit "Unicode escape value is outside the Unicode scalar range") start end_)
                    else if is_surrogate value' then
                      fail (invalid (lit "Unicode escape must not contain a surrogate value") start end_)
                    else unicode_loop fuel' chars start i' digits' value'
                  else unicode_loop fuel' chars start i' digits' value'
            end
      end
  end.

Definition simple_escape (kind : char) (next : option char) : option char :=
  if decide (kind = c_n) then Some c_newline
  else if decide (kind = c_t) then Some c_tab
  else if decide (kind = c_backslash) then Some c_backslash
  else if decide (kind = c_quote) then Some c_quote
  else if decide (kind = c_apostrophe) then Some c_apostrophe
  else if decide (kind = c_hash ∧ next = Some c_open) then Some c_hash
  else None.

(** The validated scalar and the next unconsumed position. *)
Definition escape (chars : list char) (start : nat) : PResult (N * nat) :=
  match chars !! (start + 1) with
  | None => fail (ParseError.incomplete (lit "string escape") (mkSpanRange start (length chars)))
  | Some kind =>
      if decide (kind = c_hash ∧ chars !! (start + 2) = None) then
        fail (ParseError.incomplete (lit "'{' after \#") (mkSpanRange start (length chars)))
      else
        match simple_escape kind (chars !! (start + 2)) with
        | Some value => Ok (value, start + 2)
        | None =>
            if decide (kind ≠ c_u) then
              fail (invalid (lit "Unsupported string escape: \" ++ [kind]) start (start + 2))
            else
              match chars !! (start + 2) with
              | None =>
                  fail (ParseError.incomplete (lit "'{' after \u") (mkSpanRange start (length chars)))
              | Some opening =>
                  if decide (opening ≠ c_open) then
                    fail (invalid (lit "Expected '{' after \u") start (start + 3))
                  else unicode_loop (S (length chars)) chars start (start + 3) 0 0
              end
        end
  end.

(** ** Raw triple-quoted strings ([lexer.rs]) *)

Record RawStringLiteral : Type := mkRaw {
  raw_text : str;
  raw_source_positions : list nat;
  raw_source_end : nat;
}.

(** The column after a blank character: tab stops are four columns apart. *)
Definition advance_column (columns : nat) (c : char) : nat :=
  if decide (c = c_space) then columns + 1
  else if decide (c = c_tab) then columns + (4 - columns `mod` 4)
  else columns.

Fixpoint indent_columns (columns : nat) (l : list char) : nat :=
  match l with
  | [] => columns
  | c :: l' =>
      if decide (c = c_space ∨ c = c_tab ∨ c = c_return)
      then indent_columns (advance_column columns c) l'
      else columns
  end.

Definition not_newline (c : char) : bool := bool_decide (c ≠ c_newline).

Definition line_indent_before (chars : list char) (idx : nat) : nat :=
  let line_start := idx - length (take_while not_newline (reverse (take idx chars))) in
  indent_columns 0 (slice chars line_start idx).

(** The rest of a line, with its newline when that is inside the content: the
    characters with their positions, and the position after them. *)
Definition copy_line (chars : list char) (i content_end : nat) : list (char * nat) * nat :=
  let line := take_while not_newline (slice chars i content_end) in
  let j := i + length line in
  let body := zip line (seq i (length line)) in
  if decide (j < content_end) then (body ++ [(c_newline, j)], j + 1) else (body, j).

(** How many indentation characters the base indentation covers. *)
Fixpoint keep_from (columns base_indent : nat) (indent_chars : list (char * nat)) : nat :=
  match indent_chars with
  | [] => 0
  | (ch, _) :: rest =>
      let next_columns := advance_column columns ch in
      if decide (base_indent < next_columns) then 1
      else if decide (next_columns = base_indent) then 1
      else S (keep_from next_columns base_indent rest)
  end.

Definition indent_after_base (indent_chars : list (char * nat)) (base_indent : nat) : list (char * nat) :=
  drop (keep_from 0 base_indent indent_chars) indent_chars.

(** One line of the content, from its start: what it contributes and where the
    next line starts. *)
Fixpoint indented_line (fuel : nat) (chars : list char) (base_indent content_end i columns : nat)
    (indent_chars : list (char * nat)) : PResult (list (char * nat) * nat) :=
  match fuel with
  | O => Err (Panicked PFuel)
  | S fuel' =>
      if decide (i < content_end) then
        let? ch := lift_run (index chars i) in
        if decide (ch = c_space ∨ ch = c_tab) then
          indented_line fuel' chars base_indent content_end (i + 1) (advance_column columns ch)
            (indent_chars ++ [(ch, i)])
        else if decide (ch = c_return) then
          indented_line fuel' chars base_indent content_end (i + 1) columns indent_chars
        else if decide (ch = c_newline) then Ok ([(ch, i)], i + 1)
        else if decide (columns < base_indent) then
          fail (invalid (lit "Triple-quoted string content must be indented at least as far as the starting line")
                  i (i + 1))
        else
          let '(line, next) := copy_line chars i content_end in
          Ok (indent_after_base indent_chars base_indent ++ line, next)
      else Ok ([], i)
  end.

Fixpoint normalize_loop (fuel : nat) (chars : list char) (base_indent content_end i : nat)
    (at_line_start : bool) (out : list (char * nat)) : PResult (list (char * nat)) :=
  match fuel with
  | O => Err (Panicked PFuel)
  | S fuel' =>
      if decide (i < content_end) then
        if at_line_start then
          let? '(line, next) := indented_line (S (content_end - i)) chars base_indent content_end i 0 [] in
          normalize_loop fuel' chars base_indent content_end next true (out ++ line)
        else
          let '(line, next) := copy_line chars i content_end in
          normalize_loop fuel' chars base_indent content_end next true (out ++ line)
      else Ok out
  end.

Definition normalize_triple_quoted_string (chars : list char) (quote_start content_start content_end : nat) :
    PResult RawStringLiteral :=
  let base_indent := line_indent_before chars quote_start in
  let? at_line_start :=
    if decide (content_start = 0) then Ok true
    else let? c := lift_run (index chars (content_start - 1)) in Ok (bool_decide (c = c_newline)) in
  let? out := normalize_loop (S (content_end - content_start)) chars base_indent content_end
                content_start at_line_start [] in
  Ok (mkRaw (fst <$> out) (snd <$> out) content_end).

Definition triple_at (chars : list char) (i : nat) : bool :=
  bool_decide (chars !! i = Some c_quote ∧ chars !! (i + 1) = Some c_quote
               ∧ chars !! (i + 2) = Some c_quote).

(** The search for the closing quotes: [content_end + 2 < len] bounds the loop. *)
Fixpoint triple_end (fuel : nat) (chars : list char) (content_end len : nat) : nat :=
  match fuel with
  | O => content_end
  | S fuel' =>
      if decide (content_end + 2 < len) then
        if triple_at chars content_end then content_end
        else triple_end fuel' chars (content_end + 1) len
      else content_end
  end.

Definition lex_raw_triple_quoted_string (chars : list char) (start len : nat) :
    PResult (RawStringLiteral * nat) :=
  let content_start := start + 3 in
  let content_end := triple_end len chars content_start len in
  if decide (len ≤ content_end + 2) then
    fail (ParseError.incomplete [c_quote; c_quote; c_quote] (mkSpanRange start len))
  else
    let? content := normalize_triple_quoted_string chars start content_start content_end in
    Ok (content, content_end + 3).

(** ** Interpolations *)

Definition MAX_PARSE_NESTING : nat := 32.

Definition check_nesting (depth start : nat) : PResult unit :=
  if decide (MAX_PARSE_NESTING < depth) then
    fail (ParseError.syntax PositionRule (lit "maximum parse nesting depth exceeded")
            (mkSpanRange start (start + 1)))
  else Ok tt.

(** [string_boundary] and [interpolation_end_nested] call each other.  The first
    argument of each loop is fuel for both; the nesting checks come first, as in
    the source. *)
Fixpoint string_boundary_loop (fuel : nat) (chars : list char) (start : nat) (quote : char)
    (i nesting : nat) : PResult nat :=
  match fuel with
  | O => Err (Panicked PFuel)
  | S fuel' =>
      match chars !! i with
      | None => fail (ParseError.incomplete [quote] (mkSpanRange start i))
      | Some ch =>
          if decide (ch = quote) then Ok (i + 1)
          else if decide (ch = c_backslash) then
            let? '(_, next) := escape chars i in
            string_boundary_loop fuel' chars start quote next nesting
          else if decide (ch = c_hash ∧ chars !! (i + 1) = Some c_open) then
            let? _ := check_nesting (nesting + 1) (i + 2) in
            let? end_ := interpolation_loop fuel' chars (i + 2) 1 (i + 2) (nesting + 1) in
            string_boundary_loop fuel' chars start quote (end_ + 1) nesting
          else string_boundary_loop fuel' chars start quote (i + 1) nesting
      end
  end
with interpolation_loop (fuel : nat) (chars : list char) (start depth i nesting : nat) : PResult nat :=
  match fuel with
  | O => Err (Panicked PFuel)
  | S fuel' =>
      match chars !! i with
      | None => fail (ParseError.incomplete (lit "}") (mkSpanRange start i))
      | Some ch =>
          if triple_at chars i then
            let? '(_, next) := lex_raw_triple_quoted_string chars i (length chars) in
            interpolation_loop fuel' chars start depth next nesting
          else if decide (ch = c_quote ∨ ch = c_apostrophe) then
            let? _ := check_nesting (nesting + depth - 1) i in
            let? next := string_boundary_loop fuel' chars i ch (i + 1) (nesting + depth - 1) in
            interpolation_loop fuel' chars start depth next nesting
          else if decide (ch = c_backtick) then
            let j := i + 1 + length (take_while (λ c, bool_decide (c ≠ c_backtick)) (drop (i + 1) chars)) in
            if decide (j = length chars) then
              fail (ParseError.incomplete (lit "`") (mkSpanRange start j))
            else interpolation_loop fuel' chars start depth (j + 1) nesting
          else if decide (ch = c_hash) then
            interpolation_loop fuel' chars start depth
              (i + length (take_while not_newline (drop i chars))) nesting
          else if decide (ch = c_open) then
            let? _ := check_nesting (nesting + (depth + 1) - 1) i in
            interpolation_loop fuel' chars start (depth + 1) (i + 1) nesting
          else if decide (ch = c_close) then
            if decide (depth - 1 = 0) then Ok i
            else interpolation_loop fuel' chars start (depth - 1) (i + 1) nesting
          else interpolation_loop fuel' chars start depth (i + 1) nesting
      end
  end.

Definition interpolation_end (chars : list char) (start : nat) : PResult nat :=
  let? _ := check_nesting 1 start in
  interpolation_loop (S (length chars)) chars start 1 start 1.

(** ** The scanner *)

Definition flush (text : str) (parts : list StringPart) : list StringPart :=
  match text with [] => parts | _ => parts ++ [Text text] end.

Fixpoint scan_loop (fuel : nat) (chars : list char) (start : nat) (quote : char) (i : nat)
    (text : str) (parts : list StringPart) : PResult (StringLiteral * nat) :=
  match fuel with
  | O => Err (Panicked PFuel)
  | S fuel' =>
      match chars !! i with
      | None => fail (ParseError.incomplete [quote] (mkSpanRange start i))
      | Some ch =>
          if decide (ch = quote) then
            match parts with
            | [] => Ok (Plain text, i + 1)
            | _ => Ok (Interpolated (flush text parts), i + 1)
            end
          else if decide (ch = c_backslash) then
            let? '(scalar, end_) := escape chars i in
            let? decoded :=
              lift_res (ok_or (from_u32 scalar)
                (ParseError.syntax CompilerInvariant
                   (lit "Validated string escape is not a Unicode scalar") (mkSpanRange i end_))) in
            scan_loop fuel' chars start quote end_ (text ++ [decoded]) parts
          else if decide (ch = c_hash ∧ chars !! (i + 1) = Some c_open) then
            let expr_start := i + 2 in
            let? end_ := interpolation_end chars expr_start in
            scan_loop fuel' chars start quote (end_ + 1) []
              (flush text parts ++ [Expr (slice chars expr_start end_) (mkSpanRange expr_start end_)])
          else scan_loop fuel' chars start quote (i + 1) (text ++ [ch]) parts
      end
  end.

Definition scan_string (chars : list char) (start : nat) : PResult (StringLiteral * nat) :=
  let? quote := lift_run (index chars start) in
  scan_loop (S (length chars)) chars start quote (start + 1) [] [].

(** [StringLiteral::into_static]: the text of a literal without interpolations. *)
Fixpoint first_marker (parts : list StringPart) : option Span :=
  match parts with
  | [] => None
  | Expr _ span :: _ => Some (mkSpanRange (span_start span - 2) (span_end span + 1))
  | Text _ :: rest => first_marker rest
  end.

Definition into_static (l : StringLiteral) (token_span : Span) : Result ParseError str :=
  match l with
  | Plain value => Ok value
  | Interpolated parts =>
      match first_marker parts with
      | None =>
          Err (ParseError.syntax CompilerInvariant
                 (lit "Interpolated string token contains no source interpolation") token_span)
      | Some marker_span =>
          Err (ParseError.syntax LiteralSyntax
                 (lit "String interpolation is not allowed in static string literals; use \#{ for literal text")
                 marker_span)
      end
  end.

(** ** Quoting ([quote_surtr_string_literal]) *)

Definition is_control (c : char) : bool := ((c <=? 31) || (127 <=? c) && (c <=? 159))%N.

(** A lower-case hexadecimal digit. *)
Definition hex_char (d : N) : char := if decide (d < 10)%N then (48 + d)%N else (87 + d)%N.

(** [{:x}]: the digits of [n] in front of [acc]; eight digits are enough for [u32]. *)
Fixpoint to_hex_loop (fuel : nat) (n : N) (acc : str) : str :=
  match fuel with
  | O => acc
  | S fuel' =>
      let acc' := hex_char (n `mod` 16) :: acc in
      if decide (n / 16 = 0)%N then acc' else to_hex_loop fuel' (n / 16) acc'
  end.
Definition to_hex (n : N) : str := to_hex_loop 8 n [].

Fixpoint quote_body (input : str) : str :=
  match input with
  | [] => []
  | ch :: rest =>
      (if decide (ch = c_backslash) then [c_backslash; c_backslash]
       else if decide (ch = c_quote) then [c_backslash; c_quote]
       else if decide (ch = c_newline) then [c_backslash; c_n]
       else if decide (ch = c_tab) then [c_backslash; c_t]
       else if is_control ch then [c_backslash; c_u; c_open] ++ to_hex ch ++ [c_close]
       else if decide (ch = c_hash ∧ head rest = Some c_open) then [c_backslash; c_hash]
       else [ch]) ++ quote_body rest
  end.

Definition quote_surtr_string_literal (input : str) : str :=
  [c_quote] ++ quote_body input ++ [c_quote].

(** ** Lemmas: quoting and scanning back *)

Definition hex_value (value : N) (ds : str) : N :=
  fold_left (λ v d, (v * 16 + from_option id 0 (hex_digit d))%N) ds value.

Definition is_hex (d : char) : Prop := hex_digit d ≠ None.

Lemma is_hex_plain d : is_hex d → d ≠ c_close ∧ d ≠ c_quote ∧ d ≠ c_apostrophe.
Proof. unfold is_hex. intros H. repeat split; intros ->; by apply H. Qed.

Lemma unicode_loop_digits fuel chars start i digits value ds rest :
  drop i chars = ds ++ c_close :: rest → Forall is_hex ds → length ds < fuel →
  0 < digits + length ds < 6 → is_scalar (hex_value value ds) = true →
  unicode_loop fuel chars start i digits value = Ok (hex_value value ds, i + length ds + 1).
Proof.
  revert fuel i digits value. induction ds as [|d ds IH]; intros [|fuel] i digits value Hdrop Hhex Hf Hd Hv;
    simpl in *; try lia; rewrite <- (Nat.add_0_r i), (lookup_of_drop _ _ _ _ Hdrop); simpl.
  - rewrite decide_False by lia. rewrite Nat.add_0_r.
    unfold is_scalar in Hv. apply andb_true_iff in Hv as [Hs Hr].
    apply negb_true_iff in Hs. rewrite Hs.
    apply N.leb_le in Hr. replace (1114111 <? value)%N with false by (symmetry; apply N.ltb_ge; lia).
    simpl. by rewrite ?Nat.add_0_r.
  - apply Forall_cons in Hhex as [Hd1 Hhex]. destruct (is_hex_plain d Hd1) as (?&?&?).
    rewrite !decide_False by naive_solver.
    destruct (hex_digit d) as [v|] eqn:Hv'; [|done].
    rewrite Nat.add_0_r, (decide_False (P := 6 < digits + 1)), (decide_False (P := digits + 1 = 6)) by lia.
    rewrite IH; [f_equal; f_equal; lia| |done|lia|lia|done].
    by apply (drop_of_drop _ [d]).
Qed.

#[local] Arguments unicode_loop : simpl never.

(** Every control character is printed as one or two hexadecimal digits. *)
Lemma to_hex_control c :
  is_control c = true →
  Forall is_hex (to_hex c) ∧ 0 < length (to_hex c) < 6 ∧ hex_value 0 (to_hex c) = c.
Proof.
  intros Hc. assert (c ∈ N.of_nat <$> seq 0 160) as Hin.
  { apply list_elem_of_fmap. exists (N.to_nat c). rewrite N2Nat.id. split; [done|].
    apply elem_of_seq. unfold is_control in Hc.
    apply orb_true_iff in Hc as [Hc%N.leb_le|[Hc1%N.leb_le Hc2%N.leb_le]%andb_true_iff]; lia. }
  assert (forallb (λ c, forallb (λ d, match hex_digit d with Some _ => true | None => false end) (to_hex c)
    && (0 <? length (to_hex c)) && (length (to_hex c) <? 6) && (hex_value 0 (to_hex c) =? c)%N)
    (N.of_nat <$> seq 0 160) = true) as Hall by (vm_compute; reflexivity).
  rewrite forallb_forall in Hall. apply list_elem_of_In, Hall in Hin.
  rewrite !andb_true_iff, !Nat.ltb_lt, N.eqb_eq in Hin. destruct Hin as [[[H1 H2] H3] H4].
  split; [|done]. apply Forall_forall. intros d Hd. rewrite forallb_forall in H1.
  apply list_elem_of_In, H1 in Hd. unfold is_hex. by destruct (hex_digit d).
Qed.

Lemma control_is_scalar c : is_control c = true → is_scalar c = true.
Proof.
  unfold is_control, is_scalar, is_surrogate. intros Hc.
  rewrite orb_true_iff, andb_true_iff, !N.leb_le in Hc.
  rewrite andb_true_iff, negb_true_iff, andb_false_iff, !N.leb_gt, N.leb_le. lia.
Qed.

Lemma escape_simple chars i kind rest value :
  drop i chars = c_backslash :: kind :: rest →
  (kind = c_hash → rest ≠ []) → simple_escape kind (head rest) = Some value →
  escape chars i = Ok (value, i + 2).
Proof.
  intros Hd Hh Hs. unfold escape. rewrite !(lookup_of_drop _ _ _ _ Hd). simpl.
  rewrite decide_False.
  - assert (rest !! 0 = head rest) as -> by by destruct rest. by rewrite Hs.
  - intros [-> H]. destruct rest; [by apply Hh|done].
Qed.

Lemma escape_control chars i c rest :
  is_control c = true →
  drop i chars = [c_backslash; c_u; c_open] ++ to_hex c ++ c_close :: rest →
  escape chars i = Ok (c, i + length ([c_backslash; c_u; c_open] ++ to_hex c ++ [c_close])).
Proof.
  intros Hc Hd. unfold escape. rewrite !(lookup_of_drop _ _ _ _ Hd). simpl.
  destruct (to_hex_control c Hc) as (Hhex & Hlen & Hval).
  rewrite (unicode_loop_digits _ _ _ _ _ _ (to_hex c) rest).
  - rewrite Hval. f_equal. f_equal. rewrite length_app. simpl. lia.
  - by apply (drop_of_drop _ [c_backslash; c_u; c_open]).
  - done.
  - apply (f_equal length) in Hd. rewrite length_drop, !length_app in Hd. simpl in Hd. lia.
  - lia.
  - rewrite Hval. by apply control_is_scalar.
Qed.

Lemma head_quote_body s rest :
  head (quote_body s ++ c_quote :: rest) = Some c_open ↔ head s = Some c_open.
Proof.
  destruct s as [|c s]; simpl; [done|].
  repeat case_decide; simpl; try (subst; naive_solver).
  all: destruct (is_control c) eqn:Hc; simpl; [|naive_solver]; split; [done|]; by intros [= ->].
Qed.

Lemma length_quote_body s : length s ≤ length (quote_body s).
Proof.
  induction s as [|c s IH]; simpl; [done|]. rewrite length_app.
  repeat (case_decide || case_match); simpl; lia.
Qed.

(** What the scanner reads for one quoted character. *)
Lemma scan_quoted chars start fuel i text s rest :
  drop i chars = quote_body s ++ c_quote :: rest → Forall (λ c, is_scalar c = true) s →
  length s < fuel →
  scan_loop fuel chars start c_quote i text [] = Ok (Plain (text ++ s), i + length (quote_body s) + 1).
Proof.
  revert fuel i text. induction s as [|c s IH]; intros [|fuel] i text Hd Hs Hf; simpl in Hf; try lia.
  { simpl in *. rewrite <- (Nat.add_0_r i), (lookup_of_drop _ _ _ _ Hd). simpl.
    rewrite app_nil_r. f_equal. f_equal. lia. }
  apply Forall_cons in Hs as [Hc Hs]. cbn [quote_body] in *. rewrite <- app_assoc in Hd.
  assert (∀ out v, drop i chars = out ++ quote_body s ++ c_quote :: rest → head out = Some c_backslash →
    escape chars i = Ok (v, i + length out) → is_scalar v = true →
    scan_loop (S fuel) chars start c_quote i text [] =
    Ok (Plain (text ++ v :: s), i + length (out ++ quote_body s) + 1)) as Hesc.
  { intros out v Hd' Hh He Hv. destruct out as [|x out]; [done|]. injection Hh as ->.
    cbn [scan_loop]. rewrite <- (Nat.add_0_r i) at 1. rewrite (lookup_of_drop _ _ _ _ Hd').
    cbn [lookup list_lookup app]. rewrite decide_False, decide_True by done.
    rewrite He. simpl rbind. unfold from_u32. rewrite Hv. simpl rbind.
    rewrite IH; [| |done|lia].
    - rewrite <- app_assoc. do 2 f_equal. simpl. rewrite ?length_app. lia.
    - by eapply drop_of_drop. }
  repeat case_decide; subst.
  1-4: (eapply Hesc; [exact Hd|done| |done]; by eapply escape_simple; [exact Hd|done|]).
  1-2: destruct (is_control c) eqn:Hctl.
  - eapply Hesc; [exact Hd|done| |done]. rewrite <- !app_assoc in Hd.
    by eapply escape_control; [|exact Hd].
  - destruct H3 as [-> Hopen]. eapply Hesc; [exact Hd|done| |done].
    eapply escape_simple; [exact Hd|intros _ ?; by destruct (quote_body s)|].
    rewrite (proj2 (head_quote_body s rest)) by done. done.
  - eapply Hesc; [exact Hd|done| |done]. rewrite <- !app_assoc in Hd.
    by eapply escape_control; [|exact Hd].
  - cbn [scan_loop]. rewrite <- (Nat.add_0_r i) at 1. rewrite !(lookup_of_drop _ _ _ _ Hd).
    cbn [lookup list_lookup app]. rewrite !decide_False; [|idtac|done|done].
    + rewrite IH; [| |done|lia].
      * rewrite <- app_assoc. f_equal. f_equal. simpl. lia.
      * by apply (drop_of_drop _ [c]).
    + intros [-> Hopen]. apply H3. split; [done|]. rewrite <- (head_quote_body s rest).
      by destruct (quote_body s ++ c_quote :: rest).
Qed.

(** ** Lemmas: scanning is total and in bounds *)

(** [m] neither panics nor runs out of fuel nor reports a compiler bug, and its
    result satisfies [P]. *)
Definition sound {A} (m : PResult A) (P : A → Prop) : Prop :=
  match m with
  | Ok a => P a
  | Err (Panicked _) => False
  | Err (Failed e) => ParseError.reason e ≠ CompilerInvariant
  end.

Lemma sound_mono {A} (m : PResult A) (P Q : A → Prop) :
  sound m P → (∀ a, P a → Q a) → sound m Q.
Proof. destruct m as [a|[p|e]]; simpl; eauto. Qed.

Lemma sound_bind {A B} (m : PResult A) (k : A → PResult B) (P : A → Prop) (Q : B → Prop) :
  sound m P → (∀ a, P a → sound (k a) Q) → sound (rbind m k) Q.
Proof. destruct m as [a|[p|e]]; simpl; eauto. Qed.

Lemma unicode_loop_sound fuel chars start i digits value :
  length chars - i < fuel →
  sound (unicode_loop fuel chars start i digits value)
    (λ r, is_scalar r.1 = true ∧ i < r.2 ≤ length chars).
Proof.
  revert i digits value. induction fuel as [|fuel IH]; intros i digits value Hf; [lia|].
  unfold unicode_loop; fold unicode_loop.
  destruct (chars !! i) as [ch|] eqn:Hi; [|done]. apply lookup_lt_Some in Hi.
  repeat case_decide; try done.
  1: { destruct (is_surrogate value) eqn:Hs; [done|].
    destruct (1114111 <? value)%N eqn:Hr; [done|]. simpl. split; [|lia].
    unfold is_scalar. rewrite Hs. simpl. apply N.leb_le. by apply N.ltb_ge in Hr. }
  all: destruct (hex_digit ch); [|done]; cbv zeta; repeat case_decide; try done.
  1-2: destruct (1114111 <? _)%N; [done|]; destruct (is_surrogate _); [done|].
  all: eapply sound_mono; [apply IH; lia|]; intros [v e] [??]; simpl in *; split; [done|lia].
Qed.

Lemma escape_sound chars start :
  sound (escape chars start) (λ r, is_scalar r.1 = true ∧ start + 2 ≤ r.2 ≤ length chars).
Proof.
  unfold escape. destruct (chars !! (start + 1)) as [kind|] eqn:Hk; [|done].
  apply lookup_lt_Some in Hk. case_decide; [done|].
  destruct (simple_escape kind _) as [v|] eqn:Hs.
  - simpl. split; [|lia]. revert Hs. unfold simple_escape.
    repeat case_decide; intros [= <-]; done.
  - case_decide; [done|]. destruct (chars !! (start + 2)) eqn:Ho; [|done].
    case_decide; [done|]. eapply sound_mono; [apply unicode_loop_sound; lia|].
    intros [v e] [??]; simpl in *. split; [done|lia].
Qed.

Lemma copy_line_bounds chars i content_end :
  i < content_end → i < (copy_line chars i content_end).2 ≤ content_end.
Proof.
  intros Hi. unfold copy_line.
  pose proof (length_take_while not_newline (slice chars i content_end)) as Hl.
  rewrite length_slice in Hl. case_decide; simpl; [lia|]. lia.
Qed.

Lemma indented_line_sound fuel chars base content_end i columns indent :
  content_end - i < fuel → i ≤ content_end ≤ length chars →
  sound (indented_line fuel chars base content_end i columns indent)
    (λ r, (i < content_end → i < r.2) ∧ i ≤ r.2 ≤ content_end).
Proof.
  revert i columns indent. induction fuel as [|fuel IH]; intros i columns indent Hf Hi; [lia|].
  cbn [indented_line]. case_decide as Hlt; [|simpl; lia].
  destruct (lookup_lt_is_Some_2 chars i) as [ch Hch]; [lia|].
  unfold index. rewrite Hch. cbn [ok_or lift_run map_err rbind].
  repeat case_decide; try done; try (simpl; lia).
  1-2: eapply sound_mono; [apply IH; lia|]; intros [l e]; simpl; lia.
  pose proof (copy_line_bounds chars i content_end Hlt).
  destruct (copy_line chars i content_end) as [line next]. simpl in *. lia.
Qed.

Lemma normalize_loop_sound fuel chars base content_end i start out :
  content_end - i < fuel → i ≤ content_end ≤ length chars →
  sound (normalize_loop fuel chars base content_end i start out) (λ _, True).
Proof.
  revert i start out. induction fuel as [|fuel IH]; intros i start out Hf Hi; [lia|].
  cbn [normalize_loop]. case_decide as Hlt; [|done]. destruct start.
  - eapply sound_bind; [apply indented_line_sound; lia|].
    intros [line next]; simpl. intros. apply IH; lia.
  - pose proof (copy_line_bounds chars i content_end Hlt).
    destruct (copy_line chars i content_end) as [line next]. simpl in *. apply IH; lia.
Qed.

Lemma triple_end_spec fuel chars e len :
  len - e ≤ fuel → e ≤ triple_end fuel chars e len ∧
  (triple_end fuel chars e len + 2 < len → triple_at chars (triple_end fuel chars e len) = true).
Proof.
  revert e. induction fuel as [|fuel IH]; intros e Hf; simpl; [lia|].
  case_decide; [|lia]. destruct (triple_at chars e) eqn:Ht; [done|].
  destruct (IH (e + 1)) as [??]; [lia|]. split; [lia|done].
Qed.

Lemma triple_sound chars start :
  sound (lex_raw_triple_quoted_string chars start (length chars))
    (λ r, start + 6 ≤ r.2 ≤ length chars ∧ triple_at chars (r.2 - 3) = true).
Proof.
  unfold lex_raw_triple_quoted_string.
  destruct (triple_end_spec (length chars) chars (start + 3) (length chars)) as [Hle Hat]; [lia|].
  case_decide as Hlen; [done|].
  set (e := triple_end _ _ _ _) in *. eapply (sound_bind _ _ (λ _, True)).
  - unfold normalize_triple_quoted_string. eapply (sound_bind _ _ (λ _, True)).
    + case_decide; [done|]. destruct (lookup_lt_is_Some_2 chars (start + 3 - 1)) as [c Hc]; [lia|].
      unfold index. by rewrite Hc.
    + intros b _. eapply sound_bind; [apply normalize_loop_sound; lia|]. done.
  - intros raw _. simpl. split; [lia|]. rewrite Nat.add_sub. apply Hat. lia.
Qed.

Lemma check_nesting_sound d i : sound (check_nesting d i) (λ _, True).
Proof. unfold check_nesting. by case_decide. Qed.

Lemma not_newline_progress chars i :
  chars !! i = Some c_hash → 0 < length (take_while not_newline (drop i chars)).
Proof. intros H. rewrite (drop_lookup_cons _ _ _ H). simpl. lia. Qed.

Lemma nested_loops_sound fuel chars :
  (∀ start quote i nesting, length chars - i < fuel →
     sound (string_boundary_loop fuel chars start quote i nesting) (λ e, i < e ≤ length chars)) ∧
  (∀ start depth i nesting, length chars - i < fuel →
     sound (interpolation_loop fuel chars start depth i nesting)
       (λ e, i ≤ e < length chars ∧ chars !! e = Some c_close)).
Proof.
  induction fuel as [|fuel [IHs IHi]]; [split; intros; lia|]. split.
  - intros start quote i nesting Hf. cbn [string_boundary_loop].
    destruct (chars !! i) as [ch|] eqn:Hi; [|done]. apply lookup_lt_Some in Hi as Hlt.
    repeat case_decide.
    + simpl. lia.
    + eapply sound_bind; [apply escape_sound|]. intros [v e] [_ He]; simpl in He.
      eapply sound_mono; [apply IHs; lia|]. simpl. lia.
    + eapply sound_bind; [apply check_nesting_sound|]. intros _ _.
      eapply sound_bind; [apply IHi; lia|]. intros e [He _].
      eapply sound_mono; [apply IHs; lia|]. simpl. lia.
    + eapply sound_mono; [apply IHs; lia|]. simpl. lia.
  - intros start depth i nesting Hf. cbn [interpolation_loop].
    destruct (chars !! i) as [ch|] eqn:Hi; [|done]. apply lookup_lt_Some in Hi as Hlt.
    assert (∀ d j, i < j → sound (interpolation_loop fuel chars start d j nesting)
      (λ e, i ≤ e < length chars ∧ chars !! e = Some c_close)) as Hnext.
    { intros d j Hj. eapply sound_mono; [apply IHi; lia|]. intros e [??]. split; [lia|done]. }
    destruct (triple_at chars i).
    { eapply sound_bind; [apply triple_sound|]. intros [raw next] [Hn _]; simpl in Hn. apply Hnext. lia. }
    repeat case_decide; try (apply Hnext; lia).
    + eapply sound_bind; [apply check_nesting_sound|]. intros _ _.
      eapply sound_bind; [apply IHs; lia|]. intros next Hn; simpl in Hn. apply Hnext. lia.
    + done.
    + subst. pose proof (not_newline_progress _ _ Hi). apply Hnext. lia.
    + eapply sound_bind; [apply check_nesting_sound|]. intros _ _. apply Hnext. lia.
    + simpl. subst. split; [lia|done].
Qed.

Lemma interpolation_end_sound chars start :
  sound (interpolation_end chars start)
    (λ e, start ≤ e < length chars ∧ chars !! e = Some c_close).
Proof.
  unfold interpolation_end. eapply sound_bind; [apply check_nesting_sound|]. intros _ _.
  apply nested_loops_sound. lia.
Qed.

(** A part of an interpolated literal is cut out of the source: text is never
    empty, and an expression is what stands between [#{] and its brace. *)
Definition part_ok (chars : list char) (p : StringPart) : Prop :=
  match p with
  | Text t => t ≠ []
  | Expr source span =>
      source = slice chars (span_start span) (span_end span) ∧
      2 ≤ span_start span ≤ span_end span ∧ span_end span < length chars ∧
      chars !! (span_start span - 2) = Some c_hash ∧ chars !! (span_start span - 1) = Some c_open ∧
      chars !! span_end span = Some c_close
  end.

Definition has_marker (parts : list StringPart) : Prop := first_marker parts ≠ None.

Definition literal_ok (chars : list char) (l : StringLiteral) : Prop :=
  match l with
  | Plain _ => True
  | Interpolated parts => Forall (part_ok chars) parts ∧ has_marker parts
  end.

Lemma flush_ok chars text parts :
  Forall (part_ok chars) parts → Forall (part_ok chars) (flush text parts).
Proof. intros H. destruct text; [done|]. apply Forall_app. split; [done|]. by repeat constructor. Qed.

Lemma has_marker_app parts parts' : has_marker parts → has_marker (parts ++ parts').
Proof. unfold has_marker. induction parts as [|[] parts IH]; simpl; try done. Qed.

Lemma has_marker_snoc parts source span : has_marker (parts ++ [Expr source span]).
Proof. unfold has_marker. induction parts as [|[] parts IH]; simpl; done. Qed.

Lemma flush_marker text parts : has_marker parts → has_marker (flush text parts).
Proof. intros H. destruct text; [done|]. by apply has_marker_app. Qed.

Lemma scan_loop_sound fuel chars start quote i text parts :
  length chars - i < fuel → Forall (part_ok chars) parts → (parts = [] ∨ has_marker parts) →
  sound (scan_loop fuel chars start quote i text parts)
    (λ r, literal_ok chars r.1 ∧ i < r.2 ≤ length chars ∧ chars !! (r.2 - 1) = Some quote).
Proof.
  revert i text parts. induction fuel as [|fuel IH]; intros i text parts Hf Hp Hm; [lia|].
  cbn [scan_loop]. destruct (chars !! i) as [ch|] eqn:Hi; [|done].
  apply lookup_lt_Some in Hi as Hlt.
  case_decide as Hq; [|case_decide as Hb; [|case_decide as Hh]].
  - subst. destruct parts as [|p parts]; simpl; rewrite Nat.add_sub; [split; [done|by split; [lia|]]|].
    destruct Hm as [?|Hm]; [done|]. split; [|by split; [lia|]].
    split; [by apply (flush_ok chars text (p :: parts))|by apply (flush_marker text (p :: parts))].
  - eapply sound_bind; [apply escape_sound|]. intros [v e] [Hv He]; simpl in *.
    unfold from_u32. rewrite Hv. simpl.
    eapply sound_mono; [apply IH; [lia|done..]|]. intros [l e'] (?&?&?); simpl in *.
    split; [done|]. by split; [lia|].
  - destruct Hh as [-> Hopen]. eapply sound_bind; [apply interpolation_end_sound|]. intros e [He Hclose].
    eapply sound_mono; [apply IH; [lia| |right; apply has_marker_snoc]|].
    + apply Forall_app. split; [by apply flush_ok|]. apply Forall_singleton. simpl.
      split_and!; [done|lia..| | |done].
      * by replace (i + 2 - 2) with i by lia.
      * by replace (i + 2 - 1) with (i + 1) by lia.
    + intros [l e'] (?&?&?); simpl in *. split; [done|]. by split; [lia|].
  - eapply sound_mono; [apply IH; [lia|done..]|]. intros [l e'] (?&?&?); simpl in *.
    split; [done|]. by split; [lia|].
Qed.

(** ** Properties *)

(** scanning a string literal at any position inside the source terminates
    without a panic and never reports a compiler bug.  When it succeeds, the
    next position lies inside the source just after the closing quote, and every
    part of an interpolated literal is exactly what the source has there, so that
    rejecting it as a static string always names its first interpolation. *)
Theorem scan_string_total (chars : list char) (start : nat) (token_span : Span)
    (Hstart : start < length chars) :
  match scan_string chars start with
  | Ok (l, next) =>
      start + 2 ≤ next ≤ length chars ∧ chars !! (next - 1) = chars !! start ∧
      literal_ok chars l ∧
      (∀ e, into_static l token_span = Err e → ParseError.reason e = LiteralSyntax)
  | Err (Failed e) => ParseError.reason e ≠ CompilerInvariant
  | Err (Panicked _) => False
  end.
Proof.
  destruct (lookup_lt_is_Some_2 chars start Hstart) as [q Hq].
  unfold scan_string, index. rewrite Hq. cbn [ok_or lift_run map_err rbind].
  pose proof (scan_loop_sound (S (length chars)) chars start q (start + 1) [] []
    ltac:(lia) (Forall_nil_2 _) ltac:(by left)) as H.
  destruct (scan_loop _ _ _ _ _ _ _) as [[l next]|[p|e]]; [|done..].
  destruct H as (Hl & Hb & He). simpl in Hb, He. split_and!; [lia|lia|done|done|].
  intros e. destruct l as [v|parts]; simpl; [done|]. destruct Hl as [_ Hm].
  unfold has_marker in Hm. destruct (first_marker parts); [|done]. by intros [= <-].
Qed.

(** [a#{x}b] in double quotes: two texts around one expression. *)
Lemma scan_string_total_witness :
  let chars := c_quote :: lit "a#{x}b" ++ [c_quote] in
  scan_string chars 0 =
    Ok (Interpolated [Text (lit "a"); Expr (lit "x") (mkSpanRange 4 5); Text (lit "b")], 8) ∧
  literal_ok chars (Interpolated [Text (lit "a"); Expr (lit "x") (mkSpanRange 4 5); Text (lit "b")]).
Proof.
  intros chars. assert (0 < length chars) as H by (vm_compute; lia).
  pose proof (scan_string_total chars 0 (mkSpanRange 0 8) H) as Ht.
  assert (scan_string chars 0 =
    Ok (Interpolated [Text (lit "a"); Expr (lit "x") (mkSpanRange 4 5); Text (lit "b")], 8)) as Heq
    by (vm_compute; reflexivity).
  split; [exact Heq|]. rewrite Heq in Ht. exact (proj1 (proj2 (proj2 Ht))).
Defined.

(** What the runtime prints for a string is a literal of the language that
    denotes the same string: scanning the quoted text gives back the original,
    whatever it contains (quotes, backslashes, control characters, [#{]) and
    whatever follows the literal in the source. *)
Theorem quote_scan_roundtrip (s rest : str) (Hs : Forall (λ c, is_scalar c = true) s) :
  scan_string (quote_surtr_string_literal s ++ rest) 0 =
  Ok (Plain s, length (quote_surtr_string_literal s)).
Proof.
  unfold scan_string, quote_surtr_string_literal.
  change (index _ 0) with (Ok (E := panic) c_quote). cbn [lift_run map_err rbind].
  rewrite (scan_quoted _ _ _ _ _ s rest).
  - do 2 f_equal. rewrite !length_app. simpl. lia.
  - simpl. by rewrite <- app_assoc.
  - done.
  - rewrite !length_app. pose proof (length_quote_body s). simpl. lia.
Qed.

(** A string with an escape of every form. *)
Lemma quote_scan_roundtrip_witness :
  let s := lit "say #{x} \ # " ++ [c_quote; c_newline; c_tab; c_return; 127; 128; 128512]%N in
  scan_string (quote_surtr_string_literal s ++ lit " rest") 0
  = Ok (Plain s, length (quote_surtr_string_literal s)).
Proof.
  intros s. apply (quote_scan_roundtrip s (lit " rest")).
  apply Forall_forall. intros c Hc. apply (forallb_forall (λ c, is_scalar c) s); [vm_compute; reflexivity|].
  by apply list_elem_of_In.
Defined.

End StringLiteral.
