(* ===== verification/Display.v ===== *)
(** * Maps and the display of values ([crates/sindr/src/runtime.rs])

    [HashMapHandle] keeps its entries in an unordered table and sorts them
    whenever their order can be observed; [Value::to_display_string] renders a
    value for diagnostics, checking the shape of tagged values on the way. *)

From S2P Require Import Prelude Names ListHandle Value TypeRegistry Ir RuntimeError StringLiteral.

(** ** The order of strings

    [String]'s order compares UTF-8 bytes, which is the order of code points. *)

Fixpoint str_leb (a b : str) : bool :=
  match a, b with
  | [], _ => true
  | _ :: _, [] => false
  | x :: a', y :: b' => if decide (x = y) then str_leb a' b' else (x <? y)%N
  end.

Lemma str_leb_total a b : str_leb a b = true ∨ str_leb b a = true.
Proof.
  revert b. induction a as [|x a IH]; intros [|y b]; simpl; auto.
  destruct (decide (x = y)) as [->|Hne]; [rewrite decide_True by done; apply IH|].
  rewrite decide_False by congruence. rewrite !N.ltb_lt. lia.
Qed.

Lemma str_leb_trans a b c : str_leb a b = true → str_leb b c = true → str_leb a c = true.
Proof.
  revert b c. induction a as [|x a IH]; intros [|y b] [|z c]; simpl; try done.
  repeat case_decide; subst; try done; rewrite ?N.ltb_lt; try lia. by apply IH.
Qed.

Lemma str_leb_antisym a b : str_leb a b = true → str_leb b a = true → a = b.
Proof.
  revert b. induction a as [|x a IH]; intros [|y b]; simpl; try done.
  repeat case_decide; subst; try done; rewrite ?N.ltb_lt; try lia. intros. by rewrite (IH b).
Qed.

(** ** Immutable string-keyed maps *)

Module HashMapHandle.

Section maps.
Context {V : Type}.
Implicit Types (m : gmap str V).

Definition from_entries (entries : list (str * V)) : gmap str V :=
  foldl (λ map '(key, value), <[key := value]> map) ∅ entries.

Definition len m : nat := size m.
Definition contains_key m (key : str) : bool := bool_decide (is_Some (m !! key)).
Definition get m (key : str) : option V := m !! key.
Definition insert m (key : str) (value : V) : gmap str V := <[key := value]> m.
Definition remove m (key : str) : gmap str V :=
  if contains_key m key then delete key m else m.

Definition entry_le (a b : str * V) : Prop := str_leb a.1 b.1 = true.
#[export] Instance entry_le_dec : RelDecision entry_le.
Proof. intros a b. unfold entry_le. apply _. Defined.
#[export] Instance entry_le_total : Total entry_le.
Proof. intros a b. apply str_leb_total. Qed.
#[export] Instance entry_le_trans : Transitive entry_le.
Proof. intros a b c. apply str_leb_trans. Qed.

Definition sorted_entries m : list (str * V) := merge_sort entry_le (map_to_list m).

Definition keys m : list str := (sorted_entries m).*1.
Definition values m : list V := (sorted_entries m).*2.

Lemma sorted_entries_perm m : sorted_entries m ≡ₚ map_to_list m.
Proof. apply merge_sort_Permutation. Qed.

Lemma elem_of_sorted_entries m k v : (k, v) ∈ sorted_entries m ↔ m !! k = Some v.
Proof. by rewrite sorted_entries_perm, elem_of_map_to_list. Qed.

Lemma NoDup_keys m : NoDup (keys m).
Proof. unfold keys. rewrite sorted_entries_perm. apply NoDup_fst_map_to_list. Qed.

Lemma sorted_entries_sorted m : StronglySorted entry_le (sorted_entries m).
Proof. by apply (StronglySorted_merge_sort entry_le). Qed.

(** A sorted listing with distinct keys is determined by what it lists. *)
Lemma sorted_listing_unique (l k : list (str * V)) :
  StronglySorted entry_le l → StronglySorted entry_le k → NoDup l.*1 → l ≡ₚ k → l = k.
Proof.
  intros Hl Hk Hnd Hp. apply (StronglySorted_unique_strong entry_le); [|done..].
  intros x y Hx Hy Hle Hge. assert (x.1 = y.1) as Hkey by by apply str_leb_antisym.
  rewrite <- Hp in Hy. apply list_elem_of_lookup in Hx as [i Hi], Hy as [j Hj].
  assert (i = j) as ->.
  { apply (NoDup_lookup l.*1 i j x.1); [done|..]; rewrite list_lookup_fmap; [by rewrite Hi|].
    rewrite Hj. simpl. by rewrite Hkey. }
  congruence.
Qed.

(** what a program observes of a map does not depend on the order in which
    the table stores its entries: the listing is sorted by key with every key
    once, contains exactly the map's entries, equals every other sorted listing
    of them, and rebuilding the map from it lists the same; removing a key
    removes that key and nothing else. *)
Theorem map_observation_canonical (m : gmap str V) (key : str) :
  StronglySorted entry_le (sorted_entries m) ∧ NoDup (keys m) ∧
  length (sorted_entries m) = len m ∧
  (∀ k v, (k, v) ∈ sorted_entries m ↔ get m k = Some v) ∧
  sorted_entries (from_entries (sorted_entries m)) = sorted_entries m ∧
  get (remove m key) key = None ∧ (∀ k, k ≠ key → get (remove m key) k = get m k) ∧
  (∀ l, StronglySorted entry_le l → NoDup l.*1 → l ≡ₚ map_to_list m → l = sorted_entries m).
Proof.
  assert (from_entries (sorted_entries m) = m) as Hback.
  { assert (∀ l acc, NoDup l.*1 → (∀ k, k ∈ l.*1 → acc !! k = None) →
      foldl (λ (map : gmap str V) '(key, value), <[key := value]> map) acc l = list_to_map l ∪ acc) as Hfold.
    { induction l as [|[k v] l IH]; intros acc Hnd Hacc; simpl; [by rewrite (left_id_L ∅ (∪))|].
      simpl in Hnd. apply NoDup_cons in Hnd as [Hk Hnd].
      rewrite IH; [|done|].
      - rewrite <- insert_union_l, insert_union_r; [done|]. by apply not_elem_of_list_to_map_1.
      - intros k' Hk'. rewrite lookup_insert_ne by set_solver. apply Hacc. simpl. by right. }
    unfold from_entries. rewrite Hfold; [|apply NoDup_keys|intros; apply lookup_empty].
    rewrite (right_id_L ∅ (∪)). rewrite <- (list_to_map_to_list m) at 2.
    apply list_to_map_proper; [apply NoDup_keys|apply sorted_entries_perm]. }
  split_and!.
  - apply sorted_entries_sorted.
  - apply NoDup_keys.
  - rewrite sorted_entries_perm. apply length_map_to_list.
  - intros k v. apply elem_of_sorted_entries.
  - by rewrite Hback.
  - unfold get, remove, contains_key. case_bool_decide as H; [by rewrite lookup_delete_eq|].
    by apply eq_None_not_Some.
  - intros k Hk. unfold get, remove. case_match; [|done]. by rewrite lookup_delete_ne.
  - intros l Hl Hnd Hp. apply sorted_listing_unique; [done|apply sorted_entries_sorted|done|].
    by rewrite sorted_entries_perm.
Qed.

End maps.

End HashMapHandle.

(** ** Formatting done by Rust's library

    How Rust renders a float in decimal, and a string, a value or an instruction
    in debug form, is the library's business: the functions are parameters, and
    nothing is assumed about them. *)
Class RustFmt : Type := {
  display_f64 : f64 → str;
  debug_str : str → str;
  debug_value : Value → str;
  debug_opcode : Opcode → str;
}.

Module Display.

Import TypeRegistry.

Section display.
Context `{RustFmt}.
Context (registry : TypeRegistry).

Abbreviation DResult := (Try ValueDisplayError).

(** [push_display_lines]: one line per error of the cause chain. *)
Fixpoint display_lines (first_prefix child_prefix : str) (e : RichError) : list str :=
  match e with
  | mkRichError k m _ _ cause _ _ =>
      (first_prefix ++ surface_path_name k ++ lit "(" ++ debug_str m ++ lit ")") ::
      match cause with
      | Some c => display_lines (child_prefix ++ lit "|_ ") (child_prefix ++ lit "   ") c
      | None => []
      end
  end.

Definition error_display_string (e : RichError) : str := join [10%N] (display_lines [] [] e).

Definition to_result_display_string (e : RichError) : str :=
  match display_lines [] [] e with
  | [] => lit "Err()"
  | head :: tail =>
      foldl (λ rendered line, rendered ++ [10%N] ++ line) (lit "Err(" ++ head ++ lit ")") tail
  end.

Definition display_float (f : f64) : str :=
  let s := display_f64 f in
  if str_contains s (lit ".") then s else s ++ lit ".0".

Definition display_callable (c : Callable) : str :=
  match call_target c with
  | CtBuiltin id => lit "<builtin:" ++ fmt_N id ++ lit ">"
  | CtFunction fun_idx =>
      lit "<function:" ++ fmt_N fun_idx ++ lit "; lexical_captures="
      ++ fmt_nat (length (call_captures c)) ++ lit ">"
  | CtTemplate template_id =>
      lit "<template:" ++ fmt_N template_id ++ lit "; lexical_captures="
      ++ fmt_nat (length (call_captures c)) ++ lit ">"
  end.

(** The values that are displayed without looking at other values. *)
Definition display_leaf (v : Value) : str :=
  match v with
  | VInt n => lit (pretty.pretty n)
  | VTag tag => lit "<tag:" ++ fmt_N tag ++ lit ">"
  | VFloat f => display_float f
  | VStr s => s
  | VBool b => if b then lit "True" else lit "False"
  | VUnit => lit "()"
  | VCallable c => display_callable c
  | VError rich => error_display_string rich
  | VErrorKind kind => lit "ErrorKind(" ++ kind ++ lit ")"
  | VRegex h => lit "Regex(" ++ debug_str (rx_pattern h) ++ lit ")"
  | VRegexCaptures h => lit "RegexCaptures(groups: " ++ fmt_nat (length (rc_groups h)) ++ lit ")"
  | VRegexMatch h => lit "RegexMatch(" ++ fmt_nat (rm_start h) ++ lit ".." ++ fmt_nat (rm_end h) ++ lit ")"
  | VRandomGenerator _ => lit "RandomGenerator(<opaque>)"
  | VGenerator _ => lit "Generator(<opaque>)"
  | VInfiniteGenerator _ _ => lit "InfiniteGenerator(<opaque>)"
  | VPid h => lit "PID(" ++ surface_path_name (pi_process_name (pid_identity h)) ++ lit "#"
              ++ fmt_N (pi_id (pid_identity h)) ++ lit ")"
  | VFileHandle h => lit "FileHandle#" ++ fmt_N (fh_id h)
  | VWorkers h => lit "Workers<" ++ wh_process_name h ++ lit ">#" ++ fmt_N (wh_id h)
  | VWorkerLease h =>
      lit "WorkerLease<" ++ pi_process_name (pid_identity (wl_pid h)) ++ lit ">#"
      ++ fmt_N (pi_id (pid_identity (wl_pid h)))
  | VTaskHandle id => lit "TaskHandle#" ++ fmt_N id
  | VPendingFuture id => lit "<pending:future#" ++ fmt_N id ++ lit ">"
  | VList _ | VHashMap _ | VTuple _ | VTagged _ _ => []
  end.

Definition comma : str := lit ", ".

Fixpoint to_display_string (fuel : nat) (v : Value) : DResult str :=
  match fuel with
  | O => Err (Panicked PFuel)
  | S fuel' =>
      let show := to_display_string fuel' in
      match v with
      | VList handle =>
          let? items := lift_run (ListHandle.to_vec handle) in
          let? inner := map_result show items in
          Ok (lit "[" ++ join comma inner ++ lit "]")
      | VHashMap entries =>
          if decide (entries = ∅) then Ok (lit "hash![]")
          else
            let? inner := map_result (λ '(key, value),
              let? shown := show value in
              Ok (StringLiteral.quote_surtr_string_literal key ++ lit " => " ++ shown))
              (HashMapHandle.sorted_entries entries) in
            Ok (lit "hash![" ++ join comma inner ++ lit "]")
      | VTuple items =>
          let? inner := map_result show items in
          Ok (lit "(" ++ join comma inner ++ lit ")")
      | VTagged tag fields =>
          let? _ := lift_res (validate_display_fields registry tag fields) in
          match lookup registry tag with
          | Some entry =>
              match (if decide (surface_path_name (te_name entry) = lit "Duration")
                     then head fields else None) with
              | Some (VInt ms) => Ok (lit (pretty.pretty ms) ++ lit "ms")
              | _ =>
                  match te_kind entry with
                  | TkStruct | TkRecord =>
                      let? parts := map_result (λ '(name, val),
                        let? shown := show val in Ok (name ++ lit ": " ++ shown))
                        (zip (te_field_names entry) fields) in
                      Ok (surface_path_name (te_name entry) ++ lit "(" ++ join comma parts ++ lit ")")
                  | TkEnumVariant =>
                      let? parts := map_result show (drop 1 fields) in
                      let payload := join comma parts in
                      if decide (payload = []) then Ok (surface_path_name (te_name entry))
                      else Ok (surface_path_name (te_name entry) ++ lit "(" ++ payload ++ lit ")")
                  end
              end
          | None =>
              if decide (tag = 0%N) then
                let? field := lift_run (index fields 0) in
                let? shown := show field in
                Ok (lit "Ok(" ++ shown ++ lit ")")
              else if decide (tag = 1%N) then
                let? field := lift_run (index fields 0) in
                match field with
                | VError rich => Ok (to_result_display_string rich)
                | value => let? shown := show value in Ok (lit "Err(" ++ shown ++ lit ")")
                end
              else fail (UnknownRuntimeTag tag)
          end
      | v => Ok (display_leaf v)
      end
  end.

(** ** Which values can be displayed *)

Unset Elimination Schemes.
(** [value_at n v]: the lists inside [v] are well formed and containers nest at
    most [n] deep. *)
Inductive value_at : nat → Value → Prop :=
| at_list n h : ListHandle.wf h → Forall (value_at n) (ListHandle.items h) → value_at (S n) (VList h)
| at_map n m : (∀ k v, m !! k = Some v → value_at n v) → value_at (S n) (VHashMap m)
| at_tuple n l : Forall (value_at n) l → value_at (S n) (VTuple l)
| at_tagged n tag l : Forall (value_at n) l → value_at (S n) (VTagged tag l)
| at_leaf n v :
    match v with VList _ | VHashMap _ | VTuple _ | VTagged _ _ => False | _ => True end →
    value_at (S n) v.

(** The fields of a tagged value that its rendering descends into. *)
Definition shown_fields (tag : RuntimeTag) (fields : list Value) : list Value :=
  match lookup registry tag with
  | Some entry =>
      match (if decide (surface_path_name (te_name entry) = lit "Duration")
             then head fields else None), te_kind entry with
      | Some (VInt _), _ => []
      | _, TkEnumVariant => drop 1 fields
      | _, _ => fields
      end
  | None =>
      match head fields with
      | Some (VError _) => if decide (tag = 1%N) then [] else fields
      | _ => fields
      end
  end.

(** Every tagged value that is rendered has the shape its registered type asks for. *)
Inductive displayable : Value → Prop :=
| disp_list h : Forall displayable (ListHandle.items h) → displayable (VList h)
| disp_map m : (∀ k v, m !! k = Some v → displayable v) → displayable (VHashMap m)
| disp_tuple l : Forall displayable l → displayable (VTuple l)
| disp_tagged tag fields :
    validate_display_fields registry tag fields = Ok tt →
    Forall displayable (shown_fields tag fields) → displayable (VTagged tag fields)
| disp_leaf v :
    match v with VList _ | VHashMap _ | VTuple _ | VTagged _ _ => False | _ => True end →
    displayable v.

Set Elimination Schemes.

(** [m] does not panic, and succeeds exactly when [P] holds. *)
Definition decides {A} (m : DResult A) (P : Prop) : Prop :=
  match m with
  | Ok _ => P
  | Err (Failed _) => ¬ P
  | Err (Panicked _) => False
  end.

Lemma decides_iff {A} (m : DResult A) (P Q : Prop) : decides m P → (P ↔ Q) → decides m Q.
Proof. destruct m as [|[|]]; simpl; tauto. Qed.

Lemma decides_bind_Ok {A B} (m : DResult A) (f : A → B) (P : Prop) :
  decides m P → decides (let? x := m in Ok (f x)) P.
Proof. by destruct m as [|[|]]. Qed.

Lemma decides_map_result {A B} (f : A → DResult B) (P : A → Prop) l :
  Forall (λ x, decides (f x) (P x)) l → decides (map_result f l) (Forall P l).
Proof.
  induction 1 as [|x l Hx _ IH]; [by constructor|]. cbn [map_result].
  destruct (f x) as [y|[p|e]]; simpl in Hx; [|done|].
  - destruct (map_result f l) as [ys|[p|e]]; simpl in *; [by constructor|done|].
    by intros [_ ?]%Forall_cons.
  - simpl. by intros [? _]%Forall_cons.
Qed.

Lemma forall_map_entries (P : Value → Prop) (m : gmap str Value) :
  Forall (λ e : str * Value, P e.2) (HashMapHandle.sorted_entries m) ↔ (∀ k v, m !! k = Some v → P v).
Proof.
  rewrite Forall_forall. split.
  - intros Hall k v Hkv. apply (Hall (k, v)). by apply HashMapHandle.elem_of_sorted_entries.
  - intros Hall [k v] Hkv. simpl. apply (Hall k). by apply HashMapHandle.elem_of_sorted_entries.
Qed.

Lemma validate_expected tag fields :
  validate_display_fields registry tag fields = Ok tt →
  match lookup registry tag with
  | Some entry => te_kind entry ≠ TkEnumVariant → length fields = length (te_field_names entry)
  | None => ∃ v, fields = [v] ∧ (tag = 0%N ∨ tag = 1%N)
  end.
Proof.
  unfold validate_display_fields. destruct (lookup registry tag) as [entry|] eqn:Hl.
  - simpl. case_decide as Hlen; [|done]. intros _ Hk. rewrite decide_False in Hlen by done. lia.
  - case_decide as Htag; [|done]. simpl. case_decide as Hlen; [|done]. intros _.
    destruct fields as [|v [|]]; try done. by exists v.
Qed.

Lemma decides_leaf (P : Prop) (s : str) : P → decides (Ok s) P.
Proof. done. Qed.

Lemma zip_names_Forall (P : Value → Prop) (names : list str) (fields : list Value) :
  length fields = length names → Forall (λ p : str * Value, P p.2) (zip names fields) ↔ Forall P fields.
Proof.
  intros Hlen. rewrite <- (snd_zip names fields) at 2 by lia. by rewrite Forall_fmap.
Qed.

Lemma displayable_tagged tag fields :
  displayable (VTagged tag fields) ↔
  validate_display_fields registry tag fields = Ok tt ∧ Forall displayable (shown_fields tag fields).
Proof. split; [by inversion 1|]. intros [??]. by constructor. Qed.

Lemma decides_named {B} fuel names fields (f : list str → B) :
  Forall (λ v, decides (to_display_string fuel v) (displayable v)) fields →
  length fields = length names →
  decides (let? parts := map_result (λ '(name, val),
     let? shown := to_display_string fuel val in Ok (name ++ lit ": " ++ shown)) (zip names fields) in
     Ok (f parts)) (Forall displayable fields).
Proof.
  intros Hrec Hlen. apply decides_bind_Ok.
  eapply decides_iff; [apply (decides_map_result _ (λ p, displayable p.2))|by apply zip_names_Forall].
  apply Forall_forall. intros [name v] Hin%elem_of_zip_r. apply decides_bind_Ok. by eapply Forall_forall in Hrec.
Qed.

Lemma decides_payload fuel fields (name : str) :
  Forall (λ v, decides (to_display_string fuel v) (displayable v)) fields →
  decides (let? parts := map_result (to_display_string fuel) (drop 1 fields) in
     if decide (join comma parts = []) then Ok name
     else Ok (name ++ lit "(" ++ join comma parts ++ lit ")"))
    (Forall displayable (drop 1 fields)).
Proof.
  intros Hrec.
  pose proof (decides_map_result (to_display_string fuel) displayable (drop 1 fields)
    (Forall_drop _ _ _ Hrec)) as Hmap.
  destruct (map_result _ _) as [parts|[p|e]]; simpl in *; [by case_decide|done..].
Qed.

(** One level of rendering decides displayability when the recursive calls do. *)
Lemma decides_tagged fuel tag fields :
  Forall (λ v, decides (to_display_string fuel v) (displayable v)) fields →
  decides (to_display_string (S fuel) (VTagged tag fields)) (displayable (VTagged tag fields)).
Proof.
  intros Hrec. eapply decides_iff; [|symmetry; apply displayable_tagged]. cbn [to_display_string].
  destruct (validate_display_fields registry tag fields) as [[]|e] eqn:Hval; [|simpl; by intros [? _]].
  apply validate_expected in Hval. cbn [lift_res map_err rbind]. unfold shown_fields.
  eapply (decides_iff _ (Forall displayable (shown_fields tag fields))); [|naive_solver].
  unfold shown_fields. destruct (lookup registry tag) as [entry|].
  - destruct (if decide _ then head fields else None) as [d|] eqn:Hd.
    1: destruct d; try (apply decides_leaf; by constructor).
    all: destruct (te_kind entry) eqn:Hk.
    all: first [by apply decides_payload|apply decides_named; [done|by apply Hval]].
  - destruct Hval as (v & -> & Htag). rewrite Forall_singleton in Hrec.
    destruct Htag as [-> | ->]; cbn [index lookup list_lookup ok_or lift_run map_err rbind head].
    + rewrite decide_True by done. destruct v; (eapply decides_iff; [by apply decides_bind_Ok, Hrec|]);
        symmetry; apply Forall_singleton.
    + rewrite decide_False, decide_True by done.
      destruct v; try (apply decides_leaf; by constructor);
        (eapply decides_iff; [by apply decides_bind_Ok, Hrec|]); symmetry; apply Forall_singleton.
Qed.

Lemma display_decides fuel : ∀ n v, value_at n v → n ≤ fuel →
  decides (to_display_string fuel v) (displayable v).
Proof.
  induction fuel as [|fuel IH]; intros n v Hv Hn; [inversion Hv; lia|].
  inversion Hv as [k h Hwf Hitems|k m Hm|k l Hl|k tag l Hl|k v' Hleaf]; subst; cbn [to_display_string].
  - rewrite ListHandle.to_vec_spec by done. cbn [lift_run map_err rbind].
    apply decides_bind_Ok. eapply decides_iff; [apply (decides_map_result _ displayable)|].
    + eapply Forall_impl; [exact Hitems|]. intros x Hx. apply (IH k); [done|lia].
    + split; [by constructor|]. by inversion 1.
  - eapply (decides_iff _ (∀ k v, m !! k = Some v → displayable v));
      [|split; [by constructor|]; by inversion 1].
    case_decide as Hempty; [subst; simpl; intros k' v'; by rewrite lookup_empty|].
    apply decides_bind_Ok. eapply decides_iff;
      [apply (decides_map_result _ (λ e, displayable e.2))|apply forall_map_entries].
    rewrite Forall_forall. intros [k' v'] Hin%HashMapHandle.elem_of_sorted_entries.
    apply decides_bind_Ok. apply (IH k); [by eapply Hm|lia].
  - apply decides_bind_Ok. eapply decides_iff; [apply (decides_map_result _ displayable)|].
    + eapply Forall_impl; [exact Hl|]. intros x Hx. apply (IH k); [done|lia].
    + split; [by constructor|]. by inversion 1.
  - apply decides_tagged. eapply Forall_impl; [exact Hl|]. intros x Hx. apply (IH k); [done|lia].
  - destruct v; try done; apply decides_leaf; by constructor.
Qed.

End display.

(** rendering a value for a diagnostic never panics and always terminates
    (fuel up to the nesting depth is enough): it succeeds exactly when every
    tagged value on the way has the number of fields, and for an enum variant the
    discriminant, that the registry records for its tag, and it reports an error
    otherwise. *)
Theorem display_total `{RustFmt} (registry : TypeRegistry) (fuel n : nat) (v : Value)
    (Hv : value_at n v) (Hfuel : n ≤ fuel) :
  match to_display_string registry fuel v with
  | Ok _ => displayable registry v
  | Err (Failed _) => ¬ displayable registry v
  | Err (Panicked _) => False
  end.
Proof. exact (display_decides registry fuel n v Hv Hfuel). Qed.

(** A formatter for the examples: floats and debug forms are rendered empty. *)
Definition sample_fmt : RustFmt :=
  {| display_f64 _ := []; debug_str s := s; debug_value _ := []; debug_opcode _ := [] |}.

Lemma display_total_witness :
  @to_display_string sample_fmt new 3 (VTagged 0 [VTuple [VInt 1; VStr (lit "a")]]) = Ok (lit "Ok((1, a))")
  ∧ displayable new (VTagged 0 [VTuple [VInt 1; VStr (lit "a")]]).
Proof.
  assert (value_at 3 (VTagged 0 [VTuple [VInt 1; VStr (lit "a")]])) as Hv.
  { repeat constructor. }
  pose proof (@display_total sample_fmt new 3 3 _ Hv (le_n 3)) as Ht.
  assert (@to_display_string sample_fmt new 3 (VTagged 0 [VTuple [VInt 1; VStr (lit "a")]])
    = Ok (lit "Ok((1, a))")) as Heq by (vm_compute; reflexivity).
  rewrite Heq in Ht. split; [exact Heq|exact Ht].
Defined.

End Display.
