(* ===== verification/ErrorSchema.v ===== *)
(** * Checked shapes of error payloads ([crates/sindr/src/ir.rs])

    An error template declares the shape of every payload field as an
    [ErrorValueSchema]; [accepts] checks a runtime value against it.  Schemas may
    be generic ([TypeParameter], resolved in the arguments of the enclosing type)
    and recursive ([Recursive], resolved in the enclosing types), so that it is
    not obvious that the check terminates: that is the theorem of this file. *)

From S2P Require Import Prelude Names ListHandle Value TypeRegistry Ir RuntimeError StringLiteral Display.

(** ** The representation of [MatchResult] ([crates/sindr/src/builtin.rs]) *)

Record MatchResultVariantMeta : Type := mkVariantMeta {
  vm_qualified_name : str;
  vm_discriminant : Z;
  vm_carries_error : bool;
}.

Definition MATCH_RESULT_OK_VARIANT : MatchResultVariantMeta :=
  mkVariantMeta (lit "MatchResult::Ok") 0 false.
Definition MATCH_RESULT_ERR_VARIANT : MatchResultVariantMeta :=
  mkVariantMeta (lit "MatchResult::Err") 1 true.

Definition match_result_variant_meta (qualified_name : str) : option MatchResultVariantMeta :=
  find (λ meta, surface_path_eq (vm_qualified_name meta) qualified_name)
    [MATCH_RESULT_OK_VARIANT; MATCH_RESULT_ERR_VARIANT].

(** [v == Some(&Value::Int(n))]. *)
Definition is_int_value (v : option Value) (n : Z) : bool :=
  match v with Some (VInt m) => bool_decide (m = n) | _ => false end.

Module ErrorSchema.

(** Replaces type parameters by [arguments]; [None] when an index is out of range. *)
Fixpoint substitute (arguments : list ErrorValueSchema) (s : ErrorValueSchema) : option ErrorValueSchema :=
  let convert := substitute arguments in
  match s with
  | STypeParameter index => arguments !! N.to_nat index
  | SList item => SList <$> convert item
  | STuple items => STuple <$> mapM convert items
  | SResult ok error => ok' ← convert ok; error' ← convert error; Some (SResult ok' error')
  | SMatchResult item => SMatchResult <$> convert item
  | SHashMap item => SHashMap <$> convert item
  | SPid marker => SPid <$> convert marker
  | SCallable parameters result =>
      ps ← mapM convert parameters; r ← convert result; Some (SCallable ps r)
  | SNamed name args => SNamed name <$> mapM convert args
  | SRecursive name args => SRecursive name <$> mapM convert args
  | SEnum name args variants => (λ a, SEnum name a variants) <$> mapM convert args
  | SStruct name args fields => (λ a, SStruct name a fields) <$> mapM convert args
  | SInt | SFloat | SString | SBoolean | SUnit | SError | SEnumError _ _ _ | SProcessMarker _
  | SErrorKind => Some s
  end.

(** [iter().all(..)]: stops at the first [false]. *)
Fixpoint all_run {A} (f : A → Run bool) (l : list A) : Run bool :=
  match l with
  | [] => Ok true
  | x :: l' => let? b := f x in if b then all_run f l' else Ok false
  end.

Definition variant_name '(mkVariantSchema n _ _ _ : ErrorVariantSchema) : str := n.
Definition variant_tag '(mkVariantSchema _ t _ _ : ErrorVariantSchema) : N := t.
Definition variant_discriminant '(mkVariantSchema _ _ d _ : ErrorVariantSchema) : SurtrInt := d.
Definition variant_fields '(mkVariantSchema _ _ _ f : ErrorVariantSchema) : list ErrorValueSchema := f.

(** The type that a recursive reference names: the innermost enclosing one. *)
Definition is_named (name : str) (s : ErrorValueSchema) : bool :=
  match s with
  | SEnum n _ _ | SStruct n _ _ => bool_decide (n = name)
  | _ => false
  end.

(** The runtime type name of an opaque handle. *)
Definition handle_type_name (v : Value) : option str :=
  match v with
  | VRegex _ => Some (lit "Regex")
  | VRegexCaptures _ => Some (lit "RegexCaptures")
  | VRegexMatch _ => Some (lit "RegexMatch")
  | VRandomGenerator _ => Some (lit "RandomGenerator")
  | VGenerator _ => Some (lit "Generator")
  | VInfiniteGenerator _ _ => Some (lit "InfiniteGenerator")
  | VFileHandle _ => Some (lit "FileHandle")
  | VWorkers _ => Some (lit "Workers")
  | VWorkerLease _ => Some (lit "WorkerLease")
  | VTaskHandle _ => Some (lit "TaskHandle")
  | _ => None
  end.

Definition handle_process (v : Value) : option str :=
  match v with
  | VWorkers h => Some (wh_process_name h)
  | VWorkerLease h => Some (pi_process_name (pid_identity (wl_pid h)))
  | _ => None
  end.

Definition is_marker (s : option ErrorValueSchema) (process : str) : bool :=
  match s with Some (SProcessMarker name) => bool_decide (name = process) | _ => false end.

(** The [Named] case: an opaque handle of the right type, and for the two
    process-owned handles, of the right process. *)
Definition accepts_handle (name : str) (arguments outer : list ErrorValueSchema) (v : Value) : Run bool :=
  match handle_type_name v with
  | None => Ok false
  | Some actual =>
      let? expected := compiler_global_error_kind actual in
      if decide (name = expected) then
        match handle_process v with
        | None => Ok true
        | Some process =>
            match mapM (substitute outer) arguments with
            | Some [SPid marker] => Ok (is_marker (Some marker) process)
            | _ => Ok false
            end
        end
      else Ok false
  end.

Section accepts.
Context (registry : TypeRegistry).

Definition registered_as (tag : N) (name : str) : bool :=
  match TypeRegistry.lookup registry tag with
  | Some entry => bool_decide (te_name entry = name)
  | None => false
  end.

(** [ancestors] and [bindings] are stacks, innermost first: the types being
    checked and the type arguments of each. *)
Fixpoint accepts_inner (fuel : nat) (ancestors : list ErrorValueSchema)
    (bindings : list (list ErrorValueSchema)) (s : ErrorValueSchema) (v : Value) : Run bool :=
  match fuel with
  | O => Err PFuel
  | S fuel' =>
      let check := accepts_inner fuel' ancestors bindings in
      let outer := from_option id [] (head bindings) in
      match s, v with
      | SInt, VInt _ | SFloat, VFloat _ | SString, VStr _ | SBoolean, VBool _ | SUnit, VUnit
      | SError, VError _ | SErrorKind, VErrorKind _ | SCallable _ _, VCallable _ => Ok true
      | STypeParameter index, _ =>
          match head bindings with
          | Some args =>
              match args !! N.to_nat index with
              | Some schema => check schema v
              | None => Ok false
              end
          | None => Ok false
          end
      | SList item, VList values =>
          let? vs := ListHandle.to_vec values in all_run (check item) vs
      | STuple types, VTuple values =>
          if decide (length types = length values)
          then all_run (λ '(t, x), check t x) (zip types values) else Ok false
      | SResult ok error, VTagged tag fields =>
          if decide (tag = 0%N) then
            match fields with [x] => check ok x | _ => Ok false end
          else if decide (tag = 1%N) then
            match fields with [x] => check error x | _ => Ok false end
          else Ok false
      | SEnumError _ kinds has_other, VError error =>
          Ok (has_other || bool_decide (err_kind error ∈ kinds))
      | SMatchResult ok, VTagged tag fields =>
          match TypeRegistry.lookup registry tag with
          | None => Ok false
          | Some entry =>
              match match_result_variant_meta (te_name entry) with
              | None => Ok false
              | Some variant =>
                  if bool_decide (length fields = 2)
                     && is_int_value (head fields) (vm_discriminant variant)
                  then
                    let? payload := index fields 1 in
                    if decide (vm_qualified_name variant = vm_qualified_name MATCH_RESULT_OK_VARIANT)
                    then check ok payload
                    else Ok (match payload with VError _ => true | _ => false end)
                  else Ok false
              end
          end
      | SPid marker, VPid pid =>
          Ok (is_marker (substitute outer marker) (pi_process_name (pid_identity pid)))
      | SStruct name arguments types, VTagged tag fields =>
          if registered_as tag name && bool_decide (length types = length fields) then
            match mapM (substitute outer) arguments with
            | None => Ok false
            | Some args =>
                all_run (λ '(t, x), accepts_inner fuel' (s :: ancestors) (args :: bindings) t x)
                  (zip types fields)
            end
          else Ok false
      | SEnum _ arguments variants, VTagged tag fields =>
          match find (λ variant, bool_decide (variant_tag variant = tag)) variants with
          | None => Ok false
          | Some variant =>
              if registered_as tag (variant_name variant)
                 && is_int_value (head fields) (variant_discriminant variant)
                 && bool_decide (length fields = length (variant_fields variant) + 1)
              then
                match mapM (substitute outer) arguments with
                | None => Ok false
                | Some args =>
                    all_run (λ '(t, x), accepts_inner fuel' (s :: ancestors) (args :: bindings) t x)
                      (zip (variant_fields variant) (drop 1 fields))
                end
              else Ok false
          end
      | SRecursive name arguments, _ =>
          match find (is_named name) ancestors with
          | Some (SEnum _ _ variants) => check (SEnum name arguments variants) v
          | Some (SStruct _ _ fields) => check (SStruct name arguments fields) v
          | _ => Ok false
          end
      | SHashMap item, VHashMap map =>
          all_run (λ '(_, x), check item x) (HashMapHandle.sorted_entries map)
      | SNamed name arguments, _ => accepts_handle name arguments outer v
      | _, _ => Ok false
      end
  end.

Definition accepts (fuel : nat) (s : ErrorValueSchema) (v : Value) : Run bool :=
  accepts_inner fuel [] [] s v.

End accepts.

(** ** Closed schemas *)

(** An induction principle that reaches the schemas inside lists. *)
Section schema_ind.
Context (P : ErrorValueSchema → Prop).
Context (Hleaf : ∀ s, match s with
  | SInt | SFloat | SString | SBoolean | SUnit | SError | SEnumError _ _ _ | SProcessMarker _
  | SErrorKind | STypeParameter _ => True | _ => False end → P s).
Context (Hcallable : ∀ ps r, Forall P ps → P r → P (SCallable ps r)).
Context (Hlist : ∀ s, P s → P (SList s)) (Hmatch : ∀ s, P s → P (SMatchResult s)).
Context (Hmap : ∀ s, P s → P (SHashMap s)) (Hpid : ∀ s, P s → P (SPid s)).
Context (Htuple : ∀ l, Forall P l → P (STuple l)).
Context (Hresult : ∀ a b, P a → P b → P (SResult a b)).
Context (Hnamed : ∀ n l, Forall P l → P (SNamed n l)).
Context (Hrec : ∀ n l, Forall P l → P (SRecursive n l)).
Context (Hstruct : ∀ n l f, Forall P l → P (SStruct n l f)).
Context (Henum : ∀ n l v, Forall P l → P (SEnum n l v)).

Fixpoint schema_ind (s : ErrorValueSchema) : P s :=
  let all := fix all (l : list ErrorValueSchema) : Forall P l :=
    match l with
    | [] => Forall_nil_2 P
    | x :: l' => Forall_cons_2 P x l' (schema_ind x) (all l')
    end in
  match s with
  | SCallable ps r => Hcallable ps r (all ps) (schema_ind r)
  | SList x => Hlist x (schema_ind x)
  | SMatchResult x => Hmatch x (schema_ind x)
  | SHashMap x => Hmap x (schema_ind x)
  | SPid x => Hpid x (schema_ind x)
  | STuple l => Htuple l (all l)
  | SResult a b => Hresult a b (schema_ind a) (schema_ind b)
  | SNamed n l => Hnamed n l (all l)
  | SRecursive n l => Hrec n l (all l)
  | SStruct n l f => Hstruct n l f (all l)
  | SEnum n l v => Henum n l v (all l)
  | s => Hleaf s I
  end.
End schema_ind.

(** No type parameter occurs outside the body of a type that binds it. *)
Definition closed (s : ErrorValueSchema) : Prop := is_Some (substitute [] s).

Lemma closed_mapM l : is_Some (mapM (substitute []) l) ↔ Forall closed l.
Proof. apply mapM_is_Some. Qed.

Lemma mapM_substitute_closed outer l l' :
  Forall (λ s, ∀ s', substitute outer s = Some s' → closed s') l →
  mapM (substitute outer) l = Some l' → Forall closed l'.
Proof.
  intros Hl Hm%mapM_Some_1. induction Hm as [|x y l l' Hxy _ IH]; [constructor|].
  apply Forall_cons in Hl as [Hx Hl]. constructor; auto.
Qed.

(** Substituting closed arguments leaves no type parameter behind. *)
Lemma substitute_closed outer s s' :
  Forall closed outer → substitute outer s = Some s' → closed s'.
Proof.
  intros Houter. revert s'. induction s using schema_ind; intros s' Hs; simpl in Hs.
  1: { destruct s; try done; simplify_eq/=; try by eexists.
    by eapply Forall_lookup_1 in Houter. }
  all: repeat match goal with
    | H : (_ ≫= _) = Some _ |- _ => apply bind_Some in H as (? & ? & H)
    | H : _ <$> _ = Some _ |- _ => apply fmap_Some in H as (? & H & ->)
    | H : Some _ = Some _ |- _ => injection H as <-
    end.
  all: repeat match goal with
    | IH : ∀ _, substitute ?o ?s = Some _ → _, H : substitute ?o ?s = Some _ |- _ =>
        apply IH in H as [? H]
    | IH : Forall _ ?l, H : mapM (substitute ?o) ?l = Some _ |- _ =>
        apply (mapM_substitute_closed _ _ _ IH), closed_mapM in H as [? H]
    end.
  all: unfold closed; simpl; repeat match goal with H : _ = Some _ |- _ => rewrite H; simpl; clear H end.
  all: by eexists.
Qed.

Lemma mapM_closed outer l l' :
  Forall closed outer → mapM (substitute outer) l = Some l' → Forall closed l'.
Proof.
  intros Ho. apply mapM_substitute_closed. apply Forall_forall. intros s _ s'. by apply substitute_closed.
Qed.

(** ** Termination *)

(** How many steps a schema may take before the check descends into the value:
    a type parameter is replaced by a closed schema, a recursive reference by
    the type it names. *)
Definition rank (s : ErrorValueSchema) : nat :=
  match s with STypeParameter _ => 2 | SRecursive _ _ => 1 | _ => 0 end.

Definition returns (m : Run bool) : Prop := ∃ b, m = Ok b.

Lemma all_run_returns {A} (f : A → Run bool) l : Forall (λ x, returns (f x)) l → returns (all_run f l).
Proof.
  induction 1 as [|x l [b Hb] _ IH]; simpl; [by eexists|]. rewrite Hb. simpl.
  destruct b; [done|by eexists].
Qed.

Lemma all_run_zip_returns {A} (P : Value → Prop) (f : A → Value → Run bool) (ts : list A) vs :
  (∀ t v, P v → returns (f t v)) → Forall P vs → returns (all_run (λ '(t, x), f t x) (zip ts vs)).
Proof.
  intros Hf Hvs. apply all_run_returns, Forall_forall. intros [t v] Hin%elem_of_zip_r.
  apply Hf. by eapply Forall_forall in Hvs.
Qed.

Lemma closed_rank s : closed s → rank s ≤ 1.
Proof. destruct s; simpl; try lia. by intros []. Qed.

Lemma accepts_handle_returns name arguments outer v : returns (accepts_handle name arguments outer v).
Proof.
  unfold accepts_handle, returns. destruct (handle_type_name v) as [actual|] eqn:Hv; [|by eexists].
  assert (∃ e, compiler_global_error_kind actual = Ok e) as [e ->].
  { destruct v; simplify_eq/=; by eexists. }
  simpl. case_decide; [|by eexists]. repeat case_match; by eexists.
Qed.

Lemma value_at_fields n tag fields :
  Display.value_at n (VTagged tag fields) → ∃ k, n = S k ∧ Forall (Display.value_at k) fields.
Proof. inversion 1; subst; [eauto|done]. Qed.

Section termination.
Context (registry : TypeRegistry) (fuel : nat).

(** The recursive calls return: the shape of the induction hypothesis. *)
Definition calls_return : Prop := ∀ n v ancestors bindings s,
  Display.value_at n v → Forall (Forall closed) bindings → 3 * n + rank s < fuel →
  returns (accepts_inner registry fuel ancestors bindings s v).

Context (IH : calls_return).

Lemma fields_return n ancestors bindings ts vs :
  Forall (Display.value_at n) vs → Forall (Forall closed) bindings → 3 * n + 2 < fuel →
  returns (all_run (λ '(t, x), accepts_inner registry fuel ancestors bindings t x) (zip ts vs)).
Proof.
  intros Hvs Hb Hf. apply (all_run_zip_returns (Display.value_at n)); [|done].
  intros t v Hv. apply (IH n); [done..|]. assert (rank t ≤ 2) by (destruct t; simpl; lia). lia.
Qed.

Lemma item_returns n ancestors bindings t v :
  Display.value_at n v → Forall (Forall closed) bindings → 3 * n + 2 < fuel →
  returns (accepts_inner registry fuel ancestors bindings t v).
Proof.
  intros Hv Hb Hf. apply (IH n); [done..|]. assert (rank t ≤ 2) by (destruct t; simpl; lia). lia.
Qed.

Lemma tagged_returns n ancestors bindings s tag fields :
  Display.value_at n (VTagged tag fields) → Forall (Forall closed) bindings →
  3 * n + rank s < S fuel →
  returns (accepts_inner registry (S fuel) ancestors bindings s (VTagged tag fields)).
Proof.
  intros Hv Hb Hf. destruct (value_at_fields _ _ _ Hv) as (k & -> & Hk).
  assert (Forall closed (from_option id [] (head bindings))) as Houter.
  { destruct Hb; simpl; [constructor|done]. }
  assert (3 * k + 2 < fuel) as Hk2 by (revert Hf; destruct s; simpl; lia).
  destruct s; cbn [accepts_inner]; try by eexists.
  - destruct Hb as [|args bindings Hargs Hb]; simpl; [by eexists|].
    destruct (args !! N.to_nat index) as [a|] eqn:Ha; [|by eexists].
    apply (IH (S k)); [done|by constructor|].
    eapply Forall_lookup_1 in Ha as Hc%closed_rank; [|done]. simpl in Hf. lia.
  - repeat case_decide; [| |by eexists]; destruct fields as [|x [|]]; try by eexists.
    all: rewrite Forall_singleton in Hk; by eapply item_returns.
  - destruct (TypeRegistry.lookup registry tag) as [entry|]; [|by eexists].
    destruct (match_result_variant_meta _) as [variant|]; [|by eexists].
    destruct (_ && _) eqn:Hc; [|by eexists].
    apply andb_true_iff in Hc as [Hlen%bool_decide_eq_true _].
    destruct fields as [|x [|y [|]]]; try done. simpl.
    rewrite !Forall_cons in Hk. destruct Hk as (_ & Hy & _).
    case_decide; [by eapply item_returns|by eexists].
  - case_match; [|by eexists]. destruct (mapM _ _) as [args|] eqn:Hm; [|by eexists].
    eapply fields_return; [done| |done]. constructor; [by eapply mapM_closed|done].
  - repeat case_match; try by eexists. eapply fields_return; [by apply Forall_drop| |done].
    constructor; [by eapply mapM_closed|done].
  - simpl in Hf. repeat case_match; try by eexists.
    all: apply (IH (S k)); [done|done|simpl; lia].
Qed.

End termination.

Lemma accepts_inner_returns registry fuel : calls_return registry fuel.
Proof.
  induction fuel as [|fuel IH]; intros n v ancestors bindings s Hv Hb Hf; [lia|].
  destruct s eqn:Hs; try (destruct v; solve [by eapply tagged_returns|by eexists]).
  all: cbn [accepts_inner].
  - destruct Hb as [|args bindings' Hargs Hb]; simpl; [by eexists|].
    destruct (args !! N.to_nat index) as [a|] eqn:Ha; [|by eexists].
    apply (IH n); [done|by constructor|].
    eapply Forall_lookup_1 in Ha as Hc%closed_rank; [|done]. simpl in Hf. lia.
  - destruct v; try (by eexists).
    inversion Hv as [k h Hwf Hitems| | | |]; [subst|done]. rewrite ListHandle.to_vec_spec by done. simpl.
    apply all_run_returns. eapply Forall_impl; [exact Hitems|]. intros x Hx.
    eapply item_returns; [done..|]. simpl in Hf. lia.
  - destruct v; try (by eexists).
    inversion Hv as [| |k l Hl| |]; [subst|done]. case_decide; [|by eexists].
    eapply fields_return; [done..|]. simpl in Hf. lia.
  - apply accepts_handle_returns.
  - destruct v; try (by eexists).
    inversion Hv as [|k m Hm| | |]; [subst|done]. apply all_run_returns, Forall_forall.
    intros [key x] Hin%HashMapHandle.elem_of_sorted_entries.
    eapply item_returns; [done|by eapply Hm|done|]. simpl in Hf. lia.
  - simpl in Hf. destruct (find _ ancestors) as [[]|]; try (by eexists).
    all: apply (IH n); [done|done|simpl; lia].
Qed.

(** ** Properties *)

(** checking any value against any payload schema terminates with an answer
    and does not panic, although schemas may be generic and recursive: three
    steps per level of the value are enough, because a type parameter always
    stands for a closed schema and a recursive reference for an enclosing type,
    which then inspects the value. *)
Theorem accepts_total (registry : TypeRegistry) (s : ErrorValueSchema) (v : Value) (n fuel : nat)
    (Hv : Display.value_at n v) (Hfuel : 3 * n + 3 ≤ fuel) :
  ∃ b, accepts registry fuel s v = Ok b.
Proof.
  apply (accepts_inner_returns registry fuel n); [done|constructor|].
  assert (rank s ≤ 2) by (destruct s; simpl; lia). lia.
Qed.

(** A generic recursive list type: [List<T> = Nil | Cons(T, List<T>)] applied to
    [Int], checked against a two-element value of it. *)
Definition sample_registry : TypeRegistry :=
  match TypeRegistry.try_from_entries
    [mkTypeEntry 10 (lit "Chain::Nil") TkEnumVariant [] [];
     mkTypeEntry 11 (lit "Chain::Link") TkEnumVariant [lit "0"; lit "1"] [false; false]] with
  | Ok r => r
  | Err _ => TypeRegistry.new
  end.

Definition sample_schema : ErrorValueSchema :=
  SEnum (lit "Chain") [SInt]
    [mkVariantSchema (lit "Chain::Nil") 10 0 [];
     mkVariantSchema (lit "Chain::Link") 11 1
       [STypeParameter 0; SRecursive (lit "Chain") [STypeParameter 0]]].

Definition sample_value : Value :=
  VTagged 11 [VInt 1; VInt 7; VTagged 11 [VInt 1; VInt 8; VTagged 10 [VInt 0]]].

Lemma accepts_total_witness :
  (∃ b, accepts sample_registry 15 sample_schema sample_value = Ok b) ∧
  accepts sample_registry 15 sample_schema sample_value = Ok true.
Proof.
  split; [|vm_compute; reflexivity].
  apply (accepts_total sample_registry sample_schema sample_value 4 15); [|lia].
  repeat constructor.
Defined.

End ErrorSchema.
