(* ===== verification/ProcessRuntime.v ===== *)
(** * The process runtime's tables ([crates/eldr/src/vm.rs], [ProcessRuntime])

    Futures, deadlines, reply correlation, waiting processes and the run queue.
    [RuntimeTable] and [CheckpointValue] are copy-on-write containers around an
    ordinary map or queue and are represented by it here.  [C] is the type of
    saved execution contexts, which this component stores and never inspects. *)

From S2P Require Import Prelude Names ListHandle Value TypeRegistry Ir.

Abbreviation FutureId := N (only parsing).
Abbreviation CorrelationId := N (only parsing).

(** ** Data *)

Inductive FutureState : Type :=
| Running
| Ready (value : Value)
| Cancelled (value : Value).

Record FutureRecord : Type := mkFuture {
  fu_id : FutureId;
  fu_owner : option N;
  fu_state : FutureState;
  fu_deadline_tick : option N;
  fu_waiters : list N;
  fu_cancel_on_timeout : bool;
  fu_correlation_id : option CorrelationId;
  fu_creation_context : option (Location * list RuntimeStackFrame);
  fu_error_generation_pending : bool;
  fu_init_deadline_timeout : bool;
}.

Record DeadlineEntry : Type := mkDeadline { de_deadline_tick : N; de_future_id : FutureId }.
#[export] Instance DeadlineEntry_eq_dec : EqDecision DeadlineEntry.
Proof. solve_decision. Defined.

Inductive ProcessWaitReason : Type :=
| WaitFuture (id : FutureId)
| WaitReply (id : CorrelationId)
| WaitBoot.
#[export] Instance ProcessWaitReason_eq_dec : EqDecision ProcessWaitReason.
Proof. solve_decision. Defined.

Inductive ProcessStatus : Type :=
| Runnable
| Waiting (reason : ProcessWaitReason)
| Completed
| ProcessFailed
| Restarting.
#[export] Instance ProcessStatus_eq_dec : EqDecision ProcessStatus.
Proof. solve_decision. Defined.

Inductive ProcessMailboxMessage : Type :=
| MsgRequest (payload : Value)
| MsgReply (payload : Value)
| MsgCast (payload : Value)
| MsgSystemBoot.

Inductive ProcessAcceptance : Type := Accepting | Stopping.

Inductive ProcessStopReason : Type := StopNormal | StopError (e : RichError).

Inductive LifecycleSink : Type := SinkSupervisor (name : str).

Inductive ProcessExecutionStage : Type := Handling | Postprocessing | Callback.

Record ProcessExecutionRecord : Type := mkExecution {
  pe_pid : PidHandle;
  pe_parent : option N;
  pe_stage : ProcessExecutionStage;
  pe_stored : bool;
  pe_initial_state : option Value;
  pe_result_future : FutureId;
  pe_internal_futures : list FutureId;
  pe_origin : Location * list RuntimeStackFrame;
}.

Inductive DetachedCompletion : Type :=
| CompFuture (id : option FutureId)
| CompProcess (execution_id : N) (callback : bool)
| CompErrorFuture (id : FutureId).

Inductive RuntimeOutputEvent : Type := EvStdOut (text : str) | EvStdErr (text : str).

Record ProcessSpecRegistry : Type := mkSpecRegistry {
  sr_specs_by_id : list RuntimeProcessSpec;
  sr_spec_id_by_name : gmap str N;
  sr_specs_by_name : gmap str RuntimeProcessSpec;
  sr_handler_defaults : gmap str (gmap str RuntimeHandlerTarget);
  sr_supervisor_defaults : gmap str RuntimeSupervisorPolicy;
}.

Inductive WorkerScaleState : Type := ScaleFix (size : Z).

Record WorkerStrategyState : Type := mkStrategy {
  ws_init : Z;
  ws_min : Z;
  ws_max : Z;
  ws_scale : WorkerScaleState;
}.

Record WorkerSetState : Type := mkWorkerSet {
  wk_supervisor_name : str;
  wk_worker_process : str;
  wk_init_callable : Callable;
  wk_strategy : WorkerStrategyState;
  wk_target : Z;
  wk_members : list N;
  wk_next_index : nat;
}.

(** The tables of supervision and of process identities, grouped.  An entry of
    [stopped_identities] is a weak reference; the model keeps the handle it was made of
    and asks whether one is still held where the code upgrades the reference. *)
Record SupervisionState : Type := mkSupervisionState {
  ss_next_workers_id : N;
  ss_next_detached_task_id : N;
  ss_next_execution_id : N;
  ss_refilling_worker_sets : gset N;
  ss_stopped_identities : gmap N PidHandle;
  ss_child_table : gmap str (list N);
  ss_worker_sets : gmap N WorkerSetState;
}.
Definition empty_supervision : SupervisionState := mkSupervisionState 0 0 0 ∅ ∅ ∅ ∅.

Section data.
Context (C : Type).

Record ProcessInstance : Type := mkProcess {
  pn_pid : N;
  pn_spec_id : N;
  pn_identity : PidHandle;
  pn_acceptance : ProcessAcceptance;
  pn_stop_reason : option ProcessStopReason;
  pn_status : ProcessStatus;
  pn_mailbox : list ProcessMailboxMessage;
  pn_execution_context : option C;
  pn_state_value : option Value;
  pn_owner : option N;
  pn_lifecycle_sink : option LifecycleSink;
  pn_standby_state_pending : bool;
}.

Inductive DetachedTaskState : Type :=
| TaskRunnable (context : C)
| TaskWaiting (future_id : FutureId) (context : option C).

Record DetachedTask : Type := mkDetached {
  dk_owner_pid : option N;
  dk_state : DetachedTaskState;
  dk_completion : DetachedCompletion;
  dk_started : bool;
  dk_cancelling : bool;
}.

Record ProcessRuntime : Type := mkRuntime {
  pr_current_tick_ms : N;
  pr_next_pid : N;
  pr_next_future_id : FutureId;
  pr_next_correlation_id : CorrelationId;
  pr_spec_registry : ProcessSpecRegistry;
  pr_handler_contexts : gmap str (gmap str RuntimeHandlerTarget);
  pr_effective_supervisors : gmap str RuntimeSupervisorPolicy;
  pr_singleton_by_name : gmap str N;
  pr_processes : gmap N ProcessInstance;
  pr_executions : gmap N ProcessExecutionRecord;
  pr_futures : gmap N FutureRecord;
  pr_reply_table : gmap N FutureId;
  pr_waiting_table : gmap N ProcessWaitReason;
  pr_deadline_queue : list DeadlineEntry;
  pr_run_queue : list N;
  pr_output_events : list RuntimeOutputEvent;
  pr_detached_tasks : gmap N DetachedTask;
  pr_supervision : SupervisionState;
}.
End data.

Arguments mkProcess {C}.
Arguments TaskRunnable {C}.
Arguments TaskWaiting {C}.
Arguments mkDetached {C}.
Arguments mkRuntime {C}.
Arguments pn_pid {C}. Arguments pn_spec_id {C}. Arguments pn_identity {C}.
Arguments pn_acceptance {C}. Arguments pn_stop_reason {C}. Arguments pn_status {C}.
Arguments pn_mailbox {C}. Arguments pn_execution_context {C}. Arguments pn_state_value {C}.
Arguments pn_owner {C}. Arguments pn_lifecycle_sink {C}. Arguments pn_standby_state_pending {C}.
Arguments dk_owner_pid {C}. Arguments dk_state {C}. Arguments dk_completion {C}.
Arguments dk_started {C}. Arguments dk_cancelling {C}.
Arguments pr_current_tick_ms {C}. Arguments pr_next_pid {C}. Arguments pr_next_future_id {C}.
Arguments pr_next_correlation_id {C}. Arguments pr_spec_registry {C}.
Arguments pr_handler_contexts {C}. Arguments pr_effective_supervisors {C}.
Arguments pr_singleton_by_name {C}. Arguments pr_processes {C}. Arguments pr_executions {C}.
Arguments pr_futures {C}. Arguments pr_reply_table {C}. Arguments pr_waiting_table {C}.
Arguments pr_deadline_queue {C}. Arguments pr_run_queue {C}. Arguments pr_output_events {C}.
Arguments pr_detached_tasks {C}.
Arguments pr_supervision {C}.

(** ** Field updates *)

Definition set_fu_state (x : FutureState) (f : FutureRecord) : FutureRecord :=
  mkFuture (fu_id f) (fu_owner f) x (fu_deadline_tick f) (fu_waiters f) (fu_cancel_on_timeout f)
    (fu_correlation_id f) (fu_creation_context f) (fu_error_generation_pending f)
    (fu_init_deadline_timeout f).
Definition set_fu_deadline (x : option N) (f : FutureRecord) : FutureRecord :=
  mkFuture (fu_id f) (fu_owner f) (fu_state f) x (fu_waiters f) (fu_cancel_on_timeout f)
    (fu_correlation_id f) (fu_creation_context f) (fu_error_generation_pending f)
    (fu_init_deadline_timeout f).
Definition set_fu_waiters (x : list N) (f : FutureRecord) : FutureRecord :=
  mkFuture (fu_id f) (fu_owner f) (fu_state f) (fu_deadline_tick f) x (fu_cancel_on_timeout f)
    (fu_correlation_id f) (fu_creation_context f) (fu_error_generation_pending f)
    (fu_init_deadline_timeout f).
Definition set_fu_cancel (x : bool) (f : FutureRecord) : FutureRecord :=
  mkFuture (fu_id f) (fu_owner f) (fu_state f) (fu_deadline_tick f) (fu_waiters f) x
    (fu_correlation_id f) (fu_creation_context f) (fu_error_generation_pending f)
    (fu_init_deadline_timeout f).
Definition set_fu_correlation (x : option N) (f : FutureRecord) : FutureRecord :=
  mkFuture (fu_id f) (fu_owner f) (fu_state f) (fu_deadline_tick f) (fu_waiters f)
    (fu_cancel_on_timeout f) x (fu_creation_context f) (fu_error_generation_pending f)
    (fu_init_deadline_timeout f).

Section updates.
Context {C : Type}.
Implicit Types (r : ProcessRuntime C).

Definition set_pn_status (x : ProcessStatus) (p : ProcessInstance C) : ProcessInstance C :=
  mkProcess (pn_pid p) (pn_spec_id p) (pn_identity p) (pn_acceptance p) (pn_stop_reason p) x
    (pn_mailbox p) (pn_execution_context p) (pn_state_value p) (pn_owner p)
    (pn_lifecycle_sink p) (pn_standby_state_pending p).
Definition set_pn_context (x : option C) (p : ProcessInstance C) : ProcessInstance C :=
  mkProcess (pn_pid p) (pn_spec_id p) (pn_identity p) (pn_acceptance p) (pn_stop_reason p)
    (pn_status p) (pn_mailbox p) x (pn_state_value p) (pn_owner p) (pn_lifecycle_sink p)
    (pn_standby_state_pending p).

Definition set_futures (x : gmap N FutureRecord) r : ProcessRuntime C :=
  mkRuntime (pr_current_tick_ms r) (pr_next_pid r) (pr_next_future_id r)
    (pr_next_correlation_id r) (pr_spec_registry r) (pr_handler_contexts r)
    (pr_effective_supervisors r) (pr_singleton_by_name r) (pr_processes r) (pr_executions r) x
    (pr_reply_table r) (pr_waiting_table r) (pr_deadline_queue r) (pr_run_queue r)
    (pr_output_events r) (pr_detached_tasks r) (pr_supervision r).
Definition set_next_future_id (x : N) r : ProcessRuntime C :=
  mkRuntime (pr_current_tick_ms r) (pr_next_pid r) x (pr_next_correlation_id r)
    (pr_spec_registry r) (pr_handler_contexts r) (pr_effective_supervisors r)
    (pr_singleton_by_name r) (pr_processes r) (pr_executions r) (pr_futures r)
    (pr_reply_table r) (pr_waiting_table r) (pr_deadline_queue r) (pr_run_queue r)
    (pr_output_events r) (pr_detached_tasks r) (pr_supervision r).
Definition set_next_correlation_id (x : N) r : ProcessRuntime C :=
  mkRuntime (pr_current_tick_ms r) (pr_next_pid r) (pr_next_future_id r) x (pr_spec_registry r)
    (pr_handler_contexts r) (pr_effective_supervisors r) (pr_singleton_by_name r)
    (pr_processes r) (pr_executions r) (pr_futures r) (pr_reply_table r) (pr_waiting_table r)
    (pr_deadline_queue r) (pr_run_queue r) (pr_output_events r) (pr_detached_tasks r) (pr_supervision r).
Definition set_specs (x : ProcessSpecRegistry) r : ProcessRuntime C :=
  mkRuntime (pr_current_tick_ms r) (pr_next_pid r) (pr_next_future_id r)
    (pr_next_correlation_id r) x (pr_handler_contexts r) (pr_effective_supervisors r)
    (pr_singleton_by_name r) (pr_processes r) (pr_executions r) (pr_futures r)
    (pr_reply_table r) (pr_waiting_table r) (pr_deadline_queue r) (pr_run_queue r)
    (pr_output_events r) (pr_detached_tasks r) (pr_supervision r).
Definition set_overlays (x : gmap str (gmap str RuntimeHandlerTarget))
    (y : gmap str RuntimeSupervisorPolicy) r : ProcessRuntime C :=
  mkRuntime (pr_current_tick_ms r) (pr_next_pid r) (pr_next_future_id r)
    (pr_next_correlation_id r) (pr_spec_registry r) x y (pr_singleton_by_name r)
    (pr_processes r) (pr_executions r) (pr_futures r) (pr_reply_table r) (pr_waiting_table r)
    (pr_deadline_queue r) (pr_run_queue r) (pr_output_events r) (pr_detached_tasks r) (pr_supervision r).
Definition set_processes (x : gmap N (ProcessInstance C)) r : ProcessRuntime C :=
  mkRuntime (pr_current_tick_ms r) (pr_next_pid r) (pr_next_future_id r)
    (pr_next_correlation_id r) (pr_spec_registry r) (pr_handler_contexts r)
    (pr_effective_supervisors r) (pr_singleton_by_name r) x (pr_executions r) (pr_futures r)
    (pr_reply_table r) (pr_waiting_table r) (pr_deadline_queue r) (pr_run_queue r)
    (pr_output_events r) (pr_detached_tasks r) (pr_supervision r).
Definition set_executions (x : gmap N ProcessExecutionRecord) r : ProcessRuntime C :=
  mkRuntime (pr_current_tick_ms r) (pr_next_pid r) (pr_next_future_id r)
    (pr_next_correlation_id r) (pr_spec_registry r) (pr_handler_contexts r)
    (pr_effective_supervisors r) (pr_singleton_by_name r) (pr_processes r) x (pr_futures r)
    (pr_reply_table r) (pr_waiting_table r) (pr_deadline_queue r) (pr_run_queue r)
    (pr_output_events r) (pr_detached_tasks r) (pr_supervision r).
Definition set_reply_table (x : gmap N N) r : ProcessRuntime C :=
  mkRuntime (pr_current_tick_ms r) (pr_next_pid r) (pr_next_future_id r)
    (pr_next_correlation_id r) (pr_spec_registry r) (pr_handler_contexts r)
    (pr_effective_supervisors r) (pr_singleton_by_name r) (pr_processes r) (pr_executions r)
    (pr_futures r) x (pr_waiting_table r) (pr_deadline_queue r) (pr_run_queue r)
    (pr_output_events r) (pr_detached_tasks r) (pr_supervision r).
Definition set_waiting_table (x : gmap N ProcessWaitReason) r : ProcessRuntime C :=
  mkRuntime (pr_current_tick_ms r) (pr_next_pid r) (pr_next_future_id r)
    (pr_next_correlation_id r) (pr_spec_registry r) (pr_handler_contexts r)
    (pr_effective_supervisors r) (pr_singleton_by_name r) (pr_processes r) (pr_executions r)
    (pr_futures r) (pr_reply_table r) x (pr_deadline_queue r) (pr_run_queue r)
    (pr_output_events r) (pr_detached_tasks r) (pr_supervision r).
Definition set_deadline_queue (x : list DeadlineEntry) r : ProcessRuntime C :=
  mkRuntime (pr_current_tick_ms r) (pr_next_pid r) (pr_next_future_id r)
    (pr_next_correlation_id r) (pr_spec_registry r) (pr_handler_contexts r)
    (pr_effective_supervisors r) (pr_singleton_by_name r) (pr_processes r) (pr_executions r)
    (pr_futures r) (pr_reply_table r) (pr_waiting_table r) x (pr_run_queue r)
    (pr_output_events r) (pr_detached_tasks r) (pr_supervision r).
Definition set_run_queue (x : list N) r : ProcessRuntime C :=
  mkRuntime (pr_current_tick_ms r) (pr_next_pid r) (pr_next_future_id r)
    (pr_next_correlation_id r) (pr_spec_registry r) (pr_handler_contexts r)
    (pr_effective_supervisors r) (pr_singleton_by_name r) (pr_processes r) (pr_executions r)
    (pr_futures r) (pr_reply_table r) (pr_waiting_table r) (pr_deadline_queue r) x
    (pr_output_events r) (pr_detached_tasks r) (pr_supervision r).
Definition set_output_events (x : list RuntimeOutputEvent) r : ProcessRuntime C :=
  mkRuntime (pr_current_tick_ms r) (pr_next_pid r) (pr_next_future_id r)
    (pr_next_correlation_id r) (pr_spec_registry r) (pr_handler_contexts r)
    (pr_effective_supervisors r) (pr_singleton_by_name r) (pr_processes r) (pr_executions r)
    (pr_futures r) (pr_reply_table r) (pr_waiting_table r) (pr_deadline_queue r)
    (pr_run_queue r) x (pr_detached_tasks r) (pr_supervision r).
End updates.

Module ProcessRuntime.

Section operations.
Context {C : Type}.
Implicit Types (r : ProcessRuntime C).

Definition is_running (f : FutureRecord) : bool :=
  match fu_state f with Running => true | _ => false end.

(** ** Process specifications *)

Definition handler_slots (spec : RuntimeProcessSpec) : gmap str RuntimeHandlerTarget :=
  foldl (λ m h, <[hd_slot h := hd_default_target h]> m) ∅ (rp_handler_dependencies spec).

Definition default_supervisors (specs : list RuntimeProcessSpec) : gmap str RuntimeSupervisorPolicy :=
  let declared := foldl (λ m spec,
    match su_policy (rp_supervision spec) with
    | Some policy => <[rp_type_name spec := policy]> m
    | None => m
    end) ∅ specs in
  foldl (λ m spec,
    if decide (rp_type_name spec = lit "Global::DynamicSupervisor" ∧ rp_kind spec = PkDynamicSupervisor) then
      match su_policy (rp_supervision spec) with
      | Some policy => <[lit "DynamicSupervisor" := policy]> m
      | None => m
      end
    else m) declared specs.

Definition reset_spec_overlays r : ProcessRuntime C :=
  set_overlays (sr_handler_defaults (pr_spec_registry r))
    (sr_supervisor_defaults (pr_spec_registry r)) r.

Definition register_spec_table (specs : list RuntimeProcessSpec) r : ProcessRuntime C :=
  reset_spec_overlays (set_specs
    (mkSpecRegistry specs
       (foldl (λ m '(i, spec), <[rp_type_name spec := as_u32 i]> m) ∅ (imap pair specs))
       (foldl (λ m spec, <[rp_type_name spec := spec]> m) ∅ specs)
       (foldl (λ m spec, <[rp_type_name spec := handler_slots spec]> m) ∅ specs)
       (default_supervisors specs)) r).

Definition has_spec r (name : str) : bool :=
  bool_decide (is_Some (sr_specs_by_name (pr_spec_registry r) !! name)).

Definition canonical_process_name r (process_name : str) : option str :=
  if has_spec r process_name then Some process_name
  else match strip_prefix IMPLICIT_ROOT_NAMESPACE_PREFIX process_name with
       | Some surface_name => if has_spec r surface_name then Some surface_name else None
       | None =>
           let canonical_name := IMPLICIT_ROOT_NAMESPACE_PREFIX ++ process_name in
           if has_spec r canonical_name then Some canonical_name else None
       end.

Definition spec_by_process_name r (process_name : str) : option RuntimeProcessSpec :=
  match canonical_process_name r process_name with
  | Some name => sr_specs_by_name (pr_spec_registry r) !! name
  | None => None
  end.

Definition singleton_pid_by_process_name r (process_name : str) : option N :=
  let direct := pr_singleton_by_name r !! process_name in
  match canonical_process_name r process_name with
  | Some name =>
      match pr_singleton_by_name r !! name with Some pid => Some pid | None => direct end
  | None => direct
  end.

Definition spec_for_id r (spec_id : N) : option RuntimeProcessSpec :=
  sr_specs_by_id (pr_spec_registry r) !! N.to_nat spec_id.

(** ** Futures *)

Definition raw_ready_future_value r (id : FutureId) : option Value :=
  match pr_futures r !! id with
  | Some f => match fu_state f with Ready v | Cancelled v => Some v | Running => None end
  | None => None
  end.

(** Does the task still have to clean up after the future [id]? *)
Definition completes_future (id : FutureId) (task : DetachedTask C) : bool :=
  match dk_completion task with
  | CompFuture (Some i) | CompErrorFuture i => bool_decide (i = id)
  | CompFuture None | CompProcess _ _ => false
  end.

Definition cleanup_pending r (id : FutureId) : bool :=
  existsb (completes_future id) (map_to_list (pr_detached_tasks r)).*2.

Definition ready_future_value r (id : FutureId) : option Value :=
  match raw_ready_future_value r id with
  | Some v => if cleanup_pending r id then None else Some v
  | None => None
  end.

Definition enqueue_runnable (pid : N) r : ProcessRuntime C :=
  if decide (pid ∈ pr_run_queue r) then r else set_run_queue (pr_run_queue r ++ [pid]) r.

Definition allocate_future (owner : option N) (deadline_tick : option N) (cancel_on_timeout : bool) r :
    FutureId * ProcessRuntime C :=
  let id := pr_next_future_id r in
  let r1 := set_next_future_id (id + 1) r in
  let r2 := match deadline_tick with
            | Some d => set_deadline_queue (pr_deadline_queue r1 ++ [mkDeadline d id]) r1
            | None => r1
            end in
  (id, set_futures (<[id := mkFuture id owner Running deadline_tick [] cancel_on_timeout None None false false]>
                      (pr_futures r2)) r2).

Definition allocate_future_after (owner : option N) (delay_ms : N) (cancel_on_timeout : bool) r :
    FutureId * ProcessRuntime C :=
  allocate_future owner (Some (u64_saturating_add (pr_current_tick_ms r) delay_ms)) cancel_on_timeout r.

Definition running_deadline (f : FutureRecord) : option N :=
  match fu_state f with Running => fu_deadline_tick f | _ => None end.

Definition min_option (a b : option N) : option N :=
  match a, b with
  | Some x, Some y => Some (N.min x y)
  | Some x, None | None, Some x => Some x
  | None, None => None
  end.

Definition next_running_deadline r : option N :=
  foldr (λ f, min_option (running_deadline f)) None (map_to_list (pr_futures r)).*2.

Definition allocate_correlation_id r : CorrelationId * ProcessRuntime C :=
  (pr_next_correlation_id r, set_next_correlation_id (pr_next_correlation_id r + 1) r).

Definition register_reply_waiter (correlation_id : CorrelationId) (future_id : FutureId) r :
    ProcessRuntime C :=
  let r1 := set_reply_table (<[correlation_id := future_id]> (pr_reply_table r)) r in
  set_futures (alter (set_fu_correlation (Some correlation_id)) future_id (pr_futures r1)) r1.

Definition add_waiter (pid : N) (f : FutureRecord) : FutureRecord :=
  if decide (pid ∈ fu_waiters f) then f else set_fu_waiters (fu_waiters f ++ [pid]) f.

Definition mark_process_waiting (pid : N) (reason : ProcessWaitReason) r : ProcessRuntime C :=
  let r1 := set_processes (alter (set_pn_status (Waiting reason)) pid (pr_processes r)) r in
  let r2 := match reason with
            | WaitFuture id => set_futures (alter (add_waiter pid) id (pr_futures r1)) r1
            | _ => r1
            end in
  set_waiting_table (<[pid := reason]> (pr_waiting_table r2)) r2.

(** The loop over the waiters of a resolved future. *)
Definition wake_one r (waiter : N) : ProcessRuntime C :=
  let r1 := set_waiting_table (delete waiter (pr_waiting_table r)) r in
  match pr_processes r1 !! waiter with
  | Some p =>
      enqueue_runnable waiter
        (set_processes (<[waiter := set_pn_status Runnable p]> (pr_processes r1)) r1)
  | None => r1
  end.

Definition wake_future_waiters (future_id : FutureId) r : list N * ProcessRuntime C :=
  match pr_futures r !! future_id with
  | Some f =>
      if is_running f then ([], r)
      else
        let waiters := fu_waiters f in
        let r1 := set_futures (<[future_id := set_fu_waiters [] f]> (pr_futures r)) r in
        (waiters, foldl wake_one r1 waiters)
  | None => ([], r)
  end.

(** [future.correlation_id.take()] together with the removal from the reply table. *)
Definition take_correlation (future_id : FutureId) r : ProcessRuntime C :=
  match pr_futures r !! future_id with
  | Some f =>
      match fu_correlation_id f with
      | Some k =>
          set_reply_table (delete k (pr_reply_table r))
            (set_futures (<[future_id := set_fu_correlation None f]> (pr_futures r)) r)
      | None => r
      end
  | None => r
  end.

Definition resolve_future (future_id : FutureId) (value : Value) r : list N * ProcessRuntime C :=
  match pr_futures r !! future_id with
  | None => ([], r)
  | Some f =>
      if negb (is_running f) || fu_error_generation_pending f then ([], r)
      else
        let f' := set_fu_cancel false (set_fu_deadline None (set_fu_state (Ready value) f)) in
        let r1 := take_correlation future_id (set_futures (<[future_id := f']> (pr_futures r)) r) in
        let r2 := set_deadline_queue
                    (List.filter (λ e, negb (bool_decide (de_future_id e = future_id))) (pr_deadline_queue r1)) r1 in
        wake_future_waiters future_id r2
  end.

Definition resolve_reply (correlation_id : CorrelationId) (value : Value) r : list N * ProcessRuntime C :=
  match pr_reply_table r !! correlation_id with
  | None => ([], r)
  | Some future_id =>
      resolve_future future_id value (set_reply_table (delete correlation_id (pr_reply_table r)) r)
  end.

(** The loop of [collect_expired_futures] over the deadline queue. *)
Fixpoint expire_loop (now_tick : N) (queue : list DeadlineEntry) r :
    list FutureId * list DeadlineEntry * ProcessRuntime C :=
  match queue with
  | [] => ([], [], r)
  | entry :: rest =>
      if decide (de_deadline_tick entry ≤ now_tick)%N then
        match pr_futures r !! de_future_id entry with
        | Some f =>
            if is_running f then
              let '(expired, retained, r') := expire_loop now_tick rest (take_correlation (de_future_id entry) r) in
              (de_future_id entry :: expired, retained, r')
            else expire_loop now_tick rest r
        | None => expire_loop now_tick rest r
        end
      else
        let '(expired, retained, r') := expire_loop now_tick rest r in
        (expired, entry :: retained, r')
  end.

Definition collect_expired_futures (now_tick : N) r : list FutureId * ProcessRuntime C :=
  if negb (existsb (λ e, (de_deadline_tick e <=? now_tick)%N) (pr_deadline_queue r)) then ([], r)
  else
    let '(expired, retained, r') := expire_loop now_tick (pr_deadline_queue r) r in
    (expired, set_deadline_queue retained r').

Definition attach_future_deadline (future_id : FutureId) (now_tick timeout_ms : N)
    (cancel_on_timeout : bool) r : ProcessRuntime C :=
  let deadline_tick := u64_saturating_add now_tick timeout_ms in
  match pr_futures r !! future_id with
  | None => r
  | Some f =>
      if negb (is_running f) then r
      else
        let deadline_tick := match fu_deadline_tick f with
                             | Some current => N.min current deadline_tick
                             | None => deadline_tick
                             end in
        let f' := set_fu_deadline (Some deadline_tick)
                    (set_fu_cancel (fu_cancel_on_timeout f || cancel_on_timeout) f) in
        let r1 := set_futures (<[future_id := f']> (pr_futures r)) r in
        if decide (mkDeadline deadline_tick future_id ∈ pr_deadline_queue r1) then r1
        else set_deadline_queue (pr_deadline_queue r1 ++ [mkDeadline deadline_tick future_id]) r1
  end.

Definition forget_internal_future (id : FutureId) r : ProcessRuntime C :=
  let r1 := set_futures (delete id (pr_futures r)) r in
  set_deadline_queue
    (List.filter (λ e, negb (bool_decide (de_future_id e = id))) (pr_deadline_queue r1)) r1.

End operations.

(** ** Lemmas *)

Section proofs.
Context {C : Type}.
Implicit Types (r : ProcessRuntime C).

Lemma enqueue_runnable_spec pid r :
  NoDup (pr_run_queue r) →
  let r' := enqueue_runnable pid r in
  NoDup (pr_run_queue r') ∧ (∀ p, p ∈ pr_run_queue r' ↔ p = pid ∨ p ∈ pr_run_queue r) ∧
  r' = set_run_queue (pr_run_queue r') r.
Proof.
  intros Hnd. unfold enqueue_runnable. case_decide as Hin; simpl.
  - split_and!; [done| |by destruct r]. intros p. split; [auto|]. by intros [->|].
  - split_and!; [| |done].
    + apply NoDup_app. split_and!; [done| |apply NoDup_singleton].
      intros x Hx ->%list_elem_of_singleton. done.
    + intros p. rewrite elem_of_app, list_elem_of_singleton. tauto.
Qed.

(** What waking a list of processes does to the tables. *)
Definition woken r r' (ws : list N) : Prop :=
  pr_futures r' = pr_futures r ∧ pr_deadline_queue r' = pr_deadline_queue r ∧
  pr_reply_table r' = pr_reply_table r ∧ pr_next_future_id r' = pr_next_future_id r ∧
  pr_next_correlation_id r' = pr_next_correlation_id r ∧ NoDup (pr_run_queue r') ∧
  (∀ pid, pr_waiting_table r' !! pid = if decide (pid ∈ ws) then None else pr_waiting_table r !! pid) ∧
  (∀ pid, pr_processes r' !! pid =
     (if decide (pid ∈ ws) then set_pn_status Runnable else id) <$> pr_processes r !! pid) ∧
  (∀ pid, pid ∈ pr_run_queue r' ↔
     pid ∈ pr_run_queue r ∨ pid ∈ ws ∧ is_Some (pr_processes r !! pid)).

Lemma wake_one_spec r w : NoDup (pr_run_queue r) → woken r (wake_one r w) [w].
Proof.
  intros Hnd. unfold wake_one. cbn [set_waiting_table pr_processes].
  destruct (pr_processes r !! w) as [p|] eqn:Hp.
  - set (r1 := set_processes _ _).
    destruct (enqueue_runnable_spec w r1) as (Hnd' & Hq & Heq); [done|].
    unfold woken. rewrite Heq. simpl. split_and!; [done..| | |].
    + intros pid. rewrite lookup_delete. repeat case_decide; rewrite ?list_elem_of_singleton in *; naive_solver.
    + intros pid. rewrite lookup_insert. case_decide as Hc.
      * subst. by rewrite Hp, decide_True by by apply list_elem_of_singleton.
      * rewrite decide_False by (rewrite list_elem_of_singleton; congruence). by destruct (pr_processes r !! pid).
    + intros pid. rewrite Hq, list_elem_of_singleton. simpl. split; [|naive_solver].
      intros [->|?]; [|auto]. right. split; [done|]. by eexists.
  - unfold woken; simpl. split_and!; [done..| | |].
    + intros pid. rewrite lookup_delete. repeat case_decide; rewrite ?list_elem_of_singleton in *; naive_solver.
    + intros pid. case_decide as Hc; [|by destruct (pr_processes r !! pid)].
      apply list_elem_of_singleton in Hc as ->. by rewrite Hp.
    + intros pid. split; [auto|]. intros [?|[->%list_elem_of_singleton [? ?]]]; [done|congruence].
Qed.

Lemma wake_fold_spec r ws : NoDup (pr_run_queue r) → woken r (foldl wake_one r ws) ws.
Proof.
  revert r. induction ws as [|w ws IH]; intros r Hnd; simpl.
  - unfold woken. split_and!; [done..| | |]; intros pid.
    + by rewrite decide_False by apply not_elem_of_nil.
    + rewrite decide_False by apply not_elem_of_nil. by destruct (pr_processes r !! pid).
    + rewrite elem_of_nil. tauto.
  - destruct (wake_one_spec r w Hnd) as (? & ? & ? & ? & ? & Hnd1 & Hw1 & Hp1 & Hq1).
    destruct (IH (wake_one r w) Hnd1) as (? & ? & ? & ? & ? & Hnd2 & Hw2 & Hp2 & Hq2).
    unfold woken. split_and!; [congruence..|done| | |]; intros pid.
    + rewrite Hw2, Hw1. clear.
      repeat case_decide; rewrite ?elem_of_cons, ?list_elem_of_singleton, ?elem_of_nil in *; done || tauto.
    + rewrite Hp2, Hp1. clear. destruct (pr_processes r !! pid) as [p|]; [|done]. simpl.
      repeat case_decide; rewrite ?elem_of_cons, ?list_elem_of_singleton, ?elem_of_nil in *; done || tauto.
    + rewrite Hq2, Hq1, Hp1. clear. rewrite fmap_is_Some, !elem_of_cons, elem_of_nil. tauto.
Qed.

(** ** The invariant *)

Record wf r : Prop := mk_wf {
  (* every future is stored under its own id, and ids come from the counter *)
  wf_ids : ∀ id f, pr_futures r !! id = Some f → fu_id f = id ∧ (id < pr_next_future_id r)%N;
  (* a deadline belongs to a future that is still running *)
  wf_deadlines : ∀ e, e ∈ pr_deadline_queue r →
    ∃ f, pr_futures r !! de_future_id e = Some f ∧ is_running f = true;
  (* no process is queued twice *)
  wf_run_queue : NoDup (pr_run_queue r);
  (* a process that waits for a future is registered with that future *)
  wf_waiting : ∀ pid id, pr_waiting_table r !! pid = Some (WaitFuture id) →
    (id < pr_next_future_id r)%N ∧ ∀ f, pr_futures r !! id = Some f → pid ∈ fu_waiters f;
  (* a correlation id awaits the future that carries it *)
  wf_replies : ∀ k id f, pr_reply_table r !! k = Some id → pr_futures r !! id = Some f →
    fu_correlation_id f = Some k;
  wf_reply_ids : ∀ k id, pr_reply_table r !! k = Some id →
    (id < pr_next_future_id r)%N ∧ (k < pr_next_correlation_id r)%N;
}.

Lemma take_correlation_spec id r f :
  pr_futures r !! id = Some f →
  let r' := take_correlation id r in
  pr_futures r' = <[id := set_fu_correlation None f]> (pr_futures r) ∧
  pr_deadline_queue r' = pr_deadline_queue r ∧ pr_run_queue r' = pr_run_queue r ∧
  pr_waiting_table r' = pr_waiting_table r ∧ pr_next_future_id r' = pr_next_future_id r ∧
  pr_processes r' = pr_processes r ∧ pr_next_correlation_id r' = pr_next_correlation_id r ∧
  (∀ k, pr_reply_table r' !! k =
    if decide (fu_correlation_id f = Some k) then None else pr_reply_table r !! k).
Proof.
  intros Hf. unfold take_correlation. rewrite Hf.
  destruct (fu_correlation_id f) as [k0|] eqn:Hk; simpl; split_and!; try done.
  - intros k. rewrite lookup_delete. repeat case_decide; naive_solver.
  - rewrite insert_id; [done|]. rewrite Hf. f_equal. destruct f; simpl in *. by subst.
Qed.

(** The effect of resolving a running future, in one statement. *)
Definition resolved (id : N) (v : Value) (f : FutureRecord) r r' : Prop :=
  (∃ f', pr_futures r' = <[id := f']> (pr_futures r) ∧ fu_state f' = Ready v ∧ fu_id f' = fu_id f ∧
    fu_waiters f' = [] ∧ fu_correlation_id f' = None ∧ fu_deadline_tick f' = None) ∧
  (∀ e, e ∈ pr_deadline_queue r' ↔ e ∈ pr_deadline_queue r ∧ de_future_id e ≠ id) ∧
  pr_next_future_id r' = pr_next_future_id r ∧
  pr_next_correlation_id r' = pr_next_correlation_id r ∧
  (∀ k, pr_reply_table r' !! k =
    if decide (fu_correlation_id f = Some k) then None else pr_reply_table r !! k) ∧
  NoDup (pr_run_queue r') ∧
  (∀ pid, pr_waiting_table r' !! pid =
    if decide (pid ∈ fu_waiters f) then None else pr_waiting_table r !! pid) ∧
  (∀ pid, pr_processes r' !! pid =
     (if decide (pid ∈ fu_waiters f) then set_pn_status Runnable else Datatypes.id) <$> pr_processes r !! pid) ∧
  (∀ pid, pid ∈ pr_run_queue r' ↔
     pid ∈ pr_run_queue r ∨ pid ∈ fu_waiters f ∧ is_Some (pr_processes r !! pid)).

Lemma elem_of_retain (id : N) (l : list DeadlineEntry) e :
  e ∈ List.filter (λ e, negb (bool_decide (de_future_id e = id))) l ↔ e ∈ l ∧ de_future_id e ≠ id.
Proof.
  rewrite !list_elem_of_In, filter_In, negb_true_iff, bool_decide_eq_false. done.
Qed.

Lemma resolve_future_spec id v r f :
  NoDup (pr_run_queue r) → pr_futures r !! id = Some f → is_running f = true →
  fu_error_generation_pending f = false →
  (resolve_future id v r).1 = fu_waiters f ∧ resolved id v f r (resolve_future id v r).2.
Proof.
  intros Hnd Hf Hrun Herr. unfold resolve_future. rewrite Hf, Hrun, Herr. cbn [negb orb].
  set (f' := set_fu_cancel _ _). set (r0 := set_futures _ _).
  destruct (take_correlation_spec id r0 f') as (Hfs & Hdq & Hrq & Hwt & Hnx & Hpr & Hnc & Hrt).
  { unfold r0. simpl. by rewrite lookup_insert_eq. }
  set (r2 := set_deadline_queue _ _). unfold wake_future_waiters.
  assert (pr_futures r2 !! id = Some (set_fu_correlation None f')) as ->.
  { unfold r2. simpl. by rewrite Hfs, lookup_insert_eq. }
  cbn [is_running fu_state set_fu_correlation f' set_fu_cancel set_fu_deadline set_fu_state fst snd].
  change (fu_waiters (set_fu_correlation None f')) with (fu_waiters f).
  split; [done|]. set (r3 := set_futures _ _).
  destruct (wake_fold_spec r3 (fu_waiters f)) as (Ef & Ed & Er & En & Ec & Hnd' & Hw & Hp & Hq).
  { unfold r3, r2. simpl. by rewrite Hrq. }
  unfold resolved. split_and!; try done.
  - eexists. split.
    + rewrite Ef. unfold r3, r2. simpl. rewrite Hfs. unfold r0. simpl. by rewrite !insert_insert_eq.
    + done.
  - intros e. rewrite Ed. unfold r3, r2. simpl. rewrite elem_of_retain. by rewrite Hdq.
  - rewrite En. unfold r3, r2. simpl. by rewrite Hnx.
  - rewrite Ec. unfold r3, r2. simpl. by rewrite Hnc.
  - intros k. rewrite Er. unfold r3, r2. simpl. by rewrite Hrt.
  - intros pid. rewrite Hw. unfold r3, r2. simpl. by rewrite Hwt.
  - intros pid. rewrite Hp. unfold r3, r2. simpl. by rewrite Hpr.
  - intros pid. rewrite Hq. unfold r3, r2. simpl. by rewrite Hrq, Hpr.
Qed.

(** ** Every operation preserves the invariant *)

(** The operations as steps of the runtime; the premises are what the callers
    establish: a process waits for a future that exists, and a reply is awaited
    under a fresh correlation id by a future that awaits no other. *)
Inductive step : ProcessRuntime C → ProcessRuntime C → Prop :=
| step_allocate r owner deadline cancel : step r (allocate_future owner deadline cancel r).2
| step_allocate_after r owner delay cancel : step r (allocate_future_after owner delay cancel r).2
| step_register r id f :
    pr_futures r !! id = Some f → fu_correlation_id f = None →
    step r (register_reply_waiter (allocate_correlation_id r).1 id (allocate_correlation_id r).2)
| step_wait r pid reason :
    (∀ id, reason = WaitFuture id → is_Some (pr_futures r !! id)) →
    step r (mark_process_waiting pid reason r)
| step_resolve r id v : step r (resolve_future id v r).2
| step_reply r k v : step r (resolve_reply k v r).2
| step_wake r id : step r (wake_future_waiters id r).2
| step_expire r now : step r (collect_expired_futures now r).2
| step_attach r id now timeout cancel : step r (attach_future_deadline id now timeout cancel r)
| step_forget r id : step r (forget_internal_future id r)
| step_enqueue r pid : step r (enqueue_runnable pid r)
| step_run r pid rest : pr_run_queue r = pid :: rest → step r (set_run_queue rest r).

(** A state that differs from a well-formed one only in ways the invariant does
    not see: each future keeps its id and run state, and gains waiters or loses
    its correlation together with the reply entry. *)
Lemma wf_take_correlation id r : wf r → wf (take_correlation id r).
Proof.
  intros Hwf. destruct (pr_futures r !! id) as [f|] eqn:Hf;
    [|unfold take_correlation; by rewrite Hf].
  destruct (take_correlation_spec id r f Hf) as (Hfs & Hdq & Hrq & Hwt & Hnx & _ & Hnc & Hrt).
  constructor; rewrite ?Hfs, ?Hdq, ?Hrq, ?Hwt, ?Hnx, ?Hnc.
  - intros i g [[-> <-]|[? Hg]]%lookup_insert_Some; [exact (wf_ids r Hwf _ f Hf)|by apply (wf_ids r Hwf)].
  - intros e He. destruct (wf_deadlines r Hwf e He) as (g & Hg & Hrun).
    destruct (decide (de_future_id e = id)) as [<-|].
    + rewrite lookup_insert_eq. eexists. split; [done|]. simplify_eq. exact Hrun.
    + rewrite lookup_insert_ne by done. eauto.
  - apply Hwf.
  - intros pid i Hi. destruct (wf_waiting r Hwf pid i Hi) as [Hlt Hin]. split; [done|].
    intros g [[-> <-]|[? Hg]]%lookup_insert_Some; [exact (Hin f Hf)|by apply Hin].
  - intros k i g. rewrite Hrt. case_decide as Hc; [done|]. intros Hk.
    intros [[-> <-]|[? Hg]]%lookup_insert_Some; [|by eapply (wf_replies r Hwf)].
    destruct Hc. by eapply (wf_replies r Hwf).
  - intros k i. rewrite Hrt. case_decide; [done|]. apply (wf_reply_ids r Hwf).
Qed.

Lemma wf_set_deadlines q r : wf r → (∀ e, e ∈ q → e ∈ pr_deadline_queue r) → wf (set_deadline_queue q r).
Proof. intros [] Hq. constructor; simpl; eauto. Qed.

Lemma expire_loop_wf now q r : wf r → wf (expire_loop now q r).2.
Proof.
  revert r. induction q as [|e q IH]; intros r Hwf; simpl; [done|].
  case_decide.
  - destruct (pr_futures r !! _) as [f|]; [|by apply IH]. destruct (is_running f); [|by apply IH].
    pose proof (IH _ (wf_take_correlation (de_future_id e) r Hwf)) as H'.
    by destruct (expire_loop now q _) as [[??] ?].
  - pose proof (IH r Hwf) as H'. by destruct (expire_loop now q r) as [[??] ?].
Qed.

Lemma take_correlation_queue id r : pr_deadline_queue (take_correlation id r) = pr_deadline_queue r.
Proof. unfold take_correlation. by repeat case_match. Qed.

Lemma take_correlation_running id r i :
  is_running <$> pr_futures (take_correlation id r) !! i = is_running <$> pr_futures r !! i.
Proof.
  unfold take_correlation. destruct (pr_futures r !! id) as [f|] eqn:Hf; [|done].
  destruct (fu_correlation_id f); [|done]. simpl.
  destruct (decide (i = id)) as [->|]; [by rewrite lookup_insert_eq, Hf|by rewrite lookup_insert_ne].
Qed.

Definition runs r (id : N) : bool := bool_decide (is_running <$> pr_futures r !! id = Some true).

Lemma runs_lookup r id : runs r id = from_option is_running false (pr_futures r !! id).
Proof. unfold runs. destruct (pr_futures r !! id) as [f|]; simpl; [|done]. by destruct (is_running f). Qed.

(** The loop sorts the queue into expired futures and remaining entries. *)
Lemma expire_loop_spec now q r :
  (expire_loop now q r).1.1 = de_future_id <$>
    List.filter (λ e, (de_deadline_tick e <=? now)%N && runs r (de_future_id e)) q ∧
  (expire_loop now q r).1.2 = List.filter (λ e, negb (de_deadline_tick e <=? now)%N) q ∧
  pr_deadline_queue (expire_loop now q r).2 = pr_deadline_queue r ∧
  (∀ i, is_running <$> pr_futures (expire_loop now q r).2 !! i = is_running <$> pr_futures r !! i).
Proof.
  revert r. induction q as [|e q IH]; intros r; simpl; [done|].
  case_decide as Hd; [apply N.leb_le in Hd as ->|apply N.leb_gt in Hd || apply N.nle_gt, N.leb_gt in Hd; rewrite Hd]; simpl.
  - rewrite (runs_lookup r (de_future_id e)).
    destruct (pr_futures r !! de_future_id e) as [f|] eqn:Hf; simpl; [|done].
    destruct (is_running f); [|done].
    + destruct (IH (take_correlation (de_future_id e) r)) as (H1 & H2 & H3 & H4).
      destruct (expire_loop now q _) as [[ex re] r'] eqn:Heq. simpl in *.
      rewrite H1, H2, H3, take_correlation_queue. split_and!; [|done..|].
      * f_equal. f_equal. apply filter_ext. intros e'. unfold runs. by rewrite take_correlation_running.
      * intros i. by rewrite H4, take_correlation_running.
  - destruct (IH r) as (H1 & H2 & H3 & H4). destruct (expire_loop now q r) as [[ex re] r']. simpl in *.
    by rewrite H2.
Qed.

Lemma wf_wake id r : wf r → wf (wake_future_waiters id r).2.
Proof.
  intros Hwf. unfold wake_future_waiters. destruct (pr_futures r !! id) as [f|] eqn:Hf; [|done].
  destruct (is_running f) eqn:Hrun; [done|]. cbn [snd].
  set (r1 := set_futures _ r).
  destruct (wake_fold_spec r1 (fu_waiters f) (wf_run_queue r Hwf)) as (Ef & Ed & Er & En & Ec & Hnd & Hw & _ & _).
  constructor; rewrite ?Ef, ?Ed, ?Er, ?En, ?Ec; [..|done| | |]; unfold r1; simpl.
  - intros i g [[-> <-]|[? Hg]]%lookup_insert_Some; [exact (wf_ids r Hwf _ f Hf)|by apply (wf_ids r Hwf)].
  - intros e He. destruct (wf_deadlines r Hwf e He) as (g & Hg & Hr).
    rewrite lookup_insert_ne; [eauto|]. intros ->. congruence.
  - intros pid i. rewrite Hw. case_decide as Hin; [done|]. unfold r1; simpl. intros Hi.
    destruct (wf_waiting r Hwf pid i Hi) as [? Hwait]. split; [done|].
    intros g [[-> <-]|[? Hg]]%lookup_insert_Some; [|by apply Hwait].
    destruct Hin. by apply Hwait.
  - intros k i g Hk [[-> <-]|[? Hg]]%lookup_insert_Some;
      [exact (wf_replies r Hwf k _ f Hk Hf)|by eapply (wf_replies r Hwf)].
  - apply (wf_reply_ids r Hwf).
Qed.

Lemma wf_resolve id v r : wf r → wf (resolve_future id v r).2.
Proof.
  intros Hwf. destruct (pr_futures r !! id) as [f|] eqn:Hf; [|unfold resolve_future; by rewrite Hf].
  destruct (is_running f && negb (fu_error_generation_pending f)) eqn:Hc.
  2: { unfold resolve_future. rewrite Hf.
    destruct (is_running f), (fu_error_generation_pending f); try done. }
  apply andb_true_iff in Hc as [Hrun Herr%negb_true_iff].
  destruct (resolve_future_spec id v r f (wf_run_queue r Hwf) Hf Hrun Herr) as
    [_ ((f' & Ef & Hst & Hid & Hws & Hco & Hdl) & Ed & En & Ec & Er & Hnd & Hw & _ & _)].
  constructor; rewrite ?Ef, ?En, ?Ec.
  - intros i g [[-> <-]|[? Hg]]%lookup_insert_Some; [|by apply (wf_ids r Hwf)].
    rewrite Hid. by apply (wf_ids r Hwf).
  - intros e [He Hne]%Ed. rewrite lookup_insert_ne by done. by apply (wf_deadlines r Hwf).
  - done.
  - intros pid i. rewrite Hw. case_decide as Hin; [done|]. intros Hi.
    destruct (wf_waiting r Hwf pid i Hi) as [? Hwait]. split; [done|].
    intros g [[-> <-]|[? Hg]]%lookup_insert_Some; [|by apply Hwait].
    destruct Hin. by apply Hwait.
  - intros k i g. rewrite Er. case_decide as Hc; [done|]. intros Hk.
    intros [[-> <-]|[? Hg]]%lookup_insert_Some; [|by eapply (wf_replies r Hwf)].
    destruct Hc. by eapply (wf_replies r Hwf).
  - intros k i. rewrite Er. case_decide; [done|]. apply (wf_reply_ids r Hwf).
Qed.

Lemma wf_update_future id f f' r :
  wf r → pr_futures r !! id = Some f → fu_id f' = fu_id f → is_running f' = is_running f →
  fu_correlation_id f' = fu_correlation_id f → (∀ pid, pid ∈ fu_waiters f → pid ∈ fu_waiters f') →
  wf (set_futures (<[id := f']> (pr_futures r)) r).
Proof.
  intros Hwf Hf Hid Hrun Hco Hws. constructor; simpl.
  - intros i g [[-> <-]|[? Hg]]%lookup_insert_Some; [|by apply (wf_ids r Hwf)].
    rewrite Hid. by apply (wf_ids r Hwf).
  - intros e He. destruct (wf_deadlines r Hwf e He) as (g & Hg & Hr).
    destruct (decide (de_future_id e = id)) as [<-|].
    + rewrite lookup_insert_eq. eexists. split; [done|]. simplify_eq. congruence.
    + rewrite lookup_insert_ne by done. eauto.
  - apply Hwf.
  - intros pid i Hi. destruct (wf_waiting r Hwf pid i Hi) as [? Hwait]. split; [done|].
    intros g [[-> <-]|[? Hg]]%lookup_insert_Some; [by apply Hws, Hwait|by apply Hwait].
  - intros k i g Hk [[-> <-]|[? Hg]]%lookup_insert_Some; [|by eapply (wf_replies r Hwf)].
    rewrite Hco. by eapply (wf_replies r Hwf).
  - apply (wf_reply_ids r Hwf).
Qed.

Lemma wf_add_deadline d id r f :
  wf r → pr_futures r !! id = Some f → is_running f = true →
  wf (set_deadline_queue (pr_deadline_queue r ++ [mkDeadline d id]) r).
Proof.
  intros Hwf Hf Hrun. constructor; simpl; try apply Hwf.
  intros e [He| ->%list_elem_of_singleton]%elem_of_app; [by apply (wf_deadlines r Hwf)|]. simpl. eauto.
Qed.

Lemma wf_allocate owner deadline cancel r : wf r → wf (allocate_future owner deadline cancel r).2.
Proof.
  intros Hwf. unfold allocate_future. simpl. set (id := pr_next_future_id r). set (f := mkFuture _ _ _ _ _ _ _ _ _ _).
  assert (pr_futures r !! id = None) as Hfresh.
  { apply eq_None_not_Some. intros [g Hg]. apply (wf_ids r Hwf) in Hg as [_ Hg]. unfold id in Hg. lia. }
  assert (wf (set_futures (<[id := f]> (pr_futures r)) (set_next_future_id (id + 1) r))) as Hwf1.
  { constructor; simpl.
    - intros i g [[<- <-]|[? Hg]]%lookup_insert_Some; [by split; [|lia]|].
      apply (wf_ids r Hwf) in Hg as [??]. split; [done|]. unfold id. lia.
    - intros e He. destruct (wf_deadlines r Hwf e He) as (g & Hg & Hr).
      rewrite lookup_insert_ne by congruence. eauto.
    - apply Hwf.
    - intros pid i Hi. destruct (wf_waiting r Hwf pid i Hi) as [Hlt Hwait]. fold id in Hlt.
      split; [lia|]. intros g [[<- _]|[? Hg]]%lookup_insert_Some; [lia|by apply Hwait].
    - intros k i g Hk [[<- _]|[? Hg]]%lookup_insert_Some; [|by eapply (wf_replies r Hwf)].
      apply (wf_reply_ids r Hwf) in Hk as [Hk _]. fold id in Hk. lia.
    - intros k i Hk%(wf_reply_ids r Hwf). fold id in Hk. lia. }
  destruct deadline as [d|]; [|done].
  eapply (wf_add_deadline d id _ f) in Hwf1; [exact Hwf1| |done]. simpl. by rewrite lookup_insert_eq.
Qed.

Lemma wf_register id f r :
  wf r → pr_futures r !! id = Some f → fu_correlation_id f = None →
  wf (register_reply_waiter (allocate_correlation_id r).1 id (allocate_correlation_id r).2).
Proof.
  intros Hwf Hf Hco. unfold register_reply_waiter, allocate_correlation_id. simpl.
  set (k0 := pr_next_correlation_id r). set (f' := set_fu_correlation (Some k0) f).
  assert (alter (set_fu_correlation (Some k0)) id (pr_futures r) = <[id := f']> (pr_futures r)) as Halt.
  { apply map_eq. intros i. destruct (decide (i = id)) as [->|].
    - by rewrite lookup_alter_eq, lookup_insert_eq, Hf.
    - by rewrite lookup_alter_ne, lookup_insert_ne. }
  constructor; simpl; rewrite ?Halt.
  - intros i g [[-> <-]|[? Hg]]%lookup_insert_Some; [exact (wf_ids r Hwf _ f Hf)|by apply (wf_ids r Hwf)].
  - intros e He. destruct (wf_deadlines r Hwf e He) as (g & Hg & Hr).
    destruct (decide (de_future_id e = id)) as [<-|].
    + rewrite lookup_insert_eq. eexists. split; [done|]. simplify_eq. exact Hr.
    + rewrite lookup_insert_ne by done. eauto.
  - apply Hwf.
  - intros pid i Hi. destruct (wf_waiting r Hwf pid i Hi) as [? Hwait]. split; [done|].
    intros g [[-> <-]|[? Hg]]%lookup_insert_Some; [exact (Hwait f Hf)|by apply Hwait].
  - intros k i g [[<- <-]|[Hne Hk]]%lookup_insert_Some.
    + rewrite lookup_insert_eq. by intros [= <-].
    + intros [[-> <-]|[? Hg]]%lookup_insert_Some; [|by eapply (wf_replies r Hwf)].
      pose proof (wf_replies r Hwf k i f Hk Hf). congruence.
  - intros k i [[<- <-]|[Hne Hk]]%lookup_insert_Some.
    + apply (wf_ids r Hwf) in Hf as [_ ?]. unfold k0. split; [done|lia].
    + apply (wf_reply_ids r Hwf) in Hk. unfold k0. split; [tauto|lia].
Qed.

Lemma wf_mark_waiting pid reason r :
  wf r → (∀ id, reason = WaitFuture id → is_Some (pr_futures r !! id)) →
  wf (mark_process_waiting pid reason r).
Proof.
  intros Hwf Hex. unfold mark_process_waiting.
  assert (∀ r1, wf r1 → (∀ id, reason = WaitFuture id → (id < pr_next_future_id r1)%N ∧
      ∀ f, pr_futures r1 !! id = Some f → pid ∈ fu_waiters f) →
      wf (set_waiting_table (<[pid := reason]> (pr_waiting_table r1)) r1)) as Hset.
  { intros r1 Hwf1 Hw. constructor; simpl; try apply Hwf1.
    intros p i [[<- ->]|[? Hi]]%lookup_insert_Some; [by apply Hw|by apply (wf_waiting r1 Hwf1)]. }
  assert (wf (set_processes (alter (set_pn_status (Waiting reason)) pid (pr_processes r)) r)) as Hwf1.
  { by destruct Hwf. }
  destruct reason as [id|k|]; try by apply Hset.
  destruct (Hex id eq_refl) as [f Hf]. simpl.
  assert (alter (add_waiter pid) id (pr_futures r) = <[id := add_waiter pid f]> (pr_futures r)) as ->.
  { apply map_eq. intros i. destruct (decide (i = id)) as [->|].
    - by rewrite lookup_alter_eq, lookup_insert_eq, Hf.
    - by rewrite lookup_alter_ne, lookup_insert_ne. }
  apply (Hset (set_futures _ (set_processes _ r))).
  - eapply (wf_update_future id f _ _ Hwf1); [done|..]; unfold add_waiter; case_decide; try done.
    intros p Hp. simpl. apply elem_of_app. by left.
  - intros i [= <-]. simpl. apply (wf_ids r Hwf) in Hf as Hid. split; [tauto|].
    intros g. rewrite lookup_insert_eq. intros [= <-]. unfold add_waiter. case_decide; [done|].
    simpl. apply elem_of_app. right. by apply list_elem_of_singleton.
Qed.

Lemma wf_attach id now timeout cancel r : wf r → wf (attach_future_deadline id now timeout cancel r).
Proof.
  intros Hwf. unfold attach_future_deadline. destruct (pr_futures r !! id) as [f|] eqn:Hf; [|done].
  destruct (is_running f) eqn:Hrun; [|done]. cbn [negb].
  set (d := match fu_deadline_tick f with Some _ => _ | None => _ end).
  set (f' := set_fu_deadline _ _).
  assert (wf (set_futures (<[id := f']> (pr_futures r)) r)) as Hwf1.
  { eapply (wf_update_future id f f'); done. }
  case_decide; [done|]. eapply wf_add_deadline; [done| |].
  - simpl. by rewrite lookup_insert_eq.
  - exact Hrun.
Qed.

Lemma wf_forget id r : wf r → wf (forget_internal_future id r).
Proof.
  intros Hwf. constructor; simpl; try apply Hwf.
  - intros i f [? Hf]%lookup_delete_Some. by apply (wf_ids r Hwf).
  - intros e [He Hne]%elem_of_retain. rewrite lookup_delete_ne by done. by apply (wf_deadlines r Hwf).
  - intros pid i Hi. destruct (wf_waiting r Hwf pid i Hi) as [? Hwait]. split; [done|].
    intros f [_ Hf]%lookup_delete_Some. by apply Hwait.
  - intros k i f Hk [_ Hf]%lookup_delete_Some. by eapply (wf_replies r Hwf).
Qed.

Lemma wf_expire now r : wf r → wf (collect_expired_futures now r).2.
Proof.
  intros Hwf. unfold collect_expired_futures. case_match; [done|].
  pose proof (expire_loop_wf now (pr_deadline_queue r) r Hwf) as Hwf'.
  destruct (expire_loop_spec now (pr_deadline_queue r) r) as (_ & Hre & Hq & _).
  destruct (expire_loop now _ r) as [[ex re] r']. simpl in *. apply wf_set_deadlines; [done|].
  intros e He. rewrite Hq. rewrite Hre, list_elem_of_In in He. apply filter_In in He as [He _].
  by apply list_elem_of_In.
Qed.

Lemma wf_step r r' : wf r → step r r' → wf r'.
Proof.
  intros Hwf Hs. destruct Hs; eauto using wf_allocate, wf_register, wf_mark_waiting, wf_resolve,
    wf_wake, wf_expire, wf_attach, wf_forget.
  - unfold resolve_reply. destruct (pr_reply_table r !! k) as [id|]; [|done]. apply wf_resolve.
    constructor; simpl; try apply Hwf.
    + intros k' i f [_ Hk]%lookup_delete_Some. by apply (wf_replies r Hwf).
    + intros k' i [_ Hk]%lookup_delete_Some. by apply (wf_reply_ids r Hwf).
  - destruct (enqueue_runnable_spec pid r (wf_run_queue r Hwf)) as (Hnd & _ & Heq).
    rewrite Heq. constructor; simpl; apply Hwf || done.
  - constructor; simpl; try apply Hwf. pose proof (wf_run_queue r Hwf) as Hnd.
    rewrite H in Hnd. by apply NoDup_cons in Hnd as [_ ?].
Qed.

(** The runtime before anything happened. *)
Definition initial (specs : ProcessSpecRegistry) : ProcessRuntime C :=
  mkRuntime 0 0 0 0 specs ∅ ∅ ∅ ∅ ∅ ∅ ∅ ∅ [] [] [] ∅ empty_supervision.

Lemma wf_initial specs : wf (initial specs).
Proof. constructor; simpl; intros; try done; try set_solver. constructor. Qed.

(** ** Properties *)

(** C10: in every state the runtime can reach by allocating, awaiting, resolving,
    expiring and forgetting futures, a process that waits for a future is
    registered as its waiter (no wake-up can be missed), only running futures
    have deadlines, a correlation id leads to the future that awaits it, and no
    process is queued to run twice. *)
Theorem reachable_runtime_wf (specs : ProcessSpecRegistry) (r : ProcessRuntime C)
    (Hreach : rtc step (initial specs) r) :
  (∀ pid id f, pr_waiting_table r !! pid = Some (WaitFuture id) → pr_futures r !! id = Some f →
     pid ∈ fu_waiters f) ∧
  (∀ e, e ∈ pr_deadline_queue r → ∃ f, pr_futures r !! de_future_id e = Some f ∧ fu_state f = Running) ∧
  (∀ k id f, pr_reply_table r !! k = Some id → pr_futures r !! id = Some f → fu_correlation_id f = Some k) ∧
  NoDup (pr_run_queue r).
Proof.
  assert (wf r) as Hwf.
  { refine (rtc_ind_r wf (initial specs) (wf_initial specs) _ r Hreach).
    intros r1 r2 _ Hs Hr1. by eapply wf_step. }
  split_and!.
  - intros pid id f Hp Hf. by apply (wf_waiting r Hwf pid id Hp).
  - intros e He. destruct (wf_deadlines r Hwf e He) as (f & Hf & Hrun). exists f. split; [done|].
    unfold is_running in Hrun. by destruct (fu_state f).
  - apply (wf_replies r Hwf).
  - apply (wf_run_queue r Hwf).
Qed.

(** resolving a running future makes its value available, and wakes exactly
    the processes that were waiting for it: they are no longer waiting, are
    runnable and queued.  Its deadlines and its reply entry are gone, every other
    future is untouched, and a later resolution of the same future is ignored. *)
Theorem resolve_wakes_waiters (r : ProcessRuntime C) (id : N) (v v2 : Value) (f : FutureRecord)
    (Hwf : wf r) (Hf : pr_futures r !! id = Some f) (Hrun : fu_state f = Running)
    (Herr : fu_error_generation_pending f = false) :
  let '(woken, r') := resolve_future id v r in
  raw_ready_future_value r' id = Some v ∧
  woken = fu_waiters f ∧
  (∀ pid, pr_waiting_table r !! pid = Some (WaitFuture id) → pid ∈ woken) ∧
  (∀ pid, pid ∈ woken → pr_waiting_table r' !! pid = None ∧
     ∀ p, pr_processes r !! pid = Some p →
       pr_processes r' !! pid = Some (set_pn_status Runnable p) ∧ pid ∈ pr_run_queue r') ∧
  (∀ e, e ∈ pr_deadline_queue r' → de_future_id e ≠ id) ∧
  (∀ k, pr_reply_table r' !! k ≠ Some id) ∧
  (∀ i, i ≠ id → pr_futures r' !! i = pr_futures r !! i) ∧
  resolve_future id v2 r' = ([], r').
Proof.
  assert (is_running f = true) as Hrun' by (unfold is_running; by rewrite Hrun).
  destruct (resolve_future_spec id v r f (wf_run_queue r Hwf) Hf Hrun' Herr) as
    [Hw ((f' & Ef & Hst & Hid & Hws & Hco & Hdl) & Ed & En & Ec & Er & Hnd & Hwt & Hp & Hq)].
  destruct (resolve_future id v r) as [ws r']. simpl in *. subst ws.
  assert (pr_futures r' !! id = Some f') as Hf' by (by rewrite Ef, lookup_insert_eq).
  split_and!.
  - unfold raw_ready_future_value. by rewrite Hf', Hst.
  - done.
  - intros pid Hpid. by apply (wf_waiting r Hwf pid id Hpid).
  - intros pid Hpid. rewrite Hwt, decide_True by done. split; [done|].
    intros p Hpp. rewrite Hp, Hpp, decide_True by done. split; [done|].
    apply Hq. right. split; [done|]. by eexists.
  - intros e He%Ed. tauto.
  - intros k. rewrite Er. case_decide as Hc; [done|]. intros Hk. destruct Hc.
    by eapply (wf_replies r Hwf).
  - intros i Hi. by rewrite Ef, lookup_insert_ne.
  - unfold resolve_future. rewrite Hf'. unfold is_running. by rewrite Hst.
Qed.

(** collecting expired futures at [now] returns, in queue order, exactly the
    running futures that have an entry due by [now], keeps exactly the entries
    that are not due, and leaves the run state of every future unchanged. *)
Theorem collect_expired_exact (r : ProcessRuntime C) (now : N) :
  let '(expired, r') := collect_expired_futures now r in
  expired = de_future_id <$>
    List.filter (λ e, (de_deadline_tick e <=? now)%N && runs r (de_future_id e)) (pr_deadline_queue r) ∧
  pr_deadline_queue r' = List.filter (λ e, negb (de_deadline_tick e <=? now)%N) (pr_deadline_queue r) ∧
  (∀ id, runs r' id = runs r id).
Proof.
  unfold collect_expired_futures.
  destruct (expire_loop_spec now (pr_deadline_queue r) r) as (H1 & H2 & H3 & H4).
  destruct (negb (existsb _ _)) eqn:Hany.
  - apply negb_true_iff in Hany.
    assert (Forall (λ e, (de_deadline_tick e <=? now)%N = false) (pr_deadline_queue r)) as Hall.
    { apply Forall_forall. intros e He. destruct (de_deadline_tick e <=? now)%N eqn:Hd; [|done].
      rewrite <- Hany. symmetry. apply existsb_exists_elem. eauto. }
    clear -Hall. induction Hall as [|e q He _ [IH1 [IH2 _]]]; simpl; [done|].
    rewrite He. simpl. split_and!; [done| |done]. by rewrite <- IH2.
  - destruct (expire_loop now _ r) as [[ex re] r']. simpl in *.
    split_and!; [done..|]. intros id. unfold runs. simpl. by rewrite H4.
Qed.

End proofs.

(** A process that waits for the first future of a fresh runtime. *)
Definition sample_process : ProcessInstance unit :=
  mkProcess 7 0 (mkPid 0 (mkPidIdentity 7 (lit "Worker") PkWorker)) Accepting None Runnable [] None
    None None None false.

Definition sample_specs : ProcessSpecRegistry := mkSpecRegistry [] ∅ ∅ ∅ ∅.

Definition sample_waiting : ProcessRuntime unit :=
  mark_process_waiting 7 (WaitFuture 0)
    (allocate_future (Some 7%N) (Some 50%N) true (initial sample_specs)).2.

Lemma reachable_runtime_wf_witness :
  rtc step (initial (C := unit) sample_specs) sample_waiting ∧ NoDup (pr_run_queue sample_waiting).
Proof.
  assert (rtc step (initial (C := unit) sample_specs) sample_waiting) as Hreach.
  { eapply rtc_l; [apply (step_allocate _ (Some 7%N) (Some 50%N) true)|].
    eapply rtc_l; [apply (step_wait _ 7 (WaitFuture 0))|apply rtc_refl].
    intros id [= <-]. vm_compute. by eexists. }
  split; [exact Hreach|]. apply (reachable_runtime_wf sample_specs sample_waiting Hreach).
Defined.

Lemma resolve_wakes_waiters_witness :
  let r := mark_process_waiting 7 (WaitFuture 0) (set_processes {[ 7%N := sample_process ]}
    (allocate_future (Some 7%N) (Some 50%N) true (initial sample_specs)).2) in
  let '(woken, r') := resolve_future 0 (VInt 5) r in
  raw_ready_future_value r' 0 = Some (VInt 5) ∧ woken = [7%N] ∧ pr_run_queue r' = [7%N].
Proof.
  intros r.
  assert (wf r) as Hwf.
  { apply (wf_step (set_processes {[ 7%N := sample_process ]}
      (allocate_future (Some 7%N) (Some 50%N) true (initial sample_specs)).2)).
    - pose proof (wf_allocate (C := unit) (Some 7%N) (Some 50%N) true _ (wf_initial sample_specs)) as [].
      by constructor.
    - apply (step_wait _ 7 (WaitFuture 0)). intros id [= <-]. vm_compute. by eexists. }
  pose proof (resolve_wakes_waiters r 0 (VInt 5) VUnit _ Hwf eq_refl eq_refl eq_refl) as H.
  destruct (resolve_future 0 (VInt 5) r) as [woken r'] eqn:Heq.
  destruct H as (H1 & H2 & _). split; [exact H1|]. split; [exact H2|].
  vm_compute in Heq. injection Heq as <- <-. reflexivity.
Defined.

End ProcessRuntime.
