(* ===== verification/Machine.v ===== *)
(** * The virtual machine: state and helpers ([crates/eldr/src/vm.rs], [vm/continuation.rs])

    The machine's state, the small monad its methods live in, and the helpers
    that the instructions share: stack and frame access, constants, callable
    metadata, source locations, stack traces, scheduling of callables.

    Grouping: the fields that [VM] and [ExecutionContext] have in common (operand
    stack, frames, breadcrumbs, continuations, pending invocation, cancellation,
    current process and handler bindings) are one record [Exec] here, which a
    context switch moves as a whole.  The developer-facing observer, which only
    counts and prints, is left out. *)

From S2P Require Import Prelude Names ListHandle Value TypeRegistry OperandStack Ir RuntimeError.
From S2P Require Import StringLiteral Display ErrorSchema ProcessRuntime.
Export OperandStack (OperandStack, values).

(** ** Frames *)

Record CallFrame : Type := mkFrame {
  cf_return_pc : nat;
  cf_stack_base : nat;
  cf_call_site : option (N * N);
  cf_trace_frame : option RuntimeStackFrame;
  cf_breadcrumb_base : nat;
  cf_locals : list Value;
}.

Definition set_locals (x : list Value) (f : CallFrame) : CallFrame :=
  mkFrame (cf_return_pc f) (cf_stack_base f) (cf_call_site f) (cf_trace_frame f)
    (cf_breadcrumb_base f) x.
Definition set_call_site (x : option (N * N)) (f : CallFrame) : CallFrame :=
  mkFrame (cf_return_pc f) (cf_stack_base f) x (cf_trace_frame f) (cf_breadcrumb_base f)
    (cf_locals f).
Definition set_trace_frame (x : option RuntimeStackFrame) (f : CallFrame) : CallFrame :=
  mkFrame (cf_return_pc f) (cf_stack_base f) (cf_call_site f) x (cf_breadcrumb_base f)
    (cf_locals f).

Inductive IoMode : Type := Passthrough | Capture | Tee.
Record VmIoPolicy : Type := mkIoPolicy { io_stdout : IoMode; io_stderr : IoMode }.

Inductive ExecutionTarget : Type :=
| TopLevel
| FrameDepth (depth : nat).

Inductive OpcodeControl : Type :=
| Continue
| ControlHalt
| Pending (future_id : N) (resume_pc : nat).

Section state.
(** The continuations of builtins other than the ones the machine itself builds. *)
Context {K : Type}.

(** ** Builtins and continuations *)

Inductive BuiltinContinuation : Type :=
| KCompose (rhs : Callable)
| KIdentity
| KErrorConstruction (kind : str) (location : Location) (stack_trace : list RuntimeStackFrame)
    (wrapper : option N) (after : option K)
| KOther (k : K).

Inductive BuiltinOutcome : Type :=
| OComplete (v : Value)
| OCall (callable : Callable) (args : list Value) (continuation : BuiltinContinuation)
| OResume (continuation : BuiltinContinuation)
| OWait (future_id : N) (continuation : BuiltinContinuation).

Inductive Invocation : Type :=
| InvCallable (callable : Callable) (args : list Value)
| InvBuiltin (outcome : BuiltinOutcome).

Inductive ReturnDestination : Type :=
| DestStack (tail : bool) (previous_site : option (N * N))
    (previous_trace : option RuntimeStackFrame)
| DestBuiltin (continuation : BuiltinContinuation).

Record ContinuationFrame : Type := mkContinuation {
  kf_destination : ReturnDestination;
  kf_frame_depth : nat;
  kf_stack_base : nat;
  kf_resume_pc : nat;
  kf_origin_pc : option nat;
  kf_breadcrumb_base : nat;
  kf_waiting_function : bool;
  kf_waiting_future : option N;
}.

(** ** Contexts and the machine *)

Record Exec : Type := mkExec {
  ex_stack : OperandStack;
  ex_frames : list CallFrame;
  ex_breadcrumbs : list RuntimeStackFrame;
  ex_continuations : list ContinuationFrame;
  ex_pending : option (Result RuntimeError Invocation);
  ex_cancellation : option RuntimeError;
  ex_process : option N;
  ex_bindings : option N;
}.

Record ExecutionContext : Type := mkContext {
  ctx_exec : Exec;
  ctx_pc : nat;
  ctx_target : ExecutionTarget;
}.

Record VM : Type := mkVM {
  vm_bytecode : Bytecode;
  vm_exec : Exec;
  vm_pc : nat;
  vm_source : option str;
  vm_source_file : option str;
  vm_error_output : option (list str);
  vm_io_policy : VmIoPolicy;
  vm_repl_host_stderr : option (list str);
  vm_host_stderr : list str;
  vm_exit_code : Z;
  vm_last_result : option Value;
  vm_runtime : ProcessRuntime ExecutionContext;
}.

Definition set_waiting_function (x : bool) (f : ContinuationFrame) : ContinuationFrame :=
  mkContinuation (kf_destination f) (kf_frame_depth f) (kf_stack_base f) (kf_resume_pc f)
    (kf_origin_pc f) (kf_breadcrumb_base f) x (kf_waiting_future f).
Definition set_waiting_future (x : option N) (f : ContinuationFrame) : ContinuationFrame :=
  mkContinuation (kf_destination f) (kf_frame_depth f) (kf_stack_base f) (kf_resume_pc f)
    (kf_origin_pc f) (kf_breadcrumb_base f) (kf_waiting_function f) x.
Definition set_stack (x : OperandStack) (e : Exec) : Exec :=
  mkExec x (ex_frames e) (ex_breadcrumbs e) (ex_continuations e) (ex_pending e)
    (ex_cancellation e) (ex_process e) (ex_bindings e).
Definition set_frames (x : list CallFrame) (e : Exec) : Exec :=
  mkExec (ex_stack e) x (ex_breadcrumbs e) (ex_continuations e) (ex_pending e)
    (ex_cancellation e) (ex_process e) (ex_bindings e).
Definition set_breadcrumbs (x : list RuntimeStackFrame) (e : Exec) : Exec :=
  mkExec (ex_stack e) (ex_frames e) x (ex_continuations e) (ex_pending e) (ex_cancellation e)
    (ex_process e) (ex_bindings e).
Definition set_continuations (x : list ContinuationFrame) (e : Exec) : Exec :=
  mkExec (ex_stack e) (ex_frames e) (ex_breadcrumbs e) x (ex_pending e) (ex_cancellation e)
    (ex_process e) (ex_bindings e).
Definition set_pending (x : option (Result RuntimeError Invocation)) (e : Exec) : Exec :=
  mkExec (ex_stack e) (ex_frames e) (ex_breadcrumbs e) (ex_continuations e) x
    (ex_cancellation e) (ex_process e) (ex_bindings e).
Definition set_cancellation (x : option RuntimeError) (e : Exec) : Exec :=
  mkExec (ex_stack e) (ex_frames e) (ex_breadcrumbs e) (ex_continuations e) (ex_pending e) x
    (ex_process e) (ex_bindings e).
Definition set_bytecode (x : Bytecode) (vm : VM) : VM :=
  mkVM x (vm_exec vm) (vm_pc vm) (vm_source vm) (vm_source_file vm) (vm_error_output vm)
    (vm_io_policy vm) (vm_repl_host_stderr vm) (vm_host_stderr vm) (vm_exit_code vm)
    (vm_last_result vm) (vm_runtime vm).
Definition set_exec (x : Exec) (vm : VM) : VM :=
  mkVM (vm_bytecode vm) x (vm_pc vm) (vm_source vm) (vm_source_file vm) (vm_error_output vm)
    (vm_io_policy vm) (vm_repl_host_stderr vm) (vm_host_stderr vm) (vm_exit_code vm)
    (vm_last_result vm) (vm_runtime vm).
Definition set_pc (x : nat) (vm : VM) : VM :=
  mkVM (vm_bytecode vm) (vm_exec vm) x (vm_source vm) (vm_source_file vm) (vm_error_output vm)
    (vm_io_policy vm) (vm_repl_host_stderr vm) (vm_host_stderr vm) (vm_exit_code vm)
    (vm_last_result vm) (vm_runtime vm).
Definition set_error_output (x : option (list str)) (vm : VM) : VM :=
  mkVM (vm_bytecode vm) (vm_exec vm) (vm_pc vm) (vm_source vm) (vm_source_file vm) x
    (vm_io_policy vm) (vm_repl_host_stderr vm) (vm_host_stderr vm) (vm_exit_code vm)
    (vm_last_result vm) (vm_runtime vm).
Definition set_repl_host_stderr (x : option (list str)) (vm : VM) : VM :=
  mkVM (vm_bytecode vm) (vm_exec vm) (vm_pc vm) (vm_source vm) (vm_source_file vm)
    (vm_error_output vm) (vm_io_policy vm) x (vm_host_stderr vm) (vm_exit_code vm)
    (vm_last_result vm) (vm_runtime vm).
Definition set_host_stderr (x : list str) (vm : VM) : VM :=
  mkVM (vm_bytecode vm) (vm_exec vm) (vm_pc vm) (vm_source vm) (vm_source_file vm)
    (vm_error_output vm) (vm_io_policy vm) (vm_repl_host_stderr vm) x (vm_exit_code vm)
    (vm_last_result vm) (vm_runtime vm).
Definition set_last_result (x : option Value) (vm : VM) : VM :=
  mkVM (vm_bytecode vm) (vm_exec vm) (vm_pc vm) (vm_source vm) (vm_source_file vm)
    (vm_error_output vm) (vm_io_policy vm) (vm_repl_host_stderr vm) (vm_host_stderr vm)
    (vm_exit_code vm) x (vm_runtime vm).
Definition set_runtime (x : ProcessRuntime ExecutionContext) (vm : VM) : VM :=
  mkVM (vm_bytecode vm) (vm_exec vm) (vm_pc vm) (vm_source vm) (vm_source_file vm)
    (vm_error_output vm) (vm_io_policy vm) (vm_repl_host_stderr vm) (vm_host_stderr vm)
    (vm_exit_code vm) (vm_last_result vm) x.

(** The state [std::mem::take] leaves behind. *)
Definition empty_exec : Exec :=
  mkExec OperandStack.stack_default [] [] [] None None None None.

(** ** The monad of the machine's methods

    A method may change the machine and then fail: the state is returned in every
    case. *)

Definition M (A : Type) : Type := VM → VM * Try RuntimeError A.

Definition ret {A} (a : A) : M A := λ vm, (vm, Ok a).
Definition bindM {A B} (m : M A) (k : A → M B) : M B := λ vm,
  match m vm with
  | (vm', Ok a) => k a vm'
  | (vm', Err e) => (vm', Err e)
  end.
Definition throw {A} (message : str) : M A := λ vm, (vm, fail (RuntimeError.new message)).
Definition liftE {A} (m : Result RuntimeError A) : M A := λ vm, (vm, lift_res m).
Definition liftR {A} (m : Run A) : M A := λ vm, (vm, lift_run m).
Definition gets {A} (f : VM → A) : M A := λ vm, (vm, Ok (f vm)).
Definition modify (f : VM → VM) : M unit := λ vm, (f vm, Ok tt).
Definition modify_exec (f : Exec → Exec) : M unit := modify (λ vm, set_exec (f (vm_exec vm)) vm).
Definition ok_orM {A} (o : option A) (message : str) : M A :=
  match o with Some a => ret a | None => throw message end.

End state.

Arguments BuiltinContinuation : clear implicits.
Arguments BuiltinOutcome : clear implicits.
Arguments Invocation : clear implicits.
Arguments ReturnDestination : clear implicits.
Arguments ContinuationFrame : clear implicits.
Arguments Exec : clear implicits.
Arguments ExecutionContext : clear implicits.
Arguments VM : clear implicits.
Arguments M : clear implicits.

Declare Scope vm_scope.
Delimit Scope vm_scope with vm.
Notation "'let*' x ':=' m 'in' k" := (bindM m (λ x, k))
  (at level 10, x name, m at level 100, k at level 200) : vm_scope.
Notation "'let*' ' p ':=' m 'in' k" := (bindM m (λ x, match x with p => k end))
  (at level 10, p strict pattern, m at level 100, k at level 200) : vm_scope.
Notation "m ;; k" := (bindM m (λ _, k)) : vm_scope.
#[global] Open Scope vm_scope.

(** ** Vectors used as stacks: the top is at the end *)

Definition update_last {A} (f : A → A) (l : list A) : list A := alter f (length l - 1) l.
Definition pop_last {A} (l : list A) : list A := take (length l - 1) l.

(** Text after the last [::] of a path ([rsplit("::").next()]), and
    [rsplit_once("::")]. *)
Fixpoint rsplit_scan (acc rev : str) : option (str * str) :=
  match rev with
  | [] => None
  | 58%N :: ((58%N :: rest) as tail) => Some (reverse rest, acc)
  | c :: rest => rsplit_scan (c :: acc) rest
  end.
Definition rsplit_once (s : str) : option (str * str) := rsplit_scan [] (reverse s).
Definition last_segment (s : str) : str :=
  match rsplit_once s with Some (_, tail) => tail | None => s end.

Definition split_qualified_name_owned (qualified_name : str) : option str * option str :=
  match rsplit_once qualified_name with
  | Some ((_ :: _) as module, name) => (Some module, Some name)
  | _ =>
      match qualified_name with
      | [] => (None, None)
      | _ => (Some (lit "<local>"), Some qualified_name)
      end
  end.

(** [line_column_for_offset] of [ir.rs]: both are one-based. *)
Definition line_column_for_offset (source : str) (offset : nat) : N * N :=
  let limit := offset `min` length source in
  foldl (λ '(line, column) ch,
    if decide (ch = c_newline) then ((line + 1)%N, 1%N) else (line, (column + 1)%N))
    (1%N, 1%N) (take limit source).

(** The developer-facing rendering of [Dbg]: inspecting a value, and the report
    around it ([builtin.rs], [dbg_display.rs]). *)
Class DbgReporter (K : Type) : Type := {
  inspect_value : VM K → Value → Result RuntimeError str;
  render_dbg_report : str → str → DbgTemplate → list (N * N * str) → str;
}.

Module Machine.

Definition MAX_TAIL_CALL_TRACE_BREADCRUMBS : nat := 32.

Section machine.
Context {K : Type} `{RustFmt} `{BuiltinTable}.
Implicit Types (vm : VM K).

Definition stack vm : OperandStack := ex_stack (vm_exec vm).
Definition frames vm : list CallFrame := ex_frames (vm_exec vm).
Definition registry vm : TypeRegistry := type_registry (vm_bytecode vm).

(** ** Stack and frames *)

Definition push_value (v : Value) : M K unit :=
  modify_exec (λ e, set_stack (OperandStack.push v (ex_stack e)) e).

Definition pop_stack : M K Value := λ vm,
  match OperandStack.pop (stack vm) with
  | Some (v, s) => (set_exec (set_stack s (vm_exec vm)) vm, Ok v)
  | None => (vm, fail (RuntimeError.new (lit "Stack underflow")))
  end.

(** [for _ in 0..n { elems.push(pop()?) }; elems.reverse()]. *)
Fixpoint pop_many (n : nat) (popped : list Value) : M K (list Value) :=
  match n with
  | O => ret popped
  | S n' => let* v := pop_stack in pop_many n' (v :: popped)
  end.

Definition current_frame : M K CallFrame := λ vm,
  (vm, lift_res (ok_or (last (frames vm)) (RuntimeError.new (lit "Frame stack underflow")))).

(** [current_frame_mut], as an update of the frame it returns. *)
Definition update_frame (f : CallFrame → CallFrame) : M K unit :=
  let* _ := current_frame in modify_exec (λ e, set_frames (update_last f (ex_frames e)) e).

Definition pop_int : M K Z :=
  let* v := pop_stack in
  match v with VInt n => ret n | other => throw (lit "Expected Int, got " ++ debug_value other) end.
Definition pop_tag : M K N :=
  let* v := pop_stack in
  match v with VTag t => ret t | other => throw (lit "Expected Tag, got " ++ debug_value other) end.
Definition pop_float : M K f64 :=
  let* v := pop_stack in
  match v with
  | VFloat f => if is_finite f then ret f else throw (lit "Expected finite Float")
  | other => throw (lit "Expected Float, got " ++ debug_value other)
  end.
Definition pop_str : M K str :=
  let* v := pop_stack in
  match v with VStr s => ret s | other => throw (lit "Expected Str, got " ++ debug_value other) end.
Definition pop_bool : M K bool :=
  let* v := pop_stack in
  match v with VBool b => ret b | other => throw (lit "Expected Bool, got " ++ debug_value other) end.

Definition int_binop (f : Z → Z → Value) : M K unit :=
  let* b := pop_int in let* a := pop_int in push_value (f a b).

Definition finite_float_value (value : f64) (op_name : str) : Result RuntimeError Value :=
  if is_finite value then Ok (VFloat value)
  else if decide (op_name = lit "LoadConst") then
    Err (RuntimeError.new (lit "Float constants must be finite"))
  else Err (RuntimeError.new (lit "Float operation produced non-finite value: " ++ op_name)).

Definition float_binop (op_name : str) (f : f64 → f64 → f64) : M K unit :=
  let* b := pop_float in
  let* a := pop_float in
  let* v := liftE (finite_float_value (f a b) op_name) in
  push_value v.

Definition float_predicate (f : f64 → f64 → bool) : M K unit :=
  let* b := pop_float in let* a := pop_float in push_value (VBool (f a b)).

(** ** Constants, functions, jump targets *)

Definition constant_value (bc : Bytecode) (idx : N) : Result RuntimeError Value :=
  let? constant := ok_or (constants bc !! N.to_nat idx)
    (RuntimeError.new (lit "LoadConst index out of bounds: " ++ fmt_N idx)) in
  match constant with
  | CInt n => Ok (VInt n)
  | CTag tag => Ok (VTag tag)
  | CFloat f => finite_float_value f (lit "LoadConst")
  | CStr s => Ok (VStr s)
  | CBool b => Ok (VBool b)
  | CUnit => Ok VUnit
  | CErrorKind kind =>
      if existsb (λ t, bool_decide (et_kind t = kind)) (error_templates bc) then Ok (VErrorKind kind)
      else Err (RuntimeError.new (lit "LoadConst: unknown ErrorKind identity " ++ kind))
  end.

Definition constant_tag (bc : Bytecode) (idx : N) : Result RuntimeError N :=
  let? v := constant_value bc idx in
  match v with
  | VTag tag => Ok tag
  | other => Err (RuntimeError.new (lit "Expected Tag, got " ++ debug_value other))
  end.

Definition function_entry (bc : Bytecode) (fun_idx : N) : Result RuntimeError FunctionEntry :=
  let? entry := ok_or (functions bc !! N.to_nat fun_idx)
    (RuntimeError.new (lit "Unknown function index: " ++ fmt_N fun_idx)) in
  if decide (fe_fun_idx entry = fun_idx) then Ok entry
  else Err (RuntimeError.new (lit "Function table invariant violated: functions["
              ++ fmt_N fun_idx ++ lit "].fun_idx = " ++ fmt_N (fe_fun_idx entry))).

Definition validate_jump_target (bc : Bytecode) (addr : N) : Result RuntimeError nat :=
  if decide (length (opcodes bc) ≤ N.to_nat addr) then
    Err (RuntimeError.new (lit "Invalid jump target: " ++ fmt_N addr))
  else Ok (N.to_nat addr).

Definition build_locals_for_call (entry : FunctionEntry) (args : list Value) :
    Result RuntimeError (list Value) :=
  let num_locals := N.to_nat (fe_num_locals entry) in
  if decide (num_locals < length args) then
    Err (RuntimeError.new (lit "Function " ++ fmt_N (fe_fun_idx entry) ++ lit " requires at least "
           ++ fmt_nat (length args) ++ lit " local slots, got " ++ fmt_nat num_locals))
  else Ok (args ++ replicate (num_locals - length args) VUnit).

Definition validate_match_result_representation (r : TypeRegistry) (tag : N) (fields : list Value) :
    Result RuntimeError unit :=
  match TypeRegistry.lookup r tag with
  | None => Ok tt
  | Some entry =>
      match match_result_variant_meta (te_name entry) with
      | None => Ok tt
      | Some meta =>
          if negb (bool_decide (te_kind entry = TkEnumVariant))
             || negb (bool_decide (length fields = 2))
             || negb (is_int_value (head fields) (vm_discriminant meta))
             || vm_carries_error meta
                && negb (match fields !! 1 with Some (VError _) => true | _ => false end)
          then Err (RuntimeError.new (lit "Invalid MatchResult representation for " ++ vm_qualified_name meta))
          else Ok tt
      end
  end.

Definition local_tag (local_idx : N) (op_name : str) : M K N :=
  let* frame := current_frame in
  let* v := ok_orM (cf_locals frame !! N.to_nat local_idx)
              (op_name ++ lit " local out of bounds: " ++ fmt_N local_idx) in
  match v with
  | VTagged tag fields =>
      let* r := gets registry in
      liftE (validate_match_result_representation r tag fields) ;; ret tag
  | _ => throw (lit "GetTag on non-tagged value")
  end.

(** ** Callable metadata *)

Definition is_function_doc (doc : DocEntry) : bool := bool_decide (dc_kind doc = DocFunction).

Definition callable_metadata_for_builtin (bc : Bytecode) (builtin_id : N) : CallableMetadata :=
  match builtin_meta_by_id builtin_id with
  | None => default_metadata
  | Some meta =>
      let doc := find (λ d, bool_decide (last_segment (dc_qualified_name d) = bm_name meta)
                            && is_function_doc d) (reverse (docs bc)) in
      mkMetadata OriginCapture (dc_module_path <$> doc) (Some (bm_name meta))
        (match doc with
         | Some d => match dc_signature d with Some s => Some s | None => Some (bm_sig_str meta) end
         | None => Some (bm_sig_str meta)
         end) None None
  end.

Definition callable_metadata_for_function (bc : Bytecode) (fun_idx : N) : CallableMetadata :=
  match functions bc !! N.to_nat fun_idx with
  | None => default_metadata
  | Some entry =>
      if ff_closure (fe_flags entry) then
        match fe_qualified_name entry, fe_signature entry with
        | Some qualified_name, Some signature =>
            let '(module, name) := split_qualified_name_owned qualified_name in
            mkMetadata OriginCapture module name (Some signature) None None
        | _, signature => mkMetadata OriginClosure None None signature None None
        end
      else
        let signature :=
          match fe_signature entry with
          | Some s => Some s
          | None =>
              match fe_qualified_name entry with
              | Some qualified_name =>
                  match find (λ d, is_function_doc d && bool_decide (dc_qualified_name d = qualified_name))
                          (reverse (docs bc)) with
                  | Some d => dc_signature d
                  | None => None
                  end
              | None => None
              end
          end in
        let '(module, name) := match fe_qualified_name entry with
                               | Some n => split_qualified_name_owned n
                               | None => (None, None)
                               end in
        mkMetadata (match signature with Some _ => OriginCapture | None => OriginUnknown end)
          module name signature None None
  end.

Definition callable_for_function (bc : Bytecode) (fun_idx : N) : Callable :=
  mkCallable (CtFunction fun_idx) [] (callable_metadata_for_function bc fun_idx).

Definition callable_template (bc : Bytecode) (template_id : N) : Result RuntimeError CallableTemplate :=
  ok_or (find (λ t, bool_decide (ct_template_id t = template_id)) (callable_templates bc))
    (RuntimeError.new (lit "Unknown callable template: " ++ fmt_N template_id)).

Definition callable_metadata_for_template (bc : Bytecode) (template_id : N) : CallableMetadata :=
  match callable_template bc template_id with
  | Ok t =>
      let m := ct_metadata t in
      mkMetadata (ctm_origin m) (ctm_module m) (ctm_name m) (ctm_full_signature m) None None
  | Err _ => default_metadata
  end.

(** ** Source locations and stack traces *)

Definition location_for_span vm (span_start span_end : N) (func : str) : option Location :=
  match decode_module_source_span span_start span_end with
  | Some (source_id, start, end_) =>
      match find (λ s, bool_decide (sr_source_id s = source_id)) (sources (vm_bytecode vm)) with
      | None => Some (mkLocation (lit "<source:" ++ fmt_N source_id ++ lit ">") func 0 0 span_start span_end)
      | Some entry =>
          if bool_decide (start ≤ u32_max)%N && bool_decide (end_ ≤ u32_max)%N then
            let '(line, column) := match sr_text entry with
                                   | Some text => line_column_for_offset text (N.to_nat start)
                                   | None => (0%N, 0%N)
                                   end in
            Some (mkLocation (from_option id (sr_path entry) (sr_normalized_path entry)) func
                    line column start end_)
          else None
      end
  | None =>
      let '(line, column) := match vm_source vm with
                             | Some text => line_column_for_offset text (N.to_nat span_start)
                             | None => (0%N, 0%N)
                             end in
      Some (mkLocation (from_option id (lit "<runtime>") (vm_source_file vm)) func
              line column span_start span_end)
  end.

Definition runtime_error_location vm : option Location :=
  match last (frames vm) with
  | Some frame =>
      match cf_call_site frame with
      | Some (s, e) => location_for_span vm s e (lit "<runtime>")
      | None => None
      end
  | None => None
  end.

(** The snapshot walks the frames from the newest, each followed by the
    breadcrumbs that tail calls left in it, newest first. *)
Fixpoint trace_frames (rev_frames : list CallFrame) (crumbs : list RuntimeStackFrame) (upper : nat) :
    list RuntimeStackFrame :=
  match rev_frames with
  | [] => []
  | frame :: rest =>
      let start := cf_breadcrumb_base frame `min` upper in
      match cf_trace_frame frame with Some t => [t] | None => [] end
      ++ reverse (slice crumbs start upper) ++ trace_frames rest crumbs start
  end.

Definition current_stack_trace_snapshot vm : list RuntimeStackFrame :=
  let crumbs := ex_breadcrumbs (vm_exec vm) in
  trace_frames (reverse (frames vm)) crumbs (length crumbs).

Definition stack_trace_snapshot_without_head_function vm (function : str) : list RuntimeStackFrame :=
  let trace := current_stack_trace_snapshot vm in
  match trace with
  | frame :: rest =>
      if decide (last_segment <$> sf_function frame = Some (last_segment function)) then rest else trace
  | [] => trace
  end.

Definition function_trace_name (entry : FunctionEntry) : str :=
  match last_segment <$> fe_qualified_name entry with
  | Some ((_ :: _) as name) => name
  | _ => lit "fun#" ++ fmt_N (fe_fun_idx entry)
  end.

Definition trace_frame_for_call vm (entry : FunctionEntry) (kind : RuntimeCallKind)
    (span_start span_end : N) (tco : bool) : RuntimeStackFrame :=
  let function := function_trace_name entry in
  mkStackFrame PhaseRuntime (Some function) (Some (fe_fun_idx entry)) kind
    (location_for_span vm span_start span_end function) None tco.

Definition trace_frame_for_builtin vm (name : str) (span_start span_end : N) : RuntimeStackFrame :=
  mkStackFrame PhaseRuntime (Some name) None CkBuiltin
    (location_for_span vm span_start span_end name) None false.

Definition trace_frame_for_callable_template vm (template_id span_start span_end : N) : RuntimeStackFrame :=
  let function :=
    match callable_template (vm_bytecode vm) template_id with
    | Ok t => from_option id (lit "template#" ++ fmt_N template_id) (ctm_name (ct_metadata t))
    | Err _ => lit "template#" ++ fmt_N template_id
    end in
  mkStackFrame PhaseRuntime (Some function) None CallableTemplateCall
    (location_for_span vm span_start span_end function) None false.

Definition mark_tco (f : RuntimeStackFrame) : RuntimeStackFrame :=
  mkStackFrame (sf_phase f) (sf_function f) (sf_fun_idx f) (sf_call_kind f) (sf_location f) (sf_process f) true.

Definition record_tail_call_breadcrumb : M K unit := modify_exec (λ e,
  match last (ex_frames e) with
  | Some frame =>
      match cf_trace_frame frame with
      | Some t =>
          let crumbs := ex_breadcrumbs e in
          let kept := if decide (MAX_TAIL_CALL_TRACE_BREADCRUMBS ≤ length crumbs) then drop 1 crumbs else crumbs in
          set_breadcrumbs (kept ++ [mark_tco t]) e
      | None => e
      end
  | None => e
  end).

(** [max_by_key(|entry| entry.entry_pc)] over the functions that start at or
    before [pc]: the last of the maximal ones. *)
Definition enclosing_function (bc : Bytecode) (pc : nat) : option FunctionEntry :=
  foldl (λ best entry,
    match best with
    | Some b => if decide (fe_entry_pc b ≤ fe_entry_pc entry)%N then Some entry else best
    | None => Some entry
    end) None (List.filter (λ entry, bool_decide (N.to_nat (fe_entry_pc entry) ≤ pc)) (functions bc)).

(** [opcode] is the debug form of the instruction. *)
Definition runtime_error_context vm (pc : nat) (opcode : str) : RuntimeErrorContext :=
  mkErrorContext (Some pc) (Some opcode)
    ((λ entry, lit "fun#" ++ fmt_N (fe_fun_idx entry)) <$> enclosing_function (vm_bytecode vm) pc)
    (runtime_error_location vm)
    ([lit "stack_depth=" ++ fmt_nat (length (values (stack vm)));
      lit "frame_depth=" ++ fmt_nat (length (frames vm))]
     ++ match last (frames vm) with
        | Some frame => [lit "locals_len=" ++ fmt_nat (length (cf_locals frame));
                         lit "stack_base=" ++ fmt_nat (cf_stack_base frame)]
        | None => []
        end
     ++ match last (values (stack vm)) with
        | Some top => [lit "stack_top=" ++ debug_value top]
        | None => []
        end)
    (current_stack_trace_snapshot vm).

Definition or_else {A} (a b : option A) : option A := match a with Some _ => a | None => b end.

Definition enrich_runtime_error vm (err : RuntimeError) (pc : nat) (opcode : str) : RuntimeError :=
  let c := runtime_error_context vm pc opcode in
  let ec := re_context err in
  mkRuntimeError (re_message err)
    (mkErrorContext (or_else (rec_pc ec) (rec_pc c)) (or_else (rec_opcode ec) (rec_opcode c))
       (or_else (rec_function ec) (rec_function c)) (or_else (rec_call_site ec) (rec_call_site c))
       (rec_details c ++ rec_details ec)
       (match rec_stack_trace ec with [] => rec_stack_trace c | trace => trace end)).

(** ** Standard error *)

Definition emit_host_stderr_line (line : str) vm : VM K :=
  match vm_repl_host_stderr vm with
  | Some buffer => set_repl_host_stderr (Some (buffer ++ [line])) vm
  | None => set_host_stderr (vm_host_stderr vm ++ [line]) vm
  end.

Definition push_error_output (line : str) vm : VM K :=
  match vm_error_output vm with
  | Some buffer => set_error_output (Some (buffer ++ [line])) vm
  | None => vm
  end.

Definition emit_stderr_line (line : str) vm : VM K :=
  let rt := vm_runtime vm in
  let vm1 := set_runtime (set_output_events (pr_output_events rt ++ [EvStdErr (line ++ [c_newline])]) rt) vm in
  match io_stderr (vm_io_policy vm1) with
  | Passthrough => emit_host_stderr_line line vm1
  | Capture =>
      match vm_error_output vm1 with
      | Some _ => push_error_output line vm1
      | None => emit_host_stderr_line line vm1
      end
  | Tee => push_error_output line (emit_host_stderr_line line vm1)
  end.

(** [str::lines]: split at newlines, without the carriage return before one and
    without an empty last line. *)
Definition strip_return (line : str) : str :=
  match last line with
  | Some c => if decide (c = c_return) then pop_last line else line
  | None => line
  end.
Fixpoint split_lines (line : str) (s : str) : list str :=
  match s with
  | [] => match line with [] => [] | _ => [line] end
  | c :: s' => if decide (c = c_newline) then strip_return line :: split_lines [] s' else split_lines (line ++ [c]) s'
  end.
Definition lines_of (s : str) : list str := split_lines [] s.

(** ** Scheduling, futures, returning *)

Definition schedule_invocation (invocation : Invocation K) (resume_pc : nat) (tail : bool)
    (site : option (N * N)) (trace : option RuntimeStackFrame) : M K unit :=
  let* frame := current_frame in
  update_frame (λ f, set_trace_frame trace (set_call_site site f)) ;;
  modify (λ vm,
    let e := vm_exec vm in
    let k := mkContinuation (DestStack tail (cf_call_site frame) (cf_trace_frame frame))
               (length (ex_frames e)) (length (values (ex_stack e))) resume_pc (Some (vm_pc vm))
               (length (ex_breadcrumbs e)) false None in
    set_exec (set_pending (Some (Ok invocation)) (set_continuations (ex_continuations e ++ [k]) e)) vm).

Definition schedule_callable (callable : Callable) (args : list Value) (resume_pc : nat) (tail : bool)
    (site : option (N * N)) (trace : option RuntimeStackFrame) : M K unit :=
  schedule_invocation (InvCallable callable args) resume_pc tail site trace.

Definition release_internal_process_future (future : N) vm : VM K :=
  match ex_process (vm_exec vm) with
  | None => vm
  | Some id =>
      let rt := vm_runtime vm in
      match pr_executions rt !! id with
      | None => vm
      | Some record =>
          if decide (future ∈ pe_internal_futures record) then
            let record' := mkExecution (pe_pid record) (pe_parent record) (pe_stage record) (pe_stored record)
                             (pe_initial_state record) (pe_result_future record)
                             (List.filter (λ i, negb (bool_decide (i = future))) (pe_internal_futures record))
                             (pe_origin record) in
            set_runtime (ProcessRuntime.forget_internal_future future
                           (set_executions (<[id := record']> (pr_executions rt)) rt)) vm
          else vm
      end
  end.

Definition load_local_or_pending (slot : N) (resume_pc : nat) : M K OpcodeControl :=
  let* frame := current_frame in
  let* value := ok_orM (cf_locals frame !! N.to_nat slot) (lit "LoadLocal out of bounds: " ++ fmt_N slot) in
  match value with
  | VPendingFuture future_id =>
      let* resolved := gets (λ vm, ProcessRuntime.ready_future_value (vm_runtime vm) future_id) in
      match resolved with
      | Some v =>
          update_frame (λ f, set_locals (<[N.to_nat slot := v]> (cf_locals f)) f) ;;
          modify (release_internal_process_future future_id) ;;
          push_value v ;; ret Continue
      | None => ret (Pending future_id resume_pc)
      end
  | v => push_value v ;; ret Continue
  end.

Definition can_optimize_tail_call vm (next_pc : nat) : bool :=
  bool_decide (1 < length (frames vm))
  && match opcodes (vm_bytecode vm) !! next_pc with Some Return => true | _ => false end.

Definition reuse_current_frame_for_call (locals : list Value) (call_site : option (N * N)) : M K unit :=
  update_frame (λ f, set_call_site call_site (set_locals locals f)).

(** Returns the program counter to continue at. *)
Definition return_from_current_frame (ret_value : Value) : M K nat :=
  let* fs := gets frames in
  if decide (length fs = 1) then throw (lit "Return at top-level")
  else
    match last fs with
    | None => throw (lit "Return with empty frame stack")
    | Some frame =>
        modify_exec (λ e,
          set_stack (OperandStack.push ret_value (OperandStack.truncate (cf_stack_base frame) (ex_stack e)))
            (set_breadcrumbs (take (cf_breadcrumb_base frame) (ex_breadcrumbs e))
               (set_frames (pop_last (ex_frames e)) e))) ;;
        ret (cf_return_pc frame)
    end.

Definition error_construction_source vm : option (N * N) :=
  match find (λ k, match kf_destination k with
                   | DestBuiltin (KErrorConstruction _ _ _ _ _) => true
                   | _ => false
                   end) (reverse (ex_continuations (vm_exec vm))) with
  | Some k =>
      match kf_destination k with
      | DestBuiltin (KErrorConstruction _ location _ _ _) => Some (loc_span_start location, loc_span_end location)
      | _ => None
      end
  | None => None
  end.

End machine.

End Machine.
