(* ===== verification/Opcodes.v ===== *)
(** * The instruction set ([VM::execute_opcode] in [crates/eldr/src/vm.rs])

    One definition per group of instructions, and [execute_opcode], which
    dispatches to them.  An instruction receives the address of the next one and
    returns the address to continue at, together with what the driver loop has to
    do; [self.pc] still holds the address of the instruction itself. *)

From S2P Require Import Prelude Names ListHandle Value TypeRegistry OperandStack Ir RuntimeError.
From S2P Require Import StringLiteral Display ErrorSchema ProcessRuntime Machine.

Module Opcodes.
Import Machine.

Section opcodes.
Context {K : Type} `{RustFmt} `{BuiltinTable} `{DbgReporter K}.
(** Fuel for the recursive checks on values: their nesting depth is enough. *)
Context (depth : nat).
Implicit Types (vm : VM K) (pc : nat).

Abbreviation Control := (OpcodeControl * nat)%type.

Definition continue_at pc : M K Control := ret (Continue, pc).
Definition bytecode : M K Bytecode := gets vm_bytecode.

(** ** Constants, references, locals *)

Definition store_local (slot : N) (v : Value) (op_name : str) : M K unit :=
  let* frame := current_frame in
  if decide (N.to_nat slot < length (cf_locals frame)) then
    update_frame (λ f, set_locals (<[N.to_nat slot := v]> (cf_locals f)) f)
  else throw (op_name ++ fmt_N slot).

Definition exec_data (op : Opcode) pc : M K Control :=
  let* bc := bytecode in
  match op with
  | Halt => ret (ControlHalt, pc)
  | Reserved56 => throw (lit "Reserved opcode tag 56 cannot execute")
  | LoadConst idx => let* v := liftE (constant_value bc idx) in push_value v ;; continue_at pc
  | LoadBuiltinRef id =>
      push_value (VCallable (mkCallable (CtBuiltin id) [] (callable_metadata_for_builtin bc id))) ;;
      continue_at pc
  | LoadFunctionRef fun_idx =>
      push_value (VCallable (mkCallable (CtFunction fun_idx) [] (callable_metadata_for_function bc fun_idx))) ;;
      continue_at pc
  | LoadCallableTemplateRef id =>
      push_value (VCallable (mkCallable (CtTemplate id) [] (callable_metadata_for_template bc id))) ;;
      continue_at pc
  | LoadLocal slot => let* c := load_local_or_pending slot (pc - 1) in ret (c, pc)
  | StoreLocal slot =>
      let* v := pop_stack in store_local slot v (lit "StoreLocal out of bounds: ") ;; continue_at pc
  | StoreConstLocal const_idx local_idx =>
      let* v := liftE (constant_value bc const_idx) in
      store_local local_idx v (lit "StoreConstLocal out of bounds: ") ;; continue_at pc
  | CopyLocal src dst =>
      let* frame := current_frame in
      let* v := ok_orM (cf_locals frame !! N.to_nat src)
                  (lit "CopyLocal source out of bounds: " ++ fmt_N src) in
      store_local dst v (lit "CopyLocal destination out of bounds: ") ;; continue_at pc
  | Pop => pop_stack ;; continue_at pc
  | _ => liftR (Err PUnreachable)
  end.

(** ** Arithmetic and comparison *)

Definition exec_numeric (op : Opcode) pc : M K Control :=
  match op with
  | AddInt => int_binop (λ a b, VInt (a + b)) ;; continue_at pc
  | SubInt => int_binop (λ a b, VInt (a - b)) ;; continue_at pc
  | MulInt => int_binop (λ a b, VInt (a * b)) ;; continue_at pc
  | BitNotInt => let* a := pop_int in push_value (VInt (Z.lnot a)) ;; continue_at pc
  | BitAndInt => int_binop (λ a b, VInt (Z.land a b)) ;; continue_at pc
  | BitOrInt => int_binop (λ a b, VInt (Z.lor a b)) ;; continue_at pc
  | BitXorInt => int_binop (λ a b, VInt (Z.lxor a b)) ;; continue_at pc
  | AddFloat => float_binop (lit "AddFloat") f64_add ;; continue_at pc
  | SubFloat => float_binop (lit "SubFloat") f64_sub ;; continue_at pc
  | MulFloat => float_binop (lit "MulFloat") f64_mul ;; continue_at pc
  | EqInt => int_binop (λ a b, VBool (bool_decide (a = b))) ;; continue_at pc
  | NeqInt => int_binop (λ a b, VBool (bool_decide (a ≠ b))) ;; continue_at pc
  | LtInt => int_binop (λ a b, VBool (a <? b)%Z) ;; continue_at pc
  | GtInt => int_binop (λ a b, VBool (b <? a)%Z) ;; continue_at pc
  | LteInt => int_binop (λ a b, VBool (a <=? b)%Z) ;; continue_at pc
  | GteInt => int_binop (λ a b, VBool (b <=? a)%Z) ;; continue_at pc
  | EqFloat => float_predicate f64_eq ;; continue_at pc
  | NeqFloat => float_predicate (λ a b, negb (f64_eq a b)) ;; continue_at pc
  | LtFloat => float_predicate f64_lt ;; continue_at pc
  | GtFloat => float_predicate (λ a b, f64_lt b a) ;; continue_at pc
  | LteFloat => float_predicate f64_le ;; continue_at pc
  | GteFloat => float_predicate (λ a b, f64_le b a) ;; continue_at pc
  | NegInt => let* a := pop_int in push_value (VInt (- a)) ;; continue_at pc
  | NegFloat =>
      let* a := pop_float in
      let* v := liftE (finite_float_value (f64_neg a) (lit "NegFloat")) in
      push_value v ;; continue_at pc
  | NotBool => let* a := pop_bool in push_value (VBool (negb a)) ;; continue_at pc
  | EqBool => let* b := pop_bool in let* a := pop_bool in push_value (VBool (Bool.eqb a b)) ;; continue_at pc
  | NeqBool => let* b := pop_bool in let* a := pop_bool in push_value (VBool (xorb a b)) ;; continue_at pc
  | _ => liftR (Err PUnreachable)
  end.

(** ** Processes *)

(** The checks on each operand of [EqPid]. *)
Definition check_pid (rt : ProcessRuntime (ExecutionContext K)) (pid : PidIdentity) : Result RuntimeError unit :=
  let? spec := ok_or (ProcessRuntime.spec_by_process_name rt (pi_process_name pid))
    (RuntimeError.new (lit "EqPid received an unregistered process PID")) in
  let expected := match rp_instance spec with SingletonInstance => PkSingleton | WorkerInstance => PkWorker end in
  if bool_decide (rp_type_name spec = pi_process_name pid) && bool_decide (expected = pi_kind pid) then Ok tt
  else Err (RuntimeError.new (lit "EqPid process identity does not match canonical declaration")).

Definition eq_pid (rt : ProcessRuntime (ExecutionContext K)) (left right : PidIdentity) :
    Result RuntimeError bool :=
  let? _ := for_each (check_pid rt) [left; right] in
  if bool_decide (pi_process_name left = pi_process_name right) && bool_decide (pi_kind left = pi_kind right) then
    match pi_kind left with
    | PkSingleton => Ok true
    | PkWorker => Ok (bool_decide (pi_id left = pi_id right))
    | PkHandler => Err (RuntimeError.new (lit "EqPid received handler capability"))
    end
  else Err (RuntimeError.new (lit "EqPid received PIDs of different process types")).

Definition exec_eq_pid pc : M K Control :=
  let* right := pop_stack in
  let* left := pop_stack in
  match left, right with
  | VPid l, VPid r =>
      let* rt := gets vm_runtime in
      let* equal := liftE (eq_pid rt (pid_identity l) (pid_identity r)) in
      push_value (VBool equal) ;; continue_at pc
  | _, _ => throw (lit "EqPid requires two PID values")
  end.

(** ** Strings *)

Definition exec_text (op : Opcode) pc : M K Control :=
  match op with
  | EqStr => let* b := pop_str in let* a := pop_str in push_value (VBool (bool_decide (a = b))) ;; continue_at pc
  | NeqStr => let* b := pop_str in let* a := pop_str in push_value (VBool (bool_decide (a ≠ b))) ;; continue_at pc
  | ConcatStr => let* b := pop_str in let* a := pop_str in push_value (VStr (a ++ b)) ;; continue_at pc
  | StringLen => let* v := pop_str in push_value (VInt (Z.of_nat (length v))) ;; continue_at pc
  | StringContains =>
      let* needle := pop_str in let* v := pop_str in push_value (VBool (str_contains v needle)) ;; continue_at pc
  | StringStartsWith =>
      let* p := pop_str in let* v := pop_str in push_value (VBool (starts_with v p)) ;; continue_at pc
  | StringEndsWith =>
      let* p := pop_str in let* v := pop_str in push_value (VBool (ends_with v p)) ;; continue_at pc
  | StringIsEmpty => let* v := pop_str in push_value (VBool (bool_decide (v = []))) ;; continue_at pc
  | StringHead =>
      let* v := pop_str in
      match v with
      | c :: _ => push_value (VStr [c]) ;; continue_at pc
      | [] => throw (lit "StringHead on empty string")
      end
  | StringTail =>
      let* v := pop_str in
      match v with
      | _ :: rest => push_value (VStr rest) ;; continue_at pc
      | [] => throw (lit "StringTail on empty string")
      end
  | _ => liftR (Err PUnreachable)
  end.

(** ** Lists and tuples *)

Definition pop_list (op_name : str) : M K (ListHandle Value) :=
  let* v := pop_stack in
  match v with
  | VList handle => ret handle
  | other => throw (op_name ++ lit " expects List, got " ++ debug_value other)
  end.

Definition exec_list (op : Opcode) pc : M K Control :=
  match op with
  | ListEmpty | ListNil => push_value (VList ListHandle.empty) ;; continue_at pc
  | ListCons =>
      let* tail := pop_stack in
      let* head := pop_stack in
      match tail with
      | VList handle => let* l := liftR (ListHandle.cons head handle) in push_value (VList l) ;; continue_at pc
      | other => throw (lit "ListCons expects list tail, got " ++ debug_value other)
      end
  | ListIsEmpty => let* h := pop_list (lit "ListIsEmpty") in push_value (VBool (ListHandle.is_empty h)) ;; continue_at pc
  | ListLen => let* h := pop_list (lit "ListLen") in push_value (VInt (Z.of_nat (ListHandle.len h))) ;; continue_at pc
  | ListHead =>
      let* h := pop_list (lit "ListHead") in
      let* o := liftR (ListHandle.head_value h) in
      let* v := ok_orM o (lit "ListHead on empty list") in
      push_value v ;; continue_at pc
  | ListTail =>
      let* h := pop_list (lit "ListTail") in
      let* o := liftR (ListHandle.tail_handle h) in
      let* t := ok_orM o (lit "ListTail on empty list") in
      push_value (VList t) ;; continue_at pc
  | ListFromItems len =>
      let* elems := pop_many (N.to_nat len) [] in
      let* l := liftR (ListHandle.from_items elems) in
      push_value (VList l) ;; continue_at pc
  | TupleNew len => let* elems := pop_many (N.to_nat len) [] in push_value (VTuple elems) ;; continue_at pc
  | GetTupleField field_index =>
      let* v := pop_stack in
      match v with
      | VTuple items =>
          let* field := ok_orM (items !! N.to_nat field_index)
                          (lit "Tuple index " ++ fmt_N field_index ++ lit " out of bounds") in
          push_value field ;; continue_at pc
      | other => throw (lit "GetTupleField expects Tuple, got " ++ debug_value other)
      end
  | _ => liftR (Err PUnreachable)
  end.

(** ** Tagged values *)

Definition exec_tagged (op : Opcode) pc : M K Control :=
  let* bc := bytecode in
  let valid tag fields := liftE (validate_match_result_representation (type_registry bc) tag fields) in
  match op with
  | StructNew field_count =>
      let* fields := pop_many (N.to_nat field_count) [] in
      let* tag_val := pop_stack in
      match tag_val with
      | VTag tag => push_value (VTagged tag fields) ;; continue_at pc
      | other => throw (lit "StructNew: expected Tag, got " ++ debug_value other)
      end
  | GetField field_index =>
      let* v := pop_stack in
      match v with
      | VTagged tag fields =>
          valid tag fields ;;
          let* field := ok_orM (fields !! N.to_nat field_index)
                          (lit "Field index " ++ fmt_N field_index ++ lit " out of bounds") in
          push_value field ;; continue_at pc
      | _ => throw (lit "GetField on non-tagged value")
      end
  | GetTag =>
      let* v := pop_stack in
      match v with
      | VTagged tag fields => valid tag fields ;; push_value (VTag tag) ;; continue_at pc
      | _ => throw (lit "GetTag on non-tagged value")
      end
  | EqTag => let* b := pop_tag in let* a := pop_tag in push_value (VBool (bool_decide (a = b))) ;; continue_at pc
  | MakeOk => let* payload := pop_stack in push_value (VTagged 0 [payload]) ;; continue_at pc
  | MakeErr =>
      let* payload := pop_stack in
      match payload with
      | VError _ => push_value (VTagged 1 [payload]) ;; continue_at pc
      | other => throw (lit "MakeErr: expected Error, got " ++ debug_value other)
      end
  | EqLocalTag local_idx tag_const_idx =>
      let* expected := liftE (constant_tag bc tag_const_idx) in
      let* actual := local_tag local_idx (lit "EqLocalTag") in
      push_value (VBool (bool_decide (actual = expected))) ;; continue_at pc
  | JumpIfLocalTagEq local_idx tag_const_idx target_pc =>
      let* expected := liftE (constant_tag bc tag_const_idx) in
      let* actual := local_tag local_idx (lit "JumpIfLocalTagEq") in
      if decide (actual = expected) then let* t := liftE (validate_jump_target bc target_pc) in continue_at t
      else continue_at pc
  | JumpIfLocalTagNe local_idx tag_const_idx target_pc =>
      let* expected := liftE (constant_tag bc tag_const_idx) in
      let* actual := local_tag local_idx (lit "JumpIfLocalTagNe") in
      if decide (actual ≠ expected) then let* t := liftE (validate_jump_target bc target_pc) in continue_at t
      else continue_at pc
  | _ => liftR (Err PUnreachable)
  end.

(** ** Debug output *)

(** Resolves the spans of a template against the source that owns them. *)
Definition decode_dbg_arg (source_id : N) (arg : DbgArgTemplate) : Result RuntimeError DbgArgTemplate :=
  let? '(arg_source_id, start, end_) :=
    ok_or (decode_module_source_span (da_span_start arg) (da_span_end arg))
      (RuntimeError.new (lit "dbg argument has no encoded source")) in
  if decide (arg_source_id = source_id) then
    Ok (mkDbgArg (as_u32 (N.to_nat start)) (as_u32 (N.to_nat end_)) (da_ty_name arg))
  else Err (RuntimeError.new (lit "dbg argument source differs from its expression")).

Definition render_dbg_output vm (template_id : N) (vals : list Value) : Result RuntimeError str :=
  let bc := vm_bytecode vm in
  let? template := ok_or (find (λ t, bool_decide (dt_id t = template_id)) (dbg_templates bc))
    (RuntimeError.new (lit "dbg template " ++ fmt_N template_id ++ lit " not found")) in
  if decide (length (dt_args template) = length vals) then
    let? '(file, source, template) :=
      match decode_module_source_span (dt_span_start template) (dt_span_end template) with
      | Some (source_id, start, end_) =>
          let? entry := ok_or (find (λ s, bool_decide (sr_source_id s = source_id)) (sources bc))
            (RuntimeError.new (lit "dbg source " ++ fmt_N source_id ++ lit " not found")) in
          let? source := ok_or (sr_text entry)
            (RuntimeError.new (lit "dbg source " ++ fmt_N source_id ++ lit " has no text")) in
          let? args := map_result (decode_dbg_arg source_id) (dt_args template) in
          Ok (from_option id (sr_path entry) (sr_normalized_path entry), source,
              mkDbgTemplate (dt_id template) (as_u32 (N.to_nat start)) (as_u32 (N.to_nat end_))
                (dt_source_name template) args)
      | None =>
          Ok (from_option id (lit "<unknown>") (or_else (dt_source_name template) (vm_source_file vm)),
              from_option id [] (vm_source vm), template)
      end in
    let? args := map_result (λ '(arg, v),
      let? shown := inspect_value vm v in
      Ok (da_span_start arg, da_span_end arg, da_ty_name arg ++ lit ": " ++ shown))
      (zip (dt_args template) vals) in
    Ok (render_dbg_report file source template args)
  else Err (RuntimeError.new (lit "dbg arg count mismatch: template has "
              ++ fmt_nat (length (dt_args template)) ++ lit ", runtime has " ++ fmt_nat (length vals))).

Definition exec_dbg (template_id arg_count : N) pc : M K Control :=
  let* vals := pop_many (N.to_nat arg_count) [] in
  let* vm := gets (λ vm, vm) in
  let* rendered := liftE (render_dbg_output vm template_id vals) in
  modify (λ vm, foldl (λ vm line, emit_stderr_line line vm) vm (lines_of rendered)) ;;
  push_value VUnit ;; continue_at pc.

(** ** Calls *)

Definition builtin_name (id : N) : str :=
  match builtin_meta_by_id id with Some meta => bm_name meta | None => lit "<unknown>" end.

Definition arity_mismatch (fun_idx expected : N) (got : nat) : str :=
  lit "Call arity mismatch for function " ++ fmt_N fun_idx ++ lit ": expected " ++ fmt_N expected
  ++ lit ", got " ++ fmt_nat got.

Definition entry_out_of_bounds (fun_idx entry_pc : N) : str :=
  lit "Function " ++ fmt_N fun_idx ++ lit " entry_pc out of bounds: " ++ fmt_N entry_pc.

(** Enter [entry] in the current frame, which is lost except for a breadcrumb. *)
Definition enter_tail_call (entry : FunctionEntry) (kind : RuntimeCallKind) (locals : list Value)
    (span_start span_end : N) : M K unit :=
  let* trace := gets (λ vm, trace_frame_for_call vm entry kind span_start span_end true) in
  record_tail_call_breadcrumb ;;
  reuse_current_frame_for_call locals (Some (span_start, span_end)) ;;
  update_frame (set_trace_frame (Some trace)).

(** Enter [entry] in a new frame that returns to [pc]. *)
Definition enter_call (entry : FunctionEntry) (kind : RuntimeCallKind) (locals : list Value)
    (span_start span_end : N) pc : M K unit :=
  let* trace := gets (λ vm, trace_frame_for_call vm entry kind span_start span_end false) in
  modify_exec (λ e, set_frames (ex_frames e ++
    [mkFrame pc (length (values (ex_stack e))) (Some (span_start, span_end)) (Some trace)
       (length (ex_breadcrumbs e)) locals]) e).

Definition exec_call_builtin (builtin_id arity span_start span_end : N) pc : M K Control :=
  let* args := pop_many (N.to_nat arity) [] in
  let* trace := gets (λ vm, trace_frame_for_builtin vm (builtin_name builtin_id) span_start span_end) in
  schedule_callable (mkCallable (CtBuiltin builtin_id) [] default_metadata) args pc false
    (Some (span_start, span_end)) (Some trace) ;;
  continue_at pc.

Definition exec_call (fun_idx arity span_start span_end : N) pc : M K Control :=
  let* bc := bytecode in
  let* entry := liftE (function_entry bc fun_idx) in
  if decide (fe_arity entry = arity) then
    let* args := pop_many (N.to_nat arity) [] in
    if decide (length (opcodes bc) ≤ N.to_nat (fe_entry_pc entry)) then
      throw (entry_out_of_bounds fun_idx (fe_entry_pc entry))
    else
      let* locals := liftE (build_locals_for_call entry args) in
      let* tail_call := gets (λ vm, can_optimize_tail_call vm pc) in
      (if tail_call then enter_tail_call entry DirectFunction locals span_start span_end
       else enter_call entry DirectFunction locals span_start span_end pc) ;;
      continue_at (N.to_nat (fe_entry_pc entry))
  else throw (arity_mismatch fun_idx (fe_arity entry) (N.to_nat arity)).

Definition pop_callable : M K Callable :=
  let* v := pop_stack in
  match v with
  | VCallable c => ret c
  | _ => throw (lit "CallClosure expects a callable value")
  end.

(** The [Function] case of the two closure calls; [tail] says whether the frame
    is reused. *)
Definition call_closure_function (fun_idx : N) (full_args : list Value) (span_start span_end : N)
    (always_tail : bool) pc : M K Control :=
  let* bc := bytecode in
  let* entry := liftE (function_entry bc fun_idx) in
  if decide (N.to_nat (fe_arity entry) = length full_args) then
    if decide (length (opcodes bc) ≤ N.to_nat (fe_entry_pc entry)) then
      throw (entry_out_of_bounds fun_idx (fe_entry_pc entry))
    else
      let* locals := liftE (build_locals_for_call entry full_args) in
      let* tail_call := gets (λ vm, always_tail || can_optimize_tail_call vm pc) in
      (if tail_call then enter_tail_call entry ClosureFunction locals span_start span_end
       else enter_call entry ClosureFunction locals span_start span_end pc) ;;
      continue_at (N.to_nat (fe_entry_pc entry))
  else throw (arity_mismatch fun_idx (fe_arity entry) (length full_args)).

Definition exec_call_closure (tail : bool) (arity span_start span_end : N) pc : M K Control :=
  let* args := pop_many (N.to_nat arity) [] in
  let* callable := pop_callable in
  let captures := call_captures callable in
  let site := Some (span_start, span_end) in
  match call_target callable with
  | CtBuiltin id =>
      let* trace := gets (λ vm, trace_frame_for_builtin vm (builtin_name id) span_start span_end) in
      schedule_callable (mkCallable (CtBuiltin id) captures default_metadata) args pc tail site (Some trace) ;;
      continue_at pc
  | CtFunction fun_idx => call_closure_function fun_idx (captures ++ args) span_start span_end tail pc
  | CtTemplate id =>
      let* trace := gets (λ vm, trace_frame_for_callable_template vm id span_start span_end) in
      schedule_callable (mkCallable (CtTemplate id) captures default_metadata) args pc tail site (Some trace) ;;
      continue_at pc
  end.

(** ** Errors *)

Definition accepts_all (r : TypeRegistry) (fields : list (str * ErrorValueSchema)) (payload : list Value) :
    Run bool :=
  ErrorSchema.all_run (λ '(field, v), ErrorSchema.accepts r (3 * depth + 3) field.2 v) (zip fields payload).

Definition exec_make_error (template_id : N) pc : M K Control :=
  let* bc := bytecode in
  let* template := ok_orM (error_templates bc !! N.to_nat template_id)
                     (lit "Unknown Error schema " ++ fmt_N template_id) in
  let* payload := pop_many (length (et_payload_fields template)) [] in
  let* ok := liftR (accepts_all (type_registry bc) (et_payload_fields template) payload) in
  if ok then
    let* m := pop_stack in
    match m with
    | VStr message =>
        let* frame := current_frame in
        let* source := gets error_construction_source in
        let* '(span_start, span_end) := ok_orM (or_else (cf_call_site frame) source)
                                          (lit "Error constructor has no generation source span") in
        let* loc := gets (λ vm, location_for_span vm span_start span_end (et_kind template)) in
        let* location := ok_orM loc (lit "Error generation source span is invalid") in
        let* trace := gets (λ vm, stack_trace_snapshot_without_head_function vm (et_kind template)) in
        push_value (VError (mkRichError (et_kind template) message payload location None None trace)) ;;
        continue_at pc
    | _ => throw (lit "Error construction expects String message")
    end
  else throw (lit "Error payload contract mismatch for " ++ et_kind template).

Definition pop_error (message : str) : M K RichError :=
  let* v := pop_stack in
  match v with VError e => ret e | _ => throw message end.

Definition exec_get_error_payload (kind : str) (field_index payload_len : N) pc : M K Control :=
  let* error := pop_error (lit "Error payload access requires Error") in
  let payload := err_payload error in
  if bool_decide (err_kind error = kind) && bool_decide (length payload = N.to_nat payload_len) then
    let* bc := bytecode in
    let* definition := ok_orM (find (λ t, bool_decide (et_kind t = kind)) (error_templates bc))
                         (lit "Error payload declaration metadata missing") in
    let fields := et_payload_fields definition in
    let* ok := if decide (length fields = length payload)
               then liftR (accepts_all (type_registry bc) fields payload) else ret false in
    if (ok : bool) then
      let* v := ok_orM (payload !! N.to_nat field_index) (lit "Error payload field index out of range") in
      push_value v ;; continue_at pc
    else throw (lit "Error payload type contract mismatch")
  else throw (lit "Error payload identity or length contract mismatch").

(** The messages of [ValueDisplayError]. *)
Definition display_error_message (e : TypeRegistry.ValueDisplayError) : str :=
  match e with
  | TypeRegistry.UnknownRuntimeTag tag => lit "unknown runtime tag: " ++ fmt_N tag
  | TypeRegistry.InvalidPayload tag expected got =>
      lit "invalid runtime payload for tag " ++ fmt_N tag ++ lit ": expected " ++ fmt_nat expected
      ++ lit " fields, got " ++ fmt_nat got
  | TypeRegistry.InvalidDiscriminant tag => lit "invalid enum discriminant for tag " ++ fmt_N tag
  end.

Definition display_value (r : TypeRegistry) (v : Value) : Try RuntimeError str :=
  match Display.to_display_string r depth v with
  | Ok s => Ok s
  | Err (Panicked p) => Err (Panicked p)
  | Err (Failed e) => fail (RuntimeError.new (display_error_message e))
  end.

Definition exec_annotate_error (diagnostic : RuntimeErrorDiagnosticTemplate) pc : M K Control :=
  let* error := pop_error (lit "Error diagnostic annotation requires Error") in
  let* d :=
    match diagnostic with
    | TplLiteralPatternMismatch lhs =>
        let* actual := ok_orM (err_payload error !! 1) (lit "literal Error payload is missing actual value") in
        let* r := gets registry in
        let* rhs := (λ vm, (vm, display_value r actual)) in
        ret (LiteralPatternMismatch lhs rhs)
    | TplSafeBindPatternFailure rule input_source => ret (SafeBindPatternFailure rule input_source)
    end in
  push_value (VError (with_diagnostic error d)) ;; continue_at pc.

Definition exec_error (op : Opcode) pc : M K Control :=
  match op with
  | MakeError template_id => exec_make_error template_id pc
  | IsErrorKind kind =>
      let* error := pop_error (lit "Error kind check requires Error") in
      push_value (VBool (bool_decide (err_kind error = kind))) ;; continue_at pc
  | GetErrorPayload kind field_index payload_len => exec_get_error_payload kind field_index payload_len pc
  | AnnotateError diagnostic => exec_annotate_error diagnostic pc
  | RuntimeContractViolation message => throw message
  | _ => liftR (Err PUnreachable)
  end.

(** ** Callables *)

Definition set_metadata (f : CallableMetadata → CallableMetadata) (c : Callable) : Callable :=
  mkCallable (call_target c) (call_captures c) (f (call_metadata c)).

(** Changes the metadata of the callable on top of the stack. *)
Definition update_top_callable (message : str) (f : Callable → M K Callable) : M K unit :=
  let* vm := gets (λ vm, vm) in
  match OperandStack.last_callable (stack vm) with
  | Some c =>
      let* c' := f c in
      modify_exec (λ e, set_stack (OperandStack.set_last_callable c' (ex_stack e)) e)
  | None => throw message
  end.

Definition exec_callable (op : Opcode) pc : M K Control :=
  match op with
  | CaptureClosure num_captured =>
      let* captures := pop_many (N.to_nat num_captured) [] in
      let* target := pop_stack in
      match target with
      | VCallable c =>
          push_value (VCallable (mkCallable (call_target c) (call_captures c ++ captures) (call_metadata c))) ;;
          continue_at pc
      | _ => throw (lit "CaptureClosure expects a callable target")
      end
  | SetCallableSignature signature =>
      update_top_callable (lit "SetCallableSignature expects a callable on the stack") (λ c,
        ret (set_metadata (λ m, mkMetadata (cm_origin m) (cm_module m) (cm_name m) (Some signature)
                                  (cm_origin_source m) (cm_delegate_function m)) c)) ;;
      continue_at pc
  | SetCallableOriginSource capture_index =>
      update_top_callable (lit "SetCallableOriginSource expects a callable on the stack") (λ c,
        match call_captures c !! N.to_nat capture_index with
        | Some (VCallable _) =>
            ret (set_metadata (λ m, mkMetadata (cm_origin m) (cm_module m) (cm_name m) (cm_full_signature m)
                                      (Some (N.to_nat capture_index)) (cm_delegate_function m)) c)
        | _ => throw (lit "SetCallableOriginSource capture index " ++ fmt_N capture_index
                      ++ lit " is not a callable")
        end) ;;
      continue_at pc
  | SetCallableDelegateFunction function_index =>
      update_top_callable (lit "SetCallableDelegateFunction expects a callable on the stack") (λ c,
        ret (set_metadata (λ m, mkMetadata (cm_origin m) (cm_module m) (cm_name m) (cm_full_signature m)
                                  (cm_origin_source m) (Some function_index)) c)) ;;
      continue_at pc
  | _ => liftR (Err PUnreachable)
  end.

(** ** Control flow *)

Definition branch_if (op_name : str) (on : bool) (addr : N) pc : M K Control :=
  let* v := pop_stack in
  match v with
  | VBool b =>
      if Bool.eqb b on then
        let* bc := bytecode in let* t := liftE (validate_jump_target bc addr) in continue_at t
      else continue_at pc
  | _ => throw (op_name ++ lit ": expected Bool")
  end.

Definition exec_control (op : Opcode) pc : M K Control :=
  match op with
  | Jump addr => let* bc := bytecode in let* t := liftE (validate_jump_target bc addr) in continue_at t
  | JumpIfFalse addr => branch_if (lit "JumpIfFalse") false addr pc
  | JumpIfTrue addr => branch_if (lit "JumpIfTrue") true addr pc
  | Return => let* v := pop_stack in let* t := return_from_current_frame v in continue_at t
  | _ => liftR (Err PUnreachable)
  end.

(** ** Dispatch *)

Definition execute_opcode (op : Opcode) pc : M K Control :=
  match op with
  | Halt | Reserved56 | LoadConst _ | LoadBuiltinRef _ | LoadFunctionRef _ | LoadCallableTemplateRef _
  | LoadLocal _ | StoreLocal _ | StoreConstLocal _ _ | CopyLocal _ _ | Pop => exec_data op pc
  | AddInt | SubInt | MulInt | BitNotInt | BitAndInt | BitOrInt | BitXorInt | AddFloat | SubFloat
  | MulFloat | EqInt | NeqInt | LtInt | GtInt | LteInt | GteInt | EqFloat | NeqFloat | LtFloat
  | GtFloat | LteFloat | GteFloat | NegInt | NegFloat | NotBool | EqBool | NeqBool => exec_numeric op pc
  | EqPid => exec_eq_pid pc
  | EqStr | NeqStr | ConcatStr | StringLen | StringContains | StringStartsWith | StringEndsWith
  | StringIsEmpty | StringHead | StringTail => exec_text op pc
  | ListEmpty | ListNil | ListCons | ListIsEmpty | ListLen | ListHead | ListTail | ListFromItems _
  | TupleNew _ | GetTupleField _ => exec_list op pc
  | StructNew _ | GetField _ | GetTag | EqTag | MakeOk | MakeErr | EqLocalTag _ _
  | JumpIfLocalTagEq _ _ _ | JumpIfLocalTagNe _ _ _ => exec_tagged op pc
  | Dbg template_id arg_count => exec_dbg template_id arg_count pc
  | CallBuiltin id arity s e => exec_call_builtin id arity s e pc
  | Call fun_idx arity s e => exec_call fun_idx arity s e pc
  | CallClosure arity s e => exec_call_closure false arity s e pc
  | TailCallClosure arity s e => exec_call_closure true arity s e pc
  | MakeError _ | IsErrorKind _ | GetErrorPayload _ _ _ | AnnotateError _
  | RuntimeContractViolation _ => exec_error op pc
  | CaptureClosure _ | SetCallableSignature _ | SetCallableOriginSource _
  | SetCallableDelegateFunction _ => exec_callable op pc
  | Jump _ | JumpIfFalse _ | JumpIfTrue _ | Return => exec_control op pc
  end.

End opcodes.

End Opcodes.
