(* ===== verification/Frames.v ===== *)
(** * Instructions and frames

    A triple for the machine's monad, [keeps], which says that a computation
    leaves the code, the program counter, the call frames and the continuations
    alone, and its proof for every instruction that neither enters nor leaves a
    function. *)

From S2P Require Import Prelude Names ListHandle Value TypeRegistry OperandStack Ir RuntimeError.
From S2P Require Import StringLiteral Display ErrorSchema ProcessRuntime Machine Opcodes.

(** The lemmas on helpers that [keeps_go] applies before it unfolds anything. *)
Create HintDb keeps discriminated.
#[export] Hint Constants Opaque : keeps.

Module Frames.
Import Machine Opcodes.

Section frames.
Context {K : Type} `{RustFmt} `{BuiltinTable} `{DbgReporter K}.
Implicit Types (vm : VM K).

(** ** What an instruction may do to the frames *)

(** The part of a frame that decides where execution returns to. *)
Definition anchor (f : CallFrame) : nat * nat * nat := (cf_return_pc f, cf_stack_base f, cf_breadcrumb_base f).
Definition anchors vm : list (nat * nat * nat) := anchor <$> frames vm.

(** The code, the program counter and the anchors of all frames are unchanged,
    and no continuation was added. *)
Definition same_frames vm vm' : Prop :=
  vm_bytecode vm' = vm_bytecode vm ∧ vm_pc vm' = vm_pc vm ∧ anchors vm' = anchors vm ∧
  ex_continuations (vm_exec vm') = ex_continuations (vm_exec vm) ∧
  ex_pending (vm_exec vm') = ex_pending (vm_exec vm).

Lemma same_frames_refl vm : same_frames vm vm.
Proof. done. Qed.
Lemma same_frames_trans vm1 vm2 vm3 : same_frames vm1 vm2 → same_frames vm2 vm3 → same_frames vm1 vm3.
Proof. intros (?&?&?&?&?) (?&?&?&?&?). unfold same_frames. split_and!; congruence. Qed.

(** In a machine that runs [bc], [m] leaves the frames alone whatever happens,
    and a result satisfies [Q]. *)
Definition keeps (bc : Bytecode) {A} (m : M K A) (Q : A → Prop) : Prop :=
  ∀ vm, vm_bytecode vm = bc → same_frames vm (m vm).1 ∧ ∀ a, (m vm).2 = Ok a → Q a.

Context (bc : Bytecode).

Lemma keeps_seq {A B} (m : M K A) (k : A → M K B) (P : A → Prop) (Q : B → Prop) :
  keeps bc m P → (∀ a, P a → keeps bc (k a) Q) → keeps bc (bindM m k) Q.
Proof.
  intros Hm Hk vm Hvm. unfold bindM. destruct (Hm vm Hvm) as [Hr Hq].
  destruct (m vm) as [vm1 [a|e]]; simpl in *; [|done].
  destruct (Hk a (Hq a eq_refl) vm1) as [Hr' Hq'].
  - destruct Hr as (Hbc & _). congruence.
  - split; [by eapply same_frames_trans|done].
Qed.

(** Sequencing when the intermediate result does not matter. *)
Lemma keeps_then {A B} (m : M K A) (k : A → M K B) (Q : B → Prop) :
  keeps bc m (λ _, True) → (∀ a, keeps bc (k a) Q) → keeps bc (bindM m k) Q.
Proof. intros Hm Hk. eapply keeps_seq; eauto. Qed.

Lemma keeps_ret {A} (a : A) (Q : A → Prop) : Q a → keeps bc (ret a) Q.
Proof. intros Ha vm _. split; [done|]. simpl. by intros ? [= <-]. Qed.

Lemma keeps_throw {A} s (Q : A → Prop) : keeps bc (throw s) Q.
Proof. by intros vm _. Qed.

Lemma keeps_liftE {A} (m : Result RuntimeError A) (Q : A → Prop) :
  (∀ a, m = Ok a → Q a) → keeps bc (liftE m) Q.
Proof. intros Hm vm _. split; [done|]. simpl. intros a Ha%map_err_Ok. by apply Hm. Qed.

Lemma keeps_liftR {A} (m : Run A) (Q : A → Prop) : (∀ a, m = Ok a → Q a) → keeps bc (liftR m) Q.
Proof. intros Hm vm _. split; [done|]. simpl. intros a Ha%map_err_Ok. by apply Hm. Qed.

Lemma keeps_ok_or {A} (o : option A) s (Q : A → Prop) : (∀ a, o = Some a → Q a) → keeps bc (ok_orM o s) Q.
Proof. intros Ho. destruct o; simpl; [by apply keeps_ret, Ho|apply keeps_throw]. Qed.

Lemma keeps_gets {A} (f : VM K → A) (Q : A → Prop) :
  (∀ vm, vm_bytecode vm = bc → Q (f vm)) → keeps bc (gets f) Q.
Proof. intros Hf vm Hvm. split; [done|]. simpl. intros ? [= <-]. auto. Qed.

Lemma keeps_modify (f : VM K → VM K) (Q : unit → Prop) :
  Q tt → (∀ vm, same_frames vm (f vm)) → keeps bc (modify f) Q.
Proof. intros HQ Hf vm _. split; [apply Hf|]. simpl. by intros [] _. Qed.

Lemma keeps_push v (Q : unit → Prop) : Q tt → keeps bc (push_value v) Q.
Proof. intros HQ. by apply keeps_modify. Qed.

Lemma keeps_pop (Q : Value → Prop) : (∀ v, Q v) → keeps bc pop_stack Q.
Proof.
  intros HQ vm _. unfold pop_stack. destruct (OperandStack.pop (stack vm)) as [[v s]|]; simpl; (split; [done|]).
  - intros a [= <-]. apply HQ.
  - done.
Qed.

Lemma keeps_pop_many n l (Q : list Value → Prop) : (∀ vs, Q vs) → keeps bc (pop_many n l) Q.
Proof.
  intros HQ. revert l. induction n as [|n IH]; intros l; simpl; [by apply keeps_ret|].
  apply keeps_then; [by apply keeps_pop|]. intros v. apply IH.
Qed.

Lemma keeps_frame (Q : CallFrame → Prop) : (∀ f, Q f) → keeps bc current_frame Q.
Proof. intros HQ vm _. by split. Qed.

Lemma fmap_update_last {A B} (g : A → B) (f : A → A) l :
  (∀ x, g (f x) = g x) → g <$> update_last f l = g <$> l.
Proof.
  intros Hg. unfold update_last. apply list_eq. intros i. rewrite !list_lookup_fmap.
  destruct (decide (i = length l - 1)) as [->|].
  - rewrite list_lookup_alter_eq. destruct (l !! _); simpl; by rewrite ?Hg.
  - by rewrite list_lookup_alter_ne.
Qed.

Lemma keeps_update_frame f (Q : unit → Prop) :
  Q tt → (∀ x, anchor (f x) = anchor x) → keeps bc (update_frame f) Q.
Proof.
  intros HQ Hf. unfold update_frame. apply keeps_then; [by apply keeps_frame|].
  intros _. apply keeps_modify; [done|]. intros vm. split_and!; [done..| |done|done].
  by apply fmap_update_last.
Qed.

Lemma keeps_display r v (Q : str → Prop) d :
  (∀ s, Q s) → keeps bc (λ vm, (vm, display_value d r v)) Q.
Proof. intros HQ vm _. by split. Qed.

(** ** Where an instruction may continue *)

Definition target_ok (pc : nat) (c : OpcodeControl * nat) : Prop :=
  c.2 = pc ∨ c.2 < length (opcodes bc).

Lemma keeps_continue pc : keeps bc (continue_at pc) (target_ok pc).
Proof. apply keeps_ret. by left. Qed.

Lemma keeps_jump pc addr : keeps bc (let* t := liftE (validate_jump_target bc addr) in continue_at t) (target_ok pc).
Proof.
  apply (keeps_seq _ _ (λ t, t < length (opcodes bc))).
  - apply keeps_liftE. unfold validate_jump_target. intros t. case_decide; [done|]. intros [= <-]. lia.
  - intros t Ht. apply keeps_ret. by right.
Qed.

Lemma keeps_bytecode {B} (k : Bytecode → M K B) (Q : B → Prop) :
  keeps bc (k bc) Q → keeps bc (let* b := bytecode in k b) Q.
Proof.
  intros Hk. apply (keeps_seq _ _ (λ b, b = bc)); [by apply keeps_gets|]. by intros b ->.
Qed.

(** Walks through an instruction, one monadic step at a time. *)
Ltac keeps_go := repeat first
  [ lazymatch goal with |- ∀ _, _ => intro end
  | solve [auto with keeps nocore]
  | apply keeps_continue | apply keeps_jump | apply keeps_throw
  | apply keeps_display; done
  | apply keeps_bytecode
  | apply keeps_push; done | apply keeps_pop; done | apply keeps_pop_many; done | apply keeps_frame; done
  | apply keeps_liftE; done | apply keeps_liftR; done | apply keeps_ok_or; done | apply keeps_gets; done
  | apply keeps_update_frame; [done|done]
  | apply keeps_modify; [done|done]
  | apply keeps_ret; solve [done | by left]
  | apply keeps_then
  | progress case_match
  | progress case_decide ].

Lemma keeps_store_local slot v s : keeps bc (store_local slot v s) (λ _, True).
Proof. unfold store_local. keeps_go. Qed.

Lemma release_future_frames id vm : same_frames vm (release_internal_process_future id vm).
Proof. unfold release_internal_process_future. by repeat case_match. Qed.

Lemma keeps_load_local slot pc : keeps bc (load_local_or_pending slot pc) (λ _, True).
Proof.
  unfold load_local_or_pending. keeps_go. apply keeps_modify; [done|]. intros. apply release_future_frames.
Qed.

#[local] Hint Resolve keeps_store_local keeps_load_local : keeps.

Lemma keeps_local_tag i s : keeps bc (local_tag i s) (λ _, True).
Proof. unfold local_tag. keeps_go. Qed.

#[local] Hint Resolve keeps_local_tag : keeps.

Lemma keeps_data op pc : keeps bc (exec_data op pc) (target_ok pc).
Proof.
  unfold exec_data. apply keeps_bytecode. destruct op; keeps_go.
Qed.

Lemma keeps_int_binop f : keeps bc (int_binop f) (λ _, True).
Proof. unfold int_binop, pop_int. keeps_go. Qed.
Lemma keeps_float_binop s f : keeps bc (float_binop s f) (λ _, True).
Proof. unfold float_binop, pop_float. keeps_go. Qed.
Lemma keeps_float_predicate f : keeps bc (float_predicate f) (λ _, True).
Proof. unfold float_predicate, pop_float. keeps_go. Qed.

#[local] Hint Resolve keeps_int_binop keeps_float_binop keeps_float_predicate : keeps.

Lemma keeps_numeric op pc : keeps bc (exec_numeric op pc) (target_ok pc).
Proof.
  unfold exec_numeric, pop_int, pop_float, pop_bool. destruct op; keeps_go.
Qed.

Lemma keeps_eq_pid pc : keeps bc (exec_eq_pid pc) (target_ok pc).
Proof. unfold exec_eq_pid. keeps_go. Qed.

Lemma keeps_text op pc : keeps bc (exec_text op pc) (target_ok pc).
Proof. unfold exec_text, pop_str. destruct op; keeps_go. Qed.

Lemma keeps_list op pc : keeps bc (exec_list op pc) (target_ok pc).
Proof. unfold exec_list, pop_list. destruct op; keeps_go. Qed.

Lemma keeps_tagged op pc : keeps bc (exec_tagged op pc) (target_ok pc).
Proof. unfold exec_tagged, pop_tag. destruct op; keeps_go. Qed.

Lemma keeps_error d op pc : keeps bc (exec_error d op pc) (target_ok pc).
Proof.
  unfold exec_error, exec_make_error, exec_get_error_payload, exec_annotate_error, pop_error.
  destruct op; keeps_go.
Qed.

Lemma keeps_pop_list s : keeps bc (pop_list s) (λ _, True).
Proof. unfold pop_list. keeps_go. Qed.

Lemma keeps_pop_callable : keeps bc pop_callable (λ _, True).
Proof. unfold pop_callable. keeps_go. Qed.

Lemma emit_stderr_frames line vm : same_frames vm (emit_stderr_line line vm).
Proof.
  unfold emit_stderr_line, push_error_output, emit_host_stderr_line. by repeat (case_match; simpl).
Qed.

Lemma keeps_dbg i n pc : keeps bc (exec_dbg i n pc) (target_ok pc).
Proof.
  unfold exec_dbg. keeps_go. apply keeps_modify; [done|]. intros vm.
  generalize (lines_of a1) as ls. intros ls. revert vm. induction ls as [|line ls IH]; intros vm; simpl.
  - apply same_frames_refl.
  - eapply same_frames_trans; [apply emit_stderr_frames|apply IH].
Qed.

Lemma keeps_update_top s f :
  (∀ c, keeps bc (f c) (λ _, True)) → keeps bc (update_top_callable s f) (λ _, True).
Proof. intros Hf. unfold update_top_callable. keeps_go. Qed.

Lemma keeps_callable op pc : keeps bc (exec_callable op pc) (target_ok pc).
Proof. unfold exec_callable. destruct op; keeps_go. all: apply keeps_update_top; keeps_go. Qed.

Lemma keeps_control op pc : op ≠ Return → keeps bc (exec_control op pc) (target_ok pc).
Proof. intros Hop. unfold exec_control, branch_if. destruct op; first [done|keeps_go]. Qed.

(** ** Entering and leaving functions *)

Lemma keeps_enter_tail_call entry kind locals s e :
  keeps bc (enter_tail_call entry kind locals s e) (λ _, True).
Proof.
  unfold enter_tail_call, record_tail_call_breadcrumb, reuse_current_frame_for_call, modify_exec.
  keeps_go. apply keeps_modify; [done|]. intros vm. by repeat case_match.
Qed.

End frames.

End Frames.
