(* ===== verification/VmProps.v ===== *)
(** * Properties of the instructions

    The control machine that every instruction implements, the invariant of the
    frame stack, and the functional behaviour of the instructions that carry the
    language's semantics: calls, tail calls, closures and errors. *)

From S2P Require Import Prelude Names ListHandle Value TypeRegistry OperandStack Ir RuntimeError.
From S2P Require Import StringLiteral Display ErrorSchema ProcessRuntime Machine Opcodes Frames.

Module VmProps.
Import Machine Opcodes Frames.

Section control.
Context {K : Type} `{RustFmt} `{BuiltinTable} `{DbgReporter K}.
Context (depth : nat).
Implicit Types (vm : VM K) (pc : nat).

(** ** The control machine

    What an instruction may do to the program counter, the frames and the
    continuations; everything else is data. *)

Definition enters (op : Opcode) : bool :=
  match op with Call _ _ _ _ | CallClosure _ _ _ => true | _ => false end.
Definition schedules (op : Opcode) : bool :=
  match op with CallBuiltin _ _ _ _ | CallClosure _ _ _ | TailCallClosure _ _ _ => true | _ => false end.

Inductive control_step (op : Opcode) pc vm vm' : OpcodeControl * nat → Prop :=
| StepLocal c pc' :
    same_frames vm vm' → pc' = pc ∨ pc' < length (opcodes (vm_bytecode vm)) →
    control_step op pc vm vm' (c, pc')
| StepEnter crumbs pc' :
    enters op = true →
    vm_bytecode vm' = vm_bytecode vm → vm_pc vm' = vm_pc vm →
    anchors vm' = anchors vm ++ [(pc, length (values (stack vm')), crumbs)] →
    ex_continuations (vm_exec vm') = ex_continuations (vm_exec vm) →
    ex_pending (vm_exec vm') = ex_pending (vm_exec vm) →
    pc' < length (opcodes (vm_bytecode vm)) →
    control_step op pc vm vm' (Continue, pc')
| StepLeave a :
    op = Return →
    vm_bytecode vm' = vm_bytecode vm → vm_pc vm' = vm_pc vm →
    anchors vm = anchors vm' ++ [a] → anchors vm' ≠ [] →
    ex_continuations (vm_exec vm') = ex_continuations (vm_exec vm) →
    ex_pending (vm_exec vm') = ex_pending (vm_exec vm) →
    control_step op pc vm vm' (Continue, a.1.1)
| StepSchedule k invocation :
    schedules op = true →
    vm_bytecode vm' = vm_bytecode vm → vm_pc vm' = vm_pc vm →
    anchors vm' = anchors vm →
    ex_continuations (vm_exec vm') = ex_continuations (vm_exec vm) ++ [k] →
    kf_frame_depth k = length (frames vm) → kf_resume_pc k = pc → kf_origin_pc k = Some (vm_pc vm) →
    ex_pending (vm_exec vm') = Some (Ok invocation) →
    control_step op pc vm vm' (Continue, pc).

(** Every outcome of [m] is a step of the control machine; a failure changes
    nothing it can see. *)
Definition steps (bc : Bytecode) (op : Opcode) pc (m : M K (OpcodeControl * nat)) : Prop :=
  ∀ vm, vm_bytecode vm = bc →
    match m vm with
    | (vm', Ok c) => control_step op pc vm vm' c
    | (vm', Err _) => same_frames vm vm'
    end.

Context (bc : Bytecode).

Lemma anchors_length vm vm' : anchors vm = anchors vm' → length (frames vm) = length (frames vm').
Proof. intros Ha. apply (f_equal length) in Ha. unfold anchors in Ha. by rewrite !length_fmap in Ha. Qed.

Lemma keeps_steps op pc m : keeps bc m (target_ok bc pc) → steps bc op pc m.
Proof.
  intros Hm vm Hvm. destruct (Hm vm Hvm) as [Hs Hq].
  destruct (m vm) as [vm' [[c pc']|e]]; simpl in *; [|done].
  apply StepLocal; [done|]. rewrite Hvm. apply (Hq _ eq_refl).
Qed.

(** A prefix that leaves the frames alone does not change the step. *)
Lemma control_step_after op pc vm0 vm vm' c :
  same_frames vm0 vm → control_step op pc vm vm' c → control_step op pc vm0 vm' c.
Proof.
  intros Hs Hc. pose proof Hs as (Hb & Hp & Ha & Hk & Hn). pose proof (anchors_length _ _ Ha) as Hlen.
  destruct Hc as [c pc'|crumbs pc'|a|k inv].
  - apply StepLocal; [by eapply same_frames_trans|by rewrite <- Hb].
  - eapply (StepEnter _ _ _ _ crumbs); [done|congruence..|by rewrite <- Hb].
  - apply StepLeave; try done; congruence.
  - apply (StepSchedule _ _ _ _ k inv); try done; congruence.
Qed.

Lemma steps_seq {A} op pc (m : M K A) k (P : A → Prop) :
  keeps bc m P → (∀ a, P a → steps bc op pc (k a)) → steps bc op pc (bindM m k).
Proof.
  intros Hm Hk vm Hvm. unfold bindM. destruct (Hm vm Hvm) as [Hs Hq].
  destruct (m vm) as [vm1 [a|e]]; simpl in *; [|done].
  assert (vm_bytecode vm1 = bc) as Hvm1 by (destruct Hs; congruence).
  specialize (Hk a (Hq a eq_refl) vm1 Hvm1). destruct (k a vm1) as [vm' [c|e]].
  - by eapply control_step_after.
  - by eapply same_frames_trans.
Qed.

Lemma steps_then {A} op pc (m : M K A) k :
  keeps bc m (λ _, True) → (∀ a, steps bc op pc (k a)) → steps bc op pc (bindM m k).
Proof. intros Hm Hk. eapply steps_seq; eauto. Qed.

Lemma steps_throw op pc s : steps bc op pc (throw s).
Proof. intros vm _. apply same_frames_refl. Qed.

Lemma steps_enter_call op pc entry kind locals s e pc' :
  enters op = true → pc' < length (opcodes bc) →
  steps bc op pc (enter_call entry kind locals s e pc ;; continue_at pc').
Proof.
  intros Hop Hpc vm Hvm. simpl. apply (StepEnter _ _ _ _ (length (ex_breadcrumbs (vm_exec vm)))); try done.
  - unfold anchors, frames. simpl. by rewrite fmap_app.
  - by rewrite Hvm.
Qed.

Lemma steps_schedule op pc callable args tail site trace :
  schedules op = true →
  steps bc op pc (schedule_callable callable args pc tail site trace ;; continue_at pc).
Proof.
  intros Hop vm Hvm.
  assert (keeps bc (update_frame (K:=K) (λ f, set_trace_frame trace (set_call_site site f))) (λ _, True)) as Hu
    by by apply keeps_update_frame.
  specialize (Hu vm Hvm). revert Hu. cbv [schedule_callable schedule_invocation bindM current_frame].
  destruct (last (frames vm)) as [frame|] eqn:Hl; simpl; [|done].
  destruct (update_frame _ vm) as [vm1 [[]|e]] eqn:Hupd; simpl; [|by intros []].
  intros [(Hb & Hp & Ha & Hk & Hn) _]. cbv [modify continue_at ret].
  eapply (StepSchedule op pc _ _ _ (InvCallable callable args)); simpl; try done.
  - by rewrite Hk.
  - by apply anchors_length.
  - done.
  - simpl. by f_equal.
Qed.

(** The shape the three calls share once the callee is known. *)
Lemma steps_call_entry op pc entry kind args s e message (tail : VM K → bool) :
  enters op = true ∨ (∀ vm, tail vm = true) →
  steps bc op pc (
    if decide (length (opcodes bc) ≤ N.to_nat (fe_entry_pc entry)) then
      throw message
    else
      let* locals := liftE (build_locals_for_call entry args) in
      let* tail_call := gets tail in
      (if tail_call then enter_tail_call entry kind locals s e
       else enter_call entry kind locals s e pc) ;;
      continue_at (N.to_nat (fe_entry_pc entry))).
Proof.
  intros Hop. case_decide; [apply steps_throw|].
  apply steps_then; [by apply keeps_liftE|]. intros locals.
  apply (steps_seq _ _ _ _ (λ b, b = true ∨ enters op = true)).
  { apply keeps_gets. intros vm _. destruct Hop as [?|Ht]; [by right|left; apply Ht]. }
  intros [] Hb.
  - apply keeps_steps. apply keeps_then; [apply keeps_enter_tail_call|]. intros _.
    apply keeps_ret. right. simpl. lia.
  - apply steps_enter_call; [naive_solver|lia].
Qed.

Lemma steps_call fun_idx arity s e pc :
  steps bc (Call fun_idx arity s e) pc (exec_call fun_idx arity s e pc).
Proof.
  unfold exec_call. apply (steps_seq _ _ _ _ (λ b, b = bc)); [by apply keeps_gets|]. intros _ ->.
  apply steps_then; [by apply keeps_liftE|]. intros entry. case_decide; [|apply steps_throw].
  apply steps_then; [by apply keeps_pop_many|]. intros args. apply steps_call_entry. by left.
Qed.

Lemma steps_closure_function op fun_idx args s e tail pc :
  enters op = true ∨ tail = true → steps bc op pc (call_closure_function fun_idx args s e tail pc).
Proof.
  intros Hop. unfold call_closure_function.
  apply (steps_seq _ _ _ _ (λ b, b = bc)); [by apply keeps_gets|]. intros _ ->.
  apply steps_then; [by apply keeps_liftE|]. intros entry. case_decide; [|apply steps_throw].
  apply steps_call_entry. destruct Hop as [?| ->]; [by left|by right].
Qed.

Lemma steps_call_closure op tail arity s e pc :
  schedules op = true → enters op = true ∨ tail = true →
  steps bc op pc (exec_call_closure tail arity s e pc).
Proof.
  intros Hs He. unfold exec_call_closure.
  apply steps_then; [by apply keeps_pop_many|]. intros args.
  apply steps_then; [apply keeps_pop_callable|]. intros callable.
  destruct (call_target callable).
  - apply steps_then; [by apply keeps_gets|]. intros trace. by apply steps_schedule.
  - by apply steps_closure_function.
  - apply steps_then; [by apply keeps_gets|]. intros trace. by apply steps_schedule.
Qed.

Lemma steps_return pc : steps bc Return pc (exec_control Return pc).
Proof.
  unfold exec_control. apply steps_then; [by apply keeps_pop|]. intros v vm Hvm.
  cbv [return_from_current_frame bindM gets]. case_decide as Hone; [apply same_frames_refl|].
  destruct (last (frames vm)) as [frame|] eqn:Hl; simpl; [|apply same_frames_refl].
  apply last_Some in Hl as [fs Hfs].
  apply (StepLeave Return pc vm _ (anchor frame)); try done; unfold anchors, frames in *; simpl; rewrite Hfs.
  - unfold pop_last. by rewrite length_app, Nat.add_sub, take_app_length, fmap_app.
  - unfold pop_last. rewrite length_app, Nat.add_sub, take_app_length.
    rewrite Hfs, length_app in Hone. destruct fs; [done|]. done.
Qed.

Lemma steps_opcode op pc : steps bc op pc (execute_opcode depth op pc).
Proof.
  destruct op; unfold execute_opcode;
    first [ apply steps_call | apply steps_return | apply steps_call_closure; simpl; tauto
          | apply keeps_steps; first
              [ apply keeps_data | apply keeps_numeric | apply keeps_eq_pid | apply keeps_text
              | apply keeps_list | apply keeps_tagged | apply keeps_dbg | apply keeps_error
              | apply keeps_callable | by apply keeps_control ]
          | idtac ].
  unfold exec_call_builtin. apply steps_then; [by apply keeps_pop_many|]. intros args.
  apply steps_then; [by apply keeps_gets|]. intros trace. by apply steps_schedule.
Qed.

End control.

(** ** The frame stack of a running program *)

Section invariant.
Context {K : Type} `{RustFmt} `{BuiltinTable} `{DbgReporter K}.
Implicit Types (vm : VM K) (pc : nat).

(** There is a frame to run in, and every frame and every suspended builtin
    resumes inside the program or right after its last instruction. *)
Definition control_wf vm : Prop :=
  let limit := length (opcodes (vm_bytecode vm)) in
  anchors vm ≠ [] ∧ Forall (λ a, a.1.1 ≤ limit) (anchors vm) ∧
  Forall (λ k, kf_resume_pc k ≤ limit) (ex_continuations (vm_exec vm)).

Lemma control_wf_same vm vm' : same_frames vm vm' → control_wf vm → control_wf vm'.
Proof. intros (Hb & _ & Ha & Hk & _). unfold control_wf. by rewrite Hb, Ha, Hk. Qed.

Lemma control_wf_step op pc vm vm' c :
  control_step op pc vm vm' c → control_wf vm → pc ≤ length (opcodes (vm_bytecode vm)) →
  control_wf vm' ∧ c.2 ≤ length (opcodes (vm_bytecode vm')).
Proof.
  intros Hc Hwf Hpc. pose proof Hwf as (Hne & Hret & Hres).
  destruct Hc as [c pc' Hs Ht|crumbs pc' _ Hb _ Ha Hk _ Ht|a _ Hb _ Ha Hne' Hk _|k inv _ Hb _ Ha Hk _ Hr _ _].
  - split; [by eapply control_wf_same|]. destruct Hs as (-> & _). simpl. lia.
  - unfold control_wf. rewrite Hb, Ha, Hk. simpl. split; [|lia]. split_and!; [by destruct (anchors vm)| |done].
    apply Forall_app. split; [done|]. by apply Forall_singleton.
  - rewrite Ha in Hret. apply Forall_app in Hret as [Hret' Hlast]. rewrite Forall_singleton in Hlast.
    unfold control_wf. rewrite Hb, Hk. done.
  - unfold control_wf. rewrite Hb, Ha, Hk. simpl. split; [|done]. split_and!; [done..|].
    apply Forall_app. split; [done|]. apply Forall_singleton. by rewrite Hr.
Qed.

End invariant.



(** ** A small machine for the examples *)

Definition sample_builtins : BuiltinTable := λ _, None.
Definition sample_dbg : DbgReporter unit :=
  {| inspect_value _ _ := Ok []; render_dbg_report _ _ _ _ := [] |}.

Definition sample_vm (bc : Bytecode) (vs : list Value) (fs : list CallFrame) : VM unit :=
  mkVM bc (mkExec (OperandStack.from_vec vs) fs [] [] None None None None) 0 None None None
    (mkIoPolicy Passthrough Passthrough) None [] 0 None
    (ProcessRuntime.initial ProcessRuntime.sample_specs).

(** [call f; halt; f: return] with one function of one argument. *)
Definition sample_code : Bytecode :=
  mkBytecode [Call 0 1 3 4; Halt; LoadLocal 0; Return] [] 0 TypeRegistry.new [] [] []
    [mkFunctionEntry 0 2 1 1 (Some (lit "f")) None 4 0 9 (mkFunctionFlags false false false false false false)] None [] []
    default_compile_info [] [] [] [] [] [] [] [] [] default_boot_plan.

Definition sample_frame (return_pc base : nat) : CallFrame := mkFrame return_pc base None None 0 [].


End VmProps.
