(* ===== verification/Calls.v ===== *)
(** * Calls, closures and errors

    What the instructions that carry the semantics of the language compute:
    calling a closure binds its captures and its arguments, a tail call returns
    what the plain call would have returned, and the payload of an error comes
    back out of it. *)

From S2P Require Import Prelude Names ListHandle Value TypeRegistry OperandStack Ir RuntimeError.
From S2P Require Import StringLiteral Display ErrorSchema ProcessRuntime Machine Opcodes Frames VmProps.

Module Calls.
Import Machine Opcodes Frames VmProps.

Section stack.
Context {K : Type} `{RustFmt} `{BuiltinTable} `{DbgReporter K}.
Context (depth : nat).
Implicit Types (vm : VM K) (pc : nat) (vs : list Value).

(** ** The operand stack as a list *)

(** The stack holds exactly [vs], and its index of pending futures is right. *)
Definition holds (s : OperandStack) vs : Prop := values s = vs ∧ OperandStack.positions_exact s.

Definition with_stack (s : OperandStack) vm : VM K := set_exec (set_stack s (vm_exec vm)) vm.

Lemma with_stack_twice s s' vm : with_stack s' (with_stack s vm) = with_stack s' vm.
Proof. done. Qed.

Lemma push_holds v vm vs :
  holds (stack vm) vs → ∃ s, push_value v vm = (with_stack s vm, Ok tt) ∧ holds s (vs ++ [v]).
Proof.
  intros [Hv He]. destruct (OperandStack.push_spec v _ He) as [Hv' He'].
  exists (OperandStack.push v (stack vm)). split; [done|]. by rewrite <- Hv.
Qed.

Lemma pop_holds v vm vs :
  holds (stack vm) (vs ++ [v]) → ∃ s, pop_stack vm = (with_stack s vm, Ok v) ∧ holds s vs.
Proof.
  intros [Hv He]. destruct (OperandStack.pop_snoc _ _ _ He Hv) as (s & Hp & Hs & He').
  exists s. unfold pop_stack. by rewrite Hp.
Qed.

Lemma pop_many_holds args acc vm vs :
  holds (stack vm) (vs ++ args) →
  ∃ s, pop_many (length args) acc vm = (with_stack s vm, Ok (args ++ acc)) ∧ holds s vs.
Proof.
  revert acc vm. induction args as [|v args IH] using rev_ind; intros acc vm Hh; simpl.
  { exists (stack vm). rewrite app_nil_r in Hh. split; [|done]. by destruct vm as [? []]. }
  rewrite length_app, Nat.add_comm. simpl. rewrite app_assoc in Hh.
  destruct (pop_holds v vm _ Hh) as (s1 & Hp & Hh1).
  destruct (IH (v :: acc) (with_stack s1 vm)) as (s2 & Hp2 & Hh2); [done|].
  exists s2. unfold bindM. rewrite Hp, Hp2, with_stack_twice, <- app_assoc. done.
Qed.

Lemma truncate_push_holds n v s vs :
  holds s vs → holds (OperandStack.push v (OperandStack.truncate n s)) (take n vs ++ [v]).
Proof.
  intros [Hv He]. destruct (OperandStack.truncate_spec n s He) as [Hv' He'].
  destruct (OperandStack.push_spec v _ He') as [Hv'' He'']. split; [|done]. by rewrite Hv'', Hv', Hv.
Qed.

(** ** Returning *)

Lemma return_holds pc v vm vs fs f :
  holds (stack vm) (vs ++ [v]) → frames vm = fs ++ [f] → fs ≠ [] →
  ∃ vm', execute_opcode depth Return pc vm = (vm', Ok (Continue, cf_return_pc f)) ∧
    frames vm' = fs ∧ holds (stack vm') (take (cf_stack_base f) vs ++ [v]) ∧
    vm_bytecode vm' = vm_bytecode vm ∧
    ex_continuations (vm_exec vm') = ex_continuations (vm_exec vm).
Proof.
  intros Hh Hf Hne. destruct (pop_holds v vm vs Hh) as (s & Hp & Hs).
  unfold execute_opcode, exec_control, bindM. rewrite Hp.
  cbv [return_from_current_frame bindM gets]. change (frames (with_stack s vm)) with (frames vm).
  rewrite Hf, last_snoc, decide_False by (rewrite length_app; destruct fs; simpl; [done|lia]).
  eexists. split; [reflexivity|]. simpl. split_and!; [|by apply truncate_push_holds|done..].
  unfold frames in *. simpl. rewrite Hf. unfold pop_last.
  by rewrite length_app, Nat.add_sub, take_app_length.
Qed.

Lemma return_anchors pc v vm vs l rp base crumbs :
  holds (stack vm) (vs ++ [v]) → anchors vm = l ++ [(rp, base, crumbs)] → l ≠ [] →
  ∃ vm', execute_opcode depth Return pc vm = (vm', Ok (Continue, rp)) ∧
    anchors vm' = l ∧ holds (stack vm') (take base vs ++ [v]) ∧
    vm_bytecode vm' = vm_bytecode vm ∧
    ex_continuations (vm_exec vm') = ex_continuations (vm_exec vm).
Proof.
  intros Hh Ha Hne. unfold anchors in Ha. apply fmap_app_inv in Ha as (fs & gs & -> & Hgs & Hf).
  destruct gs as [|f [|? ?]]; [done| |done]. simpl in Hgs. injection Hgs as -> -> ->.
  destruct (return_holds pc v vm vs fs f Hh Hf) as (vm' & Hx & Hfs & Hh' & Hrest).
  { by intros ->. }
  exists vm'. unfold anchors. by rewrite Hx, Hfs.
Qed.

(** ** Entering *)

Lemma enter_call_spec entry kind locals s e pc vm :
  ∃ trace vm', enter_call entry kind locals s e pc vm = (vm', Ok tt) ∧
    frames vm' = frames vm ++ [mkFrame pc (length (values (stack vm))) (Some (s, e)) (Some trace)
                                 (length (ex_breadcrumbs (vm_exec vm))) locals] ∧
    stack vm' = stack vm ∧ vm_bytecode vm' = vm_bytecode vm ∧
    ex_continuations (vm_exec vm') = ex_continuations (vm_exec vm).
Proof. eexists _, _. split; [reflexivity|]. done. Qed.

End stack.


(** The caller at address 4 of the program below is about to call [f] in tail
    position; in both runs [f] ends with 7 on the stack. *)
Definition sample_tail_code : Bytecode :=
  mkBytecode [Call 1 0 3 4; Halt; LoadLocal 0; Return; Call 0 1 5 6; Return] [] 0 TypeRegistry.new [] [] []
    [mkFunctionEntry 0 2 1 1 (Some (lit "f")) None 4 0 9 (mkFunctionFlags false false false false false false);
     mkFunctionEntry 1 4 0 0 (Some (lit "g")) None 6 0 9 (mkFunctionFlags false false false false false false)]
    None [] [] default_compile_info [] [] [] [] [] [] [] [] [] default_boot_plan.


(** ** Closures *)

Section closures.
Context {K : Type} `{RustFmt} `{BuiltinTable} `{DbgReporter K}.
Context (depth : nat).
Implicit Types (vm : VM K) (pc : nat) (vs : list Value).

Lemma capture_closure_spec pc vm vs c caps :
  holds (stack vm) (vs ++ VCallable c :: caps) →
  ∃ s, execute_opcode depth (CaptureClosure (N.of_nat (length caps))) pc vm
         = (with_stack s vm, Ok (Continue, pc)) ∧
       holds s (vs ++ [VCallable (mkCallable (call_target c) (call_captures c ++ caps) (call_metadata c))]).
Proof.
  intros Hh. rewrite cons_middle, app_assoc in Hh.
  destruct (pop_many_holds caps [] vm _ Hh) as (s1 & Hp1 & Hh1).
  destruct (pop_holds (VCallable c) (with_stack s1 vm) vs Hh1) as (s2 & Hp2 & Hh2).
  destruct (push_holds (VCallable (mkCallable (call_target c) (call_captures c ++ caps) (call_metadata c)))
              (with_stack s2 (with_stack s1 vm)) vs Hh2) as (s3 & Hp3 & Hh3).
  exists s3. split; [|done]. unfold execute_opcode, exec_callable, bindM.
  rewrite Nat2N.id, Hp1, app_nil_r, Hp2, Hp3. done.
Qed.

Lemma build_locals_Ok entry args :
  length args ≤ N.to_nat (fe_num_locals entry) →
  build_locals_for_call entry args
  = Ok (args ++ replicate (N.to_nat (fe_num_locals entry) - length args) VUnit).
Proof. intros. unfold build_locals_for_call. by rewrite decide_False by lia. Qed.

Lemma call_closure_spec pc vm vs c fun_idx entry args s e :
  holds (stack vm) (vs ++ VCallable c :: args) → call_target c = CtFunction fun_idx →
  function_entry (vm_bytecode vm) fun_idx = Ok entry →
  N.to_nat (fe_arity entry) = length (call_captures c ++ args) →
  length (call_captures c ++ args) ≤ N.to_nat (fe_num_locals entry) →
  N.to_nat (fe_entry_pc entry) < length (opcodes (vm_bytecode vm)) →
  can_optimize_tail_call vm pc = false →
  ∃ trace vm', execute_opcode depth (CallClosure (N.of_nat (length args)) s e) pc vm
      = (vm', Ok (Continue, N.to_nat (fe_entry_pc entry))) ∧
    frames vm' = frames vm ++ [mkFrame pc (length vs) (Some (s, e)) (Some trace)
      (length (ex_breadcrumbs (vm_exec vm)))
      ((call_captures c ++ args)
       ++ replicate (N.to_nat (fe_num_locals entry) - length (call_captures c ++ args)) VUnit)] ∧
    holds (stack vm') vs.
Proof.
  intros Hh Ht He Har Hloc Hpc Htail. rewrite cons_middle, app_assoc in Hh.
  destruct (pop_many_holds args [] vm _ Hh) as (s1 & Hp1 & Hh1).
  destruct (pop_holds (VCallable c) (with_stack s1 vm) vs Hh1) as (s2 & Hp2 & Hh2).
  rewrite with_stack_twice in Hp2.
  set (locals := (call_captures c ++ args) ++ _).
  destruct (enter_call_spec entry ClosureFunction locals s e pc (with_stack s2 vm))
    as (trace & vm' & Hent & Hf & Hs & _).
  exists trace, vm'. rewrite Hs. split_and!; [|rewrite Hf; destruct Hh2 as [<- _]; done|done].
  unfold execute_opcode, exec_call_closure, pop_callable, bindM.
  rewrite Nat2N.id, Hp1, app_nil_r, Hp2. cbv beta iota. cbv [ret]. rewrite Ht.
  unfold call_closure_function, bindM, bytecode, gets, liftE. cbn [vm_bytecode with_stack set_exec].
  rewrite He. cbn [lift_res map_err]. rewrite decide_True, decide_False by (done || lia).
  rewrite build_locals_Ok by done. cbn [lift_res map_err]. fold locals.
  change (can_optimize_tail_call (with_stack s2 vm) pc) with (can_optimize_tail_call vm pc).
  rewrite Htail. cbn [orb]. by rewrite Hent.
Qed.

End closures.

(** Building a closure and calling it binds its variables in order: after
    [CaptureClosure] over the values [caps] and a [CallClosure] with [args], the
    function of the closure runs in a new frame whose locals are the earlier
    captures, then [caps], then [args], then units up to its number of locals;
    the stack below the closure is untouched and the frame returns after the call. *)
Theorem closure_call_beta {K : Type} `{RustFmt} `{BuiltinTable} `{DbgReporter K} (depth : nat)
    (vm : VM K) (vs caps args : list Value) (c : Callable) (fun_idx s e : N) (entry : FunctionEntry)
    (pc pc' : nat)
    (Hstack : holds (stack vm) (vs ++ VCallable c :: caps))
    (Htarget : call_target c = CtFunction fun_idx)
    (Hentry : function_entry (vm_bytecode vm) fun_idx = Ok entry)
    (Harity : N.to_nat (fe_arity entry) = length (call_captures c ++ caps ++ args))
    (Hlocals : (fe_arity entry ≤ fe_num_locals entry)%N)
    (Hpc : N.to_nat (fe_entry_pc entry) < length (opcodes (vm_bytecode vm)))
    (Htail : can_optimize_tail_call vm pc' = false) :
  ∃ vm1 closure,
    execute_opcode depth (CaptureClosure (N.of_nat (length caps))) pc vm = (vm1, Ok (Continue, pc)) ∧
    holds (stack vm1) (vs ++ [closure]) ∧
    ∀ st, holds st (vs ++ closure :: args) →
    ∃ trace vm2,
      execute_opcode depth (CallClosure (N.of_nat (length args)) s e) pc' (with_stack st vm1)
        = (vm2, Ok (Continue, N.to_nat (fe_entry_pc entry))) ∧
      frames vm2 = frames vm ++ [mkFrame pc' (length vs) (Some (s, e)) (Some trace)
        (length (ex_breadcrumbs (vm_exec vm)))
        (call_captures c ++ caps ++ args
         ++ replicate (N.to_nat (fe_num_locals entry) - N.to_nat (fe_arity entry)) VUnit)] ∧
      holds (stack vm2) vs.
Proof.
  destruct (capture_closure_spec depth pc vm vs c caps Hstack) as (s1 & Hx & Hh1).
  set (c' := mkCallable (call_target c) (call_captures c ++ caps) (call_metadata c)) in *.
  exists (with_stack s1 vm), (VCallable c'). split_and!; [done..|]. intros st Hst.
  assert (call_captures c' ++ args = call_captures c ++ caps ++ args) as Heq by (simpl; by rewrite app_assoc).
  destruct (call_closure_spec depth pc' (with_stack st (with_stack s1 vm)) vs c' fun_idx entry args s e)
    as (trace & vm2 & Hx2 & Hf2 & Hh2); rewrite ?Heq; try done; [lia|].
  exists trace, vm2. split_and!; [done| |done]. rewrite Hf2, Heq, Harity. by rewrite <- !app_assoc.
Qed.

(** A closure over one value, called with one argument. *)
Definition sample_closure_code : Bytecode :=
  mkBytecode [CaptureClosure 1; CallClosure 1 5 6; Halt; LoadLocal 0; Return] [] 0 TypeRegistry.new [] [] []
    [mkFunctionEntry 0 3 3 2 None None 5 0 9 (mkFunctionFlags false true false false false false)]
    None [] [] default_compile_info [] [] [] [] [] [] [] [] [] default_boot_plan.

Lemma closure_call_beta_witness :
  let vm := sample_vm sample_closure_code [VCallable (mkCallable (CtFunction 0) [] default_metadata); VInt 1]
              [sample_frame 0 0] in
  ∃ vm2 : VM unit, cf_locals <$> last (frames vm2) = Some [VInt 1; VInt 2; VUnit] ∧ values (stack vm2) = [].
Proof.
  intros vm. set (c := mkCallable (CtFunction 0) [] default_metadata).
  destruct (@closure_call_beta unit Display.sample_fmt sample_builtins sample_dbg 0 vm [] [VInt 1] [VInt 2] c 0 5 6
    (mkFunctionEntry 0 3 3 2 None None 5 0 9 (mkFunctionFlags false true false false false false)) 1 2
    ltac:(done) eq_refl eq_refl eq_refl ltac:(simpl; lia) ltac:(simpl; lia) eq_refl)
    as (vm1 & closure & Hx & Hh & Hcall).
  vm_compute in Hx. injection Hx as <-.
  destruct Hh as [Hh _]. vm_compute in Hh. injection Hh as <-.
  destruct (Hcall (OperandStack.from_vec
    [VCallable (mkCallable (CtFunction 0) [VInt 1] default_metadata); VInt 2])) as (trace & vm2 & _ & Hf & Hs); [done|].
  exists vm2. rewrite Hf. split; [reflexivity|exact (proj1 Hs)].
Defined.

(** ** Errors *)

Section errors.
Context {K : Type} `{RustFmt} `{BuiltinTable} `{DbgReporter K}.
Context (depth : nat).
Implicit Types (vm : VM K) (pc : nat) (vs : list Value).

(** The templates of a program have distinct kinds. *)
Definition kinds_unique (bc : Bytecode) : Prop := NoDup (et_kind <$> error_templates bc).

Lemma find_template l i t :
  NoDup (et_kind <$> l) → l !! i = Some t → find (λ t', bool_decide (et_kind t' = et_kind t)) l = Some t.
Proof.
  revert i. induction l as [|u l IH]; intros i; [done|]. rewrite fmap_cons, NoDup_cons. intros [Hu Hl].
  destruct i as [|i]; simpl.
  - intros [= ->]. by rewrite bool_decide_eq_true_2.
  - intros Hi. rewrite bool_decide_eq_false_2; [by eapply IH|]. intros Heq. apply Hu. rewrite Heq.
    by apply list_elem_of_fmap_2, (list_elem_of_lookup_2 _ i).
Qed.

Lemma make_error_spec pc vm vs tid t message payload f span location :
  holds (stack vm) (vs ++ VStr message :: payload) →
  error_templates (vm_bytecode vm) !! N.to_nat tid = Some t →
  length payload = length (et_payload_fields t) →
  accepts_all depth (registry vm) (et_payload_fields t) payload = Ok true →
  last (frames vm) = Some f → or_else (cf_call_site f) (error_construction_source vm) = Some span →
  location_for_span vm span.1 span.2 (et_kind t) = Some location →
  ∃ s trace, execute_opcode depth (MakeError tid) pc vm = (with_stack s vm, Ok (Continue, pc)) ∧
    holds s (vs ++ [VError (mkRichError (et_kind t) message payload location None None trace)]).
Proof.
  intros Hh Ht Hlen Hacc Hf Hspan Hloc. rewrite cons_middle, app_assoc in Hh.
  destruct (pop_many_holds payload [] vm _ Hh) as (s1 & Hp1 & Hh1).
  destruct (pop_holds (VStr message) (with_stack s1 vm) vs Hh1) as (s2 & Hp2 & Hh2).
  rewrite with_stack_twice in Hp2.
  set (trace := stack_trace_snapshot_without_head_function (with_stack s2 vm) (et_kind t)).
  destruct (push_holds (VError (mkRichError (et_kind t) message payload location None None trace))
              (with_stack s2 vm) vs Hh2) as (s3 & Hp3 & Hh3).
  exists s3, trace. split; [|done].
  unfold execute_opcode, exec_error, exec_make_error, bindM, bytecode, gets, ok_orM. rewrite Ht.
  cbv [ret]. rewrite <- Hlen, Hp1, app_nil_r. cbv [liftR].
  unfold registry in Hacc. cbn [vm_bytecode with_stack set_exec] in *. rewrite Hacc. cbn [lift_run map_err].
  rewrite Hp2. unfold current_frame. change (frames (with_stack s2 vm)) with (frames vm). rewrite Hf.
  cbn [ok_or lift_res map_err].
  change (error_construction_source (with_stack s2 vm)) with (error_construction_source vm). rewrite Hspan.
  destruct span as [a b]. simpl in Hloc.
  change (location_for_span (with_stack s2 vm) a b) with (location_for_span vm a b). rewrite Hloc.
  fold trace. by rewrite Hp3.
Qed.

Lemma get_error_payload_spec pc vm vs error t tid i v :
  holds (stack vm) (vs ++ [VError error]) → kinds_unique (vm_bytecode vm) →
  error_templates (vm_bytecode vm) !! tid = Some t → err_kind error = et_kind t →
  length (err_payload error) = length (et_payload_fields t) →
  accepts_all depth (registry vm) (et_payload_fields t) (err_payload error) = Ok true →
  err_payload error !! i = Some v →
  ∃ s, execute_opcode depth (GetErrorPayload (et_kind t) (N.of_nat i) (N.of_nat (length (err_payload error)))) pc vm
         = (with_stack s vm, Ok (Continue, pc)) ∧ holds s (vs ++ [v]).
Proof.
  intros Hh Hu Ht Hk Hlen Hacc Hi. destruct (pop_holds _ vm vs Hh) as (s1 & Hp1 & Hh1).
  destruct (push_holds v (with_stack s1 vm) vs Hh1) as (s2 & Hp2 & Hh2). exists s2. split; [|done].
  unfold execute_opcode, exec_error, exec_get_error_payload, pop_error, bindM, bytecode, gets. rewrite Hp1.
  cbv [ret]. rewrite Nat2N.id, !bool_decide_eq_true_2 by done. cbn [andb].
  cbn [vm_bytecode with_stack set_exec]. rewrite (find_template _ _ _ Hu Ht). cbn [ok_orM].
  cbv [ret]. rewrite decide_True by done. cbv [liftR]. unfold registry in Hacc. rewrite Hacc.
  cbn [lift_run map_err]. rewrite Nat2N.id, Hi. cbn [ok_orM]. cbv [ret]. by rewrite Hp2.
Qed.

Lemma is_error_kind_spec pc vm vs error kind :
  holds (stack vm) (vs ++ [VError error]) →
  ∃ s, execute_opcode depth (IsErrorKind kind) pc vm = (with_stack s vm, Ok (Continue, pc)) ∧
       holds s (vs ++ [VBool (bool_decide (err_kind error = kind))]).
Proof.
  intros Hh. destruct (pop_holds _ vm vs Hh) as (s1 & Hp1 & Hh1).
  destruct (push_holds (VBool (bool_decide (err_kind error = kind))) (with_stack s1 vm) vs Hh1) as (s2 & Hp2 & Hh2).
  exists s2. split; [|done]. unfold execute_opcode, exec_error, pop_error, bindM. rewrite Hp1.
  cbv [ret]. by rewrite Hp2.
Qed.

End errors.

(** An error that the program constructs keeps its identity and its payload:
    [MakeError] with a payload that fits the declared fields pushes an error of the
    declared kind with the message and the payload; on it [IsErrorKind] answers
    true exactly for that kind, and [GetErrorPayload] of field [i] gives the value
    the program put there. *)
Theorem error_payload_roundtrip {K : Type} `{RustFmt} `{BuiltinTable} `{DbgReporter K} (depth : nat)
    (vm : VM K) (vs payload : list Value) (message : str) (tid : N) (t : ErrTemplate) (f : CallFrame)
    (span : N * N) (location : Location) (pc : nat)
    (Hstack : holds (stack vm) (vs ++ VStr message :: payload))
    (Hunique : kinds_unique (vm_bytecode vm))
    (Ht : error_templates (vm_bytecode vm) !! N.to_nat tid = Some t)
    (Hlen : length payload = length (et_payload_fields t))
    (Hacc : accepts_all depth (registry vm) (et_payload_fields t) payload = Ok true)
    (Hf : last (frames vm) = Some f)
    (Hspan : or_else (cf_call_site f) (error_construction_source vm) = Some span)
    (Hloc : location_for_span vm span.1 span.2 (et_kind t) = Some location) :
  ∃ vm1 error,
    execute_opcode depth (MakeError tid) pc vm = (vm1, Ok (Continue, pc)) ∧
    holds (stack vm1) (vs ++ [VError error]) ∧
    err_kind error = et_kind t ∧ err_message error = message ∧ err_payload error = payload ∧
    (∀ kind, ∃ vm2, execute_opcode depth (IsErrorKind kind) pc vm1 = (vm2, Ok (Continue, pc)) ∧
       holds (stack vm2) (vs ++ [VBool (bool_decide (et_kind t = kind))])) ∧
    (∀ i v, payload !! i = Some v →
       ∃ vm2, execute_opcode depth (GetErrorPayload (et_kind t) (N.of_nat i) (N.of_nat (length payload))) pc vm1
                = (vm2, Ok (Continue, pc)) ∧
              holds (stack vm2) (vs ++ [v])).
Proof.
  destruct (make_error_spec depth pc vm vs tid t message payload f span location) as (s & trace & Hx & Hh);
    try done.
  set (error := mkRichError _ _ _ _ _ _ _) in Hh.
  exists (with_stack s vm), error. split_and!; [done..| |].
  - intros kind. destruct (is_error_kind_spec depth pc (with_stack s vm) vs error kind Hh) as (s' & Hx' & Hh').
    by eexists.
  - intros i v Hi.
    destruct (get_error_payload_spec depth pc (with_stack s vm) vs error t _ i v Hh Hunique Ht)
      as (s' & Hx' & Hh'); try done. by eexists.
Qed.

(** A program that declares one error kind with an integer and a string. *)
Definition sample_template : ErrTemplate :=
  mkErrTemplate 0 (lit "NotFound") 0 [] [(lit "code", SInt); (lit "what", SString)].
Definition sample_error_code : Bytecode :=
  mkBytecode [MakeError 0; Halt] [] 0 TypeRegistry.new [sample_template] [] [] []
    None [] [] default_compile_info [] [] [] [] [] [] [] [] [] default_boot_plan.

Lemma error_payload_roundtrip_witness :
  let vm := sample_vm sample_error_code [VStr (lit "gone"); VInt 404; VStr (lit "page")]
              [mkFrame 0 0 (Some (3, 9)%N) None 0 []] in
  ∃ vm1 vm2 : VM unit,
    @execute_opcode unit Display.sample_fmt sample_builtins sample_dbg 3 (MakeError 0) 1 vm = (vm1, Ok (Continue, 1)) ∧
    @execute_opcode unit Display.sample_fmt sample_builtins sample_dbg 3
      (GetErrorPayload (lit "NotFound") 1 2) 1 vm1 = (vm2, Ok (Continue, 1)) ∧
    values (stack vm2) = [VStr (lit "page")].
Proof.
  intros vm.
  destruct (@error_payload_roundtrip unit Display.sample_fmt sample_builtins sample_dbg 3 vm []
    [VInt 404; VStr (lit "page")] (lit "gone") 0 sample_template (mkFrame 0 0 (Some (3, 9)%N) None 0 []) (3, 9)%N
    (mkLocation (lit "<runtime>") (lit "NotFound") 0 0 3 9) 1)
    as (vm1 & error & Hx & _ & _ & _ & _ & _ & Hget).
  - split; reflexivity.
  - repeat constructor. set_solver.
  - reflexivity.
  - reflexivity.
  - reflexivity.
  - reflexivity.
  - reflexivity.
  - reflexivity.
  - destruct (Hget 1 (VStr (lit "page")) eq_refl) as (vm2 & Hx2 & Hh2 & _).
    exists vm1, vm2. split; [exact Hx|]. split; [exact Hx2|exact Hh2].
Defined.

End Calls.
