(* ===== verification/Driver.v ===== *)
(** * The driver ([crates/eldr/src/vm/continuation.rs], the stepping part of [vm.rs])

    Execution contexts are moved in and out of the machine, stepped one
    instruction or one continuation at a time, run for a quantum, and scheduled.
    The bodies of the builtins come in through the class [Builtins]. *)

From S2P Require Import Prelude Names ListHandle Value TypeRegistry OperandStack Ir RuntimeError.
From S2P Require Import StringLiteral Display ErrorSchema ProcessRuntime Machine Opcodes.

(** The continuations of builtins that only compute and are stepped in bulk. *)
Inductive PureKind : Type := PkListFinish | PkSortedMap | PkMapList | PkMapFromEntries | PkRegexCollection.
#[export] Instance PureKind_eq_dec : EqDecision PureKind.
Proof. solve_decision. Defined.

(** ** What the builtins promise to the driver *)
Class Builtins (K : Type) : Type := {
  (** [call_builtin]. *)
  call_builtin : N → list Value → M K (BuiltinOutcome K);
  (** Which pure continuation this is, if it is one, and its next transition. *)
  pure_kind : K → option PureKind;
  pure_step : K → Result RuntimeError (BuiltinOutcome K);
  (** [resume] of every other continuation. *)
  resume_impure : BuiltinContinuation K → Result RuntimeError Value → M K (BuiltinOutcome K);
}.

Section outcomes.
Context {K : Type}.

Inductive StepOutcome : Type :=
| SContinue
| SHalt (v : Value)
| SPending (future_id : N) (resume : ExecutionContext K)
| SRuntimeError (e : RuntimeError).

Inductive ProcessRunOutcome : Type :=
| QuantumExpired
| Halted (v : Value)
| PendingOn (future_id : N)
| FailedWith (e : RuntimeError).

End outcomes.
Arguments StepOutcome : clear implicits.

Record Budget : Type := mkBudget { bu_max_reductions : N; bu_reductions : N }.

Module Budget.

Definition new (max_reductions : N) : Budget := mkBudget max_reductions 0.
Definition consume (cost : N) (b : Budget) : Budget :=
  mkBudget (bu_max_reductions b) (u64_saturating_add (bu_reductions b) cost).
Definition expired (b : Budget) : bool := (bu_max_reductions b <=? bu_reductions b)%N.
Definition remaining (b : Budget) : N := u64_saturating_sub (bu_max_reductions b) (bu_reductions b).

End Budget.

Module Driver.
Import Machine Opcodes.

Section driver.
Context {K : Type} `{RustFmt} `{BuiltinTable} `{DbgReporter K} `{Builtins K}.
Context (depth : nat).
Implicit Types (vm : VM K) (context : ExecutionContext K) (target : ExecutionTarget).

(** Runs [m] and turns its error into a value ([match self.f() { .. }]). *)
Definition attempt {A} (m : M K A) : M K (Result RuntimeError A) := λ vm,
  match m vm with
  | (vm', Ok a) => (vm', Ok (Ok a))
  | (vm', Err (Failed e)) => (vm', Ok (Err e))
  | (vm', Err (Panicked p)) => (vm', Err (Panicked p))
  end.

Definition raise {A} (e : RuntimeError) : M K A := λ vm, (vm, fail e).

(** ** Contexts *)

Definition take_execution_context (pc : nat) target : M K (ExecutionContext K) := λ vm,
  (set_exec empty_exec vm, Ok (mkContext (vm_exec vm) pc target)).

Definition restore_execution_context context vm : VM K :=
  set_pc (ctx_pc context) (set_exec (ctx_exec context) vm).

Definition root_frame : CallFrame := mkFrame 0 0 None None 0 [].

Definition standalone_builtin_context (outcome : BuiltinOutcome K) : ExecutionContext K :=
  mkContext (mkExec OperandStack.stack_default [root_frame] []
               [mkContinuation (DestStack false None None) 1 0 0 None 0 false None]
               (Some (Ok (InvBuiltin outcome))) None None None)
    0 (FrameDepth 1).

Definition outcome_continuation (outcome : BuiltinOutcome K) : option (BuiltinContinuation K) :=
  match outcome with
  | OCall _ _ k | OWait _ k | OResume k => Some k
  | OComplete _ => None
  end.

(** The frame that delivers a result to the builtin continuation [k]. *)
Definition builtin_frame (k : BuiltinContinuation K) (e : Exec K) (pc : nat) : ContinuationFrame K :=
  mkContinuation (DestBuiltin k) (length (ex_frames e)) (length (values (ex_stack e))) pc
    (c ← last (ex_continuations e); kf_origin_pc c) (length (ex_breadcrumbs e)) false None.

Definition cancel_execution_context (error : RuntimeError) context : ExecutionContext K :=
  let e := ctx_exec context in
  let e1 :=
    match ex_pending e with
    | Some (Ok (InvBuiltin outcome)) =>
        match outcome_continuation outcome with
        | Some k => set_continuations (ex_continuations e ++ [builtin_frame k e (ctx_pc context)]) e
        | None => e
        end
    | _ => e
    end in
  mkContext (set_pending (Some (Err error)) (set_cancellation (Some error) e1)) (ctx_pc context) (ctx_target context).

(** ** Invocations *)

Definition set_invocation (r : Result RuntimeError (Invocation K)) : M K unit :=
  modify_exec (set_pending (Some r)).

Definition map_result_ok {A B} (f : A → B) (r : Result RuntimeError A) : Result RuntimeError B :=
  match r with Ok a => Ok (f a) | Err e => Err e end.

Definition direct_callable (bc : Bytecode) (target : CallableTemplateDirectTarget) : Callable :=
  match target with
  | DirectUserFunction id => callable_for_function bc id
  | DirectBuiltin id => mkCallable (CtBuiltin id) [] default_metadata
  end.

(** The argument that a source of a partial application denotes. *)
Definition template_arg (id : N) (captures args : list Value) (source : CallableTemplateArg) :
    Result RuntimeError Value :=
  match source with
  | ArgBound i => ok_or (captures !! N.to_nat i)
      (RuntimeError.new (lit "Callable template " ++ fmt_N id ++ lit " bound arg out of bounds: " ++ fmt_N i))
  | ArgRuntime i => ok_or (args !! N.to_nat i)
      (RuntimeError.new (lit "Callable template " ++ fmt_N id ++ lit " runtime arg out of bounds: " ++ fmt_N i))
  end.

Definition callable_capture (captures : list Value) (i : nat) (message : str) : Result RuntimeError Callable :=
  match captures !! i with
  | Some (VCallable c) => Ok c
  | _ => Err (RuntimeError.new message)
  end.

Definition template_invocation (bc : Bytecode) (id : N) (captures args : list Value)
    (kind : CallableTemplateKind) : Result RuntimeError (Invocation K) :=
  match kind with
  | PartialDirectCall target arg_sources =>
      let? full := map_result (template_arg id captures args) arg_sources in
      Ok (InvCallable (direct_callable bc target) full)
  | InjectDirectCall target bound_arg_count =>
      match args with
      | [] => Err (RuntimeError.new (lit "Callable template " ++ fmt_N id
                ++ lit " requires at least one runtime argument"))
      | first :: rest =>
          if decide (length captures < N.to_nat bound_arg_count) then
            Err (RuntimeError.new (lit "Callable template bound arg out of bounds"))
          else Ok (InvCallable (direct_callable bc target)
                     (first :: take (N.to_nat bound_arg_count) captures ++ rest))
      end
  | ComposeDirect Plain =>
      if decide (length args = 1) then
        let? lhs := callable_capture captures 0
          (lit "Callable template " ++ fmt_N id ++ lit " expects lhs callable capture") in
        let? rhs := callable_capture captures 1
          (lit "Callable template " ++ fmt_N id ++ lit " expects rhs callable capture") in
        Ok (InvBuiltin (OCall lhs args (KCompose rhs)))
      else Err (RuntimeError.new (lit "Callable template " ++ fmt_N id ++ lit " requires one runtime argument"))
  end.

(** Enter a function for the continuation on top. *)
Definition enter_for_continuation (entry : FunctionEntry) (locals : list Value) : M K unit :=
  let* frame := current_frame in
  let site := cf_call_site frame in
  let* trace := gets (λ vm, (λ '(a, b), trace_frame_for_call vm entry ClosureFunction a b false) <$> site) in
  let* ks := gets (λ vm, ex_continuations (vm_exec vm)) in
  match last ks with
  | None => throw (lit "callable has no return destination")
  | Some k =>
      modify_exec (λ e,
        set_frames (ex_frames e ++ [mkFrame (kf_resume_pc k) (length (values (ex_stack e))) site trace
                                      (length (ex_breadcrumbs e)) locals])
          (set_continuations (update_last (set_waiting_function true) (ex_continuations e)) e)) ;;
      modify (set_pc (N.to_nat (fe_entry_pc entry)))
  end.

Definition callable_invocation (callable : Callable) (args : list Value) : M K unit :=
  let captures := call_captures callable in
  let* bc := bytecode in
  match call_target callable with
  | CtBuiltin id =>
      let* r := attempt (call_builtin id (captures ++ args)) in
      set_invocation (map_result_ok InvBuiltin r)
  | CtFunction id =>
      let* entry := liftE (function_entry bc id) in
      let full := captures ++ args in
      if decide (length full = N.to_nat (fe_arity entry)) then
        if decide (length (opcodes bc) ≤ N.to_nat (fe_entry_pc entry)) then
          throw (entry_out_of_bounds id (fe_entry_pc entry))
        else
          let* locals := liftE (build_locals_for_call entry full) in
          enter_for_continuation entry locals
      else throw (arity_mismatch id (fe_arity entry) (length full))
  | CtTemplate id =>
      let* template := liftE (callable_template bc id) in
      let* action := liftE (template_invocation bc id captures args (ct_kind template)) in
      set_invocation (Ok action)
  end.

(** [BuiltinContinuation::resume]. *)
Definition resume (k : BuiltinContinuation K) (result : Result RuntimeError Value) : M K (BuiltinOutcome K) :=
  match k with
  | KIdentity => let* v := liftE result in ret (OComplete v)
  | KCompose rhs => let* v := liftE result in ret (OCall rhs [v] KIdentity)
  | KOther k' =>
      match pure_kind k' with
      | Some _ => let* _ := liftE result in liftE (pure_step k')
      | None => resume_impure k result
      end
  | KErrorConstruction _ _ _ _ _ => resume_impure k result
  end.

(** ** Delivering results *)

Definition continuation_ready vm : bool :=
  let e := vm_exec vm in
  match ex_pending e with Some _ => true | None => false end
  || match last (ex_continuations e) with
     | Some c =>
         match kf_waiting_future c with Some _ => true | None => false end
         || kf_waiting_function c && bool_decide (length (ex_frames e) = kf_frame_depth c)
     | None => false
     end.

Definition push_builtin_continuation (k : BuiltinContinuation K) : M K unit :=
  modify (λ vm, let e := vm_exec vm in
    set_exec (set_continuations (ex_continuations e ++ [builtin_frame k e (vm_pc vm)]) e) vm).

Definition set_call_site_if_none (l : option Location) (c : RuntimeErrorContext) : RuntimeErrorContext :=
  mkErrorContext (rec_pc c) (rec_opcode c) (rec_function c) (or_else (rec_call_site c) l)
    (rec_details c) (rec_stack_trace c).

Definition set_trace_if_empty (t : list RuntimeStackFrame) (c : RuntimeErrorContext) : RuntimeErrorContext :=
  mkErrorContext (rec_pc c) (rec_opcode c) (rec_function c) (rec_call_site c) (rec_details c)
    (match rec_stack_trace c with [] => t | trace => trace end).

Definition enrich_continuation_error vm (error : RuntimeError) : RuntimeError :=
  let origin :=
    c ← last (ex_continuations (vm_exec vm));
    pc ← kf_origin_pc c;
    op ← opcodes (vm_bytecode vm) !! pc;
    Some (pc, op) in
  match origin with
  | Some (pc, op) => enrich_runtime_error vm error pc (debug_opcode op)
  | None =>
      mkRuntimeError (re_message error)
        (set_trace_if_empty (current_stack_trace_snapshot vm)
           (set_call_site_if_none (runtime_error_location vm) (re_context error)))
  end.

(** A cancelled context keeps its first error and records later ones in it. *)
Definition cancelled_result {A} (result : Result RuntimeError A) : M K (Result RuntimeError A) := λ vm,
  match ex_cancellation (vm_exec vm) with
  | None => (vm, Ok result)
  | Some original =>
      let original' :=
        match result with
        | Err secondary => RuntimeError.retain_secondary_failure original secondary (lit "cancellation cleanup")
        | Ok _ => original
        end in
      (set_exec (set_cancellation (Some original') (vm_exec vm)) vm, Ok (Err original'))
  end.

Definition deliver_continuation (result : Result RuntimeError Value) : M K unit :=
  let* r := cancelled_result result in
  let* vm := gets (λ vm, vm) in
  let result := match r with Ok v => Ok v | Err e => Err (enrich_continuation_error vm e) end in
  match last (ex_continuations (vm_exec vm)) with
  | None => throw (lit "missing continuation return destination")
  | Some frame =>
      modify (λ vm, let e := vm_exec vm in
        set_pc (kf_resume_pc frame)
          (set_exec
             (set_stack (OperandStack.truncate (kf_stack_base frame) (ex_stack e))
                (set_breadcrumbs (take (kf_breadcrumb_base frame) (ex_breadcrumbs e))
                   (set_frames (take (kf_frame_depth frame) (ex_frames e))
                      (set_continuations (pop_last (ex_continuations e)) e)))) vm)) ;;
      match kf_destination frame with
      | DestBuiltin k =>
          let* resumed := attempt (resume k result) in
          let* r' := cancelled_result (map_result_ok InvBuiltin resumed) in
          set_invocation r'
      | DestStack tail previous_site previous_trace =>
          update_frame (λ f, set_trace_frame previous_trace (set_call_site previous_site f)) ;;
          let* value := liftE result in
          if tail then
            let* pc := return_from_current_frame value in
            modify (set_pc pc)
          else push_value value
      end
  end.

(** ** Stepping *)

Definition complete_execution_target target : M K (option Value) :=
  match target with
  | TopLevel => ret None
  | FrameDepth frame_depth =>
      let* n := gets (λ vm, length (frames vm)) in
      if decide (n = frame_depth) then let* v := pop_stack in ret (Some v) else ret None
  end.

(** The loop over the pending identifiers on the stack, with its cache of the two
    identifiers last found missing. *)
Fixpoint collect_ready (rt : ProcessRuntime (ExecutionContext K)) (ids : list N) (previous : option N)
    (missing : option N * option N) (missing_next : bool) (ready : gmap N Value) : gmap N Value :=
  match ids with
  | [] => ready
  | id :: ids' =>
      if bool_decide (previous = Some id)
         || bool_decide (missing.1 = Some id) || bool_decide (missing.2 = Some id)
         || bool_decide (is_Some (ready !! id))
      then collect_ready rt ids' (Some id) missing missing_next ready
      else
        match ProcessRuntime.raw_ready_future_value rt id with
        | Some value => collect_ready rt ids' (Some id) missing missing_next (<[id := value]> ready)
        | None =>
            collect_ready rt ids' (Some id)
              (if missing_next then (missing.1, Some id) else (Some id, missing.2)) (negb missing_next) ready
        end
  end.

(** Futures whose producer still has to clean up are not visible yet. *)
Definition hide_unclean (ready : gmap N Value) (task : DetachedTask (ExecutionContext K)) : gmap N Value :=
  match dk_completion task with
  | CompFuture (Some id) | CompErrorFuture id => delete id ready
  | CompFuture None | CompProcess _ _ => ready
  end.

Definition resolve_ready_pending_stack_values : M K unit := λ vm,
  let rt := vm_runtime vm in
  if negb (OperandStack.has_pending_futures (stack vm)) then (vm, Ok tt)
  else if decide (pr_futures rt = ∅) then (vm, Ok tt)
  else
    match OperandStack.pending_future_ids (stack vm) with
    | Err p => (vm, Err (Panicked p))
    | Ok ids =>
        let raw := collect_ready rt ids None (None, None) false ∅ in
        if decide (raw = ∅) then (vm, Ok tt)
        else
          let ready := foldl hide_unclean raw (map_to_list (pr_detached_tasks rt)).*2 in
          if decide (ready = ∅) then (vm, Ok tt)
          else
            match OperandStack.replace_ready_futures ready (stack vm) with
            | Err p => (vm, Err (Panicked p))
            | Ok s => (set_exec (set_stack s (vm_exec vm)) vm, Ok tt)
            end
    end.

(** The invocation to perform when none is pending: a future that became ready,
    or the result of the function the continuation waited for.  [Some] is the
    early return of the step. *)
Definition fetch_pending target : M K (option (StepOutcome K)) :=
  let* e := gets vm_exec in
  match ex_pending e with
  | Some _ => ret None
  | None =>
      match last (ex_continuations e) with
      | None => ret (Some (SRuntimeError (RuntimeError.new (lit "missing continuation return destination"))))
      | Some frame =>
          match kf_waiting_future frame with
          | Some id =>
              let* value := gets (λ vm, ProcessRuntime.ready_future_value (vm_runtime vm) id) in
              match value with
              | Some v =>
                  modify_exec (λ e, set_continuations (update_last (set_waiting_future None) (ex_continuations e)) e) ;;
                  modify (release_internal_process_future id) ;;
                  set_invocation (Ok (InvBuiltin (OComplete v))) ;; ret None
              | None =>
                  let* pc := gets vm_pc in
                  let* context := take_execution_context pc target in
                  ret (Some (SPending id context))
              end
          | None =>
              modify_exec (λ e, set_continuations (update_last (set_waiting_function false) (ex_continuations e)) e) ;;
              let* r := attempt pop_stack in
              set_invocation (map_result_ok (λ v, InvBuiltin (OComplete v)) r) ;; ret None
          end
      end
  end.

(** [frame.waiting_future = Some(id)] on the continuation on top. *)
Definition wait_for_future (id : N) : M K (option (StepOutcome K)) :=
  let* e := gets vm_exec in
  match last (ex_continuations e) with
  | None => ret (Some (SRuntimeError (RuntimeError.new (lit "missing future return destination"))))
  | Some _ =>
      modify_exec (λ e, set_continuations (update_last (set_waiting_future (Some id)) (ex_continuations e)) e) ;;
      ret None
  end.

Definition perform_invocation (invocation : Result RuntimeError (Invocation K)) : M K (option (StepOutcome K)) :=
  match invocation with
  | Ok (InvCallable callable args) => callable_invocation callable args ;; ret None
  | Ok (InvBuiltin (OCall callable args k)) =>
      push_builtin_continuation k ;; set_invocation (Ok (InvCallable callable args)) ;; ret None
  | Ok (InvBuiltin (OResume k)) =>
      let* r := attempt (resume k (Ok VUnit)) in
      set_invocation (map_result_ok InvBuiltin r) ;; ret None
  | Ok (InvBuiltin (OWait future_id k)) => push_builtin_continuation k ;; wait_for_future future_id
  | Ok (InvBuiltin (OComplete (VPendingFuture id))) => wait_for_future id
  | Ok (InvBuiltin (OComplete value)) => deliver_continuation (Ok value) ;; ret None
  | Err error =>
      let* e := gets vm_exec in
      match ex_continuations e with
      | [] => ret (Some (SRuntimeError error))
      | _ => deliver_continuation (Err error) ;; ret None
      end
  end.

(** The end of a step: an error is raised again in the continuation on top, and a
    context without continuations may have reached its target. *)
Definition reraise (result : Result RuntimeError (option (StepOutcome K))) : M K (option (StepOutcome K)) :=
  match result with
  | Ok early => ret early
  | Err error =>
      let* vm := gets (λ vm, vm) in
      match ex_continuations (vm_exec vm) with
      | [] => ret (Some (SRuntimeError error))
      | _ => set_invocation (Err (enrich_continuation_error vm error)) ;; ret None
      end
  end.

Definition finish_step target : M K (StepOutcome K) :=
  let* e := gets vm_exec in
  match ex_continuations e, ex_pending e with
  | [], None =>
      let* done := attempt (complete_execution_target target) in
      match done with
      | Ok (Some value) => ret (SHalt value)
      | Ok None => ret SContinue
      | Err error => ret (SRuntimeError error)
      end
  | _, _ => ret SContinue
  end.

Definition step_continuation target : M K (StepOutcome K) :=
  let* early := fetch_pending target in
  match early with
  | Some outcome => ret outcome
  | None =>
      let* e := gets vm_exec in
      match ex_pending e with
      | None => ret (SRuntimeError (RuntimeError.new (lit "missing pending invocation")))
      | Some invocation =>
          modify_exec (set_pending None) ;;
          let* result := attempt (perform_invocation invocation) in
          let* early := reraise result in
          match early with
          | Some outcome => ret outcome
          | None => finish_step target
          end
      end
  end.

(** Where an error goes that is raised while the context runs instructions. *)
Definition raise_in_context (error : RuntimeError) : M K (StepOutcome K) :=
  let* e := gets vm_exec in
  match ex_continuations e with
  | [] => ret (SRuntimeError error)
  | _ => set_invocation (Err error) ;; ret SContinue
  end.

Definition after_opcode target (current_pc : nat) (op : Opcode) (control : OpcodeControl) (next_pc : nat) :
    M K (StepOutcome K) :=
  match control with
  | Continue =>
      modify (set_pc next_pc) ;;
      let* e := gets vm_exec in
      let* done := match ex_continuations e with
                   | [] => attempt (complete_execution_target target)
                   | _ => ret (Ok None)
                   end in
      match done with
      | Ok (Some value) => ret (SHalt value)
      | Ok None => ret SContinue
      | Err err =>
          let* vm := gets (λ vm, vm) in
          ret (SRuntimeError (enrich_runtime_error vm err current_pc (debug_opcode op)))
      end
  | ControlHalt =>
      modify (set_pc next_pc) ;;
      let* vm := gets (λ vm, vm) in
      match ex_continuations (vm_exec vm) with
      | [] => ret (SHalt (from_option id VUnit (last (values (stack vm)))))
      | _ =>
          set_invocation (Err (enrich_continuation_error vm
            (RuntimeError.new (lit "Halt inside a callable continuation")))) ;;
          ret SContinue
      end
  | Pending future_id resume_pc =>
      let* context := take_execution_context resume_pc target in ret (SPending future_id context)
  end.

Definition step_active_context target : M K (StepOutcome K) :=
  let* vm := gets (λ vm, vm) in
  if continuation_ready vm then step_continuation target
  else
    let pc := vm_pc vm in
    match opcodes (vm_bytecode vm) !! pc with
    | None =>
        let error := RuntimeError.new (lit "PC out of bounds") in
        match ex_continuations (vm_exec vm) with
        | [] => ret (SRuntimeError error)
        | _ => set_invocation (Err (enrich_continuation_error vm error)) ;; ret SContinue
        end
    | Some op =>
        resolve_ready_pending_stack_values ;;
        let* r := attempt (execute_opcode depth op (S pc)) in
        match r with
        | Ok (control, next_pc) => after_opcode target pc op control next_pc
        | Err err =>
            let* vm := gets (λ vm, vm) in
            raise_in_context (enrich_runtime_error vm err pc (debug_opcode op))
        end
    end.

(** Steps [context] in the machine; returns the context afterwards. *)
Definition step_context context : M K (StepOutcome K * ExecutionContext K) := λ vm,
  let target := ctx_target context in
  let swapped := mkContext (vm_exec vm) (ctx_pc context) target in
  match step_active_context target (restore_execution_context context vm) with
  | (vm', Ok (SPending id resume)) => (vm', Ok (SPending id resume, swapped))
  | (vm', Ok other) =>
      match take_execution_context (vm_pc vm') target vm' with
      | (vm'', Ok context') => (vm'', Ok (other, context'))
      | (vm'', Err e) => (vm'', Err e)
      end
  | (vm', Err e) => (vm', Err e)
  end.

(** ** Pure builtins in bulk *)

(** [resume_steps] of the pure continuations: transitions of one kind, one
    reduction each. *)
Fixpoint resume_steps (max_steps : nat) (used : N) (k : K) : Result RuntimeError (BuiltinOutcome K) * N :=
  match max_steps with
  | O => (Ok (OResume (KOther k)), used)
  | S n =>
      match pure_step k with
      | Ok (OResume (KOther k')) =>
          if decide (pure_kind k' = pure_kind k) then resume_steps n (used + 1) k'
          else (Ok (OResume (KOther k')), (used + 1)%N)
      | outcome => (outcome, (used + 1)%N)
      end
  end.

(** The pure continuation a context is about to resume, if it may. *)
Definition pending_pure context : option K :=
  match ex_cancellation (ctx_exec context), ex_pending (ctx_exec context) with
  | None, Some (Ok (InvBuiltin (OResume (KOther k)))) =>
      match pure_kind k with Some _ => Some k | None => None end
  | _, _ => None
  end.

Definition resume_pure_builtin context (budget : Budget) : option (ExecutionContext K * Budget) :=
  if Budget.expired budget then None
  else
    match pending_pure context with
    | None => None
    | Some k =>
        let '(outcome, used) := resume_steps (N.to_nat (Budget.remaining budget)) 0 k in
        Some (mkContext (set_pending (Some (map_result_ok InvBuiltin outcome)) (ctx_exec context))
                (ctx_pc context) (ctx_target context),
              Budget.consume used budget)
    end.

(** ** Quanta *)

(** The loop of [run_quantum]; [entered] is set after the first common step. *)
Fixpoint run_quantum_loop (fuel : nat) (entered : bool) context (budget : Budget) :
    M K (ProcessRunOutcome * ExecutionContext K * Budget) :=
  match fuel with
  | O => liftR (Err PFuel)
  | S fuel' =>
      if Budget.expired budget then ret (QuantumExpired, context, budget)
      else
        match (if entered then resume_pure_builtin context budget else None) with
        | Some (context', budget') =>
            modify (set_pc (ctx_pc context')) ;; run_quantum_loop fuel' entered context' budget'
        | None =>
            let* '(outcome, context') := step_context context in
            let budget' := Budget.consume 1 budget in
            match outcome with
            | SContinue =>
                if Budget.expired budget' then ret (QuantumExpired, context', budget')
                else run_quantum_loop fuel' true context' budget'
            | SHalt value => ret (Halted value, context', budget')
            | SPending future_id resume => ret (PendingOn future_id, resume, budget')
            | SRuntimeError err => ret (FailedWith err, context', budget')
            end
        end
  end.

(** Every turn of the loop uses up at least one reduction. *)
Definition run_quantum context (budget : Budget) : M K (ProcessRunOutcome * ExecutionContext K * Budget) :=
  run_quantum_loop (S (N.to_nat (Budget.remaining budget))) false context budget.

(** ** The scheduler *)

Definition update_process (pid : N) (f : ProcessInstance (ExecutionContext K) → ProcessInstance (ExecutionContext K)) :
    M K unit :=
  modify (λ vm, let rt := vm_runtime vm in set_runtime (set_processes (alter f pid (pr_processes rt)) rt) vm).

Definition modify_runtime (f : ProcessRuntime (ExecutionContext K) → ProcessRuntime (ExecutionContext K)) : M K unit :=
  modify (λ vm, set_runtime (f (vm_runtime vm)) vm).

Definition scheduler_tick (max_reductions : N) : M K (option ProcessRunOutcome) :=
  let* rt := gets vm_runtime in
  match pr_run_queue rt with
  | [] => ret None
  | pid :: queue =>
      modify_runtime (set_run_queue queue) ;;
      let context := p ← pr_processes rt !! pid; pn_execution_context p in
      update_process pid (set_pn_context None) ;;
      let* context := ok_orM context (lit "process " ++ fmt_N pid ++ lit " has no execution context to run") in
      let* '(outcome, context', _) := run_quantum context (Budget.new max_reductions) in
      match outcome with
      | QuantumExpired =>
          update_process pid (λ p, set_pn_context (Some context') (set_pn_status Runnable p)) ;;
          modify_runtime (ProcessRuntime.enqueue_runnable pid)
      | Halted _ => update_process pid (λ p, set_pn_context (Some context') (set_pn_status Completed p))
      | PendingOn future_id =>
          update_process pid (set_pn_context (Some context')) ;;
          modify_runtime (ProcessRuntime.mark_process_waiting pid (WaitFuture future_id))
      | FailedWith _ => update_process pid (λ p, set_pn_context (Some context') (set_pn_status ProcessFailed p))
      end ;;
      ret (Some outcome)
  end.

(** ** Running an invocation in a context of its own *)

Definition prepare_invocation_context (invocation : Invocation K) : M K (ExecutionContext K) :=
  let* pc := gets vm_pc in
  let* saved := take_execution_context pc TopLevel in
  let s := ctx_exec saved in
  modify_exec (λ e, mkExec (ex_stack e) (ex_frames s) (ex_breadcrumbs s) (ex_continuations e) (ex_pending e)
                      (ex_cancellation e) (ex_process s) (ex_bindings s)) ;;
  let* frame := gets (λ vm, last (frames vm)) in
  let* result := attempt (schedule_invocation invocation pc false
                            (f ← frame; cf_call_site f) (f ← frame; cf_trace_frame f)) in
  let* n := gets (λ vm, length (frames vm)) in
  let* pc' := gets vm_pc in
  let* context := take_execution_context pc' (FrameDepth n) in
  modify (restore_execution_context saved) ;;
  let* _ := liftE result in ret context.

End driver.

End Driver.
