(* ===== verification/DriverProps.v ===== *)
(** * Properties of the driver

    Resolving futures on the stack, quanta and preemption, calls of builtins,
    cancellation, and the scheduler. *)

From S2P Require Import Prelude Names ListHandle Value TypeRegistry OperandStack Ir RuntimeError.
From S2P Require Import StringLiteral Display ErrorSchema ProcessRuntime Machine Opcodes Frames VmProps Calls.
From S2P Require Import Driver.

Module DriverProps.
Import Machine Opcodes Frames VmProps Calls Driver.

(** ** Futures on the stack *)

Section futures.
Context {K : Type}.
Implicit Types (vm : VM K) (rt : ProcessRuntime (ExecutionContext K)).

Abbreviation raw := ProcessRuntime.raw_ready_future_value.

Lemma decide_elem_of_cons {A} (i id : N) (ids : list N) (x y : A) :
  (if decide (i ∈ id :: ids) then x else y)
  = if decide (i = id) then x else if decide (i ∈ ids) then x else y.
Proof.
  destruct (decide (i ∈ id :: ids)) as [Hi|Hi], (decide (i = id)) as [|Hne]; [done| |set_solver|].
  - apply elem_of_cons in Hi as [|Hi]; [done|]. by rewrite decide_True.
  - rewrite decide_False; [done|]. intros ?. apply Hi. by right.
Qed.

Lemma collect_ready_spec rt ids previous missing next ready :
  (∀ i v, ready !! i = Some v → raw rt i = Some v) →
  (∀ i, missing.1 = Some i ∨ missing.2 = Some i → raw rt i = None) →
  (∀ i, previous = Some i → ready !! i = raw rt i) →
  ∀ i, collect_ready rt ids previous missing next ready !! i
       = if decide (i ∈ ids) then raw rt i else ready !! i.
Proof.
  revert previous missing next ready.
  induction ids as [|id ids IH]; intros previous missing next ready Hr Hm Hp i; simpl.
  { done. }
  rewrite decide_elem_of_cons. destruct (ready !! id) as [w|] eqn:Hid.
  { assert (raw rt id = Some w) as Hw by by apply Hr.
    rewrite (bool_decide_eq_true_2 (is_Some (Some w))), orb_true_r by done.
    rewrite IH; [|done|done|intros ? [= <-]; congruence]. repeat case_decide; congruence. }
  rewrite (bool_decide_eq_false_2 (is_Some None)), orb_false_r by apply is_Some_None.
  destruct (_ || _ || _) eqn:Hc.
  - assert (raw rt id = None) as Hraw.
    { rewrite !orb_true_iff, !bool_decide_eq_true in Hc. destruct Hc as [[Hc|Hc]|Hc]; [|auto..].
      rewrite <- Hid. symmetry. by apply Hp. }
    rewrite IH; [|done|done|intros ? [= <-]; congruence]. repeat case_decide; congruence.
  - destruct (raw rt id) as [v|] eqn:Hv; rewrite IH.
    + destruct (decide (i = id)) as [->|]; [rewrite lookup_insert_eq|rewrite lookup_insert_ne by done];
        repeat case_decide; congruence.
    + intros j w. destruct (decide (j = id)) as [->|]; [rewrite lookup_insert_eq; congruence|].
      rewrite lookup_insert_ne by done. apply Hr.
    + done.
    + intros j [= <-]. by rewrite lookup_insert_eq.
    + repeat case_decide; congruence.
    + done.
    + intros j Hj. destruct next; simpl in Hj; destruct Hj; simplify_eq; auto.
    + intros j [= <-]. congruence.
Qed.

Lemma hide_unclean_spec (ready : gmap N Value) (tasks : list (DetachedTask (ExecutionContext K))) i :
  foldl hide_unclean ready tasks !! i
  = if existsb (ProcessRuntime.completes_future i) tasks then None else ready !! i.
Proof.
  revert ready. induction tasks as [|t tasks IH]; intros ready; simpl; [done|]. rewrite IH.
  destruct (existsb _ tasks); [by rewrite orb_true_r|]. rewrite orb_false_r.
  unfold hide_unclean, ProcessRuntime.completes_future.
  destruct (dk_completion t) as [[j|]|? ?|j]; [|done|done|].
  all: destruct (decide (j = i)) as [->|]; [by rewrite lookup_delete_eq, bool_decide_eq_true_2|].
  all: by rewrite lookup_delete_ne, bool_decide_eq_false_2.
Qed.

(** What the loop achieves: a pending future that is ready and has been cleaned up
    is replaced by its value. *)
Definition resolved rt (v : Value) : Value :=
  match v with
  | VPendingFuture id => from_option (λ w, w) v (ProcessRuntime.ready_future_value rt id)
  | _ => v
  end.

Lemma resolve_value_ready rt (ready : gmap N Value) (vs : list Value) :
  (∀ id, VPendingFuture id ∈ vs → ready !! id = ProcessRuntime.ready_future_value rt id) →
  OperandStack.resolve_value ready <$> vs = resolved rt <$> vs.
Proof.
  intros Hr. apply list_fmap_ext. intros i v Hv. destruct v; try done. simpl.
  rewrite Hr by by eapply list_elem_of_lookup_2. by destruct (ProcessRuntime.ready_future_value _ _).
Qed.

Lemma resolved_nothing rt (vs : list Value) :
  (∀ id, VPendingFuture id ∈ vs → ProcessRuntime.ready_future_value rt id = None) → resolved rt <$> vs = vs.
Proof.
  intros Hn. apply list_eq. intros i. rewrite list_lookup_fmap. destruct (vs !! i) as [v|] eqn:Hv; [|done].
  simpl. f_equal. destruct v; try done. simpl. by rewrite Hn by by eapply list_elem_of_lookup_2.
Qed.

Lemma pending_elem (vs : list Value) id : VPendingFuture id ∈ vs ↔ id ∈ omap OperandStack.pending_id vs.
Proof.
  rewrite list_elem_of_omap. split.
  - intros ?. by exists (VPendingFuture id).
  - intros (v & Hv & Hid). destruct v; simplify_eq/=. done.
Qed.

Lemma ready_of_raw rt id :
  ProcessRuntime.ready_future_value rt id
  = if existsb (ProcessRuntime.completes_future id) (map_to_list (pr_detached_tasks rt)).*2
    then None else raw rt id.
Proof.
  unfold ProcessRuntime.ready_future_value, ProcessRuntime.cleanup_pending.
  by destruct (raw rt id); destruct (existsb _ _).
Qed.

Lemma resolve_spec vm :
  OperandStack.positions_exact (stack vm) →
  ∃ s, resolve_ready_pending_stack_values vm = (with_stack s vm, Ok tt) ∧
    values s = resolved (vm_runtime vm) <$> values (stack vm) ∧ OperandStack.positions_exact s.
Proof.
  intros Hex. destruct (OperandStack.index_exact _ Hex) as [Hhas Hids].
  assert (with_stack (stack vm) vm = vm) as Hself by by destruct vm as [? []].
  assert (∀ vs, vs = values (stack vm) → resolved (vm_runtime vm) <$> vs = vs →
    ∃ s, (vm, Ok tt) = (with_stack s vm, Ok tt : Try RuntimeError unit) ∧
      values s = resolved (vm_runtime vm) <$> values (stack vm) ∧ OperandStack.positions_exact s) as Hkeep.
  { intros vs -> Heq. exists (stack vm). by rewrite Hself, Heq. }
  unfold resolve_ready_pending_stack_values. rewrite Hhas, Hids.
  destruct (existsb _ _) eqn:Hany; simpl.
  2:{ eapply Hkeep; [done|]. apply resolved_nothing. intros id Hid.
      assert (existsb is_pending_future (values (stack vm)) = true) as Ht; [|congruence].
      apply existsb_exists_elem. by exists (VPendingFuture id). }
  case_decide as Hfut.
  { eapply Hkeep; [done|]. apply resolved_nothing. intros id _.
    unfold ProcessRuntime.ready_future_value, raw. by rewrite Hfut, lookup_empty. }
  set (rt := vm_runtime vm) in *. set (ids := omap _ _).
  set (found := collect_ready rt ids None (None, None) false ∅).
  assert (∀ id, id ∈ ids → found !! id = raw rt id) as Hraw.
  { intros id Hid. unfold found. rewrite collect_ready_spec, decide_True by (naive_solver done). done. }
  assert (∀ id, VPendingFuture id ∈ values (stack vm) →
    foldl hide_unclean found (map_to_list (pr_detached_tasks rt)).*2 !! id
    = ProcessRuntime.ready_future_value rt id) as Hready.
  { intros id Hid%pending_elem. by rewrite hide_unclean_spec, ready_of_raw, Hraw. }
  case_decide as Hempty.
  { eapply Hkeep; [done|]. apply resolved_nothing. intros id Hid. rewrite ready_of_raw, <- Hraw, Hempty.
    - case_match; [done|apply lookup_empty].
    - by apply pending_elem. }
  case_decide as Hempty2.
  { eapply Hkeep; [done|]. apply resolved_nothing. intros id Hid. by rewrite <- Hready, Hempty2, lookup_empty. }
  destruct (OperandStack.replace_ready_futures_spec (foldl hide_unclean found (map_to_list (pr_detached_tasks rt)).*2)
              _ Hex) as (s & -> & Hv & Hs).
  exists s. split; [done|]. split; [|done]. by rewrite Hv, (resolve_value_ready rt).
Qed.

End futures.
(** Resolving futures on the operand stack before an instruction is exact: with
    the index of pending slots, the cache of the last missing identifiers and the
    filter for futures that are still being cleaned up, the values afterwards are
    the values before with each pending future that is ready replaced by its
    result; nothing else of the machine changes, and no slot is read out of range. *)
Theorem resolve_pending_exact {K : Type} (vm : VM K) (Hex : OperandStack.positions_exact (stack vm)) :
  ∃ s, resolve_ready_pending_stack_values vm = (with_stack s vm, Ok tt) ∧
    values s = resolved (vm_runtime vm) <$> values (stack vm) ∧ OperandStack.positions_exact s.
Proof. by apply resolve_spec. Qed.

(** Two slots that wait for future 0, which is ready, and one for future 1. *)
Definition ready_runtime : ProcessRuntime (ExecutionContext unit) :=
  (ProcessRuntime.resolve_future 0 (VInt 8)
    (ProcessRuntime.allocate_future None None true
      (ProcessRuntime.allocate_future None None true
        (ProcessRuntime.initial ProcessRuntime.sample_specs)).2).2).2.

Lemma resolve_pending_exact_witness :
  ∃ s, resolve_ready_pending_stack_values
         (set_runtime ready_runtime (sample_vm default_bytecode
            [VPendingFuture 0; VPendingFuture 1; VUnit; VPendingFuture 0] []))
       = (with_stack s (set_runtime ready_runtime (sample_vm default_bytecode
            [VPendingFuture 0; VPendingFuture 1; VUnit; VPendingFuture 0] [])), Ok tt) ∧
       values s = [VInt 8; VPendingFuture 1; VUnit; VInt 8].
Proof.
  destruct (resolve_pending_exact (set_runtime ready_runtime (sample_vm default_bytecode
    [VPendingFuture 0; VPendingFuture 1; VUnit; VPendingFuture 0] []))) as (s & Hx & Hv & _).
  - reflexivity.
  - exists s. split; [exact Hx|]. rewrite Hv. vm_compute. reflexivity.
Defined.

(** ** Quanta *)

Section quanta.
Context {K : Type} `{RustFmt} `{BuiltinTable} `{DbgReporter K} `{Builtins K}.
Context (depth : nat).
Implicit Types (vm : VM K) (context : ExecutionContext K) (b : Budget).

(** The reference: at most [n] steps of the context, one after the other; the
    last component is the number of steps taken. *)
Fixpoint run_steps (n : nat) context : M K (ProcessRunOutcome * ExecutionContext K * nat) :=
  match n with
  | O => ret (QuantumExpired, context, 0)
  | S n' =>
      let* '(outcome, context') := step_context depth context in
      match outcome with
      | SContinue => let* '(o, c, used) := run_steps n' context' in ret (o, c, S used)
      | SHalt value => ret (Halted value, context', 1)
      | SPending future_id resume => ret (PendingOn future_id, resume, 1)
      | SRuntimeError err => ret (FailedWith err, context', 1)
      end
  end.

(** The machine holds nothing of its own while [context] is out of it. *)
Definition parked context vm : Prop := vm_exec vm = empty_exec ∧ vm_pc vm = ctx_pc context.

Definition with_pending context (r : Result RuntimeError (Invocation K)) : ExecutionContext K :=
  mkContext (set_pending (Some r) (ctx_exec context)) (ctx_pc context) (ctx_target context).

Lemma pending_pure_Some context k :
  pending_pure context = Some k →
  ex_cancellation (ctx_exec context) = None ∧ (∃ kind, pure_kind k = Some kind) ∧
  ex_pending (ctx_exec context) = Some (Ok (InvBuiltin (OResume (KOther k)))).
Proof.
  unfold pending_pure. intros Hp. repeat case_match; simplify_eq. by eauto.
Qed.

(** One step of a context that resumes a pure builtin is one transition of it. *)
Lemma step_pure context k vm :
  pending_pure context = Some k → parked context vm →
  step_context depth context vm = (vm, Ok (SContinue, with_pending context (map_result_ok InvBuiltin (pure_step k)))).
Proof.
  intros (Hc & [kind Hk] & Hp)%pending_pure_Some [He Hpc].
  destruct context as [e pc target]. simpl in *.
  unfold step_context, step_active_context, gets, bindM, restore_execution_context, continuation_ready.
  simpl. rewrite Hp. simpl. unfold step_continuation, fetch_pending, bindM, gets. simpl. rewrite Hp. simpl.
  rewrite Hp. unfold perform_invocation, attempt, bindM, resume. simpl. rewrite Hk.
  destruct vm as [vbc vexec vpc vs vsf ve vio vr vh vx vl vrt]. simpl in *. subst vexec vpc.
  unfold with_pending. destruct (pure_step k) as [o|err]; simpl.
  all: unfold finish_step, bindM, gets; simpl; by destruct (ex_continuations e).
Qed.

Lemma step_context_parks context vm vm' context' :
  step_context depth context vm = (vm', Ok (SContinue, context')) → parked context' vm'.
Proof.
  unfold step_context. destruct (step_active_context _ _ _) as [vm1 [[]|]]; simpl; intros Hs; by simplify_eq.
Qed.

Lemma resume_steps_shift n used k :
  resume_steps n used k = ((resume_steps n 0 k).1, (used + (resume_steps n 0 k).2)%N).
Proof.
  revert used k. induction n as [|n IH]; intros used k; simpl; [f_equal; lia|].
  destruct (pure_step k) as [[v|c a k'|[rhs| |? ? ? ? ?|k']|f k']|e]; simpl; try (f_equal; lia).
  case_decide; simpl; [|f_equal; lia].
  rewrite (IH (used + 1)%N), (IH 1%N). simpl. f_equal. lia.
Qed.

(** Adds steps already taken to a result. *)
Definition add_used (u : nat) (r : VM K * Try RuntimeError (ProcessRunOutcome * ExecutionContext K * nat)) :
    VM K * Try RuntimeError (ProcessRunOutcome * ExecutionContext K * nat) :=
  match r with
  | (vm, Ok (o, c, used)) => (vm, Ok (o, c, u + used))
  | (vm, Err e) => (vm, Err e)
  end.

Lemma run_steps_continue n context vm context1 vm1 :
  step_context depth context vm = (vm1, Ok (SContinue, context1)) →
  run_steps (S n) context vm = add_used 1 (run_steps n context1 vm1).
Proof.
  intros Hs. simpl. unfold bindM. rewrite Hs. by destruct (run_steps n context1 vm1) as [vm' [[[o c] u]|e]].
Qed.

Lemma run_steps_pure n context k vm :
  pending_pure context = Some k → parked context vm →
  run_steps (S n) context vm
  = add_used 1 (run_steps n (with_pending context (map_result_ok InvBuiltin (pure_step k))) vm).
Proof. intros Hp Hk. by apply run_steps_continue, step_pure. Qed.

Lemma add_used_plus a c r : add_used a (add_used c r) = add_used (a + c) r.
Proof. destruct r as [vm [[[o x] u]|e]]; simpl; [|done]. by rewrite Nat.add_assoc. Qed.

(** The transitions of [resume_steps] are as many single steps. *)
Lemma run_steps_bulk n context k vm :
  pending_pure context = Some k → parked context vm →
  let '(outcome, used) := resume_steps n 0 k in
  (N.to_nat used ≤ n ∧ (n ≠ 0 → used ≠ 0%N)) ∧
  run_steps n context vm
  = add_used (N.to_nat used) (run_steps (n - N.to_nat used)
      (with_pending context (map_result_ok InvBuiltin outcome)) vm).
Proof.
  revert context k. induction n as [|n IH]; intros context k Hp Hpark.
  - simpl. split; [done|]. apply pending_pure_Some in Hp as (_ & _ & Hp).
    unfold with_pending. rewrite <- Hp. by destruct context as [[] ? ?].
  - rewrite (run_steps_pure _ _ _ _ Hp Hpark).
    assert (∀ r, r = pure_step k → resume_steps (S n) 0 k = (r, 1%N) →
      let '(outcome, used) := resume_steps (S n) 0 k in
      (N.to_nat used ≤ S n ∧ (S n ≠ 0 → used ≠ 0%N)) ∧
      add_used 1 (run_steps n (with_pending context (map_result_ok InvBuiltin (pure_step k))) vm)
      = add_used (N.to_nat used) (run_steps (S n - N.to_nat used)
          (with_pending context (map_result_ok InvBuiltin outcome)) vm)) as Hone.
    { intros r -> ->. change (N.to_nat 1) with 1. rewrite Nat.sub_succ, Nat.sub_0_r. split; [lia|done]. }
    destruct (pure_step k) as [[v|c a k'|[rhs| |? ? ? ? ?|k']|f k']|e] eqn:Hs;
      try (apply (Hone _ eq_refl); simpl; by rewrite Hs).
    destruct (decide (pure_kind k' = pure_kind k)) as [Hkind|Hkind].
    2:{ apply (Hone _ eq_refl). simpl. rewrite Hs. by rewrite decide_False. }
    clear Hone. simpl resume_steps. rewrite Hs, decide_True, resume_steps_shift by done.
    assert (pending_pure (with_pending context (Ok (InvBuiltin (OResume (KOther k'))))) = Some k') as Hp'.
    { apply pending_pure_Some in Hp as (Hc & [kind Hkk] & _). unfold pending_pure. simpl.
      by rewrite Hc, Hkind, Hkk. }
    specialize (IH _ _ Hp' Hpark). destruct (resume_steps n 0 k') as [outcome used]. simpl in *.
    destruct IH as [[Hle _] IH]. split; [lia|]. rewrite IH, add_used_plus.
    rewrite N2Nat.inj_add. done.
Qed.

(** ** Budgets *)

(** Both counters are [u64]s. *)
Definition budget_wf b : Prop := (bu_max_reductions b ≤ u64_max)%N ∧ (bu_reductions b ≤ u64_max)%N.

Lemma budget_expired b : Budget.expired b = true ↔ N.to_nat (Budget.remaining b) = 0.
Proof. unfold Budget.expired, Budget.remaining, u64_saturating_sub. rewrite N.leb_le. lia. Qed.

Lemma consume_plus a c b : Budget.consume c (Budget.consume a b) = Budget.consume (a + c) b.
Proof. unfold Budget.consume, u64_saturating_add. simpl. f_equal. lia. Qed.

Lemma consume_zero b : budget_wf b → Budget.consume 0 b = b.
Proof. intros [_ Hr]. unfold Budget.consume, u64_saturating_add. destruct b as [m r]. simpl in *. f_equal. lia. Qed.

Lemma consume_wf a b : budget_wf b → budget_wf (Budget.consume a b).
Proof. intros [??]. split; [done|]. simpl. unfold u64_saturating_add. lia. Qed.

Lemma remaining_consume a b :
  budget_wf b → N.to_nat a ≤ N.to_nat (Budget.remaining b) →
  N.to_nat (Budget.remaining (Budget.consume a b)) = N.to_nat (Budget.remaining b) - N.to_nat a.
Proof.
  intros [Hm Hr] Ha. unfold Budget.remaining, Budget.consume, u64_saturating_sub, u64_saturating_add in *.
  simpl. lia.
Qed.

(** A result of the reference with the budget it leaves of [b]. *)
Definition spend b (r : VM K * Try RuntimeError (ProcessRunOutcome * ExecutionContext K * nat)) :
    VM K * Try RuntimeError (ProcessRunOutcome * ExecutionContext K * Budget) :=
  match r with
  | (vm, Ok (o, c, used)) => (vm, Ok (o, c, Budget.consume (N.of_nat used) b))
  | (vm, Err e) => (vm, Err e)
  end.

Lemma spend_add b u r : spend (Budget.consume (N.of_nat u) b) r = spend b (add_used u r).
Proof.
  destruct r as [vm [[[o c] used]|e]]; simpl; [|done]. by rewrite consume_plus, Nat2N.inj_add.
Qed.

Lemma run_quantum_loop_spec n fuel entered context b vm :
  N.to_nat (Budget.remaining b) = n → n < fuel → budget_wf b → (entered = true → parked context vm) →
  run_quantum_loop depth fuel entered context b vm = spend b (run_steps n context vm).
Proof.
  revert fuel entered context b vm. induction (lt_wf n) as [n _ IH].
  intros [|fuel] entered context b vm Hrem Hfuel Hwf Hpark; [lia|]. simpl.
  destruct (Budget.expired b) eqn:Hexp.
  { apply budget_expired in Hexp. assert (n = 0) as -> by lia. simpl. by rewrite consume_zero. }
  assert (n ≠ 0) as Hn by (intros ->; apply budget_expired in Hrem; congruence).
  destruct (if entered then resume_pure_builtin context b else None) as [[context' b']|] eqn:Hpure.
  - destruct entered; [|done]. unfold resume_pure_builtin in Hpure. rewrite Hexp, Hrem in Hpure.
    destruct (pending_pure context) as [k|] eqn:Hk; [|done].
    pose proof (run_steps_bulk n context k vm Hk (Hpark eq_refl)) as Hbulk.
    destruct (resume_steps n 0 k) as [outcome used]. simplify_eq. destruct Hbulk as [[Hle Hpos] ->].
    specialize (Hpos Hn). destruct (Hpark eq_refl) as [Hpe Hpp].
    change (bindM (modify (set_pc ?pc)) (λ _, ?k) vm) with (k (set_pc pc vm)).
    unfold bindM, modify. simpl.
    assert (set_pc (ctx_pc context) vm = vm) as -> by (rewrite <- Hpp; by destruct vm).
    rewrite (IH (N.to_nat (Budget.remaining b) - N.to_nat used)).
    + rewrite <- spend_add, N2Nat.id. done.
    + lia.
    + by rewrite remaining_consume.
    + lia.
    + by apply consume_wf.
    + by intros _.
  - destruct n as [|n]; [done|]. simpl. unfold bindM.
    destruct (step_context depth context vm) as [vm1 [[outcome context']|e]] eqn:Hstep; [|done].
    assert (N.to_nat (Budget.remaining (Budget.consume 1 b)) = n) as Hrem'
      by (rewrite remaining_consume by (done || lia); lia).
    destruct outcome; try done.
    assert (run_quantum_loop depth fuel true context' (Budget.consume 1 b) vm1
            = spend (Budget.consume 1 b) (run_steps n context' vm1)) as Hloop.
    { apply IH; [lia|done|lia|by apply consume_wf|]. intros _. by eapply step_context_parks. }
    assert (∀ r, spend (Budget.consume 1 b) r = spend b (add_used 1 r)) as Hspend by apply (spend_add b 1).
    destruct (Budget.expired (Budget.consume 1 b)) eqn:Hexp'.
    + apply budget_expired in Hexp'. assert (n = 0) as -> by lia. done.
    + rewrite Hloop, Hspend. by destruct (run_steps n context' vm1) as [vm' [[[o c] u]|e]].
Qed.

Lemma run_steps_used n context vm vm' o c used :
  run_steps n context vm = (vm', Ok (o, c, used)) → used ≤ n ∧ (o = QuantumExpired → used = n).
Proof.
  revert context vm used. induction n as [|n IH]; intros context vm used; simpl.
  { intros [= <- <- <- <-]. done. }
  unfold bindM. destruct (step_context depth context vm) as [vm1 [[[] context']|e]];
    try (by intros [= <- <- <- <-]; split; [lia|]); [|done].
  destruct (run_steps n context' vm1) as [vm2 [[[o' c'] u]|e]] eqn:Hr; [|done].
  intros [= <- <- <- <-]. destruct (IH _ _ _ Hr) as [Hu Hq]; [done..|]. split; [lia|]. intros Ho. f_equal. auto.
Qed.

(** Running [a + c] steps is running [a] and, if nothing happened, [c] more. *)
Lemma run_steps_plus a c context vm :
  run_steps (a + c) context vm =
  match run_steps a context vm with
  | (vm1, Ok (QuantumExpired, context1, used)) => add_used used (run_steps c context1 vm1)
  | r => r
  end.
Proof.
  revert context vm. induction a as [|a IH]; intros context vm; simpl.
  { by destruct (run_steps c context vm) as [vm' [[[o x] u]|e]]. }
  unfold bindM. destruct (step_context depth context vm) as [vm1 [[[] context']|e]]; try done.
  rewrite IH. destruct (run_steps a context' vm1) as [vm2 [[[[] c'] u]|e]]; try done.
  unfold ret. by destruct (run_steps c c' vm2) as [vm3 [[[o x] u']|e]].
Qed.

End quanta.

(** C6: running a context for a quantum is running it step by step: the bulk path
    for pure builtins, the flag that delays it and the two tests of the budget
    change nothing.  The quantum makes exactly the steps the reference makes with
    the remaining budget, ends in the same state of the machine and of the context,
    and charges one reduction per step, so that it never overruns its budget and
    stops with the budget used up when it is preempted. *)
Theorem quantum_equals_steps {K : Type} `{RustFmt} `{BuiltinTable} `{DbgReporter K} `{Builtins K}
    (depth : nat) (context : ExecutionContext K) (b : Budget) (vm : VM K) (Hwf : budget_wf b) :
  run_quantum depth context b vm = spend b (run_steps depth (N.to_nat (Budget.remaining b)) context vm) ∧
  ∀ vm' o c b', run_quantum depth context b vm = (vm', Ok (o, c, b')) →
    (bu_reductions b' ≤ N.max (bu_reductions b) (bu_max_reductions b))%N ∧
    (o = QuantumExpired → Budget.expired b' = true).
Proof.
  assert (run_quantum depth context b vm
    = spend b (run_steps depth (N.to_nat (Budget.remaining b)) context vm)) as Heq
    by (by apply run_quantum_loop_spec; auto).
  split; [done|]. intros vm' o c b'. rewrite Heq.
  destruct (run_steps _ _ _ _) as [vm1 [[[o1 c1] used]|e]] eqn:Hr; [|done]. simpl. intros [= <- <- <- <-].
  destruct (run_steps_used _ _ _ _ _ _ _ _ Hr) as [Hu Hq].
  pose proof (remaining_consume (N.of_nat used) b Hwf ltac:(lia)) as Hrem.
  destruct Hwf as [Hm Hred]. split.
  - unfold Budget.consume, Budget.remaining, u64_saturating_add, u64_saturating_sub in *. simpl. lia.
  - intros Ho. apply budget_expired. specialize (Hq Ho). lia.
Qed.

(** The same machine, and the same outcome and context or the same failure. *)
Definition same_run {K} (r r' : VM K * Try RuntimeError (ProcessRunOutcome * ExecutionContext K * Budget)) : Prop :=
  r.1 = r'.1 ∧
  match r.2, r'.2 with
  | Ok (o, x, _), Ok (o', x', _) => o = o' ∧ x = x'
  | Err e, Err e' => e = e'
  | _, _ => False
  end.

(** C5: preemption is invisible: a quantum of [a] reductions that is preempted,
    followed by a quantum of [c] in the machine it left, gives the same outcome, the
    same context and the same machine as one quantum of [a + c]; and a quantum that
    is not preempted gives them for every larger budget. *)
Theorem preemption_invisible {K : Type} `{RustFmt} `{BuiltinTable} `{DbgReporter K} `{Builtins K}
    (depth : nat) (context context1 : ExecutionContext K) (a c : N) (vm vm1 : VM K) (o1 : ProcessRunOutcome)
    (b1 : Budget) (Hmax : (a + c ≤ u64_max)%N)
    (Hfirst : run_quantum depth context (Budget.new a) vm = (vm1, Ok (o1, context1, b1))) :
  match o1 with
  | QuantumExpired =>
      same_run (run_quantum depth context (Budget.new (a + c)) vm)
        (run_quantum depth context1 (Budget.new c) vm1)
  | _ =>
      (run_quantum depth context (Budget.new (a + c)) vm).1 = vm1 ∧
      ∃ b, (run_quantum depth context (Budget.new (a + c)) vm).2 = Ok (o1, context1, b)
  end.
Proof.
  assert (∀ n x y, (n ≤ u64_max)%N →
    run_quantum depth x (Budget.new n) y = spend (Budget.new n) (run_steps depth (N.to_nat n) x y)) as Hrun.
  { intros n x y Hn. unfold run_quantum.
    rewrite (run_quantum_loop_spec depth (N.to_nat n)); try done.
    - unfold Budget.remaining, Budget.new, u64_saturating_sub. simpl. lia.
    - unfold Budget.remaining, Budget.new, u64_saturating_sub. simpl. lia. }
  rewrite Hrun in Hfirst by lia. simpl. rewrite Hrun by lia.
  rewrite N2Nat.inj_add, run_steps_plus.
  destruct (run_steps depth (N.to_nat a) context vm) as [vm2 [[[o c1] used]|e]] eqn:Ha; [|done].
  simpl in Hfirst. simplify_eq. destruct o1; simpl; eauto.
  rewrite Hrun by lia. destruct (run_steps depth (N.to_nat c) context1 vm1) as [vm3 [[[o x] u]|e]]; done.
Qed.

(** ** Calls of builtins *)

Section builtin_calls.
Context {K : Type} `{RustFmt} `{BuiltinTable} `{DbgReporter K} `{Builtins K}.
Context (depth : nat).
Implicit Types (vm : VM K) (target : ExecutionTarget).

#[local] Arguments perform_invocation : simpl never.

(** The builtin completes at once with [v] and leaves the execution state alone. *)
Definition answers (id : N) (args : list Value) (v : Value) : Prop :=
  ∀ vm, ∃ vm', call_builtin id args vm = (vm', Ok (OComplete v)) ∧
    vm_exec vm' = vm_exec vm ∧ vm_pc vm' = vm_pc vm ∧ vm_bytecode vm' = vm_bytecode vm.

(** The target of the run is not the frame the machine is in. *)
Definition runs_on target vm : Prop :=
  match target with TopLevel => True | FrameDepth n => length (frames vm) ≠ n end.

(** The execution state between the [CallBuiltin] instruction and the result. *)
Definition calling (s : OperandStack) (site : N * N) (trace : RuntimeStackFrame) (f : CallFrame)
    (inv : option (Result RuntimeError (Invocation K))) (pc : nat) (e : Exec K) : Exec K :=
  mkExec s (update_last (λ f, set_trace_frame (Some trace) (set_call_site (Some site) f)) (ex_frames e))
    (ex_breadcrumbs e)
    (ex_continuations e ++ [mkContinuation (DestStack false (cf_call_site f) (cf_trace_frame f))
       (length (ex_frames e)) (length (values s)) (S pc) (Some pc) (length (ex_breadcrumbs e)) false None])
    inv (ex_cancellation e) (ex_process e) (ex_bindings e).

Lemma update_last_length {A} (g : A → A) l : length (update_last g l) = length l.
Proof. unfold update_last. apply length_alter. Qed.

Lemma step_call_builtin target vm id arity s e vs args f :
  opcodes (vm_bytecode vm) !! vm_pc vm = Some (CallBuiltin id arity s e) →
  continuation_ready vm = false → holds (stack vm) (vs ++ args) → N.to_nat arity = length args →
  Forall (λ v, is_pending_future v = false) (vs ++ args) → last (frames vm) = Some f →
  ∃ s1 trace, holds s1 vs ∧
    step_active_context depth target vm
    = (set_pc (S (vm_pc vm)) (set_exec (calling s1 (s, e) trace f
         (Some (Ok (InvCallable (mkCallable (CtBuiltin id) [] default_metadata) args))) (vm_pc vm) (vm_exec vm)) vm),
       Ok SContinue).
Proof.
  intros Hop Hready Hh Har Hnp Hf.
  assert (resolve_ready_pending_stack_values vm = (vm, Ok tt)) as Hres.
  { unfold resolve_ready_pending_stack_values. destruct Hh as [Hv Hex].
    destruct (OperandStack.index_exact _ Hex) as [-> _]. rewrite Hv.
    destruct (existsb _ _) eqn:Hany; [|done]. apply existsb_exists_elem in Hany as (v & Hin & Hp).
    rewrite Forall_forall in Hnp. rewrite (Hnp _ Hin) in Hp. done. }
  destruct (pop_many_holds args [] vm _ Hh) as (s1 & Hp1 & Hh1). rewrite app_nil_r, <- Har in Hp1.
  exists s1, (trace_frame_for_builtin (with_stack s1 vm) (builtin_name id) s e). split; [done|].
  unfold step_active_context, gets, bindM. rewrite Hready, Hop, Hres.
  unfold attempt, execute_opcode, exec_call_builtin, bindM, gets. rewrite Hp1.
  unfold schedule_callable, schedule_invocation, update_frame, bindM, current_frame.
  change (frames (with_stack s1 vm)) with (frames vm). rewrite Hf. cbn [ok_or lift_res map_err].
  unfold modify_exec, modify, continue_at, ret, after_opcode, bindM, gets. simpl.
  unfold calling. rewrite update_last_length. by destruct (ex_continuations (vm_exec vm)).
Qed.

(** A step that finds an invocation pending performs it. *)
Lemma step_pending target vm inv vm1 result :
  ex_pending (vm_exec vm) = Some inv →
  attempt (perform_invocation inv) (set_exec (set_pending None (vm_exec vm)) vm) = (vm1, Ok result) →
  step_active_context depth target vm =
  (let* early := reraise result in
   match early with Some outcome => ret outcome | None => finish_step target end) vm1.
Proof.
  intros Hp Hperf. unfold step_active_context, continuation_ready, gets, bindM. rewrite Hp. cbn [orb].
  unfold step_continuation, fetch_pending, gets, bindM. rewrite Hp. cbv beta iota. unfold ret at 1. rewrite Hp.
  cbv [modify_exec modify]. by rewrite Hperf.
Qed.

Lemma step_invoke_builtin target vm id args v :
  ex_pending (vm_exec vm) = Some (Ok (InvCallable (mkCallable (CtBuiltin id) [] default_metadata) args)) →
  answers id args v →
  ∃ vm', step_active_context depth target vm = (vm', Ok SContinue) ∧
    vm_exec vm' = set_pending (Some (Ok (InvBuiltin (OComplete v)))) (vm_exec vm) ∧
    vm_pc vm' = vm_pc vm ∧ vm_bytecode vm' = vm_bytecode vm.
Proof.
  intros Hp Hans.
  destruct (Hans (set_exec (set_pending None (vm_exec vm)) vm)) as (vm1 & Hcall & He & Hpc & Hbc).
  exists (set_exec (set_pending (Some (Ok (InvBuiltin (OComplete v)))) (vm_exec vm1)) vm1).
  split; [|simpl; by rewrite He].
  erewrite step_pending; [|done|].
  2:{ unfold attempt, perform_invocation, callable_invocation, bytecode, gets, bindM. simpl.
      unfold attempt. rewrite Hcall. reflexivity. }
  unfold finish_step, reraise, gets, bindM, ret. simpl. by destruct (ex_continuations (vm_exec vm1)).
Qed.

Lemma last_update_last {A} (g : A → A) l : last (update_last g l) = g <$> last l.
Proof.
  unfold update_last. rewrite !last_lookup, length_alter. destruct l as [|x l]; [done|]. simpl.
  by rewrite Nat.sub_0_r, list_lookup_alter_eq.
Qed.

(** A value that is not a future goes straight to the continuation. *)
Lemma perform_complete v :
  is_pending_future v = false →
  perform_invocation (K:=K) (Ok (InvBuiltin (OComplete v))) = (deliver_continuation (Ok v) ;; ret None).
Proof. by destruct v. Qed.

Lemma restore_frame fs f site trace :
  last fs = Some f →
  update_last (λ g, set_trace_frame (cf_trace_frame f) (set_call_site (cf_call_site f) g))
    (take (length fs) (update_last (λ g, set_trace_frame trace (set_call_site site g)) fs)) = fs.
Proof.
  intros [fs' ->]%last_Some. unfold update_last. rewrite !length_app, !Nat.add_sub.
  rewrite (alter_app_r_alt _ _ _ (length fs')), Nat.sub_diag by lia. simpl.
  rewrite take_ge by (rewrite length_app; simpl; lia).
  rewrite !length_app, Nat.add_sub, (alter_app_r_alt _ _ _ (length fs')), Nat.sub_diag by lia.
  simpl. by destruct f.
Qed.

Lemma step_deliver target vm0 vm s1 site trace f v vs :
  vm_exec vm = calling s1 site trace f (Some (Ok (InvBuiltin (OComplete v)))) (vm_pc vm0) (vm_exec vm0) →
  last (frames vm0) = Some f → holds s1 vs → is_pending_future v = false →
  ex_cancellation (vm_exec vm0) = None → runs_on target vm0 →
  ∃ vm' s, step_active_context depth target vm = (vm', Ok SContinue) ∧ holds s (vs ++ [v]) ∧
    vm_exec vm' = set_pending None (set_stack s (vm_exec vm0)) ∧
    vm_pc vm' = S (vm_pc vm0) ∧ vm_bytecode vm' = vm_bytecode vm.
Proof.
  intros He Hf Hh Hv Hc Hrun. destruct Hh as [Hvs Hex].
  set (s := OperandStack.push v (OperandStack.truncate (length (values s1)) s1)).
  assert (holds s (vs ++ [v])) as Hs.
  { rewrite <- (take_ge vs (length (values s1))) by (rewrite Hvs; lia). by apply truncate_push_holds. }
  set (vm' := set_pc (S (vm_pc vm0)) (set_exec (set_pending None (set_stack s (vm_exec vm0))) vm)).
  exists vm', s.
  assert (perform_invocation (Ok (InvBuiltin (OComplete v))) (set_exec (set_pending None (vm_exec vm)) vm)
          = (vm', Ok None)) as Hperf.
  { rewrite perform_complete by done. unfold deliver_continuation, cancelled_result, gets, bindM. simpl.
    rewrite He. simpl. rewrite Hc. simpl. rewrite last_snoc. simpl. unfold pop_last.
    rewrite length_app, Nat.add_sub, take_app_length, (take_ge (ex_breadcrumbs _)) by done.
    unfold update_frame, current_frame, bindM, frames in *. simpl.
    rewrite take_ge at 1 by by rewrite update_last_length. rewrite last_update_last, Hf. simpl.
    rewrite (restore_frame _ _ _ _ Hf). done. }
  split; [|done].
  erewrite step_pending; [|by rewrite He|unfold attempt; by rewrite Hperf].
  unfold finish_step, reraise, gets, bindM, ret. simpl. destruct (ex_continuations (vm_exec vm0)); [|done].
  unfold attempt, complete_execution_target. destruct target; simpl; [done|].
  unfold gets, bindM. simpl. by rewrite decide_False.
Qed.

End builtin_calls.



(** Builtins for the examples: builtin [n] answers [n]; a pure continuation counts
    down and then completes. *)
Definition countdown : Builtins nat := {|
  call_builtin n args := ret (OComplete (VInt (Z.of_N n)));
  pure_kind k := Some PkListFinish;
  pure_step k := match k with O => Ok (OComplete (VInt 42)) | S k' => Ok (OResume (KOther k')) end;
  resume_impure k r := let* v := liftE r in ret (OComplete v);
|}.
Definition countdown_dbg : DbgReporter nat :=
  {| inspect_value _ _ := Ok []; render_dbg_report _ _ _ _ := [] |}.

Definition idle_vm (bc : Bytecode) : VM nat :=
  mkVM bc empty_exec 0 None None None (mkIoPolicy Passthrough Passthrough) None [] 0 None
    (ProcessRuntime.initial ProcessRuntime.sample_specs).

Definition countdown_context (k : nat) : ExecutionContext nat := standalone_builtin_context (OResume (KOther k)).

Abbreviation sample_quantum :=
  (@run_quantum nat Display.sample_fmt sample_builtins countdown_dbg countdown 0).

Lemma quantum_equals_steps_witness :
  budget_wf (Budget.new 10) ∧
  match (sample_quantum (countdown_context 3) (Budget.new 10) (idle_vm default_bytecode)).2 with
  | Ok (o, _, b) => o = Halted (VInt 42) ∧ bu_reductions b = 5%N
  | Err _ => False
  end ∧
  sample_quantum (countdown_context 3) (Budget.new 10) (idle_vm default_bytecode)
  = spend (Budget.new 10) (@run_steps nat Display.sample_fmt sample_builtins countdown_dbg countdown 0
      (N.to_nat (Budget.remaining (Budget.new 10))) (countdown_context 3) (idle_vm default_bytecode)).
Proof.
  assert (budget_wf (Budget.new 10)) as Hwf by (split; vm_compute; discriminate).
  split; [exact Hwf|]. split; [vm_compute; split; reflexivity|].
  exact (proj1 (@quantum_equals_steps nat Display.sample_fmt sample_builtins countdown_dbg countdown 0
    (countdown_context 3) (Budget.new 10) (idle_vm default_bytecode) Hwf)).
Defined.

Definition preempted (r : Try RuntimeError (ProcessRunOutcome * ExecutionContext nat * Budget)) : bool :=
  match r with Ok (QuantumExpired, _, _) => true | _ => false end.

Definition first_quantum := sample_quantum (countdown_context 3) (Budget.new 2) (idle_vm default_bytecode).

Lemma preemption_invisible_witness :
  preempted first_quantum.2 = true ∧
  ∀ context1 b1, first_quantum.2 = Ok (QuantumExpired, context1, b1) →
    same_run (sample_quantum (countdown_context 3) (Budget.new (2 + 5)) (idle_vm default_bytecode))
      (sample_quantum context1 (Budget.new 5) first_quantum.1).
Proof.
  split; [vm_compute; reflexivity|]. intros context1 b1 Hsnd.
  assert (first_quantum = (first_quantum.1, Ok (QuantumExpired, context1, b1))) as Hfirst
    by (rewrite <- Hsnd; apply surjective_pairing).
  assert (2 + 5 ≤ u64_max)%N as Hmax by (vm_compute; discriminate).
  exact (@preemption_invisible nat Display.sample_fmt sample_builtins countdown_dbg countdown 0
    (countdown_context 3) context1 2 5 (idle_vm default_bytecode) first_quantum.1 QuantumExpired b1 Hmax Hfirst).
Defined.

(** A machine about to call builtin 9 with one argument. *)
Definition calling_vm : VM nat :=
  mkVM (mkBytecode [CallBuiltin 9 1 3 4; Halt] [] 0 TypeRegistry.new [] [] [] [] None [] [] default_compile_info
          [] [] [] [] [] [] [] [] [] default_boot_plan)
    (mkExec (OperandStack.from_vec [VUnit; VInt 5]) [sample_frame 0 0] [] [] None None None None)
    0 None None None (mkIoPolicy Passthrough Passthrough) None [] 0 None
    (ProcessRuntime.initial ProcessRuntime.sample_specs).


End DriverProps.
