(* ===== verification/Cancellation.v ===== *)
(** * Cancelling a context

    A cancelled context unwinds its continuations and ends with the error it was
    cancelled with, whatever the builtins do on the way. *)

From S2P Require Import Prelude Names ListHandle Value TypeRegistry OperandStack Ir RuntimeError.
From S2P Require Import StringLiteral Display ErrorSchema ProcessRuntime Machine Opcodes Frames VmProps Calls.
From S2P Require Import Driver DriverProps.

Module Cancellation.
Import Machine Opcodes Frames VmProps Calls Driver DriverProps.
Import RuntimeError (same_error, same_error_refl, same_error_trans, retain_same_error).

Section cancellation.
Context {K : Type} `{RustFmt} `{BuiltinTable} `{DbgReporter K} `{Builtins K}.
Context (depth : nat).
Implicit Types (vm : VM K) (e : Exec K) (error : RuntimeError).

(** ** Errors keep their identity *)

Lemma context_details_plain vm pc op :
  Forall (λ d, RuntimeError.detail_kind d = None) (rec_details (runtime_error_context vm pc op)).
Proof.
  unfold runtime_error_context. simpl. rewrite !Forall_cons, !Forall_app.
  split_and!; try (by apply RuntimeError.detail_kind_head).
  - destruct (last (frames vm)); [|done]. repeat constructor; by apply RuntimeError.detail_kind_head.
  - destruct (last (values (stack vm))); [|done]. repeat constructor; by apply RuntimeError.detail_kind_head.
Qed.

Lemma enrich_same_error vm error pc op : same_error error (enrich_runtime_error vm error pc op).
Proof.
  split; [done|]. unfold RuntimeError.kind, enrich_runtime_error. cbn [re_context rec_details].
  apply RuntimeError.find_kind_app, context_details_plain.
Qed.

Lemma enrich_continuation_same_error vm error : same_error error (enrich_continuation_error vm error).
Proof.
  unfold enrich_continuation_error. case_match; [case_match|].
  - apply enrich_same_error.
  - done.
Qed.

(** ** Unwinding *)

(** What is assumed of the builtins: resuming one does not panic and leaves the
    execution state of the machine alone. *)
Definition resumes_quietly : Prop := ∀ k r vm, ∃ vm' o,
  resume_impure k r vm = (vm', o) ∧ vm_exec vm' = vm_exec vm ∧ (∀ p, o ≠ Err (Panicked p)).

(** The context is being cancelled with [error] and has [n] continuations left. *)
Record unwinding error (n : nat) e : Prop := mkUnwinding {
  un_cancelled : ∃ c, ex_cancellation e = Some c ∧ same_error error c;
  un_pending : ∃ p, ex_pending e = Some (Err p) ∧ same_error error p;
  un_length : length (ex_continuations e) = n;
  un_frames : ex_frames e ≠ [];
  un_depths : Forall (λ k, 1 ≤ kf_frame_depth k) (ex_continuations e);
}.

Lemma cancel_unwinding error (context : ExecutionContext K) :
  ex_frames (ctx_exec context) ≠ [] →
  Forall (λ k, 1 ≤ kf_frame_depth k) (ex_continuations (ctx_exec context)) →
  ∃ n, n ≤ S (length (ex_continuations (ctx_exec context))) ∧
    unwinding error n (ctx_exec (cancel_execution_context error context)).
Proof.
  intros Hne Hd. eexists. split; cycle 1.
  { split; simpl; [by eexists..|reflexivity| |].
    - by repeat case_match.
    - repeat case_match; simpl; try done. apply Forall_app. split; [done|]. apply Forall_singleton.
      unfold builtin_frame. simpl. destruct (ex_frames (ctx_exec context)); [done|]. simpl. lia. }
  simpl. repeat case_match; simpl; rewrite ?length_app; simpl; lia.
Qed.

(** A result passed through a cancelled context. *)
Lemma cancelled_result_spec {A} (r : Result RuntimeError A) error vm :
  (∃ c, ex_cancellation (vm_exec vm) = Some c ∧ same_error error c) →
  ∃ c, cancelled_result r vm = (set_exec (set_cancellation (Some c) (vm_exec vm)) vm, Ok (Err c)) ∧
       same_error error c.
Proof.
  intros (c & Hc & Hs). unfold cancelled_result. rewrite Hc. eexists. split; [reflexivity|].
  eapply same_error_trans; [done|]. destruct r; [done|]. by apply retain_same_error.
Qed.

Lemma resume_quiet k r vm :
  resumes_quietly → ∃ vm' o, attempt (resume k r) vm = (vm', Ok o) ∧ vm_exec vm' = vm_exec vm.
Proof.
  intros Hq. unfold attempt, resume.
  assert (∀ m : M K (BuiltinOutcome K), (∃ vm' o, m vm = (vm', o) ∧ vm_exec vm' = vm_exec vm ∧ ∀ p, o ≠ Err (Panicked p)) →
    ∃ vm' o, match m vm with
             | (vm', Ok a) => (vm', Ok (Ok a))
             | (vm', Err (Failed e)) => (vm', Ok (Err e))
             | (vm', Err (Panicked p)) => (vm', Err (Panicked p))
             end = (vm', (Ok o : Try RuntimeError (Result RuntimeError (BuiltinOutcome K)))) ∧
      vm_exec vm' = vm_exec vm) as Hatt.
  { intros m (vm' & o & -> & He & Hp). destruct o as [o|[p|err]]; [by eauto..|by destruct (Hp p)|by eauto]. }
  destruct k as [rhs| |? ? ? ? ?|k]; apply Hatt.
  - destruct r; eexists _, _; (split; [reflexivity|]); split; [done|by intros ?|done|by intros ?].
  - destruct r; eexists _, _; (split; [reflexivity|]); split; [done|by intros ?|done|by intros ?].
  - destruct (Hq (KErrorConstruction kind location stack_trace wrapper after) r vm) as (vm' & o & Hx). by exists vm', o.
  - destruct (pure_kind k).
    + destruct r; [destruct (pure_step k) eqn:Hk|]; eexists _, _; unfold bindM, liftE, lift_res; simpl; rewrite ?Hk;
        (split; [reflexivity|]); by split.
    + destruct (Hq (KOther k) r vm) as (vm' & o & Hx). by exists vm', o.
Qed.

(** The part of [unwinding] that delivering an error keeps, with one continuation
    less. *)
Definition unwound error (n : nat) e : Prop :=
  (∃ c, ex_cancellation e = Some c ∧ same_error error c) ∧ length (ex_continuations e) = n ∧
  ex_frames e ≠ [] ∧ Forall (λ k, 1 ≤ kf_frame_depth k) (ex_continuations e).

Lemma deliver_unwinds error n vm p :
  resumes_quietly → unwound error (S n) (vm_exec vm) →
  ∃ vm1 r, attempt (deliver_continuation (Err p)) vm = (vm1, Ok r) ∧ unwound error n (vm_exec vm1) ∧
    match r with
    | Ok _ => ∃ p', ex_pending (vm_exec vm1) = Some (Err p') ∧ same_error error p'
    | Err err => same_error error err ∧ ex_pending (vm_exec vm1) = ex_pending (vm_exec vm)
    end.
Proof.
  intros Hq (Hc & Hlen & Hne & Hd).
  destruct (cancelled_result_spec (Err p : Result RuntimeError Value) error vm Hc) as (c & Hcr & Hs).
  unfold attempt, deliver_continuation, bindM, gets. rewrite Hcr. simpl.
  destruct (last (ex_continuations (vm_exec vm))) as [frame|] eqn:Hl.
  2:{ apply last_None in Hl. by rewrite Hl in Hlen. }
  apply last_Some in Hl as [ks Hks]. cbn. rewrite Hks in Hlen, Hd |- *.
  rewrite length_app in Hlen. simpl in Hlen. apply Forall_app in Hd as [Hd Hdf]. rewrite Forall_singleton in Hdf.
  unfold pop_last. rewrite length_app, Nat.add_sub, take_app_length.
  assert (take (kf_frame_depth frame) (ex_frames (vm_exec vm)) ≠ []) as Hne'.
  { destruct (ex_frames (vm_exec vm)); [done|]. by destruct (kf_frame_depth frame); [lia|]. }
  match goal with |- context [enrich_continuation_error ?v c] =>
    pose proof (same_error_trans _ _ _ Hs (enrich_continuation_same_error v c)) as Hs';
    set (err := enrich_continuation_error v c) in * end.
  destruct (kf_destination frame) as [tail site trace|k].
  - unfold update_frame, current_frame, bindM, frames. simpl.
    destruct (last (take _ _)) as [f|] eqn:Hlf; [|by apply last_None in Hlf].
    simpl. eexists _, _. split; [reflexivity|]. simpl. split; [|done].
    split_and!; [by eexists|simpl; lia| |done]. intros Hnil%(f_equal length).
    cbn [ex_frames set_frames] in Hnil. rewrite update_last_length in Hnil. by destruct (take _ _).
  - match goal with |- context [attempt (resume k ?r) ?v] =>
      destruct (resume_quiet k r v Hq) as (vm1 & o & Hr & He); rewrite Hr end.
    destruct (cancelled_result_spec (map_result_ok InvBuiltin o) error vm1) as (c2 & Hcr2 & Hs2).
    { rewrite He. simpl. by eexists. }
    rewrite Hcr2. eexists _, _. split; [reflexivity|]. simpl. split; [|by eexists].
    rewrite He. simpl. split_and!; [by eexists|simpl; lia|done|done].
Qed.

Lemma unwinding_unwound error n e p :
  unwound error n e → ex_pending e = Some (Err p) → same_error error p → unwinding error n e.
Proof. intros (Hc & Hl & Hf & Hd) Hp Hs. by split; eauto. Qed.

(** One step takes one continuation away, or ends with the error. *)
Lemma unwind_step target error n vm :
  resumes_quietly → unwinding error n (vm_exec vm) →
  ∃ vm', (∃ err, step_active_context depth target vm = (vm', Ok (SRuntimeError err)) ∧ same_error error err) ∨
         (∃ m, n = S m ∧ step_active_context depth target vm = (vm', Ok SContinue) ∧
               unwinding error m (vm_exec vm')).
Proof.
  intros Hq [Hc (p & Hp & Hs) Hlen Hf Hd].
  set (vm0 := set_exec (set_pending None (vm_exec vm)) vm).
  destruct n as [|n].
  { apply nil_length_inv in Hlen. exists vm0. left. exists p. split; [|done].
    erewrite step_pending; [|exact Hp|].
    2:{ unfold attempt, perform_invocation, gets, bindM. simpl. rewrite Hlen. reflexivity. }
    reflexivity. }
  destruct (deliver_unwinds error n vm0 p Hq) as (vm1 & r & Hdel & Hun & Hr); [by split_and!|].
  assert (attempt (perform_invocation (Err p)) vm0
          = (vm1, Ok (match r with Ok _ => Ok None | Err err => Err err end))) as Hperf.
  { revert Hdel. unfold attempt, perform_invocation, gets, bindM. simpl.
    destruct (ex_continuations (vm_exec vm)) as [|k ks]; [done|].
    destruct (deliver_continuation (Err p) vm0) as [vm2 [u|[?|?]]]; intros; by simplify_eq. }
  erewrite step_pending; [|exact Hp|exact Hperf].
  pose proof Hun as (_ & Hlen1 & _ & _).
  destruct r as [u|err]; unfold reraise, bindM, gets, ret; simpl.
  - destruct Hr as (p' & Hp' & Hs'). exists vm1. right. exists n. split; [done|].
    unfold finish_step, bindM, gets. rewrite Hp'. split; [by destruct (ex_continuations (vm_exec vm1))|].
    by eapply unwinding_unwound.
  - destruct Hr as [Hs' Hpend]. destruct (ex_continuations (vm_exec vm1)) as [|k ks] eqn:Hks.
    { exists vm1. left. by exists err. }
    eexists. right. exists n. split; [done|]. unfold finish_step, set_invocation, modify_exec, modify, bindM, gets.
    simpl. rewrite Hks. split; [reflexivity|].
    destruct Hun as (Hc1 & Hl1 & Hf1 & Hd1). split; simpl; try done.
    eexists. split; [reflexivity|]. eapply same_error_trans; [done|]. apply enrich_continuation_same_error.
Qed.

Lemma unwind_run error n (context : ExecutionContext K) vm :
  resumes_quietly → unwinding error n (ctx_exec context) →
  ∃ vm' context' err used, run_steps depth (S n) context vm = (vm', Ok (FailedWith err, context', used)) ∧
    same_error error err.
Proof.
  intros Hq. revert context vm. induction n as [n IH] using lt_wf_ind. intros context vm Hun.
  destruct (unwind_step (ctx_target context) error n (restore_execution_context context vm) Hq Hun)
    as (vm1 & [(err & Hx & Hs)|(m & -> & Hx & Hun')]).
  - simpl. unfold bindM, step_context. rewrite Hx. eexists _, _, _, _. by split.
  - destruct (IH m ltac:(lia) (mkContext (vm_exec vm1) (vm_pc vm1) (ctx_target context))
      (set_exec empty_exec vm1) Hun') as (vm' & context' & err & used & Hrun & Hs).
    exists vm', context', err, (S used). split; [|done].
    erewrite run_steps_continue; [by rewrite Hrun|]. unfold step_context. by rewrite Hx.
Qed.

Lemma run_steps_failed n m (context : ExecutionContext K) vm vm' context' err used :
  run_steps depth n context vm = (vm', Ok (FailedWith err, context', used)) →
  run_steps depth (n + m) context vm = (vm', Ok (FailedWith err, context', used)).
Proof. intros Hr. by rewrite run_steps_plus, Hr. Qed.

End cancellation.



End Cancellation.
