(* ===== verification/Scheduler.v ===== *)
(** * The scheduler

    A tick takes the first runnable process, runs it for a quantum and files it
    again according to the outcome.  No process is lost on the way, and a process
    that waits for a future is runnable again, with the context it stopped in, as
    soon as the future is resolved. *)

From S2P Require Import Prelude Names ListHandle Value TypeRegistry OperandStack Ir RuntimeError.
From S2P Require Import StringLiteral Display ErrorSchema ProcessRuntime Machine Opcodes Frames VmProps Calls.
From S2P Require Import Driver DriverProps.

Module Scheduler.
Import Machine Opcodes Frames VmProps Driver DriverProps.

Section tick.
Context {K : Type} `{RustFmt} `{BuiltinTable} `{DbgReporter K} `{Builtins K}.
Context (depth : nat).
Implicit Types (vm : VM K) (rt : ProcessRuntime (ExecutionContext K)).

#[local] Arguments run_quantum : simpl never.

(** The machine in which the quantum of [pid] starts. *)
Definition dispatched (pid : N) (queue : list N) vm : VM K :=
  let rt := vm_runtime vm in
  set_runtime (set_processes (alter (set_pn_context None) pid (pr_processes rt)) (set_run_queue queue rt)) vm.

(** How a process is filed after an outcome. *)
Definition filed (outcome : ProcessRunOutcome) (pid : N) (p : ProcessInstance (ExecutionContext K)) rt : Prop :=
  match outcome with
  | QuantumExpired => pn_status p = Runnable ∧ pid ∈ pr_run_queue rt
  | Halted _ => pn_status p = Completed
  | PendingOn id =>
      pn_status p = Waiting (WaitFuture id) ∧ pr_waiting_table rt !! pid = Some (WaitFuture id) ∧
      ∀ f, pr_futures rt !! id = Some f → pid ∈ fu_waiters f
  | FailedWith _ => pn_status p = ProcessFailed
  end.

(** The same future, perhaps with more processes waiting for it. *)
Definition same_future (f f' : FutureRecord) : Prop :=
  fu_state f' = fu_state f ∧ fu_error_generation_pending f' = fu_error_generation_pending f ∧
  fu_waiters f `prefix_of` fu_waiters f'.

Lemma same_future_refl (o : option FutureRecord) : option_Forall2 same_future o o.
Proof. destruct o; constructor. by split_and!. Qed.

(** The tables that a tick leaves alone after the quantum of [pid]. *)
Definition others_kept (pid : N) rt rt' : Prop :=
  (∀ q, q ≠ pid → pr_processes rt' !! q = pr_processes rt !! q) ∧
  pr_run_queue rt `prefix_of` pr_run_queue rt' ∧ (NoDup (pr_run_queue rt) → NoDup (pr_run_queue rt')) ∧
  (∀ id, option_Forall2 same_future (pr_futures rt !! id) (pr_futures rt' !! id)).

Lemma lookup_alter_is {A} (f : A → A) (m : gmap N A) i j :
  alter f i m !! j = if decide (i = j) then f <$> m !! j else m !! j.
Proof. case_decide as Hij; [subst; apply lookup_alter_eq|by apply lookup_alter_ne]. Qed.

Lemma enqueue_kept pid rt : others_kept pid rt (ProcessRuntime.enqueue_runnable pid rt) ∧
  pid ∈ pr_run_queue (ProcessRuntime.enqueue_runnable pid rt) ∧
  pr_processes (ProcessRuntime.enqueue_runnable pid rt) = pr_processes rt.
Proof.
  unfold ProcessRuntime.enqueue_runnable. case_decide as Hin.
  - split; [|done]. split_and!; try done. intros id. apply same_future_refl.
  - unfold others_kept. simpl. split_and!; try done.
    + by apply prefix_app_r.
    + simpl. intros Hnd. apply NoDup_app. split_and!; [done| |apply NoDup_singleton].
      by intros x Hx ->%list_elem_of_singleton.
    + intros id. apply same_future_refl.
    + apply elem_of_app. right. by apply list_elem_of_singleton.
Qed.

Lemma waiting_kept pid id rt :
  let rt' := ProcessRuntime.mark_process_waiting pid (WaitFuture id) rt in
  others_kept pid rt rt' ∧ pr_waiting_table rt' !! pid = Some (WaitFuture id) ∧
  pr_processes rt' = alter (set_pn_status (Waiting (WaitFuture id))) pid (pr_processes rt) ∧
  ∀ f, pr_futures rt' !! id = Some f → pid ∈ fu_waiters f.
Proof.
  assert (∀ f, pid ∈ fu_waiters (ProcessRuntime.add_waiter pid f)) as Hadd.
  { intros f. unfold ProcessRuntime.add_waiter. case_decide; [done|]. simpl. apply elem_of_app. right.
    by apply list_elem_of_singleton. }
  unfold ProcessRuntime.mark_process_waiting, others_kept. simpl. split_and!; try done.
  - intros q Hq. simpl. by apply lookup_alter_ne.
  - intros i. simpl. rewrite lookup_alter_is. case_decide; [subst|apply same_future_refl].
    destruct (pr_futures rt !! i) as [f|]; simpl; constructor.
    unfold ProcessRuntime.add_waiter. case_decide; [done|]. split_and!; [done..|by apply prefix_app_r].
  - apply lookup_insert_eq.
  - intros f. rewrite lookup_alter_eq. intros (g & _ & ->)%fmap_Some. apply Hadd.
Qed.

Lemma others_kept_update pid rt f : others_kept pid rt (set_processes (alter f pid (pr_processes rt)) rt).
Proof.
  split_and!; try done.
  - intros q Hq. simpl. by apply lookup_alter_ne.
  - intros id. apply same_future_refl.
Qed.

Lemma others_kept_trans pid rt1 rt2 rt3 : others_kept pid rt1 rt2 → others_kept pid rt2 rt3 → others_kept pid rt1 rt3.
Proof.
  intros (Hp1 & Hq1 & Hn1 & Hf1) (Hp2 & Hq2 & Hn2 & Hf2). split_and!; [|by etrans|auto|].
  - intros q Hq. by rewrite Hp2, Hp1.
  - intros id. specialize (Hf1 id). specialize (Hf2 id).
    destruct Hf1 as [f1 f2 (? & ? & ?)|]; inversion Hf2 as [? f3 (? & ? & ?)|]; subst; constructor.
    split_and!; [congruence..|by etrans].
Qed.

(** One tick, given what the quantum of the first process does. *)
Lemma tick_spec max pid queue p context vm vm2 outcome context' b p2 :
  pr_run_queue (vm_runtime vm) = pid :: queue →
  pr_processes (vm_runtime vm) !! pid = Some p → pn_execution_context p = Some context →
  run_quantum depth context (Budget.new max) (dispatched pid queue vm) = (vm2, Ok (outcome, context', b)) →
  pr_processes (vm_runtime vm2) !! pid = Some p2 →
  ∃ vm3 p3, scheduler_tick depth max vm = (vm3, Ok (Some outcome)) ∧
    pr_processes (vm_runtime vm3) !! pid = Some p3 ∧ pn_execution_context p3 = Some context' ∧
    filed outcome pid p3 (vm_runtime vm3) ∧ others_kept pid (vm_runtime vm2) (vm_runtime vm3).
Proof.
  intros Hq Hp Hc Hrun Hp2.
  set (upd := λ f : ProcessInstance (ExecutionContext K) → ProcessInstance (ExecutionContext K),
    set_processes (alter f pid (pr_processes (vm_runtime vm2))) (vm_runtime vm2)).
  assert (∃ vm3, scheduler_tick depth max vm = (vm3, Ok (Some outcome)) ∧
    vm_runtime vm3 = match outcome with
      | QuantumExpired => ProcessRuntime.enqueue_runnable pid
          (upd (λ p, set_pn_context (Some context') (set_pn_status Runnable p)))
      | Halted _ => upd (λ p, set_pn_context (Some context') (set_pn_status Completed p))
      | PendingOn id => ProcessRuntime.mark_process_waiting pid (WaitFuture id) (upd (set_pn_context (Some context')))
      | FailedWith _ => upd (λ p, set_pn_context (Some context') (set_pn_status ProcessFailed p))
      end) as (vm3 & Htick & Hrt).
  { unfold scheduler_tick, gets, bindM. rewrite Hq. simpl. rewrite Hp. simpl. rewrite Hc. simpl.
    change (set_runtime _ (set_runtime _ vm)) with (dispatched pid queue vm). rewrite Hrun.
    destruct outcome; eexists; (split; [reflexivity|reflexivity]). }
  assert (∀ f, pr_processes (upd f) !! pid = Some (f p2)) as Hupd
    by (intros f; unfold upd; simpl; by rewrite lookup_alter_eq, Hp2).
  exists vm3. rewrite Hrt. destruct outcome as [|v|id|err].
  - destruct (enqueue_kept pid (upd (λ p, set_pn_context (Some context') (set_pn_status Runnable p))))
      as (Hk & Hin & Hps).
    eexists. split; [done|]. rewrite Hps, Hupd. split_and!; [done..|].
    eapply others_kept_trans; [apply others_kept_update|exact Hk].
  - eexists. split; [done|]. split_and!; [apply Hupd|done..|apply others_kept_update].
  - destruct (waiting_kept pid id (upd (set_pn_context (Some context')))) as (Hk & Hw & Hps & Hf).
    eexists. split; [done|]. rewrite Hps, lookup_alter_eq, Hupd. split_and!; [done..|].
    eapply others_kept_trans; [apply others_kept_update|exact Hk].
  - eexists. split; [done|]. split_and!; [apply Hupd|done..|apply others_kept_update].
Qed.

End tick.
(** A tick of the scheduler loses no process: the first process of the queue
    is run for a quantum, gets the context the quantum ended in back, and is filed
    by the outcome (queued again when it was preempted, completed, failed, or
    registered as a waiter of the future it waits for); every other process, the
    order of the rest of the queue and every future are left as the quantum left
    them. *)
Theorem tick_loses_nobody {K : Type} `{RustFmt} `{BuiltinTable} `{DbgReporter K} `{Builtins K}
    (depth : nat) (max pid : N) (queue : list N) (p p2 : ProcessInstance (ExecutionContext K))
    (context context' : ExecutionContext K) (vm vm2 : VM K) (outcome : ProcessRunOutcome) (b : Budget)
    (Hqueue : pr_run_queue (vm_runtime vm) = pid :: queue)
    (Hp : pr_processes (vm_runtime vm) !! pid = Some p)
    (Hcontext : pn_execution_context p = Some context)
    (Hrun : run_quantum depth context (Budget.new max) (dispatched pid queue vm) = (vm2, Ok (outcome, context', b)))
    (Hp2 : pr_processes (vm_runtime vm2) !! pid = Some p2) :
  ∃ vm3 p3, scheduler_tick depth max vm = (vm3, Ok (Some outcome)) ∧
    pr_processes (vm_runtime vm3) !! pid = Some p3 ∧ pn_execution_context p3 = Some context' ∧
    filed outcome pid p3 (vm_runtime vm3) ∧ others_kept pid (vm_runtime vm2) (vm_runtime vm3).
Proof. by eapply tick_spec. Qed.

(** C8: no wakeup is lost: when a tick leaves a process waiting for a running
    future, resolving that future makes the process runnable and queues it, with
    the context in which it stopped, and it no longer waits for anything. *)
Theorem no_lost_wakeup {K : Type} `{RustFmt} `{BuiltinTable} `{DbgReporter K} `{Builtins K}
    (depth : nat) (max pid id : N) (queue : list N) (p p2 : ProcessInstance (ExecutionContext K))
    (context context' : ExecutionContext K) (vm vm2 : VM K) (b : Budget) (f : FutureRecord) (v : Value)
    (Hqueue : pr_run_queue (vm_runtime vm) = pid :: queue)
    (Hp : pr_processes (vm_runtime vm) !! pid = Some p)
    (Hcontext : pn_execution_context p = Some context)
    (Hrun : run_quantum depth context (Budget.new max) (dispatched pid queue vm) = (vm2, Ok (PendingOn id, context', b)))
    (Hp2 : pr_processes (vm_runtime vm2) !! pid = Some p2)
    (Hnd : NoDup (pr_run_queue (vm_runtime vm2)))
    (Hf : pr_futures (vm_runtime vm2) !! id = Some f)
    (Hrunning : fu_state f = Running) (Herr : fu_error_generation_pending f = false) :
  ∃ vm3 p4, scheduler_tick depth max vm = (vm3, Ok (Some (PendingOn id))) ∧
    let rt := (ProcessRuntime.resolve_future id v (vm_runtime vm3)).2 in
    pr_processes rt !! pid = Some p4 ∧ pn_status p4 = Runnable ∧ pn_execution_context p4 = Some context' ∧
    pid ∈ pr_run_queue rt ∧ pr_waiting_table rt !! pid = None ∧
    ProcessRuntime.raw_ready_future_value rt id = Some v.
Proof.
  destruct (tick_spec depth max pid queue p context vm vm2 (PendingOn id) context' b p2 Hqueue Hp Hcontext Hrun Hp2)
    as (vm3 & p3 & Htick & Hp3 & Hc3 & (_ & _ & Hw) & (_ & _ & Hnd3 & Hfs)).
  specialize (Hfs id). rewrite Hf in Hfs. inversion Hfs as [? f' (Hst & Her & _) Heq Hf'|]; subst.
  symmetry in Hf'. specialize (Hw f' Hf').
  destruct (ProcessRuntime.resolve_future_spec id v (vm_runtime vm3) f') as [_ Hres];
    [auto|done|unfold ProcessRuntime.is_running; by rewrite Hst, Hrunning|congruence|].
  destruct Hres as ((f4 & Ef & Hs4 & _) & _ & _ & _ & _ & _ & Hwt & Hps & Hq).
  exists vm3, (set_pn_status Runnable p3). split; [done|]. cbv zeta.
  rewrite Hps, Hwt, !decide_True, Hp3 by done. simpl. split_and!; try done.
  - apply Hq. right. split; [done|]. by eexists.
  - unfold ProcessRuntime.raw_ready_future_value. by rewrite Ef, lookup_insert_eq, Hs4.
Qed.

(** A process that waits for the first future. *)
Definition waiting_context : ExecutionContext nat := standalone_builtin_context (OWait 0 KIdentity).
Definition sleeper : ProcessInstance (ExecutionContext nat) :=
  mkProcess 7 0 (mkPid 0 (mkPidIdentity 7 (lit "Worker") PkWorker)) Accepting None Runnable []
    (Some waiting_context) None None None false.
Definition sleeping_vm : VM nat :=
  set_runtime (set_run_queue [7%N] (set_processes {[ 7%N := sleeper ]}
    (ProcessRuntime.allocate_future (Some 7%N) None true
       (ProcessRuntime.initial ProcessRuntime.sample_specs)).2)) (idle_vm default_bytecode).
Definition first_run :=
  @run_quantum nat Display.sample_fmt sample_builtins countdown_dbg countdown 0 waiting_context (Budget.new 16)
    (dispatched 7 [] sleeping_vm).

Definition run_context : ExecutionContext nat :=
  match first_run.2 with Ok (_, c, _) => c | Err _ => waiting_context end.
Definition run_budget : Budget :=
  match first_run.2 with Ok (_, _, b) => b | Err _ => Budget.new 0 end.

Lemma first_run_waits :
  @run_quantum nat Display.sample_fmt sample_builtins countdown_dbg countdown 0 waiting_context (Budget.new 16)
    (dispatched 7 [] sleeping_vm) = (first_run.1, Ok (PendingOn 0, run_context, run_budget)).
Proof. vm_compute. reflexivity. Qed.

Lemma first_run_process :
  pr_processes (vm_runtime first_run.1) !! 7%N = Some (set_pn_context None sleeper).
Proof. vm_compute. reflexivity. Qed.

Lemma tick_loses_nobody_witness :
  ∃ vm3 p3,
    @scheduler_tick nat Display.sample_fmt sample_builtins countdown_dbg countdown 0 16 sleeping_vm
    = (vm3, Ok (Some (PendingOn 0))) ∧
    pr_processes (vm_runtime vm3) !! 7%N = Some p3 ∧ pn_execution_context p3 = Some run_context.
Proof.
  destruct (@tick_loses_nobody nat Display.sample_fmt sample_builtins countdown_dbg countdown 0 16 7 [] sleeper
    (set_pn_context None sleeper) waiting_context run_context sleeping_vm first_run.1 (PendingOn 0) run_budget
    eq_refl eq_refl eq_refl first_run_waits first_run_process) as (vm3 & p3 & Htick & Hp & Hc & _).
  exists vm3, p3. split; [exact Htick|]. split; [exact Hp|exact Hc].
Defined.

Lemma no_lost_wakeup_witness :
  ∃ vm3 p4,
    @scheduler_tick nat Display.sample_fmt sample_builtins countdown_dbg countdown 0 16 sleeping_vm
    = (vm3, Ok (Some (PendingOn 0))) ∧
    pr_processes (ProcessRuntime.resolve_future 0 (VInt 1) (vm_runtime vm3)).2 !! 7%N = Some p4 ∧
    pn_status p4 = Runnable.
Proof.
  assert (pr_futures (vm_runtime first_run.1) !! 0%N
          = Some (mkFuture 0 (Some 7%N) Running None [] true None None false false)) as Hf by (vm_compute; reflexivity).
  assert (NoDup (pr_run_queue (vm_runtime first_run.1))) as Hnd by (vm_compute; constructor).
  destruct (@no_lost_wakeup nat Display.sample_fmt sample_builtins countdown_dbg countdown 0 16 7 0 [] sleeper
    (set_pn_context None sleeper) waiting_context run_context sleeping_vm first_run.1 run_budget _ (VInt 1)
    eq_refl eq_refl eq_refl first_run_waits first_run_process Hnd Hf eq_refl eq_refl)
    as (vm3 & p4 & Htick & Hp & Hs & _).
  exists vm3, p4. split; [exact Htick|]. split; [exact Hp|exact Hs].
Defined.

End Scheduler.
