(* ===== verification/Loader.v ===== *)
(** * Loading bytecode ([verify_*], [execute_chunk], checkpoints in [crates/eldr/src/vm.rs])

    A program is verified once; an incremental chunk is verified against the
    program loaded so far, relocated behind it and appended to its tables.  A
    checkpoint taken before lets a failed chunk be undone.  [append_chunk] is the
    part of [execute_chunk] that builds up the tables of the program; registering
    the new process specifications and running the chunk come after it. *)

From S2P Require Import Prelude Names ListHandle Value TypeRegistry Ir FunctionTable RuntimeError.
From S2P Require Import OperandStack StringLiteral Display ErrorSchema ProcessRuntime Machine.

(** ** Updating one field of a program *)

Definition put_opcodes (x : list Opcode) (bc : Bytecode) : Bytecode :=
  mkBytecode x (constants bc) (num_locals bc) (type_registry bc) (error_templates bc)
    (dbg_templates bc) (callable_templates bc) (functions bc) (source_map bc) (docs bc) (signatures
    bc) (compile_info bc) (labels bc) (imports bc) (exports bc) (literals bc) (lines bc) (spans bc)
    (sources bc) (pc_spans bc) (runtime_process_specs bc) (runtime_boot_plan bc).
Definition put_constants (x : list Constant) (bc : Bytecode) : Bytecode :=
  mkBytecode (opcodes bc) x (num_locals bc) (type_registry bc) (error_templates bc) (dbg_templates
    bc) (callable_templates bc) (functions bc) (source_map bc) (docs bc) (signatures bc)
    (compile_info bc) (labels bc) (imports bc) (exports bc) (literals bc) (lines bc) (spans bc)
    (sources bc) (pc_spans bc) (runtime_process_specs bc) (runtime_boot_plan bc).
Definition put_type_registry (x : TypeRegistry) (bc : Bytecode) : Bytecode :=
  mkBytecode (opcodes bc) (constants bc) (num_locals bc) x (error_templates bc) (dbg_templates bc)
    (callable_templates bc) (functions bc) (source_map bc) (docs bc) (signatures bc) (compile_info
    bc) (labels bc) (imports bc) (exports bc) (literals bc) (lines bc) (spans bc) (sources bc)
    (pc_spans bc) (runtime_process_specs bc) (runtime_boot_plan bc).
Definition put_error_templates (x : list ErrTemplate) (bc : Bytecode) : Bytecode :=
  mkBytecode (opcodes bc) (constants bc) (num_locals bc) (type_registry bc) x (dbg_templates bc)
    (callable_templates bc) (functions bc) (source_map bc) (docs bc) (signatures bc) (compile_info
    bc) (labels bc) (imports bc) (exports bc) (literals bc) (lines bc) (spans bc) (sources bc)
    (pc_spans bc) (runtime_process_specs bc) (runtime_boot_plan bc).
Definition put_dbg_templates (x : list DbgTemplate) (bc : Bytecode) : Bytecode :=
  mkBytecode (opcodes bc) (constants bc) (num_locals bc) (type_registry bc) (error_templates bc) x
    (callable_templates bc) (functions bc) (source_map bc) (docs bc) (signatures bc) (compile_info
    bc) (labels bc) (imports bc) (exports bc) (literals bc) (lines bc) (spans bc) (sources bc)
    (pc_spans bc) (runtime_process_specs bc) (runtime_boot_plan bc).
Definition put_callable_templates (x : list CallableTemplate) (bc : Bytecode) : Bytecode :=
  mkBytecode (opcodes bc) (constants bc) (num_locals bc) (type_registry bc) (error_templates bc)
    (dbg_templates bc) x (functions bc) (source_map bc) (docs bc) (signatures bc) (compile_info bc)
    (labels bc) (imports bc) (exports bc) (literals bc) (lines bc) (spans bc) (sources bc) (pc_spans
    bc) (runtime_process_specs bc) (runtime_boot_plan bc).
Definition put_functions (x : list FunctionEntry) (bc : Bytecode) : Bytecode :=
  mkBytecode (opcodes bc) (constants bc) (num_locals bc) (type_registry bc) (error_templates bc)
    (dbg_templates bc) (callable_templates bc) x (source_map bc) (docs bc) (signatures bc)
    (compile_info bc) (labels bc) (imports bc) (exports bc) (literals bc) (lines bc) (spans bc)
    (sources bc) (pc_spans bc) (runtime_process_specs bc) (runtime_boot_plan bc).
Definition put_source_map (x : option SourceMap) (bc : Bytecode) : Bytecode :=
  mkBytecode (opcodes bc) (constants bc) (num_locals bc) (type_registry bc) (error_templates bc)
    (dbg_templates bc) (callable_templates bc) (functions bc) x (docs bc) (signatures bc)
    (compile_info bc) (labels bc) (imports bc) (exports bc) (literals bc) (lines bc) (spans bc)
    (sources bc) (pc_spans bc) (runtime_process_specs bc) (runtime_boot_plan bc).
Definition put_docs (x : list DocEntry) (bc : Bytecode) : Bytecode :=
  mkBytecode (opcodes bc) (constants bc) (num_locals bc) (type_registry bc) (error_templates bc)
    (dbg_templates bc) (callable_templates bc) (functions bc) (source_map bc) x (signatures bc)
    (compile_info bc) (labels bc) (imports bc) (exports bc) (literals bc) (lines bc) (spans bc)
    (sources bc) (pc_spans bc) (runtime_process_specs bc) (runtime_boot_plan bc).
Definition put_runtime_process_specs (x : list RuntimeProcessSpec) (bc : Bytecode) : Bytecode :=
  mkBytecode (opcodes bc) (constants bc) (num_locals bc) (type_registry bc) (error_templates bc)
    (dbg_templates bc) (callable_templates bc) (functions bc) (source_map bc) (docs bc) (signatures
    bc) (compile_info bc) (labels bc) (imports bc) (exports bc) (literals bc) (lines bc) (spans bc)
    (sources bc) (pc_spans bc) x (runtime_boot_plan bc).
Definition put_runtime_boot_plan (x : RuntimeBootPlan) (bc : Bytecode) : Bytecode :=
  mkBytecode (opcodes bc) (constants bc) (num_locals bc) (type_registry bc) (error_templates bc)
    (dbg_templates bc) (callable_templates bc) (functions bc) (source_map bc) (docs bc) (signatures
    bc) (compile_info bc) (labels bc) (imports bc) (exports bc) (literals bc) (lines bc) (spans bc)
    (sources bc) (pc_spans bc) (runtime_process_specs bc) x.

Module Loader.
Import FunctionTable.

(** ** Errors: the validators' own, or a message. *)
Inductive LoadError : Type :=
| LeValidation (e : BytecodeValidationError)
| LeRegistry (e : TypeRegistry.TypeRegistryError)
| LeMessage (message : str).

Abbreviation LResult := (Result LoadError).

Definition deny {A} (message : str) : LResult A := Err (LeMessage message).

Section verify.
Context `{BuiltinTable}.

(** ** Verification *)

Definition verify_error_kind_constants (cs : list Constant) (prefix suffix : list ErrTemplate) : LResult unit :=
  for_each (λ c,
    match c with
    | CErrorKind kind =>
        if existsb (λ t, bool_decide (et_kind t = kind)) (prefix ++ suffix) then Ok tt
        else deny (lit "Bytecode verifier: unknown ErrorKind identity " ++ kind)
    | _ => Ok tt
    end) cs.

Fixpoint source_map_loop (opcode_len : nat) (context : str) (seen : gset N) (entries : SourceMap) : LResult unit :=
  match entries with
  | [] => Ok tt
  | entry :: rest =>
      let index := os_opcode_index entry in
      if decide (opcode_len ≤ N.to_nat index) then
        deny (lit "Bytecode verifier: " ++ context ++ lit "source_map opcode_index out of bounds: " ++ fmt_N index)
      else if decide (index ∈ seen) then
        deny (lit "Bytecode verifier: " ++ context ++ lit "duplicate source_map entry for opcode_index " ++ fmt_N index)
      else source_map_loop opcode_len context ({[ index ]} ∪ seen) rest
  end.

Definition verify_source_map_entries (m : option SourceMap) (opcode_len : nat) (context : str) : LResult unit :=
  match m with
  | None => Ok tt
  | Some entries => source_map_loop opcode_len (match context with [] => [] | _ => lit "chunk " end) ∅ entries
  end.

Definition check_below (index : N) (len : nat) (message : str) : LResult unit :=
  if decide (len ≤ N.to_nat index) then deny (message ++ fmt_N index) else Ok tt.

Definition check_known (known : bool) (message : str) (index : N) : LResult unit :=
  if known then Ok tt else deny (message ++ fmt_N index).

(** The loop body of [verify_program]. *)
Definition verify_program_op (bc : Bytecode) (halt_pos idx : nat) (op : Opcode) : LResult unit :=
  let const i := check_below i (length (constants bc)) (lit "LoadConst index out of bounds: ") in
  let target addr := check_below addr (length (opcodes bc)) (lit "Invalid jump target: ") in
  match op with
  | JumpIfLocalTagEq _ tag_const_idx addr | JumpIfLocalTagNe _ tag_const_idx addr =>
      let? _ := const tag_const_idx in target addr
  | Jump addr | JumpIfFalse addr | JumpIfTrue addr => target addr
  | LoadConst i | StoreConstLocal i _ | EqLocalTag _ i => const i
  | MakeError template_id =>
      check_below template_id (length (error_templates bc)) (lit "Unknown error template: ")
  | LoadBuiltinRef id | CallBuiltin id _ _ _ =>
      check_known (match builtin_meta_by_id id with Some _ => true | None => false end)
        (lit "Bytecode verifier: unknown builtin ref ") id
  | SetCallableDelegateFunction fun_idx =>
      check_known (existsb (λ entry, bool_decide (fe_fun_idx entry = fun_idx)) (functions bc))
        (lit "Bytecode verifier: unknown callable delegate function ") fun_idx
  | LoadCallableTemplateRef template_id =>
      check_known (existsb (λ t, bool_decide (ct_template_id t = template_id)) (callable_templates bc))
        (lit "Bytecode verifier: unknown callable template ref ") template_id
  | Dbg template_id _ =>
      check_known (existsb (λ t, bool_decide (dt_id t = template_id)) (dbg_templates bc))
        (lit "Bytecode verifier: unknown dbg template ref ") template_id
  | Return | TailCallClosure _ _ _ => if decide (idx ≤ halt_pos) then deny (lit "Return at top-level") else Ok tt
  | _ => Ok tt
  end.

Definition verify_program (bc : Bytecode) : LResult unit :=
  let? _ := map_err LeRegistry (TypeRegistry.validate_type_registry_append [] (TypeRegistry.entries (type_registry bc))) in
  let? _ := verify_error_kind_constants (constants bc) (error_templates bc) [] in
  let? _ := verify_source_map_entries (source_map bc) (length (opcodes bc)) [] in
  let? _ := map_err LeValidation (validate_program_function_table (opcodes bc) (callable_templates bc)
              (runtime_process_specs bc) (functions bc)) in
  match position is_halt (opcodes bc) with
  | Some halt_pos => for_each_from 0 (verify_program_op bc halt_pos) (opcodes bc)
  | None =>
      if existsb (λ op, bool_decide (op = Return)) (opcodes bc) then deny (lit "Return at top-level")
      else deny (lit "Bytecode verifier: missing Halt")
  end.

(** The loop body of [verify_chunk]: indices are local to the chunk. *)
Definition verify_chunk_op (chunk : BytecodeChunk) (halt_pos idx : nat) (op : Opcode) : LResult unit :=
  let const i := check_below i (length (ch_constants chunk))
    (lit "Bytecode verifier: chunk LoadConst index out of bounds: ") in
  let target addr := check_below addr (length (ch_opcodes chunk))
    (lit "Bytecode verifier: chunk jump target out of bounds: ") in
  match op with
  | JumpIfLocalTagEq _ tag_const_idx addr | JumpIfLocalTagNe _ tag_const_idx addr =>
      let? _ := const tag_const_idx in target addr
  | Jump addr | JumpIfFalse addr | JumpIfTrue addr => target addr
  | LoadConst i | StoreConstLocal i _ | EqLocalTag _ i => const i
  | MakeError template_id =>
      check_below template_id (length (ch_error_templates chunk))
        (lit "Bytecode verifier: chunk error template out of bounds: ")
  | Return | TailCallClosure _ _ _ => if decide (idx ≤ halt_pos) then deny (lit "Return at top-level") else Ok tt
  | _ => Ok tt
  end.

(** [chunk base as usize != vm length]. *)
Definition check_base (what : str) (chunk_base : N) (vm_base : nat) : LResult unit :=
  if decide (N.to_nat chunk_base = vm_base) then Ok tt
  else deny (lit "Chunk " ++ what ++ lit " base mismatch: chunk=" ++ fmt_N chunk_base ++ lit ", vm=" ++ fmt_nat vm_base).

Definition verify_chunk (bc : Bytecode) (chunk : BytecodeChunk) : LResult unit :=
  let registry := TypeRegistry.entries (type_registry bc) in
  let? _ := map_err LeRegistry (TypeRegistry.validate_type_registry_append registry (ch_type_entries chunk)) in
  let? _ := verify_error_kind_constants (ch_constants chunk) (error_templates bc) (ch_error_templates chunk) in
  let? _ := verify_source_map_entries (ch_source_map chunk) (length (ch_opcodes chunk)) (lit "chunk") in
  let? _ := check_base (lit "constant") (ch_const_base chunk) (length (constants bc)) in
  let? _ := check_base (lit "error template") (ch_error_template_base chunk) (length (error_templates bc)) in
  let? _ := check_base (lit "type registry") (ch_type_registry_base chunk) (length registry) in
  match position is_halt (ch_opcodes chunk) with
  | None => deny (lit "Bytecode verifier: chunk missing Halt")
  | Some halt_pos =>
      let? _ := for_each_from 0 (verify_chunk_op chunk halt_pos) (ch_opcodes chunk) in
      let? _ := map_err LeValidation (validate_chunk_function_table (ch_opcodes chunk) (ch_callable_templates chunk)
                  (ch_runtime_process_specs chunk) (ch_functions chunk) (length (functions bc)) true) in
      Ok tt
  end.

End verify.

(** ** Relocation *)

Definition relocated (index base : N) (what : str) : LResult N :=
  match u32_checked_add index base with
  | Some i => Ok i
  | None => deny (what ++ fmt_N index ++ lit " + base " ++ fmt_N base)
  end.

(** The four bases, as [u32]. *)
Record Bases : Type := mkBases { b_code : N; b_const : N; b_error : N; b_dbg : N }.

Definition relocate_op (b : Bases) (op : Opcode) : LResult Opcode :=
  let const i := relocated i (b_const b) (lit "Const relocation overflow: index ") in
  let target addr := relocated addr (b_code b) (lit "Jump relocation overflow: target ") in
  match op with
  | JumpIfLocalTagEq l tag_const_idx addr =>
      let? i := const tag_const_idx in let? a := target addr in Ok (JumpIfLocalTagEq l i a)
  | JumpIfLocalTagNe l tag_const_idx addr =>
      let? i := const tag_const_idx in let? a := target addr in Ok (JumpIfLocalTagNe l i a)
  | Jump addr => let? a := target addr in Ok (Jump a)
  | JumpIfFalse addr => let? a := target addr in Ok (JumpIfFalse a)
  | JumpIfTrue addr => let? a := target addr in Ok (JumpIfTrue a)
  | LoadConst idx => let? i := const idx in Ok (LoadConst i)
  | StoreConstLocal idx l => let? i := const idx in Ok (StoreConstLocal i l)
  | EqLocalTag l idx => let? i := const idx in Ok (EqLocalTag l i)
  | MakeError template_id =>
      let? i := relocated template_id (b_error b) (lit "Error template relocation overflow: id ") in
      Ok (MakeError i)
  | Dbg template_id n =>
      let? i := relocated template_id (b_dbg b) (lit "Dbg template relocation overflow: id ") in Ok (Dbg i n)
  | _ => Ok op
  end.

Definition to_base (n : nat) (what : str) : LResult N :=
  match u32_try_from n with
  | Some b => Ok b
  | None => deny (what ++ fmt_nat n)
  end.

Definition relocate_chunk_indices (ops : list Opcode) (code_base const_base error_template_base dbg_template_base : nat) :
    LResult (list Opcode) :=
  let? code := to_base code_base (lit "Code base too large for jump relocation: ") in
  let? const := to_base const_base (lit "Constant base too large for relocation: ") in
  let? error := to_base error_template_base (lit "Error template base too large for relocation: ") in
  let? dbg := to_base dbg_template_base (lit "Dbg template base too large for relocation: ") in
  map_result (relocate_op (mkBases code const error dbg)) ops.

Definition relocate_source (code_base : N) (entry : OpcodeSource) : LResult OpcodeSource :=
  match u32_checked_add (os_opcode_index entry) code_base with
  | Some i => Ok (mkOpcodeSource i (os_span_start entry) (os_span_end entry) (os_line entry) (os_column entry)
                    (os_source_name entry))
  | None => deny (lit "source_map opcode index overflow")
  end.

(** ** Appending a chunk

    A step that fails leaves what the steps before it did. *)

Definition Load (A : Type) : Type := Bytecode → Bytecode * LResult A.
Definition load_ret {A} (a : A) : Load A := λ bc, (bc, Ok a).
Definition load_bind {A B} (m : Load A) (k : A → Load B) : Load B := λ bc,
  match m bc with
  | (bc', Ok a) => k a bc'
  | (bc', Err e) => (bc', Err e)
  end.
Definition load_lift {A} (r : LResult A) : Load A := λ bc, (bc, r).
Definition load_update (f : Bytecode → Bytecode) : Load unit := λ bc, (f bc, Ok tt).

Declare Scope load_scope.
Delimit Scope load_scope with load.
Notation "'let+' x ':=' m 'in' k" := (load_bind m (λ x, k))
  (at level 10, x name, m at level 100, k at level 200) : load_scope.
Notation "m +> k" := (load_bind m (λ _, k)) (at level 100, k at level 200, right associativity) : load_scope.
#[local] Open Scope load_scope.

Definition relocate_and_extend_source_map (m : option SourceMap) (code_base : nat) : Load unit :=
  match m with
  | None => load_ret tt
  | Some entries =>
      let+ base := load_lift (ok_or (u32_try_from code_base) (LeMessage (lit "opcode count exceeds u32"))) in
      let+ entries' := load_lift (map_result (relocate_source base) entries) in
      load_update (λ bc, put_source_map
        (Some match source_map bc with Some existing => existing ++ entries' | None => entries' end) bc)
  end.

Definition add_doc (docs : list DocEntry) (doc : DocEntry) : list DocEntry :=
  if decide (doc ∈ docs) then docs else docs ++ [doc].
Definition extend_docs_unique (new : list DocEntry) (bc : Bytecode) : Bytecode :=
  put_docs (foldl add_doc (docs bc) new) bc.

(** [entry.entry_pc += code_base as u32]: additions wrap. *)
Definition shift_entry (code_base : nat) (e : FunctionEntry) : FunctionEntry :=
  mkFunctionEntry (fe_fun_idx e) ((fe_entry_pc e + as_u32 code_base) `mod` (u32_max + 1))%N (fe_num_locals e)
    (fe_arity e) (fe_qualified_name e) (fe_signature e) (fe_end_pc e) (fe_span_start e) (fe_span_end e) (fe_flags e).

Fixpoint append_functions (code_base : nat) (entries : list FunctionEntry) : Load unit :=
  match entries with
  | [] => load_ret tt
  | e :: rest => λ bc,
      let entry := shift_entry code_base e in
      let idx := N.to_nat (fe_fun_idx entry) in
      let len := length (functions bc) in
      if decide (idx = len) then append_functions code_base rest (put_functions (functions bc ++ [entry]) bc)
      else if decide (idx < len) then
        append_functions code_base rest (put_functions (<[idx := entry]> (functions bc)) bc)
      else (bc, deny (lit "Function table invariant violated in chunk: fun_idx " ++ fmt_nat idx
                      ++ lit " > len " ++ fmt_nat len))
  end.

Definition extend_boot_plan (new plan : RuntimeBootPlan) : RuntimeBootPlan :=
  mkBootPlan (bp_root_name plan) (bp_singletons plan ++ bp_singletons new)
    (bp_standard_overrides plan ++ bp_standard_overrides new)
    (bp_handler_overrides plan ++ bp_handler_overrides new)
    (bp_supervisor_overrides plan) (bp_runtime_limits plan).

(** The part of [execute_chunk] before the chunk runs. *)
Definition append_chunk (chunk : BytecodeChunk) : Load nat := λ bc0,
  let code_base := length (opcodes bc0) in
  let const_base := length (constants bc0) in
  let error_base := length (error_templates bc0) in
  let dbg_base := length (dbg_templates bc0) in
  (load_lift (check_base (lit "constant") (ch_const_base chunk) const_base) +>
   load_lift (check_base (lit "error template") (ch_error_template_base chunk) error_base) +>
   load_lift (check_base (lit "type registry") (ch_type_registry_base chunk)
                (length (TypeRegistry.entries (type_registry bc0)))) +>
   load_lift (check_base (lit "dbg template") (ch_dbg_template_base chunk) dbg_base) +>
   let+ ops := load_lift (relocate_chunk_indices (ch_opcodes chunk) code_base const_base error_base dbg_base) in
   load_update (λ bc, put_constants (constants bc ++ ch_constants chunk) bc) +>
   (λ bc, match TypeRegistry.try_extend (type_registry bc) (ch_type_entries chunk) with
          | Ok r => (put_type_registry r bc, Ok tt)
          | Err e => (bc, Err (LeRegistry e))
          end) +>
   load_update (λ bc, put_error_templates (error_templates bc ++ ch_error_templates chunk) bc) +>
   load_update (λ bc, put_dbg_templates (dbg_templates bc ++ ch_dbg_templates chunk) bc) +>
   load_update (λ bc, put_callable_templates (callable_templates bc ++ ch_callable_templates chunk) bc) +>
   load_update (extend_docs_unique (ch_docs chunk)) +>
   load_update (λ bc, put_runtime_process_specs (runtime_process_specs bc ++ ch_runtime_process_specs chunk) bc) +>
   load_update (λ bc, put_runtime_boot_plan (extend_boot_plan (ch_runtime_boot_plan chunk) (runtime_boot_plan bc)) bc) +>
   load_update (λ bc, put_opcodes (opcodes bc ++ ops) bc) +>
   relocate_and_extend_source_map (ch_source_map chunk) code_base +>
   append_functions code_base (ch_functions chunk) +>
   load_ret code_base) bc0.

(** ** Checkpoints

    What a checkpoint records of the tables a chunk appends to: their lengths, and
    the functions the chunk is about to replace. *)

Record TableCheckpoint : Type := mkTables {
  cp_opcode_len : nat;
  cp_constant_len : nat;
  cp_type_entry_len : nat;
  cp_error_template_len : nat;
  cp_callable_template_len : nat;
  cp_function_len : nat;
  cp_doc_len : nat;
  cp_process_spec_len : nat;
  cp_boot_singleton_len : nat;
  cp_boot_standard_override_len : nat;
  cp_boot_handler_override_len : nat;
  cp_source_map_len : option nat;
  cp_overwritten_functions : list (nat * FunctionEntry);
}.

Definition overwritten (fns : list FunctionEntry) (e : FunctionEntry) : option (nat * FunctionEntry) :=
  (λ existing, (N.to_nat (fe_fun_idx e), existing)) <$> fns !! N.to_nat (fe_fun_idx e).

Definition checkpoint_tables (chunk : BytecodeChunk) (bc : Bytecode) : TableCheckpoint :=
  mkTables (length (opcodes bc)) (length (constants bc)) (length (TypeRegistry.entries (type_registry bc)))
    (length (error_templates bc)) (length (callable_templates bc)) (length (functions bc)) (length (docs bc))
    (length (runtime_process_specs bc)) (length (bp_singletons (runtime_boot_plan bc)))
    (length (bp_standard_overrides (runtime_boot_plan bc))) (length (bp_handler_overrides (runtime_boot_plan bc)))
    (length <$> source_map bc) (omap (overwritten (functions bc)) (ch_functions chunk)).

Definition restore_function (fns : list FunctionEntry) (saved : nat * FunctionEntry) : list FunctionEntry :=
  if decide (saved.1 < length fns) then <[saved.1 := saved.2]> fns else fns.

Definition truncate_boot_plan (cp : TableCheckpoint) (plan : RuntimeBootPlan) : RuntimeBootPlan :=
  mkBootPlan (bp_root_name plan) (take (cp_boot_singleton_len cp) (bp_singletons plan))
    (take (cp_boot_standard_override_len cp) (bp_standard_overrides plan))
    (take (cp_boot_handler_override_len cp) (bp_handler_overrides plan))
    (bp_supervisor_overrides plan) (bp_runtime_limits plan).

Definition rollback_tables (cp : TableCheckpoint) (bc : Bytecode) : Bytecode :=
  mkBytecode (take (cp_opcode_len cp) (opcodes bc)) (take (cp_constant_len cp) (constants bc)) (num_locals bc)
    (TypeRegistry.truncate (type_registry bc) (cp_type_entry_len cp))
    (take (cp_error_template_len cp) (error_templates bc)) (dbg_templates bc)
    (take (cp_callable_template_len cp) (callable_templates bc))
    (foldl restore_function (take (cp_function_len cp) (functions bc)) (cp_overwritten_functions cp))
    (match cp_source_map_len cp with Some len => take len <$> source_map bc | None => None end)
    (take (cp_doc_len cp) (docs bc)) (signatures bc) (compile_info bc) (labels bc) (imports bc) (exports bc)
    (literals bc) (lines bc) (spans bc) (sources bc) (pc_spans bc)
    (take (cp_process_spec_len cp) (runtime_process_specs bc))
    (truncate_boot_plan cp (runtime_boot_plan bc)).

Section checkpoint.
Context {K : Type}.

(** The checkpoint of the machine.  Open files, the test runner, standard input and
    the working directory are not part of the modelled machine. *)
Record VmCheckpoint : Type := mkCheckpoint {
  cp_exec : Exec K;
  cp_pc : nat;
  cp_exit_code : Z;
  cp_last_result : option Value;
  cp_error_output_len : option nat;
  cp_process_runtime : ProcessRuntime (ExecutionContext K);
  cp_tables : TableCheckpoint;
}.

Definition checkpoint_for_chunk (chunk : BytecodeChunk) (vm : VM K) : VmCheckpoint :=
  mkCheckpoint (vm_exec vm) (vm_pc vm) (vm_exit_code vm) (vm_last_result vm) (length <$> vm_error_output vm)
    (vm_runtime vm) (checkpoint_tables chunk (vm_bytecode vm)).

Definition with_next_pid (x : N) (r : ProcessRuntime (ExecutionContext K)) : ProcessRuntime (ExecutionContext K) :=
  mkRuntime (pr_current_tick_ms r) x (pr_next_future_id r) (pr_next_correlation_id r) (pr_spec_registry r)
    (pr_handler_contexts r) (pr_effective_supervisors r) (pr_singleton_by_name r) (pr_processes r) (pr_executions r)
    (pr_futures r) (pr_reply_table r) (pr_waiting_table r) (pr_deadline_queue r) (pr_run_queue r)
    (pr_output_events r) (pr_detached_tasks r) (pr_supervision r).

(** Pids are never handed out twice: the counter does not go back.  The sweep of stopped
    identities that follows only removes entries that no handle can match. *)
Definition restore_runtime (saved current : ProcessRuntime (ExecutionContext K)) : ProcessRuntime (ExecutionContext K) :=
  with_next_pid (N.max (pr_next_pid saved) (pr_next_pid current)) saved.

Definition rollback_to_checkpoint (cp : VmCheckpoint) (vm : VM K) : VM K :=
  mkVM (rollback_tables (cp_tables cp) (vm_bytecode vm)) (cp_exec cp) (cp_pc cp) (vm_source vm) (vm_source_file vm)
    (match vm_error_output vm, cp_error_output_len cp with
     | Some buf, Some len => Some (take len buf)
     | out, _ => out
     end)
    (vm_io_policy vm) (vm_repl_host_stderr vm) (vm_host_stderr vm) (cp_exit_code cp) (cp_last_result cp)
    (restore_runtime (cp_process_runtime cp) (vm_runtime vm)).

End checkpoint.
Arguments VmCheckpoint : clear implicits.

End Loader.
