(* ===== verification/LoaderProps.v ===== *)
(** * Properties of loading

    Appending a chunk only ever extends the program, also when it fails half-way, and
    rolling back restores the machine (all but the debug templates). *)

From S2P Require Import Prelude Names ListHandle Value TypeRegistry Ir FunctionTable RuntimeError.
From S2P Require Import OperandStack StringLiteral Display ErrorSchema ProcessRuntime Machine Loader.

Module LoaderProps.
Import FunctionTable Loader.

(** ** Growing *)

(** [bc'] is [bc] with things appended, and with functions replaced only at
    indices the chunk declares. *)
Record extension (chunk : BytecodeChunk) (bc bc' : Bytecode) : Prop := mkExtension {
  gr_opcodes : opcodes bc `prefix_of` opcodes bc';
  gr_constants : constants bc `prefix_of` constants bc';
  gr_registry : TypeRegistry.truncate (type_registry bc') (length (TypeRegistry.entries (type_registry bc)))
                = type_registry bc;
  gr_registry_wf : TypeRegistry.wf (type_registry bc') ∧
    TypeRegistry.entries (type_registry bc) `prefix_of` TypeRegistry.entries (type_registry bc');
  gr_errors : error_templates bc `prefix_of` error_templates bc';
  gr_callables : callable_templates bc `prefix_of` callable_templates bc';
  gr_functions_length : length (functions bc) ≤ length (functions bc');
  gr_functions : ∀ i, i < length (functions bc) →
    functions bc' !! i = functions bc !! i ∨ ∃ e, e ∈ ch_functions chunk ∧ N.to_nat (fe_fun_idx e) = i;
  gr_docs : docs bc `prefix_of` docs bc';
  gr_specs : runtime_process_specs bc `prefix_of` runtime_process_specs bc';
  gr_boot : bp_root_name (runtime_boot_plan bc') = bp_root_name (runtime_boot_plan bc) ∧
    bp_singletons (runtime_boot_plan bc) `prefix_of` bp_singletons (runtime_boot_plan bc') ∧
    bp_standard_overrides (runtime_boot_plan bc) `prefix_of` bp_standard_overrides (runtime_boot_plan bc') ∧
    bp_handler_overrides (runtime_boot_plan bc) `prefix_of` bp_handler_overrides (runtime_boot_plan bc') ∧
    bp_supervisor_overrides (runtime_boot_plan bc') = bp_supervisor_overrides (runtime_boot_plan bc) ∧
    bp_runtime_limits (runtime_boot_plan bc') = bp_runtime_limits (runtime_boot_plan bc);
  gr_source_map : ∀ m, source_map bc = Some m → ∃ m', source_map bc' = Some m' ∧ m `prefix_of` m';
  gr_rest : num_locals bc' = num_locals bc ∧ signatures bc' = signatures bc ∧ compile_info bc' = compile_info bc ∧
    labels bc' = labels bc ∧ imports bc' = imports bc ∧ exports bc' = exports bc ∧ literals bc' = literals bc ∧
    lines bc' = lines bc ∧ spans bc' = spans bc ∧ sources bc' = sources bc ∧ pc_spans bc' = pc_spans bc;
}.

Lemma extension_refl chunk bc : TypeRegistry.wf (type_registry bc) → extension chunk bc bc.
Proof.
  intros Hwf. constructor; auto; try done.
  - unfold TypeRegistry.truncate. rewrite take_ge by done. destruct Hwf as [_ Hidx].
    destruct (type_registry bc). simpl in *. by rewrite Hidx.
  - by eauto.
Qed.

Section grows.
Context (chunk : BytecodeChunk) (bc : Bytecode).

(** [m] keeps extending the program, also when it fails. *)
Definition grows {A} (m : Load A) : Prop := ∀ bc', extension chunk bc bc' → extension chunk bc (m bc').1.

Lemma grows_bind {A B} (m : Load A) (k : A → Load B) : grows m → (∀ a, grows (k a)) → grows (load_bind m k).
Proof.
  intros Hm Hk bc' He. unfold load_bind. specialize (Hm bc' He).
  destruct (m bc') as [bc1 [a|e]]; simpl in *; [by apply Hk|done].
Qed.

Lemma grows_lift {A} (r : LResult A) : grows (load_lift r).
Proof. by intros bc' He. Qed.

Lemma grows_ret {A} (a : A) : grows (load_ret a).
Proof. by intros bc' He. Qed.

Lemma grows_update f : (∀ bc', extension chunk bc bc' → extension chunk bc (f bc')) → grows (load_update f).
Proof. intros Hf bc' He. by apply Hf. Qed.

Lemma grows_registry es : grows (λ bc, match TypeRegistry.try_extend (type_registry bc) es with
    | Ok r => (put_type_registry r bc, Ok tt)
    | Err e => (bc, Err (LeRegistry e))
    end).
Proof.
  intros bc' He. pose proof (gr_registry_wf _ _ _ He) as [Hwf Hpre].
  pose proof (TypeRegistry.try_extend_cases (type_registry bc') es Hwf) as Hext.
  destruct (TypeRegistry.try_extend (type_registry bc') es) as [r|e]; [|done]. destruct Hext as (_ & Hwf' & Hent).
  destruct He. constructor; try done; simpl.
  - revert gr_registry0. unfold TypeRegistry.truncate. rewrite Hent.
    assert (length (TypeRegistry.entries (type_registry bc)) ≤ length (TypeRegistry.entries (type_registry bc')))
      by by apply prefix_length. by rewrite take_app_le.
  - split; [done|]. rewrite Hent. by apply prefix_app_r.
Qed.

Lemma add_docs_prefix ds new : ds `prefix_of` foldl add_doc ds new.
Proof.
  revert ds. induction new as [|d new IH]; intros ds; simpl; [done|].
  etrans; [|apply IH]. unfold add_doc. case_decide; [done|]. by apply prefix_app_r.
Qed.

Lemma grows_functions code_base entries :
  (∀ e, e ∈ entries → e ∈ ch_functions chunk) → grows (append_functions code_base entries).
Proof.
  induction entries as [|e entries IH]; intros Hin; [apply grows_ret|]. intros bc' He. simpl.
  assert (∀ x, x ∈ entries → x ∈ ch_functions chunk) as Hin' by (intros; apply Hin; by right).
  case_decide as Hidx; [|case_decide as Hlt; [|done]]; apply (IH Hin'); destruct He; constructor; try done; simpl.
  - rewrite length_app. lia.
  - intros i Hi. rewrite lookup_app_l by lia. auto.
  - by rewrite length_insert.
  - intros i Hi. destruct (decide (i = N.to_nat (fe_fun_idx e))) as [->|Hne].
    + right. exists e. split; [apply Hin; by left|done].
    + rewrite list_lookup_insert_ne by done. auto.
Qed.

Lemma grows_source_map m code_base : grows (relocate_and_extend_source_map m code_base).
Proof.
  unfold relocate_and_extend_source_map. destruct m as [entries|]; [|apply grows_ret].
  apply grows_bind; [apply grows_lift|]. intros base. apply grows_bind; [apply grows_lift|]. intros entries'.
  apply grows_update. intros bc' []. constructor; try done. simpl. intros m Hm.
  destruct (gr_source_map0 m Hm) as (m' & -> & Hp). eexists. split; [done|]. by apply prefix_app_r.
Qed.

Lemma grows_append : TypeRegistry.wf (type_registry bc) → extension chunk bc (append_chunk chunk bc).1.
Proof.
  intros Hwf.
  unfold append_chunk. cbv zeta.
  lazymatch goal with |- extension _ _ (load_bind ?m ?k bc).1 =>
    cut (grows (load_bind m k)); [intros Hg; by apply Hg, extension_refl|] end.
  repeat first [apply grows_bind; [first [apply grows_lift|apply grows_registry|apply grows_source_map
      |apply grows_functions; done|apply grows_update; intros bc' []; constructor; try done; simpl;
         try by apply prefix_app_r]|intros ?] | apply grows_ret].
  - etrans; [done|]. apply add_docs_prefix.
  - destruct gr_boot0 as (? & ? & ? & ? & ? & ?). split_and!; try done; by apply prefix_app_r.
Qed.

End grows.
(** ** Rolling back *)

Lemma take_prefix {A} (l l' : list A) : l `prefix_of` l' → take (length l) l' = l.
Proof. intros [k ->]. by rewrite take_app_length. Qed.

Lemma restore_functions_spec (fns : list FunctionEntry) saved cur :
  length cur = length fns → (∀ i e, (i, e) ∈ saved → fns !! i = Some e) →
  length (foldl restore_function cur saved) = length fns ∧
  ∀ i, foldl restore_function cur saved !! i = if decide (i ∈ saved.*1) then fns !! i else cur !! i.
Proof.
  revert cur. induction saved as [|[j e] saved IH]; intros cur Hlen Hs; simpl; [done|].
  assert (fns !! j = Some e) as Hj by (apply Hs; by left).
  assert (restore_function cur (j, e) = <[j := e]> cur) as ->.
  { unfold restore_function. simpl. rewrite decide_True; [done|]. rewrite Hlen. by eapply lookup_lt_Some. }
  destruct (IH (<[j := e]> cur)) as [Hl Hlk]; [by rewrite length_insert|intros; apply Hs; by right|].
  split; [done|]. intros i. rewrite Hlk. destruct (decide (i ∈ saved.*1)) as [Hi|Hi].
  - rewrite decide_True; [done|]. by right.
  - destruct (decide (i = j)) as [->|Hne].
    + rewrite list_lookup_insert_eq, decide_True; [done|by left|].
      rewrite Hlen. by eapply lookup_lt_Some.
    + rewrite list_lookup_insert_ne, decide_False; [done| |done].
      by intros [?|?]%elem_of_cons.
Qed.

Lemma rollback_functions chunk bc bc' :
  extension chunk bc bc' →
  foldl restore_function (take (length (functions bc)) (functions bc'))
    (omap (overwritten (functions bc)) (ch_functions chunk)) = functions bc.
Proof.
  intros []. set (saved := omap _ _).
  assert (∀ i e, (i, e) ∈ saved ↔ functions bc !! i = Some e ∧
            ∃ x, x ∈ ch_functions chunk ∧ N.to_nat (fe_fun_idx x) = i) as Hsaved.
  { intros i e. unfold saved. rewrite list_elem_of_omap. unfold overwritten. split.
    - intros (x & Hx & (y & Hy & [= -> ->])%fmap_Some). eauto.
    - intros (Hi & x & Hx & <-). exists x. split; [done|]. by rewrite Hi. }
  destruct (restore_functions_spec (functions bc) saved (take (length (functions bc)) (functions bc'))) as [Hl Hlk].
  { rewrite length_take. lia. }
  { intros i e Hie. by apply Hsaved. }
  apply list_eq. intros i. rewrite Hlk. destruct (decide (i ∈ saved.*1)) as [Hi|Hi]; [done|].
  destruct (decide (i < length (functions bc))) as [Hlt|Hge].
  - rewrite lookup_take_lt by done. destruct (gr_functions0 i Hlt) as [?|(x & Hx & Hxi)]; [done|].
    destruct Hi. destruct (lookup_lt_is_Some_2 _ _ Hlt) as [e He].
    apply list_elem_of_fmap. exists (i, e). split; [done|]. apply Hsaved. eauto.
  - rewrite !lookup_ge_None_2; [done|lia|]. rewrite length_take. lia.
Qed.

Lemma rollback_extension chunk bc bc' :
  extension chunk bc bc' →
  rollback_tables (checkpoint_tables chunk bc) bc' = put_dbg_templates (dbg_templates bc') bc.
Proof.
  intros He. pose proof (rollback_functions _ _ _ He) as Hfns. destruct He.
  destruct gr_boot0 as (Hroot & Hsing & Hstd & Hhan & Hsup & Hlim).
  destruct gr_rest0 as (? & ? & ? & ? & ? & ? & ? & ? & ? & ? & ?).
  unfold rollback_tables, put_dbg_templates, checkpoint_tables, truncate_boot_plan. simpl.
  rewrite Hfns, gr_registry0, !take_prefix by done. f_equal; try done.
  - destruct (source_map bc) as [m|] eqn:Hm; [|done]. simpl.
    destruct (gr_source_map0 m eq_refl) as (m' & -> & Hp). simpl. by rewrite take_prefix.
  - rewrite Hroot, Hsup, Hlim. by destruct (runtime_boot_plan bc).
Qed.

(** The error output was only appended to. *)
Definition output_extended (before after : option (list str)) : Prop :=
  match before, after with
  | Some b, Some a => b `prefix_of` a
  | None, None => True
  | _, _ => False
  end.

(** C16: rolling back a chunk restores the machine it was pushed on, however far
    the chunk got: also when appending it failed half-way, when it replaced
    functions of the program, when it brought a source map to a program with or
    without one, and whatever its run did to the machine (a run leaves the code alone
    and only appends to the captured errors).  The program's tables are
    what they were, except the debug templates, which keep what the chunk appended;
    the execution state, the results, the captured errors and the process tables are
    what they were, except that the next pid stays beyond every pid the chunk
    handed out. *)
Theorem rollback_restores {K} (chunk : BytecodeChunk) (vm vm' : VM K)
    (Hwf : TypeRegistry.wf (type_registry (vm_bytecode vm)))
    (Hbc : vm_bytecode vm' = (append_chunk chunk (vm_bytecode vm)).1)
    (Hout : output_extended (vm_error_output vm) (vm_error_output vm')) :
  let vm1 := rollback_to_checkpoint (checkpoint_for_chunk chunk vm) vm' in
  vm_bytecode vm1 = put_dbg_templates (dbg_templates (vm_bytecode vm')) (vm_bytecode vm) ∧
  vm_exec vm1 = vm_exec vm ∧ vm_pc vm1 = vm_pc vm ∧
  vm_exit_code vm1 = vm_exit_code vm ∧ vm_last_result vm1 = vm_last_result vm ∧
  vm_error_output vm1 = vm_error_output vm ∧
  ∃ pid, vm_runtime vm1 = with_next_pid pid (vm_runtime vm) ∧
    (pr_next_pid (vm_runtime vm) ≤ pid)%N ∧ (pr_next_pid (vm_runtime vm') ≤ pid)%N.
Proof.
  cbn -[rollback_tables checkpoint_tables append_chunk]. split_and!; try done.
  - apply rollback_extension. rewrite Hbc. by apply grows_append.
  - destruct (vm_error_output vm), (vm_error_output vm'); try done. cbn. f_equal. by apply take_prefix.
  - eexists. split; [reflexivity|]. lia.
Qed.

(** ** Samples *)

Definition sample_function (i pc : N) : FunctionEntry :=
  mkFunctionEntry i pc 0 0 None None 0 0 0 (mkFunctionFlags false false false false false false).

Definition sample_program : Bytecode :=
  put_functions [sample_function 0 3]
    (put_opcodes [LoadConst 0; Halt; Jump 3; Return] (put_constants [CInt 1] default_bytecode)).

(** A chunk for [sample_program] with the functions [fns]. *)
Definition sample_chunk (fns : list FunctionEntry) : BytecodeChunk :=
  mkChunk [LoadConst 0; Call 1 0 0 0; Halt; Jump 5; LoadConst 1; Return]
    (Some [mkOpcodeSource 1 0 4 1 1 None]) 1 [CInt 2; CUnit] 0 0 [] 0 [] 0 [mkDbgTemplate 0 0 0 None []] [] fns [] [] []
    default_boot_plan.

Definition good_chunk : BytecodeChunk := sample_chunk [sample_function 0 4; sample_function 1 3].

Definition sample_linked : Bytecode := (append_chunk good_chunk sample_program).1.

Lemma sample_program_wf : TypeRegistry.wf (type_registry sample_program).
Proof. split; [|done]. by apply (TypeRegistry.validate_append_Ok [] []). Qed.

(** A machine with the program, and what a chunk that failed made of it: code was
    appended, the stack, the output and the next pid have moved. *)
Definition loaded_vm : VM unit :=
  mkVM sample_program (mkExec (OperandStack.from_vec [VInt 7]) [] [] [] None None None None) 1 None None (Some [lit "a"])
    (mkIoPolicy Passthrough Passthrough) None [] 0 None (ProcessRuntime.initial ProcessRuntime.sample_specs).
Definition failed_vm : VM unit :=
  mkVM sample_linked (mkExec (OperandStack.from_vec []) [] [] [] None None None None) 9 None None (Some [lit "a"; lit "b"])
    (mkIoPolicy Passthrough Passthrough) None [] 1 None
    (with_next_pid 40 (ProcessRuntime.initial ProcessRuntime.sample_specs)).

(** The chunk replaces function 0, adds function 1 and brings a source map. *)
Lemma rollback_restores_witness :
  functions (vm_bytecode failed_vm) ≠ functions (vm_bytecode loaded_vm) ∧
  vm_bytecode (rollback_to_checkpoint (checkpoint_for_chunk good_chunk loaded_vm) failed_vm)
    = put_dbg_templates (dbg_templates (vm_bytecode failed_vm)) (vm_bytecode loaded_vm) ∧
  vm_exec (rollback_to_checkpoint (checkpoint_for_chunk good_chunk loaded_vm) failed_vm) = vm_exec loaded_vm.
Proof.
  split.
  - vm_compute. discriminate.
  - destruct (rollback_restores good_chunk loaded_vm failed_vm sample_program_wf) as (Hbc & Hexec & _).
    + reflexivity.
    + exists [lit "b"]. reflexivity.
    + split; [exact Hbc|exact Hexec].
Defined.

End LoaderProps.
