(* ===== verification/Linking.v ===== *)
(** * Linking a chunk to the program ([verify_chunk] then [execute_chunk])

    A chunk is compiled with indices of its own.  Appending it relocates them.  The
    theorems here say that a verified chunk means in the program what it meant on
    its own, and that verification leaves few ways for the appending to fail. *)

From S2P Require Import Prelude Names ListHandle Value TypeRegistry Ir FunctionTable RuntimeError.
From S2P Require Import OperandStack StringLiteral Display ErrorSchema ProcessRuntime Machine Loader LoaderProps.

Module Linking.
Import FunctionTable Loader LoaderProps.

(** ** What an instruction refers to *)

Section denotes.
Context (chunk : BytecodeChunk) (bc bc' : Bytecode) (base : nat).

(** Index [i'] of the program is the constant [i] of the chunk. *)
Definition same_constant (i i' : N) : Prop :=
  ∃ c, ch_constants chunk !! N.to_nat i = Some c ∧ constants bc' !! N.to_nat i' = Some c.

Definition same_template (i i' : N) : Prop :=
  ∃ t, ch_error_templates chunk !! N.to_nat i = Some t ∧ error_templates bc' !! N.to_nat i' = Some t.

(** Address [a'] of the program is address [a] of the chunk, which is inside it. *)
Definition same_target (a a' : N) : Prop :=
  N.to_nat a' = base + N.to_nat a ∧ N.to_nat a < length (ch_opcodes chunk).

(** [op'] is to the program what [op] is to the chunk. *)
Definition denotes (op op' : Opcode) : Prop :=
  match op with
  | JumpIfLocalTagEq l i a => ∃ i' a', op' = JumpIfLocalTagEq l i' a' ∧ same_constant i i' ∧ same_target a a'
  | JumpIfLocalTagNe l i a => ∃ i' a', op' = JumpIfLocalTagNe l i' a' ∧ same_constant i i' ∧ same_target a a'
  | Jump a => ∃ a', op' = Jump a' ∧ same_target a a'
  | JumpIfFalse a => ∃ a', op' = JumpIfFalse a' ∧ same_target a a'
  | JumpIfTrue a => ∃ a', op' = JumpIfTrue a' ∧ same_target a a'
  | LoadConst i => ∃ i', op' = LoadConst i' ∧ same_constant i i'
  | StoreConstLocal i l => ∃ i', op' = StoreConstLocal i' l ∧ same_constant i i'
  | EqLocalTag l i => ∃ i', op' = EqLocalTag l i' ∧ same_constant i i'
  | MakeError t => ∃ t', op' = MakeError t' ∧ same_template t t'
  | Dbg t n => ∃ t', op' = Dbg t' n ∧ N.to_nat t' = length (dbg_templates bc) + N.to_nat t
  | _ => op' = op
  end.

End denotes.

(** Slot [i] of the function table holds the function [i]. *)
Definition dense (fns : list FunctionEntry) : Prop :=
  ∀ i e, fns !! i = Some e → N.to_nat (fe_fun_idx e) = i.

(** The entry point of [e], moved behind [base] instructions. *)
Definition entry_moved (base : nat) (e e' : FunctionEntry) : Prop :=
  N.to_nat (fe_entry_pc e') = base + N.to_nat (fe_entry_pc e) ∧
  fe_fun_idx e' = fe_fun_idx e ∧ fe_arity e' = fe_arity e ∧ fe_num_locals e' = fe_num_locals e ∧
  fe_qualified_name e' = fe_qualified_name e ∧ fe_signature e' = fe_signature e.

(** ** Relocation *)

Lemma check_below_Ok i len msg : check_below i len msg = Ok tt ↔ N.to_nat i < len.
Proof. unfold check_below, deny. case_decide; split; (done || lia). Qed.

Lemma check_base_Ok what b n : check_base what b n = Ok tt ↔ N.to_nat b = n.
Proof. unfold check_base, deny. case_decide; by split. Qed.

Lemma relocated_Ok i b what i' : relocated i b what = Ok i' ↔ i' = (i + b)%N ∧ (i' ≤ u32_max)%N.
Proof.
  unfold relocated, deny. rewrite <- u32_checked_add_Some.
  destruct (u32_checked_add i b); split; congruence.
Qed.

Lemma to_base_Ok n what b : to_base n what = Ok b ↔ b = N.of_nat n ∧ (b ≤ u32_max)%N.
Proof. unfold to_base, deny. rewrite <- u32_try_from_Some. destruct (u32_try_from n); split; congruence. Qed.

(** The bases of a program. *)
Definition bases (bc : Bytecode) : Bases :=
  mkBases (N.of_nat (length (opcodes bc))) (N.of_nat (length (constants bc)))
    (N.of_nat (length (error_templates bc))) (N.of_nat (length (dbg_templates bc))).

Lemma relocate_chunk_indices_Ok bc ops ops' :
  relocate_chunk_indices ops (length (opcodes bc)) (length (constants bc)) (length (error_templates bc))
    (length (dbg_templates bc)) = Ok ops' →
  Forall2 (λ op op', relocate_op (bases bc) op = Ok op') ops ops'.
Proof.
  unfold relocate_chunk_indices.
  intros (? & [-> _]%to_base_Ok & H)%rbind_Ok. apply rbind_Ok in H as (? & [-> _]%to_base_Ok & H).
  apply rbind_Ok in H as (? & [-> _]%to_base_Ok & H). apply rbind_Ok in H as (? & [-> _]%to_base_Ok & H).
  by apply map_result_Ok.
Qed.

Section relocate.
Context (chunk : BytecodeChunk) (bc bc' : Bytecode).
Hypothesis Hconsts : constants bc' = constants bc ++ ch_constants chunk.
Hypothesis Herrs : error_templates bc' = error_templates bc ++ ch_error_templates chunk.

Lemma const_relocated i : N.to_nat i < length (ch_constants chunk) →
  same_constant chunk bc' i (i + N.of_nat (length (constants bc))).
Proof.
  intros [c Hc]%lookup_lt_is_Some_2. exists c. split; [done|]. rewrite Hconsts.
  rewrite lookup_app_r by lia. rewrite <- Hc. f_equal. lia.
Qed.

Lemma template_relocated i : N.to_nat i < length (ch_error_templates chunk) →
  same_template chunk bc' i (i + N.of_nat (length (error_templates bc))).
Proof.
  intros [c Hc]%lookup_lt_is_Some_2. exists c. split; [done|]. rewrite Herrs.
  rewrite lookup_app_r by lia. rewrite <- Hc. f_equal. lia.
Qed.

Lemma target_relocated a : N.to_nat a < length (ch_opcodes chunk) →
  same_target chunk (length (opcodes bc)) a (a + N.of_nat (length (opcodes bc))).
Proof. unfold same_target. lia. Qed.

Lemma relocate_op_denotes halt i op op' :
  verify_chunk_op chunk halt i op = Ok tt → relocate_op (bases bc) op = Ok op' →
  denotes chunk bc bc' (length (opcodes bc)) op op'.
Proof.
  intros Hv Hr.
  destruct op; cbn in Hv, Hr |- *;
    repeat match goal with
    | H : rbind _ _ = Ok _ |- _ => apply rbind_Ok in H as (? & ? & ?)
    | u : unit |- _ => destruct u
    | H : relocated _ _ _ = Ok _ |- _ => apply relocated_Ok in H as [-> _]
    | H : check_below _ _ _ = Ok _ |- _ => apply check_below_Ok in H
    | H : Ok _ = Ok _ |- _ => injection H as <-
    end; try done;
    first [ eexists _, _; split; [reflexivity|]; by auto using const_relocated, target_relocated
          | eexists; split; [reflexivity|]; first [ by auto using const_relocated, template_relocated, target_relocated | lia ] ].
Qed.

End relocate.

(** ** The appended program *)

Lemma load_bind_Ok {A B} (m : Load A) (k : A → Load B) bc bc' b :
  load_bind m k bc = (bc', Ok b) ↔ ∃ bc1 a, m bc = (bc1, Ok a) ∧ k a bc1 = (bc', Ok b).
Proof. unfold load_bind. destruct (m bc) as [bc1 [a|e]]; naive_solver. Qed.

Lemma load_lift_Ok {A} (r : LResult A) bc bc' a : load_lift r bc = (bc', Ok a) ↔ bc' = bc ∧ r = Ok a.
Proof. unfold load_lift. naive_solver. Qed.

Lemma load_update_Ok f bc bc' u : load_update f bc = (bc', Ok u) ↔ bc' = f bc.
Proof. unfold load_update. destruct u. naive_solver. Qed.

Lemma source_map_step m base bc bc' u :
  relocate_and_extend_source_map m base bc = (bc', Ok u) → bc' = put_source_map (source_map bc') bc.
Proof.
  unfold relocate_and_extend_source_map. destruct m as [es|].
  - intros H. apply load_bind_Ok in H as (? & ? & [-> _]%load_lift_Ok & H).
    apply load_bind_Ok in H as (? & ? & [-> _]%load_lift_Ok & ->%load_update_Ok). done.
  - intros [= <- _]. by destruct bc.
Qed.

Abbreviation idx e := (N.to_nat (fe_fun_idx e)).

Lemma append_functions_spec base es bc bc' u :
  append_functions base es bc = (bc', Ok u) → NoDup (fe_fun_idx <$> es) →
  bc' = put_functions (functions bc') bc ∧ length (functions bc) ≤ length (functions bc') ∧
  (∀ e, e ∈ es → functions bc' !! idx e = Some (shift_entry base e)) ∧
  (∀ i, (∀ e, e ∈ es → idx e ≠ i) → functions bc' !! i = functions bc !! i).
Proof.
  revert bc. induction es as [|e es IH]; intros bc H Hnd.
  { injection H as <- _. split_and!; [by destruct bc|done| |done]. by intros e ?%elem_of_nil. }
  simpl in H. apply NoDup_cons in Hnd as [He Hnd].
  set (bc1 := put_functions (if decide (idx e = length (functions bc)) then functions bc ++ [shift_entry base e]
                             else <[idx e := shift_entry base e]> (functions bc)) bc).
  assert (append_functions base es bc1 = (bc', Ok u) ∧ idx e ≤ length (functions bc)) as [Hrest Hle].
  { unfold bc1. simpl in *. case_decide; [split; [done|lia]|]. case_decide; [split; [done|lia]|done]. }
  clear H. destruct (IH bc1 Hrest Hnd) as (Heq & Hlen & Hin & Hout).
  assert (functions bc1 !! idx e = Some (shift_entry base e)) as Hhd.
  { unfold bc1. simpl. case_decide as Hd; [rewrite Hd, lookup_app_r, Nat.sub_diag by lia; done|].
    apply list_lookup_insert_eq. lia. }
  split_and!.
  - rewrite Heq. done.
  - etrans; [|exact Hlen]. unfold bc1. simpl. case_decide; [rewrite length_app; simpl; lia|by rewrite length_insert].
  - intros x [->|Hx]%elem_of_cons; [|by apply Hin]. rewrite Hout; [done|].
    intros y Hy Hyx. apply He, list_elem_of_fmap. exists y. split; [lia|done].
  - intros i Hi. rewrite Hout by (intros x Hx; apply Hi; by right).
    assert (idx e ≠ i) by (apply Hi; by left). unfold bc1. simpl. case_decide as Hd.
    + destruct (decide (i < length (functions bc))); [by rewrite lookup_app_l|].
      rewrite !lookup_ge_None_2; [done|lia|]. rewrite length_app. simpl. lia.
    + by rewrite list_lookup_insert_ne.
Qed.

(** What a successful append did. *)
Record appended (chunk : BytecodeChunk) (bc bc' : Bytecode) (base : nat) : Prop := mkAppended {
  ap_base : base = length (opcodes bc);
  ap_opcodes : ∃ ops, opcodes bc' = opcodes bc ++ ops ∧
    Forall2 (λ op op', relocate_op (bases bc) op = Ok op') (ch_opcodes chunk) ops;
  ap_constants : constants bc' = constants bc ++ ch_constants chunk;
  ap_errors : error_templates bc' = error_templates bc ++ ch_error_templates chunk;
  ap_dbg : dbg_templates bc' = dbg_templates bc ++ ch_dbg_templates chunk;
  ap_functions : ∃ bc1, functions bc1 = functions bc ∧
    append_functions base (ch_functions chunk) bc1 = (bc', Ok tt);
}.

Lemma append_chunk_appended chunk bc bc' base :
  append_chunk chunk bc = (bc', Ok base) → NoDup (fe_fun_idx <$> ch_functions chunk) → appended chunk bc bc' base.
Proof.
  unfold append_chunk. cbv zeta. intros H Hnd.
  do 4 (apply load_bind_Ok in H as (? & ? & [-> _]%load_lift_Ok & H)).
  apply load_bind_Ok in H as (? & ops & [-> Hops]%load_lift_Ok & H).
  apply load_bind_Ok in H as (? & ? & ->%load_update_Ok & H).
  apply load_bind_Ok in H as (? & [] & Hreg & H).
  do 7 (apply load_bind_Ok in H as (? & ? & ->%load_update_Ok & H)).
  apply load_bind_Ok in H as (? & ? & Hsm & H). apply source_map_step in Hsm.
  apply load_bind_Ok in H as (bc2 & [] & Hfn & H). injection H as -> <-.
  destruct (TypeRegistry.try_extend _ _) as [r|]; [|done]. injection Hreg as <-.
  destruct (append_functions_spec _ _ _ _ _ Hfn Hnd) as (Heq & _).
  constructor; [done| | | | |].
  - eexists. rewrite Heq, Hsm. split; [done|]. by apply relocate_chunk_indices_Ok.
  - by rewrite Heq, Hsm.
  - by rewrite Heq, Hsm.
  - by rewrite Heq, Hsm.
  - eexists. split; [|exact Hfn]. by rewrite Hsm.
Qed.

(** What verification established. *)
Record verified (bc : Bytecode) (chunk : BytecodeChunk) : Prop := mkVerified {
  vf_registry : TypeRegistry.validate_type_registry_append (TypeRegistry.entries (type_registry bc))
                  (ch_type_entries chunk) = Ok tt;
  vf_const_base : N.to_nat (ch_const_base chunk) = length (constants bc);
  vf_error_base : N.to_nat (ch_error_template_base chunk) = length (error_templates bc);
  vf_type_base : N.to_nat (ch_type_registry_base chunk) = length (TypeRegistry.entries (type_registry bc));
  vf_source_map : ∀ m e, ch_source_map chunk = Some m → e ∈ m → N.to_nat (os_opcode_index e) < length (ch_opcodes chunk);
  vf_code : ∃ halt next, (∀ i op, ch_opcodes chunk !! i = Some op → verify_chunk_op chunk halt i op = Ok tt) ∧
    chunk_entries_ok (length (functions bc)) next true (ch_functions chunk) ∧
    Forall (entry_ok (length (ch_opcodes chunk)) halt) (ch_functions chunk) ∧
    Forall (λ f, N.to_nat f < next)
      (all_refs (ch_opcodes chunk) (ch_callable_templates chunk) (ch_runtime_process_specs chunk));
}.

Lemma source_map_loop_Ok len ctx m : ∀ seen, source_map_loop len ctx seen m = Ok tt →
  ∀ e, e ∈ m → N.to_nat (os_opcode_index e) < len.
Proof.
  induction m as [|x m IH]; intros seen; simpl; [by intros _ e ?%elem_of_nil|].
  case_decide; [done|]. case_decide; [done|]. intros Hm e [->|He]%elem_of_cons; [lia|by eapply IH].
Qed.

Lemma verify_chunk_verified bc chunk : verify_chunk bc chunk = Ok tt → verified bc chunk.
Proof.
  unfold verify_chunk. cbv zeta.
  intros ([] & Hreg & H)%rbind_Ok. apply map_err_Ok in Hreg. apply rbind_Ok in H as (_ & _ & H).
  apply rbind_Ok in H as ([] & Hsm & H).
  apply rbind_Ok in H as ([] & ?%check_base_Ok & H). apply rbind_Ok in H as ([] & ?%check_base_Ok & H).
  apply rbind_Ok in H as ([] & ?%check_base_Ok & H).
  destruct (position is_halt (ch_opcodes chunk)) as [halt|] eqn:Hhalt; [|done].
  apply rbind_Ok in H as ([] & Hops & H). apply rbind_Ok in H as (next & Hfns & _).
  apply map_err_Ok, chunk_table_iff in Hfns as (halt' & Hhalt' & ? & ? & ?). rewrite Hhalt in Hhalt'. injection Hhalt' as <-.
  constructor; try done.
  - intros m e Hm He. unfold verify_source_map_entries in Hsm. rewrite Hm in Hsm. by eapply source_map_loop_Ok.
  - exists halt, next. split_and!; try done. intros i op Hi. by apply (proj1 (for_each_from_Ok _ _ 0) Hops).
Qed.

(** The moved entry points do not wrap in a program that fits in 32 bits. *)
Lemma shift_entry_moved base len e :
  (N.of_nat (base + len) ≤ u32_max)%N → N.to_nat (fe_entry_pc e) < len → entry_moved base e (shift_entry base e).
Proof.
  intros Hfit He. unfold entry_moved, shift_entry. split_and!; try done.
  cbn [fe_entry_pc]. rewrite as_u32_small by lia. rewrite N.mod_small by lia. lia.
Qed.

(** C15: a verified chunk that was appended means in the program what it meant on
    its own.  The program's code is kept and the chunk's follows it at [base]; every
    instruction of the chunk denotes there the constant, the error template or the
    jump target it denoted in the chunk, and is otherwise unchanged; every function
    of the chunk is found under its index with its entry point moved to the same
    instruction, the other functions are as they were, the table keeps function [i]
    in slot [i], and every function the chunk mentions exists. *)
Theorem verified_chunk_links (chunk : BytecodeChunk) (bc bc' : Bytecode) (base : nat)
    (Hver : verify_chunk bc chunk = Ok tt)
    (Happ : append_chunk chunk bc = (bc', Ok base))
    (Hdense : dense (functions bc))
    (Hfit : (N.of_nat (length (opcodes bc) + length (ch_opcodes chunk)) ≤ u32_max)%N) :
  base = length (opcodes bc) ∧ take base (opcodes bc') = opcodes bc ∧
  length (opcodes bc') = base + length (ch_opcodes chunk) ∧
  (∀ i op, ch_opcodes chunk !! i = Some op →
     ∃ op', opcodes bc' !! (base + i) = Some op' ∧ denotes chunk bc bc' base op op') ∧
  (∀ e, e ∈ ch_functions chunk → ∃ e', functions bc' !! idx e = Some e' ∧ entry_moved base e e') ∧
  (∀ i, (∀ e, e ∈ ch_functions chunk → idx e ≠ i) → functions bc' !! i = functions bc !! i) ∧
  dense (functions bc') ∧
  Forall (λ f, N.to_nat f < length (functions bc'))
    (all_refs (ch_opcodes chunk) (ch_callable_templates chunk) (ch_runtime_process_specs chunk)).
Proof.
  apply verify_chunk_verified in Hver as [_ _ _ _ _ (halt & next & Hops & Hent & Hpcs & Hrefs)].
  destruct Hent as (Hle & Hnd & Hlt & Hcov).
  destruct (append_chunk_appended _ _ _ _ Happ Hnd) as [Hbase (ops & Hcode & Hrel) Hconst Herr _ (bc1 & Hbc1 & Hfn)].
  destruct (append_functions_spec _ _ _ _ _ Hfn Hnd) as (_ & Hlen & Hin & Hout). rewrite Hbc1 in Hlen. subst base.
  assert (∀ e, e ∈ ch_functions chunk → ∃ e', functions bc' !! idx e = Some e' ∧
            entry_moved (length (opcodes bc)) e e') as Hmoved.
  { intros e He. exists (shift_entry (length (opcodes bc)) e). split; [by apply Hin|].
    rewrite Forall_forall in Hpcs. eapply shift_entry_moved; [exact Hfit|]. by apply Hpcs. }
  split_and!; [done|rewrite Hcode; by rewrite take_app_length| | |done|intros i Hi; by rewrite Hout, Hbc1| |].
  - rewrite Hcode, length_app. f_equal. symmetry. by eapply Forall2_length.
  - intros i op Hi. destruct (Forall2_lookup_l _ _ _ _ _ Hrel Hi) as (op' & Hi' & Hop).
    exists op'. split; [by rewrite Hcode, lookup_app_r, Nat.add_sub_swap, Nat.sub_diag by lia|].
    eapply relocate_op_denotes; eauto.
  - intros i e' Hi. destruct (decide (Exists (λ e, idx e = i) (ch_functions chunk))) as [Hex|Hno].
    + apply Exists_exists in Hex as (e & He & <-). destruct (Hmoved e He) as (e2 & He2 & _ & Hidx & _). congruence.
    + apply Hdense. rewrite <- Hi, Hout, Hbc1; [done|]. intros e He Hei. apply Hno, Exists_exists. eauto.
  - eapply Forall_impl; [exact Hrefs|]. intros f Hf. simpl in *.
    destruct (decide (N.to_nat f < length (functions bc))); [lia|].
    destruct (Hcov (N.to_nat f)) as (e & He & <-); [lia|]. destruct (Hmoved e He) as (? & ? & _). by eapply lookup_lt_Some.
Qed.

(** ** Verification leaves little that can fail *)

Lemma append_functions_total base next es bc :
  StronglySorted fun_idx_le es → NoDup (fe_fun_idx <$> es) →
  (∀ i, length (functions bc) ≤ i < next → ∃ e, e ∈ es ∧ idx e = i) → (∀ e, e ∈ es → idx e < next) →
  ∃ bc', append_functions base es bc = (bc', Ok tt).
Proof.
  revert bc. induction es as [|e es IH]; intros bc Hs Hnd Hcov Hlt; simpl; [by eexists|].
  apply StronglySorted_cons in Hs as [Hall Hs]. apply NoDup_cons in Hnd as [_ Hnd]. rewrite Forall_forall in Hall.
  assert (idx e < next) as He by (apply Hlt; by left).
  assert (idx e ≤ length (functions bc)) as Hle.
  { destruct (decide (idx e ≤ length (functions bc))); [done|].
    destruct (Hcov (length (functions bc))) as (x & [->|Hx]%elem_of_cons & Hi); [lia|lia|].
    specialize (Hall x Hx). unfold fun_idx_le in Hall. lia. }
  case_decide as Hd; [|case_decide; [|lia]]; (apply IH; [done..| |intros x Hx; apply Hlt; by right]);
    simpl; rewrite ?length_app, ?length_insert; simpl; intros i Hi;
    (destruct (Hcov i) as (x & [->|Hx]%elem_of_cons & Hxi); [lia|lia|by eauto]).
Qed.

(** [op] survives relocation: its relocated indices fit in 32 bits. *)
Definition op_fits (b : Bases) (op : Opcode) : Prop :=
  match op with Dbg t _ => (t + b_dbg b ≤ u32_max)%N | _ => True end.

Lemma relocate_op_total chunk bc halt i op :
  (N.of_nat (length (opcodes bc) + length (ch_opcodes chunk)) ≤ u32_max)%N →
  (N.of_nat (length (constants bc) + length (ch_constants chunk)) ≤ u32_max)%N →
  (N.of_nat (length (error_templates bc) + length (ch_error_templates chunk)) ≤ u32_max)%N →
  verify_chunk_op chunk halt i op = Ok tt → op_fits (bases bc) op → ∃ op', relocate_op (bases bc) op = Ok op'.
Proof.
  intros Hcode Hconst Herr Hv Hfit.
  assert (∀ a b what, (a + b ≤ u32_max)%N → relocated a b what = Ok (a + b)%N) as Hreloc.
  { intros. by apply relocated_Ok. }
  destruct op; cbn in Hv, Hfit |- *; try (by eexists);
    repeat match goal with
    | H : rbind _ _ = Ok _ |- _ => apply rbind_Ok in H as ([] & ? & ?)
    | H : check_below _ _ _ = Ok _ |- _ => apply check_below_Ok in H
    end;
    rewrite !Hreloc by lia; by eexists.
Qed.

Lemma map_result_total {E A B} (f : A → Result E B) l :
  (∀ x, x ∈ l → ∃ y, f x = Ok y) → ∃ ys, map_result f l = Ok ys.
Proof.
  induction l as [|x l IH]; intros Hf; simpl; [by eexists|].
  destruct (Hf x) as [y ->]; [by left|]. destruct IH as [ys ->]; [intros; apply Hf; by right|]. by eexists.
Qed.

Lemma to_base_fits n what : (N.of_nat n ≤ u32_max)%N → to_base n what = Ok (N.of_nat n).
Proof. intros. by apply to_base_Ok. Qed.

Section total.
Context (chunk : BytecodeChunk) (bc : Bytecode).

(** The program with the chunk stays within 32-bit indices. *)
Record fits : Prop := mkFits {
  ft_code : (N.of_nat (length (opcodes bc) + length (ch_opcodes chunk)) ≤ u32_max)%N;
  ft_const : (N.of_nat (length (constants bc) + length (ch_constants chunk)) ≤ u32_max)%N;
  ft_error : (N.of_nat (length (error_templates bc) + length (ch_error_templates chunk)) ≤ u32_max)%N;
  ft_dbg : (N.of_nat (length (dbg_templates bc)) ≤ u32_max)%N;
  ft_ops : Forall (op_fits (bases bc)) (ch_opcodes chunk);
}.

Lemma relocate_total : verified bc chunk → fits →
  ∃ ops, relocate_chunk_indices (ch_opcodes chunk) (length (opcodes bc)) (length (constants bc))
    (length (error_templates bc)) (length (dbg_templates bc)) = Ok ops.
Proof.
  intros [_ _ _ _ _ (halt & next & Hops & _)] [Hcode Hconst Herr Hdbg Hfit]. unfold relocate_chunk_indices.
  rewrite !to_base_fits by lia. simpl. apply map_result_total. intros op [i Hi]%list_elem_of_lookup.
  rewrite Forall_lookup in Hfit. eapply (relocate_op_total chunk bc); eauto.
Qed.

Lemma source_map_total bc1 : verified bc chunk → fits →
  ∃ bc', relocate_and_extend_source_map (ch_source_map chunk) (length (opcodes bc)) bc1 = (bc', Ok tt) ∧
    functions bc' = functions bc1.
Proof.
  intros [_ _ _ _ Hsm _] [Hcode _ _ _ _]. unfold relocate_and_extend_source_map.
  destruct (ch_source_map chunk) as [m|]; [|by eexists]. unfold load_bind, load_lift.
  assert (u32_try_from (length (opcodes bc)) = Some (N.of_nat (length (opcodes bc)))) as ->.
  { apply u32_try_from_Some. lia. }
  simpl. destruct (map_result_total (relocate_source (N.of_nat (length (opcodes bc)))) m) as [m' ->].
  { intros e He. specialize (Hsm m e eq_refl He). unfold relocate_source.
    assert (u32_checked_add (os_opcode_index e) (N.of_nat (length (opcodes bc)))
            = Some (os_opcode_index e + N.of_nat (length (opcodes bc)))%N) as ->.
    { apply u32_checked_add_Some. lia. }
    by eexists. }
  by eexists.
Qed.

End total.

(** C17: a verified chunk is appended without an error, once three conditions hold
    that verification does not look at: its debug base is the program's, its
    function table is listed in the order of the indices, and the program with the
    chunk stays within 32-bit indices. *)
Theorem verified_chunk_appends (chunk : BytecodeChunk) (bc : Bytecode)
    (Hwf : TypeRegistry.wf (type_registry bc))
    (Hver : verify_chunk bc chunk = Ok tt)
    (Hdbg : N.to_nat (ch_dbg_template_base chunk) = length (dbg_templates bc))
    (Hsorted : StronglySorted fun_idx_le (ch_functions chunk))
    (Hfits : fits chunk bc) :
  ∃ bc', append_chunk chunk bc = (bc', Ok (length (opcodes bc))).
Proof.
  apply verify_chunk_verified in Hver. pose proof Hver as [Hreg Hc Hr Ht _ (halt & next & _ & Hent & _)].
  destruct Hent as (Hle & Hnd & Hlt & Hcov). apply check_base_Ok with (what := lit "dbg template") in Hdbg.
  apply check_base_Ok with (what := lit "constant") in Hc. apply check_base_Ok with (what := lit "error template") in Hr.
  apply check_base_Ok with (what := lit "type registry") in Ht.
  destruct (relocate_total _ _ Hver Hfits) as [ops Hops].
  unfold append_chunk. cbv zeta. unfold load_bind at 1, load_lift at 1. rewrite Hc.
  unfold load_bind at 1, load_lift at 1. rewrite Hr. unfold load_bind at 1, load_lift at 1. rewrite Ht.
  unfold load_bind at 1, load_lift at 1. rewrite Hdbg. unfold load_bind at 1, load_lift at 1. rewrite Hops.
  pose proof (TypeRegistry.try_extend_cases (type_registry bc) (ch_type_entries chunk) Hwf) as Hext.
  apply TypeRegistry.validate_append_Ok in Hreg.
  unfold load_bind at 1 2, load_update at 1. cbn [type_registry put_constants].
  destruct (TypeRegistry.try_extend _ _) as [r|]; [|done].
  unfold load_bind, load_update.
  match goal with |- context [relocate_and_extend_source_map _ _ ?b] =>
    destruct (source_map_total _ _ b Hver Hfits) as (bc1 & -> & Hfns) end.
  destruct (append_functions_total (length (opcodes bc)) next (ch_functions chunk) bc1) as [bc' ->].
  - done.
  - done.
  - rewrite Hfns. apply Hcov.
  - intros e He. by apply Hlt.
  - by eexists.
Qed.

(** ** What a rollback leaves behind *)

Lemma append_chunk_dbg_base next bc :
  N.to_nat (ch_dbg_template_base next) ≠ length (dbg_templates bc) → ∃ e, append_chunk next bc = (bc, Err e).
Proof.
  intros Hne. unfold append_chunk. cbv zeta. unfold load_bind at 1 2 3 4, load_lift at 1 2 3 4. unfold check_base.
  repeat (case_decide; [|by eexists]). done.
Qed.

(** A chunk that was appended, failed when it ran and was rolled back leaves its
    debug templates behind: a later chunk that was compiled against the restored
    program is rejected. *)
Theorem failed_chunk_blocks_next (chunk next : BytecodeChunk) (bc bc' : Bytecode) (base : nat)
    (Hwf : TypeRegistry.wf (type_registry bc))
    (Hver : verify_chunk bc chunk = Ok tt)
    (Happ : append_chunk chunk bc = (bc', Ok base))
    (Hdbg : ch_dbg_templates chunk ≠ [])
    (Hnext : N.to_nat (ch_dbg_template_base next) = length (dbg_templates bc)) :
  let restored := rollback_tables (checkpoint_tables chunk bc) bc' in
  ∃ e, append_chunk next restored = (restored, Err e).
Proof.
  intros restored. apply append_chunk_dbg_base. unfold restored.
  pose proof (LoaderProps.grows_append chunk bc Hwf) as Hg. rewrite Happ in Hg. cbn [fst] in Hg.
  rewrite (LoaderProps.rollback_extension _ _ _ Hg). simpl.
  apply verify_chunk_verified in Hver as [_ _ _ _ _ (? & ? & _ & (_ & Hnd & _) & _)].
  rewrite (ap_dbg _ _ _ _ (append_chunk_appended _ _ _ _ Happ Hnd)), length_app, Hnext.
  destruct (ch_dbg_templates chunk); simpl; [done|lia].
Qed.

(** ** Samples *)

Lemma sample_dense : dense (functions sample_program).
Proof. intros [|[|i]] e He; [by injection He as <-|discriminate He..]. Qed.

Lemma sample_fits : fits good_chunk sample_program.
Proof.
  constructor; [vm_compute; discriminate..|].
  repeat (apply Forall_cons; split; [exact I|]). exact (Forall_nil_2 _).
Qed.

Lemma sample_sorted : StronglySorted fun_idx_le (ch_functions good_chunk).
Proof. repeat constructor; vm_compute; discriminate. Qed.

Lemma verified_chunk_links_witness :
  dense (functions sample_linked) ∧ length (opcodes sample_linked) = 4 + length (ch_opcodes good_chunk).
Proof.
  destruct (verified_chunk_links good_chunk sample_program sample_linked 4) as (_ & _ & ? & _ & _ & _ & ? & _).
  - vm_compute. reflexivity.
  - vm_compute. reflexivity.
  - exact sample_dense.
  - vm_compute. discriminate.
  - split; assumption.
Defined.

Lemma verified_chunk_appends_witness : ∃ bc', append_chunk good_chunk sample_program = (bc', Ok (length (opcodes sample_program))).
Proof.
  apply (verified_chunk_appends good_chunk sample_program).
  - exact sample_program_wf.
  - vm_compute. reflexivity.
  - vm_compute. reflexivity.
  - exact sample_sorted.
  - exact sample_fits.
Defined.

(** The order of the table matters to the appending and not to the verification:
    the same two functions listed the other way round are verified and rejected. *)
Definition unsorted_chunk : BytecodeChunk := sample_chunk [sample_function 2 4; sample_function 1 3].

Theorem unsorted_table_rejected :
  verify_chunk sample_program unsorted_chunk = Ok tt ∧ is_ok (append_chunk unsorted_chunk sample_program).2 = false.
Proof. split; vm_compute; reflexivity. Qed.

End Linking.
