(* ===== verification/Assembler.v ===== *)
(** * The assembler of the code generator ([Codegen] in [crates/forge/src/codegen.rs])

    The code generator appends instructions to a buffer of [IrOp]s whose jumps name
    labels.  [emit] replaces windows of instructions by fused ones on the way,
    [patch_label] marks a position, [finalize] resolves the labels.  Constants are
    interned in a pool. *)

From S2P Require Import Prelude Names ListHandle Value TypeRegistry Ir RuntimeError ParseError.

(** ** Data *)

Abbreviation Label := N (only parsing).

Inductive IrOp : Type :=
| Op (op : Opcode)
| JumpLabel (label : Label)
| JumpIfFalseLabel (label : Label)
| JumpIfTrueLabel (label : Label)
| JumpIfLocalTagEqLabel (local_idx tag_const_idx : N) (label : Label)
| JumpIfLocalTagNeLabel (local_idx tag_const_idx : N) (label : Label).

(** The part of [CodegenState] the assembler works on. *)
Record CodegenState : Type := mkCodegenState {
  cs_constants : list Constant;
  cs_slot_map : gmap N N;
  cs_next_slot : N;
  cs_next_fun_idx : N;
  cs_error_templates : list ErrTemplate;
  cs_callable_templates : list CallableTemplate;
  cs_functions : list FunctionEntry;
}.

Record Codegen : Type := mkCodegen {
  cg_ir : list IrOp;
  cg_state : CodegenState;
  cg_next_label : N;
  cg_label_positions : gmap Label nat;
  cg_constant_dedup_start : nat;
}.

Record CodegenError : Type := mkCodegenError { ce_message : str; ce_span : Span }.

Module Assembler.

Definition set_ir (x : list IrOp) (g : Codegen) : Codegen :=
  mkCodegen x (cg_state g) (cg_next_label g) (cg_label_positions g) (cg_constant_dedup_start g).
Definition set_state (x : CodegenState) (g : Codegen) : Codegen :=
  mkCodegen (cg_ir g) x (cg_next_label g) (cg_label_positions g) (cg_constant_dedup_start g).
Definition set_constants (x : list Constant) (s : CodegenState) : CodegenState :=
  mkCodegenState x (cs_slot_map s) (cs_next_slot s) (cs_next_fun_idx s) (cs_error_templates s)
    (cs_callable_templates s) (cs_functions s).
Definition set_functions (x : list FunctionEntry) (s : CodegenState) : CodegenState :=
  mkCodegenState (cs_constants s) (cs_slot_map s) (cs_next_slot s) (cs_next_fun_idx s) (cs_error_templates s)
    (cs_callable_templates s) x.

(** [a += 1] on a [u32]. *)
Definition u32_succ (n : N) : N := ((n + 1) `mod` (u32_max + 1))%N.

(** ** Labels, slots and constants *)

Definition fresh_label (g : Codegen) : Label * Codegen :=
  (cg_next_label g,
   mkCodegen (cg_ir g) (cg_state g) (u32_succ (cg_next_label g)) (cg_label_positions g) (cg_constant_dedup_start g)).

Definition patch_label (label : Label) (g : Codegen) : Codegen :=
  mkCodegen (cg_ir g) (cg_state g) (cg_next_label g) (<[label := length (cg_ir g)]> (cg_label_positions g))
    (cg_constant_dedup_start g).

Definition alloc_slot (unique_id : N) (g : Codegen) : N * Codegen :=
  let s := cg_state g in
  match cs_slot_map s !! unique_id with
  | Some slot => (slot, g)
  | None =>
      let slot := cs_next_slot s in
      (slot, set_state (mkCodegenState (cs_constants s) (<[unique_id := slot]> (cs_slot_map s)) (u32_succ slot)
                          (cs_next_fun_idx s) (cs_error_templates s) (cs_callable_templates s) (cs_functions s)) g)
  end.

(** The derived [PartialEq] of [Constant]: floats compare as floats. *)
Definition constant_eqb (a b : Constant) : bool :=
  match a, b with
  | CInt x, CInt y => bool_decide (x = y)
  | CTag x, CTag y => bool_decide (x = y)
  | CFloat x, CFloat y => f64_eq x y
  | CStr x, CStr y => bool_decide (x = y)
  | CBool x, CBool y => bool_decide (x = y)
  | CUnit, CUnit => true
  | CErrorKind x, CErrorKind y => bool_decide (x = y)
  | _, _ => false
  end.

Definition add_constant (c : Constant) (g : Codegen) : N * Codegen :=
  let s := cg_state g in
  match position (λ existing, constant_eqb existing c) (drop (cg_constant_dedup_start g) (cs_constants s)) with
  | Some i => (as_u32 (cg_constant_dedup_start g + i), g)
  | None =>
      (as_u32 (length (cs_constants s)), set_state (set_constants (cs_constants s ++ [c]) s) g)
  end.

(** ** Emission *)

Definition push_ir (x : IrOp) (g : Codegen) : Codegen := set_ir (cg_ir g ++ [x]) g.

(** No label marks a position from [lo] to [hi]. *)
Definition no_label (lo hi : nat) (g : Codegen) : bool :=
  forallb (λ p : Label * nat, negb (bool_decide (lo ≤ p.2 ∧ p.2 ≤ hi))) (map_to_list (cg_label_positions g)).

(** The instruction a window fuses to when [op] follows it, with the length of the
    window; tried in the order of the source. *)
Definition fuse_last (op : Opcode) (last : option IrOp) : option Opcode :=
  match op, last with
  | Return, Some (Op (CallClosure arity s e)) => Some (TailCallClosure arity s e)
  | StoreLocal local_idx, Some (Op (LoadConst const_idx)) => Some (StoreConstLocal const_idx local_idx)
  | StoreLocal local_idx, Some (Op (LoadLocal src)) => Some (CopyLocal src local_idx)
  | _, _ => None
  end.

Definition fuse_eq_tag (op : Opcode) (window : list IrOp) : option Opcode :=
  match op, window with
  | EqTag, [Op (LoadLocal local_idx); Op GetTag; Op (LoadConst tag_const_idx)] =>
      Some (EqLocalTag local_idx tag_const_idx)
  | _, _ => None
  end.

Definition emit (op : Opcode) (g : Codegen) : Codegen :=
  let ir := cg_ir g in
  let n := length ir in
  match (if no_label n n g then fuse_last op (last ir) else None) with
  | Some fused => set_ir (take (n - 1) ir ++ [Op fused]) g
  | None =>
      match (if decide (3 ≤ n) then
               if no_label (n - 3 + 1) n g then fuse_eq_tag op (drop (n - 3) ir) else None
             else None) with
      | Some fused => set_ir (take (n - 3) ir ++ [Op fused]) g
      | None => push_ir (Op op) g
      end
  end.

Definition emit_jump (label : Label) (g : Codegen) : Codegen := push_ir (JumpLabel label) g.

Definition emit_jump_if_false (label : Label) (g : Codegen) : Codegen :=
  match last (cg_ir g) with
  | Some (Op (EqLocalTag local_idx tag_const_idx)) =>
      set_ir (take (length (cg_ir g) - 1) (cg_ir g) ++ [JumpIfLocalTagNeLabel local_idx tag_const_idx label]) g
  | _ => push_ir (JumpIfFalseLabel label) g
  end.

Definition emit_jump_if_true (label : Label) (g : Codegen) : Codegen :=
  match last (cg_ir g) with
  | Some (Op (EqLocalTag local_idx tag_const_idx)) =>
      set_ir (take (length (cg_ir g) - 1) (cg_ir g) ++ [JumpIfLocalTagEqLabel local_idx tag_const_idx label]) g
  | _ => push_ir (JumpIfTrueLabel label) g
  end.

Definition emit_unit_const (g : Codegen) : Codegen :=
  let '(unit_idx, g') := add_constant CUnit g in emit (LoadConst unit_idx) g'.

(** ** Label resolution *)

(** The windows [CallClosure; Return] that no label separates. *)
Definition fuses_tail_call (g : Codegen) (idx : nat) : bool :=
  no_label (idx + 1) (idx + 1) g &&
  match cg_ir g !! idx, cg_ir g !! (idx + 1) with
  | Some (Op (CallClosure _ _ _)), Some (Op Return) => true
  | _, _ => false
  end.

Definition fuse_tail_call (g : Codegen) : list bool := fuses_tail_call g <$> seq 0 (length (cg_ir g)).

(** [skip_ir[idx + 1] = true] for every fused [idx]. *)
Definition skip_ir (fuse : list bool) : list bool := take (length fuse) (false :: fuse).

(** The final address of every position, the end included. *)
Fixpoint addresses (pc : nat) (skip : list bool) : list nat :=
  pc :: match skip with
        | [] => []
        | s :: rest => addresses (if s then pc else S pc) rest
        end.

Definition ir_to_pc (g : Codegen) : list nat := addresses 0 (skip_ir (fuse_tail_call g)).

Definition move_entry (pcs : list nat) (e : FunctionEntry) : FunctionEntry :=
  match pcs !! N.to_nat (fe_entry_pc e) with
  | Some pc =>
      mkFunctionEntry (fe_fun_idx e) (as_u32 pc) (fe_num_locals e) (fe_arity e) (fe_qualified_name e) (fe_signature e)
        (fe_end_pc e) (fe_span_start e) (fe_span_end e) (fe_flags e)
  | None => e
  end.

(** Errors without a source position. *)
Definition codegen_error (message : str) : CodegenError := mkCodegenError message (mkSpanRange 0 0).

Definition unresolved (what : str) (label : Label) : CodegenError :=
  codegen_error (lit "unresolved " ++ what ++ lit " label Label(" ++ fmt_N label ++ lit ")").

Definition resolve_label_pc (g : Codegen) (pcs : list nat) (what : str) (label : Label) : Result CodegenError N :=
  match cg_label_positions g !! label with
  | None => Err (unresolved what label)
  | Some ir_pos =>
      match pcs !! ir_pos with
      | None => Err (unresolved what label)
      | Some pc => Ok (as_u32 pc)
      end
  end.

Definition resolve_op (g : Codegen) (pcs : list nat) (fused : bool) (x : IrOp) : Result CodegenError Opcode :=
  match x with
  | Op (CallClosure arity s e) => Ok (if fused then TailCallClosure arity s e else CallClosure arity s e)
  | Op op => Ok op
  | JumpLabel label => let? pos := resolve_label_pc g pcs (lit "jump") label in Ok (Jump pos)
  | JumpIfFalseLabel label => let? pos := resolve_label_pc g pcs (lit "jump-if-false") label in Ok (JumpIfFalse pos)
  | JumpIfTrueLabel label => let? pos := resolve_label_pc g pcs (lit "jump-if-true") label in Ok (JumpIfTrue pos)
  | JumpIfLocalTagEqLabel l c label =>
      let? pos := resolve_label_pc g pcs (lit "jump-if-local-tag-eq") label in Ok (JumpIfLocalTagEq l c pos)
  | JumpIfLocalTagNeLabel l c label =>
      let? pos := resolve_label_pc g pcs (lit "jump-if-local-tag-ne") label in Ok (JumpIfLocalTagNe l c pos)
  end.

Fixpoint resolve_ops (g : Codegen) (pcs : list nat) (fuse skip : list bool) (ir : list IrOp) :
    Result CodegenError (list Opcode) :=
  match ir, fuse, skip with
  | x :: ir', f :: fuse', s :: skip' =>
      if s then resolve_ops g pcs fuse' skip' ir'
      else let? op := resolve_op g pcs f x in let? ops := resolve_ops g pcs fuse' skip' ir' in Ok (op :: ops)
  | _, _, _ => Ok []
  end.

Definition finalize (g : Codegen) : Result CodegenError (list Opcode * CodegenState) :=
  let fuse := fuse_tail_call g in
  let pcs := ir_to_pc g in
  let state := set_functions (move_entry pcs <$> cs_functions (cg_state g)) (cg_state g) in
  let? ops := resolve_ops g pcs fuse (skip_ir fuse) (cg_ir g) in
  Ok (ops, state).

End Assembler.
