(* ===== verification/AssemblerProps.v ===== *)
(** * Properties of the assembler

    Interning constants, the windows that emission fuses, and the addresses that
    label resolution gives. *)

From S2P Require Import Prelude Names ListHandle Value TypeRegistry Ir RuntimeError ParseError Assembler.

Module AssemblerProps.
Import Assembler.

(** ** Constants *)

(** Two constants that a program cannot tell apart: equal, or floats that compare
    equal (the two zeros). *)
Definition same_constant_value (a b : Constant) : Prop :=
  a = b ∨ ∃ x y, a = CFloat x ∧ b = CFloat y ∧ f64_eq x y = true.

Lemma constant_eqb_same a b : constant_eqb a b = true → same_constant_value a b.
Proof.
  unfold same_constant_value. destruct a, b; simpl; try done;
    try (intros ->%bool_decide_eq_true; by left); [|by left]. intros. right. eauto.
Qed.

(** No constant the pool hands out was added twice. *)
Definition interned (g : Codegen) : Prop :=
  ∀ i j a b, cg_constant_dedup_start g ≤ i < j →
    cs_constants (cg_state g) !! i = Some a → cs_constants (cg_state g) !! j = Some b → constant_eqb a b = false.

Lemma add_constant_spec c g :
  (N.of_nat (length (cs_constants (cg_state g))) ≤ u32_max)%N →
  cg_constant_dedup_start g ≤ length (cs_constants (cg_state g)) →
  let '(i, g') := add_constant c g in
  cs_constants (cg_state g) `prefix_of` cs_constants (cg_state g') ∧
  (cg_constant_dedup_start g ≤ N.to_nat i) ∧
  (∃ c', cs_constants (cg_state g') !! N.to_nat i = Some c' ∧ same_constant_value c' c) ∧
  (interned g → interned g').
Proof.
  intros Hfit Hstart. unfold add_constant. destruct (position _ _) as [i|] eqn:Hp.
  - apply position_Some in Hp as (c' & Hc' & Heq & _). rewrite lookup_drop in Hc'.
    assert (cg_constant_dedup_start g + i < length (cs_constants (cg_state g))) by by eapply lookup_lt_Some.
    rewrite as_u32_small by lia. rewrite Nat2N.id. split_and!; [done|lia| |done].
    exists c'. split; [done|]. by apply constant_eqb_same.
  - rewrite as_u32_small by lia. rewrite Nat2N.id. cbn. split_and!; [by apply prefix_app_r|lia| |].
    + exists c. rewrite lookup_app_r, Nat.sub_diag by lia. split; [done|by left].
    + intros Hint i j a b [Hi Hj]. cbn in *. intros Ha Hb.
      assert (j < S (length (cs_constants (cg_state g)))) as Hlt.
      { apply lookup_lt_Some in Hb. rewrite length_app in Hb. simpl in Hb. lia. }
      rewrite lookup_app_l in Ha by lia. destruct (decide (j = length (cs_constants (cg_state g)))) as [->|Hne].
      * rewrite lookup_app_r, Nat.sub_diag in Hb by lia. injection Hb as <-.
        apply position_None in Hp. rewrite Forall_lookup in Hp. apply (Hp (i - cg_constant_dedup_start g)).
        rewrite lookup_drop. rewrite <- Ha. f_equal. lia.
      * rewrite lookup_app_l in Hb by lia. by eapply Hint.
Qed.

(** ** Emission

    A trace of what the code generator asks for, assembled once with the fusing of
    [emit] and once without. *)

Inductive Emission : Type :=
| EmOp (op : Opcode)
| EmJump (label : N)
| EmJumpIfFalse (label : N)
| EmJumpIfTrue (label : N)
| EmPatch (label : N).

Definition assemble_one (e : Emission) (g : Codegen) : Codegen :=
  match e with
  | EmOp op => emit op g
  | EmJump label => emit_jump label g
  | EmJumpIfFalse label => emit_jump_if_false label g
  | EmJumpIfTrue label => emit_jump_if_true label g
  | EmPatch label => patch_label label g
  end.

Definition naive_one (e : Emission) (g : Codegen) : Codegen :=
  match e with
  | EmOp op => push_ir (Op op) g
  | EmJump label => push_ir (JumpLabel label) g
  | EmJumpIfFalse label => push_ir (JumpIfFalseLabel label) g
  | EmJumpIfTrue label => push_ir (JumpIfTrueLabel label) g
  | EmPatch label => patch_label label g
  end.

(** No label was put between a tag comparison and the branch on it. *)
Definition branch_unlabelled (e : Emission) (g : Codegen) : bool :=
  match e with
  | EmJumpIfFalse _ | EmJumpIfTrue _ => no_label (length (cg_ir g)) (length (cg_ir g)) g
  | _ => true
  end.

Fixpoint assemble (es : list Emission) (g : Codegen) : Codegen :=
  match es with [] => g | e :: es' => assemble es' (assemble_one e g) end.
Fixpoint naive (es : list Emission) (g : Codegen) : Codegen :=
  match es with [] => g | e :: es' => naive es' (naive_one e g) end.
Fixpoint branches_unlabelled (es : list Emission) (g : Codegen) : bool :=
  match es with [] => true | e :: es' => branch_unlabelled e g && branches_unlabelled es' (assemble_one e g) end.

(** The window of instructions that one emitted instruction stands for. *)
Inductive stands_for : IrOp → list IrOp → Prop :=
| sf_self x : stands_for x [x]
| sf_tail_call a s e : stands_for (Op (TailCallClosure a s e)) [Op (CallClosure a s e); Op Return]
| sf_store_const c l : stands_for (Op (StoreConstLocal c l)) [Op (LoadConst c); Op (StoreLocal l)]
| sf_copy s l : stands_for (Op (CopyLocal s l)) [Op (LoadLocal s); Op (StoreLocal l)]
| sf_eq_tag l c : stands_for (Op (EqLocalTag l c)) [Op (LoadLocal l); Op GetTag; Op (LoadConst c); Op EqTag]
| sf_jump_ne l c label w : stands_for (Op (EqLocalTag l c)) w →
    stands_for (JumpIfLocalTagNeLabel l c label) (w ++ [JumpIfFalseLabel label])
| sf_jump_eq l c label w : stands_for (Op (EqLocalTag l c)) w →
    stands_for (JumpIfLocalTagEqLabel l c label) (w ++ [JumpIfTrueLabel label]).

(** The unfused code falls into the windows of the fused code, and every label marks
    the beginning of the same window in both. *)
Record segmented (fused plain : Codegen) (windows : list (list IrOp)) : Prop := mkSegmented {
  sg_windows : Forall2 stands_for (cg_ir fused) windows;
  sg_plain : cg_ir plain = concat windows;
  sg_labels : ∀ label, cg_label_positions plain !! label =
    (λ k, length (concat (take k windows))) <$> cg_label_positions fused !! label;
  sg_bound : ∀ label k, cg_label_positions fused !! label = Some k → k ≤ length (cg_ir fused);
}.

Lemma no_label_spec lo hi g label k :
  no_label lo hi g = true → cg_label_positions g !! label = Some k → ¬ (lo ≤ k ≤ hi).
Proof.
  unfold no_label. intros Hno Hl. apply elem_of_map_to_list in Hl.
  apply Is_true_true_2 in Hno. rewrite forallb_True, Forall_forall in Hno. specialize (Hno _ Hl). simpl in Hno.
  apply Is_true_true_1 in Hno. by apply negb_true_iff, bool_decide_eq_false in Hno.
Qed.

(** Replacing the last windows by one. *)
Lemma segmented_fuse fused plain front back ws wb x y :
  segmented fused plain (ws ++ wb) → cg_ir fused = front ++ back → length wb = length back →
  (∀ label k, cg_label_positions fused !! label = Some k → k ≤ length front) →
  stands_for x (concat wb ++ [y]) →
  segmented (set_ir (front ++ [x]) fused) (push_ir y plain) (ws ++ [concat wb ++ [y]]).
Proof.
  intros [Hw Hp Hl Hb] Hir Hlen Hk Hx. rewrite Hir in Hw.
  assert (length ws = length front) as Hws.
  { apply Forall2_length in Hw. rewrite !length_app in Hw. lia. }
  apply Forall2_app_inv in Hw as [Hfront _]; [|done]. constructor; cbn.
  - apply Forall2_app; [done|]. by constructor.
  - rewrite Hp, !concat_app. cbn. by rewrite app_nil_r, <- !app_assoc.
  - intros label. rewrite Hl. destruct (cg_label_positions fused !! label) as [k|] eqn:Hlab; [|done]. cbn.
    specialize (Hk _ _ Hlab). f_equal. by rewrite !take_app_le by lia.
  - intros label k Hlab. rewrite length_app. cbn. specialize (Hk _ _ Hlab). lia.
Qed.

Lemma segmented_push fused plain ws x :
  segmented fused plain ws → segmented (push_ir x fused) (push_ir x plain) (ws ++ [[x]]).
Proof.
  intros Hs. pose proof (segmented_fuse fused plain (cg_ir fused) [] ws [] x x) as H. cbn in H.
  rewrite app_nil_r in H. apply H; try done; [by rewrite app_nil_r| |constructor].
  intros. by eapply sg_bound.
Qed.

Lemma stands_for_self x w :
  stands_for x w →
  match x with
  | Op (CallClosure _ _ _ | LoadConst _ | LoadLocal _ | GetTag) => w = [x]
  | _ => True
  end.
Proof. by destruct 1 as [[[]| | | | |]| | | | | |]. Qed.

(** The last window of a segmentation. *)
Lemma segmented_last fused plain ws front x :
  segmented fused plain ws → cg_ir fused = front ++ [x] → ∃ ws' w, ws = ws' ++ [w] ∧ stands_for x w.
Proof.
  intros [Hw _ _ _] Hir. rewrite Hir in Hw. apply Forall2_app_inv_l in Hw as (ws' & wx & _ & Hx & ->).
  apply Forall2_cons_inv_l in Hx as (w & nil & Hx & ->%Forall2_nil_inv_l & ->). eauto.
Qed.

Lemma last_take {A} (l : list A) x : last l = Some x → l = take (length l - 1) l ++ [x].
Proof.
  intros [l' ->]%last_Some. rewrite length_app. cbn.
  by rewrite Nat.add_sub, take_app_length.
Qed.

(** Fusing [y] into the last instruction. *)
Lemma segmented_fuse_last fused plain ws x x' y :
  segmented fused plain ws → last (cg_ir fused) = Some x →
  no_label (length (cg_ir fused)) (length (cg_ir fused)) fused = true →
  (∀ w, stands_for x w → stands_for x' (w ++ [y])) →
  ∃ ws', segmented (set_ir (take (length (cg_ir fused) - 1) (cg_ir fused) ++ [x']) fused) (push_ir y plain) ws'.
Proof.
  intros Hs Hlast Hno Hx. pose proof (last_take _ _ Hlast) as Hir.
  destruct (segmented_last _ _ _ _ _ Hs Hir) as (ws' & w & -> & Hw). eexists.
  eapply (segmented_fuse _ _ _ [x] ws' [w]); [done|done|done| |].
  - intros label k Hl. pose proof (sg_bound _ _ _ Hs _ _ Hl). pose proof (no_label_spec _ _ _ _ _ Hno Hl).
    rewrite length_take. lia.
  - cbn. rewrite app_nil_r. by apply Hx.
Qed.

Lemma fuse_last_stands_for op x fused w :
  fuse_last op (Some x) = Some fused → stands_for x w → stands_for (Op fused) (w ++ [Op op]).
Proof.
  intros Hf Hw. apply stands_for_self in Hw.
  destruct op; try done; destruct x as [[]| | | | |]; try done; injection Hf as <-; subst w; constructor.
Qed.

Lemma segmented_fuse_eq_tag fused plain ws op f :
  segmented fused plain ws → 3 ≤ length (cg_ir fused) →
  no_label (length (cg_ir fused) - 3 + 1) (length (cg_ir fused)) fused = true →
  fuse_eq_tag op (drop (length (cg_ir fused) - 3) (cg_ir fused)) = Some f →
  ∃ ws', segmented (set_ir (take (length (cg_ir fused) - 3) (cg_ir fused) ++ [Op f]) fused) (push_ir (Op op) plain) ws'.
Proof.
  intros Hs Hlen Hno Hf. set (n := length (cg_ir fused)) in *. set (back := drop (n - 3) (cg_ir fused)) in *.
  assert (cg_ir fused = take (n - 3) (cg_ir fused) ++ back) as Hir by (symmetry; apply take_drop).
  assert (∃ l c, op = EqTag ∧ f = EqLocalTag l c ∧ back = [Op (LoadLocal l); Op GetTag; Op (LoadConst c)])
    as (l & c & -> & -> & Hb).
  { revert Hf. unfold fuse_eq_tag. repeat case_match; try done. intros [= <-]. eauto. }
  pose proof (sg_windows _ _ _ Hs) as Hw. rewrite Hir, Hb in Hw.
  apply Forall2_app_inv_l in Hw as (ws0 & wb & _ & Hwb & ->).
  assert (wb = [[Op (LoadLocal l)]; [Op GetTag]; [Op (LoadConst c)]]) as ->.
  { repeat match goal with
    | H : Forall2 _ (_ :: _) _ |- _ => apply Forall2_cons_inv_l in H as (? & ? & ?%stands_for_self & H & ->)
    | H : Forall2 _ [] _ |- _ => apply Forall2_nil_inv_l in H as ->
    end. by subst. }
  eexists. eapply (segmented_fuse _ _ _ back); [done|done|by rewrite Hb| |cbn; constructor].
  intros label k Hl. pose proof (sg_bound _ _ _ Hs _ _ Hl). pose proof (no_label_spec _ _ _ _ _ Hno Hl).
  rewrite length_take. fold n in H. lia.
Qed.

Lemma segmented_emit fused plain ws op :
  segmented fused plain ws → ∃ ws', segmented (emit op fused) (push_ir (Op op) plain) ws'.
Proof.
  intros Hs. unfold emit.
  destruct (if no_label _ _ _ then fuse_last op _ else None) as [f|] eqn:H1.
  - destruct (no_label _ _ _) eqn:Hno; [|done]. destruct (last (cg_ir fused)) as [x|] eqn:Hlast; [|by destruct op].
    eapply segmented_fuse_last; [done..|]. intros w. by apply fuse_last_stands_for.
  - destruct (if decide _ then _ else None) as [f|] eqn:H2.
    + case_decide; [|done]. destruct (no_label (_ - _ + _) _ _) eqn:Hno; [|done].
      by eapply segmented_fuse_eq_tag.
    + eexists. by apply segmented_push.
Qed.

Lemma segmented_patch fused plain ws label :
  segmented fused plain ws → segmented (patch_label label fused) (patch_label label plain) ws.
Proof.
  intros [Hw Hp Hl Hb]. constructor; cbn; [done|done| |].
  - intros l. destruct (decide (l = label)) as [->|Hne].
    + rewrite !lookup_insert_eq. cbn. rewrite Hp, take_ge; [done|]. by rewrite (Forall2_length _ _ _ Hw).
    + by rewrite !lookup_insert_ne.
  - intros l k. destruct (decide (l = label)) as [->|Hne].
    + rewrite lookup_insert_eq. by intros [= <-].
    + rewrite lookup_insert_ne by done. apply Hb.
Qed.

Lemma segmented_step fused plain ws e :
  segmented fused plain ws → branch_unlabelled e fused = true →
  ∃ ws', segmented (assemble_one e fused) (naive_one e plain) ws'.
Proof.
  intros Hs Hb. destruct e as [op|l|l|l|l]; cbn in *.
  - by eapply segmented_emit.
  - eexists. by apply segmented_push.
  - unfold emit_jump_if_false. destruct (last (cg_ir fused)) as [x|] eqn:Hlast; [|eexists; by apply segmented_push].
    destruct x as [[]| | | | |]; try (eexists; by apply segmented_push).
    eapply segmented_fuse_last; [done..|]. intros w. apply sf_jump_ne.
  - unfold emit_jump_if_true. destruct (last (cg_ir fused)) as [x|] eqn:Hlast; [|eexists; by apply segmented_push].
    destruct x as [[]| | | | |]; try (eexists; by apply segmented_push).
    eapply segmented_fuse_last; [done..|]. intros w. apply sf_jump_eq.
  - eexists. by apply segmented_patch.
Qed.

Lemma segmented_run es : ∀ fused plain ws,
  segmented fused plain ws → branches_unlabelled es fused = true →
  ∃ ws', segmented (assemble es fused) (naive es plain) ws'.
Proof.
  induction es as [|e es IH]; intros fused plain ws Hs Hb; cbn in *; [eauto|].
  apply andb_true_iff in Hb as [Hb1 Hb2]. destruct (segmented_step _ _ _ _ Hs Hb1) as [ws' Hs']. eauto.
Qed.

(** ** Label resolution *)

(** Position [i] holds a [Return] that was merged into the call before it. *)
Definition dropped (g : Codegen) (i : nat) : bool :=
  match i with O => false | S j => fuses_tail_call g j end.

(** How many instructions are kept before position [i]. *)
Fixpoint address (g : Codegen) (i : nat) : nat :=
  match i with O => O | S j => address g j + (if dropped g j then 0 else 1) end.

Section resolve.
Context (g : Codegen).
Hypothesis Hfit : (N.of_nat (length (cg_ir g)) ≤ u32_max)%N.

Lemma address_le i : address g i ≤ i.
Proof. induction i as [|i IH]; cbn; [done|]. destruct (dropped g i); lia. Qed.

Lemma lookup_fuse i : fuse_tail_call g !! i = if decide (i < length (cg_ir g)) then Some (fuses_tail_call g i) else None.
Proof.
  unfold fuse_tail_call. rewrite list_lookup_fmap. case_decide as Hi.
  - by rewrite lookup_seq_lt.
  - rewrite lookup_ge_None_2; [done|]. rewrite length_seq. lia.
Qed.

Lemma length_fuse : length (fuse_tail_call g) = length (cg_ir g).
Proof. unfold fuse_tail_call. by rewrite length_fmap, length_seq. Qed.

Lemma lookup_skip i :
  skip_ir (fuse_tail_call g) !! i = if decide (i < length (cg_ir g)) then Some (dropped g i) else None.
Proof.
  unfold skip_ir. rewrite length_fuse. case_decide as Hi.
  - rewrite lookup_take_lt by done. destruct i as [|i]; [done|]. cbn [lookup list_lookup].
    change (fuse_tail_call g !! i = Some (dropped g (S i))). rewrite lookup_fuse. by rewrite decide_True by lia.
  - by rewrite lookup_take_ge by lia.
Qed.

Lemma length_skip : length (skip_ir (fuse_tail_call g)) = length (cg_ir g).
Proof. unfold skip_ir. rewrite length_take. cbn. rewrite length_fuse. lia. Qed.

Lemma lookup_addresses skip : ∀ d i,
  (∀ j, skip !! j = if decide (j < length skip) then Some (dropped g (d + j)) else None) →
  addresses (address g d) skip !! i = if decide (i ≤ length skip) then Some (address g (d + i)) else None.
Proof.
  induction skip as [|s skip IH]; intros d i Hs.
  - destruct i; cbn; [by rewrite Nat.add_0_r|]. by rewrite decide_False by lia.
  - destruct i as [|i]; cbn; [by rewrite Nat.add_0_r|].
    assert ((if s then address g d else S (address g d)) = address g (S d)) as ->.
    { specialize (Hs 0). cbn in Hs. rewrite Nat.add_0_r in Hs. injection Hs as ->. cbn. destruct (dropped g d); lia. }
    change (addresses (address g (S d)) skip !! i = if decide (S i ≤ S (length skip)) then Some (address g (d + S i)) else None).
    rewrite IH.
    + rewrite Nat.add_succ_comm. repeat case_decide; (done || lia).
    + intros j. specialize (Hs (S j)). cbn in Hs. change (skip !! j = if decide (S j < S (length skip)) then Some (dropped g (d + S j)) else None) in Hs.
      rewrite Hs, Nat.add_succ_comm. repeat case_decide; (done || lia).
Qed.

Lemma lookup_ir_to_pc i : ir_to_pc g !! i = if decide (i ≤ length (cg_ir g)) then Some (address g i) else None.
Proof.
  unfold ir_to_pc. pose proof (lookup_addresses (skip_ir (fuse_tail_call g)) 0 i) as H. rewrite length_skip in H.
  apply H. intros j. apply lookup_skip.
Qed.

(** The address a label stands for. *)
Definition label_address (label : N) (pos : N) : Prop :=
  ∃ k, cg_label_positions g !! label = Some k ∧ k ≤ length (cg_ir g) ∧ pos = N.of_nat (address g k).

Lemma resolve_label_pc_spec what label :
  match resolve_label_pc g (ir_to_pc g) what label with
  | Ok pos => label_address label pos
  | Err _ => ∀ pos, ¬ label_address label pos
  end.
Proof.
  unfold resolve_label_pc, label_address. destruct (cg_label_positions g !! label) as [k|] eqn:Hl.
  - rewrite lookup_ir_to_pc. case_decide as Hk.
    + exists k. pose proof (address_le k). rewrite as_u32_small by lia. done.
    + intros pos (k' & [= <-] & ? & _). lia.
  - by intros pos (k & ? & _).
Qed.

(** The label a jump names. *)
Definition names_label (x : IrOp) : option N :=
  match x with
  | Op _ => None
  | JumpLabel l | JumpIfFalseLabel l | JumpIfTrueLabel l
  | JumpIfLocalTagEqLabel _ _ l | JumpIfLocalTagNeLabel _ _ l => Some l
  end.

(** [op] is the instruction at position [i] with its label resolved. *)
Definition translates (i : nat) (x : IrOp) (op : Opcode) : Prop :=
  match x with
  | Op (CallClosure a s e) => op = if fuses_tail_call g i then TailCallClosure a s e else CallClosure a s e
  | Op o => op = o
  | JumpLabel l => ∃ pos, op = Jump pos ∧ label_address l pos
  | JumpIfFalseLabel l => ∃ pos, op = JumpIfFalse pos ∧ label_address l pos
  | JumpIfTrueLabel l => ∃ pos, op = JumpIfTrue pos ∧ label_address l pos
  | JumpIfLocalTagEqLabel s c l => ∃ pos, op = JumpIfLocalTagEq s c pos ∧ label_address l pos
  | JumpIfLocalTagNeLabel s c l => ∃ pos, op = JumpIfLocalTagNe s c pos ∧ label_address l pos
  end.

Lemma resolve_op_spec i x :
  match resolve_op g (ir_to_pc g) (fuses_tail_call g i) x with
  | Ok op => translates i x op
  | Err _ => ∃ label, names_label x = Some label ∧ ∀ pos, ¬ label_address label pos
  end.
Proof.
  destruct x as [op|l|l|l|s c l|s c l]; cbn; [by destruct op|..];
    match goal with |- context [resolve_label_pc g _ ?w l] => pose proof (resolve_label_pc_spec w l) as H end;
    destruct (resolve_label_pc g _ _ l); cbn; eauto.
Qed.

Lemma resolve_ops_spec xs : ∀ d, drop d (cg_ir g) = xs →
  match resolve_ops g (ir_to_pc g) (drop d (fuse_tail_call g)) (drop d (skip_ir (fuse_tail_call g))) xs with
  | Ok ops => address g d + length ops = address g (d + length xs) ∧
      ∀ i x, d ≤ i → cg_ir g !! i = Some x → dropped g i = false →
        ∃ op, ops !! (address g i - address g d) = Some op ∧ address g d ≤ address g i ∧ translates i x op
  | Err _ => ∃ x label, x ∈ cg_ir g ∧ names_label x = Some label ∧ ∀ pos, ¬ label_address label pos
  end.
Proof.
  induction xs as [|x xs IH]; intros d Hd.
  { assert (length (cg_ir g) ≤ d) as Hlen.
    { apply (f_equal length) in Hd. rewrite length_drop in Hd. cbn in Hd. lia. }
    cbn. destruct (drop d (fuse_tail_call g)); cbn; (split; [by rewrite !Nat.add_0_r|]); intros i x Hi Hx;
      apply lookup_lt_Some in Hx; lia. }
  assert (cg_ir g !! d = Some x) as Hx.
  { rewrite <- (Nat.add_0_r d), <- lookup_drop, Hd. done. }
  assert (d < length (cg_ir g)) as Hlt by by eapply lookup_lt_Some.
  assert (drop (S d) (cg_ir g) = xs) as Hd'.
  { change (S d) with (1 + d). rewrite Nat.add_comm, <- drop_drop, Hd. done. }
  rewrite (drop_S (fuse_tail_call g) (fuses_tail_call g d) d) by (rewrite lookup_fuse; by rewrite decide_True).
  rewrite (drop_S (skip_ir (fuse_tail_call g)) (dropped g d) d) by (rewrite lookup_skip; by rewrite decide_True).
  specialize (IH (S d) Hd'). cbn [resolve_ops].
  assert (address g (S d) = address g d + if dropped g d then 0 else 1) as Ha by done.
  destruct (dropped g d) eqn:Hdrop.
  - destruct (resolve_ops _ _ _ _ xs) as [ops|e]; [|done]. destruct IH as [Hl IH]. split.
    + cbn [length]. rewrite (Nat.add_succ_r d). rewrite Ha in Hl. change (S d + length xs) with (S (d + length xs)) in Hl. lia.
    + intros i y Hi Hy Hk. destruct (decide (i = d)) as [->|Hne]; [congruence|].
      destruct (IH i y) as (op & ? & ? & ?); [lia|done|done|]. exists op. rewrite Ha, Nat.add_0_r in *. done.
  - pose proof (resolve_op_spec d x) as Hop. destruct (resolve_op _ _ _ x) as [op|e]; cbn [rbind].
    2: { destruct Hop as (label & ? & ?). exists x, label. split_and!; [by eapply list_elem_of_lookup_2|done..]. }
    destruct (resolve_ops _ _ _ _ xs) as [ops|e]; [|done]. cbn [rbind]. destruct IH as [Hl IH]. split.
    + cbn [length]. rewrite (Nat.add_succ_r d). rewrite Ha in Hl. change (S d + length xs) with (S (d + length xs)) in Hl. lia.
    + intros i y Hi Hy Hk. destruct (decide (i = d)) as [->|Hne].
      * rewrite Hx in Hy. injection Hy as <-. exists op. rewrite Nat.sub_diag. done.
      * destruct (IH i y) as (op' & Hop' & Hle & ?); [lia|done|done|]. exists op'. rewrite Ha in *.
        replace (address g i - address g d) with (S (address g i - (address g d + 1))) by lia. split_and!; [done|lia|done].
Qed.

End resolve.

(** ** The theorems *)

(** Adding constants one after the other. *)
Fixpoint intern (cs : list Constant) (g : Codegen) : list N * Codegen :=
  match cs with
  | [] => ([], g)
  | c :: cs' => let '(i, g1) := add_constant c g in let '(ids', g2) := intern cs' g1 in (i :: ids', g2)
  end.

Lemma add_constant_start c g : cg_constant_dedup_start (add_constant c g).2 = cg_constant_dedup_start g.
Proof. unfold add_constant. by destruct (position _ _). Qed.

Lemma add_constant_length c g :
  length (cs_constants (cg_state (add_constant c g).2)) ≤ S (length (cs_constants (cg_state g))).
Proof. unfold add_constant. destruct (position _ _); cbn; [lia|]. rewrite length_app. cbn. lia. Qed.

Lemma intern_spec cs : ∀ g,
  (N.of_nat (length (cs_constants (cg_state g)) + length cs) ≤ u32_max)%N →
  cg_constant_dedup_start g ≤ length (cs_constants (cg_state g)) →
  let '(ids, g') := intern cs g in
  cs_constants (cg_state g) `prefix_of` cs_constants (cg_state g') ∧
  Forall2 (λ i c, cg_constant_dedup_start g ≤ N.to_nat i ∧
             ∃ c', cs_constants (cg_state g') !! N.to_nat i = Some c' ∧ same_constant_value c' c) ids cs ∧
  (interned g → interned g').
Proof.
  induction cs as [|c cs IH]; intros g Hfit Hstart; cbn [intern].
  { split_and!; [done|constructor|done]. }
  cbn [length] in Hfit. pose proof (add_constant_spec c g ltac:(lia) Hstart) as Hadd.
  pose proof (add_constant_start c g) as Hs. pose proof (add_constant_length c g) as Hl.
  destruct (add_constant c g) as [i g1]. cbn [snd] in *. destruct Hadd as (Hpre & Hi & (c' & Hc' & Hsame) & Hint).
  assert (length (cs_constants (cg_state g)) ≤ length (cs_constants (cg_state g1))) by by apply prefix_length.
  specialize (IH g1 ltac:(lia) ltac:(lia)). destruct (intern cs g1) as [ids' g2]. destruct IH as (Hpre2 & Hall & Hint2).
  rewrite Hs in Hall. split_and!; [by etrans| |by auto]. constructor; [|done]. split; [done|].
  exists c'. split; [|done]. by eapply prefix_lookup_Some.
Qed.

(** the constant pool interns soundly: whatever constants the generator adds, in
    any order, every index it was given denotes, in the final pool, the constant it
    asked for (up to the equality of floats, which identifies the two zeros), indices
    of a chunk stay above the constants it must not touch, the pool only grows, and
    no two constants of the chunk are equal. *)
Theorem constants_interned (cs : list Constant) (g : Codegen)
    (Hfit : (N.of_nat (length (cs_constants (cg_state g)) + length cs) ≤ u32_max)%N)
    (Hstart : cg_constant_dedup_start g = length (cs_constants (cg_state g))) :
  let '(ids, g') := intern cs g in
  cs_constants (cg_state g) `prefix_of` cs_constants (cg_state g') ∧
  Forall2 (λ i c, length (cs_constants (cg_state g)) ≤ N.to_nat i ∧
             ∃ c', cs_constants (cg_state g') !! N.to_nat i = Some c' ∧ same_constant_value c' c) ids cs ∧
  interned g'.
Proof.
  pose proof (intern_spec cs g Hfit ltac:(lia)) as H. destruct (intern cs g) as [ids g'].
  destruct H as (? & Hall & Hint). rewrite Hstart in Hall. split_and!; [done..|]. apply Hint.
  intros i j a b [Hi Hj] _ Hb%lookup_lt_Some. lia.
Qed.

(** Nothing was emitted yet. *)
Definition start (s : CodegenState) : Codegen := mkCodegen [] s 0 ∅ (length (cs_constants s)).

Lemma start_segmented s : segmented (start s) (start s) [].
Proof. constructor; cbn; [constructor|done| |]; intros label; by rewrite lookup_empty. Qed.

(** The peephole optimiser only ever replaces whole windows.  Whatever the
    generator emits, as long as it puts no label between a tag comparison and the
    branch on it, the code it assembles is the code it asked for, cut into windows,
    with each window replaced by the one instruction that stands for it; and every
    label, also one that was patched again, marks the beginning of the same window in
    both, so that no jump can enter a window in the middle. *)
Theorem assembly_windows (es : list Emission) (s : CodegenState)
    (Hb : branches_unlabelled es (start s) = true) :
  ∃ windows, segmented (assemble es (start s)) (naive es (start s)) windows.
Proof. eapply segmented_run; [apply start_segmented|done]. Qed.

(** What label resolution has to produce. *)
Record resolved (g : Codegen) (ops : list Opcode) (s : CodegenState) : Prop := mkResolved {
  rs_length : length ops = address g (length (cg_ir g));
  rs_ops : ∀ i x, cg_ir g !! i = Some x → dropped g i = false →
    ∃ op, ops !! address g i = Some op ∧ translates g i x op;
  rs_dropped : ∀ i, dropped g (S i) = true → cg_ir g !! S i = Some (Op Return) ∧
    (∃ a b e, cg_ir g !! i = Some (Op (CallClosure a b e))) ∧ dropped g i = false ∧ address g (S i) = S (address g i);
  rs_labels : ∀ label k, cg_label_positions g !! label = Some k → dropped g k = false;
  rs_functions : Forall2 (λ e e', N.to_nat (fe_entry_pc e) ≤ length (cg_ir g) →
      N.to_nat (fe_entry_pc e') = address g (N.to_nat (fe_entry_pc e)) ∧ fe_fun_idx e' = fe_fun_idx e)
    (cs_functions (cg_state g)) (cs_functions s);
}.

Lemma fuses_tail_call_spec g i : fuses_tail_call g i = true →
  cg_ir g !! S i = Some (Op Return) ∧ (∃ a b e, cg_ir g !! i = Some (Op (CallClosure a b e))) ∧
  no_label (S i) (S i) g = true.
Proof.
  unfold fuses_tail_call. rewrite Nat.add_1_r. intros [Hno H]%andb_true_iff. revert H.
  repeat case_match; try done. intros _. split_and!; [congruence|eauto|done].
Qed.

Lemma dropped_spec g i : dropped g (S i) = true → cg_ir g !! S i = Some (Op Return) ∧
  (∃ a b e, cg_ir g !! i = Some (Op (CallClosure a b e))) ∧ dropped g i = false ∧ address g (S i) = S (address g i).
Proof.
  cbn [dropped]. intros (Hr & Hc & _)%fuses_tail_call_spec.
  assert (dropped g i = false) as Hd.
  { destruct i as [|i]; [done|]. cbn. destruct (fuses_tail_call g i) eqn:Hf; [|done].
    apply fuses_tail_call_spec in Hf as (Hr' & _ & _). destruct Hc as (? & ? & ? & Hc). congruence. }
  split_and!; [done..|]. cbn. rewrite Hd. lia.
Qed.

(** C23: label resolution is exact.  It fails only on a jump whose label has no
    position in the code; otherwise every instruction is found at its address, with
    its jump going to the address of the position its label marks, the only
    instructions left out are the returns that were merged into a tail call, no label
    marks one of those, and the entry points of the functions move along. *)
Theorem finalize_resolves (g : Codegen) (Hfit : (N.of_nat (length (cg_ir g)) ≤ u32_max)%N) :
  match finalize g with
  | Ok (ops, s) => resolved g ops s
  | Err _ => ∃ x label, x ∈ cg_ir g ∧ names_label x = Some label ∧ ∀ pos, ¬ label_address g label pos
  end.
Proof.
  unfold finalize. pose proof (resolve_ops_spec g Hfit (cg_ir g) 0 eq_refl) as Hops. rewrite !drop_0 in Hops.
  destruct (resolve_ops _ _ _ _ _) as [ops|e]; cbn; [|done]. destruct Hops as [Hlen Hops]. constructor.
  - exact Hlen.
  - intros i x Hx Hd. destruct (Hops i x) as (op & Hop & _ & ?); [lia|done|done|].
    rewrite Nat.sub_0_r in Hop. eauto.
  - intros i. apply dropped_spec.
  - intros label [|k] Hk; [done|]. cbn. destruct (fuses_tail_call g k) eqn:Hf; [|done].
    apply fuses_tail_call_spec in Hf as (_ & _ & Hno). pose proof (no_label_spec _ _ _ _ _ Hno Hk). lia.
  - cbn. apply Forall2_fmap_r, Forall_Forall2_diag, Forall_true. intros e He. unfold move_entry.
    rewrite lookup_ir_to_pc, decide_True by done. cbn. pose proof (address_le g Hfit (N.to_nat (fe_entry_pc e))).
    rewrite as_u32_small by lia. split; [lia|done].
Qed.

(** ** Samples *)

Definition sample_state : CodegenState := mkCodegenState [CInt 1; CTag 4] ∅ 3 0 [] [] [].

(** A branch on a tag over an assignment, a copy, and a call in tail position. *)
Definition sample_trace : list Emission :=
  [EmOp (LoadLocal 0); EmOp GetTag; EmOp (LoadConst 1); EmOp EqTag; EmJumpIfFalse 0;
   EmOp (LoadConst 0); EmOp (StoreLocal 1); EmPatch 0; EmOp (LoadLocal 1); EmOp (StoreLocal 2);
   EmOp (LoadLocal 2); EmOp (CallClosure 0 0 0); EmOp Return].

Lemma sample_assembly :
  cg_ir (assemble sample_trace (start sample_state)) =
  [JumpIfLocalTagNeLabel 0 1 0; Op (StoreConstLocal 0 1); Op (CopyLocal 1 2); Op (LoadLocal 2);
   Op (TailCallClosure 0 0 0)].
Proof. vm_compute. reflexivity. Qed.

Lemma constants_interned_witness :
  (intern [CInt 7; CStr (lit "a"); CInt 7] (start sample_state)).1 = [2; 3; 2]%N ∧
  interned (intern [CInt 7; CStr (lit "a"); CInt 7] (start sample_state)).2.
Proof.
  pose proof (constants_interned [CInt 7; CStr (lit "a"); CInt 7] (start sample_state)
    ltac:(vm_compute; discriminate) eq_refl) as H.
  destruct (intern _ _) as [ids g'] eqn:Hi. destruct H as (_ & _ & H). split; [|exact H].
  vm_compute in Hi. injection Hi as <- _. reflexivity.
Defined.

Lemma assembly_windows_witness :
  ∃ windows, segmented (assemble sample_trace (start sample_state)) (naive sample_trace (start sample_state)) windows.
Proof. apply (assembly_windows sample_trace sample_state). vm_compute. reflexivity. Defined.

Lemma finalize_resolves_witness :
  ∃ ops s, finalize (naive sample_trace (start sample_state)) = Ok (ops, s) ∧
    resolved (naive sample_trace (start sample_state)) ops s ∧
    ops !! 4 = Some (JumpIfFalse 7) ∧ ops !! 10 = Some (TailCallClosure 0 0 0) ∧ length ops = 11.
Proof.
  pose proof (finalize_resolves (naive sample_trace (start sample_state)) ltac:(vm_compute; discriminate)) as H.
  destruct (finalize _) as [[ops s]|e] eqn:Hf.
  - exists ops, s. split; [reflexivity|]. split; [exact H|]. vm_compute in Hf. injection Hf as <- <-. repeat split.
  - vm_compute in Hf. discriminate.
Defined.

(** The pool identifies the two zeros: a program that mentions [0.0] and then [-0.0]
    gets the index of [0.0] for both. *)
Theorem negative_zero_merged :
  (intern [CFloat (SpecFloat.S754_zero false); CFloat (SpecFloat.S754_zero true)] (start sample_state)).1 = [2; 2]%N.
Proof. reflexivity. Qed.

End AssemblerProps.
