(* ===== verification/Fusion.v ===== *)
(** * Fused instructions

    The assembler replaces windows of instructions by single ones.  Here the
    instructions of a window, run one after the other on the machine, are compared
    with the instruction that stands for them. *)

From S2P Require Import Prelude Names ListHandle Value TypeRegistry OperandStack Ir RuntimeError ParseError.
From S2P Require Import StringLiteral Display ErrorSchema ProcessRuntime Machine Opcodes Frames VmProps Calls.
From S2P Require Import Driver DriverProps Assembler AssemblerProps.

Module Fusion.
Import Machine Opcodes Frames VmProps Calls Driver.

#[local] Arguments OperandStack.push : simpl never.
#[local] Arguments OperandStack.pop : simpl never.

Section windows.
Context {K : Type} `{RustFmt} `{BuiltinTable} `{DbgReporter K}.
Context (depth : nat).
Implicit Types (vm : VM K) (pc : nat).

(** Run the instructions at [pc], [pc + 1], ... until one does not fall through. *)
Fixpoint run_window (ops : list Opcode) pc : M K (OpcodeControl * nat) :=
  match ops with
  | [] => continue_at pc
  | [op] => execute_opcode depth op (S pc)
  | op :: rest =>
      let* c := execute_opcode depth op (S pc) in
      match c with
      | (Continue, t) => if decide (t = S pc) then run_window rest (S pc) else ret c
      | _ => ret c
      end
  end.

(** The outcome of a run that did not fail. *)
Definition finished {A} (r : VM K * Try RuntimeError A) : option (VM K * A) :=
  match r with (vm, Ok a) => Some (vm, a) | _ => None end.

(** ** Pushing and popping *)

Definition pushed (v : Value) vm : VM K := with_stack (OperandStack.push v (stack vm)) vm.

Definition indexed vm : Prop := OperandStack.positions_exact (stack vm).

Lemma pop_push v (s : OperandStack) :
  OperandStack.positions_exact s → is_pending_future v = false → OperandStack.pop (OperandStack.push v s) = Some (v, s).
Proof.
  intros He Hv. unfold OperandStack.push. rewrite Hv. destruct s as [vs slots]. cbn [values OperandStack.pending_slots].
  unfold OperandStack.pop. cbn [values OperandStack.pending_slots]. rewrite length_app. cbn [length].
  replace (usize_checked_sub (length vs + 1) 1) with (Some (length vs))
    by (unfold usize_checked_sub; rewrite decide_True by lia; f_equal; lia).
  assert (∀ sl, slots = Some sl → last (rc_val sl) ≠ Some (length vs)) as Hlast.
  { intros sl ->. unfold OperandStack.positions_exact in He. cbn in He. rewrite He. intros Hl.
    apply last_Some_elem_of, OperandStack.pending_indices_lt in Hl. lia. }
  destruct slots as [sl|]; [rewrite decide_False by (by apply Hlast)|]; cbn [values OperandStack.pending_slots];
    rewrite last_snoc, length_app, Nat.add_sub, take_app_length; done.
Qed.

Lemma pop_pushed v vm : indexed vm → is_pending_future v = false → pop_stack (pushed v vm) = (vm, Ok v).
Proof.
  intros He Hv. unfold pop_stack. change (stack (pushed v vm)) with (OperandStack.push v (stack vm)).
  rewrite pop_push by done. by destruct vm as [? []].
Qed.

Lemma pushed_indexed v vm : indexed vm → indexed (pushed v vm).
Proof. intros He. by apply OperandStack.push_spec. Qed.

Lemma push_eq v vm : push_value v vm = (pushed v vm, Ok tt).
Proof. done. Qed.

(** ** The instructions of the windows *)

Lemma run_load_const c pc vm :
  execute_opcode depth (LoadConst c) pc vm =
  match constant_value (vm_bytecode vm) c with
  | Ok v => (pushed v vm, Ok (Continue, pc))
  | Err e => (vm, fail e)
  end.
Proof. cbn. unfold bindM. cbn. by destruct (constant_value _ c). Qed.

Lemma constant_not_pending bc c v : constant_value bc c = Ok v → is_pending_future v = false.
Proof.
  unfold constant_value, finite_float_value. intros (k & _ & Hk)%rbind_Ok.
  destruct k; cbn in Hk; repeat case_match; simplify_eq; done.
Qed.

(** The local [l] of the current frame, if it is there. *)
Definition local vm (l : N) : option Value := f ← last (frames vm); cf_locals f !! N.to_nat l.

Definition ready vm (l : N) : Prop := ∀ v, local vm l = Some v → is_pending_future v = false.

Lemma run_load_local l pc vm : ready vm l →
  finished (execute_opcode depth (LoadLocal l) pc vm) = (λ v, (pushed v vm, (Continue, pc))) <$> local vm l.
Proof.
  unfold ready, local. intros Hr. cbn. unfold bindM, load_local_or_pending, bindM, current_frame.
  destruct (last (frames vm)) as [f|]; cbn; [|done].
  destruct (cf_locals f !! N.to_nat l) as [v|] eqn:Hl; cbn; [|done]. specialize (Hr v Hl). by destruct v.
Qed.

Lemma run_store_local l pc v vm : indexed vm → is_pending_future v = false → ∀ s,
  finished (execute_opcode depth (StoreLocal l) pc (pushed v vm)) =
  finished ((store_local l v s ;; continue_at pc) vm).
Proof.
  intros He Hv s. cbn. unfold bindM at 1 2. cbn. rewrite pop_pushed by done. cbn.
  unfold bindM, store_local, bindM, current_frame. destruct (last (frames vm)) as [f|]; cbn; [|done].
  destruct (decide (N.to_nat l < _)); [|done]. unfold update_frame, bindM, current_frame.
  by destruct (last (frames vm)).
Qed.

Lemma run_copy_local src l pc vm :
  finished (execute_opcode depth (CopyLocal src l) pc vm) =
  match local vm src with
  | Some v => finished ((store_local l v (lit "CopyLocal destination out of bounds: ") ;; continue_at pc) vm)
  | None => None
  end.
Proof.
  cbn [execute_opcode]. unfold exec_data. unfold bindM at 1 2 3. cbn. unfold local, current_frame.
  destruct (last (frames vm)) as [f|]; cbn; [|done]. by destruct (cf_locals f !! N.to_nat src).
Qed.

(** [local_tag] reads what [GetTag] would compute. *)
Definition tag_of vm (v : Value) : option N :=
  match v with
  | VTagged tag fields =>
      match validate_match_result_representation (registry vm) tag fields with Ok _ => Some tag | Err _ => None end
  | _ => None
  end.

Lemma run_get_tag v pc vm : indexed vm → is_pending_future v = false →
  finished (execute_opcode depth GetTag pc (pushed v vm)) = (λ t, (pushed (VTag t) vm, (Continue, pc))) <$> tag_of vm v.
Proof.
  intros He Hv. cbn. unfold bindM at 1 2 3. cbn. rewrite pop_pushed by done. destruct v; try done.
  cbn. unfold bindM. cbn. by destruct (validate_match_result_representation _ _ _).
Qed.

Lemma run_eq_tag v t pc vm : indexed vm → is_pending_future v = false →
  finished (execute_opcode depth EqTag pc (pushed v (pushed (VTag t) vm))) =
  match v with VTag b => Some (pushed (VBool (bool_decide (t = b))) vm, (Continue, pc)) | _ => None end.
Proof.
  intros He Hv. cbn. unfold pop_tag, bindM. cbn.
  rewrite pop_pushed by (done || by apply pushed_indexed). destruct v; try done. cbn. by rewrite pop_pushed.
Qed.

Lemma run_local_tag {A} l s (k : N → M K A) vm :
  finished (bindM (local_tag l s) k vm) = match v ← local vm l; tag_of vm v with Some t => finished (k t vm) | None => None end.
Proof.
  unfold bindM at 1. unfold local_tag, local, bindM, current_frame. destruct (last (frames vm)) as [f|]; cbn; [|done].
  destruct (cf_locals f !! N.to_nat l) as [v|]; cbn; [|done]. destruct v; cbn; try done.
  by destruct (validate_match_result_representation _ _ _).
Qed.

Lemma finished_bind {A B} (m : M K A) (k : A → M K B) vm :
  finished (bindM m k vm) = match finished (m vm) with Some (vm', a) => finished (k a vm') | None => None end.
Proof. unfold bindM. by destruct (m vm) as [vm' [a|e]]. Qed.

Lemma finished_liftE {A B} (r : Result RuntimeError A) (k : A → M K B) vm :
  finished (bindM (liftE r) k vm) = match r with Ok a => finished (k a vm) | Err _ => None end.
Proof. by destruct r. Qed.

Lemma finished_bytecode {B} (k : Bytecode → M K B) vm :
  finished (bindM bytecode k vm) = finished (k (vm_bytecode vm) vm).
Proof. done. Qed.

Lemma run_window_cons op op' rest pc vm :
  finished (run_window (op :: op' :: rest) pc vm) =
  match finished (execute_opcode depth op (S pc) vm) with
  | Some (vm', (Continue, t)) =>
      if decide (t = S pc) then finished (run_window (op' :: rest) (S pc) vm') else Some (vm', (Continue, t))
  | r => r
  end.
Proof.
  change (run_window (op :: op' :: rest) pc vm) with
    (bindM (execute_opcode depth op (S pc)) (λ c, match c with
      | (Continue, t) => if decide (t = S pc) then run_window (op' :: rest) (S pc) else ret c
      | _ => ret c
      end) vm).
  rewrite finished_bind. destruct (finished _) as [[vm' [[] t]]|]; [|done..]. by case_decide.
Qed.

(** One step of a window that falls through. *)
Lemma run_window_fall op op' rest pc vm vm' :
  finished (execute_opcode depth op (S pc) vm) = Some (vm', (Continue, S pc)) →
  finished (run_window (op :: op' :: rest) pc vm) = finished (run_window (op' :: rest) (S pc) vm').
Proof. intros Hop. by rewrite run_window_cons, Hop, decide_True. Qed.

Lemma run_window_stuck op op' rest pc vm :
  finished (execute_opcode depth op (S pc) vm) = None → finished (run_window (op :: op' :: rest) pc vm) = None.
Proof. intros Hop. by rewrite run_window_cons, Hop. Qed.

(** The value that a tag comparison computes. *)
Definition tag_test vm (l c : N) : option bool :=
  match v ← local vm l; tag_of vm v, constant_tag (vm_bytecode vm) c with
  | Some t, Ok t' => Some (bool_decide (t = t'))
  | _, _ => None
  end.

Lemma run_eq_local_tag l c pc vm :
  finished (execute_opcode depth (EqLocalTag l c) pc vm) =
  (λ b, (pushed (VBool b) vm, (Continue, pc))) <$> tag_test vm l c.
Proof.
  unfold tag_test. cbn [execute_opcode]. unfold exec_tagged. rewrite finished_bytecode, finished_liftE.
  destruct (constant_tag (vm_bytecode vm) c) as [t|e].
  - rewrite run_local_tag. by destruct (v ← local vm l; tag_of vm v).
  - by destruct (v ← local vm l; tag_of vm v).
Qed.

(** The four instructions before what follows them. *)
Lemma run_tag_window l c rest pc vm : indexed vm → ready vm l →
  finished (run_window (LoadLocal l :: GetTag :: LoadConst c :: EqTag :: rest) pc vm) =
  match tag_test vm l c with
  | Some b => match rest with
              | [] => Some (pushed (VBool b) vm, (Continue, pc + 4))
              | _ => finished (run_window rest (pc + 4) (pushed (VBool b) vm))
              end
  | None => None
  end.
Proof.
  intros He Hr. unfold tag_test. pose proof (run_load_local l (S pc) vm Hr) as Hload.
  destruct (local vm l) as [v|] eqn:Hl; cbn [fmap option_fmap option_map mbind option_bind] in *.
  2: { by rewrite (run_window_stuck _ _ _ _ _ Hload). }
  rewrite (run_window_fall _ _ _ _ _ _ Hload). specialize (Hr v Hl).
  pose proof (run_get_tag v (S (S pc)) vm He Hr) as Hget. destruct (tag_of vm v) as [t|];
    cbn [fmap option_fmap option_map] in Hget.
  2: { by rewrite (run_window_stuck _ _ _ _ _ Hget). }
  rewrite (run_window_fall _ _ _ _ _ _ Hget).
  pose proof (f_equal finished (run_load_const c (S (S (S pc))) (pushed (VTag t) vm))) as Hc.
  change (vm_bytecode (pushed (VTag t) vm)) with (vm_bytecode vm) in Hc. unfold constant_tag.
  destruct (constant_value (vm_bytecode vm) c) as [k|e] eqn:Hk; cbn [finished rbind] in *.
  2: { by rewrite (run_window_stuck _ _ _ _ _ Hc). }
  rewrite (run_window_fall _ _ _ _ _ _ Hc). apply constant_not_pending in Hk.
  pose proof (run_eq_tag k t (S (S (S (S pc)))) vm He Hk) as Heq. replace (pc + 4) with (S (S (S (S pc)))) by lia.
  destruct rest as [|op rest].
  - cbn [run_window]. rewrite Heq. by destruct k.
  - destruct k; try (by rewrite (run_window_stuck _ _ _ _ _ Heq)). by rewrite (run_window_fall _ _ _ _ _ _ Heq).
Qed.

Lemma run_branch (on b : bool) s a pc vm : indexed vm →
  finished (branch_if s on a pc (pushed (VBool b) vm)) =
  if Bool.eqb b on then finished ((let* t := liftE (validate_jump_target (vm_bytecode vm) a) in continue_at t) vm)
  else Some (vm, (Continue, pc)).
Proof.
  intros He. unfold branch_if. rewrite finished_bind, pop_pushed by done. cbn [finished].
  destruct (Bool.eqb b on); [|done]. by rewrite finished_bind.
Qed.

Lemma run_jump_tag (ne : bool) l c a pc vm : indexed vm →
  finished (execute_opcode depth (if ne then JumpIfLocalTagNe l c a else JumpIfLocalTagEq l c a) pc vm) =
  match tag_test vm l c with
  | Some b => finished (execute_opcode depth (if ne then JumpIfFalse a else JumpIfTrue a) pc (pushed (VBool b) vm))
  | None => None
  end.
Proof.
  intros He. unfold tag_test.
  destruct ne; cbn [execute_opcode exec_control]; unfold exec_tagged; rewrite finished_bytecode, finished_liftE;
    (destruct (constant_tag (vm_bytecode vm) c) as [t|e]; [rewrite run_local_tag|]; destruct (v ← local vm l; tag_of vm v) as [t'|]; try done;
     rewrite run_branch by done; case_decide; case_bool_decide; done).
Qed.

(** ** The windows of the assembler *)

(** An instruction of the assembler with its label at address [A label]. *)
Definition with_addresses (A : N → N) (x : IrOp) : Opcode :=
  match x with
  | Op op => op
  | JumpLabel l => Jump (A l)
  | JumpIfFalseLabel l => JumpIfFalse (A l)
  | JumpIfTrueLabel l => JumpIfTrue (A l)
  | JumpIfLocalTagEqLabel s c l => JumpIfLocalTagEq s c (A l)
  | JumpIfLocalTagNeLabel s c l => JumpIfLocalTagNe s c (A l)
  end.

Definition is_tail_call (x : IrOp) : bool := match x with Op (TailCallClosure _ _ _) => true | _ => false end.

Lemma run_jump_window (ne : bool) l c a w pc vm :
  AssemblerProps.stands_for (Op (EqLocalTag l c)) w → indexed vm → (∀ i, Op (LoadLocal i) ∈ w → ready vm i) →
  ∀ A, let last_op := if ne then JumpIfFalse a else JumpIfTrue a in
  finished (run_window ((with_addresses A <$> w) ++ [last_op]) pc vm) =
  finished (execute_opcode depth (if ne then JumpIfLocalTagNe l c a else JumpIfLocalTagEq l c a)
              (pc + length w + 1) vm).
Proof.
  intros Hw He Hr A last_op. rewrite run_jump_tag by done. inversion Hw; subst; cbn [fmap list_fmap with_addresses app].
  - pose proof (run_eq_local_tag l c (S pc) vm) as Heq. destruct (tag_test vm l c) as [b|].
    + rewrite (run_window_fall _ _ _ _ _ _ Heq). cbn [length]. replace (pc + 1 + 1) with (S (S pc)) by lia. done.
    + by rewrite (run_window_stuck _ _ _ _ _ Heq).
  - rewrite run_tag_window; [|done|apply Hr; by left]. destruct (tag_test vm l c) as [b|]; [|done].
    cbn [length]. replace (pc + 4 + 1) with (S (pc + 4)) by lia. done.
Qed.

End windows.


(** ** Tail calls of closures *)

Section tail.
Context {K : Type} `{RustFmt} `{BuiltinTable} `{DbgReporter K} `{Builtins K}.
Context (depth : nat).
Implicit Types (vm : VM K) (pc : nat).

Lemma frames_with_stack s vm : frames (with_stack s vm) = frames vm.
Proof. done. Qed.

Lemma call_closure_function_tail i args s e pc vm : can_optimize_tail_call vm pc = true →
  call_closure_function i args s e true pc vm = call_closure_function i args s e false pc vm.
Proof.
  intros Ht. unfold call_closure_function, bindM. cbn.
  destruct (function_entry (vm_bytecode vm) i) as [entry|]; cbn; [|done].
  case_decide; [|done]. case_decide; [done|]. cbn.
  destruct (build_locals_for_call entry args); cbn; [|done]. by rewrite Ht.
Qed.

Lemma pop_stack_spec vm :
  pop_stack vm = match OperandStack.pop (stack vm) with
                 | Some (v, s) => (with_stack s vm, Ok v)
                 | None => (vm, fail (RuntimeError.new (lit "Stack underflow")))
                 end.
Proof. done. Qed.

(** Popping leaves the frames and the code. *)
Lemma pop_many_same n : ∀ acc vm, let vm' := (pop_many n acc vm).1 in
  frames vm' = frames vm ∧ vm_bytecode vm' = vm_bytecode vm.
Proof.
  induction n as [|n IH]; intros acc vm; [done|]. cbn. unfold bindM. rewrite pop_stack_spec.
  destruct (OperandStack.pop (stack vm)) as [[v s]|]; [|done].
  destruct (IH (v :: acc) (with_stack s vm)) as [-> ->]. done.
Qed.

(** The callable a call with [arity] arguments finds below them. *)
Definition callee (arity : N) vm : option Callable :=
  match (let* _ := pop_many (N.to_nat arity) [] in pop_callable) vm with (_, Ok c) => Some c | _ => None end.

Definition calls_function (arity : N) vm : Prop :=
  ∃ c i, callee arity vm = Some c ∧ call_target c = CtFunction i.

Lemma tail_call_function arity s e pc vm :
  can_optimize_tail_call vm pc = true → calls_function arity vm →
  execute_opcode depth (TailCallClosure arity s e) pc vm = execute_opcode depth (CallClosure arity s e) pc vm.
Proof.
  intros Ht (c & i & Hc & Hi). cbn [execute_opcode]. unfold exec_call_closure, callee, bindM in *.
  pose proof (pop_many_same (N.to_nat arity) [] vm) as Hsame.
  destruct (pop_many (N.to_nat arity) [] vm) as [vm1 [args|er]]; [|done]. cbn in Hsame. destruct Hsame as [Hf Hb].
  unfold pop_callable, bindM in *. rewrite pop_stack_spec in *.
  destruct (OperandStack.pop (stack vm1)) as [[v s1]|]; [|done].
  destruct v; try done. cbn in Hc. injection Hc as Hc. subst c. cbn -[call_closure_function]. rewrite Hi.
  apply call_closure_function_tail.
  unfold can_optimize_tail_call in *. rewrite frames_with_stack. change (vm_bytecode (with_stack s1 vm1)) with (vm_bytecode vm1).
  by rewrite Hf, Hb.
Qed.

(** A machine that waits for the result of a call, in tail position or not. *)
Definition awaiting (tail : bool) site trace (conts : list (ContinuationFrame K)) (k : ContinuationFrame K) vm : VM K :=
  set_exec (set_continuations (conts ++
    [mkContinuation (DestStack tail site trace) (kf_frame_depth k) (kf_stack_base k) (kf_resume_pc k) (kf_origin_pc k)
       (kf_breadcrumb_base k) (kf_waiting_function k) (kf_waiting_future k)]) (vm_exec vm)) vm.

(** The machine in which the result is put on the stack. *)
Definition delivered site trace (conts : list (ContinuationFrame K)) (k : ContinuationFrame K) vm : VM K :=
  let e := vm_exec vm in
  set_pc (kf_resume_pc k)
    (set_exec (set_stack (OperandStack.truncate (kf_stack_base k) (ex_stack e))
       (set_breadcrumbs (take (kf_breadcrumb_base k) (ex_breadcrumbs e))
          (set_frames (update_last (λ f, set_trace_frame trace (set_call_site site f))
                         (take (kf_frame_depth k) (ex_frames e))) (set_continuations conts e)))) vm).

Lemma deliver_awaiting tail site trace conts k v vm :
  ex_cancellation (vm_exec vm) = None →
  last (take (kf_frame_depth k) (frames vm)) ≠ None →
  deliver_continuation (Ok v) (awaiting tail site trace conts k vm) =
  (if tail then let* pc := return_from_current_frame v in modify (set_pc pc) else push_value v)
    (delivered site trace conts k vm).
Proof.
  intros Hc Hl. unfold deliver_continuation, cancelled_result, gets, bindM. cbn. rewrite Hc. cbn.
  rewrite last_snoc. cbn. unfold update_frame, bindM, current_frame. cbn. unfold frames in *. cbn.
  destruct (last (take (kf_frame_depth k) (ex_frames (vm_exec vm)))) eqn:Hlast; [|done]. cbn.
  unfold pop_last. rewrite length_app. cbn [length]. rewrite Nat.add_sub, take_app_length.
  by destruct tail.
Qed.

End tail.

(** a closure call that the assembler fused with the return after it is
    equivalent to the two instructions.  When the callee is a function, the fused
    instruction does exactly what the plain call does in front of a return, which is to
    reuse the frame; when it is a builtin or a composed callable, whose result arrives
    through a continuation, delivering the result to the fused call is delivering it
    to the plain call and then executing the return. *)
Theorem tail_closure_sound {K : Type} `{RustFmt} `{BuiltinTable} `{DbgReporter K} `{Builtins K} (depth : nat)
    (arity s e : N) (pc n : nat) (call_vm wait_vm : VM K) (site : option (N * N)) (trace : option RuntimeStackFrame)
    (conts : list (ContinuationFrame K)) (k : ContinuationFrame K) (v : Value)
    (Hreturn : can_optimize_tail_call call_vm pc = true)
    (Hfun : calls_function arity call_vm)
    (Hcancel : ex_cancellation (vm_exec wait_vm) = None)
    (Hframe : last (take (kf_frame_depth k) (frames wait_vm)) ≠ None)
    (Hindex : indexed wait_vm)
    (Hv : is_pending_future v = false) :
  execute_opcode depth (TailCallClosure arity s e) pc call_vm = execute_opcode depth (CallClosure arity s e) pc call_vm ∧
  finished (deliver_continuation (Ok v) (awaiting true site trace conts k wait_vm)) =
  match finished ((deliver_continuation (Ok v) ;; execute_opcode depth Return n) (awaiting false site trace conts k wait_vm)) with
  | Some (vm', (_, t)) => Some (set_pc t vm', tt)
  | None => None
  end.
Proof.
  split; [by apply tail_call_function|]. rewrite finished_bind, !deliver_awaiting by done.
  set (vm := delivered site trace conts k wait_vm).
  assert (indexed vm) as Hvm by by apply (OperandStack.truncate_spec (kf_stack_base k) (ex_stack (vm_exec wait_vm))).
  rewrite push_eq. cbn [finished execute_opcode exec_control]. rewrite !finished_bind, pop_pushed by done.
  cbn [finished]. rewrite finished_bind. by destruct (finished (return_from_current_frame v vm)) as [[vm' t]|].
Qed.

(** A fused tag test does not wait: where the window would wait for the future in
    the local, or take its value, the fused instruction fails. *)
Theorem fused_test_ignores_futures {K : Type} `{RustFmt} `{BuiltinTable} `{DbgReporter K} (depth : nat)
    (l c id : N) (pc : nat) (vm : VM K) (Hl : local vm l = Some (VPendingFuture id)) :
  finished (execute_opcode depth (EqLocalTag l c) pc vm) = None ∧
  finished (execute_opcode depth (LoadLocal l) pc vm) ≠ None.
Proof.
  split.
  - rewrite run_eq_local_tag. unfold tag_test. by rewrite Hl.
  - unfold local in Hl. cbn [execute_opcode]. unfold exec_data. rewrite finished_bytecode, finished_bind.
    unfold load_local_or_pending. rewrite finished_bind. unfold current_frame.
    destruct (last (frames vm)) as [f|] eqn:Hf; [|done]. cbn in Hl. cbn [finished lift_res ok_or]. cbn. rewrite Hl. cbn.
    destruct (ProcessRuntime.ready_future_value _ _); cbn; [|done].
    unfold bindM, update_frame, bindM, current_frame. cbn. by rewrite Hf.
Qed.

(** ** Samples *)

Definition tag_code : Bytecode :=
  mkBytecode [Halt; Halt; CallClosure 0 3 4; Return] [CInt 1; CTag 0] 3 TypeRegistry.new [] [] []
    [mkFunctionEntry 0 2 0 0 (Some (lit "f")) None 4 0 9 (mkFunctionFlags false false false false false false)] None [] []
    default_compile_info [] [] [] [] [] [] [] [] [] default_boot_plan.

Definition tag_vm : VM unit :=
  sample_vm tag_code [VInt 8] [mkFrame 0 0 None None 0 [VTagged 0 [VInt 3]; VUnit; VUnit]].

Definition tag_window : list IrOp :=
  [Op (LoadLocal 0); Op GetTag; Op (LoadConst 1); Op EqTag; JumpIfTrueLabel 7].

Abbreviation sample_run := (@run_window unit Display.sample_fmt sample_builtins sample_dbg 0).
Abbreviation sample_step := (@execute_opcode unit Display.sample_fmt sample_builtins sample_dbg 0).

Lemma tag_vm_indexed : indexed tag_vm.
Proof. apply OperandStack.from_vec_spec. Qed.


(** A machine inside a function, about to call the closure on its stack in front of a
    return. *)
Definition closure_vm : VM nat :=
  mkVM tag_code (mkExec (OperandStack.from_vec [VCallable (mkCallable (CtFunction 0) [] default_metadata)])
                   [sample_frame 0 0; sample_frame 1 0] [] [] None None None None) 2 None None None
    (mkIoPolicy Passthrough Passthrough) None [] 0 None (ProcessRuntime.initial ProcessRuntime.sample_specs).

Definition waiting_frame : ContinuationFrame nat := mkContinuation (DestStack true None None) 2 0 3 (Some 2) 0 false None.

Abbreviation closure_step := (@execute_opcode nat Display.sample_fmt sample_builtins DriverProps.countdown_dbg 0).

Lemma closure_vm_indexed : indexed closure_vm.
Proof. apply OperandStack.from_vec_spec. Qed.

Lemma tail_closure_sound_witness :
  (snd <$> finished (closure_step (TailCallClosure 0 3 4) 3 closure_vm)) = Some (Continue, 2) ∧
  closure_step (TailCallClosure 0 3 4) 3 closure_vm = closure_step (CallClosure 0 3 4) 3 closure_vm.
Proof.
  split; [vm_compute; reflexivity|].
  apply (@tail_closure_sound nat Display.sample_fmt sample_builtins DriverProps.countdown_dbg DriverProps.countdown 0
    0 3 4 3 4 closure_vm closure_vm None None [] waiting_frame (VInt 5)).
  - vm_compute. reflexivity.
  - exists (mkCallable (CtFunction 0) [] default_metadata), 0%N. vm_compute. split; reflexivity.
  - reflexivity.
  - vm_compute. discriminate.
  - exact closure_vm_indexed.
  - reflexivity.
Defined.

End Fusion.
