(* ===== verification/Artifact.v ===== *)
(** * Chunks and artifacts ([crates/forge/src/codegen.rs])

    The code generator works with indices into the whole program.  A chunk for a
    running machine gets indices of its own ([localize_chunk_indices]); an artifact
    merges a chunk into a precompiled prefix ([compose_bytecode_with_chunk]); the
    function table is made dense before code is finalized
    ([normalize_function_table]). *)

From S2P Require Import Prelude Names ListHandle Value TypeRegistry Ir FunctionTable RuntimeError ParseError.
From S2P Require Import OperandStack StringLiteral Display ErrorSchema ProcessRuntime Machine Loader Assembler.

Module Artifact.
Import Assembler FunctionTable.

(** [codegen_validation_error] wraps the errors of the validators. *)
Inductive ArtifactError : Type :=
| AeCodegen (e : CodegenError)
| AeValidation (e : BytecodeValidationError)
| AeRegistry (e : TypeRegistry.TypeRegistryError).

Abbreviation AResult := (Result ArtifactError).

Definition deny {A} (message : str) : AResult A := Err (AeCodegen (codegen_error message)).

(** ** Chunk-local indices *)

Definition below_base {A} (what : str) (idx base : nat) : AResult A :=
  deny (lit "chunk " ++ what ++ lit " index " ++ fmt_nat idx ++ lit " is below base " ++ fmt_nat base).

(** [idx - base as u32], checked against the base first. *)
Definition localize (what : str) (idx : N) (base : nat) : AResult N :=
  if decide (N.to_nat idx < base) then below_base what (N.to_nat idx) base
  else Ok (as_u32 (N.to_nat idx - base)).

Definition localize_op (const_base error_template_base dbg_template_base : nat) (op : Opcode) : AResult Opcode :=
  let const i := localize (lit "constant") i const_base in
  match op with
  | JumpIfLocalTagEq l tag_const_idx t => let? i := const tag_const_idx in Ok (JumpIfLocalTagEq l i t)
  | JumpIfLocalTagNe l tag_const_idx t => let? i := const tag_const_idx in Ok (JumpIfLocalTagNe l i t)
  | LoadConst idx => let? i := const idx in Ok (LoadConst i)
  | StoreConstLocal idx l => let? i := const idx in Ok (StoreConstLocal i l)
  | EqLocalTag l idx => let? i := const idx in Ok (EqLocalTag l i)
  | MakeError template_id =>
      let? i := localize (lit "error template") template_id error_template_base in Ok (MakeError i)
  | Dbg template_id n => let? i := localize (lit "dbg template") template_id dbg_template_base in Ok (Dbg i n)
  | _ => Ok op
  end.

Definition localize_chunk_indices (ops : list Opcode) (const_base error_template_base dbg_template_base : nat) :
    AResult (list Opcode) :=
  map_result (localize_op const_base error_template_base dbg_template_base) ops.

(** ** Renumbering functions and templates *)

(** Rename the functions an instruction, a template, an entry or a process mentions. *)
Definition map_op_functions {E} (f : N → Result E N) (op : Opcode) : Result E Opcode :=
  match op with
  | LoadFunctionRef i => let? j := f i in Ok (LoadFunctionRef j)
  | Call i arity s e => let? j := f i in Ok (Call j arity s e)
  | SetCallableDelegateFunction i => let? j := f i in Ok (SetCallableDelegateFunction j)
  | _ => Ok op
  end.

Definition map_target_functions {E} (f : N → Result E N) (t : CallableTemplateDirectTarget) :
    Result E CallableTemplateDirectTarget :=
  match t with
  | DirectUserFunction i => let? j := f i in Ok (DirectUserFunction j)
  | DirectBuiltin _ => Ok t
  end.

Definition map_template_functions {E} (f : N → Result E N) (t : CallableTemplate) : Result E CallableTemplate :=
  match ct_kind t with
  | PartialDirectCall target args =>
      let? target' := map_target_functions f target in
      Ok (mkCallableTemplate (ct_template_id t) (PartialDirectCall target' args) (ct_metadata t))
  | InjectDirectCall target n =>
      let? target' := map_target_functions f target in
      Ok (mkCallableTemplate (ct_template_id t) (InjectDirectCall target' n) (ct_metadata t))
  | ComposeDirect _ => Ok t
  end.

Definition set_fun_idx (i : N) (e : FunctionEntry) : FunctionEntry :=
  mkFunctionEntry i (fe_entry_pc e) (fe_num_locals e) (fe_arity e) (fe_qualified_name e) (fe_signature e)
    (fe_end_pc e) (fe_span_start e) (fe_span_end e) (fe_flags e).

Definition map_entry_function {E} (f : N → Result E N) (e : FunctionEntry) : Result E FunctionEntry :=
  let? i := f (fe_fun_idx e) in Ok (set_fun_idx i e).

Definition map_handler_function {E} (f : N → Result E N) (h : RuntimeHandlerSpec) : Result E RuntimeHandlerSpec :=
  let? i := f (hs_fun_idx h) in Ok (mkHandlerSpec (hs_handler_id h) (hs_name h) (hs_kind h) i (hs_arity h)).

Definition map_spec_functions {E} (f : N → Result E N) (s : RuntimeProcessSpec) : Result E RuntimeProcessSpec :=
  let init := rp_init s in
  let? i := f (in_callable_fun_idx init) in
  let? handlers := map_result (map_handler_function f) (rp_handlers s) in
  Ok (mkProcessSpec (rp_process_id s) (rp_type_name s) (rp_kind s) (rp_instance s) (rp_state_type s)
        (mkInitSpec i (in_policy init) (in_result_shape init) (in_state_type init) (in_init_route init))
        handlers (rp_handler_dependencies s) (rp_lifecycle s) (rp_supervision s)).

(** [iter().min()]. *)
Fixpoint minimum (l : list nat) : option nat :=
  match l with
  | [] => None
  | x :: rest => Some (match minimum rest with Some m => Nat.min x m | None => x end)
  end.

(** [current - delta] from the floor on. *)
Definition rebase (what : str) (floor base : nat) (i : N) : AResult N :=
  if decide (floor ≤ N.to_nat i) then
    match u32_try_from (N.to_nat i - (floor - base)) with
    | Some j => Ok j
    | None => deny (what ++ lit " exceeds u32 after rebasing")
    end
  else Ok i.

Definition rebase_chunk_callable_template_ids (ops : list Opcode) (templates : list CallableTemplate)
    (base_template_len : nat) : AResult (list Opcode * list CallableTemplate) :=
  match minimum ((λ t, N.to_nat (ct_template_id t)) <$> templates) with
  | None => Ok (ops, templates)
  | Some floor =>
      if decide (floor ≤ base_template_len) then Ok (ops, templates)
      else
        let? ops' := map_result (λ op,
          match op with
          | LoadCallableTemplateRef i =>
              let? j := rebase (lit "callable template index") floor base_template_len i in
              Ok (LoadCallableTemplateRef j)
          | _ => Ok op
          end) ops in
        let? templates' := map_result (λ t,
          let? j := rebase (lit "callable template id") floor base_template_len (ct_template_id t) in
          Ok (mkCallableTemplate j (ct_kind t) (ct_metadata t))) templates in
        Ok (ops', templates')
  end.

(** The parts of a chunk that mention functions. *)
Record Parts : Type := mkParts {
  pt_opcodes : list Opcode;
  pt_templates : list CallableTemplate;
  pt_functions : list FunctionEntry;
  pt_specs : list RuntimeProcessSpec;
}.

Definition rebase_chunk_function_ids (p : Parts) (base_function_len : nat) : AResult Parts :=
  match minimum ((λ e, N.to_nat (fe_fun_idx e)) <$> pt_functions p) with
  | None => Ok p
  | Some floor =>
      if decide (floor ≤ base_function_len) then Ok p
      else
        let f := rebase (lit "function index") floor base_function_len in
        let? ops := map_result (map_op_functions f) (pt_opcodes p) in
        let? templates := map_result (map_template_functions f) (pt_templates p) in
        let? functions := map_result (map_entry_function f) (pt_functions p) in
        let? specs := map_result (map_spec_functions f) (pt_specs p) in
        Ok (mkParts ops templates functions specs)
  end.

(** The same shift for the constructors of error templates. *)
Definition rebase_error_templates (functions : list FunctionEntry) (base_function_len : nat)
    (ts : list ErrTemplate) : list ErrTemplate :=
  match minimum ((λ e, N.to_nat (fe_fun_idx e)) <$> functions) with
  | Some floor =>
      if decide (base_function_len < floor) then
        (λ t, let index := N.to_nat (et_constructor_fun_idx t) in
              if decide (floor ≤ index) then
                mkErrTemplate (et_id t) (et_kind t) (as_u32 (index - (floor - base_function_len)))
                  (et_input_types t) (et_payload_fields t)
              else t) <$> ts
      else ts
  | None => ts
  end.

(** ** Inserting a chunk into a prefix *)

Definition add_u32 (value : N) (add : nat) (label : str) : AResult N :=
  match u32_try_from add with
  | None => deny (label ++ lit " offset exceeds u32")
  | Some a => match u32_checked_add value a with Some v => Ok v | None => deny (label ++ lit " overflow") end
  end.

Definition relocate_base_op (insertion_pc inserted_len : nat) (op : Opcode) : AResult Opcode :=
  let move addr :=
    if decide (insertion_pc ≤ N.to_nat addr) then add_u32 addr inserted_len (lit "base jump relocation")
    else Ok addr in
  match op with
  | Jump addr => let? a := move addr in Ok (Jump a)
  | JumpIfFalse addr => let? a := move addr in Ok (JumpIfFalse a)
  | JumpIfTrue addr => let? a := move addr in Ok (JumpIfTrue a)
  | JumpIfLocalTagEq l c t => let? a := move t in Ok (JumpIfLocalTagEq l c a)
  | JumpIfLocalTagNe l c t => let? a := move t in Ok (JumpIfLocalTagNe l c a)
  | _ => Ok op
  end.

Definition relocate_base_ops_for_insert (ops : list Opcode) (insertion_pc inserted_len : nat) : AResult (list Opcode) :=
  map_result (relocate_base_op insertion_pc inserted_len) ops.

Definition set_pcs (entry_pc end_pc : N) (e : FunctionEntry) : FunctionEntry :=
  mkFunctionEntry (fe_fun_idx e) entry_pc (fe_num_locals e) (fe_arity e) (fe_qualified_name e) (fe_signature e)
    end_pc (fe_span_start e) (fe_span_end e) (fe_flags e).

Definition relocate_function_entry (insertion_pc inserted_len : nat) (e : FunctionEntry) : AResult FunctionEntry :=
  let move pc label :=
    if decide (insertion_pc < N.to_nat pc) then add_u32 pc inserted_len label else Ok pc in
  let? entry_pc := move (fe_entry_pc e) (lit "base function entry relocation") in
  let? end_pc := move (fe_end_pc e) (lit "base function end relocation") in
  Ok (set_pcs entry_pc end_pc e).

Definition map_chunk_pc (pc : N) (chunk_halt base_top_len chunk_func_base : nat) : AResult N :=
  let pc := N.to_nat pc in
  let mapped := if decide (pc ≤ chunk_halt) then base_top_len + pc else chunk_func_base + (pc - (chunk_halt + 1)) in
  match u32_try_from mapped with
  | Some v => Ok v
  | None => deny (lit "chunk pc relocation exceeds u32")
  end.

Definition relocate_index (what : str) (index base : N) : AResult N :=
  match u32_checked_add index base with
  | Some i => Ok i
  | None => deny (lit "chunk " ++ what ++ lit " relocation overflow")
  end.

Definition relocate_chunk_op (chunk_halt base_top_len chunk_func_base : nat) (const error dbg : N) (op : Opcode) :
    AResult Opcode :=
  let target pc := map_chunk_pc pc chunk_halt base_top_len chunk_func_base in
  let constant i := relocate_index (lit "const") i const in
  match op with
  | JumpIfLocalTagEq l c t => let? t' := target t in let? c' := constant c in Ok (JumpIfLocalTagEq l c' t')
  | JumpIfLocalTagNe l c t => let? t' := target t in let? c' := constant c in Ok (JumpIfLocalTagNe l c' t')
  | Jump addr => let? a := target addr in Ok (Jump a)
  | JumpIfFalse addr => let? a := target addr in Ok (JumpIfFalse a)
  | JumpIfTrue addr => let? a := target addr in Ok (JumpIfTrue a)
  | LoadConst i => let? i' := constant i in Ok (LoadConst i')
  | StoreConstLocal i l => let? i' := constant i in Ok (StoreConstLocal i' l)
  | EqLocalTag l i => let? i' := constant i in Ok (EqLocalTag l i')
  | MakeError t => let? t' := relocate_index (lit "error template") t error in Ok (MakeError t')
  | Dbg t n => let? t' := relocate_index (lit "dbg template") t dbg in Ok (Dbg t' n)
  | _ => Ok op
  end.

Definition to_u32 (n : nat) (what : str) : AResult N :=
  match u32_try_from n with Some v => Ok v | None => deny (what ++ lit " exceeds u32") end.

Definition relocate_chunk_ops_for_artifact (ops : list Opcode)
    (chunk_halt base_top_len chunk_func_base const_base error_template_base dbg_template_base : nat) :
    AResult (list Opcode) :=
  let? const := to_u32 const_base (lit "constant base") in
  let? error := to_u32 error_template_base (lit "error template base") in
  let? dbg := to_u32 dbg_template_base (lit "dbg template base") in
  map_result (relocate_chunk_op chunk_halt base_top_len chunk_func_base const error dbg) ops.

(** The loop that appends the functions of the chunk. *)
Fixpoint append_entries (chunk_halt base_top_len chunk_func_base : nat) (functions : list FunctionEntry)
    (entries : list FunctionEntry) : AResult (list FunctionEntry) :=
  match entries with
  | [] => Ok functions
  | entry :: rest =>
      let? entry_pc := map_chunk_pc (fe_entry_pc entry) chunk_halt base_top_len chunk_func_base in
      let? end_pc :=
        if decide (fe_end_pc entry ≠ 0%N) then map_chunk_pc (fe_end_pc entry) chunk_halt base_top_len chunk_func_base
        else Ok 0%N in
      let idx := N.to_nat (fe_fun_idx entry) in
      if decide (idx = length functions) then
        append_entries chunk_halt base_top_len chunk_func_base (functions ++ [set_pcs entry_pc end_pc entry]) rest
      else deny (lit "function table invariant violated in chunk: fun_idx " ++ fmt_nat idx ++ lit " > len "
                 ++ fmt_nat (length functions))
  end.

(** Docs are compared by name, kind and signature here. *)
Definition same_doc (a b : DocEntry) : Prop :=
  dc_qualified_name a = dc_qualified_name b ∧ dc_kind a = dc_kind b ∧ dc_signature a = dc_signature b.
#[export] Instance same_doc_dec : RelDecision same_doc.
Proof. intros a b. unfold same_doc. apply _. Defined.

Definition add_doc (docs : list DocEntry) (doc : DocEntry) : list DocEntry :=
  if decide (Exists (λ existing, same_doc existing doc) docs) then docs else docs ++ [doc].
Definition extend_docs_unique (docs new_docs : list DocEntry) : list DocEntry := foldl add_doc docs new_docs.

Definition extend_runtime_boot_plan (base chunk : RuntimeBootPlan) : RuntimeBootPlan :=
  mkBootPlan (bp_root_name base) (bp_singletons base ++ bp_singletons chunk)
    (bp_standard_overrides base ++ bp_standard_overrides chunk)
    (bp_handler_overrides base ++ bp_handler_overrides chunk)
    (bp_supervisor_overrides base ++ bp_supervisor_overrides chunk) (bp_runtime_limits base).

Definition check_base (what : str) (chunk_base : N) (base : nat) : AResult unit :=
  if decide (N.to_nat chunk_base = base) then Ok tt
  else deny (lit "chunk " ++ what ++ lit " base mismatch: chunk=" ++ fmt_N chunk_base ++ lit ", base=" ++ fmt_nat base).

Definition compose_bytecode_with_chunk (base : Bytecode) (chunk : BytecodeChunk) : AResult Bytecode :=
  let? base_halt := ok_or (position is_halt (opcodes base))
    (AeCodegen (codegen_error (lit "precompiled bytecode has no top-level Halt"))) in
  let? chunk_halt := ok_or (position is_halt (ch_opcodes chunk))
    (AeCodegen (codegen_error (lit "compiled chunk has no top-level Halt"))) in
  let const_base := length (constants base) in
  let type_registry_base := length (TypeRegistry.entries (type_registry base)) in
  let error_template_base := length (error_templates base) in
  let dbg_template_base := length (dbg_templates base) in
  let? _ := check_base (lit "constant") (ch_const_base chunk) const_base in
  let? _ := check_base (lit "type registry") (ch_type_registry_base chunk) type_registry_base in
  let? _ := check_base (lit "error template") (ch_error_template_base chunk) error_template_base in
  let? _ := check_base (lit "dbg template") (ch_dbg_template_base chunk) dbg_template_base in
  let base_top_len := base_halt in
  let chunk_top_len := chunk_halt in
  let base_func_len := length (opcodes base) - (base_halt + 1) in
  let final_halt := base_top_len + chunk_top_len in
  let base_func_base := final_halt + 1 in
  let chunk_func_base := base_func_base + base_func_len in
  let nfuns := length (functions base) in
  let? '(ops1, templates1) := rebase_chunk_callable_template_ids (ch_opcodes chunk) (ch_callable_templates chunk)
    (length (callable_templates base)) in
  let errors := rebase_error_templates (ch_functions chunk) nfuns (ch_error_templates chunk) in
  let? p := rebase_chunk_function_ids (mkParts ops1 templates1 (ch_functions chunk) (ch_runtime_process_specs chunk))
    nfuns in
  let? _ := map_err AeValidation (validate_chunk_function_table (pt_opcodes p) (pt_templates p) (pt_specs p)
    (pt_functions p) nfuns false) in
  let? _ := map_err AeRegistry (TypeRegistry.validate_type_registry_append
    (TypeRegistry.entries (type_registry base)) (ch_type_entries chunk)) in
  let? base_ops := relocate_base_ops_for_insert (opcodes base) base_halt chunk_top_len in
  let? chunk_ops := relocate_chunk_ops_for_artifact (pt_opcodes p) chunk_halt base_top_len chunk_func_base const_base
    error_template_base dbg_template_base in
  let opcodes' := take base_halt base_ops ++ take chunk_halt chunk_ops ++ [Halt] ++
    drop (base_halt + 1) base_ops ++ drop (chunk_halt + 1) chunk_ops in
  let? base_functions := map_result (relocate_function_entry base_halt chunk_top_len) (functions base) in
  let? functions' := append_entries chunk_halt base_top_len chunk_func_base base_functions (pt_functions p) in
  let? registry := map_err AeRegistry (TypeRegistry.try_extend (type_registry base) (ch_type_entries chunk)) in
  Ok (mkBytecode opcodes' (constants base ++ ch_constants chunk) (num_locals base + ch_new_locals chunk) registry
        (error_templates base ++ errors) (dbg_templates base ++ ch_dbg_templates chunk)
        (callable_templates base ++ pt_templates p) functions' None (extend_docs_unique (docs base) (ch_docs chunk))
        (signatures base) (compile_info base) (labels base) (imports base) (exports base) (literals base) (lines base)
        (spans base) (sources base) (pc_spans base) (runtime_process_specs base ++ pt_specs p)
        (extend_runtime_boot_plan (runtime_boot_plan base) (ch_runtime_boot_plan chunk))).

(** ** Normalizing the function table *)

(** The renaming, from the sorted table; a repeated index is an error. *)
Fixpoint build_remap (idx : nat) (remap : gmap N N) (entries : list FunctionEntry) : AResult (gmap N N) :=
  match entries with
  | [] => Ok remap
  | entry :: rest =>
      match remap !! fe_fun_idx entry with
      | Some _ => deny (lit "Duplicate function index detected: " ++ fmt_N (fe_fun_idx entry))
      | None => build_remap (S idx) (<[fe_fun_idx entry := as_u32 idx]> remap) rest
      end
  end.

Definition remap_function (remap : gmap N N) (i : N) : AResult N :=
  match remap !! i with
  | Some j => Ok j
  | None => deny (lit "Unresolved function index during normalization: " ++ fmt_N i)
  end.

Definition map_ir_functions (f : N → AResult N) (x : IrOp) : AResult IrOp :=
  match x with Op op => let? op' := map_op_functions f op in Ok (Op op') | _ => Ok x end.

Definition map_error_function (f : N → AResult N) (t : ErrTemplate) : AResult ErrTemplate :=
  let? i := f (et_constructor_fun_idx t) in
  Ok (mkErrTemplate (et_id t) (et_kind t) i (et_input_types t) (et_payload_fields t)).

Definition normalize_function_table (g : Codegen) : AResult Codegen :=
  let s := cg_state g in
  let sorted := merge_sort fun_idx_le (cs_functions s) in
  let? remap := build_remap 0 ∅ sorted in
  let f := remap_function remap in
  let? functions := map_result (map_entry_function f) sorted in
  let? ir := map_result (map_ir_functions f) (cg_ir g) in
  let? errors := map_result (map_error_function f) (cs_error_templates s) in
  let? templates := map_result (map_template_functions f) (cs_callable_templates s) in
  let? next := to_u32 (length functions) (lit "function table length") in
  Ok (mkCodegen ir (mkCodegenState (cs_constants s) (cs_slot_map s) (cs_next_slot s) next errors templates functions)
        (cg_next_label g) (cg_label_positions g) (cg_constant_dedup_start g)).

End Artifact.
