(* ===== verification/ArtifactProps.v ===== *)
(** * Properties of chunks and artifacts

    Localizing the indices of a chunk is inverted by the machine that loads it; a
    composed artifact is a valid program in which prefix and chunk mean what they
    meant apart; a normalized function table is dense and renames consistently. *)

From S2P Require Import Prelude Names ListHandle Value TypeRegistry Ir FunctionTable RuntimeError ParseError.
From S2P Require Import OperandStack StringLiteral Display ErrorSchema ProcessRuntime Machine Loader LoaderProps Linking.
From S2P Require Import Assembler AssemblerProps Artifact.

Module ArtifactProps.
Import Assembler FunctionTable Artifact.

(** ** Localizing and relocating *)

(** The operands of [op] that are indices fit their width. *)
Definition op_u32 (op : Opcode) : Prop :=
  match op with
  | LoadConst i | StoreConstLocal i _ | EqLocalTag _ i | JumpIfLocalTagEq _ i _ | JumpIfLocalTagNe _ i _
  | MakeError i | Dbg i _ => (i ≤ u32_max)%N
  | _ => True
  end.

Lemma localize_Ok what i base j : localize what i base = Ok j → (i ≤ u32_max)%N → i = (j + N.of_nat base)%N.
Proof.
  unfold localize, below_base, deny. case_decide; [done|]. intros [= <-] Hi. rewrite as_u32_small by lia. lia.
Qed.

Lemma relocated_localized what what' i base j : localize what i base = Ok j → (i ≤ u32_max)%N →
  Loader.relocated j (N.of_nat base) what' = Loader.relocated i 0 what'.
Proof.
  intros Hl Hi. pose proof (localize_Ok _ _ _ _ Hl Hi) as ->.
  assert (Loader.relocated j (N.of_nat base) what' = Ok (j + N.of_nat base)%N) as ->
    by (apply Linking.relocated_Ok; lia).
  symmetry. apply Linking.relocated_Ok. lia.
Qed.

Lemma localize_relocate_op c e d code op op' : localize_op c e d op = Ok op' → op_u32 op →
  Loader.relocate_op (Loader.mkBases code (N.of_nat c) (N.of_nat e) (N.of_nat d)) op'
  = Loader.relocate_op (Loader.mkBases code 0 0 0) op.
Proof.
  intros Hl Hu. destruct op; cbn in Hl, Hu;
    repeat match goal with H : rbind _ _ = Ok _ |- _ => apply rbind_Ok in H as (? & ? & H) end;
    injection Hl as <-; try done; cbn;
    match goal with H : localize _ _ _ = Ok _ |- _ => by rewrite (relocated_localized _ _ _ _ _ H Hu) end.
Qed.

Lemma map_result_ext2 {E A B C} (f : A → Result E C) (g : B → Result E C) l l' :
  Forall2 (λ a b, f a = g b) l l' → map_result f l = map_result g l'.
Proof. induction 1 as [|a b l l' Hab _ IH]; cbn; [done|]. by rewrite Hab, IH. Qed.

(** The machine undoes what the code generator did to make a chunk: localizing
    the indices of generated code and relocating the result at the same bases is
    relocating only the jumps of the generated code, so every constant, error template
    and debug template is the one the generator meant, wherever the chunk is put. *)
Theorem localize_relocate_roundtrip (ops ops' : list Opcode) (code_base const_base error_base dbg_base : nat)
    (Hloc : localize_chunk_indices ops const_base error_base dbg_base = Ok ops')
    (Hu32 : Forall op_u32 ops)
    (Hfit : (N.of_nat const_base ≤ u32_max)%N ∧ (N.of_nat error_base ≤ u32_max)%N ∧ (N.of_nat dbg_base ≤ u32_max)%N) :
  Loader.relocate_chunk_indices ops' code_base const_base error_base dbg_base
  = Loader.relocate_chunk_indices ops code_base 0 0 0.
Proof.
  destruct Hfit as (Hc & He & Hd). apply map_result_Ok in Hloc. unfold Loader.relocate_chunk_indices.
  destruct (Loader.to_base code_base _) as [code|]; cbn [rbind]; [|done]. rewrite !Linking.to_base_fits by done. cbn [rbind].
  apply map_result_ext2, Forall2_flip. rewrite Forall_lookup in Hu32. apply Forall2_same_length_lookup.
  split; [by eapply Forall2_length|]. intros i op op' Hi Hi'. cbn.
  apply localize_relocate_op; [exact (Forall2_lookup_lr _ _ _ _ _ _ Hloc Hi Hi')|by eapply Hu32].
Qed.

(** ** Renaming functions *)

(** [op'] is [op] with its function renamed along [R]. *)
Definition op_renamed (R : N → N → Prop) (op op' : Opcode) : Prop :=
  match op with
  | LoadFunctionRef i => ∃ j, op' = LoadFunctionRef j ∧ R i j
  | Call i arity s e => ∃ j, op' = Call j arity s e ∧ R i j
  | SetCallableDelegateFunction i => ∃ j, op' = SetCallableDelegateFunction j ∧ R i j
  | _ => op' = op
  end.

Definition template_renamed (R : N → N → Prop) (t t' : CallableTemplate) : Prop :=
  ct_template_id t' = ct_template_id t ∧ ct_metadata t' = ct_metadata t ∧
  match ct_kind t with
  | PartialDirectCall (DirectUserFunction i) args => ∃ j, ct_kind t' = PartialDirectCall (DirectUserFunction j) args ∧ R i j
  | InjectDirectCall (DirectUserFunction i) n => ∃ j, ct_kind t' = InjectDirectCall (DirectUserFunction j) n ∧ R i j
  | k => ct_kind t' = k
  end.

Section renaming.
Context {E : Type} (f : N → Result E N).
Abbreviation R := (λ i j, f i = Ok j).

Lemma map_op_functions_renamed op op' : map_op_functions f op = Ok op' → op_renamed R op op'.
Proof.
  destruct op; cbn; try (by intros [= <-]); intros (j & ? & [= <-])%rbind_Ok; eauto.
Qed.

Lemma map_template_functions_renamed t t' : map_template_functions f t = Ok t' → template_renamed R t t'.
Proof.
  unfold map_template_functions, template_renamed. destruct (ct_kind t) as [target args|target n|] eqn:Hk.
  3: { intros [= <-]. by rewrite Hk. }
  all: intros (target' & Ht & [= <-])%rbind_Ok; cbn; split_and!; try done;
    destruct target; cbn in Ht; [by injection Ht as <-|apply rbind_Ok in Ht as (j & ? & [= <-]); eauto].
Qed.

Lemma op_renamed_impl (R1 R2 : N → N → Prop) op op' : (∀ i j, R1 i j → R2 i j) → op_renamed R1 op op' → op_renamed R2 op op'.
Proof. intros HR. destruct op; cbn; try done; intros (j & -> & ?); eauto. Qed.

Lemma template_renamed_impl (R1 R2 : N → N → Prop) t t' :
  (∀ i j, R1 i j → R2 i j) → template_renamed R1 t t' → template_renamed R2 t t'.
Proof.
  intros HR (? & ? & Hk). split_and!; [done..|]. revert Hk.
  repeat case_match; try done; intros (j & ? & ?); eauto.
Qed.

End renaming.

(** ** Normalizing *)

Lemma build_remap_spec es : ∀ n m m', build_remap n m es = Ok m' →
  m ⊆ m' ∧ (∀ k e, es !! k = Some e → m' !! fe_fun_idx e = Some (as_u32 (n + k))) ∧
  (∀ i j, m' !! i = Some j → m !! i = Some j ∨ ∃ k e, es !! k = Some e ∧ fe_fun_idx e = i ∧ j = as_u32 (n + k)).
Proof.
  induction es as [|e es IH]; intros n m m'; cbn.
  { intros [= <-]. split_and!; [done| |by left]. intros k e He. by rewrite lookup_nil in He. }
  destruct (m !! fe_fun_idx e) eqn:Hm; [done|]. intros (Hsub & Hin & Hout)%IH.
  assert (m' !! fe_fun_idx e = Some (as_u32 n)) as He.
  { eapply lookup_weaken; [|exact Hsub]. by rewrite lookup_insert_eq. }
  split_and!.
  - etrans; [|exact Hsub]. by apply insert_subseteq.
  - intros [|k] x Hx; [injection Hx as <-; by rewrite Nat.add_0_r|]. rewrite <- Nat.add_succ_comm. by apply Hin.
  - intros i j Hj. destruct (Hout i j Hj) as [Hi|(k & x & Hx & Hxi & ->)].
    + destruct (decide (i = fe_fun_idx e)) as [->|Hne].
      * rewrite lookup_insert_eq in Hi. injection Hi as <-. right. exists 0, e. by rewrite Nat.add_0_r.
      * rewrite lookup_insert_ne in Hi by done. by left.
    + right. exists (S k), x. by rewrite <- Nat.add_succ_comm.
Qed.

(** Function [i] of the table [fns] is what slot [j] of [fns'] holds. *)
Definition same_function (fns fns' : list FunctionEntry) (i j : N) : Prop :=
  ∃ e, e ∈ fns ∧ fe_fun_idx e = i ∧ fns' !! N.to_nat j = Some (set_fun_idx j e).

Definition ir_renamed (R : N → N → Prop) (x x' : IrOp) : Prop :=
  match x with Op op => ∃ op', x' = Op op' ∧ op_renamed R op op' | _ => x' = x end.

(** What normalizing has to produce. *)
Record normalized (g g' : Codegen) : Prop := mkNormalized {
  nm_dense : Linking.dense (cs_functions (cg_state g'));
  nm_length : length (cs_functions (cg_state g')) = length (cs_functions (cg_state g));
  nm_next : N.to_nat (cs_next_fun_idx (cg_state g')) = length (cs_functions (cg_state g'));
  nm_functions : ∀ e, e ∈ cs_functions (cg_state g) →
    ∃ j, same_function (cs_functions (cg_state g)) (cs_functions (cg_state g')) (fe_fun_idx e) j;
  nm_ir : Forall2 (ir_renamed (same_function (cs_functions (cg_state g)) (cs_functions (cg_state g'))))
    (cg_ir g) (cg_ir g');
  nm_errors : Forall2 (λ t t', et_kind t' = et_kind t ∧
      same_function (cs_functions (cg_state g)) (cs_functions (cg_state g'))
        (et_constructor_fun_idx t) (et_constructor_fun_idx t'))
    (cs_error_templates (cg_state g)) (cs_error_templates (cg_state g'));
  nm_templates : Forall2 (template_renamed (same_function (cs_functions (cg_state g)) (cs_functions (cg_state g'))))
    (cs_callable_templates (cg_state g)) (cs_callable_templates (cg_state g'));
  nm_labels : cg_label_positions g' = cg_label_positions g;
}.

Section normalize.
Context (fns fns' sorted : list FunctionEntry) (remap : gmap N N).
Hypothesis Hfit : (N.of_nat (length fns) ≤ u32_max)%N.
Hypothesis Hperm : sorted ≡ₚ fns.
Hypothesis Hremap : build_remap 0 ∅ sorted = Ok remap.
Hypothesis Hfns : map_result (map_entry_function (remap_function remap)) sorted = Ok fns'.

Lemma sorted_small k e : sorted !! k = Some e → (N.of_nat k ≤ u32_max)%N.
Proof. intros Hk%lookup_lt_Some. rewrite Hperm in Hk. lia. Qed.

Lemma remapped_entry k e : sorted !! k = Some e → fns' !! k = Some (set_fun_idx (N.of_nat k) e).
Proof.
  intros Hk. pose proof (build_remap_spec _ _ _ _ Hremap) as (_ & Hin & _).
  apply map_result_Ok in Hfns. destruct (Forall2_lookup_l _ _ _ _ _ Hfns Hk) as (e' & He' & Hm).
  unfold map_entry_function, remap_function in Hm. rewrite (Hin _ _ Hk) in Hm. cbn in Hm. injection Hm as <-.
  by rewrite as_u32_small in He' by (by eapply sorted_small).
Qed.

Lemma remapped_length : length fns' = length fns.
Proof. rewrite <- Hperm. apply map_result_Ok in Hfns. symmetry. by eapply Forall2_length. Qed.

Lemma remapped_dense : Linking.dense fns'.
Proof.
  intros k e' Hk. destruct (sorted !! k) as [e|] eqn:He.
  - rewrite (remapped_entry _ _ He) in Hk. injection Hk as <-. cbn. lia.
  - apply lookup_lt_Some in Hk. apply lookup_ge_None in He. rewrite Hperm in He. rewrite remapped_length in Hk. lia.
Qed.

Lemma remap_same i j : remap_function remap i = Ok j → same_function fns fns' i j.
Proof.
  unfold remap_function, deny. destruct (remap !! i) as [j'|] eqn:Hi; [|done]. intros [= ->].
  pose proof (build_remap_spec _ _ _ _ Hremap) as (_ & _ & Hout).
  destruct (Hout _ _ Hi) as [Hx|(k & e & Hk & <- & ->)]; [by rewrite lookup_empty in Hx|].
  exists e. cbn. rewrite as_u32_small by (by eapply sorted_small). rewrite Nat2N.id.
  split_and!; [rewrite <- Hperm; by eapply list_elem_of_lookup_2|done|by apply remapped_entry].
Qed.

Lemma remap_known e : e ∈ fns → ∃ j, same_function fns fns' (fe_fun_idx e) j.
Proof.
  rewrite <- Hperm. intros [k Hk]%list_elem_of_lookup. pose proof (build_remap_spec _ _ _ _ Hremap) as (_ & Hin & _).
  exists (as_u32 k). apply remap_same. unfold remap_function. by rewrite (Hin _ _ Hk).
Qed.

End normalize.

(** Normalizing the function table makes it dense, slot [i] holding function [i],
    without losing or confusing a function: every function of the table, and every
    function that an instruction, an error template or a callable template mentions, is
    found under its new index with its code and its metadata unchanged.  Labels and all
    other instructions stay as they are. *)
Theorem normalize_renames (g g' : Codegen)
    (Hfit : (N.of_nat (length (cs_functions (cg_state g))) ≤ u32_max)%N)
    (Hok : normalize_function_table g = Ok g') : normalized g g'.
Proof.
  unfold normalize_function_table in Hok. cbv zeta in Hok.
  set (sorted := merge_sort fun_idx_le (cs_functions (cg_state g))) in *.
  assert (sorted ≡ₚ cs_functions (cg_state g)) as Hperm by apply merge_sort_Permutation.
  apply rbind_Ok in Hok as (remap & Hremap & Hok). apply rbind_Ok in Hok as (fns' & Hfns & Hok).
  apply rbind_Ok in Hok as (ir & Hir & Hok). apply rbind_Ok in Hok as (errors & Herr & Hok).
  apply rbind_Ok in Hok as (templates & Htm & Hok). apply rbind_Ok in Hok as (next & Hnext & [= <-]).
  pose proof (remap_same _ _ _ _ Hfit Hperm Hremap Hfns) as Hsame.
  constructor; cbn.
  - by eapply remapped_dense.
  - by eapply remapped_length.
  - unfold to_u32, deny in Hnext. destruct (u32_try_from _) eqn:Hu; [|done]. injection Hnext as <-.
    apply u32_try_from_Some in Hu as [-> _]. lia.
  - intros e He. by eapply remap_known.
  - apply map_result_Ok in Hir. eapply Forall2_impl; [exact Hir|]. intros x x' Hx. destruct x; cbn in *;
      try (by injection Hx as <-). apply rbind_Ok in Hx as (op' & Hop & [= <-]). exists op'. split; [done|].
    eapply op_renamed_impl; [exact Hsame|]. by apply map_op_functions_renamed.
  - apply map_result_Ok in Herr. eapply Forall2_impl; [exact Herr|]. intros t t' Ht.
    apply rbind_Ok in Ht as (j & Hj & [= <-]). cbn. split; [done|]. by apply Hsame.
  - apply map_result_Ok in Htm. eapply Forall2_impl; [exact Htm|]. intros t t' Ht.
    eapply template_renamed_impl; [exact Hsame|]. by apply map_template_functions_renamed.
  - done.
Qed.

(** ** Samples *)

Definition sample_code : list Opcode := [LoadConst 3; JumpIfLocalTagEq 0 4 2; MakeError 2; Dbg 1 0; Return].

(** The same code compiled against 3 constants, 2 error and 1 debug templates, loaded
    at address 10. *)
Lemma localize_relocate_roundtrip_witness :
  localize_chunk_indices sample_code 3 2 1
    = Ok [LoadConst 0; JumpIfLocalTagEq 0 1 2; MakeError 0; Dbg 0 0; Return] ∧
  Loader.relocate_chunk_indices [LoadConst 0; JumpIfLocalTagEq 0 1 2; MakeError 0; Dbg 0 0; Return] 10 3 2 1
    = Loader.relocate_chunk_indices sample_code 10 0 0 0.
Proof.
  split; [vm_compute; reflexivity|].
  apply (localize_relocate_roundtrip sample_code); [vm_compute; reflexivity| |split_and!; vm_compute; discriminate].
  unfold sample_code. repeat (apply Forall_cons; split); try apply Forall_nil; cbn; done.
Defined.

Definition scattered : Codegen :=
  mkCodegen [Op (Call 7 0 0 0); Op (LoadFunctionRef 2); Op Return]
    (mkCodegenState [] ∅ 0 9 [] [mkCallableTemplate 0 (InjectDirectCall (DirectUserFunction 7) 1) (mkTemplateMetadata OriginCapture None None None)]
       [LoaderProps.sample_function 7 4; LoaderProps.sample_function 2 3])
    0 ∅ 0.
Definition gathered : Codegen := match normalize_function_table scattered with Ok g => g | Err _ => scattered end.

(** Functions 7 and 2 become 1 and 0. *)
Lemma normalize_renames_witness :
  cg_ir gathered = [Op (Call 1 0 0 0); Op (LoadFunctionRef 0); Op Return] ∧ normalized scattered gathered.
Proof.
  split; [vm_compute; reflexivity|].
  apply (normalize_renames scattered gathered); [vm_compute; discriminate|vm_compute; reflexivity].
Defined.

End ArtifactProps.
