(* ===== verification/Composition.v ===== *)
(** * Composing an artifact from a prefix and a chunk *)

From S2P Require Import Prelude Names ListHandle Value TypeRegistry Ir FunctionTable RuntimeError ParseError.
From S2P Require Import OperandStack StringLiteral Display ErrorSchema ProcessRuntime Machine Loader LoaderProps Linking.
From S2P Require Import Assembler AssemblerProps Artifact ArtifactProps.

Module Composition.
Import Assembler FunctionTable Artifact ArtifactProps.

(** ** Where things go

    [bh] and [ch] are the positions of the first [Halt] of the prefix and of the
    chunk, [n] the length of the prefix. *)

Section places.
Context (bh ch n : nat).

Definition place_base (i : nat) : nat := if decide (i < bh) then i else i + ch.
Definition place_chunk (i : nat) : nat := if decide (i ≤ ch) then bh + i else (bh + ch + 1 + (n - (bh + 1))) + (i - (ch + 1)).

(** [op'] is [op] with its jump following the code. *)
Definition op_moved (place : nat → nat) (op op' : Opcode) : Prop :=
  match op with
  | Jump a => ∃ a', op' = Jump a' ∧ N.to_nat a' = place (N.to_nat a)
  | JumpIfFalse a => ∃ a', op' = JumpIfFalse a' ∧ N.to_nat a' = place (N.to_nat a)
  | JumpIfTrue a => ∃ a', op' = JumpIfTrue a' ∧ N.to_nat a' = place (N.to_nat a)
  | JumpIfLocalTagEq l c a => ∃ a', op' = JumpIfLocalTagEq l c a' ∧ N.to_nat a' = place (N.to_nat a)
  | JumpIfLocalTagNe l c a => ∃ a', op' = JumpIfLocalTagNe l c a' ∧ N.to_nat a' = place (N.to_nat a)
  | _ => op' = op
  end.

Lemma add_u32_Ok v add label r : add_u32 v add label = Ok r → N.to_nat r = N.to_nat v + add.
Proof.
  unfold add_u32, deny. destruct (u32_try_from add) as [a|] eqn:Ha; [|done].
  apply u32_try_from_Some in Ha as [-> _]. destruct (u32_checked_add v _) as [s|] eqn:Hs; [|done].
  apply u32_checked_add_Some in Hs as [-> _]. intros [= <-]. lia.
Qed.

Lemma relocate_base_op_moved op op' : relocate_base_op bh ch op = Ok op' → op_moved place_base op op'.
Proof.
  assert (∀ a a', (if decide (bh ≤ N.to_nat a) then add_u32 a ch (lit "base jump relocation") else Ok a) = Ok a' →
            N.to_nat a' = place_base (N.to_nat a)) as Hmove.
  { intros a a'. unfold place_base. case_decide.
    - intros ->%add_u32_Ok. by rewrite decide_False by lia.
    - intros [= <-]. by rewrite decide_True by lia. }
  unfold relocate_base_op. destruct op; cbn; try (by intros [= <-]); intros (a' & Ha & [= <-])%rbind_Ok; eauto.
Qed.

Lemma map_chunk_pc_Ok pc cfb a :
  cfb = bh + ch + 1 + (n - (bh + 1)) → map_chunk_pc pc ch bh cfb = Ok a → N.to_nat a = place_chunk (N.to_nat pc).
Proof.
  intros ->. unfold map_chunk_pc, deny, place_chunk. destruct (u32_try_from _) as [v|] eqn:Hv; [|done].
  apply u32_try_from_Some in Hv as [-> _]. intros [= <-]. by rewrite Nat2N.id.
Qed.

End places.

(** ** Halts *)

Lemma is_halt_renamed R op op' : op_renamed R op op' → is_halt op' = is_halt op.
Proof. destruct op; cbn; try (by intros ->); by intros (? & -> & _). Qed.

Lemma position_forall2 {A B} (f : A → bool) (g : B → bool) l l' :
  Forall2 (λ a b, f a = g b) l l' → position f l = position g l'.
Proof. induction 1 as [|a b l l' Hab _ IH]; cbn; [done|]. rewrite Hab, IH. done. Qed.

Lemma position_skip {A} (f : A → bool) l k :
  Forall (λ x, f x = false) l → position f (l ++ k) = (λ i, length l + i) <$> position f k.
Proof.
  induction 1 as [|x l Hx _ IH]; cbn; [by destruct (position f k)|]. rewrite Hx, IH.
  by destruct (position f k).
Qed.

Lemma position_take {A} (f : A → bool) l h :
  position f l = Some h → Forall (λ x, f x = false) (take h l).
Proof.
  intros (x & _ & _ & Hb)%position_Some. apply Forall_lookup. intros i y Hi.
  apply lookup_take_Some in Hi as [Hy Hi]. eauto.
Qed.

(** ** What a successful composition did *)

Definition chunk_func_base (base : Bytecode) (bh ch : nat) : nat := bh + ch + 1 + (length (opcodes base) - (bh + 1)).

Record composed (base : Bytecode) (chunk : BytecodeChunk) (bc : Bytecode) (bh ch : nat) (ops1 : list Opcode)
    (templates1 : list CallableTemplate) (p : Parts) (base_ops chunk_ops : list Opcode) : Prop := mkComposed {
  cm_base_halt : position is_halt (opcodes base) = Some bh;
  cm_chunk_halt : position is_halt (ch_opcodes chunk) = Some ch;
  cm_templates : rebase_chunk_callable_template_ids (ch_opcodes chunk) (ch_callable_templates chunk)
    (length (callable_templates base)) = Ok (ops1, templates1);
  cm_parts : rebase_chunk_function_ids (mkParts ops1 templates1 (ch_functions chunk) (ch_runtime_process_specs chunk))
    (length (functions base)) = Ok p;
  cm_table : ∃ next, validate_chunk_function_table (pt_opcodes p) (pt_templates p) (pt_specs p) (pt_functions p)
    (length (functions base)) false = Ok next;
  cm_base_ops : relocate_base_ops_for_insert (opcodes base) bh ch = Ok base_ops;
  cm_chunk_ops : Forall2 (λ op op', relocate_chunk_op ch bh (chunk_func_base base bh ch) (N.of_nat (length (constants base)))
      (N.of_nat (length (error_templates base))) (N.of_nat (length (dbg_templates base))) op = Ok op')
    (pt_opcodes p) chunk_ops;
  cm_opcodes : opcodes bc = take bh base_ops ++ take ch chunk_ops ++ [Halt] ++ drop (bh + 1) base_ops ++ drop (ch + 1) chunk_ops;
  cm_functions : ∃ base_fns, map_result (relocate_function_entry bh ch) (functions base) = Ok base_fns ∧
    append_entries ch bh (chunk_func_base base bh ch) base_fns (pt_functions p) = Ok (functions bc);
  cm_constants : constants bc = constants base ++ ch_constants chunk;
  cm_errors : error_templates bc = error_templates base ++
    rebase_error_templates (ch_functions chunk) (length (functions base)) (ch_error_templates chunk);
  cm_dbg : dbg_templates bc = dbg_templates base ++ ch_dbg_templates chunk;
  cm_callables : callable_templates bc = callable_templates base ++ pt_templates p;
  cm_specs : runtime_process_specs bc = runtime_process_specs base ++ pt_specs p;
}.

Lemma to_u32_Ok n what v : to_u32 n what = Ok v → v = N.of_nat n.
Proof.
  unfold to_u32, deny. destruct (u32_try_from n) eqn:Hn; [|done]. apply u32_try_from_Some in Hn as [-> _]. by intros [= <-].
Qed.

Lemma compose_composed base chunk bc : compose_bytecode_with_chunk base chunk = Ok bc →
  ∃ bh ch ops1 templates1 p base_ops chunk_ops, composed base chunk bc bh ch ops1 templates1 p base_ops chunk_ops.
Proof.
  unfold compose_bytecode_with_chunk. cbv zeta.
  intros (bh & Hbh%ok_or_Ok & H)%rbind_Ok. apply rbind_Ok in H as (ch & Hch%ok_or_Ok & H).
  do 4 (apply rbind_Ok in H as (_ & _ & H)). apply rbind_Ok in H as ([ops1 templates1] & Ht & H).
  apply rbind_Ok in H as (p & Hp & H). apply rbind_Ok in H as (next & Hnext%map_err_Ok & H).
  apply rbind_Ok in H as (_ & _ & H). apply rbind_Ok in H as (base_ops & Hbase & H).
  apply rbind_Ok in H as (chunk_ops & Hchunk & H). apply rbind_Ok in H as (base_fns & Hbf & H).
  apply rbind_Ok in H as (fns & Hfns & H). apply rbind_Ok in H as (registry & _ & [= <-]).
  apply rbind_Ok in Hchunk as (c & ->%to_u32_Ok & Hchunk). apply rbind_Ok in Hchunk as (e & ->%to_u32_Ok & Hchunk).
  apply rbind_Ok in Hchunk as (d & ->%to_u32_Ok & Hchunk). apply map_result_Ok in Hchunk.
  exists bh, ch, ops1, templates1, p, base_ops, chunk_ops. constructor; try done; eauto.
Qed.

(** ** The instructions of the chunk *)

(** A template of the chunk under its new number. *)
Definition same_template (ts ts' : list CallableTemplate) (i j : N) : Prop :=
  ∀ t, t ∈ ts → ct_template_id t = i → ∃ t', t' ∈ ts' ∧ ct_template_id t' = j ∧ ct_metadata t' = ct_metadata t.

Definition op_retemplated (T : N → N → Prop) (op op' : Opcode) : Prop :=
  match op with
  | LoadCallableTemplateRef i => ∃ j, op' = LoadCallableTemplateRef j ∧ T i j
  | _ => op' = op
  end.

Lemma rebase_templates_spec ops ts n ops1 ts1 :
  rebase_chunk_callable_template_ids ops ts n = Ok (ops1, ts1) →
  Forall2 (op_retemplated (same_template ts ts1)) ops ops1.
Proof.
  unfold rebase_chunk_callable_template_ids.
  assert (Forall2 (op_retemplated (same_template ts ts)) ops ops) as Hid.
  { apply Forall_Forall2_diag, Forall_true. intros op. destruct op; cbn; try done. eexists. split; [done|].
    intros t Ht <-. eauto. }
  destruct (minimum _) as [floor|]; [|by intros [= <- <-]]. case_decide; [by intros [= <- <-]|].
  intros (ops' & Hops & H1)%rbind_Ok. apply rbind_Ok in H1 as (ts' & Hts & [= <- <-]).
  apply map_result_Ok in Hops, Hts. eapply Forall2_impl; [exact Hops|]. intros op op' Hop.
  destruct op; cbn in *; try (by injection Hop as <-). apply rbind_Ok in Hop as (j & Hj & [= <-]).
  eexists. split; [done|]. intros t [k Hk]%list_elem_of_lookup Hid'.
  destruct (Forall2_lookup_l _ _ _ _ _ Hts Hk) as (t' & Hk' & Ht'). apply rbind_Ok in Ht' as (j' & Hj' & [= <-]).
  exists (mkCallableTemplate j' (ct_kind t) (ct_metadata t)). split; [by eapply list_elem_of_lookup_2|].
  cbn. split; [|done]. rewrite Hid' in Hj'. unfold rebase, deny in *. case_decide; [|congruence].
  destruct (u32_try_from _); congruence.
Qed.

(** Function [i] of the chunk, or of the prefix, is function [j] of the artifact. *)
Definition rebased (fns fns' : list FunctionEntry) (n : nat) (i j : N) : Prop :=
  (N.to_nat i < n → j = i) ∧
  ∀ k e, fns !! k = Some e → fe_fun_idx e = i → fns' !! k = Some (set_fun_idx j e).

Lemma set_fun_idx_same e : set_fun_idx (fe_fun_idx e) e = e.
Proof. by destruct e. Qed.

Lemma rebase_functions_spec p n p' : rebase_chunk_function_ids p n = Ok p' →
  Forall2 (op_renamed (rebased (pt_functions p) (pt_functions p') n)) (pt_opcodes p) (pt_opcodes p') ∧
  Forall2 (λ t t', ct_template_id t' = ct_template_id t ∧ ct_metadata t' = ct_metadata t) (pt_templates p) (pt_templates p') ∧
  Forall2 (λ e e', e' = set_fun_idx (fe_fun_idx e') e) (pt_functions p) (pt_functions p').
Proof.
  unfold rebase_chunk_function_ids.
  assert (Forall2 (op_renamed (rebased (pt_functions p) (pt_functions p) n)) (pt_opcodes p) (pt_opcodes p) ∧
    Forall2 (λ t t', ct_template_id t' = ct_template_id t ∧ ct_metadata t' = ct_metadata t) (pt_templates p) (pt_templates p) ∧
    Forall2 (λ e e', e' = set_fun_idx (fe_fun_idx e') e) (pt_functions p) (pt_functions p)) as Hid.
  { split_and!; apply Forall_Forall2_diag, Forall_true; [|done|intros e; by rewrite set_fun_idx_same].
    intros op. destruct op; cbn; try done; eexists; (split; [done|]); (split; [done|]); intros k e Hk <-;
      by rewrite set_fun_idx_same. }
  destruct (minimum _) as [floor|] eqn:Hmin; [|by intros [= <-]]. case_decide as Hfl; [by intros [= <-]|]. cbv zeta.
  intros (ops & Hops & H1)%rbind_Ok. apply rbind_Ok in H1 as (ts & Hts & H1).
  apply rbind_Ok in H1 as (fns & Hfns & H1). apply rbind_Ok in H1 as (specs & _ & [= <-]). cbn.
  apply map_result_Ok in Hops, Hfns, Hts. split_and!.
  - eapply Forall2_impl; [exact Hops|]. intros op op' Hop%map_op_functions_renamed.
    eapply op_renamed_impl; [|exact Hop]. cbn. intros i j Hij. split.
    + intros Hi. unfold rebase in Hij. rewrite decide_False in Hij by lia. by injection Hij.
    + intros k e Hk Hi. destruct (Forall2_lookup_l _ _ _ _ _ Hfns Hk) as (e' & Hk' & He').
      unfold map_entry_function in He'. rewrite Hi, Hij in He'. injection He' as <-. done.
  - eapply Forall2_impl; [exact Hts|]. intros t t' Ht%map_template_functions_renamed. by destruct Ht as (? & ? & _).
  - eapply Forall2_impl; [exact Hfns|]. intros e e' He. by apply rbind_Ok in He as (j & _ & [= <-]).
Qed.

(** ** The code of the artifact *)

(** [op'] is to the artifact what [op] is to the chunk; [F] renames functions and [T]
    templates. *)
Section linked.
Context (chunk : BytecodeChunk) (bc : Bytecode) (place : nat → nat) (F T : N → N → Prop).

Definition same_const (i i' : N) : Prop := constants bc !! N.to_nat i' = ch_constants chunk !! N.to_nat i.
Definition goes_to (a a' : N) : Prop := N.to_nat a' = place (N.to_nat a).

Definition op_linked (op op' : Opcode) : Prop :=
  match op with
  | Jump a => ∃ a', op' = Jump a' ∧ goes_to a a'
  | JumpIfFalse a => ∃ a', op' = JumpIfFalse a' ∧ goes_to a a'
  | JumpIfTrue a => ∃ a', op' = JumpIfTrue a' ∧ goes_to a a'
  | JumpIfLocalTagEq l c a => ∃ c' a', op' = JumpIfLocalTagEq l c' a' ∧ same_const c c' ∧ goes_to a a'
  | JumpIfLocalTagNe l c a => ∃ c' a', op' = JumpIfLocalTagNe l c' a' ∧ same_const c c' ∧ goes_to a a'
  | LoadConst c => ∃ c', op' = LoadConst c' ∧ same_const c c'
  | StoreConstLocal c l => ∃ c', op' = StoreConstLocal c' l ∧ same_const c c'
  | EqLocalTag l c => ∃ c', op' = EqLocalTag l c' ∧ same_const c c'
  | MakeError t => ∃ t', op' = MakeError t' ∧
      (et_kind <$> error_templates bc !! N.to_nat t') = (et_kind <$> ch_error_templates chunk !! N.to_nat t)
  | Dbg t n => ∃ t', op' = Dbg t' n ∧ dbg_templates bc !! N.to_nat t' = ch_dbg_templates chunk !! N.to_nat t
  | LoadFunctionRef i => ∃ j, op' = LoadFunctionRef j ∧ F i j
  | Call i arity s e => ∃ j, op' = Call j arity s e ∧ F i j
  | SetCallableDelegateFunction i => ∃ j, op' = SetCallableDelegateFunction j ∧ F i j
  | LoadCallableTemplateRef i => ∃ j, op' = LoadCallableTemplateRef j ∧ T i j
  | _ => op' = op
  end.
End linked.

Lemma relocate_index_Ok what i b j : relocate_index what i b = Ok j → j = (i + b)%N.
Proof.
  unfold relocate_index, deny. destruct (u32_checked_add i b) eqn:H1; [|done].
  apply u32_checked_add_Some in H1 as [-> _]. by intros [= <-].
Qed.

Lemma rebase_error_templates_kind fns n ts k :
  (et_kind <$> rebase_error_templates fns n ts !! k) = (et_kind <$> ts !! k).
Proof.
  unfold rebase_error_templates. destruct (minimum _); [|done]. case_decide; [|done].
  rewrite list_lookup_fmap. destruct (ts !! k); [|done]. cbn. by case_decide.
Qed.

Lemma lookup_relocated {A} (l k : list A) i : (l ++ k) !! N.to_nat (i + N.of_nat (length l)) = k !! N.to_nat i.
Proof. rewrite lookup_app_r by lia. f_equal. lia. Qed.

Section layout.
Context (base : Bytecode) (chunk : BytecodeChunk) (bc : Bytecode) (bh ch : nat) (ops1 : list Opcode)
  (templates1 : list CallableTemplate) (p : Parts) (base_ops chunk_ops : list Opcode).
Hypothesis Hcm : composed base chunk bc bh ch ops1 templates1 p base_ops chunk_ops.

Abbreviation F := (rebased (ch_functions chunk) (pt_functions p) (length (functions base))).
Abbreviation T := (same_template (ch_callable_templates chunk) templates1).
Abbreviation to_base := (place_base bh ch).
Abbreviation to_chunk := (place_chunk bh ch (length (opcodes base))).

Lemma chunk_op_linked op op1 op2 op3 :
  op_retemplated T op op1 → op_renamed F op1 op2 →
  relocate_chunk_op ch bh (chunk_func_base base bh ch) (N.of_nat (length (constants base)))
    (N.of_nat (length (error_templates base))) (N.of_nat (length (dbg_templates base))) op2 = Ok op3 →
  op_linked chunk bc to_chunk F T op op3.
Proof.
  intros H1 H2 H3. destruct Hcm.
  assert (∀ a a', map_chunk_pc a ch bh (chunk_func_base base bh ch) = Ok a' → goes_to to_chunk a a') as Hgo
    by (intros a a'; by apply map_chunk_pc_Ok).
  assert (∀ c c', relocate_index (lit "const") c (N.of_nat (length (constants base))) = Ok c' → same_const chunk bc c c') as Hco.
  { intros c c' ->%relocate_index_Ok. unfold same_const. rewrite cm_constants0. apply lookup_relocated. }
  destruct op; cbn in H1; try (destruct H1 as (? & -> & ?)); try subst op1; cbn in H2;
    try (destruct H2 as (? & -> & ?)); try subst op2; cbn in H3;
    repeat match goal with
    | H : rbind _ _ = Ok _ |- _ => apply rbind_Ok in H as (? & ? & H)
    end; injection H3 as <-; cbn; try done; eauto 10.
  - eexists. split; [done|]. match goal with H : relocate_index _ _ _ = Ok _ |- _ => apply relocate_index_Ok in H as -> end.
    rewrite cm_dbg0. apply lookup_relocated.
  - eexists. split; [done|]. match goal with H : relocate_index _ _ _ = Ok _ |- _ => apply relocate_index_Ok in H as -> end.
    rewrite cm_errors0, lookup_relocated. apply rebase_error_templates_kind.
Qed.

Lemma chunk_ops_linked : Forall2 (op_linked chunk bc to_chunk F T) (ch_opcodes chunk) chunk_ops.
Proof.
  pose proof Hcm as [_ _ Ht Hp _ _ Hch _ _ _ _ _ _ _].
  apply rebase_templates_spec in Ht. apply rebase_functions_spec in Hp as [Hp _]. cbn in Hp.
  apply Forall2_same_length_lookup. split.
  { by rewrite (Forall2_length _ _ _ Ht), (Forall2_length _ _ _ Hp), (Forall2_length _ _ _ Hch). }
  intros i op op3 Hi Hi3. destruct (Forall2_lookup_l _ _ _ _ _ Ht Hi) as (op1 & Hi1 & H1).
  destruct (Forall2_lookup_l _ _ _ _ _ Hp Hi1) as (op2 & Hi2 & H2).
  eapply chunk_op_linked; [exact H1|exact H2|]. exact (Forall2_lookup_lr _ _ _ _ _ _ Hch Hi2 Hi3).
Qed.

Lemma base_ops_moved : Forall2 (op_moved to_base) (opcodes base) base_ops.
Proof.
  destruct Hcm. apply map_result_Ok in cm_base_ops0. eapply Forall2_impl; [exact cm_base_ops0|].
  intros op op'. apply relocate_base_op_moved.
Qed.

Lemma base_halt_lt : bh < length (opcodes base).
Proof. destruct Hcm. by eapply position_lt. Qed.
Lemma chunk_halt_lt : ch < length (ch_opcodes chunk).
Proof. destruct Hcm. by eapply position_lt. Qed.
Lemma base_ops_length : length base_ops = length (opcodes base).
Proof. symmetry. eapply Forall2_length, base_ops_moved. Qed.
Lemma chunk_ops_length : length chunk_ops = length (ch_opcodes chunk).
Proof. symmetry. eapply Forall2_length, chunk_ops_linked. Qed.

(** The five pieces by position. *)
Lemma lookup_base i op : base_ops !! i = Some op → i ≠ bh → opcodes bc !! to_base i = Some op.
Proof.
  intros Hi Hne. pose proof base_halt_lt. pose proof chunk_halt_lt. pose proof base_ops_length. pose proof chunk_ops_length.
  rewrite (cm_opcodes _ _ _ _ _ _ _ _ _ _ Hcm). unfold place_base. case_decide.
  - rewrite lookup_app_l by (rewrite length_take; lia). by rewrite lookup_take_lt.
  - apply lookup_lt_Some in Hi as Hlt. rewrite lookup_app_r by (rewrite length_take; lia).
    rewrite lookup_app_r by (rewrite !length_take; lia). rewrite lookup_app_r by (rewrite !length_take; cbn; lia).
    rewrite lookup_app_l by (rewrite !length_take, length_drop; cbn; lia).
    rewrite lookup_drop, <- Hi. f_equal. rewrite !length_take. cbn. lia.
Qed.

Lemma lookup_chunk i op : chunk_ops !! i = Some op → i ≠ ch → opcodes bc !! to_chunk i = Some op.
Proof.
  intros Hi Hne. pose proof base_halt_lt. pose proof chunk_halt_lt. pose proof base_ops_length. pose proof chunk_ops_length.
  rewrite (cm_opcodes _ _ _ _ _ _ _ _ _ _ Hcm). unfold place_chunk. apply lookup_lt_Some in Hi as Hlt. case_decide.
  - rewrite lookup_app_r by (rewrite length_take; lia). rewrite lookup_app_l by (rewrite !length_take; lia).
    rewrite lookup_take_lt by (rewrite !length_take; lia). rewrite <- Hi. f_equal. rewrite !length_take. lia.
  - rewrite lookup_app_r by (rewrite length_take; lia). rewrite lookup_app_r by (rewrite !length_take; lia).
    rewrite lookup_app_r by (rewrite !length_take; cbn; lia).
    rewrite lookup_app_r by (rewrite !length_take, length_drop; cbn; lia).
    rewrite lookup_drop, <- Hi. f_equal. rewrite !length_take, length_drop. cbn. lia.
Qed.

Lemma artifact_halt : position is_halt (opcodes bc) = Some (bh + ch).
Proof.
  pose proof Hcm as [Hb Hc _ _ _ _ _ Hops _ _ _ _ _ _]. rewrite Hops. pose proof base_halt_lt. pose proof chunk_halt_lt.
  assert (position is_halt base_ops = Some bh) as Hb'.
  { rewrite <- Hb. symmetry. apply position_forall2. eapply Forall2_impl; [apply base_ops_moved|].
    intros op op'. destruct op; cbn; try (by intros ->); by intros (? & -> & _). }
  assert (position is_halt chunk_ops = Some ch) as Hc'.
  { rewrite <- Hc. symmetry. apply position_forall2. eapply Forall2_impl; [apply chunk_ops_linked|].
    intros op op'. destruct op; cbn; try (by intros ->); try (by intros (? & -> & _)); by intros (? & ? & -> & _). }
  rewrite position_skip by by apply position_take. rewrite position_skip by by apply position_take.
  cbn. rewrite !length_take, base_ops_length, chunk_ops_length. f_equal. lia.
Qed.

Lemma artifact_length : length (opcodes bc) = length (opcodes base) + length (ch_opcodes chunk) - 1.
Proof.
  pose proof base_halt_lt. pose proof chunk_halt_lt.
  rewrite (cm_opcodes _ _ _ _ _ _ _ _ _ _ Hcm), !length_app, !length_take, !length_drop, base_ops_length, chunk_ops_length.
  cbn. lia.
Qed.

(** *** Functions *)

Lemma parts_halt : position is_halt (pt_opcodes p) = Some ch ∧ length (pt_opcodes p) = length (ch_opcodes chunk).
Proof.
  pose proof Hcm as [_ Hc Ht Hp _ _ _ _ _ _ _ _ _ _]. apply rebase_templates_spec in Ht.
  apply rebase_functions_spec in Hp as (Hp & _ & _). cbn in Hp. split.
  - rewrite <- Hc. symmetry. trans (position is_halt ops1); apply position_forall2.
    + eapply Forall2_impl; [exact Ht|]. intros op op'. destruct op; cbn; try (by intros ->); by intros (? & -> & _).
    + eapply Forall2_impl; [exact Hp|]. intros op op' Hop. by rewrite (is_halt_renamed _ _ _ Hop).
  - by rewrite (Forall2_length _ _ _ Ht), (Forall2_length _ _ _ Hp).
Qed.

End layout.

(** An appended entry is the chunk's, at its new place. *)
Definition entry_placed (place : nat → nat) (e e' : FunctionEntry) : Prop :=
  N.to_nat (fe_entry_pc e') = place (N.to_nat (fe_entry_pc e)) ∧ e' = set_pcs (fe_entry_pc e') (fe_end_pc e') e.

Lemma append_entries_spec ch bh n cfb es : cfb = bh + ch + 1 + (n - (bh + 1)) → ∀ fns fns',
  append_entries ch bh cfb fns es = Ok fns' →
  (∀ k e, es !! k = Some e → N.to_nat (fe_fun_idx e) = length fns + k) ∧
  ∃ es', fns' = fns ++ es' ∧ Forall2 (entry_placed (place_chunk bh ch n)) es es'.
Proof.
  intros Hcfb. induction es as [|e es IH]; intros fns fns'; cbn.
  { intros [= <-]. split; [intros k e He; by rewrite lookup_nil in He|]. exists []. by rewrite app_nil_r. }
  intros (pc & Hpc & H)%rbind_Ok. apply rbind_Ok in H as (epc & Hepc & H). case_decide as Hi; [|done].
  apply IH in H as (Hidx & es' & -> & Hes). split.
  - intros [|k] x Hx; [injection Hx as <-; lia|]. rewrite (Hidx _ _ Hx), length_app. cbn. lia.
  - exists (set_pcs pc epc e :: es'). rewrite <- app_assoc. split; [done|]. constructor; [|done].
    split; [|done]. by apply (map_chunk_pc_Ok bh ch n) in Hpc.
Qed.

Lemma relocate_function_entry_placed bh ch e e' : relocate_function_entry bh ch e = Ok e' → bh ≠ N.to_nat (fe_entry_pc e) →
  entry_placed (place_base bh ch) e e'.
Proof.
  unfold relocate_function_entry. intros (pc & Hpc & H)%rbind_Ok Hne. apply rbind_Ok in H as (epc & _ & [= <-]).
  split; [|done]. cbn. unfold place_base. case_decide.
  - apply add_u32_Ok in Hpc as ->. by rewrite decide_False by lia.
  - injection Hpc as <-. by rewrite decide_True by lia.
Qed.

Lemma op_moved_refs place op op' : op_moved place op op' → opcode_refs op' = opcode_refs op.
Proof. destruct op; cbn; try (by intros ->); by intros (? & -> & _). Qed.

Lemma relocate_chunk_op_refs a b c d e f op op' : relocate_chunk_op a b c d e f op = Ok op' → opcode_refs op' = opcode_refs op.
Proof.
  destruct op; cbn; try (by intros [= <-]); intros H;
    repeat match goal with H : rbind _ _ = Ok _ |- _ => apply rbind_Ok in H as (? & _ & H) end; by injection H as <-.
Qed.

Lemma refs_forall2 (P : N → Prop) ops ops' : Forall2 (λ op op', opcode_refs op' = opcode_refs op) ops ops' →
  Forall P (ops ≫= opcode_refs) → Forall P (ops' ≫= opcode_refs).
Proof. induction 1 as [|op op' ops ops' Ho _ IH]; cbn; [done|]. rewrite Ho, !Forall_app. naive_solver. Qed.

(** ** The artifact *)

(** Function [i] of the compiler is function [j] of the artifact: a function of the
    prefix keeps its number, the [k]-th function of the chunk comes [k]-th after them. *)
Definition function_linked (base : Bytecode) (chunk : BytecodeChunk) (i j : N) : Prop :=
  (N.to_nat i < length (functions base) → j = i) ∧
  ∀ k e, ch_functions chunk !! k = Some e → fe_fun_idx e = i → N.to_nat j = length (functions base) + k.

Definition template_linked (chunk : BytecodeChunk) (bc : Bytecode) : N → N → Prop :=
  same_template (ch_callable_templates chunk) (callable_templates bc).

(** What an artifact of [base] and [chunk] has to be. *)
Record artifact (base : Bytecode) (chunk : BytecodeChunk) (bc : Bytecode) (bh ch : nat) : Prop := mkArtifact {
  af_halt : position is_halt (opcodes bc) = Some (bh + ch);
  af_base : ∀ i op, opcodes base !! i = Some op → i ≠ bh →
    ∃ op', opcodes bc !! place_base bh ch i = Some op' ∧ op_moved (place_base bh ch) op op';
  af_chunk : ∀ i op, ch_opcodes chunk !! i = Some op → i ≠ ch →
    ∃ op', opcodes bc !! place_chunk bh ch (length (opcodes base)) i = Some op' ∧
      op_linked chunk bc (place_chunk bh ch (length (opcodes base))) (function_linked base chunk) (template_linked chunk bc) op op';
  af_base_functions : ∀ k e, functions base !! k = Some e →
    ∃ e', functions bc !! k = Some e' ∧ entry_placed (place_base bh ch) e e';
  af_chunk_functions : ∀ k e, ch_functions chunk !! k = Some e →
    ∃ e', functions bc !! (length (functions base) + k) = Some e' ∧
      entry_placed (place_chunk bh ch (length (opcodes base))) (set_fun_idx (fe_fun_idx e') e) e';
}.

Lemma op_linked_impl chunk bc place (F F' T T' : N → N → Prop) op op' :
  (∀ i j, F i j → F' i j) → (∀ i j, T i j → T' i j) →
  op_linked chunk bc place F T op op' → op_linked chunk bc place F' T' op op'.
Proof. intros HF HT. destruct op; cbn; try done; intros (j & -> & ?); eauto. Qed.

Section artifact.
Context (base : Bytecode) (chunk : BytecodeChunk) (bc : Bytecode) (bh ch : nat) (ops1 : list Opcode)
  (templates1 : list CallableTemplate) (p : Parts) (base_ops chunk_ops : list Opcode).
Hypothesis Hcm : composed base chunk bc bh ch ops1 templates1 p base_ops chunk_ops.
Hypothesis Hentries : Forall (entry_ok (length (opcodes base)) bh) (functions base).

Abbreviation to_base := (place_base bh ch).
Abbreviation to_chunk := (place_chunk bh ch (length (opcodes base))).

Lemma artifact_functions : ∃ base_fns chunk_fns, functions bc = base_fns ++ chunk_fns ∧
  Forall2 (entry_placed to_base) (functions base) base_fns ∧
  Forall2 (entry_placed to_chunk) (pt_functions p) chunk_fns ∧
  ∀ k e, pt_functions p !! k = Some e → N.to_nat (fe_fun_idx e) = length (functions base) + k.
Proof.
  destruct (cm_functions _ _ _ _ _ _ _ _ _ _ Hcm) as (base_fns & Hbf & Happ).
  apply map_result_Ok in Hbf. pose proof (Forall2_length _ _ _ Hbf) as Hlen.
  apply (append_entries_spec _ _ (length (opcodes base))) in Happ as (Hidx & chunk_fns & -> & Hch); [|done].
  exists base_fns, chunk_fns. rewrite Hlen. split_and!; try done.
  apply Forall2_same_length_lookup. split; [done|]. intros i e e' Hi Hi'.
  rewrite Forall_lookup in Hentries. pose proof (Hentries _ _ Hi) as [? _].
  apply relocate_function_entry_placed; [exact (Forall2_lookup_lr _ _ _ _ _ _ Hbf Hi Hi')|lia].
Qed.

Lemma rebased_linked i j : rebased (ch_functions chunk) (pt_functions p) (length (functions base)) i j →
  function_linked base chunk i j.
Proof.
  intros [Hlow Hk]. split; [done|]. intros k e He Hi. pose proof (Hk k e He Hi) as Hk'.
  destruct artifact_functions as (_ & _ & _ & _ & _ & Hidx). apply (Hidx _ _ Hk').
Qed.

Lemma same_template_linked i j : same_template (ch_callable_templates chunk) templates1 i j → template_linked chunk bc i j.
Proof.
  intros Hs t Ht Hi. destruct (Hs t Ht Hi) as (t1 & [k Hk]%list_elem_of_lookup & Hid & Hmeta).
  pose proof Hcm as [_ _ _ Hp _ _ _ _ _ _ _ _ Hct _]. apply rebase_functions_spec in Hp as (_ & Hp & _).
  destruct (Forall2_lookup_l _ _ _ _ _ Hp Hk) as (t' & Hk' & Hid' & Hmeta'). exists t'.
  split_and!; [|congruence..]. rewrite Hct. apply elem_of_app. right. by eapply list_elem_of_lookup_2.
Qed.

Lemma composed_artifact : artifact base chunk bc bh ch.
Proof.
  destruct artifact_functions as (base_fns & chunk_fns & Hfns & Hb & Hc & Hidx). constructor.
  - by eapply artifact_halt.
  - intros i op Hi Hne. destruct (Forall2_lookup_l _ _ _ _ _ (base_ops_moved _ _ _ _ _ _ _ _ _ _ Hcm) Hi) as (op' & Hi' & Hop).
    exists op'. split; [by eapply lookup_base|done].
  - intros i op Hi Hne. destruct (Forall2_lookup_l _ _ _ _ _ (chunk_ops_linked _ _ _ _ _ _ _ _ _ _ Hcm) Hi) as (op' & Hi' & Hop).
    exists op'. split; [by eapply lookup_chunk|].
    eapply op_linked_impl; [exact rebased_linked|exact same_template_linked|exact Hop].
  - intros k e Hk. destruct (Forall2_lookup_l _ _ _ _ _ Hb Hk) as (e' & Hk' & He). exists e'. split; [|done].
    rewrite Hfns. by apply lookup_app_l_Some.
  - intros k e Hk. pose proof (cm_parts _ _ _ _ _ _ _ _ _ _ Hcm) as (_ & _ & Hp)%rebase_functions_spec. cbn in Hp.
    destruct (Forall2_lookup_l _ _ _ _ _ Hp Hk) as (e1 & Hk1 & He1).
    destruct (Forall2_lookup_l _ _ _ _ _ Hc Hk1) as (e' & Hk' & He'). exists e'. split.
    + rewrite Hfns, (Forall2_length _ _ _ Hb). by rewrite lookup_app_r, Nat.add_comm, Nat.add_sub by lia.
    + assert (fe_fun_idx e' = fe_fun_idx e1) as -> by (destruct He' as [_ ->]; done). by rewrite <- He1.
Qed.

Lemma artifact_entries : Forall (entry_ok (length (opcodes bc)) (bh + ch)) (functions bc).
Proof.
  destruct artifact_functions as (base_fns & chunk_fns & -> & Hb & Hc & _).
  rewrite (artifact_length _ _ _ _ _ _ _ _ _ _ Hcm). pose proof (chunk_halt_lt _ _ _ _ _ _ _ _ _ _ Hcm) as Hch.
  pose proof (base_halt_lt _ _ _ _ _ _ _ _ _ _ Hcm) as Hbh. destruct (parts_halt _ _ _ _ _ _ _ _ _ _ Hcm) as [Hph Hplen].
  destruct (cm_table _ _ _ _ _ _ _ _ _ _ Hcm) as (next & (h & Hh & _ & Hpe & _)%chunk_table_iff).
  rewrite Hph in Hh. injection Hh as <-. apply Forall_app. split.
  - eapply Forall2_Forall_r; [exact Hb|]. eapply Forall_impl; [exact Hentries|]. intros e He e' [Hpc _].
    unfold entry_ok in *. rewrite Hpc. unfold place_base. rewrite decide_False by lia. lia.
  - eapply Forall2_Forall_r; [exact Hc|]. eapply Forall_impl; [exact Hpe|]. intros e He e' [Hpc _].
    unfold entry_ok in *. rewrite Hpc. unfold place_chunk. rewrite decide_False by lia. lia.
Qed.

Lemma artifact_next next : validate_chunk_function_table (pt_opcodes p) (pt_templates p) (pt_specs p) (pt_functions p)
    (length (functions base)) false = Ok next → next ≤ length (functions bc).
Proof.
  intros (h & _ & (_ & _ & _ & Hcov) & _ & _)%chunk_table_iff.
  destruct artifact_functions as (base_fns & chunk_fns & Hfns & Hb & Hc & Hidx).
  rewrite Hfns, length_app, <- (Forall2_length _ _ _ Hb), <- (Forall2_length _ _ _ Hc).
  destruct (decide (next ≤ length (functions base) + length (pt_functions p))) as [|Hgt]; [done|].
  destruct (Hcov (length (functions base) + length (pt_functions p))) as (e & [k Hk]%list_elem_of_lookup & He); [lia|].
  pose proof (Hidx _ _ Hk). apply lookup_lt_Some in Hk. lia.
Qed.

Lemma artifact_dense i e : (∀ i e, functions base !! i = Some e → N.to_nat (fe_fun_idx e) = i) →
  functions bc !! i = Some e → N.to_nat (fe_fun_idx e) = i.
Proof.
  intros Hd. destruct artifact_functions as (base_fns & chunk_fns & -> & Hb & Hc & Hidx).
  intros [Hi|[Hge Hi]]%lookup_app_Some.
  - destruct (Forall2_lookup_r _ _ _ _ _ Hb Hi) as (x & Hx & _ & ->). cbn. eauto.
  - destruct (Forall2_lookup_r _ _ _ _ _ Hc Hi) as (x & Hx & _ & ->). cbn. rewrite (Hidx _ _ Hx), (Forall2_length _ _ _ Hb). lia.
Qed.

Lemma artifact_refs (n : nat) :
  Forall (λ f, N.to_nat f < n) (all_refs (opcodes base) (callable_templates base) (runtime_process_specs base)) →
  Forall (λ f, N.to_nat f < n) (all_refs (pt_opcodes p) (pt_templates p) (pt_specs p)) →
  Forall (λ f, N.to_nat f < n) (all_refs (opcodes bc) (callable_templates bc) (runtime_process_specs bc)).
Proof.
  pose proof Hcm as [_ _ _ _ _ _ Hco Hops _ _ _ _ Hct Hsp].
  unfold all_refs. rewrite Hct, Hsp, !bind_app, !Forall_app. intros (Hb & ? & ?) (Hc & ? & ?). split_and!; try done.
  assert (Forall (λ f, N.to_nat f < n) (base_ops ≫= opcode_refs)) as Hb'.
  { eapply refs_forall2; [|exact Hb]. eapply Forall2_impl; [by eapply base_ops_moved|]. intros ??. apply op_moved_refs. }
  assert (Forall (λ f, N.to_nat f < n) (chunk_ops ≫= opcode_refs)) as Hc'.
  { eapply refs_forall2; [|exact Hc]. eapply Forall2_impl; [exact Hco|]. intros ??. apply relocate_chunk_op_refs. }
  rewrite Hops, !bind_app, !Forall_app, !Forall_bind. rewrite Forall_bind in Hb', Hc'.
  split_and!; try (by apply Forall_take); try (by apply Forall_drop); repeat constructor.
Qed.

End artifact.


(** A chunk compiled after five functions of which only one is in the prefix: its
    function 5 becomes function 1. *)
Definition artifact_chunk : BytecodeChunk :=
  mkChunk [LoadConst 0; Call 5 0 0 0; Halt; Jump 5; LoadConst 1; Return] None 1 [CInt 2; CUnit] 0 0 [] 0 [] 0 [] []
    [LoaderProps.sample_function 5 3] [] [] [] default_boot_plan.
Definition sample_artifact : Bytecode :=
  match compose_bytecode_with_chunk LoaderProps.sample_program artifact_chunk with Ok bc => bc | Err _ => default_bytecode end.


End Composition.
