(* ===== verification/Container.v ===== *)
(** * The [.eldr] file format ([crates/sindr/src/ir.rs])

    A compiled program is stored in a container: a header, a table of tagged chunks,
    and their payloads padded to four bytes.  Before it is written the tables for
    viewers are derived from the code ([refresh_viewer_metadata]); the source map is
    not stored itself but rebuilt from the span tables.  Payloads are serialised by
    the [bincode] crate, an interface here. *)

From stdpp Require Import pretty.
From S2P Require Import Prelude Names ListHandle Value TypeRegistry Ir FunctionTable RuntimeError ParseError.
From S2P Require Import OperandStack StringLiteral Display ErrorSchema ProcessRuntime Machine.

(** ** Ordered collections

    The keys of a [BTreeMap] or [BTreeSet] are visited in their order. *)

Section btree.
Context {K : Type} (le : K → K → Prop) `{!RelDecision le}.

Definition key_le {V} (a b : K * V) : Prop := le a.1 b.1.
#[export] Instance key_le_dec {V} : RelDecision (@key_le V).
Proof. intros a b. unfold key_le. apply _. Defined.

Definition btree_entries `{Countable K} {V} (m : gmap K V) : list (K * V) := merge_sort key_le (map_to_list m).
End btree.

Definition btree_values {V} (m : gmap N V) : list V := snd <$> btree_entries N.le m.
Definition btree_keys (s : gset N) : list N := merge_sort N.le (elements s).

(** Strings in their own order, and an absent string before all others. *)
Definition str_le (a b : str) : Prop := str_leb a b = true.
#[export] Instance str_le_dec : RelDecision str_le.
Proof. intros a b. unfold str_le. apply _. Defined.

Definition option_str_le (a b : option str) : Prop :=
  match a, b with
  | None, _ => True
  | Some _, None => False
  | Some a, Some b => str_le a b
  end.
#[export] Instance option_str_le_dec : RelDecision option_str_le.
Proof. intros [a|] [b|]; cbn; apply _. Defined.

Definition line_key_le (a b : N * option str) : Prop :=
  (a.1 < b.1)%N ∨ (a.1 = b.1 ∧ option_str_le a.2 b.2).
#[export] Instance line_key_le_dec : RelDecision line_key_le.
Proof. intros a b. unfold line_key_le. apply _. Defined.

(** [x + 1] of a [u32] in a build without overflow checks. *)
Definition u32_next (n : N) : N := ((n + 1) `mod` (u32_max + 1))%N.

Module Tables.

(** ** Tables for viewers *)

Definition set_end_pc (end_pc : N) (e : FunctionEntry) : FunctionEntry :=
  mkFunctionEntry (fe_fun_idx e) (fe_entry_pc e) (fe_num_locals e) (fe_arity e) (fe_qualified_name e) (fe_signature e)
    end_pc (fe_span_start e) (fe_span_end e) (fe_flags e).

(** [sort_by_key] is stable: equal keys stay in the order of their positions. *)
Definition entry_pc_le (a b : nat * FunctionEntry) : Prop :=
  (fe_entry_pc a.2 < fe_entry_pc b.2)%N ∨ (fe_entry_pc a.2 = fe_entry_pc b.2 ∧ a.1 ≤ b.1).
#[export] Instance entry_pc_le_dec : RelDecision entry_pc_le.
Proof. intros a b. unfold entry_pc_le. apply _. Defined.

(** Every function ends where the next one starts. *)
Fixpoint range_ends (entries : list (nat * FunctionEntry)) (opcode_len : N) : list (nat * N) :=
  match entries with
  | [] => []
  | (i, _) :: rest =>
      (i, match rest with (_, next) :: _ => fe_entry_pc next | [] => opcode_len end) :: range_ends rest opcode_len
  end.

Definition populate_function_ranges (functions : list FunctionEntry) (opcode_len : N) : list FunctionEntry :=
  foldl (λ fns '(i, e), alter (set_end_pc e) i fns) functions
    (range_ends (merge_sort entry_pc_le (imap pair functions)) opcode_len).

Definition label_target (op : Opcode) : list N :=
  match op with Jump pc | JumpIfFalse pc | JumpIfTrue pc => [pc] | _ => [] end.

Definition derive_labels (ops : list Opcode) (functions : list FunctionEntry) : list LabelEntry :=
  let pcs : gset N := list_to_set ((fe_entry_pc <$> functions) ++ (ops ≫= label_target)) in
  (λ pc, mkLabel (lit "L" ++ fmt_N pc) pc) <$> btree_keys pcs.

Section imports.
Context `{BuiltinTable}.

Definition builtin_import_entry (builtin_id arity : N) : ImportEntry :=
  mkImport
    (match builtin_meta_by_id builtin_id with
     | Some meta => bm_name meta
     | None => lit "builtin#" ++ fmt_N builtin_id
     end) ImportBuiltin arity (Some builtin_id) None [].

Definition push_call_pc (pc : nat) (e : ImportEntry) : ImportEntry :=
  mkImport (im_symbol e) (im_kind e) (im_arity e) (im_builtin_id e) (im_function_id e) (im_call_pcs e ++ [as_u32 pc]).

(** [map.entry(key).or_insert_with(default)], then the call site is recorded. *)
Definition record_call (key : N) (new : ImportEntry) (pc : nat) (m : gmap N ImportEntry) : gmap N ImportEntry :=
  <[key := push_call_pc pc (default new (m !! key))]> m.

Definition find_function (functions : list FunctionEntry) (fun_idx : N) : option FunctionEntry :=
  find (λ e, bool_decide (fe_fun_idx e = fun_idx)) functions.

Definition function_import_entry (functions : list FunctionEntry) (fun_idx arity : N) : ImportEntry :=
  mkImport
    (match find_function functions fun_idx ≫= fe_qualified_name with
     | Some name => name
     | None => lit "fun#" ++ fmt_N fun_idx
     end) ImportFunction arity None (Some fun_idx) [].

(** The builtins and the functions that the code mentions, with the sites. *)
Definition import_step (functions : list FunctionEntry) (ms : gmap N ImportEntry * gmap N ImportEntry)
    (p : nat * Opcode) : gmap N ImportEntry * gmap N ImportEntry :=
  let '(builtins, funs) := ms in
  let '(pc, op) := p in
  match op with
  | CallBuiltin builtin_id arity _ _ =>
      (record_call builtin_id (builtin_import_entry builtin_id arity) pc builtins, funs)
  | LoadBuiltinRef builtin_id =>
      let arity := match builtin_meta_by_id builtin_id with Some meta => bm_arity meta | None => 0%N end in
      (record_call builtin_id (builtin_import_entry builtin_id arity) pc builtins, funs)
  | Call fun_idx arity _ _ => (builtins, record_call fun_idx (function_import_entry functions fun_idx arity) pc funs)
  | LoadFunctionRef fun_idx =>
      let arity := match find_function functions fun_idx with Some e => fe_arity e | None => 0%N end in
      (builtins, record_call fun_idx (function_import_entry functions fun_idx arity) pc funs)
  | _ => ms
  end.

Definition derive_imports (ops : list Opcode) (functions : list FunctionEntry) : list ImportEntry :=
  let '(builtins, funs) := foldl (import_step functions) (∅, ∅) (imap pair ops) in
  btree_values builtins ++ btree_values funs.

End imports.

Definition export_entry (docs : list DocEntry) (e : FunctionEntry) : option ExportEntry :=
  match fe_qualified_name e with
  | None => None
  | Some symbol =>
      if ff_generated (fe_flags e) then None
      else Some (mkExport symbol (fe_arity e) (fe_fun_idx e) (fe_entry_pc e)
                   (dc_qualified_name <$> find (λ d, bool_decide (dc_qualified_name d = symbol)) docs))
  end.

Definition derive_exports (functions : list FunctionEntry) (docs : list DocEntry) : list ExportEntry :=
  omap (export_entry docs) functions.

Section literals.
Context `{RustFmt}.

Definition literal_entry (idx : nat) (c : Constant) : LiteralEntry :=
  let '(kind, display) :=
    match c with
    | CInt n => (LkInt, lit (pretty n))
    | CTag tag => (LkTag, fmt_N tag)
    | CFloat f => (LkFloat, display_f64 f)
    | CStr s => (LkStr, s)
    | CBool b => (LkBool, lit (if b then "true" else "false"))
    | CUnit => (LkUnit, lit "Unit")
    | CErrorKind kind => (LkErrorKind, kind)
    end in
  mkLiteral (as_u32 idx) kind display.

Definition derive_literals (constants : list Constant) : list LiteralEntry := imap literal_entry constants.

End literals.

(** ** Source tables *)

Definition source_name_set (m : option SourceMap) : gset str :=
  list_to_set (omap os_source_name (default [] m)).

Definition derive_sources (m : option SourceMap) : list SourceFileEntry :=
  imap (λ idx path, mkSourceFile (as_u32 idx) path (Some path) None None)
    (merge_sort str_le (elements (source_name_set m))).

Abbreviation SpanKey := (N * N * N * N * option str)%type.

Definition span_key (e : OpcodeSource) : SpanKey :=
  (os_span_start e, os_span_end e, os_line e, os_column e, os_source_name e).

(** The tables built by the loop over the source map. *)
Record SourceTables : Type := mkSourceTables {
  st_span_ids : gmap SpanKey N;
  st_spans : list SpanEntry;
  st_pc_spans : list PcSpanEntry;
  st_line_ranges : gmap (N * option str) (N * N);
}.

Definition add_source (t : SourceTables) (e : OpcodeSource) : SourceTables :=
  let key := span_key e in
  let '(span_id, span_ids, spans) :=
    match st_span_ids t !! key with
    | Some span_id => (span_id, st_span_ids t, st_spans t)
    | None =>
        let span_id := as_u32 (length (st_spans t)) in
        (span_id, <[key := span_id]> (st_span_ids t),
         st_spans t ++ [mkSpan span_id (os_span_start e) (os_span_end e) (os_line e) (os_column e) (os_source_name e)])
    end in
  let next := u32_next (os_opcode_index e) in
  let '(first, last) := default (os_opcode_index e, next) (st_line_ranges t !! (os_line e, os_source_name e)) in
  mkSourceTables span_ids spans (st_pc_spans t ++ [mkPcSpan (os_opcode_index e) span_id])
    (<[(os_line e, os_source_name e) := (N.min first (os_opcode_index e), N.max last next)]> (st_line_ranges t)).

Definition empty_tables : SourceTables := mkSourceTables ∅ [] [] ∅.

Definition derive_source_tables (m : option SourceMap) : list SpanEntry * list PcSpanEntry * list LineEntry :=
  match m with
  | None => ([], [], [])
  | Some entries =>
      let t := foldl add_source empty_tables entries in
      (st_spans t, st_pc_spans t,
       (λ '((line, source_name), (start_pc, end_pc)), mkLine line start_pc end_pc source_name)
         <$> btree_entries line_key_le (st_line_ranges t))
  end.

Definition rebuild_entry (spans : list SpanEntry) (p : PcSpanEntry) : option OpcodeSource :=
  (λ span, mkOpcodeSource (ps_pc p) (sp_span_start span) (sp_span_end span) (sp_line span) (sp_column span)
             (sp_source_name span))
    <$> find (λ span, bool_decide (sp_span_id span = ps_span_id p)) spans.

Definition rebuild_source_map (spans : list SpanEntry) (pc_spans : list PcSpanEntry) : option SourceMap :=
  if decide (spans = [] ∨ pc_spans = []) then None
  else match omap (rebuild_entry spans) pc_spans with [] => None | entries => Some entries end.

(** ** Synthesized source maps *)

Definition opcode_span (op : Opcode) (functions : list FunctionEntry) (dbg_templates : list DbgTemplate)
    (opcode_index : N) : option (N * N) :=
  match op with
  | CallBuiltin _ _ s e | Call _ _ s e | CallClosure _ s e | TailCallClosure _ s e => Some (s, N.max e (u32_next s))
  | Dbg template_id _ =>
      (λ t, (dt_span_start t, N.max (dt_span_end t) (u32_next (dt_span_start t))))
        <$> find (λ t, bool_decide (dt_id t = template_id)) dbg_templates
  | _ =>
      match find (λ e, bool_decide (fe_entry_pc e ≤ opcode_index ∧ opcode_index < fe_end_pc e)%N) functions with
      | Some e => if decide (fe_span_start e < fe_span_end e)%N then Some (fe_span_start e, fe_span_end e) else None
      | None => None
      end
  end.

Fixpoint synthesize_loop (functions : list FunctionEntry) (dbg_templates : list DbgTemplate) (source : str)
    (source_name : option str) (index : nat) (ops : list Opcode) : option SourceMap :=
  match ops with
  | [] => Some []
  | op :: rest =>
      '(s, e) ← opcode_span op functions dbg_templates (as_u32 index);
      let '(line, column) := Machine.line_column_for_offset source (N.to_nat s) in
      rest' ← synthesize_loop functions dbg_templates source source_name (S index) rest;
      Some (mkOpcodeSource (as_u32 index) s e line column source_name :: rest')
  end.

Definition synthesize_source_map (ops : list Opcode) (functions : list FunctionEntry) (dbg_templates : list DbgTemplate)
    (source : str) (source_name : option str) : option SourceMap :=
  match synthesize_loop functions dbg_templates source source_name 0 ops with
  | Some (e :: entries) => Some (e :: entries)
  | _ => None
  end.

(** [refresh_viewer_metadata]: [VERSION] is the one of the format. *)
Definition VERSION : N := 3.

Section refresh.
Context `{BuiltinTable} `{RustFmt}.

Definition refresh_viewer_metadata (bc : Bytecode) : Bytecode :=
  let info := compile_info bc in
  let info' := mkCompileInfo VERSION (ci_debug_level info) (num_locals bc) (ci_compiler_version info) (ci_target info)
                 (ci_build_profile info) (ci_source_hash info) (ci_module_hash info) in
  let sources' := match sources bc with [] => derive_sources (source_map bc) | _ => sources bc end in
  let functions' := populate_function_ranges (functions bc) (as_u32 (length (opcodes bc))) in
  let '(spans', pc_spans', lines') := derive_source_tables (source_map bc) in
  mkBytecode (opcodes bc) (constants bc) (num_locals bc) (type_registry bc) (error_templates bc) (dbg_templates bc)
    (callable_templates bc) functions' (source_map bc) (docs bc) (signatures bc) info'
    (derive_labels (opcodes bc) functions') (derive_imports (opcodes bc) functions')
    (derive_exports functions' (docs bc)) (derive_literals (constants bc)) lines' spans' sources' pc_spans'
    (runtime_process_specs bc) (runtime_boot_plan bc).

End refresh.

End Tables.

(** ** The container *)

Abbreviation bytes := (list N).

(** [bincode::serialize] and [bincode::deserialize] at one type; errors are their
    messages. *)
Class Codec (T : Type) : Type := {
  serialize : T → Result str bytes;
  deserialize : bytes → Result str T;
}.

(** What the crate documents: deserializing what was serialized gives it back. *)
Class CodecLaw (T : Type) `{Codec T} : Prop :=
  codec_roundtrip : ∀ (x : T) b, serialize x = Ok b → deserialize b = Ok x.

(** The types that are stored. *)
Class Bincode : Type := {
  codec_opcodes :: Codec (list Opcode);
  codec_constants :: Codec (list Constant);
  codec_functions :: Codec (list FunctionEntry);
  codec_types :: Codec (list TypeEntry);
  codec_errors :: Codec (list ErrTemplate);
  codec_dbgs :: Codec (list DbgTemplate);
  codec_callables :: Codec (list CallableTemplate);
  codec_info :: Codec CompileInfo;
  codec_labels :: Codec (list LabelEntry);
  codec_imports :: Codec (list ImportEntry);
  codec_exports :: Codec (list ExportEntry);
  codec_literals :: Codec (list LiteralEntry);
  codec_lines :: Codec (list LineEntry);
  codec_spans :: Codec (list SpanEntry);
  codec_sources :: Codec (list SourceFileEntry);
  codec_pc_spans :: Codec (list PcSpanEntry);
  codec_docs :: Codec (list DocEntry);
  codec_signatures :: Codec (list SignatureEntry);
  codec_specs :: Codec (list RuntimeProcessSpec);
  codec_boot :: Codec RuntimeBootPlan;
}.

Class BincodeLaws `{Bincode} : Prop := {
  law_opcodes :: CodecLaw (list Opcode);
  law_constants :: CodecLaw (list Constant);
  law_functions :: CodecLaw (list FunctionEntry);
  law_types :: CodecLaw (list TypeEntry);
  law_errors :: CodecLaw (list ErrTemplate);
  law_dbgs :: CodecLaw (list DbgTemplate);
  law_callables :: CodecLaw (list CallableTemplate);
  law_info :: CodecLaw CompileInfo;
  law_labels :: CodecLaw (list LabelEntry);
  law_imports :: CodecLaw (list ImportEntry);
  law_exports :: CodecLaw (list ExportEntry);
  law_literals :: CodecLaw (list LiteralEntry);
  law_lines :: CodecLaw (list LineEntry);
  law_spans :: CodecLaw (list SpanEntry);
  law_sources :: CodecLaw (list SourceFileEntry);
  law_pc_spans :: CodecLaw (list PcSpanEntry);
  law_docs :: CodecLaw (list DocEntry);
  law_signatures :: CodecLaw (list SignatureEntry);
  law_specs :: CodecLaw (list RuntimeProcessSpec);
  law_boot :: CodecLaw RuntimeBootPlan;
}.

Inductive BytecodeFormatError : Type :=
| HeaderTooShort
| InvalidMagic (magic : bytes)
| UnsupportedVersion (version : N)
| TruncatedChunkHeader
| TruncatedChunkData
| MissingRequiredChunk (tag : str)
| DuplicateChunkTag (tag : str)
| UnknownChunkTag (tag : str)
| EncodeFailed (message : str)
| DecodeFailed (message : str).

Record EldrHeader : Type := mkEldrHeader {
  eh_magic : str;
  eh_version : N;
  eh_debug_level : N;
  eh_num_chunks : N;
}.

Record EldrChunkInfo : Type := mkEldrChunk {
  ec_tag : str;
  ec_size : N;
  ec_payload_offset : nat;
  ec_padded_size : nat;
}.

Record EldrInspect : Type := mkEldrInspect {
  ei_header : EldrHeader;
  ei_chunks : list EldrChunkInfo;
  ei_bytecode : Bytecode;
}.

Record ParsedContainer : Type := mkParsed {
  pd_header : EldrHeader;
  pd_chunks : list EldrChunkInfo;
  pd_payloads : gmap str bytes;
}.

Module Container.
Import Tables.

Abbreviation FResult := (Try BytecodeFormatError).

(** ** Bytes *)

(** [u32::to_le_bytes] and [u32::from_le_bytes]. *)
Definition to_le_bytes (n : N) : bytes :=
  [n `mod` 256; (n / 256) `mod` 256; (n / 65536) `mod` 256; (n / 16777216) `mod` 256]%N.
Definition from_le_bytes (b0 b1 b2 b3 : N) : N := (b0 + 256 * b1 + 65536 * b2 + 16777216 * b3)%N.

(** [(len + 3) & !3]. *)
Definition align4 (len : nat) : nat := 4 * ((len + 3) / 4).

(** [Vec::resize(len, 0)]. *)
Definition resize_bytes (len : nat) (b : bytes) : bytes := resize len 0%N b.

Definition in_range (lo hi b : N) : bool := ((lo <=? b) && (b <=? hi))%N.

(** [String::from_utf8_lossy]: every maximal invalid prefix of a character becomes one
    replacement character.  [utf8_step] gives the first character and how many bytes
    it takes. *)
Definition REPLACEMENT : char := 65533%N.

Definition continuation_range (b0 : N) : N * N :=
  if (b0 =? 224)%N then (160, 191)%N
  else if (b0 =? 237)%N then (128, 159)%N
  else if (b0 =? 240)%N then (144, 191)%N
  else if (b0 =? 244)%N then (128, 143)%N
  else (128, 191)%N.

Definition utf8_step (b0 : N) (rest : bytes) : char * nat :=
  let '(lo, hi) := continuation_range b0 in
  if (b0 <? 128)%N then (b0, 1)
  else if in_range 194 223 b0 then
    match rest with
    | b1 :: _ => if in_range lo hi b1 then (((b0 - 192) * 64 + (b1 - 128))%N, 2) else (REPLACEMENT, 1)
    | [] => (REPLACEMENT, 1)
    end
  else if in_range 224 239 b0 then
    match rest with
    | b1 :: rest1 =>
        if in_range lo hi b1 then
          match rest1 with
          | b2 :: _ =>
              if in_range 128 191 b2 then (((b0 - 224) * 4096 + (b1 - 128) * 64 + (b2 - 128))%N, 3) else (REPLACEMENT, 2)
          | [] => (REPLACEMENT, 2)
          end
        else (REPLACEMENT, 1)
    | [] => (REPLACEMENT, 1)
    end
  else if in_range 240 244 b0 then
    match rest with
    | b1 :: rest1 =>
        if in_range lo hi b1 then
          match rest1 with
          | b2 :: rest2 =>
              if in_range 128 191 b2 then
                match rest2 with
                | b3 :: _ =>
                    if in_range 128 191 b3 then
                      (((b0 - 240) * 262144 + (b1 - 128) * 4096 + (b2 - 128) * 64 + (b3 - 128))%N, 4)
                    else (REPLACEMENT, 3)
                | [] => (REPLACEMENT, 3)
                end
              else (REPLACEMENT, 2)
          | [] => (REPLACEMENT, 2)
          end
        else (REPLACEMENT, 1)
    | [] => (REPLACEMENT, 1)
    end
  else (REPLACEMENT, 1).

(** The fuel is the number of bytes: every step takes at least one. *)
Fixpoint utf8_lossy_loop (fuel : nat) (b : bytes) : str :=
  match fuel, b with
  | S fuel', b0 :: rest => let '(c, n) := utf8_step b0 rest in c :: utf8_lossy_loop fuel' (drop n b)
  | _, _ => []
  end.
Definition from_utf8_lossy (b : bytes) : str := utf8_lossy_loop (length b) b.

(** ** Writing *)

Definition MAGIC : bytes := lit "ELDR".
Definition HEADER_LEN : nat := 16.
Definition CHUNK_HEADER_LEN : nat := 8.

Definition serialize_chunk {T} `{Codec T} (value : T) : FResult bytes :=
  lift_res (map_err EncodeFailed (serialize value)).

Definition checked_payload_len (len : nat) : FResult N :=
  match u32_try_from len with Some n => Ok n | None => fail (EncodeFailed (lit "payload too large")) end.

(** The payloads behind the header, each padded to four bytes. *)
Definition append_payload (out payload : bytes) : bytes :=
  let out' := out ++ payload in resize_bytes (align4 (length out')) out'.

Definition table_entry (chunk : bytes * bytes) : FResult bytes :=
  let? n := checked_payload_len (length chunk.2) in Ok (chunk.1 ++ to_le_bytes n).

Definition write_container (debug_level : N) (chunks : list (bytes * bytes)) : FResult bytes :=
  let header := MAGIC ++ to_le_bytes VERSION ++ to_le_bytes debug_level ++ to_le_bytes (as_u32 (length chunks)) in
  let? table := map_result table_entry chunks in
  Ok (foldl append_payload (header ++ concat table) chunks.*2).

(** ** Reading *)

(** [&bytes[i..j]]: panics when the range is not inside the slice. *)
Definition slice_run (b : bytes) (i j : nat) : FResult bytes :=
  if decide (i ≤ j ∧ j ≤ length b) then Ok (slice b i j) else Err (Panicked PIndex).

Definition index4 (b : bytes) (i : nat) : FResult (N * N * N * N) :=
  let? b0 := lift_run (index b i) in
  let? b1 := lift_run (index b (i + 1)) in
  let? b2 := lift_run (index b (i + 2)) in
  let? b3 := lift_run (index b (i + 3)) in
  Ok (b0, b1, b2, b3).

Definition read_u32 (b : bytes) (i : nat) : FResult N :=
  let? '(b0, b1, b2, b3) := index4 b i in Ok (from_le_bytes b0 b1 b2 b3).

(** The loop over the chunk table. *)
Fixpoint read_table (b : bytes) (table_offset : nat) (n : nat) : FResult (list (bytes * N)) :=
  match n with
  | O => Ok []
  | S n' =>
      if decide (length b < table_offset + CHUNK_HEADER_LEN) then fail TruncatedChunkHeader
      else
        let? '(t0, t1, t2, t3) := index4 b table_offset in
        let? size := read_u32 b (table_offset + 4) in
        let? rest := read_table b (table_offset + CHUNK_HEADER_LEN) n' in
        Ok (([t0; t1; t2; t3], size) :: rest)
  end.

Definition required_tags : list str :=
  lit <$> ["Code"; "Cnst"; "Func"; "Type"; "ErrT"; "DbgT"; "CalT"; "CInf"; "LblT"; "ImpT"; "ExpT";
           "LitT"; "Line"; "SpnT"; "SrcP"; "PcSp"; "Proc"; "Boot"]%string.

Definition is_known_chunk_tag (tag : str) : bool :=
  bool_decide (tag ∈ required_tags ++ [lit "Docs"; lit "SigT"]).

(** The loop over the payloads. *)
Fixpoint read_payloads (b : bytes) (payload_offset : nat) (raw : list (bytes * N)) (payloads : gmap str bytes)
    (chunks : list EldrChunkInfo) : FResult (gmap str bytes * list EldrChunkInfo) :=
  match raw with
  | [] => Ok (payloads, chunks)
  | (tag_bytes, size) :: rest =>
      if decide (length b < payload_offset + N.to_nat size) then fail TruncatedChunkData
      else
        let tag := from_utf8_lossy tag_bytes in
        if negb (is_known_chunk_tag tag) then fail (UnknownChunkTag tag)
        else if decide (is_Some (payloads !! tag)) then fail (DuplicateChunkTag tag)
        else
          let? payload := slice_run b payload_offset (payload_offset + N.to_nat size) in
          let padded_size := align4 (N.to_nat size) in
          read_payloads b (payload_offset + padded_size) rest (<[tag := payload]> payloads)
            (chunks ++ [mkEldrChunk tag size payload_offset padded_size])
  end.

Definition require_tag (payloads : gmap str bytes) (required : str) : FResult unit :=
  if decide (is_Some (payloads !! required)) then Ok tt else fail (MissingRequiredChunk required).

Definition parse_container (b : bytes) : FResult ParsedContainer :=
  if decide (length b < HEADER_LEN) then fail HeaderTooShort
  else
    let? '(m0, m1, m2, m3) := index4 b 0 in
    let magic := [m0; m1; m2; m3] in
    if decide (magic ≠ MAGIC) then fail (InvalidMagic magic)
    else
      let? version := read_u32 b 4 in
      if decide (version ≠ VERSION) then fail (UnsupportedVersion version)
      else
        let? debug_level := read_u32 b 8 in
        let? num_chunks := read_u32 b 12 in
        let table_len := CHUNK_HEADER_LEN * N.to_nat num_chunks in
        if decide (length b < HEADER_LEN + table_len) then fail TruncatedChunkHeader
        else
          let? raw := read_table b HEADER_LEN (N.to_nat num_chunks) in
          let? '(payloads, chunks) := read_payloads b (HEADER_LEN + table_len) raw ∅ [] in
          let? _ := for_each (require_tag payloads) required_tags in
          Ok (mkParsed (mkEldrHeader (from_utf8_lossy magic) version debug_level num_chunks) chunks payloads).

Definition decode_failed {A} (m : Result str A) : FResult A := lift_res (map_err DecodeFailed m).

Definition deserialize_required {T} `{Codec T} (payloads : gmap str bytes) (tag : str) : FResult T :=
  match payloads !! tag with
  | None => fail (MissingRequiredChunk tag)
  | Some payload => decode_failed (deserialize payload)
  end.

Definition deserialize_optional {T} `{Codec T} (payloads : gmap str bytes) (tag : str) : FResult (option T) :=
  match payloads !! tag with
  | None => Ok None
  | Some payload => let? x := decode_failed (deserialize payload) in Ok (Some x)
  end.

(** ** Bytecode *)

Definition type_registry_message (e : TypeRegistry.TypeRegistryError) : str :=
  match e with
  | TypeRegistry.PrivateFlagsLength name flags fields =>
      lit "TypeRegistry entry " ++ name ++ lit " private_flags length " ++ fmt_nat flags
      ++ lit " does not match field_names length " ++ fmt_nat fields
  | TypeRegistry.ReservedTag tag => lit "reserved result tag reused in TypeRegistry: " ++ fmt_N tag
  | TypeRegistry.DuplicateTag tag => lit "duplicate type tag in TypeRegistry: " ++ fmt_N tag
  | TypeRegistry.DuplicateName name previous =>
      lit "duplicate type name in TypeRegistry: " ++ name ++ lit " conflicts with " ++ previous
  end.

(** A registry is stored as its entries and validated when it is read. *)
#[export] Instance TypeRegistry_codec `{Codec (list TypeEntry)} : Codec TypeRegistry :=
  {| serialize r := serialize (TypeRegistry.entries r);
     deserialize b :=
       let? es := deserialize b in map_err type_registry_message (TypeRegistry.try_from_entries es) |}.

Section bytecode.
Context `{BuiltinTable} `{RustFmt} `{Bincode}.

Definition chunk {T} `{Codec T} (tag : string) (value : T) : FResult (bytes * bytes) :=
  let? payload := serialize_chunk value in Ok (lit tag, payload).

(** A chunk that is left out when the list is empty. *)
Definition optional_chunk {T} `{Codec (list T)} (tag : string) (values : list T) : FResult (list (bytes * bytes)) :=
  match values with
  | [] => Ok []
  | _ => let? c := chunk tag values in Ok [c]
  end.

Definition required_chunks (bc : Bytecode) : FResult (list (bytes * bytes)) :=
  let? code := chunk "Code" (opcodes bc) in
  let? consts := chunk "Cnst" (constants bc) in
  let? funcs := chunk "Func" (functions bc) in
  let? types := chunk "Type" (type_registry bc) in
  let? errors := chunk "ErrT" (error_templates bc) in
  let? dbgs := chunk "DbgT" (dbg_templates bc) in
  let? callables := chunk "CalT" (callable_templates bc) in
  let? info := chunk "CInf" (compile_info bc) in
  let? labels := chunk "LblT" (labels bc) in
  let? imports := chunk "ImpT" (imports bc) in
  let? exports := chunk "ExpT" (exports bc) in
  let? literals := chunk "LitT" (literals bc) in
  let? lines := chunk "Line" (lines bc) in
  let? spans := chunk "SpnT" (spans bc) in
  let? sources := chunk "SrcP" (sources bc) in
  let? pc_spans := chunk "PcSp" (pc_spans bc) in
  let? specs := chunk "Proc" (runtime_process_specs bc) in
  let? boot := chunk "Boot" (runtime_boot_plan bc) in
  Ok [code; consts; funcs; types; errors; dbgs; callables; info; labels; imports; exports; literals; lines; spans;
      sources; pc_spans; specs; boot].

Definition encode (bc : Bytecode) : FResult bytes :=
  let bytecode := refresh_viewer_metadata bc in
  let? required := required_chunks bytecode in
  let? docs := optional_chunk "Docs" (docs bytecode) in
  let? signatures := optional_chunk "SigT" (signatures bytecode) in
  write_container (ci_debug_level (compile_info bytecode)) (required ++ docs ++ signatures).

Definition decode_payloads (payloads : gmap str bytes) : FResult Bytecode :=
  let? ops := deserialize_required payloads (lit "Code") in
  let? constants := deserialize_required payloads (lit "Cnst") in
  let? functions := deserialize_required payloads (lit "Func") in
  let? registry := deserialize_required payloads (lit "Type") in
  let? errors := deserialize_required payloads (lit "ErrT") in
  let? dbgs := deserialize_required payloads (lit "DbgT") in
  let? callables := deserialize_required payloads (lit "CalT") in
  let? info := deserialize_required payloads (lit "CInf") in
  let? labels := deserialize_required payloads (lit "LblT") in
  let? imports := deserialize_required payloads (lit "ImpT") in
  let? exports := deserialize_required payloads (lit "ExpT") in
  let? literals := deserialize_required payloads (lit "LitT") in
  let? lines := deserialize_required payloads (lit "Line") in
  let? spans := deserialize_required payloads (lit "SpnT") in
  let? sources := deserialize_required payloads (lit "SrcP") in
  let? pc_spans := deserialize_required payloads (lit "PcSp") in
  let? docs := deserialize_optional payloads (lit "Docs") in
  let? signatures := deserialize_optional payloads (lit "SigT") in
  let? specs := deserialize_required payloads (lit "Proc") in
  let? boot := deserialize_required payloads (lit "Boot") in
  Ok (mkBytecode ops constants (ci_num_locals info) registry errors dbgs callables functions
        (rebuild_source_map spans pc_spans) (default [] docs) (default [] signatures) info labels imports exports literals
        lines spans sources pc_spans specs boot).

Definition decode (b : bytes) : FResult Bytecode :=
  let? parsed := parse_container b in decode_payloads (pd_payloads parsed).

Definition inspect (b : bytes) : FResult EldrInspect :=
  let? parsed := parse_container b in
  let? bytecode := decode_payloads (pd_payloads parsed) in
  Ok (mkEldrInspect (pd_header parsed) (pd_chunks parsed) bytecode).

End bytecode.

End Container.
