(* ===== verification/ContainerProps.v ===== *)
(** * Properties of the [.eldr] format

    Reading never goes out of bounds, and reading what was written gives the program
    back with its viewer tables refreshed; writing that again gives the same bytes. *)

From S2P Require Import Prelude Names ListHandle Value TypeRegistry Ir FunctionTable RuntimeError ParseError.
From S2P Require Import OperandStack StringLiteral Display ErrorSchema ProcessRuntime Machine Loader Container.

Module ContainerProps.
Import Tables Container.

(** ** Bytes *)

Lemma from_to_le_bytes n b0 b1 b2 b3 : (n ≤ u32_max)%N → to_le_bytes n = [b0; b1; b2; b3] → from_le_bytes b0 b1 b2 b3 = n.
Proof.
  unfold u32_max, to_le_bytes, from_le_bytes. intros Hn [= <- <- <- <-].
  pose proof (N.div_mod n 256). pose proof (N.div_mod (n / 256) 256). pose proof (N.div_mod (n / 256 / 256) 256).
  rewrite (N.Div0.div_div n 256 256) in *. rewrite (N.Div0.div_div n (256 * 256) 256) in *.
  change (256 * 256)%N with 65536%N in *. change (65536 * 256)%N with 16777216%N in *.
  assert (n / 16777216 < 256)%N by (apply N.Div0.div_lt_upper_bound; lia).
  rewrite (N.mod_small (n / 16777216) 256) by done. lia.
Qed.

Lemma align4_ge n : n ≤ align4 n < n + 4.
Proof. unfold align4. pose proof (Nat.div_mod_eq (n + 3) 4). pose proof (Nat.mod_upper_bound (n + 3) 4). lia. Qed.

Lemma align4_add n k : n `mod` 4 = 0 → align4 (n + k) = n + align4 k.
Proof.
  intros Hn. apply Nat.Div0.mod_divides in Hn as [m ->]. unfold align4.
  replace (4 * m + k + 3) with (k + 3 + m * 4) by lia. rewrite Nat.div_add by lia. lia.
Qed.

Lemma align4_mod n : align4 n `mod` 4 = 0.
Proof. unfold align4. rewrite Nat.mul_comm. apply Nat.Div0.mod_mul. Qed.

(** A payload with its padding. *)
Definition padded (p : bytes) : bytes := p ++ replicate (align4 (length p) - length p) 0%N.

Lemma length_padded p : length (padded p) = align4 (length p).
Proof. unfold padded. rewrite length_app, length_replicate. pose proof (align4_ge (length p)). lia. Qed.

Lemma append_payload_padded out p : length out `mod` 4 = 0 → append_payload out p = out ++ padded p.
Proof.
  intros Hout. unfold append_payload, resize_bytes, padded. rewrite length_app, align4_add by done.
  pose proof (align4_ge (length p)). rewrite resize_ge by (rewrite length_app; lia). rewrite <- app_assoc, length_app.
  do 3 f_equal. lia.
Qed.

Lemma append_payloads ps : ∀ out, length out `mod` 4 = 0 → foldl append_payload out ps = out ++ concat (padded <$> ps).
Proof.
  induction ps as [|p ps IH]; intros out Hout; cbn -[append_payload padded]; [by rewrite app_nil_r|].
  rewrite append_payload_padded by done. rewrite IH.
  - by rewrite <- app_assoc.
  - rewrite length_app, length_padded. pose proof (align4_mod (length p)) as Hp.
    apply Nat.Div0.mod_divides in Hout as [a ->], Hp as [b ->]. rewrite <- Nat.mul_add_distr_l, Nat.mul_comm.
    apply Nat.Div0.mod_mul.
Qed.

(** ** Reading back a table *)

Lemma index_of_drop {E} (b : bytes) off (i : nat) d x :
  drop off b = d → d !! i = Some x → lift_run (index b (off + i)) = (Ok x : Try E N).
Proof. intros Hd Hx. unfold index. by rewrite (lookup_of_drop _ _ i _ Hd), Hx. Qed.

Lemma index4_of_drop (b : bytes) off b0 b1 b2 b3 rest :
  drop off b = b0 :: b1 :: b2 :: b3 :: rest → index4 b off = Ok (b0, b1, b2, b3).
Proof.
  intros Hd. unfold index4. pose proof (index_of_drop (E := BytecodeFormatError) _ _ 0 _ b0 Hd eq_refl) as H0.
  rewrite Nat.add_0_r in H0. rewrite H0. cbn [rbind].
  rewrite (index_of_drop _ _ 1 _ b1 Hd eq_refl). cbn [rbind]. rewrite (index_of_drop _ _ 2 _ b2 Hd eq_refl). cbn [rbind].
  by rewrite (index_of_drop _ _ 3 _ b3 Hd eq_refl).
Qed.

Lemma read_u32_of_drop (b : bytes) off n rest : (n ≤ u32_max)%N → drop off b = to_le_bytes n ++ rest → read_u32 b off = Ok n.
Proof.
  intros Hn Hd. unfold read_u32. rewrite (index4_of_drop _ _ _ _ _ _ _ Hd). cbn [rbind]. f_equal. by apply from_to_le_bytes.
Qed.

(** A chunk as the table shows it. *)
Definition raw_chunk (c : bytes * bytes) : bytes * N := (c.1, N.of_nat (length c.2)).

Lemma table_entry_Ok c e : table_entry c = Ok e → e = c.1 ++ to_le_bytes (N.of_nat (length c.2)) ∧ (N.of_nat (length c.2) ≤ u32_max)%N.
Proof.
  unfold table_entry, checked_payload_len. destruct (u32_try_from _) as [n|] eqn:Hn; [|done].
  apply u32_try_from_Some in Hn as [-> ?]. cbn. by intros [= <-].
Qed.

Lemma read_table_back (b : bytes) rest chunks table :
  Forall2 (λ c e, table_entry c = Ok e) chunks table → Forall (λ c, length c.1 = 4) chunks →
  ∀ off, drop off b = concat table ++ rest →
  read_table b off (length chunks) = Ok (raw_chunk <$> chunks).
Proof.
  induction 1 as [|[tag p] e chunks table [-> Hlen]%table_entry_Ok _ IH]; intros Htags off Hd; cbn; [done|].
  apply Forall_cons in Htags as [Htag Htags]. cbn in Htag, Hd, Hlen.
  destruct tag as [|t0 [|t1 [|t2 [|t3 []]]]]; try done. cbn in Hd.
  rewrite decide_False.
  2: { rewrite (length_of_drop _ _ _ Hd) by done. cbn. unfold CHUNK_HEADER_LEN. lia. }
  rewrite (index4_of_drop _ _ _ _ _ _ _ Hd). cbn [rbind].
  rewrite (read_u32_of_drop b (off + 4) (N.of_nat (length p)) (concat table ++ rest)).
  2: done.
  2: { by apply (drop_of_drop _ [t0; t1; t2; t3] _ _ _ Hd). }
  cbn [rbind]. rewrite IH; [done..|].
  by apply (drop_of_drop _ ([t0; t1; t2; t3] ++ to_le_bytes (N.of_nat (length p))) _ _ _ Hd).
Qed.

(** ** Reading back the payloads *)

Definition good_tag (t : bytes) : Prop := length t = 4 ∧ from_utf8_lossy t = t ∧ is_known_chunk_tag t = true.
#[local] Instance good_tag_dec t : Decision (good_tag t).
Proof. unfold good_tag. apply _. Defined.

Definition payload_map (chunks : list (bytes * bytes)) (m : gmap str bytes) : gmap str bytes :=
  foldl (λ m '(t, p), <[t := p]> m) m chunks.

Lemma read_payloads_back (b : bytes) chunks : ∀ off m infos,
  Forall good_tag chunks.*1 → NoDup chunks.*1 → (∀ t, t ∈ chunks.*1 → m !! t = None) →
  off ≤ length b → drop off b = concat (padded <$> chunks.*2) →
  ∃ infos', read_payloads b off (raw_chunk <$> chunks) m infos = Ok (payload_map chunks m, infos').
Proof.
  induction chunks as [|[tag p] chunks IH]; intros off m infos Hgood Hnd Hfresh Hoff Hd;
    cbn -[from_utf8_lossy is_known_chunk_tag padded align4]; [eauto|].
  cbn -[padded] in Hgood, Hnd, Hfresh, Hd. apply Forall_cons in Hgood as [(Hlen & Hutf & Hknown) Hgood].
  apply NoDup_cons in Hnd as [Hni Hnd]. rewrite Nat2N.id, Hutf, Hknown. cbn -[align4].
  assert (length b = off + (align4 (length p) + length (concat (padded <$> chunks.*2)))) as Hb.
  { rewrite <- length_padded, <- length_app, <- Hd, length_drop. lia. }
  pose proof (align4_ge (length p)). rewrite decide_False by lia.
  rewrite decide_False by (rewrite Hfresh by (by left); by intros [? ?]).
  unfold slice_run. rewrite decide_True by lia. cbn -[align4].
  assert (slice b off (off + length p) = p) as ->.
  { unfold slice. rewrite Hd. unfold padded. rewrite <- app_assoc.
    replace (off + length p - off) with (length p) by lia. by rewrite take_app_length. }
  apply IH; [done..| |lia|].
  - intros t Ht. rewrite lookup_insert_ne by (intros ->; done). apply Hfresh. by right.
  - eapply drop_of_drop; [exact Hd|]. by rewrite length_padded.
Qed.

Lemma payload_map_lookup chunks : ∀ m, NoDup chunks.*1 →
  (∀ t p, (t, p) ∈ chunks → payload_map chunks m !! t = Some p) ∧
  (∀ t, t ∉ chunks.*1 → payload_map chunks m !! t = m !! t).
Proof.
  induction chunks as [|[tag p] chunks IH]; intros m Hnd; cbn in *.
  { split; [by intros t p ?%elem_of_nil|done]. }
  apply NoDup_cons in Hnd as [Hni Hnd]. destruct (IH (<[tag := p]> m) Hnd) as [Hin Hout]. split.
  - intros t q [[= -> ->]|Hq]%elem_of_cons; [|by apply Hin]. rewrite Hout by done. apply lookup_insert_eq.
  - intros t Ht. rewrite not_elem_of_cons in Ht. destruct Ht as [Hne Ht]. rewrite Hout by done.
    by apply lookup_insert_ne.
Qed.

(** Reading a written container finds every chunk under its tag. *)
Lemma parse_written debug chunks b :
  write_container debug chunks = Ok b → (debug ≤ u32_max)%N → (N.of_nat (length chunks) ≤ u32_max)%N →
  Forall good_tag chunks.*1 → NoDup chunks.*1 → Forall (λ t, t ∈ chunks.*1) required_tags →
  ∃ parsed, parse_container b = Ok parsed ∧ pd_payloads parsed = payload_map chunks ∅ ∧
    eh_debug_level (pd_header parsed) = debug.
Proof.
  unfold write_container. intros (table & Ht & Hok)%rbind_Ok Hdebug Hlen Hgood Hnd Hreq.
  assert (b = foldl append_payload ((MAGIC ++ to_le_bytes VERSION ++ to_le_bytes debug ++
    to_le_bytes (as_u32 (length chunks))) ++ concat table) chunks.*2) as -> by congruence. clear Hok.
  apply map_result_Ok in Ht. rewrite as_u32_small by done.
  assert (Forall (λ c : bytes * bytes, length c.1 = 4) chunks) as Htags.
  { rewrite Forall_fmap in Hgood. eapply Forall_impl; [exact Hgood|]. by intros c (? & _). }
  assert (length (concat table) = 8 * length chunks) as Htable.
  { clear -Ht Htags. induction Ht as [|c e chunks table [-> _]%table_entry_Ok _ IH]; [done|].
    apply Forall_cons in Htags as [Hc Htags]. cbn. rewrite !length_app, IH, Hc by done. cbn. lia. }
  rewrite append_payloads.
  2: { rewrite length_app, Htable. change (length (MAGIC ++ _)) with 16.
       replace (16 + 8 * length chunks) with ((4 + 2 * length chunks) * 4) by lia. apply Nat.Div0.mod_mul. }
  set (header := MAGIC ++ to_le_bytes VERSION ++ to_le_bytes debug ++ to_le_bytes (N.of_nat (length chunks))).
  set (b := (header ++ concat table) ++ concat (padded <$> chunks.*2)).
  assert (length b = 16 + 8 * length chunks + length (concat (padded <$> chunks.*2))) as Hb.
  { unfold b. rewrite !length_app, Htable. done. }
  assert (b = MAGIC ++ to_le_bytes VERSION ++ to_le_bytes debug ++ to_le_bytes (N.of_nat (length chunks)) ++
    concat table ++ concat (padded <$> chunks.*2)) as Hbeq by (unfold b, header; by rewrite <- !app_assoc).
  unfold parse_container. unfold HEADER_LEN, CHUNK_HEADER_LEN in *. rewrite decide_False by lia.
  rewrite (index4_of_drop b 0 69 76 68 82 (drop 4 b)) by (rewrite Hbeq; reflexivity). cbn [rbind].
  rewrite decide_False by (intros Hx; by apply Hx).
  rewrite (read_u32_of_drop b 4 VERSION (drop 8 b)) by (done || (rewrite Hbeq; reflexivity)). cbn [rbind].
  rewrite decide_False by (intros Hx; by apply Hx).
  rewrite (read_u32_of_drop b 8 debug (drop 12 b)) by (done || (rewrite Hbeq; reflexivity)). cbn [rbind].
  rewrite (read_u32_of_drop b 12 (N.of_nat (length chunks)) (drop 16 b)) by (done || (rewrite Hbeq; reflexivity)).
  cbn [rbind]. rewrite Nat2N.id, decide_False by lia.
  rewrite (read_table_back b (concat (padded <$> chunks.*2)) chunks table Ht Htags 16) by (rewrite Hbeq; reflexivity).
  cbn [rbind].
  destruct (read_payloads_back b chunks (16 + 8 * length chunks) ∅ [] Hgood Hnd) as (infos & Hread);
    [done|lia|unfold b; apply drop_app_length'; rewrite length_app, Htable; done|].
  rewrite Hread. cbn [rbind].
  assert (for_each (require_tag (payload_map chunks ∅)) required_tags = Ok tt) as ->.
  { apply for_each_Ok. eapply Forall_impl; [exact Hreq|]. intros t ([t' p] & -> & Hp)%list_elem_of_fmap. cbn.
    unfold require_tag. destruct (payload_map_lookup chunks ∅ Hnd) as [Hin _]. by rewrite (Hin _ _ Hp), decide_True. }
  cbn [rbind]. eexists. split; [reflexivity|]. done.
Qed.

(** ** Reading is safe *)

Definition within (b : bytes) (c : EldrChunkInfo) : Prop := ec_payload_offset c + N.to_nat (ec_size c) ≤ length b.
Definition payload_of (b : bytes) (c : EldrChunkInfo) : bytes :=
  slice b (ec_payload_offset c) (ec_payload_offset c + N.to_nat (ec_size c)).
Definition before (c d : EldrChunkInfo) : Prop := ec_payload_offset c + N.to_nat (ec_size c) ≤ ec_payload_offset d.

(** What the loop over the payloads maintains: the chunks read so far lie one after the
    other between [base] and [off], and the map holds exactly their payloads. *)
Record payloads_ok (b : bytes) (base off : nat) (m : gmap str bytes) (chunks : list EldrChunkInfo) : Prop := mkPayloadsOk {
  po_base : base ≤ off;
  po_chunk : ∀ c, c ∈ chunks → within b c ∧ base ≤ ec_payload_offset c ∧
    ec_payload_offset c + N.to_nat (ec_size c) ≤ off ∧ m !! ec_tag c = Some (payload_of b c);
  po_map : ∀ t p, m !! t = Some p → ∃ c, c ∈ chunks ∧ ec_tag c = t;
  po_sorted : StronglySorted before chunks;
}.

Lemma payloads_ok_snoc b base off m chunks tag size :
  payloads_ok b base off m chunks → off + N.to_nat size ≤ length b → m !! tag = None →
  payloads_ok b base (off + align4 (N.to_nat size)) (<[tag := slice b off (off + N.to_nat size)]> m)
    (chunks ++ [mkEldrChunk tag size off (align4 (N.to_nat size))]).
Proof.
  intros [Hbase Hc Hm Hs] Hlen Hfresh. pose proof (align4_ge (N.to_nat size)). constructor.
  - lia.
  - intros c [Hin|Heq%list_elem_of_singleton]%elem_of_app.
    + destruct (Hc c Hin) as (Hw & Hb & Ho & Hp). split_and!; [done..|lia|].
      rewrite lookup_insert_ne; [done|]. intros ->. congruence.
    + subst c. unfold within, payload_of. cbn [ec_tag ec_size ec_payload_offset]. rewrite lookup_insert_eq.
      split_and!; [lia..|done].
  - intros t p [[<- _]|[_ (c & Hin & Ht)%Hm]]%lookup_insert_Some.
    + eexists. split; [apply elem_of_app; right; by apply list_elem_of_singleton|done].
    + exists c. split; [apply elem_of_app; by left|done].
  - apply StronglySorted_app_2; [|done|repeat constructor].
    intros c d Hin ->%list_elem_of_singleton. destruct (Hc c Hin) as (_ & _ & ? & _). unfold before. cbn. lia.
Qed.

Lemma read_payloads_safe b base raw : ∀ off m chunks, payloads_ok b base off m chunks →
  no_panic (read_payloads b off raw m chunks) ∧
  ∀ m' chunks', read_payloads b off raw m chunks = Ok (m', chunks') → ∃ off', payloads_ok b base off' m' chunks'.
Proof.
  induction raw as [|[tag size] raw IH]; intros off m chunks Hok; cbn -[align4 from_utf8_lossy is_known_chunk_tag].
  { split; [done|]. intros m' chunks' [= <- <-]. eauto. }
  case_decide as Hlen; [done|]. destruct (is_known_chunk_tag _); [|done]. cbn -[align4 from_utf8_lossy].
  case_decide as Hdup; [done|]. unfold slice_run. rewrite decide_True by lia. cbn -[align4 from_utf8_lossy].
  apply IH, payloads_ok_snoc; [done|lia|]. by apply eq_None_not_Some.
Qed.

Lemma index4_safe b i : i + 4 ≤ length b → ∃ x, index4 b i = Ok x.
Proof.
  intros Hi. assert (∀ j, j < length b → ∃ x, lift_run (index b j) = (Ok x : FResult N)) as Hix.
  { intros j Hj. unfold index. destruct (lookup_lt_is_Some_2 b j Hj) as [x ->]. by exists x. }
  unfold index4. destruct (Hix i) as [x0 ->]; [lia|]. destruct (Hix (i + 1)) as [x1 ->]; [lia|].
  destruct (Hix (i + 2)) as [x2 ->]; [lia|]. destruct (Hix (i + 3)) as [x3 ->]; [lia|]. cbn. eauto.
Qed.

Lemma read_u32_safe b i : i + 4 ≤ length b → ∃ n, read_u32 b i = Ok n.
Proof. intros [[[[x0 x1] x2] x3] Hx]%index4_safe. unfold read_u32. rewrite Hx. cbn. eauto. Qed.

Lemma read_table_safe b n : ∀ off, off + 8 * n ≤ length b → ∃ raw, read_table b off n = Ok raw.
Proof.
  induction n as [|n IH]; intros off Hlen; cbn; [eauto|]. unfold CHUNK_HEADER_LEN. rewrite decide_False by lia.
  destruct (index4_safe b off) as [[[[x0 x1] x2] x3] ->]; [lia|]. cbn [rbind].
  destruct (read_u32_safe b (off + 4)) as [size ->]; [lia|]. cbn [rbind].
  destruct (IH (off + 8)) as [raw ->]; [lia|]. cbn. eauto.
Qed.

(** C25: reading a container is safe on every input: no index or slice is out of range,
    whatever the bytes; and when it succeeds, every required chunk is there, the chunks
    lie behind the table, inside the file and one after the other, and the payload under
    a tag is exactly the slice its chunk describes. *)
Theorem parse_container_safe (b : bytes) :
  no_panic (parse_container b) ∧
  ∀ parsed, parse_container b = Ok parsed →
    (∀ t, t ∈ required_tags → is_Some (pd_payloads parsed !! t)) ∧
    StronglySorted before (pd_chunks parsed) ∧
    (∀ c, c ∈ pd_chunks parsed → within b c ∧
      HEADER_LEN + CHUNK_HEADER_LEN * N.to_nat (eh_num_chunks (pd_header parsed)) ≤ ec_payload_offset c ∧
      pd_payloads parsed !! ec_tag c = Some (payload_of b c)) ∧
    (∀ t p, pd_payloads parsed !! t = Some p → ∃ c, c ∈ pd_chunks parsed ∧ ec_tag c = t).
Proof.
  unfold parse_container. case_decide as Hlen; [done|]. unfold HEADER_LEN in *.
  destruct (index4_safe b 0) as [[[[m0 m1] m2] m3] ->]; [lia|]. cbn [rbind]. case_decide; [done|].
  destruct (read_u32_safe b 4) as [version ->]; [lia|]. cbn [rbind]. case_decide; [done|].
  destruct (read_u32_safe b 8) as [debug ->]; [lia|]. cbn [rbind].
  destruct (read_u32_safe b 12) as [num ->]; [lia|]. cbn [rbind]. case_decide as Hlen2; [done|].
  unfold CHUNK_HEADER_LEN in *. destruct (read_table_safe b (N.to_nat num) 16) as [raw ->]; [lia|]. cbn [rbind].
  assert (payloads_ok b (16 + 8 * N.to_nat num) (16 + 8 * N.to_nat num) ∅ []) as Hinit.
  { constructor; [done| | |constructor].
    - by intros c ?%elem_of_nil.
    - intros t p. by rewrite lookup_empty. }
  destruct (read_payloads_safe b _ raw _ _ _ Hinit) as [Hnp Hok].
  destruct (read_payloads _ _ _ _ _) as [[m chunks]|e] eqn:Hread; [|split; [intros p [= ->]; by apply (Hnp p)|done]]. cbn [rbind].
  destruct (for_each _ _) as [[]|[p|e]] eqn:Hreq; cbn [rbind]; [|exfalso|done].
  - split; [done|]. intros parsed [= <-]. cbn [pd_payloads pd_chunks pd_header eh_num_chunks].
    destruct (Hok _ _ eq_refl) as (off' & [_ Hc Hm Hs]). split_and!; [|done| |done].
    + apply for_each_Ok in Hreq. rewrite Forall_forall in Hreq. intros t Ht. specialize (Hreq t Ht).
      unfold require_tag in Hreq. by case_decide.
    + intros c Hin. destruct (Hc c Hin) as (? & ? & _ & ?). done.
  - revert Hreq. induction required_tags as [|t ts IH]; cbn; [done|]. unfold require_tag at 1. by case_decide.
Qed.

(** ** The source map *)

Definition numbered (k : nat) (spans : list SpanEntry) : Prop :=
  ∀ i s, spans !! i = Some s → sp_span_id s = N.of_nat (k + i).

Lemma find_numbered spans id : ∀ k, numbered k spans → k ≤ N.to_nat id →
  find (λ s, bool_decide (sp_span_id s = id)) spans = spans !! (N.to_nat id - k).
Proof.
  induction spans as [|s spans IH]; intros k Hn Hk; cbn; [done|].
  pose proof (Hn 0 s eq_refl) as Hs. rewrite Nat.add_0_r in Hs. rewrite Hs. case_bool_decide as Hid.
  - subst id. by rewrite Nat2N.id, Nat.sub_diag.
  - rewrite (IH (S k)); [|intros i x Hx; rewrite Nat.add_succ_comm; by apply Hn|lia].
    by replace (N.to_nat id - k) with (S (N.to_nat id - S k)) by lia.
Qed.

(** What the loop over the source map maintains. *)
Record tables_ok (t : SourceTables) (es : list OpcodeSource) : Prop := mkTablesOk {
  to_numbered : numbered 0 (st_spans t);
  to_ids : ∀ key id, st_span_ids t !! key = Some id → ∃ s, st_spans t !! N.to_nat id = Some s ∧
    (sp_span_start s, sp_span_end s, sp_line s, sp_column s, sp_source_name s) = key;
  to_bound : length (st_spans t) ≤ length es;
  to_rebuilt : Forall2 (λ p e, rebuild_entry (st_spans t) p = Some e) (st_pc_spans t) es;
}.

Lemma rebuild_entry_numbered spans p : numbered 0 spans → rebuild_entry spans p =
  (λ span, mkOpcodeSource (ps_pc p) (sp_span_start span) (sp_span_end span) (sp_line span) (sp_column span)
             (sp_source_name span)) <$> spans !! N.to_nat (ps_span_id p).
Proof. intros Hn. unfold rebuild_entry. by rewrite (find_numbered _ _ 0 Hn), Nat.sub_0_r by lia. Qed.

Lemma add_source_ok t es e : tables_ok t es → (N.of_nat (length es) ≤ u32_max)%N → tables_ok (add_source t e) (es ++ [e]).
Proof.
  intros [Hn Hids Hb Hr] Hlen. unfold add_source. destruct (st_span_ids t !! span_key e) as [id|] eqn:Hk.
  - destruct (default _ _) as [first last]. destruct (Hids _ _ Hk) as (s & Hs & Hkey). constructor; cbn -[rebuild_entry]; try done.
    + rewrite length_app. lia.
    + apply Forall2_app; [done|]. constructor; [|done]. rewrite rebuild_entry_numbered by done. cbn. rewrite Hs. cbn.
      unfold span_key in Hkey. destruct e. cbn in *. by simplify_eq.
  - destruct (default _ _) as [first last]. cbn. rewrite as_u32_small by lia.
    set (span := mkSpan _ _ _ _ _ _).
    assert (numbered 0 (st_spans t ++ [span])) as Hn'.
    { intros i s [Hi|[Hge Hi]]%lookup_app_Some; [by apply Hn|].
      apply list_lookup_singleton_Some in Hi as [? <-]. cbn. lia. }
    constructor; cbn -[rebuild_entry]; [done|..].
    + intros key id. rewrite lookup_insert_Some. intros [[<- <-]|[_ Hid]].
      * exists span. rewrite Nat2N.id, list_lookup_middle by done. done.
      * destruct (Hids _ _ Hid) as (s & Hs & Hkey). exists s. split; [by apply lookup_app_l_Some|done].
    + rewrite !length_app. cbn. lia.
    + apply Forall2_app.
      * eapply Forall2_impl; [exact Hr|]. intros q x. rewrite !rebuild_entry_numbered by done.
        rewrite !fmap_Some. intros (s & Hs & ->). exists s. split; [by apply lookup_app_l_Some|done].
      * constructor; [|done]. rewrite rebuild_entry_numbered by done. cbn.
        rewrite Nat2N.id, list_lookup_middle by done. cbn. by destruct e.
Qed.

Lemma tables_of_map es : (N.of_nat (length es) ≤ u32_max)%N → tables_ok (foldl add_source empty_tables es) es.
Proof.
  induction es as [|e es IH] using rev_ind; intros Hlen.
  - constructor; cbn; [intros i s Hi; by rewrite lookup_nil in Hi|intros key id Hk; by rewrite lookup_empty in Hk|done|done].
  - rewrite length_app in Hlen. cbn in Hlen. rewrite foldl_app. cbn. apply add_source_ok; [apply IH; lia|lia].
Qed.

Lemma omap_rebuilt spans ps es : Forall2 (λ p e, rebuild_entry spans p = Some e) ps es → omap (rebuild_entry spans) ps = es.
Proof. induction 1 as [|p e ps es Hp _ IH]; cbn; [done|]. by rewrite Hp, IH. Qed.

(** A map without entries is no map. *)
Definition stored_map (m : option SourceMap) : option SourceMap := match m with Some [] => None | _ => m end.

Lemma rebuild_derived m spans pc_spans lines : (N.of_nat (length (default [] m)) ≤ u32_max)%N →
  derive_source_tables m = (spans, pc_spans, lines) → rebuild_source_map spans pc_spans = stored_map m.
Proof.
  destruct m as [es|]; cbn; [|by intros _ [= <- <- _]]. intros Hlen [= <- <- _].
  destruct (tables_of_map es Hlen) as [_ _ _ Hr]. pose proof (Forall2_length _ _ _ Hr) as Hlen'.
  unfold rebuild_source_map. rewrite (omap_rebuilt _ _ _ Hr). destruct es as [|e es].
  { rewrite decide_True; [done|]. by right. }
  rewrite decide_False; [done|]. intros [Hx|Hx]; [|by rewrite Hx in Hlen'].
  destruct (st_pc_spans _) as [|p ps]; [done|]. apply Forall2_cons_1 in Hr as [Hp _].
  rewrite Hx in Hp. by unfold rebuild_entry in Hp.
Qed.

(** ** Refreshing twice *)

(** The position of [e] in [ends], as a function of the table. *)
Definition with_end (ends : list (nat * N)) (p : nat * FunctionEntry) : nat * FunctionEntry :=
  (p.1, match (list_to_map ends : gmap nat N) !! p.1 with Some e => set_end_pc e p.2 | None => p.2 end).

Lemma set_ends_lookup ends : NoDup ends.*1 → ∀ (fns : list FunctionEntry) i,
  foldl (λ fns '(i, e), alter (set_end_pc e) i fns) fns ends !! i
  = (λ e, (with_end ends (i, e)).2) <$> fns !! i.
Proof.
  unfold with_end. induction ends as [|[k x] ends IH]; intros Hnd fns i; cbn.
  { rewrite lookup_empty. by destruct (fns !! i). }
  cbn in Hnd. apply NoDup_cons in Hnd as [Hni Hnd]. rewrite IH by done. cbn.
  destruct (decide (k = i)) as [->|Hne].
  - rewrite list_lookup_alter_eq, lookup_insert_eq. rewrite (not_elem_of_list_to_map_1 _ _ Hni).
    by destruct (fns !! i).
  - by rewrite list_lookup_alter_ne, lookup_insert_ne.
Qed.

Lemma range_ends_fst l n : (range_ends l n).*1 = l.*1.
Proof. induction l as [|[i e] l IH]; cbn; [done|]. by rewrite IH. Qed.

Lemma range_ends_map (g : nat * FunctionEntry → nat * FunctionEntry) l n :
  (∀ p, (g p).1 = p.1) → (∀ p, fe_entry_pc (g p).2 = fe_entry_pc p.2) → range_ends (g <$> l) n = range_ends l n.
Proof.
  intros H1 H2. induction l as [|[i e] l IH]; cbn; [done|]. rewrite IH. pose proof (H1 (i, e)) as Hi. cbn in Hi.
  destruct (g (i, e)) as [j e'] eqn:Hg. cbn in Hi. subst j. do 2 f_equal. destruct l as [|[k x] l]; cbn; [done|].
  pose proof (H2 (k, x)) as Hx. by destruct (g (k, x)).
Qed.

#[local] Instance entry_pc_le_total : Total entry_pc_le.
Proof. intros a b. unfold entry_pc_le. lia. Qed.
#[local] Instance entry_pc_le_trans : Transitive entry_pc_le.
Proof. intros a b c. unfold entry_pc_le. lia. Qed.

Lemma indexed_fst {A} (l : list A) : (imap pair l).*1 = seq 0 (length l).
Proof.
  apply list_eq. intros i. rewrite list_lookup_fmap, list_lookup_imap. destruct (l !! i) as [x|] eqn:Hi; cbn.
  - apply lookup_lt_Some in Hi. by rewrite lookup_seq_lt.
  - apply lookup_ge_None in Hi. by rewrite lookup_seq_ge.
Qed.

Lemma sort_indexed_map (g : nat * FunctionEntry → nat * FunctionEntry) (l : list FunctionEntry) :
  (∀ p, (g p).1 = p.1) → (∀ p, fe_entry_pc (g p).2 = fe_entry_pc p.2) →
  merge_sort entry_pc_le (g <$> imap pair l) = g <$> merge_sort entry_pc_le (imap pair l).
Proof.
  intros H1 H2. apply (StronglySorted_unique_strong entry_pc_le).
  - intros x y Hx Hy Hle Hge. rewrite (merge_sort_Permutation entry_pc_le) in Hx.
    rewrite (merge_sort_Permutation entry_pc_le) in Hy.
    apply list_elem_of_fmap in Hx as (p & -> & Hp), Hy as (q & -> & Hq).
    assert (p.1 = q.1) as Hpq by (rewrite <- (H1 p), <- (H1 q); unfold entry_pc_le in *; lia).
    apply list_elem_of_lookup in Hp as [i Hi], Hq as [j Hj]. rewrite list_lookup_imap in Hi, Hj.
    apply fmap_Some in Hi as (x & Hx & ->), Hj as (y & Hy & ->). cbn in Hpq. by simplify_eq.
  - apply StronglySorted_merge_sort; apply _.
  - pose proof (StronglySorted_merge_sort entry_pc_le (imap pair l)) as Hs.
    induction Hs as [|x k Hs IH Hall]; cbn; constructor; [done|]. rewrite Forall_fmap.
    eapply Forall_impl; [exact Hall|]. intros y. cbn. unfold entry_pc_le. by rewrite !H1, !H2.
  - by rewrite !(merge_sort_Permutation entry_pc_le).
Qed.

Lemma ranges_indices fns n : NoDup (range_ends (merge_sort entry_pc_le (imap pair fns)) n).*1.
Proof.
  rewrite range_ends_fst, (merge_sort_Permutation entry_pc_le), indexed_fst. apply NoDup_seq.
Qed.

Lemma with_end_spec ends p : (with_end ends p).1 = p.1 ∧ fe_entry_pc (with_end ends p).2 = fe_entry_pc p.2.
Proof. unfold with_end. cbn. by destruct (_ !! _). Qed.

Lemma populate_twice fns n : populate_function_ranges (populate_function_ranges fns n) n = populate_function_ranges fns n.
Proof.
  set (ends := range_ends (merge_sort entry_pc_le (imap pair fns)) n).
  assert (imap pair (populate_function_ranges fns n) = with_end ends <$> imap pair fns) as Himap.
  { apply list_eq. intros i. rewrite list_lookup_fmap, !list_lookup_imap. unfold populate_function_ranges.
    rewrite set_ends_lookup by apply ranges_indices. by destruct (fns !! i). }
  unfold populate_function_ranges at 1. rewrite Himap, sort_indexed_map, range_ends_map by (intros; apply with_end_spec).
  fold ends. apply list_eq. intros i. rewrite set_ends_lookup by apply ranges_indices.
  unfold populate_function_ranges. fold ends. rewrite set_ends_lookup by apply ranges_indices.
  destruct (fns !! i) as [e|]; [|done]. cbn. by destruct (list_to_map ends !! i).
Qed.

Lemma derive_tables_stored m : derive_source_tables (stored_map m) = derive_source_tables m.
Proof. by destruct m as [[]|]. Qed.

Lemma derive_sources_stored m : derive_sources (stored_map m) = derive_sources m.
Proof. by destruct m as [[]|]. Qed.

(** ** Round trip *)

Section roundtrip.
Context `{BuiltinTable} `{RustFmt} `{Bincode} `{!BincodeLaws}.

#[local] Arguments populate_function_ranges : simpl never.
#[local] Arguments derive_source_tables : simpl never.
#[local] Arguments derive_sources : simpl never.
#[local] Arguments derive_labels : simpl never.
#[local] Arguments derive_imports {_} : simpl never.

(** What is in the file of a program. *)
Definition stored (bc : Bytecode) : Bytecode :=
  put_source_map (stored_map (source_map bc)) (refresh_viewer_metadata bc).

Lemma refresh_stored bc : refresh_viewer_metadata (stored bc) = stored bc.
Proof.
  unfold stored, refresh_viewer_metadata. destruct (derive_source_tables (source_map bc)) as [[spans pcs] lines] eqn:Ht.
  cbn. rewrite derive_tables_stored, Ht, populate_twice, derive_sources_stored. unfold put_source_map. cbn. f_equal.
  by destruct (sources bc), (derive_sources (source_map bc)).
Qed.

Lemma encode_stored bc : encode (stored bc) = encode bc.
Proof.
  unfold encode. rewrite refresh_stored. unfold stored, refresh_viewer_metadata.
  by destruct (derive_source_tables (source_map bc)) as [[spans pcs] lines].
Qed.

Lemma chunk_Ok {T} `{Codec T} tag (x : T) c : chunk tag x = Ok c → c.1 = lit tag ∧ serialize x = Ok c.2.
Proof.
  unfold chunk, serialize_chunk, lift_res. intros (p & Hp & [= <-])%rbind_Ok. cbn. split; [done|].
  by apply map_err_Ok, map_err_Ok in Hp.
Qed.

Lemma required_back {T} `{Codec T} (m : gmap str bytes) tag (x : T) c :
  chunk tag x = Ok c → m !! lit tag = Some c.2 → (serialize x = Ok c.2 → deserialize c.2 = Ok x) →
  deserialize_required m (lit tag) = Ok x.
Proof.
  intros [_ Hs]%chunk_Ok Hm Hlaw. unfold deserialize_required. rewrite Hm. unfold decode_failed. by rewrite (Hlaw Hs).
Qed.

Lemma registry_back r b : TypeRegistry.wf r → serialize r = Ok b → deserialize b = Ok r.
Proof.
  intros [Hv Hi] Hs. cbn in *. rewrite (codec_roundtrip _ _ Hs). cbn.
  unfold TypeRegistry.try_from_entries, TypeRegistry.try_extend. change (TypeRegistry.entries TypeRegistry.new) with (@nil TypeEntry).
  rewrite (proj2 (TypeRegistry.validate_append_Ok [] (TypeRegistry.entries r))) by done. cbn. f_equal.
  destruct (TypeRegistry.register_fold_spec TypeRegistry.new (TypeRegistry.entries r) eq_refl) as [He Ht].
  cbn in He, Ht. destruct (foldl _ _ _) as [es idx], r as [es' idx']. cbn in *. congruence.
Qed.

(** The optional chunks. *)
Lemma optional_chunk_Ok {T} `{Codec (list T)} tag (xs : list T) cs : optional_chunk tag xs = Ok cs →
  (xs = [] ∧ cs = []) ∨ ∃ c, cs = [c] ∧ chunk tag xs = Ok c.
Proof.
  destruct xs as [|x xs]; cbn; [intros [= <-]; by left|]. intros (c & Hc & [= <-])%rbind_Ok. eauto.
Qed.

Lemma optional_back {T} `{Codec (list T)} `{!CodecLaw (list T)} (tag : string) (xs : list T) (cs : list (bytes * bytes)) (m : gmap str bytes) :
  optional_chunk tag xs = Ok cs → (∀ c : bytes * bytes, c ∈ cs → m !! c.1 = Some c.2) → (cs = [] → m !! lit tag = None) →
  ∃ o, deserialize_optional m (lit tag) = Ok o ∧ default [] o = xs.
Proof.
  intros [[-> ->]|(c & -> & [Ht Hs]%chunk_Ok)]%optional_chunk_Ok Hin Hout; unfold deserialize_optional.
  - rewrite Hout by done. by exists None.
  - rewrite <- Ht, (Hin c) by (by left). unfold decode_failed. rewrite (codec_roundtrip _ _ Hs). cbn. by exists (Some xs).
Qed.

(** The tags of the chunks of a program. *)
Lemma required_chunks_tags bc cs : required_chunks bc = Ok cs → cs.*1 = required_tags.
Proof.
  unfold required_chunks. intros Hok.
  repeat match goal with
  | H : rbind (chunk ?tag ?x) _ = Ok _ |- _ =>
      let c := fresh "c" in let Hc := fresh "Hc" in
      apply rbind_Ok in H as (c & Hc & H); apply chunk_Ok in Hc as [Hc _]
  end.
  injection Hok as <-. cbn. unfold required_tags. cbn. congruence.
Qed.

Lemma decode_back (bc : Bytecode) (cs docs_cs sig_cs : list (bytes * bytes)) (m : gmap str bytes) :
  TypeRegistry.wf (type_registry bc) → required_chunks bc = Ok cs →
  optional_chunk "Docs" (docs bc) = Ok docs_cs → optional_chunk "SigT" (signatures bc) = Ok sig_cs →
  (∀ c, c ∈ cs ++ docs_cs ++ sig_cs → m !! c.1 = Some c.2) →
  (docs_cs = [] → m !! lit "Docs" = None) → (sig_cs = [] → m !! lit "SigT" = None) →
  decode_payloads m = Ok (mkBytecode (opcodes bc) (constants bc) (ci_num_locals (compile_info bc)) (type_registry bc)
    (error_templates bc) (dbg_templates bc) (callable_templates bc) (functions bc)
    (rebuild_source_map (spans bc) (pc_spans bc)) (docs bc) (signatures bc) (compile_info bc) (labels bc) (imports bc)
    (exports bc) (literals bc) (lines bc) (spans bc) (sources bc) (pc_spans bc) (runtime_process_specs bc)
    (runtime_boot_plan bc)).
Proof.
  intros Hwf Hreq Hdocs Hsigs Hin Hnd Hns.
  destruct (optional_back _ _ _ m Hdocs) as (od & Hod & <-); [intros c Hc; apply Hin; set_solver|done|].
  destruct (optional_back _ _ _ m Hsigs) as (os & Hos & <-); [intros c Hc; apply Hin; set_solver|done|].
  unfold required_chunks in Hreq.
  repeat match goal with
  | H : rbind (chunk _ _) _ = Ok _ |- _ =>
      let c := fresh "c" in let Hc := fresh "Hc" in apply rbind_Ok in H as (c & Hc & H)
  end.
  injection Hreq as <-. unfold decode_payloads.
  assert (∀ x, x ∈ [c; c0; c1; c2; c3; c4; c5; c6; c7; c8; c9; c10; c11; c12; c13; c14; c15; c16] → m !! x.1 = Some x.2) as Hm.
  { intros x Hx. apply Hin, elem_of_app. left. exact Hx. }
  clear Hin. rewrite Hod, Hos.
  repeat match goal with
  | Hc : chunk ?tag ?x = Ok ?c |- context [deserialize_required m (lit ?tag)] =>
      rewrite (required_back m tag x c Hc);
      [|rewrite <- (proj1 (chunk_Ok _ _ _ Hc)); apply Hm; rewrite !elem_of_cons; tauto
       |first [apply registry_back; exact Hwf|apply codec_roundtrip]];
      cbn [rbind]; clear Hc
  end.
  reflexivity.
Qed.

Lemma optional_tags {T} `{Codec (list T)} (tag : string) (xs : list T) (cs : list (bytes * bytes)) :
  optional_chunk tag xs = Ok cs → cs.*1 = [] ∧ cs = [] ∨ cs.*1 = [lit tag].
Proof. intros [[-> ->]|(c & -> & [<- _]%chunk_Ok)]%optional_chunk_Ok; auto. Qed.

(** Whatever is left out, the tags are known, distinct and complete. *)
Lemma chunk_tags (docs_tags sig_tags : list str) : docs_tags = [] ∨ docs_tags = [lit "Docs"] →
  sig_tags = [] ∨ sig_tags = [lit "SigT"] →
  Forall good_tag (required_tags ++ docs_tags ++ sig_tags) ∧ NoDup (required_tags ++ docs_tags ++ sig_tags) ∧
  Forall (λ t, t ∈ required_tags ++ docs_tags ++ sig_tags) required_tags ∧
  (docs_tags = [] → lit "Docs" ∉ required_tags ++ docs_tags ++ sig_tags) ∧
  (sig_tags = [] → lit "SigT" ∉ required_tags ++ docs_tags ++ sig_tags).
Proof.
  intros [->| ->] [->| ->]; (split; [apply (bool_decide_unpack _); vm_compute; exact I|]);
    (split; [apply (bool_decide_unpack _); vm_compute; exact I|]); (split; [apply (bool_decide_unpack _); vm_compute; exact I|]);
    split; try done; intros _; apply (bool_decide_unpack _); vm_compute; exact I.
Qed.

(** C24: a program survives its file format.  Reading back what [encode] wrote gives the
    program with its viewer tables refreshed, its source map rebuilt from the span tables
    (an empty map is dropped) and everything else as it was; and writing that program
    again gives the same bytes. *)
Theorem eldr_roundtrip (bc : Bytecode) (b : bytes)
    (Hwf : TypeRegistry.wf (type_registry bc))
    (Hmap : (N.of_nat (length (default [] (source_map bc))) ≤ u32_max)%N)
    (Hdebug : (ci_debug_level (compile_info bc) ≤ u32_max)%N)
    (Henc : encode bc = Ok b) :
  decode b = Ok (stored bc) ∧ encode (stored bc) = Ok b.
Proof.
  split; [|by rewrite encode_stored]. unfold encode in Henc. set (rbc := refresh_viewer_metadata bc) in *.
  apply rbind_Ok in Henc as (cs & Hcs & Henc). apply rbind_Ok in Henc as (dcs & Hdcs & Henc).
  apply rbind_Ok in Henc as (scs & Hscs & Henc).
  destruct (chunk_tags dcs.*1 scs.*1) as (Hgood & Hnd & Hall & Hd0 & Hs0).
  { by apply optional_tags in Hdcs as [[? _]|?]; auto. }
  { by apply optional_tags in Hscs as [[? _]|?]; auto. }
  rewrite <- (required_chunks_tags _ _ Hcs), <- !fmap_app in Hgood, Hnd, Hd0, Hs0.
  rewrite <- (required_chunks_tags _ _ Hcs), <- !fmap_app, (required_chunks_tags _ _ Hcs) in Hall.
  assert (ci_debug_level (compile_info rbc) = ci_debug_level (compile_info bc) ∧ type_registry rbc = type_registry bc
    ∧ source_map rbc = source_map bc ∧ ci_num_locals (compile_info rbc) = num_locals rbc ∧
    ∃ lines, derive_source_tables (source_map bc) = (spans rbc, pc_spans rbc, lines)) as (Hdl & Htr & Hsm & Hnl & lines' & Hst).
  { unfold rbc, refresh_viewer_metadata. destruct (derive_source_tables _) as [[? ?] ?]. cbn. eauto 10. }
  destruct (parse_written _ _ _ Henc) as (parsed & Hparsed & Hpay & _); [by rewrite Hdl| |done..|].
  { rewrite <- (length_fmap fst), !fmap_app, (required_chunks_tags _ _ Hcs), !length_app, !length_fmap.
    assert (length dcs ≤ 1 ∧ length scs ≤ 1) as [? ?].
    { split; [apply optional_chunk_Ok in Hdcs as [[_ ->]|(c & -> & _)]|
              apply optional_chunk_Ok in Hscs as [[_ ->]|(c & -> & _)]]; cbn; lia. }
    change (length required_tags) with 18. unfold u32_max. lia. }
  unfold decode. rewrite Hparsed. cbn [rbind]. rewrite Hpay.
  destruct (payload_map_lookup (cs ++ dcs ++ scs) ∅ Hnd) as [Hin Hout].
  rewrite (decode_back rbc cs dcs scs); [|by rewrite Htr|done..| | |].
  - rewrite (rebuild_derived _ _ _ _ Hmap Hst). unfold stored. fold rbc. rewrite <- Hsm, Hnl. reflexivity.
  - intros [t q] Hc. by apply Hin.
  - intros ->. rewrite Hout by (by apply Hd0). apply lookup_empty.
  - intros ->. rewrite Hout by (by apply Hs0). apply lookup_empty.
Qed.

End roundtrip.

(** ** A file *)

(** Codecs for the samples: lists of elements that have a number. *)
Section codecs.
Context {T : Type} (enc : T → option N) (dec : N → option T).
Hypothesis Hlaw : ∀ x n, enc x = Some n → dec n = Some x.

Definition list_codec : Codec (list T) :=
  {| serialize xs := ok_or (mapM enc xs) (lit "unknown element");
     deserialize b := ok_or (mapM dec b) (lit "unknown number") |}.

Lemma list_codec_law : @CodecLaw (list T) list_codec.
Proof.
  intros xs b Hs. cbn in *. apply ok_or_Ok in Hs. apply ok_or_Ok. apply mapM_Some in Hs. apply mapM_Some.
  apply Forall2_flip. eapply Forall2_impl; [exact Hs|]. intros x n. apply Hlaw.
Qed.

Definition one_codec (x0 : T) (is_x0 : T → bool) : Codec T :=
  {| serialize x := if is_x0 x then Ok [] else Err (lit "unknown value"); deserialize _ := Ok x0 |}.

Lemma one_codec_law x0 is_x0 : (∀ x, is_x0 x = true → x = x0) → @CodecLaw T (one_codec x0 is_x0).
Proof. intros Heq x b Hs. cbn in *. destruct (is_x0 x) eqn:Hx; [|done]. by rewrite (Heq x Hx). Qed.
End codecs.

Definition lookup_N {T} (l : list T) (n : N) : option T := l !! N.to_nat n.
Definition dict_enc {T} `{EqDecision T} (l : list T) (x : T) : option N :=
  (λ p, N.of_nat p.1) <$> list_find (x =.) l.

Lemma dict_law {T} `{EqDecision T} (l : list T) x n : dict_enc l x = Some n → lookup_N l n = Some x.
Proof.
  unfold dict_enc, lookup_N. intros ([i y] & (Hi & -> & _)%list_find_Some & ->)%fmap_Some. cbn. by rewrite Nat2N.id.
Qed.

#[local] Instance FunctionFlags_eq_dec : EqDecision FunctionFlags.
Proof. solve_decision. Defined.
#[local] Instance FunctionEntry_eq_dec : EqDecision FunctionEntry.
Proof. solve_decision. Defined.
#[local] Instance LabelEntry_eq_dec : EqDecision LabelEntry.
Proof. solve_decision. Defined.
#[local] Instance LineEntry_eq_dec : EqDecision LineEntry.
Proof. solve_decision. Defined.
#[local] Instance SpanEntry_eq_dec : EqDecision SpanEntry.
Proof. solve_decision. Defined.
#[local] Instance SourceFileEntry_eq_dec : EqDecision SourceFileEntry.
Proof. solve_decision. Defined.
#[local] Instance PcSpanEntry_eq_dec : EqDecision PcSpanEntry.
Proof. solve_decision. Defined.
#[local] Instance RuntimeLimitConfig_eq_dec : EqDecision RuntimeLimitConfig.
Proof. solve_decision. Defined.
#[local] Instance CompileInfo_eq_dec : EqDecision CompileInfo.
Proof. solve_decision. Defined.

Definition enc_op (op : Opcode) : option N := match op with Halt => Some 0%N | Return => Some 1%N | _ => None end.
Definition dec_op (n : N) : option Opcode := match n with 0%N => Some Halt | 1%N => Some Return | _ => None end.
Lemma op_law x n : enc_op x = Some n → dec_op n = Some x.
Proof. destruct x; cbn; intros [= <-]; done. Qed.

Definition is_default_plan (p : RuntimeBootPlan) : bool :=
  match p with mkBootPlan None [] [] [] [] limits => bool_decide (limits = default_limits) | _ => false end.

Definition sample_entry : FunctionEntry :=
  mkFunctionEntry 0 1 0 0 None None 2 0 0 (mkFunctionFlags false false false false false false).

Definition sample_bincode : Bincode :=
  {|codec_opcodes := list_codec enc_op dec_op;
     codec_constants := list_codec (λ _ : Constant, None) (λ _, None);
     codec_functions := list_codec (dict_enc [sample_entry]) (lookup_N [sample_entry]);
     codec_types := list_codec (λ _ : TypeEntry, None) (λ _, None);
     codec_errors := list_codec (λ _ : ErrTemplate, None) (λ _, None);
     codec_dbgs := list_codec (λ _ : DbgTemplate, None) (λ _, None);
     codec_callables := list_codec (λ _ : CallableTemplate, None) (λ _, None);
     codec_labels := list_codec (dict_enc [mkLabel (lit "L1") 1]) (lookup_N [mkLabel (lit "L1") 1]);
     codec_imports := list_codec (λ _ : ImportEntry, None) (λ _, None);
     codec_exports := list_codec (λ _ : ExportEntry, None) (λ _, None);
     codec_literals := list_codec (λ _ : LiteralEntry, None) (λ _, None);
     codec_lines := list_codec (dict_enc [mkLine 1 0 2 (Some (lit "a"))]) (lookup_N [mkLine 1 0 2 (Some (lit "a"))]);
     codec_spans := list_codec (dict_enc [mkSpan 0 3 4 1 1 (Some (lit "a"))]) (lookup_N [mkSpan 0 3 4 1 1 (Some (lit "a"))]);
     codec_sources := list_codec (dict_enc [mkSourceFile 0 (lit "a") (Some (lit "a")) None None]) (lookup_N [mkSourceFile 0 (lit "a") (Some (lit "a")) None None]);
     codec_pc_spans := list_codec (dict_enc [mkPcSpan 0 0; mkPcSpan 1 0]) (lookup_N [mkPcSpan 0 0; mkPcSpan 1 0]);
     codec_docs := list_codec (λ _ : DocEntry, None) (λ _, None);
     codec_signatures := list_codec (λ _ : SignatureEntry, None) (λ _, None);
     codec_specs := list_codec (λ _ : RuntimeProcessSpec, None) (λ _, None);
     codec_info := one_codec default_compile_info (λ i, bool_decide (i = default_compile_info));
     codec_boot := one_codec default_boot_plan is_default_plan |}.

Lemma sample_laws : @BincodeLaws sample_bincode.
Proof.
  constructor; try (by apply list_codec_law).
  - apply list_codec_law, op_law.
  - apply list_codec_law, dict_law.
  - apply one_codec_law. intros x Hx. by apply bool_decide_eq_true in Hx.
  - apply list_codec_law, dict_law.
  - apply list_codec_law, dict_law.
  - apply list_codec_law, dict_law.
  - apply list_codec_law, dict_law.
  - apply list_codec_law, dict_law.
  - apply one_codec_law. intros [[|] [] [] [] [] limits]; cbn; try done. intros ->%bool_decide_eq_true. done.
Qed.

Definition sample_source (i : N) : OpcodeSource := mkOpcodeSource i 3 4 1 1 (Some (lit "a")).
Definition sample_file_program : Bytecode :=
  put_source_map (Some [sample_source 0; sample_source 1])
    (put_functions [set_end_pc 0 sample_entry] (put_opcodes [Halt; Return] default_bytecode)).
Definition sample_table : BuiltinTable := λ _, None.
Definition sample_file : bytes :=
  match @encode sample_table Display.sample_fmt sample_bincode sample_file_program with Ok b => b | Err _ => [] end.

(** The end of the function is filled in, and the source map comes back from the span
    tables. *)
Lemma eldr_roundtrip_witness :
  length sample_file = 188 ∧
  @decode sample_bincode sample_file = Ok (@stored sample_table Display.sample_fmt sample_file_program) ∧
  functions (@stored sample_table Display.sample_fmt sample_file_program) = [sample_entry].
Proof.
  split; [vm_compute; reflexivity|]. split; [|vm_compute; reflexivity].
  apply (@eldr_roundtrip sample_table Display.sample_fmt sample_bincode sample_laws sample_file_program sample_file).
  - split; [by apply (TypeRegistry.validate_append_Ok [] [])|done].
  - vm_compute. discriminate.
  - vm_compute. discriminate.
  - vm_compute. reflexivity.
Defined.

(** The label table is meant to list jump targets and function entries, but the targets
    of the fused tag jumps are not in it. *)
Example fused_jump_unlabelled : derive_labels [JumpIfLocalTagEq 0 0 3; Jump 2; Halt; Return] [] = [mkLabel (lit "L2") 2].
Proof. vm_compute. reflexivity. Qed.

End ContainerProps.
