(* ===== verification/Lexer.v ===== *)
(** * The tokenizer ([crates/spire/src/lexer.rs])

    [tokenize] turns source text into spanned tokens.  Names that the language reserves
    come from the tables of [sindr] ([reflection.rs], [names.rs], [pattern.rs]); string
    literals are scanned by [StringLiteral]; the body of a function literal is checked by
    [func_literal.rs]. *)

From stdpp Require Import pretty.
From Stdlib Require Import SpecFloat.
From S2P Require Import Prelude Names ListHandle Value ParseError StringLiteral.

(** ** Reserved names *)

Inductive Reflection : Type := ReflectFile | ReflectDir | ReflectLine.
Inductive ReservedCallName : Type :=
| CallOn | CallAnd | CallOr | CallEq | CallNeq | CallLt | CallLte | CallGt | CallGte.
Inductive PatternConsumer : Type := IfLet | IfLetThen | IsMatch | ApplyPattern | AssertErrorMatches.

(** [ALL.into_iter().find(|value| value.name() == name)]. *)
Definition assoc {A} (table : list (str * A)) (name : str) : option A :=
  snd <$> find (λ p, bool_decide (p.1 = name)) table.

Definition reflections : list (str * Reflection) :=
  [(lit "__FILE__", ReflectFile); (lit "__DIR__", ReflectDir); (lit "__LINE__", ReflectLine)].
Definition RESERVED_ENV_NAME : str := lit "__ENV__".
Definition reserved_call_names : list (str * ReservedCallName) :=
  [(lit "on", CallOn); (lit "and", CallAnd); (lit "or", CallOr); (lit "eq", CallEq); (lit "neq", CallNeq);
   (lit "lt", CallLt); (lit "lte", CallLte); (lit "gt", CallGt); (lit "gte", CallGte)].
Definition pattern_consumers : list (str * PatternConsumer) :=
  [(lit "if_let", IfLet); (lit "if_let_then", IfLetThen); (lit "is_match", IsMatch); (lit "apply_pattern", ApplyPattern);
   (lit "assert_error_matches", AssertErrorMatches)].

(** ** Tokens *)

Inductive Token : Type :=
| TInt (n : SurtrInt)
| TFloat (f : f64)
| TStr (s : StringLiteral.StringLiteral)
| TDocString (s : StringLiteral.RawStringLiteral)
| TIdent (name : str)
| TReflection (r : Reflection)
| TReservedCallName (n : ReservedCallName)
| TPatternConsumer (c : PatternConsumer)
| TNumberedPlaceholder (digits : str)
| TFuncLiteral (body : str)
| TAnnotator (name : str)
| TTrue | TFalse | TUnit | TReservedEnv | TPlus | TMinus | TStar | TSlash | TPercent | TBang | TBind | TLt |
TGt | TRParen | TLBrack | TRBrack | TLBrace | TRBrace | TComma | TColon | TDot | TQuestion | TSemicolon |
TPipe | TAmp | TTilde | TDollar | TCaret | TConcat | TSafeBind | TEqEq | TBangEq | TLtEq | TGtEq | TLeftArrow
| TAndAnd | TOrOr | TDotDot | TFatArrow | TArrow | TPipeApply | TCompose | TLiftCompose | TPipeMap | TPipeBind
| TPipeApplyContext | TChoice | TKleisliCompose | TLParen | TAt | TNewline | TDef | TDefp | TDefagent |
TDefgenserver | TDefsupervisor | TDefdynamicSupervisor | TSupervisorInit | TDefmod | TNamespace | TDeftrait |
TImport | TInclude | TDefstruct | TDefrecord | TDeferror | TDefenumerror | TDefenum | TDefextractor | TImpl |
TFor | TMatch | TDo | TWhen | TCond | TBulkUpdate | TPrivate | TPublic | TReadonly | TConst | TType | TWhere |
TEof.

Record Spanned : Type := mkSpanned { sp_token : Token; sp_span : Span }.

Module Lexer.
Import StringLiteral.

(** ** Character classes *)

Definition is_ascii_digit (c : char) : bool := ((48 <=? c) && (c <=? 57))%N.
Definition is_ascii_alphabetic (c : char) : bool := ((65 <=? c) && (c <=? 90) || (97 <=? c) && (c <=? 122))%N.
Definition is_ascii_alphanumeric (c : char) : bool := is_ascii_digit c || is_ascii_alphabetic c.
Definition c_underscore : char := 95%N.
Definition c_dot : char := 46%N.
Definition c_zero : char := 48%N.
Definition c_at : char := 64%N.
Definition is_word (c : char) : bool := is_ascii_alphanumeric c || bool_decide (c = c_underscore).
Definition is_blank (c : char) : bool := bool_decide (c = c_space ∨ c = c_tab ∨ c = c_return).

(** ** Tables of the tokenizer *)

Definition keywords : list (str * Token) :=
  [(lit "True", TTrue); (lit "False", TFalse); (lit "def", TDef); (lit "defp", TDefp);
  (lit "defagent", TDefagent); (lit "defgenserver", TDefgenserver); (lit "defsupervisor", TDefsupervisor);
  (lit "defdynamic_supervisor", TDefdynamicSupervisor); (lit "supervisor_init", TSupervisorInit);
  (lit "defmod", TDefmod); (lit "namespace", TNamespace); (lit "deftrait", TDeftrait);
  (lit "import", TImport); (lit "include", TInclude); (lit "defstruct", TDefstruct);
  (lit "defrecord", TDefrecord); (lit "deferror", TDeferror); (lit "defenumerror", TDefenumerror);
  (lit "defenum", TDefenum); (lit "defextractor", TDefextractor); (lit "impl", TImpl); (lit "for", TFor);
  (lit "match", TMatch); (lit "do", TDo); (lit "when", TWhen); (lit "cond", TCond);
  (lit "bulk_update", TBulkUpdate); (lit "private", TPrivate); (lit "public", TPublic);
  (lit "readonly", TReadonly); (lit "const", TConst); (lit "type", TType); (lit "Type", TType);
  (lit "where", TWhere)].
Definition three_char : list (str * Token) :=
  [(lit "|*>", TPipeMap); (lit "|>=", TPipeBind); (lit "|*|", TPipeApplyContext); (lit "<|>", TChoice);
  (lit ">=>", TKleisliCompose)].
Definition two_char : list (str * Token) :=
  [(lit "++", TConcat); (lit "=?", TSafeBind); (lit "==", TEqEq); (lit "!=", TBangEq); (lit "<=", TLtEq);
  (lit ">=", TGtEq); (lit "<-", TLeftArrow); (lit "&&", TAndAnd); (lit "||", TOrOr); (lit "..", TDotDot);
  (lit "=>", TFatArrow); (lit "->", TArrow); (lit "|>", TPipeApply); (lit ">>", TCompose);
  (lit ">*", TLiftCompose)].
Definition one_char : list (str * Token) :=
  [(lit "+", TPlus); (lit "-", TMinus); (lit "*", TStar); (lit "/", TSlash); (lit "%", TPercent);
  (lit "!", TBang); (lit "=", TBind); (lit "<", TLt); (lit ">", TGt); (lit ")", TRParen); (lit "[", TLBrack);
  (lit "]", TRBrack); (lit "{", TLBrace); (lit "}", TRBrace); (lit ",", TComma); (lit ":", TColon);
  (lit ".", TDot); (lit "?", TQuestion); (lit ";", TSemicolon); (lit "|", TPipe); (lit "&", TAmp);
  (lit "~", TTilde); (lit "$", TDollar); (lit "^", TCaret); (lit "(", TLParen)].

(** ** Function literals ([func_literal.rs]) *)

Definition func_literal_operators : list str :=
  lit <$> ["+"; "-"; "*"; "/"; "%"; "++"; "(,)"; "=="; "!="; "<"; ">"; "<="; ">="]%string.

Definition strip_question (body : str) : str := default body (reverse <$> strip_prefix (lit "?") (reverse body)).

Definition is_func_literal_ident (body : str) : bool :=
  match strip_question body with
  | [] => false
  | c :: rest => (is_ascii_alphabetic c || bool_decide (c = c_underscore)) && forallb is_word rest
  end.

(** [body.split("::")]; [current] is the segment read so far. *)
Fixpoint split_path (current body : str) : list str :=
  match body with
  | [] => [current]
  | c :: rest =>
      match rest with
      | d :: rest' =>
          if decide (c = 58%N ∧ d = 58%N) then current :: split_path [] rest' else split_path (current ++ [c]) rest
      | [] => [current ++ [c]]
      end
  end.

Fixpoint path_segments_ok (segments : list str) : bool :=
  match segments with
  | [] => true
  | s :: rest =>
      is_func_literal_ident s
      && (match rest with [] => true | _ => negb (ends_with s (lit "?")) end)
      && path_segments_ok rest
  end.

Definition parse_func_literal_path (body : str) : option (list str) :=
  if str_contains body (lit "::") then
    let segments := split_path [] body in
    if decide (length segments < 2) then None
    else if path_segments_ok segments then Some segments else None
  else None.

Definition is_valid_func_literal_body (body : str) : bool :=
  is_func_literal_ident body
  || match parse_func_literal_path body with Some _ => true | None => false end
  || bool_decide (body ∈ func_literal_operators).

(** ** Numbers *)

Inductive IntLiteralBase : Type := Bin | Oct | Dec | Hex.

Definition radix (b : IntLiteralBase) : Z := match b with Bin => 2 | Oct => 8 | Dec => 10 | Hex => 16 end.
Definition base_label (b : IntLiteralBase) : str :=
  match b with
  | Bin => lit "binary"
  | Oct => lit "octal"
  | Dec => lit "decimal"
  | Hex => lit "hexadecimal"
  end.

Definition is_valid_int_digit (ch : char) (base : IntLiteralBase) : bool :=
  match base with
  | Bin => bool_decide (ch = 48%N ∨ ch = 49%N)
  | Oct => ((48 <=? ch) && (ch <=? 55))%N
  | Dec => is_ascii_digit ch
  | Hex => is_ascii_digit ch || ((97 <=? ch) && (ch <=? 102) || (65 <=? ch) && (ch <=? 70))%N
  end.

(** The number that digits denote, most significant first. *)
Definition digits_value (radix : Z) (digits : str) : Z :=
  foldl (λ v ch, (v * radix + Z.of_N (default 0%N (hex_digit ch)))%Z) 0%Z digits.

(** [digits.fraction] as the nearest double: the division of the two integers is
    rounded once. *)
Definition parse_f64 (digits fraction : str) : f64 :=
  match digits_value 10 (digits ++ fraction) with
  | Zpos m =>
      match Z.pow 10 (Z.of_nat (length fraction)) with
      | Zpos d => SFdiv f64_prec f64_emax (S754_finite false m 0) (S754_finite false d 0)
      | _ => S754_nan
      end
  | _ => S754_zero false
  end.

Definition lex_integer_literal (chars : list char) (start decimal_end : nat) : PResult (Z * nat) :=
  let decimal := Ok (digits_value 10 (slice chars start decimal_end), decimal_end) in
  if decide (chars !! start = Some c_zero ∧ decimal_end = start + 1) then
    match chars !! decimal_end with
    | None => decimal
    | Some prefix =>
        if decide (prefix = 66%N ∨ prefix = 79%N ∨ prefix = 68%N ∨ prefix = 88%N) then
          let end_ := decimal_end + 1 + length (take_while is_ascii_alphanumeric (drop (decimal_end + 1) chars)) in
          fail (invalid (lit "Invalid integer: " ++ slice chars start end_) start end_)
        else
          let base :=
            if decide (prefix = 98%N) then Some Bin
            else if decide (prefix = 111%N) then Some Oct
            else if decide (prefix = 100%N) then Some Dec
            else if decide (prefix = 120%N) then Some Hex
            else None in
          match base with
          | None => decimal
          | Some base =>
              let body_start := decimal_end + 1 in
              let body := take_while is_ascii_alphanumeric (drop body_start chars) in
              match body with
              | [] =>
                  fail (invalid (lit "missing digits after integer base prefix: 0" ++ [prefix]) start body_start)
              | _ =>
                  match position (λ ch, negb (is_valid_int_digit ch base)) body with
                  | Some offset =>
                      fail (invalid (lit "invalid digit for " ++ base_label base ++ lit " integer literal: "
                                     ++ option_list (body !! offset)) (body_start + offset) (body_start + offset + 1))
                  | None => Ok (digits_value (radix base) body, body_start + length body)
                  end
              end
          end
    end
  else decimal.

(** ** One token *)

Definition spanned (t : Token) (s e : nat) : Spanned := mkSpanned t (mkSpanRange s e).

Definition is_numbered (text : str) : bool :=
  match text with
  | c :: _ :: _ => bool_decide (c = c_underscore) && forallb is_ascii_digit (tail text)
  | _ => false
  end.

(** The token of a word. *)
Definition word_token (text : str) : Token :=
  match assoc reflections text with
  | Some r => TReflection r
  | None =>
      if decide (text = RESERVED_ENV_NAME) then TReservedEnv
      else match assoc keywords text with
      | Some t => t
      | None =>
          match assoc reserved_call_names text with
          | Some n => TReservedCallName n
          | None =>
              match assoc pattern_consumers text with
              | Some c => TPatternConsumer c
              | None => if is_numbered text then TNumberedPlaceholder (tail text) else TIdent text
              end
          end
      end
  end.

Definition lex_number (chars : list char) (i : nat) : PResult (Token * nat) :=
  let digits := take_while is_ascii_digit (drop i chars) in
  let j := i + length digits in
  let fraction := take_while is_ascii_digit (drop (j + 1) chars) in
  if decide (chars !! j = Some c_dot ∧ fraction ≠ []) then
    let next := j + 1 + length fraction in
    let value := parse_f64 digits fraction in
    if is_finite value then Ok (TFloat value, next)
    else fail (invalid (lit "Float literal must be finite: " ++ slice chars i next) i next)
  else
    let? '(value, next) := lex_integer_literal chars i j in
    Ok (TInt value, next).

Definition lex_func_literal (chars : list char) (start : nat) : PResult (Token * nat) :=
  let body := take_while (λ c, bool_decide (c ≠ c_backtick)) (drop (start + 1) chars) in
  let i := start + 1 + length body in
  if decide (length chars ≤ i) then fail (ParseError.incomplete (lit "`") (mkSpanRange start i))
  else match body with
  | [] => fail (invalid (lit "FuncLiteral body must not be empty") start (i + 1))
  | _ =>
      if is_valid_func_literal_body body then Ok (TFuncLiteral body, i + 1)
      else fail (invalid (lit "Unsupported FuncLiteral body: `" ++ body ++ lit "`") start (i + 1))
  end.

Definition is_lbrace (t : option Token) : bool := match t with Some TLBrace => true | _ => false end.

(** Operators and punctuation, longest first; [last] is the token before.  After an
    opening brace two bars are the empty parameter list of a closure. *)
Definition lex_operator (chars : list char) (last : option Token) (i : nat) (c : char) :
    PResult (list Spanned * nat) :=
  let rest := drop i chars in
  let three := if decide (i + 2 < length chars) then assoc three_char (take 3 rest) else None in
  match three with
  | Some t => Ok ([spanned t i (i + 3)], i + 3)
  | None =>
      let two := take 2 rest in
      if decide (i + 1 < length chars ∧ two = lit "||" ∧ is_lbrace last = true) then
        Ok ([spanned TPipe i (i + 1); spanned TPipe (i + 1) (i + 2)], i + 2)
      else match (if decide (i + 1 < length chars) then assoc two_char two else None) with
      | Some t => Ok ([spanned t i (i + 2)], i + 2)
      | None =>
          if decide (c = 40%N ∧ chars !! (i + 1) = Some 41%N) then Ok ([spanned TUnit i (i + 2)], i + 2)
          else match assoc one_char [c] with
          | Some t => Ok ([spanned t i (i + 1)], i + 1)
          | None => fail (invalid (lit "Unexpected character: '" ++ [c] ++ lit "'") i (i + 1))
          end
      end
  end.

(** One turn of the loop at position [i], where [c] is: the tokens it pushes and the
    next position. *)
Definition lex_one (chars : list char) (last : option Token) (i : nat) (c : char) : PResult (list Spanned * nat) :=
  if is_blank c then Ok ([], i + 1)
  else if decide (c = c_hash) then Ok ([], i + length (take_while not_newline (drop i chars)))
  else if decide (c = c_newline) then Ok ([spanned TNewline i (i + 1)], i + 1)
  else if decide (c = c_at) then
    match take_while is_word (drop (i + 1) chars) with
    | [] => Ok ([spanned TAt i (i + 1)], i + 1)
    | name => let next := i + 1 + length name in Ok ([spanned (TAnnotator name) i next], next)
    end
  else if decide (c = c_quote ∧ triple_at chars i = true) then
    let? '(raw, next) := lex_raw_triple_quoted_string chars i (length chars) in
    Ok ([spanned (TDocString raw) i next], next)
  else if decide (c = c_quote ∨ c = c_apostrophe) then
    let? '(literal, next) := scan_string chars i in
    Ok ([spanned (TStr literal) i next], next)
  else if decide (c = c_backtick) then
    let? '(t, next) := lex_func_literal chars i in Ok ([spanned t i next], next)
  else if is_ascii_digit c then
    let? '(t, next) := lex_number chars i in Ok ([spanned t i next], next)
  else if is_ascii_alphabetic c || bool_decide (c = c_underscore) then
    let text := take_while is_word (drop i chars) in
    let next := i + length text in
    Ok ([spanned (word_token text) i next], next)
  else lex_operator chars last i c.

(** ** The tokenizer *)

Fixpoint tokenize_loop (fuel : nat) (chars : list char) (i : nat) (tokens : list Spanned) : PResult (list Spanned) :=
  match fuel with
  | O => Err (Panicked PFuel)
  | S fuel' =>
      match chars !! i with
      | None => Ok (tokens ++ [spanned TEof i i])
      | Some c =>
          let? '(new, next) := lex_one chars (sp_token <$> last tokens) i c in
          tokenize_loop fuel' chars next (tokens ++ new)
      end
  end.

Definition tokenize (source : str) : PResult (list Spanned) := tokenize_loop (S (length source)) source 0 [].

End Lexer.
