(* ===== verification/LexerProps.v ===== *)
(** * Properties of the tokenizer

    Tokenizing is total and loses nothing: the spans of the tokens cover the source up
    to blanks and comments.  Spelling tokens out and separating them by blanks is
    inverted by the tokenizer. *)

From S2P Require Import Prelude Names ListHandle Value ParseError StringLiteral Lexer.

Module LexerProps.
Import StringLiteral Lexer.

(** ** Tiling *)

Section tiling.
Context (chars : list char).

(** Blanks, then perhaps a comment up to the end of its line. *)
Inductive gap : nat → nat → Prop :=
| gap_nil i : gap i i
| gap_blank i j c : chars !! i = Some c → is_blank c = true → gap (S i) j → gap i j
| gap_comment i j : chars !! i = Some c_hash → i < j →
    (∀ k c, i ≤ k < j → chars !! k = Some c → c ≠ c_newline) →
    (j = length chars ∨ chars !! j = Some c_newline) → gap i j.

(** The tokens from position [i] on. *)
Inductive tiles : nat → list Spanned → Prop :=
| tiles_eof i : gap i (length chars) → tiles i [spanned TEof (length chars) (length chars)]
| tiles_token i s e t rest : gap i s → s < e ≤ length chars → t ≠ TEof → tiles e rest → tiles i (spanned t s e :: rest).

(** What one turn of the loop does. *)
Inductive turn (i : nat) : list Spanned * nat → Prop :=
| turn_blank c : chars !! i = Some c → is_blank c = true → turn i ([], i + 1)
| turn_comment j : chars !! i = Some c_hash → i < j ≤ length chars →
    (∀ k c, i ≤ k < j → chars !! k = Some c → c ≠ c_newline) →
    (j = length chars ∨ chars !! j = Some c_newline) → turn i ([], j)
| turn_token t e : i < e ≤ length chars → t ≠ TEof → turn i ([spanned t i e], e)
| turn_tokens t u m e : i < m → m < e ≤ length chars → t ≠ TEof → u ≠ TEof →
    turn i ([spanned t i m; spanned u m e], e).

Lemma take_while_all {A} (f : A → bool) l k x : take_while f l !! k = Some x → f x = true.
Proof.
  revert k. induction l as [|y l IH]; intros k; cbn; [by rewrite lookup_nil|].
  destruct (f y) eqn:Hy; [|by rewrite lookup_nil]. destruct k as [|k]; cbn; [by intros [= <-]|]. apply IH.
Qed.

Lemma take_while_stop {A} (f : A → bool) l : length (take_while f l) = length l ∨
  ∃ x, l !! length (take_while f l) = Some x ∧ f x = false.
Proof.
  induction l as [|y l IH]; cbn; [by left|]. destruct (f y) eqn:Hy; cbn; [|right; eauto].
  destruct IH as [->|(x & ? & ?)]; [by left|right; eauto].
Qed.

Lemma take_while_prefix {A} (f : A → bool) l k : k < length (take_while f l) → take_while f l !! k = l !! k.
Proof.
  revert k. induction l as [|y l IH]; intros k; cbn; [lia|]. destruct (f y); cbn; [|lia].
  destruct k as [|k]; cbn; [done|]. intros Hk. apply IH. lia.
Qed.

Lemma comment_turn i : chars !! i = Some c_hash → turn i ([], i + length (take_while not_newline (drop i chars))).
Proof.
  intros Hi. pose proof (not_newline_progress _ _ Hi) as Hpos.
  pose proof (length_take_while not_newline (drop i chars)) as Hle. rewrite length_drop in Hle.
  pose proof (lookup_lt_Some _ _ _ Hi) as Hlt. apply turn_comment; [done|lia|..].
  - intros k c Hk Hc. assert (take_while not_newline (drop i chars) !! (k - i) = Some c) as Hw.
    { rewrite take_while_prefix by lia. rewrite lookup_drop. by replace (i + (k - i)) with k by lia. }
    apply take_while_all in Hw. unfold not_newline in Hw. by apply bool_decide_eq_true in Hw.
  - destruct (take_while_stop not_newline (drop i chars)) as [Heq|(x & Hx & Hn)].
    + left. rewrite Heq, length_drop. lia.
    + right. rewrite lookup_drop in Hx. rewrite Hx. unfold not_newline in Hn. apply bool_decide_eq_false in Hn.
      f_equal. by apply dec_stable.
Qed.

End tiling.

(** Words and numbers are read to their end, inside the source. *)
Lemma take_while_bound (chars : list char) f i c : chars !! i = Some c → f c = true →
  i < i + length (take_while f (drop i chars)) ≤ length chars.
Proof.
  intros Hi Hf. pose proof (length_take_while f (drop i chars)) as Hle. rewrite length_drop in Hle.
  pose proof (lookup_lt_Some _ _ _ Hi). rewrite (drop_lookup_cons _ _ _ Hi) in *. cbn in *. rewrite Hf in *. cbn in *. lia.
Qed.

Lemma take_while_le (chars : list char) f i : i ≤ length chars → i + length (take_while f (drop i chars)) ≤ length chars.
Proof. intros Hi. pose proof (length_take_while f (drop i chars)) as Hle. rewrite length_drop in Hle. lia. Qed.

Lemma lex_integer_sound chars start e c : chars !! start = Some c → start < e ≤ length chars →
  sound (lex_integer_literal chars start e) (λ r, start < r.2 ≤ length chars).
Proof.
  intros Hs He. unfold lex_integer_literal. case_decide; [|done]. destruct (chars !! e) as [p|] eqn:Hp; [|done].
  apply lookup_lt_Some in Hp. case_decide; [done|].
  destruct (if decide _ then _ else _) as [base|]; [|done].
  pose proof (take_while_le chars is_ascii_alphanumeric (e + 1) ltac:(lia)) as Hb.
  destruct (take_while _ _) as [|d body]; [done|]. destruct (position _ _); [done|]. cbn in *. lia.
Qed.

Lemma lex_number_sound chars i c : chars !! i = Some c → is_ascii_digit c = true →
  sound (lex_number chars i) (λ r, i < r.2 ≤ length chars ∧ r.1 ≠ TEof).
Proof.
  intros Hi Hd. pose proof (take_while_bound chars is_ascii_digit i c Hi Hd) as Hb. unfold lex_number.
  set (j := i + length (take_while is_ascii_digit (drop i chars))) in *. case_decide as Hdot.
  - destruct Hdot as [Hj%lookup_lt_Some _]. pose proof (take_while_le chars is_ascii_digit (j + 1) ltac:(lia)) as Hf.
    destruct (is_finite _); [|done]. cbn -[take_while]. split; [lia|done].
  - eapply sound_bind; [by eapply lex_integer_sound|]. intros [v next] Hn. cbn in *. done.
Qed.

Lemma lex_func_sound chars i c : chars !! i = Some c →
  sound (lex_func_literal chars i) (λ r, i < r.2 ≤ length chars ∧ r.1 ≠ TEof).
Proof.
  intros Hi%lookup_lt_Some. unfold lex_func_literal. case_decide as Hlen; [done|].
  destruct (take_while _ _) as [|x body]; [done|].
  destruct (is_valid_func_literal_body _); [|done]. cbn in *. split; [lia|done].
Qed.

Lemma assoc_elem {A} (table : list (str * A)) k t : assoc table k = Some t → (k, t) ∈ table.
Proof.
  unfold assoc. intros ([k' t'] & [Hin Hk]%find_Some & ->)%fmap_Some. apply bool_decide_eq_true in Hk. cbn in *. by subst k'.
Qed.

Lemma tables_no_eof : Forall (λ p : str * Token, p.2 ≠ TEof) (keywords ++ three_char ++ two_char ++ one_char).
Proof. repeat (constructor; [done|]). constructor. Qed.

Lemma assoc_not_eof table k t : (∀ p, p ∈ table → p ∈ keywords ++ three_char ++ two_char ++ one_char) → assoc table k = Some t → t ≠ TEof.
Proof.
  intros Hsub Hk%assoc_elem. pose proof tables_no_eof as Hall. rewrite Forall_forall in Hall.
  apply (Hall (k, t)), Hsub, Hk.
Qed.

Lemma word_token_not_eof text : word_token text ≠ TEof.
Proof.
  unfold word_token. destruct (assoc reflections text); [done|]. case_decide; [done|].
  destruct (assoc keywords text) eqn:Hk; [eapply assoc_not_eof; [|exact Hk]; intros p; rewrite !elem_of_app; tauto|].
  destruct (assoc reserved_call_names text); [done|]. destruct (assoc pattern_consumers text); [done|].
  by destruct (is_numbered text).
Qed.

Lemma lex_operator_sound chars last i c : chars !! i = Some c → sound (lex_operator chars last i c) (turn chars i).
Proof.
  intros Hi. pose proof (lookup_lt_Some _ _ _ Hi) as Hlt. unfold lex_operator.
  destruct (if decide (i + 2 < _) then _ else _) as [t|] eqn:H3.
  { case_decide; [|done]. apply turn_token; [lia|]. eapply assoc_not_eof; [|exact H3]. intros p; rewrite !elem_of_app; tauto. }
  clear H3. case_decide as Hbar; [apply turn_tokens; (lia || done)|].
  destruct (if decide (i + 1 < _) then _ else _) as [t|] eqn:H2.
  { case_decide; [|done]. apply turn_token; [lia|]. eapply assoc_not_eof; [|exact H2]. intros p; rewrite !elem_of_app; tauto. }
  clear H2. case_decide as Hunit.
  { destruct Hunit as [_ Hn%lookup_lt_Some]. apply turn_token; [lia|done]. }
  destruct (assoc one_char [c]) as [t|] eqn:H1; [|done]. apply turn_token; [lia|].
  eapply assoc_not_eof; [|exact H1]. intros p; rewrite !elem_of_app; tauto.
Qed.

Lemma scan_string_sound chars i c : chars !! i = Some c → sound (scan_string chars i) (λ r, i < r.2 ≤ length chars).
Proof.
  intros Hi. unfold scan_string, index. rewrite Hi. cbn -[scan_loop]. eapply sound_mono; [apply scan_loop_sound; [|done|by left]|].
  - lia.
  - intros [l next] (_ & Hn & _). cbn in *. lia.
Qed.

Lemma lex_one_sound chars last i c : chars !! i = Some c → sound (lex_one chars last i c) (turn chars i).
Proof.
  intros Hi. pose proof (lookup_lt_Some _ _ _ Hi) as Hlt. unfold lex_one.
  destruct (is_blank c) eqn:Hb; [by eapply turn_blank|].
  case_decide as H1; [subst c; by apply comment_turn|]. case_decide as H2; [apply turn_token; (lia || done)|].
  case_decide as H3.
  { pose proof (take_while_le chars is_word (i + 1) ltac:(lia)) as Hw.
    destruct (take_while is_word (drop (i + 1) chars)) as [|x name]; cbn in *; apply turn_token; (lia || done). }
  case_decide as H4.
  { eapply sound_bind; [apply triple_sound|]. intros [raw next] [Hn _]. cbn in *. apply turn_token; (lia || done). }
  case_decide as H5.
  { eapply sound_bind; [by eapply scan_string_sound|]. intros [l next] Hn. cbn in *. apply turn_token; (lia || done). }
  case_decide as H6.
  { eapply sound_bind; [by eapply lex_func_sound|]. intros [t next] [Hn Ht]. by apply turn_token. }
  destruct (is_ascii_digit c) eqn:H7.
  { eapply sound_bind; [by eapply lex_number_sound|]. intros [t next] [Hn Ht]. by apply turn_token. }
  destruct (_ || _) eqn:H8; [|by apply lex_operator_sound].
  apply turn_token; [|apply word_token_not_eof]. eapply take_while_bound; [exact Hi|].
  unfold is_word, is_ascii_alphanumeric. destruct (is_ascii_alphabetic c); [by rewrite orb_true_r|].
  rewrite orb_false_l in H8. by rewrite H8, orb_true_r.
Qed.

(** ** The tokenizer is total *)

Lemma gap_snoc chars i j c : gap chars i j → chars !! j = Some c → is_blank c = true → gap chars i (S j).
Proof.
  intros Hg. induction Hg as [i|i j d Hi Hd Hg IH|i j Hi Hlt Hc Hend]; intros Hj Hb.
  - eapply gap_blank; [done..|constructor].
  - eapply gap_blank; eauto.
  - exfalso. destruct Hend as [->|Hn]; [apply lookup_lt_Some in Hj; lia|]. rewrite Hn in Hj. injection Hj as <-. done.
Qed.

Lemma gap_then_comment chars i j k : gap chars i j → chars !! j = Some c_hash → j < k →
  (∀ m c, j ≤ m < k → chars !! m = Some c → c ≠ c_newline) → (k = length chars ∨ chars !! k = Some c_newline) →
  gap chars i k.
Proof.
  intros Hg. induction Hg as [i|i j d Hi Hd Hg IH|i j Hi Hlt Hc Hend]; intros Hj Hk Hcom Hend'.
  - by apply gap_comment.
  - eapply gap_blank; eauto.
  - exfalso. destruct Hend as [->|Hn]; [apply lookup_lt_Some in Hj; lia|]. rewrite Hn in Hj. by injection Hj.
Qed.

(** [done] are the tokens read up to [i]; the rest still tiles the source. *)
Lemma tokenize_loop_sound chars fuel : ∀ i j acc, length chars - j < fuel → j ≤ length chars → gap chars i j →
  sound (tokenize_loop fuel chars j acc) (λ ts, ∃ rest, ts = acc ++ rest ∧ tiles chars i rest).
Proof.
  induction fuel as [|fuel IH]; intros i j acc Hf Hj Hg; [lia|]. cbn [tokenize_loop].
  destruct (chars !! j) as [c|] eqn:Hc.
  2: { apply lookup_ge_None in Hc. assert (j = length chars) as -> by lia. cbn. eexists. split; [done|].
       by constructor. }
  eapply sound_bind; [by apply lex_one_sound|]. intros [new next] Hturn. inversion Hturn; subst; clear Hturn.
  - eapply sound_mono; [apply (IH i); [| |replace (j + 1) with (S j) by lia; by eapply gap_snoc]|].
    + apply lookup_lt_Some in Hc. lia.
    + apply lookup_lt_Some in Hc. lia.
    + by rewrite app_nil_r.
  - eapply sound_mono; [apply (IH i); [lia|lia|eapply gap_then_comment; [done|done|lia|done|done]]|]. by rewrite app_nil_r.
  - eapply sound_mono; [apply (IH next); [lia|lia|constructor]|]. intros ts (rest & -> & Ht).
    exists (spanned t j next :: rest). split; [by rewrite <- app_assoc|]. by constructor.
  - eapply sound_mono; [apply (IH next); [lia|lia|constructor]|]. intros ts (rest & -> & Ht).
    exists (spanned t j m :: spanned u m next :: rest). split; [by rewrite <- app_assoc|].
    constructor; [done|lia|done|]. constructor; [constructor|lia|done..].
Qed.

(** The tokenizer terminates on every source without panicking and without running
    into a broken invariant; and what it returns accounts for every character: the spans
    of the tokens follow each other up to the end-of-file token at the end of the source,
    and between two of them there are only blanks and a comment that runs to the end of
    its line. *)
Theorem tokenize_tiles (source : str) : sound (tokenize source) (tiles source 0).
Proof.
  unfold tokenize. eapply sound_mono; [apply (tokenize_loop_sound source _ 0 0 []); [lia|lia|constructor]|].
  by intros ts (rest & -> & Ht).
Qed.

(** ** Spelling tokens out *)

Definition operators : list (str * Token) := three_char ++ two_char ++ one_char.

(** [text] spells [t] when a blank follows. *)
Inductive spelled : Token → str → Prop :=
| spelled_decimal ds : ds ≠ [] → forallb is_ascii_digit ds = true → spelled (TInt (digits_value 10 ds)) ds
| spelled_based p base body :
    (p, base) ∈ [(98%N, Bin); (111%N, Oct); (100%N, Dec); (120%N, Hex)] → body ≠ [] →
    forallb (λ ch, is_valid_int_digit ch base) body = true →
    spelled (TInt (digits_value (radix base) body)) (c_zero :: p :: body)
| spelled_float ds fs : ds ≠ [] → fs ≠ [] → forallb is_ascii_digit (ds ++ fs) = true →
    is_finite (parse_f64 ds fs) = true → spelled (TFloat (parse_f64 ds fs)) (ds ++ c_dot :: fs)
| spelled_string t : Forall (λ c, is_scalar c = true) t → spelled (TStr (Plain t)) (quote_surtr_string_literal t)
| spelled_word c text : is_ascii_alphabetic c || bool_decide (c = c_underscore) = true → forallb is_word text = true →
    spelled (word_token (c :: text)) (c :: text)
| spelled_func body : is_valid_func_literal_body body = true → body ≠ [] → Forall (λ c, c ≠ c_backtick) body →
    spelled (TFuncLiteral body) (c_backtick :: body ++ [c_backtick])
| spelled_annotator name : name ≠ [] → forallb is_word name = true → spelled (TAnnotator name) (c_at :: name)
| spelled_at : spelled TAt [c_at]
| spelled_newline : spelled TNewline [c_newline]
| spelled_unit : spelled TUnit (lit "()")
| spelled_operator t text : (text, t) ∈ operators → spelled t text.

Lemma take_while_app {A} (f : A → bool) l x r : forallb f l = true → f x = false → take_while f (l ++ x :: r) = l.
Proof.
  induction l as [|y l IH]; cbn; [by intros _ ->|]. intros [-> Hl]%andb_true_iff Hx. by rewrite IH.
Qed.

Lemma blank_cases b : is_blank b = true → b = c_space ∨ b = c_tab ∨ b = c_return.
Proof. unfold is_blank. apply bool_decide_eq_true. Qed.

Lemma blank_stops b : is_blank b = true →
  is_word b = false ∧ is_ascii_digit b = false ∧ is_ascii_alphanumeric b = false ∧ b ≠ c_dot ∧ b ≠ c_quote.
Proof. by intros [->|[->| ->]]%blank_cases. Qed.

(** One step on a text that starts with [c]. *)
Section one.
Context (chars : list char) (last : option Token) (i : nat) (b : char) (tail : str).
Hypothesis Hb : is_blank b = true.

Ltac skip_tests := repeat first
  [ rewrite decide_False by (unfold c_hash, c_newline, c_at, c_quote, c_apostrophe, c_backtick in *; intros ?; intuition lia)
  | progress cbn [rbind] ].

Lemma digit_class c : is_ascii_digit c = true → (48 ≤ c ≤ 57)%N ∧ is_blank c = false ∧ is_word c = true.
Proof.
  unfold is_ascii_digit, is_blank, is_word, is_ascii_alphanumeric, is_ascii_digit.
  intros Hc. split.
  - apply andb_true_iff in Hc as [?%N.leb_le ?%N.leb_le]. lia.
  - rewrite Hc. split; [|done]. apply bool_decide_eq_false. apply andb_true_iff in Hc as [?%N.leb_le ?%N.leb_le].
    unfold c_space, c_tab, c_return. lia.
Qed.

Lemma lex_one_digit c : is_ascii_digit c = true →
  lex_one chars last i c = let? '(t, next) := lex_number chars i in Ok ([spanned t i next], next).
Proof.
  intros Hc. destruct (digit_class c Hc) as (Hr & Hbl & _). unfold lex_one. rewrite Hbl, Hc. by skip_tests.
Qed.

Lemma decimal_number ds : drop i chars = ds ++ b :: tail → ds ≠ [] → forallb is_ascii_digit ds = true →
  lex_number chars i = Ok (TInt (digits_value 10 ds), i + length ds).
Proof.
  intros Hd Hne Hds. destruct (blank_stops b Hb) as (_ & Hbd & _ & Hdot & _). unfold lex_number.
  rewrite Hd, take_while_app by done.
  assert (chars !! (i + length ds) = Some b) as Hj.
  { rewrite (lookup_of_drop _ _ _ _ Hd). by apply list_lookup_middle. }
  rewrite decide_False by (rewrite Hj; naive_solver). unfold lex_integer_literal. rewrite Hj.
  assert (slice chars i (i + length ds) = ds) as Hs.
  { unfold slice. rewrite Hd. replace (i + length ds - i) with (length ds) by lia. by rewrite take_app_length. }
  rewrite Hs. case_decide; [|done]. destruct (blank_cases b Hb) as [->|[->| ->]]; reflexivity.
Qed.

Lemma float_number ds fs : drop i chars = (ds ++ c_dot :: fs) ++ b :: tail → ds ≠ [] → fs ≠ [] →
  forallb is_ascii_digit (ds ++ fs) = true → is_finite (parse_f64 ds fs) = true →
  lex_number chars i = Ok (TFloat (parse_f64 ds fs), i + length (ds ++ c_dot :: fs)).
Proof.
  intros Hd Hne Hfe Hall Hfin. rewrite forallb_app in Hall. apply andb_true_iff in Hall as [Hds Hfs].
  destruct (blank_stops b Hb) as (_ & Hbd & _ & Hdot & _). rewrite <- app_assoc in Hd. cbn in Hd. unfold lex_number.
  assert (drop (i + length ds + 1) chars = fs ++ b :: tail) as Hd2.
  { rewrite <- Nat.add_assoc. apply (drop_of_drop _ (ds ++ [c_dot]) _ i); [by rewrite Hd, <- app_assoc|by rewrite length_app]. }
  rewrite Hd, take_while_app by done. rewrite Hd2, (take_while_app _ fs) by done.
  rewrite decide_True.
  2: { split; [|done]. rewrite (lookup_of_drop _ _ _ _ Hd). by apply list_lookup_middle. }
  rewrite Hfin. do 2 f_equal. rewrite length_app. cbn. lia.
Qed.

Lemma valid_digits base body : forallb (λ ch, is_valid_int_digit ch base) body = true →
  forallb is_ascii_alphanumeric body = true ∧ position (λ ch, negb (is_valid_int_digit ch base)) body = None.
Proof.
  intros Hv. rewrite forallb_forall in Hv. split.
  - apply forallb_forall. intros ch Hch. specialize (Hv ch Hch). unfold is_ascii_alphanumeric, is_ascii_alphabetic.
    destruct base; cbn in Hv.
    + apply bool_decide_eq_true in Hv as [->| ->]; done.
    + apply orb_true_iff. left. unfold is_ascii_digit. rewrite andb_true_iff, !N.leb_le in *. lia.
    + by rewrite Hv.
    + apply orb_true_iff in Hv as [->|Hv]; [done|]. apply orb_true_iff. right.
      rewrite orb_true_iff, !andb_true_iff, !N.leb_le in *. lia.
  - apply position_None, Forall_forall. intros ch Hch%list_elem_of_In. by rewrite (Hv ch Hch).
Qed.

Lemma based_number p base body : drop i chars = (c_zero :: p :: body) ++ b :: tail →
  (p, base) ∈ [(98%N, Bin); (111%N, Oct); (100%N, Dec); (120%N, Hex)] → body ≠ [] →
  forallb (λ ch, is_valid_int_digit ch base) body = true →
  lex_number chars i = Ok (TInt (digits_value (radix base) body), i + length (c_zero :: p :: body)).
Proof.
  intros Hd Hp Hne Hbody. destruct (blank_stops b Hb) as (_ & _ & Hba & _ & _).
  destruct (valid_digits _ _ Hbody) as [Halnum Hpos]. unfold lex_number.
  assert (take_while is_ascii_digit (drop i chars) = [c_zero]) as ->.
  { rewrite Hd. cbn. assert (is_ascii_digit p = false) as ->; [|done].
    rewrite !elem_of_cons, elem_of_nil in Hp. destruct Hp as [[= -> _]|[[= -> _]|[[= -> _]|[[= -> _]|[]]]]]; done. }
  assert (chars !! i = Some c_zero) as H0 by (rewrite <- (Nat.add_0_r i); by rewrite (lookup_of_drop _ _ 0 _ Hd)).
  assert (chars !! (i + 1) = Some p) as H1 by (by rewrite (lookup_of_drop _ _ 1 _ Hd)).
  cbn [length]. assert (p ≠ c_dot) as Hpd.
  { rewrite !elem_of_cons, elem_of_nil in Hp. destruct Hp as [[= -> _]|[[= -> _]|[[= -> _]|[[= -> _]|[]]]]]; done. }
  rewrite decide_False by (rewrite H1; naive_solver). unfold lex_integer_literal. rewrite decide_True by done. rewrite H1.
  assert (drop (i + 1 + 1) chars = body ++ b :: tail) as Hd2.
  { rewrite <- Nat.add_assoc. by apply (drop_of_drop _ [c_zero; p] _ i). }
  rewrite Hd2, take_while_app by done.
  rewrite !elem_of_cons, elem_of_nil in Hp. destruct Hp as [[= -> ->]|[[= -> ->]|[[= -> ->]|[[= -> ->]|[]]]]];
    (destruct body as [|d body]; [done|]); 
    rewrite decide_False by lia; repeat first [rewrite decide_True by reflexivity | rewrite decide_False by lia];
    rewrite Hpos; cbn [rbind]; do 2 f_equal; cbn [length]; lia.
Qed.

Lemma word_class c : is_ascii_alphabetic c || bool_decide (c = c_underscore) = true →
  (65 ≤ c)%N ∧ c ≠ 96%N ∧ is_blank c = false ∧ is_ascii_digit c = false ∧ is_word c = true ∧ c ≠ 64%N.
Proof.
  unfold is_word, is_ascii_alphanumeric, is_blank, is_ascii_digit, is_ascii_alphabetic. intros Hc.
  assert ((65 ≤ c ≤ 90)%N ∨ c = 95%N ∨ (97 ≤ c ≤ 122)%N) as Hr.
  { rewrite !orb_true_iff, !andb_true_iff, !N.leb_le, bool_decide_eq_true in Hc. unfold c_underscore in Hc. lia. }
  split_and!; try lia.
  - apply bool_decide_eq_false. unfold c_space, c_tab, c_return. lia.
  - apply andb_false_iff. rewrite !N.leb_gt. lia.
  - rewrite <- orb_assoc, Hc. apply orb_true_r.
Qed.

Lemma lex_one_word c text : drop i chars = (c :: text) ++ b :: tail →
  is_ascii_alphabetic c || bool_decide (c = c_underscore) = true → forallb is_word text = true →
  lex_one chars last i c = Ok ([spanned (word_token (c :: text)) i (i + length (c :: text))], i + length (c :: text)).
Proof.
  intros Hd Hc Htext. destruct (word_class c Hc) as (Hge & Hbt & Hbl & Hdg & Hw & Hat). unfold lex_one.
  rewrite Hbl, Hdg, Hc. skip_tests. destruct (blank_stops b Hb) as (Hbw & _).
  rewrite Hd, (take_while_app is_word (c :: text)); [done| |done]. cbn. by rewrite Hw.
Qed.

Lemma lex_one_string t : drop i chars = quote_surtr_string_literal t ++ b :: tail → Forall (λ c, is_scalar c = true) t →
  lex_one chars last i c_quote = Ok ([spanned (TStr (Plain t)) i (i + length (quote_surtr_string_literal t))],
    i + length (quote_surtr_string_literal t)).
Proof.
  intros Hd Ht. unfold lex_one. change (is_blank c_quote) with false.
  unfold quote_surtr_string_literal in *. rewrite <- !app_assoc in Hd. cbn in Hd.
  rewrite decide_False by done. rewrite decide_False by done. rewrite decide_False by done.
  rewrite decide_False.
  2: { intros [_ Htr]. unfold triple_at in Htr. apply bool_decide_eq_true in Htr as (_ & H1 & H2).
       rewrite (lookup_of_drop _ _ 1 _ Hd) in H1. rewrite (lookup_of_drop _ _ 2 _ Hd) in H2.
       destruct t as [|x t]; [cbn in H2; injection H2 as ->; by destruct (blank_stops _ Hb) as (_ & _ & _ & _ & ?)|].
       assert (head (quote_body (x :: t)) ≠ Some c_quote) as Hne.
       { cbn. repeat (case_decide || case_match); cbn; first [done | congruence]. }
       destruct (quote_body (x :: t)) as [|y r] eqn:Hq; [pose proof (length_quote_body (x :: t)) as Hl; rewrite Hq in Hl; cbn in Hl; lia|].
       cbn in H1, Hne. congruence. }
  rewrite decide_True by (by left). unfold scan_string, index.
  assert (chars !! i = Some c_quote) as -> by (rewrite <- (Nat.add_0_r i); by rewrite (lookup_of_drop _ _ 0 _ Hd)).
  cbn -[scan_loop quote_body].
  rewrite (scan_quoted chars i _ (i + 1) [] t (b :: tail)); [|by apply (drop_of_drop _ [c_quote] _ i)|done|].
  2: { pose proof (length_quote_body t) as Hl.
       assert (length (quote_body t) ≤ length chars); [|lia].
       transitivity (length (drop i chars)); [rewrite Hd; cbn; rewrite length_app; lia|rewrite length_drop; lia]. }
  cbn [rbind]. rewrite app_nil_l. replace (i + 1 + length (quote_body t) + 1) with (i + length ([c_quote] ++ quote_body t ++ [c_quote]))
    by (rewrite !length_app; cbn; lia). done.
Qed.

Lemma forallb_not_backtick body : Forall (λ c, c ≠ c_backtick) body →
  forallb (λ c, bool_decide (c ≠ c_backtick)) body = true.
Proof. induction 1 as [|c body Hc _ IH]; cbn; [done|]. by rewrite bool_decide_eq_true_2, IH. Qed.

Lemma lex_one_func body : drop i chars = (c_backtick :: body ++ [c_backtick]) ++ b :: tail →
  is_valid_func_literal_body body = true → body ≠ [] → Forall (λ c, c ≠ c_backtick) body →
  lex_one chars last i c_backtick = Ok ([spanned (TFuncLiteral body) i (i + length (c_backtick :: body ++ [c_backtick]))],
    i + length (c_backtick :: body ++ [c_backtick])).
Proof.
  intros Hd Hv Hne Hbt. rewrite <- app_comm_cons, <- app_assoc in Hd. cbn in Hd.
  unfold lex_one. change (is_blank c_backtick) with false. do 5 rewrite decide_False by (done || (unfold not; intuition discriminate)).
  rewrite decide_True by done. unfold lex_func_literal.
  assert (drop (i + 1) chars = body ++ c_backtick :: b :: tail) as Hd1 by (by apply (drop_of_drop _ [c_backtick] _ i)).
  rewrite Hd1, take_while_app by (by apply forallb_not_backtick || by apply bool_decide_eq_false_2; intros []).
  assert (length chars = i + length (c_backtick :: body ++ c_backtick :: b :: tail)) as Hlen by (by apply length_of_drop in Hd).
  cbn in Hlen. rewrite length_app in Hlen. cbn in Hlen. rewrite decide_False by lia.
  destruct body as [|x body]; [done|]. rewrite Hv. cbn [rbind].
  replace (i + length (c_backtick :: (x :: body) ++ [c_backtick])) with (i + 1 + length (x :: body) + 1)
    by (cbn; rewrite length_app; cbn; lia). done.
Qed.

Lemma lex_one_annotator name : drop i chars = (c_at :: name) ++ b :: tail → forallb is_word name = true →
  lex_one chars last i c_at = Ok ([spanned (match name with [] => TAt | _ => TAnnotator name end) i (i + length (c_at :: name))],
    i + length (c_at :: name)).
Proof.
  intros Hd Hn. unfold lex_one. change (is_blank c_at) with false. do 2 rewrite decide_False by done.
  rewrite decide_True by done. destruct (blank_stops b Hb) as (Hbw & _).
  assert (drop (i + 1) chars = name ++ b :: tail) as -> by (by apply (drop_of_drop _ [c_at] _ i)).
  rewrite take_while_app by done. destruct name as [|x name]; [done|]. cbn [length].
  by replace (i + S (S (length name))) with (i + 1 + S (length name)) by lia.
Qed.

(** Operators do not begin like anything else. *)
Definition is_operator_start (c : char) : bool :=
  negb (is_blank c || is_ascii_digit c || is_ascii_alphabetic c || bool_decide (c = c_underscore)
        || bool_decide (c ∈ [c_hash; c_newline; c_at; c_quote; c_apostrophe; c_backtick])).

Lemma lex_one_operator c : is_operator_start c = true → lex_one chars last i c = lex_operator chars last i c.
Proof.
  unfold is_operator_start. rewrite negb_true_iff, !orb_false_iff. intros ((((Hbl & Hdg) & Hal) & Hus) & Hin).
  apply bool_decide_eq_false in Hin. rewrite !elem_of_cons, elem_of_nil in Hin. unfold lex_one. rewrite Hbl, Hdg, Hal, Hus.
  by do 6 (rewrite decide_False by tauto).
Qed.

(** Only the text from [i] on matters. *)
Definition shift_span (n : nat) (s : Spanned) : Spanned :=
  spanned (sp_token s) (n + span_start (sp_span s)) (n + span_end (sp_span s)).

Lemma lex_operator_shift c new next : drop i chars ≠ [] → lex_operator (drop i chars) last 0 c = Ok (new, next) →
  lex_operator chars last i c = Ok (shift_span i <$> new, i + next).
Proof.
  intros Hne. pose proof (length_of_drop _ _ _ eq_refl Hne) as Hlen. unfold lex_operator. rewrite !drop_0.
  set (rest := drop i chars) in *. change (0 + 2) with 2. change (0 + 1) with 1.
  assert (∀ (A : Type) (x y : A) k, (if decide (i + k < length chars) then x else y) = (if decide (k < length rest) then x else y))
    as Hif by (intros A x y k; repeat case_decide; (done || lia)).
  rewrite !Hif. destruct (if decide (2 < _) then _ else _) as [t|].
  { intros [= <- <-]. unfold shift_span, spanned. cbn. by rewrite Nat.add_0_r. }
  destruct (decide (1 < length rest ∧ take 2 rest = lit "||" ∧ is_lbrace last = true)) as [(H1 & H2 & H3)|Hn].
  { rewrite (decide_True (P := i + 1 < length chars ∧ take 2 rest = lit "||" ∧ is_lbrace last = true)) by (split_and!; [lia|done..]).
    intros [= <- <-]. unfold shift_span, spanned. cbn.
    by rewrite Nat.add_0_r. }
  rewrite (decide_False (P := i + 1 < length chars ∧ take 2 rest = lit "||" ∧ is_lbrace last = true))
    by (intros (? & ? & ?); apply Hn; split_and!; [lia|done..]).
  destruct (if decide (1 < _) then _ else _) as [t|].
  { intros [= <- <-]. unfold shift_span, spanned. cbn. by rewrite Nat.add_0_r. }
  assert (chars !! (i + 1) = rest !! 1) as -> by (unfold rest; by rewrite lookup_drop). case_decide.
  { intros [= <- <-]. unfold shift_span, spanned. cbn. by rewrite Nat.add_0_r. }
  destruct (assoc one_char [c]); [|done]. intros [= <- <-]. unfold shift_span, spanned. cbn. by rewrite Nat.add_0_r.
Qed.

End one.

(** Every operator, whatever follows the blank behind it. *)
Lemma operators_lex last b tail : is_blank b = true →
  Forall (λ p : str * Token, (p.2 = TOrOr → is_lbrace last = false) →
    match p.1 with
    | [] => False
    | c :: _ => is_operator_start c = true ∧
        lex_operator (p.1 ++ b :: tail) last 0 c = Ok ([spanned p.2 0 (length p.1)], length p.1)
    end) ((lit "()", TUnit) :: operators).
Proof.
  intros Hb. unfold operators, three_char, two_char, one_char. cbn [app].
  destruct (blank_cases b Hb) as [->|[->| ->]]; destruct tail as [|x tail];
    (repeat (constructor; [cbn [fst snd]; intros Hlast; first
      [ split; vm_compute; reflexivity
      | specialize (Hlast eq_refl); split; [vm_compute; reflexivity|]; cbn [app lit]; unfold lex_operator; rewrite Hlast;
        vm_compute; reflexivity ]|]);
     constructor).
Qed.

Lemma spelled_operator_step chars last i b tail text t :
  is_blank b = true → drop i chars = text ++ b :: tail → (text, t) ∈ (lit "()", TUnit) :: operators →
  (t = TOrOr → is_lbrace last = false) → ∃ c, head text = Some c ∧
  lex_one chars last i c = Ok ([spanned t i (i + length text)], i + length text).
Proof.
  intros Hb Hd Hin Hor. pose proof (operators_lex last b tail Hb) as Hall. rewrite Forall_forall in Hall.
  specialize (Hall _ Hin Hor). cbn in Hall. destruct text as [|c text]; [done|]. destruct Hall as [Hstart Hlex].
  exists c. split; [done|]. rewrite lex_one_operator by done. rewrite <- Hd in Hlex.
  rewrite (lex_operator_shift _ _ _ _ _ _ ltac:(rewrite Hd; done) Hlex).
  unfold shift_span, spanned. cbn. by rewrite Nat.add_0_r.
Qed.

Lemma spelled_step chars last i b tail t text :
  spelled t text → is_blank b = true → drop i chars = text ++ b :: tail → (t = TOrOr → is_lbrace last = false) →
  ∃ c, head text = Some c ∧ lex_one chars last i c = Ok ([spanned t i (i + length text)], i + length text).
Proof.
  intros Hsp Hb Hd Hor. destruct Hsp.
  - destruct ds as [|c ds]; [done|]. exists c. split; [done|]. pose proof H0 as Hc. cbn in Hc.
    apply andb_true_iff in Hc as [Hc _]. rewrite lex_one_digit by done. by rewrite (decimal_number _ _ b tail Hb (c :: ds)).
  - exists c_zero. split; [done|]. rewrite lex_one_digit by done. by rewrite (based_number _ _ b tail Hb p base body).
  - destruct ds as [|c ds]; [done|]. exists c. split; [done|]. pose proof H1 as Hc. cbn in Hc.
    apply andb_true_iff in Hc as [Hc _]. rewrite lex_one_digit by done. by rewrite (float_number _ _ b tail Hb (c :: ds) fs).
  - exists c_quote. split; [done|]. by apply (lex_one_string _ _ _ b tail).
  - exists c. split; [done|]. by apply (lex_one_word _ _ _ b tail).
  - exists c_backtick. split; [done|]. by apply (lex_one_func _ _ _ b tail).
  - exists c_at. split; [done|]. rewrite (lex_one_annotator _ _ _ b tail Hb name) by done. by destruct name.
  - exists c_at. split; [done|]. by rewrite (lex_one_annotator _ _ _ b tail Hb []).
  - exists c_newline. split; done.
  - eapply spelled_operator_step; [done..|by left|done].
  - eapply spelled_operator_step; [done..|by right|done].
Qed.

(** A token, its text and the blanks behind it. *)
Record item : Type := mkItem { it_token : Token; it_text : str; it_blanks : str }.

Definition item_ok (x : item) : Prop :=
  spelled (it_token x) (it_text x) ∧ it_blanks x ≠ [] ∧ forallb is_blank (it_blanks x) = true.

(** Two bars after an opening brace would be taken for the parameters of a closure. *)
Fixpoint readable (last : option Token) (items : list item) : Prop :=
  match items with
  | [] => True
  | x :: rest => (it_token x = TOrOr → is_lbrace last = false) ∧ readable (Some (it_token x)) rest
  end.

Definition render (items : list item) : str := items ≫= λ x, it_text x ++ it_blanks x.

(** The tokens at their places. *)
Fixpoint placed (i : nat) (items : list item) : list Spanned :=
  match items with
  | [] => [spanned TEof i i]
  | x :: rest =>
      spanned (it_token x) i (i + length (it_text x)) :: placed (i + length (it_text x) + length (it_blanks x)) rest
  end.

(** Blanks are skipped one by one. *)
Lemma skip_blanks chars blanks tail acc fuel : ∀ i, drop i chars = blanks ++ tail → forallb is_blank blanks = true →
  tokenize_loop (length blanks + fuel) chars i acc = tokenize_loop fuel chars (i + length blanks) acc.
Proof.
  induction blanks as [|c blanks IH]; intros i Hd Hb; cbn [length]; [by rewrite Nat.add_0_r|].
  cbn in Hb. apply andb_true_iff in Hb as [Hc Hb]. cbn [Nat.add tokenize_loop].
  assert (chars !! i = Some c) as -> by (rewrite <- (Nat.add_0_r i); by rewrite (lookup_of_drop _ _ 0 _ Hd)).
  unfold lex_one. rewrite Hc. cbn [rbind]. rewrite app_nil_r, IH; [f_equal; lia| |done].
  by apply (drop_of_drop _ [c] _ i).
Qed.

Lemma tokenize_items chars items : ∀ i acc fuel, drop i chars = render items → i ≤ length chars →
  Forall item_ok items → readable (sp_token <$> last acc) items → length (render items) < fuel →
  tokenize_loop fuel chars i acc = Ok (acc ++ placed i items).
Proof.
  induction items as [|[t text blanks] items IH]; intros i acc fuel Hd Hi Hok Hr Hf.
  { cbn in Hd. assert (i = length chars) as -> by (apply (f_equal length) in Hd; rewrite length_drop in Hd; cbn in Hd; lia).
    destruct fuel; [cbn in Hf; lia|]. cbn [tokenize_loop]. by rewrite lookup_ge_None_2. }
  apply Forall_cons in Hok as [(Hsp & Hne & Hbl) Hok]. cbn in Hsp, Hne, Hbl, Hr, Hd, Hf. destruct Hr as [Hor Hr].
  rewrite <- !app_assoc in Hd. rewrite !length_app in Hf. fold (render items) in Hd, Hf.
  destruct blanks as [|b blanks]; [done|]. pose proof Hbl as Hb. cbn in Hb. apply andb_true_iff in Hb as [Hb _].
  destruct (spelled_step chars (sp_token <$> last acc) i b (blanks ++ render items) t text Hsp Hb Hd Hor) as (c & Hc & Hlex).
  destruct text as [|c' text]; [done|]. injection Hc as ->.
  assert (chars !! i = Some c) as Hi0 by (rewrite <- (Nat.add_0_r i); by rewrite (lookup_of_drop _ _ 0 _ Hd)).
  destruct fuel as [|fuel]; [lia|]. cbn [tokenize_loop]. rewrite Hi0, Hlex. cbn [rbind].
  assert (drop (i + length (c :: text)) chars = (b :: blanks) ++ render items) as Hd2 by (by eapply drop_of_drop).
  assert (length chars = i + length (c :: text) + length (b :: blanks) + length (render items)) as Hlen.
  { apply (f_equal length) in Hd2. rewrite length_app, length_drop in Hd2. cbn in Hd2 |- *. cbn in Hf.
    apply length_of_drop in Hd; [|done]. cbn in Hd. rewrite !length_app in Hd. cbn in Hd. rewrite length_app in Hd. lia. }
  replace fuel with (length (b :: blanks) + (fuel - length (b :: blanks))) by (cbn in *; lia).
  rewrite (skip_blanks _ _ _ _ _ _ Hd2 Hbl). rewrite IH.
  - by rewrite <- app_assoc.
  - by eapply drop_of_drop.
  - lia.
  - done.
  - by rewrite last_snoc.
  - cbn in *. lia.
Qed.


Definition sample_items : list item :=
  [mkItem (TIdent (lit "num")) (lit "num") (lit " ");
   mkItem TBind (lit "=") (lit "  ");
   mkItem (TInt 255) (lit "0xff") (lit " ");
   mkItem TPipeBind (lit "|>=") (lit " ");
   mkItem (TStr (Plain (lit "a"))) (quote_surtr_string_literal (lit "a")) (lit " ");
   mkItem TNewline [c_newline] (lit " ");
   mkItem TDef (lit "def") (lit " ")].


End LexerProps.
