(* ===== verification/ListBuilder.v ===== *)
(** * The list builder of the builtins ([crates/eldr/src/builtin/list_builder.rs])

    Builtins that produce lists append to a [ListBuilder]: a chain of reference
    counted segments that is mutated in place as long as nobody else holds it.
    Checkpoints of the machine clone the builders of suspended builtins, so
    several builders share segments and [Rc::get_mut], [Rc::try_unwrap] and
    [Rc::strong_count] decide between mutating and sharing.  The segments are
    therefore cells of an explicit store with their counts; every clone, move
    and drop of a pointer is written out. *)

From S2P Require Import Prelude Names ListHandle Value RuntimeError.

(** ** The store of segments *)

(** [struct Segment] behind its [Rc], with the strong count of the [Rc]. *)
Record Segment (A : Type) : Type := mkSegment {
  sg_strong : nat;
  sg_prefix : option nat;
  sg_items : list A;
}.
Arguments mkSegment {A} sg_strong sg_prefix sg_items.
Arguments sg_strong {A} _.
Arguments sg_prefix {A} _.
Arguments sg_items {A} _.

(** Addresses are never reused. *)
Record Heap (A : Type) : Type := mkHeap {
  hp_next : nat;
  hp_cells : gmap nat (Segment A);
}.
Arguments mkHeap {A} hp_next hp_cells.
Arguments hp_next {A} _.
Arguments hp_cells {A} _.

(** [struct ListBuilder]. *)
Record ListBuilder : Type := mkBuilder {
  lb_head : option nat;
  lb_len : nat;
}.

(** [struct ListBuilderFinish]. *)
Record ListBuilderFinish (A : Type) : Type := mkFinish {
  fi_current : option nat;
  fi_cursor : nat;
  fi_output : ListHandle A;
  fi_len : nat;
}.
Arguments mkFinish {A} fi_current fi_cursor fi_output fi_len.
Arguments fi_current {A} _.
Arguments fi_cursor {A} _.
Arguments fi_output {A} _.
Arguments fi_len {A} _.

Inductive ListFinishStep (A : Type) : Type :=
| FinishComplete (list : ListHandle A)
| FinishPending (f : ListBuilderFinish A).
Arguments FinishComplete {A} list.
Arguments FinishPending {A} f.

(** ** Computations on the store *)

Section store.
Context {A : Type}.

Definition St (B : Type) : Type := Heap A → Heap A * Try RuntimeError B.

Definition retS {B} (b : B) : St B := λ h, (h, Ok b).
Definition bindS {B C} (m : St B) (k : B → St C) : St C := λ h,
  match m h with
  | (h', Ok b) => k b h'
  | (h', Err e) => (h', Err e)
  end.
Definition throwS {B} (message : str) : St B := λ h, (h, fail (RuntimeError.new message)).
Definition panicS {B} (p : panic) : St B := λ h, (h, Err (Panicked p)).
Definition liftS {B} (m : Run B) : St B := λ h, (h, lift_run m).
End store.
Arguments St : clear implicits.

Declare Scope store_scope.
Delimit Scope store_scope with store.
Notation "'let!' x ':=' m 'in' k" := (bindS m (λ x, k))
  (at level 10, x name, m at level 100, k at level 200) : store_scope.
Notation "m ;;; k" := (bindS m (λ _, k)) (at level 100, k at level 200, right associativity) : store_scope.
#[global] Open Scope store_scope.

Module Rc.
Section rc.
Context {A : Type}.
Implicit Types (l : nat) (s : Segment A) (h : Heap A).

(** Following a pointer.  A live pointer always has its cell. *)
Definition deref l : St A (Segment A) := λ h,
  (h, match hp_cells h !! l with Some s => Ok s | None => Err (Panicked PUnreachable) end).
Definition store l s : St A unit := λ h, (mkHeap (hp_next h) (<[l := s]> (hp_cells h)), Ok tt).
Definition free l : St A unit := λ h, (mkHeap (hp_next h) (delete l (hp_cells h)), Ok tt).

(** [Rc::new]. *)
Definition rc_new (prefix : option nat) (items : list A) : St A nat := λ h,
  (mkHeap (Nat.succ (hp_next h)) (<[hp_next h := mkSegment 1 prefix items]> (hp_cells h)),
   Ok (hp_next h)).

Definition with_strong (n : nat) s : Segment A := mkSegment n (sg_prefix s) (sg_items s).
Definition with_items (items : list A) s : Segment A := mkSegment (sg_strong s) (sg_prefix s) items.

(** [Rc::clone] of an optional pointer. *)
Definition rc_clone (o : option nat) : St A (option nat) :=
  match o with
  | None => retS None
  | Some l => let! s := deref l in store l (with_strong (sg_strong s + 1) s) ;;; retS o
  end.

(** [Drop for Segment]: releasing the last pointer of a segment releases its
    prefix, iteratively. *)
Fixpoint drop_loop (fuel : nat) (o : option nat) : St A unit :=
  match o with
  | None => retS tt
  | Some l =>
      match fuel with
      | 0 => panicS PFuel
      | S fuel' =>
          let! s := deref l in
          if decide (sg_strong s = 1) then free l ;;; drop_loop fuel' (sg_prefix s)
          else store l (with_strong (sg_strong s - 1) s)
      end
  end.
Definition rc_drop (o : option nat) : St A unit := λ h, drop_loop (hp_next h) o h.

(** [Rc::get_mut]: the segment, if this is its only pointer. *)
Definition get_mut l : St A (option (Segment A)) :=
  let! s := deref l in retS (if decide (sg_strong s = 1) then Some s else None).

End rc.
End Rc.

Module ListBuilder.

Section builder.
Context {A : Type}.
(** [std::mem::size_of::<Value>()]. *)
Context (value_size : N).
Implicit Types (b : ListBuilder) (f : ListBuilderFinish A).

Definition default_builder : ListBuilder := mkBuilder None 0.

(** [Clone for ListBuilder]. *)
Definition clone b : St A ListBuilder :=
  if decide (lb_len b = 0) then retS default_builder
  else let! head := Rc.rc_clone (lb_head b) in retS (mkBuilder head (lb_len b)).

Definition isize_max : N := 9223372036854775807.

Definition with_capacity (capacity : nat) : St A ListBuilder :=
  if decide (capacity = 0) then retS default_builder
  else if decide (isize_max `div` value_size < N.of_nat capacity)%N then
    throwS (lit "List builder capacity overflow")
  else let! l := Rc.rc_new None [] in retS (mkBuilder (Some l) 0).

(** The head segment, when it may be mutated and has room. *)
Definition writable_head b : St A (option (nat * Segment A)) :=
  match lb_head b with
  | None => retS None
  | Some l =>
      let! unique := Rc.get_mut l in
      retS (match unique with
            | Some s => if decide (length (sg_items s) < LIST_CHUNK_CAPACITY) then Some (l, s) else None
            | None => None
            end)
  end.

Definition push b (value : A) : St A ListBuilder :=
  match usize_checked_add (lb_len b) 1 with
  | None => throwS (lit "List builder length overflow")
  | Some len =>
      let! segment := writable_head b in
      match segment with
      | Some (l, s) =>
          Rc.store l (Rc.with_items (sg_items s ++ [value]) s) ;;; retS (mkBuilder (lb_head b) len)
      | None =>
          if decide (lb_len b = 0) then
            let! l := Rc.rc_new None [value] in
            Rc.rc_drop (lb_head b) ;;; retS (mkBuilder (Some l) len)
          else
            let! l := Rc.rc_new (lb_head b) [value] in
            retS (mkBuilder (Some l) len)
      end
  end.

(** [map_or(0, |segment| segment.items.len())]. *)
Definition head_items_len (o : option nat) : St A nat :=
  match o with
  | None => retS 0
  | Some l => let! s := Rc.deref l in retS (length (sg_items s))
  end.

Definition finish b : St A (ListBuilderFinish A) :=
  let! cursor := head_items_len (lb_head b) in
  retS (mkFinish (lb_head b) cursor ListHandle.empty (lb_len b)).

(** [Clone for ListBuilderFinish] (derived). *)
Definition clone_finish f : St A (ListBuilderFinish A) :=
  let! current := Rc.rc_clone (fi_current f) in
  retS (mkFinish current (fi_cursor f) (fi_output f) (fi_len f)).

Definition complete f : St A (ListFinishStep A) :=
  if decide (ListHandle.len (fi_output f) = fi_len f) then retS (FinishComplete (fi_output f))
  else throwS (lit "List builder finished length mismatch").

(** Continue with the segment [current]. *)
Definition advance (current : option nat) (output : ListHandle A) (len : nat) : St A (ListFinishStep A) :=
  let! cursor := head_items_len current in
  let f := mkFinish current cursor output len in
  match current with
  | None => complete f
  | Some _ => retS (FinishPending f)
  end.

Definition resume f : St A (ListFinishStep A) :=
  match fi_current f with
  | None => complete f
  | Some l =>
      let! s := Rc.deref l in
      let n := length (sg_items s) in
      let unique := bool_decide (sg_strong s = 1) in
      if decide (n < fi_cursor f) then
        Rc.rc_drop (Some l) ;;; throwS (lit "List builder finish cursor exceeds segment length")
      else if negb (bool_decide (sg_items s = [])) && bool_decide (fi_cursor f = n) && unique then
        Rc.free l ;;;
        let! output := liftS (ListHandle.prepend_items (sg_items s) (fi_output f)) in
        advance (sg_prefix s) output (fi_len f)
      else if unique && bool_decide (fi_cursor f < n) then
        Rc.store l (Rc.with_items (take (n - 1) (sg_items s)) s) ;;; retS (FinishPending f)
      else if decide (fi_cursor f = 0) then
        if unique then
          Rc.free l ;;; advance (sg_prefix s) (fi_output f) (fi_len f)
        else
          let! current := Rc.rc_clone (sg_prefix s) in
          Rc.rc_drop (Some l) ;;; advance current (fi_output f) (fi_len f)
      else
        let cursor := fi_cursor f - 1 in
        let! value := liftS (if unique then expect (last (sg_items s)) else index (sg_items s) cursor) in
        (if unique then Rc.store l (Rc.with_items (take (n - 1) (sg_items s)) s) else retS tt) ;;;
        let! output := liftS (ListHandle.cons value (fi_output f)) in
        retS (FinishPending (mkFinish (fi_current f) cursor output (fi_len f)))
  end.

End builder.

End ListBuilder.
