(* ===== verification/ListBuilderProps.v ===== *)
(** * The list builder implements a sequence ([crates/eldr/src/builtin/list_builder.rs])

    [heap_ok h roots] says that the strong counts of the store are exact for the
    pointers [roots] held outside it, [chain] reads the segments behind a
    pointer, and [keeps h h' roots] is the guarantee every operation gives to
    the other holders: what they read does not change.  On top of it stand the
    specifications of the operations, the refinement of a pool of builders that
    share segments, and the bound on the steps of a finish. *)

From S2P Require Import Prelude Names ListHandle Value RuntimeError ListBuilder.

Section invariant.
Context {A : Type}.
Implicit Types (cells : gmap nat (Segment A)) (h : Heap A) (s : Segment A).
Implicit Types (l p : nat) (o : option nat) (R : list nat) (segs : list (list A)).

Definition prefixes cells : list nat := omap (λ x, sg_prefix x.2) (map_to_list cells).

(** How often [l] is pointed to. *)
Definition refs cells R l : nat := count_occ Nat.eq_dec R l + count_occ Nat.eq_dec (prefixes cells) l.
Definition occ o l : nat := if decide (o = Some l) then 1 else 0.

Record heap_ok h R : Prop := {
  ok_cell : ∀ l s, hp_cells h !! l = Some s →
    sg_strong s = refs (hp_cells h) R l ∧ 0 < sg_strong s ∧ l < hp_next h ∧
    length (sg_items s) ≤ LIST_CHUNK_CAPACITY ∧ (∀ p, sg_prefix s = Some p → p < l);
  ok_live : ∀ l, 0 < refs (hp_cells h) R l → is_Some (hp_cells h !! l);
}.

(** The contents of the segments behind a pointer, the oldest first. *)
Inductive chain cells : option nat → list (list A) → Prop :=
| chain_none : chain cells None []
| chain_some l s segs : cells !! l = Some s → chain cells (sg_prefix s) segs →
    chain cells (Some l) (segs ++ [sg_items s]).

Definition keeps h h' R : Prop :=
  ∀ l segs, l ∈ R → chain (hp_cells h) (Some l) segs → chain (hp_cells h') (Some l) segs.

(** ** Counting pointers *)

Lemma count_option_list o l : count_occ Nat.eq_dec (option_list o) l = occ o l.
Proof. unfold occ. destruct o as [p|]; simpl; [|done]. destruct (Nat.eq_dec p l); case_decide; congruence. Qed.

Lemma refs_app cells o R l : refs cells (option_list o ++ R) l = occ o l + refs cells R l.
Proof. unfold refs. rewrite count_occ_app, count_option_list. lia. Qed.

Lemma refs_cons cells p R l : refs cells (p :: R) l = occ (Some p) l + refs cells R l.
Proof. apply (refs_app cells (Some p)). Qed.

Lemma omap_single (x : nat * Segment A) (L : list (nat * Segment A)) :
  omap (λ x, sg_prefix x.2) (x :: L) = option_list (sg_prefix x.2) ++ omap (λ x, sg_prefix x.2) L.
Proof. simpl. by destruct (sg_prefix x.2). Qed.

Lemma refs_insert cells R l s l' :
  cells !! l = None → refs (<[l := s]> cells) R l' = occ (sg_prefix s) l' + refs cells R l'.
Proof.
  intros Hl. unfold refs, prefixes.
  rewrite (proj1 (Permutation_count_occ Nat.eq_dec _ _) (omap_Permutation _ _ _ (map_to_list_insert cells l s Hl))).
  rewrite omap_single, count_occ_app, count_option_list. simpl. lia.
Qed.

Lemma refs_delete cells R l s l' :
  cells !! l = Some s → refs cells R l' = occ (sg_prefix s) l' + refs (delete l cells) R l'.
Proof.
  intros Hl. rewrite <- (insert_delete_id cells l s Hl) at 1.
  apply refs_insert, lookup_delete_eq.
Qed.

Lemma refs_replace cells R l s s' l' :
  cells !! l = Some s → sg_prefix s' = sg_prefix s → refs (<[l := s']> cells) R l' = refs cells R l'.
Proof.
  intros Hl Hp. rewrite <- insert_delete_eq, refs_insert by apply lookup_delete_eq.
  by rewrite Hp, (refs_delete cells R l s).
Qed.

Lemma occ_self l : occ (Some l) l = 1.
Proof. unfold occ. by rewrite decide_True. Qed.
Lemma occ_pos o l : 0 < occ o l → o = Some l.
Proof. unfold occ. case_decide; [done|lia]. Qed.

Lemma refs_prefix cells R l s p :
  cells !! l = Some s → sg_prefix s = Some p → 0 < refs cells R p.
Proof. intros Hl Hp. rewrite (refs_delete cells R l s), Hp, occ_self by done. lia. Qed.

Lemma refs_root cells R l : l ∈ R → 0 < refs cells R l.
Proof.
  intros Hl. unfold refs. apply list_elem_of_In, (count_occ_In Nat.eq_dec) in Hl. lia.
Qed.

Lemma heap_ok_perm h R R' : R ≡ₚ R' → heap_ok h R → heap_ok h R'.
Proof.
  intros Hp [Hc Hl]. assert (∀ l, refs (hp_cells h) R' l = refs (hp_cells h) R l) as He.
  { intros l. unfold refs. by rewrite (proj1 (Permutation_count_occ Nat.eq_dec _ _) Hp). }
  split; intros l; rewrite He; auto.
Qed.

(** ** Reading segments *)

(** A chain is not affected by changes of the counts, nor by changes of a
    segment nothing it reads points to. *)
Lemma chain_ext (D : nat → Prop) cells cells' o segs :
  chain cells o segs →
  (∀ l s, ¬ D l → cells !! l = Some s →
     ∃ s', cells' !! l = Some s' ∧ sg_prefix s' = sg_prefix s ∧ sg_items s' = sg_items s) →
  (∀ l s p, cells !! l = Some s → sg_prefix s = Some p → ¬ D p) →
  (∀ l, o = Some l → ¬ D l) → chain cells' o segs.
Proof.
  induction 1 as [|l s segs Hl Hc IH]; intros Hsame Hp Ho; [constructor|].
  destruct (Hsame l s) as (s' & Hl' & Hp' & Hi); [by apply Ho|done|].
  rewrite <- Hi. constructor; [done|]. rewrite Hp'. apply IH; [done..|].
  intros p Hsp. by eapply Hp.
Qed.

Lemma chain_inv cells l segs :
  chain cells (Some l) segs →
  ∃ s segs', cells !! l = Some s ∧ chain cells (sg_prefix s) segs' ∧ segs = segs' ++ [sg_items s].
Proof. inversion 1; naive_solver. Qed.

Lemma keeps_trans h1 h2 h3 R : keeps h1 h2 R → keeps h2 h3 R → keeps h1 h3 R.
Proof. unfold keeps. eauto. Qed.

Lemma keeps_mono h h' R R' : (∀ l, l ∈ R' → l ∈ R) → keeps h h' R → keeps h h' R'.
Proof. unfold keeps. eauto. Qed.

Lemma keeps_option h h' R o segs :
  keeps h h' R → (∀ l, o = Some l → l ∈ R) → chain (hp_cells h) o segs → chain (hp_cells h') o segs.
Proof. intros Hk Ho. destruct o as [l|]; [by apply Hk, Ho|inversion 1; constructor]. Qed.

(** The only pointer to a segment is the one we hold. *)
Lemma unique_pointer h R l s :
  heap_ok h (l :: R) → hp_cells h !! l = Some s → sg_strong s = 1 →
  (l ∉ R) ∧ (∀ l' s', hp_cells h !! l' = Some s' → sg_prefix s' ≠ Some l).
Proof.
  intros Hok Hl H1. destruct (ok_cell _ _ Hok _ _ Hl) as (Hn & _).
  rewrite refs_cons, occ_self in Hn. split.
  - intros Hr%(refs_root (hp_cells h)). lia.
  - intros l' s' Hl' Hp. pose proof (refs_prefix _ R _ _ _ Hl' Hp). lia.
Qed.

Lemma root_cell h R l : heap_ok h R → l ∈ R → is_Some (hp_cells h !! l).
Proof. intros Hok Hl. by apply (ok_live _ _ Hok), refs_root. Qed.

(** ** The steps on the store

    Each step moves the set of outside pointers and preserves [heap_ok]; the
    pointers that stay keep what they read. *)

Definition stored h l s : Heap A := mkHeap (hp_next h) (<[l := s]> (hp_cells h)).
Definition freed h l : Heap A := mkHeap (hp_next h) (delete l (hp_cells h)).
Definition allocated h s : Heap A := mkHeap (S (hp_next h)) (<[hp_next h := s]> (hp_cells h)).

Lemma keeps_off h h' R l :
  (∀ l' s, l' ≠ l → hp_cells h !! l' = Some s → hp_cells h' !! l' = Some s) →
  l ∉ R → (∀ l' s', hp_cells h !! l' = Some s' → sg_prefix s' ≠ Some l) → keeps h h' R.
Proof.
  intros Hsame Hl Hp l' segs Hl' Hc. apply (chain_ext (λ x, x = l) (hp_cells h)); [done|..].
  - intros x s Hx Hs. exists s. by rewrite (Hsame x s).
  - intros x s p Hs Hsp ->. by eapply Hp.
  - intros x [= <-] ->. done.
Qed.

Lemma keeps_counts h l s s' R :
  hp_cells h !! l = Some s → sg_prefix s' = sg_prefix s → sg_items s' = sg_items s →
  keeps h (stored h l s') R.
Proof.
  intros Hl Hp Hi l' segs _ Hc. apply (chain_ext (λ _, False) (hp_cells h)); [done| |auto..].
  intros x t _ Hx. simpl. destruct (decide (x = l)) as [->|].
  - rewrite lookup_insert_eq. simplify_eq. eauto.
  - rewrite lookup_insert_ne by done. eauto.
Qed.

(** Replacing a segment, its prefix excepted, by one with count [n]. *)
Lemma stored_ok h R R' l s s' :
  heap_ok h R → hp_cells h !! l = Some s → sg_prefix s' = sg_prefix s →
  length (sg_items s') ≤ LIST_CHUNK_CAPACITY →
  sg_strong s' = refs (hp_cells h) R' l → 0 < sg_strong s' →
  (∀ l', l' ≠ l → refs (hp_cells h) R' l' = refs (hp_cells h) R l') →
  heap_ok (stored h l s') R'.
Proof.
  intros Hok Hl Hp Hcap Hn Hpos Hoff.
  destruct (ok_cell _ _ Hok _ _ Hl) as (_ & _ & Hlt & _ & Hord).
  split; simpl; intros x; rewrite (refs_replace _ _ _ s) by done.
  - intros t [[<- <-]|[Hx Ht]]%lookup_insert_Some.
    + split_and!; [done..|]. rewrite Hp. done.
    + rewrite Hoff by done. by apply (ok_cell _ _ Hok).
  - intros Hx. rewrite lookup_insert_is_Some'. destruct (decide (x = l)) as [->|Hne]; [by left|right].
    rewrite Hoff in Hx by done. by apply (ok_live _ _ Hok).
Qed.

Lemma freed_ok h R l s :
  heap_ok h (l :: R) → hp_cells h !! l = Some s → sg_strong s = 1 →
  heap_ok (freed h l) (option_list (sg_prefix s) ++ R) ∧
  keeps h (freed h l) (option_list (sg_prefix s) ++ R).
Proof.
  intros Hok Hl H1. destruct (unique_pointer _ _ _ _ Hok Hl H1) as [HR Hpre].
  destruct (ok_cell _ _ Hok _ _ Hl) as (Hn & _ & _ & _ & Hord).
  assert (∀ x, refs (delete l (hp_cells h)) (option_list (sg_prefix s) ++ R) x + occ (Some l) x
            = refs (hp_cells h) (l :: R) x) as Hrefs.
  { intros x. rewrite refs_app, refs_cons, (refs_delete (hp_cells h) R l s) by done. lia. }
  split; [split; simpl; intros x|].
  - intros t [Hx Ht]%lookup_delete_Some. specialize (Hrefs x). unfold occ in Hrefs.
    rewrite decide_False in Hrefs by congruence.
    destruct (ok_cell _ _ Hok _ _ Ht) as (? & ? & ? & ? & ?). split_and!; [lia|done..].
  - intros Hx. destruct (ok_live _ _ Hok x) as [t Ht]; [rewrite <- Hrefs; lia|].
    exists t. apply lookup_delete_Some. split; [|done]. intros <-.
    specialize (Hrefs l). rewrite occ_self in Hrefs. lia.
  - apply (keeps_off _ _ _ l).
    + intros x t Hx Ht. simpl. by rewrite lookup_delete_ne.
    + rewrite elem_of_app. intros [Hp|]; [|done].
      destruct (sg_prefix s) as [p|]; simpl in Hp; [|by apply not_elem_of_nil in Hp].
      apply list_elem_of_singleton in Hp as ->. specialize (Hord p eq_refl). lia.
    + done.
Qed.

Lemma allocated_ok h R o items :
  heap_ok h (option_list o ++ R) → length items ≤ LIST_CHUNK_CAPACITY →
  heap_ok (allocated h (mkSegment 1 o items)) (hp_next h :: R) ∧
  keeps h (allocated h (mkSegment 1 o items)) (option_list o ++ R).
Proof.
  intros Hok Hcap.
  assert (hp_cells h !! hp_next h = None) as Hnone.
  { apply eq_None_not_Some. intros [s Hs]. destruct (ok_cell _ _ Hok _ _ Hs) as (_ & _ & ? & _). lia. }
  assert (∀ x, refs (hp_cells h) (option_list o ++ R) x > 0 → x < hp_next h) as Hfresh.
  { intros x Hx. destruct (ok_live _ _ Hok x Hx) as [s Hs]. by destruct (ok_cell _ _ Hok _ _ Hs) as (_ & _ & ? & _). }
  assert (∀ x, refs (<[hp_next h := mkSegment 1 o items]> (hp_cells h)) (hp_next h :: R) x
     = occ (Some (hp_next h)) x + refs (hp_cells h) (option_list o ++ R) x) as Hrefs.
  { intros x. rewrite refs_cons, refs_insert, refs_app by done. done. }
  split; [split; simpl; intros x; rewrite Hrefs|].
  - intros t [[<- <-]|[Hx Ht]]%lookup_insert_Some; simpl.
    + rewrite occ_self. split_and!; [|lia..|done|].
      * destruct (refs (hp_cells h) (option_list o ++ R) (hp_next h)) eqn:E; [done|].
        specialize (Hfresh (hp_next h)). lia.
      * intros p ->. apply Hfresh. rewrite refs_app, occ_self. lia.
    + unfold occ. rewrite decide_False by congruence.
      destruct (ok_cell _ _ Hok _ _ Ht) as (? & ? & ? & ? & ?). split_and!; [done..|lia|done|done].
  - intros Hx. rewrite lookup_insert_is_Some'.
    destruct (decide (hp_next h = x)) as [|Hne]; [by left|right]. apply (ok_live _ _ Hok).
    unfold occ in Hx. by rewrite decide_False in Hx by congruence.
  - intros l segs _ Hc. apply (chain_ext (λ _, False) (hp_cells h)); [done| |auto..].
    intros x t _ Hx. exists t. simpl. rewrite lookup_insert_ne; [done|]. congruence.
Qed.

(** ** Pointers *)

Lemma rc_clone_ok h R o :
  heap_ok h R → (∀ l, o = Some l → is_Some (hp_cells h !! l)) →
  ∃ h', Rc.rc_clone o h = (h', Ok o) ∧ heap_ok h' (option_list o ++ R) ∧ (∀ R', keeps h h' R').
Proof.
  intros Hok Ho. destruct o as [l|]; [|exists h; split_and!; [done..|]; by intros ? l segs ?].
  destruct (Ho l eq_refl) as [s Hl]. unfold Rc.rc_clone, Rc.deref, bindS. rewrite Hl.
  eexists. split; [done|]. destruct (ok_cell _ _ Hok _ _ Hl) as (Hn & Hpos & _ & Hcap & _). split.
  - apply (stored_ok h R _ l s); try done.
    + simpl. change (l :: R) with (option_list (Some l) ++ R). rewrite refs_app, occ_self. lia.
    + simpl. lia.
    + intros x Hx. simpl. rewrite refs_cons. unfold occ. by rewrite decide_False by congruence.
  - intros R'. by apply (keeps_counts h l s).
Qed.

Lemma drop_loop_ok fuel : ∀ h R o,
  heap_ok h (option_list o ++ R) → (∀ l, o = Some l → l < fuel) →
  ∃ h', Rc.drop_loop fuel o h = (h', Ok tt) ∧ heap_ok h' R ∧ keeps h h' R.
Proof.
  induction fuel as [|fuel IH]; intros h R [l|] Hok Hlt; try by (exists h; split_and!; [done..|]; intros ??).
  { specialize (Hlt l eq_refl). lia. }
  destruct (root_cell h (l :: R) l) as [s Hl]; [done|by left|]. simpl in *.
  unfold Rc.deref, bindS. rewrite Hl. destruct (ok_cell _ _ Hok _ _ Hl) as (Hn & Hpos & _ & Hcap & Hord).
  case_decide as H1.
  - destruct (freed_ok _ _ _ _ Hok Hl H1) as [Hok' Hk].
    destruct (IH (freed h l) R (sg_prefix s)) as (h' & Heq & Hok'' & Hk'); [done| |].
    { intros p Hp. specialize (Hord p Hp). specialize (Hlt l eq_refl). lia. }
    exists h'. simpl. split_and!; [done..|]. eapply keeps_trans; [|done].
    eapply keeps_mono; [|done]. set_solver.
  - eexists. split; [done|]. split; [|by apply (keeps_counts h l s)].
    rewrite refs_cons, occ_self in Hn.
    apply (stored_ok h (l :: R) _ l s); try done; simpl; [lia..|].
    intros x Hx. rewrite refs_cons. unfold occ. by rewrite decide_False by congruence.
Qed.

Lemma rc_drop_ok h R o :
  heap_ok h (option_list o ++ R) → ∃ h', Rc.rc_drop o h = (h', Ok tt) ∧ heap_ok h' R ∧ keeps h h' R.
Proof.
  intros Hok. apply drop_loop_ok; [done|]. intros l ->.
  destruct (root_cell h (l :: R) l) as [s Hl]; [done|by left|].
  by destruct (ok_cell _ _ Hok _ _ Hl) as (_ & _ & ? & _).
Qed.

(** Writing the items of a segment nobody else points to. *)
Lemma store_items_ok h R l s items :
  heap_ok h (l :: R) → hp_cells h !! l = Some s → sg_strong s = 1 →
  length items ≤ LIST_CHUNK_CAPACITY →
  heap_ok (stored h l (Rc.with_items items s)) (l :: R) ∧
  keeps h (stored h l (Rc.with_items items s)) R ∧
  (∀ segs, chain (hp_cells h) (sg_prefix s) segs →
     chain (<[l := Rc.with_items items s]> (hp_cells h)) (sg_prefix s) segs).
Proof.
  intros Hok Hl H1 Hcap. destruct (unique_pointer _ _ _ _ Hok Hl H1) as [HR Hpre].
  destruct (ok_cell _ _ Hok _ _ Hl) as (Hn & Hpos & _ & _ & Hord). split_and!.
  - by apply (stored_ok h (l :: R) _ l s).
  - apply (keeps_off _ _ _ l); [|done..]. intros x t Hx Ht. simpl. by rewrite lookup_insert_ne.
  - intros segs Hc. apply (chain_ext (λ x, x = l) (hp_cells h)); [done|..].
    + intros x t Hx Ht. exists t. by rewrite lookup_insert_ne by congruence.
    + intros x t p Ht Hp ->. by eapply Hpre.
    + intros p Hp ->. specialize (Hord l Hp). lia.
Qed.

(** ** Builders *)

Definition builder_ok h (b : ListBuilder) (xs : list A) : Prop :=
  ∃ segs, chain (hp_cells h) (lb_head b) segs ∧ xs = concat segs ∧ lb_len b = length xs ∧
    (N.of_nat (length xs) ≤ usize_max)%N.

Lemma builder_ok_keeps h h' b xs R :
  keeps h h' (option_list (lb_head b) ++ R) → builder_ok h b xs → builder_ok h' b xs.
Proof.
  intros Hk (segs & Hc & ?). exists segs. split; [|done].
  apply (keeps_option _ _ _ _ _ Hk); [|done]. intros l ->. set_solver.
Qed.

Lemma default_builder_ok h : builder_ok h ListBuilder.default_builder [].
Proof. exists []. split; [constructor|done]. Qed.

Lemma builder_cells h R b l xs :
  heap_ok h (option_list (lb_head b) ++ R) → lb_head b = Some l → builder_ok h b xs →
  ∃ s segs, hp_cells h !! l = Some s ∧ chain (hp_cells h) (sg_prefix s) segs ∧
    xs = concat segs ++ sg_items s.
Proof.
  intros Hok Hb (segs & Hc & -> & _). rewrite Hb in Hc.
  apply chain_inv in Hc as (s & segs' & Hl & Hc & ->). exists s, segs'.
  split_and!; [done..|]. rewrite concat_app. simpl. by rewrite app_nil_r.
Qed.

Lemma clone_ok h R b xs :
  heap_ok h R → builder_ok h b xs → (∀ l, lb_head b = Some l → l ∈ R) →
  ∃ h' b', ListBuilder.clone b h = (h', Ok b') ∧ heap_ok h' (option_list (lb_head b') ++ R) ∧
    (∀ R', keeps h h' R') ∧ builder_ok h' b' xs.
Proof.
  intros Hok (segs & Hc & -> & Hlen & Hb) Hr. unfold ListBuilder.clone. case_decide as H0.
  - exists h, ListBuilder.default_builder. split_and!; [done..|by intros ???|].
    destruct (concat segs); [|by rewrite Hlen in H0]. apply default_builder_ok.
  - destruct (rc_clone_ok h R (lb_head b)) as (h' & Heq & Hok' & Hk); [done|..].
    { intros l Hl. by apply (root_cell h R), Hr. }
    unfold bindS. rewrite Heq. eexists _, _. split; [done|]. split_and!; [done..|].
    exists segs. split_and!; [|done..]. simpl.
    apply (keeps_option h h' (option_list (lb_head b)) _ _ (Hk _)); [|done]. intros l ->. set_solver.
Qed.

Lemma with_capacity_ok value_size h R capacity :
  heap_ok h R →
  (∃ h' b, ListBuilder.with_capacity value_size capacity h = (h', Ok b) ∧
    heap_ok h' (option_list (lb_head b) ++ R) ∧ keeps h h' R ∧ builder_ok h' b []) ∨
  (ListBuilder.with_capacity value_size capacity h =
    (h, fail (RuntimeError.new (lit "List builder capacity overflow"))) ∧
   (ListBuilder.isize_max `div` value_size < N.of_nat capacity)%N).
Proof.
  intros Hok. unfold ListBuilder.with_capacity. case_decide; [|case_decide as Hbig].
  - left. exists h, ListBuilder.default_builder. split_and!; [done..|by intros ??|apply default_builder_ok].
  - by right.
  - left. unfold bindS, Rc.rc_new. eexists _, _. split; [done|].
    destruct (allocated_ok h R None []) as [Hok' Hk]; [done|unfold LIST_CHUNK_CAPACITY; simpl; lia|].
    split_and!; [done..|]. exists [[]]. split_and!; [|done..].
    apply (chain_some _ _ (mkSegment 1 None []) []); [apply lookup_insert_eq|constructor].
Qed.

(** The head segment [push] writes to, when it is ours alone and has room. *)
Lemma writable_head_ok h R b xs :
  heap_ok h (option_list (lb_head b) ++ R) → builder_ok h b xs →
  (ListBuilder.writable_head b h = (h, Ok None)) ∨
  (∃ l s, ListBuilder.writable_head b h = (h, Ok (Some (l, s))) ∧ lb_head b = Some l ∧
     hp_cells h !! l = Some s ∧ sg_strong s = 1 ∧ length (sg_items s) < LIST_CHUNK_CAPACITY).
Proof.
  intros Hok Hb. unfold ListBuilder.writable_head. destruct (lb_head b) as [l|] eqn:Hl; [|by left].
  destruct (builder_cells h R b l xs) as (s & segs & Hs & _); [by rewrite Hl|done..|].
  unfold Rc.get_mut, Rc.deref, bindS. rewrite Hs. simpl.
  case_decide; [|by left]. case_decide; [right|by left]. by exists l, s.
Qed.

Lemma push_ok h R b xs v :
  heap_ok h (option_list (lb_head b) ++ R) → builder_ok h b xs →
  (N.of_nat (S (length xs)) ≤ usize_max)%N →
  ∃ h' b', ListBuilder.push b v h = (h', Ok b') ∧ heap_ok h' (option_list (lb_head b') ++ R) ∧
    keeps h h' R ∧ builder_ok h' b' (xs ++ [v]).
Proof.
  intros Hok Hb Hroom. pose proof Hb as (segs & Hc & Hxs & Hlen & Hbound).
  unfold ListBuilder.push, usize_checked_add. rewrite decide_True by (by rewrite Hlen, Nat.add_1_r).
  assert (lb_len b + 1 = length (xs ++ [v])) as Hlen' by (rewrite Hlen; len).
  assert (N.of_nat (length (xs ++ [v])) ≤ usize_max)%N by (rewrite <- Hlen', Hlen, Nat.add_1_r; done).
  unfold bindS. destruct (writable_head_ok h R b xs Hok Hb) as [Hw|(l & s & Hw & Hh & Hs & H1 & Hcap)];
    rewrite Hw; cbn -[ListBuilder.writable_head Rc.rc_drop].
  - case_decide as H0.
    + assert (xs = []) as -> by (apply nil_length_inv; lia).
      destruct (allocated_ok h (option_list (lb_head b) ++ R) None [v]) as [Hok1 Hk1];
        [done|unfold LIST_CHUNK_CAPACITY; simpl; lia|].
      destruct (rc_drop_ok (allocated h (mkSegment 1 None [v])) (hp_next h :: R) (lb_head b))
        as (h' & Heq & Hok2 & Hk2).
      { eapply heap_ok_perm; [|done]. by rewrite Permutation_middle. }
      change (Nat.succ (hp_next h)) with (S (hp_next h)). unfold allocated in Heq. rewrite Heq.
      eexists _, _. split; [done|]. split; [done|]. split.
      * intros l gs Hl Hg. apply Hk2; [by right|]. apply Hk1; [|done]. set_solver.
      * exists [[v]]. split; [|done]. simpl. apply Hk2; [by left|].
        apply (chain_some _ _ (mkSegment 1 None [v]) []); [apply lookup_insert_eq|constructor].
    + destruct (allocated_ok h R (lb_head b) [v]) as [Hok1 Hk1];
        [done|unfold LIST_CHUNK_CAPACITY; simpl; lia|].
      eexists _, _. split; [done|]. split; [done|]. split.
      * eapply keeps_mono; [|done]. set_solver.
      * exists (segs ++ [[v]]). rewrite concat_app, <- Hxs. split_and!; [|done..]. simpl.
        apply (chain_some _ _ (mkSegment 1 (lb_head b) [v]) segs); [apply lookup_insert_eq|].
        apply (keeps_option _ _ _ _ _ Hk1); [|done]. simpl. intros l ->. set_solver.
  - destruct (builder_cells h R b l xs) as (s' & gs & Hs' & Hg & Hxs'); [done..|]. simplify_eq.
    rewrite Hh in Hok. destruct (store_items_ok h R l s (sg_items s ++ [v])) as (Hok1 & Hk1 & Hc1);
      [done..|len|].
    eexists _, _. split; [done|]. simpl. rewrite Hh. split; [done|]. split; [done|].
    exists (gs ++ [sg_items s ++ [v]]). simpl. split_and!; [|by rewrite Hxs', concat_app; simpl; rewrite app_nil_r, app_assoc|done|done].
    apply (chain_some _ _ (Rc.with_items (sg_items s ++ [v]) s) gs); [apply lookup_insert_eq|].
    by apply Hc1.
Qed.

Lemma push_full h b xs v :
  builder_ok h b xs → N.of_nat (length xs) = usize_max →
  ListBuilder.push b v h = (h, fail (RuntimeError.new (lit "List builder length overflow"))).
Proof.
  intros (_ & _ & _ & Hlen & _) Hmax. unfold ListBuilder.push, usize_checked_add.
  rewrite decide_False; [done|]. rewrite Hlen. lia.
Qed.

(** ** Finishing

    [m] bounds the steps that are left: emitting or dropping the items of the
    current segment, leaving it, and both for each of the segments before. *)

Definition segs_cost segs : nat := sum_list_with (λ seg, 2 * length seg + 1) segs.

Definition finish_ok h (f : ListBuilderFinish A) (xs : list A) (m : nat) : Prop :=
  ListHandle.wf (fi_output f) ∧ fi_len f = length xs ∧ (N.of_nat (length xs) ≤ usize_max)%N ∧
  match fi_current f with
  | None => xs = ListHandle.items (fi_output f) ∧ m = 0
  | Some l => ∃ segs items, chain (hp_cells h) (Some l) (segs ++ [items]) ∧
      fi_cursor f ≤ length items ∧
      xs = concat segs ++ take (fi_cursor f) items ++ ListHandle.items (fi_output f) ∧
      m = segs_cost segs + fi_cursor f + length items + 1
  end.

Lemma finish_ok_keeps h h' f xs m R :
  keeps h h' (option_list (fi_current f) ++ R) → finish_ok h f xs m → finish_ok h' f xs m.
Proof.
  intros Hk (? & ? & ? & Hf). split_and!; [done..|].
  destruct (fi_current f) as [l|] eqn:E; [|done]. destruct Hf as (segs & items & Hc & ?).
  exists segs, items. split; [|done]. apply Hk; [set_solver|done].
Qed.

Lemma chain_last_inv (cells : gmap nat (Segment A)) l segs items :
  chain cells (Some l) (segs ++ [items]) →
  ∃ s, cells !! l = Some s ∧ sg_items s = items ∧ chain cells (sg_prefix s) segs.
Proof.
  intros (s & segs' & Hl & Hc & [-> ->]%app_inj_tail)%chain_inv. eauto.
Qed.

Lemma head_items_len_ok h o segs :
  chain (hp_cells h) o segs →
  ListBuilder.head_items_len o h = (h, Ok (from_option length 0 (last segs))).
Proof.
  intros Hc. destruct o as [l|]; simpl.
  - apply chain_inv in Hc as (s & segs' & Hl & _ & ->). unfold bindS, Rc.deref. rewrite Hl.
    by rewrite last_snoc.
  - by inversion Hc.
Qed.

(** A fresh finish on a chain. *)
Lemma finish_start_ok h o segs out len :
  chain (hp_cells h) o segs → ListHandle.wf out → len = length (concat segs ++ ListHandle.items out) →
  (N.of_nat len ≤ usize_max)%N →
  finish_ok h (mkFinish o (from_option length 0 (last segs)) out len)
    (concat segs ++ ListHandle.items out) (segs_cost segs).
Proof.
  intros Hc Hwf -> Hb. split_and!; [done..|]. simpl. destruct o as [l|].
  - pose proof Hc as (s & segs' & Hl & Hc' & ->)%chain_inv. exists segs', (sg_items s).
    rewrite last_snoc. simpl. split_and!; [done..| |].
    + rewrite firstn_all, concat_app. simpl. by rewrite app_nil_r, app_assoc.
    + unfold segs_cost. rewrite sum_list_with_app. simpl. lia.
  - by inversion Hc.
Qed.

Lemma finish_builder_ok h b xs :
  builder_ok h b xs →
  ∃ f m, ListBuilder.finish b h = (h, Ok f) ∧ fi_current f = lb_head b ∧ finish_ok h f xs m.
Proof.
  intros (segs & Hc & -> & Hlen & Hb). unfold ListBuilder.finish, bindS.
  rewrite (head_items_len_ok _ _ segs) by done. eexists _, (segs_cost segs).
  split; [done|]. split; [done|].
  pose proof (finish_start_ok h (lb_head b) segs ListHandle.empty (lb_len b)) as Hf.
  simpl in Hf. rewrite app_nil_r in Hf. apply Hf; [done..|by rewrite Hlen].
Qed.

(** What a step leaves: the list, or a finish that is closer to it. *)
Definition step_ok h R (r : ListFinishStep A) (xs : list A) (m : nat) : Prop :=
  match r with
  | FinishComplete out => heap_ok h R ∧ ListHandle.wf out ∧ ListHandle.items out = xs
  | FinishPending f => ∃ m', m' < m ∧ heap_ok h (option_list (fi_current f) ++ R) ∧ finish_ok h f xs m'
  end.

Lemma complete_ok h R out len :
  heap_ok h R → ListHandle.wf out → len = length (ListHandle.items out) → ∀ c m,
  ∃ r, ListBuilder.complete (mkFinish None c out len) h = (h, Ok r) ∧ step_ok h R r (ListHandle.items out) m.
Proof.
  intros Hok Hwf -> c m. unfold ListBuilder.complete. simpl. rewrite decide_True by by apply ListHandle.wf_len.
  by exists (FinishComplete out).
Qed.

Lemma advance_ok h R o segs out len :
  heap_ok h (option_list o ++ R) → chain (hp_cells h) o segs → ListHandle.wf out →
  len = length (concat segs ++ ListHandle.items out) → (N.of_nat len ≤ usize_max)%N →
  ∃ r, ListBuilder.advance o out len h = (h, Ok r) ∧
    step_ok h R r (concat segs ++ ListHandle.items out) (S (segs_cost segs)).
Proof.
  intros Hok Hc Hwf Hlen Hb. unfold ListBuilder.advance, bindS.
  rewrite (head_items_len_ok _ _ segs) by done. destruct o as [l|].
  - eexists. split; [done|]. exists (segs_cost segs). split_and!; [lia|done|]. by apply finish_start_ok.
  - inversion Hc; subst. by apply complete_ok.
Qed.

Section resume.
Context (h : Heap A) (R : list nat) (l : nat) (s : Segment A) (segs : list (list A)).
Context (c : nat) (out : ListHandle A) (len : nat).
Hypothesis (Hok : heap_ok h (l :: R)) (Hl : hp_cells h !! l = Some s).
Hypothesis (Hc : chain (hp_cells h) (sg_prefix s) segs) (Hwf : ListHandle.wf out).
Hypothesis (Hcur : c ≤ length (sg_items s)).
Let xs := concat segs ++ take c (sg_items s) ++ ListHandle.items out.
Let m := segs_cost segs + c + length (sg_items s) + 1.
Hypothesis (Hlen : len = length xs) (Hb : (N.of_nat len ≤ usize_max)%N).

Lemma items_below_capacity : length (sg_items s) ≤ LIST_CHUNK_CAPACITY.
Proof using Hok Hl. by destruct (ok_cell _ _ Hok _ _ Hl) as (_ & _ & _ & ? & _). Qed.

(** Leaving a segment that is ours alone, its remaining items already in [out']. *)
Lemma leave_unique out' :
  sg_strong s = 1 → ListHandle.wf out' → xs = concat segs ++ ListHandle.items out' →
  ∃ r, ListBuilder.advance (sg_prefix s) out' len (freed h l) = (freed h l, Ok r) ∧
    keeps h (freed h l) R ∧ step_ok (freed h l) R r xs m.
Proof using All.
  intros H1 Hwf' Hxs. destruct (freed_ok _ _ _ _ Hok Hl H1) as [Hok' Hk].
  destruct (advance_ok (freed h l) R (sg_prefix s) segs out' len) as (r & -> & Hr); [done| |done|by rewrite <- Hxs|done|].
  { apply (keeps_option _ _ _ _ _ Hk); [|done]. intros p ->. set_solver. }
  exists r. split; [done|]. split; [eapply keeps_mono; [|done]; set_solver|].
  rewrite Hxs. destruct r as [o|f]; [done|]. destruct Hr as (m' & ? & ?). exists m'. split; [lia|done].
Qed.

Lemma resume_move :
  sg_strong s = 1 → sg_items s ≠ [] → c = length (sg_items s) →
  ∃ h' r, ListBuilder.resume (mkFinish (Some l) c out len) h = (h', Ok r) ∧ keeps h h' R ∧ step_ok h' R r xs m.
Proof using All.
  intros H1 Hne Hn. unfold ListBuilder.resume, Rc.deref, bindS. simpl. rewrite Hl.
  rewrite decide_False by lia. rewrite (bool_decide_false (sg_items s = [])), !bool_decide_true by done. simpl.
  assert (len = length (concat segs) + (length (sg_items s) + length (ListHandle.items out))) as Hlen'.
  { rewrite Hlen. unfold xs. rewrite Hn, firstn_all, !length_app. done. }
  destruct (ListHandle.prepend_items_spec (sg_items s) out) as (out' & Ho & Hwf' & Hi);
    [done|apply items_below_capacity|done|rewrite (ListHandle.wf_len _ Hwf); lia|].
  unfold liftS, Rc.free. simpl. rewrite Ho. simpl.
  destruct (leave_unique out') as (r & ? & ?); [done..|unfold xs; by rewrite Hn, firstn_all, Hi|].
  by exists (freed h l), r.
Qed.

Lemma resume_discard :
  sg_strong s = 1 → c < length (sg_items s) →
  ∃ h' r, ListBuilder.resume (mkFinish (Some l) c out len) h = (h', Ok r) ∧ keeps h h' R ∧ step_ok h' R r xs m.
Proof using All.
  intros H1 Hlt. unfold ListBuilder.resume, Rc.deref, bindS. simpl. rewrite Hl.
  rewrite decide_False by lia. rewrite (bool_decide_false (c = _)), (bool_decide_true (sg_strong s = 1)),
    (bool_decide_true (c < _)) by (done || lia). rewrite andb_false_r. simpl.
  pose proof items_below_capacity as Hcap.
  destruct (store_items_ok h R l s (take (length (sg_items s) - 1) (sg_items s))) as (Hok1 & Hk1 & Hc1);
    [done..|rewrite length_take; lia|].
  eexists _, _. split; [done|]. split; [done|].
  exists (segs_cost segs + c + (length (sg_items s) - 1) + 1). split; [unfold m; lia|]. split; [done|].
  split_and!; [done..| |].
  { rewrite <- Hlen. done. }
  exists segs, (take (length (sg_items s) - 1) (sg_items s)). rewrite !length_take. split_and!; simpl; [|lia| |lia].
  - apply (chain_some _ _ (Rc.with_items _ s) segs); [apply lookup_insert_eq|]. by apply Hc1.
  - unfold xs. rewrite take_take, Nat.min_l by lia. done.
Qed.

Lemma resume_leave_shared :
  sg_strong s ≠ 1 → c = 0 →
  ∃ h' r, ListBuilder.resume (mkFinish (Some l) c out len) h = (h', Ok r) ∧ keeps h h' R ∧ step_ok h' R r xs m.
Proof using All.
  intros H1 H0. unfold ListBuilder.resume. cbn [fi_current fi_cursor fi_output fi_len].
  unfold Rc.deref at 1, bindS at 1. rewrite Hl.
  rewrite decide_False by lia. rewrite (bool_decide_false (sg_strong s = 1)), andb_false_r by done. cbn [andb].
  rewrite decide_True by done.
  destruct (rc_clone_ok h (l :: R) (sg_prefix s)) as (h1 & Hcl & Hok1 & Hk1); [done|..].
  { intros p Hp. apply (ok_live _ _ Hok). by eapply refs_prefix. }
  destruct (rc_drop_ok h1 (option_list (sg_prefix s) ++ R) (Some l)) as (h2 & Hdr & Hok2 & Hk2).
  { eapply heap_ok_perm; [|done]. simpl. by rewrite Permutation_middle. }
  unfold bindS. rewrite Hcl, Hdr.
  destruct (advance_ok h2 R (sg_prefix s) segs out len) as (r & -> & Hr); [done| |done| |done|].
  { apply (keeps_option _ _ _ _ _ Hk2); [intros p ->; set_solver|].
    apply (keeps_option _ _ (option_list (sg_prefix s)) _ _ (Hk1 _)); [|done]. intros p ->. set_solver. }
  { rewrite Hlen. unfold xs. by rewrite H0. }
  exists h2, r. split; [done|]. split.
  { eapply keeps_trans; [apply Hk1|]. eapply keeps_mono; [|done]. set_solver. }
  unfold xs. rewrite H0. simpl. destruct r as [o|f]; [done|].
  destruct Hr as (m' & ? & ?). exists m'. split; [unfold m; lia|done].
Qed.

Lemma resume_emit :
  sg_strong s ≠ 1 → c ≠ 0 →
  ∃ h' r, ListBuilder.resume (mkFinish (Some l) c out len) h = (h', Ok r) ∧ keeps h h' R ∧ step_ok h' R r xs m.
Proof using All.
  intros H1 H0. unfold ListBuilder.resume, Rc.deref, bindS. simpl. rewrite Hl.
  rewrite decide_False by lia. rewrite (bool_decide_false (sg_strong s = 1)), andb_false_r by done. simpl.
  rewrite decide_False by done.
  destruct (lookup_lt_is_Some_2 (sg_items s) (c - 1)) as [v Hv]; [lia|].
  assert (xs = concat segs ++ take (c - 1) (sg_items s) ++ v :: ListHandle.items out) as Hxs.
  { unfold xs. replace c with (S (c - 1)) at 1 by lia. rewrite (take_S_r _ _ _ Hv), <- !app_assoc. done. }
  unfold liftS, index. rewrite Hv. simpl.
  destruct (ListHandle.cons_spec v out) as (out' & Ho & Hwf' & Hi); [done| |].
  { rewrite (ListHandle.wf_len _ Hwf), Hlen, Hxs in *. rewrite !length_app in Hb. simpl in Hb. lia. }
  rewrite Ho. simpl. eexists h, _. split; [done|]. split; [by intros ??|].
  exists (m - 1). split; [unfold m; lia|]. split; [done|].
  split_and!; [done..|by rewrite <- Hlen|]. simpl. exists segs, (sg_items s).
  split_and!; [by apply chain_some|lia|by rewrite Hi|unfold m; lia].
Qed.

Lemma resume_some :
  ∃ h' r, ListBuilder.resume (mkFinish (Some l) c out len) h = (h', Ok r) ∧ keeps h h' R ∧ step_ok h' R r xs m.
Proof using All.
  destruct (decide (sg_strong s = 1)) as [H1|H1].
  - destruct (decide (c < length (sg_items s))) as [|Hge]; [by apply resume_discard|].
    destruct (decide (sg_items s = [])) as [He|]; [|apply resume_move; [done..|lia]].
    assert (c = 0) as H0 by (rewrite He in Hcur; simpl in Hcur; lia).
    unfold ListBuilder.resume, Rc.deref, bindS. cbn [fi_current fi_cursor fi_output fi_len]. rewrite Hl.
    rewrite decide_False by lia. rewrite (bool_decide_true (sg_items s = [])),
      (bool_decide_true (sg_strong s = 1)), (bool_decide_false (c < _)) by (done || lia).
    simpl. rewrite decide_True by done. simpl.
    destruct (leave_unique out) as (r & ? & ?); [done..|unfold xs; by rewrite H0|]. by exists (freed h l), r.
  - destruct (decide (c = 0)); [by apply resume_leave_shared|by apply resume_emit].
Qed.

End resume.

Lemma resume_ok h R (f : ListBuilderFinish A) xs m :
  heap_ok h (option_list (fi_current f) ++ R) → finish_ok h f xs m →
  ∃ h' r, ListBuilder.resume f h = (h', Ok r) ∧ keeps h h' R ∧ step_ok h' R r xs m.
Proof.
  destruct f as [[l|] c out len]; intros Hok (Hwf & Hlen & Hb & Hf); simpl in *.
  - destruct Hf as (segs & items & (s & Hl & <- & Hc)%chain_last_inv & Hcur & -> & ->).
    apply resume_some; try done. by rewrite Hlen.
  - destruct Hf as [-> ->]. destruct (complete_ok h R out len Hok Hwf Hlen c 0) as (r & Heq & Hr).
    exists h, r. split_and!; [done| |done]. by intros ??.
Qed.

Lemma clone_finish_ok h R (f : ListBuilderFinish A) xs m :
  heap_ok h R → finish_ok h f xs m → (∀ l, fi_current f = Some l → l ∈ R) →
  ∃ h', ListBuilder.clone_finish f h = (h', Ok f) ∧ heap_ok h' (option_list (fi_current f) ++ R) ∧
    (∀ R', keeps h h' R') ∧ finish_ok h' f xs m.
Proof.
  intros Hok Hf Hr. unfold ListBuilder.clone_finish, bindS.
  destruct (rc_clone_ok h R (fi_current f)) as (h' & -> & Hok' & Hk); [done|..].
  { intros l Hl. by apply (root_cell h R), Hr. }
  exists h'. split_and!; [by destruct f|done..|]. apply (finish_ok_keeps h h' f xs m []); [apply Hk|done].
Qed.

End invariant.

(** ** A pool of builders that share segments

    The machine and its checkpoints hold any number of builders and finishes,
    each a clone of another or not.  A pool is all of them with the store they
    share; its steps are the operations on one of them. *)

Section pool.
Context {A : Type} (value_size : N).
Implicit Types (h : Heap A) (i j : nat) (xs : list A).

Inductive Handle : Type :=
| Building (b : ListBuilder)
| Finishing (f : ListBuilderFinish A).

Definition handle_root (k : Handle) : option nat :=
  match k with Building b => lb_head b | Finishing f => fi_current f end.

Record Pool : Type := mkPool { pl_heap : Heap A; pl_handles : gmap nat Handle }.

Definition empty_pool : Pool := mkPool (mkHeap 0 ∅) ∅.

Inductive Event : Type :=
| EvNew (i capacity : nat)
| EvPush (i : nat) (v : A)
| EvClone (i j : nat)
| EvDrop (i : nat)
| EvFinish (i : nat)
| EvResume (i : nat) (result : option (ListHandle A)).

Inductive pool_step : Pool → Event → Pool → Prop :=
| step_new h hs i capacity h' b :
    hs !! i = None → ListBuilder.with_capacity value_size capacity h = (h', Ok b) →
    pool_step (mkPool h hs) (EvNew i capacity) (mkPool h' (<[i := Building b]> hs))
| step_push h hs i b v h' b' :
    hs !! i = Some (Building b) → ListBuilder.push b v h = (h', Ok b') →
    pool_step (mkPool h hs) (EvPush i v) (mkPool h' (<[i := Building b']> hs))
| step_clone h hs i j b h' b' :
    hs !! i = Some (Building b) → hs !! j = None → ListBuilder.clone b h = (h', Ok b') →
    pool_step (mkPool h hs) (EvClone i j) (mkPool h' (<[j := Building b']> hs))
| step_clone_finish h hs i j f h' f' :
    hs !! i = Some (Finishing f) → hs !! j = None → ListBuilder.clone_finish f h = (h', Ok f') →
    pool_step (mkPool h hs) (EvClone i j) (mkPool h' (<[j := Finishing f']> hs))
| step_drop h hs i k h' :
    hs !! i = Some k → Rc.rc_drop (handle_root k) h = (h', Ok tt) →
    pool_step (mkPool h hs) (EvDrop i) (mkPool h' (delete i hs))
| step_finish h hs i b h' f :
    hs !! i = Some (Building b) → ListBuilder.finish b h = (h', Ok f) →
    pool_step (mkPool h hs) (EvFinish i) (mkPool h' (<[i := Finishing f]> hs))
| step_pending h hs i f h' f' :
    hs !! i = Some (Finishing f) → ListBuilder.resume f h = (h', Ok (FinishPending f')) →
    pool_step (mkPool h hs) (EvResume i None) (mkPool h' (<[i := Finishing f']> hs))
| step_complete h hs i f h' out :
    hs !! i = Some (Finishing f) → ListBuilder.resume f h = (h', Ok (FinishComplete out)) →
    pool_step (mkPool h hs) (EvResume i (Some out)) (mkPool h' (delete i hs)).

Inductive pool_reach : list Event → Pool → Prop :=
| reach_empty : pool_reach [] empty_pool
| reach_step evs p ev p' : pool_reach evs p → pool_step p ev p' → pool_reach (evs ++ [ev]) p'.

(** What the pool promises: every handle is a sequence of its own. *)
Definition spec_event (m : gmap nat (list A)) (ev : Event) : gmap nat (list A) :=
  match ev with
  | EvNew i _ => <[i := []]> m
  | EvPush i v => alter (λ xs, xs ++ [v]) i m
  | EvClone i j => match m !! i with Some xs => <[j := xs]> m | None => m end
  | EvDrop i => delete i m
  | EvFinish _ => m
  | EvResume i None => m
  | EvResume i (Some _) => delete i m
  end.
Definition spec_pool (evs : list Event) : gmap nat (list A) := foldl spec_event ∅ evs.

Definition handle_ok h (k : Handle) (xs : list A) : Prop :=
  match k with Building b => builder_ok h b xs | Finishing f => ∃ m, finish_ok h f xs m end.

Definition roots (hs : gmap nat Handle) : list nat := omap (λ x, handle_root x.2) (map_to_list hs).

Record pool_ok (p : Pool) (m : gmap nat (list A)) : Prop := {
  po_heap : heap_ok (pl_heap p) (roots (pl_handles p));
  po_handle : ∀ i k, pl_handles p !! i = Some k → ∃ xs, m !! i = Some xs ∧ handle_ok (pl_heap p) k xs;
}.

Lemma roots_insert hs i k : hs !! i = None → roots (<[i := k]> hs) ≡ₚ option_list (handle_root k) ++ roots hs.
Proof.
  intros Hi. unfold roots. rewrite map_to_list_insert by done. simpl. by destruct (handle_root k).
Qed.

Lemma roots_take hs i k : hs !! i = Some k → roots hs ≡ₚ option_list (handle_root k) ++ roots (delete i hs).
Proof. intros Hi. rewrite <- (insert_delete_id hs i k Hi) at 1. apply roots_insert, lookup_delete_eq. Qed.

Lemma roots_replace hs i k : roots (<[i := k]> hs) ≡ₚ option_list (handle_root k) ++ roots (delete i hs).
Proof. rewrite <- insert_delete_eq. apply roots_insert, lookup_delete_eq. Qed.

Lemma handle_ok_keeps h h' k xs R :
  keeps h h' (option_list (handle_root k) ++ R) → handle_ok h k xs → handle_ok h' k xs.
Proof.
  destruct k as [b|f]; simpl; [apply builder_ok_keeps|].
  intros Hk [m Hf]. exists m. by eapply finish_ok_keeps.
Qed.

(** Handles that are not operated on keep their contents. *)
Lemma others_ok h h' hs i (m : gmap nat (list A)) :
  pool_ok (mkPool h hs) m → keeps h h' (roots (delete i hs)) →
  ∀ j k, delete i hs !! j = Some k → ∃ xs, m !! j = Some xs ∧ handle_ok h' k xs.
Proof.
  intros [_ Hh] Hk j k Hj. pose proof Hj as [_ Hjs]%lookup_delete_Some.
  destruct (Hh j k Hjs) as (xs & Hm & Hok). exists xs. split; [done|].
  eapply (handle_ok_keeps h h' k xs (roots (delete j (delete i hs)))); [|done].
  eapply keeps_mono; [|exact Hk]. intros l. by rewrite (roots_take (delete i hs) j k).
Qed.

(** Replacing the handle [i] by [k], or adding it. *)
Lemma pool_replace h h' hs i k xs m :
  pool_ok (mkPool h hs) m → heap_ok h' (option_list (handle_root k) ++ roots (delete i hs)) →
  keeps h h' (roots (delete i hs)) → handle_ok h' k xs →
  pool_ok (mkPool h' (<[i := k]> hs)) (<[i := xs]> m).
Proof.
  intros Hp Hok Hk Hh. split; simpl.
  - eapply heap_ok_perm; [|done]. by rewrite roots_replace.
  - intros j k' [[<- <-]|[Hne Hj]]%lookup_insert_Some.
    + exists xs. by rewrite lookup_insert_eq.
    + rewrite lookup_insert_ne by done. eapply others_ok; [done..|].
      by apply lookup_delete_Some.
Qed.

Lemma pool_remove h h' hs i m :
  pool_ok (mkPool h hs) m → heap_ok h' (roots (delete i hs)) → keeps h h' (roots (delete i hs)) →
  pool_ok (mkPool h' (delete i hs)) (delete i m).
Proof.
  intros Hp Hok Hk. split; simpl; [done|]. intros j k Hj.
  destruct (others_ok _ _ _ _ _ Hp Hk j k Hj) as (xs & Hm & ?). exists xs. split; [|done].
  apply lookup_delete_Some in Hj as [? _]. by rewrite lookup_delete_ne.
Qed.

(** The store as one of its holders sees it. *)
Lemma pool_own p m i k :
  pool_ok p m → pl_handles p !! i = Some k →
  heap_ok (pl_heap p) (option_list (handle_root k) ++ roots (delete i (pl_handles p))) ∧
  ∃ xs, m !! i = Some xs ∧ handle_ok (pl_heap p) k xs.
Proof.
  intros [Hok Hh] Hi. split; [|by apply Hh]. eapply heap_ok_perm; [|done]. by apply roots_take.
Qed.

Lemma root_in_pool hs i k l : hs !! i = Some k → handle_root k = Some l → l ∈ roots hs.
Proof. intros Hi Hk. rewrite (roots_take hs i k Hi), Hk. by left. Qed.

(** The list a completed finish returns is the sequence of its handle. *)
Definition result_ok (m : gmap nat (list A)) (ev : Event) : Prop :=
  match ev with
  | EvResume i (Some out) => ∃ xs, m !! i = Some xs ∧ ListHandle.wf out ∧ ListHandle.items out = xs
  | _ => True
  end.

Lemma push_room h b xs v h' b' :
  builder_ok h b xs → ListBuilder.push b v h = (h', Ok b') → (N.of_nat (S (length xs)) ≤ usize_max)%N.
Proof.
  intros Hb Hp. pose proof Hb as (_ & _ & _ & _ & Hbound).
  destruct (decide (N.of_nat (length xs) = usize_max)) as [E|]; [|lia].
  by rewrite (push_full h b xs v Hb E) in Hp.
Qed.

Lemma pool_step_ok p ev p' m :
  pool_ok p m → pool_step p ev p' → pool_ok p' (spec_event m ev) ∧ result_ok m ev.
Proof.
  intros Hp Hs. destruct Hs as [h hs i c h' b Hi Heq|h hs i b v h' b' Hi Heq|h hs i j b h' b' Hi Hj Heq
    |h hs i j f h' f' Hi Hj Heq|h hs i k h' Hi Heq|h hs i b h' f Hi Heq|h hs i f h' f' Hi Heq|h hs i f h' out Hi Heq];
    try destruct (pool_own _ _ _ _ Hp Hi) as (Hown & xs & Hm & Hxs); simpl in *.
  - split; [|done]. destruct (with_capacity_ok value_size h (roots hs) c (po_heap _ _ Hp))
      as [(h1 & b1 & Heq' & ? & ? & ?)|[Heq' _]]; rewrite Heq in Heq'; simplify_eq.
    eapply pool_replace; rewrite ?(delete_id hs i) by done; done.
  - split; [|done]. destruct (push_ok h (roots (delete i hs)) b xs v) as (h1 & b1 & Heq' & ? & ? & ?);
      [done..|by eapply push_room|]. rewrite Heq in Heq'. simplify_eq.
    replace (alter (λ ys, ys ++ [v]) i m) with (<[i := xs ++ [v]]> m); [by eapply pool_replace|].
    rewrite <- (insert_id m i xs Hm) at 2. by rewrite alter_insert_eq.
  - split; [|done]. rewrite Hm.
    destruct (clone_ok h (roots hs) b xs (po_heap _ _ Hp) Hxs) as (h1 & b1 & Heq' & ? & ? & ?).
    { intros l. by apply (root_in_pool hs i (Building b)). }
    rewrite Heq in Heq'. simplify_eq. eapply pool_replace; rewrite ?(delete_id hs j) by done; done.
  - split; [|done]. rewrite Hm. destruct Hxs as [n Hf].
    destruct (clone_finish_ok h (roots hs) f xs n (po_heap _ _ Hp) Hf) as (h1 & Heq' & ? & ? & ?).
    { intros l. by apply (root_in_pool hs i (Finishing f)). }
    rewrite Heq in Heq'. simplify_eq. eapply pool_replace; rewrite ?(delete_id hs j) by done; [done..|].
    by exists n.
  - split; [|done]. destruct (rc_drop_ok h (roots (delete i hs)) (handle_root k) Hown) as (h1 & Heq' & ? & ?).
    rewrite Heq in Heq'. simplify_eq. by eapply pool_remove.
  - split; [|done]. destruct (finish_builder_ok h b xs Hxs) as (f1 & n & Heq' & Hcur & ?).
    rewrite Heq in Heq'. simplify_eq. rewrite <- (insert_id m i xs Hm).
    eapply pool_replace; [done|simpl; by rewrite Hcur|by intros ??|by exists n].
  - split; [|done]. destruct Hxs as [n Hf].
    destruct (resume_ok h (roots (delete i hs)) f xs n Hown Hf) as (h1 & r & Heq' & ? & Hr).
    rewrite Heq in Heq'. simplify_eq. destruct Hr as (n' & _ & ? & ?). rewrite <- (insert_id m i xs Hm).
    eapply pool_replace; [done..|]. by exists n'.
  - destruct Hxs as [n Hf].
    destruct (resume_ok h (roots (delete i hs)) f xs n Hown Hf) as (h1 & r & Heq' & ? & Hr).
    rewrite Heq in Heq'. simplify_eq. destruct Hr as (? & ? & ?). split; [by eapply pool_remove|by exists xs].
Qed.

Lemma empty_pool_ok : pool_ok empty_pool ∅.
Proof. split; simpl; [|by intros i k]. split; simpl; intros l; [done|]. vm_compute. lia. Qed.

Lemma pool_reach_ok evs p :
  pool_reach evs p → pool_ok p (spec_pool evs) ∧
  ∀ pre ev post, evs = pre ++ ev :: post → result_ok (spec_pool pre) ev.
Proof.
  induction 1 as [|evs p ev p' Hr [Hok Hres] Hs].
  { split; [apply empty_pool_ok|]. by intros [] ? ?. }
  destruct (pool_step_ok _ _ _ _ Hok Hs) as [Hok' Hev]. split.
  - unfold spec_pool. by rewrite foldl_snoc.
  - intros pre e post Heq. destruct post as [|e' post _] using rev_ind.
    + by apply app_inj_tail in Heq as [-> ->].
    + rewrite app_comm_cons, app_assoc in Heq. apply app_inj_tail in Heq as [-> _]. by eapply Hres.
Qed.

(** Every operation on every handle of a reachable pool succeeds. *)
Definition progress (p : Pool) (m : gmap nat (list A)) : Prop :=
  ∀ i k, pl_handles p !! i = Some k →
    (∃ p', pool_step p (EvDrop i) p') ∧
    (∀ j, pl_handles p !! j = None → ∃ p', pool_step p (EvClone i j) p') ∧
    match k with
    | Building b =>
        (∃ p', pool_step p (EvFinish i) p') ∧
        ∀ v xs, m !! i = Some xs → (N.of_nat (S (length xs)) ≤ usize_max)%N →
          ∃ p', pool_step p (EvPush i v) p'
    | Finishing _ => ∃ r p', pool_step p (EvResume i r) p'
    end.

Lemma pool_progress p m : pool_ok p m → progress p m.
Proof.
  intros Hp i k Hi. destruct (pool_own _ _ _ _ Hp Hi) as (Hown & xs & Hm & Hxs).
  destruct p as [h hs]. simpl in *. split_and!.
  - destruct (rc_drop_ok h (roots (delete i hs)) (handle_root k) Hown) as (h1 & Heq & _).
    eexists. by eapply step_drop.
  - intros j Hj. destruct k as [b|f]; [|destruct Hxs as [n Hxs]].
    + destruct (clone_ok h (roots hs) b xs (po_heap _ _ Hp) Hxs) as (h1 & b1 & Heq & _).
      { intros l. by apply (root_in_pool hs i (Building b)). }
      eexists. by eapply step_clone.
    + destruct (clone_finish_ok h (roots hs) f xs n (po_heap _ _ Hp) Hxs) as (h1 & Heq & _).
      { intros l. by apply (root_in_pool hs i (Finishing f)). }
      eexists. by eapply step_clone_finish.
  - destruct k as [b|f].
    + split.
      * destruct (finish_builder_ok h b xs Hxs) as (f & n & Heq & _). eexists. by eapply step_finish.
      * intros v ys Hys Hroom. simplify_eq.
        destruct (push_ok h (roots (delete i hs)) b xs v Hown Hxs Hroom) as (h1 & b1 & Heq & _).
        eexists. by eapply step_push.
    + destruct Hxs as [n Hf].
      destruct (resume_ok h (roots (delete i hs)) f xs n Hown Hf) as (h1 & [out|f'] & Heq & _).
      * exists (Some out). eexists. by eapply step_complete.
      * exists None. eexists. by eapply step_pending.
Qed.

(** The steps as a function; the result of a resume is computed. *)
Definition run_event (p : Pool) (ev : Event) : option (Event * Pool) :=
  let '(mkPool h hs) := p in
  match ev with
  | EvNew i capacity =>
      match hs !! i, ListBuilder.with_capacity value_size capacity h with
      | None, (h', Ok b) => Some (ev, mkPool h' (<[i := Building b]> hs))
      | _, _ => None
      end
  | EvPush i v =>
      match hs !! i with
      | Some (Building b) =>
          match ListBuilder.push b v h with
          | (h', Ok b') => Some (ev, mkPool h' (<[i := Building b']> hs))
          | _ => None
          end
      | _ => None
      end
  | EvClone i j =>
      match hs !! i, hs !! j with
      | Some (Building b), None =>
          match ListBuilder.clone b h with
          | (h', Ok b') => Some (ev, mkPool h' (<[j := Building b']> hs))
          | _ => None
          end
      | Some (Finishing f), None =>
          match ListBuilder.clone_finish f h with
          | (h', Ok f') => Some (ev, mkPool h' (<[j := Finishing f']> hs))
          | _ => None
          end
      | _, _ => None
      end
  | EvDrop i =>
      match hs !! i with
      | Some k =>
          match Rc.rc_drop (handle_root k) h with
          | (h', Ok tt) => Some (ev, mkPool h' (delete i hs))
          | _ => None
          end
      | None => None
      end
  | EvFinish i =>
      match hs !! i with
      | Some (Building b) =>
          match ListBuilder.finish b h with
          | (h', Ok f) => Some (ev, mkPool h' (<[i := Finishing f]> hs))
          | _ => None
          end
      | _ => None
      end
  | EvResume i _ =>
      match hs !! i with
      | Some (Finishing f) =>
          match ListBuilder.resume f h with
          | (h', Ok (FinishPending f')) => Some (EvResume i None, mkPool h' (<[i := Finishing f']> hs))
          | (h', Ok (FinishComplete out)) => Some (EvResume i (Some out), mkPool h' (delete i hs))
          | _ => None
          end
      | _ => None
      end
  end.

Fixpoint run_events (done : list Event) (p : Pool) (evs : list Event) : option (list Event * Pool) :=
  match evs with
  | [] => Some (done, p)
  | ev :: evs' =>
      match run_event p ev with
      | Some (ev', p') => run_events (done ++ [ev']) p' evs'
      | None => None
      end
  end.

Lemma run_event_step p ev ev' p' : run_event p ev = Some (ev', p') → pool_step p ev' p'.
Proof. destruct p as [h hs], ev; simpl; intros Hr; repeat case_match; simplify_eq; by econstructor. Qed.

Lemma run_events_reach evs : ∀ done p done' p',
  pool_reach done p → run_events done p evs = Some (done', p') → pool_reach done' p'.
Proof.
  induction evs as [|ev evs IH]; intros done p done' p' Hp Hr; simpl in Hr; [by simplify_eq|].
  destruct (run_event p ev) as [[ev' q]|] eqn:E; [|done]. apply (IH _ _ _ _ (reach_step _ _ _ _ Hp (run_event_step _ _ _ _ E)) Hr).
Qed.

End pool.

Module ListBuilderProps.

(** C19: In any history of creating, filling, cloning, dropping and finishing list
    builders that share segments, every completed finish returns exactly the values
    its own builder received, in order, and no operation on a live builder fails:
    neither the in-place writes nor the moved buffers are visible to another holder. *)
Theorem builder_pool_refines {A : Type} (value_size : N) (evs : list (Event (A := A))) (p : Pool) :
  pool_reach value_size evs p →
  (∀ pre i out post, evs = pre ++ EvResume i (Some out) :: post →
     ∃ xs, spec_pool pre !! i = Some xs ∧ ListHandle.to_vec out = Ok xs) ∧
  progress value_size p (spec_pool evs).
Proof.
  intros [Hok Hres]%pool_reach_ok. split; [|by apply pool_progress].
  intros pre i out post Heq. destruct (Hres _ _ _ Heq) as (xs & Hm & Hwf & <-).
  exists (ListHandle.items out). split; [done|by apply ListHandle.to_vec_spec].
Qed.

(** Two values, a checkpoint between them: the finish moves the second segment and
    copies the shared first one. *)
Definition sample_events : list (Event (A := nat)) :=
  [EvNew 0 16; EvPush 0 1; EvClone 0 1; EvPush 0 2; EvPush 1 9; EvFinish 0; EvResume 0 None; EvResume 0 None].
Definition sample_result : ListHandle nat := Cons 1 (Packed [2] (Empty 0) 0 1) 2.

Lemma sample_reach : ∃ p, pool_reach 24 (sample_events ++ [EvResume 0 (Some sample_result)]) p.
Proof.
  eexists. eapply (run_events_reach 24 (sample_events ++ [EvResume 0 None]) [] empty_pool);
    [constructor|vm_compute; reflexivity].
Qed.

Lemma builder_pool_refines_witness :
  ∃ p : Pool, pool_reach 24 (sample_events ++ [EvResume 0 (Some sample_result)]) p ∧
  ∃ xs, spec_pool sample_events !! 0 = Some xs ∧ ListHandle.to_vec sample_result = Ok xs.
Proof.
  destruct sample_reach as [p Hp]. exists p. split; [exact Hp|].
  destruct (builder_pool_refines 24 _ p Hp) as [Hres _]. by apply (Hres sample_events 0 sample_result []).
Defined.

End ListBuilderProps.
