(* ===== verification/Collections.v ===== *)
(** * Collection builtins ([crates/eldr/src/builtin/{list_finish,list_flat_map,map_values}.rs])

    Builtins that walk a collection never loop on the Rust stack: they return a
    continuation after every element, callback or heap level, and the driver
    resumes it.  Each continuation is a record with its [resume]; the segments of
    the list builders it owns live in the store of [ListBuilder], and every path
    that drops a continuation releases them. *)

From S2P Require Import Prelude Names ListHandle Value TypeRegistry OperandStack Ir RuntimeError.
From S2P Require Import StringLiteral Display ErrorSchema ProcessRuntime Machine ListBuilder.

(** [HashMap::into_iter] visits the entries in an order of its own. *)
Class HashOrder : Type := {
  into_iter : gmap str Value → list (str * Value);
  into_iter_perm : ∀ m, into_iter m ≡ₚ map_to_list m;
}.

Record ListFinishContinuation : Type := mkListFinish {
  lf_builder : ListBuilderFinish Value;
  lf_rest : option Value;
}.

Record FlatMapContinuation : Type := mkFlatMap {
  fm_input : ListHandle Value;
  fm_mapper : Callable;
  fm_output : ListHandle Value;
  fm_builder : ListBuilder;
  fm_awaiting_mapper : bool;
}.

Record MapValuesContinuation : Type := mkMapValues {
  mv_remaining : list (str * Value);
  mv_mapper : Callable;
  mv_output : gmap str Value;
  mv_pending_key : str;
}.

Inductive SortedAction : Type :=
| Callback (mapper : Callable)
| SortKeys
| SortValues.

Record SortedMapContinuation : Type := mkSortedMap {
  sm_entries : list (str * Value);
  sm_heapify_next : nat;
  sm_heap_end : nat;
  sm_sift_root : option nat;
  sm_action : SortedAction;
}.

Record MapListContinuation : Type := mkMapList {
  ml_remaining : list (str * Value);
  ml_keys : bool;
  ml_output : ListBuilder;
}.

Record MapFromEntriesContinuation : Type := mkMapFromEntries {
  mf_remaining : ListHandle Value;
  mf_index : nat;
  mf_output : gmap str Value;
}.

(** The generator builtins suspend too ([generator.rs]). *)
Inductive MaterializeMode : Type :=
| ModeCount (remaining : SurtrInt)
| ModeWhile (predicate : Callable)
| ModeAll.

Inductive MaterializePhase : Type :=
| PhaseStart
| PhaseStep
| PhasePredicate (item next : Value)
| PhaseAppend (item next : Value).

Record MaterializeContinuation : Type := mkMaterialize {
  mt_source : Value;
  mt_mode : MaterializeMode;
  mt_builder : ListBuilder;
  mt_phase : MaterializePhase;
}.

Inductive GeneratorContinuation : Type :=
| GeneratorNext (source : Value)
| Materialize (k : MaterializeContinuation).

(** The continuations of these builtins in [enum BuiltinContinuation]. *)
Inductive CollectionContinuation : Type :=
| FlatMap (k : FlatMapContinuation)
| ListFinish (k : ListFinishContinuation)
| MapValues (k : MapValuesContinuation)
| SortedMap (k : SortedMapContinuation)
| MapList (k : MapListContinuation)
| MapFromEntries (k : MapFromEntriesContinuation)
| Generator (k : GeneratorContinuation).

Abbreviation Outcome := (BuiltinOutcome CollectionContinuation).

Module Collections.

Definition suspended (k : CollectionContinuation) : Outcome := OResume (KOther k).

(** A failing computation drops the value that owned the pointer [o]. *)
Definition dropping {A B} (o : option nat) (m : St A B) : St A B := λ h,
  match m h with
  | (h', Ok b) => (h', Ok b)
  | (h', Err e) => match Rc.rc_drop o h' with (h'', _) => (h'', Err e) end
  end.

Definition liftT {A B} (m : Try RuntimeError B) : St A B := λ h, (h, m).

(** A [Result] kept as a value, as in [match self.builder.resume()]. *)
Definition attempt {A B} (m : St A B) : St A (Result RuntimeError B) := λ h,
  match m h with
  | (h', Ok b) => (h', Ok (Ok b))
  | (h', Err (Failed e)) => (h', Ok (Err e))
  | (h', Err (Panicked p)) => (h', Err (Panicked p))
  end.

(** ** list_finish.rs *)

Fixpoint finish_steps (max_steps used : nat) (k : ListFinishContinuation) :
    St Value (Result RuntimeError Outcome * nat) :=
  match max_steps with
  | 0 => retS (Ok (suspended (ListFinish k)), used)
  | S max_steps' =>
      let! step := attempt (ListBuilder.resume (lf_builder k)) in
      match step with
      | Ok (FinishComplete list) =>
          retS (Ok (OComplete (match lf_rest k with
                               | Some rest => VTuple [VList list; rest]
                               | None => VList list
                               end)), S used)
      | Ok (FinishPending builder) => finish_steps max_steps' (S used) (mkListFinish builder (lf_rest k))
      | Err e => retS (Err e, S used)
      end
  end.
Definition finish_resume_steps (max_steps : nat) (k : ListFinishContinuation) :
    St Value (Result RuntimeError Outcome * nat) := finish_steps max_steps 0 k.

Definition finish_resume (k : ListFinishContinuation) (result : Result RuntimeError Value) : St Value Outcome :=
  let! _ := dropping (fi_current (lf_builder k)) (liftT (lift_res result)) in
  let! r := finish_resume_steps 1 k in
  liftT (lift_res r.1).

Definition finish_list (builder : ListBuilder) (rest : option Value) : St Value Outcome :=
  let! f := ListBuilder.finish builder in
  finish_resume (mkListFinish f rest) (Ok VUnit).

(** ** list_flat_map.rs *)

Section flat_map.
Context `{RustFmt}.

Definition decode_callable_arg (value : Value) (builtin_name arg_name : str) : Result RuntimeError Callable :=
  match value with
  | VCallable c => Ok c
  | other => Err (RuntimeError.new (builtin_name ++ lit " expects callable value as " ++ arg_name
                                    ++ lit ", got " ++ debug_value other))
  end.

Definition flat_map_resume (k : FlatMapContinuation) (result : Result RuntimeError Value) : St Value Outcome :=
  let builder := fm_builder k in
  let fails {B} (m : St Value B) : St Value B := dropping (lb_head builder) m in
  let! value := fails (liftT (lift_res result)) in
  if fm_awaiting_mapper k then
    match value with
    | VList output => retS (suspended (FlatMap (mkFlatMap (fm_input k) (fm_mapper k) output builder false)))
    | other => fails (throwS (lit "list_flat_map mapper must return List, got " ++ debug_value other))
    end
  else
    let! out := fails (liftS (ListHandle.head_value (fm_output k))) in
    match out with
    | Some v =>
        let! tail := fails (liftS (ListHandle.tail_handle (fm_output k))) in
        match tail with
        | None => fails (throwS (lit "list_flat_map output cursor has no tail"))
        | Some tail =>
            let! builder' := fails (ListBuilder.push builder v) in
            retS (suspended (FlatMap (mkFlatMap (fm_input k) (fm_mapper k) tail builder' false)))
        end
    | None =>
        let! inp := fails (liftS (ListHandle.head_value (fm_input k))) in
        match inp with
        | Some v =>
            let! tail := fails (liftS (ListHandle.tail_handle (fm_input k))) in
            match tail with
            | None => fails (throwS (lit "list_flat_map input cursor has no tail"))
            | Some tail =>
                retS (OCall (fm_mapper k) [v]
                        (KOther (FlatMap (mkFlatMap tail (fm_mapper k) (fm_output k) builder true))))
            end
        | None => finish_list builder None
        end
    end.

Definition builtin_list_flat_map (args : list Value) : St Value Outcome :=
  let! values := liftS (index args 0) in
  match values with
  | VList input =>
      let! f := liftS (index args 1) in
      let! mapper := liftT (lift_res (decode_callable_arg f (lit "list_flat_map") (lit "f"))) in
      retS (suspended (FlatMap (mkFlatMap input mapper ListHandle.empty ListBuilder.default_builder false)))
  | _ => throwS (lit "list_flat_map expects List as values")
  end.

End flat_map.

(** ** map_values.rs *)

(** [usize::checked_mul]. *)
Definition usize_checked_mul (a b : nat) : option nat :=
  if decide (N.of_nat (a * b) ≤ usize_max)%N then Some (a * b) else None.

(** [slice::swap]. *)
Definition swap {A} (l : list A) (i j : nat) : Run (list A) :=
  let? x := index l i in
  let? y := index l j in
  Ok (<[j := x]> (<[i := y]> l)).

(** [entries[i].0 < entries[j].0]. *)
Definition key_lt (entries : list (str * Value)) (i j : nat) : Run bool :=
  let? x := index entries i in
  let? y := index entries j in
  Ok (negb (str_leb y.1 x.1)).

Definition set_sort (entries : list (str * Value)) (heapify_next heap_end : nat) (sift_root : option nat)
    (k : SortedMapContinuation) : SortedMapContinuation :=
  mkSortedMap entries heapify_next heap_end sift_root (sm_action k).

(** [SortedMapContinuation::step]: whether the entries are sorted, and the new state. *)
Definition sort_step (k : SortedMapContinuation) : Try RuntimeError (bool * SortedMapContinuation) :=
  let entries := sm_entries k in
  let next := sm_heapify_next k in
  let heap_end := sm_heap_end k in
  match sm_sift_root k with
  | Some root =>
      let left_child := match usize_checked_mul root 2 with Some n => usize_checked_add n 1 | None => None end in
      match left_child with
      | None => fail (RuntimeError.new (lit "HashMap sort cursor overflow"))
      | Some left_child =>
          if decide (heap_end ≤ left_child) then Ok (false, set_sort entries next heap_end None k)
          else lift_run (
            let right_child := left_child + 1 in
            let? use_right := if decide (right_child < heap_end) then key_lt entries left_child right_child else Ok false in
            let child := if use_right : bool then right_child else left_child in
            let? less := key_lt entries root child in
            if less : bool then
              let? entries' := swap entries root child in
              Ok (false, set_sort entries' next heap_end (Some child) k)
            else Ok (false, set_sort entries next heap_end None k))
      end
  | None =>
      if decide (0 < next) then
        Ok (false, set_sort entries (next - 1) heap_end (Some (next - 1)) k)
      else if decide (1 < heap_end) then
        lift_run (
          let? entries' := swap entries 0 (heap_end - 1) in
          Ok (false, set_sort entries' next (heap_end - 1) (Some 0) k))
      else Ok (true, k)
  end.

Definition map_list_resume (k : MapListContinuation) (result : Result RuntimeError Value) : St Value Outcome :=
  let! _ := dropping (lb_head (ml_output k)) (liftT (lift_res result)) in
  match ml_remaining k with
  | [] => finish_list (ml_output k) None
  | (key, value) :: remaining =>
      let! output := dropping (lb_head (ml_output k))
        (ListBuilder.push (ml_output k) (if ml_keys k then VStr key else value)) in
      retS (suspended (MapList (mkMapList remaining (ml_keys k) output)))
  end.

Fixpoint map_list_steps (max_steps used : nat) (k : MapListContinuation) :
    St Value (Result RuntimeError Outcome * nat) :=
  match max_steps with
  | 0 => retS (Ok (suspended (MapList k)), used)
  | S max_steps' =>
      let! r := attempt (map_list_resume k (Ok VUnit)) in
      match r with
      | Ok (OResume (KOther (MapList next))) => map_list_steps max_steps' (S used) next
      | outcome => retS (outcome, S used)
      end
  end.
Definition map_list_resume_steps (max_steps : nat) (k : MapListContinuation) :
    St Value (Result RuntimeError Outcome * nat) := map_list_steps max_steps 0 k.

(** [SortedMapContinuation::sorted]. *)
Definition sorted (k : SortedMapContinuation) : St Value Outcome :=
  match sm_action k with
  | Callback mapper =>
      match sm_entries k with
      | (key, value) :: remaining =>
          retS (OCall mapper [value] (KOther (MapValues (mkMapValues remaining mapper ∅ key))))
      | [] => retS (OComplete (VHashMap ∅))
      end
  | SortKeys => map_list_resume (mkMapList (sm_entries k) true ListBuilder.default_builder) (Ok VUnit)
  | SortValues => map_list_resume (mkMapList (sm_entries k) false ListBuilder.default_builder) (Ok VUnit)
  end.

Fixpoint sort_steps (max_steps used : nat) (k : SortedMapContinuation) :
    St Value (Result RuntimeError Outcome * nat) :=
  match max_steps with
  | 0 => retS (Ok (suspended (SortedMap k)), used)
  | S max_steps' =>
      let! r := attempt (liftT (sort_step k)) in
      match r with
      | Ok (true, k') => let! o := attempt (sorted k') in retS (o, S used)
      | Ok (false, k') => sort_steps max_steps' (S used) k'
      | Err e => retS (Err e, S used)
      end
  end.
Definition sorted_map_resume_steps (max_steps : nat) (k : SortedMapContinuation) :
    St Value (Result RuntimeError Outcome * nat) := sort_steps max_steps 0 k.

Definition sorted_map_resume (k : SortedMapContinuation) (result : Result RuntimeError Value) : St Value Outcome :=
  let! _ := liftT (lift_res result) in
  let! r := sorted_map_resume_steps 1 k in
  liftT (lift_res r.1).

Definition map_values_resume (k : MapValuesContinuation) (result : Result RuntimeError Value) : St Value Outcome :=
  let! value := liftT (lift_res result) in
  let output := <[mv_pending_key k := value]> (mv_output k) in
  match mv_remaining k with
  | (key, value) :: remaining =>
      retS (OCall (mv_mapper k) [value] (KOther (MapValues (mkMapValues remaining (mv_mapper k) output key))))
  | [] => retS (OComplete (VHashMap output))
  end.

Section maps.
Context `{RustFmt} `{HashOrder}.

(** [SortedMapContinuation::start]. *)
Definition start_sort (map : gmap str Value) (action : SortedAction) : St Value Outcome :=
  let entries := into_iter map in
  let len := length entries in
  let continuation := mkSortedMap entries (len / 2) len None action in
  if decide (len < 2) then sorted continuation else retS (suspended (SortedMap continuation)).

Definition map_from_entries_resume (k : MapFromEntriesContinuation) (result : Result RuntimeError Value) :
    St Value Outcome :=
  let! _ := liftT (lift_res result) in
  let! head := liftS (ListHandle.head_value (mf_remaining k)) in
  match head with
  | None => retS (OComplete (VHashMap (mf_output k)))
  | Some (VTuple [key; value]) =>
      match key with
      | VStr key =>
          let! tail := liftS (ListHandle.tail_handle (mf_remaining k)) in
          let! tail := liftS (expect tail) in
          match usize_checked_add (mf_index k) 1 with
          | Some index =>
              retS (suspended (MapFromEntries (mkMapFromEntries tail index (<[key := value]> (mf_output k)))))
          | None => throwS (lit "HashMap entry index overflow")
          end
      | key => throwS (lit "map_from_entries expects String key at index " ++ fmt_nat (mf_index k)
                       ++ lit ", got " ++ debug_value key)
      end
  | Some (VTuple items) =>
      throwS (lit "map_from_entries expects (String, V) tuples at index " ++ fmt_nat (mf_index k)
              ++ lit ", got arity " ++ fmt_nat (length items))
  | Some entry =>
      throwS (lit "map_from_entries expects tuple entries at index " ++ fmt_nat (mf_index k)
              ++ lit ", got " ++ debug_value entry)
  end.

Fixpoint map_from_entries_steps (max_steps used : nat) (k : MapFromEntriesContinuation) :
    St Value (Result RuntimeError Outcome * nat) :=
  match max_steps with
  | 0 => retS (Ok (suspended (MapFromEntries k)), used)
  | S max_steps' =>
      let! r := attempt (map_from_entries_resume k (Ok VUnit)) in
      match r with
      | Ok (OResume (KOther (MapFromEntries next))) => map_from_entries_steps max_steps' (S used) next
      | outcome => retS (outcome, S used)
      end
  end.
Definition map_from_entries_resume_steps (max_steps : nat) (k : MapFromEntriesContinuation) :
    St Value (Result RuntimeError Outcome * nat) := map_from_entries_steps max_steps 0 k.

Definition owned_map (value : Value) (name : str) : Result RuntimeError (gmap str Value) :=
  match value with
  | VHashMap map => Ok map
  | other => Err (RuntimeError.new (name ++ lit " expects HashMap as map, got " ++ debug_value other))
  end.

Definition builtin_map_values (args : list Value) : St Value Outcome :=
  let! map := liftS (expect (args !! 0)) in
  let! map := liftT (lift_res (owned_map map (lit "map_values"))) in
  let! mapper := liftS (expect (args !! 1)) in
  match mapper with
  | VCallable mapper => start_sort map (Callback mapper)
  | other => throwS (lit "map_values expects callable value as f, got " ++ debug_value other)
  end.

Definition builtin_map_keys (args : list Value) : St Value Outcome :=
  let! map := liftS (expect (args !! 0)) in
  let! map := liftT (lift_res (owned_map map (lit "map_keys"))) in
  start_sort map SortKeys.

Definition builtin_map_values_list (args : list Value) : St Value Outcome :=
  let! map := liftS (expect (args !! 0)) in
  let! map := liftT (lift_res (owned_map map (lit "map_values_list"))) in
  start_sort map SortValues.

Definition builtin_map_from_entries (args : list Value) : St Value Outcome :=
  let! entries := liftS (expect (args !! 0)) in
  match entries with
  | VList remaining => map_from_entries_resume (mkMapFromEntries remaining 0 ∅) (Ok VUnit)
  | _ => throwS (lit "map_from_entries expects List<(String, V)>")
  end.

End maps.

End Collections.
