(* ===== verification/SortProps.v ===== *)
(** * The heap sort of the map builtins sorts ([crates/eldr/src/builtin/map_values.rs])

    [SortedMapContinuation::step] is one level of a heap sort that can be
    suspended after every comparison.  [sort_inv] is the invariant of the two
    phases (building the heap, extracting the maxima), preserved by every step;
    [sort_cost] bounds the steps that are left by the height of the heap. *)

From S2P Require Import Prelude Names ListHandle Value TypeRegistry OperandStack Ir RuntimeError.
From S2P Require Import StringLiteral Display ErrorSchema ProcessRuntime Machine ListBuilder Collections.

Section heap.
Implicit Types (es : list (str * Value)) (i j r c : nat).

Abbreviation entry_le := (HashMapHandle.entry_le (V := Value)).

Definition le_at es i j : Prop := ∀ x y, es !! i = Some x → es !! j = Some y → entry_le x y.
Definition child i j : Prop := j = 2 * i + 1 ∨ j = 2 * i + 2.

(** Parents from [a] on are not below their children before [e]. *)
Definition heap_from es a e : Prop := ∀ i j, a ≤ i → child i j → j < e → le_at es j i.

(** The same but for the children of [r], which the parent of [r] bounds too. *)
Record sifting es a e r : Prop := {
  sift_others : ∀ i j, a ≤ i → i ≠ r → child i j → j < e → le_at es j i;
  sift_parent : ∀ p j, a ≤ p → child p r → child r j → j < e → le_at es j p;
}.

(** From [e] on the entries are in place. *)
Definition placed es e : Prop := ∀ i j, i < j → e ≤ j → le_at es i j.

(** ** Swapping *)

Definition swapped es i j es' : Prop :=
  es' !! i = es !! j ∧ es' !! j = es !! i ∧ (∀ k, k ≠ i → k ≠ j → es' !! k = es !! k).

Lemma swap_ok es i j :
  i < length es → j < length es →
  ∃ es', Collections.swap es i j = Ok es' ∧ es' ≡ₚ es ∧ swapped es i j es'.
Proof.
  intros Hi Hj. destruct (lookup_lt_is_Some_2 es i Hi) as [x Hx], (lookup_lt_is_Some_2 es j Hj) as [y Hy].
  unfold Collections.swap, index. rewrite Hx, Hy. simpl. eexists. split; [done|]. split.
  - by apply (Permutation_insert_swap es i j x y).
  - split_and!.
    + destruct (decide (i = j)) as [->|Hne].
      * rewrite list_lookup_insert_eq by (by rewrite length_insert). congruence.
      * rewrite list_lookup_insert_ne, list_lookup_insert_eq by congruence. done.
    + rewrite list_lookup_insert_eq by (by rewrite length_insert). done.
    + intros k Hki Hkj. by rewrite !list_lookup_insert_ne by congruence.
Qed.

Lemma key_lt_ok es i j :
  i < length es → j < length es →
  ∃ b, Collections.key_lt es i j = Ok b ∧ if b : bool then le_at es i j else le_at es j i.
Proof.
  intros Hi Hj. destruct (lookup_lt_is_Some_2 es i Hi) as [x Hx], (lookup_lt_is_Some_2 es j Hj) as [y Hy].
  unfold Collections.key_lt, index. rewrite Hx, Hy. simpl. eexists. split; [done|].
  destruct (str_leb y.1 x.1) eqn:E; simpl; intros ????; simplify_eq; [done|].
  destruct (str_leb_total x.1 y.1); [done|congruence].
Qed.

Lemma le_at_trans es i j k : j < length es → le_at es i j → le_at es j k → le_at es i k.
Proof.
  intros Hj Hij Hjk x z Hx Hz. destruct (lookup_lt_is_Some_2 es j Hj) as [y Hy].
  by apply (HashMapHandle.entry_le_trans x y z); [apply Hij|apply Hjk].
Qed.

Lemma le_at_eq es es' i j i' j' : es' !! i' = es !! i → es' !! j' = es !! j → le_at es i j → le_at es' i' j'.
Proof. unfold le_at. intros -> ->. done. Qed.

(** ** The phases *)

Lemma heap_top es e : heap_from es 0 e → e ≤ length es → ∀ i, i < e → le_at es i 0.
Proof.
  intros Hh He i. induction i as [i IH] using lt_wf_ind. intros Hi.
  destruct (decide (i = 0)) as [->|]; [intros x y ??; simplify_eq; by destruct (str_leb_total x.1 x.1)|].
  assert (child ((i - 1) / 2) i) as Hc.
  { unfold child. pose proof (Nat.div_mod (i - 1) 2). pose proof (Nat.mod_upper_bound (i - 1) 2). lia. }
  assert ((i - 1) / 2 < i) by (unfold child in Hc; lia).
  apply (le_at_trans es i ((i - 1) / 2)); [lia|apply (Hh _ _ (Nat.le_0_l _) Hc Hi)|apply IH; lia].
Qed.

Lemma sifting_done es a e r :
  sifting es a e r → (∀ j, child r j → j < e → le_at es j r) → heap_from es a e.
Proof.
  intros [Ho _] Hr i j Ha Hc Hj. destruct (decide (i = r)) as [->|]; [by apply Hr|by apply Ho].
Qed.

(** Moving the largest child [c] up. *)
Lemma sifting_down es es' a e r c :
  sifting es a e r → a ≤ r → child r c → c < e → e ≤ length es →
  (∀ j, child r j → j < e → le_at es j c) → le_at es r c → swapped es r c es' →
  sifting es' a e c.
Proof.
  intros [Ho Hp] Ha Hc He Hlen Hmax Hrc (Er & Ec & Eo).
  assert (r < c) by (unfold child in Hc; lia). split.
  - intros i j Hai Hic Hij Hje. destruct (decide (i = r)) as [->|Hir].
    + destruct (decide (j = c)) as [->|Hjc]; [by apply (le_at_eq es _ r c)|].
      apply (le_at_eq es _ j c); [apply Eo; unfold child in *; lia|done|by apply Hmax].
    + assert (j ≠ c) by (unfold child in *; lia).
      destruct (decide (j = r)) as [->|Hjr].
      * apply (le_at_eq es _ c i); [done|by apply Eo|by apply (Hp i)].
      * apply (le_at_eq es _ j i); [by apply Eo..|by apply Ho].
  - intros p j Hap Hpc Hcj Hje. assert (p = r) as -> by (unfold child in *; lia).
    apply (le_at_eq es _ j c); [apply Eo; unfold child in *; lia|done|]. apply Ho; [lia|lia|done|done].
Qed.

Lemma placed_swap es es' e r c :
  placed es e → r < e → c < e → swapped es r c es' → placed es' e.
Proof.
  intros Hp Hr Hc (Er & Ec & Eo) i j Hij Hj.
  destruct (decide (i = r)) as [->|Hir]; [|destruct (decide (i = c)) as [->|Hic]].
  - apply (le_at_eq es _ c j); [done|apply Eo; lia|apply Hp; lia].
  - apply (le_at_eq es _ r j); [done|apply Eo; lia|apply Hp; lia].
  - apply (le_at_eq es _ i j); [apply Eo; lia..|by apply Hp].
Qed.

(** Taking the maximum out of the heap. *)
Lemma extract_ok es es' e :
  heap_from es 0 e → placed es e → 1 < e → e ≤ length es → swapped es 0 (e - 1) es' →
  sifting es' 0 (e - 1) 0 ∧ placed es' (e - 1).
Proof.
  intros Hh Hp He Hlen (Er & Ec & Eo). split; [split|].
  - intros i j _ Hi Hc Hj. apply (le_at_eq es _ j i); [apply Eo; unfold child in *; lia..|].
    apply Hh; [lia|done|lia].
  - intros p j _ Hc. unfold child in Hc. lia.
  - intros i j Hij Hj. destruct (decide (j = e - 1)) as [->|Hne].
    + destruct (decide (i = 0)) as [->|Hi0].
      * apply (le_at_eq es _ (e - 1) 0); [done..|]. apply (heap_top es e); [done..|lia].
      * apply (le_at_eq es _ i 0); [apply Eo; lia|done|]. apply (heap_top es e); [done..|lia].
    + destruct (decide (i = 0)) as [->|Hi0]; [|destruct (decide (i = e - 1)) as [->|Hie]].
      * apply (le_at_eq es _ (e - 1) j); [done|apply Eo; lia|apply Hp; lia].
      * apply (le_at_eq es _ 0 j); [done|apply Eo; lia|apply Hp; lia].
      * apply (le_at_eq es _ i j); [apply Eo; lia..|apply Hp; lia].
Qed.

Lemma placed_sorted es : placed es 1 → StronglySorted entry_le es.
Proof.
  intros Hp. assert (∀ i j, i < j → le_at es i j) as Hall by (intros i j Hij; apply Hp; lia). clear Hp.
  induction es as [|x es IH]; [constructor|]. constructor.
  - apply IH. intros i j Hij. by apply (Hall (S i) (S j)); lia.
  - apply Forall_forall. intros y [j Hj]%list_elem_of_lookup. apply (Hall 0 (S j)); [lia|done..].
Qed.

(** ** The invariant and the cost of a step *)

(** The levels a sift from [r] can still go down. *)
Definition sift_cost e r : nat := S (Nat.log2 (e / (r + 1))).
(** No sift in a heap of [n] entries costs more. *)
Definition height n : nat := S (Nat.log2 n).

Definition sort_cost (k : SortedMapContinuation) : nat :=
  from_option (sift_cost (sm_heap_end k)) 0 (sm_sift_root k)
  + (sm_heapify_next k + (sm_heap_end k - 1)) * S (height (length (sm_entries k))).

Record sort_inv (k : SortedMapContinuation) : Prop := {
  si_end : sm_heap_end k ≤ length (sm_entries k);
  si_next : sm_heapify_next k ≤ sm_heap_end k;
  si_building : 0 < sm_heapify_next k → sm_heap_end k = length (sm_entries k);
  si_placed : placed (sm_entries k) (sm_heap_end k);
  si_phase :
    match sm_sift_root k with
    | None => heap_from (sm_entries k) (sm_heapify_next k) (sm_heap_end k)
    | Some r => sifting (sm_entries k) (sm_heapify_next k) (sm_heap_end k) r ∧
        sm_heapify_next k ≤ r < length (sm_entries k)
    end;
  si_size : (N.of_nat (2 * length (sm_entries k)) ≤ usize_max)%N;
}.

Lemma log2_child e r c : child r c → c < e → Nat.log2 (e / (c + 1)) < Nat.log2 (e / (r + 1)).
Proof.
  intros Hc He.
  assert (1 ≤ e / (c + 1)) by (apply Nat.div_le_lower_bound; lia).
  assert (e / (c + 1) ≤ e / (r + 1) / 2).
  { rewrite Nat.Div0.div_div. apply Nat.div_le_compat_l. unfold child in Hc. lia. }
  assert (2 ≤ e / (r + 1)).
  { pose proof (Nat.div_mod (e / (r + 1)) 2). lia. }
  assert (Nat.log2 (e / (c + 1)) ≤ Nat.log2 (e / (r + 1) / 2)) by by apply Nat.log2_le_mono.
  rewrite <- Nat.div2_div in *.
  assert (0 < Nat.log2 (e / (r + 1))) by (apply Nat.log2_pos; lia).
  assert (Nat.log2 (Nat.div2 (e / (r + 1))) < Nat.log2 (e / (r + 1))); [|lia].
  apply Nat.log2_lt_pow2; [lia|].
  destruct (Nat.log2_spec (e / (r + 1))) as [_ Hup]; [lia|].
  destruct (Nat.log2 (e / (r + 1))) as [|q] eqn:E; [lia|].
  rewrite Nat.pow_succ_r' in Hup. rewrite Nat.div2_div. apply Nat.Div0.div_lt_upper_bound. lia.
Qed.

Lemma sift_cost_height e r n : e ≤ n → sift_cost e r ≤ height n.
Proof.
  intros He. unfold sift_cost, height. apply le_n_S, Nat.log2_le_mono.
  transitivity e; [|done]. apply Nat.Div0.div_le_upper_bound. lia.
Qed.

(** What a step that does not end the sort leaves. *)
Definition sort_next (k k' : SortedMapContinuation) : Prop :=
  sort_inv k' ∧ sm_entries k' ≡ₚ sm_entries k ∧ sm_action k' = sm_action k ∧ sort_cost k' < sort_cost k.

(** The larger child, as the source selects it. *)
Lemma larger_child es e r :
  2 * r + 1 < e → e ≤ length es →
  ∃ b, (if decide (2 * r + 1 + 1 < e) then Collections.key_lt es (2 * r + 1) (2 * r + 1 + 1) else Ok false) = Ok b ∧
    let c := if b : bool then 2 * r + 1 + 1 else 2 * r + 1 in
    child r c ∧ c < e ∧ ∀ j, child r j → j < e → le_at es j c.
Proof.
  intros Hl Hlen.
  assert (∀ i, le_at es i i) as Hrefl.
  { intros i x y ??. simplify_eq. by destruct (str_leb_total x.1 x.1). }
  case_decide as Hr.
  - destruct (key_lt_ok es (2 * r + 1) (2 * r + 1 + 1)) as (b & -> & Hb); [lia..|].
    exists b. split; [done|]. unfold child. destruct b; (split_and!; [lia|lia|]); intros j [->| ->] Hj; try done;
      by replace (2 * r + 2) with (2 * r + 1 + 1) by lia.
  - exists false. split; [done|]. unfold child. split_and!; [lia|lia|]. intros j [->| ->] Hj; [done|lia].
Qed.

Lemma sort_step_sift k r :
  sort_inv k → sm_sift_root k = Some r →
  ∃ k', Collections.sort_step k = Ok (false, k') ∧ sort_next k k'.
Proof.
  intros [He Hn Hb Hp Hph Hsz] Hr. rewrite Hr in Hph. destruct Hph as [Hs [Hnr Hrl]].
  unfold Collections.sort_step. rewrite Hr. unfold Collections.usize_checked_mul, usize_checked_add.
  rewrite !(Nat.mul_comm r 2). rewrite decide_True by lia. rewrite decide_True by lia.
  case_decide as Hleft.
  - eexists. split; [done|]. split_and!; try done.
    + split; simpl; try done. apply (sifting_done _ _ _ r); [done|]. unfold child. lia.
    + unfold sort_cost, sift_cost. rewrite Hr. simpl. lia.
  - destruct (larger_child (sm_entries k) (sm_heap_end k) r) as (b & -> & Hc & Hce & Hmax); [lia..|]. cbn [rbind].
    set (c := if b then 2 * r + 1 + 1 else 2 * r + 1) in *.
    destruct (key_lt_ok (sm_entries k) r c) as (less & -> & Hless); [lia..|]. simpl. destruct less.
    + destruct (swap_ok (sm_entries k) r c) as (es' & -> & Hperm & Hsw); [lia..|].
      eexists. split; [done|]. assert (length es' = length (sm_entries k)) as Hl' by by rewrite Hperm.
      assert (r < c) by (unfold child in Hc; lia). split_and!; [|done|done|].
      * split; simpl; rewrite ?Hl'; try done; [by apply (placed_swap (sm_entries k) _ _ r c); [|lia..|]|].
        split; [by apply (sifting_down (sm_entries k) _ _ _ r c)|lia].
      * unfold sort_cost. rewrite Hr. simpl. rewrite Hl'. unfold sift_cost.
        pose proof (log2_child _ _ _ Hc Hce). lia.
    + eexists. split; [done|]. split_and!; try done.
      * split; simpl; try done. apply (sifting_done _ _ _ r); [done|].
        intros j Hj Hje. apply (le_at_trans _ j c); [lia|by apply Hmax|done].
      * unfold sort_cost, sift_cost. rewrite Hr. simpl. lia.
Qed.

Lemma sort_step_phase k :
  sort_inv k → sm_sift_root k = None →
  (Collections.sort_step k = Ok (true, k) ∧ StronglySorted entry_le (sm_entries k)) ∨
  ∃ k', Collections.sort_step k = Ok (false, k') ∧ sort_next k k'.
Proof.
  intros [He Hn Hb Hp Hph Hsz] Hr. rewrite Hr in Hph. unfold Collections.sort_step. rewrite Hr.
  pose proof (λ r e, sift_cost_height e r (length (sm_entries k))) as Hheight.
  case_decide as Hnext; [right|case_decide as Hend; [right|left]].
  - eexists. split; [done|]. split_and!; try done.
    + split; simpl; try done; [lia|intros _; by apply Hb|]. split; [|specialize (Hb Hnext); lia].
      split; [intros i j ??; apply Hph; lia|unfold child; lia].
    + unfold sort_cost. rewrite Hr. simpl. specialize (Hheight (sm_heapify_next k - 1) (sm_heap_end k) He).
      destruct (sm_heapify_next k) as [|n]; [lia|]. simpl in *. rewrite Nat.sub_0_r in *.
      unfold sift_cost, height in *. lia.
  - destruct (swap_ok (sm_entries k) 0 (sm_heap_end k - 1)) as (es' & -> & Hperm & Hsw); [lia..|].
    assert (sm_heapify_next k = 0) as H0 by lia. rewrite H0 in Hph.
    destruct (extract_ok _ _ _ Hph Hp Hend He Hsw) as [Hs' Hp'].
    eexists. split; [done|]. assert (length es' = length (sm_entries k)) as Hl' by by rewrite Hperm.
    split_and!; [|done|done|].
    + split; simpl; rewrite ?Hl', ?H0; try done; [lia..|]. split; [done|lia].
    + unfold sort_cost. rewrite Hr. cbn [Collections.set_sort sm_entries sm_heapify_next sm_heap_end sm_sift_root from_option].
      rewrite Hl', H0. specialize (Hheight 0 (sm_heap_end k - 1) ltac:(lia)).
      replace (0 + (sm_heap_end k - 1)) with (S (0 + (sm_heap_end k - 1 - 1))) by lia.
      rewrite Nat.mul_succ_l. lia.
  - split; [done|]. apply placed_sorted. intros i j Hij Hj. apply Hp; [done|lia].
Qed.

Lemma sort_start_inv entries action :
  (N.of_nat (2 * length entries) ≤ usize_max)%N →
  sort_inv (mkSortedMap entries (length entries / 2) (length entries) None action).
Proof.
  intros Hsz. pose proof (Nat.div_mod (length entries) 2). pose proof (Nat.mod_upper_bound (length entries) 2).
  split; cbn [sm_entries sm_heapify_next sm_heap_end sm_sift_root]; try done; [lia|..].
  - intros i j Hij Hj x y _ Hy. apply lookup_lt_Some in Hy. lia.
  - intros i j Hi Hc Hj. unfold child in Hc. lia.
Qed.

End heap.

(** ** Running the sort *)

Lemma sort_step_ok (k : SortedMapContinuation) :
  sort_inv k →
  (Collections.sort_step k = Ok (true, k) ∧ StronglySorted HashMapHandle.entry_le (sm_entries k)) ∨
  ∃ k', Collections.sort_step k = Ok (false, k') ∧ sort_next k k'.
Proof.
  intros Hinv. destruct (sm_sift_root k) as [r|] eqn:Hr; [right; by eapply sort_step_sift|by apply sort_step_phase].
Qed.

Lemma sort_steps_ok max_steps : ∀ (k : SortedMapContinuation) (used : nat) (h : Heap Value),
  sort_inv k → sort_cost k < max_steps →
  ∃ k' used', used' ≤ used + S (sort_cost k) ∧ StronglySorted HashMapHandle.entry_le (sm_entries k') ∧
    sm_entries k' ≡ₚ sm_entries k ∧ sm_action k' = sm_action k ∧
    Collections.sort_steps max_steps used k h = (let! o := Collections.attempt (Collections.sorted k') in retS (o, used')) h.
Proof.
  induction max_steps as [|max_steps IH]; intros k used h Hinv Hlt; [lia|]. simpl.
  destruct (sort_step_ok k Hinv) as [[Hs Hsorted]|(k1 & Hs & Hinv1 & Hp1 & Ha1 & Hc1)];
    unfold bindS at 1, Collections.attempt at 1, Collections.liftT; rewrite Hs; cbn.
  - exists k, (S used). split_and!; [lia|done..].
  - destruct (IH k1 (S used) h Hinv1) as (k' & used' & ? & ? & Hp & Ha & Heq); [lia|].
    exists k', used'. split_and!; [lia|done|by rewrite Hp|by rewrite Ha|done].
Qed.

(** A sorted listing of the entries of a map is the listing a program observes. *)
Lemma sorted_into_iter `{HashOrder} (m : gmap str Value) (es : list (str * Value)) :
  StronglySorted HashMapHandle.entry_le es → es ≡ₚ into_iter m → es = HashMapHandle.sorted_entries m.
Proof.
  intros Hs Hp. rewrite into_iter_perm in Hp. apply HashMapHandle.sorted_listing_unique.
  - done.
  - apply HashMapHandle.sorted_entries_sorted.
  - rewrite Hp. apply NoDup_fst_map_to_list.
  - by rewrite Hp, HashMapHandle.sorted_entries_perm.
Qed.

Lemma length_into_iter `{HashOrder} (m : gmap str Value) : length (into_iter m) = size m.
Proof. by rewrite into_iter_perm, length_map_to_list. Qed.

(** The transitions a sort of [n] entries may take: one to end it, and for each of
    the heap's insertions and extractions one more than the height of the heap. *)
Definition sort_bound (n : nat) : nat := S ((n / 2 + (n - 1)) * S (height n)).

Module SortProps.

(** C21: The suspendable heap sort behind the map builtins terminates and sorts: for a
    map of [n] entries in whatever order the table yields them, at most
    [sort_bound n], which is O(n log n), transitions lead to the sorted listing of the
    map, with the action unchanged, and then to the action's outcome. *)
Theorem heap_sort_sorts `{HashOrder} (m : gmap str Value) (action : SortedAction) (h : Heap Value)
    (max_steps : nat) :
  (N.of_nat (2 * size m) ≤ usize_max)%N → sort_bound (size m) ≤ max_steps →
  ∃ k used, sm_entries k = HashMapHandle.sorted_entries m ∧ sm_action k = action ∧ used ≤ sort_bound (size m) ∧
    Collections.sorted_map_resume_steps max_steps
      (mkSortedMap (into_iter m) (size m / 2) (size m) None action) h
    = (let! o := Collections.attempt (Collections.sorted k) in retS (o, used)) h.
Proof.
  intros Hsz Hmax. rewrite <- length_into_iter in *.
  pose proof (sort_start_inv (into_iter m) action Hsz) as Hinv.
  destruct (sort_steps_ok max_steps _ 0 h Hinv) as (k & used & Hu & Hs & Hp & Ha & Heq); [done|].
  exists k, used. split_and!; [by apply sorted_into_iter|done..].
Qed.

(** The order of [map_to_list] is one order a table may have. *)
#[local] Instance some_order : HashOrder := {| into_iter m := map_to_list m; into_iter_perm m := Permutation_refl _ |}.

Definition sample_map : gmap str Value :=
  HashMapHandle.from_entries [(lit "pear", VUnit); (lit "fig", VBool true); (lit "apple", VBool false); (lit "plum", VUnit)].

Lemma heap_sort_sorts_witness :
  ∃ k used, sm_entries k = HashMapHandle.sorted_entries sample_map ∧ sm_action k = SortKeys ∧ used ≤ 21 ∧
    Collections.sorted_map_resume_steps 25
      (mkSortedMap (into_iter sample_map) 2 4 None SortKeys) (mkHeap 0 ∅)
    = (let! o := Collections.attempt (Collections.sorted k) in retS (o, used)) (mkHeap 0 ∅).
Proof.
  apply (heap_sort_sorts sample_map SortKeys (mkHeap 0 ∅) 25); vm_compute; [done|lia].
Defined.

End SortProps.
