(* ===== verification/Generators.v ===== *)
(** * Generators ([crates/eldr/src/builtin/generator.rs])

    A generator value is a producer: a range, a user function with its state, or
    the exhausted producer.  [step] asks it for the next item; [materialize]
    collects items into a list, asking for one item per callback, with a count, a
    predicate or no limit.  The file ends with the dispatch of
    [BuiltinContinuation::resume] over the continuations of the collections. *)

From S2P Require Import Prelude Names ListHandle Value TypeRegistry OperandStack Ir RuntimeError.
From S2P Require Import StringLiteral Display ErrorSchema ProcessRuntime Machine ListBuilder Collections.

Module Generators.
Import Collections.

Definition OPTION_SOME : str := lit "Option::Some".
Definition OPTION_NONE : str := lit "Option::None".
Definition OPTION_SOME_DISCRIMINANT : Z := 0.
Definition OPTION_NONE_DISCRIMINANT : Z := 1.

(** [builtin_id_by_name]: the position of the name in the table, which has at most
    as many entries as there are ids. *)
Fixpoint position_from `{BuiltinTable} (fuel : nat) (id : N) (name : str) : option N :=
  match fuel with
  | 0 => None
  | S fuel' =>
      match builtin_meta_by_id id with
      | None => None
      | Some meta => if decide (bm_name meta = name) then Some id else position_from fuel' (id + 1)%N name
      end
  end.
Definition builtin_id_by_name `{BuiltinTable} (name : str) : option N :=
  position_from (N.to_nat (u16_max + 1)) 0 name.

Section options.
Context (registry : TypeRegistry).

Definition tagged_by_name (name : str) (fields : list Value) : Result RuntimeError Value :=
  match TypeRegistry.tag_by_name registry name with
  | Some tag => Ok (VTagged tag fields)
  | None => Err (RuntimeError.new (lit "missing runtime type " ++ name))
  end.

Definition enum_variant_by_name (name : str) (discriminant : Z) (payload : list Value) : Result RuntimeError Value :=
  tagged_by_name name (VInt discriminant :: payload).

Definition option_none : Result RuntimeError Value :=
  enum_variant_by_name OPTION_NONE OPTION_NONE_DISCRIMINANT [].
Definition option_some (value : Value) : Result RuntimeError Value :=
  enum_variant_by_name OPTION_SOME OPTION_SOME_DISCRIMINANT [value].

Definition pair_fields (value : Value) : Result RuntimeError (Value * Value) :=
  match value with
  | VTuple [item; state] => Ok (item, state)
  | VTuple _ => Err (RuntimeError.new (lit "generator step pair must contain exactly two fields"))
  | _ => Err (RuntimeError.new (lit "generator step must return an (item, state) pair"))
  end.

(** [fn option]: reads an [Option] value. *)
Definition read_option (value : Value) : Result RuntimeError (option Value) :=
  match value with
  | VTagged tag fields =>
      let tagged name := bool_decide (TypeRegistry.tag_by_name registry name = Some tag) in
      let none := match fields with [VInt n] => bool_decide (n = OPTION_NONE_DISCRIMINANT) | _ => false end in
      if tagged OPTION_NONE && none then Ok None
      else
        match fields with
        | [VInt n; payload] =>
            if tagged OPTION_SOME && bool_decide (n = OPTION_SOME_DISCRIMINANT) then Ok (Some payload)
            else Err (RuntimeError.new (lit "finite generator step returned an invalid Option"))
        | _ => Err (RuntimeError.new (lit "finite generator step returned an invalid Option"))
        end
  | _ => Err (RuntimeError.new (lit "finite generator step must return Option"))
  end.

Definition terminal : Value := VGenerator GpTerminal.
Definition finite_unfold (state : Value) (step : Callable) : Value := VGenerator (GpUnfold state step).
Definition infinite_unfold (state : Value) (step : Callable) : Value := VInfiniteGenerator state step.

Definition is_generator (v : Value) : bool := match v with VGenerator _ => true | _ => false end.
Definition is_infinite_generator (v : Value) : bool := match v with VInfiniteGenerator _ _ => true | _ => false end.

Definition check_kind (value : Value) (infinite : bool) : Result RuntimeError unit :=
  match value, infinite with
  | VGenerator _, false | VInfiniteGenerator _ _, true => Ok tt
  | _, true => Err (RuntimeError.new (lit "expects InfiniteGenerator as gen"))
  | _, false => Err (RuntimeError.new (lit "expects Generator as gen"))
  end.

(** [GeneratorContinuation::resume], the callback of [step] returned [result]. *)
Definition next_resume (source result : Value) : Result RuntimeError Outcome :=
  match source with
  | VGenerator (GpUnfold _ step) =>
      let? value := read_option result in
      match value with
      | Some value =>
          let? '(item, state) := pair_fields value in
          let? some := option_some (VTuple [item; finite_unfold state step]) in
          Ok (OComplete some)
      | None => let? none := option_none in Ok (OComplete none)
      end
  | VGenerator _ => Err (RuntimeError.new (lit "invalid finite generator continuation state"))
  | VInfiniteGenerator _ step =>
      let? '(item, state) := pair_fields result in
      Ok (OComplete (VTuple [item; infinite_unfold state step]))
  | _ => Err (RuntimeError.new (lit "invalid generator continuation kind"))
  end.

(** The step of a range: its item and the rest, or nothing. *)
Definition range_step (is_char : bool) (current stop step : Z) : Result RuntimeError Outcome :=
  if decide (step = 0)%Z then Err (RuntimeError.new (lit "generator range has zero step"))
  else if decide ((0 < step ∧ stop < current) ∨ (step < 0 ∧ current < stop))%Z then
    let? none := option_none in Ok (OComplete none)
  else
    let? item :=
      if is_char then
        if decide (0 ≤ current ≤ 127)%Z then Ok (VStr [Z.to_N current])
        else Err (RuntimeError.new (lit "invalid character generator state"))
      else Ok (VInt current) in
    let producer := (if is_char then GpRangeChar else GpRange) (current + step)%Z stop step in
    let? some := option_some (VTuple [item; VGenerator producer]) in
    Ok (OComplete some).

Definition step (args : list Value) (infinite : bool) : Try RuntimeError Outcome :=
  let? source := lift_run (index args 0) in
  let? _ := lift_res (check_kind source infinite) in
  let call state step := Ok (OCall step [state] (KOther (Generator (GeneratorNext source)))) in
  match source with
  | VGenerator GpTerminal => lift_res (let? none := option_none in Ok (OComplete none))
  | VGenerator (GpUnfold state step) => call state step
  | VGenerator (GpRange current stop step) => lift_res (range_step false current stop step)
  | VGenerator (GpRangeChar current stop step) => lift_res (range_step true current stop step)
  | VInfiniteGenerator state step => call state step
  | _ => Err (Panicked PUnreachable)
  end.

(** What a callback of [materialize] delivers: an item with the next source, or the end. *)
Definition step_result (source result : Value) : Result RuntimeError (option (Value * Value)) :=
  let? value := if is_generator source then read_option result else Ok (Some result) in
  match value with
  | None => Ok None
  | Some value =>
      let? '(item, next) := pair_fields value in
      let? _ := check_kind next (is_infinite_generator source) in
      Ok (Some (item, next))
  end.

Definition set_phase (phase : MaterializePhase) (k : MaterializeContinuation) : MaterializeContinuation :=
  mkMaterialize (mt_source k) (mt_mode k) (mt_builder k) phase.

Definition runnable (k : MaterializeContinuation) : Outcome := suspended (Generator (Materialize k)).

Definition materialize_finish (k : MaterializeContinuation) : St Value Outcome :=
  finish_list (mt_builder k) (match mt_mode k with ModeAll => None | _ => Some (mt_source k) end).

Section materialize.
Context `{RustFmt} `{BuiltinTable}.

Definition call_step (source : Value) : Result RuntimeError Callable :=
  let name := if is_generator source then lit "gen_step" else lit "inf_gen_next" in
  match builtin_id_by_name name with
  | Some id => Ok (mkCallable (CtBuiltin id) [] default_metadata)
  | None => Err (RuntimeError.new (lit "missing generator step builtin"))
  end.

Definition materialize_resume (k : MaterializeContinuation) (result : Value) : St Value Outcome :=
  let fails {B} (m : St Value B) : St Value B := dropping (lb_head (mt_builder k)) m in
  match mt_phase k with
  | PhaseStep =>
      let! r := fails (liftT (lift_res (step_result (mt_source k) result))) in
      match r with
      | None => materialize_finish (mkMaterialize terminal (mt_mode k) (mt_builder k) PhaseStart)
      | Some (item, next) =>
          match mt_mode k with
          | ModeWhile predicate =>
              retS (OCall predicate [item] (KOther (Generator (Materialize (set_phase (PhasePredicate item next) k)))))
          | _ => retS (runnable (set_phase (PhaseAppend item next) k))
          end
      end
  | PhasePredicate item next =>
      match result with
      | VBool keep =>
          if keep then retS (runnable (set_phase (PhaseAppend item next) k))
          else materialize_finish (set_phase PhaseStart k)
      | _ => fails (throwS (lit "generator take_while predicate must return Boolean"))
      end
  | PhaseAppend item next =>
      let! builder := fails (ListBuilder.push (mt_builder k) item) in
      let mode := match mt_mode k with ModeCount n => ModeCount (n - 1)%Z | m => m end in
      retS (runnable (mkMaterialize next mode builder PhaseStart))
  | PhaseStart =>
      if match mt_mode k with ModeCount n => bool_decide (n ≤ 0)%Z | _ => false end then materialize_finish k
      else
        let! callable := fails (liftT (lift_res (call_step (mt_source k)))) in
        retS (OCall callable [mt_source k] (KOther (Generator (Materialize (set_phase PhaseStep k)))))
  end.

Definition generator_resume (k : GeneratorContinuation) (result : Result RuntimeError Value) : St Value Outcome :=
  match k with
  | GeneratorNext source =>
      let! value := liftT (lift_res result) in
      liftT (lift_res (next_resume source value))
  | Materialize k =>
      let! value := dropping (lb_head (mt_builder k)) (liftT (lift_res result)) in
      materialize_resume k value
  end.

Definition unfold_generator (args : list Value) (infinite : bool) : Try RuntimeError Outcome :=
  let? f := lift_run (index args 1) in
  let? step := lift_res (decode_callable_arg f (lit "generator unfold") (lit "step")) in
  let? state := lift_run (index args 0) in
  Ok (OComplete (if infinite then infinite_unfold state step else finite_unfold state step)).

Definition materialize_mode (args : list Value) (operation : str) : Try RuntimeError MaterializeMode :=
  if decide (operation = lit "take") then
    let? count := lift_run (index args 1) in
    match count with
    | VInt n => Ok (ModeCount n)
    | _ => fail (RuntimeError.new (lit "generator take expects Int as count"))
    end
  else if decide (operation = lit "take_while") then
    let? f := lift_run (index args 1) in
    let? predicate := lift_res (decode_callable_arg f (lit "generator take_while") (lit "predicate")) in
    Ok (ModeWhile predicate)
  else if decide (operation = lit "to_list") then Ok ModeAll
  else fail (RuntimeError.new (lit "invalid generator materialize operation")).

Definition reserved (mode : MaterializeMode) : nat :=
  match mode with ModeCount n => if decide (0 < n)%Z then Z.to_nat (Z.min n 1024) else 0 | _ => 0 end.

Definition materialize (value_size : N) (args : list Value) (infinite : bool) (operation : str) : St Value Outcome :=
  let! source := liftS (index args 0) in
  let! _ := liftT (lift_res (check_kind source infinite)) in
  let! mode := liftT (materialize_mode args operation) in
  let! builder := ListBuilder.with_capacity value_size (reserved mode) in
  retS (runnable (mkMaterialize source mode builder PhaseStart)).

Definition is_ascii_int (n : Z) : bool := bool_decide (0 ≤ n ≤ 127)%Z.

Definition range (args : list Value) (chars : bool) : Try RuntimeError Outcome :=
  let? a := lift_run (index args 0) in
  let? b := lift_run (index args 1) in
  match a, b with
  | VInt current, VInt stop =>
      let? step :=
        if chars then
          let? s := lift_run (index args 2) in
          match s with
          | VInt step => Ok step
          | _ => fail (RuntimeError.new (lit "character generator range expects Int step"))
          end
        else Ok 1%Z in
      if chars && (bool_decide (step = 0)%Z || negb (is_ascii_int current) || negb (is_ascii_int stop)) then
        fail (RuntimeError.new (lit "invalid validated character range"))
      else Ok (OComplete (VGenerator ((if chars then GpRangeChar else GpRange) current stop step)))
  | _, _ => fail (RuntimeError.new (lit "generator range expects Int endpoints"))
  end.

(** [BuiltinContinuation::resume] on the continuations of the collections. *)
Definition resume (k : CollectionContinuation) (result : Result RuntimeError Value) : St Value Outcome :=
  match k with
  | FlatMap k => flat_map_resume k result
  | ListFinish k => finish_resume k result
  | MapValues k => map_values_resume k result
  | SortedMap k => sorted_map_resume k result
  | MapList k => map_list_resume k result
  | MapFromEntries k => map_from_entries_resume k result
  | Generator k => generator_resume k result
  end.

End materialize.
End options.

End Generators.
