(* ===== verification/CollectionsProps.v ===== *)
(** * The collection builtins compute what they say
      ([crates/eldr/src/builtin/{list_finish,list_flat_map,map_values}.rs])

    A builtin is run by the driver, one continuation at a time, with other
    processes and checkpoints working on the same store in between and with the
    program's own code behind every callback.  [total] is total correctness of
    such a run: whatever the others do within their guarantee, and whatever the
    callbacks return, the builtin never panics, ends, satisfies its
    specification over the log of its callbacks, and releases every segment. *)

From S2P Require Import Prelude Names ListHandle Value TypeRegistry OperandStack Ir RuntimeError.
From S2P Require Import StringLiteral Display ErrorSchema ProcessRuntime Machine ListBuilder ListBuilderProps.
From S2P Require Import Collections SortProps Generators.

(** The pointer a suspended builtin holds. *)
Definition k_root (k : CollectionContinuation) : option nat :=
  match k with
  | FlatMap k => lb_head (fm_builder k)
  | ListFinish k => fi_current (lf_builder k)
  | MapList k => lb_head (ml_output k)
  | Generator (Materialize k) => lb_head (mt_builder k)
  | MapValues _ | SortedMap _ | MapFromEntries _ | Generator (GeneratorNext _) => None
  end.

(** A callback: the callable, its arguments and what it returned. *)
Definition call : Type := Callable * list Value * Result RuntimeError Value.

(** Lists a callback returns are well formed; nothing else is known of it. *)
Definition result_wf (r : Result RuntimeError Value) : Prop := ∀ l, r = Ok (VList l) → ListHandle.wf l.

Definition any_call (f : Callable) (args : list Value) (r : Result RuntimeError Value) : Prop := result_wf r.

(** What the others may have done while [k] was suspended. *)
Definition rely (k : CollectionContinuation) (h h' : Heap Value) (R' : list nat) : Prop :=
  heap_ok h' (option_list (k_root k) ++ R') ∧ keeps h h' (option_list (k_root k)).

Lemma list_or_not (v : Value) : (∃ l, v = VList l) ∨ (∀ l, v ≠ VList l).
Proof. destruct v; eauto; right; congruence. Qed.

Section total.
(** [calls f args r] says that [f] on [args] may return [r]. *)
Context `{RustFmt} `{BuiltinTable} (registry : TypeRegistry).
Context (calls : Callable → list Value → Result RuntimeError Value → Prop).
Context (Q : list call → Result RuntimeError Value → Prop).

(** A transition ended in an outcome that satisfies [T], or in an allowed error. *)
Definition lands (T : Heap Value → list nat → list call → Outcome → Prop) (R : list nat) (log : list call)
    (m : Heap Value * Try RuntimeError Outcome) : Prop :=
  ∃ h r, m = (h, r) ∧
    ((∃ o, r = Ok o ∧ T h R log o) ∨ (∃ e, r = Err (Failed e) ∧ heap_ok h R ∧ Q log (Err e))).

#[local] Unset Elimination Schemes.
Inductive total : Heap Value → list nat → list call → Outcome → Prop :=
| total_complete h R log v : heap_ok h R → Q log (Ok v) → total h R log (OComplete v)
| total_resume h R log k :
    (∀ h1 R1, rely k h h1 R1 → lands total R1 log (Generators.resume registry k (Ok VUnit) h1)) →
    total h R log (OResume (KOther k))
| total_call h R log f args k :
    (∀ h1 R1 res, rely k h h1 R1 → calls f args res →
       lands total R1 (log ++ [(f, args, res)]) (Generators.resume registry k res h1)) →
    total h R log (OCall f args (KOther k)).

Lemma lands_ok R log h o m : m = (h, Ok o) → total h R log o → lands total R log m.
Proof. intros -> ?. exists h, (Ok o). split; [done|]. left. by exists o. Qed.

Lemma lands_err R log h e m :
  m = (h, Err (Failed e)) → heap_ok h R → Q log (Err e) → lands total R log m.
Proof. intros -> ??. exists h, (Err (Failed e)). split; [done|]. right. by exists e. Qed.

(** An error drops what the continuation held. *)
Lemma dropping_err {B} o (m : St Value B) h R e :
  m h = (h, Err (Failed e)) → heap_ok h (option_list o ++ R) →
  ∃ h', Collections.dropping o m h = (h', Err (Failed e)) ∧ heap_ok h' R.
Proof.
  intros Hm Hok. destruct (rc_drop_ok h R o Hok) as (h' & Hd & Hok' & _).
  exists h'. unfold Collections.dropping. by rewrite Hm, Hd.
Qed.

(** ** Finishing a list *)

Definition finish_value (rest : option Value) (list : ListHandle Value) : Value :=
  match rest with Some rest => VTuple [VList list; rest] | None => VList list end.

Lemma finish_resume_eq (f : ListBuilderFinish Value) rest h h' r :
  ListBuilder.resume f h = (h', Ok r) →
  Collections.finish_resume (mkListFinish f rest) (Ok VUnit) h
  = (h', Ok (match r with
             | FinishComplete list => OComplete (finish_value rest list)
             | FinishPending f' => Collections.suspended (ListFinish (mkListFinish f' rest))
             end)).
Proof.
  intros Hr. unfold Collections.finish_resume, Collections.finish_resume_steps, bindS, Collections.dropping. simpl.
  unfold bindS, Collections.attempt. simpl. rewrite Hr. by destruct r.
Qed.

Lemma finish_total m : ∀ h R log (f : ListBuilderFinish Value) rest xs,
  heap_ok h (option_list (fi_current f) ++ R) → finish_ok h f xs m →
  (∀ out, ListHandle.wf out → ListHandle.items out = xs → Q log (Ok (finish_value rest out))) →
  lands total R log (Collections.finish_resume (mkListFinish f rest) (Ok VUnit) h).
Proof.
  induction m as [m IH] using lt_wf_ind. intros h R log f rest xs Hok Hf HQ.
  destruct (resume_ok h R f xs m Hok Hf) as (h' & r & Hr & _ & Hstep).
  apply (lands_ok _ _ h' _ _ (finish_resume_eq f rest h h' r Hr)). destruct r as [out|f'].
  - destruct Hstep as (? & ? & ?). constructor; auto.
  - destruct Hstep as (m' & Hm' & Hok' & Hf'). constructor. intros h1 R1 [Hok1 Hk1]. simpl in *.
    apply (IH m' Hm' h1 R1 log f' rest xs); [done| |done].
    apply (finish_ok_keeps h' h1 f' xs m' []); [by rewrite app_nil_r|done].
Qed.

Lemma finish_list_total h R log b rest xs :
  heap_ok h (option_list (lb_head b) ++ R) → builder_ok h b xs →
  (∀ out, ListHandle.wf out → ListHandle.items out = xs → Q log (Ok (finish_value rest out))) →
  lands total R log (Collections.finish_list b rest h).
Proof.
  intros Hok Hb HQ. destruct (finish_builder_ok h b xs Hb) as (f & m & Hf & Hcur & Hfin).
  unfold Collections.finish_list, bindS. rewrite Hf. apply (finish_total m _ _ _ _ _ xs); [by rewrite Hcur|done..].
Qed.

End total.
Arguments lands_ok {_ _ registry calls} Q R log h o m.
Arguments lands_err {_ _ registry calls} Q R log h e m.
Arguments finish_list_total {_ _ registry calls} Q h R log b rest xs.

(** ** [list_flat_map] *)

Section flat_map.
Context `{RustFmt} `{BuiltinTable} (registry : TypeRegistry) (mapper : Callable) (xs : list Value).

(** The callbacks on [pre] returned the lists [ys]. *)
Definition mapped (pre : list Value) (ys : list (ListHandle Value)) : list call :=
  zip_with (λ x y, (mapper, [x], Ok (VList y))) pre ys.

(** The result of mapping [xs] in order, in terms of what the callbacks returned. *)
Inductive flat_map_post (log : list call) : Result RuntimeError Value → Prop :=
| flat_map_concat ys out :
    length ys = length xs → log = mapped xs ys → ListHandle.wf out →
    ListHandle.items out = concat (ListHandle.items <$> ys) → flat_map_post log (Ok (VList out))
| flat_map_failed pre x rest ys e :
    xs = pre ++ x :: rest → length ys = length pre → log = mapped pre ys ++ [(mapper, [x], Err e)] →
    flat_map_post log (Err e)
| flat_map_not_list pre x rest ys v :
    xs = pre ++ x :: rest → length ys = length pre → log = mapped pre ys ++ [(mapper, [x], Ok v)] →
    (∀ l, v ≠ VList l) →
    flat_map_post log (Err (RuntimeError.new (lit "list_flat_map mapper must return List, got " ++ debug_value v)))
| flat_map_overflow pre rest ys :
    xs = pre ++ rest → length ys = length pre → log = mapped pre ys →
    (usize_max < N.of_nat (length (concat (ListHandle.items <$> ys))))%N →
    flat_map_post log (Err (RuntimeError.new (lit "List builder length overflow"))).

Abbreviation total := (total registry any_call flat_map_post).
Abbreviation lands := (lands flat_map_post total).

Lemma mapped_snoc pre ys x y :
  length ys = length pre → mapped (pre ++ [x]) (ys ++ [y]) = mapped pre ys ++ [(mapper, [x], Ok (VList y))].
Proof. intros Hl. unfold mapped. by rewrite zip_with_app. Qed.

(** The continuation between two elements: [bs] is in the builder, [zs] still to be
    emitted, [xs'] still to be mapped. *)
Record flat_map_at (h : Heap Value) (log : list call) (k : FlatMapContinuation) (xs' zs : list Value) : Prop := {
  fa_mapper : fm_mapper k = mapper;
  fa_ready : fm_awaiting_mapper k = false;
  fa_input : ListHandle.wf (fm_input k) ∧ ListHandle.items (fm_input k) = xs';
  fa_output : ListHandle.wf (fm_output k) ∧ ListHandle.items (fm_output k) = zs;
  fa_log : ∃ pre ys bs, xs = pre ++ xs' ∧ length ys = length pre ∧ log = mapped pre ys ∧
    builder_ok h (fm_builder k) bs ∧ bs ++ zs = concat (ListHandle.items <$> ys);
}.

Lemma flat_map_at_rely h h1 log k xs' zs :
  keeps h h1 (option_list (lb_head (fm_builder k))) → flat_map_at h log k xs' zs → flat_map_at h1 log k xs' zs.
Proof.
  intros Hk [? ? ? ? (pre & ys & bs & ? & ? & ? & Hb & ?)]. split; try done.
  exists pre, ys, bs. split_and!; [done..| |done].
  apply (builder_ok_keeps h h1 _ _ []); [by rewrite app_nil_r|done].
Qed.

Lemma flat_map_suspended h R log k xs' zs :
  flat_map_at h log k xs' zs →
  (∀ h1 R1, heap_ok h1 (option_list (lb_head (fm_builder k)) ++ R1) → flat_map_at h1 log k xs' zs →
     lands R1 log (Collections.flat_map_resume k (Ok VUnit) h1)) →
  total h R log (Collections.suspended (FlatMap k)).
Proof.
  intros Hat IH. constructor. intros h1 R1 [Hok Hk]. apply IH; [done|]. by eapply flat_map_at_rely.
Qed.

(** One element of a callback's list. *)
Lemma flat_map_emit h R log k xs' z zs :
  heap_ok h (option_list (lb_head (fm_builder k)) ++ R) → flat_map_at h log k xs' (z :: zs) →
  (∀ h1 R1 k1, heap_ok h1 (option_list (lb_head (fm_builder k1)) ++ R1) → flat_map_at h1 log k1 xs' zs →
     lands R1 log (Collections.flat_map_resume k1 (Ok VUnit) h1)) →
  lands R log (Collections.flat_map_resume k (Ok VUnit) h).
Proof.
  intros Hok [Hm Hr Hin [Hwf Hi] (pre & ys & bs & Hxs & Hys & Hlog & Hb & Hcat)] IH.
  pose proof (ListHandle.head_value_spec _ Hwf) as Hh. pose proof (ListHandle.tail_handle_spec _ Hwf) as Ht.
  rewrite Hi in Hh, Ht. destruct Ht as (t & Ht & Hwt & Hit).
  unfold Collections.flat_map_resume. rewrite Hr. unfold bindS, Collections.dropping. cbn -[ListBuilder.push Rc.rc_drop].
  rewrite Hh. cbn -[ListBuilder.push Rc.rc_drop]. rewrite Ht. cbn -[ListBuilder.push Rc.rc_drop].
  destruct (decide (N.of_nat (S (length bs)) ≤ usize_max)%N) as [Hroom|Hfull].
  - destruct (push_ok h R (fm_builder k) bs z Hok Hb Hroom) as (h' & b' & -> & Hok' & _ & Hb').
    eapply lands_ok; [done|]. apply (flat_map_suspended _ _ _ _ xs' zs); [|intros; by apply IH].
    split; simpl; try done. exists pre, ys, (bs ++ [z]). split_and!; try done. by rewrite <- app_assoc.
  - pose proof Hb as (_ & _ & _ & _ & Hbound).
    rewrite (push_full h (fm_builder k) bs z Hb) by lia.
    destruct (rc_drop_ok h R (lb_head (fm_builder k)) Hok) as (h' & -> & Hok' & _).
    eapply lands_err; [done|done|]. apply (flat_map_overflow _ pre xs' ys); [done..|].
    rewrite <- Hcat, length_app. simpl. lia.
Qed.

(** The next callback. *)
Lemma flat_map_call h R log k x xs' :
  heap_ok h (option_list (lb_head (fm_builder k)) ++ R) → flat_map_at h log k (x :: xs') [] →
  (∀ h1 R1 log1 k1 zs, heap_ok h1 (option_list (lb_head (fm_builder k1)) ++ R1) →
     flat_map_at h1 log1 k1 xs' zs → lands R1 log1 (Collections.flat_map_resume k1 (Ok VUnit) h1)) →
  lands R log (Collections.flat_map_resume k (Ok VUnit) h).
Proof.
  intros Hok [Hm Hr [Hwin Hin] [Hwf Hi] (pre & ys & bs & Hxs & Hys & Hlog & Hb & Hcat)] IH.
  pose proof (ListHandle.head_value_spec _ Hwf) as Hh. rewrite Hi in Hh.
  pose proof (ListHandle.head_value_spec _ Hwin) as Hh'. pose proof (ListHandle.tail_handle_spec _ Hwin) as Ht.
  rewrite Hin in Hh', Ht. destruct Ht as (t & Ht & Hwt & Hit). rewrite app_nil_r in Hcat.
  unfold Collections.flat_map_resume. rewrite Hr. unfold bindS, Collections.dropping. cbn -[Rc.rc_drop].
  rewrite Hh. cbn -[Rc.rc_drop]. rewrite Hh'. cbn -[Rc.rc_drop]. rewrite Ht, Hm. cbn -[Rc.rc_drop].
  eapply lands_ok; [done|]. constructor. intros h1 R1 res [Hok1 Hk1] Hres. simpl in Hok1, Hk1.
  unfold Generators.resume, Collections.flat_map_resume. cbn [fm_builder fm_awaiting_mapper fm_input fm_mapper fm_output].
  destruct res as [v|e].
  - unfold bindS, Collections.dropping at 1. cbn -[Rc.rc_drop Collections.dropping].
    destruct (list_or_not v) as [[y ->]|Hno].
    + eapply lands_ok; [done|]. apply (flat_map_suspended _ _ _ _ xs' (ListHandle.items y)).
      * split; simpl; try done; [by split; [apply Hres|]|].
        exists (pre ++ [x]), (ys ++ [y]), bs. split_and!; [by rewrite <- app_assoc|len|by rewrite mapped_snoc; [rewrite Hlog|]| |].
        -- apply (builder_ok_keeps h h1 _ _ []); [by rewrite app_nil_r|done].
        -- rewrite fmap_app, concat_app, <- Hcat. simpl. by rewrite app_nil_r.
      * intros h2 R2 ??. by eapply IH.
    + destruct (dropping_err (lb_head (fm_builder k))
        (throwS (B := Outcome) (lit "list_flat_map mapper must return List, got " ++ debug_value v)) h1 R1 _ eq_refl Hok1)
        as (h2 & Hd & Hok2).
      eapply (lands_err _ _ _ h2); [|done|apply (flat_map_not_list _ pre x xs' ys v); [done..|by rewrite Hlog|done]].
      destruct v; try exact Hd. by destruct (Hno handle).
  - destruct (dropping_err (lb_head (fm_builder k)) (Collections.liftT (A := Value) (B := Value) (lift_res (Err e))) h1 R1 e eq_refl Hok1)
      as (h2 & Hd & Hok2).
    eapply (lands_err _ _ _ h2); [unfold bindS; by rewrite Hd|done|].
    apply (flat_map_failed _ pre x xs' ys e); [done..|by rewrite Hlog].
Qed.

Lemma flat_map_end h R log k :
  heap_ok h (option_list (lb_head (fm_builder k)) ++ R) → flat_map_at h log k [] [] →
  lands R log (Collections.flat_map_resume k (Ok VUnit) h).
Proof.
  intros Hok [Hm Hr [Hwin Hin] [Hwf Hi] (pre & ys & bs & Hxs & Hys & Hlog & Hb & Hcat)].
  pose proof (ListHandle.head_value_spec _ Hwf) as Hh. rewrite Hi in Hh.
  pose proof (ListHandle.head_value_spec _ Hwin) as Hh'. rewrite Hin in Hh'. rewrite app_nil_r in *. subst pre.
  unfold Collections.flat_map_resume. rewrite Hr. unfold bindS, Collections.dropping. cbn -[Collections.finish_list].
  rewrite Hh. cbn -[Collections.finish_list]. rewrite Hh'. cbn -[Collections.finish_list].
  apply (finish_list_total _ _ _ _ _ _ bs); [done..|]. intros out Hwo Hio.
  apply (flat_map_concat _ ys); [done..|congruence].
Qed.

Lemma flat_map_run xs' : ∀ zs h R log k,
  heap_ok h (option_list (lb_head (fm_builder k)) ++ R) → flat_map_at h log k xs' zs →
  lands R log (Collections.flat_map_resume k (Ok VUnit) h).
Proof.
  induction xs' as [|x xs' IHx]; intros zs; induction zs as [|z zs IHz]; intros h R log k Hok Hat.
  - by apply flat_map_end.
  - eapply flat_map_emit; [done..|]. intros h1 R1 k1 ??. by apply IHz.
  - eapply flat_map_call; [done..|]. intros h1 R1 log1 k1 zs ??. by eapply IHx.
  - eapply flat_map_emit; [done..|]. intros h1 R1 k1 ??. by apply IHz.
Qed.

End flat_map.

(** ** The listings of a map *)

Section maps.
Context `{RustFmt} `{BuiltinTable} `{HashOrder} (registry : TypeRegistry) (Q : list call → Result RuntimeError Value → Prop).

Abbreviation total := (total registry any_call Q).
Abbreviation lands := (lands Q total).

Definition listed (keys : bool) (e : str * Value) : Value := if keys then VStr e.1 else e.2.

Lemma map_list_run keys remaining : ∀ h R log b bs,
  heap_ok h (option_list (lb_head b) ++ R) → builder_ok h b bs →
  (N.of_nat (length bs + length remaining) ≤ usize_max)%N →
  (∀ out, ListHandle.wf out → ListHandle.items out = bs ++ (listed keys <$> remaining) → Q log (Ok (VList out))) →
  lands R log (Collections.map_list_resume (mkMapList remaining keys b) (Ok VUnit) h).
Proof.
  induction remaining as [|[key value] remaining IH]; intros h R log b bs Hok Hb Hsz HQ;
    unfold Collections.map_list_resume, bindS, Collections.dropping; cbn -[Collections.finish_list ListBuilder.push Rc.rc_drop].
  - apply (finish_list_total _ _ _ _ _ _ bs); [done..|]. intros out ??. apply HQ; [done|]. by rewrite app_nil_r.
  - simpl in Hsz. destruct (push_ok h R b bs (listed keys (key, value)) Hok Hb) as (h' & b' & Hp & Hok' & _ & Hb'); [lia|].
    change (if keys then VStr key else value) with (listed keys (key, value)). rewrite Hp.
    eapply lands_ok; [done|]. constructor. intros h1 R1 [Hok1 Hk1]. simpl in Hok1, Hk1.
    apply (IH h1 R1 log b' (bs ++ [listed keys (key, value)])); [done| |len|].
    + apply (builder_ok_keeps h' h1 _ _ []); [by rewrite app_nil_r|done].
    + intros out ? Ho. apply HQ; [done|]. rewrite Ho. by rewrite <- app_assoc.
Qed.

(** Keeping a failure as a value and raising it again changes nothing. *)
Lemma attempt_raise {B} (m : St Value Outcome) (u : B) h :
  (let! r := (let! o := Collections.attempt m in retS (o, u)) in Collections.liftT (lift_res r.1)) h = m h.
Proof. unfold bindS, Collections.attempt. by destruct (m h) as [h' [o|[p|e]]]. Qed.

Lemma sort_run (action : SortedAction) (m : gmap str Value) c : ∀ k h R log,
  sort_cost k ≤ c → sort_inv k → sm_entries k ≡ₚ into_iter m → sm_action k = action →
  (∀ k' h1 R1, heap_ok h1 R1 → sm_entries k' = HashMapHandle.sorted_entries m → sm_action k' = action →
     lands R1 log (Collections.sorted k' h1)) →
  heap_ok h R → lands R log (Collections.sorted_map_resume k (Ok VUnit) h).
Proof.
  induction c as [c IH] using lt_wf_ind. intros k h R log Hc Hinv Hp Ha Hend Hok.
  unfold Collections.sorted_map_resume, Collections.sorted_map_resume_steps. unfold bindS at 1. simpl.
  destruct (sort_step_ok k Hinv) as [[Hs Hsorted]|(k1 & Hs & Hinv1 & Hp1 & Ha1 & Hc1)].
  - replace (_ h) with (Collections.sorted k h); [by apply Hend; [|apply sorted_into_iter|]|].
    rewrite <- (attempt_raise (Collections.sorted k) 1 h). unfold bindS, Collections.attempt, Collections.liftT.
    rewrite Hs. done.
  - eapply (lands_ok _ _ _ h (Collections.suspended (SortedMap k1))).
    + unfold bindS, Collections.attempt, Collections.liftT. by rewrite Hs.
    + constructor. intros h1 R1 [Hok1 _]. apply (IH (sort_cost k1)); [lia|done..|by rewrite Hp1|by rewrite Ha1|done|done].
Qed.

Lemma start_sort_run (m : gmap str Value) (action : SortedAction) h R log :
  (N.of_nat (2 * size m) ≤ usize_max)%N →
  (∀ k' h1 R1, heap_ok h1 R1 → sm_entries k' = HashMapHandle.sorted_entries m → sm_action k' = action →
     lands R1 log (Collections.sorted k' h1)) →
  heap_ok h R → lands R log (Collections.start_sort m action h).
Proof.
  intros Hsz Hend Hok. unfold Collections.start_sort. case_decide as Hlen.
  - apply Hend; [done| |done]. simpl. apply sorted_into_iter; [|done].
    destruct (into_iter m) as [|x [|y l]]; simpl in Hlen; [constructor|repeat constructor|lia].
  - eapply lands_ok; [done|]. constructor. intros h1 R1 [Hok1 _].
    eapply (sort_run action m); [done|apply sort_start_inv; by rewrite length_into_iter|done..].
Qed.

End maps.

(** ** [map_values] *)

Section map_values.
Context `{RustFmt} `{BuiltinTable} `{HashOrder} (registry : TypeRegistry) (mapper : Callable) (m : gmap str Value).

(** The callbacks on the values of [pre] returned [ys]. *)
Definition applied (pre : list (str * Value)) (ys : list Value) : list call :=
  zip_with (λ e y, (mapper, [e.2], Ok y)) pre ys.

Inductive map_values_post (log : list call) : Result RuntimeError Value → Prop :=
| map_values_all ys :
    length ys = size m → log = applied (HashMapHandle.sorted_entries m) ys →
    map_values_post log (Ok (VHashMap (HashMapHandle.from_entries (zip (HashMapHandle.keys m) ys))))
| map_values_failed pre x rest ys e :
    HashMapHandle.sorted_entries m = pre ++ x :: rest → length ys = length pre →
    log = applied pre ys ++ [(mapper, [x.2], Err e)] → map_values_post log (Err e).

Abbreviation lands := (lands map_values_post (total registry any_call map_values_post)).

Lemma from_entries_snoc (l : list (str * Value)) key v :
  HashMapHandle.from_entries (l ++ [(key, v)]) = <[key := v]> (HashMapHandle.from_entries l).
Proof. unfold HashMapHandle.from_entries. by rewrite foldl_snoc. Qed.

Lemma map_values_run remaining : ∀ pre x ys h R res,
  HashMapHandle.sorted_entries m = pre ++ x :: remaining → length ys = length pre → heap_ok h R →
  lands R (applied pre ys ++ [(mapper, [x.2], res)])
    (Collections.map_values_resume
       (mkMapValues remaining mapper (HashMapHandle.from_entries (zip pre.*1 ys)) x.1) res h).
Proof.
  induction remaining as [|[key value] remaining IH]; intros pre x ys h R res Hm Hys Hok;
    (destruct res as [v|e]; [|eapply (lands_err _ _ _ h e); [done|done|by eapply (map_values_failed _ pre x)]]);
    unfold Collections.map_values_resume, bindS; simpl.
  - eapply lands_ok; [done|]. constructor; [done|].
    replace (<[x.1 := v]> (HashMapHandle.from_entries (zip pre.*1 ys)))
      with (HashMapHandle.from_entries (zip (HashMapHandle.keys m) (ys ++ [v]))).
    + constructor; [|by rewrite Hm; unfold applied; rewrite zip_with_app].
      rewrite <- length_map_to_list, <- (HashMapHandle.sorted_entries_perm m), Hm. len.
    + unfold HashMapHandle.keys. rewrite Hm, fmap_app. simpl.
      rewrite zip_with_app by len. simpl. apply from_entries_snoc.
  - eapply lands_ok; [done|]. constructor. intros h1 R1 res [Hok1 _] _. simpl in Hok1.
    pose proof (IH (pre ++ [x]) (key, value) (ys ++ [v]) h1 R1 res) as IH'.
    unfold applied in IH'. rewrite zip_with_app in IH' by done. rewrite fmap_app in IH'.
    simpl in IH'. rewrite zip_with_app in IH' by len. simpl in IH'. rewrite from_entries_snoc in IH'.
    apply IH'; [by rewrite <- app_assoc|len|done].
Qed.

End map_values.

(** ** [map_from_entries] *)

Section from_entries.
Context `{RustFmt} `{BuiltinTable} (registry : TypeRegistry).

(** The error of an entry that is not a pair with a string key. *)
Definition entry_error (i : nat) (v : Value) : option RuntimeError :=
  match v with
  | VTuple [VStr _; _] => None
  | VTuple [key; _] => Some (RuntimeError.new (lit "map_from_entries expects String key at index " ++ fmt_nat i
                                               ++ lit ", got " ++ debug_value key))
  | VTuple items => Some (RuntimeError.new (lit "map_from_entries expects (String, V) tuples at index " ++ fmt_nat i
                                            ++ lit ", got arity " ++ fmt_nat (length items)))
  | v => Some (RuntimeError.new (lit "map_from_entries expects tuple entries at index " ++ fmt_nat i
                                 ++ lit ", got " ++ debug_value v))
  end.

Definition entry_value (e : str * Value) : Value := VTuple [VStr e.1; e.2].

Inductive from_entries_post (items : list Value) (log : list call) : Result RuntimeError Value → Prop :=
| from_entries_all kvs :
    log = [] → items = entry_value <$> kvs →
    from_entries_post items log (Ok (VHashMap (HashMapHandle.from_entries kvs)))
| from_entries_bad kvs v rest e :
    log = [] → items = (entry_value <$> kvs) ++ v :: rest → entry_error (length kvs) v = Some e →
    from_entries_post items log (Err e).

Lemma entry_error_None i v : entry_error i v = None → ∃ e, v = entry_value e.
Proof.
  intros Hv. destruct v as [| | | | | | | |items| | | | | | | | | | | | | | | | ]; try done.
  destruct items as [|a [|b [|]]]; try (by destruct a); [done|]. destruct a; try done. by exists (s, b).
Qed.

Lemma from_entries_step_bad k v l e h :
  ListHandle.wf (mf_remaining k) → ListHandle.items (mf_remaining k) = v :: l → entry_error (mf_index k) v = Some e →
  Collections.map_from_entries_resume k (Ok VUnit) h = (h, fail e).
Proof.
  intros Hwf Hi He. pose proof (ListHandle.head_value_spec _ Hwf) as Hh. rewrite Hi in Hh.
  unfold Collections.map_from_entries_resume, bindS. simpl. rewrite Hh. simpl.
  destruct v as [| | | | | | | |items| | | | | | | | | | | | | | | | ]; simpl in He; try by simplify_eq.
  destruct items as [|a [|b [|c items]]]; try destruct a; by simplify_eq/=.
Qed.

Lemma from_entries_run l : ∀ items kvs remaining h R,
  ListHandle.wf remaining → ListHandle.items remaining = l → items = (entry_value <$> kvs) ++ l →
  (N.of_nat (length items) ≤ usize_max)%N → heap_ok h R →
  lands (from_entries_post items) (total registry any_call (from_entries_post items)) R []
    (Collections.map_from_entries_resume
       (mkMapFromEntries remaining (length kvs) (HashMapHandle.from_entries kvs)) (Ok VUnit) h).
Proof.
  induction l as [|v l IH]; intros items kvs remaining h R Hwf Hi Hitems Hsz Hok.
  - pose proof (ListHandle.head_value_spec _ Hwf) as Hh. rewrite Hi in Hh.
    eapply (lands_ok _ _ _ h (OComplete (VHashMap (HashMapHandle.from_entries kvs)))).
    + unfold Collections.map_from_entries_resume, bindS. simpl. by rewrite Hh.
    + constructor; [done|]. constructor; [done|]. by rewrite Hitems, app_nil_r.
  - destruct (entry_error (length kvs) v) as [e|] eqn:He.
    { eapply lands_err; [by eapply from_entries_step_bad|done|by eapply from_entries_bad]. }
    apply entry_error_None in He as [[key value] ->].
    pose proof (ListHandle.head_value_spec _ Hwf) as Hh. pose proof (ListHandle.tail_handle_spec _ Hwf) as Ht.
    rewrite Hi in Hh, Ht. destruct Ht as (t & Ht & Hwt & Hit).
    assert (length items = length kvs + S (length l)) as Hl by (rewrite Hitems; len).
    eapply (lands_ok _ _ _ h).
    + unfold Collections.map_from_entries_resume, bindS. simpl. rewrite Hh. simpl. rewrite Ht. simpl.
      unfold usize_checked_add. rewrite decide_True by lia. done.
    + constructor. intros h1 R1 [Hok1 _]. simpl in Hok1.
      rewrite <- from_entries_snoc. replace (length kvs + 1) with (length (kvs ++ [(key, value)])) by len.
      apply IH; [done..| |done|done]. by rewrite fmap_app, <- app_assoc.
Qed.

End from_entries.

Module CollectionsProps.

(** C20: [list_flat_map] is the concatenation of what the mapper returns, element by
    element in order: run by the driver with arbitrary work of other holders of the
    store in between, it calls the mapper once per element and in order, stops at the
    first failure or non-list with that error, fails only otherwise when the result
    exceeds the address space, always terminates without a panic, and releases its
    segments on every path. *)
Theorem flat_map_total `{RustFmt} `{BuiltinTable} (registry : TypeRegistry) (mapper : Callable) (input : ListHandle Value) (h : Heap Value) (R : list nat) :
  ListHandle.wf input →
  lands (flat_map_post mapper (ListHandle.items input)) (total registry any_call (flat_map_post mapper (ListHandle.items input)))
    R [] (Collections.builtin_list_flat_map [VList input; VCallable mapper] h).
Proof.
  intros Hwf. eapply lands_ok; [reflexivity|].
  apply (flat_map_suspended registry mapper (ListHandle.items input) h R [] _ (ListHandle.items input) []).
  - split; simpl; try done. exists [], [], []. split_and!; try done. apply default_builder_ok.
  - intros h1 R1 Hok1 Hat. by eapply flat_map_run.
Qed.

(** [map_values] calls the mapper once per value, in the order of the keys, and
    returns the map with the same keys and the returned values; the first failure of
    a callback is its result.  The sort, the callbacks and the work of others in
    between can neither make it panic, nor diverge, nor leak. *)
Theorem map_values_total `{RustFmt} `{BuiltinTable} `{HashOrder} (registry : TypeRegistry) (mapper : Callable) (m : gmap str Value) (h : Heap Value) (R : list nat) :
  (N.of_nat (2 * size m) ≤ usize_max)%N → heap_ok h R →
  lands (map_values_post mapper m) (total registry any_call (map_values_post mapper m)) R []
    (Collections.builtin_map_values [VHashMap m; VCallable mapper] h).
Proof.
  intros Hsz Hok. apply start_sort_run; [done| |done]. intros k h1 R1 Hok1 He Ha.
  unfold Collections.sorted. rewrite Ha. destruct (sm_entries k) as [|[key value] rest].
  - eapply lands_ok; [done|]. constructor; [done|].
    pose proof (map_values_all mapper m [] []) as Hp. unfold HashMapHandle.keys in Hp. rewrite <- He in Hp.
    apply Hp; [|done]. rewrite <- length_map_to_list, <- (HashMapHandle.sorted_entries_perm m). by rewrite <- He.
  - eapply lands_ok; [done|]. constructor. intros h2 R2 res [Hok2 _] _.
    by apply (map_values_run registry mapper m rest [] (key, value) []).
Qed.

(** [map_keys] and [map_values_list] return exactly the sorted listing of the map:
    the keys in order, and the values in the order of their keys. *)
Theorem map_listings_total `{RustFmt} `{BuiltinTable} `{HashOrder} (registry : TypeRegistry) (m : gmap str Value) (h : Heap Value) (R : list nat) :
  (N.of_nat (2 * size m) ≤ usize_max)%N → heap_ok h R →
  let post (items : list Value) (log : list call) (r : Result RuntimeError Value) :=
    log = [] ∧ ∃ out, r = Ok (VList out) ∧ ListHandle.to_vec out = Ok items in
  lands (post (VStr <$> HashMapHandle.keys m)) (total registry any_call (post (VStr <$> HashMapHandle.keys m))) R []
    (Collections.builtin_map_keys [VHashMap m] h) ∧
  lands (post (HashMapHandle.values m)) (total registry any_call (post (HashMapHandle.values m))) R []
    (Collections.builtin_map_values_list [VHashMap m] h).
Proof.
  intros Hsz Hok post.
  assert (length (HashMapHandle.sorted_entries m) = size m) as Hlen.
  { by rewrite HashMapHandle.sorted_entries_perm, length_map_to_list. }
  split; (apply start_sort_run; [done| |done]); intros k h1 R1 Hok1 He Ha;
    unfold Collections.sorted; rewrite Ha;
    (eapply (map_list_run _ _ _ _ _ _ _ _ []); [done|apply default_builder_ok|rewrite He, Hlen; simpl; lia|]);
    intros out Hwf Hi; (split; [done|]); exists out; (split; [done|]);
    rewrite (ListHandle.to_vec_spec out Hwf), Hi, He; f_equal; simpl.
  unfold HashMapHandle.keys. by rewrite <- list_fmap_compose.
Qed.

(** [map_from_entries] builds the map of its entries, a later key replacing an earlier
    one, or fails with the index and the reason of the first entry that is not a pair
    with a string key. *)
Theorem map_from_entries_total `{RustFmt} `{BuiltinTable} (registry : TypeRegistry) (entries : ListHandle Value) (h : Heap Value) (R : list nat) :
  ListHandle.wf entries → heap_ok h R →
  lands (from_entries_post (ListHandle.items entries)) (total registry any_call (from_entries_post (ListHandle.items entries))) R []
    (Collections.builtin_map_from_entries [VList entries] h).
Proof.
  intros Hwf Hok. apply (from_entries_run registry (ListHandle.items entries) (ListHandle.items entries) []); try done.
  by apply ListHandle.wf_bound.
Qed.

(** ** Instances *)

Definition sample_mapper : Callable := mkCallable (CtFunction 0) [] default_metadata.
Definition sample_list : ListHandle Value := Packed [VUnit; VBool true] (Empty 0) 0 2.
#[local] Existing Instance Display.sample_fmt.
#[local] Existing Instance SortProps.some_order.
#[local] Instance sample_builtins : BuiltinTable := λ _, None.

Lemma empty_heap_ok : heap_ok (mkHeap 0 ∅ : Heap Value) [].
Proof. exact (po_heap _ _ empty_pool_ok). Qed.

Lemma sample_list_wf : ListHandle.wf sample_list.
Proof. vm_compute. split_and!; (done || lia). Qed.

Lemma flat_map_total_witness :
  lands (flat_map_post sample_mapper [VUnit; VBool true]) (total TypeRegistry.new any_call (flat_map_post sample_mapper [VUnit; VBool true]))
    [] [] (Collections.builtin_list_flat_map [VList sample_list; VCallable sample_mapper] (mkHeap 0 ∅)).
Proof. exact (flat_map_total TypeRegistry.new sample_mapper sample_list (mkHeap 0 ∅) [] sample_list_wf). Defined.

Lemma map_values_total_witness :
  lands (map_values_post sample_mapper SortProps.sample_map) (total TypeRegistry.new any_call (map_values_post sample_mapper SortProps.sample_map))
    [] [] (Collections.builtin_map_values [VHashMap SortProps.sample_map; VCallable sample_mapper] (mkHeap 0 ∅)).
Proof. apply (map_values_total TypeRegistry.new sample_mapper SortProps.sample_map); [vm_compute; done|exact empty_heap_ok]. Defined.

Lemma map_listings_total_witness :
  let post (items : list Value) (log : list call) (r : Result RuntimeError Value) :=
    log = [] ∧ ∃ out, r = Ok (VList out) ∧ ListHandle.to_vec out = Ok items in
  lands (post (VStr <$> [lit "apple"; lit "fig"; lit "pear"; lit "plum"]))
    (total TypeRegistry.new any_call (post (VStr <$> [lit "apple"; lit "fig"; lit "pear"; lit "plum"])))
    [] [] (Collections.builtin_map_keys [VHashMap SortProps.sample_map] (mkHeap 0 ∅)).
Proof.
  destruct (map_listings_total TypeRegistry.new SortProps.sample_map (mkHeap 0 ∅) []) as [Hk _];
    [vm_compute; done|exact empty_heap_ok|].
  replace [lit "apple"; lit "fig"; lit "pear"; lit "plum"] with (HashMapHandle.keys SortProps.sample_map)
    by (vm_compute; reflexivity).
  exact Hk.
Defined.

End CollectionsProps.
