(* ===== verification/GeneratorProps.v ===== *)
(** * Generators deliver their items ([crates/eldr/src/builtin/generator.rs])

    Total correctness of [take] over any generator, in terms of what its steps
    return, and of [to_list] over ranges, whose steps the machine computes
    itself: the list is the arithmetic progression of the range. *)

From S2P Require Import Prelude Names ListHandle Value TypeRegistry OperandStack Ir RuntimeError.
From S2P Require Import StringLiteral Display ErrorSchema ProcessRuntime Machine ListBuilder ListBuilderProps.
From S2P Require Import Collections SortProps Generators CollectionsProps.

Section collect.
Context `{RustFmt} `{BuiltinTable} (registry : TypeRegistry).
Context (calls : Callable → list Value → Result RuntimeError Value → Prop).
Context (Q : list call → Result RuntimeError Value → Prop).
Abbreviation total := (total registry calls Q).
Abbreviation lands := (lands Q total).

Lemma materialize_eq k v h :
  Generators.generator_resume registry (Materialize k) (Ok v) h = Generators.materialize_resume registry k v h.
Proof. done. Qed.

(** A suspended collection goes on when its next transition does. *)
Lemma materialize_suspended h R log k items :
  builder_ok h (mt_builder k) items →
  (∀ h1 R1, heap_ok h1 (option_list (lb_head (mt_builder k)) ++ R1) → builder_ok h1 (mt_builder k) items →
     lands R1 log (Generators.materialize_resume registry k VUnit h1)) →
  total h R log (Generators.runnable k).
Proof.
  intros Hb Hk. constructor. intros h1 R1 [Hok1 Hk1]. apply Hk; [done|].
  apply (builder_ok_keeps h h1 _ _ []); [by rewrite app_nil_r|done].
Qed.

Definition count_down (mode : MaterializeMode) : MaterializeMode :=
  match mode with ModeCount n => ModeCount (n - 1)%Z | m => m end.

(** Adding the item of a step. *)
Lemma materialize_append h R log items s item next mode b :
  heap_ok h (option_list (lb_head b) ++ R) → builder_ok h b items →
  ((usize_max < N.of_nat (length (items ++ [item])))%N →
     Q log (Err (RuntimeError.new (lit "List builder length overflow")))) →
  (∀ h1 R1 b1, heap_ok h1 (option_list (lb_head b1) ++ R1) → builder_ok h1 b1 (items ++ [item]) →
     lands R1 log (Generators.materialize_resume registry (mkMaterialize next (count_down mode) b1 PhaseStart) VUnit h1)) →
  lands R log (Generators.materialize_resume registry (mkMaterialize s mode b (PhaseAppend item next)) VUnit h).
Proof.
  intros Hok Hb HQ IH. unfold Generators.materialize_resume, bindS, Collections.dropping.
  cbn -[ListBuilder.push Rc.rc_drop].
  destruct (decide (N.of_nat (S (length items)) ≤ usize_max)%N) as [Hroom|Hfull].
  - destruct (push_ok h R b items item Hok Hb Hroom) as (h' & b' & -> & Hok' & _ & Hb').
    eapply lands_ok; [done|]. eapply materialize_suspended; [done|].
    intros h1 R1 Hok1 Hb1. destruct mode; exact (IH h1 R1 b' Hok1 Hb1).
  - pose proof Hb as (_ & _ & _ & _ & Hbound). rewrite (push_full h b items item Hb) by lia.
    destruct (rc_drop_ok h R (lb_head b) Hok) as (h' & -> & Hok' & _).
    eapply lands_err; [done|done|]. apply HQ. len.
Qed.

End collect.

Section take.
Context `{RustFmt} `{BuiltinTable} (registry : TypeRegistry).

(** The builtin that steps [source]. *)
Definition stepper (source : Value) : Callable :=
  mkCallable (CtBuiltin (default 0%N (Generators.builtin_id_by_name
    (if Generators.is_generator source then lit "gen_step" else lit "inf_gen_next")))) [] default_metadata.

Definition stepped (source : Value) (r : Result RuntimeError Value) : call := (stepper source, [source], r).

(** Stepping from [s0] delivered [items] and led to the source [s]. *)
Inductive steps (s0 : Value) : list call → list Value → Value → Prop :=
| steps_none : steps s0 [] [] s0
| steps_more log items s v item next :
    steps s0 log items s → Generators.step_result registry s v = Ok (Some (item, next)) →
    steps s0 (log ++ [stepped s (Ok v)]) (items ++ [item]) next.

(** [take]: [count] items, or as many as there are, with the source that is left; or
    the error of the step that failed. *)
Inductive take_post (s0 : Value) (count : nat) (log : list call) : Result RuntimeError Value → Prop :=
| take_full items s out :
    steps s0 log items s → length items = count → ListHandle.wf out → ListHandle.items out = items →
    take_post s0 count log (Ok (VTuple [VList out; s]))
| take_exhausted log' items s v out :
    steps s0 log' items s → length items < count → Generators.step_result registry s v = Ok None →
    log = log' ++ [stepped s (Ok v)] → ListHandle.wf out → ListHandle.items out = items →
    take_post s0 count log (Ok (VTuple [VList out; Generators.terminal]))
| take_failed log' items s e :
    steps s0 log' items s → length items < count → log = log' ++ [stepped s (Err e)] →
    take_post s0 count log (Err e)
| take_invalid log' items s v e :
    steps s0 log' items s → length items < count → Generators.step_result registry s v = Err e →
    log = log' ++ [stepped s (Ok v)] → take_post s0 count log (Err e)
| take_overflow items s :
    steps s0 log items s → (usize_max < N.of_nat (length items))%N →
    take_post s0 count log (Err (RuntimeError.new (lit "List builder length overflow"))).

Definition has_steppers : Prop :=
  is_Some (Generators.builtin_id_by_name (lit "gen_step")) ∧
  is_Some (Generators.builtin_id_by_name (lit "inf_gen_next")).

Lemma call_step_ok s : has_steppers → Generators.call_step s = Ok (stepper s).
Proof.
  intros [[a Ha] [b Hb]]. unfold Generators.call_step, stepper.
  destruct (Generators.is_generator s); [rewrite Ha|rewrite Hb]; done.
Qed.

Section run.
Context (s0 : Value) (count : nat) (Hsteppers : has_steppers).
Abbreviation Q := (take_post s0 count).
Abbreviation total := (total registry any_call Q).
Abbreviation lands := (lands Q total).

Lemma take_run r : ∀ h R log items s n b,
  heap_ok h (option_list (lb_head b) ++ R) → builder_ok h b items → steps s0 log items s →
  Z.to_nat n = r → length items + r = count →
  lands R log (Generators.materialize_resume registry (mkMaterialize s (ModeCount n) b PhaseStart) VUnit h).
Proof using Hsteppers.
  induction r as [|r IH]; intros h R log items s n b Hok Hb Hs Hn Hc;
    unfold Generators.materialize_resume; cbn [mt_phase mt_mode].
  - rewrite bool_decide_true by lia. apply (finish_list_total _ _ _ _ _ _ items); [done..|].
    intros out ??. apply (take_full _ _ _ items s); [done|lia|done..].
  - rewrite bool_decide_false by lia. unfold bindS, Collections.dropping, Collections.liftT. cbn -[Rc.rc_drop].
    rewrite call_step_ok by done. cbn -[Rc.rc_drop]. eapply lands_ok; [done|].
    constructor. intros h1 R1 res [Hok1 Hk1] _. simpl in Hok1, Hk1.
    assert (builder_ok h1 b items) as Hb1.
    { apply (builder_ok_keeps h h1 _ _ []); [by rewrite app_nil_r|done]. }
    destruct res as [v|e].
    + unfold Generators.resume. rewrite materialize_eq. unfold Generators.materialize_resume. cbn [mt_phase mt_source mt_builder mt_mode Generators.set_phase].
      destruct (Generators.step_result registry s v) as [[[item next]|]|e] eqn:Hv.
      * unfold bindS, Collections.dropping, Collections.liftT. cbn.
        eapply lands_ok; [done|]. eapply materialize_suspended; [done|]. intros h2 R2 Hok2 Hb2.
        eapply materialize_append; [done..|intros ?; eapply take_overflow; [by eapply steps_more|done]|].
        intros h3 R3 b3 ??.
        apply (IH h3 R3 _ (items ++ [item])); [done..|by eapply steps_more|lia|len].
      * unfold bindS, Collections.dropping, Collections.liftT. cbn -[Collections.finish_list]. apply (finish_list_total _ _ _ _ _ _ items); [done..|].
        intros out ??. apply (take_exhausted _ _ _ log items s v); [done|lia|done..].
      * destruct (dropping_err (lb_head b) (Collections.liftT (A := Value) (B := option (Value * Value)) (lift_res (Err e)))
          h1 R1 e eq_refl Hok1) as (h2 & Hd & Hok2).
        eapply (lands_err _ _ _ h2); [unfold bindS; rewrite Hd; done|done|].
        apply (take_invalid _ _ _ log items s v); [done|lia|done..].
    + destruct (dropping_err (lb_head b) (Collections.liftT (A := Value) (B := Value) (lift_res (Err e))) h1 R1 e eq_refl Hok1)
        as (h2 & Hd & Hok2).
      eapply (lands_err _ _ _ h2); [unfold Generators.resume, Generators.generator_resume, bindS; cbn [mt_builder Generators.set_phase]; by rewrite Hd|done|].
      apply (take_failed _ _ _ log items s e); [done|lia|done].
Qed.

End run.
End take.

(** ** Ranges *)

Section range.
Context `{RustFmt} `{BuiltinTable} (registry : TypeRegistry) (is_char : bool) (stop delta : Z).

Definition range_source (current : Z) : Value :=
  VGenerator ((if is_char then GpRangeChar else GpRange) current stop delta).
Definition range_item (current : Z) : Value := if is_char then VStr [Z.to_N current] else VInt current.

(** How many items are left, and which. *)
Definition range_count (current : Z) : nat :=
  if decide (0 < delta)%Z then Z.to_nat ((stop - current) / delta + 1)
  else Z.to_nat ((current - stop) / (- delta) + 1).
Fixpoint progression (n : nat) (current : Z) : list Z :=
  match n with 0 => [] | S n' => current :: progression n' (current + delta)%Z end.

Definition range_over (current : Z) : Prop := (0 < delta ∧ stop < current)%Z ∨ (delta < 0 ∧ current < stop)%Z.

Lemma range_count_over current : delta ≠ 0%Z → range_over current → range_count current = 0.
Proof.
  intros Hd Ho. unfold range_count. destruct Ho as [[Hp Hs]|[Hn Hs]].
  - rewrite decide_True by done. assert ((stop - current) / delta < 0)%Z by (apply Z.div_lt_upper_bound; lia). lia.
  - rewrite decide_False by lia. assert ((current - stop) / - delta < 0)%Z by (apply Z.div_lt_upper_bound; lia). lia.
Qed.

Lemma range_count_more current :
  delta ≠ 0%Z → ¬ range_over current → range_count current = S (range_count (current + delta)).
Proof.
  intros Hd Ho. unfold range_count, range_over in *. case_decide as Hp.
  - assert (0 ≤ (stop - current) / delta)%Z by (apply Z.div_pos; lia).
    replace (stop - (current + delta))%Z with (stop - current + (-1) * delta)%Z by lia.
    rewrite Z.div_add by done. lia.
  - assert (0 ≤ (current - stop) / - delta)%Z by (apply Z.div_pos; lia).
    replace (current + delta - stop)%Z with (current - stop + (-1) * - delta)%Z by lia.
    rewrite Z.div_add by lia. lia.
Qed.

(** [Option] is declared. *)
Definition has_option : Prop :=
  is_Some (TypeRegistry.tag_by_name registry Generators.OPTION_SOME) ∧
  is_Some (TypeRegistry.tag_by_name registry Generators.OPTION_NONE).

(** What the machine returns for the step of a range. *)
Definition range_calls (f : Callable) (args : list Value) (r : Result RuntimeError Value) : Prop :=
  ∃ v, Generators.step registry args false = Ok (OComplete v) ∧ r = Ok v.

(** The characters of a character range are ASCII. *)
Definition range_valid (current : Z) : Prop :=
  delta ≠ 0%Z ∧ (is_char = true → (0 ≤ stop ≤ 127 ∧ (¬ range_over current → 0 ≤ current ≤ 127))%Z).

Lemma range_valid_more current : range_valid current → ¬ range_over current → range_valid (current + delta).
Proof.
  intros [Hd Hv] Ho. split; [done|]. intros Hc. specialize (Hv Hc) as [Hs Hcur]. specialize (Hcur Ho).
  split; [done|]. unfold range_over in *. lia.
Qed.

Lemma range_step_spec current v :
  has_option → range_valid current →
  Generators.step registry [range_source current] false = Ok (OComplete v) →
  Generators.step_result registry (range_source current) v
  = Ok (if decide (range_over current) then None else Some (range_item current, range_source (current + delta))).
Proof.
  intros [[ts Hts] [tn Htn]] [Hd Hv] Hs.
  assert (lift_res (E := RuntimeError) (Generators.range_step registry is_char current stop delta) = Ok (OComplete v)) as Hr.
  { rewrite <- Hs. unfold range_source. by destruct is_char. }
  apply map_err_Ok in Hr. unfold Generators.range_step in Hr. rewrite decide_False in Hr by done.
  fold (range_over current) in Hr. unfold Generators.option_none, Generators.option_some,
    Generators.enum_variant_by_name, Generators.tagged_by_name in Hr. rewrite Hts, Htn in Hr.
  unfold Generators.step_result, Generators.read_option. destruct (decide (range_over current)) as [Ho|Ho].
  - injection Hr as <-. unfold range_source. destruct is_char; simpl; by rewrite Htn, !bool_decide_true.
  - assert ((if is_char then if decide (0 ≤ current ≤ 127)%Z then Ok (VStr [Z.to_N current])
             else Err (RuntimeError.new (lit "invalid character generator state"))
             else Ok (VInt current)) = Ok (range_item current) :> Result RuntimeError Value) as Hi.
    { unfold range_item. destruct is_char; [|done]. rewrite decide_True by (destruct Hv as [_ Hv]; auto). done. }
    rewrite Hi in Hr. injection Hr as <-. unfold range_source.
    destruct is_char; simpl; by rewrite andb_false_r, Hts, !bool_decide_true.
Qed.

Section run.
Context (Hsteppers : has_steppers) (Hoption : has_option) (Q : list call → Result RuntimeError Value → Prop).
Abbreviation lands := (lands Q (total registry range_calls Q)).

Lemma range_run n : ∀ current h R log items b,
  heap_ok h (option_list (lb_head b) ++ R) → builder_ok h b items → range_valid current →
  range_count current = n → (N.of_nat (length items + n) ≤ usize_max)%N →
  (∀ log' out, ListHandle.wf out → ListHandle.items out = items ++ (range_item <$> progression n current) →
     Q log' (Ok (VList out))) →
  lands R log (Generators.materialize_resume registry (mkMaterialize (range_source current) ModeAll b PhaseStart) VUnit h).
Proof using Hsteppers Hoption.
  induction n as [|n IH]; intros current h R log items b Hok Hb Hv Hn Hsz HQ;
    unfold Generators.materialize_resume; cbn [mt_phase mt_mode];
    unfold bindS, Collections.dropping, Collections.liftT; cbn -[Rc.rc_drop];
    rewrite call_step_ok by done; cbn -[Rc.rc_drop];
    (eapply lands_ok; [done|]); constructor; intros h1 R1 res [Hok1 Hk1] (v & Hstep & ->); simpl in Hok1, Hk1;
    (assert (builder_ok h1 b items) as Hb1 by (apply (builder_ok_keeps h h1 _ _ []); [by rewrite app_nil_r|done]));
    unfold Generators.resume; rewrite materialize_eq; unfold Generators.materialize_resume;
    cbn [mt_phase mt_source mt_builder mt_mode Generators.set_phase];
    rewrite (range_step_spec current v) by done;
    unfold bindS, Collections.dropping, Collections.liftT; cbn -[Collections.finish_list].
  - rewrite decide_True by (apply dec_stable; intros Hno; rewrite range_count_more in Hn by (done || apply Hv); lia).
    apply (finish_list_total _ _ _ _ _ _ items); [done..|]. intros out ??. apply HQ; [done|]. by rewrite app_nil_r.
  - assert (¬ range_over current) as Hno.
    { intros Ho. rewrite range_count_over in Hn by (done || apply Hv). lia. }
    rewrite decide_False by done. eapply lands_ok; [done|]. eapply materialize_suspended; [done|].
    intros h2 R2 Hok2 Hb2. eapply materialize_append; [done..|intros Hbig; exfalso; rewrite length_app in Hbig; simpl in Hbig; lia|].
    intros h3 R3 b3 ??. apply (IH _ h3 R3 _ (items ++ [range_item current])); [done..|by apply range_valid_more| |len|].
    + rewrite range_count_more in Hn by (done || apply Hv). lia.
    + intros log' out ? Ho. apply HQ; [done|]. rewrite Ho. simpl. by rewrite <- app_assoc.
Qed.

End run.

End range.

Lemma progression_seqZ n a : progression 1 n a = seqZ a (Z.of_nat n).
Proof.
  revert a. induction n as [|n IH]; intros a; [done|]. simpl. rewrite IH.
  rewrite (seqZ_cons a (Z.of_nat (S n))) by lia. f_equal. f_equal; lia.
Qed.

Lemma mode_take `{RustFmt} source n :
  Generators.materialize_mode [source; VInt n] (lit "take") = Ok (ModeCount n).
Proof. reflexivity. Qed.

Lemma mode_to_list `{RustFmt} args : Generators.materialize_mode args (lit "to_list") = Ok ModeAll.
Proof. reflexivity. Qed.

Module GeneratorProps.

(** [take] over a finite or infinite generator makes at most the requested number of
    steps, one after the other on the source the previous one returned, and returns the
    delivered items in order together with the source that is left, or the items there
    are and the exhausted generator; a failed or ill-formed step is its error.  It
    terminates on every generator without a panic and releases its segments. *)
Theorem take_total `{RustFmt} `{BuiltinTable} (registry : TypeRegistry) (value_size : N) (source : Value)
    (infinite : bool) (n : Z) (h : Heap Value) (R : list nat) :
  Generators.check_kind source infinite = Ok tt → has_steppers →
  (1024 ≤ ListBuilder.isize_max `div` value_size)%N → heap_ok h R →
  lands (take_post registry source (Z.to_nat n)) (total registry any_call (take_post registry source (Z.to_nat n))) R []
    (Generators.materialize value_size [source; VInt n] infinite (lit "take") h).
Proof.
  intros Hkind Hst Hcap Hok. unfold Generators.materialize, bindS. rewrite mode_take.
  cbn -[ListBuilder.with_capacity Generators.reserved]. rewrite Hkind. unfold Collections.liftT. cbn -[ListBuilder.with_capacity Generators.reserved].
  destruct (with_capacity_ok value_size h R (Generators.reserved (ModeCount n)) Hok)
    as [(h' & b & -> & Hok' & _ & Hb)|[_ Hbig]].
  - eapply lands_ok; [done|]. eapply materialize_suspended; [done|]. intros h1 R1 Hok1 Hb1.
    apply (take_run registry source (Z.to_nat n) Hst (Z.to_nat n) _ _ _ []); [done|done|constructor|done|done].
  - unfold Generators.reserved in Hbig. case_decide; lia.
Qed.

(** Collecting a range is its arithmetic progression: the list of [to_list] over a range
    of integers or of ASCII characters holds exactly the values from the first on, by
    the step, that do not pass the end, and nothing when the range is empty. *)
Theorem range_to_list_total `{RustFmt} `{BuiltinTable} (registry : TypeRegistry) (value_size : N) (is_char : bool)
    (current stop delta : Z) (h : Heap Value) (R : list nat) :
  has_steppers → has_option registry → range_valid is_char stop delta current →
  (N.of_nat (range_count stop delta current) ≤ usize_max)%N → heap_ok h R →
  let post (log : list call) (r : Result RuntimeError Value) := ∃ out, r = Ok (VList out) ∧
    ListHandle.to_vec out
    = Ok (range_item is_char <$> progression delta (range_count stop delta current) current) in
  lands post (total registry (range_calls registry) post) R []
    (Generators.materialize value_size [range_source is_char stop delta current] false (lit "to_list") h).
Proof.
  intros Hst Hopt Hv Hsz Hok post. unfold Generators.materialize, bindS. rewrite mode_to_list.
  assert (Generators.check_kind (range_source is_char stop delta current) false = Ok tt) as Hkind by by destruct is_char.
  cbn -[Generators.check_kind range_source]. rewrite Hkind. cbn -[range_source].
  eapply lands_ok; [done|]. eapply materialize_suspended; [apply default_builder_ok|]. intros h1 R1 Hok1 Hb1.
  eapply range_run; [done..|simpl; done|]. intros log' out Hwf Hi. exists out. split; [done|].
  rewrite (ListHandle.to_vec_spec out Hwf), Hi. done.
Qed.

(** The list of [range(a, b)] is [a], [a + 1], ..., [b]. *)
Lemma range_progression (a b : Z) :
  progression 1 (range_count b 1 a) a = seqZ a (b - a + 1).
Proof.
  rewrite progression_seqZ. unfold range_count. rewrite decide_True, Z.div_1_r by lia.
  destruct (decide (0 ≤ b - a + 1)%Z); [by rewrite Z2Nat.id|]. rewrite !seqZ_nil by lia. done.
Qed.

(** ** Instances *)

#[local] Existing Instance Display.sample_fmt.
#[local] Instance two_steppers : BuiltinTable := λ id,
  [mkBuiltinMeta (lit "gen_step") 1 []; mkBuiltinMeta (lit "inf_gen_next") 1 []] !! N.to_nat id.
Definition option_registry : TypeRegistry :=
  match TypeRegistry.try_from_entries
    [mkTypeEntry 2 (lit "Option::Some") TkEnumVariant [lit "0"] [false];
     mkTypeEntry 3 (lit "Option::None") TkEnumVariant [] []] with
  | Ok r => r
  | Err _ => TypeRegistry.new
  end.

Lemma sample_steppers : has_steppers.
Proof. split; eexists; vm_compute; reflexivity. Qed.
Lemma sample_option : has_option option_registry.
Proof. split; eexists; vm_compute; reflexivity. Qed.

Lemma take_total_witness :
  lands (take_post option_registry Generators.terminal 3) (total option_registry any_call (take_post option_registry Generators.terminal 3))
    [] [] (Generators.materialize 24 [Generators.terminal; VInt 3] false (lit "take") (mkHeap 0 ∅)).
Proof.
  apply (take_total option_registry 24 Generators.terminal false 3 (mkHeap 0 ∅) []);
    [reflexivity|exact sample_steppers|vm_compute; discriminate|exact CollectionsProps.empty_heap_ok].
Defined.

Lemma range_to_list_total_witness :
  let post (log : list call) (r : Result RuntimeError Value) := ∃ out, r = Ok (VList out) ∧
    ListHandle.to_vec out = Ok [VInt 7; VInt 5; VInt 3] in
  lands post (total option_registry (range_calls option_registry) post) [] []
    (Generators.materialize 24 [VGenerator (GpRange 7 2 (-2))] false (lit "to_list") (mkHeap 0 ∅)).
Proof.
  apply (range_to_list_total option_registry 24 false 7 2 (-2) (mkHeap 0 ∅) []);
    [exact sample_steppers|exact sample_option|split; [discriminate|discriminate]|vm_compute; discriminate|exact CollectionsProps.empty_heap_ok].
Defined.

End GeneratorProps.
