(* ===== verification/Scalars.v ===== *)
(** * Builtins that complete in one call ([crates/eldr/src/builtin.rs])

    Integers and their bits, strings as code points, indexed access to lists and
    maps, and the deterministic random generator.  A builtin returns a value, a
    value wrapped in [Ok], a failure of the machine, or the call of the
    constructor of a language error ([language_error_outcome] of [vm.rs]). *)

From S2P Require Import Prelude Names ListHandle Value TypeRegistry OperandStack Ir RuntimeError.
From S2P Require Import StringLiteral Display ErrorSchema ProcessRuntime Machine.

Record LanguageErrorInput : Type := mkLanguageError {
  le_kind : str;
  le_args : list Value;
}.

Inductive StringEncodingMode : Type := Utf8 | Ascii.

Module Scalars.
Import Machine.

Definition ok_result (value : Value) : Value := VTagged 0 [value].

Section scalars.
Context {K : Type} `{RustFmt} `{BuiltinTable}.
(** The nesting depth of the payloads of language errors. *)
Context (depth : nat).

(** ** Language errors *)

Definition language_error_outcome_at (kind : str) (args : list Value) (wrapper : option N)
    (location : Location) (stack_trace : list RuntimeStackFrame) : M K (BuiltinOutcome K) :=
  let* kind := liftR (compiler_global_error_kind kind) in
  let* bc := gets vm_bytecode in
  match List.filter (λ t, bool_decide (et_kind t = kind)) (error_templates bc) with
  | [] => throw (lit "unresolved Error constructor " ++ kind)
  | template :: rest =>
      if decide (rest = []) then
        let* ok := if decide (length (et_input_types template) = length args) then
                     liftR (ErrorSchema.all_run (λ '(schema, v), ErrorSchema.accepts (type_registry bc) (3 * depth + 3) schema v)
                              (zip (et_input_types template) args))
                   else ret false in
        if (ok : bool) then
          ret (OCall (callable_for_function bc (et_constructor_fun_idx template)) args
                 (KErrorConstruction kind location stack_trace wrapper None))
        else throw (lit "Error constructor input contract mismatch for " ++ kind)
      else throw (lit "duplicate Error constructor " ++ kind)
  end.

Definition language_error_outcome (kind : str) (args : list Value) (wrapper : option N) : M K (BuiltinOutcome K) :=
  let* location := gets runtime_error_location in
  let* location := ok_orM location (lit "Error generation has no source context") in
  let* trace := gets current_stack_trace_snapshot in
  language_error_outcome_at kind args wrapper location trace.

Definition language_error_result (kind : str) (args : list Value) : M K (BuiltinOutcome K) :=
  language_error_outcome kind args (Some 1%N).

(** [LanguageErrorInput::invoke]. *)
Definition invoke (e : LanguageErrorInput) : M K (BuiltinOutcome K) := language_error_result (le_kind e) (le_args e).

Definition complete (value : Value) : M K (BuiltinOutcome K) := ret (OComplete value).

Definition arg (args : list Value) (i : nat) : M K Value := liftR (index args i).

(** [BigInt::to_usize]. *)
Definition to_usize (n : Z) : option nat :=
  if decide (0 ≤ n ∧ n ≤ Z.of_N usize_max)%Z then Some (Z.to_nat n) else None.

(** ** Integers *)

Definition shift_builtin (name : str) (f : Z → Z → Z) (args : list Value) : M K (BuiltinOutcome K) :=
  let* a := arg args 0 in
  let* b := arg args 1 in
  match a, b with
  | VInt value, VInt bits =>
      match to_usize bits with
      | Some amount => complete (ok_result (VInt (f value (Z.of_nat amount))))
      | None =>
          let kind := if decide (bits < 0)%Z then lit "NegativeShiftCount" else lit "ShiftCountTooLarge" in
          language_error_result kind [VInt bits]
      end
  | _, _ => throw (name ++ lit " expects (Int, Int)")
  end.
Definition builtin_shl : list Value → M K (BuiltinOutcome K) := shift_builtin (lit "builtin_shl") Z.shiftl.
Definition builtin_shr : list Value → M K (BuiltinOutcome K) := shift_builtin (lit "builtin_shr") Z.shiftr.

Definition bitwise_builtin (name : str) (f : Z → Z → Z) (args : list Value) : M K Value :=
  let* a := arg args 0 in
  let* b := arg args 1 in
  match a, b with
  | VInt lhs, VInt rhs => ret (VInt (f lhs rhs))
  | _, _ => throw (name ++ lit " expects (Int, Int)")
  end.
Definition builtin_bit_and : list Value → M K Value := bitwise_builtin (lit "bit_and") Z.land.
Definition builtin_bit_or : list Value → M K Value := bitwise_builtin (lit "bit_or") Z.lor.
Definition builtin_bit_xor : list Value → M K Value := bitwise_builtin (lit "bit_xor") Z.lxor.
Definition builtin_bit_not (args : list Value) : M K Value :=
  let* a := arg args 0 in
  match a with
  | VInt value => ret (VInt (Z.lnot value))
  | _ => throw (lit "bit_not expects Int")
  end.

Definition fmt_Z (n : Z) : str := if decide (n < 0)%Z then lit "-" ++ fmt_N (Z.to_N (- n)) else fmt_N (Z.to_N n).

Definition bit_index_to_usize (i : Z) : Result RuntimeError (Result LanguageErrorInput nat) :=
  if decide (i < 0)%Z then Ok (Err (mkLanguageError (lit "NegativeBitIndex") [VInt i]))
  else
    match to_usize i with
    | Some n => Ok (Ok n)
    | None => Err (RuntimeError.new (lit "bit index out of range for usize: " ++ fmt_Z i))
    end.

Definition bit_mask (bit_index : nat) : Z := Z.shiftl 1 (Z.of_nat bit_index).

Definition bit_builtin (name : str) (f : Z → Z → Value) (args : list Value) : M K (BuiltinOutcome K) :=
  let* a := arg args 0 in
  let* b := arg args 1 in
  match a, b with
  | VInt value, VInt i =>
      let* bit_index := liftE (bit_index_to_usize i) in
      match bit_index with
      | Ok bit_index => complete (ok_result (f value (bit_mask bit_index)))
      | Err e => invoke e
      end
  | _, _ => throw (name ++ lit " expects (Int, Int)")
  end.
Definition builtin_test_bit : list Value → M K (BuiltinOutcome K) :=
  bit_builtin (lit "test_bit") (λ value mask, VBool (negb (bool_decide (Z.land value mask = 0)%Z))).
Definition builtin_set_bit : list Value → M K (BuiltinOutcome K) :=
  bit_builtin (lit "set_bit") (λ value mask, VInt (Z.lor value mask)).
Definition builtin_clear_bit : list Value → M K (BuiltinOutcome K) :=
  bit_builtin (lit "clear_bit") (λ value mask, VInt (Z.land value (Z.lnot mask))).
Definition builtin_toggle_bit : list Value → M K (BuiltinOutcome K) :=
  bit_builtin (lit "toggle_bit") (λ value mask, VInt (Z.lxor value mask)).

(** ** Indexed access to lists and maps *)

Definition facet_index_to_usize (i : Z) (len : nat) : Result LanguageErrorInput nat :=
  let resolved :=
    if decide (i < 0)%Z then
      match to_usize (- i) with
      | Some value => if decide (0 < value ∧ value ≤ len) then Some (len - value) else None
      | None => None
      end
    else
      match to_usize i with
      | Some value => if decide (value < len) then Some value else None
      | None => None
      end in
  ok_or resolved (mkLanguageError (lit "FacetListIndexOutOfBounds") [VInt i; VInt (Z.of_nat len)]).

Definition facet_range_to_bounds (first last : Z) (len : nat) : Result LanguageErrorInput (nat * nat) :=
  let? resolved_start := facet_index_to_usize first len in
  let? resolved_end := facet_index_to_usize last len in
  if decide (resolved_end < resolved_start) then
    Err (mkLanguageError (lit "FacetListRangeReversed") [VInt first; VInt last; VInt (Z.of_nat len)])
  else Ok (resolved_start, resolved_end).

Definition complete_list (items : list Value) : M K (BuiltinOutcome K) :=
  let* list := liftR (ListHandle.from_items items) in
  complete (ok_result (VList list)).

Definition builtin_facet_list_get (args : list Value) : M K (BuiltinOutcome K) :=
  let* a := arg args 0 in
  match a with
  | VList list =>
      let* b := arg args 1 in
      match b with
      | VInt i =>
          match facet_index_to_usize i (ListHandle.len list) with
          | Err e => invoke e
          | Ok i =>
              let* items := liftR (ListHandle.to_vec list) in
              let* value := ok_orM (items !! i) (lit "__facet_list_get invariant broken after bounds check") in
              complete (ok_result value)
          end
      | _ => throw (lit "__facet_list_get expects Int index")
      end
  | _ => throw (lit "__facet_list_get expects List")
  end.

Definition builtin_facet_list_set (args : list Value) : M K (BuiltinOutcome K) :=
  let* a := arg args 0 in
  match a with
  | VList list =>
      let* b := arg args 1 in
      match b with
      | VInt i =>
          match facet_index_to_usize i (ListHandle.len list) with
          | Err e => invoke e
          | Ok i =>
              let* items := liftR (ListHandle.to_vec list) in
              let* value := arg args 2 in
              let* _ := liftR (index items i) in
              complete_list (<[i := value]> items)
          end
      | _ => throw (lit "__facet_list_set expects Int index")
      end
  | _ => throw (lit "__facet_list_set expects List")
  end.

Definition builtin_facet_list_slice_get (args : list Value) : M K (BuiltinOutcome K) :=
  let* a := arg args 0 in
  match a with
  | VList list =>
      let* b := arg args 1 in
      match b with
      | VInt first =>
          let* c := arg args 2 in
          match c with
          | VInt last =>
              match facet_range_to_bounds first last (ListHandle.len list) with
              | Err e => invoke e
              | Ok (first, last) =>
                  let* items := liftR (ListHandle.to_vec list) in
                  complete_list (take (last - first + 1) (drop first items))
              end
          | _ => throw (lit "__facet_list_slice_get expects Int end")
          end
      | _ => throw (lit "__facet_list_slice_get expects Int start")
      end
  | _ => throw (lit "__facet_list_slice_get expects List")
  end.

Definition builtin_facet_list_slice_set (args : list Value) : M K (BuiltinOutcome K) :=
  let* a := arg args 0 in
  match a with
  | VList list =>
      let* b := arg args 1 in
      match b with
      | VInt first =>
          let* c := arg args 2 in
          match c with
          | VInt last =>
              let* d := arg args 3 in
              match d with
              | VList replacement =>
                  match facet_range_to_bounds first last (ListHandle.len list) with
                  | Err e => invoke e
                  | Ok (first, last) =>
                      let* items := liftR (ListHandle.to_vec list) in
                      let* new_items := liftR (ListHandle.to_vec replacement) in
                      (* [splice] panics when the range ends past the vector. *)
                      let* _ := liftR (index items last) in
                      complete_list (take first items ++ new_items ++ drop (last + 1) items)
                  end
              | _ => throw (lit "__facet_list_slice_set expects List replacement")
              end
          | _ => throw (lit "__facet_list_slice_set expects Int end")
          end
      | _ => throw (lit "__facet_list_slice_set expects Int start")
      end
  | _ => throw (lit "__facet_list_slice_set expects List")
  end.

Definition expects (builtin_name kind arg_name : str) (other : Value) : str :=
  builtin_name ++ lit " expects " ++ kind ++ lit " as " ++ arg_name ++ lit ", got " ++ debug_value other.

Definition decode_hash_map_arg (value : Value) (builtin_name arg_name : str) : M K (gmap str Value) :=
  match value with
  | VHashMap m => ret m
  | other => throw (expects builtin_name (lit "HashMap") arg_name other)
  end.
Definition decode_string_arg (value : Value) (builtin_name arg_name : str) : M K str :=
  match value with
  | VStr s => ret s
  | other => throw (expects builtin_name (lit "String") arg_name other)
  end.
Definition decode_random_generator_arg (value : Value) (builtin_name arg_name : str) : M K RandomGeneratorHandle :=
  match value with
  | VRandomGenerator g => ret g
  | other => throw (expects builtin_name (lit "RandomGenerator") arg_name other)
  end.

(** The map and the key most map builtins start with. *)
Definition map_and_key (args : list Value) (name : str) : M K (gmap str Value * str) :=
  let* a := arg args 0 in
  let* map := decode_hash_map_arg a name (lit "map") in
  let* b := arg args 1 in
  let* key := decode_string_arg b name (lit "key") in
  ret (map, key).

Definition builtin_map_len (args : list Value) : M K Value :=
  let* a := arg args 0 in
  let* map := decode_hash_map_arg a (lit "map_len") (lit "map") in
  ret (VInt (Z.of_nat (HashMapHandle.len map))).
Definition builtin_map_contains_key (args : list Value) : M K Value :=
  let* '(map, key) := map_and_key args (lit "map_contains_key") in
  ret (VBool (HashMapHandle.contains_key map key)).
Definition builtin_map_get (args : list Value) : M K (BuiltinOutcome K) :=
  let* '(map, key) := map_and_key args (lit "map_get") in
  match HashMapHandle.get map key with
  | Some value => complete (ok_result value)
  | None => language_error_result (lit "HashMapKeyMissing") [VStr key]
  end.
Definition builtin_map_insert (args : list Value) : M K Value :=
  let* '(map, key) := map_and_key args (lit "map_insert") in
  let* value := arg args 2 in
  ret (VHashMap (HashMapHandle.insert map key value)).
Definition builtin_map_remove (args : list Value) : M K Value :=
  let* '(map, key) := map_and_key args (lit "map_remove") in
  ret (VHashMap (HashMapHandle.remove map key)).

Definition key_not_found_result (key : str) : M K (BuiltinOutcome K) :=
  language_error_result (lit "FacetKeyNotFound") [VStr key].
Definition builtin_facet_map_get (args : list Value) : M K (BuiltinOutcome K) :=
  let* '(map, key) := map_and_key args (lit "__facet_map_get") in
  match HashMapHandle.get map key with
  | Some value => complete (ok_result value)
  | None => key_not_found_result key
  end.
Definition builtin_facet_map_set_existing (args : list Value) : M K (BuiltinOutcome K) :=
  let* '(map, key) := map_and_key args (lit "__facet_map_set_existing") in
  if HashMapHandle.contains_key map key then
    let* value := arg args 2 in
    complete (ok_result (VHashMap (HashMapHandle.insert map key value)))
  else key_not_found_result key.

Definition builtin_list_len (args : list Value) : M K Value :=
  let* a := arg args 0 in
  match a with
  | VList list => ret (VInt (Z.of_nat (ListHandle.len list)))
  | _ => throw (lit "len expects List as first argument")
  end.

Definition builtin_list_zip (args : list Value) : M K Value :=
  let* a := arg args 0 in
  match a with
  | VList lhs =>
      let* b := arg args 1 in
      match b with
      | VList rhs =>
          let* xs := liftR (ListHandle.to_vec lhs) in
          let* ys := liftR (ListHandle.to_vec rhs) in
          let* list := liftR (ListHandle.from_items (zip_with (λ x y, VTuple [x; y]) xs ys)) in
          ret (VList list)
      | _ => throw (lit "zip expects List as second argument")
      end
  | _ => throw (lit "zip expects List as first argument")
  end.

End scalars.

End Scalars.
