(* ===== verification/ScalarProps.v ===== *)
(** * Indexed access to lists is a lens

    [__facet_list_get] and [__facet_list_set] of [Scalars.v] against a reference:
    an index counts from the front or, when it is negative, from the back, so the
    place it names is the index modulo the length; indices outside of
    [-len .. len - 1] become the language error, never a failure of the machine.
    The range forms read and replace the places from one index to another. *)

From S2P Require Import Prelude Names ListHandle Value TypeRegistry OperandStack Ir RuntimeError.
From S2P Require Import StringLiteral Display ErrorSchema ProcessRuntime Machine Scalars.

Module ScalarProps.
Import Machine Scalars.

(** The place an index names in a list of [n] items. *)
Definition in_range (i : Z) (n : nat) : Prop := (- Z.of_nat n ≤ i < Z.of_nat n)%Z.
Definition place (i : Z) (n : nat) : nat := Z.to_nat (i `mod` Z.of_nat n).

Lemma place_spec i n :
  in_range i n → place i n < n ∧ Z.of_nat (place i n) = (if decide (i < 0) then i + Z.of_nat n else i)%Z.
Proof.
  unfold in_range, place. intros Hi. assert (0 < Z.of_nat n)%Z by lia.
  pose proof (Z.mod_pos_bound i (Z.of_nat n) ltac:(done)).
  assert (i `mod` Z.of_nat n = if decide (i < 0) then i + Z.of_nat n else i)%Z as Hm.
  { case_decide; symmetry.
    - apply (Z.mod_unique i _ (-1)); lia.
    - apply (Z.mod_unique i _ 0); lia. }
  lia.
Qed.

Section lens.
Context (n : nat) (Hn : (N.of_nat n ≤ usize_max)%N).

Lemma index_in_range i : in_range i n → facet_index_to_usize i n = Ok (place i n).
Proof using Hn.
  intros Hi. destruct (place_spec i n Hi) as [Hp Hz]. unfold in_range in Hi.
  unfold facet_index_to_usize, to_usize. case_decide.
  - rewrite decide_True by lia. rewrite decide_True by lia. simpl. f_equal. lia.
  - rewrite decide_True by lia. rewrite decide_True by lia. simpl. f_equal. lia.
Qed.

Lemma index_out_of_range i :
  ¬ in_range i n →
  facet_index_to_usize i n = Err (mkLanguageError (lit "FacetListIndexOutOfBounds") [VInt i; VInt (Z.of_nat n)]).
Proof using Type.
  clear Hn. unfold in_range. intros Hi. unfold facet_index_to_usize, to_usize.
  repeat case_decide; try done; lia.
Qed.

Lemma range_in_order first last :
  in_range first n → in_range last n → place first n ≤ place last n →
  facet_range_to_bounds first last n = Ok (place first n, place last n).
Proof using Hn.
  intros Hf Hl Ho. unfold facet_range_to_bounds. rewrite !index_in_range by done. simpl.
  by rewrite decide_False by lia.
Qed.
End lens.

Section builtins.
Context {K : Type} (depth : nat) (vm : VM K).

Definition ok_list (o : VM K * Try RuntimeError (BuiltinOutcome K)) (xs : list Value) : Prop :=
  ∃ l, o = (vm, Ok (OComplete (ok_result (VList l)))) ∧ ListHandle.wf l ∧ ListHandle.items l = xs.

Lemma complete_list_ok xs :
  (N.of_nat (length xs) ≤ usize_max)%N → ok_list (complete_list xs vm) xs.
Proof.
  intros Hx. destruct (ListHandle.from_items_ok xs Hx) as (l & Hl & Hwf & Hi).
  exists l. unfold complete_list, bindM, liftR. by rewrite Hl.
Qed.

Lemma wf_len_bound (l : ListHandle Value) : ListHandle.wf l → (N.of_nat (ListHandle.len l) ≤ usize_max)%N.
Proof. intros Hwf. rewrite (ListHandle.wf_len _ Hwf). by apply ListHandle.wf_bound. Qed.

Lemma get_in_range (l : ListHandle Value) i x :
  ListHandle.wf l → in_range i (ListHandle.len l) →
  ListHandle.items l !! place i (ListHandle.len l) = Some x →
  builtin_facet_list_get depth [VList l; VInt i] vm = (vm, Ok (OComplete (ok_result x))).
Proof.
  intros Hwf Hi Hx. unfold builtin_facet_list_get, bindM. simpl.
  rewrite index_in_range by (done || by apply wf_len_bound).
  unfold liftR, bindM. rewrite (ListHandle.to_vec_spec l Hwf). simpl. by rewrite Hx.
Qed.

Lemma set_in_range (l : ListHandle Value) i v :
  ListHandle.wf l → in_range i (ListHandle.len l) →
  ok_list (builtin_facet_list_set depth [VList l; VInt i; v] vm)
    (<[place i (ListHandle.len l) := v]> (ListHandle.items l)).
Proof.
  intros Hwf Hi. destruct (place_spec i _ Hi) as [Hp _].
  unfold builtin_facet_list_set, bindM. simpl.
  rewrite index_in_range by (done || by apply wf_len_bound).
  unfold liftR, bindM. rewrite (ListHandle.to_vec_spec l Hwf). simpl. unfold index.
  assert (is_Some (ListHandle.items l !! place i (ListHandle.len l))) as [x ->].
  { apply lookup_lt_is_Some. by rewrite <- (ListHandle.wf_len _ Hwf). }
  apply complete_list_ok. rewrite length_insert. by apply ListHandle.wf_bound.
Qed.

Lemma slice_get_in_range (l : ListHandle Value) first last (n := ListHandle.len l) :
  ListHandle.wf l → in_range first n → in_range last n → place first n ≤ place last n →
  ok_list (builtin_facet_list_slice_get depth [VList l; VInt first; VInt last] vm)
    (take (place last n - place first n + 1) (drop (place first n) (ListHandle.items l))).
Proof.
  intros Hwf Hf Hl Ho. unfold builtin_facet_list_slice_get, bindM. simpl. fold n.
  rewrite range_in_order by (done || by apply wf_len_bound).
  unfold liftR, bindM. rewrite (ListHandle.to_vec_spec l Hwf). simpl.
  apply complete_list_ok. rewrite length_take, length_drop. pose proof (ListHandle.wf_bound _ Hwf). lia.
Qed.

Lemma slice_set_in_range (l r : ListHandle Value) first last (n := ListHandle.len l) :
  ListHandle.wf l → ListHandle.wf r → in_range first n → in_range last n → place first n ≤ place last n →
  (N.of_nat (n + ListHandle.len r) ≤ usize_max)%N →
  ok_list (builtin_facet_list_slice_set depth [VList l; VInt first; VInt last; VList r] vm)
    (take (place first n) (ListHandle.items l) ++ ListHandle.items r
       ++ drop (place last n + 1) (ListHandle.items l)).
Proof.
  intros Hwf Hr Hf Hl Ho Hb. destruct (place_spec last _ Hl) as [Hp _].
  unfold builtin_facet_list_slice_set, bindM. simpl. fold n.
  rewrite range_in_order by (done || by apply wf_len_bound).
  unfold liftR, bindM. rewrite (ListHandle.to_vec_spec l Hwf), (ListHandle.to_vec_spec r Hr). simpl. unfold index.
  pose proof (ListHandle.wf_len _ Hwf) as Hlen. pose proof (ListHandle.wf_len _ Hr) as Hrlen. fold n in Hlen.
  assert (is_Some (ListHandle.items l !! place last n)) as [x ->] by (apply lookup_lt_is_Some; lia).
  apply complete_list_ok. rewrite !length_app, length_take, length_drop. lia.
Qed.
End builtins.

(** Indexed access to a list is a lens with bounds.  For every well-formed list and
    every integer index from [-len] to [len - 1], writing replaces exactly the place the
    index names modulo the length, reading after writing gives the value written, and
    writing what was read gives the items back; every other index, however large, is the
    language error with the index and the length, for reading and for writing. *)
Theorem facet_list_lens {K : Type} (depth : nat) (vm : VM K) (l : ListHandle Value) (i : Z) (v : Value)
    (n := ListHandle.len l) :
  ListHandle.wf l →
  (in_range i n →
     ∃ x l' l'', builtin_facet_list_get depth [VList l; VInt i] vm = (vm, Ok (OComplete (ok_result x))) ∧
       builtin_facet_list_set depth [VList l; VInt i; v] vm = (vm, Ok (OComplete (ok_result (VList l')))) ∧
       builtin_facet_list_get depth [VList l'; VInt i] vm = (vm, Ok (OComplete (ok_result v))) ∧
       ListHandle.wf l' ∧ ListHandle.items l' = <[place i n := v]> (ListHandle.items l) ∧
       builtin_facet_list_set depth [VList l; VInt i; x] vm = (vm, Ok (OComplete (ok_result (VList l'')))) ∧
       ListHandle.items l'' = ListHandle.items l) ∧
  (¬ in_range i n →
     let failure := language_error_result depth (lit "FacetListIndexOutOfBounds") [VInt i; VInt (Z.of_nat n)] vm in
     builtin_facet_list_get depth [VList l; VInt i] vm = failure ∧
     builtin_facet_list_set depth [VList l; VInt i; v] vm = failure).
Proof.
  intros Hwf. split; intros Hi.
  - destruct (place_spec i n Hi) as [Hp _]. pose proof (ListHandle.wf_len _ Hwf) as Hn. fold n in Hn.
    assert (is_Some (ListHandle.items l !! place i n)) as [x Hx] by (apply lookup_lt_is_Some; lia).
    destruct (set_in_range depth vm l i v Hwf Hi) as (l' & Hs & Hwf' & Hit).
    destruct (set_in_range depth vm l i x Hwf Hi) as (l'' & Hs' & _ & Hit').
    assert (ListHandle.len l' = n) as Hn'.
    { by rewrite (ListHandle.wf_len _ Hwf'), Hit, length_insert, Hn. }
    exists x, l', l''.
    split; [exact (get_in_range depth vm l i x Hwf Hi Hx)|]. split; [done|].
    split; [|do 3 (split; [done|])].
    + apply get_in_range; [done|by rewrite Hn'|]. rewrite Hn', Hit. fold n.
      apply list_lookup_insert_eq. lia.
    + rewrite Hit'. by apply list_insert_id.
  - simpl. unfold builtin_facet_list_get, builtin_facet_list_set, bindM. simpl. fold n.
    rewrite (index_out_of_range n i Hi). by split.
Qed.

Definition lens_list : ListHandle Value := Packed [VUnit; VInt 1; VInt 2] (Cons (VInt 3) ListHandle.empty 1) 1 3.

Definition lens_vm : VM unit :=
  mkVM (mkBytecode [] [] 0 TypeRegistry.new [] [] [] [] None [] [] default_compile_info
          [] [] [] [] [] [] [] [] [] default_boot_plan)
    empty_exec 0 None None None (mkIoPolicy Passthrough Passthrough) None [] 0 None
    (ProcessRuntime.initial ProcessRuntime.sample_specs).

(** Index -1 of a list of three in two chunks. *)
Lemma facet_list_lens_witness :
  ListHandle.wf lens_list ∧ in_range (-1) (ListHandle.len lens_list) ∧
  ∃ x l' l'', builtin_facet_list_get 0 [VList lens_list; VInt (-1)] lens_vm = (lens_vm, Ok (OComplete (ok_result x))) ∧
    builtin_facet_list_set 0 [VList lens_list; VInt (-1); VInt 9] lens_vm
      = (lens_vm, Ok (OComplete (ok_result (VList l')))) ∧
    builtin_facet_list_get 0 [VList l'; VInt (-1)] lens_vm = (lens_vm, Ok (OComplete (ok_result (VInt 9)))) ∧
    ListHandle.wf l' ∧
    ListHandle.items l' = <[place (-1) (ListHandle.len lens_list) := VInt 9]> (ListHandle.items lens_list) ∧
    builtin_facet_list_set 0 [VList lens_list; VInt (-1); x] lens_vm
      = (lens_vm, Ok (OComplete (ok_result (VList l'')))) ∧
    ListHandle.items l'' = ListHandle.items lens_list.
Proof.
  assert (ListHandle.wf lens_list) as Hwf
    by (simpl; unfold LIST_CHUNK_CAPACITY, usize_max, u64_max; repeat split; lia).
  assert (in_range (-1) (ListHandle.len lens_list)) as Hr by (unfold in_range; simpl; lia).
  split; [exact Hwf|]. split; [exact Hr|].
  exact (proj1 (facet_list_lens 0 lens_vm lens_list (-1) (VInt 9) Hwf) Hr).
Defined.

(** Writing back the range that was read changes nothing. *)
Theorem facet_slice_write_back {K : Type} (depth : nat) (vm : VM K) (l : ListHandle Value) (first last : Z)
    (n := ListHandle.len l) :
  ListHandle.wf l → in_range first n → in_range last n → place first n ≤ place last n →
  (N.of_nat (n + n) ≤ usize_max)%N →
  ∃ r, builtin_facet_list_slice_get depth [VList l; VInt first; VInt last] vm = (vm, Ok (OComplete (ok_result (VList r)))) ∧
    ok_list vm (builtin_facet_list_slice_set depth [VList l; VInt first; VInt last; VList r] vm) (ListHandle.items l).
Proof.
  intros Hwf Hf Hl Ho Hb. destruct (slice_get_in_range depth vm l first last Hwf Hf Hl Ho) as (r & Hr & Hwr & Hir).
  fold n in Hir. exists r. split; [done|].
  pose proof (ListHandle.wf_len _ Hwf) as Hn. fold n in Hn. destruct (place_spec last n Hl) as [Hp _].
  destruct (slice_set_in_range depth vm l r first last Hwf Hwr Hf Hl Ho) as (l' & Hs & Hw' & Hi').
  { fold n. rewrite (ListHandle.wf_len _ Hwr), Hir, length_take, length_drop. lia. }
  exists l'. split_and!; [done|done|]. rewrite Hi'. fold n. rewrite Hir.
  replace (place last n + 1) with (place first n + (place last n - place first n + 1)) by lia.
  by rewrite <- drop_drop, take_drop, take_drop.
Qed.

End ScalarProps.
