(* ===== verification/CodePoints.v ===== *)
(** * Strings as code points ([builtin_codepoints], [builtin_from_codepoints] of [builtin.rs])

    [codepoints] lists the bytes of a string in UTF-8 or the codes of an ASCII
    string, [from_codepoints] reads them back and reports the first byte out of
    range, the first invalid sequence or an incomplete one.  The UTF-8 encoder of
    [str] and the validation of [String::from_utf8] are written out; the theorem is
    the round trip. *)

From S2P Require Import Prelude Names ListHandle Value TypeRegistry OperandStack Ir RuntimeError.
From S2P Require Import StringLiteral Display ErrorSchema ProcessRuntime Machine Scalars.

Module CodePoints.
Import Machine Scalars.

(** ** UTF-8 *)

Definition utf8_encode (c : char) : list N :=
  if (c <? 128)%N then [c]
  else if (c <? 2048)%N then [192 + c / 64; 128 + c `mod` 64]%N
  else if (c <? 65536)%N then [224 + c / 4096; 128 + (c / 64) `mod` 64; 128 + c `mod` 64]%N
  else [240 + c / 262144; 128 + (c / 4096) `mod` 64; 128 + (c / 64) `mod` 64; 128 + c `mod` 64]%N.

(** [str::as_bytes]. *)
Definition as_bytes (s : str) : list N := concat (utf8_encode <$> s).

(** The first character of a byte sequence: its code and width, an invalid prefix of
    some length, or a prefix that ends too early. *)
Inductive Utf8Step : Type :=
| UChar (c : char) (width : nat)
| UInvalid (len : nat)
| UIncomplete.

Definition between (lo hi b : N) : bool := ((lo <=? b) && (b <=? hi))%N.
Definition is_continuation (b : N) : bool := between 128 191 b.

(** Which second bytes may follow the first one. *)
Definition second_ok (b0 b1 : N) : bool :=
  if (b0 =? 224)%N then between 160 191 b1
  else if (b0 =? 237)%N then between 128 159 b1
  else if (b0 =? 240)%N then between 144 191 b1
  else if (b0 =? 244)%N then between 128 143 b1
  else is_continuation b1.

Definition utf8_next (b0 : N) (rest : list N) : Utf8Step :=
  if (b0 <? 128)%N then UChar b0 1
  else if between 194 223 b0 then
    match rest with
    | [] => UIncomplete
    | b1 :: _ => if is_continuation b1 then UChar ((b0 - 192) * 64 + (b1 - 128)) 2 else UInvalid 1
    end
  else if between 224 239 b0 then
    match rest with
    | [] => UIncomplete
    | b1 :: rest1 =>
        if second_ok b0 b1 then
          match rest1 with
          | [] => UIncomplete
          | b2 :: _ =>
              if is_continuation b2 then UChar ((b0 - 224) * 4096 + (b1 - 128) * 64 + (b2 - 128)) 3
              else UInvalid 2
          end
        else UInvalid 1
    end
  else if between 240 244 b0 then
    match rest with
    | [] => UIncomplete
    | b1 :: rest1 =>
        if second_ok b0 b1 then
          match rest1 with
          | [] => UIncomplete
          | b2 :: rest2 =>
              if is_continuation b2 then
                match rest2 with
                | [] => UIncomplete
                | b3 :: _ =>
                    if is_continuation b3 then
                      UChar ((b0 - 240) * 262144 + (b1 - 128) * 4096 + (b2 - 128) * 64 + (b3 - 128)) 4
                    else UInvalid 3
                end
              else UInvalid 2
          end
        else UInvalid 1
    end
  else UInvalid 1.

(** [Utf8Error { valid_up_to, error_len }]. *)
Record Utf8Error : Type := mkUtf8Error { ue_valid_up_to : nat; ue_error_len : option nat }.

(** [String::from_utf8]; the fuel is the number of bytes. *)
Fixpoint from_utf8_loop (fuel at_ : nat) (bytes : list N) (out : str) : Result Utf8Error str :=
  match bytes with
  | [] => Ok out
  | b0 :: rest =>
      match fuel with
      | 0 => Err (mkUtf8Error at_ None)
      | S fuel' =>
          match utf8_next b0 rest with
          | UChar c n => from_utf8_loop fuel' (at_ + n) (drop n bytes) (out ++ [c])
          | UInvalid n => Err (mkUtf8Error at_ (Some n))
          | UIncomplete => Err (mkUtf8Error at_ None)
          end
      end
  end.
Definition from_utf8 (bytes : list N) : Result Utf8Error str := from_utf8_loop (length bytes) 0 bytes [].

(** ** The builtins *)

Section codepoints.
Context {K : Type} (depth : nat).

Definition decode_string_encoding (value : Value) : M K StringEncodingMode :=
  match value with
  | VTagged tag _ =>
      let* bc := gets vm_bytecode in
      let* entry := ok_orM (TypeRegistry.lookup (type_registry bc) tag)
                      (lit "unknown StringEncoding tag: " ++ fmt_N tag) in
      let leaf := last_segment (te_name entry) in
      if decide (leaf = lit "Utf8") then ret Utf8
      else if decide (leaf = lit "Ascii") then ret Ascii
      else throw (lit "expected StringEncoding variant, got " ++ te_name entry)
  | _ => throw (lit "expected StringEncoding enum value for encoding argument")
  end.

(** The position of the first character that is not ASCII. *)
Fixpoint first_non_ascii (i : nat) (s : str) : option (nat * char) :=
  match s with
  | [] => None
  | c :: s' => if (c <? 128)%N then first_non_ascii (S i) s' else Some (i, c)
  end.

Definition builtin_codepoints (args : list Value) : M K (BuiltinOutcome K) :=
  let* a := arg args 0 in
  match a with
  | VStr value =>
      let* b := arg args 1 in
      let* encoding := decode_string_encoding b in
      match encoding with
      | Utf8 => complete_list ((λ b, VInt (Z.of_N b)) <$> as_bytes value)
      | Ascii =>
          match first_non_ascii 0 value with
          | Some (i, c) =>
              language_error_result depth (lit "StringAsciiCharacterUnsupported") [VInt (Z.of_nat i); VStr [c]]
          | None => complete_list ((λ c, VInt (Z.of_N c)) <$> value)
          end
      end
  | _ => throw (lit "codepoints expects (String, StringEncoding)")
  end.

Definition max_code (encoding : StringEncodingMode) : Z := match encoding with Utf8 => 255 | Ascii => 127 end.

(** The loop of [from_codepoints]: the bytes, or the language error of the first
    code out of range. *)
Fixpoint read_codes (encoding : StringEncodingMode) (i : nat) (values : list Value) (bytes : list N) :
    Result RuntimeError (Result LanguageErrorInput (list N)) :=
  match values with
  | [] => Ok (Ok bytes)
  | VInt code :: values' =>
      if decide (0 ≤ code ≤ max_code encoding)%Z then
        read_codes encoding (S i) values' (bytes ++ [Z.to_N code])
      else
        let kind := match encoding with
                    | Utf8 => lit "StringUtf8ByteOutOfRange"
                    | Ascii => lit "StringAsciiCodeOutOfRange"
                    end in
        Ok (Err (mkLanguageError kind [VInt (Z.of_nat i); VInt code]))
  | _ :: _ => Err (RuntimeError.new (lit "from_codepoints expects List<Int>"))
  end.

Definition builtin_from_codepoints (args : list Value) : M K (BuiltinOutcome K) :=
  let* a := arg args 0 in
  match a with
  | VList values =>
      let* b := arg args 1 in
      let* encoding := decode_string_encoding b in
      let* values := liftR (ListHandle.to_vec values) in
      let* codes := liftE (read_codes encoding 0 values []) in
      match codes with
      | Err e => invoke depth e
      | Ok bytes =>
          match from_utf8 bytes with
          | Ok text => complete (ok_result (VStr text))
          | Err e =>
              match ue_error_len e with
              | Some len =>
                  language_error_result depth (lit "StringUtf8InvalidSequence")
                    [VInt (Z.of_nat (ue_valid_up_to e)); VInt (Z.of_nat len)]
              | None =>
                  language_error_result depth (lit "StringUtf8IncompleteSequence")
                    [VInt (Z.of_nat (ue_valid_up_to e))]
              end
          end
      end
  | _ => throw (lit "from_codepoints expects List<Int>")
  end.

End codepoints.

(** ** The round trip *)

(** [char]: a Unicode scalar value. *)
Definition scalar (c : char) : Prop := (c < 55296 ∨ 57344 ≤ c ≤ 1114111)%N.

Ltac div_lia := zify; Z.to_euclidean_division_equations; lia.

Lemma utf8_encode_bytes c : scalar c → Forall (λ b, (b ≤ 255)%N) (utf8_encode c).
Proof.
  intros Hc. unfold scalar, utf8_encode in *.
  repeat case_match; repeat rewrite ?N.ltb_lt, ?N.ltb_ge in *; repeat constructor; div_lia.
Qed.

Lemma between_true lo hi b : (lo ≤ b ≤ hi)%N → between lo hi b = true.
Proof. intros [??]. unfold between. apply andb_true_iff. split; by apply N.leb_le. Qed.
Lemma between_false lo hi b : (b < lo ∨ hi < b)%N → between lo hi b = false.
Proof. intros Hb. unfold between. apply andb_false_iff. rewrite !N.leb_gt. done. Qed.

Lemma utf8_next_encode c rest :
  scalar c → ∃ b0 bs, utf8_encode c = b0 :: bs ∧ utf8_next b0 (bs ++ rest) = UChar c (S (length bs)).
Proof.
  intros Hc. unfold utf8_encode, utf8_next, is_continuation.
  destruct (N.ltb_spec c 128) as [H1|H1]; [|destruct (N.ltb_spec c 2048) as [H2|H2]; [|destruct (N.ltb_spec c 65536) as [H3|H3]]];
    eexists _, _; (split; [reflexivity|]); cbn [app length].
  - by rewrite (proj2 (N.ltb_lt c 128)).
  - rewrite (proj2 (N.ltb_ge _ 128)), (between_true 194 223), between_true by div_lia.
    f_equal. div_lia.
  - rewrite (proj2 (N.ltb_ge _ 128)), (between_false 194 223), (between_true 224 239) by div_lia.
    assert (second_ok (224 + c / 4096) (128 + (c / 64) `mod` 64) = true) as ->.
    { unfold second_ok, is_continuation, scalar in *.
      destruct (N.eqb_spec (224 + c / 4096) 224); [apply between_true; div_lia|].
      destruct (N.eqb_spec (224 + c / 4096) 237); [apply between_true; div_lia|].
      destruct (N.eqb_spec (224 + c / 4096) 240); [div_lia|].
      destruct (N.eqb_spec (224 + c / 4096) 244); [div_lia|]. apply between_true. div_lia. }
    rewrite between_true by div_lia. f_equal. div_lia.
  - unfold scalar in Hc. rewrite (proj2 (N.ltb_ge _ 128)), (between_false 194 223), (between_false 224 239), (between_true 240 244) by div_lia.
    assert (second_ok (240 + c / 262144) (128 + (c / 4096) `mod` 64) = true) as ->.
    { unfold second_ok, is_continuation.
      destruct (N.eqb_spec (240 + c / 262144) 224); [div_lia|].
      destruct (N.eqb_spec (240 + c / 262144) 237); [div_lia|].
      destruct (N.eqb_spec (240 + c / 262144) 240); [apply between_true; div_lia|].
      destruct (N.eqb_spec (240 + c / 262144) 244); [apply between_true; div_lia|]. apply between_true. div_lia. }
    rewrite between_true, between_true by div_lia. f_equal. div_lia.
Qed.

Lemma from_utf8_loop_ok s : ∀ fuel at_ out,
  Forall scalar s → length (as_bytes s) ≤ fuel → from_utf8_loop fuel at_ (as_bytes s) out = Ok (out ++ s).
Proof.
  induction s as [|c s IH]; intros fuel at_ out Hs Hf; [destruct fuel; simpl; by rewrite app_nil_r|].
  apply Forall_cons in Hs as [Hc Hs]. change (as_bytes (c :: s)) with (utf8_encode c ++ as_bytes s) in *.
  destruct (utf8_next_encode c (as_bytes s) Hc) as (b0 & bs & Hb & Hnext). rewrite Hb in *. simpl in *.
  destruct fuel as [|fuel]; [lia|]. cbn [from_utf8_loop]. rewrite Hnext. simpl. rewrite drop_app_length.
  rewrite IH; [by rewrite <- app_assoc|done|len].
Qed.

Lemma from_utf8_as_bytes s : Forall scalar s → from_utf8 (as_bytes s) = Ok s.
Proof. intros Hs. by apply from_utf8_loop_ok. Qed.

Lemma as_bytes_ascii s : Forall (λ c, (c < 128)%N) s → as_bytes s = s.
Proof.
  induction 1 as [|c s Hc Hs IH]; [done|]. change (as_bytes (c :: s)) with (utf8_encode c ++ as_bytes s).
  rewrite IH. unfold utf8_encode. by rewrite (proj2 (N.ltb_lt c 128)).
Qed.

Lemma as_bytes_small s : Forall scalar s → Forall (λ b, (b ≤ 255)%N) (as_bytes s).
Proof.
  induction 1 as [|c s Hc Hs IH]; [constructor|]. change (as_bytes (c :: s)) with (utf8_encode c ++ as_bytes s).
  apply Forall_app. split; [by apply utf8_encode_bytes|done].
Qed.

Lemma first_non_ascii_None s i : Forall (λ c, (c < 128)%N) s → first_non_ascii i s = None.
Proof.
  revert i. induction s as [|c s IH]; intros i Hs; simpl; [done|]. apply Forall_cons in Hs as [Hc Hs].
  rewrite (proj2 (N.ltb_lt c 128)) by done. by apply IH.
Qed.

Lemma read_codes_ok encoding bytes : ∀ i acc,
  Forall (λ b, (Z.of_N b ≤ max_code encoding)%Z) bytes →
  read_codes encoding i ((λ b, VInt (Z.of_N b)) <$> bytes) acc = Ok (Ok (acc ++ bytes)).
Proof.
  induction bytes as [|b bytes IH]; intros i acc Hb; simpl; [by rewrite app_nil_r|].
  apply Forall_cons in Hb as [Hb Hbs]. rewrite decide_True by lia. rewrite IH by done.
  by rewrite N2Z.id, <- app_assoc.
Qed.

(** The bytes of a string in an encoding that can represent it. *)
Definition encodable (encoding : StringEncodingMode) (s : str) : Prop :=
  match encoding with Utf8 => Forall scalar s | Ascii => Forall (λ c, (c < 128)%N) s end.

Lemma encodable_bytes encoding s :
  encodable encoding s →
  Forall (λ b, (Z.of_N b ≤ max_code encoding)%Z) (as_bytes s) ∧ from_utf8 (as_bytes s) = Ok s.
Proof.
  destruct encoding; simpl; intros Hs; split.
  - eapply Forall_impl; [by apply as_bytes_small|]. simpl. lia.
  - by apply from_utf8_as_bytes.
  - rewrite as_bytes_ascii by done. eapply Forall_impl; [done|]. simpl. lia.
  - apply from_utf8_as_bytes. eapply Forall_impl; [done|]. unfold scalar. lia.
Qed.

Section roundtrip.
Context {K : Type} (depth : nat).

(** The value names the encoding in the registry of the program. *)
Definition names_encoding (vm : VM K) (value : Value) (encoding : StringEncodingMode) : Prop :=
  decode_string_encoding value vm = (vm, Ok encoding).

Lemma codepoints_ok (vm : VM K) s value encoding :
  names_encoding vm value encoding → encodable encoding s → (N.of_nat (length (as_bytes s)) ≤ usize_max)%N →
  ∃ l, builtin_codepoints depth [VStr s; value] vm = (vm, Ok (OComplete (ok_result (VList l)))) ∧
    ListHandle.wf l ∧ ListHandle.items l = (λ b, VInt (Z.of_N b)) <$> as_bytes s.
Proof.
  intros Henc Hs Hsz. destruct (ListHandle.from_items_ok ((λ b, VInt (Z.of_N b)) <$> as_bytes s)) as (l & Hl & Hwf & Hi).
  { by rewrite length_fmap. }
  exists l. split; [|done]. unfold builtin_codepoints, bindM. simpl. rewrite Henc. simpl.
  destruct encoding; simpl in Hs.
  - unfold complete_list, bindM, liftR. by rewrite Hl.
  - rewrite first_non_ascii_None by done. rewrite as_bytes_ascii in Hl by done.
    unfold complete_list, bindM, liftR. by rewrite Hl.
Qed.

Lemma from_codepoints_ok (vm : VM K) s value encoding (l : ListHandle Value) :
  names_encoding vm value encoding → encodable encoding s →
  ListHandle.wf l → ListHandle.items l = (λ b, VInt (Z.of_N b)) <$> as_bytes s →
  builtin_from_codepoints depth [VList l; value] vm = (vm, Ok (OComplete (ok_result (VStr s)))).
Proof.
  intros Henc Hs Hwf Hi. destruct (encodable_bytes encoding s Hs) as [Hb Hu].
  unfold builtin_from_codepoints, bindM. simpl. rewrite Henc. simpl.
  rewrite (ListHandle.to_vec_spec l Hwf), Hi. simpl. rewrite (read_codes_ok encoding _ 0 []) by done. simpl.
  by rewrite Hu.
Qed.

End roundtrip.

(** Every string survives the way through its code points: [from_codepoints] of
    [codepoints] is the string itself, for UTF-8 on every string and for ASCII on every
    ASCII string, with the machine unchanged. *)
Theorem codepoints_roundtrip {K : Type} (depth : nat) (vm : VM K) (s : str)
    (value : Value) (encoding : StringEncodingMode) :
  names_encoding vm value encoding → encodable encoding s → (N.of_nat (length (as_bytes s)) ≤ usize_max)%N →
  ∃ l, builtin_codepoints depth [VStr s; value] vm = (vm, Ok (OComplete (ok_result (VList l)))) ∧
    builtin_from_codepoints depth [VList l; value] vm = (vm, Ok (OComplete (ok_result (VStr s)))).
Proof.
  intros Henc Hs Hsz. destruct (codepoints_ok depth vm s value encoding Henc Hs Hsz) as (l & Hl & Hwf & Hi).
  exists l. split; [done|]. by apply (from_codepoints_ok depth vm s value encoding).
Qed.

(** A machine whose registry declares the encodings. *)
Definition encoding_registry : TypeRegistry :=
  match TypeRegistry.try_from_entries
    [mkTypeEntry 2 (lit "StringEncoding::Utf8") TkEnumVariant [] [];
     mkTypeEntry 3 (lit "StringEncoding::Ascii") TkEnumVariant [] []] with
  | Ok r => r
  | Err _ => TypeRegistry.new
  end.
Definition encoding_vm : VM unit :=
  mkVM (mkBytecode [] [] 0 encoding_registry [] [] [] [] None [] [] default_compile_info
          [] [] [] [] [] [] [] [] [] default_boot_plan)
    empty_exec 0 None None None (mkIoPolicy Passthrough Passthrough) None [] 0 None
    (ProcessRuntime.initial ProcessRuntime.sample_specs).

(** [h], [e] with an acute accent, the euro sign and an emoji: all four widths. *)
Definition sample_text : str := [104; 233; 8364; 128512]%N.

Lemma codepoints_roundtrip_witness :
  ∃ l, builtin_codepoints 0 [VStr sample_text; VTagged 2 [VInt 0]] encoding_vm
       = (encoding_vm, Ok (OComplete (ok_result (VList l)))) ∧
    builtin_from_codepoints 0 [VList l; VTagged 2 [VInt 0]] encoding_vm
    = (encoding_vm, Ok (OComplete (ok_result (VStr sample_text)))).
Proof.
  apply (codepoints_roundtrip 0 encoding_vm sample_text (VTagged 2 [VInt 0]) Utf8).
  - vm_compute. reflexivity.
  - unfold encodable, sample_text, scalar. repeat constructor; lia.
  - vm_compute. discriminate.
Defined.

End CodePoints.
