(* ===== verification/Random.v ===== *)
(** * The random generator ([builtin_random_*], [sample_biguint_below], [mix64] of [builtin.rs])

    A splitmix64 generator whose state is a value of the language, sampled by
    rejection: draw as many bytes as the bound has, mask the excess bits, retry
    until the candidate is below the bound.  All arithmetic is on 64-bit words.
    The theorem is that sampling a range of fewer than 2^64 integers ends, for
    every state of the generator, with a number of the range. *)

From S2P Require Import Prelude Names ListHandle Value TypeRegistry OperandStack Ir RuntimeError.
From S2P Require Import StringLiteral Display ErrorSchema ProcessRuntime Machine Scalars.

Module Random.
Import Machine Scalars.

Definition word : N := 18446744073709551616.
Definition GAMMA : N := 11400714819323198485.

Definition wrapping_add (a b : N) : N := ((a + b) `mod` word)%N.
Definition wrapping_mul (a b : N) : N := ((a * b) `mod` word)%N.

Definition mix64 (value : N) : N :=
  let value := wrapping_mul (N.lxor value (N.shiftr value 30)) 13787848793156543929 in
  let value := wrapping_mul (N.lxor value (N.shiftr value 27)) 10723151780598845931 in
  N.lxor value (N.shiftr value 31).

Definition random_next_u64 (rng : RandomGeneratorHandle) : N * RandomGeneratorHandle :=
  let next_state := wrapping_add (rg_state rng) GAMMA in
  (mix64 next_state, mkRandomGenerator next_state).

(** [BigInt::to_signed_bytes_le]: the shortest two's complement. *)
Definition magnitude_bits (n : Z) : Z :=
  let m := if decide (n < 0)%Z then Z.lnot n else n in
  if decide (m = 0)%Z then 0 else (Z.log2 m + 1)%Z.
Definition to_signed_bytes_le (n : Z) : list N :=
  (λ i, Z.to_N (Z.shiftr n (8 * Z.of_nat i) `mod` 256)) <$> seq 0 (Z.to_nat (magnitude_bits n / 8 + 1)).

Definition seed_to_state (seed : Z) : N :=
  foldl (λ state byte, mix64 (N.lxor state byte)) GAMMA (to_signed_bytes_le seed).

(** [u64::to_le_bytes] and [BigUint::from_bytes_le]. *)
Definition to_le_bytes (raw : N) : list N := (λ i, (N.shiftr raw (8 * N.of_nat i) `mod` 256)%N) <$> seq 0 8.
Definition from_bytes_le (bytes : list N) : N := foldr (λ b acc, (b + 256 * acc)%N) 0%N bytes.

(** [for chunk in bytes.chunks_mut(8)]: one draw per started group of eight bytes. *)
Fixpoint fill_bytes (chunks remaining : nat) (rng : RandomGeneratorHandle) : list N * RandomGeneratorHandle :=
  match chunks with
  | 0 => ([], rng)
  | S chunks' =>
      let '(raw, next_rng) := random_next_u64 rng in
      let '(rest, last_rng) := fill_bytes chunks' (remaining - 8) next_rng in
      (take remaining (to_le_bytes raw) ++ rest, last_rng)
  end.

(** [*last &= 0xff >> excess_bits]. *)
Definition mask_last (excess_bits : N) (bytes : list N) : list N :=
  alter (N.land (N.shiftr 255 excess_bits)) (length bytes - 1) bytes.

(** One turn of the loop of [sample_biguint_below]. *)
Definition draw (upper : N) (rng : RandomGeneratorHandle) : N * RandomGeneratorHandle :=
  let bit_len := N.size upper in
  let byte_len := N.to_nat ((bit_len + 7) / 8) in
  let '(bytes, rng) := fill_bytes ((byte_len + 7) / 8) byte_len rng in
  let excess_bits := ((8 - bit_len `mod` 8) `mod` 8)%N in
  (from_bytes_le (mask_last excess_bits bytes), rng).

Fixpoint sample_biguint_below (fuel : nat) (upper : N) (rng : RandomGeneratorHandle) : Run (N * RandomGeneratorHandle) :=
  match fuel with
  | 0 => Err PFuel
  | S fuel' =>
      let '(candidate, rng) := draw upper rng in
      if (candidate <? upper)%N then Ok (candidate, rng) else sample_biguint_below fuel' upper rng
  end.

Section random.
Context {K : Type} `{RustFmt} (depth fuel : nat).

Definition sample_random_int_range (first last : Z) (rng : RandomGeneratorHandle) : M K (Value * RandomGeneratorHandle) :=
  let range := (last - first)%Z in
  if decide (0 < range)%Z then
    let* '(offset, next_rng) := liftR (sample_biguint_below fuel (Z.to_N range) rng) in
    ret (VInt (first + Z.of_N offset), next_rng)
  else throw (lit "validated random range must be positive").

Definition builtin_random_seed (args : list Value) : M K Value :=
  let* a := arg args 0 in
  match a with
  | VInt seed => ret (VRandomGenerator (mkRandomGenerator (seed_to_state seed)))
  | _ => throw (lit "seed expects Int as seed")
  end.

(** The number and the next generator, for the checked bounds. *)
Definition next_in_range (first last : Z) (rng : RandomGeneratorHandle) : M K (BuiltinOutcome K) :=
  if decide (last ≤ first)%Z then language_error_result depth (lit "InvalidRandomRange") [VInt first; VInt last]
  else
    let* '(value, next_rng) := sample_random_int_range first last rng in
    complete (ok_result (VTuple [value; VRandomGenerator next_rng])).

Definition builtin_random_next_int_until (args : list Value) : M K (BuiltinOutcome K) :=
  let* a := arg args 0 in
  let* rng := decode_random_generator_arg a (lit "builtin_random_next_int_until") (lit "rng") in
  let* b := arg args 1 in
  match b with
  | VInt last => next_in_range 0 last rng
  | _ => throw (lit "builtin_random_next_int_until expects Int end")
  end.

Definition builtin_random_next_int_range (args : list Value) : M K (BuiltinOutcome K) :=
  let* a := arg args 0 in
  let* rng := decode_random_generator_arg a (lit "builtin_random_next_int_range") (lit "rng") in
  let* b := arg args 1 in
  let* c := arg args 2 in
  match b, c with
  | VInt first, VInt last => next_in_range first last rng
  | _, _ => throw (lit "builtin_random_next_int_range expects Int start/end")
  end.

End random.

(** ** Termination

    The state advances by an odd constant, so it visits every 64-bit word, zero among
    them; zero mixes to zero, and a candidate of zero is below every bound. *)

Definition GAMMA_INVERSE : N := 17428512612931826493.

Lemma gamma_inverse : wrapping_mul GAMMA GAMMA_INVERSE = 1%N.
Proof. vm_compute. reflexivity. Qed.

(** Zero is reached from every state. *)
Lemma reaches_zero (s : N) :
  (s < word)%N → ∃ k : nat, 0 < k ∧ ((s + N.of_nat k * GAMMA) `mod` word = 0)%N.
Proof.
  intros Hs. set (k0 := (((word - s) * GAMMA_INVERSE) `mod` word)%N).
  assert ((k0 * GAMMA) `mod` word = (word - s) `mod` word)%N as Hk.
  { unfold k0. rewrite N.Div0.mul_mod_idemp_l, <- N.mul_assoc, (N.mul_comm GAMMA_INVERSE).
    rewrite <- N.Div0.mul_mod_idemp_r. fold (wrapping_mul GAMMA GAMMA_INVERSE).
    by rewrite gamma_inverse, N.mul_1_r. }
  assert ((s + (k0 + word) * GAMMA) `mod` word = 0)%N as Hz.
  { rewrite N.mul_add_distr_r, N.add_assoc, (N.mul_comm word), N.Div0.mod_add.
    rewrite <- N.Div0.add_mod_idemp_r, Hk, N.Div0.add_mod_idemp_r.
    replace (s + (word - s))%N with word by lia. by rewrite N.Div0.mod_same. }
  exists (N.to_nat (k0 + word)). unfold word in *. split; [lia|]. by rewrite N2Nat.id.
Qed.

(** A bound of one word takes one draw. *)
Lemma draw_one upper rng :
  (0 < upper < word)%N →
  ∃ n m, draw upper rng
    = (from_bytes_le (mask_last m (take n (to_le_bytes (random_next_u64 rng).1) ++ [])), (random_next_u64 rng).2).
Proof.
  intros [H0 Hw]. unfold draw.
  assert (1 ≤ N.size upper ≤ 64)%N as Hsize.
  { rewrite N.size_log2 by lia. assert (N.log2 upper < 64)%N by (apply N.log2_lt_pow2; [done|exact Hw]). lia. }
  set (n := N.to_nat ((N.size upper + 7) / 8)).
  assert (1 ≤ n ≤ 8) as Hn.
  { unfold n. assert (1 ≤ (N.size upper + 7) / 8 ≤ 8)%N; [|lia].
    split; [apply N.div_le_lower_bound; lia|].
    apply (N.Div0.div_le_mono _ 71 8). lia. }
  assert ((n + 7) / 8 = 1) as ->.
  { symmetry. apply (Nat.div_unique (n + 7) 8 1 (n - 1)); lia. }
  exists n, ((8 - N.size upper `mod` 8) `mod` 8)%N. done.
Qed.

Lemma from_bytes_zeros n : from_bytes_le (replicate n 0%N) = 0%N.
Proof. induction n as [|n IH]; [done|]. simpl. by rewrite IH. Qed.

Lemma mask_zeros m n : mask_last m (replicate n 0%N) = replicate n 0%N.
Proof.
  unfold mask_last. apply list_eq. intros i. rewrite list_lookup_alter.
  destruct (decide (length (replicate n 0%N) - 1 = i)) as [->|]; [|done].
  destruct (replicate n 0%N !! i) as [x|] eqn:E; [|done].
  apply lookup_replicate in E as [-> _]. simpl. by rewrite N.land_0_r.
Qed.

Lemma draw_zero upper rng :
  (0 < upper < word)%N → rg_state (random_next_u64 rng).2 = 0%N → (draw upper rng).1 = 0%N.
Proof.
  intros Hu Hz. destruct (draw_one upper rng Hu) as (n & m & ->). simpl in *. rewrite Hz, app_nil_r.
  change (to_le_bytes (mix64 0)) with (replicate 8 0%N). rewrite take_replicate, mask_zeros. apply from_bytes_zeros.
Qed.

Lemma draw_state upper rng :
  (0 < upper < word)%N → rg_state (draw upper rng).2 = wrapping_add (rg_state rng) GAMMA.
Proof. intros Hu. by destruct (draw_one upper rng Hu) as (n & m & ->). Qed.

Lemma sample_ends upper k : ∀ rng,
  (0 < upper < word)%N → 0 < k → ((rg_state rng + N.of_nat k * GAMMA) `mod` word = 0)%N →
  ∃ c rng', (c < upper)%N ∧ ∀ fuel, k ≤ fuel → sample_biguint_below fuel upper rng = Ok (c, rng').
Proof.
  induction k as [|k IH]; intros rng Hu Hk Hz; [lia|].
  destruct (draw upper rng) as [c rng1] eqn:Hd.
  pose proof (draw_state upper rng Hu) as Hs. rewrite Hd in Hs. simpl in Hs.
  destruct (N.ltb_spec c upper) as [Hc|Hc].
  { exists c, rng1. split; [done|]. intros [|fuel] Hf; [lia|]. simpl. rewrite Hd. by rewrite (proj2 (N.ltb_lt _ _)). }
  destruct (decide (k = 0)) as [->|Hk0].
  { exfalso. assert (c = 0)%N as ->; [|lia]. pose proof (draw_zero upper rng Hu) as Hz0. rewrite Hd in Hz0. simpl in Hz0.
    apply Hz0. unfold wrapping_add. rewrite <- Hz. f_equal; lia. }
  destruct (IH rng1) as (c' & rng' & Hc' & Hrun); [done|lia| |].
  { rewrite Hs. unfold wrapping_add. rewrite N.Div0.add_mod_idemp_l, <- Hz. f_equal; lia. }
  exists c', rng'. split; [done|]. intros [|fuel] Hf; [lia|]. simpl. rewrite Hd.
  rewrite (proj2 (N.ltb_ge _ _)) by done. apply Hrun. lia.
Qed.

(** Sampling ends: for every state of the generator and every range of fewer than
    2^64 integers the rejection loop stops, after finitely many draws that depend only
    on the state and the range, with an integer of the range and the next generator. *)
Theorem random_range_total {K : Type} `{RustFmt} (depth : nat) (first last : Z) (rng : RandomGeneratorHandle) (vm : VM K) :
  (first < last)%Z → (last - first < Z.of_N word)%Z → (rg_state rng < word)%N →
  ∃ draws v rng', (first ≤ v < last)%Z ∧ ∀ fuel, draws ≤ fuel →
    builtin_random_next_int_range depth fuel [VRandomGenerator rng; VInt first; VInt last] vm
    = (vm, Ok (OComplete (ok_result (VTuple [VInt v; VRandomGenerator rng'])))).
Proof.
  intros Hlt Hw Hs. destruct (reaches_zero (rg_state rng) Hs) as (k & Hk & Hz).
  destruct (sample_ends (Z.to_N (last - first)) k rng) as (c & rng' & Hc & Hrun); [lia|done|done|].
  exists k, (first + Z.of_N c)%Z, rng'. split; [lia|]. intros fuel Hf.
  unfold builtin_random_next_int_range, next_in_range, sample_random_int_range, bindM. simpl.
  rewrite decide_False by lia. rewrite decide_True by lia. unfold liftR. rewrite (Hrun fuel Hf). done.
Qed.

Definition random_vm : VM unit :=
  mkVM (mkBytecode [] [] 0 TypeRegistry.new [] [] [] [] None [] [] default_compile_info
          [] [] [] [] [] [] [] [] [] default_boot_plan)
    empty_exec 0 None None None (mkIoPolicy Passthrough Passthrough) None [] 0 None
    (ProcessRuntime.initial ProcessRuntime.sample_specs).

(** A throw of a die with the generator seeded by 7. *)
Lemma random_range_total_witness : ∃ draws v rng', (1 ≤ v < 7)%Z ∧ ∀ fuel, draws ≤ fuel →
  builtin_random_next_int_range (H := Display.sample_fmt) 0 fuel [VRandomGenerator (mkRandomGenerator (seed_to_state 7)); VInt 1; VInt 7] random_vm
  = (random_vm, Ok (OComplete (ok_result (VTuple [VInt v; VRandomGenerator rng'])))).
Proof.
  apply (random_range_total (H := Display.sample_fmt) 0 1 7 (mkRandomGenerator (seed_to_state 7)) random_vm).
  - lia.
  - vm_compute. reflexivity.
  - vm_compute. reflexivity.
Defined.

End Random.
