(* ===== verification/Lifecycle.v ===== *)
(** * The life of a process ([crates/eldr/src/vm.rs], [vm/process_continuation.rs])

    A message to a process runs as an execution of its own, with a record in
    [executions]: the wrapper reads the state of the process once, runs the handler,
    switches to post-processing, and stores the next state or asks the process to
    stop.  When the last execution of a stopping process has finished, the process is
    reclaimed: it leaves the run queue, the waiting table, the child table of its
    supervisor and the worker sets.  Supervisors count and adopt workers; worker sets
    hand out their members in turn and refill themselves.

    Handler bindings (files that processes write to) are not part of the model: the
    processes here have none. *)

From S2P Require Import Prelude Names ListHandle Value TypeRegistry OperandStack Ir RuntimeError.
From S2P Require Import StringLiteral Display ErrorSchema ProcessRuntime Machine Opcodes Driver Scalars.

(** The continuations of [RuntimeContinuation] these operations create. *)
Class ProcessContinuations (K : Type) : Type := {
  k_refill : N → bool → K;
  k_process_await : FutureId → K;
  k_workers : str → str → Callable → WorkerStrategyState → list N → bool → K;
  k_broadcast : list PidHandle → Callable → option N → list Value → bool → K;
}.

#[export] Instance ProcessExecutionStage_eq_dec : EqDecision ProcessExecutionStage.
Proof. solve_decision. Defined.

#[export] Instance LifecycleSink_eq_dec : EqDecision LifecycleSink.
Proof. solve_decision. Defined.

Inductive WorkerStrategyDecodeError : Type :=
| StrategyInternal (message : str)
| StrategyOutOfRange (field : str) (value : Z).

Module Lifecycle.
Import Machine Driver Scalars.

Definition pid_id (pid : PidHandle) : N := pi_id (pid_identity pid).
Definition pid_process_name (pid : PidHandle) : str := pi_process_name (pid_identity pid).
Definition pid_kind (pid : PidHandle) : PidKind := pi_kind (pid_identity pid).

(** A [RuntimeTable] is iterated by ascending identifier. *)
Definition table_ids {A} (m : gmap N A) : list N := merge_sort N.le (map_to_list m).*1.

(** [i64 as usize]. *)
Definition as_usize (z : Z) : Z := z `mod` 2 ^ 64.

Definition target (s : WorkerStrategyState) : Z := match ws_scale s with ScaleFix size => size end.

(** ** Updates of the records *)

Definition set_stage (stage : ProcessExecutionStage) (x : ProcessExecutionRecord) : ProcessExecutionRecord :=
  mkExecution (pe_pid x) (pe_parent x) stage (pe_stored x) (pe_initial_state x) (pe_result_future x)
    (pe_internal_futures x) (pe_origin x).
Definition set_stored (x : ProcessExecutionRecord) : ProcessExecutionRecord :=
  mkExecution (pe_pid x) (pe_parent x) (pe_stage x) true (pe_initial_state x) (pe_result_future x)
    (pe_internal_futures x) (pe_origin x).
Definition take_initial_state (x : ProcessExecutionRecord) : ProcessExecutionRecord :=
  mkExecution (pe_pid x) (pe_parent x) (pe_stage x) (pe_stored x) None (pe_result_future x)
    (pe_internal_futures x) (pe_origin x).

Definition set_fu_owner (x : option N) (f : FutureRecord) : FutureRecord :=
  mkFuture (fu_id f) x (fu_state f) (fu_deadline_tick f) (fu_waiters f) (fu_cancel_on_timeout f)
    (fu_correlation_id f) (fu_creation_context f) (fu_error_generation_pending f) (fu_init_deadline_timeout f).
Definition set_fu_creation_context (x : Location * list RuntimeStackFrame) (f : FutureRecord) : FutureRecord :=
  mkFuture (fu_id f) (fu_owner f) (fu_state f) (fu_deadline_tick f) (fu_waiters f) (fu_cancel_on_timeout f)
    (fu_correlation_id f) (Some x) (fu_error_generation_pending f) (fu_init_deadline_timeout f).

Definition set_members (members : list N) (next_index : nat) (s : WorkerSetState) : WorkerSetState :=
  mkWorkerSet (wk_supervisor_name s) (wk_worker_process s) (wk_init_callable s) (wk_strategy s) (wk_target s)
    members next_index.

Section updates.
Context {C : Type}.
Implicit Types (p : ProcessInstance C) (r : ProcessRuntime C).

Definition set_pn_state (x : Value) p : ProcessInstance C :=
  mkProcess (pn_pid p) (pn_spec_id p) (pn_identity p) (pn_acceptance p) (pn_stop_reason p) (pn_status p)
    (pn_mailbox p) (pn_execution_context p) (Some x) (pn_owner p) (pn_lifecycle_sink p) false.
Definition set_pn_stopping (reason : option ProcessStopReason) p : ProcessInstance C :=
  mkProcess (pn_pid p) (pn_spec_id p) (pn_identity p) Stopping reason (pn_status p)
    (pn_mailbox p) (pn_execution_context p) (pn_state_value p) (pn_owner p) (pn_lifecycle_sink p)
    (pn_standby_state_pending p).
Definition set_pn_sink (x : LifecycleSink) p : ProcessInstance C :=
  mkProcess (pn_pid p) (pn_spec_id p) (pn_identity p) (pn_acceptance p) (pn_stop_reason p) (pn_status p)
    (pn_mailbox p) (pn_execution_context p) (pn_state_value p) (pn_owner p) (Some x)
    (pn_standby_state_pending p).

Definition set_next_pid (x : N) r : ProcessRuntime C :=
  mkRuntime (pr_current_tick_ms r) x (pr_next_future_id r) (pr_next_correlation_id r) (pr_spec_registry r)
    (pr_handler_contexts r) (pr_effective_supervisors r) (pr_singleton_by_name r) (pr_processes r) (pr_executions r)
    (pr_futures r) (pr_reply_table r) (pr_waiting_table r) (pr_deadline_queue r) (pr_run_queue r)
    (pr_output_events r) (pr_detached_tasks r) (pr_supervision r).
Definition set_detached_tasks (x : gmap N (DetachedTask C)) r : ProcessRuntime C :=
  mkRuntime (pr_current_tick_ms r) (pr_next_pid r) (pr_next_future_id r) (pr_next_correlation_id r) (pr_spec_registry r)
    (pr_handler_contexts r) (pr_effective_supervisors r) (pr_singleton_by_name r) (pr_processes r) (pr_executions r)
    (pr_futures r) (pr_reply_table r) (pr_waiting_table r) (pr_deadline_queue r) (pr_run_queue r)
    (pr_output_events r) x (pr_supervision r).
Definition set_supervision (f : SupervisionState → SupervisionState) r : ProcessRuntime C :=
  mkRuntime (pr_current_tick_ms r) (pr_next_pid r) (pr_next_future_id r) (pr_next_correlation_id r) (pr_spec_registry r)
    (pr_handler_contexts r) (pr_effective_supervisors r) (pr_singleton_by_name r) (pr_processes r) (pr_executions r)
    (pr_futures r) (pr_reply_table r) (pr_waiting_table r) (pr_deadline_queue r) (pr_run_queue r)
    (pr_output_events r) (pr_detached_tasks r) (f (pr_supervision r)).
End updates.

Definition set_child_table (x : gmap str (list N)) (s : SupervisionState) : SupervisionState :=
  mkSupervisionState (ss_next_workers_id s) (ss_next_detached_task_id s) (ss_next_execution_id s)
    (ss_refilling_worker_sets s) (ss_stopped_identities s) x (ss_worker_sets s).
Definition set_worker_sets (x : gmap N WorkerSetState) (s : SupervisionState) : SupervisionState :=
  mkSupervisionState (ss_next_workers_id s) (ss_next_detached_task_id s) (ss_next_execution_id s)
    (ss_refilling_worker_sets s) (ss_stopped_identities s) (ss_child_table s) x.
Definition set_stopped_identities (x : gmap N PidHandle) (s : SupervisionState) : SupervisionState :=
  mkSupervisionState (ss_next_workers_id s) (ss_next_detached_task_id s) (ss_next_execution_id s)
    (ss_refilling_worker_sets s) x (ss_child_table s) (ss_worker_sets s).
Definition set_refilling (x : gset N) (s : SupervisionState) : SupervisionState :=
  mkSupervisionState (ss_next_workers_id s) (ss_next_detached_task_id s) (ss_next_execution_id s)
    x (ss_stopped_identities s) (ss_child_table s) (ss_worker_sets s).
Definition set_next_task_id (x : N) (s : SupervisionState) : SupervisionState :=
  mkSupervisionState (ss_next_workers_id s) x (ss_next_execution_id s)
    (ss_refilling_worker_sets s) (ss_stopped_identities s) (ss_child_table s) (ss_worker_sets s).
Definition set_next_execution_id (x : N) (s : SupervisionState) : SupervisionState :=
  mkSupervisionState (ss_next_workers_id s) (ss_next_detached_task_id s) x
    (ss_refilling_worker_sets s) (ss_stopped_identities s) (ss_child_table s) (ss_worker_sets s).

Section lifecycle.
Context {K : Type} `{RustFmt} `{ProcessContinuations K}.
(** The nesting depth of the payloads of language errors, and whether a handle to the
    identity at an address is still held ([Rc::strong_count]). *)
Context (depth : nat) (held : N → bool).

Definition language_error (kind : str) (args : list Value) : M K (BuiltinOutcome K) :=
  language_error_outcome depth kind args (Some 1%N).
Definition vint (n : N) : Value := VInt (Z.of_N n).
Definition pid_args (pid : PidHandle) : list Value := [vint (pid_id pid); VStr (pid_process_name pid)].

Definition runtime : M K (ProcessRuntime (ExecutionContext K)) := gets vm_runtime.
Definition modify_supervision (f : SupervisionState → SupervisionState) : M K unit := modify_runtime (set_supervision f).
Definition set_execution (id : N) (record : ProcessExecutionRecord) : M K unit :=
  modify_runtime (λ rt, set_executions (<[id := record]> (pr_executions rt)) rt).
Definition current_process_execution : M K (option N) := gets (λ vm, ex_process (vm_exec vm)).

(** ** Executions of a process *)

Definition process_state (pid : PidHandle) : M K (BuiltinOutcome K) :=
  let* rt := runtime in
  match pr_processes rt !! pid_id pid with
  | None => language_error (lit "ProcessStateUnknownPid") (pid_args pid)
  | Some entry =>
      match ProcessRuntime.spec_for_id rt (pn_spec_id entry) with
      | None => throw (lit "process " ++ fmt_N (pn_pid entry) ++ lit " references unknown spec " ++ fmt_N (pn_spec_id entry))
      | Some spec =>
          if decide (rp_type_name spec ≠ pid_process_name pid) then
            language_error (lit "ProcessStatePidTypeMismatch")
              [vint (pid_id pid); VStr (rp_type_name spec); VStr (pid_process_name pid)]
          else if negb (same_identity (pn_identity entry) pid) then
            language_error (lit "ProcessStateUnknownPid") (pid_args pid)
          else
            let* current := current_process_execution in
            match current with
            | None => throw (lit "process state outside managed execution")
            | Some id =>
                let* record := ok_orM (pr_executions rt !! id) (lit "state from completed process execution") in
                if negb (same_identity (pe_pid record) pid) || negb (bool_decide (pe_stage record = Handling)) then
                  throw (lit "state requires matching wrapper execution")
                else
                  let* state := ok_orM (pe_initial_state record) (lit "wrapper initial state was already read") in
                  set_execution id (take_initial_state record) ;;
                  complete (ok_vm_result state)
            end
      end
  end.

Definition process_postprocess (pid : PidHandle) : M K Value :=
  let* current := current_process_execution in
  let* id := ok_orM current (lit "process postprocessing outside managed execution") in
  let* rt := runtime in
  let* record := ok_orM (pr_executions rt !! id) (lit "process postprocessing from completed execution") in
  if negb (same_identity (pe_pid record) pid) || negb (bool_decide (pe_stage record = Handling))
     || bool_decide (is_Some (pe_initial_state record)) then
    throw (lit "process postprocessing requires the matching handler after its initial state read")
  else
    set_execution id (set_stage Postprocessing record) ;;
    ret VUnit.

Definition process_store (pid : PidHandle) (next_state : Value) : M K (BuiltinOutcome K) :=
  let* rt := runtime in
  match pr_processes rt !! pid_id pid with
  | None => language_error (lit "ProcessStoreUnknownPid") (pid_args pid)
  | Some entry =>
      match ProcessRuntime.spec_for_id rt (pn_spec_id entry) with
      | None => throw (lit "process " ++ fmt_N (pid_id pid) ++ lit " references unknown spec " ++ fmt_N (pn_spec_id entry))
      | Some spec =>
          if decide (rp_type_name spec ≠ pid_process_name pid) then
            language_error (lit "ProcessStorePidTypeMismatch")
              [vint (pid_id pid); VStr (rp_type_name spec); VStr (pid_process_name pid)]
          else if negb (same_identity (pn_identity entry) pid) then
            language_error (lit "ProcessStoreUnknownPid") (pid_args pid)
          else
            let* current := current_process_execution in
            let* id := ok_orM current (lit "process store outside managed execution") in
            let* record := ok_orM (pr_executions rt !! id) (lit "process store from completed execution") in
            if negb (same_identity (pe_pid record) pid) || negb (bool_decide (pe_stage record = Postprocessing))
               || pe_stored record then
              throw (lit "process store requires the matching unsaved postprocessing execution")
            else
              set_execution id (set_stored record) ;;
              update_process (pid_id pid) (set_pn_state next_state) ;;
              complete (ok_vm_result VUnit)
      end
  end.

Definition request_process_stop (pid : PidHandle) (reason : ProcessStopReason) : M K unit :=
  let* current := current_process_execution in
  let* id := ok_orM current (lit "process stop outside managed execution") in
  let* rt := runtime in
  let* record := ok_orM (pr_executions rt !! id) (lit "process stop from completed execution") in
  if negb (same_identity (pe_pid record) pid) || negb (bool_decide (pe_stage record = Postprocessing)) then
    throw (lit "process stop requires matching postprocessing execution")
  else
    let* entry := ok_orM (pr_processes rt !! pid_id pid) (lit "process stop lost live body") in
    match pn_acceptance entry with
    | Stopping => ret tt
    | Accepting =>
        update_process (pid_id pid) (set_pn_stopping (Some reason)) ;;
        match pn_mailbox entry with
        | [] => ret tt
        | _ => throw (lit "process mailbox has no dispatch contract")
        end
    end.

Definition decode_vm_result (value : Value) (builtin_name arg_name : str) : Result RuntimeError (Result RichError Value) :=
  match value with
  | VTagged 0 [inner] => Ok (Ok inner)
  | VTagged 0 fields =>
      Err (RuntimeError.new (builtin_name ++ lit " expects Ok with exactly one field for " ++ arg_name ++ lit ", got "
             ++ fmt_nat (length fields)))
  | VTagged 1 [VError rich] => Ok (Err rich)
  | VTagged 1 [other] =>
      Err (RuntimeError.new (builtin_name ++ lit " expects Err(Error) for " ++ arg_name ++ lit ", got Err("
             ++ debug_value other ++ lit ")"))
  | VTagged 1 fields =>
      Err (RuntimeError.new (builtin_name ++ lit " expects Err with exactly one field for " ++ arg_name ++ lit ", got "
             ++ fmt_nat (length fields)))
  | other =>
      Err (RuntimeError.new (builtin_name ++ lit " expects Result as " ++ arg_name ++ lit ", got " ++ debug_value other))
  end.

(** Store the state, and answer with [value] when that went well. *)
Definition store_then (builtin_name : str) (pid : PidHandle) (next_state value : Value) : M K (BuiltinOutcome K) :=
  let* outcome := process_store pid next_state in
  match outcome with
  | OComplete stored =>
      let* decoded := liftE (decode_vm_result stored builtin_name (lit "state store")) in
      match decoded with
      | Err error => complete (err_vm_result error)
      | Ok _ => complete (ok_vm_result value)
      end
  | error => ret error
  end.
Definition genserver_call_reply (pid : PidHandle) (next_state reply : Value) : M K (BuiltinOutcome K) :=
  store_then (lit "__genserver_call_reply") pid next_state reply.
Definition genserver_cast_next (pid : PidHandle) (next_state : Value) : M K (BuiltinOutcome K) :=
  store_then (lit "__genserver_cast_next") pid next_state VUnit.
Definition genserver_call_stop_normal (pid : PidHandle) (reply : Value) : M K Value :=
  request_process_stop pid StopNormal ;; ret (ok_vm_result reply).
Definition genserver_call_stop_error (pid : PidHandle) (err : RichError) : M K Value :=
  request_process_stop pid (StopError err) ;; ret (err_vm_result err).
Definition genserver_cast_stop_normal (pid : PidHandle) : M K Value :=
  request_process_stop pid StopNormal ;; ret (ok_vm_result VUnit).
Definition genserver_cast_stop_error (pid : PidHandle) (err : RichError) : M K Value :=
  request_process_stop pid (StopError err) ;; ret (ok_vm_result VUnit).

(** ** Identities and tasks *)

Definition upgrade (identity : PidHandle) : option PidHandle :=
  if held (pid_ptr identity) then Some identity else None.

Definition sweep_stopped_identities : M K unit :=
  modify_supervision (λ s, set_stopped_identities (filter (λ '(_, i), held (pid_ptr i) = true) (ss_stopped_identities s)) s).

Definition stopped_identity_matches (rt : ProcessRuntime (ExecutionContext K)) (pid : PidHandle) : bool :=
  match ss_stopped_identities (pr_supervision rt) !! pid_id pid ≫= upgrade with
  | Some identity => same_identity identity pid
  | None => false
  end.

Definition process_handle (id : N) : M K PidHandle :=
  let* rt := runtime in
  ok_orM (pn_identity <$> pr_processes rt !! id) (lit "process " ++ fmt_N id ++ lit " has no live identity").

Definition register_runtime_task (owner_pid : option N) (state : DetachedTaskState (ExecutionContext K))
    (completion : DetachedCompletion) : M K N :=
  let* rt := runtime in
  let id := ss_next_detached_task_id (pr_supervision rt) in
  modify_supervision (set_next_task_id (id + 1)%N) ;;
  modify_runtime (λ rt, set_detached_tasks
    (<[id := mkDetached owner_pid state completion false false]> (pr_detached_tasks rt)) rt) ;;
  ret id.

Definition schedule_future_error (future_id : FutureId) (kind : str) (args : list Value) : M K unit :=
  let* rt := runtime in
  match pr_futures rt !! future_id with
  | None => ret tt
  | Some f =>
      if negb (ProcessRuntime.is_running f) || fu_error_generation_pending f then ret tt
      else
        let f' := mkFuture (fu_id f) (fu_owner f) (fu_state f) None (fu_waiters f) false None
                    (fu_creation_context f) true (fu_init_deadline_timeout f) in
        modify_runtime (λ rt,
          let rt := set_futures (<[future_id := f']> (pr_futures rt)) rt in
          let rt := match fu_correlation_id f with
                    | Some correlation => set_reply_table (delete correlation (pr_reply_table rt)) rt
                    | None => rt
                    end in
          set_deadline_queue (List.filter (λ e, negb (bool_decide (de_future_id e = future_id))) (pr_deadline_queue rt)) rt) ;;
        let* outcome := attempt
          (match fu_creation_context f with
           | Some (location, trace) => language_error_outcome_at depth kind args (Some 1%N) location trace
           | None => throw (lit "future Error generation has no creation context")
           end) in
        let context := standalone_builtin_context (OComplete VUnit) in
        let context := mkContext (set_pending (Some (map_result_ok InvBuiltin outcome)) (ctx_exec context))
                         (ctx_pc context) (ctx_target context) in
        let* _ := register_runtime_task None (TaskRunnable context) (CompErrorFuture future_id) in
        ret tt
  end.

Definition resolve_future_process_down (future_id : FutureId) (pid : N) : M K unit :=
  schedule_future_error future_id (lit "ProcessReplyTargetStopped") [vint future_id; vint pid].

(** Every task of the process is cancelled and left to unwind. *)
Definition cancel_task (task : DetachedTask (ExecutionContext K)) : DetachedTask (ExecutionContext K) :=
  let state :=
    match dk_state task with
    | TaskRunnable context => TaskRunnable (cancel_execution_context (RuntimeError.new (lit "process stopped")) context)
    | TaskWaiting future_id (Some context) =>
        TaskWaiting future_id (Some (cancel_execution_context (RuntimeError.new (lit "process stopped")) context))
    | TaskWaiting _ None => TaskRunnable (standalone_builtin_context (OComplete VUnit))
    end in
  mkDetached (dk_owner_pid task) state (dk_completion task) (dk_started task) true.
Definition remove_process_detached_tasks (pid : N) : M K unit :=
  modify_runtime (λ rt, set_detached_tasks
    ((λ task, if decide (dk_owner_pid task = Some pid) then cancel_task task else task) <$> pr_detached_tasks rt) rt).

Fixpoint for_eachM {A} (f : A → M K unit) (l : list A) : M K unit :=
  match l with
  | [] => ret tt
  | x :: l' => f x ;; for_eachM f l'
  end.

Definition executions_of (rt : ProcessRuntime (ExecutionContext K)) (pid : N) : list ProcessExecutionRecord :=
  List.filter (λ record, bool_decide (pid_id (pe_pid record) = pid))
    (omap (λ id, pr_executions rt !! id) (table_ids (pr_executions rt))).

Definition abort_process_executions (pid : N) : M K (list FutureId) :=
  let* rt := runtime in
  let* _ := ok_orM (pr_processes rt !! pid) (lit "aborted process has no body") in
  update_process pid (λ p, set_pn_stopping (pn_stop_reason p) p) ;;
  let replies := pe_result_future <$> executions_of rt pid in
  for_eachM (λ future, resolve_future_process_down future pid) replies ;;
  remove_process_detached_tasks pid ;;
  ret replies.

(** ** Supervisors *)

Definition add_supervisor_child (supervisor_name : str) (pid : N) : M K unit :=
  modify_supervision (λ s,
    let children := from_option id [] (ss_child_table s !! supervisor_name) in
    set_child_table (<[supervisor_name := if decide (pid ∈ children) then children else children ++ [pid]]>
                       (ss_child_table s)) s).

Definition without (pid : N) (l : list N) : list N := List.filter (λ x, negb (bool_decide (x = pid))) l.

Definition remove_supervisor_child (supervisor_name : str) (pid : N) : M K unit :=
  modify_supervision (λ s, set_child_table (alter (without pid) supervisor_name (ss_child_table s)) s).

Definition is_live_status (status : ProcessStatus) : bool :=
  match status with Runnable | Waiting _ => true | _ => false end.

Definition is_adoptable_worker (rt : ProcessRuntime (ExecutionContext K)) (entry : ProcessInstance (ExecutionContext K)) : bool :=
  match ProcessRuntime.spec_for_id rt (pn_spec_id entry) with
  | None => false
  | Some spec =>
      is_live_status (pn_status entry)
      && match pn_acceptance entry with Accepting => true | Stopping => false end
      && match rp_instance spec with WorkerInstance => true | SingletonInstance => false end
  end.

Definition unique_live_supervisor_child_count (rt : ProcessRuntime (ExecutionContext K)) (supervisor_name : str) : nat :=
  match ss_child_table (pr_supervision rt) !! supervisor_name with
  | None => 0
  | Some children =>
      size (list_to_set (C := gset N)
        (List.filter (λ pid, match pr_processes rt !! pid with
                             | Some entry => is_live_status (pn_status entry)
                             | None => false
                             end) children))
  end.

Definition effective_supervisor_policy (supervisor_name : str) : M K RuntimeSupervisorPolicy :=
  let* bc := gets vm_bytecode in
  let* rt := runtime in
  match List.find (λ entry, bool_decide (sve_process_name entry = supervisor_name))
          (reverse (bp_supervisor_overrides (runtime_boot_plan bc))) with
  | Some override => ret (sve_policy override)
  | None => ok_orM (pr_effective_supervisors rt !! supervisor_name)
              (lit "unknown supervisor `" ++ supervisor_name ++ lit "`")
  end.

Definition supervisor_adopt (supervisor_name : str) (pid : PidHandle) : M K (BuiltinOutcome K) :=
  let* policy := effective_supervisor_policy supervisor_name in
  let* rt := runtime in
  let worker_args := [VStr supervisor_name; vint (pid_id pid); VStr (pid_process_name pid)] in
  let unknown := language_error (lit "SupervisorAdoptUnknownPid")
                   [vint (pid_id pid); VStr (pid_process_name pid); VStr supervisor_name] in
  if negb (sv_allow_adopt policy) then language_error (lit "SupervisorAdoptForbidden") [VStr supervisor_name]
  else if stopped_identity_matches rt pid then language_error (lit "SupervisorAdoptWorkerNotLive") worker_args
  else
    match pr_processes rt !! pid_id pid with
    | None => unknown
    | Some entry =>
        if negb (same_identity (pn_identity entry) pid) then unknown
        else if negb (is_adoptable_worker rt entry) then
          let* spec := ok_orM (ProcessRuntime.spec_for_id rt (pn_spec_id entry)) (lit "adopt process references unknown spec") in
          language_error
            (match rp_instance spec with
             | SingletonInstance => lit "SupervisorAdoptNonWorker"
             | WorkerInstance => lit "SupervisorAdoptWorkerNotLive"
             end) worker_args
        else
          match pn_lifecycle_sink entry with
          | Some (SinkSupervisor old) =>
              if decide (old = supervisor_name) then ret tt else remove_supervisor_child old (pid_id pid)
          | None => ret tt
          end ;;
          update_process (pid_id pid) (set_pn_sink (SinkSupervisor supervisor_name)) ;;
          add_supervisor_child supervisor_name (pid_id pid) ;;
          complete (ok_vm_result VUnit)
    end.

Definition supervisor_shutdown_timeout_value (timeout_ms : option N) : M K Value :=
  let* registry := gets (λ vm, type_registry (vm_bytecode vm)) in
  let* none_tag := ok_orM (TypeRegistry.tag_by_name registry (lit "Option::None"))
                     (lit "Option::None type is not registered for SupervisorStatus") in
  let* some_tag := ok_orM (TypeRegistry.tag_by_name registry (lit "Option::Some"))
                     (lit "Option::Some type is not registered for SupervisorStatus") in
  match timeout_ms with
  | Some ms =>
      let* duration_tag := ok_orM (TypeRegistry.tag_by_name registry (lit "Duration"))
                             (lit "Duration type is not registered for SupervisorStatus") in
      ret (VTagged some_tag [VInt 0; VTagged duration_tag [vint ms]])
  | None => ret (VTagged none_tag [VInt 1])
  end.

Definition supervisor_status (supervisor_name : str) : M K Value :=
  let* policy := effective_supervisor_policy supervisor_name in
  let* rt := runtime in
  let child_count := unique_live_supervisor_child_count rt supervisor_name in
  let* shutdown_timeout := supervisor_shutdown_timeout_value (sv_shutdown_timeout_ms policy) in
  let* registry := gets (λ vm, type_registry (vm_bytecode vm)) in
  let* tag := ok_orM (TypeRegistry.tag_by_name registry (lit "SupervisorStatus"))
                (lit "SupervisorStatus type is not registered") in
  ret (ok_vm_result (VTagged tag
    [VStr (from_option id supervisor_name (strip_prefix (lit "Global::") supervisor_name));
     VInt (Z.of_nat child_count); VStr (sv_strategy policy); vint (sv_max_restarts policy);
     vint (sv_max_seconds policy); VBool (sv_allow_adopt policy); shutdown_timeout])).

(** [PidHandle::new] allocates the identity at [address]. *)
Definition allocate_process_instance (address : N) (name : str) (state : option Value) (owner : option N)
    (lifecycle_sink : option LifecycleSink) : M K N :=
  let* rt := runtime in
  let* spec_id := ok_orM (sr_spec_id_by_name (pr_spec_registry rt) !! name)
                    (lit "unknown process spec `" ++ name ++ lit "` during allocation") in
  let pid := pr_next_pid rt in
  if decide (u64_max < pid + 1)%N then throw (lit "process identity allocator exhausted")
  else
    modify_runtime (set_next_pid (pid + 1)%N) ;;
    sweep_stopped_identities ;;
    let* spec := liftR (expect (ProcessRuntime.spec_for_id rt spec_id)) in
    let standby_state_pending :=
      match in_policy (rp_init spec) with PolicyStandby => true | PolicyEager => false end
      && match state with None => true | Some _ => false end in
    let kind := match rp_instance spec with SingletonInstance => PkSingleton | WorkerInstance => PkWorker end in
    let process := mkProcess pid spec_id (mkPid address (mkPidIdentity pid name kind)) Accepting None Runnable [] None
                     state owner lifecycle_sink standby_state_pending in
    modify_runtime (λ rt, set_processes (<[pid := process]> (pr_processes rt)) rt) ;;
    ret pid.

Definition allocate_supervised_worker (address : N) (name : str) (state : option Value) (supervisor_name : str) : M K N :=
  let* pid := allocate_process_instance address name state None (Some (SinkSupervisor supervisor_name)) in
  let* rt := runtime in
  match pr_processes rt !! pid ≫= pn_lifecycle_sink with
  | Some (SinkSupervisor supervisor_name) => add_supervisor_child supervisor_name pid
  | None => ret tt
  end ;;
  ret pid.

(** ** Worker sets *)

Definition unknown_workers (handle : WorkersHandle) : str :=
  lit "unknown workers handle " ++ fmt_N (wh_id handle) ++ lit " for " ++ wh_process_name handle.

Definition workers_size (handle : WorkersHandle) : M K Value :=
  let* rt := runtime in
  let* state := ok_orM (ss_worker_sets (pr_supervision rt) !! wh_id handle) (unknown_workers handle) in
  ret (VInt (Z.of_nat (length (wk_members state)))).

(** [for offset in 0..len]: the first member that accepts, from [next_index] on. *)
Fixpoint find_worker (processes : gmap N (ProcessInstance (ExecutionContext K))) (state : WorkerSetState)
    (offset remaining : nat) : Try RuntimeError (option (nat * PidHandle)) :=
  match remaining with
  | 0 => Ok None
  | S remaining' =>
      let i := (wk_next_index state + offset) `mod` length (wk_members state) in
      let? member_id := lift_run (index (wk_members state) i) in
      let? process := lift_res (ok_or (processes !! member_id)
                        (RuntimeError.new (lit "worker pid " ++ fmt_N member_id ++ lit " is not registered"))) in
      if negb (bool_decide (pid_kind (pn_identity process) = PkWorker))
         || negb (bool_decide (pid_process_name (pn_identity process) = wk_worker_process state)) then
        fail (RuntimeError.new (lit "Workers member identity does not match worker set"))
      else
        match pn_acceptance process with
        | Accepting => Ok (Some (i, pn_identity process))
        | Stopping => find_worker processes state (S offset) remaining'
        end
  end.

Definition set_worker_set (workers_id : N) (state : WorkerSetState) : M K unit :=
  modify_supervision (λ s, set_worker_sets (<[workers_id := state]> (ss_worker_sets s)) s).

Definition next_workers_pid (handle : WorkersHandle) : M K (option PidHandle) :=
  let* rt := runtime in
  let* state := ok_orM (ss_worker_sets (pr_supervision rt) !! wh_id handle) (unknown_workers handle) in
  if decide (wk_worker_process state ≠ wh_process_name handle) then throw (lit "workers handle process type mismatch")
  else
    let len := length (wk_members state) in
    let* found := (λ vm, (vm, find_worker (pr_processes rt) state 0 len)) in
    match found with
    | Some (i, pid) =>
        set_worker_set (wh_id handle) (set_members (wk_members state) ((i + 1) `mod` len) state) ;;
        ret (Some pid)
    | None => ret None
    end.

Definition workers_unavailable (handle : WorkersHandle) : M K (BuiltinOutcome K) :=
  language_error (lit "WorkersUnavailable") [vint (wh_id handle); VStr (wh_process_name handle)].

Definition workers_reserve (handle : WorkersHandle) : M K (BuiltinOutcome K) :=
  let* found := next_workers_pid handle in
  match found with
  | None => workers_unavailable handle
  | Some pid => complete (ok_vm_result (VWorkerLease (mkWorkerLease (wh_id handle) pid)))
  end.

Definition refill_worker_set (workers_id : N) : M K unit :=
  let* rt := runtime in
  if decide (workers_id ∈ ss_refilling_worker_sets (pr_supervision rt)) then ret tt
  else
    modify_supervision (λ s, set_refilling ({[workers_id]} ∪ ss_refilling_worker_sets s) s) ;;
    let* _ := register_runtime_task None
                (TaskRunnable (standalone_builtin_context (OResume (KOther (k_refill workers_id false)))))
                (CompFuture None) in
    ret tt.

(** One set of the loop of [remove_worker_from_sets], and whether it needs a refill. *)
Definition drop_worker (pid : N) (state : WorkerSetState) : WorkerSetState * bool :=
  let members := without pid (wk_members state) in
  let next_index := if decide (length members ≤ wk_next_index state) then 0 else wk_next_index state in
  (set_members members next_index state,
   negb (bool_decide (length members = length (wk_members state)))
   && bool_decide (Z.of_nat (length members) < as_usize (wk_target state))%Z).

Definition worker_set_affected (pid : N) (state : WorkerSetState) : bool :=
  bool_decide (pid ∈ wk_members state)
  || bool_decide (wk_next_index state ≠ 0 ∧ length (wk_members state) ≤ wk_next_index state).

Fixpoint drop_worker_loop (pid : N) (ids : list N) (sets : gmap N WorkerSetState) : Run (gmap N WorkerSetState * list N) :=
  match ids with
  | [] => Ok (sets, [])
  | id :: ids' =>
      let? state := expect (sets !! id) in
      let '(state', refill) := drop_worker pid state in
      let? '(sets', refills) := drop_worker_loop pid ids' (<[id := state']> sets) in
      Ok (sets', if (refill : bool) then id :: refills else refills)
  end.

Definition remove_worker_from_sets (pid : N) : M K unit :=
  let* rt := runtime in
  let sets := ss_worker_sets (pr_supervision rt) in
  let changed_ids := List.filter (λ id, match sets !! id with
                                        | Some state => worker_set_affected pid state
                                        | None => false
                                        end) (table_ids sets) in
  let* '(sets', refill_ids) := liftR (drop_worker_loop pid changed_ids sets) in
  modify_supervision (set_worker_sets sets') ;;
  for_eachM refill_worker_set refill_ids.

(** ** The end of a process *)

Definition reclaim_stopped_process (pid : N) : M K unit :=
  let* rt := runtime in
  let* entry := ok_orM (pr_processes rt !! pid) (lit "stopped process body disappeared before reclamation") in
  modify_runtime (λ rt, set_processes (delete pid (pr_processes rt)) rt) ;;
  modify_supervision (λ s, set_stopped_identities (<[pid := pn_identity entry]> (ss_stopped_identities s)) s) ;;
  modify_runtime (λ rt, set_run_queue (without pid (pr_run_queue rt)) rt) ;;
  modify_runtime (λ rt, set_waiting_table (delete pid (pr_waiting_table rt)) rt) ;;
  match pn_lifecycle_sink entry with
  | Some (SinkSupervisor name) => remove_supervisor_child name pid
  | None => ret tt
  end ;;
  modify_runtime (λ rt, set_futures ((λ f, if decide (fu_owner f = Some pid) then set_fu_owner None f else f)
                                       <$> pr_futures rt) rt) ;;
  remove_worker_from_sets pid ;;
  sweep_stopped_identities.

Definition finish_process_execution (id : N) : M K unit :=
  let* rt := runtime in
  let* record := ok_orM (pr_executions rt !! id) (lit "process execution finished twice or disappeared") in
  modify_runtime (λ rt, set_executions (delete id (pr_executions rt)) rt) ;;
  let pid := pid_id (pe_pid record) in
  for_eachM (λ future, modify_runtime (ProcessRuntime.forget_internal_future future)) (pe_internal_futures record) ;;
  let* rt := runtime in
  let stopping := match pr_processes rt !! pid with
                  | Some entry => match pn_acceptance entry with Stopping => true | Accepting => false end
                  | None => false
                  end in
  if stopping && bool_decide (executions_of rt pid = []) then reclaim_stopped_process pid else ret tt.

(** ** Starting *)

Section starting.
Context `{BuiltinTable}.

(** [context.current_process_execution = id]. *)
Definition set_process_execution (id : option N) (context : ExecutionContext K) : ExecutionContext K :=
  let e := ctx_exec context in
  mkContext (mkExec (ex_stack e) (ex_frames e) (ex_breadcrumbs e) (ex_continuations e) (ex_pending e) (ex_cancellation e)
               id (ex_bindings e)) (ctx_pc context) (ctx_target context).

Definition start_process_execution_at (pid : PidHandle) (body : Callable)
    (origin : Location * list RuntimeStackFrame) : M K (BuiltinOutcome K) :=
  let error kind args := language_error_outcome_at depth kind args (Some 1%N) origin.1 origin.2 in
  if decide (pid_kind pid = PkHandler) then throw (lit "handler capability is not a process destination")
  else
    let* rt := runtime in
    let entry := pr_processes rt !! pid_id pid in
    let actual := match entry with
                  | Some entry => Some (pn_identity entry)
                  | None => ss_stopped_identities (pr_supervision rt) !! pid_id pid ≫= upgrade
                  end in
    match actual with
    | None => error (lit "ProcessStateUnknownPid") (pid_args pid)
    | Some actual =>
        if decide (pid_process_name actual ≠ pid_process_name pid ∨ pid_kind actual ≠ pid_kind pid) then
          error (lit "ProcessStatePidTypeMismatch")
            [vint (pid_id pid); VStr (pid_process_name actual); VStr (pid_process_name pid)]
        else if negb (same_identity actual pid) then error (lit "ProcessStateUnknownPid") (pid_args pid)
        else if stopped_identity_matches rt pid
                || match entry with
                   | Some entry => match pn_acceptance entry with Stopping => true | Accepting => false end
                   | None => false
                   end
        then error (lit "ProcessStopped") (pid_args pid)
        else
          let* entry := ok_orM entry (lit "accepting process has no live body") in
          match pn_state_value entry with
          | None =>
              if pn_standby_state_pending entry then
                λ vm, (vm, fail (RuntimeError.with_kind (lit "process execution before initialization completed") ProcessInitFailed))
              else error (lit "ProcessStateUnavailable") (pid_args pid)
          | Some initial_state =>
              let id := ss_next_execution_id (pr_supervision rt) in
              if decide (u64_max < id + 1)%N then throw (lit "process execution allocator exhausted")
              else
                modify_supervision (set_next_execution_id (id + 1)%N) ;;
                let* future := gets (λ vm, (ProcessRuntime.allocate_future (Some (pid_id pid)) None false (vm_runtime vm)).1) in
                modify_runtime (λ rt, (ProcessRuntime.allocate_future (Some (pid_id pid)) None false rt).2) ;;
                modify_runtime (λ rt, set_futures (alter (set_fu_creation_context origin) future (pr_futures rt)) rt) ;;
                let* context := prepare_invocation_context (InvCallable body []) in
                let* parent := current_process_execution in
                set_execution id (mkExecution pid parent Handling false (Some initial_state) future [] origin) ;;
                let* _ := register_runtime_task (Some (pid_id pid)) (TaskRunnable (set_process_execution (Some id) context))
                            (CompProcess id false) in
                ret (OWait future (KOther (k_process_await future)))
          end
    end.

End starting.

(** ** Creating worker sets *)

Definition runtime_type_named (actual expected : str) : bool :=
  let actual := from_option id actual (strip_prefix (lit "Global::") actual) in
  bool_decide (actual = expected)
  || match strip_prefix (reverse expected) (reverse actual) with
     | Some prefix => ends_with (reverse prefix) (lit "::")
     | None => false
     end.

Definition worker_strategy_field (entry : TypeEntry) (fields : list Value) (name : str) : option Value :=
  '(i, _) ← list_find (λ field, field = name) (te_field_names entry); fields !! i.

(** [BigInt::to_i64]. *)
Definition to_i64 (n : Z) : option Z := if decide (- 2 ^ 63 ≤ n < 2 ^ 63)%Z then Some n else None.

Definition worker_strategy_int_field (entry : TypeEntry) (fields : list Value) (name : str) : Result WorkerStrategyDecodeError Z :=
  match worker_strategy_field entry fields name with
  | Some (VInt value) => ok_or (to_i64 value) (StrategyOutOfRange name value)
  | _ => Err (StrategyInternal (lit "worker strategy missing Int field `" ++ name ++ lit "`"))
  end.

Definition decode_worker_scale (registry : TypeRegistry) (value : Value) : Result WorkerStrategyDecodeError WorkerScaleState :=
  match value with
  | VTagged tag fields =>
      let? entry := ok_or (TypeRegistry.lookup registry tag) (StrategyInternal (lit "worker scale has unknown runtime tag")) in
      if negb (runtime_type_named (te_name entry) (lit "WorkerScale::Fix")) then
        Err (StrategyInternal (lit "worker scale must be WorkerScale::Fix"))
      else
        match fields !! 1 with
        | Some (VInt size) =>
            let? size := ok_or (to_i64 size) (StrategyOutOfRange (lit "Fix size") size) in
            Ok (ScaleFix size)
        | _ => Err (StrategyInternal (lit "WorkerScale::Fix must contain an Int size"))
        end
  | _ => Err (StrategyInternal (lit "worker scale must be WorkerScale::Fix"))
  end.

Definition decode_worker_strategy (registry : TypeRegistry) (value : Value) : Result WorkerStrategyDecodeError WorkerStrategyState :=
  match value with
  | VTagged tag fields =>
      let? entry := ok_or (TypeRegistry.lookup registry tag) (StrategyInternal (lit "worker strategy has unknown runtime tag")) in
      if negb (runtime_type_named (te_name entry) (lit "WorkerStrategy")) then
        Err (StrategyInternal (lit "worker strategy must be a WorkerStrategy value"))
      else
        let? init := worker_strategy_int_field entry fields (lit "init") in
        let? min := worker_strategy_int_field entry fields (lit "min") in
        let? max := worker_strategy_int_field entry fields (lit "max") in
        let? scale_value := ok_or (worker_strategy_field entry fields (lit "scale"))
                              (StrategyInternal (lit "worker strategy missing scale")) in
        let? scale := decode_worker_scale registry scale_value in
        Ok (mkStrategy init min max scale)
  | _ => Err (StrategyInternal (lit "worker strategy must be a WorkerStrategy value"))
  end.

Definition start_supervisor_workers (supervisor process_name : str) (init : Callable) (strategy_value : Value) :
    M K (BuiltinOutcome K) :=
  let* registry := gets (λ vm, type_registry (vm_bytecode vm)) in
  match decode_worker_strategy registry strategy_value with
  | Err (StrategyInternal message) => throw message
  | Err (StrategyOutOfRange field value) => language_error (lit "WorkerStrategyFieldOutOfRange") [VStr field; VInt value]
  | Ok strategy =>
      let target := target strategy in
      if decide (ws_init strategy ≠ target) then
        language_error (lit "WorkerStrategyInitTargetMismatch") [VInt (ws_init strategy); VInt target]
      else if decide (ws_min strategy < 0 ∨ target < ws_min strategy ∨ ws_max strategy < target)%Z then
        language_error (lit "WorkerStrategyBoundsInvalid") [VInt (ws_min strategy); VInt target; VInt (ws_max strategy)]
      else ret (OResume (KOther (k_workers supervisor process_name init strategy [] false)))
  end.

Definition broadcast_member (rt : ProcessRuntime (ExecutionContext K)) (handle : WorkersHandle) (id : N) :
    Result RuntimeError PidHandle :=
  let? process := ok_or (pr_processes rt !! id) (RuntimeError.new (lit "worker " ++ fmt_N id ++ lit " has no process state")) in
  let? spec := ok_or (ProcessRuntime.spec_for_id rt (pn_spec_id process))
                 (RuntimeError.new (lit "worker " ++ fmt_N id ++ lit " has no process spec")) in
  if decide (rp_type_name spec ≠ wh_process_name handle ∨ pid_kind (pn_identity process) ≠ PkWorker) then
    Err (RuntimeError.new (lit "broadcast member identity does not match worker set"))
  else Ok (pn_identity process).

Definition start_workers_broadcast (handle : WorkersHandle) (message : Callable) (timeout_ms : option N) : M K (BuiltinOutcome K) :=
  let* rt := runtime in
  let* state := ok_orM (ss_worker_sets (pr_supervision rt) !! wh_id handle) (unknown_workers handle) in
  let accepting := List.filter (λ id, match pr_processes rt !! id with
                                      | Some entry => match pn_acceptance entry with Accepting => true | Stopping => false end
                                      | None => true
                                      end) (wk_members state) in
  let* members := liftE (map_result (broadcast_member rt handle) accepting) in
  ret (OResume (KOther (k_broadcast members message timeout_ms [] false))).

End lifecycle.

End Lifecycle.
