(* ===== verification/ExecutionProps.v ===== *)
(** * Executions and worker sets behave ([Lifecycle.v])

    - an execution follows its protocol: read the state once, post-process, store at
      most once, and nothing else;
    - worker sets hand out their members in turn. *)

From S2P Require Import Prelude Names ListHandle Value TypeRegistry OperandStack Ir RuntimeError.
From S2P Require Import StringLiteral Display ErrorSchema ProcessRuntime Machine Opcodes Driver Scalars Lifecycle.

Module ExecutionProps.
Import Machine Driver Scalars Lifecycle.

(** ** The protocol of an execution *)

Inductive Phase : Type :=
| PhFresh
| PhRead
| PhPost (stored : bool).

Inductive Action : Type :=
| AState
| APostprocess
| AStore (next_state : Value)
| AStop (reason : ProcessStopReason).

(** What an execution may do, and in which order. *)
Definition phase_step (ph : Phase) (a : Action) : option Phase :=
  match ph, a with
  | PhFresh, AState => Some PhRead
  | PhRead, APostprocess => Some (PhPost false)
  | PhPost false, AStore _ => Some (PhPost true)
  | PhPost b, AStop _ => Some (PhPost b)
  | _, _ => None
  end.

Fixpoint phase_run (ph : Phase) (acts : list Action) : option Phase :=
  match acts with
  | [] => Some ph
  | a :: acts' => ph' ← phase_step ph a; phase_run ph' acts'
  end.

(** The answers of the actions, and the state the process is left with. *)
Definition answer (initial : Value) (a : Action) : Value :=
  match a with
  | AState => ok_vm_result initial
  | APostprocess => VUnit
  | AStore _ => ok_vm_result VUnit
  | AStop _ => VUnit
  end.
Definition stored_state (state : option Value) (a : Action) : option Value :=
  match a with AStore v => Some v | _ => state end.

Section protocol.
Context {K : Type} (depth : nat).

(** An action as the builtins perform it; an outcome that is not complete is a
    language error about the handle. *)
Definition perform (pid : PidHandle) (a : Action) : M K Value :=
  let completed (m : M K (BuiltinOutcome K)) : M K Value :=
    let* outcome := m in
    match outcome with OComplete v => ret v | _ => throw (lit "language error") end in
  match a with
  | AState => completed (process_state depth pid)
  | APostprocess => process_postprocess pid
  | AStore v => completed (process_store depth pid v)
  | AStop reason => request_process_stop pid reason ;; ret VUnit
  end.

Fixpoint perform_all (pid : PidHandle) (acts : list Action) : M K (list Value) :=
  match acts with
  | [] => ret []
  | a :: acts' =>
      let* v := perform pid a in
      let* vs := perform_all pid acts' in
      ret (v :: vs)
  end.

Definition in_phase (initial : Value) (ph : Phase) (record : ProcessExecutionRecord) : Prop :=
  match ph with
  | PhFresh => pe_stage record = Handling ∧ pe_initial_state record = Some initial
  | PhRead => pe_stage record = Handling ∧ pe_initial_state record = None
  | PhPost stored => pe_stage record = Postprocessing ∧ pe_stored record = stored
  end ∧ (pe_stage record = Handling → pe_stored record = false).

(** The machine runs execution [id] of the live process behind [pid]. *)
Definition managed (pid : PidHandle) (id : N) (initial : Value) (ph : Phase) (state : option Value) (vm : VM K) : Prop :=
  ex_process (vm_exec vm) = Some id ∧
  (∃ record, pr_executions (vm_runtime vm) !! id = Some record ∧
     same_identity (pe_pid record) pid = true ∧ in_phase initial ph record) ∧
  (∃ entry spec, pr_processes (vm_runtime vm) !! pid_id pid = Some entry ∧
     same_identity (pn_identity entry) pid = true ∧
     ProcessRuntime.spec_for_id (vm_runtime vm) (pn_spec_id entry) = Some spec ∧
     rp_type_name spec = pid_process_name pid ∧ pn_mailbox entry = [] ∧ pn_state_value entry = state).

(** Nothing but the execution and its process has changed. *)
Definition isolated (pid : PidHandle) (id : N) (vm vm' : VM K) : Prop :=
  (∀ q, q ≠ pid_id pid → pr_processes (vm_runtime vm') !! q = pr_processes (vm_runtime vm) !! q) ∧
  (∀ i, i ≠ id → pr_executions (vm_runtime vm') !! i = pr_executions (vm_runtime vm) !! i).

Lemma isolated_refl pid id (vm : VM K) : isolated pid id vm vm.
Proof. done. Qed.
Lemma isolated_trans pid id (a b c : VM K) : isolated pid id a b → isolated pid id b c → isolated pid id a c.
Proof. intros [H1 H2] [H3 H4]. split; intros ? Hne; [by rewrite H3, H1|by rewrite H4, H2]. Qed.

Lemma managed_execution pid id initial ph ph' state record record' vm :
  managed pid id initial ph state vm →
  pr_executions (vm_runtime vm) !! id = Some record → pe_pid record' = pe_pid record → in_phase initial ph' record' →
  let vm' := set_runtime (set_executions (<[id := record']> (pr_executions (vm_runtime vm))) (vm_runtime vm)) vm in
  managed pid id initial ph' state vm' ∧ isolated pid id vm vm'.
Proof.
  intros (Hid & (record0 & Hrec & Hsame & _) & Hproc) Hrec' Hp Hph. simplify_eq. split.
  - split_and!; [done| |exact Hproc]. exists record'. simpl. by rewrite lookup_insert_eq, Hp.
  - split; intros q Hq; simpl; [done|by rewrite lookup_insert_ne].
Qed.

Lemma managed_process pid id initial ph state f g vm :
  managed pid id initial ph state vm →
  (∀ e, pn_identity (f e) = pn_identity e ∧ pn_spec_id (f e) = pn_spec_id e ∧ pn_mailbox (f e) = pn_mailbox e ∧
     pn_state_value (f e) = g (pn_state_value e)) →
  let vm' := set_runtime (set_processes (alter f (pid_id pid) (pr_processes (vm_runtime vm))) (vm_runtime vm)) vm in
  managed pid id initial ph (g state) vm' ∧ isolated pid id vm vm'.
Proof.
  intros (Hid & Hexec & (entry & spec & Hent & Hsame & Hspec & Hname & Hbox & Hval)) Hf.
  destruct (Hf entry) as (Hi & Hs & Hm & Hv). split.
  - split_and!; [done|exact Hexec|]. exists (f entry), spec. simpl.
    by rewrite lookup_alter_eq, Hent, Hi, Hs, Hm, Hv, Hval.
  - split; intros q Hq; simpl; [by rewrite lookup_alter_ne|done].
Qed.

Ltac known :=
  repeat match goal with
    | H : ?x = Some _ |- context [?x] => rewrite H; simpl
    | H : same_identity ?a ?b = true |- context [same_identity ?a ?b] => rewrite H; simpl
    | H : pe_stage ?r = _ |- context [pe_stage ?r] => rewrite H; simpl
    | H : pe_stored ?r = _ |- context [pe_stored ?r] => rewrite H; simpl
    | H : pe_initial_state ?r = _ |- context [pe_initial_state ?r] => rewrite H; simpl
    | H : pn_mailbox ?r = [] |- context [pn_mailbox ?r] => rewrite H; simpl
    | H : rp_type_name ?s = pid_process_name ?p |- context [decide (rp_type_name ?s ≠ pid_process_name ?p)] =>
        rewrite (decide_False (P := rp_type_name s ≠ pid_process_name p)) by (intros Hne; exact (Hne H)); simpl
    end.

Lemma perform_stop pid id initial b state reason vm :
  managed pid id initial (PhPost b) state vm →
  ∃ vm', perform pid (AStop reason) vm = (vm', Ok VUnit) ∧
    managed pid id initial (PhPost b) state vm' ∧ isolated pid id vm vm'.
Proof.
  intros Hm. pose proof Hm as (Hid & (record & Hrec & Hsame & [Hstage _] & _) & (entry & spec & Hent & _ & _ & _ & Hbox & _)).
  unfold perform, request_process_stop, runtime, current_process_execution, bindM, gets. simpl. known.
  destruct (pn_acceptance entry); simpl; known; (eexists; split; [reflexivity|]).
  - by apply (managed_process _ _ _ _ _ (set_pn_stopping (Some reason)) (λ x, x) _ Hm).
  - by split.
Qed.

Lemma perform_store pid id initial state v vm :
  managed pid id initial (PhPost false) state vm →
  ∃ vm', perform pid (AStore v) vm = (vm', Ok (ok_vm_result VUnit)) ∧
    managed pid id initial (PhPost true) (Some v) vm' ∧ isolated pid id vm vm'.
Proof.
  intros Hm. pose proof Hm as (Hid & (record & Hrec & Hsame & [Hstage Hstored] & _) &
    (entry & spec & Hent & Hsame' & Hspec & Hname & _ & _)).
  unfold perform, process_store, runtime, current_process_execution, bindM, gets. simpl. known.
  eexists. split; [reflexivity|].
  destruct (managed_execution _ _ _ _ (PhPost true) _ record (set_stored record) _ Hm Hrec) as [Hm1 Hi1];
    [done|by split; [|simpl; rewrite Hstage]|].
  destruct (managed_process _ _ _ _ _ (set_pn_state v) (λ _, Some v) _ Hm1) as [Hm2 Hi2]; [done|].
  split; [exact Hm2|exact (isolated_trans _ _ _ _ _ Hi1 Hi2)].
Qed.

Lemma perform_step pid id initial ph state a vm :
  managed pid id initial ph state vm →
  match phase_step ph a with
  | Some ph' => ∃ vm', perform pid a vm = (vm', Ok (answer initial a)) ∧
      managed pid id initial ph' (stored_state state a) vm' ∧ isolated pid id vm vm'
  | None => ∃ e, perform pid a vm = (vm, fail e)
  end.
Proof.
  intros Hm. destruct (decide (is_Some (phase_step ph a))) as [[ph' Hstep]|Hno].
  2:{ destruct (phase_step ph a) eqn:E; [by destruct Hno|]. clear Hno. revert Hm E.
      intros (Hid & (record & Hrec & Hsame & Hph & Hst) & (entry & spec & Hent & Hsame' & Hspec & Hname & _ & _)) E.
      unfold perform, process_state, process_postprocess, process_store, request_process_stop, runtime,
        current_process_execution, bindM, gets.
      destruct ph as [| |[]]; destruct Hph as [Hstage Hrest]; destruct a; simplify_eq/=; known; by eexists. }
  destruct ph as [| |[]], a; simplify_eq/=;
    try (by apply perform_stop); pose proof Hm as
    (Hid & (record & Hrec & Hsame & [Hstage Hrest] & Hst) & (entry & spec & Hent & Hsame' & Hspec & Hname & _ & _)).
  - unfold process_state, runtime, current_process_execution, bindM, gets. simpl. known.
    eexists. split; [reflexivity|]. eapply managed_execution; [exact Hm|exact Hrec|done|by split; [|auto]].
  - unfold process_postprocess, runtime, current_process_execution, bindM, gets. simpl. known.
    eexists. split; [reflexivity|]. eapply managed_execution; [exact Hm|exact Hrec|done|].
    by split; [split; [|auto]|].
  - exact (perform_store pid id initial state next_state vm Hm).
Qed.
End protocol.

(** C12: An execution of a process follows its protocol.  Whatever sequence of requests the
    code of a handler makes, it succeeds exactly when it reads the state first, once, then
    switches to post-processing, and from there stores a state at most once and asks to
    stop any number of times.  The state read is the one the execution started with, the
    process is left with the state that was stored, no other process or execution is
    touched, and a sequence out of order fails at its first misplaced request. *)
Theorem execution_protocol {K : Type} (depth : nat) (pid : PidHandle) (id : N) (initial : Value) (acts : list Action)
    (ph : Phase) (state : option Value) (vm : VM K) :
  managed pid id initial ph state vm →
  match phase_run ph acts with
  | Some ph' => ∃ vm', perform_all depth pid acts vm = (vm', Ok (answer initial <$> acts)) ∧
      managed pid id initial ph' (foldl stored_state state acts) vm' ∧ isolated pid id vm vm'
  | None => ∃ vm' e, perform_all depth pid acts vm = (vm', fail e) ∧ isolated pid id vm vm'
  end.
Proof.
  revert ph state vm. induction acts as [|a acts IH]; intros ph state vm Hm; simpl.
  { exists vm. split; [done|]. split; [done|]. apply isolated_refl. }
  pose proof (perform_step depth pid id initial ph state a vm Hm) as Hstep. unfold bindM.
  destruct (phase_step ph a) as [ph1|]; simpl.
  - destruct Hstep as (vm1 & Hrun & Hm1 & Hi1). rewrite Hrun. specialize (IH ph1 _ vm1 Hm1).
    destruct (phase_run ph1 acts) as [ph'|].
    + destruct IH as (vm' & Hall & Hm' & Hi'). exists vm'. rewrite Hall.
      split; [done|]. split; [done|]. by apply (isolated_trans _ _ _ vm1).
    + destruct IH as (vm' & e & Hall & Hi'). exists vm', e. rewrite Hall.
      split; [done|]. by apply (isolated_trans _ _ _ vm1).
  - destruct Hstep as (e & Hrun). rewrite Hrun. exists vm, e. split; [done|]. apply isolated_refl.
Qed.

(** ** Worker sets serve in turn *)

Section workers.
Context {K : Type} (depth : nat) (handle : WorkersHandle) (set : WorkerSetState) (pids : list PidHandle) (vm : VM K).

(** A member that can be handed out, and its identity. *)
Definition ready (rt : ProcessRuntime (ExecutionContext K)) (member : N) (pid : PidHandle) : Prop :=
  ∃ p, pr_processes rt !! member = Some p ∧ pn_identity p = pid ∧ pid_kind pid = PkWorker ∧
    pid_process_name pid = wk_worker_process set ∧ pn_acceptance p = Accepting.

Definition lease (pid : PidHandle) : BuiltinOutcome K :=
  OComplete (ok_vm_result (VWorkerLease (mkWorkerLease (wh_id handle) pid))).

Fixpoint reserve_times (n : nat) : M K (list (BuiltinOutcome K)) :=
  match n with
  | 0 => ret []
  | S n' =>
      let* outcome := workers_reserve depth handle in
      let* outcomes := reserve_times n' in
      ret (outcome :: outcomes)
  end.

Definition with_cursor (c : nat) : VM K :=
  set_runtime (set_supervision (λ s, set_worker_sets
    (<[wh_id handle := set_members (wk_members set) c set]> (ss_worker_sets s)) s) (vm_runtime vm)) vm.

Context (Hname : wk_worker_process set = wh_process_name handle).
Context (Hready : Forall2 (ready (vm_runtime vm)) (wk_members set) pids).

Lemma reserve_one c :
  c < length pids →
  ∃ pid, pids !! c = Some pid ∧
    workers_reserve depth handle (with_cursor c) = (with_cursor ((c + 1) `mod` length pids), Ok (lease pid)).
Proof using Hname Hready.
  intros Hc. pose proof (Forall2_length _ _ _ Hready) as Hlen.
  destruct (lookup_lt_is_Some_2 pids c Hc) as [pid Hpid].
  destruct (Forall2_lookup_r _ _ _ _ _ Hready Hpid) as (member & Hm & p & Hp & Hi & Hk & Hn & Ha).
  exists pid. split; [done|]. unfold workers_reserve, next_workers_pid, runtime, bindM. simpl.
  rewrite lookup_insert_eq. simpl. rewrite decide_False by (intros Hne; by apply Hne). rewrite Hlen.
  assert (find_worker (pr_processes (vm_runtime vm)) (set_members (wk_members set) c set) 0 (length pids)
          = Ok (Some (c, pid))) as ->.
  { destruct (length pids) as [|n] eqn:En; [lia|]. cbn [find_worker].
    cbn [wk_members wk_next_index set_members]. rewrite Hlen, Nat.add_0_r, Nat.mod_small by lia. unfold index. rewrite Hm. simpl.
    rewrite Hp. simpl. rewrite Hi, bool_decide_true, bool_decide_true by done. simpl. by rewrite Ha, <- Hi. }
  unfold complete, with_cursor, set_worker_set, modify_supervision, modify_runtime, modify, set_supervision, set_worker_sets,
    set_members, lease, ret. simpl. by rewrite insert_insert_eq.
Qed.

Lemma reserve_times_spec n : ∀ c,
  c < length pids →
  ∃ served, length served = n ∧ (∀ j, j < n → served !! j = pids !! ((c + j) `mod` length pids)) ∧
    reserve_times n (with_cursor c) = (with_cursor ((c + n) `mod` length pids), Ok (lease <$> served)).
Proof using Hname Hready.
  induction n as [|n IH]; intros c Hc.
  { exists []. split; [done|]. split; [lia|]. by rewrite Nat.add_0_r, Nat.mod_small. }
  destruct (reserve_one c Hc) as (pid & Hpid & Hone).
  destruct (IH ((c + 1) `mod` length pids)) as (served & Hl & Hserved & Hrun); [apply Nat.mod_upper_bound; lia|].
  assert (∀ j, ((c + 1) `mod` length pids + j) `mod` length pids = (c + S j) `mod` length pids) as Hmod.
  { intros j. rewrite Nat.Div0.add_mod_idemp_l. f_equal. lia. }
  exists (pid :: served). split; [simpl; lia|]. split.
  - intros [|j] Hj; simpl.
    + by rewrite Nat.add_0_r, Nat.mod_small, Hpid.
    + by rewrite Hserved, Hmod by lia.
  - cbn [reserve_times]. unfold bindM. by rewrite Hone, Hrun, Hmod.
Qed.

Lemma served_rotation c served :
  c < length pids → length served = length pids →
  (∀ j, j < length pids → served !! j = pids !! ((c + j) `mod` length pids)) → served = drop c pids ++ take c pids.
Proof using Type.
  intros Hc Hl Hs. apply list_eq. intros j. destruct (decide (j < length pids)) as [Hj|Hj].
  2:{ rewrite !lookup_ge_None_2; [done|rewrite length_app, length_drop, length_take; lia|lia]. }
  rewrite Hs by done. destruct (decide (c + j < length pids)) as [Hlt|Hge].
  - rewrite lookup_app_l by (rewrite length_drop; lia). by rewrite lookup_drop, Nat.mod_small.
  - rewrite lookup_app_r by (rewrite length_drop; lia). rewrite length_drop, lookup_take_lt by lia.
    f_equal. symmetry. apply (Nat.mod_unique _ _ 1); lia.
Qed.
End workers.

(** Worker sets serve in turn.  When every member of a set accepts messages, as many
    reservations as the set has members hand out every member exactly once, from the
    cursor on and around, and leave the machine as it was, cursor included: no worker is
    starved and none is preferred. *)
Theorem workers_round_robin {K : Type} (depth : nat) (handle : WorkersHandle) (set : WorkerSetState)
    (pids : list PidHandle) (vm : VM K) :
  ss_worker_sets (pr_supervision (vm_runtime vm)) !! wh_id handle = Some set →
  wk_worker_process set = wh_process_name handle → wk_next_index set < length (wk_members set) →
  Forall2 (ready set (vm_runtime vm)) (wk_members set) pids →
  reserve_times depth handle (length pids) vm
  = (vm, Ok (lease handle <$> (drop (wk_next_index set) pids ++ take (wk_next_index set) pids))).
Proof.
  intros Hset Hname Hc Hready. rewrite (Forall2_length _ _ _ Hready) in Hc.
  assert (with_cursor handle set vm (wk_next_index set) = vm) as Hvm.
  { unfold with_cursor. replace (set_members (wk_members set) (wk_next_index set) set) with set by (by destruct set).
    unfold set_supervision. rewrite insert_id by done.
    by destruct vm as [? ? ? ? ? ? ? ? ? ? ? [? ? ? ? ? ? ? ? ? ? ? ? ? ? ? ? ? []]]. }
  destruct (reserve_times_spec depth handle set pids vm Hname Hready (length pids) _ Hc) as (served & Hl & Hs & Hrun).
  rewrite Hvm in Hrun. rewrite Hrun, <- (served_rotation pids _ served Hc Hl Hs).
  replace ((wk_next_index set + length pids) `mod` length pids) with (wk_next_index set); [by rewrite Hvm|].
  apply (Nat.mod_unique _ _ 1); lia.
Qed.

(** ** Samples *)

Definition worker_spec : RuntimeProcessSpec :=
  mkProcessSpec 0 (lit "Worker") PkGenServer WorkerInstance (mkTypeRef (lit "Int"))
    (mkInitSpec 0 PolicyEager (EagerState (mkTypeRef (lit "Int"))) (mkTypeRef (lit "Int")) None) [] []
    (mkLifecycle None None None) (mkSupervision None [] None).
Definition worker_specs : ProcessSpecRegistry :=
  mkSpecRegistry [worker_spec] {[lit "Worker" := 0%N]} {[lit "Worker" := worker_spec]} ∅ ∅.
Definition supervisor_policy : RuntimeSupervisorPolicy := mkSupervisorPolicy (lit "one_for_one") 3 5 (lit "permanent") true None.

Definition no_continuations : ProcessContinuations unit :=
  {| k_refill _ _ := tt; k_process_await _ := tt; k_workers _ _ _ _ _ _ := tt; k_broadcast _ _ _ _ _ := tt |}.

Definition sample_vm (process_execution : option N) (rt : ProcessRuntime (ExecutionContext unit)) : VM unit :=
  mkVM (mkBytecode [] [] 0 TypeRegistry.new [] [] [] [] None [] [] default_compile_info [] [] [] [] [] [] [] [] []
          (mkBootPlan None [] [] [] [mkSupervisorOverride (lit "Pool") supervisor_policy] default_limits))
    (mkExec OperandStack.stack_default [] [] [] None None process_execution None)
    0 None None None (mkIoPolicy Passthrough Passthrough) None [] 0 None rt.

(** Process [id] of type [Worker], with its identity at the address [id + 100]. *)
Definition worker_pid (id : N) : PidHandle := mkPid (id + 100) (mkPidIdentity id (lit "Worker") PkWorker).
Definition worker (id : N) (acceptance : ProcessAcceptance) : ProcessInstance (ExecutionContext unit) :=
  mkProcess id 0 (worker_pid id) acceptance None Runnable [] None (Some (VInt 1)) None None false.
Definition sample_record : ProcessExecutionRecord :=
  mkExecution (worker_pid 7) None Handling false (Some (VInt 1)) 0 [] (mkLocation [] [] 0 0 0 0, []).

Definition with_processes (ps : gmap N (ProcessInstance (ExecutionContext unit))) : ProcessRuntime (ExecutionContext unit) :=
  set_next_pid 10 (set_processes ps (ProcessRuntime.initial worker_specs)).
Definition executing_vm : VM unit :=
  sample_vm (Some 5%N) (set_executions {[5%N := sample_record]} (with_processes {[7%N := worker 7 Accepting]})).

(** Reading, post-processing, storing and asking to stop. *)
Lemma execution_protocol_witness :
  let acts := [AState; APostprocess; AStore (VInt 2); AStop StopNormal] in
  managed (worker_pid 7) 5 (VInt 1) PhFresh (Some (VInt 1)) executing_vm ∧
  ∃ vm', perform_all 0 (worker_pid 7) acts executing_vm
         = (vm', Ok [ok_vm_result (VInt 1); VUnit; ok_vm_result VUnit; VUnit]) ∧
    managed (worker_pid 7) 5 (VInt 1) (PhPost true) (Some (VInt 2)) vm' ∧
    isolated (worker_pid 7) 5 executing_vm vm'.
Proof.
  assert (managed (worker_pid 7) 5 (VInt 1) PhFresh (Some (VInt 1)) executing_vm) as Hm.
  { split; [reflexivity|]. split.
    - exists sample_record. repeat split; reflexivity.
    - exists (worker 7 Accepting), worker_spec. repeat split; reflexivity. }
  split; [exact Hm|].
  exact (execution_protocol 0 (worker_pid 7) 5 (VInt 1) [AState; APostprocess; AStore (VInt 2); AStop StopNormal]
           PhFresh (Some (VInt 1)) executing_vm Hm).
Defined.

Definition pool : WorkerSetState :=
  mkWorkerSet (lit "Pool") (lit "Worker") (mkCallable (CtFunction 0) [] default_metadata)
    (mkStrategy 3 0 3 (ScaleFix 3)) 3 [1; 2; 3]%N 1.
Definition pool_vm : VM unit :=
  sample_vm None
    (set_supervision (set_worker_sets {[9%N := pool]})
       (with_processes (list_to_map ((λ id, (id, worker id Accepting)) <$> [1; 2; 3]%N)))).

(** A set of three whose cursor is at the second member. *)
Lemma workers_round_robin_witness :
  Forall2 (ready pool (vm_runtime pool_vm)) [1; 2; 3]%N (worker_pid <$> [1; 2; 3]%N) ∧
  drop 1 (worker_pid <$> [1; 2; 3]%N) ++ take 1 (worker_pid <$> [1; 2; 3]%N) = worker_pid <$> [2; 3; 1]%N ∧
  reserve_times 0 (mkWorkers 9 (lit "Worker")) (length (worker_pid <$> [1; 2; 3]%N)) pool_vm
  = (pool_vm, Ok (lease (mkWorkers 9 (lit "Worker"))
                    <$> (drop 1 (worker_pid <$> [1; 2; 3]%N) ++ take 1 (worker_pid <$> [1; 2; 3]%N)))).
Proof.
  assert (Forall2 (ready pool (vm_runtime pool_vm)) [1; 2; 3]%N (worker_pid <$> [1; 2; 3]%N)) as Hready.
  { repeat constructor; eexists; repeat split; reflexivity. }
  split; [exact Hready|]. split; [reflexivity|].
  apply (workers_round_robin 0 (mkWorkers 9 (lit "Worker")) pool (worker_pid <$> [1; 2; 3]%N) pool_vm).
  - reflexivity.
  - reflexivity.
  - simpl. lia.
  - exact Hready.
Defined.

End ExecutionProps.
