(* ===== verification/SupervisionProps.v ===== *)
(** * The books of supervision ([Lifecycle.v])

    - the child tables of the supervisors list exactly the processes they supervise,
      after any sequence of operations, failed ones included;
    - a process whose last execution has finished leaves no trace. *)

From S2P Require Import Prelude Names ListHandle Value TypeRegistry OperandStack Ir RuntimeError.
From S2P Require Import StringLiteral Display ErrorSchema ProcessRuntime Machine Opcodes Driver Scalars Lifecycle ExecutionProps.

Module SupervisionProps.
Import Machine Driver Scalars Lifecycle ExecutionProps.

(** ** The tables of supervision *)

Definition children (s : SupervisionState) (name : str) : list N := from_option id [] (ss_child_table s !! name).

(** The invariant, on the supervisors of the live processes, the next identifier and
    the tables: the child tables list exactly the supervised processes, without
    duplicates; identifiers are never reused; cursors point into their sets. *)
Record wf_core (sinks : gmap N (option LifecycleSink)) (next : N) (s : SupervisionState) : Prop := mk_wf_core {
  wc_children : ∀ name pid, pid ∈ children s name ↔ sinks !! pid = Some (Some (SinkSupervisor name));
  wc_nodup : ∀ name, NoDup (children s name);
  wc_fresh : ∀ pid, is_Some (sinks !! pid) → (pid < next)%N;
  wc_stopped : ∀ pid, is_Some (ss_stopped_identities s !! pid) → sinks !! pid = None ∧ (pid < next)%N;
  wc_cursor : ∀ i set, ss_worker_sets s !! i = Some set →
    wk_next_index set = 0 ∨ wk_next_index set < length (wk_members set);
}.

Lemma elem_of_without (pid q : N) (l : list N) : q ∈ without pid l ↔ q ∈ l ∧ q ≠ pid.
Proof.
  unfold without. rewrite list_elem_of_In, filter_In, <- list_elem_of_In, negb_true_iff, bool_decide_eq_false. done.
Qed.
Lemma NoDup_without pid l : NoDup l → NoDup (without pid l).
Proof. unfold without. rewrite !NoDup_ListNoDup. apply List.NoDup_filter. Qed.

Lemma children_insert s name name' l :
  children (set_child_table (<[name := l]> (ss_child_table s)) s) name' = if decide (name' = name) then l else children s name'.
Proof.
  unfold children. simpl. case_decide as Hn; [subst; by rewrite lookup_insert_eq|by rewrite lookup_insert_ne].
Qed.
Lemma children_alter s name name' f :
  f [] = [] →
  children (set_child_table (alter f name (ss_child_table s)) s) name'
  = if decide (name' = name) then f (children s name') else children s name'.
Proof.
  intros Hf. unfold children. simpl. case_decide as Hn; [|by rewrite lookup_alter_ne].
  subst. rewrite lookup_alter_eq. by destruct (ss_child_table s !! name).
Qed.

(** Adding a process, supervised or not. *)
Lemma core_add (sinks : gmap N (option LifecycleSink)) next s :
  wf_core sinks next s → wf_core (<[next := None]> sinks) (next + 1) s.
Proof.
  intros Hw. assert (sinks !! next = None) as Hnone.
  { destruct (sinks !! next) eqn:E; [|done]. pose proof (wc_fresh _ _ _ Hw next ltac:(by rewrite E)). lia. }
  split; try apply Hw.
  - intros name pid. rewrite (wc_children _ _ _ Hw). destruct (decide (pid = next)) as [->|Hne].
    + rewrite lookup_insert_eq, Hnone. done.
    + by rewrite lookup_insert_ne.
  - intros pid [x Hx]. destruct (decide (pid = next)) as [->|Hne]; [lia|]. rewrite lookup_insert_ne in Hx by done.
    pose proof (wc_fresh _ _ _ Hw pid ltac:(by rewrite Hx)). lia.
  - intros pid Hp. destruct (wc_stopped _ _ _ Hw pid Hp) as [H1 H2].
    rewrite lookup_insert_ne by lia. split; [done|lia].
Qed.

(** Moving a live process from its supervisor, if any, to [name]. *)
Lemma core_move (sinks : gmap N (option LifecycleSink)) next s pid old name l :
  wf_core sinks next s → sinks !! pid = Some old →
  (∀ q, q ∈ l ↔ q ∈ children s name ∨ q = pid) → NoDup l →
  let s1 := match old with
            | Some (SinkSupervisor o) =>
                if decide (o = name) then s else set_child_table (alter (without pid) o (ss_child_table s)) s
            | None => s
            end in
  wf_core (<[pid := Some (SinkSupervisor name)]> sinks) next (set_child_table (<[name := l]> (ss_child_table s1)) s1).
Proof.
  intros Hw Hold Hl Hnd s1.
  assert (ss_stopped_identities s1 = ss_stopped_identities s ∧ ss_worker_sets s1 = ss_worker_sets s) as [Hs Hws].
  { unfold s1. destruct old as [[o]|]; [case_decide|]; done. }
  assert (∀ n, n ≠ name → ∀ q, q ∈ children s1 n ↔ q ∈ children s n ∧ q ≠ pid) as Hch.
  { intros n Hn q. rewrite (wc_children _ _ _ Hw). unfold s1. destruct old as [[o]|].
    2:{ rewrite (wc_children _ _ _ Hw). split; [|naive_solver]. intros Hq. split; [done|]. by intros ->; rewrite Hold in Hq. }
    case_decide as Ho.
    { rewrite (wc_children _ _ _ Hw). subst o. split; [|naive_solver]. intros Hq. split; [done|].
      intros ->. rewrite Hold in Hq. naive_solver. }
    rewrite children_alter by done. case_decide as Hno.
    - rewrite elem_of_without, (wc_children _ _ _ Hw). done.
    - rewrite (wc_children _ _ _ Hw). split; [|naive_solver]. intros Hq. split; [done|]. intros ->. rewrite Hold in Hq. naive_solver. }
  assert (∀ n, NoDup (children s1 n)) as Hnd1.
  { intros n. unfold s1. destruct old as [[o]|]; [case_decide|]; try apply Hw. rewrite children_alter by done.
    case_decide; [apply NoDup_without|]; apply Hw. }
  split.
  - intros n q. rewrite children_insert. case_decide as Hn.
    + subst n. rewrite Hl, (wc_children _ _ _ Hw). destruct (decide (q = pid)) as [->|Hq].
      * rewrite lookup_insert_eq. naive_solver.
      * rewrite lookup_insert_ne by done. naive_solver.
    + rewrite Hch, (wc_children _ _ _ Hw) by done. destruct (decide (q = pid)) as [->|Hq].
      * rewrite lookup_insert_eq. naive_solver.
      * rewrite lookup_insert_ne by done. naive_solver.
  - intros n. rewrite children_insert. case_decide; [done|apply Hnd1].
  - intros q [x Hx]. destruct (decide (q = pid)) as [->|Hq].
    + apply (wc_fresh _ _ _ Hw). by rewrite Hold.
    + rewrite lookup_insert_ne in Hx by done. apply (wc_fresh _ _ _ Hw). by rewrite Hx.
  - simpl. rewrite Hs. intros q Hq. destruct (wc_stopped _ _ _ Hw q Hq) as [H1 H2]. split; [|done].
    rewrite lookup_insert_ne; [done|]. intros ->. by rewrite Hold in H1.
  - simpl. rewrite Hws. apply Hw.
Qed.

(** Reclaiming a process. *)
Lemma core_remove (sinks : gmap N (option LifecycleSink)) next s pid old identity :
  wf_core sinks next s → sinks !! pid = Some old →
  let s1 := set_stopped_identities (<[pid := identity]> (ss_stopped_identities s)) s in
  wf_core (delete pid sinks) next
    (match old with
     | Some (SinkSupervisor o) => set_child_table (alter (without pid) o (ss_child_table s1)) s1
     | None => s1
     end).
Proof.
  intros Hw Hold s1. set (s2 := match old with Some _ => _ | None => _ end).
  assert (ss_stopped_identities s2 = <[pid := identity]> (ss_stopped_identities s) ∧ ss_worker_sets s2 = ss_worker_sets s)
    as [Hs Hws] by (unfold s2; destruct old as [[o]|]; done).
  assert (∀ n, children s2 n = children s n ∨ children s2 n = without pid (children s n)) as Heq.
  { intros n. unfold s2. destruct old as [[o]|]; [|by left]. rewrite children_alter by done. case_decide; [by right|by left]. }
  assert (∀ n, pid ∉ children s2 n) as Hnot.
  { intros n. unfold s2. destruct old as [[o]|].
    2:{ change (children s1 n) with (children s n). by rewrite (wc_children _ _ _ Hw), Hold. }
    rewrite children_alter by done. change (children s1 n) with (children s n). case_decide as Hn.
    - rewrite elem_of_without. naive_solver.
    - rewrite (wc_children _ _ _ Hw), Hold. naive_solver. }
  split.
  - intros n q. destruct (decide (q = pid)) as [->|Hq].
    { rewrite lookup_delete_eq. split; [intros Hin; by destruct (Hnot n)|done]. }
    rewrite lookup_delete_ne, <- (wc_children _ _ _ Hw) by done.
    destruct (Heq n) as [-> | ->]; [done|]. rewrite elem_of_without. naive_solver.
  - intros n. destruct (Heq n) as [-> | ->]; [|apply NoDup_without]; apply Hw.
  - intros q [x Hx]. rewrite lookup_delete_Some in Hx. apply (wc_fresh _ _ _ Hw). naive_solver.
  - rewrite Hs. intros q Hq. destruct (decide (q = pid)) as [->|Hne].
    + rewrite lookup_delete_eq. split; [done|]. apply (wc_fresh _ _ _ Hw). by rewrite Hold.
    + rewrite lookup_insert_ne in Hq by done. rewrite lookup_delete_ne by done. by apply Hw.
  - rewrite Hws. apply Hw.
Qed.

(** The other tables of supervision may change freely, identities may be forgotten, and
    worker sets may change as long as their cursors stay inside. *)
Lemma core_other (sinks : gmap N (option LifecycleSink)) next s s' :
  wf_core sinks next s → ss_child_table s' = ss_child_table s →
  (∀ pid, is_Some (ss_stopped_identities s' !! pid) → is_Some (ss_stopped_identities s !! pid)) →
  (∀ i set, ss_worker_sets s' !! i = Some set → ss_worker_sets s !! i = Some set ∨
     wk_next_index set = 0 ∨ wk_next_index set < length (wk_members set)) →
  wf_core sinks next s'.
Proof.
  intros Hw Hc Hs Hws. assert (∀ n, children s' n = children s n) as Heq by (intros n; unfold children; by rewrite Hc).
  split.
  - intros n q. rewrite Heq. apply Hw.
  - intros n. rewrite Heq. apply Hw.
  - apply Hw.
  - intros q Hq. apply (wc_stopped _ _ _ Hw), Hs, Hq.
  - intros i set Hset. destruct (Hws i set Hset) as [Hold|]; [by apply (wc_cursor _ _ _ Hw i)|done].
Qed.

Section supervision.
Context {K : Type} `{RustFmt} `{ProcessContinuations K} (depth : nat) (held : N → bool).
Implicit Types (rt : ProcessRuntime (ExecutionContext K)) (vm : VM K).

Definition sinks rt : gmap N (option LifecycleSink) := pn_lifecycle_sink <$> pr_processes rt.
Definition sup_wf rt : Prop := wf_core (sinks rt) (pr_next_pid rt) (pr_supervision rt).

(** An operation that keeps the invariant, also when it fails. *)
Definition safe {A} (m : M K A) : Prop := ∀ vm, sup_wf (vm_runtime vm) → sup_wf (vm_runtime (m vm).1).

Lemma safe_bind {A B} (m : M K A) (k : A → M K B) : safe m → (∀ a, safe (k a)) → safe (bindM m k).
Proof.
  intros Hm Hk vm Hw. unfold bindM. specialize (Hm vm Hw). destruct (m vm) as [vm' [a|e]]; [by apply Hk|done].
Qed.
Lemma safe_ret {A} (a : A) : safe (ret a). Proof. by intros vm. Qed.
Lemma safe_throw {A} message : safe (throw (A := A) message). Proof. by intros vm. Qed.
Lemma safe_gets {A} (f : VM K → A) : safe (gets f). Proof. by intros vm. Qed.
Lemma safe_liftR {A} (m : Run A) : safe (liftR m). Proof. by intros vm. Qed.
Lemma safe_liftE {A} (m : Result RuntimeError A) : safe (liftE m). Proof. by intros vm. Qed.
Lemma safe_ok_orM {A} (o : option A) message : safe (ok_orM o message).
Proof. destruct o; [apply safe_ret|apply safe_throw]. Qed.
Lemma safe_modify_runtime f : (∀ rt, sup_wf rt → sup_wf (f rt)) → safe (modify_runtime f).
Proof. intros Hf vm Hw. by apply Hf. Qed.
Lemma safe_for_eachM {A} (f : A → M K unit) l : (∀ x, safe (f x)) → safe (for_eachM f l).
Proof. intros Hf. induction l as [|x l IH]; [apply safe_ret|]. by apply safe_bind. Qed.
Lemma safe_attempt {A} (m : M K A) : safe m → safe (attempt m).
Proof. intros Hm vm Hw. specialize (Hm vm Hw). unfold attempt. by destruct (m vm) as [vm' [a|e]]; [|destruct e]. Qed.

Lemma sinks_alter f pid rt :
  (∀ e, pn_lifecycle_sink (f e) = pn_lifecycle_sink e) →
  pn_lifecycle_sink <$> alter f pid (pr_processes rt) = sinks rt.
Proof.
  intros Hf. apply map_eq. intros q. unfold sinks. rewrite !lookup_fmap.
  destruct (decide (q = pid)) as [->|Hq]; [|by rewrite lookup_alter_ne].
  rewrite lookup_alter_eq. destruct (pr_processes rt !! pid); simpl; by rewrite ?Hf.
Qed.

Lemma safe_update_process pid f : (∀ e, pn_lifecycle_sink (f e) = pn_lifecycle_sink e) → safe (update_process pid f).
Proof. intros Hf vm Hw. unfold update_process, modify, sup_wf. simpl. unfold sinks. simpl. by rewrite sinks_alter. Qed.

Lemma safe_supervision f :
  (∀ s, ss_child_table (f s) = ss_child_table s) →
  (∀ s, ss_stopped_identities (f s) ⊆ ss_stopped_identities s) →
  (∀ s, ss_worker_sets (f s) = ss_worker_sets s) → safe (modify_supervision f).
Proof.
  intros Hc Hs Hws. apply safe_modify_runtime. intros rt Hw. eapply core_other; [exact Hw|apply Hc| |].
  - intros pid [x Hx]. exists x. eapply lookup_weaken; [exact Hx|apply Hs].
  - intros i set. simpl. rewrite Hws. by left.
Qed.

Lemma safe_set_execution i record : safe (set_execution i record).
Proof. by apply safe_modify_runtime. Qed.
Lemma safe_register_task owner state completion : safe (register_runtime_task owner state completion).
Proof.
  apply safe_bind; [apply safe_gets|]. intros rt. apply safe_bind; [by apply safe_supervision|]. intros _.
  apply safe_bind; [by apply safe_modify_runtime|]. intros _. apply safe_ret.
Qed.
Lemma safe_sweep : safe (sweep_stopped_identities (K := K) held).
Proof. apply safe_supervision; [done| |done]. intros s0. apply map_filter_subseteq. Qed.
End supervision.

Create HintDb safe.
#[export] Hint Resolve safe_ret safe_throw safe_gets safe_liftR safe_liftE safe_ok_orM safe_set_execution
  safe_register_task safe_sweep safe_attempt : safe.

(** Goes through the code of an operation. *)
Ltac go_safe :=
  repeat first
    [ solve [eauto with safe]
    | apply safe_bind; [|intros ?]
    | match goal with
      | |- safe (match ?x with _ => _ end) => destruct x
      | |- safe (let '(_, _) := ?x in _) => destruct x
      | |- safe (if ?x then _ else _) => destruct x
      end ].

Section operations.
Context {K : Type} `{RustFmt} `{ProcessContinuations K} (depth : nat) (held : N → bool).
Implicit Types (rt : ProcessRuntime (ExecutionContext K)) (vm : VM K).

Lemma safe_language_error_at kind args wrapper location trace :
  safe (K := K) (language_error_outcome_at depth kind args wrapper location trace).
Proof. unfold language_error_outcome_at. go_safe. Qed.
Lemma safe_language_error kind args : safe (K := K) (language_error depth kind args).
Proof. unfold language_error, language_error_outcome. go_safe. Qed.

#[local] Hint Resolve safe_language_error_at safe_language_error : safe.

Lemma safe_process_state pid : safe (K := K) (process_state depth pid).
Proof. unfold process_state, runtime, current_process_execution, complete. go_safe. Qed.
Lemma safe_process_postprocess pid : safe (K := K) (process_postprocess pid).
Proof. unfold process_postprocess, runtime, current_process_execution. go_safe. Qed.
Lemma safe_process_store pid v : safe (K := K) (process_store depth pid v).
Proof. unfold process_store, runtime, current_process_execution, complete. go_safe. by apply safe_update_process. Qed.
Lemma safe_request_stop pid reason : safe (K := K) (request_process_stop pid reason).
Proof. unfold request_process_stop, runtime, current_process_execution. go_safe. by apply safe_update_process. Qed.
Lemma safe_schedule_future_error i kind args : safe (K := K) (schedule_future_error depth i kind args).
Proof.
  unfold schedule_future_error, runtime. go_safe.
  - apply safe_modify_runtime. intros rt Hw. by destruct (fu_correlation_id _).
  - apply safe_attempt. destruct (fu_creation_context _) as [[location trace]|]; eauto with safe.
Qed.

#[local] Hint Resolve safe_process_state safe_process_postprocess safe_process_store safe_request_stop
  safe_schedule_future_error : safe.

Lemma safe_abort pid : safe (K := K) (abort_process_executions depth pid).
Proof.
  unfold abort_process_executions, runtime, resolve_future_process_down. go_safe.
  - by apply safe_update_process.
  - apply safe_for_eachM. intros future. apply safe_schedule_future_error.
  - by apply safe_modify_runtime.
Qed.

Lemma safe_bind_pure {A B} (r : Try RuntimeError A) (k : A → M K B) :
  (∀ a, r = Ok a → safe (k a)) → safe (bindM (λ vm, (vm, r)) k).
Proof. intros Hk vm Hw. unfold bindM. destruct r as [a|e]; [by apply Hk|done]. Qed.

Lemma safe_set_worker_set i set :
  wk_next_index set = 0 ∨ wk_next_index set < length (wk_members set) → safe (K := K) (set_worker_set i set).
Proof.
  intros Hset. apply safe_modify_runtime. intros rt Hw. eapply core_other; [exact Hw|done|done|].
  intros j set'. simpl. destruct (decide (j = i)) as [->|Hj].
  - rewrite lookup_insert_eq. intros [= <-]. by right.
  - rewrite lookup_insert_ne by done. by left.
Qed.

Lemma safe_next_workers_pid handle : safe (K := K) (next_workers_pid handle).
Proof.
  unfold next_workers_pid, runtime. apply safe_bind; [apply safe_gets|intros rt].
  apply safe_bind; [apply safe_ok_orM|intros set]. case_decide; [apply safe_throw|].
  apply safe_bind_pure. intros [[i pid]|] Hfound; [|apply safe_ret].
  apply safe_bind; [|intros _; apply safe_ret]. apply safe_set_worker_set. right. simpl.
  apply Nat.mod_upper_bound. by intros Hlen; rewrite Hlen in Hfound.
Qed.

Lemma safe_reserve handle : safe (K := K) (workers_reserve depth handle).
Proof. unfold workers_reserve, complete, workers_unavailable. pose proof (safe_next_workers_pid handle). go_safe. Qed.

Lemma safe_refill i : safe (K := K) (refill_worker_set i).
Proof. unfold refill_worker_set, runtime. go_safe. by apply safe_supervision. Qed.

Lemma drop_worker_loop_cursors pid ids : ∀ sets sets' refills,
  (∀ i set, sets !! i = Some set → wk_next_index set = 0 ∨ wk_next_index set < length (wk_members set)) →
  drop_worker_loop pid ids sets = Ok (sets', refills) →
  ∀ i set, sets' !! i = Some set → wk_next_index set = 0 ∨ wk_next_index set < length (wk_members set).
Proof.
  induction ids as [|j ids IH]; intros sets sets' refills Hsets Hrun; simplify_eq/=; [done|].
  destruct (sets !! j) as [set|] eqn:Hj; simplify_eq/=.
  apply rbind_Ok in Hrun as ([sets1 refills1] & Hrun & Heq). simplify_eq/=. eapply IH; [|exact Hrun].
  intros i set' Hi. destruct (decide (i = j)) as [->|Hne].
  - rewrite lookup_insert_eq in Hi. simplify_eq/=. case_decide; [by left|right; lia].
  - rewrite lookup_insert_ne in Hi by done. by apply (Hsets i).
Qed.

Lemma safe_remove_worker pid : safe (K := K) (remove_worker_from_sets pid).
Proof.
  intros vm Hw. unfold remove_worker_from_sets, runtime, bindM, liftR. simpl.
  destruct (drop_worker_loop _ _ _) as [[sets' refills]|e] eqn:Hrun; [|done]. simpl.
  apply (safe_for_eachM refill_worker_set); [apply safe_refill|].
  eapply core_other; [exact Hw|done|done|]. intros i set Hi. right.
  eapply drop_worker_loop_cursors; [|exact Hrun|exact Hi]. apply (wc_cursor _ _ _ Hw).
Qed.

(** ** Operations that change who is supervised *)

Lemma add_child_list (pid : N) (l : list N) (l' := if decide (pid ∈ l) then l else l ++ [pid]) :
  (∀ q, q ∈ l' ↔ q ∈ l ∨ q = pid) ∧ (NoDup l → NoDup l').
Proof.
  unfold l'. case_decide as Hin; split.
  - intros q. split; [by left|]. by intros [?| ->].
  - done.
  - intros q. by rewrite elem_of_app, list_elem_of_singleton.
  - intros Hnd. apply NoDup_app. split; [done|]. split; [|apply NoDup_singleton].
    by intros q Hq; rewrite list_elem_of_singleton; intros ->.
Qed.

(** What [allocate_process_instance] leaves behind when it succeeds. *)
Definition allocated (vm : VM K) (process : ProcessInstance (ExecutionContext K)) : VM K :=
  let rt := vm_runtime vm in
  let rt1 := set_supervision (λ s, set_stopped_identities
               (filter (λ '(_, i), held (pid_ptr i) = true) (ss_stopped_identities s)) s) (set_next_pid (pr_next_pid rt + 1) rt) in
  set_runtime (set_processes (<[pr_next_pid rt := process]> (pr_processes rt)) rt1) vm.

Lemma core_forget (sinks0 : gmap N (option LifecycleSink)) next s :
  wf_core sinks0 next s →
  wf_core sinks0 next (set_stopped_identities (filter (λ '(_, i), held (pid_ptr i) = true) (ss_stopped_identities s)) s).
Proof.
  intros Hw. eapply core_other; [exact Hw|done| |by left]. intros pid [x Hx]. exists x.
  eapply lookup_weaken; [exact Hx|apply map_filter_subseteq].
Qed.

Lemma core_next (sinks0 : gmap N (option LifecycleSink)) next s : wf_core sinks0 next s → wf_core sinks0 (next + 1) s.
Proof.
  intros Hw. split; try apply Hw.
  - intros pid Hp. pose proof (wc_fresh _ _ _ Hw pid Hp). lia.
  - intros pid Hp. destruct (wc_stopped _ _ _ Hw pid Hp). split; [done|lia].
Qed.

Lemma allocate_result address name state owner sink vm :
  sup_wf (vm_runtime vm) →
  let out := allocate_process_instance held address name state owner sink vm in
  (∃ e, out.2 = Err e ∧ sup_wf (vm_runtime out.1)) ∨
  (∃ process, pn_lifecycle_sink process = sink ∧ out = (allocated vm process, Ok (pr_next_pid (vm_runtime vm)))).
Proof.
  intros Hw. unfold allocate_process_instance, runtime, bindM, gets. simpl.
  destruct (sr_spec_id_by_name _ !! name) as [spec_id|]; simpl; [|by left; eexists].
  case_decide; simpl; [by left; eexists|]. unfold liftR, expect. simpl.
  destruct (ProcessRuntime.spec_for_id (vm_runtime vm) spec_id) as [spec|]; simpl.
  - right. eexists. split; [|reflexivity]. done.
  - left. eexists. split; [done|]. by apply core_forget, core_next.
Qed.

Lemma sinks_allocated vm process :
  sinks (vm_runtime (allocated vm process)) = <[pr_next_pid (vm_runtime vm) := pn_lifecycle_sink process]> (sinks (vm_runtime vm)).
Proof. unfold sinks. simpl. by rewrite fmap_insert. Qed.

Lemma safe_allocate address name state owner : safe (K := K) (allocate_process_instance held address name state owner None).
Proof.
  intros vm Hw. destruct (allocate_result address name state owner None vm Hw) as [(e & _ & Hw')|(process & Hs & ->)]; [done|].
  cbn [fst]. unfold sup_wf. rewrite sinks_allocated, Hs. by apply core_forget, core_add.
Qed.

Lemma safe_allocate_supervised address name state supervisor :
  safe (K := K) (allocate_supervised_worker held address name state supervisor).
Proof.
  intros vm Hw. unfold allocate_supervised_worker, bindM.
  pose proof (allocate_result address name state None (Some (SinkSupervisor supervisor)) vm Hw) as Hout. simpl in Hout.
  destruct (allocate_process_instance _ _ _ _ _ _ vm) as [vm1 r] eqn:Hrun. simpl in Hout.
  destruct Hout as [(e & -> & Hw')|(process & Hs & [= -> ->])]; [done|]. simpl.
  rewrite lookup_insert_eq. simpl. rewrite Hs. simpl. unfold sup_wf. simpl.
  change (sinks _) with (sinks (vm_runtime (allocated vm process))). rewrite sinks_allocated, Hs.
  set (s := set_stopped_identities _ _). set (pid := pr_next_pid (vm_runtime vm)).
  destruct (add_child_list pid (children s supervisor)) as [Hl Hnd].
  assert (wf_core (<[pid := None]> (sinks (vm_runtime vm))) (pid + 1) s) as Hw1 by (by apply core_forget, core_add).
  rewrite <- (insert_insert_eq _ pid (Some (SinkSupervisor supervisor)) None).
  apply (core_move _ _ s pid None supervisor _ Hw1); [by rewrite lookup_insert_eq|exact Hl|apply Hnd, Hw1].
Qed.

Lemma sinks_set_sink (m : gmap N (ProcessInstance (ExecutionContext K))) pid entry sink :
  m !! pid = Some entry →
  pn_lifecycle_sink <$> alter (set_pn_sink sink) pid m = <[pid := Some sink]> (pn_lifecycle_sink <$> m).
Proof.
  intros Hent. apply map_eq. intros q. rewrite lookup_fmap. destruct (decide (q = pid)) as [->|Hq].
  - by rewrite lookup_alter_eq, lookup_insert_eq, Hent.
  - by rewrite lookup_alter_ne, lookup_insert_ne, lookup_fmap.
Qed.

Lemma safe_adopt name pid : safe (K := K) (supervisor_adopt depth held name pid).
Proof.
  unfold supervisor_adopt, effective_supervisor_policy, runtime.
  apply safe_bind; [go_safe|intros policy].
  intros vm Hw. unfold bindM at 1. simpl.
  destruct (negb (sv_allow_adopt policy)); [by apply safe_language_error|].
  destruct (stopped_identity_matches _ _ _); [by apply safe_language_error|].
  destruct (pr_processes (vm_runtime vm) !! pid_id pid) as [entry|] eqn:Hent; [|by apply safe_language_error].
  destruct (negb (same_identity _ _)); [by apply safe_language_error|].
  destruct (negb (is_adoptable_worker _ _)); [by apply safe_bind; [apply safe_ok_orM|intros ?; apply safe_language_error|]|].
  destruct (add_child_list (pid_id pid) (children (pr_supervision (vm_runtime vm)) name)) as [Hl Hnd].
  assert (sinks (vm_runtime vm) !! pid_id pid = Some (pn_lifecycle_sink entry)) as Hsink.
  { unfold sinks. by rewrite lookup_fmap, Hent. }
  pose proof (core_move _ _ _ (pid_id pid) _ name _ Hw Hsink Hl (Hnd (wc_nodup _ _ _ Hw name))) as Hmove. simpl in Hmove.
  assert (∀ o (t : gmap str (list N)), o ≠ name → from_option id [] (alter (without (pid_id pid)) o t !! name) = from_option id [] (t !! name)) as Hother.
  { intros o t Ho. by rewrite lookup_alter_ne. }
  unfold sup_wf, bindM, remove_supervisor_child, add_supervisor_child, modify_supervision, update_process.
  destruct (pn_lifecycle_sink entry) as [[o]|]; [destruct (decide (o = name)) as [Ho|Ho]|]; simpl; unfold sinks; simpl;
    rewrite (sinks_set_sink _ _ entry) by done; [exact Hmove| |exact Hmove].
  rewrite Hother by done. exact Hmove.
Qed.

(** The first part of [reclaim_stopped_process], which cannot fail. *)
Definition unlinked (pid : N) (entry : ProcessInstance (ExecutionContext K)) rt : ProcessRuntime (ExecutionContext K) :=
  let rt1 := set_processes (delete pid (pr_processes rt)) rt in
  let rt2 := set_run_queue (without pid (pr_run_queue rt1)) rt1 in
  let rt3 := set_waiting_table (delete pid (pr_waiting_table rt2)) rt2 in
  let rt4 := set_supervision (λ s,
    let s1 := set_stopped_identities (<[pid := pn_identity entry]> (ss_stopped_identities s)) s in
    match pn_lifecycle_sink entry with
    | Some (SinkSupervisor o) => set_child_table (alter (without pid) o (ss_child_table s1)) s1
    | None => s1
    end) rt3 in
  set_futures ((λ f, if decide (fu_owner f = Some pid) then set_fu_owner None f else f) <$> pr_futures rt4) rt4.

Lemma reclaim_eq pid entry vm :
  pr_processes (vm_runtime vm) !! pid = Some entry →
  reclaim_stopped_process held pid vm
  = (remove_worker_from_sets pid ;; sweep_stopped_identities held) (set_runtime (unlinked pid entry (vm_runtime vm)) vm).
Proof.
  intros Hent. unfold reclaim_stopped_process, runtime, unlinked. unfold bindM at 1. simpl. rewrite Hent.
  unfold bindM at 1. simpl. do 5 (unfold bindM at 1; simpl).
  destruct (pn_lifecycle_sink entry) as [[o]|]; reflexivity.
Qed.

Lemma safe_reclaim pid : safe (K := K) (reclaim_stopped_process held pid).
Proof.
  intros vm Hw. destruct (pr_processes (vm_runtime vm) !! pid) as [entry|] eqn:Hent.
  2:{ unfold reclaim_stopped_process, runtime, bindM. simpl. by rewrite Hent. }
  rewrite (reclaim_eq pid entry) by done.
  apply safe_bind; [apply safe_remove_worker|intros _; apply safe_sweep|].
  unfold sup_wf, sinks. simpl. rewrite fmap_delete.
  apply (core_remove _ _ _ pid _ (pn_identity entry) Hw). unfold sinks. by rewrite lookup_fmap, Hent.
Qed.

Lemma safe_finish i : safe (K := K) (finish_process_execution held i).
Proof.
  unfold finish_process_execution, runtime. pose proof safe_reclaim. go_safe.
  - by apply safe_modify_runtime.
  - apply safe_for_eachM. intros future. by apply safe_modify_runtime.
Qed.

Lemma safe_modify f : (∀ vm, vm_runtime (f vm) = vm_runtime vm) → safe (K := K) (modify f).
Proof. intros Hf vm Hw. unfold modify. simpl. by rewrite Hf. Qed.
Lemma safe_take_context pc target : safe (K := K) (take_execution_context pc target).
Proof. by intros vm. Qed.

Lemma safe_schedule invocation pc tail site trace : safe (K := K) (schedule_invocation invocation pc tail site trace).
Proof. unfold schedule_invocation, current_frame, update_frame. go_safe; by apply safe_modify. Qed.

Lemma safe_prepare invocation : safe (K := K) (prepare_invocation_context invocation).
Proof.
  unfold prepare_invocation_context. pose proof safe_take_context. pose proof safe_schedule.
  go_safe; by apply safe_modify.
Qed.

Lemma safe_start pid body origin : safe (K := K) (start_process_execution_at depth held pid body origin).
Proof.
  unfold start_process_execution_at, runtime, current_process_execution. pose proof safe_prepare. cbv zeta.
  go_safe; solve [by apply safe_supervision|by apply safe_modify_runtime|by intros vm].
Qed.

(** ** Any sequence of operations *)

Inductive Op : Type :=
| OpAllocate (address : N) (name : str) (state : option Value) (owner : option N)
| OpSpawn (address : N) (name : str) (state : option Value) (supervisor : str)
| OpAdopt (supervisor : str) (pid : PidHandle)
| OpStart (pid : PidHandle) (body : Callable) (origin : Location * list RuntimeStackFrame)
| OpPerform (pid : PidHandle) (a : Action)
| OpAbort (pid : N)
| OpFinish (execution : N)
| OpReserve (handle : WorkersHandle).

Definition run_op (op : Op) vm : VM K :=
  match op with
  | OpAllocate address name state owner => (allocate_process_instance held address name state owner None vm).1
  | OpSpawn address name state supervisor => (allocate_supervised_worker held address name state supervisor vm).1
  | OpAdopt supervisor pid => (supervisor_adopt depth held supervisor pid vm).1
  | OpStart pid body origin => (start_process_execution_at depth held pid body origin vm).1
  | OpPerform pid a => (perform depth pid a vm).1
  | OpAbort pid => (abort_process_executions depth pid vm).1
  | OpFinish execution => (finish_process_execution held execution vm).1
  | OpReserve handle => (workers_reserve depth handle vm).1
  end.

Lemma safe_perform pid a : safe (K := K) (perform depth pid a).
Proof. unfold perform. destruct a; go_safe. Qed.

Lemma run_op_wf op vm : sup_wf (vm_runtime vm) → sup_wf (vm_runtime (run_op op vm)).
Proof.
  intros Hw. destruct op; simpl.
  - by apply safe_allocate.
  - by apply safe_allocate_supervised.
  - by apply safe_adopt.
  - by apply safe_start.
  - by apply safe_perform.
  - by apply safe_abort.
  - by apply safe_finish.
  - by apply safe_reserve.
Qed.

Lemma initial_wf specs : sup_wf (K := K) (ProcessRuntime.initial specs).
Proof.
  assert (∀ name, children empty_supervision name = []) as Hc by (intros name; unfold children; simpl; by rewrite lookup_empty).
  split; simpl.
  - intros name pid. rewrite Hc. unfold sinks. simpl. rewrite fmap_empty, lookup_empty.
    split; [intros Hin; by apply elem_of_nil in Hin|done].
  - intros name. rewrite Hc. constructor.
  - intros pid [x Hx]. unfold sinks in Hx. simpl in Hx. by rewrite fmap_empty, lookup_empty in Hx.
  - intros pid [x Hx]. by rewrite lookup_empty in Hx.
  - intros i set Hi. by rewrite lookup_empty in Hi.
Qed.

(** The live processes a supervisor has, read off the process table. *)
Definition live_children rt (name : str) : gset N :=
  dom (filter (λ '(_, p), pn_lifecycle_sink p = Some (SinkSupervisor name) ∧ is_live_status (pn_status p) = true)
         (pr_processes rt)).


Lemma count_exact rt name : sup_wf rt → unique_live_supervisor_child_count rt name = size (live_children rt name).
Proof.
  intros Hw. assert (∀ pid, pid ∈ live_children rt name ↔ pid ∈ children (pr_supervision rt) name ∧
    match pr_processes rt !! pid with Some p => is_live_status (pn_status p) | None => false end = true) as Hlive.
  { intros pid. unfold live_children. rewrite elem_of_dom, (wc_children _ _ _ Hw). unfold sinks. rewrite lookup_fmap. split.
    - intros [p Hp]. apply map_lookup_filter_Some in Hp as [Hp [Hs Hl]]. rewrite Hp. simpl. by rewrite Hs.
    - intros [Hs Hl]. destruct (pr_processes rt !! pid) as [p|] eqn:Hp; simplify_eq/=. exists p.
      by apply map_lookup_filter_Some. }
  unfold unique_live_supervisor_child_count. unfold children in Hlive.
  destruct (ss_child_table (pr_supervision rt) !! name) as [l|]; simpl in Hlive.
  - f_equal. apply set_eq. intros pid. rewrite Hlive, elem_of_list_to_set, list_elem_of_In, filter_In, <- list_elem_of_In. done.
  - symmetry. apply size_empty_iff. intros pid. rewrite Hlive, elem_of_nil. set_solver.
Qed.
End operations.


(** ** The end of a process leaves no trace *)

Section reclaim.
Context {K : Type} `{RustFmt} `{ProcessContinuations K} (held : N → bool).
Implicit Types (rt : ProcessRuntime (ExecutionContext K)) (vm : VM K).

Lemma table_ids_spec {A} (m : gmap N A) : NoDup (table_ids m) ∧ ∀ i, i ∈ table_ids m ↔ is_Some (m !! i).
Proof.
  unfold table_ids. split.
  - rewrite merge_sort_Permutation. apply NoDup_fst_map_to_list.
  - intros i. rewrite merge_sort_Permutation, list_elem_of_fmap. split.
    + intros ([j x] & -> & Hin). apply elem_of_map_to_list in Hin. by exists x.
    + intros [x Hx]. exists (i, x). by rewrite elem_of_map_to_list.
Qed.

Lemma drop_worker_loop_total pid ids : ∀ sets,
  NoDup ids → (∀ i, i ∈ ids → is_Some (sets !! i)) →
  ∃ sets' refills, drop_worker_loop pid ids sets = Ok (sets', refills) ∧
    ∀ i, sets' !! i = if decide (i ∈ ids) then (λ set, (drop_worker pid set).1) <$> sets !! i else sets !! i.
Proof.
  induction ids as [|j ids IH]; intros sets Hnd Hin; cbn [drop_worker_loop].
  { exists sets, []. split; [done|]. intros i. case_decide as Hi; [by apply elem_of_nil in Hi|done]. }
  apply NoDup_cons in Hnd as [Hj Hnd]. destruct (Hin j) as [set Hset]; [by left|]. rewrite Hset. cbn [expect ok_or rbind].
  destruct (drop_worker pid set) as [set' refill] eqn:Hd.
  destruct (IH (<[j := set']> sets) Hnd) as (sets' & refills & Hrun & Hl).
  { intros i Hi. rewrite lookup_insert_ne by (by intros ->). apply Hin. by right. }
  rewrite Hrun. cbn [rbind]. do 2 eexists. split; [reflexivity|]. intros i. rewrite Hl.
  destruct (decide (i = j)) as [->|Hne].
  - rewrite decide_False by done. rewrite decide_True by (by left). rewrite lookup_insert_eq, Hset.
    cbn [fmap option_fmap option_map]. by rewrite Hd.
  - rewrite lookup_insert_ne by done. destruct (decide (i ∈ ids)) as [Hi|Hi].
    + by rewrite decide_True by (by right).
    + rewrite decide_False; [done|]. by intros [->|]%elem_of_cons.
Qed.

(** The tables a refill does not touch. *)
Definition same_books rt rt' : Prop :=
  pr_processes rt' = pr_processes rt ∧ pr_executions rt' = pr_executions rt ∧ pr_run_queue rt' = pr_run_queue rt ∧
  pr_waiting_table rt' = pr_waiting_table rt ∧ pr_futures rt' = pr_futures rt ∧
  ss_child_table (pr_supervision rt') = ss_child_table (pr_supervision rt) ∧
  ss_stopped_identities (pr_supervision rt') = ss_stopped_identities (pr_supervision rt) ∧
  ss_worker_sets (pr_supervision rt') = ss_worker_sets (pr_supervision rt).

Lemma refills_total ids : ∀ vm, ∃ vm',
  for_eachM refill_worker_set ids vm = (vm', Ok tt) ∧ same_books (vm_runtime vm) (vm_runtime vm').
Proof.
  induction ids as [|i ids IH]; intros vm; [by exists vm|]. simpl. unfold bindM at 1.
  assert (∃ vm1, refill_worker_set i vm = (vm1, Ok tt) ∧ same_books (vm_runtime vm) (vm_runtime vm1)) as (vm1 & -> & H1).
  { unfold refill_worker_set, runtime, bindM. simpl. case_decide; simpl; eexists; (split; [reflexivity|done]). }
  destruct (IH vm1) as (vm' & -> & H2). exists vm'. split; [done|]. unfold same_books in *.
  destruct_and!. split_and!; congruence.
Qed.

Definition no_trace (pid : N) rt : Prop :=
  pr_processes rt !! pid = None ∧ (pid ∉ pr_run_queue rt) ∧ pr_waiting_table rt !! pid = None ∧
  (∀ name, pid ∉ children (pr_supervision rt) name) ∧
  (∀ i set, ss_worker_sets (pr_supervision rt) !! i = Some set → pid ∉ wk_members set) ∧
  (∀ i f, pr_futures rt !! i = Some f → fu_owner f ≠ Some pid) ∧
  (∀ i record, pr_executions rt !! i = Some record → pid_id (pe_pid record) ≠ pid).

(** Removing the process from the worker sets, and forgetting identities nobody holds. *)
Lemma remove_worker_total pid vm :
  ∃ vm', remove_worker_from_sets pid vm = (vm', Ok tt) ∧
    (∀ i set, ss_worker_sets (pr_supervision (vm_runtime vm')) !! i = Some set → pid ∉ wk_members set) ∧
    let rt1 := set_supervision (set_worker_sets (ss_worker_sets (pr_supervision (vm_runtime vm')))) (vm_runtime vm) in
    same_books rt1 (vm_runtime vm').
Proof.
  unfold remove_worker_from_sets, runtime, bindM. simpl.
  set (sets := ss_worker_sets (pr_supervision (vm_runtime vm))). set (ids := List.filter _ _).
  destruct (table_ids_spec sets) as [Hnd Hids].
  assert (∀ i, i ∈ ids ↔ i ∈ table_ids sets ∧
    match sets !! i with Some set => worker_set_affected pid set | None => false end = true) as Hin.
  { intros i. unfold ids. by rewrite list_elem_of_In, filter_In, <- list_elem_of_In. }
  destruct (drop_worker_loop_total pid ids sets) as (sets' & refills & Hrun & Hl).
  { unfold ids. rewrite NoDup_ListNoDup in *. by apply List.NoDup_filter. }
  { intros i Hi. by apply Hids, Hin. }
  unfold liftR. rewrite Hrun. simpl.
  set (vm1 := set_runtime _ vm). destruct (refills_total refills vm1) as (vm' & -> & Hb).
  exists vm'. split; [done|].
  assert (ss_worker_sets (pr_supervision (vm_runtime vm')) = sets') as Hs' by apply Hb.
  split; [|by rewrite Hs']. rewrite Hs'. intros i set Hi. rewrite Hl in Hi. case_decide as Hc.
  - destruct (sets !! i) as [set0|]; simplify_eq/=. by rewrite elem_of_without; intros [_ ?].
  - intros Hp. apply Hc, Hin. split; [apply Hids; by exists set|]. rewrite Hi. unfold worker_set_affected.
    by rewrite bool_decide_true.
Qed.

Lemma executions_of_nil rt pid :
  (∀ i record, pr_executions rt !! i = Some record → pid_id (pe_pid record) ≠ pid) → executions_of rt pid = [].
Proof.
  intros Hno. unfold executions_of. apply elem_of_nil_inv. intros record.
  rewrite list_elem_of_In, filter_In, <- list_elem_of_In, list_elem_of_omap. intros [(i & _ & Hi) Hp].
  apply bool_decide_eq_true in Hp. by apply (Hno i record).
Qed.

(** Forgetting futures touches nothing else. *)
Lemma forget_all ids : ∀ vm, ∃ futures queue,
  for_eachM (λ future, modify_runtime (ProcessRuntime.forget_internal_future future)) ids vm
  = (set_runtime (set_deadline_queue queue (set_futures futures (vm_runtime vm))) vm, Ok tt) ∧ futures ⊆ pr_futures (vm_runtime vm).
Proof.
  induction ids as [|i ids IH]; intros vm; simpl.
  { exists (pr_futures (vm_runtime vm)), (pr_deadline_queue (vm_runtime vm)). split; [|done]. by destruct vm as [? ? ? ? ? ? ? ? ? ? ? []]. }
  unfold bindM at 1. simpl. set (vm1 := set_runtime _ vm). destruct (IH vm1) as (futures & queue & -> & Hsub).
  exists futures, queue. split; [done|]. etrans; [exact Hsub|]. simpl. apply delete_subseteq.
Qed.

Lemma reclaim_total pid entry vm :
  pr_processes (vm_runtime vm) !! pid = Some entry → sup_wf (vm_runtime vm) →
  (∀ i record, pr_executions (vm_runtime vm) !! i = Some record → pid_id (pe_pid record) ≠ pid) →
  ∃ vm', reclaim_stopped_process held pid vm = (vm', Ok tt) ∧ no_trace pid (vm_runtime vm') ∧
    (held (pid_ptr (pn_identity entry)) = true →
     ss_stopped_identities (pr_supervision (vm_runtime vm')) !! pid = Some (pn_identity entry)).
Proof.
  intros Hent Hw Hex. rewrite (reclaim_eq held pid entry) by done. unfold bindM.
  set (vm1 := set_runtime (unlinked pid entry (vm_runtime vm)) vm).
  destruct (remove_worker_total pid vm1) as (vm2 & -> & Hm & Hb). simpl in Hb.
  destruct Hb as (Hp & He & Hq & Hwt & Hf & Hc & Hst & _).
  assert (wf_core (sinks (vm_runtime vm1)) (pr_next_pid (vm_runtime vm)) (pr_supervision (vm_runtime vm1))) as Hw1.
  { unfold sinks. simpl. rewrite fmap_delete. apply (core_remove _ _ _ pid _ (pn_identity entry) Hw).
    unfold sinks. by rewrite lookup_fmap, Hent. }
  eexists. split; [reflexivity|]. unfold no_trace. simpl. rewrite Hp, He, Hq, Hwt, Hf, Hst. simpl. split_and!.
  - apply lookup_delete_eq.
  - by rewrite elem_of_without; intros [_ ?].
  - apply lookup_delete_eq.
  - intros name. unfold children. simpl. rewrite Hc.
    change (pid ∉ children (pr_supervision (vm_runtime vm1)) name).
    rewrite (wc_children _ _ _ Hw1). unfold sinks. simpl. by rewrite fmap_delete, lookup_delete_eq.
  - exact Hm.
  - intros i f. rewrite lookup_fmap. destruct (pr_futures (vm_runtime vm) !! i) as [g|]; simpl; [|done].
    intros [= <-]. case_decide; simpl; [done|]. done.
  - exact Hex.
  - intros Hheld. apply map_lookup_filter_Some. split; [|done].
    destruct (pn_lifecycle_sink entry) as [[o]|]; apply lookup_insert_eq.
Qed.
End reclaim.

(** A stopped process leaves no trace.  When the last execution of a process that has
    been asked to stop finishes, the process is reclaimed without failure, and afterwards
    no table mentions it: not the processes, the run queue, the waiting table, the
    children of any supervisor, the members of any worker set, the owners of futures or
    the executions.  As long as a handle to it is held, its identity is remembered, so
    that a message to it is answered with the error that it has stopped. *)
Theorem finish_reclaims {K : Type} `{RustFmt} `{ProcessContinuations K} (held : N → bool) (id pid : N)
    (record : ProcessExecutionRecord) (entry : ProcessInstance (ExecutionContext K)) (vm : VM K) :
  sup_wf (vm_runtime vm) →
  pr_executions (vm_runtime vm) !! id = Some record → pid_id (pe_pid record) = pid →
  pr_processes (vm_runtime vm) !! pid = Some entry → pn_acceptance entry = Stopping →
  (∀ i other, i ≠ id → pr_executions (vm_runtime vm) !! i = Some other → pid_id (pe_pid other) ≠ pid) →
  ∃ vm', finish_process_execution held id vm = (vm', Ok tt) ∧ no_trace pid (vm_runtime vm') ∧
    (held (pid_ptr (pn_identity entry)) = true → pid_id (pn_identity entry) = pid →
     stopped_identity_matches held (vm_runtime vm') (pn_identity entry) = true).
Proof.
  intros Hw Hrec <- Hent Hacc Honly. unfold finish_process_execution, runtime, bindM. simpl. rewrite Hrec. simpl.
  set (vm1 := set_runtime _ vm). destruct (forget_all (pe_internal_futures record) vm1) as (futures & queue & -> & Hsub).
  set (vm2 := set_runtime _ vm1). simpl. rewrite Hent, Hacc. simpl.
  assert (∀ i other, pr_executions (vm_runtime vm2) !! i = Some other → pid_id (pe_pid other) ≠ pid_id (pe_pid record)) as Hno.
  { intros i other Hi. simpl in Hi. apply lookup_delete_Some in Hi as [Hne Hi]. by apply (Honly i). }
  rewrite bool_decide_true by (by apply executions_of_nil).
  destruct (reclaim_total held (pid_id (pe_pid record)) entry vm2) as (vm' & -> & Hnt & Hid); [done|exact Hw|exact Hno|].
  exists vm'. split; [done|]. split; [done|]. intros Hheld Hpid. unfold stopped_identity_matches.
  rewrite Hpid, Hid by done. simpl. unfold upgrade. rewrite Hheld. unfold same_identity. by apply bool_decide_eq_true.
Qed.

(** ** Samples *)

#[local] Existing Instance Display.sample_fmt.
#[local] Existing Instance no_continuations.

(** Two workers are spawned under different supervisors, and the pool adopts the second. *)
Definition adoption : list Op :=
  [OpSpawn 100 (lit "Worker") (Some (VInt 1)) (lit "Pool");
   OpSpawn 101 (lit "Worker") (Some (VInt 2)) (lit "Other");
   OpAdopt (lit "Pool") (worker_pid 1)].


Definition stopping_vm : VM unit :=
  sample_vm None (set_executions {[5%N := sample_record]} (with_processes {[7%N := worker 7 Stopping]})).

Lemma stopping_vm_wf : sup_wf (vm_runtime stopping_vm).
Proof.
  assert (∀ name, children (pr_supervision (vm_runtime stopping_vm)) name = []) as Hc.
  { intros name. unfold children. simpl. by rewrite lookup_empty. }
  assert (sinks (vm_runtime stopping_vm) = {[7%N := None]}) as Hs by (unfold sinks; simpl; by rewrite map_fmap_singleton).
  split; rewrite ?Hs; simpl.
  - intros name pid. rewrite Hc, lookup_singleton. split; [intros Hin; by apply elem_of_nil in Hin|by case_decide].
  - intros name. rewrite Hc. constructor.
  - intros pid [x Hx]. apply lookup_singleton_Some in Hx as [<- _]. lia.
  - intros pid [x Hx]. by rewrite lookup_empty in Hx.
  - intros i set Hi. by rewrite lookup_empty in Hi.
Qed.

Lemma finish_reclaims_witness :
  ∃ vm', finish_process_execution (λ _, true) 5 stopping_vm = (vm', Ok tt) ∧ no_trace 7 (vm_runtime vm') ∧
    (true = true → pid_id (worker_pid 7) = 7%N → stopped_identity_matches (λ _, true) (vm_runtime vm') (worker_pid 7) = true).
Proof.
  apply (finish_reclaims (λ _, true) 5 7 sample_record (worker 7 Stopping) stopping_vm).
  - exact stopping_vm_wf.
  - reflexivity.
  - reflexivity.
  - reflexivity.
  - reflexivity.
  - intros i other Hne Hi. simpl in Hi. by apply lookup_singleton_Some in Hi as [? _].
Defined.

End SupervisionProps.
