(* ===== verification/ParserCore.v ===== *)
(** * The token cursor of the parser ([crates/spire/src/parser/mod.rs])

    The parser is a hand-written recursive descent over the tokens of [Lexer].  Its
    state is a cursor into the token vector, a queue of synthetic tokens that were split
    off a longer one ([>>] closes two type argument lists), the targets of the enclosing
    [impl] blocks and the current nesting depth.  A parsing function is a computation of
    the state and error monad [M]: it changes the cursor whether it succeeds or fails,
    and indexing past the end of the tokens is a panic. *)

From stdpp Require Import pretty.
From S2P Require Import Prelude Names ListHandle Value ParseError StringLiteral Lexer.

(** The [{:?}] rendering of tokens in messages is derived by the compiler. *)
Class TokenDebug : Type := { debug_token : Token → str }.

Record Parser : Type := mkParser {
  tokens : list Spanned;
  synthetic_tokens : list Spanned;
  pos : nat;
  impl_target_stack : list str;
  parse_nesting_depth : nat;
}.

Definition with_cursor (p : Parser) (synthetic : list Spanned) (pos : nat) : Parser :=
  mkParser (tokens p) synthetic pos (impl_target_stack p) (parse_nesting_depth p).
Definition with_depth (p : Parser) (d : nat) : Parser :=
  mkParser (tokens p) (synthetic_tokens p) (pos p) (impl_target_stack p) d.

(** ** The parsing monad *)

Definition M (A : Type) : Type := Parser → Parser * Try ParseError A.

#[export] Instance M_ret : MRet M := λ A a p, (p, Ok a).
#[export] Instance M_bind : MBind M := λ A B k m p,
  match m p with
  | (p', Ok a) => k a p'
  | (p', Err e) => (p', Err e)
  end.

Definition throw {A} (e : ParseError) : M A := λ p, (p, Err (Failed e)).
Definition crash {A} (c : panic) : M A := λ p, (p, Err (Panicked c)).
Definition gets {A} (f : Parser → A) : M A := λ p, (p, Ok (f p)).

Module Parser.

Definition MAX_PARSE_NESTING : nat := 32.
Definition MAX_PARSE_NESTING_MESSAGE : str := lit "maximum parse nesting depth exceeded".
Definition IMPLICIT_ROOT_NAMESPACE : str := lit "Global".

(** ** Checks on the token vector before parsing *)

Fixpoint reject_nesting_from (depth : nat) (ts : list Spanned) : Result ParseError unit :=
  match ts with
  | [] => Ok tt
  | t :: ts' =>
      match sp_token t with
      | TLParen | TLBrack | TLBrace =>
          if decide (MAX_PARSE_NESTING < S depth)
          then Err (ParseError.syntax PositionRule MAX_PARSE_NESTING_MESSAGE (sp_span t))
          else reject_nesting_from (S depth) ts'
      | TRParen | TRBrack | TRBrace => reject_nesting_from (depth - 1) ts'
      | _ => reject_nesting_from depth ts'
      end
  end.
Definition reject_excessive_delimiter_nesting (ts : list Spanned) : Result ParseError unit :=
  reject_nesting_from 0 ts.

(** ** Looking and advancing *)

Definition front (p : Parser) : option Spanned :=
  match synthetic_tokens p with
  | t :: _ => Some t
  | [] => tokens p !! pos p
  end.

Definition peek : M Token := λ p,
  match front p with
  | Some t => (p, Ok (sp_token t))
  | None => (p, Err (Panicked PIndex))
  end.

Definition peek_n (n : nat) (p : Parser) : option Token :=
  if decide (n < length (synthetic_tokens p))
  then sp_token <$> synthetic_tokens p !! n
  else sp_token <$> tokens p !! (pos p + n - length (synthetic_tokens p)).

Definition peek_span : M Span := λ p,
  match front p with
  | Some t => (p, Ok (sp_span t))
  | None => (p, Err (Panicked PIndex))
  end.

Definition advance : M Spanned := λ p,
  match synthetic_tokens p with
  | t :: rest => (with_cursor p rest (pos p), Ok t)
  | [] =>
      match tokens p !! pos p with
      | Some t => (with_cursor p [] (S (pos p)), Ok t)
      | None => (p, Err (Panicked PIndex))
      end
  end.

Definition push_front (t : Spanned) : M unit := λ p,
  (with_cursor p (t :: synthetic_tokens p) (pos p), Ok tt).

(** ** Expecting tokens *)

Section Expect.
Context `{TokenDebug}.

Definition expected_token_name (expected : Token) : str :=
  match expected with
  | TRParen => lit ")"
  | TRBrace => lit "}"
  | TRBrack => lit "]"
  | _ => lit "token"
  end.

(** [self.peek() == expected]: the derived equality, on the tokens without a payload,
    which are all that is ever expected; [tag] numbers those. *)
Definition tag (t : Token) : option nat :=
  match t with
  | TTrue => Some 0 | TFalse => Some 1 | TUnit => Some 2 | TReservedEnv => Some 3 | TPlus => Some 4
  | TMinus => Some 5 | TStar => Some 6 | TSlash => Some 7 | TPercent => Some 8 | TBang => Some 9
  | TBind => Some 10 | TLt => Some 11 | TGt => Some 12 | TRParen => Some 13 | TLBrack => Some 14
  | TRBrack => Some 15 | TLBrace => Some 16 | TRBrace => Some 17 | TComma => Some 18 | TColon => Some 19
  | TDot => Some 20 | TQuestion => Some 21 | TSemicolon => Some 22 | TPipe => Some 23 | TAmp => Some 24
  | TTilde => Some 25 | TDollar => Some 26 | TCaret => Some 27 | TConcat => Some 28 | TSafeBind => Some 29
  | TEqEq => Some 30 | TBangEq => Some 31 | TLtEq => Some 32 | TGtEq => Some 33 | TLeftArrow => Some 34
  | TAndAnd => Some 35 | TOrOr => Some 36 | TDotDot => Some 37 | TFatArrow => Some 38 | TArrow => Some 39
  | TPipeApply => Some 40 | TCompose => Some 41 | TLiftCompose => Some 42 | TPipeMap => Some 43
  | TPipeBind => Some 44 | TPipeApplyContext => Some 45 | TChoice => Some 46 | TKleisliCompose => Some 47
  | TLParen => Some 48 | TAt => Some 49 | TNewline => Some 50 | TDef => Some 51 | TDefp => Some 52
  | TDefagent => Some 53 | TDefgenserver => Some 54 | TDefsupervisor => Some 55
  | TDefdynamicSupervisor => Some 56 | TSupervisorInit => Some 57 | TDefmod => Some 58
  | TNamespace => Some 59 | TDeftrait => Some 60 | TImport => Some 61 | TInclude => Some 62
  | TDefstruct => Some 63 | TDefrecord => Some 64 | TDeferror => Some 65 | TDefenumerror => Some 66
  | TDefenum => Some 67 | TDefextractor => Some 68 | TImpl => Some 69 | TFor => Some 70 | TMatch => Some 71
  | TDo => Some 72 | TWhen => Some 73 | TCond => Some 74 | TBulkUpdate => Some 75 | TPrivate => Some 76
  | TPublic => Some 77 | TReadonly => Some 78 | TConst => Some 79 | TType => Some 80 | TWhere => Some 81
  | TEof => Some 82
  | _ => None
  end.
Definition same_token (t expected : Token) : bool :=
  match tag t, tag expected with
  | Some i, Some j => i =? j
  | _, _ => false
  end.

Definition is_closer (t : Token) : bool :=
  match t with TRParen | TRBrace | TRBrack => true | _ => false end.
Definition is_eof (t : Token) : bool := match t with TEof => true | _ => false end.

Definition expect (expected : Token) : M Span :=
  sp ← peek_span;
  t ← peek;
  if same_token t expected then advance;; mret sp
  else if is_eof t && is_closer expected
  then throw (ParseError.incomplete (expected_token_name expected) sp)
  else throw (ParseError.syntax PositionRule
         (lit "Expected " ++ debug_token expected ++ lit ", got " ++ debug_token t) sp).

Definition expect_type_gt : M Span :=
  sp ← peek_span;
  t ← peek;
  match t with
  | TGt => advance;; mret sp
  | TGtEq =>
      '(mkSpanned _ combined) ← advance;
      push_front (mkSpanned TBind (mkSpanRange (S (span_start combined)) (span_end combined)));;
      mret (mkSpanRange (span_start combined) (S (span_start combined)))
  | TCompose =>
      '(mkSpanned _ composed) ← advance;
      push_front (mkSpanned TGt (mkSpanRange (S (span_start composed)) (span_end composed)));;
      mret (mkSpanRange (span_start composed) (S (span_start composed)))
  | TEof => throw (ParseError.incomplete (lit ">") sp)
  | other => throw (ParseError.syntax PositionRule (lit "Expected Gt, got " ++ debug_token other) sp)
  end.

Definition reflection_name (r : Reflection) : str :=
  match r with
  | ReflectFile => lit "__FILE__"
  | ReflectDir => lit "__DIR__"
  | ReflectLine => lit "__LINE__"
  end.

Definition expect_ident : M (str * Span) :=
  sp ← peek_span;
  t ← peek;
  match t with
  | TIdent name => advance;; mret (name, sp)
  | TReflection value =>
      throw (ParseError.syntax DeclarationSyntax
               (reflection_name value ++ lit " is reserved for source reflection") sp)
  | TReservedEnv =>
      throw (ParseError.syntax DeclarationSyntax (lit "`__ENV__` is reserved and cannot be defined") sp)
  | TEof => throw (ParseError.incomplete (lit "identifier") sp)
  | _ => throw (ParseError.syntax PositionRule (lit "Expected identifier, got " ++ debug_token t) sp)
  end.

(** ** Loops over the stream

    The tokens still to be read.  A loop that consumes a token in every round runs with
    the length of this list as fuel. *)

Definition remaining (p : Parser) : list Spanned := synthetic_tokens p ++ drop (pos p) (tokens p).
Definition rounds (p : Parser) : nat := S (length (remaining p)).

Fixpoint skip_newlines_loop (fuel : nat) : M unit :=
  match fuel with
  | 0 => crash PFuel
  | S fuel' =>
      t ← peek;
      match t with
      | TNewline => advance;; skip_newlines_loop fuel'
      | _ => mret tt
      end
  end.
Definition skip_newlines : M unit := n ← gets rounds; skip_newlines_loop n.

(** The depth counter goes back down whether the body succeeds or fails. *)
Definition with_parse_nesting {A} (span : Span) (f : M A) : M A := λ p,
  let d := S (parse_nesting_depth p) in
  if decide (MAX_PARSE_NESTING < d)
  then (p, Err (Failed (ParseError.syntax PositionRule MAX_PARSE_NESTING_MESSAGE span)))
  else let '(p', r) := f (with_depth p d) in (with_depth p' (parse_nesting_depth p' - 1), r).

(** ** Qualified names *)

Definition is_ident (t : option Token) : bool := match t with Some (TIdent _) => true | _ => false end.

Definition has_path_separator : M bool :=
  t ← peek;
  next ← gets (peek_n 1);
  mret (match t, next with TColon, Some TColon => true | _, _ => false end).

Definition consume_path_separator : M Span :=
  b ← has_path_separator;
  if b : bool then
    first ← peek_span;
    advance;;
    second ← peek_span;
    advance;;
    mret (mkSpanRange (span_start first) (span_end second))
  else
    sp ← peek_span;
    throw (ParseError.syntax PositionRule (lit "Expected `::`") sp).

(** [segments.join(_)]. *)
Fixpoint join (sep : str) (segments : list str) : str :=
  match segments with
  | [] => []
  | [s] => s
  | s :: rest => s ++ sep ++ join sep rest
  end.

Fixpoint path_loop (fuel max_segments : nat) (label : str) (start en : nat) (segments : list str) :
    M (list str * nat) :=
  match fuel with
  | 0 => crash PFuel
  | S fuel' =>
      sep ← has_path_separator;
      next ← gets (peek_n 2);
      if sep && is_ident next then
        consume_path_separator;;
        '(segment, sp) ← expect_ident;
        let segments := segments ++ [segment] in
        if decide (max_segments < length segments)
        then throw (ParseError.syntax PositionRule
               (label ++ lit " path must not exceed " ++ lit (pretty max_segments) ++ lit " segments")
               (mkSpanRange start (span_end sp)))
        else path_loop fuel' max_segments label start (span_end sp) segments
      else mret (segments, en)
  end.

Definition expect_qualified_ident (max_segments : nat) (label : str) : M (str * Span) :=
  '(first, first_span) ← expect_ident;
  n ← gets rounds;
  '(segments, en) ← path_loop n max_segments label (span_start first_span) (span_end first_span) [first];
  if bool_decide (1 < length segments) && bool_decide (head segments = Some IMPLICIT_ROOT_NAMESPACE)
  then throw (ParseError.syntax PositionRule
         (label ++ lit " path must not explicitly use reserved root namespace `" ++ IMPLICIT_ROOT_NAMESPACE
            ++ lit "`") (mkSpanRange (span_start first_span) en))
  else mret (join (lit "::") segments, mkSpanRange (span_start first_span) en).

End Expect.
End Parser.
