(* ===== verification/ParserLaws.v ===== *)
(** * Laws of the token cursor

    What the operations of [ParserCore] do to the tokens still to be read, the weakest
    precondition of a parsing function, and the reading relation: a stream of tokens is
    read as a sequence in which [>>] may stand for two closing brackets and [>=] for a
    bracket and an equals sign. *)

From S2P Require Import Prelude Names ListHandle Value ParseError StringLiteral Lexer ParserCore.

Module ParserLaws.
Import Parser.

(** ** The cursor *)

Definition next (p : Parser) : Parser :=
  match synthetic_tokens p with
  | _ :: rest => with_cursor p rest (pos p)
  | [] => with_cursor p [] (S (pos p))
  end.

(** What no parsing function changes from its start to its end. *)
Definition same (p p' : Parser) : Prop :=
  tokens p' = tokens p ∧ impl_target_stack p' = impl_target_stack p ∧
  parse_nesting_depth p' = parse_nesting_depth p.

#[export] Instance same_preorder : PreOrder same.
Proof. split; [by intros p|]. intros p q r (?&?&?) (?&?&?). split_and!; congruence. Qed.

(** The stream ends with the end-of-file token the tokenizer appends. *)
Definition well_ended (p : Parser) : Prop :=
  ∃ body e, remaining p = body ++ [e] ∧ sp_token e = TEof.

Lemma well_ended_check p :
  match last (remaining p) with Some e => is_eof (sp_token e) | None => false end = true → well_ended p.
Proof.
  unfold well_ended. destruct (remaining p) as [|e r _] using rev_ind; [done|]. rewrite last_snoc. intros He.
  exists r, e. split; [done|]. by destruct (sp_token e).
Qed.

Definition keeps (p p' : Parser) : Prop := same p p' ∧ well_ended p'.

Lemma keeps_after p q r : keeps p q → keeps q r → keeps p r.
Proof. intros [? _] [? ?]. split; [by etrans|done]. Qed.

Lemma well_ended_cons p : well_ended p → ∃ t r, remaining p = t :: r.
Proof. intros (body & e & -> & _). destruct body; eauto. Qed.

Lemma front_remaining p : front p = head (remaining p).
Proof.
  unfold front, remaining. destruct (synthetic_tokens p); simpl; [|done].
  by rewrite head_lookup, lookup_drop, Nat.add_0_r.
Qed.

Lemma peek_eq p t r : remaining p = t :: r → peek p = (p, Ok (sp_token t)).
Proof. intros H. unfold peek. by rewrite front_remaining, H. Qed.

Lemma peek_span_eq p t r : remaining p = t :: r → peek_span p = (p, Ok (sp_span t)).
Proof. intros H. unfold peek_span. by rewrite front_remaining, H. Qed.

Lemma advance_eq p t r : remaining p = t :: r → advance p = (next p, Ok t).
Proof.
  unfold advance, next, remaining. destruct (synthetic_tokens p) as [|x l]; simpl.
  - intros H. by rewrite <- (Nat.add_0_r (pos p)), <- lookup_drop, H at 1.
  - by intros [= -> _].
Qed.

Lemma remaining_next p t r : remaining p = t :: r → remaining (next p) = r.
Proof.
  unfold next, remaining. destruct (synthetic_tokens p) as [|x l]; simpl; [|by intros [= _ ->]].
  intros H. rewrite <- Nat.add_1_r, <- drop_drop, H. done.
Qed.

Lemma same_next p : same p (next p).
Proof. unfold next. by destruct (synthetic_tokens p). Qed.

Lemma keeps_next p t r :
  well_ended p → remaining p = t :: r → sp_token t ≠ TEof → keeps p (next p).
Proof.
  intros (body & e & Hr & He) Ht Hne. split; [apply same_next|].
  rewrite Ht in Hr. destruct body as [|x body]; simplify_eq/=.
  exists body, e. by rewrite (remaining_next _ _ _ Ht).
Qed.

Lemma peek_n_eq p n : peek_n n p = sp_token <$> remaining p !! n.
Proof.
  unfold peek_n, remaining. case_decide.
  - by rewrite lookup_app_l.
  - rewrite lookup_app_r, lookup_drop by lia. do 2 f_equal. lia.
Qed.

Lemma remaining_push p t : remaining (with_cursor p (t :: synthetic_tokens p) (pos p)) = t :: remaining p.
Proof. done. Qed.

Lemma remaining_with_depth p d : remaining (with_depth p d) = remaining p.
Proof. done. Qed.

(** ** Payload-free tokens *)

Definition plain_tokens : list Token :=
  [TTrue; TFalse; TUnit; TReservedEnv; TPlus; TMinus; TStar; TSlash; TPercent; TBang; TBind; TLt; TGt;
   TRParen; TLBrack; TRBrack; TLBrace; TRBrace; TComma; TColon; TDot; TQuestion; TSemicolon; TPipe; TAmp;
   TTilde; TDollar; TCaret; TConcat; TSafeBind; TEqEq; TBangEq; TLtEq; TGtEq; TLeftArrow; TAndAnd; TOrOr;
   TDotDot; TFatArrow; TArrow; TPipeApply; TCompose; TLiftCompose; TPipeMap; TPipeBind; TPipeApplyContext;
   TChoice; TKleisliCompose; TLParen; TAt; TNewline; TDef; TDefp; TDefagent; TDefgenserver; TDefsupervisor;
   TDefdynamicSupervisor; TSupervisorInit; TDefmod; TNamespace; TDeftrait; TImport; TInclude; TDefstruct;
   TDefrecord; TDeferror; TDefenumerror; TDefenum; TDefextractor; TImpl; TFor; TMatch; TDo; TWhen; TCond;
   TBulkUpdate; TPrivate; TPublic; TReadonly; TConst; TType; TWhere; TEof].

Lemma tag_plain t i : tag t = Some i → plain_tokens !! i = Some t.
Proof. by destruct t; intros [= <-]. Qed.

Lemma same_token_true t expected : same_token t expected = true → t = expected.
Proof.
  unfold same_token. destruct (tag t) as [i|] eqn:Ht; [|done].
  destruct (tag expected) as [j|] eqn:He; [|done]. intros ->%Nat.eqb_eq.
  apply tag_plain in Ht, He. congruence.
Qed.

(** ** Weakest preconditions *)

(** The function does not panic; when it returns, [Q] holds of the result and the new
    state; whether it returns or fails, it keeps the tokens, the enclosing targets, the
    nesting depth and the end of the stream. *)
Definition wp {A} (m : M A) (p : Parser) (Q : A → Parser → Prop) : Prop :=
  match m p with
  | (p', Ok a) => keeps p p' ∧ Q a p'
  | (p', Err (Failed _)) => keeps p p'
  | (_, Err (Panicked _)) => False
  end.

Lemma bind_run {A B} (m : M A) (k : A → M B) p p' a : m p = (p', Ok a) → (m ≫= k) p = k a p'.
Proof. unfold mbind, M_bind. by intros ->. Qed.

Lemma wp_ret {A} (a : A) p (Q : A → Parser → Prop) : well_ended p → Q a p → wp (mret a) p Q.
Proof. by intros. Qed.

Lemma wp_throw {A} e p (Q : A → Parser → Prop) : well_ended p → wp (throw e) p Q.
Proof. by intros. Qed.

Lemma wp_bind {A B} (m : M A) (k : A → M B) p (Q : B → Parser → Prop) :
  wp m p (λ a p', wp (k a) p' Q) → wp (m ≫= k) p Q.
Proof.
  unfold wp, mbind, M_bind. destruct (m p) as [p' [a|[c|e]]]; [|done..].
  intros [Hk H]. destruct (k a p') as [p'' [b|[c|e]]]; [|done|].
  - destruct H. split; [by eapply keeps_after|done].
  - by eapply keeps_after.
Qed.

Lemma wp_mono {A} (m : M A) p (Q Q' : A → Parser → Prop) :
  wp m p Q → (∀ a p', keeps p p' → Q a p' → Q' a p') → wp m p Q'.
Proof. unfold wp. destruct (m p) as [p' [a|[c|e]]]; naive_solver. Qed.

(** A function that continues as another one from a later state. *)
Lemma wp_continue {A} (m m' : M A) p p' (Q : A → Parser → Prop) :
  m p = m' p' → keeps p p' → wp m' p' Q → wp m p Q.
Proof.
  unfold wp. intros -> Hk. destruct (m' p') as [q [a|[c|e]]]; [|done|by apply keeps_after].
  intros [??]. split; [by eapply keeps_after|done].
Qed.

Lemma wp_gets {A} (f : Parser → A) p (Q : A → Parser → Prop) : well_ended p → Q (f p) p → wp (gets f) p Q.
Proof. by intros. Qed.

Lemma wp_peek p (Q : Token → Parser → Prop) :
  well_ended p → (∀ t r, remaining p = t :: r → Q (sp_token t) p) → wp peek p Q.
Proof.
  intros Hw HQ. destruct (well_ended_cons _ Hw) as (t & r & Hr). unfold wp.
  rewrite (peek_eq _ _ _ Hr). split; [by split|eauto].
Qed.

Lemma wp_peek_span p (Q : Span → Parser → Prop) :
  well_ended p → (∀ t r, remaining p = t :: r → Q (sp_span t) p) → wp peek_span p Q.
Proof.
  intros Hw HQ. destruct (well_ended_cons _ Hw) as (t & r & Hr). unfold wp.
  rewrite (peek_span_eq _ _ _ Hr). split; [by split|eauto].
Qed.

Lemma wp_advance p t r (Q : Spanned → Parser → Prop) :
  well_ended p → remaining p = t :: r → sp_token t ≠ TEof →
  (keeps p (next p) → remaining (next p) = r → Q t (next p)) → wp advance p Q.
Proof.
  intros Hw Hr Ht HQ. unfold wp. rewrite (advance_eq _ _ _ Hr).
  pose proof (keeps_next _ _ _ Hw Hr Ht). split; [done|]. apply HQ; [done|by eapply remaining_next].
Qed.

Lemma wp_nesting {A} span (f : M A) p (Q : A → Parser → Prop) :
  well_ended p →
  (S (parse_nesting_depth p) ≤ MAX_PARSE_NESTING →
   wp f (with_depth p (S (parse_nesting_depth p)))
     (λ a p', Q a (with_depth p' (parse_nesting_depth p)))) →
  wp (with_parse_nesting span f) p Q.
Proof.
  intros Hw Hf. unfold wp, with_parse_nesting. cbv zeta. case_decide as Hd; [by split|].
  apply Nat.nlt_ge in Hd. specialize (Hf Hd). unfold wp in Hf.
  destruct (f _) as [p' [a|[c|e]]]; [..|done|].
  - destruct Hf as [[(?&?&Hp) Hwe] HQ]. simpl in Hp. rewrite Hp. simpl. rewrite Nat.sub_0_r.
    split; [|done]. split; [by split_and!|]. done.
  - destruct Hf as [(?&?&Hp) Hwe]. simpl in Hp. rewrite Hp. simpl. rewrite Nat.sub_0_r.
    split; [by split_and!|]. done.
Qed.

(** ** Runs that succeed *)

(** The function returns [a] and leaves [r] to be read. *)
Definition runs {A} (m : M A) (p : Parser) (a : A) (r : list Spanned) : Prop :=
  ∃ p', m p = (p', Ok a) ∧ remaining p' = r ∧ same p p'.

Lemma runs_ret {A} (a : A) p r : remaining p = r → runs (mret a) p a r.
Proof. intros. by exists p. Qed.

Lemma runs_gets {A} (f : Parser → A) p : runs (gets f) p (f p) (remaining p).
Proof. by exists p. Qed.

Lemma runs_bind {A B} (m : M A) (k : A → M B) p a b r r' :
  runs m p a r → (∀ p', remaining p' = r → same p p' → runs (k a) p' b r') → runs (m ≫= k) p b r'.
Proof.
  intros (p' & Hm & Hr & Hs) Hk. destruct (Hk p' Hr Hs) as (p'' & Hk' & Hr' & Hs').
  exists p''. rewrite (bind_run _ _ _ _ _ Hm). split_and!; [done..|by etrans].
Qed.

Lemma runs_peek p t r : remaining p = t :: r → runs peek p (sp_token t) (t :: r).
Proof. intros H. exists p. by rewrite (peek_eq _ _ _ H). Qed.

Lemma runs_peek_span p t r : remaining p = t :: r → runs peek_span p (sp_span t) (t :: r).
Proof. intros H. exists p. by rewrite (peek_span_eq _ _ _ H). Qed.

Lemma runs_advance p t r : remaining p = t :: r → runs advance p t r.
Proof.
  intros H. exists (next p). rewrite (advance_eq _ _ _ H), (remaining_next _ _ _ H).
  split_and!; [done..|apply same_next].
Qed.

Lemma runs_push p t : runs (push_front t) p tt (t :: remaining p).
Proof. eexists. by rewrite <- remaining_push. Qed.

Lemma runs_nesting {A} span (f : M A) p (a : A) r :
  S (parse_nesting_depth p) ≤ MAX_PARSE_NESTING → runs f (with_depth p (S (parse_nesting_depth p))) a r →
  runs (with_parse_nesting span f) p a r.
Proof.
  intros Hd (p' & Hf & Hr & (? & ? & Hs)). unfold runs, with_parse_nesting. cbv zeta.
  rewrite decide_False by lia. rewrite Hf. eexists. split_and!; [done|by rewrite remaining_with_depth|].
  simpl in Hs. rewrite Hs. simpl. rewrite Nat.sub_0_r. by split_and!.
Qed.

Lemma well_ended_suffix p p' body r :
  well_ended p → remaining p = body ++ r → remaining p' = r → r ≠ [] → well_ended p'.
Proof.
  intros (b & e & Hp & He) Hr Hp' Hne. destruct r as [|x r _] using rev_ind; [done|].
  rewrite Hr, app_assoc in Hp. apply app_inj_tail in Hp as [_ ->]. by exists r, e.
Qed.

Lemma runs_wp {A} (m : M A) p a body r (Q : A → Parser → Prop) :
  runs m p a r → well_ended p → remaining p = body ++ r → r ≠ [] →
  (∀ p', keeps p p' → remaining p' = r → Q a p') → wp m p Q.
Proof.
  intros (p' & Hm & Hr & Hs) Hw Hb Hne HQ. unfold wp. rewrite Hm.
  assert (keeps p p') by (split; [done|by eapply well_ended_suffix]). split; [done|by apply HQ].
Qed.

(** ** The reading relation *)

Definition split_gt (t : Spanned) : option (Spanned * Spanned) :=
  let first := mkSpanRange (span_start (sp_span t)) (S (span_start (sp_span t))) in
  let second := mkSpanRange (S (span_start (sp_span t))) (span_end (sp_span t)) in
  match sp_token t with
  | TGtEq => Some (mkSpanned TGt first, mkSpanned TBind second)
  | TCompose => Some (mkSpanned TGt first, mkSpanned TGt second)
  | _ => None
  end.

(** [reads c ts r]: the stream [c] starts with the tokens [ts], up to splitting, and
    [r] is what is left of it. *)
Inductive reads : list Spanned → list Spanned → list Spanned → Prop :=
| reads_nil c : reads c [] c
| reads_tok t c ts r : reads c ts r → reads (t :: c) (t :: ts) r
| reads_split t a b c ts r : split_gt t = Some (a, b) → reads (b :: c) ts r → reads (t :: c) (a :: ts) r.

Lemma reads_app c ts r ts' r' : reads c ts r → reads r ts' r' → reads c (ts ++ ts') r'.
Proof. induction 1; intros; simpl; eauto using reads. Qed.

Lemma reads_one c t r : c = t :: r → reads c [t] r.
Proof. intros ->. repeat constructor. Qed.

Lemma reads_exact body r : reads (body ++ r) body r.
Proof. induction body; simpl; by constructor. Qed.

(** Only a closing bracket comes out of a split. *)
Lemma reads_cons_inv c t ts r :
  reads c (t :: ts) r → sp_token t ≠ TGt → ∃ c', c = t :: c' ∧ reads c' ts r.
Proof.
  intros H Ht. inversion H as [|? c' ? ? Hr|u a b c' ? ? Hs Hr]; simplify_eq; [by eauto|].
  unfold split_gt in Hs. destruct (sp_token u); simplify_eq/=.
Qed.

Lemma reads_app_inv c ts ts' r : reads c (ts ++ ts') r → ∃ m, reads c ts m ∧ reads m ts' r.
Proof.
  revert c. induction ts as [|t ts IH]; intros c H; [exists c; eauto using reads|].
  simpl in H. inversion H as [|? c' ? ? Hr|u a b c' ? ? Hs Hr]; simplify_eq.
  - destruct (IH _ Hr) as (m & ? & ?). eauto using reads.
  - destruct (IH _ Hr) as (m & ? & ?). eauto using reads.
Qed.

Lemma reads_plain c ts r : Forall (λ t, sp_token t ≠ TGt) ts → reads c ts r → c = ts ++ r.
Proof.
  revert c. induction ts as [|t ts IH]; intros c Hts Hr; [by inversion Hr|].
  apply Forall_cons in Hts as [Ht Hts]. apply reads_cons_inv in Hr as (c' & -> & Hr); [|done].
  by rewrite (IH _ Hts Hr).
Qed.

Lemma reads_length c ts r : reads c ts r → length r ≤ length c.
Proof. induction 1; simpl in *; lia. Qed.

(** ** Newlines *)

Definition newline (t : Spanned) : Prop := sp_token t = TNewline.
Abbreviation newlines := (Forall newline).
Definition starts_newline (r : list Spanned) : bool :=
  match r with t :: _ => match sp_token t with TNewline => true | _ => false end | [] => false end.

Lemma reads_newlines c nl r : reads c nl r → newlines nl → c = nl ++ r.
Proof. intros Hr Hnl. eapply reads_plain; [|done]. eapply Forall_impl; [done|]. by intros t ->. Qed.

Lemma skip_newlines_loop_runs fuel p nl r :
  remaining p = nl ++ r → newlines nl → r ≠ [] → starts_newline r = false → length nl < fuel →
  runs (skip_newlines_loop fuel) p tt r.
Proof.
  revert p nl. induction fuel as [|fuel IH]; intros p nl Hp Hnl Hne Hr Hf; [lia|]. simpl.
  destruct nl as [|t nl]; simpl in *.
  - destruct r as [|t r]; [done|]. eapply runs_bind; [by apply runs_peek|].
    intros p' Hp' _. simpl in Hr. destruct (sp_token t); try done; by apply runs_ret.
  - apply Forall_cons in Hnl as [Ht Hnl].
    eapply runs_bind; [by apply runs_peek|]. intros p' Hp' _. rewrite Ht.
    eapply runs_bind; [by apply runs_advance|]. intros p'' Hp'' _. apply (IH _ nl); [done..|lia].
Qed.

Lemma skip_newlines_runs p nl r :
  remaining p = nl ++ r → newlines nl → r ≠ [] → starts_newline r = false → runs skip_newlines p tt r.
Proof.
  intros Hp ???. eapply runs_bind; [apply runs_gets|]. intros p' Hp' _.
  eapply skip_newlines_loop_runs; [by rewrite Hp'|done..|].
  unfold rounds. rewrite Hp, length_app. lia.
Qed.

Lemma newlines_split p :
  well_ended p → ∃ nl r, remaining p = nl ++ r ∧ newlines nl ∧ r ≠ [] ∧ starts_newline r = false.
Proof.
  intros (body & e & -> & He). induction body as [|t body (nl & r & IH & ? & ? & ?)].
  - exists [], [e]. split_and!; [done..|]. simpl. by rewrite He.
  - destruct (sp_token t) eqn:Ht;
      try (exists [], (t :: body ++ [e]); split_and!; [done..|]; simpl; by rewrite Ht).
    exists (t :: nl), r. simpl. rewrite IH. split_and!; [done| |done..]. by constructor.
Qed.

Lemma wp_skip_newlines p (Q : unit → Parser → Prop) :
  well_ended p →
  (∀ nl p', keeps p p' → newlines nl → reads (remaining p) nl (remaining p') → Q tt p') →
  wp skip_newlines p Q.
Proof.
  intros Hw HQ. destruct (newlines_split _ Hw) as (nl & r & Hr & Hnl & Hne & Hs).
  eapply runs_wp; [by eapply skip_newlines_runs|done..|]. intros p' Hk Hp'.
  apply (HQ nl); [done..|]. rewrite Hr, Hp'. apply reads_exact.
Qed.

(** ** Expected tokens *)

Section Expect.
Context `{TokenDebug}.

Lemma runs_expect p t r expected :
  remaining p = t :: r → sp_token t = expected → same_token expected expected = true →
  runs (expect expected) p (sp_span t) r.
Proof.
  intros Hp Ht Hs. unfold expect.
  eapply runs_bind; [by apply runs_peek_span|]. intros p1 Hp1 _.
  eapply runs_bind; [by apply runs_peek|]. intros p2 Hp2 _. rewrite Ht, Hs.
  eapply runs_bind; [by apply runs_advance|]. intros p3 Hp3 _. by apply runs_ret.
Qed.

Lemma wp_expect p expected (Q : Span → Parser → Prop) :
  well_ended p → expected ≠ TEof →
  (∀ t p', keeps p p' → sp_token t = expected → reads (remaining p) [t] (remaining p') → Q (sp_span t) p') →
  wp (expect expected) p Q.
Proof.
  intros Hw He HQ. apply wp_bind, wp_peek_span; [done|]. intros t r Hr.
  apply wp_bind, wp_peek; [done|]. intros t' r' Hr'. rewrite Hr in Hr'. injection Hr' as <- <-.
  destruct (same_token _ _) eqn:Hs.
  - apply same_token_true in Hs. eapply wp_bind, wp_advance; [done..|congruence|]. intros Hk Hn.
    apply wp_ret; [apply Hk|]. apply HQ; [done..|]. by apply reads_one; rewrite Hr, Hn.
  - destruct (_ && _); by apply wp_throw.
Qed.

Lemma runs_expect_type_gt p g ts r :
  reads (remaining p) (g :: ts) r → sp_token g = TGt →
  ∃ c, runs expect_type_gt p (sp_span g) c ∧ reads c ts r.
Proof.
  intros Hr Hg. inversion Hr as [|? c ? ? Hc Hp|u a b c ? ? Hs Hc Hp]; simplify_eq; symmetry in Hp.
  - exists c. split; [|done]. unfold expect_type_gt.
    eapply runs_bind; [by apply runs_peek_span|]. intros p1 Hp1 _.
    eapply runs_bind; [by apply runs_peek|]. intros p2 Hp2 _. rewrite Hg.
    eapply runs_bind; [by apply runs_advance|]. intros p3 Hp3 _. by apply runs_ret.
  - exists (b :: c). split; [|done]. unfold expect_type_gt.
    eapply runs_bind; [by apply runs_peek_span|]. intros p1 Hp1 _.
    eapply runs_bind; [by apply runs_peek|]. intros p2 Hp2 _.
    unfold split_gt in Hs. destruct u as [tok sp], tok; simplify_eq/=;
      (eapply runs_bind; [by apply runs_advance|]; intros p3 Hp3 _; simpl;
       eapply runs_bind; [apply runs_push|]; intros p4 Hp4 _; apply runs_ret; by rewrite Hp4, Hp3).
Qed.

Lemma keeps_split p t u :
  well_ended p → sp_token t ≠ TEof → remaining p = t :: remaining (next p) →
  keeps p (with_cursor (next p) (u :: synthetic_tokens (next p)) (pos (next p))).
Proof.
  intros Hw Ht Hp. destruct (keeps_next _ _ _ Hw Hp Ht) as [Hs (b & e & Hb & He)].
  split; [by destruct Hs as (?&?&?); split_and!|].
  exists (u :: b), e. by rewrite remaining_push, Hb.
Qed.

Lemma wp_expect_type_gt p (Q : Span → Parser → Prop) :
  well_ended p →
  (∀ g p', keeps p p' → sp_token g = TGt → reads (remaining p) [g] (remaining p') → Q (sp_span g) p') →
  wp expect_type_gt p Q.
Proof.
  intros Hw HQ. apply wp_bind, wp_peek_span; [done|]. intros [tok sp] r Hr.
  apply wp_bind, wp_peek; [done|]. intros t' r' Hr'. rewrite Hr in Hr'. injection Hr' as <- <-. simpl.
  pose proof (advance_eq _ _ _ Hr) as Ha. pose proof (remaining_next _ _ _ Hr) as Hn.
  destruct tok; try (by apply wp_throw); unfold wp; rewrite (bind_run _ _ _ _ _ Ha); simpl.
  - assert (Hk : keeps p (next p)) by by eapply keeps_next.
    split; [done|]. apply (HQ (mkSpanned TGt sp)); [done..|]. by apply reads_one; rewrite Hr, Hn.
  - assert (Hk : keeps p (with_cursor (next p) (mkSpanned TBind (mkSpanRange (S (span_start sp)) (span_end sp))
      :: synthetic_tokens (next p)) (pos (next p)))) by (eapply keeps_split; [done| |by rewrite Hn]; done).
    split; [done|]. eapply (HQ (mkSpanned TGt _)); [done..|].
    rewrite remaining_push, Hr, Hn. eapply reads_split; [done|constructor].
  - assert (Hk : keeps p (with_cursor (next p) (mkSpanned TGt (mkSpanRange (S (span_start sp)) (span_end sp))
      :: synthetic_tokens (next p)) (pos (next p)))) by (eapply keeps_split; [done| |by rewrite Hn]; done).
    split; [done|]. eapply (HQ (mkSpanned TGt _)); [done..|].
    rewrite remaining_push, Hr, Hn. eapply reads_split; [done|constructor].
Qed.

Lemma runs_expect_ident p t r name :
  remaining p = t :: r → sp_token t = TIdent name → runs expect_ident p (name, sp_span t) r.
Proof.
  intros Hp Ht. unfold expect_ident.
  eapply runs_bind; [by apply runs_peek_span|]. intros p1 Hp1 _.
  eapply runs_bind; [by apply runs_peek|]. intros p2 Hp2 _. rewrite Ht.
  eapply runs_bind; [by apply runs_advance|]. intros p3 Hp3 _. by apply runs_ret.
Qed.

Lemma wp_expect_ident p (Q : str * Span → Parser → Prop) :
  well_ended p →
  (∀ t name p', keeps p p' → sp_token t = TIdent name → remaining p = t :: remaining p' →
     Q (name, sp_span t) p') →
  wp expect_ident p Q.
Proof.
  intros Hw HQ. apply wp_bind, wp_peek_span; [done|]. intros t r Hr.
  apply wp_bind, wp_peek; [done|]. intros t' r' Hr'. rewrite Hr in Hr'. injection Hr' as <- <-.
  destruct (sp_token t) eqn:Ht; try (by apply wp_throw).
  eapply wp_bind, wp_advance; [done..|congruence|]. intros Hk Hn.
  apply wp_ret; [apply Hk|]. apply HQ; [done..|congruence].
Qed.

End Expect.

(** ** Qualified names *)

(** The further segments of a path: [:: name] any number of times, with the end of the
    last one. *)
Inductive path_tail : list Spanned → list str → nat → nat → Prop :=
| path_done en : path_tail [] [] en en
| path_more c1 c2 t name ts more en en' :
    sp_token c1 = TColon → sp_token c2 = TColon → sp_token t = TIdent name →
    path_tail ts more (span_end (sp_span t)) en' →
    path_tail (c1 :: c2 :: t :: ts) (name :: more) en en'.

(** A path of at most [max] segments; only a single segment may be the name of the
    implicit root. *)
Definition path_syntax (max : nat) (ts : list Spanned) (name : str) (sp : Span) : Prop :=
  ∃ t first rest more en,
    ts = t :: rest ∧ sp_token t = TIdent first ∧ path_tail rest more (span_end (sp_span t)) en ∧
    S (length more) ≤ max ∧ (more ≠ [] → first ≠ IMPLICIT_ROOT_NAMESPACE) ∧
    name = join (lit "::") (first :: more) ∧ sp = mkSpanRange (span_start (sp_span t)) en.

(** The stream goes on with another segment. *)
Definition path_continues (r : list Spanned) : bool :=
  match sp_token <$> r !! 0, sp_token <$> r !! 1, sp_token <$> r !! 2 with
  | Some TColon, Some TColon, Some (TIdent _) => true
  | _, _, _ => false
  end.

Lemma runs_has_path_separator p r :
  remaining p = r → r ≠ [] →
  runs has_path_separator p
    match sp_token <$> r !! 0, sp_token <$> r !! 1 with Some TColon, Some TColon => true | _, _ => false end r.
Proof.
  intros Hp Hr. destruct r as [|t r]; [done|]. unfold has_path_separator.
  eapply runs_bind; [by apply runs_peek|]. intros p1 Hp1 _.
  eapply runs_bind; [apply runs_gets|]. intros p2 Hp2 _.
  rewrite peek_n_eq, Hp1. simpl. destruct (sp_token t); apply runs_ret; congruence.
Qed.

Lemma runs_consume_path_separator p c1 c2 r :
  remaining p = c1 :: c2 :: r → sp_token c1 = TColon → sp_token c2 = TColon →
  runs consume_path_separator p (mkSpanRange (span_start (sp_span c1)) (span_end (sp_span c2))) r.
Proof.
  intros Hp H1 H2. unfold consume_path_separator.
  eapply runs_bind; [by eapply runs_has_path_separator|]. intros p1 Hp1 _. simpl. rewrite H1, H2.
  eapply runs_bind; [by apply runs_peek_span|]. intros p2 Hp2 _.
  eapply runs_bind; [by apply runs_advance|]. intros p3 Hp3 _.
  eapply runs_bind; [by apply runs_peek_span|]. intros p4 Hp4 _.
  eapply runs_bind; [by apply runs_advance|]. intros p5 Hp5 _. by apply runs_ret.
Qed.

Section Paths.
Context `{TokenDebug}.

Lemma continues_false_sep r :
  path_continues r = false →
  match sp_token <$> r !! 0, sp_token <$> r !! 1 with Some TColon, Some TColon => true | _, _ => false end
    && is_ident (sp_token <$> r !! 2) = false.
Proof.
  unfold path_continues.
  destruct (sp_token <$> r !! 0) as [a|], (sp_token <$> r !! 1) as [b|]; [|by destruct a|done..].
  destruct a; try done. by destruct b.
Qed.

Lemma continues_true r :
  path_continues r = true →
  ∃ c1 c2 t name r', r = c1 :: c2 :: t :: r' ∧
    sp_token c1 = TColon ∧ sp_token c2 = TColon ∧ sp_token t = TIdent name.
Proof.
  unfold path_continues. destruct r as [|c1 r]; [done|]. simpl. destruct (sp_token c1) eqn:H1; try done.
  destruct r as [|c2 r]; [done|]. simpl. destruct (sp_token c2) eqn:H2; try done.
  destruct r as [|t r]; [done|]. simpl. destruct (sp_token t) eqn:H3; try done.
  intros _. by repeat eexists.
Qed.

Lemma path_loop_stop fuel max label start en segments p :
  remaining p ≠ [] → path_continues (remaining p) = false →
  runs (path_loop (S fuel) max label start en segments) p (segments, en) (remaining p).
Proof.
  intros Hne Hc. simpl. eapply runs_bind; [by apply runs_has_path_separator|]. intros p1 Hp1 _.
  eapply runs_bind; [apply runs_gets|]. intros p2 Hp2 _. rewrite peek_n_eq, Hp1, continues_false_sep by done.
  apply runs_ret. congruence.
Qed.

(** One round of the loop: the next segment is read and, unless the path is now too
    long, the loop goes on. *)
Lemma path_loop_step fuel max label start en segments p c1 c2 t name r :
  remaining p = c1 :: c2 :: t :: r → sp_token c1 = TColon → sp_token c2 = TColon → sp_token t = TIdent name →
  ∃ p', remaining p' = r ∧ same p p' ∧
    path_loop (S fuel) max label start en segments p =
      if decide (max < length (segments ++ [name]))
      then (p', Err (Failed (ParseError.syntax PositionRule
             (label ++ lit " path must not exceed " ++ lit (pretty.pretty max) ++ lit " segments")
             (mkSpanRange start (span_end (sp_span t))))))
      else path_loop fuel max label start (span_end (sp_span t)) (segments ++ [name]) p'.
Proof.
  intros Hp H1 H2 Ht.
  destruct (runs_has_path_separator p _ Hp ltac:(done)) as (p1 & E1 & Hp1 & Hs1).
  destruct (runs_consume_path_separator p1 c1 c2 (t :: r) ltac:(done) H1 H2) as (p2 & E2 & Hp2 & Hs2).
  destruct (runs_expect_ident p2 t r name Hp2 Ht) as (p3 & E3 & Hp3 & Hs3).
  exists p3. split_and!; [done|by do 2 (etrans; [eassumption|])|].
  cbn [path_loop]. rewrite (bind_run _ _ _ _ _ E1), (bind_run (gets _) _ p1 p1 _ eq_refl).
  rewrite peek_n_eq, Hp1. simpl. rewrite H1, H2, Ht. simpl.
  rewrite (bind_run _ _ _ _ _ E2), (bind_run _ _ _ _ _ E3). by case_decide.
Qed.

Lemma runs_path_loop fuel max label start en segments p ts more en' r :
  path_tail ts more en en' → remaining p = ts ++ r → r ≠ [] → path_continues r = false →
  length segments + length more ≤ max → length ts < fuel →
  runs (path_loop fuel max label start en segments) p (segments ++ more, en') r.
Proof.
  intros Hpt. revert fuel segments p.
  induction Hpt as [en|c1 c2 t name ts more en en' H1 H2 Ht _ IH];
    intros fuel segments p Hp Hne Hc Hmax Hf; (destruct fuel as [|fuel]; [simpl in *; lia|]).
  - simpl in Hp. subst r. rewrite app_nil_r. by apply path_loop_stop.
  - simpl in Hp, Hmax, Hf.
    destruct (path_loop_step fuel max label start en segments p _ _ _ _ _ Hp H1 H2 Ht) as (p' & Hp' & Hs & Heq).
    rewrite decide_False in Heq by (rewrite length_app; simpl; lia).
    destruct (IH fuel (segments ++ [name]) p' Hp' Hne Hc) as (p'' & E & ? & ?);
      [rewrite length_app; simpl; lia|lia|].
    exists p''. rewrite Heq, E, <- app_assoc. split_and!; [done..|by etrans].
Qed.

Lemma wp_path_loop fuel max label start en segments p (Q : list str * nat → Parser → Prop) :
  well_ended p → length segments ≤ max → length (remaining p) < fuel →
  (∀ ts more en' p', keeps p p' → path_tail ts more en en' → length segments + length more ≤ max →
     remaining p = ts ++ remaining p' → Q (segments ++ more, en') p') →
  wp (path_loop fuel max label start en segments) p Q.
Proof.
  revert en segments p Q. induction fuel as [|fuel IH]; intros en segments p Q Hw Hmax Hf HQ; [lia|].
  destruct (well_ended_cons _ Hw) as (x & xs & Hx).
  destruct (path_continues (remaining p)) eqn:Hc.
  - destruct (continues_true _ Hc) as (c1 & c2 & t & name & r & Hp & H1 & H2 & Ht).
    destruct (path_loop_step fuel max label start en segments p _ _ _ _ _ Hp H1 H2 Ht) as (p' & Hp' & Hs & Heq).
    assert (Hk : keeps p p').
    { split; [done|]. destruct Hw as (b & e & Hb & He). rewrite Hp in Hb.
      destruct b as [|? [|? [|? b]]]; simplify_eq/=; [congruence|]. by exists b, e. }
    case_decide as Hd; rewrite length_app in Hd; simpl in Hd.
    { eapply (wp_continue _ (throw _)); [apply Heq|done|]. apply wp_throw, Hk. }
    eapply wp_continue; [apply Heq|done|].
    apply IH; [apply Hk|rewrite length_app; simpl; lia|rewrite Hp', Hp in *; simpl in Hf; lia|].
    intros ts more en' q Hq Hpt Hl Hr. rewrite <- app_assoc. apply (HQ (c1 :: c2 :: t :: ts)).
    + by eapply keeps_after.
    + by econstructor.
    + rewrite length_app in Hl. simpl in *. lia.
    + rewrite Hp. simpl. congruence.
  - eapply (runs_wp _ _ _ []); [apply path_loop_stop; [by rewrite Hx|done]|done|done|by rewrite Hx|].
    intros p' Hk Hr. rewrite <- (app_nil_r segments). apply (HQ []); [done|constructor|simpl; lia|done].
Qed.

Lemma runs_qualified_ident p max label ts name sp r :
  path_syntax max ts name sp → remaining p = ts ++ r → r ≠ [] → path_continues r = false →
  runs (expect_qualified_ident max label) p (name, sp) r.
Proof.
  intros (t & first & rest & more & en & -> & Ht & Hpt & Hmax & Hroot & -> & ->) Hp Hne Hc.
  unfold expect_qualified_ident.
  eapply runs_bind; [by apply runs_expect_ident|]. intros p1 Hp1 _. simpl.
  eapply runs_bind; [apply runs_gets|]. intros p2 Hp2 _.
  eapply runs_bind.
  { eapply runs_path_loop; [done|rewrite Hp2; apply Hp1|done..|unfold rounds; rewrite Hp1, length_app; lia]. }
  intros p3 Hp3 _. simpl.
  destruct (bool_decide (1 < _)) eqn:H1; simpl; [|by apply runs_ret].
  apply bool_decide_eq_true in H1. simpl in H1.
  rewrite bool_decide_eq_false_2; [by apply runs_ret|].
  intros [= ->]. apply Hroot; [|done]. by destruct more; simpl in *; [lia|].
Qed.

Lemma wp_qualified_ident p max label (Q : str * Span → Parser → Prop) :
  well_ended p → 1 ≤ max →
  (∀ ts name sp p', keeps p p' → path_syntax max ts name sp → remaining p = ts ++ remaining p' →
     Q (name, sp) p') →
  wp (expect_qualified_ident max label) p Q.
Proof.
  intros Hw Hmax HQ. apply wp_bind, wp_expect_ident; [done|]. intros t first p1 Hk1 Ht Hp1. simpl.
  apply wp_bind, wp_gets; [apply Hk1|].
  apply wp_bind, wp_path_loop; [apply Hk1|done|unfold rounds; lia|].
  intros ts more en p2 Hk2 Hpt Hl Hp2. simpl. destruct (bool_decide _ && bool_decide _) eqn:Hb.
  { apply wp_throw, Hk2. }
  apply wp_ret; [apply Hk2|]. apply (HQ (t :: ts)).
  - by eapply keeps_after.
  - exists t, first, ts, more, en. split_and!; [done..| |done|done]. intros Hm ->.
    apply andb_false_iff in Hb as [Hb|Hb]; apply bool_decide_eq_false in Hb; [|done].
    apply Hb. destruct more; [done|simpl; lia].
  - rewrite Hp1, Hp2. done.
Qed.

End Paths.

End ParserLaws.
