(* ===== verification/TypeParser.v ===== *)
(** * Type annotations ([crates/spire/src/parser/ty.rs])

    The recursive descent that reads a type: names and paths, type variables, applied
    constructors, tuples, functions and the [?] suffix.  Every recursive call is made
    inside [with_parse_nesting], so that recursion deeper than [MAX_PARSE_NESTING] ends in
    an error; one more level of fuel than that is always enough.  The loops over
    arguments and over [?] consume a token per round and run with [rounds] as fuel. *)

From S2P Require Import Prelude Names ListHandle Value ParseError StringLiteral Lexer ParserCore.

Inductive AstTy : Type :=
| Named (span : Span) (name : str)
| ImplTrait (span : Span) (name : str)
| Generic (span : Span) (name : str) (args : list AstTy)
| Tuple (span : Span) (items : list AstTy)
| Func (span : Span) (params : list AstTy) (ret : AstTy).

Inductive TypePosition : Type := General | DirectSignatureParameter | DirectSignatureReturn.

Record TypeParseContext : Type := mkTypeParseContext {
  impl_target : option str;
  position_of : TypePosition;
  declaration_constructor_variables : list str;
}.

(** A type parameter of a declaration ([ast.rs]). *)
Record TypeParam : Type := mkTypeParam { tp_name : str; tp_bound : option str; tp_span : Span }.

Module TypeParser.
Import Parser.

Definition ast_ty_span (ty : AstTy) : Span :=
  match ty with
  | Named span _ | ImplTrait span _ | Generic span _ _ | Tuple span _ | Func span _ _ => span
  end.

(** ** Contexts *)

Definition general (target : option str) : TypeParseContext := mkTypeParseContext target General [].
Definition direct_signature_parameter (target : option str) : TypeParseContext :=
  mkTypeParseContext target DirectSignatureParameter [].
Definition direct_signature_return (target : option str) : TypeParseContext :=
  mkTypeParseContext target DirectSignatureReturn [].
Definition nominal_declaration (type_params : list TypeParam) : TypeParseContext :=
  mkTypeParseContext None General (tp_name <$> filter (λ param, is_Some (tp_bound param)) type_params).
Definition nested (c : TypeParseContext) : TypeParseContext :=
  mkTypeParseContext (impl_target c) (position_of c) (declaration_constructor_variables c).
Definition permits_signature_self_application (c : TypeParseContext) : bool :=
  match position_of c with
  | DirectSignatureParameter | DirectSignatureReturn => true
  | General => false
  end.
Definition permits_constructor_variable_application (c : TypeParseContext) (name : str) : bool :=
  match position_of c with
  | DirectSignatureParameter | DirectSignatureReturn => true
  | General => false
  end || existsb (λ allowed, bool_decide (allowed = name)) (declaration_constructor_variables c).

(** ** The optional suffix *)

Definition from_to (start en : Span) : Span := mkSpanRange (span_start start) (span_end en).

Definition wrap_optional_ty (inner : AstTy) (en : nat) : AstTy :=
  Generic (mkSpanRange (span_start (ast_ty_span inner)) en) (lit "Option") [inner].

Fixpoint optional_suffix_loop (fuel : nat) (ty : AstTy) : M AstTy :=
  match fuel with
  | 0 => crash PFuel
  | S fuel' =>
      t ← peek;
      if same_token t TQuestion then
        sp ← advance; optional_suffix_loop fuel' (wrap_optional_ty ty (span_end (sp_span sp)))
      else mret ty
  end.
Definition parse_optional_type_suffix (ty : AstTy) : M AstTy := n ← gets rounds; optional_suffix_loop n ty.

Definition type_error {A} (message : str) (sp : Span) : M A := throw (ParseError.syntax TypeSyntax message sp).

(** ** Types *)

Section Types.
Context `{TokenDebug}.

(** The bodies below are parts of [parse_type_in_context]; [parse] is its recursive call
    in the nested context. *)
Section Body.
Variable parse : M AstTy.

(** The comma-separated types after the first one; [check] runs before each of them. *)
Fixpoint more_types (check : M unit) (fuel : nat) (args : list AstTy) : M (list AstTy) :=
  match fuel with
  | 0 => crash PFuel
  | S fuel' =>
      t ← peek;
      if same_token t TComma then
        advance;; skip_newlines;;
        check;;
        a ← parse;
        skip_newlines;;
        more_types check fuel' (args ++ [a])
      else mret args
  end.

Definition parse_type_arguments (sp : Span) (name : str) : M AstTy :=
  with_parse_nesting sp (
    advance;; skip_newlines;;
    first ← parse;
    skip_newlines;;
    n ← gets rounds;
    args ← more_types (mret tt) n [first];
    en ← expect_type_gt;
    parse_optional_type_suffix (Generic (from_to sp en) name args)).

(** Between parentheses a comma must not be the last token. *)
Definition reject_trailing_comma (sp : Span) : M unit :=
  t ← peek;
  if same_token t TRParen then
    closing ← peek_span;
    type_error (lit "1-tuple types are not supported") (from_to sp closing)
  else mret tt.

Definition finish_function (sp : Span) (params : list AstTy) : M AstTy :=
  advance;;
  ret ← parse;
  skip_newlines;;
  en ← expect TRParen;
  parse_optional_type_suffix (Func (from_to sp en) params ret).

Definition single_element_message (t : Token) : str :=
  if same_token t TArrow then lit "Parenthesized type signatures must choose tuple or function syntax after the first element: use `,` and another type for a tuple, or put `->` before `)` for a function type (for example, `(Int -> String)`, not `(Int) -> String`)."
  else lit "Parenthesized type annotations with one element are not supported: use the type without parentheses, `(T, U)` for a tuple, or `(T -> R)` for a function type.".

Definition parse_parenthesized (sp : Span) : M AstTy :=
  with_parse_nesting sp (
    advance;; skip_newlines;;
    t ← peek;
    if same_token t TArrow then finish_function sp []
    else
      first ← parse;
      skip_newlines;;
      n ← gets rounds;
      params ← more_types (reject_trailing_comma sp) n [first];
      t' ← peek;
      if same_token t' TArrow then finish_function sp params
      else
        en ← expect TRParen;
        if decide (length params = 1) then
          skip_newlines;;
          t'' ← peek;
          type_error (single_element_message t'') (from_to sp en)
        else parse_optional_type_suffix (Tuple (from_to sp en) params)).

Definition parse_type_variable (context : TypeParseContext) (sp : Span) : M AstTy :=
  advance;;
  '(ident, en) ← expect_ident;
  let name := lit "$" ++ ident in
  if decide (name = lit "$Self") then type_error (lit "Invalid type variable name: $Self") sp
  else
    t ← peek;
    if same_token t TLt then
      if permits_constructor_variable_application context name then parse_type_arguments sp name
      else type_error (lit "type constructor variables may only be applied in callable signatures or nominal fields with an explicit declaration constraint") sp
    else parse_optional_type_suffix (Named (from_to sp en) name).

Definition anonymous_impl_error (context : TypeParseContext) (sp : Span) : ParseError :=
  let error := ParseError.syntax TypeSyntax
    (lit "Anonymous `impl Trait` types are not supported; introduce a named type slot and constrain it with `where`") sp in
  match position_of context with
  | DirectSignatureReturn => ParseError.with_guidance error GuideReturnPositionImplTrait
  | _ => error
  end.

Definition parse_self_type (context : TypeParseContext) (sp name_span : Span) : M AstTy :=
  match impl_target context with
  | None => type_error (lit "`Self` can only be used inside trait or impl declarations") sp
  | Some _ =>
      t ← peek;
      if same_token t TLt then
        if permits_signature_self_application context then parse_type_arguments sp (lit "Self")
        else type_error (lit "`Self<...>` is only allowed inside an impl or trait-method signature") sp
      else parse_optional_type_suffix (Named (from_to sp name_span) (lit "Self"))
  end.

Definition parse_named_type (context : TypeParseContext) (sp : Span) : M AstTy :=
  '(name, name_span) ← expect_qualified_ident 2 (lit "type");
  if decide (name = lit "Self") then parse_self_type context sp name_span
  else if decide (name = lit "self") then type_error (lit "`self` is not a type name") sp
  else
    t ← peek;
    if same_token t TLt then parse_type_arguments sp name
    else parse_optional_type_suffix (Named (from_to sp name_span) name).
End Body.

Fixpoint parse_type_fuel (fuel : nat) (context : TypeParseContext) : M AstTy :=
  match fuel with
  | 0 => crash PFuel
  | S fuel' =>
      let parse := parse_type_fuel fuel' (nested context) in
      skip_newlines;;
      sp ← peek_span;
      t ← peek;
      if same_token t TLParen then parse_parenthesized parse sp
      else if same_token t TDollar then parse_type_variable parse context sp
      else if same_token t TUnit then
        en ← advance;
        parse_optional_type_suffix (Named (from_to sp (sp_span en)) (lit "Unit"))
      else if same_token t TImpl then throw (anonymous_impl_error context sp)
      else parse_named_type parse context sp
  end.

Definition parse_type_in_context : TypeParseContext → M AstTy := parse_type_fuel (S MAX_PARSE_NESTING).

Definition parse_type : M AstTy :=
  target ← gets (λ p, last (impl_target_stack p));
  parse_type_in_context (general target).
Definition parse_type_in_impl_context (target : option str) : M AstTy := parse_type_in_context (general target).
Definition parse_direct_signature_parameter_type (target : option str) : M AstTy :=
  parse_type_in_context (direct_signature_parameter target).
Definition parse_direct_signature_return_type (target : option str) : M AstTy :=
  parse_type_in_context (direct_signature_return target).

End Types.

(** ** Receivers *)

Definition is_self_type (ty : AstTy) : bool :=
  match ty with
  | Named _ name | Generic _ name _ => bool_decide (name = lit "Self")
  | _ => false
  end.

(** [name.rsplit(_).next()]: what follows the last [::]. *)
Fixpoint until_colons (reversed : str) : str :=
  match reversed with
  | c :: ((d :: _) as rest) => if decide (c = 58%N ∧ d = 58%N) then [] else c :: until_colons rest
  | _ => reversed
  end.
Definition last_segment (name : str) : str := reverse (until_colons (reverse name)).

Definition is_impl_receiver_type (ty : AstTy) (target : str) : bool :=
  let same_target name := bool_decide (name = target ∨ last_segment name = last_segment target) in
  is_self_type ty ||
  match ty with
  | Named _ name | Generic _ name _ => same_target name
  | _ => false
  end.

End TypeParser.
