(* ===== verification/TypeGrammar.v ===== *)
(** * The grammar of types, and the soundness of the parser

    The grammar says which tokens denote which type, spans included, in a given context
    and at a given nesting depth.  The parser accepts only what the grammar derives: the
    type it returns is the one the consumed tokens denote.  It never panics, never runs
    out of fuel and leaves the nesting depth as it found it, whether it succeeds or
    fails. *)

From S2P Require Import Prelude Names ListHandle Value ParseError StringLiteral Lexer ParserCore ParserLaws TypeParser.

Module TypeGrammar.
Import Parser ParserLaws TypeParser.

(** ** The grammar *)

Definition question (t : Spanned) : Prop := sp_token t = TQuestion.
Abbreviation questions := (Forall question).
Definition wrap_all (ty : AstTy) (qs : list Spanned) : AstTy :=
  foldl (λ ty q, wrap_optional_ty ty (span_end (sp_span q))) ty qs.

Section Grammar.
Variable context : TypeParseContext.

Definition name_allowed (name : str) : Prop :=
  name ≠ lit "self" ∧ (name = lit "Self" → is_Some (impl_target context)).
Definition application_allowed (name : str) : Prop :=
  name = lit "Self" → permits_signature_self_application context = true.

Inductive ty_syntax : nat → list Spanned → AstTy → Prop :=
| Ty d nl base ty qs :
    newlines nl → base_syntax d base ty → questions qs →
    ty_syntax d (nl ++ base ++ qs) (wrap_all ty qs)
with base_syntax : nat → list Spanned → AstTy → Prop :=
| Base_constant_function d l nl a rts ret nl' r :
    S d ≤ MAX_PARSE_NESTING → sp_token l = TLParen → newlines nl → sp_token a = TArrow →
    ty_syntax (S d) rts ret → newlines nl' → sp_token r = TRParen →
    base_syntax d (l :: nl ++ a :: rts ++ nl' ++ [r]) (Func (from_to (sp_span l) (sp_span r)) [] ret)
| Base_function d l ps params a rts ret nl' r :
    S d ≤ MAX_PARSE_NESTING → sp_token l = TLParen → list_syntax (S d) ps params → sp_token a = TArrow →
    ty_syntax (S d) rts ret → newlines nl' → sp_token r = TRParen →
    base_syntax d (l :: ps ++ a :: rts ++ nl' ++ [r]) (Func (from_to (sp_span l) (sp_span r)) params ret)
| Base_tuple d l ps items r :
    S d ≤ MAX_PARSE_NESTING → sp_token l = TLParen → list_syntax (S d) ps items → length items ≠ 1 →
    sp_token r = TRParen →
    base_syntax d (l :: ps ++ [r]) (Tuple (from_to (sp_span l) (sp_span r)) items)
| Base_variable d s t ident :
    sp_token s = TDollar → sp_token t = TIdent ident → lit "$" ++ ident ≠ lit "$Self" →
    base_syntax d [s; t] (Named (from_to (sp_span s) (sp_span t)) (lit "$" ++ ident))
| Base_variable_application d s t ident l ps args g :
    S d ≤ MAX_PARSE_NESTING → sp_token s = TDollar → sp_token t = TIdent ident →
    lit "$" ++ ident ≠ lit "$Self" → permits_constructor_variable_application context (lit "$" ++ ident) = true →
    sp_token l = TLt → list_syntax (S d) ps args → sp_token g = TGt →
    base_syntax d (s :: t :: l :: ps ++ [g]) (Generic (from_to (sp_span s) (sp_span g)) (lit "$" ++ ident) args)
| Base_unit d u :
    sp_token u = TUnit → base_syntax d [u] (Named (from_to (sp_span u) (sp_span u)) (lit "Unit"))
| Base_path d ts name sp :
    path_syntax 2 ts name sp → name_allowed name → base_syntax d ts (Named sp name)
| Base_application d ts name sp l ps args g :
    S d ≤ MAX_PARSE_NESTING → path_syntax 2 ts name sp → name_allowed name → application_allowed name →
    sp_token l = TLt → list_syntax (S d) ps args → sp_token g = TGt →
    base_syntax d (ts ++ l :: ps ++ [g]) (Generic (from_to sp (sp_span g)) name args)
with list_syntax : nat → list Spanned → list AstTy → Prop :=
| List_one d ts ty nl : ty_syntax d ts ty → newlines nl → list_syntax d (ts ++ nl) [ty]
| List_more d ts ty nl c rest tys :
    ty_syntax d ts ty → newlines nl → sp_token c = TComma → list_syntax d rest tys →
    list_syntax d (ts ++ nl ++ c :: rest) (ty :: tys).

(** Newlines before a type, and before the first type of a list, belong to it. *)
Lemma ty_syntax_newlines d nl ts ty : newlines nl → ty_syntax d ts ty → ty_syntax d (nl ++ ts) ty.
Proof.
  intros Hn H. inversion H; simplify_eq. rewrite app_assoc. constructor; [by apply Forall_app|done..].
Qed.

Lemma list_syntax_newlines d nl ts tys : newlines nl → list_syntax d ts tys → list_syntax d (nl ++ ts) tys.
Proof.
  intros Hn H. inversion H; simplify_eq; rewrite app_assoc; constructor;
    eauto using ty_syntax_newlines.
Qed.

Lemma ty_plain d ts ty : base_syntax d ts ty → ty_syntax d ts ty.
Proof. intros H. rewrite <- (app_nil_r ts). by apply (Ty d [] ts ty []). Qed.

Lemma list_single d ts ty : ty_syntax d ts ty → list_syntax d ts [ty].
Proof. intros H. rewrite <- (app_nil_r ts). by apply (List_one d ts ty []). Qed.

(** A list grows at its end too: that is how the loops build it. *)
Lemma list_syntax_snoc d ts tys c us ty nl :
  list_syntax d ts tys → sp_token c = TComma → ty_syntax d us ty → newlines nl →
  list_syntax d (ts ++ c :: us ++ nl) (tys ++ [ty]).
Proof.
  intros H Hc Hu Hn. revert H.
  enough (∀ d' ts tys, list_syntax d' ts tys → d' = d → list_syntax d (ts ++ c :: us ++ nl) (tys ++ [ty])) by eauto.
  fix IH 4. intros d' ts' tys' [d1 ts1 ty1 nl1 H1 H2|d1 ts1 ty1 nl1 c1 rest tys1 H1 H2 H3 H4] ->; simpl.
  - rewrite <- app_assoc. apply List_more; [done..|]. by constructor.
  - rewrite <- !app_assoc. simpl. apply List_more; [done..|]. by apply (IH d).
Qed.

(** ** Soundness *)

(** What a successful parse of a type read. *)
Definition typed (d : nat) (p : Parser) (ty : AstTy) (p' : Parser) : Prop :=
  ∃ ts, ty_syntax d ts ty ∧ reads (remaining p) ts (remaining p').

(** The same without the newlines before it. *)
Definition based (d : nat) (p : Parser) (ty : AstTy) (p' : Parser) : Prop :=
  ∃ base qs ty0, base_syntax d base ty0 ∧ questions qs ∧ ty = wrap_all ty0 qs ∧
    reads (remaining p) (base ++ qs) (remaining p').

Lemma same_token_false t expected : same_token expected expected = true → same_token t expected = false → t ≠ expected.
Proof. intros H1 H2 ->. congruence. Qed.

Lemma wp_suffix_loop fuel ty p (Q : AstTy → Parser → Prop) :
  well_ended p → length (remaining p) < fuel →
  (∀ qs p', keeps p p' → questions qs → remaining p = qs ++ remaining p' → Q (wrap_all ty qs) p') →
  wp (optional_suffix_loop fuel ty) p Q.
Proof.
  revert ty p Q. induction fuel as [|fuel IH]; intros ty p Q Hw Hf HQ; [lia|]. simpl.
  apply wp_bind, wp_peek; [done|]. intros t r Hr. destruct (same_token _ _) eqn:Ht.
  - apply same_token_true in Ht. eapply wp_bind, wp_advance; [done..|congruence|]. intros Hk Hn.
    apply IH; [apply Hk|rewrite Hn; rewrite Hr in Hf; simpl in Hf; lia|].
    intros qs p' Hk' Hq Hp'. apply (HQ (t :: qs)); [by eapply keeps_after|by constructor|].
    rewrite Hr. simpl. congruence.
  - apply wp_ret; [done|]. apply (HQ []); [by split|constructor|done].
Qed.

Lemma wp_suffix ty p (Q : AstTy → Parser → Prop) :
  well_ended p →
  (∀ qs p', keeps p p' → questions qs → reads (remaining p) qs (remaining p') → Q (wrap_all ty qs) p') →
  wp (parse_optional_type_suffix ty) p Q.
Proof.
  intros Hw HQ. apply wp_bind, wp_gets; [done|]. apply wp_suffix_loop; [done|unfold rounds; lia|].
  intros qs p' Hk Hq Hp. apply HQ; [done..|]. rewrite Hp. apply reads_exact.
Qed.

Lemma keeps_depth p p' : keeps p p' → parse_nesting_depth p' = parse_nesting_depth p.
Proof. by intros [(?&?&?) ?]. Qed.

(** Lists of types at depth [e]. *)
Section Lists.
Variable parse : M AstTy.
Variable e : nat.
Hypothesis parse_sound : ∀ p, well_ended p → parse_nesting_depth p = e → wp parse p (typed e p).

(** The loop after the first type [ts] of a list. *)
Lemma wp_more_types check fuel tys p0 ts p (Q : list AstTy → Parser → Prop) :
  (∀ q, well_ended q → wp check q (λ _ q', remaining q' = remaining q)) →
  well_ended p → parse_nesting_depth p = e → length (remaining p) < fuel →
  list_syntax (e) ts tys → reads p0 ts (remaining p) →
  (∀ ts' tys' p', keeps p p' → list_syntax (e) ts' tys' → reads p0 ts' (remaining p') → Q tys' p') →
  wp (more_types parse check fuel tys) p Q.
Proof using parse_sound.
  intros Hcheck. revert tys ts p Q.
  induction fuel as [|fuel IH]; intros tys ts p Q Hw Hd Hf Hl Hr HQ; [lia|]. simpl.
  apply wp_bind, wp_peek; [done|]. intros t r Ht. destruct (same_token _ _) eqn:Hc.
  2: { apply wp_ret; [done|]. eapply HQ; [by split|done..]. }
  apply same_token_true in Hc. eapply wp_bind, wp_advance; [done..|congruence|]. intros Hk1 Hn.
  apply wp_bind, wp_skip_newlines; [apply Hk1|]. intros nl p2 Hk2 Hnl Hr2.
  apply wp_bind. eapply wp_mono; [apply Hcheck, Hk2|]. intros [] p3 Hk3 Hr3. simpl in Hr3.
  pose proof (keeps_depth _ _ Hk1). pose proof (keeps_depth _ _ Hk2). pose proof (keeps_depth _ _ Hk3).
  apply wp_bind. eapply wp_mono; [apply parse_sound; [apply Hk3|congruence]|].
  intros a p4 Hk4 (us & Hus & Hr4). pose proof (keeps_depth _ _ Hk4).
  apply wp_bind, wp_skip_newlines; [apply Hk4|]. intros nl' p5 Hk5 Hnl' Hr5.
  pose proof (keeps_depth _ _ Hk5).
  assert (Hlen : length (remaining p5) < fuel).
  { apply reads_length in Hr2, Hr4, Hr5. rewrite Hr3 in Hr4. rewrite Ht in Hf. simpl in Hf. rewrite Hn in Hr2. lia. }
  eapply (IH _ (ts ++ t :: (nl ++ us) ++ nl')); [apply Hk5|congruence|done| | |].
  - apply list_syntax_snoc; [done..| |done]. by apply ty_syntax_newlines.
  - eapply reads_app; [done|]. rewrite Ht. apply reads_tok. rewrite <- Hn, <- app_assoc.
    eapply reads_app; [done|]. rewrite <- Hr3. by eapply reads_app.
  - intros ts' tys' p' Hk' Hl' Hr'. apply (HQ ts'); [|done..]. eauto 10 using keeps_after.
Qed.

(** A parenthesised or bracketed list after its opening token. *)
Lemma wp_list {B} check p (k : list AstTy → M B) Q :
  (∀ q, well_ended q → wp check q (λ _ q', remaining q' = remaining q)) →
  well_ended p → parse_nesting_depth p = e →
  (∀ ts tys p', keeps p p' → list_syntax (e) ts tys → reads (remaining p) ts (remaining p') → wp (k tys) p' Q) →
  wp (first ← parse; skip_newlines;; n ← gets rounds; args ← more_types parse check n [first]; k args) p Q.
Proof using parse_sound.
  intros Hcheck Hw Hd HQ. apply wp_bind. eapply wp_mono; [by apply parse_sound|].
  intros first p1 Hk1 (us & Hus & Hr1). pose proof (keeps_depth _ _ Hk1).
  apply wp_bind, wp_skip_newlines; [apply Hk1|]. intros nl p2 Hk2 Hnl Hr2.
  pose proof (keeps_depth _ _ Hk2). apply wp_bind, wp_gets; [apply Hk2|].
  eapply wp_bind, (wp_more_types _ _ _ (remaining p) (us ++ nl)); [done|apply Hk2|congruence|unfold rounds; lia| | |].
  - by constructor.
  - by eapply reads_app.
  - intros ts' tys' p' Hk' Hl Hr. apply (HQ ts'); eauto using keeps_after.
Qed.

End Lists.

Section Body.
Context `{TokenDebug}.
Variable parse : M AstTy.
Variable d : nat.
Hypothesis parse_sound : ∀ p, S d ≤ MAX_PARSE_NESTING → well_ended p → parse_nesting_depth p = S d → wp parse p (typed (S d) p).

Lemma wp_type_arguments sp name l r p Q :
  well_ended p → parse_nesting_depth p = d → remaining p = l :: r → sp_token l = TLt →
  (∀ ps args g qs p', keeps p p' → S d ≤ MAX_PARSE_NESTING → list_syntax (S d) ps args → sp_token g = TGt →
     questions qs → reads r (ps ++ [g] ++ qs) (remaining p') →
     Q (wrap_all (Generic (from_to sp (sp_span g)) name args) qs) p') →
  wp (parse_type_arguments parse sp name) p Q.
Proof using parse_sound.
  intros Hw Hd Hl Hlt HQ. apply wp_nesting; [done|]. rewrite Hd. intros Hmax.
  eapply wp_bind, wp_advance; [done|by rewrite remaining_with_depth|congruence|]. intros Hk1 Hn.
  apply wp_bind, wp_skip_newlines; [apply Hk1|]. intros nl p2 Hk2 Hnl Hr2.
  apply (wp_list parse (S d)); [by intros; apply parse_sound| |apply Hk2|by rewrite (keeps_depth _ _ Hk2), (keeps_depth _ _ Hk1)|].
  { intros q Hq. by apply wp_ret. }
  intros ps args p3 Hk3 Hps Hr3. apply wp_bind, wp_expect_type_gt; [apply Hk3|]. intros g p4 Hk4 Hg Hr4.
  apply wp_suffix; [apply Hk4|]. intros qs p5 Hk5 Hqs Hr5.
  apply (HQ (nl ++ ps)); [|done| |done..|].
  - assert (Hk : keeps (with_depth p (S d)) p5) by eauto 10 using keeps_after.
    destruct Hk as [(?&?&?) ?]. by split.
  - by apply list_syntax_newlines.
  - rewrite remaining_with_depth, <- Hn, <- app_assoc.
    eapply reads_app; [done|]. eapply reads_app; [done|]. eapply reads_app; [done|]. done.
Qed.

(** The end of a function type, from its arrow on. *)
Lemma wp_finish_function sp params a r p Q :
  S d ≤ MAX_PARSE_NESTING →
  well_ended p → parse_nesting_depth p = S d → remaining p = a :: r → sp_token a = TArrow →
  (∀ rts ret nl' rp qs p', keeps p p' → ty_syntax (S d) rts ret → newlines nl' → sp_token rp = TRParen →
     questions qs → reads (remaining p) (a :: rts ++ nl' ++ [rp] ++ qs) (remaining p') →
     Q (wrap_all (Func (from_to sp (sp_span rp)) params ret) qs) p') →
  wp (finish_function parse sp params) p Q.
Proof using parse_sound.
  intros Hmax Hw Hd Ha Htok HQ. eapply wp_bind, wp_advance; [done..|congruence|]. intros Hk1 Hn.
  apply wp_bind. eapply wp_mono; [apply parse_sound; [done|apply Hk1|by rewrite (keeps_depth _ _ Hk1)]|].
  intros ret p2 Hk2 (rts & Hrts & Hr2). apply wp_bind, wp_skip_newlines; [apply Hk2|]. intros nl' p3 Hk3 Hnl' Hr3.
  apply wp_bind, wp_expect; [apply Hk3|done|]. intros rp p4 Hk4 Hrp Hr4.
  apply wp_suffix; [apply Hk4|]. intros qs p5 Hk5 Hqs Hr5.
  apply (HQ rts ret nl'); [|done..|].
  - eauto 10 using keeps_after.
  - rewrite Ha. apply reads_tok. rewrite <- Hn. do 3 (eapply reads_app; [done|]). done.
Qed.

Lemma wp_reject_trailing_comma sp q :
  well_ended q → wp (reject_trailing_comma sp) q (λ _ q', remaining q' = remaining q).
Proof.
  intros Hq. apply wp_bind, wp_peek; [done|]. intros t r Hr. destruct (same_token _ _).
  - apply wp_bind, wp_peek_span; [done|]. intros. by apply wp_throw.
  - by apply wp_ret.
Qed.

Lemma wp_parenthesized l r p :
  well_ended p → parse_nesting_depth p = d → remaining p = l :: r → sp_token l = TLParen →
  wp (parse_parenthesized parse (sp_span l)) p (based d p).
Proof using parse_sound.
  intros Hw Hd Hl Htok. apply wp_nesting; [done|]. rewrite Hd. intros Hmax.
  eapply wp_bind, wp_advance; [done|by rewrite remaining_with_depth|congruence|]. intros Hk1 Hn.
  apply wp_bind, wp_skip_newlines; [apply Hk1|]. intros nl p2 Hk2 Hnl Hr2. rewrite Hn in Hr2.
  assert (Hd2 : parse_nesting_depth p2 = S d) by by rewrite (keeps_depth _ _ Hk2), (keeps_depth _ _ Hk1).
  apply wp_bind, wp_peek; [apply Hk2|]. intros t u Ht. destruct (same_token _ _) eqn:Harrow.
  { apply same_token_true in Harrow. eapply wp_finish_function; [done|apply Hk2|done..|].
    intros rts ret nl' rp qs p' Hk' Hrts Hnl' Hrp Hqs Hr.
    exists (l :: nl ++ t :: rts ++ nl' ++ [rp]), qs, (Func (from_to (sp_span l) (sp_span rp)) [] ret).
    split_and!; [by constructor|done..|]. rewrite remaining_with_depth, Hl. simpl. apply reads_tok.
    rewrite <- app_assoc. eapply reads_app; [done|]. simpl. by rewrite <- !app_assoc. }
  apply (wp_list parse (S d)); [by intros; apply parse_sound|apply wp_reject_trailing_comma|apply Hk2|done|].
  intros ps params p3 Hk3 Hps Hr3. apply (list_syntax_newlines _ nl) in Hps; [|done].
  pose proof (reads_app _ _ _ _ _ Hr2 Hr3) as Hr.
  assert (Hd3 : parse_nesting_depth p3 = S d) by by rewrite (keeps_depth _ _ Hk3).
  apply wp_bind, wp_peek; [apply Hk3|]. intros t' u' Ht'. destruct (same_token (sp_token t') _) eqn:Harrow'.
  { apply same_token_true in Harrow'. eapply wp_finish_function; [done|apply Hk3|done..|].
    intros rts ret nl' rp qs p' Hk' Hrts Hnl' Hrp Hqs Hr'.
    exists (l :: (nl ++ ps) ++ t' :: rts ++ nl' ++ [rp]), qs, (Func (from_to (sp_span l) (sp_span rp)) params ret).
    split_and!; [by constructor|done..|]. rewrite remaining_with_depth, Hl. simpl. apply reads_tok.
    rewrite <- app_assoc. eapply reads_app; [done|]. simpl. by rewrite <- !app_assoc. }
  apply wp_bind, wp_expect; [apply Hk3|done|]. intros rp p4 Hk4 Hrp Hr4. case_decide as Hlen.
  { apply wp_bind, wp_skip_newlines; [apply Hk4|]. intros nl' p5 Hk5 _ _.
    apply wp_bind, wp_peek; [apply Hk5|]. intros. apply wp_throw, Hk5. }
  apply wp_suffix; [apply Hk4|]. intros qs p5 Hk5 Hqs Hr5.
  exists (l :: (nl ++ ps) ++ [rp]), qs, (Tuple (from_to (sp_span l) (sp_span rp)) params).
  split_and!; [by constructor|done..|]. rewrite remaining_with_depth, Hl. simpl. apply reads_tok.
  rewrite <- (app_assoc (nl ++ ps)). eapply reads_app; [done|]. by eapply reads_app.
Qed.

Lemma wp_type_variable s r p :
  well_ended p → parse_nesting_depth p = d → remaining p = s :: r → sp_token s = TDollar →
  wp (parse_type_variable parse context (sp_span s)) p (based d p).
Proof using parse_sound.
  intros Hw Hd Hs Htok. eapply wp_bind, wp_advance; [done..|congruence|]. intros Hk1 Hn.
  apply wp_bind, wp_expect_ident; [apply Hk1|]. intros t ident p2 Hk2 Ht Hr2. cbn beta iota zeta.
  case_decide as Hself; [apply wp_throw, Hk2|].
  apply wp_bind, wp_peek; [apply Hk2|]. intros l u Hl. destruct (same_token _ _) eqn:Hlt.
  - apply same_token_true in Hlt. destruct (permits_constructor_variable_application _ _) eqn:Hperm.
    2: { apply wp_throw, Hk2. }
    eapply wp_type_arguments; [apply Hk2|by rewrite (keeps_depth _ _ Hk2), (keeps_depth _ _ Hk1)|done..|].
    intros ps args g qs p' Hk' Hmax Hps Hg Hqs Hr.
    exists (s :: t :: l :: ps ++ [g]), qs, (Generic (from_to (sp_span s) (sp_span g)) (lit "$" ++ ident) args).
    split_and!; [by constructor|done..|]. rewrite Hs, <- Hn, Hr2, Hl. simpl. do 3 apply reads_tok.
    by rewrite <- app_assoc.
  - apply wp_suffix; [apply Hk2|]. intros qs p' Hk' Hqs Hr.
    exists [s; t], qs, (Named (from_to (sp_span s) (sp_span t)) (lit "$" ++ ident)).
    split_and!; [by constructor|done..|]. rewrite Hs, <- Hn, Hr2. simpl. by do 2 apply reads_tok.
Qed.

Lemma path_syntax_span max ts name sp : path_syntax max ts name sp →
  ∃ t rest, ts = t :: rest ∧ from_to (sp_span t) sp = sp ∧ span_start sp = span_start (sp_span t).
Proof. intros (t & first & rest & more & en & -> & _ & _ & _ & _ & _ & ->). by exists t, rest. Qed.

(** The two forms of a named type: applied and bare. *)
Lemma wp_applied_or_bare (applicable : bool) msg sp0 l u ts name sp p0 p :
  well_ended p → parse_nesting_depth p = d → path_syntax 2 ts name sp → name_allowed name →
  (applicable = true → application_allowed name) →
  remaining p0 = ts ++ remaining p → remaining p = l :: u → from_to sp0 sp = sp → span_start sp0 = span_start sp →
  wp (if same_token (sp_token l) TLt then
        if applicable then parse_type_arguments parse sp0 name else type_error msg sp0
      else parse_optional_type_suffix (Named (from_to sp0 sp) name)) p (based d p0).
Proof using parse_sound.
  intros Hw Hd Hts Hname Happ Hp0 Hl Hspan Hstart. destruct (same_token _ _) eqn:Hlt.
  - apply same_token_true in Hlt. destruct applicable; [|by apply wp_throw].
    eapply wp_type_arguments; [done..|]. intros ps args g qs p' Hk' Hmax Hps Hg Hqs Hr.
    exists (ts ++ l :: ps ++ [g]), qs, (Generic (from_to sp0 (sp_span g)) name args).
    split_and!; [|done..|].
    + assert (Hspg : from_to sp0 (sp_span g) = from_to sp (sp_span g)) by (unfold from_to; by rewrite Hstart).
      rewrite Hspg. apply Base_application; eauto.
    + rewrite Hp0, Hl, <- app_assoc. eapply reads_app; [apply reads_exact|]. simpl. apply reads_tok.
      by rewrite <- app_assoc.
  - apply wp_suffix; [done|]. intros qs p' Hk' Hqs Hr. exists ts, qs, (Named sp name).
    split_and!; [by constructor|done|by rewrite Hspan|]. rewrite Hp0. eapply reads_app; [apply reads_exact|done].
Qed.

Lemma wp_named_type t r p :
  well_ended p → parse_nesting_depth p = d → remaining p = t :: r →
  wp (parse_named_type parse context (sp_span t)) p (based d p).
Proof using parse_sound.
  intros Hw Hd Ht. apply wp_bind, wp_qualified_ident; [done|lia|]. intros ts name sp p1 Hk1 Hpath Hr1.
  destruct (path_syntax_span _ _ _ _ Hpath) as (t' & rest & -> & Hspan & Hstart).
  assert (t' = t) as -> by (rewrite Ht in Hr1; by injection Hr1). symmetry in Hstart.
  assert (Hd1 : parse_nesting_depth p1 = d) by by rewrite (keeps_depth _ _ Hk1).
  destruct (well_ended_cons p1) as (l & u & Hl); [apply Hk1|]. cbn beta iota. case_decide as Hself.
  - subst name. unfold parse_self_type. destruct (impl_target context) as [target|] eqn:Htarget; [|apply wp_throw, Hk1].
    apply wp_bind, wp_peek; [apply Hk1|]. intros l' u' Hl'. rewrite Hl in Hl'. injection Hl' as <- <-.
    eapply wp_applied_or_bare; [apply Hk1|done|done| | |done..].
    + split; [done|]. intros _. rewrite Htarget. by eexists.
    + by intros ? ?.
  - case_decide as Hlower; [apply wp_throw, Hk1|].
    apply wp_bind, wp_peek; [apply Hk1|]. intros l' u' Hl'. rewrite Hl in Hl'. injection Hl' as <- <-.
    eapply (wp_applied_or_bare true []); [apply Hk1|done|done|by split| |done..]. by intros ? ?.
Qed.

End Body.

(** The parser accepts only what the grammar derives. *)
Lemma wp_parse_type `{TokenDebug} fuel p :
  0 < fuel → MAX_PARSE_NESTING < fuel + parse_nesting_depth p → well_ended p →
  wp (parse_type_fuel fuel context) p (typed (parse_nesting_depth p) p).
Proof.
  revert p. induction fuel as [|fuel IH]; intros p Hpos Hf Hw; [lia|]. cbn [parse_type_fuel]. cbv zeta.
  assert (Hnest : nested context = context) by by destruct context. rewrite Hnest.
  assert (Hparse : ∀ q, S (parse_nesting_depth p) ≤ MAX_PARSE_NESTING → well_ended q →
    parse_nesting_depth q = S (parse_nesting_depth p) →
    wp (parse_type_fuel fuel context) q (typed (S (parse_nesting_depth p)) q)).
  { intros q Hmax Hq Hd. rewrite <- Hd. apply IH; [lia|lia|done]. }
  apply wp_bind, wp_skip_newlines; [done|]. intros nl p1 Hk1 Hnl Hr1.
  pose proof (keeps_depth _ _ Hk1) as Hd1. assert (Hw1 : well_ended p1) by apply Hk1.
  apply wp_bind, wp_peek_span; [done|]. intros t r Ht.
  apply wp_bind, wp_peek; [done|]. intros t' r' Ht'. rewrite Ht in Ht'. injection Ht' as <- <-.
  eapply (wp_mono _ _ (based (parse_nesting_depth p) p1)).
  2: { intros ty p' _ (base & qs & ty0 & Hb & Hqs & -> & Hr). exists (nl ++ base ++ qs).
       split; [by constructor|by eapply reads_app]. }
  destruct (same_token (sp_token t) TLParen) eqn:E1.
  { eapply wp_parenthesized; [done..|by apply same_token_true]. }
  destruct (same_token (sp_token t) TDollar) eqn:E2.
  { eapply wp_type_variable; [done..|by apply same_token_true]. }
  destruct (same_token (sp_token t) TUnit) eqn:E3.
  { apply same_token_true in E3. eapply wp_bind, wp_advance; [done..|congruence|]. intros Hk2 Hn.
    apply wp_suffix; [apply Hk2|]. intros qs p' Hk' Hqs Hr.
    exists [t], qs, (Named (from_to (sp_span t) (sp_span t)) (lit "Unit")).
    split_and!; [by constructor|done..|]. rewrite Ht. apply reads_tok. by rewrite <- Hn. }
  destruct (same_token (sp_token t) TImpl) eqn:E4; [by apply wp_throw|].
  by eapply wp_named_type.
Qed.

End Grammar.

End TypeGrammar.
