(* ===== verification/TypeParserProps.v ===== *)
(** * The parser of types is exact

    Completeness of the parser for the grammar of [TypeGrammar], and the theorems about
    parsing a type from any position of a token stream. *)

From S2P Require Import Prelude Names ListHandle Value ParseError StringLiteral Lexer ParserCore ParserLaws TypeParser TypeGrammar.

Module TypeParserProps.
Import Parser ParserLaws TypeParser TypeGrammar.

(** What may come after a type: a token that does not continue it. *)
Definition follow (r : list Spanned) : Prop :=
  ∃ t u, r = t :: u ∧ sp_token t ≠ TLt ∧ sp_token t ≠ TQuestion ∧ path_continues r = false.

(** The tokens a type starts with. *)
Definition starter (t : Token) : bool :=
  match t with TLParen | TDollar | TUnit | TIdent _ => true | _ => false end.
Definition starts (core : list Spanned) : Prop := ∃ t rest, core = t :: rest ∧ starter (sp_token t) = true.

(** The tokens after a list of types. *)
Definition closing (t : Token) : bool :=
  match t with TGt | TGtEq | TCompose | TRParen | TArrow => true | _ => false end.
Definition closes (r : list Spanned) : Prop := ∃ t u, r = t :: u ∧ closing (sp_token t) = true.

Lemma not_continues t u : sp_token t ≠ TColon → path_continues (t :: u) = false.
Proof. unfold path_continues. simpl. by destruct (sp_token t). Qed.

Lemma follow_head t u : sp_token t ≠ TLt → sp_token t ≠ TQuestion → sp_token t ≠ TColon → follow (t :: u).
Proof. intros. exists t, u. split_and!; [done..|by apply not_continues]. Qed.

Lemma closes_follow r : closes r → follow r.
Proof. intros (t & u & -> & H). by apply follow_head; intros E; rewrite E in H. Qed.

Lemma closes_not_newline r : closes r → starts_newline r = false.
Proof. intros (t & u & -> & H). simpl. by destruct (sp_token t). Qed.

Lemma closes_nonempty r : closes r → r ≠ [].
Proof. by intros (t & u & -> & H). Qed.

Lemma starter_not_newline t u : starter (sp_token t) = true → starts_newline (t :: u) = false.
Proof. simpl. by destruct (sp_token t). Qed.

Lemma starter_plain t : starter (sp_token t) = true → sp_token t ≠ TGt.
Proof. by destruct (sp_token t). Qed.

Lemma reads_closing c t ts r : reads c (t :: ts) r → closing (sp_token t) = true → closes c.
Proof.
  intros Hr Ht. inversion Hr as [|? c' ? ? Hc|u a b c' ? ? Hs Hc]; simplify_eq; [by exists t, c'|].
  exists u, c'. split; [done|]. unfold split_gt in Hs. by destruct (sp_token u).
Qed.

(** After the newlines of an element of a list, or before its end. *)
Lemma follow_after c nl tail r :
  newlines nl → (tail = [] ∨ ∃ k rest, tail = k :: rest ∧ sp_token k = TComma) →
  reads c (nl ++ tail) r → closes r → follow c.
Proof.
  intros Hnl Htail Hr Hc. destruct nl as [|n nl]; simpl in Hr.
  - destruct Htail as [-> | (k & rest & -> & Hk)].
    + inversion Hr; subst. by apply closes_follow.
    + apply reads_cons_inv in Hr as (c' & -> & _); [|congruence]. apply follow_head; congruence.
  - apply Forall_cons in Hnl as [Hn _]. unfold newline in Hn.
    apply reads_cons_inv in Hr as (c' & -> & _); [|congruence]. apply follow_head; congruence.
Qed.

(** ** The optional suffix *)

Lemma suffix_follow qs r : questions qs → follow r →
  ∃ t u, qs ++ r = t :: u ∧ sp_token t ≠ TLt ∧ path_continues (t :: u) = false.
Proof.
  intros Hqs (t & u & -> & ? & ? & ?). destruct Hqs as [|q qs Hq Hqs]; simpl; [by exists t, u|].
  exists q, (qs ++ t :: u). unfold question in Hq. split_and!; [done|congruence|].
  apply not_continues. congruence.
Qed.

Lemma runs_suffix_loop fuel ty p qs r :
  remaining p = qs ++ r → questions qs → follow r → length qs < fuel →
  runs (optional_suffix_loop fuel ty) p (wrap_all ty qs) r.
Proof.
  revert ty p qs. induction fuel as [|fuel IH]; intros ty p qs Hp Hqs Hr Hf; [lia|]. simpl.
  destruct Hqs as [|q qs Hq Hqs]; simpl in *.
  - destruct Hr as (t & u & -> & ? & Hq & ?). eapply runs_bind; [by apply runs_peek|]. intros p1 Hp1 _.
    destruct (same_token _ _) eqn:E; [by apply same_token_true in E|]. by apply runs_ret.
  - eapply runs_bind; [by apply runs_peek|]. intros p1 Hp1 _. rewrite Hq. simpl.
    eapply runs_bind; [by apply runs_advance|]. intros p2 Hp2 _. apply IH; [done..|lia].
Qed.

Lemma reads_questions c qs r : reads c qs r → questions qs → c = qs ++ r.
Proof. intros Hr Hq. eapply reads_plain; [|done]. eapply Forall_impl; [done|]. by intros t ->. Qed.

Lemma runs_suffix ty p qs r :
  reads (remaining p) qs r → questions qs → follow r →
  runs (parse_optional_type_suffix ty) p (wrap_all ty qs) r.
Proof.
  intros Hp Hqs Hr. apply reads_questions in Hp; [|done].
  eapply runs_bind; [apply runs_gets|]. intros p1 Hp1 _.
  apply runs_suffix_loop; [by rewrite Hp1|done..|]. unfold rounds. rewrite Hp, length_app. lia.
Qed.

(** ** Completeness *)

Scheme ty_syntax_mut := Minimality for ty_syntax Sort Prop
  with base_syntax_mut := Minimality for base_syntax Sort Prop
  with list_syntax_mut := Minimality for list_syntax Sort Prop.

Section Complete.
Context `{TokenDebug}.
Variable context : TypeParseContext.

Abbreviation parse fuel := (parse_type_fuel fuel context).

(** Enough fuel at depth [d]. *)
Definition enough (fuel d : nat) : Prop := 0 < fuel ∧ MAX_PARSE_NESTING < fuel + d.

Definition parses (d : nat) (core : list Spanned) (ty : AstTy) : Prop :=
  ∀ nl p fuel r, newlines nl → reads (remaining p) (nl ++ core) r → parse_nesting_depth p = d →
    follow r → enough fuel d → runs (parse fuel) p ty r.

Definition check_ok (check : M unit) : Prop :=
  ∀ q t u, remaining q = t :: u → starter (sp_token t) = true → runs check q tt (t :: u).

Definition tail_runs (d : nat) (tail : list Spanned) (tys : list AstTy) : Prop :=
  ∀ check p fuel acc n r, check_ok check → reads (remaining p) tail r → parse_nesting_depth p = d →
    closes r → enough fuel d → length (remaining p) < n →
    runs (more_types (parse fuel) check n acc) p (acc ++ tys) r.

Definition ty_goal (d : nat) (ts : list Spanned) (ty : AstTy) : Prop :=
  ∃ nl core, ts = nl ++ core ∧ newlines nl ∧ starts core ∧ parses d core ty.

Definition base_goal (d : nat) (base : list Spanned) (ty : AstTy) : Prop :=
  starts base ∧ ∀ qs, questions qs → parses d (base ++ qs) (wrap_all ty qs).

Definition list_goal (d : nat) (ts : list Spanned) (tys : list AstTy) : Prop :=
  ∃ nl core nl' tail ty tys', ts = nl ++ core ++ nl' ++ tail ∧ tys = ty :: tys' ∧
    newlines nl ∧ newlines nl' ∧ starts core ∧ parses d core ty ∧ tail_runs d tail tys' ∧
    (tail = [] ∨ ∃ k rest, tail = k :: rest ∧ sp_token k = TComma).

Lemma starts_app core more : starts core → starts (core ++ more).
Proof. intros (t & rest & -> & ?). by exists t, (rest ++ more). Qed.

(** Skipping the newlines before something that starts a type. *)
Lemma runs_skip_to p nl core r :
  newlines nl → starts core → reads (remaining p) (nl ++ core) r →
  ∃ t rest c, core = t :: rest ∧ starter (sp_token t) = true ∧ reads c rest r ∧
    length (t :: c) ≤ length (remaining p) ∧ runs skip_newlines p tt (t :: c).
Proof.
  intros Hnl (t & rest & -> & Ht) Hr. apply reads_app_inv in Hr as (m & Hm & Hr).
  apply reads_newlines in Hm; [|done].
  apply reads_cons_inv in Hr as (c & -> & Hr); [|by apply starter_plain].
  exists t, rest, c. split_and!; [done..|rewrite Hm, length_app; simpl; lia|]. eapply skip_newlines_runs; [done..|by apply starter_not_newline].
Qed.

(** Skipping the newlines after an element, up to the comma or the end of the list. *)
Lemma runs_skip_after p nl tail r :
  newlines nl → (tail = [] ∨ ∃ k rest, tail = k :: rest ∧ sp_token k = TComma) → closes r →
  reads (remaining p) (nl ++ tail) r → ∃ c, reads c tail r ∧ length c ≤ length (remaining p) ∧ runs skip_newlines p tt c.
Proof.
  intros Hnl Htail Hc Hr. apply reads_app_inv in Hr as (m & Hm & Hr). apply reads_newlines in Hm; [|done].
  exists m. split_and!; [done|rewrite Hm, length_app; lia|]. destruct Htail as [-> | (k & rest & -> & Hk)].
  - inversion Hr; subst. eapply skip_newlines_runs; [done..|by apply closes_nonempty|by apply closes_not_newline].
  - apply reads_cons_inv in Hr as (c & -> & Hr); [|congruence].
    eapply skip_newlines_runs; [done..|]. simpl. by rewrite Hk.
Qed.

(** One element of a list and the newlines after it. *)
Lemma runs_element d core ty nl' tail fuel p r {B} (k : AstTy → M B) b r' :
  newlines nl' → starts core → parses d core ty →
  (tail = [] ∨ ∃ c rest, tail = c :: rest ∧ sp_token c = TComma) → closes r → enough fuel d →
  reads (remaining p) (core ++ nl' ++ tail) r → parse_nesting_depth p = d →
  (∀ c p', reads c tail r → length c ≤ length (remaining p) → remaining p' = c → same p p' → runs (k ty) p' b r') →
  runs (a ← parse fuel; skip_newlines;; k a) p b r'.
Proof.
  intros Hnl' Hst Hcore Htail Hc Hf Hr Hd Hk. apply reads_app_inv in Hr as (m & Hm & Hr).
  eapply runs_bind.
  { eapply (Hcore []); [constructor|done|done|by eapply follow_after|done]. }
  intros p1 Hp1 Hs1. rewrite <- Hp1 in Hr. destruct (runs_skip_after _ _ _ _ Hnl' Htail Hc Hr) as (c & Hrc & Hlen & Hrun).
  eapply runs_bind; [done|]. intros p2 Hp2 Hs2. apply (Hk c); [done| |done|by etrans].
  apply reads_length in Hm. rewrite Hp1 in Hlen. lia.
Qed.

Lemma same_depth p p' : same p p' → parse_nesting_depth p' = parse_nesting_depth p.
Proof. by intros (?&?&?). Qed.

Lemma tail_nil d : tail_runs d [] [].
Proof.
  intros check p fuel acc n r _ Hr _ Hc _ Hn. destruct n as [|n]; [lia|]. cbn [more_types].
  inversion Hr; subst. destruct Hc as (t & u & Hp & Ht).
  eapply runs_bind; [by apply runs_peek|]. intros p1 Hp1 _.
  destruct (same_token _ _) eqn:E; [apply same_token_true in E; by rewrite E in Ht|].
  rewrite app_nil_r. apply runs_ret. congruence.
Qed.

Lemma tail_cons d c rest tys : sp_token c = TComma → list_goal d rest tys → tail_runs d (c :: rest) tys.
Proof.
  intros Hc (nl & core & nl' & tail & ty & tys' & -> & -> & Hnl & Hnl' & Hst & Hcore & Htail & Hshape).
  intros check p fuel acc n r Hcheck Hr Hd Hcl Hf Hn. destruct n as [|n]; [lia|]. cbn [more_types].
  apply reads_cons_inv in Hr as (c' & Hp & Hr); [|congruence].
  eapply runs_bind; [by apply runs_peek|]. intros p1 Hp1 Hs1. rewrite Hc. cbn [same_token tag Nat.eqb].
  eapply runs_bind; [by apply runs_advance|]. intros p2 Hp2 Hs2. rewrite <- Hp2 in Hr.
  destruct (runs_skip_to p2 nl (core ++ nl' ++ tail) r Hnl) as (t & us & c2 & Heq & Ht & Hr2 & Hlen & Hrun);
    [by apply starts_app|done|].
  eapply runs_bind; [done|]. intros p3 Hp3 Hs3.
  eapply runs_bind; [by apply Hcheck|]. intros p4 Hp4 Hs4.
  pose proof (same_depth _ _ Hs1). pose proof (same_depth _ _ Hs2).
  pose proof (same_depth _ _ Hs3). pose proof (same_depth _ _ Hs4).
  assert (Hr4 : reads (remaining p4) (core ++ nl' ++ tail) r) by (rewrite Hp4, Heq; by apply reads_tok).
  eapply runs_element; [done..|congruence|]. intros c5 p5 Hr5 Hlen5 Hp5 Hs5. pose proof (same_depth _ _ Hs5).
  rewrite (cons_middle ty acc tys'), app_assoc. eapply Htail; [done|congruence|congruence|done..|].
  rewrite Hp5, Hp4, Hp2, Hp in *. simpl in *. lia.
Qed.

(** A whole list after the newlines before it, with what comes next. *)
Lemma runs_list d core nl' tail ty tys check fuel p r (k : list AstTy → M AstTy) out r' :
  newlines nl' → starts core → parses d core ty → tail_runs d tail tys →
  (tail = [] ∨ ∃ c rest, tail = c :: rest ∧ sp_token c = TComma) → check_ok check → closes r → enough fuel d →
  reads (remaining p) (core ++ nl' ++ tail) r → parse_nesting_depth p = d →
  (∀ p', remaining p' = r → same p p' → runs (k (ty :: tys)) p' out r') →
  runs (first ← parse fuel; skip_newlines;; n ← gets rounds;
        args ← more_types (parse fuel) check n [first]; k args) p out r'.
Proof.
  intros Hnl' Hst Hcore Htail Hshape Hcheck Hcl Hf Hr Hd Hk.
  eapply runs_element; [done..|]. intros c p1 Hr1 _ Hp1 Hs1.
  eapply runs_bind; [apply runs_gets|]. intros p2 Hp2 Hs2.
  pose proof (same_depth _ _ Hs1). pose proof (same_depth _ _ Hs2).
  eapply runs_bind.
  { eapply (Htail check p2 fuel [ty]); [done|by rewrite Hp2, Hp1|congruence|done..|].
    unfold rounds. rewrite Hp2. lia. }
  intros p3 Hp3 Hs3. apply Hk; [done|]. by do 2 (etrans; [eassumption|]).
Qed.

Lemma check_ok_ret : check_ok (mret tt).
Proof. intros q t u Hq _. by apply runs_ret. Qed.

Lemma check_ok_trailing sp : check_ok (reject_trailing_comma sp).
Proof.
  intros q t u Hq Ht. eapply runs_bind; [by apply runs_peek|]. intros p1 Hp1 _.
  destruct (same_token _ _) eqn:E; [apply same_token_true in E; by rewrite E in Ht|]. by apply runs_ret.
Qed.

Lemma enough_nested fuel d : enough (S fuel) d → S d ≤ MAX_PARSE_NESTING → enough fuel (S d).
Proof. intros [_ ?] ?. split; lia. Qed.

Lemma runs_type_arguments d sp name fuel p l c ps args g qs r :
  enough (S fuel) d → S d ≤ MAX_PARSE_NESTING → parse_nesting_depth p = d → remaining p = l :: c →
  list_goal (S d) ps args → sp_token g = TGt → questions qs → follow r → reads c (ps ++ [g] ++ qs) r →
  runs (parse_type_arguments (parse fuel) sp name) p
    (wrap_all (Generic (from_to sp (sp_span g)) name args) qs) r.
Proof.
  intros Hf Hmax Hd Hp (nl & core & nl' & tail & ty & tys & -> & -> & Hnl & Hnl' & Hst & Hcore & Htail & Hshape)
    Hg Hqs Hfo Hr.
  apply runs_nesting; [by rewrite Hd|]. rewrite Hd.
  eapply runs_bind; [by apply runs_advance; rewrite remaining_with_depth|]. intros p1 Hp1 Hs1.
  apply reads_app_inv in Hr as (m & Hm & Hr). rewrite <- Hp1 in Hm.
  destruct (runs_skip_to p1 nl (core ++ nl' ++ tail) m Hnl) as (t & us & c2 & Heq & Ht & Hr2 & _ & Hrun);
    [by apply starts_app|done|].
  eapply runs_bind; [done|]. intros p2 Hp2 Hs2.
  pose proof (same_depth _ _ Hs1) as Hd1. pose proof (same_depth _ _ Hs2) as Hd2. simpl in Hd1.
  eapply runs_list; [done..|apply check_ok_ret| |by apply enough_nested| |congruence|].
  { eapply reads_closing; [done|]. by rewrite Hg. }
  { rewrite Hp2, Heq. by apply reads_tok. }
  intros p3 Hp3 Hs3. rewrite <- Hp3 in Hr. destruct (runs_expect_type_gt p3 g qs r Hr Hg) as (c4 & Hrun4 & Hr4).
  eapply runs_bind; [done|]. intros p4 Hp4 _. apply runs_suffix; [by rewrite Hp4|done..].
Qed.

Lemma runs_finish_function d sp params fuel p a c rts ret nl' rp qs r :
  enough (S fuel) d → S d ≤ MAX_PARSE_NESTING → parse_nesting_depth p = S d → remaining p = a :: c →
  ty_goal (S d) rts ret → newlines nl' → sp_token rp = TRParen → questions qs → follow r →
  reads c (rts ++ nl' ++ [rp] ++ qs) r →
  runs (finish_function (parse fuel) sp params) p (wrap_all (Func (from_to sp (sp_span rp)) params ret) qs) r.
Proof.
  intros Hf Hmax Hd Hp (nl & core & -> & Hnl & Hst & Hcore) Hnl' Hrp Hqs Hfo Hr.
  eapply runs_bind; [by apply runs_advance|]. intros p1 Hp1 Hs1. rewrite <- Hp1 in Hr.
  apply reads_app_inv in Hr as (m & Hm & Hr). apply reads_app_inv in Hr as (m' & Hm' & Hr).
  apply reads_cons_inv in Hr as (c2 & -> & Hr); [|congruence].
  eapply runs_bind.
  { eapply (Hcore nl); [done..|by rewrite (same_depth _ _ Hs1)| |by apply enough_nested].
    eapply (follow_after _ nl' [] (rp :: c2)); [done|by left|by rewrite app_nil_r|].
    exists rp, c2. by rewrite Hrp. }
  intros p2 Hp2 _. eapply runs_bind.
  { eapply (skip_newlines_runs _ nl'); [rewrite Hp2; by apply reads_newlines|done..|]. simpl. by rewrite Hrp. }
  intros p3 Hp3 _. eapply runs_bind; [by eapply runs_expect|]. intros p4 Hp4 _.
  apply runs_suffix; [by rewrite Hp4|done..].
Qed.

(** What is parsed after the newlines before a type, by its first token. *)
Definition body (fuel : nat) (t : Spanned) : M AstTy :=
  if same_token (sp_token t) TLParen then parse_parenthesized (parse fuel) (sp_span t)
  else if same_token (sp_token t) TDollar then parse_type_variable (parse fuel) context (sp_span t)
  else if same_token (sp_token t) TUnit then
    en ← advance;
    parse_optional_type_suffix (Named (from_to (sp_span t) (sp_span en)) (lit "Unit"))
  else if same_token (sp_token t) TImpl then throw (anonymous_impl_error context (sp_span t))
  else parse_named_type (parse fuel) context (sp_span t).

(** A form of type that starts with [t] is parsed when its body is. *)
Lemma base_dispatch d t rest ty :
  starter (sp_token t) = true →
  (∀ fuel p c qs r, remaining p = t :: c → questions qs → reads c (rest ++ qs) r → parse_nesting_depth p = d →
     follow r → enough (S fuel) d → runs (body fuel t) p (wrap_all ty qs) r) →
  base_goal d (t :: rest) ty.
Proof.
  intros Ht Hbody. split; [by exists t, rest|]. intros qs Hqs nl p fuel r Hnl Hr Hd Hfo Hf.
  destruct fuel as [|fuel]; [by destruct Hf; lia|]. cbn [parse_type_fuel]. cbv zeta.
  assert (Hnest : nested context = context) by by destruct context. rewrite Hnest.
  destruct (runs_skip_to p nl _ r Hnl ltac:(by eexists _, _) Hr) as (t' & us & c & Heq & _ & Hr' & _ & Hrun).
  simpl in Heq. injection Heq as <- <-.
  eapply runs_bind; [done|]. intros p1 Hp1 Hs1. eapply runs_bind; [by apply runs_peek_span|]. intros p2 Hp2 Hs2.
  eapply runs_bind; [by apply runs_peek|]. intros p3 Hp3 Hs3.
  eapply Hbody; [done..| |done|done]. by rewrite (same_depth _ _ Hs3), (same_depth _ _ Hs2), (same_depth _ _ Hs1).
Qed.

Lemma base_parenthesized_function d l nl a rts ret nl' r :
  S d ≤ MAX_PARSE_NESTING → sp_token l = TLParen → newlines nl → sp_token a = TArrow →
  ty_goal (S d) rts ret → newlines nl' → sp_token r = TRParen →
  base_goal d (l :: nl ++ a :: rts ++ nl' ++ [r]) (Func (from_to (sp_span l) (sp_span r)) [] ret).
Proof.
  intros Hmax Hl Hnl Ha Hret Hnl' Hrp. apply base_dispatch; [by rewrite Hl|].
  intros fuel p c qs out Hp Hqs Hr Hd Hfo Hf. unfold body. rewrite Hl. cbn [same_token tag Nat.eqb].
  rewrite <- (app_assoc nl) in Hr. apply reads_app_inv in Hr as (m & Hm & Hr). simpl in Hr.
  apply reads_cons_inv in Hr as (c2 & -> & Hr); [|congruence].
  apply runs_nesting; [by rewrite Hd|]. rewrite Hd.
  eapply runs_bind; [by apply runs_advance; rewrite remaining_with_depth|]. intros p1 Hp1 Hs1.
  eapply runs_bind.
  { eapply (skip_newlines_runs _ nl); [rewrite Hp1; by apply reads_newlines|done..|]. simpl. by rewrite Ha. }
  intros p2 Hp2 Hs2. eapply runs_bind; [by apply runs_peek|]. intros p3 Hp3 Hs3. rewrite Ha. cbn [same_token tag Nat.eqb].
  eapply runs_finish_function; [done|done| |done..|by rewrite <- !app_assoc in Hr].
  by rewrite (same_depth _ _ Hs3), (same_depth _ _ Hs2), (same_depth _ _ Hs1).
Qed.

(** Between parentheses, up to the token after the list. *)
Lemma runs_elements d l ps items fuel p c m (k : list AstTy → M AstTy) out r :
  enough (S fuel) d → S d ≤ MAX_PARSE_NESTING → parse_nesting_depth p = d → remaining p = l :: c →
  list_goal (S d) ps items → reads c ps m → closes m →
  (∀ p', remaining p' = m → parse_nesting_depth p' = S d → runs (k items) p' out r) →
  runs (with_parse_nesting (sp_span l) (
          advance;; skip_newlines;;
          t ← peek;
          if same_token t TArrow then finish_function (parse fuel) (sp_span l) []
          else
            first ← parse fuel;
            skip_newlines;;
            n ← gets rounds;
            params ← more_types (parse fuel) (reject_trailing_comma (sp_span l)) n [first];
            k params)) p out r.
Proof.
  intros Hf Hmax Hd Hp (nl & core & nl' & tail & ty & tys & -> & -> & Hnl & Hnl' & Hst & Hcore & Htail & Hshape)
    Hm Hcl Hk.
  apply runs_nesting; [by rewrite Hd|]. rewrite Hd.
  eapply runs_bind; [by apply runs_advance; rewrite remaining_with_depth|]. intros p1 Hp1 Hs1. rewrite <- Hp1 in Hm.
  destruct (runs_skip_to p1 nl (core ++ nl' ++ tail) m Hnl) as (t & us & c2 & Heq & Ht & Hr2 & _ & Hrun);
    [by apply starts_app|done|].
  eapply runs_bind; [done|]. intros p2 Hp2 Hs2. eapply runs_bind; [by apply runs_peek|]. intros p3 Hp3 Hs3.
  destruct (same_token _ _) eqn:E; [apply same_token_true in E; by rewrite E in Ht|].
  assert (Hd3 : parse_nesting_depth p3 = S d)
    by by rewrite (same_depth _ _ Hs3), (same_depth _ _ Hs2), (same_depth _ _ Hs1).
  eapply runs_list; [done..|apply check_ok_trailing|done|by apply enough_nested| |done|].
  { rewrite Hp3, Heq. by apply reads_tok. }
  intros p4 Hp4 Hs4. apply Hk; [done|]. by rewrite (same_depth _ _ Hs4).
Qed.

Lemma base_function d l ps params a rts ret nl' r :
  S d ≤ MAX_PARSE_NESTING → sp_token l = TLParen → list_goal (S d) ps params → sp_token a = TArrow →
  ty_goal (S d) rts ret → newlines nl' → sp_token r = TRParen →
  base_goal d (l :: ps ++ a :: rts ++ nl' ++ [r]) (Func (from_to (sp_span l) (sp_span r)) params ret).
Proof.
  intros Hmax Hl Hps Ha Hret Hnl' Hrp. apply base_dispatch; [by rewrite Hl|].
  intros fuel p c qs out Hp Hqs Hr Hd Hfo Hf. unfold body. rewrite Hl. cbn [same_token tag Nat.eqb].
  rewrite <- (app_assoc ps) in Hr. apply reads_app_inv in Hr as (m & Hm & Hr). simpl in Hr.
  apply reads_cons_inv in Hr as (c2 & -> & Hr); [|congruence].
  eapply runs_elements; [done..|by exists a, c2; rewrite Ha|]. intros p1 Hp1 Hd1.
  eapply runs_bind; [by apply runs_peek|]. intros p2 Hp2 Hs2. rewrite Ha. cbn [same_token tag Nat.eqb].
  eapply runs_finish_function; [done|done| |done..|by rewrite <- !app_assoc in Hr].
  by rewrite (same_depth _ _ Hs2).
Qed.

Lemma base_tuple d l ps items r :
  S d ≤ MAX_PARSE_NESTING → sp_token l = TLParen → list_goal (S d) ps items → length items ≠ 1 →
  sp_token r = TRParen → base_goal d (l :: ps ++ [r]) (Tuple (from_to (sp_span l) (sp_span r)) items).
Proof.
  intros Hmax Hl Hps Hlen Hrp. apply base_dispatch; [by rewrite Hl|].
  intros fuel p c qs out Hp Hqs Hr Hd Hfo Hf. unfold body. rewrite Hl. cbn [same_token tag Nat.eqb].
  rewrite <- (app_assoc ps) in Hr. apply reads_app_inv in Hr as (m & Hm & Hr). simpl in Hr.
  apply reads_cons_inv in Hr as (c2 & -> & Hr); [|congruence].
  eapply runs_elements; [done..|by exists r, c2; rewrite Hrp|]. intros p1 Hp1 Hd1.
  eapply runs_bind; [by apply runs_peek|]. intros p2 Hp2 Hs2. rewrite Hrp. cbn [same_token tag Nat.eqb].
  eapply runs_bind; [by eapply runs_expect|]. intros p3 Hp3 _. rewrite decide_False by done.
  apply runs_suffix; [by rewrite Hp3|done..].
Qed.

Lemma base_variable d s t ident :
  sp_token s = TDollar → sp_token t = TIdent ident → lit "$" ++ ident ≠ lit "$Self" →
  base_goal d [s; t] (Named (from_to (sp_span s) (sp_span t)) (lit "$" ++ ident)).
Proof.
  intros Hs Ht Hself. apply base_dispatch; [by rewrite Hs|].
  intros fuel p c qs out Hp Hqs Hr Hd Hfo Hf. unfold body. rewrite Hs. cbn [same_token tag Nat.eqb].
  simpl in Hr. apply reads_cons_inv in Hr as (c2 & -> & Hr); [|congruence].
  eapply runs_bind; [by apply runs_advance|]. intros p1 Hp1 _.
  eapply runs_bind; [by eapply runs_expect_ident|]. intros p2 Hp2 _. cbn beta iota zeta. rewrite decide_False by done.
  destruct (suffix_follow qs out Hqs Hfo) as (u & us & Hu & Hlt & _).
  assert (c2 = u :: us) as -> by (rewrite <- Hu; by apply reads_questions).
  eapply runs_bind; [by apply runs_peek|]. intros p3 Hp3 _.
  destruct (same_token _ _) eqn:E; [by apply same_token_true in E|]. apply runs_suffix; [by rewrite Hp3|done..].
Qed.

Lemma base_variable_application d s t ident l ps args g :
  S d ≤ MAX_PARSE_NESTING → sp_token s = TDollar → sp_token t = TIdent ident →
  lit "$" ++ ident ≠ lit "$Self" → permits_constructor_variable_application context (lit "$" ++ ident) = true →
  sp_token l = TLt → list_goal (S d) ps args → sp_token g = TGt →
  base_goal d (s :: t :: l :: ps ++ [g]) (Generic (from_to (sp_span s) (sp_span g)) (lit "$" ++ ident) args).
Proof.
  intros Hmax Hs Ht Hself Hperm Hl Hps Hg. apply base_dispatch; [by rewrite Hs|].
  intros fuel p c qs out Hp Hqs Hr Hd Hfo Hf. unfold body. rewrite Hs. cbn [same_token tag Nat.eqb].
  simpl in Hr. apply reads_cons_inv in Hr as (c2 & -> & Hr); [|congruence].
  apply reads_cons_inv in Hr as (c3 & -> & Hr); [|congruence].
  eapply runs_bind; [by apply runs_advance|]. intros p1 Hp1 Hs1.
  eapply runs_bind; [by eapply runs_expect_ident|]. intros p2 Hp2 Hs2. cbn beta iota zeta. rewrite decide_False by done.
  eapply runs_bind; [by apply runs_peek|]. intros p3 Hp3 Hs3. rewrite Hl, Hperm. cbn [same_token tag Nat.eqb].
  eapply runs_type_arguments; [done|done| |done..|by rewrite <- app_assoc in Hr].
  by rewrite (same_depth _ _ Hs3), (same_depth _ _ Hs2), (same_depth _ _ Hs1).
Qed.

Lemma base_unit d u :
  sp_token u = TUnit → base_goal d [u] (Named (from_to (sp_span u) (sp_span u)) (lit "Unit")).
Proof.
  intros Hu. apply base_dispatch; [by rewrite Hu|].
  intros fuel p c qs out Hp Hqs Hr Hd Hfo Hf. unfold body. rewrite Hu. cbn [same_token tag Nat.eqb].
  eapply runs_bind; [by apply runs_advance|]. intros p1 Hp1 _. apply runs_suffix; [by rewrite Hp1|done..].
Qed.

Lemma path_plain max ts name sp : path_syntax max ts name sp → Forall (λ t, sp_token t ≠ TGt) ts.
Proof.
  intros (t & first & rest & more & en & -> & Ht & Hpt & _). constructor; [congruence|].
  clear Ht. induction Hpt; repeat (constructor; [congruence|]); done.
Qed.

(** A named type up to the token after its path: an argument list or a suffix. *)
Lemma runs_named sp0 ts name sp u c fuel p out r :
  path_syntax 2 ts name sp → name_allowed context name → remaining p = ts ++ u :: c →
  path_continues (u :: c) = false →
  (same_token (sp_token u) TLt = true → application_allowed context name) →
  (∀ p', remaining p' = u :: c → same p p' →
     runs (if same_token (sp_token u) TLt then parse_type_arguments (parse fuel) sp0 name
           else parse_optional_type_suffix (Named (from_to sp0 sp) name)) p' out r) →
  runs (parse_named_type (parse fuel) context sp0) p out r.
Proof.
  intros Hpath [Hlower Hupper] Hp Hc Happ Hk.
  eapply runs_bind; [by eapply runs_qualified_ident|]. intros p1 Hp1 Hs1. cbn beta iota.
  case_decide as Hself.
  - subst name. unfold parse_self_type. destruct (Hupper eq_refl) as [target ->].
    eapply runs_bind; [by apply runs_peek|]. intros p2 Hp2 Hs2.
    destruct (same_token _ _) eqn:E; [rewrite Happ by done|]; apply Hk; [done|by etrans|done|by etrans].
  - rewrite decide_False by done. eapply runs_bind; [by apply runs_peek|]. intros p2 Hp2 Hs2.
    apply Hk; [done|by etrans].
Qed.

(** The path at the start of a named type. *)
Lemma path_start ts name sp :
  path_syntax 2 ts name sp →
  ∃ t rest first, ts = t :: rest ∧ sp_token t = TIdent first ∧ Forall (λ t, sp_token t ≠ TGt) rest ∧
    ∀ x, from_to (sp_span t) x = from_to sp x.
Proof.
  intros Hpath. pose proof (path_plain _ _ _ _ Hpath) as Hplain.
  destruct Hpath as (t & first & rest & more & en & -> & Ht & _ & _ & _ & _ & ->).
  exists t, rest, first. apply Forall_cons in Hplain as [_ ?]. by split_and!.
Qed.

Lemma base_path d ts name sp :
  path_syntax 2 ts name sp → name_allowed context name → base_goal d ts (Named sp name).
Proof.
  intros Hpath Hname. destruct (path_start _ _ _ Hpath) as (t & rest & first & -> & Ht & Hplain & Hspan).
  apply base_dispatch; [by rewrite Ht|].
  intros fuel p c qs out Hp Hqs Hr Hd Hfo Hf. unfold body. rewrite Ht. cbn [same_token tag].
  apply reads_app_inv in Hr as (m & Hm & Hr). apply reads_plain in Hm; [|done]. subst c.
  apply reads_questions in Hr as Hm; [|done].
  destruct (suffix_follow qs out Hqs Hfo) as (u & us & Hu & Hlt & Hcont). rewrite Hm, Hu in Hp.
  assert (E : same_token (sp_token u) TLt = false).
  { destruct (same_token _ _) eqn:E; [by apply same_token_true in E|done]. }
  eapply runs_named; [done..|by rewrite E|]. rewrite E. intros p1 Hp1 _.
  assert (from_to (sp_span t) sp = sp) as ->.
  { rewrite Hspan. by destruct sp. }
  apply runs_suffix; [|done..]. rewrite Hp1, <- Hu. apply reads_exact.
Qed.

Lemma base_application d ts name sp l ps args g :
  S d ≤ MAX_PARSE_NESTING → path_syntax 2 ts name sp → name_allowed context name →
  application_allowed context name → sp_token l = TLt → list_goal (S d) ps args → sp_token g = TGt →
  base_goal d (ts ++ l :: ps ++ [g]) (Generic (from_to sp (sp_span g)) name args).
Proof.
  intros Hmax Hpath Hname Happ Hl Hps Hg.
  destruct (path_start _ _ _ Hpath) as (t & rest & first & -> & Ht & Hplain & Hspan).
  apply base_dispatch; [by rewrite Ht|].
  intros fuel p c qs out Hp Hqs Hr Hd Hfo Hf. unfold body. rewrite Ht. cbn [same_token tag].
  rewrite <- app_assoc in Hr. apply reads_app_inv in Hr as (m & Hm & Hr). apply reads_plain in Hm; [|done]. subst c.
  simpl in Hr. apply reads_cons_inv in Hr as (c & -> & Hr); [|congruence].
  eapply runs_named; [done..|apply not_continues; congruence|done|].
  rewrite Hl. cbn [same_token tag Nat.eqb]. intros p1 Hp1 Hs1. rewrite <- Hspan.
  eapply runs_type_arguments; [done|done|by rewrite (same_depth _ _ Hs1)|done..|by rewrite <- app_assoc in Hr].
Qed.

Lemma ty_complete d ts ty : ty_syntax context d ts ty → ty_goal d ts ty.
Proof.
  apply (ty_syntax_mut context ty_goal base_goal list_goal);
    eauto using base_parenthesized_function, base_function, base_tuple, base_variable, base_variable_application,
      base_unit, base_path, base_application.
  - intros d' nl base ty' qs Hnl _ [Hst Hb] Hqs. exists nl, (base ++ qs).
    split_and!; [done..|by apply starts_app|by apply Hb].
  - intros d' ts' ty' nl _ (nl0 & core & -> & ? & ? & ?) Hnl.
    exists nl0, core, nl, [], ty', []. rewrite app_nil_r, <- app_assoc.
    split_and!; [done..|apply tail_nil|by left].
  - intros d' ts' ty' nl c rest tys _ (nl0 & core & -> & ? & ? & ?) Hnl Hc _ Hrest.
    exists nl0, core, nl, (c :: rest), ty', tys. rewrite <- app_assoc.
    split_and!; [done..|by apply tail_cons|right; eauto].
Qed.

End Complete.

(** ** The theorems *)

Lemma enough_top d : enough (S MAX_PARSE_NESTING) d.
Proof. split; lia. Qed.

(** The tokens that a run from [p] to [p'] consumed denote the type [ty]. *)
Definition read_as (context : TypeParseContext) (p : Parser) (ty : AstTy) (p' : Parser) : Prop :=
  ∃ ts, ty_syntax context (parse_nesting_depth p) ts ty ∧ reads (remaining p) ts (remaining p').

(** C27: whatever the tokens are, as long as they end with the end-of-file token, parsing a
    type neither panics nor loops.  When it returns a type, the tokens it consumed denote
    exactly that type in the grammar, spans included, where [>>] may have been split in
    two brackets and [>=] in a bracket and an equals sign.  Whether it returns or fails,
    the tokens, the enclosing targets and the nesting depth are as before, and the
    end-of-file token is still ahead. *)
Theorem type_parser_sound `{TokenDebug} context p :
  well_ended p →
  match parse_type_in_context context p with
  | (p', Ok ty) =>
      keeps p p' ∧ read_as context p ty p'
  | (p', Err (Failed _)) => keeps p p'
  | (_, Err (Panicked _)) => False
  end.
Proof.
  intros Hw. destruct (enough_top (parse_nesting_depth p)). by apply (wp_parse_type context (S MAX_PARSE_NESTING)).
Qed.

(** C28: every sequence of tokens that the grammar derives is parsed, to the type it
    denotes, from any stream that starts with it, up to the splitting of [>>] and [>=],
    and goes on with a token that cannot continue a type; exactly that rest is left to be
    read, and the depth and the targets are unchanged. *)
Theorem type_parser_complete `{TokenDebug} context p ts ty r :
  ty_syntax context (parse_nesting_depth p) ts ty → reads (remaining p) ts r → follow r →
  ∃ p', parse_type_in_context context p = (p', Ok ty) ∧ remaining p' = r ∧ same p p'.
Proof.
  intros Hty Hr Hfo. destruct (ty_complete _ _ _ _ Hty) as (nl & core & -> & Hnl & _ & Hcore).
  eapply (Hcore nl); [done..|]. apply enough_top.
Qed.

(** ** A sample *)

Definition sample_debug : TokenDebug := {| debug_token _ := [] |}.

(** The tokens of [List<List<Int>>? = 1], where the two closing brackets are one token. *)
Definition at_ (t : Token) (s e : nat) : Spanned := mkSpanned t (mkSpanRange s e).
Definition sample_stream : list Spanned :=
  [at_ (TIdent (lit "List")) 0 4; at_ TLt 4 5; at_ (TIdent (lit "List")) 5 9; at_ TLt 9 10;
   at_ (TIdent (lit "Int")) 10 13; at_ TCompose 13 15; at_ TQuestion 15 16; at_ TBind 17 18; at_ (TInt 1) 19 20;
   at_ TEof 20 20].
Definition sample_parser : Parser := mkParser sample_stream [] 0 [] 0.
Definition sample_type : AstTy :=
  wrap_optional_ty
    (Generic (mkSpanRange 0 15) (lit "List")
       [Generic (mkSpanRange 5 14) (lit "List") [Named (mkSpanRange 10 13) (lit "Int")]]) 16.

Lemma type_parser_sound_witness :
  ∃ p', parse_type_in_context (H := sample_debug) (general None) sample_parser = (p', Ok sample_type) ∧
    keeps sample_parser p' ∧
    ∃ ts, ty_syntax (general None) 0 ts sample_type ∧ reads sample_stream ts (remaining p').
Proof.
  assert (Hw : well_ended sample_parser).
  { exists (take 9 sample_stream), (at_ TEof 20 20). by split. }
  pose proof (@type_parser_sound sample_debug (general None) sample_parser Hw) as Hs.
  destruct (parse_type_in_context _ _) as [p' res] eqn:E. vm_compute in E. injection E as <- <-.
  eexists. split; [reflexivity|]. exact Hs.
Defined.

Definition sample_read : list Spanned :=
  [at_ (TIdent (lit "List")) 0 4; at_ TLt 4 5; at_ (TIdent (lit "List")) 5 9; at_ TLt 9 10;
   at_ (TIdent (lit "Int")) 10 13; at_ TGt 13 14; at_ TGt 14 15; at_ TQuestion 15 16].

Lemma one_segment s e name : path_syntax 2 [at_ (TIdent name) s e] name (mkSpanRange s e).
Proof. exists (at_ (TIdent name) s e), name, [], [], e. split_and!; [done|done|constructor|simpl; lia|done|done|done]. Qed.

Lemma plain_allowed name : bool_decide (name ≠ lit "self" ∧ name ≠ lit "Self") = true → name_allowed (general None) name.
Proof. intros [??]%bool_decide_eq_true. by split. Qed.

Lemma sample_derivation : ty_syntax (general None) 0 sample_read sample_type.
Proof.
  apply (Ty _ 0 [] (take 7 sample_read) _ [at_ TQuestion 15 16]); [constructor| |by repeat constructor].
  apply (Base_application _ 0 [at_ (TIdent (lit "List")) 0 4] (lit "List") (mkSpanRange 0 4) (at_ TLt 4 5)
           [at_ (TIdent (lit "List")) 5 9; at_ TLt 9 10; at_ (TIdent (lit "Int")) 10 13; at_ TGt 13 14] _ (at_ TGt 14 15));
    [unfold MAX_PARSE_NESTING; lia|apply one_segment|by apply plain_allowed|done|done| |done].
  apply list_single, ty_plain.
  apply (Base_application _ 1 [at_ (TIdent (lit "List")) 5 9] (lit "List") (mkSpanRange 5 9) (at_ TLt 9 10)
           [at_ (TIdent (lit "Int")) 10 13] _ (at_ TGt 13 14));
    [unfold MAX_PARSE_NESTING; lia|apply one_segment|by apply plain_allowed|done|done| |done].
  apply list_single, ty_plain.
  apply Base_path; [apply one_segment|by apply plain_allowed].
Qed.

Lemma type_parser_complete_witness :
  ∃ p', parse_type_in_context (H := sample_debug) (general None) sample_parser = (p', Ok sample_type) ∧
    remaining p' = drop 7 sample_stream ∧ same sample_parser p'.
Proof.
  apply (@type_parser_complete sample_debug (general None) sample_parser sample_read).
  - exact sample_derivation.
  - unfold remaining. simpl. do 5 apply reads_tok. eapply reads_split; [reflexivity|]. do 2 apply reads_tok. constructor.
  - exists (at_ TBind 17 18), (drop 8 sample_stream). split_and!; [done..|reflexivity].
Defined.

End TypeParserProps.
