(* ===== verification/WhereClause.v ===== *)
(** * Type parameters and [where] clauses ([crates/spire/src/parser/decl.rs])

    The type parameter list of a declaration, [<$A, $B>], and its [where] clause: one
    constraint per line, each a subject type with bounds joined by [+].  A nominal
    declaration turns its clause into the bounds of its parameters. *)

From S2P Require Import Prelude Names ListHandle Value ParseError StringLiteral Lexer ParserCore TypeParser.

Inductive WhereConstraintRhs : Type :=
| RhsTrait (span : Span) (name : str)
| RhsTypeConstructor (span : Span) (slots : list AstTy)
| RhsTraitSlot (span : Span) (trait slot : str).

Record WhereConstraint : Type := mkWhereConstraint {
  wc_subject : AstTy;
  wc_bounds : list WhereConstraintRhs;
  wc_span : Span;
}.

Record WhereClause : Type := mkWhereClause { wh_constraints : list WhereConstraint; wh_span : Span }.

Inductive WhereClauseBlock : Type :=
| WFunction | WNominalDefinition | WTraitDefinition | WTraitMethod | WTraitImplementation
| WInherentImplementationMethod.
#[export] Instance WhereClauseBlock_eq_dec : EqDecision WhereClauseBlock.
Proof. solve_decision. Defined.

Record WhereClauseContext : Type := mkWhereContext { wcx_block : WhereClauseBlock; wcx_self : option str }.

Module WhereClause.
Import Parser TypeParser.

Definition where_constraint_rhs_span (rhs : WhereConstraintRhs) : Span :=
  match rhs with RhsTrait span _ | RhsTypeConstructor span _ | RhsTraitSlot span _ _ => span end.

Definition function : WhereClauseContext := mkWhereContext WFunction None.
Definition trait_definition : WhereClauseContext := mkWhereContext WTraitDefinition (Some (lit "Self")).
Definition nominal_definition : WhereClauseContext := mkWhereContext WNominalDefinition None.
Definition trait_method : WhereClauseContext := mkWhereContext WTraitMethod (Some (lit "Self")).
Definition trait_implementation (self_target : str) : WhereClauseContext :=
  mkWhereContext WTraitImplementation (Some self_target).
Definition inherent_implementation_method (target : str) : WhereClauseContext :=
  mkWhereContext WInherentImplementationMethod (Some target).

Definition permits_type_constructor_shape (c : WhereClauseContext) (subject : AstTy) : bool :=
  bool_decide (wcx_block c = WTraitDefinition) && is_self_type subject.
Definition permits_trait_slot_mapping (c : WhereClauseContext) : bool :=
  bool_decide (wcx_block c = WTraitImplementation).

Definition declaration_error {A} (message : str) (sp : Span) : M A :=
  throw (ParseError.syntax DeclarationSyntax message sp).
(** The error at the current token. *)
Definition error_here {A} (message : str) : M A := sp ← peek_span; declaration_error message sp.

Section Where.
Context `{TokenDebug}.

(** ** Type parameters *)

Definition ident_of (t : Token) : option str := match t with TIdent name => Some name | _ => None end.

Fixpoint type_params_loop (fuel : nat) (params : list TypeParam) : M (list TypeParam) :=
  match fuel with
  | 0 => crash PFuel
  | S fuel' =>
      param_span ← peek_span;
      t ← peek;
      match ident_of t with
      | Some bound_name =>
          declaration_error
            (lit "Declaration type parameters must be `$` binders; write `<$M> where $M: " ++ bound_name ++ lit "`")
            param_span
      | None =>
          expect TDollar;;
          '(param_name, _) ← expect_ident;
          t' ← peek;
          if same_token t' TColon then
            advance;; skip_newlines;;
            '(bound_name, bound_span) ← expect_ident;
            declaration_error
              (lit "Inline declaration constraints are not allowed; write `<$" ++ param_name ++ lit "> where $"
                 ++ param_name ++ lit ": " ++ bound_name ++ lit "`") (from_to param_span bound_span)
          else
            let params := params ++ [mkTypeParam (lit "$" ++ param_name) None param_span] in
            skip_newlines;;
            t'' ← peek;
            if same_token t'' TComma then advance;; skip_newlines;; type_params_loop fuel' params
            else if same_token t'' TGt then expect TGt;; mret params
            else if same_token t'' TEof then sp ← peek_span; throw (ParseError.incomplete (lit ">") sp)
            else error_here (lit "Expected `,` or `>` in declaration type parameter list")
      end
  end.

Definition parse_decl_type_params : M (list TypeParam) :=
  t ← peek;
  if same_token t TLt then advance;; skip_newlines;; n ← gets rounds; type_params_loop n []
  else mret [].

(** ** Constraints *)

Definition is_where_clause_terminator (t : Token) : bool :=
  match t with TEof | TLBrace | TRBrace | TDef | TAnnotator _ => true | _ => false end.

Definition parse_constructor_shape (self_context : option str) (start : Span) : M WhereConstraintRhs :=
  advance;; skip_newlines;;
  expect TLt;; skip_newlines;;
  t ← peek;
  if same_token t TGt then error_here (lit "`Type` requires at least one constructor slot")
  else
    first ← parse_type_in_impl_context self_context;
    skip_newlines;;
    n ← gets rounds;
    slots ← more_types (parse_type_in_impl_context self_context) (mret tt) n [first];
    en ← expect_type_gt;
    mret (RhsTypeConstructor (from_to start en) slots).

Definition parse_where_constraint_rhs (self_context : option str) (permits_shape permits_slot : bool) :
    M WhereConstraintRhs :=
  start ← peek_span;
  t ← peek;
  if same_token t TType then
    if permits_shape then parse_constructor_shape self_context start
    else error_here (lit "`Type<...>` is only allowed as `Self: Type<...>` in a deftrait where clause")
  else
    '(trait_name, trait_span) ← expect_qualified_ident 2 (lit "trait constraint");
    t' ← peek;
    if same_token t' TDot then
      if permits_slot then
        advance;;
        expect TDollar;;
        '(slot_name, slot_span) ← expect_ident;
        mret (RhsTraitSlot (from_to start slot_span) trait_name (lit "$" ++ slot_name))
      else error_here (lit "`Trait.$Slot` mappings are only allowed in a trait implementation where clause")
    else if same_token t' TLt then
      error_here (lit "Parameterized trait bounds are not allowed in `where`; use bare `" ++ trait_name ++ lit "`")
    else mret (RhsTrait (from_to start trait_span) trait_name).

Fixpoint bounds_loop (fuel : nat) (rhs : M WhereConstraintRhs) (bounds : list WhereConstraintRhs) :
    M (list WhereConstraintRhs) :=
  match fuel with
  | 0 => crash PFuel
  | S fuel' =>
      t ← peek;
      if same_token t TPlus then
        advance;; skip_newlines;;
        b ← rhs;
        bounds_loop fuel' rhs (bounds ++ [b])
      else mret bounds
  end.

Definition parse_where_constraint (context : WhereClauseContext) : M WhereConstraint :=
  subject ← parse_type_in_impl_context (wcx_self context);
  skip_newlines;;
  expect TColon;;
  skip_newlines;;
  let rhs := parse_where_constraint_rhs (wcx_self context)
    (permits_type_constructor_shape context subject) (permits_trait_slot_mapping context) in
  first ← rhs;
  n ← gets rounds;
  bounds ← bounds_loop n rhs [first];
  let en := where_constraint_rhs_span (default first (last bounds)) in
  mret (mkWhereConstraint subject bounds (from_to (ast_ty_span subject) en)).

(** [self.pos -= 1]: the last newline is left for the caller. *)
Definition step_back : M unit := λ p, (with_cursor p (synthetic_tokens p) (pos p - 1), Ok tt).

(** The newlines after a constraint; [true] when the clause ends after them. *)
Definition skip_constraint_separator : M bool :=
  newline_pos ← gets pos;
  skip_newlines;;
  t ← peek;
  here ← gets pos;
  if is_where_clause_terminator t && bool_decide (newline_pos < here) then step_back;; mret true
  else mret false.

Fixpoint constraints_loop (fuel : nat) (context : WhereClauseContext) (constraints : list WhereConstraint) :
    M (list WhereConstraint) :=
  match fuel with
  | 0 => crash PFuel
  | S fuel' =>
      t ← peek;
      if is_where_clause_terminator t then mret constraints
      else if same_token t TEof then
        sp ← peek_span; throw (ParseError.incomplete (lit "where constraint or `{`") sp)
      else
        c ← parse_where_constraint context;
        let constraints := constraints ++ [c] in
        t' ← peek;
        if is_where_clause_terminator t' then mret constraints
        else if same_token t' TNewline then
          stop ← skip_constraint_separator;
          if stop : bool then mret constraints else constraints_loop fuel' context constraints
        else error_here (lit "Expected `+`, a new constraint line, or `{` after where constraint")
  end.

(** The lookahead for [where] reads the token vector itself. *)
Definition where_ahead (p : Parser) : bool :=
  match drop (length (take_while (λ t, same_token (sp_token t) TNewline) (drop (pos p) (tokens p))))
             (drop (pos p) (tokens p)) with
  | t :: _ => same_token (sp_token t) TWhere
  | [] => false
  end.

Definition parse_optional_where_clause (context : WhereClauseContext) : M (option WhereClause) :=
  ahead ← gets where_ahead;
  if ahead : bool then
    skip_newlines;;
    start ← advance;
    skip_newlines;;
    n ← gets rounds;
    constraints ← constraints_loop n context [];
    match last constraints with
    | None => error_here (lit "`where` must contain at least one constraint")
    | Some c => mret (Some (mkWhereClause constraints (from_to (sp_span start) (wc_span c))))
    end
  else mret None.

(** ** Bounds of nominal type parameters *)

Definition set_bound (name bound : str) (params : list TypeParam) : list TypeParam :=
  match position (λ param, bool_decide (tp_name param = name)) params with
  | Some i => alter (λ param, mkTypeParam (tp_name param) (Some bound) (tp_span param)) i params
  | None => params
  end.

Definition apply_constraint (c : WhereConstraint) (params : list TypeParam) : Result ParseError (list TypeParam) :=
  let error message sp := Err (ParseError.syntax DeclarationSyntax message sp) in
  match wc_subject c with
  | Named subject_span subject =>
      match find (λ param, bool_decide (tp_name param = subject)) params with
      | None =>
          error (lit "Nominal declaration constraint subject `" ++ subject
                   ++ lit "` is not declared in the type parameter list") subject_span
      | Some param =>
          match tp_bound param with
          | Some _ => error (lit "Nominal type parameter `" ++ subject ++ lit "` has more than one constraint") (wc_span c)
          | None =>
              match wc_bounds c with
              | [RhsTrait _ bound] => Ok (set_bound subject bound params)
              | _ => error (lit "A nominal type parameter requires exactly one bare trait constraint") (wc_span c)
              end
          end
      end
  | _ => error (lit "A nominal declaration constraint subject must be a declared type parameter") (wc_span c)
  end.

Fixpoint apply_constraints (cs : list WhereConstraint) (params : list TypeParam) : Result ParseError (list TypeParam) :=
  match cs with
  | [] => Ok params
  | c :: cs' => let? params' := apply_constraint c params in apply_constraints cs' params'
  end.

Definition parse_nominal_decl_type_params : M (list TypeParam) :=
  params ← parse_decl_type_params;
  clause ← parse_optional_where_clause nominal_definition;
  match clause with
  | None => mret params
  | Some w =>
      match apply_constraints (wh_constraints w) params with
      | Ok params' => mret params'
      | Err e => throw e
      end
  end.

End Where.
End WhereClause.
