(* ===== verification/WhereClauseProps.v ===== *)
(** * [where] clauses are read as the grammar says

    The grammar of type parameter lists and [where] clauses, the soundness of their
    parsers for it, and what a nominal declaration makes of its clause. *)

From S2P Require Import Prelude Names ListHandle Value ParseError StringLiteral Lexer ParserCore ParserLaws TypeParser TypeGrammar WhereClause.

Module WhereClauseProps.
Import Parser ParserLaws TypeParser TypeGrammar WhereClause.

(** ** The grammar *)

(** The parameters between the brackets: separated by commas, with newlines around them. *)
Inductive params_syntax : list Spanned → list TypeParam → Prop :=
| Params_one s t name nl :
    sp_token s = TDollar → sp_token t = TIdent name → newlines nl →
    params_syntax (s :: t :: nl) [mkTypeParam (lit "$" ++ name) None (sp_span s)]
| Params_more s t name nl c nl' rest params :
    sp_token s = TDollar → sp_token t = TIdent name → newlines nl → sp_token c = TComma → newlines nl' →
    params_syntax rest params →
    params_syntax (s :: t :: nl ++ c :: nl' ++ rest) (mkTypeParam (lit "$" ++ name) None (sp_span s) :: params).

(** No list, or one between brackets. *)
Inductive type_params_syntax : list Spanned → list TypeParam → Prop :=
| Type_params_none : type_params_syntax [] []
| Type_params_list l nl ts params g :
    sp_token l = TLt → newlines nl → params_syntax ts params → sp_token g = TGt →
    type_params_syntax (l :: nl ++ ts ++ [g]) params.

Section Grammar.
Variable context : WhereClauseContext.
Variable d : nat.

Abbreviation ty := (ty_syntax (general (wcx_self context)) d).
Abbreviation tys := (list_syntax (general (wcx_self context)) d).

Inductive rhs_syntax (subject : AstTy) : list Spanned → WhereConstraintRhs → Prop :=
| Rhs_trait ts name sp : path_syntax 2 ts name sp → rhs_syntax subject ts (RhsTrait sp name)
| Rhs_shape k nl l ps slots g :
    permits_type_constructor_shape context subject = true →
    sp_token k = TType → newlines nl → sp_token l = TLt → tys ps slots → sp_token g = TGt →
    rhs_syntax subject (k :: nl ++ l :: ps ++ [g]) (RhsTypeConstructor (from_to (sp_span k) (sp_span g)) slots)
| Rhs_slot ts name sp dot s t slot :
    permits_trait_slot_mapping context = true →
    path_syntax 2 ts name sp → sp_token dot = TDot → sp_token s = TDollar → sp_token t = TIdent slot →
    rhs_syntax subject (ts ++ [dot; s; t]) (RhsTraitSlot (from_to sp (sp_span t)) name (lit "$" ++ slot)).

(** Bounds joined by [+]. *)
Inductive bounds_syntax (subject : AstTy) : list Spanned → list WhereConstraintRhs → Prop :=
| Bounds_one ts rhs : rhs_syntax subject ts rhs → bounds_syntax subject ts [rhs]
| Bounds_more ts rhs plus nl us bounds :
    bounds_syntax subject us bounds → sp_token plus = TPlus → newlines nl → rhs_syntax subject ts rhs →
    bounds_syntax subject (us ++ plus :: nl ++ ts) (bounds ++ [rhs]).

Inductive constraint_syntax : list Spanned → WhereConstraint → Prop :=
| Constraint ss subject nl c nl' bs bounds last_bound :
    ty ss subject → newlines nl → sp_token c = TColon → newlines nl' → bounds_syntax subject bs bounds →
    last bounds = Some last_bound →
    constraint_syntax (ss ++ nl ++ c :: nl' ++ bs)
      (mkWhereConstraint subject bounds (from_to (ast_ty_span subject) (where_constraint_rhs_span last_bound))).

(** Constraints on lines of their own. *)
Inductive constraints_syntax : list Spanned → list WhereConstraint → Prop :=
| Constraints_none : constraints_syntax [] []
| Constraints_more us cs nl ts c :
    constraints_syntax us cs → newlines nl → (cs ≠ [] → nl ≠ []) → constraint_syntax ts c →
    constraints_syntax (us ++ nl ++ ts) (cs ++ [c]).

Inductive where_syntax : list Spanned → WhereClause → Prop :=
| Where nl w nl' us cs last_constraint nl'' :
    newlines nl → sp_token w = TWhere → newlines nl' → constraints_syntax us cs → last cs = Some last_constraint →
    newlines nl'' →
    where_syntax (nl ++ w :: nl' ++ us ++ nl'')
      (mkWhereClause cs (from_to (sp_span w) (wc_span last_constraint))).

End Grammar.

(** ** Soundness *)

Section Sound.
Context `{TokenDebug}.

Lemma wp_error_here {A} msg p (Q : A → Parser → Prop) : well_ended p → wp (error_here msg) p Q.
Proof. intros Hw. apply wp_bind, wp_peek_span; [done|]. intros. by apply wp_throw. Qed.

Lemma wp_type self p :
  well_ended p → wp (parse_type_in_impl_context self) p (typed (general self) (parse_nesting_depth p) p).
Proof.
  intros. unfold parse_type_in_impl_context, parse_type_in_context. apply wp_parse_type; [lia|lia|done].
Qed.

(** A token that no split produces takes one place of the stream. *)
Lemma reads_token_length c t r : reads c [t] r → sp_token t ≠ TGt → length c = S (length r).
Proof. intros Hr Ht. apply reads_cons_inv in Hr as (c' & -> & Hr); [|done]. by inversion Hr. Qed.

Lemma wp_type_params_loop fuel (Q : list TypeParam → Parser → Prop) params p :
  well_ended p → length (remaining p) < fuel →
  (∀ ts more g p', keeps p p' → params_syntax ts more → sp_token g = TGt →
     reads (remaining p) (ts ++ [g]) (remaining p') → Q (params ++ more) p') →
  wp (type_params_loop fuel params) p Q.
Proof.
  revert params p Q. induction fuel as [|fuel IH]; intros params p Q Hw Hf HQ; [lia|]. cbn [type_params_loop].
  apply wp_bind, wp_peek_span; [done|]. intros s r Hs.
  apply wp_bind, wp_peek; [done|]. intros s' r' Hs'. rewrite Hs in Hs'. injection Hs' as <- <-.
  destruct (ident_of _); [by apply wp_throw|].
  apply wp_bind, wp_expect; [done|done|]. intros s' p1 Hk1 Hdollar Hr1.
  assert (s' = s) as -> by (apply reads_cons_inv in Hr1 as (? & Heq & _); congruence).
  apply wp_bind, wp_expect_ident; [apply Hk1|]. intros t name p2 Hk2 Ht Hr2. cbn beta iota.
  apply wp_bind, wp_peek; [apply Hk2|]. intros u ru Hu. destruct (same_token (sp_token u) TColon) eqn:Hcolon.
  { apply same_token_true in Hcolon. eapply wp_bind, wp_advance; [apply Hk2|done|congruence|]. intros Hk3 Hn.
    apply wp_bind, wp_skip_newlines; [apply Hk3|]. intros nl p4 Hk4 _ _.
    apply wp_bind, wp_expect_ident; [apply Hk4|]. intros ? ? p5 Hk5 _ _. apply wp_throw, Hk5. }
  apply wp_bind, wp_skip_newlines; [apply Hk2|]. intros nl p3 Hk3 Hnl Hr3.
  assert (Hr : reads (remaining p) (s :: t :: nl) (remaining p3)).
  { apply reads_cons_inv in Hr1 as (c & Hc & Hr1); [|congruence]. inversion Hr1; subst.
    rewrite Hc, Hr2. by do 2 apply reads_tok. }
  apply wp_bind, wp_peek; [apply Hk3|]. intros x rx Hx. destruct (same_token (sp_token x) TComma) eqn:Hcomma.
  { apply same_token_true in Hcomma. eapply wp_bind, wp_advance; [apply Hk3|done|congruence|]. intros Hk4 Hn.
    apply wp_bind, wp_skip_newlines; [apply Hk4|]. intros nl' p5 Hk5 Hnl' Hr5.
    apply IH; [apply Hk5| |].
    { apply reads_length in Hr5, Hr. rewrite Hn in Hr5. rewrite Hx in Hr. simpl in Hr. lia. }
    intros ts more g p' Hk' Hts Hg Hr'. rewrite <- app_assoc.
    eapply (HQ (s :: t :: nl ++ x :: nl' ++ ts)); [eauto 10 using keeps_after|by econstructor|done|].
    replace ((s :: t :: nl ++ x :: nl' ++ ts) ++ [g]) with ((s :: t :: nl) ++ x :: nl' ++ ts ++ [g])
      by (simpl; by rewrite <- !app_assoc; simpl; rewrite <- !app_assoc).
    eapply reads_app; [done|]. rewrite Hx. apply reads_tok. rewrite <- Hn. by eapply reads_app. }
  destruct (same_token (sp_token x) TGt) eqn:Hgt.
  { apply wp_bind, wp_expect; [apply Hk3|done|]. intros g p4 Hk4 Hg Hr4.
    apply wp_ret; [apply Hk4|]. apply (HQ (s :: t :: nl) _ g); [eauto using keeps_after|by constructor|done|].
    by eapply reads_app. }
  destruct (same_token (sp_token x) TEof); [|apply wp_error_here, Hk3].
  apply wp_bind, wp_peek_span; [apply Hk3|]. intros. apply wp_throw, Hk3.
Qed.

Lemma wp_decl_type_params p (Q : list TypeParam → Parser → Prop) :
  well_ended p →
  (∀ ts params p', keeps p p' → type_params_syntax ts params → reads (remaining p) ts (remaining p') → Q params p') →
  wp parse_decl_type_params p Q.
Proof.
  intros Hw HQ. apply wp_bind, wp_peek; [done|]. intros l r Hl. destruct (same_token _ _) eqn:Hlt.
  2: { apply wp_ret; [done|]. apply (HQ []); [by split|constructor|constructor]. }
  apply same_token_true in Hlt. eapply wp_bind, wp_advance; [done..|congruence|]. intros Hk1 Hn.
  apply wp_bind, wp_skip_newlines; [apply Hk1|]. intros nl p2 Hk2 Hnl Hr2.
  apply wp_bind, wp_gets; [apply Hk2|]. apply wp_type_params_loop; [apply Hk2|unfold rounds; lia|].
  intros ts params g p' Hk' Hts Hg Hr. apply (HQ (l :: nl ++ ts ++ [g])).
  - eauto using keeps_after.
  - by constructor.
  - rewrite Hl. apply reads_tok. rewrite <- Hn. by eapply reads_app.
Qed.

(** ** Constraints *)

Section Constraints.
Variable context : WhereClauseContext.
Variable d : nat.

Lemma wp_constructor_shape k r p Q :
  well_ended p → parse_nesting_depth p = d → remaining p = k :: r → sp_token k = TType →
  (∀ nl l ps slots g p', keeps p p' → newlines nl → sp_token l = TLt →
     list_syntax (general (wcx_self context)) d ps slots → sp_token g = TGt →
     reads (remaining p) (k :: nl ++ l :: ps ++ [g]) (remaining p') →
     Q (RhsTypeConstructor (from_to (sp_span k) (sp_span g)) slots) p') →
  wp (parse_constructor_shape (wcx_self context) (sp_span k)) p Q.
Proof.
  intros Hw Hd Hp Hk HQ. eapply wp_bind, wp_advance; [done..|congruence|]. intros Hk1 Hn.
  apply wp_bind, wp_skip_newlines; [apply Hk1|]. intros nl p2 Hk2 Hnl Hr2.
  apply wp_bind, wp_expect; [apply Hk2|done|]. intros l p3 Hk3 Hl Hr3.
  apply wp_bind, wp_skip_newlines; [apply Hk3|]. intros nl' p4 Hk4 Hnl' Hr4.
  apply wp_bind, wp_peek; [apply Hk4|]. intros x rx Hx.
  destruct (same_token _ _); [apply wp_error_here, Hk4|].
  assert (Hd4 : parse_nesting_depth p4 = d).
  { by rewrite (keeps_depth _ _ Hk4), (keeps_depth _ _ Hk3), (keeps_depth _ _ Hk2), (keeps_depth _ _ Hk1). }
  apply (wp_list (general (wcx_self context)) (parse_type_in_impl_context (wcx_self context)) d).
  { intros q Hq <-. by apply wp_type. }
  { intros q Hq. by apply wp_ret. }
  { apply Hk4. }
  { done. }
  intros ps slots p5 Hk5 Hps Hr5. apply wp_bind, wp_expect_type_gt; [apply Hk5|]. intros g p6 Hk6 Hg Hr6.
  apply wp_ret; [apply Hk6|]. eapply (HQ nl l (nl' ++ ps)); [eauto 10 using keeps_after|done|done| |done|].
  - by apply list_syntax_newlines.
  - rewrite Hp. apply reads_tok. rewrite <- Hn. eapply reads_app; [done|].
    apply (reads_app _ [l] _ _ _ Hr3). rewrite <- app_assoc. do 2 (eapply reads_app; [done|]). done.
Qed.

Lemma wp_rhs subject p :
  well_ended p → parse_nesting_depth p = d →
  wp (parse_where_constraint_rhs (wcx_self context) (permits_type_constructor_shape context subject)
        (permits_trait_slot_mapping context)) p
    (λ rhs p', ∃ ts, rhs_syntax context d subject ts rhs ∧ reads (remaining p) ts (remaining p')).
Proof.
  intros Hw Hd. apply wp_bind, wp_peek_span; [done|]. intros k r Hp.
  apply wp_bind, wp_peek; [done|]. intros k' r' Hp'. rewrite Hp in Hp'. injection Hp' as <- <-.
  destruct (same_token (sp_token k) TType) eqn:Hk.
  { apply same_token_true in Hk. destruct (permits_type_constructor_shape _ _) eqn:Hperm; [|by apply wp_error_here].
    eapply wp_constructor_shape; [done..|]. intros nl l ps slots g p' _ Hnl Hl Hps Hg Hr.
    exists (k :: nl ++ l :: ps ++ [g]). split; [by constructor|done]. }
  apply wp_bind, wp_qualified_ident; [done|lia|]. intros ts name sp p1 Hk1 Hpath Hr1. cbn beta iota.
  destruct (path_syntax_span _ _ _ _ Hpath) as (k' & rest & -> & Hspan & Hstart).
  assert (k' = k) as -> by (rewrite Hp in Hr1; by injection Hr1).
  apply wp_bind, wp_peek; [apply Hk1|]. intros x rx Hx. destruct (same_token (sp_token x) TDot) eqn:Hdot.
  { apply same_token_true in Hdot. destruct (permits_trait_slot_mapping _) eqn:Hperm; [|apply wp_error_here, Hk1].
    eapply wp_bind, wp_advance; [apply Hk1|done|congruence|]. intros Hk2 Hn.
    apply wp_bind, wp_expect; [apply Hk2|done|]. intros s p3 Hk3 Hs Hr3.
    apply wp_bind, wp_expect_ident; [apply Hk3|]. intros t slot p4 Hk4 Ht Hr4.
    apply wp_ret; [apply Hk4|]. exists ((k :: rest) ++ [x; s; t]). split.
    - assert (from_to (sp_span k) (sp_span t) = from_to sp (sp_span t)) as -> by (unfold from_to; by rewrite Hstart).
      by constructor.
    - rewrite Hr1, Hx. eapply reads_app; [apply reads_exact|]. apply reads_tok. rewrite <- Hn.
      apply (reads_app _ [s] _ _ _ Hr3), reads_one. done. }
  destruct (same_token (sp_token x) TLt); [apply wp_error_here, Hk1|].
  apply wp_ret; [apply Hk1|]. exists (k :: rest). split; [|rewrite Hr1; apply reads_exact].
  rewrite Hspan. by constructor.
Qed.

Lemma wp_bounds_loop subject p0 fuel us bounds p (Q : list WhereConstraintRhs → Parser → Prop) :
  well_ended p → parse_nesting_depth p = d → length (remaining p) < fuel →
  bounds_syntax context d subject us bounds → reads p0 us (remaining p) →
  (∀ us' bounds' p', keeps p p' → bounds_syntax context d subject us' bounds' → reads p0 us' (remaining p') →
     Q bounds' p') →
  wp (bounds_loop fuel (parse_where_constraint_rhs (wcx_self context) (permits_type_constructor_shape context subject)
        (permits_trait_slot_mapping context)) bounds) p Q.
Proof.
  revert us bounds p. induction fuel as [|fuel IH]; intros us bounds p Hw Hd Hf Hb Hr HQ; [lia|]. cbn [bounds_loop].
  apply wp_bind, wp_peek; [done|]. intros t r Ht. destruct (same_token _ _) eqn:Hplus.
  2: { apply wp_ret; [done|]. eapply HQ; [by split|done..]. }
  apply same_token_true in Hplus. eapply wp_bind, wp_advance; [done..|congruence|]. intros Hk1 Hn.
  apply wp_bind, wp_skip_newlines; [apply Hk1|]. intros nl p2 Hk2 Hnl Hr2.
  pose proof (keeps_depth _ _ Hk1). pose proof (keeps_depth _ _ Hk2).
  apply wp_bind. eapply wp_mono; [apply (wp_rhs subject); [apply Hk2|congruence]|].
  intros rhs p3 Hk3 (ts & Hts & Hr3). pose proof (keeps_depth _ _ Hk3).
  eapply (IH (us ++ t :: nl ++ ts)); [apply Hk3|congruence| | | |].
  - apply reads_length in Hr2, Hr3. rewrite Hn in Hr2. rewrite Ht in Hf. simpl in Hf. lia.
  - by constructor.
  - eapply reads_app; [done|]. rewrite Ht. apply reads_tok. rewrite <- Hn. by eapply reads_app.
  - intros us' bounds' p' Hk'. apply HQ. eauto using keeps_after.
Qed.

Lemma wp_constraint p :
  well_ended p → parse_nesting_depth p = d →
  wp (parse_where_constraint context) p
    (λ c p', length (remaining p') < length (remaining p) ∧
       ∃ ts, constraint_syntax context d ts c ∧ reads (remaining p) ts (remaining p')).
Proof.
  intros Hw Hd. apply wp_bind. eapply wp_mono; [by apply wp_type|]. rewrite Hd.
  intros subject p1 Hk1 (ss & Hss & Hr1).
  apply wp_bind, wp_skip_newlines; [apply Hk1|]. intros nl p2 Hk2 Hnl Hr2.
  apply wp_bind, wp_expect; [apply Hk2|done|]. intros c p3 Hk3 Hc Hr3.
  apply wp_bind, wp_skip_newlines; [apply Hk3|]. intros nl' p4 Hk4 Hnl' Hr4. cbv zeta.
  assert (Hd4 : parse_nesting_depth p4 = d).
  { by rewrite (keeps_depth _ _ Hk4), (keeps_depth _ _ Hk3), (keeps_depth _ _ Hk2), (keeps_depth _ _ Hk1). }
  apply wp_bind. eapply wp_mono; [by apply wp_rhs; [apply Hk4|]|]. intros rhs p5 Hk5 (ts & Hts & Hr5).
  apply wp_bind, wp_gets; [apply Hk5|].
  eapply wp_bind, (wp_bounds_loop subject (remaining p4) _ ts);
    [apply Hk5|by rewrite (keeps_depth _ _ Hk5)|unfold rounds; lia|by constructor|done|].
  intros bs bounds p6 Hk6 Hbs Hr6. apply wp_ret; [apply Hk6|].
  assert (∃ b, last bounds = Some b) as [b Hlast] by (destruct Hbs; [by eexists|rewrite last_snoc; by eexists]).
  split.
  - pose proof (reads_token_length _ _ _ Hr3 ltac:(congruence)) as Hlen.
    apply reads_length in Hr1, Hr2, Hr4, Hr6. lia.
  - exists (ss ++ nl ++ c :: nl' ++ bs). split.
    + rewrite Hlast. by constructor.
    + eapply reads_app; [done|]. eapply reads_app; [done|]. apply (reads_app _ [c] _ _ _ Hr3).
      by eapply reads_app.
Qed.

(** ** The separator *)

(** If skipping newlines moved in the token vector, it ended right after a newline with
    no split token pending. *)
Lemma skip_newlines_position fuel p p' :
  skip_newlines_loop fuel p = (p', Ok tt) →
  tokens p' = tokens p ∧ (synthetic_tokens p = [] → synthetic_tokens p' = []) ∧
  (pos p' = pos p ∨
   synthetic_tokens p' = [] ∧ pos p < pos p' ∧ ∃ n, tokens p !! (pos p' - 1) = Some n ∧ newline n).
Proof.
  revert p. induction fuel as [|fuel IH]; intros p; [done|]. simpl.
  unfold mbind, M_bind, peek, front, advance. destruct (synthetic_tokens p) as [|t l] eqn:Hs.
  - destruct (tokens p !! pos p) as [t|] eqn:Ht; [|done].
    destruct (sp_token t) eqn:Hn; try (intros [= <-]; split_and!; [done|done|by left]).
    rewrite Hs, Ht. intros E%IH. simpl in E. destruct E as (Htk & Hsy & Hor). split_and!; [done|auto|]. right.
    destruct Hor as [-> | (? & ? & n & ? & ?)]; (split_and!; [by auto|lia|]); [|by exists n].
    exists t. rewrite Nat.sub_succ, Nat.sub_0_r. done.
  - destruct (sp_token t) eqn:Hn; try (intros [= <-]; split_and!; [done|congruence|by left]).
    rewrite Hs. intros E%IH. simpl in E. destruct E as (Htk & Hsy & Hor). split_and!; [done|done|]. done.
Qed.

(** Going back over the last newline leaves it, and what follows, to be read. *)
Lemma remaining_back p n :
  synthetic_tokens p = [] → 0 < pos p → tokens p !! (pos p - 1) = Some n →
  remaining (with_cursor p (synthetic_tokens p) (pos p - 1)) = n :: remaining p.
Proof.
  intros Hs Hpos Hn. unfold remaining. simpl. rewrite Hs. simpl. rewrite (drop_S _ _ _ Hn).
  do 2 f_equal. lia.
Qed.

Lemma newlines_back c nl body n r :
  newlines nl → reads c nl r → c = body ++ n :: r → newlines body ∧ reads c body (n :: r).
Proof.
  intros Hnl Hr ->. apply reads_newlines in Hr; [|done]. split; [|apply reads_exact].
  replace (body ++ n :: r) with ((body ++ [n]) ++ r) in Hr by by rewrite <- app_assoc.
  apply app_inv_tail in Hr. subst nl. by apply Forall_app in Hnl as [? _].
Qed.

Lemma remaining_split p p1 n :
  tokens p1 = tokens p → synthetic_tokens p1 = [] → pos p < pos p1 → tokens p1 !! (pos p1 - 1) = Some n →
  ∃ body, remaining p = body ++ n :: remaining p1.
Proof.
  intros Ht Hs Hpos Hn. unfold remaining. rewrite Hs, Ht in *. simpl.
  exists (synthetic_tokens p ++ take (pos p1 - 1 - pos p) (drop (pos p) (tokens p))).
  rewrite <- app_assoc. f_equal. rewrite <- (take_drop (pos p1 - 1 - pos p) (drop (pos p) (tokens p))) at 1.
  f_equal. rewrite drop_drop. replace (pos p + (pos p1 - 1 - pos p)) with (pos p1 - 1) by lia.
  rewrite (drop_S _ _ _ Hn). do 2 f_equal. lia.
Qed.

Lemma wp_separator p t r :
  well_ended p → remaining p = t :: r → newline t →
  wp skip_constraint_separator p
    (λ stop p', ∃ nl, newlines nl ∧ reads (remaining p) nl (remaining p') ∧ (stop = false → nl ≠ [])).
Proof.
  intros Hw Ht Hn. apply wp_bind, wp_gets; [done|]. unfold wp.
  destruct (newlines_split _ Hw) as (nl & rest & Hsplit & Hnl & Hne & Hstart).
  destruct (skip_newlines_runs p nl rest Hsplit Hnl Hne Hstart) as (p1 & E & Hp1 & Hs1).
  rewrite (bind_run _ _ _ _ _ E).
  assert (Hk1 : keeps p p1) by (split; [done|by eapply well_ended_suffix]).
  destruct (well_ended_cons p1) as (x & rx & Hx); [apply Hk1|].
  rewrite (bind_run _ _ _ _ _ (peek_eq _ _ _ Hx)), (bind_run (gets _) _ p1 p1 _ eq_refl).
  assert (Hnl0 : nl ≠ []).
  { intros ->. simpl in Hsplit. rewrite Hsplit in Ht. subst rest. simpl in Hstart. by rewrite Hn in Hstart. }
  assert (Hr1 : reads (remaining p) nl (remaining p1)) by (rewrite Hsplit, Hp1; apply reads_exact).
  destruct (_ && _) eqn:Hb; [|by split; [|exists nl; split_and!]].
  apply andb_true_iff in Hb as [_ Hb%bool_decide_eq_true].
  unfold skip_newlines, mbind, M_bind, gets in E.
  destruct (skip_newlines_position _ _ _ E) as (Htok & _ & [Hpos|(Hsy & _ & n & Hlast & Hnew)]); [lia|].
  rewrite <- Htok in Hlast. pose proof (remaining_back p1 n Hsy ltac:(lia) Hlast) as Hback.
  destruct (remaining_split p p1 n) as [body Hbody]; [done..|].
  destruct (newlines_back _ _ _ _ _ Hnl Hr1 Hbody) as [Hnb Hrb].
  cbn [step_back mbind M_bind mret M_ret]. split; [|exists body; by rewrite Hback].
  destruct Hk1 as [(?&?&?) (b & e & Hb1 & He)]. split; [by split_and!|].
  exists (n :: b), e. by rewrite Hback, Hb1.
Qed.

(** ** Clauses *)

Lemma wp_constraints_loop p0 fuel us nl cs p (Q : list WhereConstraint → Parser → Prop) :
  well_ended p → parse_nesting_depth p = d → length (remaining p) < fuel →
  constraints_syntax context d us cs → newlines nl → (cs ≠ [] → nl ≠ []) → reads p0 (us ++ nl) (remaining p) →
  (∀ us' nl' cs' p', keeps p p' → constraints_syntax context d us' cs' → newlines nl' →
     reads p0 (us' ++ nl') (remaining p') → Q cs' p') →
  wp (constraints_loop fuel context cs) p Q.
Proof.
  revert us nl cs p. induction fuel as [|fuel IH]; intros us nl cs p Hw Hd Hf Hcs Hnl Hsep Hr HQ; [lia|].
  cbn [constraints_loop]. apply wp_bind, wp_peek; [done|]. intros t r Ht.
  destruct (is_where_clause_terminator (sp_token t)) eqn:Hterm.
  { apply wp_ret; [done|]. eapply HQ; [by split|done..]. }
  destruct (same_token (sp_token t) TEof).
  { apply wp_bind, wp_peek_span; [done|]. intros. by apply wp_throw. }
  apply wp_bind. eapply wp_mono; [by apply wp_constraint|]. intros c p1 Hk1 (Hlen & ts & Hts & Hr1). cbv zeta.
  assert (Hcs1 : constraints_syntax context d (us ++ nl ++ ts) (cs ++ [c])) by by constructor.
  assert (Hrd : reads p0 (us ++ nl ++ ts) (remaining p1)) by (rewrite app_assoc; by eapply reads_app).
  apply wp_bind, wp_peek; [apply Hk1|]. intros x rx Hx. destruct (is_where_clause_terminator (sp_token x)).
  { apply wp_ret; [apply Hk1|]. apply (HQ (us ++ nl ++ ts) []); [done|done|constructor|by rewrite app_nil_r]. }
  destruct (same_token (sp_token x) TNewline) eqn:Hn; [|apply wp_error_here, Hk1].
  apply same_token_true in Hn. apply wp_bind. eapply wp_mono; [by eapply wp_separator; [apply Hk1|..]|].
  intros stop p2 Hk2 (nl2 & Hnl2 & Hr2 & Hstop). destruct stop.
  { apply wp_ret; [apply Hk2|]. apply (HQ (us ++ nl ++ ts) nl2); [eauto using keeps_after|done|done|by eapply reads_app]. }
  eapply (IH (us ++ nl ++ ts) nl2); [apply Hk2| | |done|done|by auto|by eapply reads_app|].
  - by rewrite (keeps_depth _ _ Hk2), (keeps_depth _ _ Hk1).
  - apply reads_length in Hr2. lia.
  - intros us' nl' cs' p' Hk'. apply HQ. eauto using keeps_after.
Qed.

(** The lookahead sees the token that is read after the newlines. *)
Lemma where_ahead_newlines p nl rest :
  synthetic_tokens p = [] → remaining p = nl ++ rest → newlines nl → starts_newline rest = false → rest ≠ [] →
  where_ahead p = true → ∃ w r, rest = w :: r ∧ sp_token w = TWhere.
Proof.
  intros Hs Hr Hnl Hst Hne Ha. unfold remaining in Hr. rewrite Hs in Hr. simpl in Hr.
  unfold where_ahead in Ha. rewrite Hr in Ha.
  assert (take_while (λ t, same_token (sp_token t) TNewline) (nl ++ rest) = nl) as Htw.
  { clear Hr Ha. induction Hnl as [|n nl Hn Hnl IH]; simpl.
    - destruct rest as [|x rest]; [done|]. simpl in *. by destruct (sp_token x).
    - by rewrite Hn, IH. }
  rewrite Htw, drop_app_length in Ha. destruct rest as [|w r]; [done|].
  exists w, r. split; [done|]. by apply same_token_true.
Qed.

Lemma wp_where_clause p (Q : option WhereClause → Parser → Prop) :
  well_ended p → parse_nesting_depth p = d → synthetic_tokens p = [] →
  (Q None p) →
  (∀ ts w p', keeps p p' → where_syntax context d ts w → reads (remaining p) ts (remaining p') → Q (Some w) p') →
  wp (parse_optional_where_clause context) p Q.
Proof.
  intros Hw Hd Hs HN HS. apply wp_bind, wp_gets; [done|]. destruct (where_ahead p) eqn:Ha; [|by apply wp_ret].
  destruct (newlines_split _ Hw) as (nl & rest & Hsplit & Hnl & Hne & Hst).
  destruct (where_ahead_newlines p nl rest Hs Hsplit Hnl Hst Hne Ha) as (w & r & -> & Hwtok).
  eapply wp_bind, runs_wp; [by eapply skip_newlines_runs|done..|]. intros p1 Hk1 Hp1.
  eapply wp_bind, wp_advance; [apply Hk1|done|congruence|]. intros Hk2 Hn.
  apply wp_bind, wp_skip_newlines; [apply Hk2|]. intros nl' p3 Hk3 Hnl' Hr3.
  apply wp_bind, wp_gets; [apply Hk3|].
  eapply wp_bind, (wp_constraints_loop (remaining p3) _ [] []);
    [apply Hk3| |unfold rounds; lia|constructor|constructor|done|constructor|].
  { by rewrite (keeps_depth _ _ Hk3), (keeps_depth _ _ Hk2), (keeps_depth _ _ Hk1). }
  intros us nl'' cs p4 Hk4 Hcs Hnl'' Hr4. destruct (last cs) as [c|] eqn:Hlast; [|apply wp_error_here, Hk4].
  apply wp_ret; [apply Hk4|]. apply (HS (nl ++ w :: nl' ++ us ++ nl'')).
  - eauto 10 using keeps_after.
  - by constructor.
  - rewrite Hsplit. eapply reads_app; [apply reads_exact|]. apply reads_tok. rewrite <- Hn. by eapply reads_app.
Qed.

End Constraints.

End Sound.

(** ** Bounds *)

(** The one bare trait a constraint puts on a parameter. *)
Definition bound_of (c : WhereConstraint) : option (str * str) :=
  match wc_subject c, wc_bounds c with
  | Named _ name, [RhsTrait _ bound] => Some (name, bound)
  | _, _ => None
  end.

(** What the constraints ask of a parameter. *)
Definition bound_in (cs : list WhereConstraint) (name : str) : option str :=
  snd <$> find (λ nb, bool_decide (nb.1 = name)) (omap bound_of cs).

Definition with_bound (cs : list WhereConstraint) (param : TypeParam) : TypeParam :=
  mkTypeParam (tp_name param)
    match tp_bound param with Some b => Some b | None => bound_in cs (tp_name param) end (tp_span param).

(** Distinct names: a list such as [<$A, $A>] is accepted here and rejected later. *)
Lemma set_bound_map name bound params :
  NoDup (tp_name <$> params) →
  set_bound name bound params =
    (λ param, if decide (tp_name param = name) then mkTypeParam (tp_name param) (Some bound) (tp_span param)
              else param) <$> params.
Proof.
  unfold set_bound. induction params as [|q params IH]; simpl; [done|]. intros [Hnin Hnd]%NoDup_cons.
  destruct (decide (tp_name q = name)) as [Hq|Hq].
  - rewrite bool_decide_eq_true_2 by done. simpl. f_equal. symmetry. rewrite <- (list_fmap_id params) at 2.
    apply list_fmap_ext. intros i x Hx. rewrite decide_False; [done|]. intros Heq. apply Hnin.
    rewrite Hq, <- Heq. apply list_elem_of_fmap. exists x. split; [done|by eapply list_elem_of_lookup_2].
  - rewrite bool_decide_eq_false_2 by done. specialize (IH Hnd).
    destruct (position _ params) eqn:E; simpl; by f_equal.
Qed.

Lemma find_name name params param :
  find (λ param, bool_decide (tp_name param = name)) params = Some param → param ∈ params ∧ tp_name param = name.
Proof.
  by intros [Hin Hb%bool_decide_eq_true]%find_Some.
Qed.

Lemma apply_constraint_Ok c params params' :
  apply_constraint c params = Ok params' →
  ∃ name bound param, bound_of c = Some (name, bound) ∧ param ∈ params ∧ tp_name param = name ∧
    tp_bound param = None ∧ params' = set_bound name bound params.
Proof.
  unfold apply_constraint, bound_of. cbv zeta.
  destruct (wc_subject c) as [sp name| | | |]; try done.
  destruct (find _ params) as [param|] eqn:Hf; [|done]. apply find_name in Hf as [Hin Hname].
  destruct (tp_bound param) eqn:Hb; [done|].
  destruct (wc_bounds c) as [|[? bound| |] [|]]; try done. intros [= <-]. by exists name, bound, param.
Qed.

Lemma NoDup_names_eq params p q :
  NoDup (tp_name <$> params) → p ∈ params → q ∈ params → tp_name p = tp_name q → p = q.
Proof.
  intros Hnd Hp Hq Heq. apply list_elem_of_lookup in Hp as [i Hi], Hq as [j Hj].
  assert (i = j) as ->; [|congruence].
  eapply (NoDup_lookup (tp_name <$> params)); [done|..]; rewrite list_lookup_fmap; [by rewrite Hi|by rewrite Hj, Heq].
Qed.

(** Applying the constraints of a clause gives every parameter the bound the clause asks
    for it, and nothing else; no parameter gets two. *)
Lemma apply_constraints_Ok cs params params' :
  NoDup (tp_name <$> params) → apply_constraints cs params = Ok params' →
  params' = with_bound cs <$> params ∧ NoDup (omap bound_of cs).*1 ∧ length (omap bound_of cs) = length cs ∧
  (∀ name, name ∈ (omap bound_of cs).*1 → ∃ param, param ∈ params ∧ tp_name param = name ∧ tp_bound param = None).
Proof.
  revert params. induction cs as [|c cs IH]; intros params Hnd; simpl.
  { intros [= <-]. split_and!; [|constructor|done|by intros name Hn%elem_of_nil].
    symmetry. rewrite <- (list_fmap_id params) at 2. apply list_fmap_ext. intros i [n b sp] _.
    unfold with_bound, bound_in. simpl. by destruct b. }
  intros H. apply rbind_Ok in H as (params1 & H1 & H2).
  destruct (apply_constraint_Ok _ _ _ H1) as (name & bound & param & Hb & Hin & Hname & Hnone & ->).
  rewrite Hb. rewrite set_bound_map in H2 by done.
  set (f := λ param, if decide (tp_name param = name) then mkTypeParam (tp_name param) (Some bound) (tp_span param) else param) in *.
  assert (Hf : ∀ q, tp_name (f q) = tp_name q) by (intros q; unfold f; by case_decide).
  assert (Hnames : tp_name <$> (f <$> params) = tp_name <$> params).
  { rewrite <- list_fmap_compose. apply list_fmap_ext. intros. apply Hf. }
  destruct (IH (f <$> params)) as (-> & Hnd' & Hlen & Hfrom); [by rewrite Hnames|done|].
  assert (Hfresh : name ∉ (omap bound_of cs).*1).
  { intros Hn. destruct (Hfrom _ Hn) as (q & Hq & Hqn & Hqb). apply list_elem_of_fmap in Hq as (q0 & -> & Hq0).
    rewrite Hf in Hqn. unfold f in Hqb. rewrite decide_True in Hqb by done. done. }
  split_and!; [|by constructor|simpl; f_equal; exact Hlen|].
  - rewrite <- list_fmap_compose. apply list_fmap_ext. intros i q Hi. simpl.
    assert (Hq : q ∈ params) by by eapply list_elem_of_lookup_2.
    unfold with_bound, bound_in. simpl. rewrite Hb, Hf. simpl. unfold f. destruct (decide (tp_name q = name)) as [Hqn|Hqn]; simpl.
    + assert (q = param) as -> by (eapply NoDup_names_eq; [done..|congruence]).
      by rewrite Hnone, bool_decide_eq_true_2 by done.
    + by rewrite bool_decide_eq_false_2 by done.
  - intros name' [-> | Hn]%elem_of_cons; [by exists param|].
    destruct (Hfrom _ Hn) as (q & Hq & Hqn & Hqb). apply list_elem_of_fmap in Hq as (q0 & -> & Hq0).
    exists q0. rewrite Hf in Hqn. split_and!; [done..|]. unfold f in Hqb. by case_decide.
Qed.

(** ** No split token is left pending *)

(** A function that does not split tokens leaves none behind. *)
Definition quiet {A} (m : M A) : Prop :=
  ∀ p, synthetic_tokens p = [] → synthetic_tokens (m p).1 = [].

Lemma quiet_ret {A} (a : A) : quiet (mret a).
Proof. by intros p. Qed.
Lemma quiet_throw {A} e : quiet (A := A) (throw e).
Proof. by intros p. Qed.
Lemma quiet_gets {A} (f : Parser → A) : quiet (gets f).
Proof. by intros p. Qed.
Lemma quiet_bind {A B} (m : M A) (k : A → M B) : quiet m → (∀ a, quiet (k a)) → quiet (m ≫= k).
Proof.
  intros Hm Hk p Hp. specialize (Hm p Hp). unfold mbind, M_bind.
  destruct (m p) as [p' [a|e]]; [by apply Hk|done].
Qed.
Lemma quiet_peek : quiet peek.
Proof. intros p. unfold peek. by destruct (front p). Qed.
Lemma quiet_peek_span : quiet peek_span.
Proof. intros p. unfold peek_span. by destruct (front p). Qed.
Lemma quiet_advance : quiet advance.
Proof. intros p Hp. unfold advance. rewrite Hp. by destruct (tokens p !! pos p). Qed.
Lemma quiet_if {A} (b : bool) (m m' : M A) : quiet m → quiet m' → quiet (if b then m else m').
Proof. by destruct b. Qed.

Create HintDb quiet.
#[local] Hint Resolve quiet_ret quiet_throw quiet_gets quiet_peek quiet_peek_span quiet_advance quiet_if : quiet.
#[local] Hint Extern 1 (quiet (_ ≫= _)) => apply quiet_bind; [|intros ?] : quiet.

Lemma quiet_skip_newlines : quiet skip_newlines.
Proof.
  apply quiet_bind; [apply quiet_gets|]. intros n.
  induction n as [|n IH]; simpl; [by intros p|]. apply quiet_bind; [apply quiet_peek|]. intros t.
  destruct t; auto with quiet.
Qed.

Section Quiet.
Context `{TokenDebug}.

Lemma quiet_expect t : quiet (expect t).
Proof. unfold expect. auto 10 with quiet. Qed.

Lemma quiet_expect_ident : quiet expect_ident.
Proof.
  apply quiet_bind; [apply quiet_peek_span|]. intros sp. apply quiet_bind; [apply quiet_peek|]. intros t.
  destruct t; auto with quiet.
Qed.

#[local] Hint Resolve quiet_skip_newlines quiet_expect quiet_expect_ident : quiet.

Lemma quiet_type_params : quiet parse_decl_type_params.
Proof.
  apply quiet_bind; [apply quiet_peek|]. intros t. apply quiet_if; [|apply quiet_ret].
  apply quiet_bind; [apply quiet_advance|]. intros _. apply quiet_bind; [apply quiet_skip_newlines|]. intros _.
  apply quiet_bind; [apply quiet_gets|]. intros n. generalize (@nil TypeParam).
  induction n as [|n IH]; intros params; cbn [type_params_loop]; [by intros p|].
  apply quiet_bind; [apply quiet_peek_span|]. intros sp. apply quiet_bind; [apply quiet_peek|]. intros t'.
  destruct (ident_of t'); [apply quiet_throw|].
  apply quiet_bind; [apply quiet_expect|]. intros _. apply quiet_bind; [apply quiet_expect_ident|]. intros [name ?].
  unfold error_here, declaration_error.
  apply quiet_bind; [apply quiet_peek|]. intros u. apply quiet_if.
  - do 2 (apply quiet_bind; [auto with quiet|intros _]). apply quiet_bind; [auto with quiet|]. intros []. apply quiet_throw.
  - auto 15 with quiet.
Qed.
End Quiet.

(** ** The theorems *)

(** Wherever a declaration may have a [where] clause, and no split token is pending,
    parsing it neither panics nor loops, and keeps the depth, the targets and the end of
    the stream.  When it returns no clause, nothing was read; when it returns one, the
    tokens read denote exactly that clause: every constraint has a line of its own,
    [Type<..>] bounds are those of [Self] in a trait definition and slot mappings those
    of a trait implementation. *)
Theorem where_clause_sound `{TokenDebug} context p :
  well_ended p → synthetic_tokens p = [] →
  match parse_optional_where_clause context p with
  | (p', Ok None) => p' = p
  | (p', Ok (Some w)) =>
      keeps p p' ∧
      ∃ ts, where_syntax context (parse_nesting_depth p) ts w ∧ reads (remaining p) ts (remaining p')
  | (p', Err (Failed _)) => keeps p p'
  | (_, Err (Panicked _)) => False
  end.
Proof.
  intros Hw Hs.
  assert (Hwp : wp (parse_optional_where_clause context) p
    (λ o p', match o with
             | None => p' = p
             | Some w => ∃ ts, where_syntax context (parse_nesting_depth p) ts w ∧ reads (remaining p) ts (remaining p')
             end)).
  { eapply wp_where_clause; [done..|]. intros ts w q _ Hts Hr. by exists ts. }
  unfold wp in Hwp. destruct (parse_optional_where_clause context p) as [p' [[w|]|[c|e]]]; [done|apply Hwp|done..].
Qed.


(** ** Samples *)

Definition sample_debug : TokenDebug := {| debug_token _ := [] |}.

(** A parser at the start of a source text. *)
Definition parser_of (source : str) : Parser :=
  mkParser match Lexer.tokenize source with Ok ts => ts | Err _ => [] end [] 0 [] 0.

(** The header of a nominal declaration from its parameters on, on two lines. *)
Definition sample_source : str :=
  lit "<$A, $B>" ++ [10%N] ++ lit "where $A: Eq" ++ [10%N] ++ lit "$B: Core::Ord {".

Lemma sample_ended : well_ended (parser_of sample_source).
Proof. apply well_ended_check. vm_compute. reflexivity. Qed.


Definition sample_clause : str := lit "where Self: Type<$A> + Eq {".

Lemma clause_ended : well_ended (parser_of sample_clause).
Proof. apply well_ended_check. vm_compute. reflexivity. Qed.

Lemma where_clause_sound_witness :
  ∃ p' w, parse_optional_where_clause (H := sample_debug) trait_definition (parser_of sample_clause) = (p', Ok (Some w)) ∧
    length (wh_constraints w) = 1 ∧ keeps (parser_of sample_clause) p' ∧
    ∃ ts, where_syntax trait_definition 0 ts w ∧ reads (remaining (parser_of sample_clause)) ts (remaining p').
Proof.
  pose proof (@where_clause_sound sample_debug trait_definition (parser_of sample_clause) clause_ended eq_refl) as Hs.
  destruct (parse_optional_where_clause _ _) as [p' res] eqn:E. vm_compute in E. injection E as <- <-.
  eexists _, _. split; [reflexivity|]. split; [reflexivity|]. exact Hs.
Defined.

(** A clause that stops right after [where] is reported as a syntax error and not as
    incomplete input: the end of the stream ends the loop before the check for it. *)
Example where_at_end_of_input :
  ∃ p' e, parse_optional_where_clause (H := sample_debug) function (parser_of (lit "where")) = (p', Err (Failed e)) ∧
    ParseError.is_incomplete e = false.
Proof. eexists _, _. split; vm_compute; reflexivity. Qed.

End WhereClauseProps.
