(* ===== verification/Scope.v ===== *)
(** * Lexical scopes ([crates/sigil/src/scope.rs])

    The resolver gives every binding a unique id.  A scope is a table of names over an
    immutable snapshot of its parent; entering a block makes a child, and leaving it
    moves the id counter of the enclosing scope past the ids of the block
    ([with_child_scope] of [resolver/expr.rs]).  The reference is one flat environment
    and one counter. *)

From S2P Require Import Prelude.

Inductive Scope : Type :=
| mkScope (bindings : gmap str N) (parent : option Scope) (next_id : N).

(** [HashMap::iter] visits the bindings of one scope in an order of its own. *)
Class BindingOrder : Type := {
  iter : gmap str N → list (str * N);
  iter_perm : ∀ m, iter m ≡ₚ map_to_list m;
}.

Module Scope.

Definition own_bindings (s : Scope) : gmap str N := let '(mkScope b _ _) := s in b.
Definition parent_of (s : Scope) : option Scope := let '(mkScope _ p _) := s in p.
Definition next_id (s : Scope) : N := let '(mkScope _ _ n) := s in n.

Definition new : Scope := mkScope ∅ None 0.
Definition with_next_id (n : N) : Scope := mkScope ∅ None n.

(** A scope without names of its own is shared with its child. *)
Definition child (s : Scope) : Scope :=
  if decide (own_bindings s = ∅) then s else mkScope ∅ (Some s) (next_id s).

Definition define (name : str) (s : Scope) : N * Scope :=
  let id := next_id s in
  (id, mkScope (<[name := id]> (own_bindings s)) (parent_of s) (u32_succ id)).

Definition reserve_id (s : Scope) : N * Scope :=
  let id := next_id s in (id, mkScope (own_bindings s) (parent_of s) (u32_succ id)).

Definition define_with_id (name : str) (id : N) (s : Scope) : Scope :=
  mkScope (<[name := id]> (own_bindings s)) (parent_of s)
    (if decide (next_id s ≤ id)%N then u32_succ id else next_id s).

Definition advance_next_id_to (n : N) (s : Scope) : Scope :=
  if decide (next_id s < n)%N then mkScope (own_bindings s) (parent_of s) n else s.

Fixpoint lookup (s : Scope) (name : str) : option N :=
  match s with
  | mkScope b p _ =>
      match b !! name with
      | Some id => Some id
      | None => match p with Some s' => lookup s' name | None => None end
      end
  end.

(** The visible bindings: from the innermost scope outwards, skipping the names already
    [seen]. *)
Fixpoint filter_seen (seen : gset str) (l : list (str * N)) : list (str * N) * gset str :=
  match l with
  | [] => ([], seen)
  | (name, id) :: l' =>
      if decide (name ∈ seen) then filter_seen seen l'
      else let '(out, seen') := filter_seen ({[name]} ∪ seen) l' in ((name, id) :: out, seen')
  end.

Fixpoint bindings_from `{BindingOrder} (seen : gset str) (s : Scope) : list (str * N) :=
  match s with
  | mkScope b p _ =>
      let '(out, seen') := filter_seen seen (iter b) in
      out ++ match p with Some s' => bindings_from seen' s' | None => [] end
  end.
Definition bindings `{BindingOrder} (s : Scope) : list (str * N) := bindings_from ∅ s.

(** The scope of a block: the body runs in a child; when it succeeds, the ids it used are
    not used again. *)
Definition with_child_scope {E T} (f : Scope → Result E (T * Scope)) (s : Scope) : Result E (T * Scope) :=
  let? '(out, inner) := f (child s) in
  Ok (out, advance_next_id_to (next_id inner) s).

(** ** What a resolver does with its scope

    A program is the sequence of scope operations of a resolver run, with its blocks. *)

Inductive program : Type :=
| PDone
| PDefine (name : str) (rest : program)
| PReserve (rest : program)
| PBind (name : str) (id : N) (rest : program)
| PBlock (body rest : program).

(** The ids handed out, in order, and the scope at the end. *)
Fixpoint run (prog : program) (s : Scope) : Result Empty_set (list N * Scope) :=
  match prog with
  | PDone => Ok ([], s)
  | PDefine name rest =>
      let '(id, s') := define name s in
      let? '(ids, s'') := run rest s' in Ok (id :: ids, s'')
  | PReserve rest =>
      let '(id, s') := reserve_id s in
      let? '(ids, s'') := run rest s' in Ok (id :: ids, s'')
  | PBind name id rest => run rest (define_with_id name id s)
  | PBlock body rest =>
      let? '(inner, s') := with_child_scope (run body) s in
      let? '(ids, s'') := run rest s' in Ok (inner ++ ids, s'')
  end.

(** ** The reference: one environment, one counter *)

Fixpoint flat_run (prog : program) (env : gmap str N) (n : N) : list N * gmap str N * N :=
  match prog with
  | PDone => ([], env, n)
  | PDefine name rest =>
      let '(ids, env', n') := flat_run rest (<[name := n]> env) (n + 1) in (n :: ids, env', n')
  | PReserve rest => let '(ids, env', n') := flat_run rest env (n + 1) in (n :: ids, env', n')
  | PBind name id rest => flat_run rest (<[name := id]> env) (N.max n (id + 1))
  | PBlock body rest =>
      let '(inner, _, n1) := flat_run body env n in
      let '(ids, env', n') := flat_run rest env n1 in (inner ++ ids, env', n')
  end.

(** The names a scope shows. *)
Fixpoint view (s : Scope) : gmap str N :=
  match s with
  | mkScope b p _ => b ∪ match p with Some s' => view s' | None => ∅ end
  end.

(** ** Lemmas *)

Lemma scope_ind' (P : Scope → Prop) :
  (∀ b n, P (mkScope b None n)) → (∀ b s n, P s → P (mkScope b (Some s) n)) → ∀ s, P s.
Proof. intros H1 H2. fix IH 1. intros [b [s|] n]; [by apply H2|apply H1]. Qed.

Lemma lookup_view s name : lookup s name = view s !! name.
Proof.
  induction s as [b n|b s' n IH] using scope_ind'; simpl.
  - rewrite lookup_union, lookup_empty. by destruct (b !! name).
  - rewrite lookup_union, IH. by destruct (b !! name), (view s' !! name).
Qed.

Lemma view_child s : view (child s) = view s ∧ next_id (child s) = next_id s.
Proof. unfold child. case_decide; [done|]. by rewrite <- (left_id_L ∅ (∪) (view s)). Qed.

Lemma view_insert s name id n :
  view (mkScope (<[name := id]> (own_bindings s)) (parent_of s) n) = <[name := id]> (view s).
Proof. destruct s as [b p m]. simpl. by rewrite insert_union_l. Qed.

Lemma view_counter s n : view (mkScope (own_bindings s) (parent_of s) n) = view s.
Proof. by destruct s. Qed.

Lemma view_advance s n : view (advance_next_id_to n s) = view s ∧ next_id (advance_next_id_to n s) = N.max (next_id s) n.
Proof. unfold advance_next_id_to. case_decide; (split; [by rewrite ?view_counter|simpl; lia]). Qed.

(** The reference hands out ids in increasing order, from the counter on. *)
Lemma flat_run_ids prog env n :
  let '(ids, _, n') := flat_run prog env n in
  (n ≤ n')%N ∧ Forall (λ id, n ≤ id ∧ id < n')%N ids ∧ NoDup ids.
Proof.
  revert env n. induction prog as [|name rest IH|rest IH|name id rest IH|body IHb rest IH]; intros env n; simpl.
  - split_and!; [lia|constructor..].
  - specialize (IH (<[name:=n]> env) (n + 1)%N). destruct (flat_run rest _ _) as [[ids env'] n'].
    destruct IH as (? & Hall & Hnd). rewrite Forall_forall in Hall. split_and!; [lia| |].
    + constructor; [lia|]. apply Forall_forall. intros x Hx. specialize (Hall x Hx). lia.
    + constructor; [|done]. intros Hin. specialize (Hall n Hin). lia.
  - specialize (IH env (n + 1)%N). destruct (flat_run rest _ _) as [[ids env'] n'].
    destruct IH as (? & Hall & Hnd). rewrite Forall_forall in Hall. split_and!; [lia| |].
    + constructor; [lia|]. apply Forall_forall. intros x Hx. specialize (Hall x Hx). lia.
    + constructor; [|done]. intros Hin. specialize (Hall n Hin). lia.
  - specialize (IH (<[name:=id]> env) (N.max n (id + 1))). destruct (flat_run rest _ _) as [[ids env'] n'].
    destruct IH as (? & Hall & Hnd). split_and!; [lia| |done]. eapply Forall_impl; [done|]. simpl. lia.
  - specialize (IHb env n). destruct (flat_run body _ _) as [[inner env1] n1].
    specialize (IH env n1). destruct (flat_run rest _ _) as [[ids env'] n'].
    destruct IHb as (? & Hall1 & Hnd1), IH as (? & Hall2 & Hnd2). rewrite Forall_forall in Hall1, Hall2.
    split_and!; [lia| |].
    + apply Forall_forall. intros x [Hx|Hx]%elem_of_app; [specialize (Hall1 x Hx)|specialize (Hall2 x Hx)]; lia.
    + apply NoDup_app. split_and!; [done| |done]. intros x H1 H2. specialize (Hall1 x H1). specialize (Hall2 x H2). lia.
Qed.

Lemma flat_run_mono prog env n : (n ≤ (flat_run prog env n).2)%N.
Proof. pose proof (flat_run_ids prog env n). destruct (flat_run prog env n) as [[??]?]. naive_solver. Qed.

Lemma run_refines prog s :
  ((flat_run prog (view s) (next_id s)).2 ≤ u32_max)%N →
  ∃ ids s', run prog s = Ok (ids, s') ∧ flat_run prog (view s) (next_id s) = (ids, view s', next_id s').
Proof.
  revert s. induction prog as [|name rest IH|rest IH|name id rest IH|body IHb rest IH]; intros s; simpl.
  - intros _. by exists [], s.
  - set (s1 := mkScope _ _ _).
    destruct (flat_run rest _ _) as [[ids env'] n'] eqn:E. simpl. intros Hn.
    pose proof (flat_run_mono rest (<[name:=next_id s]> (view s)) (next_id s + 1)) as Hm. rewrite E in Hm. simpl in Hm.
    assert (Hn1 : next_id s1 = (next_id s + 1)%N) by (simpl; rewrite u32_succ_small; lia).
    destruct (IH s1) as (ids' & s' & Hr & Hf).
    { unfold s1 at 1. rewrite view_insert, Hn1, E. done. }
    unfold s1 at 1 in Hf. rewrite view_insert, Hn1, E in Hf. simplify_eq. rewrite Hr. simpl. eauto.
  - set (s1 := mkScope _ _ _).
    destruct (flat_run rest _ _) as [[ids env'] n'] eqn:E. simpl. intros Hn.
    pose proof (flat_run_mono rest (view s) (next_id s + 1)) as Hm. rewrite E in Hm. simpl in Hm.
    assert (Hn1 : next_id s1 = (next_id s + 1)%N) by (simpl; rewrite u32_succ_small; lia).
    destruct (IH s1) as (ids' & s' & Hr & Hf).
    { unfold s1 at 1. rewrite view_counter, Hn1, E. done. }
    unfold s1 at 1 in Hf. rewrite view_counter, Hn1, E in Hf. simplify_eq. rewrite Hr. simpl. eauto.
  - intros Hn. pose proof (flat_run_mono rest (<[name:=id]> (view s)) (N.max (next_id s) (id + 1))) as Hm.
    assert (Hn1 : next_id (define_with_id name id s) = N.max (next_id s) (id + 1)).
    { simpl. case_decide; [rewrite u32_succ_small|]; lia. }
    destruct (IH (define_with_id name id s)) as (ids & s' & Hr & Hf).
    { rewrite Hn1. unfold define_with_id at 1. by rewrite view_insert. }
    rewrite Hn1 in Hf. unfold define_with_id in Hf at 1. rewrite view_insert in Hf. eauto.
  - destruct (view_child s) as [Hv Hc]. specialize (IHb (child s)). rewrite Hv, Hc in IHb.
    destruct (flat_run body _ _) as [[inner env1] n1] eqn:E1.
    destruct (flat_run rest (view s) n1) as [[ids env'] n'] eqn:E2. simpl. intros Hn.
    pose proof (flat_run_mono rest (view s) n1) as Hm. rewrite E2 in Hm. simpl in Hm.
    pose proof (flat_run_mono body (view s) (next_id s)) as Hm1. rewrite E1 in Hm1. simpl in Hm1.
    destruct IHb as (inner' & s1 & Hr1 & Hf1); [simpl; lia|]. simplify_eq. unfold with_child_scope. rewrite Hr1. simpl.
    destruct (view_advance s (next_id s1)) as [Hva Hna].
    destruct (IH (advance_next_id_to (next_id s1) s)) as (ids' & s' & Hr & Hf); rewrite Hva, Hna, N.max_r in * by lia.
    { by rewrite E2. }
    rewrite Hf in E2. simplify_eq. rewrite Hr. simpl. eauto.
Qed.

Section Bindings.
Context `{BindingOrder}.

Lemma filter_seen_spec seen l :
  NoDup l.*1 →
  let '(out, seen') := filter_seen seen l in
  seen' = seen ∪ list_to_set l.*1 ∧ NoDup out.*1 ∧
  (∀ name id, (name, id) ∈ out ↔ (name, id) ∈ l ∧ name ∉ seen).
Proof.
  revert seen. induction l as [|[name id] l IH]; intros seen Hnd; simpl.
  { split_and!; [set_solver|constructor|]. intros. rewrite elem_of_nil. naive_solver. }
  apply NoDup_cons in Hnd as [Hnin Hnd]. simpl in Hnin. case_decide as Hs.
  - specialize (IH seen Hnd). destruct (filter_seen seen l) as [out seen']. destruct IH as (-> & Ho & Hiff).
    split_and!; [set_solver|done|]. intros x i. rewrite Hiff, elem_of_cons. naive_solver.
  - specialize (IH ({[name]} ∪ seen) Hnd). destruct (filter_seen _ l) as [out seen']. destruct IH as (-> & Ho & Hiff).
    split_and!; [set_solver| |].
    + simpl. constructor; [|done]. rewrite list_elem_of_fmap. intros ([x i] & -> & Hx). apply Hiff in Hx. set_solver.
    + intros x i. rewrite !elem_of_cons, Hiff. split.
      * intros [[= -> ->]|[? ?]]; [by auto|]. set_solver.
      * intros [[[= -> ->]|Hx] Hns]; [by left|]. right. split; [done|].
        apply not_elem_of_union. split; [|done]. rewrite elem_of_singleton. intros ->. apply Hnin.
        apply list_elem_of_fmap. by exists (name, i).
Qed.

Lemma iter_elem m name id : (name, id) ∈ iter m ↔ m !! name = Some id.
Proof. rewrite iter_perm. apply elem_of_map_to_list. Qed.

Lemma iter_NoDup b : NoDup (iter b).*1.
Proof. rewrite iter_perm. apply NoDup_fst_map_to_list. Qed.

Lemma iter_dom b name : name ∈ (list_to_set (iter b).*1 : gset str) ↔ is_Some (b !! name).
Proof.
  rewrite elem_of_list_to_set, list_elem_of_fmap. split.
  - intros ([x i] & -> & Hx%iter_elem). eauto.
  - intros [i Hi]. exists (name, i). by rewrite iter_elem.
Qed.

Lemma bindings_from_spec seen s :
  NoDup (bindings_from seen s).*1 ∧
  ∀ name id, (name, id) ∈ bindings_from seen s ↔ view s !! name = Some id ∧ name ∉ seen.
Proof.
  revert seen. induction s as [b n|b s' n IH] using scope_ind'; intros seen; simpl;
    pose proof (filter_seen_spec seen (iter b) (iter_NoDup b)) as Hf;
    destruct (filter_seen seen (iter b)) as [out seen']; destruct Hf as (-> & Ho & Hiff).
  { rewrite app_nil_r. split; [done|]. intros name id. by rewrite Hiff, iter_elem, (right_id_L ∅ (∪)). }
  destruct (IH (seen ∪ list_to_set (iter b).*1)) as [Hn' Hiff']. rewrite fmap_app. split.
  - apply NoDup_app. split_and!; [done| |done]. intros x Hx Hx'.
    apply list_elem_of_fmap in Hx as ([x1 i1] & -> & Hx1), Hx' as ([x2 i2] & Heq & Hx2). simpl in Heq. subst x2.
    apply Hiff in Hx1 as [Hx1 _]. apply Hiff' in Hx2 as [_ Hx2]. apply Hx2, elem_of_union_r, iter_dom.
    apply iter_elem in Hx1. eauto.
  - intros name id. rewrite elem_of_app, Hiff, Hiff', iter_elem, lookup_union_Some_raw, not_elem_of_union, iter_dom.
    destruct (b !! name) eqn:Hb; [naive_solver|].
    assert (¬ is_Some (@None N)) by (by intros []). naive_solver.
Qed.

End Bindings.


Definition map_order : BindingOrder := {| iter := map_to_list; iter_perm _ := reflexivity _ |}.

(** [x = ..; { y = ..; x = .. }; z = ..]: the shadowing in the block is local and its ids
    are not reused. *)
Definition sample_program : program :=
  PDefine (lit "x") (PBlock (PDefine (lit "y") (PDefine (lit "x") PDone)) (PDefine (lit "z") PDone)).


End Scope.
