(* ===== verification/TypeEnv.v ===== *)
(** * The type environment of the checker ([crates/scar/src/env.rs], [types.rs])

    The types of variables, kept in one map with an undo journal per open scope, and the
    tables of declared types and enum variants.  An ordinary scope undoes the bindings
    made in it but keeps what inference learns about the variables around it; an
    isolated scope, opened for the body of an error declaration, undoes everything.
    The fields of [TypeEnv] are grouped in two records: the variables with their
    journals, and the tables. *)

From S2P Require Import Prelude Names ParseError.

(** ** Types *)

Inductive FacetKind : Type :=
| InfallibleStructural | FallibleStructural | VariantPath | ReadablePath | WritablePath | PutPath
| PreviewPath | CasePath.

Inductive Ty : Type :=
| TyInt | TyFloat | TyStr | TyBool | TyUnit
| TyList (item : Ty)
| TyTuple (items : list Ty)
| TyFunc (params : list Ty) (ret : Ty)
| TyLazy (inner : Ty)
| TyFacet (kind : FacetKind) (s a t b : Ty)
| TyPid (marker : Ty)
| TyProcessMarker (name : str)
| TyHole
| TyBuiltinFunc (name : str) (params : list Ty) (ret : Ty)
| TyUserFunc (fun_idx : N) (type_params : list N) (call_substitution : list (N * Ty)) (params : list Ty) (ret : Ty)
| TyVar (id : N)
| TySelfApp (args : list Ty)
| TyStruct (name : str) (arguments : list Ty)
| TyRecord (name : str) (arguments : list Ty)
| TyEnum (name : str) (arguments : list Ty)
| TyMatchResult (inner : Ty)
| TyExtractorClosure (inner : Ty)
| TyResult (ok err : Ty)
| TyError.

(** ** Variables and their journals *)

Record VarScopeFrame : Type := mkFrame {
  touched : gset N;
  undo : list (N * option Ty);
  concrete_errors_before : gmap N str;
}.

Record VarScopes : Type := mkVarScopes {
  vars : gmap N Ty;
  concrete_error_bindings : gmap N str;
  var_scope_frames : list VarScopeFrame;
  isolated_var_scopes : list nat;
}.

(** ** Declared types *)

Inductive DeclaredKind : Type := KStruct | KRecord | KConcreteError | KEnum | KEnumError.
Inductive TypeDefState : Type := Declared | SignatureResolved.

Record TypeDefInfo : Type := mkTypeDef {
  td_tag : N;
  td_kind : DeclaredKind;
  td_name : str;
  td_type_params : list str;
  td_type_param_bounds : list (option str);
  td_type_param_vars : list N;
  td_fields : list (str * Ty);
  td_private_fields : gset str;
  td_readonly_fields : gset str;
  td_state : TypeDefState;
}.

Record TypeFieldPolicy : Type := mkPolicy { fp_private : bool; fp_readonly : bool }.

Inductive SpecialVariant : Type := ResultOk | ResultErr | SpecialBoolean (b : bool).

Record EnumVariantInfo : Type := mkVariant {
  ev_enum_error : bool;
  ev_error_identity : option str;
  ev_special_variant : option SpecialVariant;
  ev_constructor_name : str;
  ev_short_name : str;
  ev_enum_name : str;
  ev_enum_ty : Ty;
  ev_tag : N;
  ev_payload : list Ty;
  ev_discriminant : Z;
}.

Record TypeTables : Type := mkTables {
  type_defs : gmap str TypeDefInfo;
  next_tag : N;
  next_tyvar : N;
  error_type_names : gset str;
  error_constructor_ids : gset N;
  enum_constructor_ids : gmap N EnumVariantInfo;
  enum_variant_tags : gmap N EnumVariantInfo;
  enum_variants_by_enum : gmap str (list EnumVariantInfo);
  type_constructor_ids : gset N;
}.

Module TypeEnv.

(** ** Scopes of variables *)

Definition new_scopes : VarScopes := mkVarScopes ∅ ∅ [] [].

Definition with_frames (s : VarScopes) (frames : list VarScopeFrame) : VarScopes :=
  mkVarScopes (vars s) (concrete_error_bindings s) frames (isolated_var_scopes s).
Definition with_vars (s : VarScopes) (vs : gmap N Ty) : VarScopes :=
  mkVarScopes vs (concrete_error_bindings s) (var_scope_frames s) (isolated_var_scopes s).

(** Only the first change of a variable in a frame is recorded. *)
Definition touch (u : N) (old : option Ty) (f : VarScopeFrame) : VarScopeFrame :=
  if decide (u ∈ touched f) then f
  else mkFrame ({[u]} ∪ touched f) (undo f ++ [(u, old)]) (concrete_errors_before f).

Definition record_var_change (idx : nat) (u : N) (s : VarScopes) : Run VarScopes :=
  let? f := index (var_scope_frames s) idx in
  Ok (with_frames s (<[idx := touch u (vars s !! u) f]> (var_scope_frames s))).

Fixpoint record_positions (positions : list nat) (u : N) (s : VarScopes) : Run VarScopes :=
  match positions with
  | [] => Ok s
  | idx :: rest => let? s' := record_var_change idx u s in record_positions rest u s'
  end.
Definition record_isolated_var_change (u : N) (s : VarScopes) : Run VarScopes :=
  record_positions (isolated_var_scopes s) u s.

Definition bind_var (u : N) (ty : Ty) (s : VarScopes) : Run VarScopes :=
  let? s1 := record_isolated_var_change u s in
  let? s2 :=
    match usize_checked_sub (length (var_scope_frames s1)) 1 with
    | Some idx =>
        if decide (last (isolated_var_scopes s1) = Some idx) then Ok s1 else record_var_change idx u s1
    | None => Ok s1
    end in
  Ok (with_vars s2 (<[u := ty]> (vars s2))).

Definition normalize_var (u : N) (ty : Ty) (s : VarScopes) : Run VarScopes :=
  let? s1 := record_isolated_var_change u s in
  Ok (with_vars s1 (<[u := ty]> (vars s1))).

Definition push_var_scope (s : VarScopes) : VarScopes :=
  with_frames s (var_scope_frames s ++ [mkFrame ∅ [] (concrete_error_bindings s)]).

Definition push_isolated_var_scope (s : VarScopes) : VarScopes :=
  let s' := push_var_scope s in
  mkVarScopes (vars s') (concrete_error_bindings s') (var_scope_frames s')
    (isolated_var_scopes s' ++ [length (var_scope_frames s') - 1]).

Definition undo_one (vs : gmap N Ty) (entry : N * option Ty) : gmap N Ty :=
  match entry.2 with
  | Some old => <[entry.1 := old]> vs
  | None => delete entry.1 vs
  end.

(** [Vec::pop] of a vector with its last element. *)
Definition pop_last {A} (l : list A) : list A := take (length l - 1) l.

Definition pop_var_scope (s : VarScopes) : VarScopes :=
  match last (var_scope_frames s) with
  | None => s
  | Some frame =>
      let frames := pop_last (var_scope_frames s) in
      let isolated :=
        if decide (last (isolated_var_scopes s) = Some (length frames)) then pop_last (isolated_var_scopes s)
        else isolated_var_scopes s in
      mkVarScopes (foldl undo_one (vars s) (reverse (undo frame))) (concrete_errors_before frame) frames isolated
  end.

Definition lookup_var (s : VarScopes) (u : N) : option Ty := vars s !! u.

(** ** Tables *)

Definition canonical_type_key (name : str) : str :=
  if str_contains name (lit "::") then name else lit "Global::" ++ name.

Definition type_lookup_candidates (name : str) : list str :=
  match strip_prefix (lit "Global::") name with
  | Some surface => [name; surface]
  | None => [name; lit "Global::" ++ name]
  end.

Definition new_tables : TypeTables := mkTables ∅ 2 0 ∅ ∅ ∅ ∅ ∅ ∅.

Definition with_defs (t : TypeTables) (defs : gmap str TypeDefInfo) (tag : N) : TypeTables :=
  mkTables defs tag (next_tyvar t) (error_type_names t) (error_constructor_ids t) (enum_constructor_ids t)
    (enum_variant_tags t) (enum_variants_by_enum t) (type_constructor_ids t).

(** The debug assertions on a second predeclaration are not part of a release build. *)
Definition predeclare_type_def (name : str) (kind : DeclaredKind) (type_params : list str)
    (bounds : list (option str)) (t : TypeTables) : N * TypeTables :=
  let key := canonical_type_key name in
  match type_defs t !! key with
  | Some existing => (td_tag existing, t)
  | None =>
      let tag := next_tag t in
      (tag, with_defs t (<[key := mkTypeDef tag kind name type_params bounds [] [] ∅ ∅ Declared]> (type_defs t))
              (u32_succ tag))
  end.

Definition resolve_type_def_signature (name : str) (fields : list (str * Ty)) (type_param_vars : list N)
    (private readonly : gset str) (t : TypeTables) : option (N * TypeTables) :=
  let key := canonical_type_key name in
  match type_defs t !! key with
  | None => None
  | Some def =>
      let def' := mkTypeDef (td_tag def) (td_kind def) (td_name def) (td_type_params def) (td_type_param_bounds def)
        type_param_vars fields private readonly SignatureResolved in
      Some (td_tag def, with_defs t (<[key := def']> (type_defs t)) (next_tag t))
  end.

Definition reserve_tag (t : TypeTables) : N * TypeTables :=
  (next_tag t, with_defs t (type_defs t) (u32_succ (next_tag t))).

Definition find_map {A B} (f : A → option B) (l : list A) : option B := head (omap f l).

Definition lookup_type_def (t : TypeTables) (name : str) : option TypeDefInfo :=
  find_map (λ candidate, type_defs t !! candidate) (type_lookup_candidates name).

(** [lookup_type_def_mut]: the entry is found by the same candidates and changed. *)
Definition update_type_def (f : TypeDefInfo → TypeDefInfo) (name : str) (t : TypeTables) : TypeTables :=
  match find (λ candidate, bool_decide (is_Some (type_defs t !! candidate))) (type_lookup_candidates name) with
  | Some key => with_defs t (alter f key (type_defs t)) (next_tag t)
  | None => t
  end.

Definition field_policy (t : TypeTables) (type_name field : str) : option TypeFieldPolicy :=
  (λ def, mkPolicy (bool_decide (field ∈ td_private_fields def)) (bool_decide (field ∈ td_readonly_fields def))) <$>
    lookup_type_def t type_name.
Definition is_private_field (t : TypeTables) (type_name field : str) : bool :=
  match field_policy t type_name field with Some policy => fp_private policy | None => false end.
Definition is_readonly_field (t : TypeTables) (type_name field : str) : bool :=
  match field_policy t type_name field with Some policy => fp_readonly policy | None => false end.

Definition is_type_signature_resolved (t : TypeTables) (name : str) : bool :=
  match lookup_type_def t name with
  | Some def => match td_state def with SignatureResolved => true | Declared => false end
  | None => false
  end.

Definition fresh_tyvar (t : TypeTables) : Ty * TypeTables :=
  (TyVar (next_tyvar t),
   mkTables (type_defs t) (next_tag t) (u32_succ (next_tyvar t)) (error_type_names t) (error_constructor_ids t)
     (enum_constructor_ids t) (enum_variant_tags t) (enum_variants_by_enum t) (type_constructor_ids t)).

Definition declare_error_type_name (name : str) (t : TypeTables) : TypeTables :=
  mkTables (type_defs t) (next_tag t) (next_tyvar t) ({[canonical_type_key name]} ∪ error_type_names t)
    (error_constructor_ids t) (enum_constructor_ids t) (enum_variant_tags t) (enum_variants_by_enum t)
    (type_constructor_ids t).
Definition is_declared_error_type_name (t : TypeTables) (name : str) : bool :=
  existsb (λ candidate, bool_decide (candidate ∈ error_type_names t)) (type_lookup_candidates name).

Inductive VariantError : Type :=
| ConstructorRegistered (id : N)
| TagRegistered (tag : N).

Definition register_enum_variant (constructor_id : N) (v : EnumVariantInfo) (t : TypeTables) :
    Result VariantError TypeTables :=
  if decide (is_Some (enum_constructor_ids t !! constructor_id)) then Err (ConstructorRegistered constructor_id)
  else if decide (is_Some (enum_variant_tags t !! ev_tag v)) then Err (TagRegistered (ev_tag v))
  else
    Ok (mkTables (type_defs t) (next_tag t) (next_tyvar t) (error_type_names t) (error_constructor_ids t)
          (<[constructor_id := v]> (enum_constructor_ids t)) (<[ev_tag v := v]> (enum_variant_tags t))
          (<[ev_enum_name v := default [] (enum_variants_by_enum t !! ev_enum_name v) ++ [v]]>
             (enum_variants_by_enum t))
          (type_constructor_ids t)).

Definition enum_variant_by_constructor_id (t : TypeTables) (id : N) : option EnumVariantInfo :=
  enum_constructor_ids t !! id.
Definition enum_variant_by_tag (t : TypeTables) (tag : N) : option EnumVariantInfo := enum_variant_tags t !! tag.
Definition enum_variants_of (t : TypeTables) (enum_name : str) : option (list EnumVariantInfo) :=
  find_map (λ candidate, enum_variants_by_enum t !! candidate) (type_lookup_candidates enum_name).

End TypeEnv.
