(* ===== verification/TypeEnvProps.v ===== *)
(** * The journaled variables behave as one environment per scope

    The reference keeps a whole environment for every open scope.  A binding changes the
    innermost one; what inference learns about a variable is written to every scope out
    to the one that binds it, or to the nearest isolated scope; leaving a scope drops
    its environment.  The journals of [TypeEnv] implement exactly that. *)

From S2P Require Import Prelude Names ParseError TypeEnv.

Module TypeEnvProps.
Import TypeEnv.

(** ** The reference *)

Abbreviation env := (gmap N Ty).

Record level : Type := mkLevel {
  lv_env : env;
  lv_bound : gset N;
  lv_isolated : bool;
  lv_errors : gmap N str;
}.

(** Open scopes from the inside out, the outermost environment, the current error names. *)
Record reference : Type := mkReference {
  rf_levels : list level;
  rf_base : env;
  rf_errors : gmap N str;
}.

Definition outer_env (ls : list level) (base : env) : env :=
  match ls with l :: _ => lv_env l | [] => base end.
Definition current (r : reference) : env := outer_env (rf_levels r) (rf_base r).

Definition assign (u : N) (ty : Ty) (l : level) : level :=
  mkLevel (<[u := ty]> (lv_env l)) (lv_bound l) (lv_isolated l) (lv_errors l).

Definition ref_bind (u : N) (ty : Ty) (r : reference) : reference :=
  match rf_levels r with
  | [] => mkReference [] (<[u := ty]> (rf_base r)) (rf_errors r)
  | l :: ls =>
      mkReference (mkLevel (<[u := ty]> (lv_env l)) ({[u]} ∪ lv_bound l) (lv_isolated l) (lv_errors l) :: ls)
        (rf_base r) (rf_errors r)
  end.

Fixpoint write_through (u : N) (ty : Ty) (ls : list level) (base : env) : list level * env :=
  match ls with
  | [] => ([], <[u := ty]> base)
  | l :: ls' =>
      if lv_isolated l || bool_decide (u ∈ lv_bound l) then (assign u ty l :: ls', base)
      else let '(ls'', base') := write_through u ty ls' base in (assign u ty l :: ls'', base')
  end.

Definition ref_normalize (u : N) (ty : Ty) (r : reference) : reference :=
  let '(ls, base) := write_through u ty (rf_levels r) (rf_base r) in mkReference ls base (rf_errors r).

Definition ref_push (isolated : bool) (r : reference) : reference :=
  mkReference (mkLevel (current r) ∅ isolated (rf_errors r) :: rf_levels r) (rf_base r) (rf_errors r).

Definition ref_pop (r : reference) : reference :=
  match rf_levels r with
  | [] => r
  | l :: ls => mkReference ls (rf_base r) (lv_errors l)
  end.

(** ** What a checker does with its variables *)

Inductive operation : Type :=
| Bind (u : N) (ty : Ty)
| Normalize (u : N) (ty : Ty)
| NameError (u : N) (kind : str)
| Push
| PushIsolated
| Pop.

(** [env.concrete_error_bindings.insert(..)]. *)
Definition name_error (u : N) (kind : str) (s : VarScopes) : VarScopes :=
  mkVarScopes (vars s) (<[u := kind]> (concrete_error_bindings s)) (var_scope_frames s) (isolated_var_scopes s).

Definition step (o : operation) (s : VarScopes) : Run VarScopes :=
  match o with
  | Bind u ty => bind_var u ty s
  | Normalize u ty => normalize_var u ty s
  | NameError u kind => Ok (name_error u kind s)
  | Push => Ok (push_var_scope s)
  | PushIsolated => Ok (push_isolated_var_scope s)
  | Pop => Ok (pop_var_scope s)
  end.

Fixpoint steps (ops : list operation) (s : VarScopes) : Run VarScopes :=
  match ops with
  | [] => Ok s
  | o :: ops' => let? s' := step o s in steps ops' s'
  end.

Definition ref_step (o : operation) (r : reference) : reference :=
  match o with
  | Bind u ty => ref_bind u ty r
  | Normalize u ty => ref_normalize u ty r
  | NameError u kind => mkReference (rf_levels r) (rf_base r) (<[u := kind]> (rf_errors r))
  | Push => ref_push false r
  | PushIsolated => ref_push true r
  | Pop => ref_pop r
  end.
Definition ref_steps (ops : list operation) (r : reference) : reference := foldl (λ r o, ref_step o r) r ops.

(** ** The simulation relation *)

(** The journal [f] of a level undoes it to the environment around it. *)
Record frame_ok (f : VarScopeFrame) (l : level) (outer : env) : Prop := {
  fo_errors : concrete_errors_before f = lv_errors l;
  fo_nodup : NoDup (undo f).*1;
  fo_touched : ∀ u, u ∈ touched f ↔ u ∈ (undo f).*1;
  fo_recorded : ∀ u old, (u, old) ∈ undo f → outer !! u = old;
  fo_untouched : ∀ u, u ∉ touched f → lv_env l !! u = outer !! u;
  fo_bound : lv_isolated l = false → touched f = lv_bound l;
}.

(** An isolated level has recorded every change made since it was opened, at any depth:
    the environments inside it agree with the one around it on all other variables. *)
Definition isolation_ok (f : VarScopeFrame) (l : level) (inner : list env) (outer : env) : Prop :=
  lv_isolated l = true → ∀ u, u ∉ touched f → Forall (λ e : env, e !! u = outer !! u) (lv_env l :: inner).

Fixpoint linked (inner : list env) (fs : list VarScopeFrame) (ls : list level) (base : env) : Prop :=
  match fs, ls with
  | [], [] => True
  | f :: fs', l :: ls' =>
      frame_ok f l (outer_env ls' base) ∧ isolation_ok f l inner (outer_env ls' base) ∧
      linked (lv_env l :: inner) fs' ls' base
  | _, _ => False
  end.

Fixpoint isolated_positions (ls : list level) : list nat :=
  match ls with
  | [] => []
  | l :: ls' => isolated_positions ls' ++ (if lv_isolated l then [length ls'] else [])
  end.

Definition simulates (s : VarScopes) (r : reference) : Prop :=
  ∃ fs, var_scope_frames s = reverse fs ∧ linked [] fs (rf_levels r) (rf_base r) ∧
    vars s = current r ∧ concrete_error_bindings s = rf_errors r ∧
    isolated_var_scopes s = isolated_positions (rf_levels r).

(** ** Lemmas on journals *)

Lemma touch_touched u v f : touched (touch u v f) = {[u]} ∪ touched f.
Proof. unfold touch. case_decide; simpl; [set_solver|done]. Qed.

Lemma linked_mono inner inner' fs ls base :
  inner' ⊆ inner → linked inner fs ls base → linked inner' fs ls base.
Proof.
  revert inner inner' ls. induction fs as [|f fs IH]; intros inner inner' [|l ls] Hsub; [done..|]. simpl.
  intros (Hf & Hi & Hl). split_and!; [done| |].
  - intros Hiso u Hu. specialize (Hi Hiso u Hu). rewrite Forall_forall in Hi |- *.
    intros e He. apply Hi. set_solver.
  - eapply IH; [|done]. set_solver.
Qed.

(** The frames after a change of [u] from [v] is recorded in every isolated level. *)
Fixpoint touch_isolated (u : N) (v : option Ty) (fs : list VarScopeFrame) (ls : list level) : list VarScopeFrame :=
  match fs, ls with
  | f :: fs', l :: ls' => (if lv_isolated l then touch u v f else f) :: touch_isolated u v fs' ls'
  | _, _ => fs
  end.

Lemma linked_length inner fs ls base : linked inner fs ls base → length fs = length ls.
Proof. revert inner ls. induction fs as [|f fs IH]; intros inner [|l ls]; [done..|]. simpl. intros (_ & _ & H). f_equal. eauto. Qed.

Lemma touch_isolated_length u v fs ls : length (touch_isolated u v fs ls) = length fs.
Proof. revert ls. induction fs as [|f fs IH]; intros [|l ls]; simpl; [done..|]. by rewrite IH. Qed.

(** Recording [u] in a frame that is still consistent with [v]. *)
Lemma frame_ok_touch u v f l outer :
  frame_ok f l outer → (u ∉ touched f → outer !! u = v) →
  ∀ l', lv_errors l' = lv_errors l → lv_isolated l' = lv_isolated l →
    (∀ w, w ≠ u → lv_env l' !! w = lv_env l !! w) → (lv_isolated l = false → lv_bound l' = {[u]} ∪ lv_bound l) →
    frame_ok (touch u v f) l' outer.
Proof.
  intros [He Hn Ht Hr Hu Hb] Hv l' He' Hi' Hoff Hb'.
  pose proof (touch_touched u v f) as Htt.
  split.
  - unfold touch. case_decide; simpl; congruence.
  - unfold touch. case_decide as Hin; [done|]. simpl. rewrite fmap_app. apply NoDup_app. split_and!; [done| |apply NoDup_singleton].
    intros x Hx ->%list_elem_of_singleton. by apply Hin, Ht.
  - intros x. rewrite Htt. unfold touch. case_decide as Hin; simpl.
    + rewrite <- Ht. set_solver.
    + rewrite fmap_app, elem_of_app, <- Ht. simpl. rewrite list_elem_of_singleton. set_solver.
  - intros x old. unfold touch. case_decide as Hin; simpl; [apply Hr|].
    rewrite elem_of_app, list_elem_of_singleton. intros [Hx|[= -> ->]]; [by apply Hr|by apply Hv].
  - intros x. rewrite Htt. intros Hx. rewrite Hoff by set_solver. apply Hu. set_solver.
  - intros Hiso. rewrite Htt, Hb' by congruence. f_equal. apply Hb. congruence.
Qed.

(** Environments that agree on every variable but [u]. *)
Definition agree_off (u : N) (e e' : env) : Prop := ∀ w, w ≠ u → e' !! w = e !! w.

Lemma agree_off_insert u ty e : agree_off u e (<[u := ty]> e).
Proof. intros w Hw. by rewrite lookup_insert_ne. Qed.

(** The isolated levels further out, when the environments inside them change at [u]. *)
Lemma linked_deeper u v inner inner' fs ls base :
  (∃ e : env, e ∈ inner ∧ e !! u = v) → Forall2 (agree_off u) inner inner' →
  linked inner fs ls base → linked inner' (touch_isolated u v fs ls) ls base.
Proof.
  revert inner inner' ls. induction fs as [|f fs IH]; intros inner inner' [|l ls] Hv Hag; [done..|].
  intros (Hf & Hi & Hl). cbn [touch_isolated linked]. destruct (lv_isolated l) eqn:Hiso.
  - split_and!.
    + eapply frame_ok_touch; [done| |done..|by rewrite Hiso]. intros Hu.
      destruct Hv as (e & He & <-). specialize (Hi Hiso u Hu). rewrite Forall_forall in Hi.
      symmetry. apply Hi. set_solver.
    + intros _ w. rewrite touch_touched. intros Hw. assert (w ≠ u ∧ w ∉ touched f) as [Hwu Hwf] by set_solver.
      specialize (Hi Hiso w Hwf). apply Forall_cons in Hi as [Hw1 Hw2]. constructor; [done|].
      clear -Hag Hw2 Hwu. induction Hag as [|e e' inner inner' He _ IH]; [constructor|].
      apply Forall_cons in Hw2 as [??]. constructor; [rewrite He by done; done|by apply IH].
    + eapply IH; [|by constructor|done]. destruct Hv as (e & He & Hev). exists e. set_solver.
  - split_and!; [done|by intros ?; congruence|].
    eapply IH; [|by constructor|done]. destruct Hv as (e & He & Hev). exists e. set_solver.
Qed.

Lemma write_through_env u ty ls base :
  outer_env (write_through u ty ls base).1 (write_through u ty ls base).2 = <[u := ty]> (outer_env ls base).
Proof. destruct ls as [|l ls]; simpl; [done|]. destruct (_ || _); [done|]. by destruct (write_through u ty ls base). Qed.

Lemma linked_normalize u ty v inner inner' fs ls base :
  (∃ e : env, e ∈ inner ∧ e !! u = v) ∨ inner = [] ∧ outer_env ls base !! u = v →
  Forall2 (agree_off u) inner inner' → linked inner fs ls base →
  linked inner' (touch_isolated u v fs ls) (write_through u ty ls base).1 (write_through u ty ls base).2.
Proof.
  revert inner inner' ls. induction fs as [|f fs IH]; intros inner inner' [|l ls] Hv Hag; [done..|].
  intros (Hf & Hi & Hl). cbn [write_through touch_isolated].
  assert (Hv' : ∃ e : env, e ∈ lv_env l :: inner ∧ e !! u = v).
  { destruct Hv as [(e & He & Hev)|[-> Hev]]; [exists e; set_solver|exists (lv_env l); simpl in Hev; set_solver]. }
  assert (Hag' : Forall2 (agree_off u) (lv_env l :: inner) (lv_env (assign u ty l) :: inner')).
  { constructor; [apply agree_off_insert|done]. }
  destruct (lv_isolated l) eqn:Hiso; cbn [orb].
  { cbn [linked fst snd]. split_and!; [| |by eapply linked_deeper].
    - eapply frame_ok_touch; [done| |done|done|apply agree_off_insert|by rewrite Hiso]. intros Hu.
      destruct Hv' as (e & He & <-). specialize (Hi Hiso u Hu). rewrite Forall_forall in Hi. symmetry. by apply Hi.
    - intros _ w. rewrite touch_touched. intros Hw. assert (w ≠ u ∧ w ∉ touched f) as [Hwu Hwf] by set_solver.
      specialize (Hi Hiso w Hwf). clear -Hag' Hi Hwu.
      induction Hag' as [|e e' xs xs' He _ IH]; [constructor|].
      apply Forall_cons in Hi as [??]. constructor; [rewrite He by done; done|by apply IH]. }
  destruct Hf as [He Hn Ht Hr Hu Hb]. case_bool_decide as Hbound.
  { cbn [linked fst snd]. split_and!; [|by intros ?; simpl in *; congruence|by eapply linked_deeper].
    split; [done..| |done]. intros w Hw. simpl. rewrite lookup_insert_ne; [by apply Hu|]. intros <-. by rewrite Hb in Hw. }
  specialize (IH (lv_env l :: inner) (lv_env (assign u ty l) :: inner') ls (or_introl Hv') Hag' Hl).
  pose proof (write_through_env u ty ls base) as Henv.
  destruct (write_through u ty ls base) as [ls' base']. cbn [linked fst snd] in *. rewrite Henv.
  split_and!; [|by intros ?; simpl in *; congruence|done]. rewrite <- Hb in Hbound by done.
  split; [done..| | |done].
  - intros w old Hin. rewrite lookup_insert_ne; [by apply Hr|]. intros <-. apply Hbound, Ht, list_elem_of_fmap.
    by exists (u, old).
  - intros w Hw. simpl. destruct (decide (w = u)) as [-> | Hne]; [by rewrite !lookup_insert_eq|].
    rewrite !lookup_insert_ne by done. by apply Hu.
Qed.

Lemma linked_bind u ty l ls f fs base :
  linked [] (f :: fs) (l :: ls) base →
  linked [] (touch u (lv_env l !! u) f :: touch_isolated u (lv_env l !! u) fs ls)
    (mkLevel (<[u := ty]> (lv_env l)) ({[u]} ∪ lv_bound l) (lv_isolated l) (lv_errors l) :: ls) base.
Proof.
  intros (Hf & Hi & Hl). split_and!.
  - eapply frame_ok_touch; [done| |done|done|apply agree_off_insert|done]. intros Hu. symmetry.
    by apply (fo_untouched _ _ _ Hf).
  - intros Hiso w. rewrite touch_touched. intros Hw. constructor; [|constructor]. simpl.
    rewrite lookup_insert_ne by set_solver. apply (fo_untouched _ _ _ Hf). set_solver.
  - simpl. eapply linked_deeper; [|constructor; [apply agree_off_insert|constructor]|done].
    exists (lv_env l). set_solver.
Qed.

(** Undoing a journal gives back the environment around the scope. *)
Lemma undo_all_lookup (es : list (N * option Ty)) (e : env) u :
  NoDup es.*1 →
  foldl undo_one e es !! u =
    match find (λ x, bool_decide (x.1 = u)) es with Some x => x.2 | None => e !! u end.
Proof.
  revert e. induction es as [|[w old] es IH]; intros e; simpl; [done|]. intros [Hnin Hnd]%NoDup_cons.
  rewrite IH by done. case_bool_decide as Hw; simpl in Hw; [subst w|].
  - assert (find (λ x, bool_decide (x.1 = u)) es = None) as ->.
    { apply find_None, Forall_forall. intros [x o] Hx. apply bool_decide_eq_false_2. simpl. intros ->.
      apply Hnin, list_elem_of_fmap. by exists (u, o). }
    unfold undo_one. simpl. destruct old; by rewrite ?lookup_insert_eq, ?lookup_delete_eq.
  - destruct (find _ es); [done|]. unfold undo_one. simpl.
    destruct old; by rewrite ?lookup_insert_ne, ?lookup_delete_ne.
Qed.

Lemma undo_frame f l outer : frame_ok f l outer → foldl undo_one (lv_env l) (reverse (undo f)) = outer.
Proof.
  intros [He Hn Ht Hr Hu Hb]. apply map_eq. intros u. rewrite undo_all_lookup.
  2: { by rewrite fmap_reverse, reverse_Permutation. }
  destruct (find _ _) as [[w old]|] eqn:E.
  - apply find_Some in E as [Hin Hw%bool_decide_eq_true]. simpl in Hw. subst w.
    rewrite elem_of_reverse in Hin. symmetry. by apply Hr.
  - apply Hu. rewrite Ht, list_elem_of_fmap. intros ([w old] & -> & Hin).
    rewrite find_None, Forall_forall in E. specialize (E (w, old)). rewrite elem_of_reverse in E.
    specialize (E Hin). by apply bool_decide_eq_false in E.
Qed.

(** ** The operations *)

Lemma record_positions_app a b u s :
  record_positions (a ++ b) u s = let? s' := record_positions a u s in record_positions b u s'.
Proof. revert s. induction a as [|i a IH]; intros s; simpl; [done|]. destruct (record_var_change i u s); simpl; auto. Qed.

Lemma record_change_at u s before f after :
  var_scope_frames s = before ++ f :: after →
  record_var_change (length before) u s =
    Ok (with_frames s (before ++ touch u (vars s !! u) f :: after)).
Proof.
  intros Hs. unfold record_var_change, index. rewrite Hs, list_lookup_middle by done. simpl.
  by rewrite insert_app_r_alt, Nat.sub_diag by done.
Qed.

Lemma record_isolated u s fs ls after :
  length fs = length ls → var_scope_frames s = reverse fs ++ after →
  record_positions (isolated_positions ls) u s =
    Ok (with_frames s (reverse (touch_isolated u (vars s !! u) fs ls) ++ after)).
Proof.
  revert ls s after. induction fs as [|f fs IH]; intros [|l ls] s after Hlen Hs; try done.
  { simpl in *. unfold with_frames. rewrite <- Hs. by destruct s. }
  simpl in Hlen. injection Hlen as Hlen. rewrite reverse_cons, <- app_assoc in Hs. simpl in Hs.
  cbn [isolated_positions touch_isolated]. rewrite record_positions_app, (IH ls s (f :: after) Hlen Hs). simpl.
  rewrite reverse_cons, <- app_assoc. simpl. destruct (lv_isolated l); [|done]. simpl.
  rewrite <- Hlen, <- (touch_isolated_length u (vars s !! u) fs ls), <- length_reverse.
  by rewrite (record_change_at _ _ _ f after) by done.
Qed.

Lemma isolated_positions_last ls l :
  last (isolated_positions (l :: ls)) = Some (length ls) ↔ lv_isolated l = true.
Proof.
  assert (Hbound : Forall (λ i, i < length ls) (isolated_positions ls)).
  { clear l. induction ls as [|l ls IH]; simpl; [constructor|]. apply Forall_app. split.
    - eapply Forall_impl; [done|]. simpl. lia.
    - destruct (lv_isolated l); repeat constructor. }
  simpl. destruct (lv_isolated l); [by rewrite last_snoc|]. rewrite app_nil_r. split; [|done].
  intros H. apply last_Some_elem_of in H. rewrite Forall_forall in Hbound. specialize (Hbound _ H). lia.
Qed.

Lemma simulates_bind u ty s r :
  simulates s r → ∃ s', bind_var u ty s = Ok s' ∧ simulates s' (ref_bind u ty r).
Proof.
  intros (fs & Hfs & Hl & Hv & He & Hi). unfold bind_var, record_isolated_var_change.
  pose proof (linked_length _ _ _ _ Hl) as Hlen. rewrite Hi.
  rewrite (record_isolated u s fs (rf_levels r) [] Hlen) by by rewrite app_nil_r. cbn [rbind].
  destruct r as [ls base errs]. unfold current in Hv. simpl in *. destruct fs as [|f fs], ls as [|l ls]; try done.
  - eexists. split; [reflexivity|]. exists []. simpl. split_and!; [done|done|by rewrite Hv|done|done].
  - rewrite app_nil_r, length_reverse. cbn [touch_isolated length].
    replace (usize_checked_sub (S (length (touch_isolated u (vars s !! u) fs ls))) 1)
      with (Some (length ls)).
    2: { unfold usize_checked_sub. rewrite decide_True by lia. rewrite touch_isolated_length. f_equal.
         simpl in Hlen. lia. }
    simpl in Hv. pose proof (linked_bind u ty l ls f fs base Hl) as Hnew. rewrite <- Hv in Hnew.
    case_decide as Hlast.
    + rewrite Hi in Hlast. apply isolated_positions_last in Hlast. rewrite Hlast. cbn [rbind].
      eexists. split; [reflexivity|]. eexists. split; [reflexivity|]. simpl. rewrite Hv in *.
      split; [exact Hnew|]. by split_and!.
    + rewrite Hi in Hlast. assert (lv_isolated l = false) as Hiso.
      { destruct (lv_isolated l) eqn:E; [|done]. exfalso. by apply Hlast, isolated_positions_last. }
      rewrite Hiso, reverse_cons. injection Hlen as Hlen.
      rewrite <- Hlen, <- (touch_isolated_length u (vars s !! u) fs ls), <- length_reverse.
      rewrite (record_change_at _ _ _ f []) by done. cbn [rbind].
      eexists. split; [reflexivity|]. exists (touch u (vars s !! u) f :: touch_isolated u (vars s !! u) fs ls).
      cbn [var_scope_frames with_vars with_frames]. rewrite reverse_cons. split; [done|]. split; [by rewrite Hv in Hnew |- *|].
      simpl. split_and!; [by rewrite Hv|done|]. by rewrite Hi; simpl; rewrite Hiso.
Qed.

Lemma write_through_positions u ty ls base :
  isolated_positions (write_through u ty ls base).1 = isolated_positions ls ∧
  length (write_through u ty ls base).1 = length ls.
Proof.
  induction ls as [|l ls IH]; simpl; [done|]. destruct (_ || _); [done|].
  destruct (write_through u ty ls base) as [ls' base']. simpl in *. destruct IH as [-> ->]. done.
Qed.

Lemma simulates_normalize u ty s r :
  simulates s r → ∃ s', normalize_var u ty s = Ok s' ∧ simulates s' (ref_normalize u ty r).
Proof.
  intros (fs & Hfs & Hl & Hv & He & Hi). unfold normalize_var, record_isolated_var_change.
  pose proof (linked_length _ _ _ _ Hl) as Hlen. rewrite Hi.
  rewrite (record_isolated u s fs (rf_levels r) [] Hlen) by by rewrite app_nil_r. cbn [rbind].
  eexists. split; [reflexivity|]. exists (touch_isolated u (vars s !! u) fs (rf_levels r)).
  unfold ref_normalize, current in *. destruct r as [ls base errs]. simpl in *.
  pose proof (linked_normalize u ty (vars s !! u) [] [] fs ls base) as Hn.
  destruct (write_through_positions u ty ls base) as [Hpos _]. pose proof (write_through_env u ty ls base) as Henv.
  destruct (write_through u ty ls base) as [ls' base']. simpl in *. rewrite app_nil_r.
  split_and!; [done| |by rewrite Henv, Hv|done|by rewrite Hi, Hpos].
  apply Hn; [right; by rewrite Hv|constructor|done].
Qed.

Lemma simulates_push (isolated : bool) s r :
  simulates s r →
  simulates (if isolated then push_isolated_var_scope s else push_var_scope s) (ref_push isolated r).
Proof.
  intros (fs & Hfs & Hl & Hv & He & Hi). pose proof (linked_length _ _ _ _ Hl) as Hlen.
  exists (mkFrame ∅ [] (concrete_error_bindings s) :: fs). rewrite reverse_cons, <- Hfs.
  assert (Hlink : linked [] (mkFrame ∅ [] (concrete_error_bindings s) :: fs)
    (rf_levels (ref_push isolated r)) (rf_base (ref_push isolated r))).
  { simpl. split_and!.
    - split; simpl; [done|constructor|set_solver|by intros ? ? ?%elem_of_nil|done|done].
    - intros _ u _. by constructor.
    - unfold current. destruct (rf_levels r) as [|l ls] eqn:Els; [by destruct fs|].
      destruct fs as [|f fs]; [done|]. destruct Hl as (Hf & Hio & Hd). simpl. split_and!; [done| |].
      + intros Hiso u Hu. specialize (Hio Hiso u Hu). apply Forall_cons in Hio as [? _]. by repeat constructor.
      + eapply linked_mono; [|done]. set_solver. }
  destruct isolated; (split; [done|]; split; [exact Hlink|]; split; [done|]; split; [done|]); simpl.
  - rewrite Hi, Hfs, length_app, length_reverse, Hlen. simpl. do 2 f_equal. lia.
  - by rewrite Hi, app_nil_r.
Qed.

Lemma pop_last_snoc {A} (l : list A) x : pop_last (l ++ [x]) = l.
Proof. unfold pop_last. rewrite length_app. simpl. rewrite Nat.add_sub. apply take_app_length. Qed.

Lemma simulates_pop s r : simulates s r → simulates (pop_var_scope s) (ref_pop r).
Proof.
  intros (fs & Hfs & Hl & Hv & He & Hi). pose proof (linked_length _ _ _ _ Hl) as Hlen.
  unfold pop_var_scope, ref_pop. rewrite Hfs. destruct r as [ls base errs]. simpl in *.
  destruct fs as [|f fs], ls as [|l ls]; try done.
  - simpl. by exists [].
  - rewrite reverse_cons, last_snoc, pop_last_snoc. destruct Hl as (Hf & _ & Hd).
    exists fs. simpl. split_and!; [done| | | |].
    + eapply linked_mono; [|done]. set_solver.
    + unfold current in *. simpl in *. rewrite Hv. by apply undo_frame.
    + apply (fo_errors _ _ _ Hf).
    + injection Hlen as Hlen. rewrite Hi, length_reverse, Hlen. simpl.
      case_decide as Hlast.
      * apply isolated_positions_last in Hlast. by rewrite Hlast, pop_last_snoc.
      * destruct (lv_isolated l) eqn:Hiso; [|by rewrite app_nil_r].
        exfalso. apply Hlast. by rewrite last_snoc.
Qed.

Lemma simulates_step o s r : simulates s r → ∃ s', step o s = Ok s' ∧ simulates s' (ref_step o r).
Proof.
  intros Hs. destruct o as [u ty|u ty|u kind| | |]; simpl.
  - by apply simulates_bind.
  - by apply simulates_normalize.
  - eexists. split; [reflexivity|]. destruct Hs as (fs & ? & ? & ? & He & ?). exists fs.
    split_and!; [done|done|done|simpl; by rewrite He|done].
  - eexists. split; [reflexivity|]. by apply (simulates_push false).
  - eexists. split; [reflexivity|]. by apply (simulates_push true).
  - eexists. split; [reflexivity|]. by apply simulates_pop.
Qed.

Lemma simulates_steps ops s r : simulates s r → ∃ s', steps ops s = Ok s' ∧ simulates s' (ref_steps ops r).
Proof.
  revert s r. induction ops as [|o ops IH]; intros s r Hs; simpl; [by exists s|].
  destruct (simulates_step o s r Hs) as (s' & -> & Hs'). simpl. by apply IH.
Qed.

(** C32: whatever a checker does with its variables, the journals are exact.  From a fresh
    environment, any sequence of bindings, normalizations, error names, scopes and
    isolated scopes runs without a panic, and every variable has the type that the
    reference gives it, which keeps one environment per open scope and drops it when the
    scope is left; the names of concrete errors are those of the scope too. *)
Theorem var_scopes_refine ops :
  ∃ s, steps ops new_scopes = Ok s ∧
    (∀ u, lookup_var s u = current (ref_steps ops (mkReference [] ∅ ∅)) !! u) ∧
    concrete_error_bindings s = rf_errors (ref_steps ops (mkReference [] ∅ ∅)) ∧
    length (var_scope_frames s) = length (rf_levels (ref_steps ops (mkReference [] ∅ ∅))).
Proof.
  destruct (simulates_steps ops new_scopes (mkReference [] ∅ ∅)) as (s & Hs & fs & Hfs & Hl & Hv & He & _).
  { by exists []. }
  exists s. split_and!; [done| |done|].
  - intros u. unfold lookup_var. by rewrite Hv.
  - rewrite Hfs, length_reverse. by eapply linked_length.
Qed.

(** ** Isolated scopes *)

(** The number of scopes open after a sequence that never leaves more than it entered. *)
Fixpoint depth_after (d : nat) (ops : list operation) : option nat :=
  match ops with
  | [] => Some d
  | (Push | PushIsolated) :: ops' => depth_after (S d) ops'
  | Pop :: ops' => match d with 0 => None | S d' => depth_after d' ops' end
  | _ :: ops' => depth_after d ops'
  end.

(** The levels of [r] outside an isolated one that is [d] levels deep, and what it
    restores. *)
Definition sealed (d : nat) (ls : list level) (base : env) (errs : gmap N str) (r : reference) : Prop :=
  ∃ inner l, rf_levels r = inner ++ l :: ls ∧ length inner = d ∧ lv_isolated l = true ∧ lv_errors l = errs ∧
    rf_base r = base.

Lemma write_through_sealed u ty inner l ls base :
  lv_isolated l = true →
  ∃ inner' l', write_through u ty (inner ++ l :: ls) base = (inner' ++ l' :: ls, base) ∧
    length inner' = length inner ∧ lv_isolated l' = true ∧ lv_errors l' = lv_errors l.
Proof.
  intros Hl. induction inner as [|i inner (inner' & l' & IH & Hlen & ? & ?)]; simpl.
  - rewrite Hl. simpl. by exists [], (assign u ty l).
  - destruct (_ || _); [by exists (assign u ty i :: inner), l|]. rewrite IH.
    exists (assign u ty i :: inner'), l'. simpl. by rewrite Hlen.
Qed.

Lemma sealed_steps ops d d' ls base errs r :
  depth_after d ops = Some d' → sealed d ls base errs r → sealed d' ls base errs (ref_steps ops r).
Proof.
  revert d r. induction ops as [|o ops IH]; intros d r; simpl; [by intros [= ->]|].
  intros Hd (inner & l & Hr & Hlen & Hiso & Herr & Hbase). destruct r as [rls rbase rerrs]. simpl in Hr, Hbase. subst rls rbase.
  destruct o as [u ty|u ty|u kind| | |]; simpl.
  - eapply IH; [done|]. unfold ref_bind. simpl. destruct inner as [|i inner]; simpl in *.
    + by eexists [], _.
    + by eexists (_ :: inner), l.
  - eapply IH; [done|]. unfold ref_normalize. simpl.
    destruct (write_through_sealed u ty inner l ls base Hiso) as (inner' & l' & -> & ? & ? & ?).
    exists inner', l'. simpl. split_and!; congruence.
  - eapply IH; [done|]. by exists inner, l.
  - eapply IH; [done|]. eexists (_ :: inner), l. simpl. by rewrite Hlen.
  - eapply IH; [done|]. eexists (_ :: inner), l. simpl. by rewrite Hlen.
  - destruct d as [|d]; [done|]. eapply IH; [done|]. destruct inner as [|i inner]; [done|]. simpl in *.
    exists inner, l. split_and!; [done|lia|done..].
Qed.

(** What happens in an isolated scope stays in it.  From any reachable environment,
    whatever is bound or learned in an isolated scope, also in scopes and isolated
    scopes inside it, leaving it restores the type of every variable and the names of
    concrete errors exactly. *)
Theorem isolated_scope_restores before body s :
  steps before new_scopes = Ok s → depth_after 0 body = Some 0 →
  ∃ s', steps (PushIsolated :: body ++ [Pop]) s = Ok s' ∧ vars s' = vars s ∧
    concrete_error_bindings s' = concrete_error_bindings s.
Proof.
  intros Hs Hbody.
  destruct (simulates_steps before new_scopes (mkReference [] ∅ ∅)) as (s0 & Hs0 & Hsim); [by exists []|].
  rewrite Hs in Hs0. injection Hs0 as <-. set (r := ref_steps before _) in *.
  destruct (simulates_steps (PushIsolated :: body ++ [Pop]) s r Hsim) as (s' & Hs' & Hsim').
  exists s'. split; [done|].
  assert (Hsealed : sealed 0 (rf_levels r) (rf_base r) (rf_errors r) (ref_steps body (ref_push true r))).
  { eapply sealed_steps; [done|]. by eexists [], _. }
  destruct Hsealed as (inner & l & Hls & Hlen & _ & Herr & Hbase). destruct inner; [|done]. simpl in Hls.
  destruct Hsim as (fs & _ & _ & Hv & He & _), Hsim' as (fs' & _ & _ & Hv' & He' & _).
  assert (Hend : ref_steps (PushIsolated :: body ++ [Pop]) r = mkReference (rf_levels r) (rf_base r) (rf_errors r)).
  { unfold ref_steps. simpl. rewrite foldl_app. simpl. fold (ref_steps body (ref_push true r)).
    unfold ref_pop. by rewrite Hls, Hbase, Herr. }
  rewrite Hend in Hv', He'. split; [by rewrite Hv', Hv|by rewrite He', He].
Qed.

(** A binding, a scope in which the variable is bound again and learned about, and a
    binding of a variable that did not exist. *)
Definition sample_before : list operation := [Bind 1 (TyVar 10); Push; Normalize 1 TyInt].
Definition sample_body : list operation :=
  [Normalize 1 TyBool; Push; Bind 1 TyStr; Normalize 1 TyUnit; Bind 2 TyInt; NameError 2 (lit "E"); Pop; Bind 1 TyFloat].

Lemma isolated_scope_restores_witness :
  ∃ s s', steps sample_before new_scopes = Ok s ∧ steps (PushIsolated :: sample_body ++ [Pop]) s = Ok s' ∧
    lookup_var s' 1 = Some TyInt ∧ lookup_var s' 2 = None ∧ vars s' = vars s.
Proof.
  assert (Hb : ∃ s, steps sample_before new_scopes = Ok s) by (eexists; reflexivity). destruct Hb as [s Hs].
  destruct (isolated_scope_restores sample_before sample_body s Hs eq_refl) as (s' & Hs' & Hv & _).
  exists s, s'. split; [exact Hs|]. split; [exact Hs'|]. unfold lookup_var. rewrite Hv.
  vm_compute in Hs. injection Hs as <-. split; [reflexivity|]. split; [reflexivity|]. reflexivity.
Defined.

End TypeEnvProps.
