(* ===== verification/DeclaredTypes.v ===== *)
(** * The tables of declared types and variants

    The invariant of the tables of [TypeEnv]: every declaration sits under its canonical
    key with a tag of its own, and the three indexes of the enum variants agree. *)

From S2P Require Import Prelude Names ParseError TypeEnv.

Module DeclaredTypes.
Import TypeEnv.

Record tables_wf (t : TypeTables) : Prop := {
  tw_key : ∀ k d, type_defs t !! k = Some d → k = canonical_type_key (td_name d);
  tw_tag : ∀ k d, type_defs t !! k = Some d → (2 ≤ td_tag d ∧ td_tag d < next_tag t)%N;
  tw_tag_inj : ∀ k1 k2 d1 d2, type_defs t !! k1 = Some d1 → type_defs t !! k2 = Some d2 →
    td_tag d1 = td_tag d2 → k1 = k2;
  tw_by_tag : ∀ tag v, enum_variant_tags t !! tag = Some v →
    ev_tag v = tag ∧ ∃ vs, enum_variants_by_enum t !! ev_enum_name v = Some vs ∧ v ∈ vs;
  tw_by_enum : ∀ e vs v, enum_variants_by_enum t !! e = Some vs → v ∈ vs →
    ev_enum_name v = e ∧ enum_variant_tags t !! ev_tag v = Some v;
  tw_nodup : ∀ e vs, enum_variants_by_enum t !! e = Some vs → NoDup (ev_tag <$> vs);
  tw_constructor : ∀ id v, enum_constructor_ids t !! id = Some v → enum_variant_tags t !! ev_tag v = Some v;
  tw_constructor_inj : ∀ id1 id2 v1 v2, enum_constructor_ids t !! id1 = Some v1 →
    enum_constructor_ids t !! id2 = Some v2 → ev_tag v1 = ev_tag v2 → id1 = id2;
}.

(** ** What a checker does with the tables *)

Inductive declaration : Type :=
| Predeclare (name : str) (kind : DeclaredKind) (params : list str) (bounds : list (option str))
| Resolve (name : str) (fields : list (str * Ty)) (param_vars : list N) (private readonly : gset str)
| ReserveTag
| FreshTyvar
| DeclareErrorName (name : str)
| RegisterVariant (constructor_id : N) (v : EnumVariantInfo).

Definition declare (o : declaration) (t : TypeTables) : TypeTables :=
  match o with
  | Predeclare name kind params bounds => (predeclare_type_def name kind params bounds t).2
  | Resolve name fields param_vars private readonly =>
      match resolve_type_def_signature name fields param_vars private readonly t with Some (_, t') => t' | None => t end
  | ReserveTag => (reserve_tag t).2
  | FreshTyvar => (fresh_tyvar t).2
  | DeclareErrorName name => declare_error_type_name name t
  | RegisterVariant id v => match register_enum_variant id v t with Ok t' => t' | Err _ => t end
  end.
Definition declare_all (os : list declaration) (t : TypeTables) : TypeTables := foldl (λ t o, declare o t) t os.

(** ** Lemmas *)

Lemma wf_predeclare name kind params bounds t :
  (next_tag t + 1 ≤ u32_max)%N → (2 ≤ next_tag t)%N → tables_wf t →
  tables_wf (predeclare_type_def name kind params bounds t).2.
Proof.
  intros Hn H2 Hw. unfold predeclare_type_def. destruct (type_defs t !! _) as [d|] eqn:E; [done|].
  destruct Hw as [Hk Ht Hi]. split; simpl; try done.
  - intros k d. rewrite lookup_insert_Some. intros [[<- <-]|[_ Hd]]; [done|by apply Hk].
  - intros k d. rewrite u32_succ_small by done. rewrite lookup_insert_Some. intros [[<- <-]|[_ Hd]]; simpl; [lia|].
    specialize (Ht k d Hd). lia.
  - intros k1 k2 d1 d2. rewrite !lookup_insert_Some.
    intros [[<- <-]|[? H1]] [[<- <-]|[? H2']] Heq; simpl in *; [done| | |by eapply Hi].
    + specialize (Ht _ _ H2'). lia.
    + specialize (Ht _ _ H1). lia.
Qed.

Lemma tables_resolve name fields param_vars private readonly t tag t' :
  resolve_type_def_signature name fields param_vars private readonly t = Some (tag, t') → tables_wf t → tables_wf t'.
Proof.
  unfold resolve_type_def_signature. destruct (type_defs t !! _) as [d|] eqn:E; [|done]. intros [= <- <-] Hw.
  destruct Hw as [Hk Ht Hi]. split; simpl; try done.
  - intros k d'. rewrite lookup_insert_Some. intros [[<- <-]|[_ Hd]]; [by apply (Hk _ _ E)|by apply Hk].
  - intros k d'. rewrite lookup_insert_Some. intros [[<- <-]|[_ Hd]]; [by apply (Ht _ _ E)|by apply (Ht k)].
  - intros k1 k2 d1 d2. rewrite !lookup_insert_Some.
    intros [[<- <-]|[? H1]] [[<- <-]|[? H2]] Heq; simpl in *; [done|by eapply Hi..].
Qed.

Lemma wf_reserve t :
  (next_tag t + 1 ≤ u32_max)%N → tables_wf t → tables_wf (reserve_tag t).2.
Proof.
  intros Hn [Hk Ht Hi]. split; simpl; try done.
  intros k d Hd. rewrite u32_succ_small by done. specialize (Ht k d Hd). lia.
Qed.

Lemma tables_register id v t t' : register_enum_variant id v t = Ok t' → tables_wf t → tables_wf t'.
Proof.
  unfold register_enum_variant. case_decide as Hid; [done|]. case_decide as Htag; [done|].
  apply eq_None_not_Some in Hid, Htag. intros [= <-] [Hk Ht Hi Hbt Hbe Hnd Hc Hci]. split; simpl; try done.
  - intros tag w. rewrite lookup_insert_Some. intros [[<- <-]|[Hne Hw]].
    + split; [done|]. eexists. rewrite lookup_insert_eq. split; [done|]. set_solver.
    + destruct (Hbt _ _ Hw) as (Hwt & vs & Hvs & Hin). split; [done|].
      destruct (decide (ev_enum_name w = ev_enum_name v)) as [Heq|Hne'].
      * rewrite Heq in *. rewrite lookup_insert_eq, Hvs. eexists. split; [done|]. set_solver.
      * rewrite lookup_insert_ne by done. by exists vs.
  - intros e vs w. rewrite lookup_insert_Some. intros [[<- <-]|[Hne Hvs]] Hin.
    + apply elem_of_app in Hin as [Hin|Hin%list_elem_of_singleton].
      * destruct (enum_variants_by_enum t !! ev_enum_name v) as [ws|] eqn:E; [|by apply elem_of_nil in Hin].
        destruct (Hbe _ _ _ E Hin) as [? Hw]. split; [done|]. rewrite lookup_insert_ne; [done|]. congruence.
      * subst w. by rewrite lookup_insert_eq.
    + destruct (Hbe _ _ _ Hvs Hin) as [? Hw]. split; [done|]. rewrite lookup_insert_ne; [done|]. congruence.
  - intros e vs. rewrite lookup_insert_Some. intros [[<- <-]|[_ Hvs]]; [|by eapply Hnd].
    rewrite fmap_app. apply NoDup_app. split_and!; [|simpl|apply NoDup_singleton].
    + destruct (enum_variants_by_enum t !! ev_enum_name v) eqn:E; [by eapply Hnd|constructor].
    + intros x Hx ->%list_elem_of_singleton. apply list_elem_of_fmap in Hx as (w & Hw & Hin).
      destruct (enum_variants_by_enum t !! ev_enum_name v) as [ws|] eqn:E; [|by apply elem_of_nil in Hin].
      destruct (Hbe _ _ _ E Hin) as [_ Hlk]. congruence.
  - intros i w. rewrite lookup_insert_Some. intros [[<- <-]|[_ Hw]]; [by rewrite lookup_insert_eq|].
    specialize (Hc _ _ Hw). rewrite lookup_insert_ne; [done|]. congruence.
  - intros i1 i2 v1 v2. rewrite !lookup_insert_Some.
    intros [[<- <-]|[? H1]] [[<- <-]|[? H2]] Heq; [done| | |by eapply Hci].
    + specialize (Hc _ _ H2). congruence.
    + specialize (Hc _ _ H1). congruence.
Qed.

Lemma wf_new : tables_wf new_tables.
Proof. split; simpl; intros *; by rewrite ?lookup_empty. Qed.

(** Declarations use at most one tag each. *)
Lemma declare_tag o t :
  (next_tag t + 1 ≤ u32_max)%N →
  (next_tag t ≤ next_tag (declare o t) ∧ next_tag (declare o t) ≤ next_tag t + 1)%N.
Proof.
  intros Hn. destruct o; simpl; try lia.
  - unfold predeclare_type_def. destruct (type_defs t !! _); simpl; rewrite ?u32_succ_small; lia.
  - unfold resolve_type_def_signature. destruct (type_defs t !! _); simpl; lia.
  - rewrite u32_succ_small; lia.
  - unfold register_enum_variant. do 2 (case_decide; [simpl; lia|]). simpl. lia.
Qed.

Lemma wf_declare o t :
  (next_tag t + 1 ≤ u32_max)%N → (2 ≤ next_tag t)%N → tables_wf t → tables_wf (declare o t).
Proof.
  intros Hn H2 Hw. destruct o; simpl.
  - by apply wf_predeclare.
  - destruct (resolve_type_def_signature _ _ _ _ _ _) as [[tag t']|] eqn:E; [by eapply tables_resolve|done].
  - by apply wf_reserve.
  - by destruct Hw.
  - by destruct Hw.
  - destruct (register_enum_variant _ _ _) eqn:E; [by eapply tables_register|done].
Qed.

Lemma wf_declare_all os t :
  (next_tag t + N.of_nat (length os) ≤ u32_max)%N → (2 ≤ next_tag t)%N → tables_wf t → tables_wf (declare_all os t).
Proof.
  revert t. induction os as [|o os IH]; intros t Hn H2 Hw; simpl in *; [done|].
  destruct (declare_tag o t) as [? ?]; [lia|]. apply IH; [lia|lia|]. apply wf_declare; [lia|done..].
Qed.

(** ** Looking declarations up *)

Lemma canonical_contains name : str_contains (canonical_type_key name) (lit "::") = true.
Proof.
  unfold canonical_type_key. destruct (str_contains name _) eqn:E; [done|].
  apply str_contains_true. exists (lit "Global"), name. done.
Qed.

Lemma find_map_two {A B} (f : A → option B) a b :
  find_map f [a; b] = match f a with Some x => Some x | None => f b end.
Proof. unfold find_map. simpl. destruct (f a); [done|]. by destruct (f b). Qed.

Lemma lookup_canonical t name d :
  tables_wf t → type_defs t !! canonical_type_key name = Some d → lookup_type_def t name = Some d.
Proof.
  intros Hw Hd. unfold lookup_type_def, type_lookup_candidates.
  destruct (strip_prefix (lit "Global::") name) as [surface|] eqn:E.
  - apply strip_prefix_Some in E. assert (canonical_type_key name = name) as Hc.
    { unfold canonical_type_key. replace (str_contains name (lit "::")) with true; [done|].
      symmetry. apply str_contains_true. exists (lit "Global"), surface. by rewrite E. }
    rewrite Hc in Hd. by rewrite find_map_two, Hd.
  - unfold canonical_type_key in Hd. rewrite find_map_two.
    destruct (str_contains name (lit "::")) eqn:Hc; [by rewrite Hd|].
    destruct (type_defs t !! name) as [d'|] eqn:Hn.
    + pose proof (tw_key _ Hw _ _ Hn) as Hk. pose proof (canonical_contains (td_name d')) as Hcc.
      rewrite <- Hk in Hcc. congruence.
    + done.
Qed.



End DeclaredTypes.
