(* ===== verification/Documents.v ===== *)
(** * Source text and positions ([crates/surtr-analysis/src/document.rs])

    The compiler counts characters, Rust indexes bytes, an editor counts lines and
    UTF-16 units.  [LineIndex] converts between them for the language server;
    [DocumentStore] holds the texts an editor has open. *)

From S2P Require Import Prelude Names ListHandle Value ParseError StringLiteral CodePoints.

(** ** The parts of the Rust library this code uses *)

Module Text.

Definition newline : char := 10%N.

(** [char::len_utf8], [char::len_utf16]. *)
Definition len_utf8 (c : char) : nat :=
  if (c <? 128)%N then 1 else if (c <? 2048)%N then 2 else if (c <? 65536)%N then 3 else 4.
Definition len_utf16 (c : char) : nat := if (c <? 65536)%N then 1 else 2.

(** [str::len], in bytes, and the length in UTF-16 units. *)
Definition byte_len (s : str) : nat := sum_list (len_utf8 <$> s).
Definition unit_len (s : str) : nat := sum_list (len_utf16 <$> s).

(** [str::split_at] at a byte offset, when it is the boundary of a character. *)
Fixpoint split_bytes (s : str) (n : nat) : option (str * str) :=
  match s with
  | [] => if decide (n = 0) then Some ([], []) else None
  | c :: s' =>
      if decide (n = 0) then Some ([], s)
      else if decide (len_utf8 c ≤ n)
      then '(a, b) ← split_bytes s' (n - len_utf8 c); Some (c :: a, b)
      else None
  end.

Definition is_char_boundary (s : str) (n : nat) : bool :=
  match split_bytes s n with Some _ => true | None => false end.

(** [&s[a..b]] panics unless both offsets are boundaries in order. *)
Definition slice_bytes (s : str) (a b : nat) : Run str :=
  match split_bytes s b with
  | Some (pre, _) =>
      match split_bytes pre a with
      | Some (_, mid) => Ok mid
      | None => Err PIndex
      end
  | None => Err PIndex
  end.

(** [str::char_indices]. *)
Fixpoint char_indices_from (offset : nat) (s : str) : list (nat * char) :=
  match s with
  | [] => []
  | c :: s' => (offset, c) :: char_indices_from (offset + len_utf8 c) s'
  end.
Definition char_indices (s : str) : list (nat * char) := char_indices_from 0 s.

(** [slice::binary_search_by], with the loop of the library: [f] compares an element with
    the one that is sought. *)
Fixpoint search_loop {A} (fuel : nat) (f : A → comparison) (l : list A) (base size : nat) : nat :=
  match fuel with
  | 0 => base
  | S fuel' =>
      if decide (1 < size) then
        let half := size / 2 in
        let mid := base + half in
        let base :=
          match f <$> l !! mid with
          | Some Gt => base
          | _ => mid
          end in
        search_loop fuel' f l base (size - half)
      else base
  end.
Definition binary_search_by {A} (f : A → comparison) (l : list A) : Result nat nat :=
  let base := search_loop (length l) f l 0 (length l) in
  match f <$> l !! base with
  | None => Err 0
  | Some Eq => Ok base
  | Some Lt => Err (S base)
  | Some Gt => Err base
  end.

(** [a + b] on [u32] in a release build. *)
Definition u32_add (a : N) (b : nat) : N := ((a + N.of_nat b) `mod` (u32_max + 1))%N.

End Text.

(** ** Positions for the language server *)

Record TextPosition : Type := mkTextPosition { tp_line : N; tp_character : N }.
Record Utf16Position : Type := mkUtf16Position { up_line : N; up_character : N }.

Record LineIndex : Type := mkLineIndex { li_source : str; line_starts : list nat }.

Module LineIndex.
Import Text.

(** The loop of [new] over [char_indices]. *)
Definition starts_of (indices : list (nat * char)) : list nat :=
  omap (λ '(idx, ch), if decide (ch = newline) then Some (idx + len_utf8 ch) else None) indices.
Definition new (source : str) : LineIndex := mkLineIndex source (0 :: starts_of (char_indices source)).

Fixpoint clamp_down (s : str) (n : nat) : nat :=
  if is_char_boundary s n then n
  else match n with 0 => 0 | S n' => clamp_down s n' end.
Definition clamp_to_char_boundary (li : LineIndex) (byte_offset : nat) : nat :=
  clamp_down (li_source li) (byte_offset `min` byte_len (li_source li)).

Definition char_to_byte_offset (li : LineIndex) (char_offset : nat) : nat :=
  if decide (char_offset = 0) then 0
  else match char_indices (li_source li) !! char_offset with
       | Some (idx, _) => idx
       | None => byte_len (li_source li)
       end.

Definition line_index_for_byte (li : LineIndex) (byte_offset : nat) : nat :=
  match binary_search_by (λ start, start ?= byte_offset) (line_starts li) with
  | Ok idx => idx
  | Err idx => idx - 1
  end.

(** The line of an offset and the text between the start of that line and the offset. *)
Definition locate (li : LineIndex) (byte_offset : nat) : Run (nat * str) :=
  let byte_offset := clamp_to_char_boundary li byte_offset in
  let line_idx := line_index_for_byte li byte_offset in
  let? line_start := index (line_starts li) line_idx in
  let? text := slice_bytes (li_source li) line_start byte_offset in
  Ok (line_idx, text).

Definition byte_to_text_position (li : LineIndex) (byte_offset : nat) : Run TextPosition :=
  let? '(line_idx, text) := locate li byte_offset in
  Ok (mkTextPosition (as_u32 line_idx) (as_u32 (length text))).
Definition byte_to_utf16_position (li : LineIndex) (byte_offset : nat) : Run Utf16Position :=
  let? '(line_idx, text) := locate li byte_offset in
  Ok (mkUtf16Position (as_u32 line_idx) (as_u32 (unit_len text))).
Definition char_to_text_position (li : LineIndex) (char_offset : nat) : Run TextPosition :=
  byte_to_text_position li (char_to_byte_offset li char_offset).
Definition char_to_utf16_position (li : LineIndex) (char_offset : nat) : Run Utf16Position :=
  byte_to_utf16_position li (char_to_byte_offset li char_offset).

Fixpoint scan_units (line_start : nat) (target utf16_units : N) (indices : list (nat * char)) : option nat :=
  match indices with
  | [] => None
  | (idx, ch) :: rest =>
      if decide (ch = newline) then None
      else
        let utf16_units := u32_add utf16_units (len_utf16 ch) in
        if decide (utf16_units = target) then Some (line_start + idx + len_utf8 ch)
        else if decide (target < utf16_units)%N then None
        else scan_units line_start target utf16_units rest
  end.

Definition utf16_position_to_byte (li : LineIndex) (position : Utf16Position) : Run (option nat) :=
  let line_idx := N.to_nat (up_line position) in
  match line_starts li !! line_idx with
  | None => Ok None
  | Some line_start =>
      let line_end := default (byte_len (li_source li)) (line_starts li !! (S line_idx)) in
      if decide (up_character position = 0%N) then Ok (Some line_start)
      else
        let? line := slice_bytes (li_source li) line_start line_end in
        Ok (scan_units line_start (up_character position) 0 (char_indices line))
  end.

End LineIndex.

(** ** Open documents *)

Record DocumentSnapshot : Type := mkDocumentSnapshot {
  ds_path : str; ds_version : option Z; ds_text : str; ds_content_hash : str; ds_line_index : LineIndex;
}.

Module DocumentStore.

Definition FNV_OFFSET : N := 14695981039346656037.
Definition FNV_PRIME : N := 1099511628211.
Definition fnv_step (hash byte : N) : N := (N.lxor hash byte * FNV_PRIME) `mod` (u64_max + 1).

(** [{:016x}]. *)
Definition hex_digit (n : N) : char := if (n <? 10)%N then (48 + n)%N else (87 + n)%N.
Definition hex16 (n : N) : str :=
  (λ i, hex_digit (N.shiftr n (4 * N.of_nat i) `mod` 16)) <$> reverse (seq 0 16).
Definition stable_hash_text (text : str) : str := hex16 (foldl fnv_step FNV_OFFSET (CodePoints.as_bytes text)).

(** The store is a [BTreeMap] from paths, here the normalized text of the path. *)
Abbreviation t := (gmap str DocumentSnapshot).

Definition update_document (path : str) (version : option Z) (text : str) (s : t) : t * DocumentSnapshot :=
  let snapshot := mkDocumentSnapshot path version text (stable_hash_text text) (LineIndex.new text) in
  (<[path := snapshot]> s, snapshot).
Definition get (path : str) (s : t) : option DocumentSnapshot := s !! path.
Definition remove (path : str) (s : t) : t * option DocumentSnapshot := (delete path s, s !! path).

End DocumentStore.
