(* ===== verification/Sources.v ===== *)
(** * Sources of the diagnostics and document names ([crates/diagnostics/src/source.rs],
    [crates/surtr-lsp/src/lib.rs])

    [line_column_for_offset] and the line spans are for messages in a terminal.  [SourceRegistry]
    numbers the sources of a compilation, and the language server names documents by
    percent-encoded URIs. *)

From S2P Require Import Prelude Names ListHandle Value ParseError StringLiteral CodePoints Documents.

(** ** Lines and sources of the diagnostics *)

Module Source.
Import Text.

Fixpoint line_column_loop (line column : N) (cs : str) : N * N :=
  match cs with
  | [] => (line, column)
  | ch :: rest =>
      if decide (ch = newline) then line_column_loop (u32_succ line) 1 rest
      else line_column_loop line (u32_succ column) rest
  end.
Definition line_column_for_offset (source : str) (offset : nat) : N * N :=
  line_column_loop 1 1 (take (offset `min` length source) source).

Definition line_index_for_span (lines : list (nat * nat)) (pos : nat) : option nat :=
  position (λ '(start, en), bool_decide (start ≤ pos) && bool_decide (pos ≤ en)) lines.

Fixpoint line_spans_loop (idx start : nat) (cs : str) : list (nat * nat) :=
  match cs with
  | [] => [(start, idx)]
  | ch :: rest =>
      if decide (ch = newline) then (start, idx) :: line_spans_loop (S idx) (S idx) rest
      else line_spans_loop (S idx) start rest
  end.
Definition line_spans (source : str) : list (nat * nat) := line_spans_loop 0 0 source.

Definition slice_chars (source : str) (start en : nat) : str := take (en - start) (drop start source).

Definition line_span_containing (source : str) (pos : nat) : Run (option (nat * nat)) :=
  let lines := line_spans source in
  match line_index_for_span lines pos with
  | None => Ok None
  | Some idx => let? line := index lines idx in Ok (Some line)
  end.

(** [char::is_ascii_whitespace]: space, tab, line feed, form feed, carriage return. *)
Definition is_ascii_whitespace (c : char) : bool := bool_decide (c ∈ [32; 9; 10; 12; 13]%N).

(** [while start < end && chars[start].is_ascii_whitespace()], and from the other end. *)
Definition trimmed_line_span (source : str) (line : nat * nat) : option Span :=
  let chars := slice_chars source line.1 line.2 in
  let start := length (take_while is_ascii_whitespace chars) in
  let en := length chars - length (take_while is_ascii_whitespace (reverse (drop start chars))) in
  if decide (start < en) then Some (mkSpanRange (line.1 + start) (line.1 + en)) else None.

Definition trimmed_line_span_containing (source : str) (pos : nat) : Run (option Span) :=
  let? line := line_span_containing source pos in
  Ok (line ≫= trimmed_line_span source).

Definition normalized_char_span (source : str) (span : Span) : Span :=
  let source_len := length source in
  if decide (source_len = 0) then mkSpanRange 0 0
  else
    let start := span_start span `min` (source_len - 1) in
    let en := span_end span `min` source_len in
    let en := if decide (en ≤ start) then S start `min` source_len else en in
    if decide (en ≤ start) then mkSpanRange 0 (1 `min` source_len) else mkSpanRange start en.

End Source.

Record SourceEntry : Type := mkSourceEntry { se_id : N; se_file_name : str; se_source : str }.
Record SourceRegistry : Type := mkSourceRegistry { sr_entries : list SourceEntry; sr_next_id : N }.

Module SourceRegistry.
Import Text.

Definition new : SourceRegistry := mkSourceRegistry [] 0.

Definition search (id : N) (r : SourceRegistry) : Result nat nat :=
  binary_search_by (λ entry, (se_id entry ?= id)%N) (sr_entries r).

Definition register (file_name source : str) (r : SourceRegistry) : Run (SourceRegistry * N) :=
  let id := sr_next_id r in
  let? next := expect (u32_checked_add id 1) in
  Ok (mkSourceRegistry (sr_entries r ++ [mkSourceEntry id file_name source]) next, id).

Definition get (id : N) (r : SourceRegistry) : Run (option SourceEntry) :=
  match search id r with
  | Ok i => let? entry := index (sr_entries r) i in Ok (Some entry)
  | Err _ => Ok None
  end.

Definition update_source (id : N) (source : str) (r : SourceRegistry) : Run (SourceRegistry * bool) :=
  match search id r with
  | Ok i =>
      let? entry := index (sr_entries r) i in
      Ok (mkSourceRegistry (<[i := mkSourceEntry (se_id entry) (se_file_name entry) source]> (sr_entries r))
            (sr_next_id r), true)
  | Err _ => Ok (r, false)
  end.

Definition reserve_ids_before (next_id : N) (r : SourceRegistry) : SourceRegistry :=
  mkSourceRegistry (sr_entries r) (sr_next_id r `max` next_id).

(** [Vec::insert] panics past the end. *)
Definition vec_insert {A} (l : list A) (i : nat) (x : A) : Run (list A) :=
  if decide (i ≤ length l) then Ok (take i l ++ x :: drop i l) else Err PIndex.

Definition restore (entry : SourceEntry) (r : SourceRegistry) : Run (SourceRegistry * bool) :=
  match u32_checked_add (se_id entry) 1 with
  | None => Ok (r, false)
  | Some next_id =>
      match search (se_id entry) r with
      | Ok i =>
          let? existing := index (sr_entries r) i in
          Ok (r, bool_decide (se_file_name existing = se_file_name entry ∧ se_source existing = se_source entry))
      | Err i =>
          let? entries := vec_insert (sr_entries r) i entry in
          Ok (mkSourceRegistry entries (sr_next_id r `max` next_id), true)
      end
  end.

End SourceRegistry.

(** ** Document names *)

Module Uri.
Import CodePoints.

Definition is_uri_path_byte (b : N) : bool :=
  between 48 57 b || between 65 90 b || between 97 122 b || bool_decide (b ∈ [47; 45; 46; 95; 126]%N).

(** [{byte:02X}]. *)
Definition upper_hex (n : N) : char := if (n <? 10)%N then (48 + n)%N else (55 + n)%N.
Definition encode_byte (b : N) : str :=
  if is_uri_path_byte b then [b] else [37; upper_hex (b / 16); upper_hex (b `mod` 16)]%N.
Definition percent_encode (input : str) : str := concat (encode_byte <$> as_bytes input).

Definition hex_value (b : N) : option N :=
  if between 48 57 b then Some (b - 48)%N
  else if between 97 102 b then Some (b - 97 + 10)%N
  else if between 65 70 b then Some (b - 65 + 10)%N
  else None.

Fixpoint decode_bytes (bytes : list N) : option (list N) :=
  match bytes with
  | [] => Some []
  | b :: rest =>
      if decide (b = 37%N) then
        match rest with
        | h :: l :: rest' =>
            high ← hex_value h;
            low ← hex_value l;
            out ← decode_bytes rest';
            Some (N.lor (N.shiftl high 4) low :: out)
        | _ => None
        end
      else out ← decode_bytes rest; Some (b :: out)
  end.
Definition percent_decode (input : str) : option str :=
  bytes ← decode_bytes (as_bytes input);
  match from_utf8 bytes with Ok s => Some s | Err _ => None end.

Definition path_to_file_uri (path : str) : str := lit "file://" ++ percent_encode path.

(** [rest.find('/')] splits the authority from the path. *)
Definition file_uri_to_path (uri : str) : option str :=
  rest ← strip_prefix (lit "file://") uri;
  path_start ← position (λ c, bool_decide (c = 47%N)) rest;
  let authority := take path_start rest in
  if bool_decide (authority ≠ []) && bool_decide (authority ≠ lit "localhost") then None
  else percent_decode (drop path_start rest).

End Uri.
