(* ===== verification/DocumentsProps.v ===== *)
(** * Theorems about positions, sources and document names

    [positions_reference] gives the position of an offset from the text before it,
    [utf16_positions_inverse] says that the two conversions of the language server are
    inverse to each other, [registry_refines] that the sorted vector of sources is a map
    whose ids are never reused, and [uri_roundtrip] that a path comes back from its URI. *)

From S2P Require Import Prelude Names ListHandle Value ParseError StringLiteral CodePoints Documents Sources.
Import Text LineIndex.

(** ** Byte offsets and the text before them *)

Lemma len_utf8_pos c : 0 < len_utf8 c.
Proof. unfold len_utf8. repeat case_match; lia. Qed.

Lemma len_utf16_bounds c : 0 < len_utf16 c ≤ len_utf8 c.
Proof.
  unfold len_utf16, len_utf8.
  destruct (N.ltb_spec c 128), (N.ltb_spec c 2048), (N.ltb_spec c 65536); lia.
Qed.

Lemma byte_len_app a b : byte_len (a ++ b) = byte_len a + byte_len b.
Proof. unfold byte_len. by rewrite fmap_app, sum_list_with_app. Qed.

Lemma unit_len_le s : length s ≤ unit_len s ≤ byte_len s.
Proof.
  induction s as [|c s IH]; [done|]. change (unit_len (c :: s)) with (len_utf16 c + unit_len s).
  change (byte_len (c :: s)) with (len_utf8 c + byte_len s). pose proof (len_utf16_bounds c). simpl. lia.
Qed.

Lemma split_bytes_Some s n a b : split_bytes s n = Some (a, b) ↔ s = a ++ b ∧ byte_len a = n.
Proof.
  split.
  - revert n a. induction s as [|c s IH]; intros n a; simpl.
    { case_decide; [|done]. by intros [= <- <-]. }
    case_decide; [by intros [= <- <-]|]. case_decide; [|done]. intros Hs.
    apply bind_Some in Hs as ([a' b'] & Hs & [= <- <-]). apply IH in Hs as [-> Hn].
    split; [done|]. change (byte_len (c :: a')) with (len_utf8 c + byte_len a'). lia.
  - intros [-> <-]. induction a as [|c a IH]; simpl.
    { by destruct b. }
    change (byte_len (c :: a)) with (len_utf8 c + byte_len a). pose proof (len_utf8_pos c).
    rewrite decide_False by lia. rewrite decide_True by lia.
    replace (len_utf8 c + byte_len a - len_utf8 c) with (byte_len a) by lia. by rewrite IH.
Qed.

Lemma slice_bytes_app a mid b :
  slice_bytes (a ++ mid ++ b) (byte_len a) (byte_len a + byte_len mid) = Ok mid.
Proof.
  unfold slice_bytes. rewrite (proj2 (split_bytes_Some _ _ (a ++ mid) b)).
  2: { by rewrite byte_len_app, app_assoc. }
  by rewrite (proj2 (split_bytes_Some (a ++ mid) (byte_len a) a mid)).
Qed.

(** The text before an offset: the longest prefix that ends at or before it. *)
Definition text_before (s : str) (offset : nat) (pre post : str) : Prop :=
  s = pre ++ post ∧ byte_len pre ≤ offset ∧ ∀ c rest, post = c :: rest → offset < byte_len pre + len_utf8 c.

Lemma clamp_down_spec s n pre post :
  text_before s n pre post → clamp_down s n = byte_len pre.
Proof.
  intros (-> & Hle & Hnext). induction n as [|n IH] in Hle, Hnext |- *; simpl;
    unfold is_char_boundary; destruct (split_bytes (pre ++ post) _) as [[a b]|] eqn:E.
  - lia.
  - lia.
  - apply split_bytes_Some in E as [Heq Hlen]. destruct (decide (S n = byte_len pre)); [done|].
    exfalso. assert (Hl : length pre < length a).
    { apply (f_equal length) in Heq as Hlen'. rewrite !length_app in Hlen'.
      destruct (decide (length a ≤ length pre)) as [Hp|]; [|lia]. exfalso.
      apply (f_equal (take (length a))) in Heq. rewrite take_app_length, take_app_le in Heq by lia.
      assert (byte_len a ≤ byte_len pre); [|lia].
      rewrite <- Heq. rewrite <- (take_drop (length a) pre) at 2. rewrite byte_len_app. lia. }
    apply (f_equal (drop (length pre))) in Heq as Hd. rewrite drop_app_length, drop_app_le in Hd by lia.
    destruct (drop (length pre) a) as [|c rest] eqn:Hda.
    { apply (f_equal length) in Hda. rewrite length_drop in Hda. simpl in Hda. lia. }
    specialize (Hnext c (rest ++ b) Hd).
    apply (f_equal (take (length pre))) in Heq as Ht. rewrite take_app_length, take_app_le in Ht by lia.
    assert (byte_len pre + len_utf8 c ≤ byte_len a); [|lia].
    rewrite <- (take_drop (length pre) a), Hda, <- Ht, byte_len_app.
    change (byte_len (c :: rest)) with (len_utf8 c + byte_len rest). lia.
  - apply IH.
    + destruct (decide (byte_len pre = S n)) as [H|]; [|lia].
      exfalso. by rewrite (proj2 (split_bytes_Some _ _ pre post)) in E.
    + intros c rest Hc. specialize (Hnext c rest Hc). lia.
Qed.

Lemma text_before_ex s n : ∃ pre post, text_before s n pre post.
Proof.
  revert n. induction s as [|c s IH]; intros n.
  { exists [], []. split_and!; [done|simpl; unfold byte_len; simpl; lia|done]. }
  destruct (decide (len_utf8 c ≤ n)).
  - destruct (IH (n - len_utf8 c)) as (pre & post & -> & Hle & Hn).
    exists (c :: pre), post. unfold text_before. change (byte_len (c :: pre)) with (len_utf8 c + byte_len pre).
    split_and!; [done|lia|]. intros x rest Hx. specialize (Hn x rest Hx). lia.
  - exists [], (c :: s). unfold text_before, byte_len. simpl. split_and!; [done|lia|]. intros x rest [= <- <-]. lia.
Qed.

Lemma clamp_spec s n pre post :
  text_before s n pre post → clamp_to_char_boundary (new s) n = byte_len pre.
Proof.
  intros Ht. apply (clamp_down_spec s _ _ post). destruct Ht as (-> & Hle & Hn). simpl.
  split_and!; [done|rewrite byte_len_app; lia|]. intros c rest Hc. specialize (Hn c rest Hc). lia.
Qed.

(** ** Lines *)

(** The number of line breaks in a text, and what follows the last one. *)
Definition breaks (s : str) : nat := length (filter (λ c, c = newline) s).
Fixpoint last_line (s : str) : str :=
  match s with
  | [] => []
  | c :: s' => if decide (newline ∈ s) then last_line s' else s
  end.

Lemma last_line_spec s :
  ∃ a, s = a ++ last_line s ∧ (newline ∉ last_line s) ∧ (a = [] ∨ (∃ a', a = a' ++ [newline])).
Proof.
  induction s as [|c s (a & Hs & Hn & Ha)]; simpl.
  { exists []. split_and!; [done|by apply not_elem_of_nil|by left]. }
  case_decide as Hin.
  - exists (c :: a). split_and!; [by rewrite Hs at 1|done|]. right.
    destruct Ha as [->|(a' & ->)]; [|by exists (c :: a')]. exists [].
    simpl in Hs. rewrite <- Hs in Hn. by apply elem_of_cons in Hin as [<-|].
  - exists []. split_and!; [done|done|by left].
Qed.

Lemma char_indices_app off a b :
  char_indices_from off (a ++ b) = char_indices_from off a ++ char_indices_from (off + byte_len a) b.
Proof.
  revert off. induction a as [|c a IH]; intros off; simpl; [by rewrite Nat.add_0_r|].
  rewrite IH. change (byte_len (c :: a)) with (len_utf8 c + byte_len a). by rewrite Nat.add_assoc.
Qed.

Lemma line_starts_app off a b :
  starts_of (char_indices_from off (a ++ b)) =
  starts_of (char_indices_from off a) ++ starts_of (char_indices_from (off + byte_len a) b).
Proof. unfold starts_of. by rewrite char_indices_app, omap_app. Qed.

Lemma starts_length off s : length (starts_of (char_indices_from off s)) = breaks s.
Proof.
  revert off. induction s as [|c s IH]; intros off; [done|]. unfold breaks, starts_of in *. simpl.
  rewrite filter_cons. case_decide; simpl; by rewrite IH.
Qed.

Lemma starts_none off s : newline ∉ s → starts_of (char_indices_from off s) = [].
Proof.
  revert off. induction s as [|c s IH]; intros off Hs; [done|]. apply not_elem_of_cons in Hs as [??].
  unfold starts_of in *. simpl. rewrite decide_False by done. by apply IH.
Qed.

Lemma starts_bounds off s x : x ∈ starts_of (char_indices_from off s) → off < x ≤ off + byte_len s.
Proof.
  revert off. induction s as [|c s IH]; intros off; [by intros ?%elem_of_nil|].
  change (byte_len (c :: s)) with (len_utf8 c + byte_len s). pose proof (len_utf8_pos c).
  unfold starts_of in *. simpl. case_decide.
  - rewrite elem_of_cons. intros [->|Hx%IH]; lia.
  - intros Hx%IH. lia.
Qed.

Lemma starts_newline off a : 
  last (starts_of (char_indices_from off (a ++ [newline]))) = Some (off + byte_len (a ++ [newline])).
Proof.
  rewrite line_starts_app, last_app. simpl. rewrite byte_len_app. f_equal.
  change (byte_len [newline]) with 1. change (len_utf8 newline) with 1. lia.
Qed.

(** The start of the line an offset is on, as the index has it. *)
Lemma line_start_of pre post :
  ∃ a, pre = a ++ last_line pre ∧ line_starts (new (pre ++ post)) !! breaks pre = Some (byte_len a).
Proof.
  destruct (last_line_spec pre) as (a & Hpre & Hn & Ha). exists a. split; [done|]. simpl.
  unfold char_indices. rewrite line_starts_app. rewrite Hpre at 2. rewrite line_starts_app, (starts_none _ (last_line pre)), app_nil_r by done.
  assert (Hb : breaks pre = length (starts_of (char_indices_from 0 a))).
  { rewrite Hpre at 1. unfold breaks. rewrite filter_app, length_app, starts_length. unfold breaks.
    assert (Hf : filter (λ c, c = newline) (last_line pre) = []); [|rewrite Hf; simpl; lia].
    destruct (filter _ (last_line pre)) as [|c l] eqn:E; [done|]. exfalso.
    assert (Hc : c ∈ filter (λ c, c = newline) (last_line pre)) by (rewrite E; apply elem_of_cons; by left).
    apply list_elem_of_filter in Hc as [-> ?]. by apply Hn. }
  rewrite Hb. rewrite app_comm_cons, lookup_app_l by (simpl; lia).
  destruct Ha as [->|(a' & ->)]; [done|]. pose proof (starts_newline 0 a') as Hl.
  rewrite last_lookup in Hl. destruct (starts_of _) as [|x l]; [done|]. exact Hl.
Qed.

(** ** Binary search in a sorted vector *)

Lemma half_bounds n : 1 < n → 0 < n / 2 ∧ n / 2 + n / 2 ≤ n.
Proof. pose proof (Nat.div_mod n 2 ltac:(lia)). pose proof (Nat.mod_upper_bound n 2 ltac:(lia)). lia. Qed.

Section Search.
Context {A : Type} (f : A → comparison) (l : list A) (i : nat).
Hypothesis before : ∀ j x, l !! j = Some x → j ≤ i → f x ≠ Gt.
Hypothesis after : ∀ j x, l !! j = Some x → i < j → f x = Gt.

Lemma search_loop_spec fuel base size :
  size ≤ S fuel → 0 < size → base ≤ i < base + size → base + size ≤ length l →
  search_loop fuel f l base size = i.
Proof.
  revert base size. induction fuel as [|fuel IH]; intros base size Hf H0 Hi Hl; cbn [search_loop]; [lia|].
  case_decide as H1; [|lia].
  assert (Hh : 0 < size / 2 ∧ size / 2 + size / 2 ≤ size) by (by apply half_bounds). revert Hh. generalize (size / 2). intros half Hh.
  destruct (lookup_lt_is_Some_2 l (base + half)) as [x Hx]; [lia|]. rewrite Hx. simpl.
  destruct (decide (base + half ≤ i)) as [Hm|Hm].
  - specialize (before _ _ Hx Hm). destruct (f x); [| |done]; apply IH; lia.
  - rewrite (after _ _ Hx) by lia. apply IH; lia.
Qed.

Lemma binary_search_spec x :
  l !! i = Some x →
  binary_search_by f l = match f x with Eq => Ok i | _ => Err (S i) end.
Proof.
  intros Hx. pose proof (lookup_lt_Some _ _ _ Hx). unfold binary_search_by.
  rewrite search_loop_spec, Hx by lia. simpl. pose proof (before _ _ Hx). by destruct (f x) eqn:?; [| |naive_solver].
Qed.
End Search.

Lemma binary_search_before {A} (f : A → comparison) (l : list A) :
  (∀ x, x ∈ l → f x = Gt) → binary_search_by f l = Err 0.
Proof.
  intros Hgt. assert (Hs : ∀ fuel base size, base + size ≤ length l →
    search_loop fuel f l base size = base).
  { induction fuel as [|fuel IH]; intros base size Hl; cbn [search_loop]; [done|]. case_decide; [|done].
    assert (Hh : 0 < size / 2 ∧ size / 2 + size / 2 ≤ size) by (by apply half_bounds). revert Hh. generalize (size / 2). intros half Hh.
    destruct (lookup_lt_is_Some_2 l (base + half)) as [x Hx]; [lia|]. rewrite Hx. simpl.
    rewrite Hgt by (by eapply list_elem_of_lookup_2). apply IH. lia. }
  unfold binary_search_by. rewrite Hs by lia. destruct l as [|x l]; simpl; [done|].
  rewrite Hgt; [done|]. apply elem_of_cons. by left.
Qed.

Lemma line_index_spec pre post :
  line_index_for_byte (new (pre ++ post)) (byte_len pre) = breaks pre.
Proof.
  destruct (line_start_of pre post) as (a & Hpre & Hl). unfold line_index_for_byte.
  erewrite binary_search_spec; [|..|exact Hl].
  - destruct (_ ?= _); simpl; lia.
  - intros j x Hj Hle. simpl in Hj. unfold char_indices in Hj. rewrite line_starts_app in Hj.
    rewrite app_comm_cons, lookup_app_l in Hj by (simpl; rewrite starts_length; lia).
    apply list_elem_of_lookup_2, elem_of_cons in Hj as [->|Hj%starts_bounds]; [by destruct (byte_len pre)|].
    rewrite Nat.compare_gt_iff. lia.
  - intros j x Hj Hlt. simpl in Hj. unfold char_indices in Hj. rewrite line_starts_app in Hj.
    rewrite app_comm_cons, lookup_app_r in Hj by (simpl; rewrite starts_length; lia).
    apply list_elem_of_lookup_2, starts_bounds in Hj. rewrite Nat.compare_gt_iff. lia.
Qed.

(** The line and the text that [locate] finds. *)
Lemma locate_spec s offset pre post :
  text_before s offset pre post → locate (new s) offset = Ok (breaks pre, last_line pre).
Proof.
  intros Ht. unfold locate. rewrite (clamp_spec _ _ _ _ Ht). destruct Ht as (-> & _ & _).
  rewrite line_index_spec. destruct (line_start_of pre post) as (a & Hpre & Hl).
  unfold index. rewrite Hl. simpl. 
  assert (Hs : slice_bytes (pre ++ post) (byte_len a) (byte_len pre) = Ok (last_line pre)); [|by rewrite Hs].
  rewrite Hpre at 1 2. rewrite <- app_assoc, byte_len_app. apply slice_bytes_app.
Qed.

(** ** Positions back to offsets *)

Definition at_line_start (a : str) : Prop := a = [] ∨ ∃ a', a = a' ++ [newline].

Lemma breaks_app a b : breaks (a ++ b) = breaks a + breaks b.
Proof. unfold breaks. by rewrite filter_app, length_app. Qed.

Lemma breaks_none s : newline ∉ s → breaks s = 0.
Proof. intros Hs. by rewrite <- (starts_length 0), starts_none. Qed.

Lemma breaks_le s : breaks s ≤ length s.
Proof. apply length_filter. Qed.

Lemma last_line_none s : newline ∉ s → last_line s = s.
Proof. destruct s as [|c s]; [done|]. intros. simpl. by rewrite decide_False. Qed.

Lemma last_line_app a p : at_line_start a → newline ∉ p → last_line (a ++ p) = p.
Proof.
  intros [->|(a' & ->)] Hp; [by apply last_line_none|].
  induction a' as [|c a' IH]; cbn [app last_line].
  - rewrite decide_True by (apply elem_of_cons; by left). by apply last_line_none.
  - rewrite decide_True; [done|]. apply elem_of_cons. right. rewrite !elem_of_app. left. right. by apply elem_of_cons; left.
Qed.

(** A line of the text with its line break, if it has one. *)
Fixpoint first_line (s : str) : str :=
  match s with
  | [] => []
  | c :: s' => if decide (c = newline) then [c] else c :: first_line s'
  end.

Lemma first_line_prefix s : ∃ r, s = first_line s ++ r.
Proof.
  induction s as [|c s [r IH]]; simpl; [by exists []|]. case_decide; [by exists s|]. exists r. simpl. by rewrite <- IH.
Qed.

Lemma first_line_app p q : newline ∉ p → first_line (p ++ q) = p ++ first_line q.
Proof.
  induction p as [|c p IH]; intros Hp; [done|]. apply not_elem_of_cons in Hp as [??]. simpl.
  rewrite decide_False by done. by rewrite IH.
Qed.

Lemma first_start off s :
  default (off + byte_len s) (head (starts_of (char_indices_from off s))) = off + byte_len (first_line s).
Proof.
  revert off. induction s as [|c s IH]; intros off; [done|].
  change (byte_len (c :: s)) with (len_utf8 c + byte_len s). unfold starts_of in *. simpl. case_decide; simpl.
  - unfold byte_len. simpl. lia.
  - rewrite Nat.add_assoc, IH. change (byte_len (c :: first_line s)) with (len_utf8 c + byte_len (first_line s)). lia.
Qed.

Lemma to_byte_line a rest character :
  at_line_start a →
  utf16_position_to_byte (new (a ++ rest)) (mkUtf16Position (N.of_nat (breaks a)) character) =
  Ok (if decide (character = 0%N) then Some (byte_len a)
      else scan_units (byte_len a) character 0 (char_indices (first_line rest))).
Proof.
  intros Ha. unfold utf16_position_to_byte. cbn [up_line up_character]. rewrite Nat2N.id.
  destruct (line_start_of a rest) as (a0 & Ha0 & Hl).
  assert (last_line a = []) as Hla.
  { rewrite <- (app_nil_r a). apply last_line_app; [done|]. by apply not_elem_of_nil. }
  rewrite Hla, app_nil_r in Ha0. subst a0. rewrite Hl. case_decide; [done|].
  assert (default (byte_len (a ++ rest)) (line_starts (new (a ++ rest)) !! S (breaks a)) =
          byte_len a + byte_len (first_line rest)) as Hend.
  { simpl. unfold char_indices. rewrite line_starts_app, lookup_app_r by (by rewrite starts_length).
    rewrite starts_length, Nat.sub_diag, byte_len_app, <- head_lookup. apply first_start. }
  simpl li_source. rewrite Hend. destruct (first_line_prefix rest) as [r Hr]. rewrite Hr at 1.
  by rewrite slice_bytes_app.
Qed.

Lemma scan_units_spec line_start target s : ∀ off u b,
  (u < target)%N → (u + N.of_nat (unit_len s) ≤ u32_max)%N →
  scan_units line_start target u (char_indices_from off s) = Some b ↔
  ∃ p q, s = p ++ q ∧ (newline ∉ p) ∧ (u + N.of_nat (unit_len p))%N = target ∧ b = line_start + off + byte_len p.
Proof.
  induction s as [|c s IH]; intros off u b Hu Hs; cbn [char_indices_from scan_units].
  { split; [done|]. intros (p & q & Hp & _ & Ht & _). apply symmetry, app_nil in Hp as [-> ->].
    unfold unit_len in Ht. simpl in Ht. lia. }
  change (unit_len (c :: s)) with (len_utf16 c + unit_len s) in Hs. pose proof (len_utf16_bounds c) as Hc.
  assert (Hadd : u32_add u (len_utf16 c) = (u + N.of_nat (len_utf16 c))%N).
  { unfold u32_add. apply N.mod_small. unfold u32_max in *. lia. }
  assert (Hcons : ∀ p q, c :: s = p ++ q → (newline ∉ p) → (u + N.of_nat (unit_len p))%N = target →
    ∃ p', p = c :: p' ∧ s = p' ++ q ∧ c ≠ newline ∧ (newline ∉ p') ∧ (u + N.of_nat (len_utf16 c + unit_len p'))%N = target).
  { intros [|x p] q Heq Hp Ht; [unfold unit_len in Ht; simpl in Ht; lia|]. injection Heq as <- ->.
    apply not_elem_of_cons in Hp as [??]. exists p. split_and!; [done|done|done|done|exact Ht]. }
  case_decide as Hnl.
  { split; [done|]. intros (p & q & Heq & Hp & Ht & _). destruct (Hcons p q Heq Hp Ht) as (? & ? & ? & ? & ? & ?). done. }
  rewrite Hadd. case_decide as Heq.
  { split.
    - intros [= <-]. exists [c], s. split_and!; [done| | |].
      + apply not_elem_of_cons. split; [done|]. by apply not_elem_of_nil.
      + unfold unit_len. simpl. lia.
      + unfold byte_len. simpl. lia.
    - intros (p & q & Hsp & Hp & Ht & ->). destruct (Hcons p q Hsp Hp Ht) as (p' & -> & -> & _ & _ & Ht').
      destruct p' as [|x p']; [f_equal; unfold byte_len; simpl; lia|]. exfalso.
      change (unit_len (x :: p')) with (len_utf16 x + unit_len p') in Ht'. pose proof (len_utf16_bounds x). lia. }
  case_decide as Hlt.
  { split; [done|]. intros (p & q & Hsp & Hp & Ht & _).
    destruct (Hcons p q Hsp Hp Ht) as (p' & -> & -> & _ & _ & Ht'). lia. }
  rewrite IH by lia. split.
  - intros (p & q & -> & Hp & Ht & ->). exists (c :: p), q.
    change (unit_len (c :: p)) with (len_utf16 c + unit_len p). change (byte_len (c :: p)) with (len_utf8 c + byte_len p).
    split_and!; [done| |lia|lia]. by apply not_elem_of_cons.
  - intros (p & q & Hsp & Hp & Ht & ->). destruct (Hcons p q Hsp Hp Ht) as (p' & -> & -> & _ & Hp' & Ht').
    exists p', q. change (byte_len (c :: p')) with (len_utf8 c + byte_len p'). split_and!; [done|done|lia|lia].
Qed.

Lemma line_split s i : i ≤ breaks s → ∃ a rest, s = a ++ rest ∧ breaks a = i ∧ at_line_start a.
Proof.
  revert i. induction s as [|c s IH]; intros i Hi.
  { exists [], []. split_and!; [done|by unfold breaks in *; simpl in *; lia|by left]. }
  destruct i as [|i]; [exists [], (c :: s); split_and!; [done|done|by left]|].
  assert (Hb : breaks (c :: s) = (if decide (c = newline) then 1 else 0) + breaks s).
  { change (c :: s) with ([c] ++ s). rewrite breaks_app. f_equal. unfold breaks. rewrite filter_cons. by case_decide. }
  rewrite Hb in Hi. case_decide as Hc.
  - destruct (IH i) as (a & rest & -> & Hai & Ha); [lia|]. exists (c :: a), rest.
    split_and!; [done| |].
    + change (c :: a) with ([c] ++ a). rewrite breaks_app, Hai. subst c. done.
    + right. destruct Ha as [->|(a' & ->)]; [exists []; by subst|by exists (c :: a')].
  - destruct (IH (S i)) as (a & rest & -> & Hai & Ha); [lia|]. exists (c :: a), rest.
    split_and!; [done| |].
    + change (c :: a) with ([c] ++ a). rewrite breaks_app, Hai. rewrite breaks_none; [done|].
      apply not_elem_of_cons. split; [done|]. by apply not_elem_of_nil.
    + right. destruct Ha as [->|(a' & ->)]; [done|by exists (c :: a')].
Qed.

(** ** Lines and columns of messages *)

Lemma line_column_loop_spec s : ∀ line column : N,
  (line + N.of_nat (length s) ≤ u32_max)%N → (column + N.of_nat (length s) ≤ u32_max)%N → (1 ≤ column)%N →
  Source.line_column_loop line column s =
    (line + N.of_nat (breaks s),
     (if decide (newline ∈ s) then 1 else column) + N.of_nat (length (last_line s)))%N.
Proof.
  induction s as [|c s IH]; intros line column Hl Hc H1.
  { unfold breaks. simpl. f_equal; lia. }
  cbn [Source.line_column_loop length last_line] in *.
  assert (Hb : breaks (c :: s) = (if decide (c = newline) then 1 else 0) + breaks s).
  { unfold breaks. rewrite filter_cons. by repeat case_decide. }
  rewrite Hb. destruct (decide (c = newline)) as [->|Hne].
  - rewrite u32_succ_small, IH by lia. rewrite !(decide_True (P := newline ∈ newline :: s)) by (apply elem_of_cons; by left).
    f_equal; [lia|]. by destruct (decide (newline ∈ s)).
  - rewrite u32_succ_small, IH by lia. f_equal.
    destruct (decide (newline ∈ s)) as [Hin|Hin].
    + by rewrite !decide_True by (apply elem_of_cons; by right).
    + rewrite decide_False; [|by apply not_elem_of_cons]. rewrite decide_False by (by apply not_elem_of_cons).
      rewrite (last_line_none s) by done. simpl. lia.
Qed.

Lemma line_column_prefix pre post :
  (N.of_nat (byte_len (pre ++ post)) < u32_max)%N →
  Source.line_column_for_offset (pre ++ post) (length pre) =
    (as_u32 (breaks pre) + 1, as_u32 (length (last_line pre)) + 1)%N.
Proof.
  intros Hs. unfold Source.line_column_for_offset.
  rewrite Nat.min_l, take_app_length by (rewrite length_app; lia).
  rewrite byte_len_app in Hs. pose proof (unit_len_le pre) as Hu. pose proof (breaks_le pre) as Hb.
  assert (Hll : length (last_line pre) ≤ length pre).
  { destruct (last_line_spec pre) as (a & Ha & _). rewrite Ha at 2. rewrite length_app. lia. }
  rewrite line_column_loop_spec, !as_u32_small by lia. f_equal; [lia|]. case_decide; lia.
Qed.

(** ** Theorems: positions *)

(** C38: neither conversion of a byte offset to a position ever panics, whatever the offset.
    Its line is the number of line breaks in the text before the offset, and its character
    the number of characters, or of UTF-16 units, since the last break; an offset past the
    end or inside of a character counts as the end of the last whole character before it.
    Counted from one, this is the position that messages in a terminal show for the same
    character, as long as the text has fewer bytes than [u32] can count. *)
Theorem positions_reference s offset :
  ∃ pre post, text_before s offset pre post ∧
    byte_to_text_position (new s) offset = Ok (mkTextPosition (as_u32 (breaks pre)) (as_u32 (length (last_line pre)))) ∧
    byte_to_utf16_position (new s) offset = Ok (mkUtf16Position (as_u32 (breaks pre)) (as_u32 (unit_len (last_line pre)))) ∧
    ((N.of_nat (byte_len s) < u32_max)%N →
     Source.line_column_for_offset s (length pre) =
       (as_u32 (breaks pre) + 1, as_u32 (length (last_line pre)) + 1)%N).
Proof.
  destruct (text_before_ex s offset) as (pre & post & Ht). exists pre, post.
  unfold byte_to_text_position, byte_to_utf16_position. rewrite (locate_spec _ _ _ _ Ht).
  split_and!; [done..|]. intros Hs. destruct Ht as (-> & _ & _).
  by apply line_column_prefix.
Qed.

Lemma u32_prefix pre post :
  (N.of_nat (byte_len (pre ++ post)) ≤ u32_max)%N →
  as_u32 (breaks pre) = N.of_nat (breaks pre) ∧ as_u32 (unit_len (last_line pre)) = N.of_nat (unit_len (last_line pre)).
Proof.
  rewrite byte_len_app. intros Hs. pose proof (unit_len_le pre). pose proof (breaks_le pre).
  pose proof (unit_len_le (last_line pre)).
  assert (byte_len (last_line pre) ≤ byte_len pre).
  { destruct (last_line_spec pre) as (a & Ha & _). rewrite Ha at 2. rewrite byte_len_app. lia. }
  split; apply as_u32_small; lia.
Qed.

Lemma to_byte_exact s position b :
  (N.of_nat (byte_len s) ≤ u32_max)%N →
  utf16_position_to_byte (new s) position = Ok (Some b) ↔
  ∃ pre post, s = pre ++ post ∧ b = byte_len pre ∧
    position = mkUtf16Position (N.of_nat (breaks pre)) (N.of_nat (unit_len (last_line pre))).
Proof.
  intros Hs. split.
  - destruct position as [line character]. intros H.
    destruct (decide (N.to_nat line ≤ breaks s)) as [Hle|Hgt].
    2: { unfold utf16_position_to_byte in H. cbn [up_line] in H. rewrite lookup_ge_None_2 in H; [done|].
         simpl. unfold char_indices. rewrite starts_length. lia. }
    destruct (line_split s (N.to_nat line) Hle) as (a & rest & -> & Hb & Ha).
    replace line with (N.of_nat (breaks a)) in * by lia. rewrite to_byte_line in H by done.
    injection H as H. case_decide as H0.
    + injection H as <-. exists a, rest. split_and!; [done|done|].
      rewrite <- (app_nil_r a) at 3. rewrite last_line_app by (done || apply not_elem_of_nil). by subst.
    + destruct (first_line_prefix rest) as [r Hr].
      apply scan_units_spec in H as (p & q & Hl & Hp & Ht & ->); [|lia|].
      2: { rewrite Hr, !byte_len_app in Hs. pose proof (unit_len_le (first_line rest)). lia. }
      exists (a ++ p), (q ++ r). split_and!.
      * rewrite Hr, Hl. by rewrite <- !app_assoc.
      * rewrite byte_len_app. lia.
      * rewrite breaks_app, (breaks_none p), last_line_app by done. f_equal; lia.
  - intros (pre & post & -> & -> & ->). destruct (last_line_spec pre) as (a & Hpre & Hn & Ha).
    revert Hs. rewrite Hpre. generalize dependent (last_line pre). intros p _ Hn Hs.
    rewrite last_line_app, breaks_app, (breaks_none p), Nat.add_0_r, <- app_assoc, to_byte_line by done. f_equal.
    destruct p as [|c p]; [by rewrite app_nil_r|].
    pose proof (unit_len_le (c :: p)) as Hu. simpl length in Hu. rewrite decide_False by lia.
    rewrite first_line_app by done. apply scan_units_spec; [lia| |].
    + destruct (first_line_prefix post) as [r Hr]. rewrite Hr, !app_assoc, !byte_len_app in Hs.
      pose proof (unit_len_le ((c :: p) ++ first_line post)) as Hu'. rewrite byte_len_app in Hu'. lia.
    + exists (c :: p), (first_line post). split_and!; [done|done|lia|]. rewrite byte_len_app. lia.
Qed.

Lemma to_byte_total s position : ∃ r, utf16_position_to_byte (new s) position = Ok r.
Proof.
  destruct position as [line character]. destruct (decide (N.to_nat line ≤ breaks s)) as [Hle|Hgt].
  - destruct (line_split s (N.to_nat line) Hle) as (a & rest & -> & Hb & Ha).
    replace line with (N.of_nat (breaks a)) by lia. rewrite to_byte_line by done. by eexists.
  - exists None. unfold utf16_position_to_byte. cbn [up_line]. rewrite lookup_ge_None_2; [done|].
    simpl. unfold char_indices. rewrite starts_length. lia.
Qed.

(** C39: for a text whose bytes [u32] can count, the conversions between offsets and editor
    positions are inverse to each other.  The position of any offset leads back to that
    offset, clamped to a character; and a position that denotes an offset is the position
    of that offset, so that a position is rejected exactly when no character of the text
    is there.  Reading a position never panics. *)
Theorem utf16_positions_inverse s :
  (N.of_nat (byte_len s) ≤ u32_max)%N →
  (∀ offset, ∃ position, byte_to_utf16_position (new s) offset = Ok position ∧
     utf16_position_to_byte (new s) position = Ok (Some (clamp_to_char_boundary (new s) offset))) ∧
  (∀ position, ∃ found, utf16_position_to_byte (new s) position = Ok found ∧
     match found with
     | Some offset => byte_to_utf16_position (new s) offset = Ok position ∧ clamp_to_char_boundary (new s) offset = offset
     | None => ∀ offset, byte_to_utf16_position (new s) offset ≠ Ok position
     end).
Proof.
  intros Hs. assert (Hback : ∀ offset, ∃ position, byte_to_utf16_position (new s) offset = Ok position ∧
     utf16_position_to_byte (new s) position = Ok (Some (clamp_to_char_boundary (new s) offset))).
  { intros offset. destruct (text_before_ex s offset) as (pre & post & Ht). eexists. split.
    - unfold byte_to_utf16_position. by rewrite (locate_spec _ _ _ _ Ht).
    - rewrite (clamp_spec _ _ _ _ Ht). apply to_byte_exact; [done|]. exists pre, post.
      destruct Ht as (-> & _ & _). split_and!; [done|done|]. by destruct (u32_prefix pre post Hs) as [-> ->]. }
  split; [done|]. intros position. destruct (to_byte_total s position) as [found Hf]. exists found. split; [done|].
  destruct found as [offset|].
  - apply to_byte_exact in Hf as (pre & post & Hpre & -> & ->); [|done]. subst s.
    assert (Ht : text_before (pre ++ post) (byte_len pre) pre post).
    { split_and!; [done|done|]. intros c rest _. pose proof (len_utf8_pos c). lia. }
    split; [|by eapply clamp_spec]. unfold byte_to_utf16_position. rewrite (locate_spec _ _ _ _ Ht). simpl.
    by destruct (u32_prefix pre post Hs) as [-> ->].
  - intros offset Ho. destruct (Hback offset) as (position' & Ho' & Hb). congruence.
Qed.

Definition sample_text : str := lit "ab" ++ [Text.newline; 233; 128512; 122]%N.

Lemma utf16_positions_inverse_witness :
  byte_to_utf16_position (new sample_text) 6 = Ok (mkUtf16Position 1 1) ∧
  ∃ position, byte_to_utf16_position (new sample_text) 6 = Ok position ∧
    utf16_position_to_byte (new sample_text) position = Ok (Some (clamp_to_char_boundary (new sample_text) 6)).
Proof.
  split; [reflexivity|]. apply (proj1 (utf16_positions_inverse sample_text ltac:(vm_compute; discriminate))).
Defined.

(** ** The lines that messages quote *)

Lemma line_spans_loop_spec s : ∀ idx start done_ pos,
  (newline ∉ done_) → idx = start + length done_ → start ≤ pos ≤ idx + length s →
  ∃ i st en, Source.line_spans_loop idx start s !! i = Some (st, en) ∧ st ≤ pos ≤ en ∧
    (∀ j x y, j < i → Source.line_spans_loop idx start s !! j = Some (x, y) → y < pos) ∧
    start ≤ st ∧ newline ∉ take (en - st) (drop (st - start) (done_ ++ s)).
Proof.
  induction s as [|c s IH]; intros idx start pre pos Hpre Hidx Hpos; cbn [Source.line_spans_loop length] in *.
  { exists 0, start, idx. split_and!; [done|lia|lia|lia|lia|].
    rewrite Nat.sub_diag, app_nil_r, drop_0, take_ge; [done|lia]. }
  case_decide as Hc.
  - destruct (decide (pos ≤ idx)).
    + exists 0, start, idx. split_and!; [done|lia|lia|lia|lia|].
      rewrite Nat.sub_diag. rewrite drop_0, take_app_le, take_ge by lia. done.
    + destruct (IH (S idx) (S idx) [] pos) as (i & st & en & Hi & Hin & Hj & Hle & Hn);
        [apply not_elem_of_nil|simpl; lia|lia|].
      exists (S i), st, en. split_and!; [done|lia|lia| |lia|].
      * intros [|j] x y Hlt Hx; simpl in Hx; [injection Hx as <- <-; lia|]. apply (Hj j x y); [lia|done].
      * replace (drop (st - start) (pre ++ c :: s)) with (drop (st - S idx) ([] ++ s)); [done|].
        replace (st - start) with (length (pre ++ [c]) + (st - S idx)) by (rewrite length_app; simpl; lia).
        rewrite (app_assoc pre [c] s : pre ++ c :: s = _). by rewrite drop_app_add.
  - destruct (IH (S idx) start (pre ++ [c]) pos) as (i & st & en & Hi & Hin & Hj & Hle & Hn);
      [rewrite not_elem_of_app, list_elem_of_singleton; naive_solver|rewrite length_app; simpl; lia|lia|].
    exists i, st, en. rewrite <- app_assoc in Hn. split_and!; first [done|lia].
Qed.

(** Every character is on exactly the line that is quoted for it: a line without a break. *)
Lemma line_span_containing_spec s pos :
  pos ≤ length s →
  ∃ st en, Source.line_span_containing s pos = Ok (Some (st, en)) ∧ st ≤ pos ≤ en ∧
    newline ∉ Source.slice_chars s st en.
Proof.
  intros Hpos. destruct (line_spans_loop_spec s 0 0 [] pos) as (i & st & en & Hi & Hin & Hj & _ & Hn);
    [apply not_elem_of_nil|done|lia|].
  exists st, en. unfold Source.line_span_containing, Source.line_index_for_span, Source.line_spans.
  assert (Hp : position (λ '(start, en), bool_decide (start ≤ pos) && bool_decide (pos ≤ en))
                 (Source.line_spans_loop 0 0 s) = Some i).
  { revert i Hi Hj. generalize (Source.line_spans_loop 0 0 s). intros l. induction l as [|[x y] l IH]; intros i Hi Hj; [done|].
    simpl. destruct i as [|i].
    - injection Hi as -> ->. by rewrite !bool_decide_eq_true_2 by lia.
    - assert (y < pos) by (by apply (Hj 0 x y); [lia|]). rewrite (bool_decide_eq_false_2 (pos ≤ y)), andb_false_r by lia.
      rewrite (IH i); [done|done|]. intros j x' y' Hlt Hx. apply (Hj (S j) x' y'); [lia|done]. }
  rewrite Hp. unfold index. rewrite Hi. split_and!; [done|lia|lia|]. by rewrite Nat.sub_0_r in Hn.
Qed.

(** What is underlined is a non-empty part of the text, unless the text is empty. *)
Lemma normalized_char_span_inside s span :
  let sp := Source.normalized_char_span s span in
  span_start sp ≤ span_end sp ≤ length s ∧ (s ≠ [] → span_start sp < span_end sp).
Proof.
  unfold Source.normalized_char_span. destruct s as [|c s]; [done|]. simpl length.
  repeat case_decide; simpl in *; lia.
Qed.
