(* ===== verification/SourcesProps.v ===== *)
(** * Theorems about the registry of sources and document names

    [registry_refines]: the sorted vector of sources, searched by bisection, behaves like a
    map with a counter.  [uri_roundtrip]: a document's path comes back from its URI. *)

From S2P Require Import Prelude Names ListHandle Value ParseError StringLiteral CodePoints Documents Sources DocumentsProps.

(** ** The registry as a map *)

Inductive registry_op : Type :=
| Register (file_name source : str)
| Get (id : N)
| Update (id : N) (source : str)
| Reserve (next_id : N)
| Restore (entry : SourceEntry).

Inductive registry_reply : Type :=
| RId (id : N)
| REntry (entry : option SourceEntry)
| RBool (b : bool)
| RUnit.

Definition registry_step (op : registry_op) (r : SourceRegistry) : Run (SourceRegistry * registry_reply) :=
  match op with
  | Register f s => let? '(r', id) := SourceRegistry.register f s r in Ok (r', RId id)
  | Get id => let? entry := SourceRegistry.get id r in Ok (r, REntry entry)
  | Update id s => let? '(r', b) := SourceRegistry.update_source id s r in Ok (r', RBool b)
  | Reserve n => Ok (SourceRegistry.reserve_ids_before n r, RUnit)
  | Restore e => let? '(r', b) := SourceRegistry.restore e r in Ok (r', RBool b)
  end.

(** The specification: which source has which id, and the next id to hand out. *)
Definition sources : Type := gmap N SourceEntry * N.

Definition sources_step (op : registry_op) (st : sources) : Run (sources * registry_reply) :=
  let '(m, next) := st in
  match op with
  | Register f s =>
      if decide (next + 1 ≤ u32_max)%N
      then Ok ((<[next := mkSourceEntry next f s]> m, (next + 1)%N), RId next)
      else Err PExpect
  | Get id => Ok (st, REntry (m !! id))
  | Update id s =>
      match m !! id with
      | Some e => Ok ((<[id := mkSourceEntry id (se_file_name e) s]> m, next), RBool true)
      | None => Ok (st, RBool false)
      end
  | Reserve n => Ok ((m, next `max` n)%N, RUnit)
  | Restore e =>
      if decide (se_id e + 1 ≤ u32_max)%N then
        match m !! se_id e with
        | Some e' =>
            Ok (st, RBool (bool_decide (se_file_name e' = se_file_name e ∧ se_source e' = se_source e)))
        | None => Ok ((<[se_id e := e]> m, next `max` (se_id e + 1))%N, RBool true)
        end
      else Ok (st, RBool false)
  end.

Fixpoint replies {S} (step : registry_op → S → Run (S * registry_reply)) (ops : list registry_op) (s : S) :
    Run (S * list registry_reply) :=
  match ops with
  | [] => Ok (s, [])
  | op :: ops' =>
      let? '(s', a) := step op s in
      let? '(s'', l) := replies step ops' s' in
      Ok (s'', a :: l)
  end.

(** ** The invariant *)

Definition below (a b : SourceEntry) : Prop := (se_id a < se_id b)%N.
Definition by_id (l : list SourceEntry) : gmap N SourceEntry := list_to_map ((λ e, (se_id e, e)) <$> l).

Record registry_ok (r : SourceRegistry) (st : sources) : Prop := {
  ok_sorted : StronglySorted below (sr_entries r);
  ok_map : by_id (sr_entries r) = st.1;
  ok_next : sr_next_id r = st.2;
  ok_below : ∀ e, e ∈ sr_entries r → (se_id e < sr_next_id r)%N;
}.

Lemma by_id_lookup l i e :
  StronglySorted below l → l !! i = Some e → by_id l !! se_id e = Some e.
Proof.
  intros Hs Hi. apply elem_of_list_to_map_1.
  - rewrite <- list_fmap_compose. clear i Hi. induction Hs as [|a l Hs IH Ha]; simpl; constructor; [|done].
    intros (b & Hb & Hin)%list_elem_of_fmap. rewrite Forall_forall in Ha. specialize (Ha b Hin). unfold below in Ha. simpl in *. lia.
  - apply list_elem_of_fmap. exists e. split; [done|]. by eapply list_elem_of_lookup_2.
Qed.

Lemma by_id_none l id : (∀ e, e ∈ l → se_id e ≠ id) → by_id l !! id = None.
Proof.
  intros Hl. apply not_elem_of_list_to_map_1. rewrite <- list_fmap_compose.
  intros (e & -> & Hin)%list_elem_of_fmap. by apply (Hl e).
Qed.

Lemma sorted_split id l :
  StronglySorted below l →
  ∃ a b, l = a ++ b ∧ Forall (λ e, se_id e ≤ id)%N a ∧ Forall (λ e, id < se_id e)%N b.
Proof.
  induction 1 as [|e l Hs (a & b & -> & Ha & Hb) He]; [by exists [], []|].
  destruct (decide (se_id e ≤ id)%N); [exists (e :: a), b; by auto|].
  exists [], (e :: a ++ b). split_and!; [done|done|]. constructor; [lia|].
  eapply Forall_impl; [done|]. unfold below. simpl. lia.
Qed.

(** What bisection finds. *)
Lemma search_spec id r :
  StronglySorted below (sr_entries r) →
  match SourceRegistry.search id r with
  | Ok i => ∃ e, sr_entries r !! i = Some e ∧ se_id e = id
  | Err i => ∃ a b, sr_entries r = a ++ b ∧ i = length a ∧
      Forall (λ e, se_id e < id)%N a ∧ Forall (λ e, id < se_id e)%N b
  end.
Proof.
  intros Hs. destruct (sorted_split id _ Hs) as (a & b & Hab & Ha & Hb). unfold SourceRegistry.search.
  destruct a as [|e a _] using rev_ind.
  - rewrite binary_search_before.
    + exists [], b. split_and!; [done|done|by constructor|done].
    + intros e He. simpl in Hab. rewrite Hab in He. rewrite Forall_forall in Hb. apply N.compare_gt_iff. by apply Hb.
  - apply Forall_app in Ha as [Ha [He _]%Forall_cons].
    assert (Hsa : Forall (λ x, below x e) a).
    { rewrite Hab, <- app_assoc in Hs. apply Forall_forall. intros x Hx. apply list_elem_of_split in Hx as (l1 & l2 & ->).
      rewrite <- app_assoc in Hs. clear -Hs. induction l1 as [|y l1 IH]; simpl in Hs.
      - apply StronglySorted_inv in Hs as [_ Hs]. apply Forall_app in Hs as [_ Hs]. by apply Forall_cons in Hs as [? _].
      - apply StronglySorted_inv in Hs as [Hs _]. by apply IH. }
    assert (Hlen : sr_entries r !! length a = Some e).
    { rewrite Hab, <- app_assoc. by apply list_lookup_middle. }
    rewrite (binary_search_spec _ _ (length a)) with (x := e).
    + destruct (se_id e ?= id)%N eqn:Hc.
      * apply N.compare_eq_iff in Hc. by exists e.
      * apply N.compare_lt_iff in Hc. exists (a ++ [e]), b. rewrite length_app. simpl. split_and!; [done|lia| |done].
        apply Forall_app. split; [|by constructor; [|constructor]].
        eapply Forall_impl; [exact Hsa|]. unfold below. simpl. lia.
      * apply N.compare_gt_iff in Hc. lia.
    + intros j x Hj Hle. rewrite Hab in Hj. rewrite lookup_app_l in Hj by (rewrite length_app; simpl; lia).
      assert (Hx : x ∈ a ++ [e]) by (by eapply list_elem_of_lookup_2).
      intros Hgt%N.compare_gt_iff. rewrite Forall_forall in Ha. apply elem_of_app in Hx as [Hx|Hx%list_elem_of_singleton].
      * specialize (Ha x Hx). simpl in Ha. lia.
      * subst. lia.
    + intros j x Hj Hlt. rewrite Hab in Hj. rewrite lookup_app_r in Hj by (rewrite length_app; simpl; lia).
      apply N.compare_gt_iff. rewrite Forall_forall in Hb. apply Hb. by eapply list_elem_of_lookup_2.
    + done.
Qed.

(** ** One operation *)

Lemma sorted_app a b :
  StronglySorted below a → StronglySorted below b → (∀ x y, x ∈ a → y ∈ b → below x y) →
  StronglySorted below (a ++ b).
Proof.
  intros Ha Hb Hab. induction Ha as [|x a Ha IH Hx]; [done|]. simpl. constructor.
  - apply IH. intros y z Hy. apply Hab. apply elem_of_cons. by right.
  - apply Forall_app. split; [done|]. apply Forall_forall. intros y Hy. apply Hab; [|done]. apply elem_of_cons. by left.
Qed.

Lemma sorted_app_inv a b : StronglySorted below (a ++ b) → StronglySorted below a ∧ StronglySorted below b.
Proof.
  induction a as [|x a IH]; simpl; intros Hs; [by split; [constructor|]|].
  apply StronglySorted_inv in Hs as [Hs Hx]. destruct (IH Hs). split; [|done]. constructor; [done|].
  by apply Forall_app in Hx as [? _].
Qed.

Lemma by_id_insert a b e :
  (∀ x, x ∈ a → se_id x ≠ se_id e) → by_id (a ++ e :: b) = <[se_id e := e]> (by_id (a ++ b)).
Proof.
  induction a as [|x a IH]; intros Ha; [done|].
  change (<[se_id x := x]> (by_id (a ++ e :: b)) = <[se_id e := e]> (<[se_id x := x]> (by_id (a ++ b)))). rewrite IH.
  - apply insert_insert_ne. apply Ha. apply elem_of_cons. by left.
  - intros y Hy. apply Ha. apply elem_of_cons. by right.
Qed.

Lemma map_search id r st :
  registry_ok r st →
  match SourceRegistry.search id r with
  | Ok i => ∃ e, sr_entries r !! i = Some e ∧ se_id e = id ∧ st.1 !! id = Some e
  | Err i => st.1 !! id = None
  end.
Proof.
  intros [Hs Hm _ _]. pose proof (search_spec id r Hs) as H. rewrite <- Hm.
  destruct (SourceRegistry.search id r) as [i|i].
  - destruct H as (e & Hi & <-). exists e. split_and!; [done|done|]. by eapply by_id_lookup.
  - destruct H as (a & b & -> & _ & Ha & Hb). apply by_id_none. intros e He.
    rewrite Forall_forall in Ha, Hb. apply elem_of_app in He as [He|He]; [specialize (Ha e He)|specialize (Hb e He)]; simpl in *; lia.
Qed.

Lemma register_ok f s r st :
  registry_ok r st →
  match registry_step (Register f s) r, sources_step (Register f s) st with
  | Ok (r', a), Ok (st', b) => registry_ok r' st' ∧ a = b
  | Err p, Err q => p = q
  | _, _ => False
  end.
Proof.
  intros [Hs Hm Hn Hb]. destruct st as [m next]. simpl in *. subst m next. unfold SourceRegistry.register, u32_checked_add.
  case_decide; [|done]. simpl. split; [|done]. constructor; simpl.
  - apply sorted_app; [done|repeat constructor|]. intros x y Hx ->%list_elem_of_singleton. by apply Hb.
  - rewrite by_id_insert, app_nil_r; [done|]. intros x Hx. simpl. specialize (Hb x Hx). lia.
  - done.
  - intros e [He|He%list_elem_of_singleton]%elem_of_app; simpl; [specialize (Hb e He)|subst e; simpl]; lia.
Qed.

Lemma update_ok id s r st :
  registry_ok r st →
  match registry_step (Update id s) r, sources_step (Update id s) st with
  | Ok (r', a), Ok (st', b) => registry_ok r' st' ∧ a = b
  | Err p, Err q => p = q
  | _, _ => False
  end.
Proof.
  intros Hok. pose proof (map_search id r st Hok) as H. destruct st as [m next]. simpl in *.
  unfold SourceRegistry.update_source. destruct (SourceRegistry.search id r) as [i|i]; simpl in *; [|by rewrite H].
  destruct H as (e & Hi & <- & He). rewrite He. unfold index. rewrite Hi. simpl. split; [|done].
  destruct Hok as [Hs Hm Hn Hb]. simpl in *. apply list_elem_of_split_length in Hi as (a & b & Hab & ->).
  rewrite Hab in *. rewrite insert_app_r_alt, Nat.sub_diag by done. simpl.
  destruct (sorted_app_inv _ _ Hs) as [Ha Hb'].
  assert (Hlt : ∀ x y, x ∈ a → y ∈ e :: b → below x y).
  { clear -Hs. induction a as [|z a IH]; intros x y Hx Hy; [by apply elem_of_nil in Hx|]. simpl in Hs.
    apply StronglySorted_inv in Hs as [Hs Hz]. apply elem_of_cons in Hx as [->|Hx]; [|by apply IH].
    rewrite Forall_forall in Hz. apply Hz. apply elem_of_app. by right. }
  constructor; simpl.
  - apply sorted_app; [done| |].
    + apply StronglySorted_inv in Hb' as [Hb' He']. constructor; [done|]. eapply Forall_impl; [done|]. by unfold below.
    + intros x y Hx [-> | Hy]%elem_of_cons.
      * apply (Hlt x e Hx). apply elem_of_cons. by left.
      * apply Hlt; [done|]. apply elem_of_cons. by right.
  - rewrite <- Hm, !by_id_insert; [|intros x Hx..]. 1: { simpl. by rewrite insert_insert_eq. }
    all: assert (below x e) by (apply Hlt; [done|apply elem_of_cons; by left]); unfold below in *; simpl; lia.
  - done.
  - intros x [Hx|[-> | Hx]%elem_of_cons]%elem_of_app; simpl.
    + apply Hb. apply elem_of_app. by left.
    + apply (Hb e). apply elem_of_app. right. apply elem_of_cons. by left.
    + apply Hb. apply elem_of_app. right. apply elem_of_cons. by right.
Qed.

Lemma restore_ok entry r st :
  registry_ok r st →
  match registry_step (Restore entry) r, sources_step (Restore entry) st with
  | Ok (r', a), Ok (st', b) => registry_ok r' st' ∧ a = b
  | Err p, Err q => p = q
  | _, _ => False
  end.
Proof.
  intros Hok. pose proof (map_search (se_id entry) r st Hok) as H. destruct st as [m next]. simpl in *.
  unfold SourceRegistry.restore, u32_checked_add. case_decide; [|done].
  pose proof (search_spec (se_id entry) r (ok_sorted _ _ Hok)) as Hsearch.
  destruct (SourceRegistry.search (se_id entry) r) as [i|i].
  - destruct H as (e & Hi & _ & ->). unfold index. by rewrite Hi.
  - rewrite H. destruct Hsearch as (a & b & Hab & -> & Ha & Hb). unfold SourceRegistry.vec_insert.
    destruct Hok as [Hs Hm Hn Hlt]. simpl in *. rewrite Hab in *.
    rewrite decide_True by (rewrite length_app; lia). simpl. split; [|done].
    rewrite take_app_length, drop_app_length. rewrite Forall_forall in Ha, Hb.
    destruct (sorted_app_inv _ _ Hs) as [Hsa Hsb]. constructor; simpl.
    + apply sorted_app; [done| |].
      * constructor; [done|]. apply Forall_forall. apply Hb.
      * intros x y Hx Hy. assert (below x entry) by (by apply Ha). apply elem_of_cons in Hy as [->|Hy]; [done|].
        unfold below in *. specialize (Hb y Hy). simpl in Hb. lia.
    + rewrite by_id_insert, Hm; [done|]. intros x Hx. specialize (Ha x Hx). simpl in Ha. lia.
    + by rewrite Hn.
    + intros x [Hx|[-> | Hx]%elem_of_cons]%elem_of_app; [| lia |];
        (assert (se_id x < sr_next_id r)%N; [apply Hlt; apply elem_of_app; by auto|lia]).
Qed.

Lemma step_ok op r st :
  registry_ok r st →
  match registry_step op r, sources_step op st with
  | Ok (r', a), Ok (st', b) => registry_ok r' st' ∧ a = b
  | Err p, Err q => p = q
  | _, _ => False
  end.
Proof.
  intros Hok. destruct op as [f s|id|id s|n|e]; [by apply register_ok| |by apply update_ok| |by apply restore_ok].
  - pose proof (map_search id r st Hok) as H. destruct st as [m next]. simpl in *. unfold SourceRegistry.get.
    destruct (SourceRegistry.search id r) as [i|i]; simpl; [|by rewrite H].
    destruct H as (e & Hi & _ & ->). unfold index. by rewrite Hi.
  - destruct Hok as [Hs Hm Hn Hb], st as [m next]. simpl in *. subst. split; [|done]. constructor; simpl; [done..|].
    intros e He. specialize (Hb e He). lia.
Qed.

Lemma replies_ok ops : ∀ r st,
  registry_ok r st →
  match replies registry_step ops r, replies sources_step ops st with
  | Ok (r', a), Ok (st', b) => registry_ok r' st' ∧ a = b
  | Err p, Err q => p = q
  | _, _ => False
  end.
Proof.
  induction ops as [|op ops IH]; intros r st Hok; [done|]. cbn [replies].
  pose proof (step_ok op r st Hok) as H.
  destruct (registry_step op r) as [[r' a]|p], (sources_step op st) as [[st' b]|q]; simpl in *; try done.
  destruct H as [Hok' ->]. specialize (IH r' st' Hok').
  destruct (replies registry_step ops r') as [[r'' l]|p], (replies sources_step ops st') as [[st'' l']|q]; simpl; try done.
  by destruct IH as [? ->].
Qed.

(** Any sequence of registrations, lookups, updates, reservations and restorations
    gives the same answers, panics included, as a map from ids to sources with a counter:
    ids are handed out in order, a restored source never replaces another one, and no id
    from the counter on is ever taken. *)
Theorem registry_refines ops :
  match replies registry_step ops SourceRegistry.new, replies sources_step ops (∅, 0%N) with
  | Ok (r, a), Ok (st, b) => a = b ∧ (∀ id, (st.2 ≤ id)%N → SourceRegistry.get id r = Ok None)
  | Err p, Err q => p = q
  | _, _ => False
  end.
Proof.
  assert (H0 : registry_ok SourceRegistry.new (∅, 0%N)).
  { constructor; [constructor|done|done|]. intros e He. by apply elem_of_nil in He. }
  pose proof (replies_ok ops _ _ H0) as H.
  destruct (replies registry_step ops _) as [[r a]|p], (replies sources_step ops _) as [[st b]|q]; try done.
  destruct H as [Hok ->]. split; [done|]. intros id Hid. pose proof (map_search id r st Hok) as Hs.
  unfold SourceRegistry.get. destruct (SourceRegistry.search id r) as [i|i]; [|done].
  destruct Hs as (e & Hi & <- & _). apply list_elem_of_lookup_2, (ok_below _ _ Hok) in Hi.
  rewrite (ok_next _ _ Hok) in Hi. lia.
Qed.

(** ** Document names *)

Section Uri.
Import CodePoints Uri.

Definition hex_pair_ok (b : N) : bool :=
  is_uri_path_byte b ||
  bool_decide (hex_value (upper_hex (b / 16)) = Some (b / 16)%N ∧
               hex_value (upper_hex (b `mod` 16)) = Some (b `mod` 16)%N ∧
               N.lor (N.shiftl (b / 16) 4) (b `mod` 16) = b).

Lemma hex_pairs b : (b ≤ 255)%N → hex_pair_ok b = true.
Proof.
  intros Hb. assert (H : forallb (λ n, hex_pair_ok (N.of_nat n)) (seq 0 256) = true) by (vm_compute; reflexivity).
  rewrite forallb_forall in H. rewrite <- (N2Nat.id b). apply H. apply in_seq. lia.
Qed.

Lemma decode_encode_byte b rest :
  (b ≤ 255)%N → decode_bytes (encode_byte b ++ rest) = cons b <$> decode_bytes rest.
Proof.
  intros Hb. pose proof (hex_pairs b Hb) as H. unfold hex_pair_ok in H. unfold encode_byte.
  destruct (is_uri_path_byte b) eqn:Hu.
  - cbn [app decode_bytes]. rewrite decide_False; [by destruct (decode_bytes rest)|]. by intros ->.
  - simpl in H. apply bool_decide_eq_true in H as (H1 & H2 & H3). cbn [app decode_bytes].
    rewrite decide_True by done. rewrite H1, H2. simpl. rewrite H3. by destruct (decode_bytes rest).
Qed.

Lemma decode_encode bytes :
  Forall (λ b, (b ≤ 255)%N) bytes → decode_bytes (concat (encode_byte <$> bytes)) = Some bytes.
Proof.
  induction 1 as [|b bytes Hb _ IH]; [done|]. cbn [fmap list_fmap concat].
  by rewrite decode_encode_byte, IH.
Qed.

Lemma encode_ascii bytes :
  Forall (λ b, (b ≤ 255)%N) bytes → Forall (λ c, (c < 128)%N) (concat (encode_byte <$> bytes)).
Proof.
  induction 1 as [|b bytes Hb _ IH]; [by constructor|]. cbn [fmap list_fmap concat]. apply Forall_app. split; [|done].
  assert (H : forallb (λ n, forallb (λ c, c <? 128)%N (encode_byte (N.of_nat n))) (seq 0 256) = true)
    by (vm_compute; reflexivity).
  rewrite forallb_forall in H. specialize (H (N.to_nat b)). rewrite N2Nat.id in H.
  assert (Hin : In (N.to_nat b) (seq 0 256)) by (apply in_seq; lia). apply H in Hin.
  rewrite forallb_forall in Hin. apply Forall_forall. intros c Hc%list_elem_of_In.
  apply N.ltb_lt. by apply Hin.
Qed.

(** The URI of an absolute path consists of ASCII characters, and the path comes back
    from it, whatever characters its components have. *)
Theorem uri_roundtrip path :
  Forall scalar path → head path = Some 47%N →
  Forall (λ c, (c < 128)%N) (path_to_file_uri path) ∧ file_uri_to_path (path_to_file_uri path) = Some path.
Proof.
  intros Hs Hhead. pose proof (as_bytes_small path Hs) as Hb. pose proof (encode_ascii _ Hb) as Ha.
  split.
  { unfold path_to_file_uri. apply Forall_app. split; [|done]. by repeat constructor. }
  unfold path_to_file_uri, file_uri_to_path. rewrite strip_prefix_app. cbn [mbind option_bind].
  destruct path as [|c path]; [done|]. injection Hhead as ->.
  assert (Hslash : ∃ t, percent_encode (47%N :: path) = 47%N :: t) by (by eexists).
  destruct Hslash as [t Ht]. rewrite Ht. simpl position. cbn [mbind option_bind take drop]. rewrite <- Ht. simpl.
  unfold percent_decode, percent_encode in *. rewrite as_bytes_ascii by done. rewrite decode_encode by done. simpl.
  by rewrite from_utf8_as_bytes.
Qed.

Definition sample_path : str := lit "/home/my docs/" ++ [28779; 46; 115]%N.
Lemma uri_roundtrip_witness :
  path_to_file_uri sample_path = lit "file:///home/my%20docs/%E7%81%AB.s" ∧
  file_uri_to_path (path_to_file_uri sample_path) = Some sample_path.
Proof.
  split; [reflexivity|]. apply (uri_roundtrip sample_path); [|reflexivity].
  repeat (constructor; [left; reflexivity|]). constructor.
Defined.
End Uri.
