(* ===== verification/ParseCache.v ===== *)
(** * The parse cache of the language server ([crates/surtr-analysis/src/parse_cache.rs])

    Clones of the analysis service share one cache behind a lock, which they release while
    they parse.  A call is therefore two critical sections with the parser in between, and
    the calls of several threads interleave between them.  The parser itself is an interface;
    the theorem is that no interleaving is visible in an answer, and that the cache stays
    small and holds one entry per document. *)

From S2P Require Import Prelude Names ListHandle Value ParseError.

(** ** Inputs ([crates/sindr/src/policy.rs]) *)

Inductive CompileUnitKind : Type := UnitScript | UnitDefinitionCheck | UnitProject | UnitRepl.
Inductive SourceKind : Type :=
| KindScript
| KindDefinitionSource
| KindStdDefinitionSource
| KindProjectConfigSource
| KindReplChunk.

#[export] Instance CompileUnitKind_eq_dec : EqDecision CompileUnitKind.
Proof. solve_decision. Defined.
#[export] Instance SourceKind_eq_dec : EqDecision SourceKind.
Proof. solve_decision. Defined.

Record ParseInput : Type := mkParseInput {
  in_source : str;
  in_source_id : N;
  in_source_kind : SourceKind;
  in_compile_unit_kind : CompileUnitKind;
  in_module_path : option str;
}.
#[export] Instance ParseInput_eq_dec : EqDecision ParseInput.
Proof. solve_decision. Defined.

(** What the tolerant parser returns; its tokens, outline and cursor context are passed on. *)
Record TolerantParseResult (Asts Diagnostic Rest : Type) : Type := mkTolerant {
  tr_ast : Asts; tr_diagnostics : list Diagnostic; tr_rest : Rest;
}.
Arguments mkTolerant {Asts Diagnostic Rest}.
Arguments tr_ast {Asts Diagnostic Rest}.
Arguments tr_diagnostics {Asts Diagnostic Rest}.
Arguments tr_rest {Asts Diagnostic Rest}.

(** The parser, as the cache calls it. *)
Class DocumentParser : Type := {
  Asts : Type;
  Diagnostic : Type;
  Rest : Type;
  no_asts : Asts;
  parse_document : ParseInput → Result ParseError Asts;
  parse_document_tolerant : ParseInput → option nat → TolerantParseResult Asts Diagnostic Rest;
  materialize_reflections : Asts → str → option str → Result ParseError Asts;
  diagnostic_of : ParseError → Diagnostic;
}.

Module ParseCache.
Section Cache.
Context `{DocumentParser}.

Definition MAX_CACHED_DOCUMENTS : nat := 64.

Abbreviation Strict_ := (Result ParseError Asts).
Abbreviation Tolerant_ := (TolerantParseResult Asts Diagnostic Rest).

Record CachedDocument : Type := mkCachedDocument {
  cd_path : str;
  cd_source : str;
  cd_source_id : N;
  cd_source_kind : SourceKind;
  cd_compile_unit_kind : CompileUnitKind;
  cd_module_path : option str;
  cd_strict : option Strict_;
  cd_tolerant : option (option nat * Tolerant_);
}.

(** [CachedDocument::matches]. *)
Definition matches (d : CachedDocument) (input : ParseInput) : bool :=
  bool_decide (cd_source d = in_source input) && bool_decide (cd_source_id d = in_source_id input)
  && bool_decide (cd_source_kind d = in_source_kind input)
  && bool_decide (cd_compile_unit_kind d = in_compile_unit_kind input)
  && bool_decide (cd_module_path d = in_module_path input).

Definition with_strict (d : CachedDocument) (r : Strict_) : CachedDocument :=
  mkCachedDocument (cd_path d) (cd_source d) (cd_source_id d) (cd_source_kind d) (cd_compile_unit_kind d)
    (cd_module_path d) (Some r) (cd_tolerant d).
Definition with_tolerant (d : CachedDocument) (cursor : option nat) (r : Tolerant_) : CachedDocument :=
  mkCachedDocument (cd_path d) (cd_source d) (cd_source_id d) (cd_source_kind d) (cd_compile_unit_kind d)
    (cd_module_path d) (cd_strict d) (Some (cursor, r)).

Definition fresh_document (path : str) (input : ParseInput) : CachedDocument :=
  mkCachedDocument path (in_source input) (in_source_id input) (in_source_kind input)
    (in_compile_unit_kind input) (in_module_path input) None None.

(** [VecDeque::remove]. *)
Definition remove_at {A} (i : nat) (l : list A) : list A := take i l ++ drop (S i) l.

(** [ParseEntries::current]: the entry of the document moves to the front, or a fresh one
    takes its place; the result is the front and what is behind it. *)
Definition current (path : str) (input : ParseInput) (documents : list CachedDocument) :
    Run (CachedDocument * list CachedDocument) :=
  let found := position (λ entry, bool_decide (cd_path entry = path)) documents in
  let previous := i ← found; documents !! i in
  let documents := match found with Some i => remove_at i documents | None => documents end in
  let current :=
    match previous with
    | Some entry => if matches entry input then entry else fresh_document path input
    | None => fresh_document path input
    end in
  match take MAX_CACHED_DOCUMENTS (current :: documents) with
  | d :: rest => Ok (d, rest)
  | [] => Err PExpect
  end.

(** What [strict] and [tolerant] compute when nothing is cached. *)
Definition strict_result (path : str) (input : ParseInput) : Strict_ :=
  let? ast := parse_document input in materialize_reflections ast (in_source input) (Some path).

Definition tolerant_result (path : str) (input : ParseInput) (cursor : option nat) : Tolerant_ :=
  let result := parse_document_tolerant input cursor in
  match materialize_reflections (tr_ast result) (in_source input) (Some path) with
  | Ok ast => mkTolerant ast (tr_diagnostics result) (tr_rest result)
  | Err error => mkTolerant no_asts (tr_diagnostics result ++ [diagnostic_of error]) (tr_rest result)
  end.

(** ** Calls and their critical sections *)

Inductive call : Type :=
| CallStrict (path : str) (input : ParseInput)
| CallTolerant (path : str) (input : ParseInput) (cursor : option nat)
| CallRemove (path : str).

Inductive answer : Type :=
| AnswerStrict (r : Strict_)
| AnswerTolerant (r : Tolerant_)
| AnswerUnit.

(** A call before its first critical section, after a miss with its own result in hand, and
    when it has returned. *)
Inductive phase : Type :=
| Called (c : call)
| StoreStrict (path : str) (input : ParseInput) (r : Strict_)
| StoreTolerant (path : str) (input : ParseInput) (cursor : option nat) (r : Tolerant_)
| Returned (a : answer).

(** The next critical section of a call. *)
Definition section (ph : phase) (documents : list CachedDocument) : Run (list CachedDocument * phase) :=
  match ph with
  | Called (CallStrict path input) =>
      let? '(d, rest) := current path input documents in
      Ok (d :: rest, match cd_strict d with
                     | Some cached => Returned (AnswerStrict cached)
                     | None => StoreStrict path input (strict_result path input)
                     end)
  | StoreStrict path input r =>
      let? '(d, rest) := current path input documents in
      Ok (with_strict d r :: rest, Returned (AnswerStrict r))
  | Called (CallTolerant path input cursor) =>
      let? '(d, rest) := current path input documents in
      Ok (d :: rest, match cd_tolerant d with
                     | Some (cursor', parsed) =>
                         if bool_decide (cursor' = cursor) then Returned (AnswerTolerant parsed)
                         else StoreTolerant path input cursor (tolerant_result path input cursor)
                     | None => StoreTolerant path input cursor (tolerant_result path input cursor)
                     end)
  | StoreTolerant path input cursor r =>
      let? '(d, rest) := current path input documents in
      Ok (with_tolerant d cursor r :: rest, Returned (AnswerTolerant r))
  | Called (CallRemove path) =>
      Ok (filter (λ entry, cd_path entry ≠ path) documents, Returned AnswerUnit)
  | Returned a => Ok (documents, Returned a)
  end.

(** ** Interleavings: the shared cache and the calls made so far *)

Record service : Type := mkService { sv_documents : list CachedDocument; sv_calls : list (call * phase) }.

Inductive event : Type :=
| Start (c : call)
| Run_ (i : nat).

Definition deliver (e : event) (s : service) : Run service :=
  match e with
  | Start c => Ok (mkService (sv_documents s) (sv_calls s ++ [(c, Called c)]))
  | Run_ i =>
      match sv_calls s !! i with
      | None => Ok s
      | Some (c, ph) =>
          let? '(documents, ph') := section ph (sv_documents s) in
          Ok (mkService documents (<[i := (c, ph')]> (sv_calls s)))
      end
  end.

Fixpoint schedule (events : list event) (s : service) : Run service :=
  match events with
  | [] => Ok s
  | e :: events' => let? s' := deliver e s in schedule events' s'
  end.

Definition idle : service := mkService [] [].

(** The answer of a call on its own. *)
Definition answer_of (c : call) : answer :=
  match c with
  | CallStrict path input => AnswerStrict (strict_result path input)
  | CallTolerant path input cursor => AnswerTolerant (tolerant_result path input cursor)
  | CallRemove _ => AnswerUnit
  end.

(** ** The invariant *)

Definition input_of (d : CachedDocument) : ParseInput :=
  mkParseInput (cd_source d) (cd_source_id d) (cd_source_kind d) (cd_compile_unit_kind d) (cd_module_path d).

Definition document_ok (d : CachedDocument) : Prop :=
  (∀ r, cd_strict d = Some r → r = strict_result (cd_path d) (input_of d)) ∧
  (∀ cursor r, cd_tolerant d = Some (cursor, r) → r = tolerant_result (cd_path d) (input_of d) cursor).

Record cache_ok (documents : list CachedDocument) : Prop := {
  ok_documents : Forall document_ok documents;
  ok_paths : NoDup (cd_path <$> documents);
  ok_size : length documents ≤ MAX_CACHED_DOCUMENTS;
}.

Definition phase_ok (c : call) (ph : phase) : Prop :=
  match ph with
  | Called c' => c' = c
  | StoreStrict path input r => c = CallStrict path input ∧ r = strict_result path input
  | StoreTolerant path input cursor r => c = CallTolerant path input cursor ∧ r = tolerant_result path input cursor
  | Returned a => a = answer_of c
  end.

Lemma matches_input d input : matches d input = true → input_of d = input.
Proof.
  unfold matches. rewrite !andb_true_iff, !bool_decide_eq_true.
  destruct d, input. unfold input_of. simpl. naive_solver.
Qed.

Lemma fresh_ok path input : document_ok (fresh_document path input).
Proof. by split. Qed.

(** The entry at the front answers for the input at hand, and nothing else changes. *)
Lemma current_spec path input documents :
  cache_ok documents →
  ∃ d rest, current path input documents = Ok (d, rest) ∧
    document_ok d ∧ cd_path d = path ∧ input_of d = input ∧
    Forall document_ok rest ∧ NoDup (path :: (cd_path <$> rest)) ∧ S (length rest) ≤ MAX_CACHED_DOCUMENTS.
Proof.
  intros [Hd Hp Hs]. unfold current.
  assert (Hrest : ∀ others, Forall document_ok others → NoDup (path :: (cd_path <$> others)) →
    ∀ d, document_ok d → cd_path d = path → input_of d = input →
    ∃ d' rest, match take MAX_CACHED_DOCUMENTS (d :: others) with d0 :: r => Ok (d0, r) | [] => Err PExpect end = Ok (d', rest) ∧
      document_ok d' ∧ cd_path d' = path ∧ input_of d' = input ∧
      Forall document_ok rest ∧ NoDup (path :: (cd_path <$> rest)) ∧ S (length rest) ≤ MAX_CACHED_DOCUMENTS).
  { intros others Ho Hn d Hdok Hdp Hdi. exists d, (take 63 others). split_and!; [done..| | |].
    - by apply Forall_take.
    - rewrite <- (take_drop 63 others), fmap_app, app_comm_cons in Hn. by apply NoDup_app in Hn as [? _].
    - rewrite length_take. unfold MAX_CACHED_DOCUMENTS. lia. }
  assert (Hf : document_ok (fresh_document path input) ∧ cd_path (fresh_document path input) = path ∧
               input_of (fresh_document path input) = input) by (by destruct input).
  destruct (position _ documents) as [i|] eqn:Hi; simpl.
  - apply position_Some in Hi as (d & Hi & Hpath & _). apply bool_decide_eq_true in Hpath.
    pose proof (list_elem_of_split_length _ _ _ Hi) as (a & b & -> & ->).
    unfold remove_at. rewrite list_lookup_middle, take_app_length by done.
    replace (drop (S (length a)) (a ++ d :: b)) with b by (by rewrite cons_middle, app_assoc, drop_app_length' by (rewrite length_app; simpl; lia)).
    apply Forall_app in Hd as [Ha [Hdd Hb]%Forall_cons]. rewrite fmap_app, fmap_cons in Hp.
    apply Hrest.
    + by apply Forall_app.
    + rewrite fmap_app, <- Hpath. by rewrite Permutation_middle.
    + destruct (matches d input); [done|apply Hf].
    + destruct (matches d input); [done|apply Hf].
    + destruct (matches d input) eqn:E; [by apply matches_input|apply Hf].
  - apply Hrest; [done| |apply Hf..]. constructor; [|done]. intros (d & Hpath & Hin)%list_elem_of_fmap.
    apply list_elem_of_lookup in Hin as [j Hj]. clear -Hi Hj Hpath. revert j Hj.
    induction documents as [|x l IH]; intros j Hj; [done|]. simpl in Hi.
    case_bool_decide as E; [done|]. destruct (position _ l) eqn:El; [done|].
    destruct j as [|j]; simpl in Hj; [by simplify_eq|]. by apply (IH eq_refl j).
Qed.

Lemma front_ok d rest path :
  document_ok d → cd_path d = path → Forall document_ok rest → NoDup (path :: (cd_path <$> rest)) →
  S (length rest) ≤ MAX_CACHED_DOCUMENTS → cache_ok (d :: rest).
Proof. intros ? <- ???. constructor; [by constructor|done|simpl; lia]. Qed.

Lemma section_ok c ph documents :
  cache_ok documents → phase_ok c ph →
  ∃ documents' ph', section ph documents = Ok (documents', ph') ∧ cache_ok documents' ∧ phase_ok c ph'.
Proof.
  intros Hc Hph. destruct ph as [[path input|path input cursor|path]|path input r|path input cursor r|a]; simpl in Hph.
  1, 2, 4, 5: destruct (current_spec path input documents Hc)
    as (d & rest & Hcur & [Hs Ht] & Hpath & Hin & Hrest & Hnd & Hlen); cbn [section]; rewrite Hcur; simpl.
  - subst c. do 2 eexists. split; [done|]. split; [by eapply front_ok|].
    destruct (cd_strict d) eqn:E; simpl; [|done]. f_equal. rewrite <- Hin, <- Hpath. by apply Hs.
  - subst c. do 2 eexists. split; [done|]. split; [by eapply front_ok|].
    destruct (cd_tolerant d) as [[cursor' r]|] eqn:E; simpl; [|done].
    case_bool_decide; simpl; [|done]. subst cursor'. f_equal. rewrite <- Hin, <- Hpath. by apply Ht.
  - destruct Hph as [-> ->]. do 2 eexists. split; [done|]. split; [|done]. eapply front_ok; [|done..].
    split; [|done]. intros r [= <-]. by rewrite <- Hpath, <- Hin.
  - destruct Hph as [-> ->]. do 2 eexists. split; [done|]. split; [|done]. eapply front_ok; [|done..].
    split; [done|]. intros cursor' r [= <- <-]. by rewrite <- Hpath, <- Hin.
  - subst c. do 2 eexists. split; [done|]. split; [|done]. destruct Hc as [Hd Hp Hs]. constructor.
    + apply Forall_forall. intros x [_ Hx]%list_elem_of_filter. rewrite Forall_forall in Hd. by apply Hd.
    + clear -Hp. induction documents as [|d l IH]; [done|]. rewrite fmap_cons in Hp. apply NoDup_cons in Hp as [Hn Hp].
      rewrite filter_cons. case_decide; [|by apply IH]. rewrite fmap_cons. constructor; [|by apply IH].
      intros (x & Hx & [_ Hin]%list_elem_of_filter)%list_elem_of_fmap. apply Hn. apply list_elem_of_fmap. by exists x.
    + etransitivity; [apply length_filter|done].
  - do 2 eexists. by split_and!.
Qed.

Definition service_ok (s : service) : Prop :=
  cache_ok (sv_documents s) ∧ Forall (λ '(c, ph), phase_ok c ph) (sv_calls s).

Lemma schedule_ok events : ∀ s, service_ok s → ∃ s', schedule events s = Ok s' ∧ service_ok s'.
Proof.
  induction events as [|e events IH]; intros s Hs; [by exists s|]. cbn [schedule].
  assert (∃ s', deliver e s = Ok s' ∧ service_ok s') as (s' & -> & Hs').
  { destruct Hs as [Hc Hcalls]. destruct e as [c|i]; cbn [deliver].
    - eexists. split; [done|]. split; [done|]. simpl. apply Forall_app. split; [done|]. by repeat constructor.
    - destruct (sv_calls s !! i) as [[c ph]|] eqn:Hi; [|by exists s].
      rewrite Forall_lookup in Hcalls. pose proof (Hcalls _ _ Hi) as Hph.
      destruct (section_ok c ph _ Hc Hph) as (documents' & ph' & -> & Hc' & Hph'). simpl.
      eexists. split; [done|]. split; [done|]. simpl. apply Forall_insert; [|done]. by apply Forall_lookup. }
  by apply IH.
Qed.

(** ** Every call returns *)

(** The critical sections a call still has to go through. *)
Definition sections_left (ph : phase) : nat :=
  match ph with Called _ => 2 | StoreStrict _ _ _ | StoreTolerant _ _ _ _ => 1 | Returned _ => 0 end.

Lemma section_progress ph documents documents' ph' :
  section ph documents = Ok (documents', ph') → sections_left ph' ≤ sections_left ph - 1.
Proof.
  destruct ph as [[path input|path input cursor|path]|path input r|path input cursor r|a]; cbn [section].
  1, 2, 4, 5: destruct (current path input documents) as [[d rest]|]; simpl; [|done].
  all: intros [= <- <-]; simpl; repeat case_match; simpl; lia.
Qed.

(** How often call [i] gets a turn. *)
Definition is_turn (i : nat) (e : event) : bool :=
  match e with Run_ j => bool_decide (j = i) | Start _ => false end.
Definition turns (i : nat) (events : list event) : nat := length (filter (λ e, is_turn i e = true) events).

Lemma deliver_turn i c ph e s s' :
  deliver e s = Ok s' → sv_calls s !! i = Some (c, ph) →
  ∃ ph', sv_calls s' !! i = Some (c, ph') ∧ sections_left ph' ≤ sections_left ph - (if is_turn i e then 1 else 0).
Proof.
  intros Hd Hi. destruct e as [c'|j]; cbn [deliver is_turn] in *.
  - injection Hd as <-. exists ph. simpl. rewrite lookup_app_l by (by eapply lookup_lt_Some). split; [done|lia].
  - destruct (sv_calls s !! j) as [[c' phj]|] eqn:Hj.
    2: { injection Hd as <-. rewrite bool_decide_eq_false_2 by congruence. exists ph. split; [done|lia]. }
    apply rbind_Ok in Hd as ([documents ph'] & Hs & [= <-]). simpl. case_bool_decide as E.
    + subst j. rewrite Hi in Hj. simplify_eq. exists ph'. rewrite list_lookup_insert_eq by (by eapply lookup_lt_Some).
      split; [done|]. by eapply section_progress.
    + exists ph. rewrite list_lookup_insert_ne by done. split; [done|lia].
Qed.

Lemma schedule_turns i c events : ∀ ph s s',
  schedule events s = Ok s' → sv_calls s !! i = Some (c, ph) →
  ∃ ph', sv_calls s' !! i = Some (c, ph') ∧ sections_left ph' ≤ sections_left ph - turns i events.
Proof.
  induction events as [|e events IH]; intros ph s s' Hs Hi; cbn [schedule] in *.
  { injection Hs as <-. exists ph. split; [done|unfold turns; simpl; lia]. }
  apply rbind_Ok in Hs as (s1 & H1 & Hs). destruct (deliver_turn i c ph e s s1 H1 Hi) as (ph1 & Hi1 & Hl1).
  destruct (IH ph1 s1 s' Hs Hi1) as (ph' & Hi' & Hl'). exists ph'. split; [done|].
  unfold turns in *. rewrite filter_cons. destruct (is_turn i e); simpl; lia.
Qed.

Lemma schedule_app a b s : schedule (a ++ b) s = (let? s' := schedule a s in schedule b s').
Proof. revert s. induction a as [|e a IH]; intros s; [done|]. simpl. by destruct (deliver e s); simpl. Qed.

(** C40: however calls from any number of threads interleave, no critical section panics,
    the cache holds at most its maximal number of documents, each once, and what it holds
    is what parsing that document gives.  A call that was made at any time returns after
    two turns, whatever the other calls do in between, and what it returns is the result
    of parsing its own input, as if there were no cache. *)
Theorem cache_transparent before :
  ∃ s, schedule before idle = Ok s ∧ cache_ok (sv_documents s) ∧
    ∀ after i c ph, sv_calls s !! i = Some (c, ph) → 2 ≤ turns i after →
    ∃ s', schedule (before ++ after) idle = Ok s' ∧ sv_calls s' !! i = Some (c, Returned (answer_of c)).
Proof.
  assert (H0 : service_ok idle) by (split; [constructor; [constructor|constructor|simpl; lia]|constructor]).
  destruct (schedule_ok before idle H0) as (s & Hs & Hok). exists s. split_and!; [done|apply Hok|].
  intros after i c ph Hi Ht. destruct (schedule_ok after s Hok) as (s' & Hs' & [_ Hcalls]). exists s'.
  rewrite schedule_app, Hs. split; [done|].
  destruct (schedule_turns i c after ph s s' Hs' Hi) as (ph' & Hi' & Hl).
  rewrite Forall_lookup in Hcalls. pose proof (Hcalls _ _ Hi') as Hph.
  assert (sections_left ph' = 0) as Hz by (destruct ph as [?|? ? ?|? ? ? ?|?]; simpl in Hl; lia).
  rewrite Hi'. destruct ph'; try discriminate Hz. simpl in Hph. by subst.
Qed.
End Cache.

(** A parser that numbers the characters of a document, and two threads that parse the same
    document, one of them after an edit. *)
Definition sample_document_parser : DocumentParser := {|
  Asts := nat; Diagnostic := unit; Rest := unit; no_asts := 0;
  parse_document i := Ok (length (in_source i));
  parse_document_tolerant i _ := mkTolerant (length (in_source i)) [] tt;
  materialize_reflections a _ _ := Ok a;
  diagnostic_of _ := tt |}.
Definition sample_input (s : str) : ParseInput := mkParseInput s 0 KindScript UnitScript None.

Lemma cache_transparent_witness :
  ∃ s', schedule (H := sample_document_parser)
          ([Start (CallStrict (lit "a") (sample_input (lit "x"))); Run_ 0;
            Start (CallStrict (lit "a") (sample_input (lit "xy")))] ++ [Run_ 1; Run_ 0; Run_ 1; Run_ 0]) idle = Ok s' ∧
    sv_calls s' !! 0 = Some (CallStrict (lit "a") (sample_input (lit "x")),
                             Returned (AnswerStrict (H := sample_document_parser) (Ok 1))).
Proof.
  destruct (cache_transparent (H := sample_document_parser)
    [Start (CallStrict (lit "a") (sample_input (lit "x"))); Run_ 0; Start (CallStrict (lit "a") (sample_input (lit "xy")))])
    as (s & Hs & _ & Hafter).
  vm_compute in Hs. injection Hs as <-.
  eapply (Hafter _ 0); [reflexivity|]. vm_compute. lia.
Defined.
End ParseCache.
