(* ===== verification/HandlerBindings.v ===== *)
(** * Handler bindings of processes ([crates/eldr/src/vm/handler_bindings.rs])

    A process names the handlers it writes to.  Starting it acquires a binding context that
    maps its slots to handler pids; tasks derive contexts of their own from it, and every
    owner of a context holds one reference.  A file is opened when the first context needs
    it and flushed when the last one that needs it goes, and when several machines share the
    descriptor, by the last of them.  Writes to a file are queued per file and happen in the
    order in which they were accepted.

    The state is what the operations of the source reach: the registry [HandlerState] and the
    leases [ActiveFileSinks] of one machine, the file sinks and the identity counters that
    clones of the machine share, and the trace of the file operations.  The operating system
    is the argument [Os] of each operation. *)

From stdpp Require Import pretty.
From S2P Require Import Prelude Names ListHandle Value TypeRegistry OperandStack Ir FunctionTable RuntimeError.

(** ** Data *)

Inductive HandlerTarget : Type :=
| StdOut
| StdErr
| StdIn
| Null
| File (path : str).
#[export] Instance HandlerTarget_eq_dec : EqDecision HandlerTarget.
Proof. solve_decision. Defined.
#[export] Instance HandlerTarget_countable : Countable HandlerTarget.
Proof.
  refine (inj_countable'
    (λ t, match t with StdOut => inl 0 | StdErr => inl 1 | StdIn => inl 2 | Null => inl 3 | File p => inr p end)
    (λ x, match x with inl 0 => StdOut | inl 1 => StdErr | inl 2 => StdIn | inl _ => Null | inr p => File p end) _).
  by intros [].
Defined.

Inductive AcquisitionError : Type :=
| Metadata (error : RuntimeError)
| Open (path detail : str).

(** [active_vms] counts the machines that hold a lease of the open file. *)
Record FileSink : Type := mkFileSink { fs_path : str; fs_active_vms : nat }.

(** A [Weak] reference is the address of the identity it refers to. *)
Record HandlerBinding : Type := mkHandlerBinding { hb_identity : N; hb_target : HandlerTarget }.

Record BindingContext : Type := mkBindingContext {
  bc_slots : gmap (str * str) PidHandle;
  bc_sinks : list N;
  bc_references : nat;
}.

Section Request.
Context {Origin : Type}.
Record FileWriteRequest : Type := mkFileWriteRequest {
  fw_sink : N;
  fw_context : option N;
  fw_text : str;
  fw_origin : option Origin;
  fw_started : bool;
}.
End Request.
Arguments FileWriteRequest Origin : clear implicits.

Record HandlerIds : Type := mkHandlerIds { hi_binding : N; hi_context : N; hi_request : N }.

Record HandlerState (Origin : Type) : Type := mkHandlerState {
  deferred_cleanup : gmap N RuntimeError;
  requests : gmap N (FileWriteRequest Origin);
  queues : gmap N (list N);
  contexts : gmap N BindingContext;
  bindings : gmap N HandlerBinding;
  by_target : gmap HandlerTarget PidHandle;
  file_contexts : gmap N nat;
}.
Arguments mkHandlerState {Origin}.
Arguments deferred_cleanup {Origin}.
Arguments requests {Origin}.
Arguments queues {Origin}.
Arguments contexts {Origin}.
Arguments bindings {Origin}.
Arguments by_target {Origin}.
Arguments file_contexts {Origin}.

(** The calls of the operating system, as they were made. *)
Inductive IoEvent : Type :=
| IoOpen (sink : N)
| IoWrite (sink : N) (request : N) (text : str)
| IoFlush (sink : N).

Record Handlers (Origin : Type) : Type := mkHandlers {
  h_state : HandlerState Origin;
  h_active : gmap N N;
  h_sinks : gmap N FileSink;
  h_ids : HandlerIds;
  h_log : list IoEvent;
}.
Arguments mkHandlers {Origin}.
Arguments h_state {Origin}.
Arguments h_active {Origin}.
Arguments h_sinks {Origin}.
Arguments h_ids {Origin}.
Arguments h_log {Origin}.

(** What the operating system and the allocator do during one operation: paths, the file
    system, and the addresses of new identities and sinks. *)
Inductive metadata : Type := Exists_ | NotFound | MetadataError (error : str).
Record Os : Type := mkOs {
  path_is_absolute : str → bool;
  path_join : str → str → str;
  path_parent : str → option str;
  path_file_name : str → option str;
  symlink_metadata : str → metadata;
  canonicalize : str → Result str str;
  open_append : str → Result str unit;
  write_all : str → str → Result str unit;
  flush_file : str → Result str unit;
  identity_address : N → N;
}.

Module HandlerBindings.
Import RuntimeError.

(** ** Operations that change a state and may fail *)

Definition M (S E A : Type) : Type := S → S * Try E A.

#[export] Instance M_ret {S E} : MRet (M S E) := λ A a s, (s, Ok a).
#[export] Instance M_bind {S E} : MBind (M S E) := λ A B k m s,
  match m s with
  | (s', Ok a) => k a s'
  | (s', Err e) => (s', Err e)
  end.
Definition throw {S E A} (e : E) : M S E A := λ s, (s, Err (Failed e)).
Definition crash {S E A} (p : panic) : M S E A := λ s, (s, Err (Panicked p)).
Definition gets {S E A} (f : S → A) : M S E A := λ s, (s, Ok (f s)).
Definition modify {S E} (f : S → S) : M S E unit := λ s, (f s, Ok tt).
Definition of_option {S E A} (o : option A) (e : E) : M S E A :=
  match o with Some a => mret a | None => throw e end.
Definition of_result {S E A} (r : Result E A) : M S E A :=
  match r with Ok a => mret a | Err e => throw e end.
Definition expect_some {S E A} (o : option A) : M S E A :=
  match o with Some a => mret a | None => crash PExpect end.
Definition rewrap {S E E' A} (f : E → E') (m : M S E A) : M S E' A := λ s,
  let '(s', r) := m s in
  (s', match r with Ok a => Ok a | Err (Failed e) => Err (Failed (f e)) | Err (Panicked p) => Err (Panicked p) end).
(** A call whose error is kept as a value. *)
Definition catch {S E E' A} (m : M S E A) : M S E' (Result E A) := λ s,
  match m s with
  | (s', Ok a) => (s', Ok (Ok a))
  | (s', Err (Failed e)) => (s', Ok (Err e))
  | (s', Err (Panicked p)) => (s', Err (Panicked p))
  end.
Fixpoint for_all {S E A} (f : A → M S E unit) (l : list A) : M S E unit :=
  match l with
  | [] => mret tt
  | x :: l' => f x;; for_all f l'
  end.

Definition fail_with (message : string) : RuntimeError := new (lit message).
Definition cleanup_label : str := lit "handler cleanup".

Section Handlers.
Context {Origin : Type}.
Abbreviation Handlers := (Handlers Origin).
Abbreviation HM := (M Handlers RuntimeError).

(** ** Field updates *)

Definition set_state (f : HandlerState Origin → HandlerState Origin) (h : Handlers) : Handlers :=
  mkHandlers (f (h_state h)) (h_active h) (h_sinks h) (h_ids h) (h_log h).
Definition set_active (f : gmap N N → gmap N N) (h : Handlers) : Handlers :=
  mkHandlers (h_state h) (f (h_active h)) (h_sinks h) (h_ids h) (h_log h).
Definition set_sinks (f : gmap N FileSink → gmap N FileSink) (h : Handlers) : Handlers :=
  mkHandlers (h_state h) (h_active h) (f (h_sinks h)) (h_ids h) (h_log h).
Definition set_ids (x : HandlerIds) (h : Handlers) : Handlers :=
  mkHandlers (h_state h) (h_active h) (h_sinks h) x (h_log h).
Definition emit (e : IoEvent) (h : Handlers) : Handlers :=
  mkHandlers (h_state h) (h_active h) (h_sinks h) (h_ids h) (h_log h ++ [e]).

Definition set_contexts (f : gmap N BindingContext → gmap N BindingContext) (s : HandlerState Origin) :=
  mkHandlerState (deferred_cleanup s) (requests s) (queues s) (f (contexts s)) (bindings s) (by_target s) (file_contexts s).
Definition set_bindings (f : gmap N HandlerBinding → gmap N HandlerBinding) (s : HandlerState Origin) :=
  mkHandlerState (deferred_cleanup s) (requests s) (queues s) (contexts s) (f (bindings s)) (by_target s) (file_contexts s).
Definition set_by_target (f : gmap HandlerTarget PidHandle → gmap HandlerTarget PidHandle) (s : HandlerState Origin) :=
  mkHandlerState (deferred_cleanup s) (requests s) (queues s) (contexts s) (bindings s) (f (by_target s)) (file_contexts s).
Definition set_file_contexts (f : gmap N nat → gmap N nat) (s : HandlerState Origin) :=
  mkHandlerState (deferred_cleanup s) (requests s) (queues s) (contexts s) (bindings s) (by_target s) (f (file_contexts s)).
Definition set_requests (f : gmap N (FileWriteRequest Origin) → gmap N (FileWriteRequest Origin)) (s : HandlerState Origin) :=
  mkHandlerState (deferred_cleanup s) (f (requests s)) (queues s) (contexts s) (bindings s) (by_target s) (file_contexts s).
Definition set_queues (f : gmap N (list N) → gmap N (list N)) (s : HandlerState Origin) :=
  mkHandlerState (deferred_cleanup s) (requests s) (f (queues s)) (contexts s) (bindings s) (by_target s) (file_contexts s).

Definition on_state (f : HandlerState Origin → HandlerState Origin) : HM unit := modify (set_state f).

(** ** Identities ([HandlerIds]) *)

Definition next (n : N) : Result RuntimeError N :=
  if decide (n + 1 ≤ u64_max)%N then Ok (n + 1)%N else Err (fail_with "handler identity counter overflow").

Definition next_binding : HM N :=
  ids ← gets h_ids;
  n ← of_result (next (hi_binding ids));
  modify (set_ids (mkHandlerIds n (hi_context ids) (hi_request ids)));;
  mret n.
Definition next_context : HM N :=
  ids ← gets h_ids;
  n ← of_result (next (hi_context ids));
  modify (set_ids (mkHandlerIds (hi_binding ids) n (hi_request ids)));;
  mret n.
Definition next_request : HM N :=
  ids ← gets h_ids;
  n ← of_result (next (hi_request ids));
  modify (set_ids (mkHandlerIds (hi_binding ids) (hi_context ids) n));;
  mret n.

(** ** Targets *)

Definition target_name (t : HandlerTarget) : str :=
  match t with
  | StdOut => lit "StdOut"
  | StdErr => lit "StdErr"
  | StdIn => lit "StdIn"
  | Null => lit "NullOutHandler"
  | File path => lit "FileOutHandler(path=" ++ path ++ lit ")"
  end.

Definition cleanup (original : AcquisitionError) (error : RuntimeError) : AcquisitionError :=
  match original with
  | Metadata original => Metadata (retain_secondary_failure original error cleanup_label)
  | Open path detail => Open path (detail ++ lit "; handler cleanup: " ++ format_runtime_error error)
  end.

Definition resolve_target (os : Os) (target : RuntimeHandlerTarget) (cwd : str) : Result AcquisitionError HandlerTarget :=
  if bool_decide (ht_name target ≠ lit "FileOutHandler") then
    if bool_decide (ht_named_args target ≠ [])
    then Err (Metadata (fail_with "standard handler metadata takes no arguments"))
    else if bool_decide (ht_name target = lit "StdOut") then Ok StdOut
    else if bool_decide (ht_name target = lit "StdErr") then Ok StdErr
    else if bool_decide (ht_name target = lit "StdIn") then Ok StdIn
    else if bool_decide (ht_name target = lit "NullOutHandler") then Ok Null
    else Err (Metadata (new (lit "unknown handler metadata target " ++ ht_name target)))
  else
    match ht_named_args target with
    | [arg] =>
        if bool_decide (ha_name arg ≠ lit "path")
        then Err (Metadata (fail_with "FileOutHandler metadata requires the named argument path"))
        else
          let requested := ha_value arg in
          let absolute := if path_is_absolute os requested then requested else path_join os cwd requested in
          let? canonical :=
            match symlink_metadata os absolute with
            | Exists_ => map_err (Open requested) (canonicalize os absolute)
            | NotFound =>
                let? parent := ok_or (path_parent os absolute) (Open requested (lit "file path has no parent")) in
                let? leaf := ok_or (path_file_name os absolute) (Open requested (lit "file path has no leaf")) in
                match canonicalize os parent with
                | Ok parent => Ok (path_join os parent leaf)
                | Err error => Err (Open requested error)
                end
            | MetadataError error => Err (Open requested error)
            end in
          Ok (File canonical)
    | _ => Err (Metadata (fail_with "FileOutHandler metadata requires exactly the named argument path"))
    end.

(** ** Sinks and leases *)

(** [FileSink::open], at a fresh address. *)
Definition open_sink (os : Os) (path : str) : M Handlers str N :=
  of_result (open_append os path);;
  sinks ← gets h_sinks;
  let address := fresh (dom sinks) in
  modify (set_sinks (insert address (mkFileSink path 0)));;
  modify (emit (IoOpen address));;
  mret address.

(** A lease refers to a sink that exists: the sink is reference counted. *)
Definition deref {E} (address : N) : M Handlers E FileSink := sink ← gets (λ h, h_sinks h !! address); expect_some sink.

(** [ActiveFileLease::acquire]. *)
Definition lease_acquire {E} (address : N) : M Handlers E unit :=
  sink ← deref address;
  count ← expect_some (usize_checked_add (fs_active_vms sink) 1);
  modify (set_sinks (insert address (mkFileSink (fs_path sink) count))).

Definition flush {E} (os : Os) (address : N) (sink : FileSink) : M Handlers E (Result str unit) :=
  modify (emit (IoFlush address));;
  mret (flush_file os (fs_path sink)).

(** [ActiveFileLease::release]. *)
Definition lease_release (os : Os) (address : N) : HM unit :=
  sink ← deref address;
  count ← expect_some (usize_checked_sub (fs_active_vms sink) 1);
  result ← (if decide (count = 0) then flush os address sink else mret (Ok tt));
  modify (set_sinks (insert address (mkFileSink (fs_path sink) count)));;
  match result with
  | Ok _ => mret tt
  | Err error =>
      throw (set_details (λ ds, ds ++ [lit "file_out_cleanup_path=" ++ fs_path sink])
        (with_kind (lit "FileOutHandler flush failed for " ++ fs_path sink ++ lit ": " ++ error) ProcessLifecycleFailed))
  end.

(** [Drop for ActiveFileLease]: a failed flush is only reported on the terminal. *)
Definition lease_drop {E} (os : Os) (address : N) : M Handlers E unit :=
  sink ← deref address;
  count ← expect_some (usize_checked_sub (fs_active_vms sink) 1);
  modify (set_sinks (insert address (mkFileSink (fs_path sink) count)));;
  if decide (count = 0) then flush os address sink;; mret tt else mret tt.

(** [active.0.insert(id, lease)]: a lease that was there is dropped. *)
Definition insert_lease {E} (os : Os) (id address : N) : M Handlers E unit :=
  lease_acquire address;;
  old ← gets (λ h, h_active h !! id);
  modify (set_active (insert id address));;
  match old with Some a => lease_drop os a | None => mret tt end.

Definition merge_failure (first : option RuntimeError) (result : Result RuntimeError unit) : option RuntimeError :=
  match result with
  | Ok _ => first
  | Err error =>
      match first with
      | Some original => Some (retain_secondary_failure original error cleanup_label)
      | None => Some error
      end
  end.
Definition first_error (error : option RuntimeError) : HM unit :=
  match error with Some e => throw e | None => mret tt end.

(** ** Reading the registry *)

(** [HandlerState::target]. *)
Definition target (pid : PidHandle) (s : HandlerState Origin) : Result RuntimeError HandlerTarget :=
  if decide (pi_kind (pid_identity pid) ≠ PkHandler)
  then Err (fail_with "OutHandler requires a registered handler PID")
  else
    let? binding := ok_or (bindings s !! pi_id (pid_identity pid)) (fail_with "unregistered handler PID") in
    if decide (hb_identity binding = pid_ptr pid) then Ok (hb_target binding)
    else Err (fail_with "handler PID identity mismatch").

Definition handler (context : option N) (name slot : str) (s : HandlerState Origin) : Result RuntimeError PidHandle :=
  let? context := ok_or (id ← context; contexts s !! id)
    (fail_with "ctx handler lookup has no live binding context") in
  ok_or (bc_slots context !! (name, slot))
    (new (lit "handler slot `" ++ slot ++ lit "` is not bound for process `" ++ name ++ lit "`")).

Definition is_file (t : HandlerTarget) : bool := match t with File _ => true | _ => false end.

(** [binding.identity.strong_count() > 0]: the registry's own tables hold the identity, or
    [held] says that something else does. *)
Definition alive (held : N → bool) (s : HandlerState Origin) (address : N) : bool :=
  held address
  || existsb (λ p, bool_decide (pid_ptr p.2 = address)) (map_to_list (by_target s))
  || existsb (λ c, existsb (λ p, bool_decide (pid_ptr p.2 = address)) (map_to_list (bc_slots c.2)))
       (map_to_list (contexts s)).

Definition has_file_bindings (held : N → bool) (s : HandlerState Origin) : bool :=
  existsb (λ b, is_file (hb_target b.2) && alive held s (hb_identity b.2)) (map_to_list (bindings s)).

(** ** Acquiring a context *)

(** The variables that the loops of [acquire] fill. *)
Record Acquired : Type := mkAcquired {
  ac_slots : gmap (str * str) PidHandle; ac_sinks : gset N; ac_created : list N;
}.
Abbreviation AM := (M (Handlers * Acquired) AcquisitionError).

Definition inner {E A} (f : E → AcquisitionError) (m : M Handlers E A) : AM A := λ '(h, a),
  let '(h', r) := rewrap f m h in ((h', a), r).
Definition collect (f : Acquired → Acquired) : AM unit := modify (λ '(h, a), (h, f a)).

(** A sink of [pid] that the context will own, if it is a file. *)
Definition own_sink (pid : PidHandle) (closed : RuntimeError) : AM unit :=
  s ← gets (λ x, h_state x.1);
  t ← of_result (map_err Metadata (target pid s));
  if is_file t then
    active ← gets (λ x, h_active x.1);
    match active !! pi_id (pid_identity pid) with
    | None => throw (Metadata closed)
    | Some _ =>
        collect (λ a, mkAcquired (ac_slots a) ({[pi_id (pid_identity pid)]} ∪ ac_sinks a) (ac_created a))
    end
  else mret tt.

Definition create_binding (os : Os) (target : RuntimeHandlerTarget) (key : HandlerTarget) : AM PidHandle :=
  id ← inner Metadata next_binding;
  match key with
  | File path =>
      requested ← expect_some (ha_value <$> head (ht_named_args target));
      sink ← inner (Open requested) (open_sink os path);
      inner (λ e, e) (insert_lease os id sink)
  | _ => mret tt
  end;;
  let pid := mkPid (identity_address os id) (mkPidIdentity id (target_name key) PkHandler) in
  modify (λ '(h, a), (set_state (set_bindings (insert id (mkHandlerBinding (pid_ptr pid) key))) h, a));;
  modify (λ '(h, a), (set_state (set_by_target (insert key pid)) h, a));;
  collect (λ a, mkAcquired (ac_slots a) (ac_sinks a) (ac_created a ++ [id]));;
  mret pid.

Definition acquire_slot (os : Os) (name cwd : str) (entry : str * RuntimeHandlerTarget) : AM unit :=
  let '(slot, target) := entry in
  key ← of_result (resolve_target os target cwd);
  existing ← gets (λ x, by_target (h_state x.1) !! key);
  pid ← match existing with Some pid => mret pid | None => create_binding os target key end;
  own_sink pid (fail_with "registered FileOut sink has no active descriptor");;
  collect (λ a, mkAcquired (<[(name, slot) := pid]> (ac_slots a)) (ac_sinks a) (ac_created a)).

(** [BTreeSet] iterates in increasing order. *)
Definition ascending (s : gset N) : list N := merge_sort N.le (elements s).

Definition check_counts : AM unit :=
  x ← gets (λ x, x);
  for_all (λ sink,
    match usize_checked_add (default 0 (file_contexts (h_state x.1) !! sink)) 1 with
    | Some _ => mret tt
    | None => throw (Metadata (fail_with "handler context count overflow"))
    end) (ascending (ac_sinks x.2)).

Definition acquire_all (os : Os) (name : str) (targets : list (str * RuntimeHandlerTarget)) (captured : list PidHandle)
    (cwd : str) : AM unit :=
  for_all (acquire_slot os name cwd) targets;;
  for_all (λ pid, own_sink pid (fail_with "captured FileOut handler binding is closed")) captured;;
  check_counts.

(** Undoing a failed acquisition: the bindings it created go, and their files are closed. *)
Fixpoint abandon (os : Os) (created : list N) (error : AcquisitionError) : M Handlers AcquisitionError AcquisitionError :=
  match created with
  | [] => mret error
  | id :: rest =>
      binding ← gets (λ h, bindings (h_state h) !! id);
      binding ← expect_some binding;
      modify (set_state (set_bindings (delete id)));;
      modify (set_state (set_by_target (delete (hb_target binding))));;
      lease ← gets (λ h, h_active h !! id);
      match lease with
      | None => abandon os rest error
      | Some address =>
          modify (set_active (delete id));;
          result ← catch (lease_release os address);
          abandon os rest (match result with Ok _ => error | Err e => cleanup error e end)
      end
  end.

(** The context that a successful acquisition installs; nothing is installed when it needs none. *)
Definition install (context_id : N) (acquired : Acquired) : M Handlers AcquisitionError (option N) :=
  if bool_decide (ac_slots acquired = ∅ ∧ ac_sinks acquired = ∅) then mret None
  else
    let sinks := ascending (ac_sinks acquired) in
    let count (m : gmap N nat) (sink : N) := <[sink := S (default 0 (m !! sink))]> m in
    modify (set_state (set_file_contexts (λ m, foldl count m sinks)));;
    modify (set_state (set_contexts (insert context_id (mkBindingContext (ac_slots acquired) sinks 1))));;
    mret (Some context_id).

Definition acquire_or_abandon (os : Os) (context_id : N) (name : str) (targets : list (str * RuntimeHandlerTarget))
    (captured : list PidHandle) (cwd : str) : M Handlers AcquisitionError (option N) := λ h,
  let '((h', acquired), r) := acquire_all os name targets captured cwd (h, mkAcquired ∅ ∅ []) in
  match r with
  | Err (Panicked p) => (h', Err (Panicked p))
  | Err (Failed error) => (error ← abandon os (ac_created acquired) error; throw error) h'
  | Ok _ => install context_id acquired h'
  end.

(** [HandlerState::acquire]. *)
Definition acquire (os : Os) (held : N → bool) (name : str) (targets : list (str * RuntimeHandlerTarget))
    (captured : list PidHandle) (cwd : str) : M Handlers AcquisitionError (option N) :=
  context_id ← rewrap Metadata next_context;
  modify (set_state (λ s, set_bindings (filter (λ b, alive held s (hb_identity b.2) = true)) s));;
  acquire_or_abandon os context_id name targets captured cwd.

(** ** Sharing and releasing contexts *)

Definition retain (id : option N) : HM unit :=
  match id with
  | None => mret tt
  | Some id =>
      context ← gets (λ h, contexts (h_state h) !! id);
      context ← of_option context (fail_with "handler binding context disappeared");
      references ← of_option (usize_checked_add (bc_references context) 1) (fail_with "handler binding owner count overflow");
      on_state (set_contexts (insert id (mkBindingContext (bc_slots context) (bc_sinks context) references)))
  end.

Definition count_owner (sink : N) : HM unit :=
  count ← gets (λ h, file_contexts (h_state h) !! sink);
  count ← of_option count (fail_with "Task capture has no active handler owner");
  count ← of_option (usize_checked_add count 1) (fail_with "handler context count overflow");
  on_state (set_file_contexts (insert sink count)).

(** The captured pids that are files join the sinks of the origin. *)
Fixpoint captured_sinks (captured : list PidHandle) (s : HandlerState Origin) (active : gmap N N) (sinks : gset N) :
    Result RuntimeError (gset N) :=
  match captured with
  | [] => Ok sinks
  | pid :: rest =>
      let? t := target pid s in
      if is_file t then
        match active !! pi_id (pid_identity pid) with
        | None => Err (fail_with "captured FileOut handler binding is closed")
        | Some _ => captured_sinks rest s active ({[pi_id (pid_identity pid)]} ∪ sinks)
        end
      else captured_sinks rest s active sinks
  end.

Definition derive (origin : option N) (captured : list PidHandle) : HM (option N) :=
  s ← gets h_state;
  active ← gets h_active;
  origin_context ← match origin with
    | Some id =>
        context ← of_option (contexts s !! id) (fail_with "Task origin binding context disappeared");
        mret (Some context)
    | None => mret None
    end;
  let slots := match origin_context with Some c => bc_slots c | None => ∅ end in
  let own := match origin_context with Some c => bc_sinks c | None => [] end in
  sinks ← of_result (captured_sinks captured s active (list_to_set own));
  if bool_decide (origin = None ∧ sinks = ∅) then mret None
  else if bool_decide (origin ≠ None ∧ length own = size sinks) then retain origin;; mret origin
  else
    id ← next_context;
    for_all count_owner (ascending sinks);;
    on_state (set_contexts (insert id (mkBindingContext slots (ascending sinks) 1)));;
    mret (Some id).

(** One sink of a context that goes. *)
Definition release_sink (os : Os) (error : option RuntimeError) (sink : N) : HM (option RuntimeError) :=
  count ← gets (λ h, file_contexts (h_state h) !! sink);
  count ← of_option count (fail_with "handler sink owner count disappeared");
  count ← of_option (usize_checked_sub count 1) (fail_with "handler sink owner count underflow");
  on_state (set_file_contexts (insert sink count));;
  if decide (count = 0) then
    on_state (set_file_contexts (delete sink));;
    binding ← gets (λ h, bindings (h_state h) !! sink);
    binding ← of_option binding (fail_with "handler sink binding disappeared");
    on_state (set_by_target (delete (hb_target binding)));;
    lease ← gets (λ h, h_active h !! sink);
    address ← of_option lease (fail_with "active handler descriptor disappeared");
    modify (set_active (delete sink));;
    result ← catch (lease_release os address);
    mret (merge_failure error result)
  else mret error.

Fixpoint release_sinks (os : Os) (error : option RuntimeError) (sinks : list N) : HM (option RuntimeError) :=
  match sinks with
  | [] => mret error
  | sink :: rest => error ← release_sink os error sink; release_sinks os error rest
  end.

Definition release (os : Os) (id : option N) : HM unit :=
  match id with
  | None => mret tt
  | Some id =>
      context ← gets (λ h, contexts (h_state h) !! id);
      context ← of_option context (fail_with "handler binding context disappeared");
      references ← of_option (usize_checked_sub (bc_references context) 1) (fail_with "handler binding owner count underflow");
      on_state (set_contexts (insert id (mkBindingContext (bc_slots context) (bc_sinks context) references)));;
      if decide (references ≠ 0) then mret tt
      else
        on_state (set_contexts (delete id));;
        error ← release_sinks os None (bc_sinks context);
        first_error error
  end.

(** ** Leases of whole machines *)

(** A [BTreeMap] iterates in the order of its keys. *)
Definition key_le (a b : N * N) : Prop := (a.1 ≤ b.1)%N.
#[local] Instance key_le_dec a b : Decision (key_le a b).
Proof. unfold key_le. apply _. Defined.
Definition in_order (m : gmap N N) : list (N * N) := merge_sort key_le (map_to_list m).

(** [Clone] of the leases: one more machine holds every sink. *)
Definition clone_leases : HM unit :=
  active ← gets h_active;
  for_all (λ lease, lease_acquire lease.2) (in_order active).

Fixpoint release_leases (os : Os) (error : option RuntimeError) (addresses : list N) : HM (option RuntimeError) :=
  match addresses with
  | [] => mret error
  | address :: rest => result ← catch (lease_release os address); release_leases os (merge_failure error result) rest
  end.

(** [ActiveFileSinks::shutdown]. *)
Definition shutdown (os : Os) : HM unit :=
  active ← gets h_active;
  modify (set_active (λ _, ∅));;
  error ← release_leases os None (snd <$> in_order active);
  first_error error.

(** [ActiveFileSinks::checkpoint] and [restore]. *)
Definition checkpoint (h : Handlers) : gmap N N := h_active h.

Fixpoint restore_leases (saved : list (N * N)) : HM unit :=
  match saved with
  | [] => mret tt
  | (id, address) :: rest =>
      existing ← gets (λ h, h_active h !! id);
      match existing with
      | Some a =>
          if decide (a = address) then restore_leases rest
          else throw (fail_with "handler sink identity mismatch on rollback")
      | None => lease_acquire address;; modify (set_active (insert id address));; restore_leases rest
      end
  end.
Fixpoint remove_leases (os : Os) (error : option RuntimeError) (removed : list (N * N)) : HM (option RuntimeError) :=
  match removed with
  | [] => mret error
  | (id, address) :: rest =>
      modify (set_active (delete id));;
      result ← catch (lease_release os address);
      remove_leases os (merge_failure error result) rest
  end.
Definition restore (os : Os) (saved : gmap N N) : HM unit :=
  active ← gets h_active;
  error ← remove_leases os None (filter (λ lease, saved !! lease.1 = None) (in_order active));
  restore_leases (in_order saved);;
  first_error error.

(** ** Writing to files *)

(** What a write leads to: text for a terminal, nothing, a queued request, a finished write, or
    the language error [FileOutHandlerWriteFailed] raised at the call that was accepted. *)
Inductive write_outcome : Type :=
| Printed (to_stderr : bool) (text : str)
| Discarded
| Resume (request : N)
| Written
| WriteFailed (path detail : str) (origin : Origin).

Definition accept_file_write (pid : PidHandle) (text : str) (origin : option Origin) : HM write_outcome :=
  request ← next_request;
  context ← derive None [pid];
  let sink := pi_id (pid_identity pid) in
  on_state (set_requests (insert request (mkFileWriteRequest sink context text origin false)));;
  on_state (set_queues (λ m, <[sink := default [] (m !! sink) ++ [request]]> m));;
  mret (Resume request).

(** [out_handler_write] of [vm.rs]. *)
Definition out_handler_write (pid : PidHandle) (text : str) (origin : option Origin) : HM write_outcome :=
  s ← gets h_state;
  t ← of_result (target pid s);
  match t with
  | StdOut => mret (Printed false text)
  | StdErr => mret (Printed true text)
  | Null => mret Discarded
  | StdIn => throw (fail_with "StdIn is not an OutHandler")
  | File _ => accept_file_write pid text origin
  end.

Definition remove_request (id : N) : HM (FileWriteRequest Origin) :=
  request ← gets (λ h, requests (h_state h) !! id);
  request ← of_option request (fail_with "FileOut request disappeared");
  on_state (set_requests (delete id));;
  queue ← gets (λ h, queues (h_state h) !! fw_sink request);
  queue ← of_option queue (fail_with "FileOut request has no FIFO");
  let queue := if decide (head queue = Some id) then tail queue else filter (λ queued, queued ≠ id) queue in
  on_state (set_queues (if decide (queue = []) then delete (fw_sink request) else insert (fw_sink request) queue));;
  mret request.

Definition merge_handler_cleanup (original : RuntimeError) (cleanup : Result RuntimeError unit) : RuntimeError :=
  match cleanup with
  | Ok _ => original
  | Err error => retain_secondary_failure original error cleanup_label
  end.

Definition write_failure_detail (error : str) (cleanup : Result RuntimeError unit) : str :=
  match cleanup with
  | Ok _ => error
  | Err cleanup => error ++ lit "; handler cleanup: " ++ format_runtime_error cleanup
  end.

Definition write_to (os : Os) (address request : N) (text : str) : HM (str * Result str unit) :=
  sink ← deref address;
  modify (emit (IoWrite address request text));;
  mret (fs_path sink, write_all os (fs_path sink) text).

Definition resume_file_write (os : Os) (id : N) (incoming : option RuntimeError) : HM write_outcome :=
  s ← gets h_state;
  request ← of_option (requests s !! id) (fail_with "FileOut request resumed after completion");
  if negb (fw_started request) then
    match incoming with
    | Some error =>
        request ← remove_request id;
        cleanup ← catch (release os (fw_context request));
        throw (merge_handler_cleanup error cleanup)
    | None =>
        (if decide (queues s !! fw_sink request ≫= head = Some id)
         then on_state (set_requests (insert id
                (mkFileWriteRequest (fw_sink request) (fw_context request) (fw_text request) (fw_origin request) true)))
         else mret tt);;
        mret (Resume id)
    end
  else
    request ← remove_request id;
    lease ← gets (λ h, h_active h !! fw_sink request);
    address ← of_option lease (fail_with "accepted FileOut request lost descriptor");
    '(path, written) ← write_to os address id (fw_text request);
    cleanup ← catch (release os (fw_context request));
    match incoming, written with
    | Some original, Ok _ => throw (merge_handler_cleanup original cleanup)
    | Some original, Err error =>
        let original := set_details (λ ds, ds ++ [lit "file_out_cleanup_path=" ++ path;
          lit "FileOutHandlerWriteFailed(" ++ path ++ lit "): " ++ error]) original in
        throw (merge_handler_cleanup original cleanup)
    | None, Err error =>
        origin ← of_option (fw_origin request) (fail_with "FileOut Error generation has no source context");
        mret (WriteFailed path (write_failure_detail error cleanup) origin)
    | None, Ok _ => of_result cleanup;; mret Written
    end.

End Handlers.
End HandlerBindings.
