(* ===== verification/HandlerProps.v ===== *)
(** * The invariant of the handler bindings

    [handlers_ok] relates the tables of the registry to each other: how many contexts own a
    file, which files are open, who holds references to a context, how many machines share
    a descriptor.  Its ghost arguments are the leases of other machines, the references that
    the processes and tasks of this machine hold, and, inside of an operation, the files that
    are counted before or after the context that owns them exists.  The lemmas of this file
    show that every operation keeps it and does not panic. *)

From S2P Require Import Prelude Names ListHandle Value TypeRegistry OperandStack Ir FunctionTable RuntimeError.
From S2P Require Import HandlerBindings.
Import HandlerBindings.

(** ** Counting in maps *)

Section Count.
Context {A : Type} (P : A → bool).

Definition count (m : gmap N A) : nat := size (filter (λ p, P p.2 = true) m).

Lemma count_delete m i a : m !! i = Some a → count m = (if P a then 1 else 0) + count (delete i m).
Proof.
  intros Hi. unfold count. rewrite <- (insert_delete_id m i a Hi) at 1.
  destruct (P a) eqn:E.
  - rewrite map_filter_insert_True by done. rewrite map_size_insert_None; [done|].
    apply map_lookup_filter_None. left. apply lookup_delete_eq.
  - rewrite map_filter_insert_False by (simpl; congruence). by rewrite delete_delete_eq.
Qed.

Lemma count_insert m i a : m !! i = None → count (<[i := a]> m) = (if P a then 1 else 0) + count m.
Proof. intros Hi. rewrite (count_delete _ i a) by apply lookup_insert_eq. by rewrite delete_insert_id. Qed.

Lemma count_update m i a b :
  m !! i = Some a → P a = P b → count (<[i := b]> m) = count m.
Proof.
  intros Hi HP. rewrite (count_delete _ i b) by apply lookup_insert_eq. rewrite (count_delete m i a Hi), HP.
  by rewrite delete_insert_eq.
Qed.

Lemma count_pos m : 0 < count m ↔ ∃ i a, m !! i = Some a ∧ P a = true.
Proof.
  unfold count. split.
  - intros Hs. destruct (map_choose (filter (λ p, P p.2 = true) m)) as (i & a & Hi).
    { intros He. rewrite He, map_size_empty in Hs. lia. }
    apply map_lookup_filter_Some in Hi as [Hi Ha]. by exists i, a.
  - intros (i & a & Hi & Ha). destruct (decide (size (filter (λ p, P p.2 = true) m) = 0)) as [He|]; [|lia].
    apply map_size_empty_inv in He. exfalso. assert (Hf : filter (λ p, P p.2 = true) m !! i = Some a) by (by apply map_lookup_filter_Some).
    by rewrite He in Hf.
Qed.

Lemma count_le m : count m ≤ size m.
Proof.
  unfold count. rewrite <- !size_dom. apply subseteq_size, subseteq_dom, map_filter_subseteq.
Qed.
End Count.

(** ** Running an operation *)

Definition wp {S E A} (m : M S E A) (Q : S → Result E A → Prop) (s : S) : Prop :=
  match m s with
  | (s', Ok a) => Q s' (Ok a)
  | (s', Err (Failed e)) => Q s' (Err e)
  | (_, Err (Panicked _)) => False
  end.

Section Wp.
Context {S E : Type}.
Implicit Types s : S.

Lemma hwp_ret {A} (a : A) (Q : S → Result E A → Prop) s : Q s (Ok a) → wp (mret a) Q s.
Proof. done. Qed.
Lemma hwp_throw {A} (e : E) (Q : S → Result E A → Prop) s : Q s (Err e) → wp (throw e) Q s.
Proof. done. Qed.
Lemma hwp_bind {A B} (m : M S E A) (k : A → M S E B) (Q : S → Result E B → Prop) s :
  wp m (λ s' r, match r with Ok a => wp (k a) Q s' | Err e => Q s' (Err e) end) s → wp (m ≫= k) Q s.
Proof.
  unfold wp. change ((m ≫= k) s) with (match m s with (s', Ok a) => k a s' | (s', Err e) => (s', Err e) end).
  destruct (m s) as [s' [a|[p|e]]]; done.
Qed.
Lemma hwp_gets {A} (f : S → A) (Q : S → Result E A → Prop) s : Q s (Ok (f s)) → wp (gets f) Q s.
Proof. done. Qed.
Lemma wp_modify (f : S → S) (Q : S → Result E unit → Prop) s : Q (f s) (Ok tt) → wp (modify f) Q s.
Proof. done. Qed.
Lemma wp_of_option {A} (o : option A) (e : E) (Q : S → Result E A → Prop) s :
  (∀ a, o = Some a → Q s (Ok a)) → (o = None → Q s (Err e)) → wp (of_option o e) Q s.
Proof. destruct o; unfold wp; simpl; auto. Qed.
Lemma wp_of_result {A} (r : Result E A) (Q : S → Result E A → Prop) s : Q s r → wp (of_result r) Q s.
Proof. by destruct r. Qed.
Lemma wp_expect_some {A} (o : option A) (Q : S → Result E A → Prop) s a :
  o = Some a → Q s (Ok a) → wp (expect_some o) Q s.
Proof. by intros ->. Qed.
Lemma wp_catch {E' A} (m : M S E A) (Q : S → Result E' (Result E A) → Prop) s :
  wp m (λ s' r, Q s' (Ok r)) s → wp (catch m) Q s.
Proof. unfold wp, catch. by destruct (m s) as [s' [a|[p|e]]]. Qed.
Lemma wp_rewrap {E' A} (f : E → E') (m : M S E A) (Q : S → Result E' A → Prop) s :
  wp m (λ s' r, Q s' (match r with Ok a => Ok a | Err e => Err (f e) end)) s → wp (rewrap f m) Q s.
Proof. unfold wp, rewrap. by destruct (m s) as [s' [a|[p|e]]]. Qed.
Lemma hwp_mono {A} (m : M S E A) (P Q : S → Result E A → Prop) s :
  wp m P s → (∀ s' r, P s' r → Q s' r) → wp m Q s.
Proof. unfold wp. intros H HPQ. destruct (m s) as [s' [a|[p|e]]]; auto. Qed.
End Wp.

Create HintDb wp discriminated.
#[export] Hint Resolve hwp_ret hwp_throw hwp_gets wp_modify : wp.

(** Steps through the reads and updates of an operation. *)
Ltac wp_step :=
  match goal with
  | |- wp (mbind _ _) _ _ => apply hwp_bind
  | |- wp (mret _) _ _ => apply hwp_ret
  | |- wp (throw _) _ _ => apply hwp_throw
  | |- wp (gets _) _ _ => apply hwp_gets
  | |- wp (modify _) _ _ => apply wp_modify
  | |- wp (on_state _) _ _ => apply wp_modify
  end.
Ltac wp_steps := repeat wp_step.

(** ** The invariant *)

Section Invariant.
Context {Origin : Type}.
Implicit Types h : Handlers Origin.
Implicit Types s : HandlerState Origin.

(** How many contexts own a file, and how many references pending writes hold. *)
Definition owns (sink : N) (c : BindingContext) : bool := bool_decide (sink ∈ bc_sinks c).
Definition owner_count s (sink : N) : nat := count (owns sink) (contexts s).
Definition writes_in (id : N) (r : FileWriteRequest Origin) : bool := bool_decide (fw_context r = Some id).
Definition request_refs s (id : N) : nat := count (writes_in id) (requests s).
Definition leased (a : N) (m : gmap N N) : nat := count (λ b, bool_decide (b = a)) m.

(** [target pid s = Ok t], spelled out. *)
Definition registered s (pid : PidHandle) (t : HandlerTarget) : Prop :=
  pi_kind (pid_identity pid) = PkHandler ∧
  bindings s !! pi_id (pid_identity pid) = Some (mkHandlerBinding (pid_ptr pid) t).

Definition one (b : bool) : nat := if b then 1 else 0.

Record handlers_ok (others owned : N → nat) (pending created : gset N) h : Prop := {
  ok_counts : ∀ sink, default 0 (file_contexts (h_state h) !! sink) =
    owner_count (h_state h) sink + one (bool_decide (sink ∈ pending));
  ok_positive : ∀ sink, file_contexts (h_state h) !! sink ≠ Some 0;
  ok_open : ∀ sink, is_Some (h_active h !! sink) →
    0 < owner_count (h_state h) sink ∨ sink ∈ pending ∨ sink ∈ created;
  ok_owned_open : ∀ sink, 0 < owner_count (h_state h) sink ∨ sink ∈ pending → is_Some (h_active h !! sink);
  ok_target : ∀ key pid, by_target (h_state h) !! key = Some pid →
    registered (h_state h) pid key ∧ (is_file key = true → is_Some (h_active h !! pi_id (pid_identity pid)));
  ok_active : ∀ id a, h_active h !! id = Some a →
    ∃ path pid sk, by_target (h_state h) !! File path = Some pid ∧ pi_id (pid_identity pid) = id ∧
      h_sinks h !! a = Some sk ∧ fs_path sk = path;
  ok_inj : ∀ i j a, h_active h !! i = Some a → h_active h !! j = Some a → i = j;
  ok_leases : ∀ a sk, h_sinks h !! a = Some sk → fs_active_vms sk = others a + leased a (h_active h);
  ok_others : ∀ a, 0 < others a → is_Some (h_sinks h !! a);
  ok_context : ∀ id c, contexts (h_state h) !! id = Some c →
    NoDup (bc_sinks c) ∧ (1 ≤ id ≤ hi_context (h_ids h))%N ∧
    bc_references c = owned id + request_refs (h_state h) id ∧ 0 < bc_references c;
  ok_slots : ∀ id c key pid, contexts (h_state h) !! id = Some c → bc_slots c !! key = Some pid →
    ∃ t, registered (h_state h) pid t ∧ (is_file t = true → pi_id (pid_identity pid) ∈ bc_sinks c);
  ok_refs : ∀ id, 0 < owned id + request_refs (h_state h) id → is_Some (contexts (h_state h) !! id);
  ok_bindings : ∀ id b, bindings (h_state h) !! id = Some b → (id ≤ hi_binding (h_ids h))%N;
  ok_ids : (hi_context (h_ids h) ≤ u64_max)%N;
}.

Lemma target_registered s pid t : target pid s = Ok t ↔ registered s pid t.
Proof.
  unfold target, registered. case_decide as Hk; [naive_solver|].
  rewrite rbind_Ok. setoid_rewrite ok_or_Ok. split.
  - intros ([i t'] & Hb & H). case_decide; [|done]. simpl in *. split; [by destruct (pi_kind _)|]. congruence.
  - intros [_ Hb]. eexists. split; [done|]. simpl. by rewrite decide_True.
Qed.

(** The machine owns at most one lease of a file. *)
Lemma leased_active h others owned pending created id a :
  handlers_ok others owned pending created h → h_active h !! id = Some a → leased a (h_active h) = 1.
Proof.
  intros Hok Hi. unfold leased. rewrite (count_delete _ _ id a Hi), bool_decide_eq_true_2 by done.
  destruct (decide (count (λ b, bool_decide (b = a)) (delete id (h_active h)) = 0)); [lia|].
  exfalso. assert (Hp : 0 < count (λ b, bool_decide (b = a)) (delete id (h_active h))) by lia.
  apply count_pos in Hp as (j & b & Hj & Hb). apply bool_decide_eq_true in Hb as ->.
  apply lookup_delete_Some in Hj as [Hne Hj]. by apply Hne, (ok_inj _ _ _ _ _ Hok _ _ a).
Qed.

(** A file has fewer owners than contexts were ever numbered, as long as the last number is free. *)
Lemma owner_bound h others owned pending created sink :
  handlers_ok others owned pending created h → contexts (h_state h) !! hi_context (h_ids h) = None →
  (N.of_nat (owner_count (h_state h) sink) ≤ hi_context (h_ids h) - 1)%N.
Proof.
  intros Hok Hfree. unfold owner_count. pose proof (count_le (owns sink) (contexts (h_state h))) as Hc.
  assert (size (contexts (h_state h)) ≤ N.to_nat (hi_context (h_ids h) - 1)); [|lia].
  set (all := N.of_nat <$> seq 1 (N.to_nat (hi_context (h_ids h) - 1))).
  rewrite <- size_dom. transitivity (size (list_to_set all : gset N)).
  - apply subseteq_size. intros id [c Hid]%elem_of_dom. apply elem_of_list_to_set.
    destruct (ok_context _ _ _ _ _ Hok _ _ Hid) as (_ & Hb & _). apply list_elem_of_fmap. exists (N.to_nat id).
    rewrite N2Nat.id. split; [done|]. apply elem_of_seq.
    assert (id ≠ hi_context (h_ids h)) by congruence. lia.
  - rewrite size_list_to_set; [by unfold all; rewrite length_fmap, length_seq|].
    apply NoDup_fmap_2; [apply _|]. apply NoDup_seq.
Qed.

(** ** What operations on contexts leave alone: the queue of writes *)

(** The writes to a file, in the order in which they happened: the requests and their texts. *)
Definition written (a : N) (log : list IoEvent) : list (N * str) :=
  omap (λ e, match e with IoWrite a' r text => if decide (a' = a) then Some (r, text) else None | _ => None end) log.
Definition writes (a : N) (log : list IoEvent) : list N := (written a log).*1.

Record frame h h' : Prop := {
  fr_requests : requests (h_state h') = requests (h_state h);
  fr_queues : queues (h_state h') = queues (h_state h);
  fr_request_ids : hi_request (h_ids h') = hi_request (h_ids h);
  fr_written : ∀ a, written a (h_log h') = written a (h_log h);
  fr_sinks : ∀ a, is_Some (h_sinks h !! a) → is_Some (h_sinks h' !! a);
  fr_active : ∀ id a, h_active h' !! id = Some a → h_active h !! id = Some a ∨ h_sinks h !! a = None;
}.

Lemma frame_refl h : frame h h.
Proof. constructor; auto. Qed.

Lemma frame_trans h h1 h2 : frame h h1 → frame h1 h2 → frame h h2.
Proof.
  intros [] []. constructor; try congruence; try (intros; etransitivity; eauto; done); auto.
  intros id a Ha. destruct (fr_active1 _ _ Ha) as [Ha1|Ha1]; [by auto|]. right.
  apply eq_None_not_Some. intros Hs. apply fr_sinks0 in Hs. by rewrite Ha1 in Hs; destruct Hs.
Qed.

Lemma fr_writes h h' : frame h h' → ∀ a, writes a (h_log h') = writes a (h_log h).
Proof. intros Hf a. unfold writes. by rewrite (fr_written _ _ Hf). Qed.

Lemma written_app a l1 l2 : written a (l1 ++ l2) = written a l1 ++ written a l2.
Proof. apply omap_app. Qed.

Lemma writes_app a l1 l2 : writes a (l1 ++ l2) = writes a l1 ++ writes a l2.
Proof. unfold writes. by rewrite written_app, fmap_app. Qed.

(** An operation that only changes the state of the registry, not its queue. *)
Lemma frame_state h f :
  requests (f (h_state h)) = requests (h_state h) → queues (f (h_state h)) = queues (h_state h) →
  frame h (set_state f h).
Proof. constructor; simpl; auto. Qed.

(** ** Giving a file back *)

(** The machine's lease of a file is taken out of its table and released. *)
Definition closed (h : Handlers Origin) (id a : N) (sk : FileSink) : Handlers Origin :=
  mkHandlers (h_state h) (delete id (h_active h))
    (<[a := mkFileSink (fs_path sk) (fs_active_vms sk - 1)]> (h_sinks h)) (h_ids h)
    (h_log h ++ if decide (fs_active_vms sk = 1) then [IoFlush a] else []).

(** What a release can fail with: a flush that failed. *)
Definition flush_failure (os : Os) (e : RuntimeError) : Prop :=
  RuntimeError.kind e = ProcessLifecycleFailed ∧ ∃ path error, flush_file os path = Err error.

Lemma flush_failure_kind path error :
  RuntimeError.kind (RuntimeError.set_details (λ ds, ds ++ [lit "file_out_cleanup_path=" ++ path])
    (RuntimeError.with_kind (lit "FileOutHandler flush failed for " ++ path ++ lit ": " ++ error) ProcessLifecycleFailed))
  = ProcessLifecycleFailed.
Proof. reflexivity. Qed.

Lemma wp_lease_release os a sk h (Q : Handlers Origin → Result RuntimeError unit → Prop) :
  h_sinks h !! a = Some sk → 0 < fs_active_vms sk →
  (∀ r, (∀ e, r = Err e → flush_failure os e) →
     Q (mkHandlers (h_state h) (h_active h) (<[a := mkFileSink (fs_path sk) (fs_active_vms sk - 1)]> (h_sinks h)) (h_ids h)
         (h_log h ++ if decide (fs_active_vms sk = 1) then [IoFlush a] else [])) r) →
  wp (lease_release os a) Q h.
Proof.
  intros Ha Hpos HQ. unfold lease_release, deref. wp_steps. eapply wp_expect_some; [done|]. wp_steps.
  unfold usize_checked_sub. rewrite decide_True by lia. eapply wp_expect_some; [done|]. wp_steps.
  destruct (decide (fs_active_vms sk - 1 = 0)) as [H0|H0].
  - unfold flush. wp_steps. destruct (decide (fs_active_vms sk = 1)) as [_|]; [|lia].
    destruct (flush_file os (fs_path sk)) as [[]|error] eqn:Hf; wp_steps.
    + by apply (HQ (Ok tt)).
    + apply (HQ (Err _)). intros e [= <-]. split; [apply flush_failure_kind|by exists (fs_path sk), error].
  - wp_steps. destruct (decide (fs_active_vms sk = 1)) as [|_]; [lia|]. rewrite app_nil_r in HQ. by apply (HQ (Ok tt)).
Qed.

Lemma leased_delete (m : gmap N N) id a b :
  m !! id = Some a → leased b m = one (bool_decide (a = b)) + leased b (delete id m).
Proof. intros Hi. unfold leased. by rewrite (count_delete _ _ id a Hi). Qed.

(** Closing keeps the accounts of the other files, if the file is no longer listed. *)
Lemma closed_ok others owned P C h id a sk path s' :
  handlers_ok others owned P C h → h_active h !! id = Some a → h_sinks h !! a = Some sk →
  by_target (h_state h) !! File path ≫= (λ pid, Some (pi_id (pid_identity pid))) = Some id →
  (* the registry forgets the file, and nobody owns it *)
  contexts s' = contexts (h_state h) → requests s' = requests (h_state h) →
  (∀ i b, bindings s' !! i = Some b → bindings (h_state h) !! i = Some b) →
  (∀ p t, registered (h_state h) p t → pi_id (pid_identity p) ≠ id → registered s' p t) →
  (∀ i c key p t, contexts (h_state h) !! i = Some c → bc_slots c !! key = Some p →
     registered (h_state h) p t → registered s' p t) →
  by_target s' = delete (File path) (by_target (h_state h)) →
  (∀ sink, sink ≠ id → file_contexts s' !! sink = file_contexts (h_state h) !! sink) →
  file_contexts s' !! id = None → owner_count (h_state h) id = 0 →
  handlers_ok others owned (P ∖ {[id]}) (C ∖ {[id]}) (set_state (λ _, s') (closed h id a sk)).
Proof.
  intros Hok Hid Ha Hpath Hcs Hrs Hbs Hkeep Hkeep' Hts Hfs Hfid H0.
  assert (Howner : ∀ sink, owner_count s' sink = owner_count (h_state h) sink) by (intros; unfold owner_count; by rewrite Hcs).
  assert (Href : ∀ x, request_refs s' x = request_refs (h_state h) x) by (intros; unfold request_refs; by rewrite Hrs).
  apply bind_Some in Hpath as (pid & Hpid & [= Hpidid]).
  constructor; simpl.
  - intros sink. rewrite Howner. destruct (decide (sink = id)) as [->|Hne].
    + rewrite Hfid, H0. simpl. rewrite bool_decide_eq_false_2; [done|]. set_solver.
    + rewrite Hfs, (ok_counts _ _ _ _ _ Hok) by done. f_equal. f_equal. apply bool_decide_ext. set_solver.
  - intros sink. destruct (decide (sink = id)) as [->|Hne]; [by rewrite Hfid|].
    rewrite Hfs by done. apply (ok_positive _ _ _ _ _ Hok).
  - intros sink [b Hb]. apply lookup_delete_Some in Hb as [Hne Hb]. rewrite Howner.
    destruct (ok_open _ _ _ _ _ Hok sink) as [?|[?|?]]; [by eexists|by left|right; left; set_solver|right; right; set_solver].
  - intros sink Hs. rewrite Howner in Hs. assert (sink ≠ id) by (intros ->; destruct Hs as [Hs|Hs]; [lia|set_solver]).
    rewrite lookup_delete_ne by done. apply (ok_owned_open _ _ _ _ _ Hok). destruct Hs as [|Hs]; [by left|right; set_solver].
  - intros key p Hp. rewrite Hts in Hp. apply lookup_delete_Some in Hp as [Hne Hp].
    destruct (ok_target _ _ _ _ _ Hok _ _ Hp) as [Hr Hact].
    assert (Hpne : pi_id (pid_identity p) ≠ id).
    { intros Heq. apply Hne. destruct (ok_target _ _ _ _ _ Hok _ _ Hpid) as [[_ Hr'] _]. destruct Hr as [_ Hr].
      rewrite Heq, <- Hpidid in Hr. rewrite Hr' in Hr. by injection Hr. }
    split; [by apply Hkeep|]. intros Hfile. rewrite lookup_delete_ne by done. by apply Hact.
  - intros i b Hb. apply lookup_delete_Some in Hb as [Hne Hb].
    destruct (ok_active _ _ _ _ _ Hok _ _ Hb) as (path' & p & sk' & Hp & Hpi & Hsk & Hpath').
    assert (b ≠ a) by (intros ->; apply Hne; by apply (ok_inj _ _ _ _ _ Hok _ _ a)).
    exists path', p, sk'. rewrite Hts, lookup_insert_ne by done. split_and!; [|done..].
    rewrite lookup_delete_ne; [done|]. intros [= ->]. rewrite Hpid in Hp. injection Hp as <-. congruence.
  - intros i j b Hi Hj. apply lookup_delete_Some in Hi as [_ Hi], Hj as [_ Hj]. by apply (ok_inj _ _ _ _ _ Hok _ _ b).
  - intros b sk' Hb. apply lookup_insert_Some in Hb as [[<- <-]|[Hne Hb]]; simpl.
    + rewrite (ok_leases _ _ _ _ _ Hok _ _ Ha), (leased_delete _ _ _ _ Hid), bool_decide_eq_true_2 by done. simpl. lia.
    + rewrite (ok_leases _ _ _ _ _ Hok _ _ Hb), (leased_delete _ _ _ b Hid), bool_decide_eq_false_2; done.
  - intros b Hb. apply (ok_others _ _ _ _ _ Hok) in Hb. destruct (decide (b = a)) as [->|]; [by rewrite lookup_insert_eq|].
    by rewrite lookup_insert_ne.
  - intros i c. rewrite Hcs, Href. apply (ok_context _ _ _ _ _ Hok).
  - intros i c key p. rewrite Hcs. intros Hi Hk. destruct (ok_slots _ _ _ _ _ Hok _ _ _ _ Hi Hk) as (t & Ht & Hf).
    exists t. split; [by eapply Hkeep'|done].
  - intros i. rewrite Href, Hcs. apply (ok_refs _ _ _ _ _ Hok).
  - intros i b Hi. by eapply (ok_bindings _ _ _ _ _ Hok), Hbs.
  - apply (ok_ids _ _ _ _ _ Hok).
Qed.

Lemma closed_frame h id a sk f :
  requests (f (h_state h)) = requests (h_state h) → queues (f (h_state h)) = queues (h_state h) →
  frame h (set_state f (closed h id a sk)).
Proof.
  constructor; simpl; [done|done|done| | |].
  - intros b. rewrite written_app. case_decide; simpl; by rewrite app_nil_r.
  - intros b Hb. destruct (decide (b = a)) as [->|]; [by rewrite lookup_insert_eq|by rewrite lookup_insert_ne].
  - intros i b [_ Hb]%lookup_delete_Some. by left.
Qed.

(** ** Changing contexts and owner counts *)

Lemma contexts_ok others owned owned' P P' C C' h cs fc ids :
  handlers_ok others owned P C h →
  (∀ sink, default 0 (fc !! sink) = count (owns sink) cs + one (bool_decide (sink ∈ P'))) →
  (∀ sink, fc !! sink ≠ Some 0) →
  (∀ sink, is_Some (h_active h !! sink) → 0 < count (owns sink) cs ∨ sink ∈ P' ∨ sink ∈ C') →
  (∀ sink, 0 < count (owns sink) cs ∨ sink ∈ P' → is_Some (h_active h !! sink)) →
  (∀ id c, cs !! id = Some c → NoDup (bc_sinks c) ∧ (1 ≤ id ≤ hi_context ids)%N ∧
     bc_references c = owned' id + request_refs (h_state h) id ∧ 0 < bc_references c) →
  (∀ id c key pid, cs !! id = Some c → bc_slots c !! key = Some pid →
     ∃ t, registered (h_state h) pid t ∧ (is_file t = true → pi_id (pid_identity pid) ∈ bc_sinks c)) →
  (∀ id, 0 < owned' id + request_refs (h_state h) id → is_Some (cs !! id)) →
  hi_binding ids = hi_binding (h_ids h) → (hi_context ids ≤ u64_max)%N →
  handlers_ok others owned' P' C'
    (mkHandlers (set_file_contexts (λ _, fc) (set_contexts (λ _, cs) (h_state h))) (h_active h) (h_sinks h) ids (h_log h)).
Proof.
  intros Hok Hcount Hpos Hopen Hopen' Hctx Hslots Hrefs Hb Hids. constructor; simpl; try done; try apply Hok.
  rewrite Hb. apply Hok.
Qed.

(** The references of one context change. *)
Lemma reference_ok others owned owned' P C h id c n :
  handlers_ok others owned P C h → contexts (h_state h) !! id = Some c →
  n = owned' id + request_refs (h_state h) id → 0 < n → (∀ x, x ≠ id → owned' x = owned x) →
  handlers_ok others owned' P C
    (set_state (set_contexts (insert id (mkBindingContext (bc_slots c) (bc_sinks c) n))) h).
Proof.
  intros Hok Hc Hn Hpos Hother.
  assert (Hcount : ∀ sink, count (owns sink) (<[id := mkBindingContext (bc_slots c) (bc_sinks c) n]> (contexts (h_state h))) =
                           owner_count (h_state h) sink) by (intros; by apply (count_update _ _ _ c)).
  pose proof (contexts_ok others owned owned' P P C C h
    (<[id := mkBindingContext (bc_slots c) (bc_sinks c) n]> (contexts (h_state h))) (file_contexts (h_state h)) (h_ids h)) as Hk.
  apply Hk; clear Hk; try done; try apply Hok.
  - intros sink. rewrite Hcount. apply (ok_counts _ _ _ _ _ Hok).
  - intros sink. rewrite Hcount. apply (ok_open _ _ _ _ _ Hok).
  - intros sink. rewrite Hcount. apply (ok_owned_open _ _ _ _ _ Hok).
  - intros i c' [[<- <-]|[Hne Hi]]%lookup_insert_Some; simpl.
    + destruct (ok_context _ _ _ _ _ Hok _ _ Hc) as (? & [? ?] & _). by split_and!.
    + rewrite Hother by done. apply (ok_context _ _ _ _ _ Hok _ _ Hi).
  - intros i c' key pid [[<- <-]|[Hne Hi]]%lookup_insert_Some; simpl; [|by eapply (ok_slots _ _ _ _ _ Hok)].
    by eapply (ok_slots _ _ _ _ _ Hok).
  - intros i Hi. destruct (decide (i = id)) as [->|Hne]; [by rewrite lookup_insert_eq|].
    rewrite lookup_insert_ne by done. apply (ok_refs _ _ _ _ _ Hok). by rewrite <- Hother.
Qed.

Lemma retain_spec others owned P C h id :
  handlers_ok others owned P C h →
  wp (retain (Some id)) (λ h' r, frame h h' ∧
    match r with
    | Ok _ => ∃ c, contexts (h_state h) !! id = Some c ∧
        contexts (h_state h') = <[id := mkBindingContext (bc_slots c) (bc_sinks c) (S (bc_references c))]> (contexts (h_state h)) ∧
        handlers_ok others (λ x, one (bool_decide (x = id)) + owned x) P C h'
    | Err _ => h' = h ∧ (∀ c, contexts (h_state h) !! id = Some c → (usize_max ≤ N.of_nat (bc_references c))%N)
    end) h.
Proof.
  intros Hok. unfold retain. wp_steps. apply wp_of_option.
  2: { intros Hn. split; [apply frame_refl|]. split; [done|]. intros c Hc. congruence. }
  intros c Hc. wp_steps. apply wp_of_option.
  - intros n Hn%usize_checked_add_Some. destruct Hn as [-> _]. wp_steps. split; [by apply frame_state|].
    exists c. replace (bc_references c + 1) with (S (bc_references c)) by lia. split_and!; [done|done|].
    eapply reference_ok; [done|done| |lia|].
    + destruct (ok_context _ _ _ _ _ Hok _ _ Hc) as (_ & _ & -> & _). rewrite bool_decide_eq_true_2 by done. simpl. lia.
    + intros x Hx. by rewrite bool_decide_eq_false_2.
  - intros Hn. split; [apply frame_refl|]. split; [done|]. intros c' Hc'. simplify_eq.
    unfold usize_checked_add in Hn. case_decide as Hle; [done|].
    lia.
Qed.

(** ** Releasing a context *)

Lemma merge_failure_kind os first r :
  (∀ e, first = Some e → flush_failure os e) → (∀ e, r = Err e → flush_failure os e) →
  ∀ e, merge_failure first r = Some e → flush_failure os e.
Proof.
  intros Hf Hr e. destruct r as [[]|e'], first as [e0|]; simpl; [by auto|done| |].
  - intros [= <-]. destruct (Hf e0 eq_refl) as [Hk Hp]. split; [|done].
    rewrite <- Hk. by apply (RuntimeError.retain_same_error e0 e' cleanup_label).
  - intros [= <-]. by apply Hr.
Qed.

Lemma release_sink_spec others owned P os error sink h :
  handlers_ok others owned ({[sink]} ∪ P) ∅ h → sink ∉ P → (∀ e, error = Some e → flush_failure os e) →
  wp (release_sink os error sink) (λ h' r, ∃ error', r = Ok error' ∧ (∀ e, error' = Some e → flush_failure os e) ∧
    handlers_ok others owned P ∅ h' ∧ frame h h' ∧ contexts (h_state h') = contexts (h_state h)) h.
Proof.
  intros Hok HP Herr. pose proof (ok_counts _ _ _ _ _ Hok sink) as Hcount.
  rewrite bool_decide_eq_true_2 in Hcount by set_solver. simpl in Hcount.
  unfold release_sink. wp_steps. apply wp_of_option; [|by intros Hn; rewrite Hn in Hcount; simpl in Hcount; lia].
  intros n Hn. rewrite Hn in Hcount. simpl in Hcount. wp_steps. unfold usize_checked_sub. rewrite decide_True by lia.
  apply wp_of_option; [|done]. intros m [= <-]. wp_steps. case_decide as H0; wp_steps; simpl.
  - destruct (ok_owned_open _ _ _ _ _ Hok sink) as [a Ha]; [right; set_solver|].
    destruct (ok_active _ _ _ _ _ Hok _ _ Ha) as (path & pid & sk & Hpid & Hid & Hsk & _).
    destruct (ok_target _ _ _ _ _ Hok _ _ Hpid) as [[_ Hb] _]. rewrite Hid in Hb. rewrite Hb.
    apply wp_of_option; [|done]. intros b [= <-]. wp_steps. simpl. rewrite Ha. apply wp_of_option; [|done].
    intros a' [= <-]. wp_steps. apply wp_catch. eapply wp_lease_release; [done| |].
    { rewrite (ok_leases _ _ _ _ _ Hok _ _ Hsk), (leased_active _ _ _ _ _ _ _ Hok Ha). lia. }
    intros r Hr. wp_steps. exists (merge_failure error r). split; [done|]. split; [by eapply merge_failure_kind|].
    assert (HP' : P = ({[sink]} ∪ P) ∖ {[sink]}) by set_solver.
    split; [|split; [|done]].
    + rewrite HP'. replace ∅ with (∅ ∖ {[sink]} : gset N) by set_solver.
      refine (closed_ok others owned _ _ h sink a sk path _ Hok Ha Hsk _ _ _ _ _ _ _ _ _ _); simpl.
      * by rewrite Hpid, <- Hid.
      * done.
      * done.
      * done.
      * done.
      * done.
      * done.
      * intros x Hx. rewrite lookup_delete_ne, lookup_insert_ne by done. done.
      * apply lookup_delete_eq.
      * lia.
    + by apply (closed_frame h sink a sk (λ s, set_by_target (delete (File path)) (set_file_contexts (delete sink) (set_file_contexts (insert sink (n - 1)) s)))).
  - exists error. split; [done|]. split; [done|]. split; [|split; [by apply frame_state|done]].
    pose proof (contexts_ok others owned owned ({[sink]} ∪ P) P ∅ ∅ h (contexts (h_state h))
      (<[sink := n - 1]> (file_contexts (h_state h))) (h_ids h) Hok) as Hk.
    apply Hk; clear Hk; try done; try apply Hok.
    + intros x. destruct (decide (x = sink)) as [->|Hne].
      * rewrite lookup_insert_eq, bool_decide_eq_false_2 by done. simpl. unfold owner_count in Hcount. lia.
      * rewrite lookup_insert_ne by done. rewrite (ok_counts _ _ _ _ _ Hok x). unfold owner_count. simpl. f_equal. f_equal.
        apply bool_decide_ext. set_solver.
    + intros x Hx. destruct (decide (x = sink)) as [->|Hne]; [rewrite lookup_insert_eq in Hx; simplify_eq; lia|].
      rewrite lookup_insert_ne in Hx by done. by apply (ok_positive _ _ _ _ _ Hok x).
    + intros x Hx. destruct (ok_open _ _ _ _ _ Hok x Hx) as [?|[Hin|?]]; [by left| |set_solver].
      apply elem_of_union in Hin as [->%elem_of_singleton|]; [|by right; left]. left.
      unfold owner_count in Hcount. lia.
    + intros x Hx. apply (ok_owned_open _ _ _ _ _ Hok). destruct Hx as [|Hx]; [by left|right; set_solver].
Qed.

Lemma release_sinks_spec others owned os sinks : ∀ error h,
  handlers_ok others owned (list_to_set sinks) ∅ h → NoDup sinks → (∀ e, error = Some e → flush_failure os e) →
  wp (release_sinks os error sinks) (λ h' r, ∃ error', r = Ok error' ∧ (∀ e, error' = Some e → flush_failure os e) ∧
    handlers_ok others owned ∅ ∅ h' ∧ frame h h' ∧ contexts (h_state h') = contexts (h_state h)) h.
Proof.
  induction sinks as [|sink sinks IH]; intros error h Hok Hnd Herr; cbn [release_sinks].
  { wp_steps. exists error. split_and!; [done|done|done|apply frame_refl|done]. }
  apply NoDup_cons in Hnd as [Hnin Hnd]. wp_steps.
  eapply hwp_mono; [by apply (release_sink_spec others owned (list_to_set sinks)); [|rewrite elem_of_list_to_set|]|].
  intros h1 r (error1 & -> & Herr1 & Hok1 & Hf1 & Hc1).
  eapply hwp_mono; [by apply IH|]. intros h2 r (error2 & -> & Herr2 & Hok2 & Hf2 & Hc2).
  exists error2. split_and!; [done|done|done|by eapply frame_trans|congruence].
Qed.

(** The context without its last reference. *)
Definition released (c : BindingContext) (id : N) (cs : gmap N BindingContext) : gmap N BindingContext :=
  if decide (bc_references c = 1) then delete id cs
  else <[id := mkBindingContext (bc_slots c) (bc_sinks c) (bc_references c - 1)]> cs.

Lemma release_spec others owned os h id :
  handlers_ok others owned ∅ ∅ h → 0 < owned id →
  wp (release os (Some id)) (λ h' r, frame h h' ∧ (∀ e, r = Err e → flush_failure os e) ∧
    ∃ c, contexts (h_state h) !! id = Some c ∧ contexts (h_state h') = released c id (contexts (h_state h)) ∧
      handlers_ok others (λ x, owned x - one (bool_decide (x = id))) ∅ ∅ h') h.
Proof.
  intros Hok Hown. destruct (ok_refs _ _ _ _ _ Hok id) as [c Hc]; [lia|].
  destruct (ok_context _ _ _ _ _ Hok _ _ Hc) as (Hnd & Hid & Hrefs & Hpos).
  unfold release. wp_steps. rewrite Hc. apply wp_of_option; [|done]. intros c' [= <-]. wp_steps.
  unfold usize_checked_sub. rewrite decide_True by lia. apply wp_of_option; [|done]. intros n [= <-]. wp_steps.
  unfold released. case_decide as Hn; wp_steps.
  - split; [by apply frame_state|]. split; [done|]. exists c. rewrite decide_False by lia. split_and!; [done|done|].
    eapply reference_ok; [done|done| |lia|].
    + rewrite bool_decide_eq_true_2 by done. simpl. lia.
    + intros x Hx. rewrite bool_decide_eq_false_2 by done. simpl. lia.
  - set (h1 := set_state _ (set_state _ h)).
    assert (Hcs1 : contexts (h_state h1) = delete id (contexts (h_state h))) by (simpl; apply delete_insert_eq).
    assert (Hok1 : handlers_ok others (λ x, owned x - one (bool_decide (x = id))) (list_to_set (bc_sinks c)) ∅ h1).
    { assert (Hcount : ∀ sink, owner_count (h_state h) sink =
        one (bool_decide (sink ∈ bc_sinks c)) + count (owns sink) (delete id (contexts (h_state h)))).
      { intros sink. unfold owner_count. by rewrite (count_delete _ _ id c Hc). }
      assert (Hset : ∀ sink : N, bool_decide (sink ∈ (list_to_set (bc_sinks c) : gset N)) = bool_decide (sink ∈ bc_sinks c)).
      { intros sink. apply bool_decide_ext. apply elem_of_list_to_set. }
      pose proof (contexts_ok others owned (λ x, owned x - one (bool_decide (x = id))) ∅ (list_to_set (bc_sinks c)) ∅ ∅ h
        (delete id (contexts (h_state h))) (file_contexts (h_state h)) (h_ids h) Hok) as Hk.
      replace h1 with (mkHandlers (set_file_contexts (λ _, file_contexts (h_state h))
         (set_contexts (λ _, delete id (contexts (h_state h))) (h_state h))) (h_active h) (h_sinks h) (h_ids h) (h_log h)).
      2: { unfold h1, set_state, set_contexts, set_file_contexts. simpl. by rewrite delete_insert_eq. }
      apply Hk; clear Hk; try done; try apply Hok.
      - intros sink. rewrite Hset, (ok_counts _ _ _ _ _ Hok), Hcount. rewrite (bool_decide_eq_false_2 (sink ∈ ∅)) by set_solver.
        simpl. lia.
      - intros sink Hs. destruct (ok_open _ _ _ _ _ Hok sink Hs) as [Hs'|[?|?]]; [|set_solver|set_solver].
        rewrite Hcount in Hs'. case_bool_decide as Hin; [right; left; by apply elem_of_list_to_set|left; simpl in Hs'; lia].
      - intros sink Hs. apply (ok_owned_open _ _ _ _ _ Hok). left. rewrite Hcount.
        destruct Hs as [|Hs%elem_of_list_to_set]; [lia|]. rewrite bool_decide_eq_true_2 by done. simpl. lia.
      - intros i c' [Hne Hi]%lookup_delete_Some. rewrite bool_decide_eq_false_2 by done. simpl. rewrite Nat.sub_0_r.
        by apply (ok_context _ _ _ _ _ Hok).
      - intros i c' key pid [Hne Hi]%lookup_delete_Some. by eapply (ok_slots _ _ _ _ _ Hok).
      - intros i Hi. destruct (decide (i = id)) as [->|Hne].
        + rewrite bool_decide_eq_true_2 in Hi by done. simpl in Hi. lia.
        + rewrite bool_decide_eq_false_2 in Hi by done. simpl in Hi. rewrite lookup_delete_ne by done.
          apply (ok_refs _ _ _ _ _ Hok). lia. }
    eapply hwp_mono; [by eapply (release_sinks_spec _ _ os (bc_sinks c) None h1 Hok1)|].
    intros h2 r (error & -> & Herr & Hok2 & Hf2 & Hcs2).
    assert (Hf : frame h h2).
    { eapply frame_trans; [|exact Hf2]. unfold h1. eapply frame_trans; apply frame_state; done. }
    unfold first_error. destruct error as [e|]; wp_steps.
    all: split; [done|]; split; [by intros e' [= <-]; auto|].
    all: exists c; rewrite decide_True by lia; split_and!; [done|congruence|done].
Qed.

End Invariant.
