(* ===== verification/HandlerAcquire.v ===== *)
(** * Deriving and acquiring contexts

    The operations that create contexts keep [handlers_ok]; a derivation that fails changes
    nothing.  While [acquire] binds the slots of a process, the files it opens are not owned by
    any context yet: [acq_ok] describes these intermediate states, and the specification
    [acquire_spec] says that a context is installed, or that the tables are as before. *)

From S2P Require Import Prelude Names ListHandle Value TypeRegistry OperandStack Ir FunctionTable RuntimeError.
From S2P Require Import HandlerBindings HandlerProps.
Import HandlerBindings.

Section Ops.
Context {Origin : Type}.
Implicit Types h : Handlers Origin.
Implicit Types s : HandlerState Origin.

(** ** Identities *)

Lemma next_context_spec h (Q : Handlers Origin → Result RuntimeError N → Prop) :
  (∀ e, Q h (Err e)) →
  (∀ n, n = (hi_context (h_ids h) + 1)%N → (n ≤ u64_max)%N →
     Q (set_ids (mkHandlerIds (hi_binding (h_ids h)) n (hi_request (h_ids h))) h) (Ok n)) →
  wp next_context Q h.
Proof.
  intros He Hn. unfold next_context, next. wp_steps. case_decide; [|apply wp_of_result, He].
  apply wp_of_result. wp_steps. by apply Hn.
Qed.

Lemma next_context_ok others owned P C h n :
  handlers_ok others owned P C h → (hi_context (h_ids h) ≤ n ≤ u64_max)%N →
  handlers_ok others owned P C (set_ids (mkHandlerIds (hi_binding (h_ids h)) n (hi_request (h_ids h))) h).
Proof.
  intros Hok Hn. constructor; simpl; try apply Hok; [|lia].
  intros id c Hc. destruct (ok_context _ _ _ _ _ Hok _ _ Hc) as (? & ? & ? & ?). split_and!; try done; lia.
Qed.

Lemma frame_ids h b n :
  frame h (set_ids (mkHandlerIds b n (hi_request (h_ids h))) h).
Proof. constructor; simpl; auto. Qed.

Lemma context_free others owned P C h id :
  handlers_ok others owned P C h → (hi_context (h_ids h) < id)%N → contexts (h_state h) !! id = None.
Proof.
  intros Hok Hid. apply eq_None_not_Some. intros [c Hc]. destruct (ok_context _ _ _ _ _ Hok _ _ Hc) as (_ & ? & _). lia.
Qed.

(** ** Sets of files in order *)

Lemma elem_of_ascending (x : N) (X : gset N) : x ∈ ascending X ↔ x ∈ X.
Proof. unfold ascending. rewrite merge_sort_Permutation. apply elem_of_elements. Qed.

Lemma NoDup_ascending (X : gset N) : NoDup (ascending X).
Proof. unfold ascending. rewrite merge_sort_Permutation. apply NoDup_elements. Qed.

Lemma list_to_set_ascending (X : gset N) : list_to_set (ascending X) = X.
Proof. apply set_eq. intros x. by rewrite elem_of_list_to_set, elem_of_ascending. Qed.

(** ** A new context *)

Lemma new_context_ok others owned P C C' h id c :
  handlers_ok others owned P C h → contexts (h_state h) !! id = None → (1 ≤ id ≤ hi_context (h_ids h))%N →
  P = list_to_set (bc_sinks c) → NoDup (bc_sinks c) → bc_references c = 1 → owned id = 0 → request_refs (h_state h) id = 0 →
  (∀ key pid, bc_slots c !! key = Some pid →
     ∃ t, registered (h_state h) pid t ∧ (is_file t = true → pi_id (pid_identity pid) ∈ bc_sinks c)) →
  (∀ x, x ∈ C → is_Some (h_active h !! x) → x ∈ bc_sinks c ∨ x ∈ C') →
  handlers_ok others (λ x, one (bool_decide (x = id)) + owned x) ∅ C' (set_state (set_contexts (insert id c)) h).
Proof.
  intros Hok Hfree Hid HP Hnd Hrefs Hown Hreq Hslots HC.
  assert (Hcount : ∀ sink, count (owns sink) (<[id := c]> (contexts (h_state h))) =
    one (bool_decide (sink ∈ bc_sinks c)) + owner_count (h_state h) sink) by (intros; by apply count_insert).
  assert (HinP : ∀ sink, sink ∈ P ↔ sink ∈ bc_sinks c) by (intros; rewrite HP; apply elem_of_list_to_set).
  pose proof (contexts_ok others owned (λ x, one (bool_decide (x = id)) + owned x) P ∅ C C' h (<[id := c]> (contexts (h_state h)))
    (file_contexts (h_state h)) (h_ids h) Hok) as Hk. apply Hk; clear Hk; try apply Hok.
  - intros sink. rewrite Hcount, (ok_counts _ _ _ _ _ Hok), (bool_decide_eq_false_2 (sink ∈ ∅)) by set_solver.
    rewrite (bool_decide_ext _ _ (HinP sink)). simpl. lia.
  - intros sink Hs. rewrite Hcount. destruct (ok_open _ _ _ _ _ Hok sink Hs) as [?|[Hin|Hin]]; [left; lia| |].
    + left. rewrite bool_decide_eq_true_2 by (by apply HinP). simpl. lia.
    + destruct (HC sink Hin Hs) as [Hin'|]; [|by right; right]. left. rewrite bool_decide_eq_true_2 by done. simpl. lia.
  - intros sink [Hs|Hs]; [|set_solver]. apply (ok_owned_open _ _ _ _ _ Hok). rewrite Hcount in Hs.
    case_bool_decide as Hin; [right; by apply HinP|left; simpl in Hs; lia].
  - intros i c' [[<- <-]|[Hne Hi]]%lookup_insert_Some.
    + rewrite bool_decide_eq_true_2 by done. simpl. destruct Hid. split_and!; [done|done|done|lia|lia].
    + rewrite bool_decide_eq_false_2 by done. by apply (ok_context _ _ _ _ _ Hok).
  - intros i c' key pid [[<- <-]|[Hne Hi]]%lookup_insert_Some; [by apply Hslots|by eapply (ok_slots _ _ _ _ _ Hok)].
  - intros i Hi. destruct (decide (i = id)) as [->|Hne]; [by rewrite lookup_insert_eq|].
    rewrite bool_decide_eq_false_2 in Hi by done. rewrite lookup_insert_ne by done. by apply (ok_refs _ _ _ _ _ Hok).
  - done.
Qed.

Lemma refs_free others owned P C h id :
  handlers_ok others owned P C h → contexts (h_state h) !! id = None → owned id = 0 ∧ request_refs (h_state h) id = 0.
Proof.
  intros Hok Hc. destruct (decide (owned id + request_refs (h_state h) id = 0)); [lia|].
  destruct (ok_refs _ _ _ _ _ Hok id) as [c Hc']; [lia|]. congruence.
Qed.

(** ** Deriving a context for a task *)

Lemma captured_sinks_spec s active captured : ∀ sinks sinks',
  captured_sinks captured s active sinks = Ok sinks' →
  ∀ x, x ∈ sinks' ↔ x ∈ sinks ∨ ∃ pid t, pid ∈ captured ∧ pi_id (pid_identity pid) = x ∧
    target pid s = Ok t ∧ is_file t = true ∧ is_Some (active !! x).
Proof.
  induction captured as [|pid captured IH]; intros sinks sinks' H x; simpl in H.
  { injection H as <-. split; [by left|]. intros [|(? & ? & Hin & _)]; [done|]. by apply elem_of_nil in Hin. }
  apply rbind_Ok in H as (t & Ht & H). destruct (is_file t) eqn:Hf.
  - destruct (active !! pi_id (pid_identity pid)) as [a|] eqn:Ha; [|done]. rewrite (IH _ _ H x), elem_of_union, elem_of_singleton. split.
    + intros [[-> |]|(p & t' & Hin & ?)]; [right; exists pid, t|by left|right; exists p, t'].
      * split_and!; [apply elem_of_cons; by left|done|done|done|by eexists].
      * split; [apply elem_of_cons; by right|done].
    + intros [|(p & t' & [-> | Hin]%elem_of_cons & Hx & ?)]; [by left; right|left; left; done|].
      right. exists p, t'. done.
  - rewrite (IH _ _ H x). split.
    + intros [|(p & t' & Hin & ?)]; [by left|]. right. exists p, t'. split; [apply elem_of_cons; by right|done].
    + intros [|(p & t' & [-> | Hin]%elem_of_cons & Hx & Ht' & Hf' & ?)]; [by left|congruence|]. right. by exists p, t'.
Qed.

Lemma wp_count_owner sink n h (Q : Handlers Origin → Result RuntimeError unit → Prop) :
  file_contexts (h_state h) !! sink = Some n → (N.of_nat (n + 1) ≤ usize_max)%N →
  Q (set_state (set_file_contexts (insert sink (n + 1))) h) (Ok tt) → wp (count_owner sink) Q h.
Proof.
  intros Hn Hle HQ. unfold count_owner. wp_steps. rewrite Hn. apply wp_of_option; [|done]. intros m [= <-]. wp_steps.
  unfold usize_checked_add. rewrite decide_True by done. apply wp_of_option; [|done]. intros m [= <-]. by wp_steps.
Qed.

Lemma count_owners_spec others owned l : ∀ P h,
  handlers_ok others owned P ∅ h → contexts (h_state h) !! hi_context (h_ids h) = None → (1 ≤ hi_context (h_ids h))%N →
  NoDup l → (∀ x, x ∈ l → x ∉ P) → (∀ x, x ∈ l → is_Some (h_active h !! x)) →
  wp (for_all count_owner l) (λ h' r, r = Ok tt ∧ handlers_ok others owned (list_to_set l ∪ P) ∅ h' ∧ frame h h' ∧
    contexts (h_state h') = contexts (h_state h) ∧ bindings (h_state h') = bindings (h_state h) ∧
    h_active h' = h_active h ∧ h_ids h' = h_ids h ∧ requests (h_state h') = requests (h_state h)) h.
Proof.
  induction l as [|x l IH]; intros P h Hok Hfree H1 Hnd HP Hact; cbn [for_all].
  { wp_steps. replace (list_to_set [] ∪ P) with P by set_solver. split_and!; try done. apply frame_refl. }
  apply NoDup_cons in Hnd as [Hx Hnd]. apply hwp_bind.
  assert (Hxact : is_Some (h_active h !! x)) by (apply Hact, elem_of_cons; by left).
  assert (HxP : x ∉ P) by (apply HP, elem_of_cons; by left).
  pose proof (ok_counts _ _ _ _ _ Hok x) as Hc. rewrite bool_decide_eq_false_2 in Hc by done. simpl in Hc.
  assert (Hpos : 0 < owner_count (h_state h) x).
  { destruct (ok_open _ _ _ _ _ Hok x Hxact) as [|[|]]; [done|done|set_solver]. }
  destruct (file_contexts (h_state h) !! x) as [n|] eqn:Hn; simpl in Hc; [|lia].
  pose proof (owner_bound h others owned P ∅ x Hok Hfree) as Hb. pose proof (ok_ids _ _ _ _ _ Hok) as Hu.
  apply (wp_count_owner x n); [done|unfold usize_max; lia|].
  set (h1 := set_state (set_file_contexts (insert x (n + 1))) h).
  assert (Hok1 : handlers_ok others owned ({[x]} ∪ P) ∅ h1).
  { pose proof (contexts_ok others owned owned P ({[x]} ∪ P) ∅ ∅ h (contexts (h_state h))
      (<[x := n + 1]> (file_contexts (h_state h))) (h_ids h) Hok) as Hk. apply Hk; clear Hk; try apply Hok; try done.
    - intros y. destruct (decide (y = x)) as [->|Hne].
      + rewrite lookup_insert_eq, bool_decide_eq_true_2 by set_solver. simpl. unfold owner_count in *. lia.
      + rewrite lookup_insert_ne, (ok_counts _ _ _ _ _ Hok y) by done. unfold owner_count. f_equal. f_equal. apply bool_decide_ext. set_solver.
    - intros y Hy. destruct (decide (y = x)) as [->|Hne]; [rewrite lookup_insert_eq in Hy; simplify_eq; lia|].
      rewrite lookup_insert_ne in Hy by done. by apply (ok_positive _ _ _ _ _ Hok y).
    - intros y Hy. destruct (ok_open _ _ _ _ _ Hok y Hy) as [?|[?|?]]; [by left|right; left; set_solver|set_solver].
    - intros y [Hy|Hy]; [by apply (ok_owned_open _ _ _ _ _ Hok); left|].
      apply elem_of_union in Hy as [->%elem_of_singleton|Hy]; [done|apply (ok_owned_open _ _ _ _ _ Hok); by right]. }
  eapply hwp_mono; [apply (IH ({[x]} ∪ P) h1 Hok1); [done|done|done| |]|].
  - intros y Hy Hin. apply elem_of_union in Hin as [->%elem_of_singleton|Hin]; [done|]. apply (HP y); [apply elem_of_cons; by right|done].
  - intros y Hy. apply Hact, elem_of_cons. by right.
  - intros h' r (-> & Hok' & Hf & Hcs & Hbs & Ha & Hi & Hr). split_and!; try done.
    + replace (list_to_set (x :: l) ∪ P) with (list_to_set l ∪ ({[x]} ∪ P)) by set_solver. done.
    + eapply frame_trans; [|done]. by apply frame_state.
Qed.

Lemma derive_spec others owned h origin captured :
  handlers_ok others owned ∅ ∅ h →
  wp (derive origin captured) (λ h' r, frame h h' ∧
    match r with
    | Ok None => h' = h ∧ origin = None ∧ (∀ pid t, pid ∈ captured → target pid (h_state h) = Ok t → is_file t = false)
    | Ok (Some id) => handlers_ok others (λ x, one (bool_decide (x = id)) + owned x) ∅ ∅ h' ∧
        ∃ c, contexts (h_state h') = <[id := c]> (contexts (h_state h)) ∧
          (∀ x, x ∈ bc_sinks c ↔
             (∃ o c0, origin = Some o ∧ contexts (h_state h) !! o = Some c0 ∧ x ∈ bc_sinks c0) ∨
             (∃ pid t, pid ∈ captured ∧ pi_id (pid_identity pid) = x ∧ target pid (h_state h) = Ok t ∧ is_file t = true)) ∧
          (contexts (h_state h) !! id = None ∨
           (origin = Some id ∧ ∃ c0, contexts (h_state h) !! id = Some c0 ∧ bc_sinks c0 = bc_sinks c))
    | Err _ => h' = h
    end) h.
Proof.
  intros Hok. unfold derive. wp_steps.
  assert (Horigin : wp (match origin with
      | Some id => context ← of_option (contexts (h_state h) !! id) (fail_with "Task origin binding context disappeared"); mret (Some context)
      | None => mret None end)
    (λ h' r, h' = h ∧ match r with
       | Ok (Some c) => ∃ o, origin = Some o ∧ contexts (h_state h) !! o = Some c
       | Ok None => origin = None | Err _ => True end) h).
  { destruct origin as [o|]; [|done]. wp_steps. apply wp_of_option; [|done]. intros c Hc. wp_steps. split; [done|]. by exists o. }
  eapply hwp_mono; [exact Horigin|]. clear Horigin. intros h0 [oc|e] [-> Ho]; [|by split; [apply frame_refl|]].
  wp_steps. apply wp_of_result. set (own := match oc with Some c => bc_sinks c | None => [] end).
  destruct (captured_sinks captured (h_state h) (h_active h) (list_to_set own)) as [sinks|e] eqn:Hcap;
    [|by split; [apply frame_refl|]].
  pose proof (captured_sinks_spec _ _ _ _ _ Hcap) as Hsinks.
  assert (Hown : ∀ x, x ∈ own ↔ ∃ o c0, origin = Some o ∧ contexts (h_state h) !! o = Some c0 ∧ x ∈ bc_sinks c0).
  { intros x. unfold own. destruct oc as [c|].
    - destruct Ho as (o & -> & Hc). split; [intros; by exists o, c|]. intros (o' & c0 & [= <-] & Hc' & ?). by simplify_eq.
    - split; [by intros ?%elem_of_nil|]. intros (? & ? & Hs & _). congruence. }
  assert (Hmem : ∀ x, x ∈ sinks ↔
     (∃ o c0, origin = Some o ∧ contexts (h_state h) !! o = Some c0 ∧ x ∈ bc_sinks c0) ∨
     (∃ pid t, pid ∈ captured ∧ pi_id (pid_identity pid) = x ∧ target pid (h_state h) = Ok t ∧ is_file t = true)).
  { intros x. rewrite Hsinks, elem_of_list_to_set, Hown. split; [intros [|(p & t & ?)]; [by left|right; exists p, t; naive_solver]|].
    intros [|(p & t & Hin & Hx & Ht & Hf)]; [by left|]. right. exists p, t. split_and!; [done..|].
    clear -Hcap Hin Hx Ht Hf. revert Hcap. generalize (list_to_set own : gset N). induction captured as [|q captured IH]; intros X Hcap;
      [by apply elem_of_nil in Hin|]. simpl in Hcap. apply rbind_Ok in Hcap as (t' & Ht' & Hcap).
    apply elem_of_cons in Hin as [<-|Hin].
    - replace t' with t in * by congruence. rewrite Hf, Hx in Hcap. by destruct (h_active h !! x).
    - destruct (is_file t').
      + destruct (h_active h !! pi_id (pid_identity q)); [|done]. exact (IH Hin _ Hcap).
      + exact (IH Hin _ Hcap). }
  assert (Hactive : ∀ x, x ∈ sinks → is_Some (h_active h !! x)).
  { intros x [Hx|(p & t & _ & _ & _ & _ & ?)]%Hsinks; [|done]. apply elem_of_list_to_set, Hown in Hx as (o & c0 & _ & Hc0 & Hx).
    apply (ok_owned_open _ _ _ _ _ Hok). left. apply count_pos. exists o, c0. split; [done|]. by apply bool_decide_eq_true. }
  case_bool_decide as Hnone.
  { wp_steps. split; [apply frame_refl|]. destruct Hnone as [-> He]. split_and!; [done|done|].
    intros pid t Hin Ht. destruct (is_file t) eqn:Hf; [|done]. exfalso.
    assert (pi_id (pid_identity pid) ∈ sinks) by (apply Hmem; right; by exists pid, t). set_solver. }
  case_bool_decide as Hsame.
  - destruct Hsame as [Hsome Hlen]. destruct oc as [c|]; [|done]. destruct Ho as (o & -> & Hc). wp_steps.
    eapply hwp_mono; [by apply (retain_spec others owned ∅ ∅ h o Hok)|]. intros h' [[]|e] [Hf Hr]; [|by split; [|apply Hr]].
    wp_steps. split; [done|]. destruct Hr as (c' & Hc' & Hcs & Hok'). simplify_eq. split; [done|].
    eexists. split; [exact Hcs|]. simpl. split; [|right; split; [done|]; by exists c].
    intros x. rewrite <- Hmem. destruct (ok_context _ _ _ _ _ Hok _ _ Hc) as (Hnd & _).
    assert (Hsub : (list_to_set own : gset N) ⊆ sinks) by (intros y Hy; apply Hsinks; by left).
    assert (Heq : (list_to_set own : gset N) = sinks).
    { apply set_subseteq_size_eq; [done|]. rewrite size_list_to_set by done. unfold own in *. lia. }
    rewrite <- Heq, elem_of_list_to_set. done.
  - wp_steps. apply next_context_spec; [by intros e; split; [apply frame_refl|]|].
    intros n Hn Hle. wp_steps. set (h1 := set_ids _ h).
    assert (Hfree : contexts (h_state h) !! n = None) by (eapply context_free; [done|lia]).
    assert (Hok1 : handlers_ok others owned ∅ ∅ h1) by (apply next_context_ok; [done|lia]).
    eapply hwp_mono; [apply (count_owners_spec others owned (ascending sinks) ∅ h1 Hok1); simpl|].
    + by subst n.
    + lia.
    + apply NoDup_ascending.
    + set_solver.
    + intros x Hx%elem_of_ascending. by apply Hactive.
    + intros h2 r (-> & Hok2 & Hf2 & Hcs2 & Hbs2 & Ha2 & Hi2 & Hr2). wp_steps.
      assert (Hfr : frame h h2) by (eapply frame_trans; [apply frame_ids|exact Hf2]).
      split; [eapply frame_trans; [exact Hfr|]; by apply frame_state|].
      assert (Hfree2 : contexts (h_state h2) !! n = None) by (by rewrite Hcs2).
      destruct (refs_free _ _ _ _ _ _ Hok2 Hfree2) as [Hown0 Hreq0]. split.
      * eapply (new_context_ok others owned (list_to_set (ascending sinks) ∪ ∅) ∅); try done.
        -- rewrite Hi2. simpl. lia.
        -- simpl. set_solver.
        -- apply NoDup_ascending.
        -- simpl. intros key pid Hk. destruct oc as [c|]; [|by rewrite lookup_empty in Hk]. destruct Ho as (o & Heo & Hc).
           destruct (ok_slots _ _ _ _ _ Hok _ _ _ _ Hc Hk) as (t & Ht & Hfile). exists t. unfold registered in *. rewrite Hbs2.
           split; [done|]. intros Hf. apply elem_of_ascending, Hmem. left. exists o, c. auto.
      * eexists. split; [simpl; by rewrite Hcs2|]. simpl. split; [|by left].
        intros x. by rewrite elem_of_ascending, Hmem.
Qed.
End Ops.

Section Acquire.
Context {Origin : Type}.
Implicit Types h : Handlers Origin.
Implicit Types s : HandlerState Origin.
Implicit Types a : Acquired.
Context (others owned : N → nat).

(** ** A new binding *)

(** [pid] is bound to [key]; [lease] is the sink that was opened for it. *)
Definition bound h (pid : PidHandle) (key : HandlerTarget) (lease : option (N * str)) (ids : HandlerIds) : Handlers Origin :=
  let id := pi_id (pid_identity pid) in
  mkHandlers (set_by_target (insert key pid) (set_bindings (insert id (mkHandlerBinding (pid_ptr pid) key)) (h_state h)))
    (match lease with Some (address, _) => <[id := address]> (h_active h) | None => h_active h end)
    (match lease with Some (address, path) => <[address := mkFileSink path 1]> (h_sinks h) | None => h_sinks h end)
    ids
    (h_log h ++ match lease with Some (address, _) => [IoOpen address] | None => [] end).

Definition lease_for (key : HandlerTarget) (lease : option (N * str)) : Prop :=
  match key, lease with
  | File path, Some (_, path') => path' = path
  | File _, None => False
  | _, Some _ => False
  | _, None => True
  end.

Lemma id_free h P C id :
  handlers_ok others owned P C h → (hi_binding (h_ids h) < id)%N →
  bindings (h_state h) !! id = None ∧ h_active h !! id = None.
Proof.
  intros Hok Hid. assert (Hb : bindings (h_state h) !! id = None).
  { apply eq_None_not_Some. intros [b Hb]. apply (ok_bindings _ _ _ _ _ Hok) in Hb. lia. }
  split; [done|]. apply eq_None_not_Some. intros [x Hx].
  destruct (ok_active _ _ _ _ _ Hok _ _ Hx) as (path & pid & sk & Ht & Hpid & _).
  destruct (ok_target _ _ _ _ _ Hok _ _ Ht) as [[_ Hr] _]. congruence.
Qed.

Lemma registered_bound h P C pid key lease ids p t :
  handlers_ok others owned P C h → (hi_binding (h_ids h) < pi_id (pid_identity pid))%N →
  registered (h_state h) p t → registered (h_state (bound h pid key lease ids)) p t.
Proof.
  intros Hok Hid [Hk Hb]. split; [done|]. simpl. rewrite lookup_insert_ne; [done|].
  intros Heq. destruct (id_free h P C _ Hok Hid) as [Hf _]. congruence.
Qed.

Lemma bound_ok h P C pid key lease ids :
  handlers_ok others owned P C h →
  by_target (h_state h) !! key = None → lease_for key lease →
  (∀ address path, lease = Some (address, path) → h_sinks h !! address = None) →
  pi_kind (pid_identity pid) = PkHandler →
  (hi_binding (h_ids h) < pi_id (pid_identity pid) ≤ hi_binding ids)%N → hi_context ids = hi_context (h_ids h) →
  handlers_ok others owned P ({[pi_id (pid_identity pid)]} ∪ C) (bound h pid key lease ids).
Proof.
  intros Hok Hkey Hlease Haddr Hkind Hid Hctx. set (id := pi_id (pid_identity pid)).
  destruct (id_free h P C id Hok) as [Hbfree Hafree]; [unfold id; lia|].
  assert (Hreg : ∀ p t, registered (h_state h) p t → registered (h_state (bound h pid key lease ids)) p t).
  { intros p t. apply (registered_bound h P C); [done|lia]. }
  assert (Hact : ∀ x, is_Some (h_active h !! x) → is_Some (h_active (bound h pid key lease ids) !! x)).
  { intros x Hx. simpl. destruct lease as [[address path]|]; [|done]. fold id.
    rewrite lookup_insert_ne; [done|]. intros <-. by rewrite Hafree in Hx; destruct Hx. }
  assert (Hold : ∀ i b, h_active h !! i = Some b → ∀ address path, lease = Some (address, path) → b ≠ address).
  { intros i b Hi address path Hl ->. destruct (ok_active _ _ _ _ _ Hok _ _ Hi) as (? & ? & sk & _ & _ & Hsk & _).
    rewrite (Haddr _ _ Hl) in Hsk. done. }
  constructor.
  - apply (ok_counts _ _ _ _ _ Hok).
  - apply (ok_positive _ _ _ _ _ Hok).
  - intros sink Hs. destruct (decide (sink = id)) as [->|Hne]; [right; right; set_solver|].
    destruct (ok_open _ _ _ _ _ Hok sink) as [?|[?|?]]; [|by left|by right; left|right; right; set_solver].
    simpl in Hs. destruct lease as [[address path]|]; [|done]. by rewrite lookup_insert_ne in Hs.
  - intros sink Hs. apply Hact. by apply (ok_owned_open _ _ _ _ _ Hok).
  - intros key' p Hp. simpl in Hp. apply lookup_insert_Some in Hp as [[<- <-]|[Hne Hp]].
    + split; [split; [done|]; simpl; by rewrite lookup_insert_eq|]. intros Hf. simpl.
      destruct key; try done. destruct lease as [[address path']|]; [|done]. by rewrite lookup_insert_eq.
    + destruct (ok_target _ _ _ _ _ Hok _ _ Hp) as [Hr Hf]. split; [by apply Hreg|]. intros ?. by apply Hact, Hf.
  - intros i b Hi. simpl in Hi. destruct lease as [[address path]|].
    + fold id in Hi. apply lookup_insert_Some in Hi as [[<- <-]|[Hne Hi]].
      * destruct key as [| | | |path']; try done. simpl in Hlease. subst path'.
        exists path, pid, (mkFileSink path 1). simpl. by rewrite !lookup_insert_eq.
      * destruct (ok_active _ _ _ _ _ Hok _ _ Hi) as (path' & p & sk & Hp & Hpi & Hsk & Hpath).
        exists path', p, sk. simpl. rewrite (lookup_insert_ne _ address) by (intros <-; by eapply Hold).
        rewrite lookup_insert_ne by congruence. done.
    + destruct (ok_active _ _ _ _ _ Hok _ _ Hi) as (path' & p & sk & Hp & Hpi & Hsk & Hpath).
      exists path', p, sk. simpl. rewrite lookup_insert_ne by congruence. done.
  - intros i j b Hi Hj. simpl in Hi, Hj. destruct lease as [[address path]|]; [|by apply (ok_inj _ _ _ _ _ Hok _ _ b)].
    apply lookup_insert_Some in Hi as [[<- <-]|[Hni Hi]], Hj as [[<- Hb]|[Hnj Hj]]; try done.
    + exfalso. by eapply (Hold j address).
    + exfalso. subst b. by eapply (Hold i address).
    + by apply (ok_inj _ _ _ _ _ Hok _ _ b).
  - intros b sk Hb. simpl in Hb |- *. destruct lease as [[address path]|]; [|by apply (ok_leases _ _ _ _ _ Hok)].
    fold id. unfold leased. rewrite count_insert by done. fold (leased b (h_active h)).
    apply lookup_insert_Some in Hb as [[<- <-]|[Hne Hb]].
    + rewrite bool_decide_eq_true_2 by done. simpl.
      assert (others address = 0).
      { destruct (decide (others address = 0)); [done|]. destruct (ok_others _ _ _ _ _ Hok address) as [? Hs]; [lia|].
        by rewrite (Haddr _ _ eq_refl) in Hs. }
      destruct (decide (leased address (h_active h) = 0)); [lia|].
      assert (Hp : 0 < leased address (h_active h)) by lia. apply count_pos in Hp as (i & x & Hi & Hx%bool_decide_eq_true).
      exfalso. by eapply (Hold i x).
    + rewrite bool_decide_eq_false_2 by done. by apply (ok_leases _ _ _ _ _ Hok).
  - intros b Hb. apply (ok_others _ _ _ _ _ Hok) in Hb. simpl. destruct lease as [[address path]|]; [|done].
    destruct (decide (b = address)) as [->|]; [by rewrite lookup_insert_eq|by rewrite lookup_insert_ne].
  - intros i c Hc. rewrite <- Hctx || idtac. simpl. rewrite Hctx. by apply (ok_context _ _ _ _ _ Hok).
  - intros i c k p Hc Hk. destruct (ok_slots _ _ _ _ _ Hok _ _ _ _ Hc Hk) as (t & Ht & Hf). exists t. split; [by apply Hreg|done].
  - apply (ok_refs _ _ _ _ _ Hok).
  - intros i b Hb. simpl in Hb |- *. apply lookup_insert_Some in Hb as [[<- _]|[_ Hb]]; [lia|].
    apply (ok_bindings _ _ _ _ _ Hok) in Hb. lia.
  - simpl. rewrite Hctx. apply (ok_ids _ _ _ _ _ Hok).
Qed.

(** ** The states inside of an acquisition *)

Record acq_ok h0 h a : Prop := {
  aq_ok : handlers_ok others owned ∅ (list_to_set (ac_created a)) h;
  aq_frame : frame h0 h;
  aq_contexts : contexts (h_state h) = contexts (h_state h0);
  aq_context_id : hi_context (h_ids h) = hi_context (h_ids h0);
  aq_fresh : ∀ id, id ∈ ac_created a → (hi_binding (h_ids h0) < id)%N;
  aq_binding_id : (hi_binding (h_ids h0) ≤ hi_binding (h_ids h))%N;
  aq_old_target : ∀ key pid, by_target (h_state h0) !! key = Some pid →
    by_target (h_state h) !! key = Some pid ∧ pi_id (pid_identity pid) ∉ ac_created a;
  aq_new_target : ∀ key pid, by_target (h_state h) !! key = Some pid →
    by_target (h_state h0) !! key = Some pid ∨ pi_id (pid_identity pid) ∈ ac_created a;
  aq_old_active : ∀ id b, h_active h0 !! id = Some b → h_active h !! id = Some b ∧ id ∉ ac_created a;
  aq_new_active : ∀ id b, h_active h !! id = Some b → h_active h0 !! id = Some b ∨ id ∈ ac_created a;
  aq_created : ∀ id, id ∈ ac_created a →
    ∃ key pid, by_target (h_state h) !! key = Some pid ∧ pi_id (pid_identity pid) = id;
  aq_nodup : NoDup (ac_created a);
  aq_slots : ∀ key pid, ac_slots a !! key = Some pid →
    ∃ t, registered (h_state h) pid t ∧ (is_file t = true → pi_id (pid_identity pid) ∈ ac_sinks a);
  aq_sinks : ∀ x, x ∈ ac_sinks a → is_Some (h_active h !! x);
}.

(** Every file that was opened is going to be owned. *)
Definition covered h a : Prop := ∀ id, id ∈ ac_created a → is_Some (h_active h !! id) → id ∈ ac_sinks a.

Definition awp {A} (m : M (Handlers Origin * Acquired) AcquisitionError A)
    (Q : Handlers Origin → Acquired → Result AcquisitionError A → Prop) h a : Prop :=
  wp m (λ x r, Q x.1 x.2 r) (h, a).

Lemma wp_inner {E A} (f : E → AcquisitionError) (m : M (Handlers Origin) E A) h a
    (Q : Handlers Origin * Acquired → Result AcquisitionError A → Prop) :
  wp m (λ h' r, Q (h', a) (map_err f r)) h → wp (inner f m) Q (h, a).
Proof. unfold wp, inner, rewrap. destruct (m h) as [h' [x|[p|e]]]; done. Qed.

Lemma own_sink_spec h0 h a pid closed :
  acq_ok h0 h a →
  awp (own_sink pid closed) (λ h' a' r, h' = h ∧
    match r with
    | Err _ => a' = a
    | Ok _ => acq_ok h0 h a' ∧ ac_slots a' = ac_slots a ∧ ac_created a' = ac_created a ∧ ac_sinks a ⊆ ac_sinks a' ∧
        ∃ t, registered (h_state h) pid t ∧ (is_file t = true → pi_id (pid_identity pid) ∈ ac_sinks a')
    end) h a.
Proof.
  intros Ha. unfold awp, own_sink. wp_steps. simpl. apply wp_of_result.
  destruct (target pid (h_state h)) as [t|e] eqn:Ht; simpl; [|done]. apply target_registered in Ht.
  destruct (is_file t) eqn:Hf; wp_steps; simpl.
  - destruct (h_active h !! pi_id (pid_identity pid)) as [b|] eqn:Hb; [|by wp_steps]. unfold collect. wp_steps. simpl.
    split; [done|]. split_and!; [|done|done|set_solver|exists t; split; [done|set_solver]].
    destruct Ha. constructor; simpl; try done.
    + intros key p Hp. destruct (aq_slots0 key p Hp) as (t' & ? & ?). exists t'. split; [done|]. set_solver.
    + intros x [Hx%elem_of_singleton|Hx]%elem_of_union; [subst x; by eexists|by apply aq_sinks0].
  - split; [done|]. split_and!; [done|done|done|done|]. exists t. split; [done|]. by rewrite Hf.
Qed.

Lemma resolve_file os target cwd path :
  resolve_target os target cwd = Ok (File path) → ∃ arg, ht_named_args target = [arg].
Proof.
  unfold resolve_target. case_bool_decide.
  - repeat case_bool_decide; done.
  - destruct (ht_named_args target) as [|arg [|]]; [done|by exists arg|done].
Qed.

Lemma bound_acq h0 h a pid key lease ids :
  acq_ok h0 h a →
  by_target (h_state h) !! key = None → lease_for key lease →
  (∀ address path, lease = Some (address, path) → h_sinks h !! address = None) →
  pi_kind (pid_identity pid) = PkHandler →
  (hi_binding (h_ids h) < pi_id (pid_identity pid) ≤ hi_binding ids)%N → hi_context ids = hi_context (h_ids h) →
  hi_request ids = hi_request (h_ids h) →
  acq_ok h0 (bound h pid key lease ids) (mkAcquired (ac_slots a) (ac_sinks a) (ac_created a ++ [pi_id (pid_identity pid)])).
Proof.
  intros Ha Hkey Hlease Haddr Hkind Hid Hctx Hreq. set (id := pi_id (pid_identity pid)) in *.
  pose proof (aq_ok _ _ _ Ha) as Hok. destruct (id_free h _ _ id Hok) as [Hbfree Hafree]; [lia|].
  assert (Hact : ∀ x b, h_active h !! x = Some b → h_active (bound h pid key lease ids) !! x = Some b).
  { intros x b Hx. simpl. destruct lease as [[address path]|]; [|done]. fold id. rewrite lookup_insert_ne; congruence. }
  assert (Hnew : id ∉ ac_created a).
  { intros Hin. destruct (aq_created _ _ _ Ha id Hin) as (k & p & Hk & Hp).
    destruct (ok_target _ _ _ _ _ Hok _ _ Hk) as [[_ Hr] _]. congruence. }
  constructor; simpl ac_created; simpl ac_slots; simpl ac_sinks.
  - replace (list_to_set (ac_created a ++ [id])) with ({[id]} ∪ list_to_set (ac_created a) : gset N) by set_solver.
    by apply bound_ok.
  - destruct Ha as [_ Hf _ _ _ _ _ _ _ _ _ _ _ _]. eapply frame_trans; [exact Hf|]. constructor; simpl; auto.
    + intros x. rewrite written_app. destruct lease as [[]|]; simpl; by rewrite app_nil_r.
    + intros x Hx. destruct lease as [[address path]|]; [|done].
      destruct (decide (x = address)) as [->|]; [by rewrite lookup_insert_eq|by rewrite lookup_insert_ne].
    + intros i b Hi. destruct lease as [[address path]|]; [|by left].
      apply lookup_insert_Some in Hi as [[_ <-]|[_ Hi]]; [right; by eapply Haddr|by left].
  - apply (aq_contexts _ _ _ Ha).
  - simpl. rewrite Hctx. apply (aq_context_id _ _ _ Ha).
  - intros x [Hx|Hx%list_elem_of_singleton]%elem_of_app; [by apply (aq_fresh _ _ _ Ha)|].
    subst x. pose proof (aq_binding_id _ _ _ Ha). lia.
  - simpl. pose proof (aq_binding_id _ _ _ Ha). lia.
  - intros k p Hk. destruct (aq_old_target _ _ _ Ha _ _ Hk) as [Hk' Hnin]. simpl. split.
    + rewrite lookup_insert_ne; [done|]. intros <-. congruence.
    + rewrite elem_of_app, list_elem_of_singleton. intros [|Heq]; [done|].
      destruct (ok_target _ _ _ _ _ Hok _ _ Hk') as [[_ Hr] _]. congruence.
  - intros k p Hk. simpl in Hk. apply lookup_insert_Some in Hk as [[<- <-]|[_ Hk]].
    + right. apply elem_of_app. right. by apply list_elem_of_singleton.
    + destruct (aq_new_target _ _ _ Ha _ _ Hk); [by left|]. right. apply elem_of_app. by left.
  - intros i b Hi. destruct (aq_old_active _ _ _ Ha _ _ Hi) as [Hi' Hnin]. split; [by apply Hact|].
    rewrite elem_of_app, list_elem_of_singleton. intros [|Heq]; [done|]. congruence.
  - intros i b Hi. simpl in Hi. destruct lease as [[address path]|].
    + apply lookup_insert_Some in Hi as [[<- _]|[_ Hi]]; [right; apply elem_of_app; right; by apply list_elem_of_singleton|].
      destruct (aq_new_active _ _ _ Ha _ _ Hi); [by left|]. right. apply elem_of_app. by left.
    + destruct (aq_new_active _ _ _ Ha _ _ Hi); [by left|]. right. apply elem_of_app. by left.
  - intros i [Hi|Hi%list_elem_of_singleton]%elem_of_app.
    + destruct (aq_created _ _ _ Ha i Hi) as (k & p & Hk & Hp). exists k, p. simpl. split; [|done].
      rewrite lookup_insert_ne; [done|]. congruence.
    + exists key, pid. simpl. subst i. by rewrite lookup_insert_eq.
  - apply NoDup_app. split_and!; [apply (aq_nodup _ _ _ Ha)| |apply NoDup_singleton].
    intros x Hx ->%list_elem_of_singleton. done.
  - intros k p Hk. destruct (aq_slots _ _ _ Ha _ _ Hk) as (t & Ht & Hf). exists t. split; [|done].
    eapply registered_bound; [done|lia|done].
  - intros x Hx. destruct (aq_sinks _ _ _ Ha x Hx) as [b Hb]. eexists. by apply Hact.
Qed.

(** ** Binding the slots *)

Lemma wp_open_sink os path h (Q : Handlers Origin → Result str N → Prop) :
  (∀ e, Q h (Err e)) →
  (∀ address, h_sinks h !! address = None →
     Q (emit (IoOpen address) (set_sinks (insert address (mkFileSink path 0)) h)) (Ok address)) →
  wp (open_sink os path) Q h.
Proof.
  intros He Hok. unfold open_sink. wp_steps. apply wp_of_result. destruct (open_append os path); [|done]. wp_steps.
  apply Hok. apply not_elem_of_dom, is_fresh.
Qed.

Lemma wp_insert_lease {E} os id address path h (Q : Handlers Origin → Result E unit → Prop) :
  h_sinks h !! address = Some (mkFileSink path 0) → h_active h !! id = None →
  Q (set_active (insert id address) (set_sinks (insert address (mkFileSink path 1)) h)) (Ok tt) →
  wp (insert_lease os id address) Q h.
Proof.
  intros Ha Hid HQ. unfold insert_lease, lease_acquire, deref. wp_steps. eapply wp_expect_some; [done|]. wp_steps.
  eapply wp_expect_some; [reflexivity|]. wp_steps. simpl. rewrite Hid. by wp_steps.
Qed.

Lemma next_binding_spec h (Q : Handlers Origin → Result RuntimeError N → Prop) :
  (∀ e, Q h (Err e)) →
  (∀ n, n = (hi_binding (h_ids h) + 1)%N →
     Q (set_ids (mkHandlerIds n (hi_context (h_ids h)) (hi_request (h_ids h))) h) (Ok n)) →
  wp next_binding Q h.
Proof.
  intros He Hn. unfold next_binding, next. wp_steps. case_decide; [|apply wp_of_result, He].
  apply wp_of_result. wp_steps. by apply Hn.
Qed.

(** A counter that advanced without a binding. *)
Lemma next_binding_acq h0 h a n :
  acq_ok h0 h a → (hi_binding (h_ids h) ≤ n)%N →
  acq_ok h0 (set_ids (mkHandlerIds n (hi_context (h_ids h)) (hi_request (h_ids h))) h) a.
Proof.
  intros Ha Hn. destruct Ha as [Hok]. constructor; simpl; try done; [| |lia].
  - constructor; simpl; try apply Hok. intros id b Hb. apply (ok_bindings _ _ _ _ _ Hok) in Hb. lia.
  - eapply frame_trans; [done|]. apply frame_ids.
Qed.

Lemma create_binding_spec os target key cwd h0 h a :
  acq_ok h0 h a → covered h a → resolve_target os target cwd = Ok key → by_target (h_state h) !! key = None →
  awp (create_binding os target key) (λ h' a' r, acq_ok h0 h' a' ∧
    match r with
    | Ok pid => ac_slots a' = ac_slots a ∧ ac_sinks a' = ac_sinks a ∧
        (∀ id, id ∈ ac_created a' → is_Some (h_active h' !! id) → id ∈ ac_sinks a' ∨ id = pi_id (pid_identity pid)) ∧
        by_target (h_state h') !! key = Some pid
    | Err _ => True
    end) h a.
Proof.
  intros Ha Hcov Hres Hkey. unfold awp, create_binding. apply hwp_bind. apply wp_inner, next_binding_spec; [done|].
  intros n Hn. simpl. set (ids := mkHandlerIds n _ _).
  assert (Ha1 : acq_ok h0 (set_ids ids h) a) by (apply next_binding_acq; [done|lia]).
  set (pid := mkPid (identity_address os n) (mkPidIdentity n (target_name key) PkHandler)).
  assert (Hpost : ∀ lease, lease_for key lease → (∀ address path, lease = Some (address, path) → h_sinks h !! address = None) →
    acq_ok h0 (bound h pid key lease ids) (mkAcquired (ac_slots a) (ac_sinks a) (ac_created a ++ [n])) ∧
    ac_slots a = ac_slots a ∧ ac_sinks a = ac_sinks a ∧
    (∀ id, id ∈ ac_created a ++ [n] → is_Some (h_active (bound h pid key lease ids) !! id) → id ∈ ac_sinks a ∨ id = n) ∧
    by_target (h_state (bound h pid key lease ids)) !! key = Some pid).
  { intros lease Hl Haddr. split; [|split; [done|split; [done|split]]].
    - apply (bound_acq h0 h a pid key lease ids); simpl; try done. lia.
    - intros id [Hid|Hid%list_elem_of_singleton]%elem_of_app Hact; [|by right]. left. apply Hcov; [done|].
      simpl in Hact. destruct lease as [[address path]|]; [|done].
      destruct (decide (n = id)) as [<-|]; [|by rewrite lookup_insert_ne in Hact].
      exfalso. destruct (aq_created _ _ _ Ha n Hid) as (k & p & Hk & Hp).
      destruct (ok_target _ _ _ _ _ (aq_ok _ _ _ Ha) _ _ Hk) as [[_ Hr] _].
      apply (ok_bindings _ _ _ _ _ (aq_ok _ _ _ Ha)) in Hr. lia.
    - simpl. apply lookup_insert_eq. }
  apply hwp_bind. destruct key as [| | | |path].
  1-4: wp_steps; simpl; specialize (Hpost None I ltac:(done));
    unfold bound in Hpost; rewrite app_nil_r in Hpost; exact Hpost.
  destruct (resolve_file _ _ _ _ Hres) as [arg Harg]. wp_steps. rewrite Harg. eapply wp_expect_some; [done|]. wp_steps.
  apply wp_inner, wp_open_sink; [by intros; split|]. intros address Haddr. simpl.
  apply wp_inner. eapply wp_insert_lease.
  - simpl. apply lookup_insert_eq.
  - simpl. destruct (id_free h _ _ n (aq_ok _ _ _ Ha)); [lia|done].
  - simpl. wp_steps. simpl. unfold set_sinks, set_active. simpl. rewrite insert_insert_eq.
    apply (Hpost (Some (address, path))); [done|]. by intros ? ? [= <- <-].
Qed.

Lemma acquire_slot_spec os name cwd entry h0 h a :
  acq_ok h0 h a → covered h a →
  awp (acquire_slot os name cwd entry) (λ h' a' r, acq_ok h0 h' a' ∧ (is_ok r = true → covered h' a')) h a.
Proof.
  intros Ha Hcov. unfold awp, acquire_slot. destruct entry as [slot target].
  apply hwp_bind, wp_of_result. destruct (resolve_target os target cwd) as [key|e] eqn:Hres; [|done].
  apply hwp_bind, hwp_gets. apply hwp_bind. simpl.
  assert (Hfind : wp (match by_target (h_state h) !! key with Some pid => mret pid | None => create_binding os target key end)
    (λ x r, acq_ok h0 x.1 x.2 ∧ match r with
       | Ok pid => ∀ id, id ∈ ac_created x.2 → is_Some (h_active x.1 !! id) → id ∈ ac_sinks x.2 ∨ id = pi_id (pid_identity pid)
       | Err _ => True end) (h, a)).
  { destruct (by_target (h_state h) !! key) as [pid|] eqn:Hkey.
    - wp_steps. split; [done|]. intros id Hid Hact. left. by apply Hcov.
    - eapply hwp_mono; [by eapply create_binding_spec|]. intros [h' a'] [pid|e] [Ha' Hr]; [|done]. split; [done|]. apply Hr. }
  eapply hwp_mono; [exact Hfind|]. clear Hfind. intros [h1 a1] [pid|e] [Ha1 Hpid]; simpl in *; [|done].
  apply hwp_bind. eapply hwp_mono; [by apply own_sink_spec|]. intros [h2 a2] [[]|e] [Heq Hr]; simpl in *; subst h2; [|by subst].
  destruct Hr as (Ha2 & Hsl & Hcr & Hsub & t & Ht & Hf). unfold collect. wp_steps. simpl. split.
  - destruct Ha2. constructor; simpl; try done.
    intros k p [[<- <-]|[Hne Hk]]%lookup_insert_Some; [by exists t|by eapply aq_slots0].
  - intros _ id Hid Hact. simpl in *. rewrite Hcr in Hid. destruct (Hpid id Hid Hact) as [?|Heq]; [set_solver|]. subst id.
    destruct Hact as [b Hb]. destruct (ok_active _ _ _ _ _ (aq_ok _ _ _ Ha1) _ _ Hb) as (path & p & _ & Hp & Hpi & _).
    destruct (ok_target _ _ _ _ _ (aq_ok _ _ _ Ha1) _ _ Hp) as [[_ Hr] _]. destruct Ht as [_ Ht]. rewrite Hpi, Ht in Hr.
    injection Hr as _ ->. by apply Hf.
Qed.

Lemma for_all_awp {A} (f : A → M (Handlers Origin * Acquired) AcquisitionError unit) h0 l :
  (∀ x h a, acq_ok h0 h a → covered h a →
     awp (f x) (λ h' a' r, acq_ok h0 h' a' ∧ (is_ok r = true → covered h' a')) h a) →
  ∀ h a, acq_ok h0 h a → covered h a →
  awp (for_all f l) (λ h' a' r, acq_ok h0 h' a' ∧ (is_ok r = true → covered h' a')) h a.
Proof.
  intros Hf. induction l as [|x l IH]; intros h a Ha Hc; unfold awp; cbn [for_all]; [by wp_steps|].
  apply hwp_bind. eapply hwp_mono; [by apply Hf|]. intros [h1 a1] [[]|e] [Ha1 Hc1]; simpl in *; [by apply IH; auto|done].
Qed.

Lemma acquire_all_spec os name targets captured cwd h :
  handlers_ok others owned ∅ ∅ h →
  awp (acquire_all os name targets captured cwd) (λ h' a' r, acq_ok h h' a' ∧ (is_ok r = true → covered h' a'))
    h (mkAcquired ∅ ∅ []).
Proof.
  intros Hok. unfold awp, acquire_all. apply hwp_bind. eapply hwp_mono.
  - apply (for_all_awp (acquire_slot os name cwd) h targets); [intros; by apply acquire_slot_spec| |by intros ? ?%elem_of_nil].
    constructor; simpl; try done; try (by intros; split; [|apply not_elem_of_nil]); auto using frame_refl;
      first [by intros ? ?%elem_of_nil|constructor|set_solver].
  - intros [h1 a1] [[]|e] [Ha1 Hc1]; simpl in *; [|done]. apply hwp_bind. eapply hwp_mono.
    + apply (for_all_awp (λ pid, own_sink pid _) h captured); [|done|by apply Hc1].
      intros pid h2 a2 Ha2 Hc2. eapply hwp_mono; [by apply own_sink_spec|]. intros [h3 a3] [[]|e] [Heq Hr]; simpl in *; subst h3; [|by subst].
      destruct Hr as (Ha3 & _ & Hcr & Hsub & _). split; [done|]. intros _ id Hid Hact. rewrite Hcr in Hid. apply Hsub. by apply Hc2.
    + intros [h2 a2] [[]|e] [Ha2 Hc2]; simpl in *; [|done]. unfold check_counts. wp_steps. simpl.
      generalize (ascending (ac_sinks a2)). intros l. induction l as [|x l IH]; cbn [for_all]; [by wp_steps|].
      apply hwp_bind. destruct (usize_checked_add _ 1); wp_steps; [exact IH|done].
Qed.

(** ** Undoing, installing *)

Lemma abandon_spec os h0 created : ∀ error h,
  handlers_ok others owned ∅ ∅ h0 → acq_ok h0 h (mkAcquired ∅ ∅ created) →
  wp (abandon os created error) (λ h' r, is_ok r = true ∧ handlers_ok others owned ∅ ∅ h' ∧ frame h0 h' ∧
    contexts (h_state h') = contexts (h_state h0) ∧ by_target (h_state h') = by_target (h_state h0) ∧
    h_active h' = h_active h0) h.
Proof.
  induction created as [|id created IH]; intros error h Hok0 Ha; cbn [abandon].
  { wp_steps. split; [done|]. destruct Ha. split_and!; [done|done|done| |].
    - apply map_eq. intros key. apply option_eq. intros pid. split; [|by intros [? _]%aq_old_target0].
      intros [?|?%elem_of_nil]%aq_new_target0; done.
    - apply map_eq. intros x. apply option_eq. intros b. split; [|by intros [? _]%aq_old_active0].
      intros [?|?%elem_of_nil]%aq_new_active0; done. }
  destruct (aq_created _ _ _ Ha id) as (key & pid & Hkey & Hpid); [apply elem_of_cons; by left|].
  pose proof (aq_ok _ _ _ Ha) as Hok. destruct (ok_target _ _ _ _ _ Hok _ _ Hkey) as [[_ Hb] Hfile].
  rewrite Hpid in Hb. wp_steps. rewrite Hb. eapply wp_expect_some; [done|]. wp_steps. simpl.
  pose proof (aq_nodup _ _ _ Ha) as Hnd. simpl in Hnd. apply NoDup_cons in Hnd as [Hnin Hnd].
  set (s' := set_by_target (delete key) (set_bindings (delete id) (h_state h))).
  assert (Hbs : ∀ i b, bindings s' !! i = Some b → bindings (h_state h) !! i = Some b).
  { intros i b Hi. simpl in Hi. by apply lookup_delete_Some in Hi as [_ ?]. }
  assert (Hkeep : ∀ p t, registered (h_state h) p t → pi_id (pid_identity p) ≠ id → registered s' p t).
  { intros p t [Hk Hp] Hne. split; [done|]. simpl. by rewrite lookup_delete_ne. }
  assert (Hid0 : (hi_binding (h_ids h0) < id)%N) by (apply (aq_fresh _ _ _ Ha), elem_of_cons; by left).
  assert (Hkeep' : ∀ i c k p t, contexts (h_state h) !! i = Some c → bc_slots c !! k = Some p →
     registered (h_state h) p t → registered s' p t).
  { intros i c k p t Hc Hk Hr. apply Hkeep; [done|]. rewrite (aq_contexts _ _ _ Ha) in Hc.
    destruct (ok_slots _ _ _ _ _ Hok0 _ _ _ _ Hc Hk) as (t' & [_ Hr'] & _). apply (ok_bindings _ _ _ _ _ Hok0) in Hr'.
    intros Heq. lia. }
  assert (H0 : owner_count (h_state h) id = 0).
  { destruct (decide (owner_count (h_state h) id = 0)); [done|]. exfalso.
    assert (Hp : 0 < owner_count (h_state h0) id) by (unfold owner_count in *; rewrite <- (aq_contexts _ _ _ Ha); lia).
    destruct (ok_owned_open _ _ _ _ _ Hok0 id) as [b Hb']; [by left|].
    destruct (id_free h0 _ _ id Hok0 Hid0) as [_ Hn]. congruence. }
  (* what is left to show about the state without the binding *)
  assert (Hnext : ∀ h1, handlers_ok others owned ∅ (list_to_set created) h1 → frame h h1 →
      contexts (h_state h1) = contexts (h_state h) → h_ids h1 = h_ids h →
      by_target (h_state h1) = delete key (by_target (h_state h)) → h_active h1 = delete id (h_active h) →
      acq_ok h0 h1 (mkAcquired ∅ ∅ created)).
  { intros h1 Hok1 Hf1 Hc1 Hi1 Ht1 Ha1. constructor; simpl; try done.
    - eapply frame_trans; [apply (aq_frame _ _ _ Ha)|done].
    - by rewrite Hc1, (aq_contexts _ _ _ Ha).
    - by rewrite Hi1, (aq_context_id _ _ _ Ha).
    - intros i Hi. apply (aq_fresh _ _ _ Ha), elem_of_cons. by right.
    - rewrite Hi1. apply (aq_binding_id _ _ _ Ha).
    - intros k p Hk. destruct (aq_old_target _ _ _ Ha _ _ Hk) as [Hk' Hn]. simpl in Hn. rewrite Ht1. split.
      + rewrite lookup_delete_ne; [done|]. intros <-. rewrite Hkey in Hk'. injection Hk' as ->. apply Hn, elem_of_cons. by left.
      + intros ?. apply Hn, elem_of_cons. by right.
    - intros k p Hk. rewrite Ht1 in Hk. apply lookup_delete_Some in Hk as [Hne Hk].
      destruct (aq_new_target _ _ _ Ha _ _ Hk) as [|Hin]; [by left|]. simpl in Hin. apply elem_of_cons in Hin as [Heq|]; [|by right].
      exfalso. apply Hne. destruct (ok_target _ _ _ _ _ Hok _ _ Hk) as [[_ Hr] _]. rewrite Heq, Hb in Hr. by injection Hr.
    - intros i b Hi. destruct (aq_old_active _ _ _ Ha _ _ Hi) as [Hi' Hn]. simpl in Hn. rewrite Ha1. split.
      + rewrite lookup_delete_ne; [done|]. intros <-. apply Hn, elem_of_cons. by left.
      + intros ?. apply Hn, elem_of_cons. by right.
    - intros i b Hi. rewrite Ha1 in Hi. apply lookup_delete_Some in Hi as [Hne Hi].
      destruct (aq_new_active _ _ _ Ha _ _ Hi) as [|Hin]; [by left|]. simpl in Hin. apply elem_of_cons in Hin as [Heq|]; [done|by right].
    - intros i Hi. destruct (aq_created _ _ _ Ha i) as (k & p & Hk & Hp); [apply elem_of_cons; by right|].
      exists k, p. split; [|done]. rewrite Ht1, lookup_delete_ne; [done|]. intros <-. congruence. }
  destruct (h_active h !! id) as [address|] eqn:Hact.
  - destruct (ok_active _ _ _ _ _ Hok _ _ Hact) as (path & p & sk & Hp & Hpi & Hsk & Hpath).
    assert (key = File path) as ->.
    { destruct (ok_target _ _ _ _ _ Hok _ _ Hp) as [[_ Hr] _]. rewrite Hpi, Hb in Hr. by injection Hr. }
    wp_steps. apply wp_catch. eapply wp_lease_release; [exact Hsk| |].
    { rewrite (ok_leases _ _ _ _ _ Hok _ _ Hsk), (leased_active _ _ _ _ _ _ _ Hok Hact). lia. }
    intros r _. apply IH; [done|]. apply Hnext.
    + replace ∅ with (∅ ∖ {[id]} : gset N) by set_solver.
      replace (list_to_set created : gset N) with (list_to_set (id :: created) ∖ {[id]} : gset N) by set_solver.
      refine (closed_ok others owned _ _ h id address sk path s' Hok Hact Hsk _ _ _ Hbs Hkeep Hkeep' _ _ _ H0); simpl; try done.
      * by rewrite Hkey, <- Hpid.
      * apply eq_None_not_Some. intros [n Hn]. pose proof (ok_counts _ _ _ _ _ Hok id) as Hc. rewrite Hn, H0 in Hc.
        rewrite (bool_decide_eq_false_2 (id ∈ ∅)) in Hc by set_solver. simpl in Hc.
        apply (ok_positive _ _ _ _ _ Hok id). congruence.
    + by apply (closed_frame h id address sk (λ _, s')).
    + done.
    + done.
    + done.
    + done.
  - apply IH; [done|]. apply Hnext; simpl.
    + constructor; simpl; try apply Hok.
      * intros sink Hs. destruct (ok_open _ _ _ _ _ Hok sink Hs) as [?|[?|Hin]]; [by left|by right; left|]. right. right.
        simpl in Hin. assert (sink ≠ id) by (intros ->; rewrite Hact in Hs; by destruct Hs). set_solver.
      * intros k p [Hne Hk]%lookup_delete_Some. destruct (ok_target _ _ _ _ _ Hok _ _ Hk) as [Hr Hf]. split; [|done].
        apply Hkeep; [done|]. intros Heq. apply Hne. destruct Hr as [_ Hr]. rewrite Heq, Hb in Hr. by injection Hr.
      * intros i b Hi. destruct (ok_active _ _ _ _ _ Hok _ _ Hi) as (path & p & sk & Hp & Hpi & Hsk & Hpath).
        exists path, p, sk. rewrite lookup_delete_ne; [done|]. intros ->. rewrite Hkey in Hp. injection Hp as <-. congruence.
      * intros i c k p Hc Hk. destruct (ok_slots _ _ _ _ _ Hok _ _ _ _ Hc Hk) as (t & Ht & Hf). exists t.
        split; [by eapply Hkeep'|done].
      * intros i b Hi. by eapply (ok_bindings _ _ _ _ _ Hok), Hbs.
    + eapply frame_trans; by apply frame_state.
    + done.
    + done.
    + done.
    + symmetry. by apply delete_id.
Qed.

Lemma fold_counts l : ∀ (m : gmap N nat), NoDup l → ∀ x,
  foldl (λ (m : gmap N nat) sink, <[sink := S (default 0 (m !! sink))]> m) m l !! x =
  if decide (x ∈ l) then Some (S (default 0 (m !! x))) else m !! x.
Proof.
  induction l as [|y l IH]; intros m Hnd x; [done|]. apply NoDup_cons in Hnd as [Hy Hnd]. cbn [foldl]. rewrite IH by done.
  destruct (decide (x = y)) as [->|Hne].
  - rewrite decide_False, lookup_insert_eq by done. by rewrite decide_True by (apply elem_of_cons; by left).
  - rewrite lookup_insert_ne by done. apply decide_ext. rewrite elem_of_cons. naive_solver.
Qed.

(** Nothing was opened that is not owned. *)
Lemma created_done P C h :
  handlers_ok others owned P C h → (∀ x, x ∈ C → is_Some (h_active h !! x) → False) → handlers_ok others owned P ∅ h.
Proof.
  intros Hok HC. constructor; try apply Hok. intros sink Hs.
  destruct (ok_open _ _ _ _ _ Hok sink Hs) as [?|[?|Hin]]; [by left|by right; left|]. by destruct (HC sink Hin Hs).
Qed.

Lemma install_spec h0 h a id :
  acq_ok h0 h a → covered h a → contexts (h_state h) !! id = None → id = hi_context (h_ids h) → (1 ≤ id)%N →
  wp (install id a) (λ h' r, frame h h' ∧
    match r with
    | Ok None => contexts (h_state h') = contexts (h_state h) ∧ handlers_ok others owned ∅ ∅ h'
    | Ok (Some id') => id' = id ∧ handlers_ok others (λ x, one (bool_decide (x = id)) + owned x) ∅ ∅ h' ∧
        ∃ c, contexts (h_state h') = <[id := c]> (contexts (h_state h)) ∧
          bc_slots c = ac_slots a ∧ (∀ x, x ∈ bc_sinks c ↔ x ∈ ac_sinks a)
    | Err _ => False
    end) h.
Proof.
  intros Ha Hcov Hfree Hid H1. pose proof (aq_ok _ _ _ Ha) as Hok. unfold install. case_bool_decide as Hnone.
  { wp_steps. split; [apply frame_refl|]. split; [done|]. eapply created_done; [done|].
    intros x Hx%elem_of_list_to_set Hact. apply (Hcov x Hx) in Hact. destruct Hnone as [_ He]. set_solver. }
  wp_steps. split; [eapply frame_trans; by apply frame_state|]. split; [done|].
  destruct (refs_free _ _ _ _ _ _ Hok Hfree) as [Ho Hr].
  set (fc := foldl (λ (m : gmap N nat) sink, <[sink := S (default 0 (m !! sink))]> m) (file_contexts (h_state h)) (ascending (ac_sinks a))).
  assert (Hfc : ∀ x, fc !! x = if decide (x ∈ ac_sinks a) then Some (S (default 0 (file_contexts (h_state h) !! x)))
                               else file_contexts (h_state h) !! x).
  { intros x. unfold fc. rewrite fold_counts by apply NoDup_ascending. apply decide_ext, elem_of_ascending. }
  split.
  - set (h1 := set_state (set_file_contexts (λ _, fc)) h).
    assert (Hok1 : handlers_ok others owned (ac_sinks a) (list_to_set (ac_created a)) h1).
    { pose proof (contexts_ok others owned owned ∅ (ac_sinks a) (list_to_set (ac_created a)) (list_to_set (ac_created a)) h
        (contexts (h_state h)) fc (h_ids h) Hok) as Hk. apply Hk; clear Hk; try apply Hok; try done.
      - intros x. rewrite Hfc. pose proof (ok_counts _ _ _ _ _ Hok x) as Hc.
        rewrite (bool_decide_eq_false_2 (x ∈ ∅)) in Hc by set_solver. unfold owner_count in Hc. simpl in Hc.
        case_decide as Hin; [rewrite bool_decide_eq_true_2 by done|rewrite bool_decide_eq_false_2 by done]; simpl; lia.
      - intros x Hx. rewrite Hfc in Hx. case_decide; [done|]. by apply (ok_positive _ _ _ _ _ Hok x).
      - intros x Hx. destruct (ok_open _ _ _ _ _ Hok x Hx) as [?|[?|?]]; [by left|set_solver|by right; right].
      - intros x [Hx|Hx]; [by apply (ok_owned_open _ _ _ _ _ Hok); left|by apply (aq_sinks _ _ _ Ha)]. }
    change (handlers_ok others (λ x, one (bool_decide (x = id)) + owned x) ∅ ∅
      (set_state (set_contexts (insert id (mkBindingContext (ac_slots a) (ascending (ac_sinks a)) 1))) h1)).
    eapply (new_context_ok others owned (ac_sinks a) (list_to_set (ac_created a))); try done; simpl.
    + lia.
    + by rewrite list_to_set_ascending.
    + apply NoDup_ascending.
    + intros k p Hk. destruct (aq_slots _ _ _ Ha _ _ Hk) as (t & Ht & Hf). exists t. split; [done|].
      intros ?. by apply elem_of_ascending, Hf.
    + intros x Hx%elem_of_list_to_set Hact. left. apply elem_of_ascending. by apply Hcov.
  - eexists. split; [done|]. simpl. split; [done|]. intros x. apply elem_of_ascending.
Qed.

Lemma forget_dead held h P C :
  handlers_ok others owned P C h →
  handlers_ok others owned P C
    (set_state (λ s, set_bindings (filter (λ b, alive held s (hb_identity b.2) = true)) s) h).
Proof.
  intros Hok. assert (Hsub : ∀ i b, filter (λ b, alive held (h_state h) (hb_identity b.2) = true) (bindings (h_state h)) !! i = Some b →
    bindings (h_state h) !! i = Some b) by (by intros i b [? _]%map_lookup_filter_Some).
  assert (Hkeep : ∀ p t, registered (h_state h) p t → alive held (h_state h) (pid_ptr p) = true →
    registered (set_bindings (filter (λ b, alive held (h_state h) (hb_identity b.2) = true)) (h_state h)) p t).
  { intros p t [Hk Hb] Hal. split; [done|]. simpl. by apply map_lookup_filter_Some. }
  constructor; simpl; try apply Hok.
  - intros key pid Hp. destruct (ok_target _ _ _ _ _ Hok _ _ Hp) as [Hr Hf]. split; [|done]. apply Hkeep; [done|].
    unfold alive. rewrite !orb_true_iff. left. right. apply existsb_exists. exists (key, pid).
    split; [by apply list_elem_of_In, elem_of_map_to_list|by apply bool_decide_eq_true].
  - intros i c key pid Hc Hk. destruct (ok_slots _ _ _ _ _ Hok _ _ _ _ Hc Hk) as (t & Ht & Hf). exists t. split; [|done].
    apply Hkeep; [done|]. unfold alive. rewrite !orb_true_iff. right. apply existsb_exists. exists (i, c).
    split; [by apply list_elem_of_In, elem_of_map_to_list|]. apply existsb_exists. exists (key, pid).
    split; [by apply list_elem_of_In, elem_of_map_to_list|by apply bool_decide_eq_true].
  - intros i b Hi. by eapply (ok_bindings _ _ _ _ _ Hok), Hsub.
Qed.

Lemma acquire_spec os held name targets captured cwd h :
  handlers_ok others owned ∅ ∅ h →
  wp (acquire os held name targets captured cwd) (λ h' r, frame h h' ∧
    match r with
    | Ok (Some id) => contexts (h_state h) !! id = None ∧
        handlers_ok others (λ x, one (bool_decide (x = id)) + owned x) ∅ ∅ h' ∧
        ∃ c, contexts (h_state h') = <[id := c]> (contexts (h_state h))
    | Ok None => contexts (h_state h') = contexts (h_state h) ∧ handlers_ok others owned ∅ ∅ h'
    | Err _ => contexts (h_state h') = contexts (h_state h) ∧ by_target (h_state h') = by_target (h_state h) ∧
        h_active h' = h_active h ∧ handlers_ok others owned ∅ ∅ h'
    end) h.
Proof.
  intros Hok. unfold acquire. apply hwp_bind, wp_rewrap, next_context_spec.
  { intros e. split; [apply frame_refl|]. done. }
  intros n Hn Hle. apply hwp_bind, wp_modify. set (h1 := set_state _ _).
  assert (Hok1 : handlers_ok others owned ∅ ∅ h1) by (apply forget_dead, next_context_ok; [done|lia]).
  assert (Hf1 : frame h h1) by (eapply frame_trans; [apply frame_ids|by apply frame_state]).
  unfold wp at 1, acquire_or_abandon. pose proof (acquire_all_spec os name targets captured cwd h1 Hok1) as Hall.
  unfold awp, wp in Hall. destruct (acquire_all os name targets captured cwd (h1, mkAcquired ∅ ∅ [])) as [[h2 a] [[]|[p|e]]] eqn:E; [|done|].
  - destruct Hall as [Ha Hcov]. simpl in Ha, Hcov. specialize (Hcov eq_refl).
    assert (Hfree0 : contexts (h_state h) !! n = None) by (eapply context_free; [exact Hok|lia]).
    assert (Hfree : contexts (h_state h2) !! n = None) by (by rewrite (aq_contexts _ _ _ Ha)).
    pose proof (install_spec h1 h2 a n Ha Hcov Hfree) as Hi. rewrite (aq_context_id _ _ _ Ha) in Hi. specialize (Hi eq_refl ltac:(lia)).
    unfold wp in Hi. destruct (install n a h2) as [h3 [[id|]|[p|e]]]; try done.
    + destruct Hi as (Hf & -> & Hok3 & c & Hc & _ & _). split; [|split; [|split; [done|]]].
      * eapply frame_trans; [exact Hf1|]. eapply frame_trans; [apply (aq_frame _ _ _ Ha)|done].
      * done.
      * exists c. by rewrite Hc, (aq_contexts _ _ _ Ha).
    + destruct Hi as (Hf & Hc & Hok3). split; [|split; [|done]].
      * eapply frame_trans; [exact Hf1|]. eapply frame_trans; [apply (aq_frame _ _ _ Ha)|done].
      * by rewrite Hc, (aq_contexts _ _ _ Ha).
    + by destruct Hi.
  - destruct Hall as [Ha _]. simpl in Ha.
    assert (Ha' : acq_ok h1 h2 (mkAcquired ∅ ∅ (ac_created a))).
    { destruct Ha. by constructor. }
    pose proof (abandon_spec os h1 (ac_created a) e h2 Hok1 Ha') as Hab. unfold wp in Hab.
    change ((error ← abandon os (ac_created a) e; throw error) h2) with
      (match abandon os (ac_created a) e h2 with (s', Ok x) => throw (A := option N) x s' | (s', Err x) => (s', Err x) end).
    destruct (abandon os (ac_created a) e h2) as [h3 [e'|[p|e']]]; [|done|by destruct Hab].
    destruct Hab as (_ & Hok3 & Hf & Hc & Ht & Hac). simpl. split; [by eapply frame_trans|]. by split_and!.
Qed.
End Acquire.
