(* ===== verification/HandlerQueue.v ===== *)
(** * The queue of writes to files

    [queues_ok] relates the pending writes to their queues, to the contexts that keep their
    files open and to the writes that happened.  The operations on contexts keep it because they
    leave the writes alone ([frame_queues]); accepting and resuming a write keep it as well. *)

From S2P Require Import Prelude Names ListHandle Value TypeRegistry OperandStack Ir FunctionTable RuntimeError.
From S2P Require Import HandlerBindings HandlerProps HandlerAcquire.
Import HandlerBindings.

Section Queue.
Context {Origin : Type}.
Implicit Types h : Handlers Origin.
Implicit Types s : HandlerState Origin.

(** ** The queue of writes *)

Record queues_ok h : Prop := {
  qk_queue : ∀ sink q, queues (h_state h) !! sink = Some q →
    q ≠ [] ∧ StronglySorted N.lt q ∧
    ∀ r, r ∈ q ↔ ∃ rq, requests (h_state h) !! r = Some rq ∧ fw_sink rq = sink;
  qk_request : ∀ r rq, requests (h_state h) !! r = Some rq →
    is_Some (queues (h_state h) !! fw_sink rq) ∧ (r ≤ hi_request (h_ids h))%N ∧
    (∃ id c, fw_context rq = Some id ∧ contexts (h_state h) !! id = Some c ∧ fw_sink rq ∈ bc_sinks c) ∧
    (fw_started rq = true → queues (h_state h) !! fw_sink rq ≫= head = Some r);
  qk_log : ∀ a, StronglySorted N.lt (writes a (h_log h));
  qk_before : ∀ sink a q r r', h_active h !! sink = Some a → queues (h_state h) !! sink = Some q →
    r ∈ writes a (h_log h) → r' ∈ q → (r < r')%N;
  qk_logged : ∀ a r, r ∈ writes a (h_log h) → (r ≤ hi_request (h_ids h))%N ∧ is_Some (h_sinks h !! a);
}.

(** Contexts may come and go, but the files of a context never change. *)
Definition stable (cs cs' : gmap N BindingContext) : Prop :=
  ∀ i c c', cs !! i = Some c → cs' !! i = Some c' → bc_sinks c' = bc_sinks c.

Lemma frame_queues others owned h h' :
  queues_ok h → frame h h' → handlers_ok others owned ∅ ∅ h' → stable (contexts (h_state h)) (contexts (h_state h')) →
  queues_ok h'.
Proof.
  intros Hq Hf Hok Hst. pose proof (fr_writes _ _ Hf) as Hw. destruct Hf as [Hr Hqs Hid _ Hs Ha]. constructor.
  - intros sink q. rewrite Hqs, Hr. apply (qk_queue _ Hq).
  - intros r rq Hrq. rewrite Hr in Hrq. destruct (qk_request _ Hq _ _ Hrq) as (H1 & H2 & (id & c & Hc & Hcs & Hin) & H4).
    rewrite Hqs, Hid. split_and!; [done|done| |done]. destruct (ok_refs _ _ _ _ _ Hok id) as [c' Hc'].
    { assert (0 < request_refs (h_state h') id); [|lia]. apply count_pos. exists r, rq. rewrite Hr. split; [done|].
      by apply bool_decide_eq_true. }
    exists id, c'. split_and!; [done|done|]. by rewrite (Hst _ _ _ Hcs Hc').
  - intros a. rewrite Hw. apply (qk_log _ Hq).
  - intros sink a q r r' Hact Hsq. rewrite Hqs in Hsq. rewrite Hw. intros Hin.
    destruct (Ha _ _ Hact) as [Hact'|Hn]; [by apply (qk_before _ Hq sink a q)|].
    destruct (qk_logged _ Hq a r Hin) as [_ [sk Hsk]]. congruence.
  - intros a r. rewrite Hw, Hid. intros Hin. destruct (qk_logged _ Hq a r Hin). split; [done|by apply Hs].
Qed.

Lemma stable_insert cs i c : cs !! i = None ∨ (∃ c0, cs !! i = Some c0 ∧ bc_sinks c0 = bc_sinks c) → stable cs (<[i := c]> cs).
Proof.
  intros Hi j c1 c2 H1 [[<- <-]|[_ H2]]%lookup_insert_Some; [|congruence].
  destruct Hi as [?|(c0 & Hc0 & ?)]; congruence.
Qed.

Lemma stable_released cs i c : cs !! i = Some c → stable cs (released c i cs).
Proof.
  intros Hi. unfold released. case_decide.
  - intros j c1 c2 H1 [_ H2]%lookup_delete_Some. congruence.
  - apply stable_insert. right. by exists c.
Qed.

(** ** Requests hold references *)

(** The registry with other requests, whose references are accounted for. *)
Lemma requests_ok others owned owned' h rs qs :
  handlers_ok others owned ∅ ∅ h →
  (∀ id, owned' id + count (writes_in id) rs = owned id + request_refs (h_state h) id) →
  handlers_ok others owned' ∅ ∅ (set_state (λ s, set_queues (λ _, qs) (set_requests (λ _, rs) s)) h).
Proof.
  intros Hok Hrefs. constructor; simpl; try apply Hok.
  - intros id c Hc. unfold request_refs. simpl. rewrite Hrefs. by apply (ok_context _ _ _ _ _ Hok).
  - intros id. unfold request_refs. simpl. rewrite Hrefs. apply (ok_refs _ _ _ _ _ Hok).
Qed.

Lemma sorted_snoc (q : list N) r : StronglySorted N.lt q → (∀ x, x ∈ q → (x < r)%N) → StronglySorted N.lt (q ++ [r]).
Proof.
  induction 1 as [|x q Hs IH Hx]; intros Hr; simpl; [repeat constructor|]. constructor.
  - apply IH. intros y Hy. apply Hr, elem_of_cons. by right.
  - apply Forall_app. split; [done|]. constructor; [|done]. apply Hr, elem_of_cons. by left.
Qed.

Lemma sorted_filter (q : list N) (P : N → Prop) `{∀ x, Decision (P x)} : StronglySorted N.lt q → StronglySorted N.lt (filter P q).
Proof.
  induction 1 as [|x q Hs IH Hx]; [constructor|]. rewrite filter_cons. case_decide; [|done]. constructor; [done|].
  apply Forall_forall. intros y [_ Hy]%list_elem_of_filter. rewrite Forall_forall in Hx. by apply Hx.
Qed.

Definition bump (id : N) (owned : N → nat) (x : N) : nat := one (bool_decide (x = id)) + owned x.

Lemma next_request_spec h (Q : Handlers Origin → Result RuntimeError N → Prop) :
  (∀ e, Q h (Err e)) →
  (∀ n, n = (hi_request (h_ids h) + 1)%N →
     Q (set_ids (mkHandlerIds (hi_binding (h_ids h)) (hi_context (h_ids h)) n) h) (Ok n)) →
  wp next_request Q h.
Proof.
  intros He Hn. unfold next_request, next. wp_steps. case_decide; [|apply wp_of_result, He].
  apply wp_of_result. wp_steps. by apply Hn.
Qed.

Lemma next_request_ok others owned h n :
  handlers_ok others owned ∅ ∅ h → queues_ok h → (hi_request (h_ids h) ≤ n)%N →
  let h' := set_ids (mkHandlerIds (hi_binding (h_ids h)) (hi_context (h_ids h)) n) h in
  handlers_ok others owned ∅ ∅ h' ∧ queues_ok h'.
Proof.
  intros Hok Hq Hn. split.
  - constructor; simpl; apply Hok.
  - constructor; simpl; try apply Hq.
    + intros r rq Hr. destruct (qk_request _ Hq _ _ Hr) as (? & ? & ? & ?). split_and!; try done. lia.
    + intros a r Hr. destruct (qk_logged _ Hq _ _ Hr). split; [lia|done].
Qed.

(** ** Accepting a write *)

Lemma accept_spec others owned pid text origin path h :
  handlers_ok others owned ∅ ∅ h → queues_ok h → target pid (h_state h) = Ok (File path) →
  wp (accept_file_write pid text origin) (λ h' r, handlers_ok others owned ∅ ∅ h' ∧ queues_ok h') h.
Proof.
  intros Hok Hq Ht. unfold accept_file_write. apply hwp_bind, next_request_spec; [done|]. intros n Hn.
  set (h1 := set_ids _ h). destruct (next_request_ok others owned h n Hok Hq) as [Hok1 Hq1]; [lia|]. fold h1 in Hok1, Hq1.
  apply hwp_bind. eapply hwp_mono; [by apply derive_spec|]. intros h2 [[id|]|e] [Hf Hr]; [| |by subst].
  2: { destruct Hr as (_ & _ & Hnf). specialize (Hnf pid (File path)). exfalso.
       assert (is_file (File path) = false); [|done]. apply Hnf; [by apply list_elem_of_singleton|done]. }
  destruct Hr as (Hok2 & c & Hcs & Hsinks & Hfree). destruct Hfree as [Hfree|[? _]]; [|done].
  assert (Hq2 : queues_ok h2).
  { eapply frame_queues; [exact Hq1|exact Hf|exact Hok2|]. rewrite Hcs. apply stable_insert. by left. }
  set (sink := pi_id (pid_identity pid)). wp_steps.
  assert (Hsink : sink ∈ bc_sinks c).
  { apply Hsinks. right. exists pid, (File path). split_and!; [by apply list_elem_of_singleton|done|done|done]. }
  assert (Hnew : requests (h_state h2) !! n = None).
  { apply eq_None_not_Some. intros [rq Hrq]. destruct Hf as [Hr _ _ _ _ _]. rewrite Hr in Hrq.
    destruct (qk_request _ Hq _ _ Hrq) as (_ & ? & _). lia. }
  assert (Hn2 : hi_request (h_ids h2) = n) by (by rewrite (fr_request_ids _ _ Hf)).
  set (rq := mkFileWriteRequest sink (Some id) text origin false).
  set (q := default [] (queues (h_state h2) !! sink)).
  assert (Hqin : ∀ r, r ∈ q ↔ ∃ rq, requests (h_state h2) !! r = Some rq ∧ fw_sink rq = sink).
  { intros r. unfold q. destruct (queues (h_state h2) !! sink) as [q0|] eqn:E; simpl; [by apply (qk_queue _ Hq2)|].
    split; [by intros ?%elem_of_nil|]. intros (rq' & Hrq & Hs). destruct (qk_request _ Hq2 _ _ Hrq) as ([? Hx] & _). congruence. }
  assert (Hlt : ∀ r rq, requests (h_state h2) !! r = Some rq → (r < n)%N).
  { intros r rq' Hrq. destruct Hf as [Hr _ _ _ _ _]. rewrite Hr in Hrq. destruct (qk_request _ Hq _ _ Hrq) as (_ & ? & _). lia. }
  assert (Hqs : StronglySorted N.lt q).
  { unfold q. destruct (queues (h_state h2) !! sink) eqn:E; simpl; [by apply (qk_queue _ Hq2 _ _ E)|constructor]. }
  assert (Hqhead : ∀ r, queues (h_state h2) !! sink ≫= head = Some r → head (q ++ [n]) = Some r).
  { intros r. unfold q. destruct (queues (h_state h2) !! sink) as [[|]|]; done. }
  assert (Hqold : ∀ r, r ∈ q → ∃ q0, queues (h_state h2) !! sink = Some q0 ∧ r ∈ q0).
  { intros r. unfold q. destruct (queues (h_state h2) !! sink) as [q0|]; [by exists q0|by intros ?%elem_of_nil]. }
  split.
  - apply (requests_ok others (bump id owned) owned h2 (<[n := rq]> (requests (h_state h2))) _ Hok2).
    intros x. unfold request_refs. rewrite count_insert by done. unfold bump. unfold writes_in at 1. simpl.
    assert (bool_decide (Some id = Some x) = bool_decide (x = id)) as -> by (apply bool_decide_ext; naive_solver).
    unfold one. lia.
  - change (queues_ok (set_state (λ s, set_queues (λ _, <[sink := q ++ [n]]> (queues (h_state h2)))
      (set_requests (λ _, <[n := rq]> (requests (h_state h2))) s)) h2)).
    clearbody q. constructor; simpl.
    + intros sk q' [[<- <-]|[Hne Hq']]%lookup_insert_Some.
      * split_and!; [by intros [_ ?]%app_nil| |].
        -- apply sorted_snoc.
           ++ done.
           ++ intros x (rq' & Hrq & _)%Hqin. by eapply Hlt.
        -- intros r. rewrite elem_of_app, list_elem_of_singleton, Hqin. split.
           ++ intros [(rq' & Hrq & Hs)| ->]; [|exists rq; by rewrite lookup_insert_eq].
              exists rq'. rewrite lookup_insert_ne; [done|]. apply Hlt in Hrq. lia.
           ++ intros (rq' & [[<- <-]|[Hne Hrq]]%lookup_insert_Some & Hs); [by right|left; by exists rq'].
      * destruct (qk_queue _ Hq2 _ _ Hq') as (H1 & H2 & H3). split_and!; [done|done|]. intros r. rewrite H3. split.
        -- intros (rq' & Hrq & Hs). exists rq'. rewrite lookup_insert_ne; [done|]. apply Hlt in Hrq. lia.
        -- intros (rq' & [[<- <-]|[Hne' Hrq]]%lookup_insert_Some & Hs); [by rewrite <- Hs in Hne|by exists rq'].
    + intros r rq' [[<- <-]|[Hne Hrq]]%lookup_insert_Some; simpl.
      * rewrite lookup_insert_eq. split_and!; [by eexists|lia| |done]. exists id, c. rewrite Hcs, lookup_insert_eq. done.
      * destruct (qk_request _ Hq2 _ _ Hrq) as (H1 & H2 & H3 & H4). split_and!; [|done|done|].
        -- destruct (decide (fw_sink rq' = sink)) as [->|]; [by rewrite lookup_insert_eq|by rewrite lookup_insert_ne].
        -- intros Hs. specialize (H4 Hs). destruct (decide (fw_sink rq' = sink)) as [E|]; [|by rewrite lookup_insert_ne].
           rewrite E in *. rewrite lookup_insert_eq. by apply Hqhead.
    + apply (qk_log _ Hq2).
    + intros sk a q' r r' Hact [[<- <-]|[Hne Hq']]%lookup_insert_Some Hr Hr'.
      * apply elem_of_app in Hr' as [Hr'|Hr'%list_elem_of_singleton].
        -- destruct (Hqold _ Hr') as (q0 & E & Hr0). by eapply (qk_before _ Hq2 sink a q0).
        -- subst r'. rewrite (fr_writes _ _ Hf) in Hr. simpl in Hr. destruct (qk_logged _ Hq _ _ Hr) as [? _]. lia.
      * by eapply (qk_before _ Hq2 sk a q').
    + apply (qk_logged _ Hq2).
Qed.

(** ** Resuming a write *)

Lemma owned_ext others owned owned' P C h :
  handlers_ok others owned P C h → (∀ x, owned' x = owned x) → handlers_ok others owned' P C h.
Proof.
  intros Hok He. constructor; try apply Hok.
  - intros id c Hc. rewrite He. by apply (ok_context _ _ _ _ _ Hok).
  - intros id. rewrite He. apply (ok_refs _ _ _ _ _ Hok).
Qed.

Lemma filter_keeps_all (P : N → Prop) `{∀ x, Decision (P x)} (l : list N) : Forall P l → filter P l = l.
Proof. induction 1; [done|]. rewrite filter_cons, decide_True by done. by f_equal. Qed.

Lemma sorted_head_tail (q : list N) r :
  StronglySorted N.lt q → head q = Some r → tail q = filter (λ x, x ≠ r) q ∧ (∀ x, x ∈ q → x ≠ r → (r < x)%N).
Proof.
  intros Hs Hr. destruct q as [|y q]; [done|]. injection Hr as ->. apply StronglySorted_inv in Hs as [_ Hs].
  rewrite Forall_forall in Hs. split.
  - rewrite filter_cons, decide_False by (intros H; by apply H). simpl. symmetry. apply filter_keeps_all.
    apply Forall_forall. intros x Hx ->. specialize (Hs r Hx). lia.
  - intros x [-> | Hx]%elem_of_cons Hne; [done|]. by apply Hs.
Qed.

(** The registry without a request. *)
Definition without (r : N) (rq : FileWriteRequest Origin) (q : list N) h : Handlers Origin :=
  let rest := filter (λ x, x ≠ r) q in
  set_state (λ s, set_queues (λ _, if decide (rest = []) then delete (fw_sink rq) (queues (h_state h))
                                   else <[fw_sink rq := rest]> (queues (h_state h)))
                    (set_requests (λ _, delete r (requests (h_state h))) s)) h.

Lemma wp_remove_request r rq q h (Q : Handlers Origin → Result RuntimeError (FileWriteRequest Origin) → Prop) :
  queues_ok h → requests (h_state h) !! r = Some rq → queues (h_state h) !! fw_sink rq = Some q →
  Q (without r rq q h) (Ok rq) → wp (remove_request r) Q h.
Proof.
  intros Hq Hr Hsq HQ. unfold remove_request. wp_steps. rewrite Hr. apply wp_of_option; [|done]. intros ? [= <-]. wp_steps.
  simpl. rewrite Hsq. apply wp_of_option; [|done]. intros ? [= <-]. wp_steps.
  destruct (qk_queue _ Hq _ _ Hsq) as (_ & Hs & _). unfold without in HQ.
  assert (Heq : (if decide (head q = Some r) then tail q else filter (λ x, x ≠ r) q) = filter (λ x, x ≠ r) q).
  { destruct (decide (head q = Some r)) as [Hh|]; [|done]. by apply sorted_head_tail. }
  rewrite Heq. unfold set_state, set_queues, set_requests in *. simpl in *. by destruct (decide (filter (λ x, x ≠ r) q = [])). 
Qed.

Lemma without_ok others owned r rq q id h :
  handlers_ok others owned ∅ ∅ h → requests (h_state h) !! r = Some rq → fw_context rq = Some id →
  handlers_ok others (bump id owned) ∅ ∅ (without r rq q h).
Proof.
  intros Hok Hr Hid. apply (requests_ok others owned (bump id owned) h _ _ Hok).
  intros x. unfold request_refs. rewrite (count_delete _ _ r rq Hr). unfold bump, writes_in at 2. rewrite Hid.
  assert (bool_decide (Some id = Some x) = bool_decide (x = id)) as -> by (apply bool_decide_ext; naive_solver).
  unfold one. lia.
Qed.

Lemma without_queues r rq q h :
  queues_ok h → requests (h_state h) !! r = Some rq → queues (h_state h) !! fw_sink rq = Some q →
  queues_ok (without r rq q h) ∧
  (∀ q' r', queues (h_state (without r rq q h)) !! fw_sink rq = Some q' → r' ∈ q' → r' ∈ q ∧ r' ≠ r).
Proof.
  intros Hq Hr Hsq. destruct (qk_queue _ Hq _ _ Hsq) as (Hne & Hs & Hmem).
  set (rest := filter (λ x, x ≠ r) q).
  assert (Hlook : ∀ sink, queues (h_state (without r rq q h)) !! sink =
    if decide (sink = fw_sink rq) then (if decide (rest = []) then None else Some rest) else queues (h_state h) !! sink).
  { intros sink. simpl. fold rest. destruct (decide (sink = fw_sink rq)) as [->|Hn]; case_decide;
      rewrite ?lookup_delete_eq, ?lookup_insert_eq, ?lookup_delete_ne, ?lookup_insert_ne by done; done. }
  assert (Hrest : ∀ x, x ∈ rest ↔ x ∈ q ∧ x ≠ r) by (intros; unfold rest; rewrite list_elem_of_filter; naive_solver).
  assert (Hsr : StronglySorted N.lt rest) by (by apply sorted_filter).
  assert (Hhead : ∀ x, head q = Some x → x ≠ r → head rest = Some x).
  { intros x Hx Hxr. unfold rest. destruct q as [|y q0]; [done|]. injection Hx as ->. by rewrite filter_cons, decide_True. }
  clearbody rest. split.
  2: { intros q' r'. rewrite Hlook, decide_True by done. destruct (decide (rest = [])); [done|]. intros [= <-]. apply Hrest. }
  constructor.
  - intros sink q'. rewrite Hlook. destruct (decide (sink = fw_sink rq)) as [Hsk|Hsk]; [destruct (decide (rest = [])) as [He|He]; [done|]|].
    + intros [= <-]. split_and!; [done|done|]. intros x. rewrite Hrest, Hmem. simpl. subst sink. split.
      * intros [(rq' & Hx & Hfs) Hxr]. exists rq'. by rewrite lookup_delete_ne.
      * intros (rq' & [Hxr Hx]%lookup_delete_Some & Hfs). split; [by exists rq'|done].
    + intros Hq'. destruct (qk_queue _ Hq _ _ Hq') as (H1 & H2 & H3). split_and!; [done|done|]. intros x. rewrite H3. simpl. split.
      * intros (rq' & Hx & Hfs). exists rq'. rewrite lookup_delete_ne; [done|]. intros <-. congruence.
      * intros (rq' & [Hxr Hx]%lookup_delete_Some & Hfs). by exists rq'.
  - intros x rq' Hx. simpl in Hx. apply lookup_delete_Some in Hx as [Hxr Hx].
    destruct (qk_request _ Hq _ _ Hx) as (H1 & H2 & H3 & H4). rewrite Hlook. split_and!; [|done|done|].
    + destruct (decide (fw_sink rq' = fw_sink rq)) as [E|E]; [|done]. rewrite decide_False; [by eexists|]. intros He.
      assert (x ∈ rest); [|by rewrite He in *; eapply elem_of_nil]. apply Hrest. split; [|done]. apply Hmem. by exists rq'.
    + intros Hst. specialize (H4 Hst). destruct (decide (fw_sink rq' = fw_sink rq)) as [E|E]; [|done]. rewrite E, Hsq in H4. simpl in H4.
      assert (Hxin : x ∈ rest). { apply Hrest. split; [|done]. apply Hmem. by exists rq'. }
      rewrite decide_False by (intros He; rewrite He in Hxin; by apply elem_of_nil in Hxin). simpl. by apply Hhead.
  - apply (qk_log _ Hq).
  - intros sink a q' y y' Hact. rewrite Hlook. destruct (decide (sink = fw_sink rq)) as [E|E]; [destruct (decide (rest = [])); [done|]|].
    + intros [= <-] Hy Hy'%Hrest. subst sink. eapply (qk_before _ Hq _ a q); [done|done|done|apply Hy'].
    + by apply (qk_before _ Hq sink a q').
  - apply (qk_logged _ Hq).
Qed.

(** A write that is logged. *)
Lemma logged_write others owned sink a r text q h :
  handlers_ok others owned ∅ ∅ h → queues_ok h → h_active h !! sink = Some a →
  (∀ x, x ∈ writes a (h_log h) → (x < r)%N) → (r ≤ hi_request (h_ids h))%N →
  queues (h_state h) !! sink = q → (∀ q' x, q = Some q' → x ∈ q' → (r < x)%N) →
  handlers_ok others owned ∅ ∅ (emit (IoWrite a r text) h) ∧ queues_ok (emit (IoWrite a r text) h).
Proof.
  intros Hok Hq Hact Hlt Hle Hsq Hafter. split; [constructor; simpl; apply Hok|].
  assert (Hw : ∀ b, writes b (h_log h ++ [IoWrite a r text]) = writes b (h_log h) ++ (if decide (a = b) then [r] else [])).
  { intros b. rewrite writes_app. f_equal. unfold writes. simpl. by case_decide. }
  constructor; simpl; try apply Hq.
  - intros b. rewrite Hw. case_decide as E; [subst b|rewrite app_nil_r; apply (qk_log _ Hq)].
    apply sorted_snoc; [apply (qk_log _ Hq)|done].
  - intros sink' b q' x x' Hact' Hq' Hx Hx'. rewrite Hw in Hx. apply elem_of_app in Hx as [Hx|Hx]; [by eapply (qk_before _ Hq sink' b q')|].
    case_decide as E; [|by apply elem_of_nil in Hx]. apply list_elem_of_singleton in Hx as ->. subst b.
    assert (sink' = sink) as -> by (by eapply (ok_inj _ _ _ _ _ Hok)). eapply Hafter; [by rewrite <- Hsq|done].
  - intros b x Hx. rewrite Hw in Hx. apply elem_of_app in Hx as [Hx|Hx]; [by apply (qk_logged _ Hq)|].
    case_decide as E; [|by apply elem_of_nil in Hx]. apply list_elem_of_singleton in Hx as ->. subst b. split; [done|].
    destruct (ok_active _ _ _ _ _ Hok _ _ Hact) as (? & ? & sk & _ & _ & Hsk & _). by eexists.
Qed.

(** Releasing the reference of a request. *)
Lemma release_request others owned os id h :
  handlers_ok others (bump id owned) ∅ ∅ h → queues_ok h →
  wp (release os (Some id)) (λ h' r, handlers_ok others owned ∅ ∅ h' ∧ queues_ok h' ∧ frame h h' ∧
    (∀ e, r = Err e → flush_failure os e)) h.
Proof.
  intros Hok Hq. eapply hwp_mono; [apply (release_spec _ _ _ _ _ Hok); unfold bump; rewrite bool_decide_eq_true_2; simpl; [lia|done]|].
  intros h' r (Hf & He & c & Hc & Hcs & Hok'). 
  assert (Hok2 : handlers_ok others owned ∅ ∅ h').
  { eapply owned_ext; [exact Hok'|]. intros x. unfold bump. lia. }
  split_and!; [done| |done|done]. eapply frame_queues; [done|done|exact Hok2|]. rewrite Hcs. by apply stable_released.
Qed.

Lemma resume_spec others owned os r incoming h :
  handlers_ok others owned ∅ ∅ h → queues_ok h →
  wp (resume_file_write os r incoming) (λ h' _, handlers_ok others owned ∅ ∅ h' ∧ queues_ok h' ∧
    match requests (h_state h) !! r with
    | Some rq =>
        if fw_started rq then
          requests (h_state h') = delete r (requests (h_state h)) ∧
          ∃ a, h_active h !! fw_sink rq = Some a ∧
            ∀ b, written b (h_log h') = written b (h_log h) ++ (if decide (a = b) then [(r, fw_text rq)] else [])
        else ∀ b, written b (h_log h') = written b (h_log h)
    | None => h' = h
    end) h.
Proof.
  intros Hok Hq. unfold resume_file_write. wp_steps. apply wp_of_option.
  2: { intros Hn. by rewrite Hn. }
  intros rq Hr. rewrite Hr. cbv beta iota. destruct (qk_request _ Hq _ _ Hr) as ([q Hsq] & Hle & (id & c & Hid & Hc & Hin) & Hst).
  destruct (qk_queue _ Hq _ _ Hsq) as (_ & Hs & Hmem).
  destruct (without_queues r rq q h Hq Hr Hsq) as [Hq1 Hafter]. pose proof (without_ok others owned r rq q id h Hok Hr Hid) as Hok1.
  destruct (fw_started rq) eqn:Hstarted; simpl.
  - apply hwp_bind. eapply wp_remove_request; [done|done|done|]. wp_steps.
    destruct (ok_owned_open _ _ _ _ _ Hok (fw_sink rq)) as [a Ha].
    { left. apply count_pos. exists id, c. split; [done|]. by apply bool_decide_eq_true. }
    simpl. rewrite Ha. apply wp_of_option; [|done]. intros ? [= <-]. apply hwp_bind. unfold write_to, deref. wp_steps.
    destruct (ok_active _ _ _ _ _ Hok _ _ Ha) as (path & p & sk & _ & _ & Hsk & _). simpl. rewrite Hsk. eapply wp_expect_some; [done|].
    wp_steps. simpl.
    specialize (Hst eq_refl). rewrite Hsq in Hst. simpl in Hst. destruct (sorted_head_tail q r Hs Hst) as [_ Hlt].
    destruct (logged_write others (bump id owned) (fw_sink rq) a r (fw_text rq) (queues (h_state (without r rq q h)) !! fw_sink rq)
      (without r rq q h)) as [Hok2 Hq2]; try done.
    { intros x Hx. eapply (qk_before _ Hq _ a q); [done|done|done|]. apply Hmem. by exists rq. }
    { intros q' x Hq' Hx. destruct (Hafter q' x Hq' Hx). by apply Hlt. }
    rewrite Hid. apply wp_catch. eapply hwp_mono; [by apply (release_request others owned)|].
    intros h3 cleanup (Hok3 & Hq3 & Hf3 & _).
    assert (Hwr : requests (h_state h3) = delete r (requests (h_state h)) ∧
      ∃ a, h_active h !! fw_sink rq = Some a ∧
        ∀ b, written b (h_log h3) = written b (h_log h) ++ (if decide (a = b) then [(r, fw_text rq)] else [])).
    { split; [by rewrite (fr_requests _ _ Hf3)|]. exists a. split; [done|]. intros b.
      rewrite (fr_written _ _ Hf3). simpl. rewrite written_app. simpl. by case_decide. }
    rewrite Ha in Hwr. pose proof (conj Hok3 (conj Hq3 Hwr)) as Hend.
    destruct incoming as [e|], (write_all os (fs_path sk) (fw_text rq)) as [[]|error]; wp_steps; try exact Hend.
    + apply wp_of_result. destruct cleanup as [[]|]; wp_steps; exact Hend.
    + apply wp_of_option; [|by intros _; exact Hend]. intros o _. wp_steps. exact Hend.
  - destruct incoming as [e|].
    + apply hwp_bind. eapply wp_remove_request; [done|done|done|]. wp_steps. rewrite Hid. apply wp_catch.
      eapply hwp_mono; [by apply (release_request others owned)|]. intros h3 cleanup (Hok3 & Hq3 & Hf3 & _). wp_steps. split_and!; [done|done|]. intros b. by rewrite (fr_written _ _ Hf3).
    + apply hwp_bind. case_decide as Hhead.
      2: { by wp_steps. }
      wp_steps.
      set (rq' := mkFileWriteRequest _ _ _ _ true).
      assert (Hrefs : ∀ x, writes_in x rq = writes_in x rq') by done.
      split_and!; [| |done].
      * pose proof (requests_ok others owned owned h (<[r := rq']> (requests (h_state h))) (queues (h_state h)) Hok) as Hk.
        apply Hk. intros x. f_equal. by apply (count_update _ _ _ rq).
      * constructor; simpl; try apply Hq.
        -- intros sink q' Hq'. destruct (qk_queue _ Hq _ _ Hq') as (H1 & H2 & H3). split_and!; [done|done|]. intros x. rewrite H3. split.
           ++ intros (rx & Hx & Hfs). destruct (decide (x = r)) as [->|]; [|exists rx; by rewrite lookup_insert_ne].
              exists rq'. rewrite lookup_insert_eq. split; [done|]. rewrite Hr in Hx. by injection Hx as <-.
           ++ intros (rx & [[<- <-]|[Hne Hx]]%lookup_insert_Some & Hfs); [by exists rq|by exists rx].
        -- intros x rx [[<- <-]|[Hne Hx]]%lookup_insert_Some; [|by apply (qk_request _ Hq)]. simpl.
           split_and!; [by eexists|done|by exists id, c|done].
Qed.
End Queue.
