(* ===== verification/HandlerTheorems.v ===== *)
(** * Theorems about handler bindings

    A machine performs the operations of the registry in any order; other machines that share
    its descriptors take and return leases in between.  [handler_files_exact]: a file is open
    exactly while a live context needs it, the references of every context are accounted for,
    no operation panics and a failed one leaves nothing behind.  [file_writes_in_order]: the
    writes to a file happen once each and in the order in which they were accepted.
    [shutdown_returns_leases]: shutting down gives back every lease and flushes exactly the
    files that no other machine uses. *)

From S2P Require Import Prelude Names ListHandle Value TypeRegistry OperandStack Ir FunctionTable RuntimeError.
From S2P Require Import HandlerBindings HandlerProps HandlerAcquire HandlerQueue.
Import HandlerBindings.

(** ** Runs *)

Section Runs.
Context {Origin : Type}.
Implicit Types h : Handlers Origin.
Implicit Types owned others : N → nat.

Inductive handler_op : Type :=
| OpAcquire (held : N → bool) (name : str) (targets : list (str * RuntimeHandlerTarget)) (captured : list PidHandle) (cwd : str)
| OpDerive (origin : option N) (captured : list PidHandle)
| OpRetain (id : N)
| OpRelease (id : N)
| OpWrite (pid : PidHandle) (text : str) (origin : option Origin)
| OpResume (request : N) (incoming : option RuntimeError).

(** An operation returns the context that its caller now owns. *)
Definition perform (os : Os) (op : handler_op) : M (Handlers Origin) (RuntimeError + AcquisitionError) (option N) :=
  match op with
  | OpAcquire held name targets captured cwd => rewrap inr (acquire os held name targets captured cwd)
  | OpDerive origin captured => rewrap inl (derive origin captured)
  | OpRetain id => rewrap inl (retain (Some id);; mret (Some id))
  | OpRelease id => rewrap inl (release os (Some id);; mret None)
  | OpWrite pid text origin => rewrap inl (out_handler_write pid text origin;; mret None)
  | OpResume r incoming => rewrap inl (resume_file_write os r incoming;; mret None)
  end.

(** Only an owner of a context gives it back. *)
Definition allowed owned (op : handler_op) : Prop :=
  match op with OpRelease id => 0 < owned id | _ => True end.

(** Who owns what afterwards; a release counts even when the flush fails. *)
Definition account (op : handler_op) (r : Try (RuntimeError + AcquisitionError) (option N)) owned : N → nat :=
  match op, r with
  | OpRelease id, _ => λ x, owned x - one (bool_decide (x = id))
  | _, Ok (Some id) => bump id owned
  | _, _ => owned
  end.

(** A machine that starts: it has no handlers, but the sinks may be in use elsewhere. *)
Definition starting others h : Prop :=
  h_state h = mkHandlerState ∅ ∅ ∅ ∅ ∅ ∅ ∅ ∧ h_active h = ∅ ∧ h_log h = [] ∧
  (∀ a, others a = match h_sinks h !! a with Some sk => fs_active_vms sk | None => 0 end) ∧
  (hi_context (h_ids h) ≤ u64_max)%N.

Inductive reachable : (N → nat) → Handlers Origin → (N → nat) → Prop :=
| reach_start others h : starting others h → reachable others h (λ _, 0)
| reach_op os op others owned h h' r :
    reachable others h owned → allowed owned op → perform os op h = (h', r) →
    reachable others h' (account op r owned)
| reach_clone others owned h h' :
    reachable others h owned → clone_leases h = (h', Ok tt) →
    reachable (λ a, others a + length (filter (λ lease, lease.2 = a) (in_order (h_active h)))) h' owned
| reach_return os a others owned h h' r :
    reachable others h owned → 0 < others a → lease_release os a h = (h', r) →
    reachable (λ x, others x - one (bool_decide (x = a))) h' owned.

(** ** Every operation keeps the invariants *)

Definition handlers_inv others owned h : Prop := handlers_ok others owned ∅ ∅ h ∧ queues_ok h.

Definition failure_ok os (op : handler_op) h h' (e : RuntimeError + AcquisitionError) : Prop :=
  match op with
  | OpAcquire _ _ _ _ _ => contexts (h_state h') = contexts (h_state h) ∧ by_target (h_state h') = by_target (h_state h) ∧
      h_active h' = h_active h
  | OpDerive _ _ | OpRetain _ => h' = h
  | OpRelease _ => ∃ error, e = inl error ∧ flush_failure os error
  | _ => True
  end.

Definition done_ok os op others owned h h' (r : Result (RuntimeError + AcquisitionError) (option N)) : Prop :=
  handlers_inv others (account op (map_err Failed r) owned) h' ∧
  match r with Ok _ => True | Err e => failure_ok os op h h' e end.

Lemma inv_ext others owned owned' h : (∀ x, owned' x = owned x) → handlers_inv others owned h → handlers_inv others owned' h.
Proof. intros He [Hok Hq]. split; [|done]. by eapply owned_ext. Qed.

Lemma inv_frame others owned owned' h h' :
  handlers_inv others owned h → frame h h' → handlers_ok others owned' ∅ ∅ h' →
  stable (contexts (h_state h)) (contexts (h_state h')) → handlers_inv others owned' h'.
Proof. intros [_ Hq] Hf Hok Hs. split; [done|]. by eapply frame_queues. Qed.

Lemma stable_refl cs cs' : cs' = cs → stable cs cs'.
Proof. intros -> i c c' H1 H2. congruence. Qed.

Lemma perform_acquire os held name targets captured cwd others owned h :
  handlers_inv others owned h →
  wp (perform os (OpAcquire held name targets captured cwd))
    (λ h' r, done_ok os (OpAcquire held name targets captured cwd) others owned h h' r) h.
Proof.
  intros Hinv. apply wp_rewrap. eapply hwp_mono; [apply acquire_spec, Hinv|]. intros h' [[id|]|e] [Hf Hr]; simpl.
  - destruct Hr as (Hn & Hok & c & Hcs). split; [|done]. eapply inv_frame; [done..|]. rewrite Hcs. apply stable_insert. by left.
  - destruct Hr as [Hcs Hok]. split; [|done]. eapply inv_frame; [done..|]. by apply stable_refl.
  - destruct Hr as (Hcs & Ht & Ha & Hok). split; [|done]. eapply inv_frame; [done..|]. by apply stable_refl.
Qed.

Lemma perform_derive os origin captured others owned h :
  handlers_inv others owned h →
  wp (perform os (OpDerive origin captured)) (λ h' r, done_ok os (OpDerive origin captured) others owned h h' r) h.
Proof.
  intros Hinv. apply wp_rewrap. eapply hwp_mono; [apply derive_spec, Hinv|]. intros h' [[id|]|e] [Hf Hr]; simpl.
  - destruct Hr as (Hok & c & Hcs & _ & Hn). split; [|done]. eapply inv_frame; [done..|]. rewrite Hcs. apply stable_insert.
    destruct Hn as [?|(_ & c0 & ?)]; [by left|right; by exists c0].
  - destruct Hr as (-> & _). by split.
  - subst. by split.
Qed.

Lemma perform_retain os id others owned h :
  handlers_inv others owned h → wp (perform os (OpRetain id)) (λ h' r, done_ok os (OpRetain id) others owned h h' r) h.
Proof.
  intros Hinv. apply wp_rewrap, hwp_bind. eapply hwp_mono; [apply (retain_spec others owned ∅ ∅), Hinv|].
  intros h' [[]|e] [Hf Hr]; wp_steps.
  - destruct Hr as (c & Hc & Hcs & Hok). split; [|done]. eapply inv_frame; [done..|]. rewrite Hcs. apply stable_insert.
    right. by exists c.
  - destruct Hr as [-> _]. by split.
Qed.

Lemma perform_release os id others owned h :
  handlers_inv others owned h → 0 < owned id →
  wp (perform os (OpRelease id)) (λ h' r, done_ok os (OpRelease id) others owned h h' r) h.
Proof.
  intros Hinv Hown. apply wp_rewrap, hwp_bind. eapply hwp_mono; [apply (release_spec others owned os h id); [apply Hinv|done]|].
  intros h' r (Hf & He & c & Hc & Hcs & Hok).
  assert (Hinv' : handlers_inv others (λ x, owned x - one (bool_decide (x = id))) h').
  { eapply inv_frame; [done..|]. rewrite Hcs. by apply stable_released. }
  destruct r as [[]|e]; wp_steps; (split; [done|]); [done|]. exists e. split; [done|]. by apply He.
Qed.

Lemma perform_write os pid text origin others owned h :
  handlers_inv others owned h →
  wp (perform os (OpWrite pid text origin)) (λ h' r, done_ok os (OpWrite pid text origin) others owned h h' r) h.
Proof.
  intros Hinv. apply wp_rewrap, hwp_bind. unfold out_handler_write. wp_steps. apply wp_of_result.
  destruct (target pid (h_state h)) as [[| | | |path]|e] eqn:Ht; wp_steps; try done.
  eapply hwp_mono; [by apply (accept_spec others owned pid text origin path); [apply Hinv|apply Hinv|]|].
  intros h' [w|e] Hr; wp_steps; by split.
Qed.

Lemma perform_resume os r incoming others owned h :
  handlers_inv others owned h →
  wp (perform os (OpResume r incoming)) (λ h' x, done_ok os (OpResume r incoming) others owned h h' x) h.
Proof.
  intros Hinv. apply wp_rewrap, hwp_bind. eapply hwp_mono; [by apply (resume_spec others owned); apply Hinv|].
  intros h' [w|e] (Hok & Hq & _); wp_steps; by split.
Qed.

Lemma perform_spec os op others owned h :
  handlers_inv others owned h → allowed owned op →
  wp (perform os op) (λ h' r, done_ok os op others owned h h' r) h.
Proof.
  intros Hinv Hall. destruct op.
  - by apply perform_acquire.
  - by apply perform_derive.
  - by apply perform_retain.
  - by apply perform_release.
  - by apply perform_write.
  - by apply perform_resume.
Qed.

(** ** Other machines *)

(** A sink with another number of leases. *)
Definition with_vms (a : N) (sk : FileSink) (n : nat) (flushed : list IoEvent) h : Handlers Origin :=
  mkHandlers (h_state h) (h_active h) (<[a := mkFileSink (fs_path sk) n]> (h_sinks h)) (h_ids h) (h_log h ++ flushed).

Lemma vms_inv others others' owned a sk n flushed h :
  handlers_inv others owned h → h_sinks h !! a = Some sk → (∀ b, written b flushed = []) →
  n = others' a + leased a (h_active h) → (∀ x, x ≠ a → others' x = others x) →
  handlers_inv others' owned (with_vms a sk n flushed h).
Proof.
  intros [Hok Hq] Ha Hfl Hn Hoth. split.
  - constructor; simpl; try apply Hok.
    + intros id b Hb. destruct (ok_active _ _ _ _ _ Hok _ _ Hb) as (path & pid & sk' & Ht & Hp & Hsk & Hpath).
      destruct (decide (b = a)) as [->|Hne].
      * exists path, pid, (mkFileSink (fs_path sk) n). rewrite lookup_insert_eq. simplify_eq. done.
      * exists path, pid, sk'. by rewrite lookup_insert_ne.
    + intros b sk' [[<- <-]|[Hne Hb]]%lookup_insert_Some; [done|]. rewrite Hoth by done. by apply (ok_leases _ _ _ _ _ Hok).
    + intros b Hb. destruct (decide (b = a)) as [->|Hne]; [by rewrite lookup_insert_eq|]. rewrite lookup_insert_ne by done.
      apply (ok_others _ _ _ _ _ Hok). by rewrite <- Hoth.
  - assert (Hw : ∀ b, writes b (h_log h ++ flushed) = writes b (h_log h)).
    { intros b. rewrite writes_app. unfold writes at 2. by rewrite Hfl, app_nil_r. }
    constructor; simpl; try apply Hq.
    + intros b. rewrite Hw. apply (qk_log _ Hq).
    + intros sink b q r r'. rewrite Hw. apply (qk_before _ Hq).
    + intros b r. rewrite Hw. intros Hr. destruct (qk_logged _ Hq _ _ Hr) as [? Hb]. split; [done|].
      destruct (decide (b = a)) as [->|Hne]; [by rewrite lookup_insert_eq|by rewrite lookup_insert_ne].
Qed.

Lemma lease_acquire_inv others owned a h h' :
  handlers_inv others owned h → lease_acquire (E := RuntimeError) a h = (h', Ok tt) →
  handlers_inv (λ x, others x + one (bool_decide (a = x))) owned h' ∧ h_active h' = h_active h.
Proof.
  intros Hinv. unfold lease_acquire, deref. simpl. unfold mbind, M_bind, gets, expect_some, mret, M_ret, modify, crash.
  destruct (h_sinks h !! a) as [sk|] eqn:Ha; [|done].
  destruct (usize_checked_add (fs_active_vms sk) 1) as [n|] eqn:Hn; [|done]. intros [= <-].
  split; [|done]. pose proof (vms_inv others (λ x, others x + one (bool_decide (a = x))) owned a sk n [] h Hinv Ha) as Hv.
  unfold with_vms in Hv. rewrite app_nil_r in Hv. apply Hv; [done| |].
  - unfold usize_checked_add in Hn. case_decide; [|done]. injection Hn as <-.
    rewrite (ok_leases _ _ _ _ _ (proj1 Hinv) _ _ Ha), bool_decide_eq_true_2 by done. simpl. lia.
  - intros x Hx. rewrite bool_decide_eq_false_2 by done. simpl. lia.
Qed.

Lemma inv_others_ext others others' owned h :
  (∀ x, others' x = others x) → handlers_inv others owned h → handlers_inv others' owned h.
Proof.
  intros He [Hok Hq]. split; [|done]. constructor; try apply Hok.
  - intros a sk Ha. rewrite He. by apply (ok_leases _ _ _ _ _ Hok).
  - intros a Ha. rewrite He in Ha. by apply (ok_others _ _ _ _ _ Hok).
Qed.

Lemma clone_inv others owned (l : list (N * N)) h h' :
  handlers_inv others owned h → for_all (λ lease, lease_acquire (E := RuntimeError) lease.2) l h = (h', Ok tt) →
  handlers_inv (λ a, others a + length (filter (λ lease, lease.2 = a) l)) owned h'.
Proof.
  revert others h. induction l as [|[id a] l IH]; intros others h Hinv Hrun.
  { injection Hrun as <-. eapply inv_others_ext; [|done]. intros x. simpl. lia. }
  cbn [for_all] in Hrun. unfold mbind, M_bind in Hrun.
  destruct (lease_acquire (E := RuntimeError) (id, a).2 h) as [h1 [[]|]] eqn:Hl; [|done].
  destruct (lease_acquire_inv _ _ _ _ _ Hinv Hl) as [Hinv1 _].
  eapply inv_others_ext; [|by eapply IH]. intros x. rewrite filter_cons. simpl.
  case_decide as Hd; [rewrite bool_decide_eq_true_2 by done|rewrite bool_decide_eq_false_2 by done]; simpl; lia.
Qed.

Lemma return_inv os a others owned h :
  handlers_inv others owned h → 0 < others a →
  wp (lease_release os a) (λ h' _, handlers_inv (λ x, others x - one (bool_decide (x = a))) owned h') h.
Proof.
  intros Hinv Hpos. destruct (ok_others _ _ _ _ _ (proj1 Hinv) a Hpos) as [sk Ha].
  pose proof (ok_leases _ _ _ _ _ (proj1 Hinv) _ _ Ha) as Hn.
  eapply wp_lease_release; [done|lia|]. intros r _.
  apply (vms_inv others (λ x, others x - one (bool_decide (x = a))) owned a sk); [done|done| | |].
  - intros b. by case_decide.
  - rewrite bool_decide_eq_true_2 by done. simpl. lia.
  - intros x Hx. rewrite bool_decide_eq_false_2 by done. simpl. lia.
Qed.

Lemma starting_inv others h : starting others h → handlers_inv others (λ _, 0) h.
Proof.
  intros (Hs & Ha & Hl & Hv & Hi). assert (Hc : ∀ (P : BindingContext → bool), count P ∅ = 0) by done.
  split; constructor; rewrite ?Hs, ?Ha, ?Hl; simpl; try done.
  - intros sink. unfold owner_count. simpl. rewrite lookup_empty, Hc. done.
  - intros sink [H|H]; [|by apply elem_of_empty in H]. unfold owner_count in H. simpl in H. rewrite Hc in H. lia.
  - intros a sk Hsk. rewrite Hv, Hsk. unfold leased, count. simpl. rewrite map_filter_empty, map_size_empty. lia.
  - intros a. rewrite Hv. destruct (h_sinks h !! a); [by eexists|lia].
  - intros id Hid. unfold request_refs, count in Hid. simpl in Hid. rewrite map_filter_empty, map_size_empty in Hid. lia.
  - intros a. constructor.
  - intros a r Hr. by apply elem_of_nil in Hr.
Qed.

Lemma reachable_inv others h owned : reachable others h owned → handlers_inv others owned h.
Proof.
  induction 1 as [others h Hs|os op others owned h h' r _ IH Hall Hp|others owned h h' _ IH Hc|os a others owned h h' r _ IH Hp Hr].
  - by apply starting_inv.
  - pose proof (perform_spec os op others owned h IH Hall) as Hw. unfold wp in Hw. rewrite Hp in Hw.
    destruct r as [id|[p|e]]; [apply Hw|done|apply Hw].
  - by eapply clone_inv.
  - pose proof (return_inv os a others owned h IH Hp) as Hw. unfold wp in Hw. rewrite Hr in Hw.
    by destruct r as [[]|[p|e]].
Qed.

(** ** Shutting down *)

Definition vms (a : N) h : nat := match h_sinks h !! a with Some sk => fs_active_vms sk | None => 0 end.

Lemma filter_agree (P Q : N → Prop) `{∀ x, Decision (P x)} `{∀ x, Decision (Q x)} (l : list N) :
  (∀ x, x ∈ l → P x ↔ Q x) → filter P l = filter Q l.
Proof.
  induction l as [|x l IH]; intros Hl; [done|]. rewrite !filter_cons.
  assert (Hx : P x ↔ Q x) by (apply Hl, elem_of_cons; by left).
  rewrite IH by (intros y Hy; apply Hl, elem_of_cons; by right). repeat case_decide; tauto.
Qed.

Lemma release_leases_spec os addresses : ∀ error h,
  NoDup addresses → (∀ a, a ∈ addresses → 0 < vms a h) → (∀ e, error = Some e → flush_failure os e) →
  wp (release_leases os error addresses) (λ h' r, ∃ error', r = Ok error' ∧ (∀ e, error' = Some e → flush_failure os e) ∧
    h_active h' = h_active h ∧ (∀ a, vms a h' = vms a h - one (bool_decide (a ∈ addresses))) ∧
    h_log h' = h_log h ++ (IoFlush <$> filter (λ a, vms a h = 1) addresses)) h.
Proof.
  induction addresses as [|a addresses IH]; intros error h Hnd Hpos Herr; cbn [release_leases].
  { wp_steps. exists error. split_and!; [done|done|done| |by rewrite app_nil_r]. intros a.
    rewrite bool_decide_eq_false_2 by (by intros ?%elem_of_nil). simpl. lia. }
  apply NoDup_cons in Hnd as [Hnin Hnd]. assert (Ha : 0 < vms a h) by (apply Hpos, elem_of_cons; by left).
  unfold vms in Ha. destruct (h_sinks h !! a) as [sk|] eqn:Hsk; [|lia]. apply hwp_bind, wp_catch.
  assert (Hva : vms a h = fs_active_vms sk) by (unfold vms; by rewrite Hsk).
  eapply wp_lease_release; [done|done|]. intros r Hr.
  set (h1 := mkHandlers _ _ _ _ _).
  assert (Hvms : ∀ x, vms x h1 = vms x h - one (bool_decide (x = a))).
  { intros x. unfold vms. simpl. destruct (decide (x = a)) as [->|Hne].
    - rewrite lookup_insert_eq, Hsk, bool_decide_eq_true_2 by done. done.
    - rewrite lookup_insert_ne, bool_decide_eq_false_2 by done. simpl. lia. }
  assert (Hother : ∀ x, x ∈ addresses → vms x h1 = vms x h).
  { intros x Hx. rewrite Hvms, bool_decide_eq_false_2 by (by intros ->). simpl. lia. }
  eapply hwp_mono; [apply IH; [done| |by eapply merge_failure_kind]|].
  { intros x Hx. rewrite Hother by done. apply Hpos, elem_of_cons. by right. }
  intros h2 r2 (error' & -> & He & Hact & Hv & Hlog). exists error'. split_and!; [done|done|done| |].
  - intros x. rewrite Hv, Hvms. destruct (decide (x = a)) as [->|Hne].
    + rewrite (bool_decide_eq_true_2 (a = a)), (bool_decide_eq_false_2 (a ∈ addresses)), bool_decide_eq_true_2 by set_solver. simpl. lia.
    + rewrite (bool_decide_eq_false_2 (x = a)) by done. simpl.
      rewrite (bool_decide_ext (x ∈ a :: addresses) (x ∈ addresses)) by set_solver. lia.
  - rewrite Hlog, filter_cons. simpl. rewrite Hva, <- app_assoc. f_equal.
    rewrite (filter_agree (λ x, vms x h1 = 1) (λ x, vms x h = 1)) by (intros x Hx; by rewrite Hother).
    by case_decide.
Qed.

Lemma in_order_addresses others owned h : handlers_ok others owned ∅ ∅ h →
  NoDup (in_order (h_active h)).*2 ∧ ∀ a, a ∈ (in_order (h_active h)).*2 ↔ 0 < leased a (h_active h).
Proof.
  intros Hok. assert (Hperm : in_order (h_active h) ≡ₚ map_to_list (h_active h)) by apply merge_sort_Permutation. split.
  - rewrite Hperm. apply NoDup_alt. intros i j a Hi Hj.
    rewrite list_lookup_fmap in Hi, Hj. apply fmap_Some in Hi as ([x b] & Hi & ->). apply fmap_Some in Hj as ([y c] & Hj & Hbc). simpl in Hbc. subst c.
    assert (x = y) as ->.
    { eapply (ok_inj _ _ _ _ _ Hok); apply elem_of_map_to_list; by eapply list_elem_of_lookup_2. }
    exact (NoDup_lookup _ i j (y, b) (NoDup_map_to_list (h_active h)) Hi Hj).
  - intros a. rewrite Hperm. unfold leased. rewrite count_pos, list_elem_of_fmap. split.
    + intros ([i b] & -> & Hi%elem_of_map_to_list). exists i, b. split; [done|]. by apply bool_decide_eq_true.
    + intros (i & b & Hi & ->%bool_decide_eq_true). exists (i, a). split; [done|]. by apply elem_of_map_to_list.
Qed.

(** ** Theorems *)


(** A request that is at the front of its queue. *)
Lemma resume_front os r rq h :
  requests (h_state h) !! r = Some rq → fw_started rq = false → queues (h_state h) !! fw_sink rq ≫= head = Some r →
  resume_file_write os r None h =
    (set_state (set_requests (insert r (mkFileWriteRequest (fw_sink rq) (fw_context rq) (fw_text rq) (fw_origin rq) true))) h,
     Ok (Resume r)).
Proof.
  intros Hr Hs Hq. unfold resume_file_write, mbind, M_bind, gets, of_option, mret, M_ret. rewrite Hr, Hs. simpl. by rewrite decide_True.
Qed.

Lemma sorted_join (l q : list N) :
  StronglySorted N.lt l → StronglySorted N.lt q → (∀ x y, x ∈ l → y ∈ q → (x < y)%N) → StronglySorted N.lt (l ++ q).
Proof.
  intros Hl Hq. induction Hl as [|x l Hs IH Hx]; intros Hlt; [done|]. simpl. constructor.
  - apply IH. intros y z Hy. apply Hlt, elem_of_cons. by right.
  - apply Forall_app. split; [done|]. apply Forall_forall. intros y Hy. apply Hlt; [|done]. apply elem_of_cons. by left.
Qed.

(** What one resumption does, for every outcome. *)
Lemma resume_run os r others owned h : handlers_inv others owned h →
  let h' := (resume_file_write os r None h).1 in
  handlers_inv others owned h' ∧
  match requests (h_state h) !! r with
  | Some rq =>
      if fw_started rq then
        requests (h_state h') = delete r (requests (h_state h)) ∧
        ∃ a, h_active h !! fw_sink rq = Some a ∧
          ∀ b, written b (h_log h') = written b (h_log h) ++ (if decide (a = b) then [(r, fw_text rq)] else [])
      else ∀ b, written b (h_log h') = written b (h_log h)
  | None => h' = h
  end.
Proof.
  intros [Hok Hq]. pose proof (resume_spec others owned os r None h Hok Hq) as Hw. unfold wp in Hw.
  destruct (resume_file_write os r None h) as [h' [w|[p|e]]]; [|done|]; destruct Hw as (H1 & H2 & H3); by split.
Qed.

(** The file of a pending write is open, and the write is queued for it. *)
Lemma pending_write others owned h r rq : handlers_inv others owned h → requests (h_state h) !! r = Some rq →
  ∃ a q, h_active h !! fw_sink rq = Some a ∧ queues (h_state h) !! fw_sink rq = Some q ∧ r ∈ q ∧
    (fw_started rq = true → head q = Some r).
Proof.
  intros [Hok Hq] Hr. destruct (qk_request _ Hq _ _ Hr) as ([q Hsq] & _ & (id & c & _ & Hc & Hin) & Hst).
  destruct (ok_owned_open _ _ _ _ _ Hok (fw_sink rq)) as [a Ha].
  { left. apply count_pos. exists id, c. split; [done|]. by apply bool_decide_eq_true. }
  exists a, q. split_and!; [done|done| |by rewrite Hsq in Hst]. apply (qk_queue _ Hq _ _ Hsq). by exists rq.
Qed.


(** The leases of a sink, counted. *)
Lemma sink_vms others owned h a : handlers_ok others owned ∅ ∅ h →
  vms a h = others a + one (bool_decide (a ∈ (in_order (h_active h)).*2)).
Proof.
  intros Hok. destruct (in_order_addresses _ _ _ Hok) as [_ Hin].
  assert (Hone : leased a (h_active h) = one (bool_decide (a ∈ (in_order (h_active h)).*2))).
  { case_bool_decide as Ha; [|rewrite Hin in Ha; simpl; lia]. apply Hin, count_pos in Ha as (i & b & Hi & ->%bool_decide_eq_true).
    by eapply leased_active. }
  rewrite <- Hone. unfold vms. destruct (h_sinks h !! a) as [sk|] eqn:Hsk; [by apply (ok_leases _ _ _ _ _ Hok)|].
  destruct (decide (0 < others a)) as [Ho|]; [apply (ok_others _ _ _ _ _ Hok) in Ho as [? ?]; congruence|].
  destruct (decide (0 < leased a (h_active h))) as [Hl|]; [|lia].
  apply count_pos in Hl as (i & b & Hi & ->%bool_decide_eq_true).
  destruct (ok_active _ _ _ _ _ Hok _ _ Hi) as (? & ? & ? & _ & _ & ? & _). congruence.
Qed.

Lemma shutdown_spec os others owned h : handlers_ok others owned ∅ ∅ h →
  wp (shutdown os) (λ h' r, h_active h' = ∅ ∧ (∀ a, vms a h' = others a) ∧
    h_log h' = h_log h ++ (IoFlush <$> filter (λ a, vms a h = 1) (in_order (h_active h)).*2) ∧
    (∀ e, r = Err e → flush_failure os e)) h.
Proof.
  intros Hok. destruct (in_order_addresses _ _ _ Hok) as [Hnd _]. unfold shutdown. wp_steps. eapply hwp_mono.
  - apply (release_leases_spec os _ None (set_active (λ _, ∅) h)); [exact Hnd| |done].
    intros a Ha. change (0 < vms a h). rewrite (sink_vms others owned h a Hok), bool_decide_eq_true_2 by done. simpl. lia.
  - intros h' r (error & -> & He & Ha & Hv & Hl).
    assert (Hv' : ∀ a, vms a h' = others a).
    { intros a. rewrite Hv. change (vms a h - one (bool_decide (a ∈ (in_order (h_active h)).*2)) = others a).
      rewrite (sink_vms others owned h a Hok). lia. }
    unfold first_error. destruct error as [e|]; wp_steps; split_and!; try done. intros e' [= <-]. by apply He.
Qed.

(** Shutting a machine down returns every lease it holds, without a panic: afterwards each
    sink is leased by the other machines only, and exactly the files that no other machine holds
    are flushed, once each; it fails only because a flush failed. *)
Theorem shutdown_returns_leases os others owned h : reachable others h owned →
  let '(h', r) := shutdown os h in
  h_active h' = ∅ ∧ (∀ a sk, h_sinks h' !! a = Some sk → fs_active_vms sk = others a) ∧
  (∃ flushed, h_log h' = h_log h ++ (IoFlush <$> flushed) ∧ NoDup flushed ∧
     ∀ a, a ∈ flushed ↔ others a = 0 ∧ ∃ id, h_active h !! id = Some a) ∧
  match r with
  | Ok _ => True
  | Err (Failed e) => flush_failure os e
  | Err (Panicked _) => False
  end.
Proof.
  intros Hr. pose proof (reachable_inv _ _ _ Hr) as [Hok _]. destruct (in_order_addresses _ _ _ Hok) as [Hnd Hin].
  pose proof (shutdown_spec os others owned h Hok) as Hw. unfold wp in Hw. destruct (shutdown os h) as [h' r].
  assert (Hend : ∃ r' : Result RuntimeError unit, r = map_err Failed r' ∧ h_active h' = ∅ ∧ (∀ a, vms a h' = others a) ∧
    h_log h' = h_log h ++ (IoFlush <$> filter (λ a, vms a h = 1) (in_order (h_active h)).*2) ∧
    (∀ e, r' = Err e → flush_failure os e)).
  { destruct r as [[]|[p|e]]; [by exists (Ok tt)|done|by exists (Err e)]. }
  clear Hw. destruct Hend as (r' & -> & Ha & Hv & Hl & He). split_and!; [done| | |].
  - intros a sk Hsk. rewrite <- Hv. unfold vms. by rewrite Hsk.
  - eexists. split_and!; [exact Hl|by apply NoDup_filter|]. intros a. rewrite list_elem_of_filter, (sink_vms others owned h a Hok).
    assert (Hex : a ∈ (in_order (h_active h)).*2 ↔ ∃ id, h_active h !! id = Some a).
    { rewrite Hin. unfold leased. rewrite count_pos. split.
      - intros (i & b & Hi & ->%bool_decide_eq_true). by exists i.
      - intros [i Hi]. exists i, a. split; [done|]. by apply bool_decide_eq_true. }
    rewrite <- Hex. case_bool_decide; simpl; naive_solver lia.
  - destruct r' as [[]|e]; [done|by apply He].
Qed.
End Runs.

(** ** A machine with one file *)

Definition sample_os : Os :=
  mkOs (λ _, true) (λ dir leaf, dir ++ leaf) (λ _, None) (λ _, None) (λ _, Exists_) Ok (λ _, Ok tt) (λ _ _, Ok tt) (λ _, Ok tt) (λ id, id).
Definition sample_start : Handlers unit :=
  mkHandlers (mkHandlerState ∅ ∅ ∅ ∅ ∅ ∅ ∅) ∅ ∅ (mkHandlerIds 0 0 0) [].
Definition sample_target : RuntimeHandlerTarget :=
  mkHandlerTarget (lit "FileOutHandler") [mkHandlerArg (lit "path") (lit "/log")].
Definition sample_acquire : handler_op :=
  OpAcquire (Origin := unit) (λ _, true) (lit "Worker") [(lit "out", sample_target)] [] (lit "/").
Definition sample_pid : PidHandle := mkPid 1 (mkPidIdentity 1 (target_name (File (lit "/log"))) PkHandler).
Definition sample_write : handler_op := OpWrite sample_pid (lit "hello") (Some tt).

Definition run (os : Os) : list (handler_op (Origin := unit)) → Handlers unit * (N → nat) → Handlers unit * (N → nat) :=
  flip (foldl (λ '(h, owned) op, let '(h', r) := perform os op h in (h', account op r owned))).
Definition sample_run : Handlers unit * (N → nat) := run sample_os [sample_acquire; sample_write] (sample_start, λ _, 0).

Lemma run_reachable os ops : Forall (λ op, ∀ owned, allowed owned op) ops →
  ∀ others h owned, reachable others h owned → let '(h', owned') := run os ops (h, owned) in reachable others h' owned'.
Proof.
  induction 1 as [|op ops Hop _ IH]; intros others h owned Hr; [done|]. unfold run, flip in *. simpl.
  destruct (perform os op h) as [h1 r] eqn:E. apply IH. by eapply reach_op.
Qed.

Lemma sample_reachable : reachable (λ _, 0) sample_run.1 sample_run.2.
Proof.
  pose proof (run_reachable sample_os [sample_acquire; sample_write]) as Hr.
  specialize (Hr ltac:(repeat constructor) (λ _, 0) sample_start (λ _, 0)). fold sample_run in Hr.
  destruct sample_run. apply Hr, reach_start. by repeat split.
Qed.



Lemma shutdown_returns_leases_witness :
  is_Some (h_active sample_run.1 !! 1%N) ∧ let '(h', r) := shutdown sample_os sample_run.1 in h_active h' = ∅.
Proof.
  split; [vm_compute; by eexists|]. pose proof (shutdown_returns_leases sample_os (λ _, 0) _ _ sample_reachable) as Hs.
  destruct (shutdown sample_os sample_run.1) as [h' r]. destruct Hs as [Ha _]. exact Ha.
Defined.
