(* ===== verification/TraitPatterns.v ===== *)
(** * Trait implementation patterns ([crates/scar/src/checker/trait_selection.rs])

    The checker compares declared types in a canonical form: a head and its arguments.  An
    implementation is identified by its pattern, the trait's arguments and the target with
    their variables numbered in order of occurrence.  A method must have its contract's types up
    to a renaming of variables, which is decided by [AlphaEnvironment]. *)

From S2P Require Import Prelude Names ParseError TypeEnv.

(** ** Canonical types ([typed.rs], [names.rs], [diagnostics/src/data.rs]) *)

Inductive TypeName : Type :=
| TnInt | TnFloat | TnString | TnBoolean | TnUnit | TnClosure | TnMatchArms | TnCondClauses | TnBulkUpdateEntries
| TnError | TnRegex | TnRegexCaptures | TnRegexMatch | TnRandomGenerator | TnList | TnHashMap | TnGenerator | TnResult
| TnDuration | TnStandbyInit | TnLazy | TnHole | TnFacet | TnPid | TnFileHandle | TnWorkers | TnWorkerLease | TnTaskHandle
| TnDoBlock | TnMatchResult | TnExtractorClosure | TnErrorKind | TnInfiniteGenerator.
#[export] Instance TypeName_eq_dec : EqDecision TypeName.
Proof. solve_decision. Defined.
#[export] Instance FacetKind_eq_dec : EqDecision FacetKind.
Proof. solve_decision. Defined.

Inductive CanonicalTypeHead : Type :=
| HBuiltin (name : TypeName)
| HNominal (tag : N)
| HVariable (id : N)
| HTuple
| HFunction
| HSelfApplication
| HFacet (kind : FacetKind)
| HPid
| HProcessMarker (name : str)
| HHole.
#[export] Instance CanonicalTypeHead_eq_dec : EqDecision CanonicalTypeHead.
Proof. solve_decision. Defined.

Inductive CanonicalTy : Type := mkTy { head_of : CanonicalTypeHead; arguments : list CanonicalTy }.

(** The derived equality. *)
#[export] Instance CanonicalTy_eq_dec : EqDecision CanonicalTy.
Proof.
  refine (fix go a b : Decision (a = b) :=
    match a, b with
    | mkTy h1 l1, mkTy h2 l2 =>
        match decide (h1 = h2) with
        | left _ => match @list_eq_dec _ go l1 l2 with left _ => left _ | right _ => right _ end
        | right _ => right _
        end
    end); congruence.
Defined.

Definition variable (id : N) : CanonicalTy := mkTy (HVariable id) [].
Definition builtin (name : TypeName) (arguments : list CanonicalTy) : CanonicalTy := mkTy (HBuiltin name) arguments.

Inductive TypeListRole : Type := TraitArgument | ImplTarget | ReturnTypeArgument | ValueParameter | ReturnType.
#[export] Instance TypeListRole_eq_dec : EqDecision TypeListRole.
Proof. solve_decision. Defined.

Record TypeListEntry : Type := mkEntry {
  te_role : TypeListRole;
  te_ordinal : N;
  te_ty : CanonicalTy;
  te_origin : Span;
}.
Definition ImplHeadTypeList : Type := list TypeListEntry.

Inductive CanonicalMethodBound : Type :=
| BoundTrait (trait_id : N)
| BoundTypeConstructor (types : list CanonicalTy)
| BoundTraitSlot (trait_id ordinal : N).

Record CanonicalMethodConstraint : Type := mkConstraint {
  cn_subject : CanonicalTy;
  cn_bound : CanonicalMethodBound;
  cn_origin : Span;
}.
Definition CanonicalConstraintSet : Type := list CanonicalMethodConstraint.

Record MethodSignatureTypeList : Type := mkSignature {
  ms_entries : list TypeListEntry;
  ms_where_constraints : CanonicalConstraintSet;
}.

Record CanonicalTraitRef : Type := mkTraitRef { tr_trait_id : N; tr_arguments : list CanonicalTy }.
Record CanonicalTraitImplPatternKey : Type := mkKey { trait_ref : CanonicalTraitRef; target : CanonicalTy }.
#[export] Instance CanonicalTraitRef_eq_dec : EqDecision CanonicalTraitRef.
Proof. solve_decision. Defined.
#[export] Instance CanonicalTraitImplPatternKey_eq_dec : EqDecision CanonicalTraitImplPatternKey.
Proof. solve_decision. Defined.

(** [CanonicalTy::substitute]. *)
Fixpoint substitute (mapping : gmap N N) (ty : CanonicalTy) : CanonicalTy :=
  match ty with
  | mkTy head arguments =>
      mkTy (match head with HVariable var => HVariable (default var (mapping !! var)) | _ => head end)
        (map (substitute mapping) arguments)
  end.

(** [ImplHeadTypeList::new]. *)
Definition head_new (arguments : list CanonicalTy) (target : CanonicalTy) (span : Span) : ImplHeadTypeList :=
  imap (λ ordinal ty, mkEntry TraitArgument (as_u32 ordinal) ty span) arguments ++ [mkEntry ImplTarget 0 target span].

(** ** Equality up to a renaming of variables *)

Record AlphaEnvironment : Type := mkAlpha { forward : gmap N N; reverse : gmap N N }.

Module AlphaEnvironment.

Definition default : AlphaEnvironment := mkAlpha ∅ ∅.

Definition agrees (known : option N) (value : N) : bool :=
  match known with Some v => bool_decide (v = value) | None => true end.

Definition compare_heads (expected actual : CanonicalTypeHead) (env : AlphaEnvironment) : AlphaEnvironment * Result (list N) unit :=
  match expected, actual with
  | HVariable var1, HVariable var2 =>
      if negb (agrees (forward env !! var1) var2) || negb (agrees (reverse env !! var2) var1) then (env, Err [])
      else (mkAlpha (<[var1 := var2]> (forward env)) (<[var2 := var1]> (reverse env)), Ok tt)
  | _, _ => if decide (expected = actual) then (env, Ok tt) else (env, Err [])
  end.

(** The path of a mismatch lists the ordinals of the arguments that lead to it. *)
Fixpoint compare (expected actual : CanonicalTy) (env : AlphaEnvironment) : AlphaEnvironment * Result (list N) unit :=
  match expected, actual with
  | mkTy head1 args1, mkTy head2 args2 =>
      match compare_heads head1 head2 env with
      | (env, Err path) => (env, Err path)
      | (env, Ok _) =>
          if decide (length args1 ≠ length args2) then (env, Err [])
          else
            (fix go (ordinal : nat) (args1 args2 : list CanonicalTy) (env : AlphaEnvironment) :=
               match args1, args2 with
               | ty1 :: args1, ty2 :: args2 =>
                   match compare ty1 ty2 env with
                   | (env, Err path) => (env, Err (as_u32 ordinal :: path))
                   | (env, Ok _) => go (S ordinal) args1 args2 env
                   end
               | _, _ => (env, Ok tt)
               end) 0 args1 args2 env
      end
  end.

(** [a.iter().zip(b).all(...)]. *)
Fixpoint compare_all (left right : list CanonicalTy) (env : AlphaEnvironment) : AlphaEnvironment * bool :=
  match left, right with
  | a :: left', b :: right' =>
      match compare a b env with
      | (env, Ok _) => compare_all left' right' env
      | (env, Err _) => (env, false)
      end
  | _, _ => (env, true)
  end.

Definition constraint (left right : CanonicalMethodConstraint) (env : AlphaEnvironment) : AlphaEnvironment * bool :=
  match compare (cn_subject left) (cn_subject right) env with
  | (env, Err _) => (env, false)
  | (env, Ok _) =>
      match cn_bound left, cn_bound right with
      | BoundTrait a, BoundTrait b => (env, bool_decide (a = b))
      | BoundTraitSlot a x, BoundTraitSlot b y => (env, bool_decide (a = b ∧ x = y))
      | BoundTypeConstructor a, BoundTypeConstructor b =>
          if decide (length a = length b) then compare_all a b env else (env, false)
      | _, _ => (env, false)
      end
  end.

(** Constraints may not introduce variables of their own. *)
Definition matches (env : AlphaEnvironment) (a b : CanonicalMethodConstraint) : bool :=
  let '(candidate, ok) := constraint a b env in
  ok && bool_decide (forward candidate = forward env ∧ reverse candidate = reverse env).

Definition constraints_equal (left right : CanonicalConstraintSet) (env : AlphaEnvironment) : bool :=
  forallb (λ a, existsb (λ b, matches env a b) right) left &&
  forallb (λ b, existsb (λ a, matches env a b) left) right.

(** The arguments of the diagnostics that [validate_trait_method_contract] reports. *)
Inductive ContractError : Type :=
| ArityMismatch (role : TypeListRole) (ordinal : N) (expected actual : N)
| TypeMismatch (role : TypeListRole) (ordinal : N) (path : list N) (expected actual : CanonicalTy)
| ConstraintMismatch.

Definition role_count (role : TypeListRole) (entries : list TypeListEntry) : nat :=
  length (filter (λ entry, te_role entry = role) entries).

Fixpoint compare_entries (left right : list TypeListEntry) (env : AlphaEnvironment) : Result ContractError AlphaEnvironment :=
  match left, right with
  | a :: left', b :: right' =>
      match compare (te_ty a) (te_ty b) env with
      | (_, Err path) => Err (TypeMismatch (te_role a) (te_ordinal a) path (te_ty a) (te_ty b))
      | (env, Ok _) => compare_entries left' right' env
      end
  | _, _ => Ok env
  end.

Definition validate_trait_method_contract (expected_head actual_head : ImplHeadTypeList)
    (expected actual : MethodSignatureTypeList) : Result ContractError (gmap N N) :=
  let? _ := for_each (λ role,
    let expected_count := role_count role (ms_entries expected) in
    let actual_count := role_count role (ms_entries actual) in
    if decide (expected_count ≠ actual_count)
    then Err (ArityMismatch role (as_u32 (expected_count `min` actual_count)) (as_u32 expected_count) (as_u32 actual_count))
    else Ok tt) [ReturnTypeArgument; ValueParameter; ReturnType] in
  let? env := compare_entries (expected_head ++ ms_entries expected) (actual_head ++ ms_entries actual) default in
  if constraints_equal (ms_where_constraints expected) (ms_where_constraints actual) env
  then Ok (forward env) else Err ConstraintMismatch.

End AlphaEnvironment.

(** ** Patterns *)

Module PatternKey.

(** Variables are numbered in the order in which they occur. *)
Definition normalize_head (head : CanonicalTypeHead) (variables : gmap N N) : CanonicalTypeHead * gmap N N :=
  match head with
  | HVariable var =>
      let ordinal := as_u32 (size variables) in
      match variables !! var with
      | Some known => (HVariable known, variables)
      | None => (HVariable ordinal, <[var := ordinal]> variables)
      end
  | _ => (head, variables)
  end.

Fixpoint normalize (ty : CanonicalTy) (variables : gmap N N) : CanonicalTy * gmap N N :=
  match ty with
  | mkTy head arguments =>
      let '(head, variables) := normalize_head head variables in
      let '(arguments, variables) :=
        (fix go (l : list CanonicalTy) (variables : gmap N N) :=
           match l with
           | [] => ([], variables)
           | ty :: l =>
               let '(ty, variables) := normalize ty variables in
               let '(l, variables) := go l variables in
               (ty :: l, variables)
           end) arguments variables in
      (mkTy head arguments, variables)
  end.

Fixpoint normalize_all (l : list CanonicalTy) (variables : gmap N N) : list CanonicalTy * gmap N N :=
  match l with
  | [] => ([], variables)
  | ty :: l =>
      let '(ty, variables) := normalize ty variables in
      let '(l, variables) := normalize_all l variables in
      (ty :: l, variables)
  end.

(** [CanonicalTraitImplPatternKey::from_head]; a head without a target is a panic. *)
Definition from_head (trait_id : N) (head : ImplHeadTypeList) : Run CanonicalTraitImplPatternKey :=
  let '(arguments, variables) :=
    normalize_all (te_ty <$> filter (λ entry, te_role entry = TraitArgument) head) ∅ in
  let? target := expect (find (λ entry, bool_decide (te_role entry = ImplTarget)) head) in
  Ok (mkKey (mkTraitRef trait_id arguments) (normalize (te_ty target) variables).1).

(** [fresh_canonical]: the variables of a declaration, renamed apart. *)
Definition fresh_head (head : CanonicalTypeHead) (fresh : gmap N N) (next_variable : N) : CanonicalTypeHead * (gmap N N * N) :=
  match head with
  | HVariable var =>
      match fresh !! var with
      | Some new_var => (HVariable new_var, (fresh, next_variable))
      | None => (HVariable next_variable, (<[var := next_variable]> fresh, u32_succ next_variable))
      end
  | _ => (head, (fresh, next_variable))
  end.

Fixpoint fresh_canonical (ty : CanonicalTy) (st : gmap N N * N) : CanonicalTy * (gmap N N * N) :=
  match ty with
  | mkTy head arguments =>
      let '(head, st) := fresh_head head st.1 st.2 in
      let '(arguments, st) :=
        (fix go (l : list CanonicalTy) (st : gmap N N * N) :=
           match l with
           | [] => ([], st)
           | ty :: l =>
               let '(ty, st) := fresh_canonical ty st in
               let '(l, st) := go l st in
               (ty :: l, st)
           end) arguments st in
      (mkTy head arguments, st)
  end.

End PatternKey.
