(* ===== verification/Unification.v ===== *)
(** * Overlap of implementations ([crates/scar/src/checker/trait_selection.rs])

    The patterns of one trait must not overlap, which is decided by unification.  The unifier keeps
    bindings that refer to each other, so that its loops follow chains of variables; they take fuel
    here and return [None] when it runs out. *)

From S2P Require Import Prelude Names ParseError TypeEnv TraitPatterns.

(** ** Unification *)

Record CanonicalUnifier : Type := mkUnifier { bindings : gmap N CanonicalTy; rigid_variables : gset N }.

Module Unifier.

Definition default : CanonicalUnifier := mkUnifier ∅ ∅.

Fixpoint resolve_root (fuel : nat) (u : CanonicalUnifier) (ty : CanonicalTy) : option CanonicalTy :=
  match head_of ty with
  | HVariable var =>
      match bindings u !! var with
      | None => Some ty
      | Some bound => match fuel with 0 => None | S fuel => resolve_root fuel u bound end
      end
  | _ => Some ty
  end.

Fixpoint resolve (fuel : nat) (u : CanonicalUnifier) (ty : CanonicalTy) : option CanonicalTy :=
  match fuel with
  | 0 => None
  | S fuel =>
      ty ← resolve_root fuel u ty;
      arguments ← mapM (resolve fuel u) (arguments ty);
      Some (mkTy (head_of ty) arguments)
  end.

Fixpoint occurs (var : N) (ty : CanonicalTy) : bool :=
  bool_decide (head_of ty = HVariable var) || existsb (occurs var) (arguments ty).

Definition bind_var (var : N) (ty : CanonicalTy) (u : CanonicalUnifier) : CanonicalUnifier :=
  mkUnifier (<[var := ty]> (bindings u)) (rigid_variables u).

(** [.zip(...).all(...)] over a unifier that changes. *)
Fixpoint all_pairs (f : CanonicalUnifier → CanonicalTy → CanonicalTy → option (CanonicalUnifier * bool))
    (u : CanonicalUnifier) (left right : list CanonicalTy) : option (CanonicalUnifier * bool) :=
  match left, right with
  | a :: left', b :: right' =>
      '(u, ok) ← f u a b;
      if (ok : bool) then all_pairs f u left' right' else Some (u, false)
  | _, _ => Some (u, true)
  end.

Fixpoint unify (fuel : nat) (u : CanonicalUnifier) (left right : CanonicalTy) : option (CanonicalUnifier * bool) :=
  match fuel with
  | 0 => None
  | S fuel =>
      left ← resolve_root fuel u left;
      right ← resolve_root fuel u right;
      match head_of left, head_of right with
      | HVariable var, other_head =>
          if decide (other_head = HVariable var) then Some (u, true)
          else if decide (var ∈ rigid_variables u) then
            match other_head with
            | HVariable other => if decide (other ∉ rigid_variables u) then unify fuel u right left else Some (u, false)
            | _ => Some (u, false)
            end
          else
            right ← resolve fuel u right;
            if occurs var right then Some (u, false) else Some (bind_var var right u, true)
      | _, HVariable _ => unify fuel u right left
      | head1, head2 =>
          if decide (head1 ≠ head2 ∨ length (arguments left) ≠ length (arguments right)) then Some (u, false)
          else all_pairs (unify fuel) u (arguments left) (arguments right)
      end
  end.

(** A constructor witness against an application: [HHole] stands for any argument. *)
Fixpoint unify_constructor_identity (fuel : nat) (u : CanonicalUnifier) (expected actual : CanonicalTy) :
    option (CanonicalUnifier * bool) :=
  match fuel with
  | 0 => None
  | S fuel =>
      expected ← resolve_root fuel u expected;
      actual ← resolve_root fuel u actual;
      match head_of expected, head_of actual with
      | HHole, _ => Some (u, true)
      | HVariable _, _ | _, HVariable _ => unify fuel u expected actual
      | head1, head2 =>
          if decide (head1 = head2 ∧ length (arguments expected) = length (arguments actual))
          then all_pairs (unify_constructor_identity fuel) u (arguments expected) (arguments actual)
          else Some (u, false)
      end
  end.

(** [rename] of [canonical_patterns_overlap], in [u32]: the variables of the two sides are told apart. *)
Definition side_variable (side var : N) : N := ((var * 2 + side) `mod` (u32_max + 1))%N.
Fixpoint rename (side : N) (ty : CanonicalTy) : CanonicalTy :=
  match ty with
  | mkTy head arguments =>
      mkTy (match head with HVariable var => HVariable (side_variable side var) | _ => head end) (map (rename side) arguments)
  end.

Definition key_types (key : CanonicalTraitImplPatternKey) : list CanonicalTy := tr_arguments (trait_ref key) ++ [target key].

Definition canonical_patterns_overlap (fuel : nat) (left right : CanonicalTraitImplPatternKey) : option bool :=
  if decide (length (tr_arguments (trait_ref left)) = length (tr_arguments (trait_ref right)))
  then snd <$> all_pairs (λ u a b, unify fuel u (rename 0 a) (rename 1 b)) default (key_types left) (key_types right)
  else Some false.

End Unifier.

(** ** Registering implementations ([predeclare/traits.rs]) *)

(** [trait_impl_index_by_base_trait]: the patterns of each trait in the order of declaration. *)
Definition ImplIndex : Type := gmap N (list CanonicalTraitImplPatternKey).

Inductive ImplError : Type :=
| OverlappingImpls (existing : CanonicalTraitImplPatternKey)
| ExclusivePeer (existing : CanonicalTraitImplPatternKey).

Module Coherence.

Definition trait_impl_candidate_keys (trait_id : N) (index : ImplIndex) : list CanonicalTraitImplPatternKey :=
  default [] (index !! trait_id).

Definition index_trait_impl (key : CanonicalTraitImplPatternKey) (index : ImplIndex) : ImplIndex :=
  let entries := trait_impl_candidate_keys (tr_trait_id (trait_ref key)) index in
  <[tr_trait_id (trait_ref key) := if decide (key ∈ entries) then entries else entries ++ [key]]> index.

(** The first pattern that overlaps. *)
Fixpoint find_overlap (fuel : nat) (key : CanonicalTraitImplPatternKey) (existing : list CanonicalTraitImplPatternKey) :
    option (option CanonicalTraitImplPatternKey) :=
  match existing with
  | [] => Some None
  | e :: existing =>
      overlap ← Unifier.canonical_patterns_overlap fuel key e;
      if (overlap : bool) then Some (Some e) else find_overlap fuel key existing
  end.

(** The checks of an implementation and its entry in the index; [peer] is the trait that may not
    be implemented for the same types ([Convert] and [TryConvert] exclude each other). *)
Definition register_impl (fuel : nat) (key : CanonicalTraitImplPatternKey) (peer : option N) (index : ImplIndex) :
    option (Result ImplError ImplIndex) :=
  overlapping ← find_overlap fuel key (trait_impl_candidate_keys (tr_trait_id (trait_ref key)) index);
  match overlapping with
  | Some existing => Some (Err (OverlappingImpls existing))
  | None =>
      peers ← match peer with
        | Some peer => find_overlap fuel key (trait_impl_candidate_keys peer index)
        | None => Some None
        end;
      match peers with
      | Some existing => Some (Err (ExclusivePeer existing))
      | None => Some (Ok (index_trait_impl key index))
      end
  end.

End Coherence.
