(* ===== verification/UnifierProps.v ===== *)
(** * Unification of canonical types

    Substitutions, the invariant of the unifier's bindings, and that [Unifier.unify] decides
    whether two types have a common instance: it terminates, the bindings it leaves solve the
    equation, and every solution of the equation solves them ([unify_spec]). *)

From S2P Require Import Prelude Names ParseError TypeEnv TraitPatterns Unification.
Import Unifier.

Definition Subst : Type := N → CanonicalTy.

Section TyInd.
Variable P : CanonicalTy → Prop.
Hypothesis step : ∀ h args, Forall P args → P (mkTy h args).
Fixpoint canonical_ty_ind (t : CanonicalTy) : P t :=
  match t with
  | mkTy h args =>
      step h args ((fix go (l : list CanonicalTy) : Forall P l :=
        match l with [] => Forall_nil_2 P | x :: l => Forall_cons_2 P x l (canonical_ty_ind x) (go l) end) args)
  end.
End TyInd.

(** A variable takes no arguments. *)
Fixpoint wf_ty (t : CanonicalTy) : bool :=
  (match head_of t with HVariable _ => bool_decide (arguments t = []) | _ => true end) && forallb wf_ty (arguments t).

Fixpoint ty_vars (t : CanonicalTy) : gset N :=
  (match head_of t with HVariable v => {[v]} | _ => ∅ end) ∪ ⋃ (map ty_vars (arguments t)).

Fixpoint ty_size (t : CanonicalTy) : nat := S (list_sum (map ty_size (arguments t))).

Fixpoint apply_subst (σ : Subst) (t : CanonicalTy) : CanonicalTy :=
  match t with
  | mkTy h args => match h with HVariable v => σ v | _ => mkTy h (map (apply_subst σ) args) end
  end.

(** ** Substitutions *)

Lemma wf_ty_args h args a : wf_ty (mkTy h args) = true → a ∈ args → wf_ty a = true.
Proof.
  simpl. intros [_ H]%andb_true_iff Ha. rewrite forallb_forall in H. apply H. by apply list_elem_of_In.
Qed.

Lemma wf_ty_var v args : wf_ty (mkTy (HVariable v) args) = true → args = [].
Proof. simpl. intros [H _]%andb_true_iff. by apply bool_decide_eq_true in H. Qed.

Lemma wf_ty_node h args : (∀ v, h ≠ HVariable v) → wf_ty (mkTy h args) = forallb wf_ty args.
Proof. intros Hh. simpl. destruct h; try done. by edestruct Hh. Qed.

Lemma apply_node σ h args : (∀ v, h ≠ HVariable v) → apply_subst σ (mkTy h args) = mkTy h (map (apply_subst σ) args).
Proof. intros Hh. destruct h; try done. by edestruct Hh. Qed.

Lemma elem_of_ty_vars v h args :
  v ∈ ty_vars (mkTy h args) ↔ h = HVariable v ∨ ∃ a, a ∈ args ∧ v ∈ ty_vars a.
Proof.
  simpl. rewrite elem_of_union, elem_of_union_list. setoid_rewrite list_elem_of_fmap.
  assert (v ∈ (match h with HVariable v => {[v]} | _ => ∅ end : gset N) ↔ h = HVariable v) as ->.
  { destruct h; try (split; [by intros ?%elem_of_empty|done]). rewrite elem_of_singleton. naive_solver. }
  naive_solver.
Qed.

Lemma occurs_vars v t : occurs v t = true ↔ v ∈ ty_vars t.
Proof.
  induction t as [h args IH] using canonical_ty_ind. rewrite elem_of_ty_vars. simpl.
  rewrite orb_true_iff, bool_decide_eq_true, existsb_exists. rewrite Forall_forall in IH.
  setoid_rewrite <- list_elem_of_In. split.
  - intros [?|(a & Ha & Ho)]; [by left|]. right. exists a. split; [done|]. by apply IH.
  - intros [?|(a & Ha & Ho)]; [by left|]. right. exists a. split; [done|]. by apply IH.
Qed.

(** The two cases of a type without arguments to variables. *)
Lemma ty_cases t : wf_ty t = true → (∃ v, t = variable v) ∨ (∀ v, head_of t ≠ HVariable v).
Proof.
  intros Hw. destruct t as [h args]. simpl. destruct h; try (right; by intros). left. eexists.
  by rewrite (wf_ty_var _ _ Hw).
Qed.

Lemma apply_ext σ τ t : (∀ v, v ∈ ty_vars t → σ v = τ v) → apply_subst σ t = apply_subst τ t.
Proof.
  induction t as [h args IH] using canonical_ty_ind. intros Hv. rewrite Forall_forall in IH.
  assert (Hargs : map (apply_subst σ) args = map (apply_subst τ) args).
  { apply map_ext_in. intros a Ha%list_elem_of_In. apply IH; [done|]. intros v Hva. apply Hv, elem_of_ty_vars. right. by exists a. }
  simpl. rewrite Hargs. destruct h; try done. apply Hv, elem_of_ty_vars. by left.
Qed.

Lemma apply_compose σ τ t : apply_subst σ (apply_subst τ t) = apply_subst (λ v, apply_subst σ (τ v)) t.
Proof.
  induction t as [h args IH] using canonical_ty_ind. rewrite Forall_forall in IH.
  assert (Hargs : map (apply_subst σ) (map (apply_subst τ) args) = map (apply_subst (λ v, apply_subst σ (τ v))) args).
  { rewrite map_map. apply map_ext_in. intros a Ha%list_elem_of_In. by apply IH. }
  destruct h; simpl; try done; by rewrite Hargs.
Qed.

Lemma apply_id σ t : wf_ty t = true → (∀ v, v ∈ ty_vars t → σ v = variable v) → apply_subst σ t = t.
Proof.
  induction t as [h args IH] using canonical_ty_ind. intros Hw Hv. rewrite Forall_forall in IH.
  destruct (ty_cases _ Hw) as [[v [= -> ->]]|Hh]; [apply Hv, elem_of_ty_vars; by left|]. simpl in Hh.
  rewrite apply_node by done. f_equal. transitivity (map id args); [|apply map_id]. apply map_ext_in. intros a Ha%list_elem_of_In.
  apply IH; [done|by eapply wf_ty_args|]. intros v Hva. apply Hv, elem_of_ty_vars. right. by exists a.
Qed.

Lemma wf_apply σ t : (∀ v, wf_ty (σ v) = true) → wf_ty t = true → wf_ty (apply_subst σ t) = true.
Proof.
  intros Hs. induction t as [h args IH] using canonical_ty_ind. intros Hw. rewrite Forall_forall in IH.
  destruct (ty_cases _ Hw) as [[v [= -> ->]]|Hh]; [apply Hs|]. simpl in Hh. rewrite apply_node, wf_ty_node by done.
  apply forallb_forall. intros b (a & <- & Ha%list_elem_of_In)%in_map_iff. apply IH; [done|]. by eapply wf_ty_args.
Qed.

Lemma vars_apply σ t v : wf_ty t = true →
  v ∈ ty_vars (apply_subst σ t) ↔ ∃ w, w ∈ ty_vars t ∧ v ∈ ty_vars (σ w).
Proof.
  induction t as [h args IH] using canonical_ty_ind. intros Hw. rewrite Forall_forall in IH.
  destruct (ty_cases _ Hw) as [[w [= -> ->]]|Hh].
  - simpl. split; [intros H; exists w; set_solver|]. intros (w' & Hw' & H). assert (w' = w) as -> by set_solver. done.
  - simpl in Hh. rewrite apply_node by done. rewrite elem_of_ty_vars. setoid_rewrite elem_of_ty_vars. split.
    + intros [?|(b & (a & -> & Ha)%list_elem_of_fmap & Hb)]; [by edestruct Hh|].
      apply IH in Hb as (w & Hwa & Hvw); [|done|by eapply wf_ty_args]. exists w. split; [|done]. right. by exists a.
    + intros (w & [?|(a & Ha & Hwa)] & Hv); [by edestruct Hh|]. right. exists (apply_subst σ a).
      split; [by apply list_elem_of_fmap_2|]. apply IH; [done|by eapply wf_ty_args|]. by exists w.
Qed.

Lemma size_arg h args a : a ∈ args → ty_size a < ty_size (mkTy h args).
Proof.
  intros Ha. simpl. induction args as [|b args IH]; [by apply elem_of_nil in Ha|].
  apply elem_of_cons in Ha as [->|Ha]; simpl; [lia|]. specialize (IH Ha). lia.
Qed.

(** The occurs check: a variable is not an instance of a type around it. *)
Lemma size_occurs σ t v : wf_ty t = true → v ∈ ty_vars t → t = variable v ∨ ty_size (σ v) < ty_size (apply_subst σ t).
Proof.
  induction t as [h args IH] using canonical_ty_ind. intros Hw Hv. rewrite Forall_forall in IH.
  destruct (ty_cases _ Hw) as [[w [= -> ->]]|Hh].
  - left. apply elem_of_ty_vars in Hv as [[= ->]|(a & Ha & _)]; [done|by apply elem_of_nil in Ha].
  - right. simpl in Hh. apply elem_of_ty_vars in Hv as [?|(a & Ha & Hva)]; [by edestruct Hh|]. rewrite apply_node by done.
    assert (Hlt : ty_size (apply_subst σ a) < ty_size (mkTy h (map (apply_subst σ) args))) by (by apply size_arg, list_elem_of_fmap_2).
    destruct (IH a Ha ltac:(by eapply wf_ty_args) Hva) as [->|Hs]; [done|lia].
Qed.

(** ** The bindings *)

Definition solves (σ : Subst) (u : CanonicalUnifier) : Prop :=
  ∀ v t, bindings u !! v = Some t → σ v = apply_subst σ t.
Definition fixes (σ : Subst) (u : CanonicalUnifier) : Prop := ∀ v, v ∈ rigid_variables u → σ v = variable v.

(** [θ] is what the bindings mean: it solves them and replaces every bound variable.  The
    bindings are acyclic, bind no rigid variable, and all variables are among [X]. *)
Record unifier_ok (X : gset N) (u : CanonicalUnifier) (θ : Subst) : Prop := {
  uo_solves : solves θ u;
  uo_free : ∀ v, bindings u !! v = None → θ v = variable v;
  uo_wf : ∀ v, wf_ty (θ v) = true;
  uo_idem : ∀ v w, w ∈ ty_vars (θ v) → bindings u !! w = None;
  uo_bound : ∀ v t, bindings u !! v = Some t → wf_ty t = true ∧ ty_vars t ⊆ X ∧ v ∈ X ∧ v ∉ rigid_variables u;
  uo_rank : ∃ (rank : N → nat) n, ∀ v t, bindings u !! v = Some t → rank v < n ∧
    ∀ w, w ∈ ty_vars t → is_Some (bindings u !! w) → rank v < rank w;
}.

(** Enough fuel. *)
Definition eventually (P : nat → Prop) : Prop := ∃ n, ∀ m, n ≤ m → P m.

Lemma eventually_always (P : nat → Prop) : (∀ m, P m) → eventually P.
Proof. intros H. by exists 0. Qed.
Lemma eventually_and (P Q : nat → Prop) : eventually P → eventually Q → eventually (λ m, P m ∧ Q m).
Proof. intros [n Hn] [k Hk]. exists (n `max` k). intros m Hm. split; [apply Hn|apply Hk]; lia. Qed.
Lemma eventually_mono (P Q : nat → Prop) : (∀ m, P m → Q m) → eventually P → eventually Q.
Proof. intros HPQ [n Hn]. exists n. auto. Qed.
Lemma eventually_S (P : nat → Prop) : eventually (λ m, P (S m)) → eventually P.
Proof. intros [n Hn]. exists (S n). intros [|m] Hm; [lia|]. apply Hn. lia. Qed.

Lemma resolve_root_spec X u θ t : unifier_ok X u θ → wf_ty t = true →
  ∃ r, eventually (λ m, resolve_root m u t = Some r) ∧ apply_subst θ r = apply_subst θ t ∧ wf_ty r = true ∧
    (∀ σ, solves σ u → apply_subst σ r = apply_subst σ t) ∧ (ty_vars t ⊆ X → ty_vars r ⊆ X) ∧
    ∀ v, head_of r = HVariable v → r = variable v ∧ bindings u !! v = None.
Proof.
  intros Hok. destruct (uo_rank _ _ _ Hok) as (rank & n & Hrank).
  assert (Hstop : ∀ t, wf_ty t = true → (∀ v, head_of t = HVariable v → bindings u !! v = None) →
    ∃ r, eventually (λ m, resolve_root m u t = Some r) ∧ apply_subst θ r = apply_subst θ t ∧ wf_ty r = true ∧
      (∀ σ, solves σ u → apply_subst σ r = apply_subst σ t) ∧ (ty_vars t ⊆ X → ty_vars r ⊆ X) ∧
      ∀ v, head_of r = HVariable v → r = variable v ∧ bindings u !! v = None).
  { intros s Hw Hn. exists s. split_and!; try done.
    - apply eventually_always. intros m. destruct m; simpl; destruct (head_of s) eqn:Hh; try done; by rewrite (Hn _ eq_refl).
    - intros v Hv. split; [|by apply Hn]. destruct (ty_cases s Hw) as [[w ->]|Hne]; [by simplify_eq/=|by edestruct Hne]. }
  assert (Hchain : ∀ k v, n - rank v ≤ k → ∃ r, eventually (λ m, resolve_root m u (variable v) = Some r) ∧
      apply_subst θ r = apply_subst θ (variable v) ∧ wf_ty r = true ∧
      (∀ σ, solves σ u → apply_subst σ r = apply_subst σ (variable v)) ∧ (ty_vars (variable v) ⊆ X → ty_vars r ⊆ X) ∧
      ∀ v, head_of r = HVariable v → r = variable v ∧ bindings u !! v = None).
  { induction k as [|k IH]; intros v Hk; destruct (bindings u !! v) as [t'|] eqn:Hb;
      try (apply Hstop; [done|]; intros w [= <-]; done); destruct (Hrank _ _ Hb) as [Hlt Hnext]; [lia|].
    destruct (uo_bound _ _ _ Hok _ _ Hb) as (Hw & Hx & _).
    assert (Hgo : ∃ r, eventually (λ m, resolve_root m u t' = Some r) ∧ apply_subst θ r = apply_subst θ t' ∧ wf_ty r = true ∧
      (∀ σ, solves σ u → apply_subst σ r = apply_subst σ t') ∧ (ty_vars t' ⊆ X → ty_vars r ⊆ X) ∧
      ∀ v, head_of r = HVariable v → r = variable v ∧ bindings u !! v = None).
    { destruct (ty_cases t' Hw) as [[w ->]|Hh]; [|apply Hstop; [done|]; intros w Hw'; by edestruct Hh].
      destruct (bindings u !! w) as [t2|] eqn:Hbw; [|apply Hstop; [done|]; by intros ? [= <-]].
      apply IH. assert (rank v < rank w); [|lia]. apply Hnext; [|by eexists]. apply elem_of_ty_vars. by left. }
    destruct Hgo as (r & Hev & Hθ & Hwr & Hσ & Hxr & Hv). exists r. split_and!; [|rewrite Hθ|done| | |done].
    - apply eventually_S. eapply eventually_mono; [|exact Hev]. intros m Hm. simpl. by rewrite Hb.
    - symmetry. by apply (uo_solves _ _ _ Hok).
    - intros σ Hs. rewrite (Hσ σ Hs). symmetry. by apply Hs.
    - intros _. by apply Hxr. }
  intros Hw. destruct (ty_cases t Hw) as [[v ->]|Hh]; [by eapply Hchain|]. apply Hstop; [done|]. intros v Hv. by edestruct Hh.
Qed.

Lemma mapM_eventually (f : nat → CanonicalTy → option CanonicalTy) (g : CanonicalTy → CanonicalTy) l :
  (∀ a, a ∈ l → eventually (λ m, f m a = Some (g a))) → eventually (λ m, mapM (f m) l = Some (map g l)).
Proof.
  induction l as [|a l IH]; intros Hl; [by apply eventually_always|].
  assert (H1 := Hl a ltac:(apply elem_of_cons; by left)).
  assert (H2 := IH ltac:(intros; apply Hl, elem_of_cons; by right)).
  eapply eventually_mono; [|exact (eventually_and _ _ H1 H2)]. intros m [E1 E2]. simpl. by rewrite E1, E2.
Qed.

Lemma head_apply σ t : (∀ v, head_of t ≠ HVariable v) →
  apply_subst σ t = mkTy (head_of t) (map (apply_subst σ) (arguments t)).
Proof. destruct t as [h args]. apply apply_node. Qed.

Lemma resolve_applies X u θ t : unifier_ok X u θ → wf_ty t = true → eventually (λ m, resolve m u t = Some (apply_subst θ t)).
Proof.
  intros Hok. remember (ty_size (apply_subst θ t)) as k eqn:Hk. revert t Hk.
  induction (lt_wf k) as [k _ IH]. intros t -> Hw.
  destruct (resolve_root_spec X u θ t Hok Hw) as (r & Hev & Hθ & Hwr & _ & _ & Hv). rewrite <- Hθ in *.
  assert (Hargs : eventually (λ m, mapM (resolve m u) (arguments r) = Some (map (apply_subst θ) (arguments r)))).
  { apply mapM_eventually. intros a Ha. destruct (ty_cases r Hwr) as [[w ->]|Hh]; [by apply elem_of_nil in Ha|].
    eapply IH; [|done|]; [|destruct r; by eapply wf_ty_args]. rewrite (head_apply θ r Hh). by apply size_arg, list_elem_of_fmap_2. }
  apply eventually_S. eapply eventually_mono; [|exact (eventually_and _ _ Hev Hargs)]. intros m [E1 E2].
  simpl. rewrite E1. simpl. rewrite E2. simpl. f_equal.
  destruct (ty_cases r Hwr) as [[w ->]|Hh]; [|by rewrite head_apply]. simpl. symmetry. apply (uo_free _ _ _ Hok). by apply Hv.
Qed.

(** ** Binding a variable *)

Definition single (v : N) (t : CanonicalTy) : Subst := λ w, if decide (w = v) then t else variable w.

(** The meaning of a type stays among the variables. *)
Lemma apply_within X u θ t : unifier_ok X u θ → wf_ty t = true → ty_vars t ⊆ X → ty_vars (apply_subst θ t) ⊆ X.
Proof.
  intros Hok. remember (ty_size (apply_subst θ t)) as k eqn:Hk. revert t Hk.
  induction (lt_wf k) as [k _ IH]. intros t -> Hw Hx.
  destruct (resolve_root_spec X u θ t Hok Hw) as (q & _ & Hq & Hwq & _ & Hxq & Hvq). specialize (Hxq Hx). rewrite <- Hq in *.
  destruct (ty_cases q Hwq) as [[z ->]|Hh].
  - simpl. rewrite (uo_free _ _ _ Hok) by (by apply Hvq). done.
  - rewrite (head_apply θ q Hh) in *. intros z Hz.
    apply elem_of_ty_vars in Hz as [?|(b & (a & -> & Ha)%list_elem_of_fmap & Hz)]; [by edestruct Hh|].
    destruct q as [h args]. simpl in *. eapply (IH _ _ a); [done|by eapply wf_ty_args| |done].
    intros y Hy. apply Hxq, elem_of_ty_vars. right. by exists a.
  Unshelve. pose proof (size_arg h (map (apply_subst θ) args) (apply_subst θ a)) as Hs. simpl in Hs.
  apply Hs. by apply list_elem_of_fmap_2.
Qed.

Lemma bind_ok X u θ v t : unifier_ok X u θ → bindings u !! v = None → v ∉ rigid_variables u → v ∈ X →
  wf_ty t = true → ty_vars t ⊆ X → v ∉ ty_vars (apply_subst θ t) →
  unifier_ok X (bind_var v (apply_subst θ t) u) (λ w, apply_subst (single v (apply_subst θ t)) (θ w)).
Proof.
  intros Hok Hv Hrigid Hvx Hw Hx Hocc. set (r := apply_subst θ t) in *.
  assert (Hwr : wf_ty r = true) by (apply wf_apply; [apply Hok|done]).
  assert (Hfree : ∀ w, w ∈ ty_vars r → bindings u !! w = None).
  { intros w (w' & _ & Hw')%vars_apply; [|done]. by eapply (uo_idem _ _ _ Hok). }
  assert (Hxr : ty_vars r ⊆ X) by (by eapply apply_within).
  assert (Hsingle : apply_subst (single v r) r = r).
  { apply apply_id; [done|]. intros w Hw'. unfold single. rewrite decide_False; [done|]. by intros ->. }
  assert (Hws : ∀ w, wf_ty (single v r w) = true) by (intros w; unfold single; by case_decide).
  assert (Hlook : ∀ w, bindings (bind_var v r u) !! w = None ↔ bindings u !! w = None ∧ w ≠ v).
  { intros w. simpl. rewrite lookup_insert_None. naive_solver. }
  constructor.
  - intros w s Hs. simpl in Hs. apply lookup_insert_Some in Hs as [[<- <-]|[Hne Hb]].
    + rewrite (uo_free _ _ _ Hok) by done. simpl. unfold single at 1. rewrite decide_True by done.
      rewrite <- apply_compose. rewrite (apply_id θ r); [done|done|]. intros w Hw'. by apply (uo_free _ _ _ Hok), Hfree.
    + rewrite (uo_solves _ _ _ Hok _ _ Hb). by rewrite apply_compose.
  - intros w [Hb Hne]%Hlook. rewrite (uo_free _ _ _ Hok) by done. simpl. unfold single. by rewrite decide_False.
  - intros w. apply wf_apply; [done|apply Hok].
  - intros w z Hz. apply vars_apply in Hz as (y & Hy & Hz); [|apply Hok]. apply Hlook. unfold single in Hz. case_decide as Hd.
    + split; [by apply Hfree|]. by intros ->.
    + apply elem_of_ty_vars in Hz as [[= <-]|(a & Ha & _)]; [|by apply elem_of_nil in Ha]. split; [by eapply (uo_idem _ _ _ Hok)|done].
  - intros w s Hs. simpl in Hs. apply lookup_insert_Some in Hs as [[<- <-]|[Hne Hb]]; [done|]. by apply (uo_bound _ _ _ Hok).
  - destruct (uo_rank _ _ _ Hok) as (rank & n & Hrank). exists (λ w, if decide (w = v) then n else rank w), (S n).
    intros w s Hs. simpl in Hs. apply lookup_insert_Some in Hs as [[<- <-]|[Hne Hb]].
    + rewrite decide_True by done. split; [lia|]. intros y Hy [z Hz]. simpl in Hz. apply lookup_insert_Some in Hz as [[<- _]|[_ Hz]]; [done|].
      specialize (Hfree y Hy). congruence.
    + rewrite decide_False by done. destruct (Hrank _ _ Hb) as [Hlt Hnext]. split; [lia|]. intros y Hy Hs'. case_decide as Hd; [done|].
      apply Hnext; [done|]. simpl in Hs'. by rewrite lookup_insert_ne in Hs'.
Qed.

(** ** Unification *)

(** What a run that solves the equations [E] may do to the unifier. *)
Definition outcome (u : CanonicalUnifier) (E : Subst → Prop) (u' : CanonicalUnifier) (ok : bool) : Prop :=
  rigid_variables u' = rigid_variables u ∧ bindings u ⊆ bindings u' ∧
  if ok then (∀ σ, solves σ u' → E σ) ∧ (∀ σ, solves σ u → fixes σ u → E σ → solves σ u')
  else ∀ σ, solves σ u → fixes σ u → ¬ E σ.

Definition decides (X : gset N) (u : CanonicalUnifier) (E : Subst → Prop) (run : nat → option (CanonicalUnifier * bool)) : Prop :=
  ∃ u' ok θ', unifier_ok X u' θ' ∧ outcome u E u' ok ∧ eventually (λ m, run m = Some (u', ok)).

Definition equation (l r : CanonicalTy) (σ : Subst) : Prop := apply_subst σ l = apply_subst σ r.
Definition equations (ls rs : list CanonicalTy) (σ : Subst) : Prop := map (apply_subst σ) ls = map (apply_subst σ) rs.

Lemma solves_sub σ u u' : bindings u ⊆ bindings u' → solves σ u' → solves σ u.
Proof. intros Hsub Hs v t Hv. apply Hs. by eapply lookup_weaken. Qed.

Lemma decides_ext X u E E' run : (∀ σ, solves σ u → E σ ↔ E' σ) → decides X u E run → decides X u E' run.
Proof.
  intros HE (u' & ok & θ' & Hok & (Hr & Hsub & Hout) & Hev). exists u', ok, θ'. split; [done|]. split; [|done].
  split; [done|]. split; [done|]. destruct ok.
  - destruct Hout as [H1 H2]. split; [intros σ Hs; apply HE; [by eapply solves_sub|by apply H1]|].
    intros σ Hs Hf He. apply H2; [done|done|]. by apply HE.
  - intros σ Hs Hf He. apply (Hout σ Hs Hf). by apply HE.
Qed.

(** The unifier does not change. *)
Lemma decides_yes X u θ E run : unifier_ok X u θ → (∀ σ, solves σ u → E σ) → eventually (λ m, run m = Some (u, true)) → decides X u E run.
Proof. intros Hok HE Hev. exists u, true, θ. split; [done|]. split; [|done]. repeat split; auto. Qed.
Lemma decides_no X u θ E run : unifier_ok X u θ → (∀ σ, solves σ u → fixes σ u → ¬ E σ) → eventually (λ m, run m = Some (u, false)) →
  decides X u E run.
Proof. intros Hok HE Hev. exists u, false, θ. split; [done|]. split; [|done]. repeat split; auto. Qed.

(** A solution of the bindings does not see that a type was resolved. *)
Lemma apply_resolved X u θ σ t : unifier_ok X u θ → solves σ u → wf_ty t = true →
  apply_subst σ (apply_subst θ t) = apply_subst σ t.
Proof.
  intros Hok Hs. remember (ty_size (apply_subst θ t)) as k eqn:Hk. revert t Hk.
  induction (lt_wf k) as [k _ IH]. intros t -> Hw.
  destruct (resolve_root_spec X u θ t Hok Hw) as (q & _ & Hq & Hwq & Hσ & _ & Hvq). rewrite <- (Hσ σ Hs). rewrite <- Hq in *.
  destruct (ty_cases q Hwq) as [[z ->]|Hh].
  - simpl. rewrite (uo_free _ _ _ Hok); [done|]. by apply Hvq.
  - rewrite (head_apply θ q Hh) in *. rewrite apply_node by done. rewrite (head_apply σ q Hh). f_equal. rewrite map_map.
    apply map_ext_in. intros a Ha%list_elem_of_In. eapply IH; [|done|destruct q; by eapply wf_ty_args].
    by apply size_arg, list_elem_of_fmap_2.
Qed.

(** A flexible variable against another type. *)
Lemma decides_bind X u θ v r :
  unifier_ok X u θ → bindings u !! v = None → v ∉ rigid_variables u → v ∈ X → wf_ty r = true → ty_vars r ⊆ X →
  (∀ w, head_of r = HVariable w → r = variable w ∧ bindings u !! w = None) → head_of r ≠ HVariable v →
  decides X u (equation (variable v) r)
    (λ m, right ← resolve m u r; if occurs v right then Some (u, false) else Some (bind_var v right u, true)).
Proof.
  intros Hok Hv Hrigid Hvx Hw Hx Hroot Hne. pose proof (resolve_applies X u θ r Hok Hw) as Hres.
  assert (Hθ : ∀ σ, solves σ u → apply_subst σ (apply_subst θ r) = apply_subst σ r) by (intros; by eapply apply_resolved).
  destruct (occurs v (apply_subst θ r)) eqn:Hocc.
  - eapply decides_no; [done| |eapply eventually_mono; [|exact Hres]; intros m E; simpl; rewrite E; simpl; by rewrite Hocc].
    intros σ Hs _ He. apply occurs_vars in Hocc. unfold equation in He. rewrite <- (Hθ σ Hs) in He. simpl in He.
    assert (Hwr : wf_ty (apply_subst θ r) = true) by (apply wf_apply; [apply Hok|done]).
    destruct (size_occurs σ _ v Hwr Hocc) as [Heq|Hlt]; [|rewrite <- He in Hlt; lia].
    destruct (ty_cases r Hw) as [[w ->]|Hh].
    + simpl in Heq. rewrite (uo_free _ _ _ Hok) in Heq by (by apply Hroot). by injection Heq as ->.
    + rewrite (head_apply θ r Hh) in Heq. injection Heq as Hhead _. by edestruct Hh.
  - assert (Hnot : v ∉ ty_vars (apply_subst θ r)) by (intros H%occurs_vars; congruence).
    exists (bind_var v (apply_subst θ r) u), true, (λ w, apply_subst (single v (apply_subst θ r)) (θ w)). split; [|split].
    + by apply bind_ok.
    + assert (Hsub : bindings u ⊆ bindings (bind_var v (apply_subst θ r) u)) by (by apply insert_subseteq).
      split; [done|]. split; [done|]. split.
      * intros σ Hs. unfold equation. rewrite <- (Hθ σ (solves_sub _ _ _ Hsub Hs)). simpl.
        rewrite (Hs v (apply_subst θ r)) by (simpl; apply lookup_insert_eq). done.
      * intros σ Hs _ He w t Hw'. simpl in Hw'. apply lookup_insert_Some in Hw' as [[<- <-]|[_ Hw']]; [|by apply Hs].
        rewrite (Hθ σ Hs). exact He.
    + eapply eventually_mono; [|exact Hres]. intros m E. simpl. rewrite E. simpl. by rewrite Hocc.
Qed.

Lemma decides_same X u E run run' : (∀ m, run m = run' m) → decides X u E run' → decides X u E run.
Proof.
  intros Hr (u' & ok & θ' & Hok & Hout & Hev). exists u', ok, θ'. split; [done|]. split; [done|].
  eapply eventually_mono; [|exact Hev]. intros m E'. by rewrite Hr.
Qed.

Lemma decides_run X u E run run' : decides X u E run' → eventually (λ m, run (S m) = run' m) → decides X u E run.
Proof.
  intros (u' & ok & θ' & Hok & Hout & Hev) Hr. exists u', ok, θ'. split; [done|]. split; [done|]. apply eventually_S.
  eapply eventually_mono; [|exact (eventually_and _ _ Hev Hr)]. intros m [E1 E2]. congruence.
Qed.

(** A type whose head is not a bound variable. *)
Definition is_root (u : CanonicalUnifier) (r : CanonicalTy) : Prop :=
  wf_ty r = true ∧ ∀ v, head_of r = HVariable v → r = variable v ∧ bindings u !! v = None.

Lemma root_resolve u r m : is_root u r → resolve_root m u r = Some r.
Proof. intros [_ Hv]. destruct m; simpl; destruct (head_of r) eqn:Hh; try done; by destruct (Hv _ eq_refl) as [_ ->]. Qed.

Lemma root_cases u r : is_root u r → (∃ v, r = variable v ∧ bindings u !! v = None) ∨ (∀ v, head_of r ≠ HVariable v).
Proof. intros [Hw Hv]. destruct (ty_cases r Hw) as [[v ->]|Hh]; [left|by right]. exists v. split; [done|]. by apply Hv. Qed.

Lemma unify_roots u l r m : is_root u l → is_root u r →
  unify (S m) u l r =
    match head_of l, head_of r with
    | HVariable var, other_head =>
        if decide (other_head = HVariable var) then Some (u, true)
        else if decide (var ∈ rigid_variables u) then
          match other_head with
          | HVariable other => if decide (other ∉ rigid_variables u) then unify m u r l else Some (u, false)
          | _ => Some (u, false)
          end
        else
          right ← resolve m u r;
          if occurs var right then Some (u, false) else Some (bind_var var right u, true)
    | _, HVariable _ => unify m u r l
    | head1, head2 =>
        if decide (head1 ≠ head2 ∨ length (arguments l) ≠ length (arguments r)) then Some (u, false)
        else all_pairs (unify m) u (arguments l) (arguments r)
    end.
Proof. intros Hl Hr. cbn [unify]. by rewrite !root_resolve. Qed.

Lemma decides_sym X u l r run : decides X u (equation r l) run → decides X u (equation l r) run.
Proof. apply decides_ext. intros σ _. unfold equation. split; congruence. Qed.

Section Vars.
Context (X : gset N) (u : CanonicalUnifier) (θ : Subst) (Hok : unifier_ok X u θ).

Lemma unify_flexible v r : is_root u (variable v) → is_root u r → v ∉ rigid_variables u → v ∈ X → ty_vars r ⊆ X →
  head_of r ≠ HVariable v → decides X u (equation (variable v) r) (λ m, unify m u (variable v) r).
Proof.
  intros Hv Hr Hrigid Hvx Hx Hne. eapply decides_run.
  - eapply (decides_bind X u θ v r Hok); [by apply Hv|done|done|by apply Hr|done|by apply Hr|done].
  - apply eventually_always. intros m. rewrite unify_roots by done. simpl. rewrite decide_False by done. by rewrite decide_False.
Qed.

Lemma unify_var v r : is_root u (variable v) → is_root u r → v ∈ X → ty_vars r ⊆ X →
  decides X u (equation (variable v) r) (λ m, unify m u (variable v) r).
Proof.
  intros Hv Hr Hvx Hx. destruct (decide (head_of r = HVariable v)) as [Heq|Hne].
  { eapply decides_yes; [done| |].
    - intros σ _. destruct (proj2 Hr v Heq) as [-> _]. done.
    - apply eventually_S, eventually_always. intros m. rewrite unify_roots by done. simpl. by rewrite decide_True. }
  destruct (decide (v ∈ rigid_variables u)) as [Hrig|Hflex]; [|by apply unify_flexible].
  assert (Hno : (∀ w, head_of r = HVariable w → w ∈ rigid_variables u) →
    decides X u (equation (variable v) r) (λ m, unify m u (variable v) r)).
  { intros Hall. eapply decides_no; [done| |].
    - intros σ Hs Hf. unfold equation. simpl. rewrite (Hf v Hrig). destruct (root_cases u r Hr) as [(w & -> & _)|Hh].
      + simpl. rewrite (Hf w) by (by apply Hall). by intros [= ->].
      + rewrite (head_apply σ r Hh). intros [= H _]. by edestruct Hh.
    - apply eventually_S, eventually_always. intros m. rewrite unify_roots by done. simpl.
      rewrite decide_False, decide_True by done. destruct (head_of r) eqn:Hh; try done.
      rewrite decide_False; [done|]. intros H. by apply H, Hall. }
  destruct (root_cases u r Hr) as [(w & -> & Hw)|Hh]; [|apply Hno; intros w Hw; by edestruct Hh].
  destruct (decide (w ∈ rigid_variables u)); [apply Hno; by intros ? [= <-]|].
  eapply decides_run.
  - apply decides_sym. eapply unify_flexible; [done|done|done| | |].
    + apply Hx, elem_of_ty_vars. by left.
    + intros z Hz. apply elem_of_ty_vars in Hz as [[= <-]|(a & Ha & _)]; [done|by apply elem_of_nil in Ha].
    + intros [= ->]. done.
  - apply eventually_always. intros m. rewrite unify_roots by done. simpl.
    rewrite decide_False, decide_True by done. by rewrite decide_True.
Qed.
End Vars.

(** ** Sequences of equations *)

Definition free_count (X : gset N) (u : CanonicalUnifier) : nat := size (X ∖ dom (bindings u)).

(** A run either binds one more of the variables, or changes nothing. *)
Lemma progress X u u' θ' : unifier_ok X u' θ' → bindings u ⊆ bindings u' → rigid_variables u' = rigid_variables u →
  u' = u ∨ free_count X u' < free_count X u.
Proof.
  intros Hok Hsub Hr. assert (Hdom : X ∖ dom (bindings u') ⊆ X ∖ dom (bindings u)).
  { apply subseteq_dom in Hsub. set_solver. }
  destruct (decide (free_count X u' < free_count X u)) as [|Hge]; [by right|left].
  assert (Heq : X ∖ dom (bindings u') = X ∖ dom (bindings u)) by (apply set_subseteq_size_eq; [done|unfold free_count in Hge; lia]).
  destruct u as [b rs], u' as [b' rs']. simpl in *. subst rs'. f_equal. apply map_eq. intros v.
  destruct (b !! v) as [t|] eqn:Hb; [by eapply lookup_weaken|]. destruct (b' !! v) as [t|] eqn:Hb'; [|done]. exfalso.
  destruct (uo_bound _ _ _ Hok v t Hb') as (_ & _ & Hv & _).
  assert (v ∈ X ∖ dom b) as Hin by (apply elem_of_difference; split; [done|by apply not_elem_of_dom]).
  rewrite <- Heq in Hin. apply elem_of_difference in Hin as [_ Hin]. by apply Hin, elem_of_dom.
Qed.

Lemma decides_seq X u E1 E2 run1 run2 :
  decides X u E1 run1 →
  (∀ u' θ', unifier_ok X u' θ' → u' = u ∨ free_count X u' < free_count X u → decides X u' E2 (run2 u')) →
  decides X u (λ σ, E1 σ ∧ E2 σ) (λ m, '(u, ok) ← run1 m; if (ok : bool) then run2 u m else Some (u, false)).
Proof.
  intros (u1 & ok1 & θ1 & Hok1 & (Hr1 & Hsub1 & Hout1) & Hev1) Hnext. destruct ok1.
  - destruct (Hnext u1 θ1 Hok1) as (u2 & ok2 & θ2 & Hok2 & (Hr2 & Hsub2 & Hout2) & Hev2); [by eapply progress|].
    exists u2, ok2, θ2. split; [done|]. split.
    + split; [congruence|]. split; [by transitivity (bindings u1)|]. destruct Hout1 as [Ha1 Hb1].
      assert (Hfix : ∀ σ, fixes σ u → fixes σ u1) by (unfold fixes; by rewrite Hr1). destruct ok2.
      * destruct Hout2 as [Ha2 Hb2]. split; [|intros σ Hs Hf [H1 H2]; apply Hb2; auto].
        intros σ Hs. split; [|by apply Ha2]. apply Ha1. by eapply solves_sub.
      * intros σ Hs Hf [H1 H2]. apply (Hout2 σ); auto.
    + eapply eventually_mono; [|exact (eventually_and _ _ Hev1 Hev2)]. intros m [E1' E2']. rewrite E1'. exact E2'.
  - exists u1, false, θ1. split; [done|]. split.
    + split; [done|]. split; [done|]. intros σ Hs Hf [H1 _]. by apply (Hout1 σ).
    + eapply eventually_mono; [|exact Hev1]. intros m E. by rewrite E.
Qed.

Lemma equations_cons a ls b rs σ : equations (a :: ls) (b :: rs) σ ↔ equation a b σ ∧ equations ls rs σ.
Proof. unfold equations, equation. simpl. split; [by intros [= -> ->]|by intros [-> ->]]. Qed.

(** [f] decides equations between the types of [P] while at most [k] variables are unbound. *)
Definition decides_upto (X : gset N) (k : nat) (f : nat → CanonicalUnifier → CanonicalTy → CanonicalTy → option (CanonicalUnifier * bool)) : Prop :=
  ∀ u θ l r, unifier_ok X u θ → free_count X u ≤ k → wf_ty l = true → wf_ty r = true → ty_vars l ⊆ X → ty_vars r ⊆ X →
    decides X u (equation l r) (λ m, f m u l r).

Definition within (X : gset N) (l : list CanonicalTy) : Prop := Forall (λ t, wf_ty t = true ∧ ty_vars t ⊆ X) l.

Lemma decides_nil X u θ run : unifier_ok X u θ → (∀ m, run m = Some (u, true)) → decides X u (equations [] []) run.
Proof. intros Hok Hr. eapply decides_yes; [done|done|]. by apply eventually_always. Qed.

Lemma all_pairs_upto X k f ls : decides_upto X k f → ∀ rs u θ, unifier_ok X u θ → free_count X u ≤ k → length ls = length rs →
  within X ls → within X rs → decides X u (equations ls rs) (λ m, all_pairs (f m) u ls rs).
Proof.
  intros Hf. induction ls as [|a ls IH]; intros [|b rs] u θ Hok Hk Hlen Hl Hr; try done; [by eapply decides_nil|].
  apply Forall_cons in Hl as [[Hwa Hxa] Hl]. apply Forall_cons in Hr as [[Hwb Hxb] Hr].
  eapply decides_ext; [intros σ _; symmetry; apply equations_cons|].
  apply (decides_seq X u _ _ (λ m, f m u a b) (λ u m, all_pairs (f m) u ls rs)); [by eapply Hf|].
  intros u' θ' Hok' Hp. eapply IH; try done; [|by injection Hlen]. destruct Hp as [->|]; [done|lia].
Qed.

(** The same when [f] decides all equations for fewer unbound variables, and these ones now. *)
Lemma all_pairs_now X k f ls : (∀ k', k' < k → decides_upto X k' f) → ∀ rs u θ, unifier_ok X u θ → free_count X u ≤ k → length ls = length rs →
  within X ls → within X rs →
  (∀ a b, a ∈ ls → b ∈ rs → decides X u (equation a b) (λ m, f m u a b)) →
  decides X u (equations ls rs) (λ m, all_pairs (f m) u ls rs).
Proof.
  intros Hf. induction ls as [|a ls IH]; intros [|b rs] u θ Hok Hk Hlen Hl Hr Hnow; try done; [by eapply decides_nil|].
  pose proof Hl as Hl0. pose proof Hr as Hr0.
  apply Forall_cons in Hl as [[Hwa Hxa] Hl]. apply Forall_cons in Hr as [[Hwb Hxb] Hr].
  eapply decides_ext; [intros σ _; symmetry; apply equations_cons|].
  apply (decides_seq X u _ _ (λ m, f m u a b) (λ u m, all_pairs (f m) u ls rs)); [apply Hnow; apply elem_of_cons; by left|].
  intros u' θ' Hok' [->|Hlt].
  - eapply IH; try done; [by injection Hlen|]. intros a' b' Ha' Hb'. apply Hnow; apply elem_of_cons; by right.
  - eapply all_pairs_upto; [apply (Hf (free_count X u')); lia|done|done|by injection Hlen|done|done].
Qed.

(** ** Unification decides equations *)

Lemma root_args X t : wf_ty t = true → ty_vars t ⊆ X → within X (arguments t).
Proof.
  intros Hw Hx. apply Forall_forall. intros a Ha. destruct t as [h args]. split; [by eapply wf_ty_args|].
  intros v Hv. apply Hx, elem_of_ty_vars. right. by exists a.
Qed.

Lemma unify_upto X : ∀ k, decides_upto X k unify.
Proof.
  intros k. induction (lt_wf k) as [k _ IHk]. intros u θ l r Hok.
  remember (ty_size (apply_subst θ l)) as s eqn:Hs. revert l r Hs. induction (lt_wf s) as [s _ IHs]. intros l0 r0 -> Hk Hwl Hwr Hxl Hxr.
  destruct (resolve_root_spec X u θ l0 Hok Hwl) as (l & Hl & Hθl & Hwl' & Hσl & Hxl' & Hvl).
  destruct (resolve_root_spec X u θ r0 Hok Hwr) as (r & Hr & Hθr & Hwr' & Hσr & Hxr' & Hvr).
  specialize (Hxl' Hxl). specialize (Hxr' Hxr).
  assert (Hrl : is_root u l) by done. assert (Hrr : is_root u r) by done.
  cut (decides X u (equation l r) (λ m, unify (S m) u l r)).
  { intros Hd. eapply decides_ext; [|eapply decides_run; [exact Hd|]].
    - intros σ Hs. unfold equation. by rewrite (Hσl σ Hs), (Hσr σ Hs).
    - eapply eventually_mono; [|exact (eventually_and _ _ Hl Hr)]. intros m [E1 E2]. cbn [unify]. by rewrite E1, E2, !root_resolve. }
  destruct (root_cases u l Hrl) as [(v & -> & Hv)|Hhl].
  { destruct (unify_var X u θ Hok v r Hrl Hrr) as (u' & ok & θ' & H1 & H2 & n & Hn); [apply Hxl', elem_of_ty_vars; by left|done|].
    exists u', ok, θ'. split; [done|]. split; [done|]. exists n. intros m Hm. apply Hn. lia. }
  destruct (root_cases u r Hrr) as [(v & -> & Hv)|Hhr].
  { destruct (unify_var X u θ Hok v l Hrr Hrl) as (u' & ok & θ' & H1 & H2 & n & Hn); [apply Hxr', elem_of_ty_vars; by left|done|].
    apply decides_sym. exists u', ok, θ'. split; [done|]. split; [done|]. exists n. intros m Hm. rewrite unify_roots by done. simpl.
    destruct (head_of l) eqn:Hh; try (apply Hn; lia). by edestruct Hhl. }
  assert (Hrun : ∀ m, unify (S m) u l r =
    if decide (head_of l ≠ head_of r ∨ length (arguments l) ≠ length (arguments r)) then Some (u, false)
    else all_pairs (unify m) u (arguments l) (arguments r)).
  { intros m. rewrite unify_roots by done. destruct (head_of l) eqn:Hh1; try (by edestruct Hhl); destruct (head_of r) eqn:Hh2; try done;
      by edestruct Hhr. }
  assert (Heq : ∀ σ, equation l r σ ↔ head_of l = head_of r ∧ equations (arguments l) (arguments r) σ).
  { intros σ. unfold equation, equations. rewrite (head_apply σ l Hhl), (head_apply σ r Hhr). split; [by intros [= ? ?]|by intros [-> ->]]. }
  destruct (decide (head_of l ≠ head_of r ∨ length (arguments l) ≠ length (arguments r))) as [Hne|Hsame].
  - eapply decides_no; [done| |by apply eventually_always; intros m; rewrite Hrun].
    intros σ _ _ [Hh He]%Heq. destruct Hne as [?|Hlen]; [done|]. apply Hlen.
    apply (f_equal length) in He. by rewrite !length_map in He.
  - eapply decides_same; [exact Hrun|]. assert (head_of l = head_of r ∧ length (arguments l) = length (arguments r)) as [Hh Hlen].
    { destruct (decide (head_of l = head_of r)); [|tauto]. split; [done|]. lia. }
    apply (decides_ext X u (equations (arguments l) (arguments r))); [intros σ _; rewrite Heq; naive_solver|].
    eapply (all_pairs_now X k unify); [exact IHk|done|done|done|by apply root_args|by apply root_args|].
    intros a b Ha Hb. pose proof (root_args X l Hwl' Hxl') as Hal. pose proof (root_args X r Hwr' Hxr') as Hbr.
    unfold within in Hal, Hbr. rewrite Forall_forall in Hal, Hbr. destruct (Hal a Ha), (Hbr b Hb).
    eapply IHs; try done. rewrite <- Hθl, (head_apply θ l Hhl). by apply size_arg, list_elem_of_fmap_2.
Qed.

(** [Unifier.unify] terminates and decides whether two types have a common instance. *)
Lemma unify_spec X u θ l r : unifier_ok X u θ → wf_ty l = true → wf_ty r = true → ty_vars l ⊆ X → ty_vars r ⊆ X →
  decides X u (equation l r) (λ m, unify m u l r).
Proof. intros. by eapply (unify_upto X (free_count X u)). Qed.

Lemma empty_ok X rigid : unifier_ok X (mkUnifier ∅ rigid) variable.
Proof.
  constructor; simpl; try done.
  - by exists (λ _, 0), 1.
Qed.
