(* ===== verification/Coherence.v ===== *)
(** * Coherence of trait implementations

    [unify_most_general]: unification decides whether two types have a common instance.
    [trait_coherence]: a registry that only grows by checked registrations has, for every
    request, at most one implementation of a trait, and none of the excluded peer; a
    registration is rejected only when there is such a request. *)

From S2P Require Import Prelude Names ParseError TypeEnv TraitPatterns Unification UnifierProps.
Import Unifier.

(** ** Unification *)

(** C34: unification terminates, from every state of the unifier that earlier calls can have
    left.  When it succeeds, the bindings have a solution, all their solutions make the two types
    equal, and every substitution that solved the earlier bindings, keeps the rigid variables
    and makes the types equal solves the new ones; [resolve] then returns the same type for both.
    When it fails, no substitution that solves the bindings and keeps the rigid variables makes
    the types equal. *)
Theorem unify_most_general X u θ l r : unifier_ok X u θ → wf_ty l = true → wf_ty r = true → ty_vars l ⊆ X → ty_vars r ⊆ X →
  ∃ u' ok θ', eventually (λ m, unify m u l r = Some (u', ok)) ∧ unifier_ok X u' θ' ∧
    (if ok
     then solves θ' u' ∧ (∀ σ, solves σ u' → apply_subst σ l = apply_subst σ r) ∧
       (∀ σ, solves σ u → fixes σ u → apply_subst σ l = apply_subst σ r → solves σ u') ∧
       ∃ t, eventually (λ m, resolve m u' l = Some t ∧ resolve m u' r = Some t)
     else ∀ σ, solves σ u → fixes σ u → apply_subst σ l ≠ apply_subst σ r).
Proof.
  intros Hok Hwl Hwr Hxl Hxr. destruct (unify_spec X u θ l r Hok Hwl Hwr Hxl Hxr) as (u' & ok & θ' & Hok' & (_ & _ & Hout) & Hev).
  exists u', ok, θ'. split; [done|]. split; [done|]. destruct ok; [|exact Hout]. destruct Hout as [Hall Hmost].
  split; [apply Hok'|]. split; [exact Hall|]. split; [exact Hmost|]. exists (apply_subst θ' l).
  apply eventually_and; [by eapply resolve_applies|]. rewrite (Hall θ') by apply Hok'. by eapply resolve_applies.
Qed.

Lemma unify_most_general_witness :
  let l := mkTy (HNominal 1) [variable 0; variable 0] in
  let r := mkTy (HNominal 1) [mkTy (HNominal 2) [variable 1]; variable 2] in
  (∃ u', unify 10 (mkUnifier ∅ ∅) l r = Some (u', true)) ∧
  ∃ u' ok θ', eventually (λ m, unify m (mkUnifier ∅ ∅) l r = Some (u', ok)) ∧ unifier_ok {[0; 1; 2]}%N u' θ'.
Proof.
  split; [eexists; vm_compute; reflexivity|].
  destruct (unify_most_general {[0; 1; 2]}%N (mkUnifier ∅ ∅) variable (mkTy (HNominal 1) [variable 0; variable 0])
    (mkTy (HNominal 1) [mkTy (HNominal 2) [variable 1]; variable 2]) (empty_ok _ _) eq_refl eq_refl) as (u' & ok & θ' & H1 & H2 & _).
  - simpl. set_solver.
  - simpl. set_solver.
  - exists u', ok, θ'. split; [exact H1|exact H2].
Defined.

(** ** Overlap *)

(** A pattern covers the requests that are its instances. *)
Definition covers (key : CanonicalTraitImplPatternKey) (request : list CanonicalTy) : Prop :=
  ∃ σ, request = map (apply_subst σ) (key_types key).

Definition conflict (k1 k2 : CanonicalTraitImplPatternKey) : Prop := ∃ request, covers k1 request ∧ covers k2 request.

(** Variables have no arguments, and doubling their numbers stays in [u32]. *)
Definition key_ok (key : CanonicalTraitImplPatternKey) : Prop :=
  Forall (λ t, wf_ty t = true ∧ ∀ v, v ∈ ty_vars t → (v < 2147483648)%N) (key_types key).

Lemma side_variable_small side v : (side < 2)%N → (v < 2147483648)%N → side_variable side v = (v * 2 + side)%N.
Proof. intros. unfold side_variable. rewrite N.mod_small; [done|]. unfold u32_max. lia. Qed.

Lemma apply_rename σ side t : wf_ty t = true → apply_subst σ (rename side t) = apply_subst (λ v, σ (side_variable side v)) t.
Proof.
  induction t as [h args IH] using canonical_ty_ind. intros Hw. rewrite Forall_forall in IH.
  destruct (ty_cases _ Hw) as [[v [= -> ->]]|Hh]; [done|]. simpl in Hh.
  assert (Hr : rename side (mkTy h args) = mkTy h (map (rename side) args)) by (destruct h; try done; by edestruct Hh).
  rewrite Hr, !apply_node by done. f_equal. rewrite map_map. apply map_ext_in. intros a Ha%list_elem_of_In.
  apply IH; [done|]. by eapply wf_ty_args.
Qed.

Lemma wf_rename side t : wf_ty t = true → wf_ty (rename side t) = true.
Proof.
  induction t as [h args IH] using canonical_ty_ind. intros Hw. rewrite Forall_forall in IH.
  destruct (ty_cases _ Hw) as [[v [= -> ->]]|Hh]; [done|]. simpl in Hh.
  assert (Hr : rename side (mkTy h args) = mkTy h (map (rename side) args)) by (destruct h; try done; by edestruct Hh).
  rewrite Hr, wf_ty_node by done. apply forallb_forall. intros b (a & <- & Ha%list_elem_of_In)%in_map_iff.
  apply IH; [done|]. by eapply wf_ty_args.
Qed.

(** One substitution for the two sides. *)
Definition both (σ τ : Subst) : Subst := λ v, if decide (v `mod` 2 = 0)%N then σ (v / 2)%N else τ (v / 2)%N.

Lemma both_side σ τ v : (v < 2147483648)%N → both σ τ (side_variable 0 v) = σ v ∧ both σ τ (side_variable 1 v) = τ v.
Proof.
  intros Hv. rewrite !side_variable_small by (done || lia). unfold both. split.
  - rewrite decide_True.
    + f_equal. rewrite N.add_0_r. apply N.div_mul. lia.
    + rewrite N.add_0_r. apply N.Div0.mod_mul.
  - assert (Hm : ((v * 2 + 1) `mod` 2 = 1)%N) by (rewrite N.add_comm, N.Div0.mod_add; done).
    rewrite decide_False by lia. f_equal. rewrite N.div_add_l by lia. change (1 / 2)%N with 0%N. lia.
Qed.

Lemma conflict_equations k1 k2 : key_ok k1 → key_ok k2 →
  conflict k1 k2 ↔ ∃ σ, equations (map (rename 0) (key_types k1)) (map (rename 1) (key_types k2)) σ.
Proof.
  unfold key_ok. intros H1 H2. rewrite Forall_forall in H1, H2. split.
  - intros (req & [σ ->] & [τ Heq]). exists (both σ τ). unfold equations. rewrite !map_map.
    transitivity (map (apply_subst σ) (key_types k1)).
    + apply map_ext_in. intros t Ht%list_elem_of_In. destruct (H1 t Ht) as [Hw Hb]. rewrite apply_rename by done. apply apply_ext.
      intros v Hv. by apply both_side, Hb.
    + rewrite Heq. apply map_ext_in. intros t Ht%list_elem_of_In. destruct (H2 t Ht) as [Hw Hb]. rewrite apply_rename by done. apply apply_ext.
      intros v Hv. symmetry. by apply both_side, Hb.
  - intros [σ Heq]. unfold equations in Heq. rewrite !map_map in Heq. exists (map (λ x, apply_subst σ (rename 0 x)) (key_types k1)). split.
    + exists (λ v, σ (side_variable 0 v)). apply map_ext_in. intros t Ht%list_elem_of_In. apply apply_rename, H1, Ht.
    + rewrite Heq. exists (λ v, σ (side_variable 1 v)). apply map_ext_in. intros t Ht%list_elem_of_In. apply apply_rename, H2, Ht.
Qed.

Lemma all_pairs_map f g1 g2 u ls rs : all_pairs (λ u a b, f u (g1 a) (g2 b)) u ls rs = all_pairs f u (map g1 ls) (map g2 rs).
Proof.
  revert u rs. induction ls as [|a ls IH]; intros u [|b rs]; try done. simpl. destruct (f u (g1 a) (g2 b)) as [[u' []]|]; simpl; [apply IH|done|done].
Qed.

Lemma overlap_exact k1 k2 : key_ok k1 → key_ok k2 →
  ∃ b, eventually (λ m, canonical_patterns_overlap m k1 k2 = Some b) ∧ (b = true ↔ conflict k1 k2).
Proof.
  intros H1 H2. pose proof (conflict_equations k1 k2 H1 H2) as Hc.
  cut (∃ b, eventually (λ m, canonical_patterns_overlap m k1 k2 = Some b) ∧
    (b = true ↔ ∃ σ, equations (map (rename 0) (key_types k1)) (map (rename 1) (key_types k2)) σ)).
  { intros (b & Hev & Hb). exists b. split; [done|]. by rewrite Hb, Hc. }
  unfold canonical_patterns_overlap. case_decide as Hlen.
  2: { exists false. split; [by apply eventually_always|]. split; [done|]. intros [σ Heq%(f_equal length)]. rewrite !length_map in Heq.
       unfold key_types in Heq. rewrite !length_app in Heq. simpl in Heq. lia. }
  set (ls := map (rename 0) (key_types k1)). set (rs := map (rename 1) (key_types k2)).
  set (X := ⋃ (map ty_vars (ls ++ rs))).
  assert (Hin : ∀ l side k, key_ok k → l = map (rename side) (key_types k) → (∀ t, t ∈ l → t ∈ ls ++ rs) → within X l).
  { intros l side k Hk -> Hsub. apply Forall_forall. intros t Ht. split.
    - apply list_elem_of_fmap in Ht as (s & -> & Hs). unfold key_ok in Hk. rewrite Forall_forall in Hk. by apply wf_rename, Hk.
    - intros v Hv. unfold X. apply elem_of_union_list. exists (ty_vars t). split; [|done]. by apply list_elem_of_fmap_2, Hsub. }
  destruct (all_pairs_upto X (free_count X default) unify ls (unify_upto X _) rs default variable) as (u' & ok & θ' & Hok & (_ & _ & Hout) & Hev).
  - apply empty_ok.
  - done.
  - unfold ls, rs, key_types. rewrite !length_map, !length_app. simpl. lia.
  - eapply (Hin _ 0%N k1); [done|done|]. intros t Ht. apply elem_of_app. by left.
  - eapply (Hin _ 1%N k2); [done|done|]. intros t Ht. apply elem_of_app. by right.
  - exists ok. split.
    + eapply eventually_mono; [|exact Hev]. intros m E. rewrite (all_pairs_map (unify m)). fold ls rs. by rewrite E.
    + destruct ok.
      * split; [|done]. intros _. exists θ'. destruct Hout as [Hall _]. apply Hall, Hok.
      * split; [done|]. intros [σ Hσ]. exfalso. by apply (Hout σ).
Qed.

(** ** The registry *)

Import Unification.Coherence.

Lemma conflict_sym k1 k2 : conflict k1 k2 ↔ conflict k2 k1.
Proof. unfold conflict. naive_solver. Qed.
Lemma conflict_self k : conflict k k.
Proof. exists (map (apply_subst variable) (key_types k)). by split; exists variable. Qed.

Lemma find_overlap_spec key es : key_ok key → Forall key_ok es →
  ∃ r, eventually (λ m, find_overlap m key es = Some r) ∧
    match r with Some e => e ∈ es ∧ conflict key e | None => ∀ e, e ∈ es → ¬ conflict key e end.
Proof.
  intros Hk. induction 1 as [|e es He _ (r & Hev & Hr)].
  { exists None. split; [by apply eventually_always|]. intros e He. by apply elem_of_nil in He. }
  destruct (overlap_exact key e Hk He) as (b & Hb & Hbc). destruct b.
  - exists (Some e). split.
    + eapply eventually_mono; [|exact Hb]. intros m E. simpl. by rewrite E.
    + split; [apply elem_of_cons; by left|]. by apply Hbc.
  - exists r. split.
    + eapply eventually_mono; [|exact (eventually_and _ _ Hb Hev)]. intros m [E1 E2]. simpl. by rewrite E1.
    + destruct r as [e'|].
      * destruct Hr as [Hin Hc]. split; [apply elem_of_cons; by right|done].
      * intros e' [->|Hin]%elem_of_cons; [|by apply Hr]. intros Hc. by apply Hbc in Hc.
Qed.

Section Registry.
(** The traits that exclude each other: [Convert] and [TryConvert]. *)
Context (peer_of : N → option N).

Abbreviation trait_of key := (tr_trait_id (trait_ref key)).

Inductive registered : ImplIndex → Prop :=
| reg_empty : registered ∅
| reg_step index key index' :
    registered index → key_ok key →
    eventually (λ m, register_impl m key (peer_of (trait_of key)) index = Some (Ok index')) →
    registered index'.

Record index_ok (index : ImplIndex) : Prop := {
  ix_keys : ∀ t, Forall (λ k, key_ok k ∧ trait_of k = t) (trait_impl_candidate_keys t index);
  ix_disjoint : ∀ t k1 k2, k1 ∈ trait_impl_candidate_keys t index → k2 ∈ trait_impl_candidate_keys t index →
    conflict k1 k2 → k1 = k2;
  ix_peers : ∀ t p k1 k2, peer_of t = Some p → k1 ∈ trait_impl_candidate_keys t index → k2 ∈ trait_impl_candidate_keys p index →
    ¬ conflict k1 k2;
}.

Definition verdict (key : CanonicalTraitImplPatternKey) (index : ImplIndex) (r : Result ImplError ImplIndex) : Prop :=
  match r with
  | Err (OverlappingImpls e) => e ∈ trait_impl_candidate_keys (trait_of key) index ∧ conflict key e
  | Err (ExclusivePeer e) => ∃ p, peer_of (trait_of key) = Some p ∧ e ∈ trait_impl_candidate_keys p index ∧ conflict key e
  | Ok index' =>
      (∀ e, e ∈ trait_impl_candidate_keys (trait_of key) index → ¬ conflict key e) ∧
      (∀ p e, peer_of (trait_of key) = Some p → e ∈ trait_impl_candidate_keys p index → ¬ conflict key e) ∧
      index' = <[trait_of key := trait_impl_candidate_keys (trait_of key) index ++ [key]]> index
  end.

Lemma register_spec key index : key_ok key → (∀ t, Forall key_ok (trait_impl_candidate_keys t index)) →
  ∃ r, eventually (λ m, register_impl m key (peer_of (trait_of key)) index = Some r) ∧ verdict key index r.
Proof.
  intros Hk Hall. destruct (find_overlap_spec key _ Hk (Hall (trait_of key))) as (r1 & Hev1 & Hr1). destruct r1 as [e|].
  { exists (Err (OverlappingImpls e)). split; [|done]. eapply eventually_mono; [|exact Hev1]. intros m E. unfold register_impl. by rewrite E. }
  assert (Hpeer : ∃ r2, eventually (λ m, match peer_of (trait_of key) with
      | Some peer => find_overlap m key (trait_impl_candidate_keys peer index) | None => Some None end = Some r2) ∧
    match r2 with
    | Some e => ∃ p, peer_of (trait_of key) = Some p ∧ e ∈ trait_impl_candidate_keys p index ∧ conflict key e
    | None => ∀ p e, peer_of (trait_of key) = Some p → e ∈ trait_impl_candidate_keys p index → ¬ conflict key e end).
  { destruct (peer_of (trait_of key)) as [p|].
    - destruct (find_overlap_spec key _ Hk (Hall p)) as (r2 & Hev2 & Hr2). exists r2. split; [done|]. destruct r2 as [e|].
      + by exists p.
      + intros p' e [= <-]. by apply Hr2.
    - exists None. split; [by apply eventually_always|]. done. }
  destruct Hpeer as (r2 & Hev2 & Hr2). destruct r2 as [e|].
  - exists (Err (ExclusivePeer e)). split; [|done]. eapply eventually_mono; [|exact (eventually_and _ _ Hev1 Hev2)].
    intros m [E1 E2]. unfold register_impl. rewrite E1. simpl. by rewrite E2.
  - eexists (Ok _). split; [eapply eventually_mono; [|exact (eventually_and _ _ Hev1 Hev2)]|].
    + intros m [E1 E2]. unfold register_impl. rewrite E1. simpl. by rewrite E2.
    + split; [done|]. split; [done|]. unfold index_trait_impl. rewrite decide_False; [done|].
      intros Hin. by apply (Hr1 key Hin), conflict_self.
Qed.

Lemma eventually_unique {A} (f : nat → option A) a b : eventually (λ m, f m = Some a) → eventually (λ m, f m = Some b) → a = b.
Proof. intros Ha Hb. destruct (eventually_and _ _ Ha Hb) as [n Hn]. destruct (Hn n (le_n n)). congruence. Qed.

Context (Hsym : ∀ a b, peer_of a = Some b → peer_of b = Some a) (Hirr : ∀ a, peer_of a ≠ Some a).

Lemma registered_ok index : registered index → index_ok index.
Proof.
  induction 1 as [|index key index' _ IH Hk Hreg].
  { assert (He : ∀ t, trait_impl_candidate_keys t ∅ = []) by done. constructor.
    - intros t. rewrite He. constructor.
    - intros t k1 k2 H1. rewrite He in H1. by apply elem_of_nil in H1.
    - intros t p k1 k2 _ H1. rewrite He in H1. by apply elem_of_nil in H1. }
  assert (Hall : ∀ t, Forall key_ok (trait_impl_candidate_keys t index)).
  { intros t. eapply Forall_impl; [apply (ix_keys _ IH t)|]. by intros k [? _]. }
  destruct (register_spec key index Hk Hall) as (r & Hev & Hv).
  assert (r = Ok index') as -> by (eapply eventually_unique; [exact Hev|exact Hreg]). destruct Hv as (Hnew & Hpeer & ->).
  assert (Hkeys : ∀ t, trait_impl_candidate_keys t (<[trait_of key := trait_impl_candidate_keys (trait_of key) index ++ [key]]> index) =
    trait_impl_candidate_keys t index ++ (if decide (t = trait_of key) then [key] else [])).
  { intros t. unfold trait_impl_candidate_keys, ImplIndex in *. case_decide as Ht.
    - subst. by rewrite lookup_insert_eq.
    - by rewrite lookup_insert_ne, app_nil_r. }
  assert (Hmem : ∀ t k, k ∈ trait_impl_candidate_keys t (<[trait_of key := trait_impl_candidate_keys (trait_of key) index ++ [key]]> index) →
    k ∈ trait_impl_candidate_keys t index ∨ (t = trait_of key ∧ k = key)).
  { intros t k. rewrite Hkeys, elem_of_app. intros [?|H]; [by left|]. case_decide; [|by apply elem_of_nil in H].
    apply list_elem_of_singleton in H. by right. }
  constructor.
  - intros t. rewrite Hkeys. apply Forall_app. split; [apply (ix_keys _ IH)|]. case_decide; [by repeat constructor|constructor].
  - intros t k1 k2 [H1|[-> ->]]%Hmem [H2|[Ht ->]]%Hmem Hc; [by eapply (ix_disjoint _ IH)| | |done].
    + subst t. apply conflict_sym in Hc. by destruct (Hnew k1 H1).
    + by destruct (Hnew k2 H2).
  - intros t p k1 k2 Hp [H1|[-> ->]]%Hmem [H2|[-> ->]]%Hmem Hc.
    + by eapply (ix_peers _ IH).
    + apply conflict_sym in Hc. apply (Hpeer t k1); [by apply Hsym|done|done].
    + by apply (Hpeer p k2).
    + by apply (Hirr (trait_of key)).
Qed.

(** C35: in a registry that grew by checked registrations, every request (the arguments of a
    trait and its target) is covered by at most one implementation of a trait, and by none of
    an exclusive peer when the trait has one.  Registering terminates; it is rejected exactly
    when the new pattern and one that is there cover a common request. *)
Theorem trait_coherence index : registered index →
  (∀ t k1 k2 request, k1 ∈ trait_impl_candidate_keys t index → k2 ∈ trait_impl_candidate_keys t index →
     covers k1 request → covers k2 request → k1 = k2) ∧
  (∀ t p k1 k2 request, peer_of t = Some p → k1 ∈ trait_impl_candidate_keys t index → k2 ∈ trait_impl_candidate_keys p index →
     covers k1 request → ¬ covers k2 request) ∧
  (∀ key, key_ok key → ∃ r, eventually (λ m, register_impl m key (peer_of (trait_of key)) index = Some r) ∧
     ((∃ e, r = Err e) ↔ ∃ k request, (k ∈ trait_impl_candidate_keys (trait_of key) index ∨
         ∃ p, peer_of (trait_of key) = Some p ∧ k ∈ trait_impl_candidate_keys p index) ∧
       covers key request ∧ covers k request)).
Proof.
  intros Hr. pose proof (registered_ok index Hr) as Hok. split_and!.
  - intros t k1 k2 request H1 H2 C1 C2. eapply (ix_disjoint _ Hok); [done|done|]. by exists request.
  - intros t p k1 k2 request Hp H1 H2 C1 C2. eapply (ix_peers _ Hok); [done|done|done|]. by exists request.
  - intros key Hk. assert (Hall : ∀ t, Forall key_ok (trait_impl_candidate_keys t index)).
    { intros t. eapply Forall_impl; [apply (ix_keys _ Hok t)|]. by intros k [? _]. }
    destruct (register_spec key index Hk Hall) as (r & Hev & Hv). exists r. split; [done|].
    destruct r as [index'|[e|e]]; simpl in Hv.
    + destruct Hv as (Hnew & Hpeer & _). split; [by intros [? ?]|].
      intros (k & request & [Hin|(p & Hp & Hin)] & C1 & C2); exfalso; [apply (Hnew k Hin)|apply (Hpeer p k Hp Hin)]; by exists request.
    + destruct Hv as [Hin (request & C1 & C2)]. split; [intros _|by eexists]. exists e, request. split; [by left|done].
    + destruct Hv as (p & Hp & Hin & request & C1 & C2). split; [intros _|by eexists]. exists e, request. split; [right; by exists p|done].
Qed.
End Registry.

Definition sample_peers (t : N) : option N := if decide (t = 1)%N then Some 2%N else if decide (t = 2)%N then Some 1%N else None.
Definition sample_key : CanonicalTraitImplPatternKey := mkKey (mkTraitRef 1 [builtin TnInt []]) (mkTy (HNominal 7) [variable 0]).

Lemma trait_coherence_witness :
  let index : ImplIndex := {[1%N := [sample_key]]} in
  registered sample_peers index ∧
  (∀ k1 k2 request, k1 ∈ trait_impl_candidate_keys 1 index → k2 ∈ trait_impl_candidate_keys 1 index →
     covers k1 request → covers k2 request → k1 = k2) ∧
  register_impl 10 sample_key (Some 2%N) index = Some (Err (OverlappingImpls sample_key)).
Proof.
  assert (Hreg : registered sample_peers {[1%N := [sample_key]]}).
  { apply (reg_step sample_peers ∅ sample_key); [apply reg_empty| |].
    - unfold key_ok. simpl. repeat (apply Forall_cons_2; [split; [done|]|]); [| |constructor]; intros v Hv.
      + apply elem_of_ty_vars in Hv as [?|(a & Ha & _)]; [done|by apply elem_of_nil in Ha].
      + apply elem_of_ty_vars in Hv as [?|(a & ->%list_elem_of_singleton & Hv)]; [done|].
        apply elem_of_ty_vars in Hv as [[= <-]|(a & Ha & _)]; [done|by apply elem_of_nil in Ha].
    - apply eventually_always. intros m. reflexivity. }
  split; [exact Hreg|]. split; [|vm_compute; reflexivity].
  intros k1 k2 request. apply (trait_coherence sample_peers).
  - unfold sample_peers. intros a b. repeat case_decide; naive_solver.
  - unfold sample_peers. intros a. repeat case_decide; naive_solver.
  - exact Hreg.
Defined.
