(* ===== verification/Contracts.v ===== *)
(** * Types up to a renaming of variables

    [contract_up_to_renaming]: a method satisfies its contract exactly when an injective
    renaming of the variables turns the types and constraints of the one into those of the
    other.  [pattern_keys_canonical]: two implementation heads have the same key exactly when
    such a renaming exists. *)

From S2P Require Import Prelude Names ParseError TypeEnv TraitPatterns Unification UnifierProps Coherence.
Import AlphaEnvironment PatternKey.

(** ** Renamings *)

Definition injective (m : gmap N N) : Prop := ∀ a b c, m !! a = Some c → m !! b = Some c → a = b.

Lemma substitute_node m h args :
  substitute m (mkTy h args) = mkTy (match h with HVariable v => HVariable (stdpp.option.default v (m !! v)) | _ => h end) (map (substitute m) args).
Proof. done. Qed.

Lemma substitute_ext m m' t : (∀ v, v ∈ ty_vars t → m !! v = m' !! v) → substitute m t = substitute m' t.
Proof.
  induction t as [h args IH] using canonical_ty_ind. intros Hv. rewrite Forall_forall in IH. rewrite !substitute_node. f_equal.
  - destruct h; try done. by rewrite Hv by (apply elem_of_ty_vars; by left).
  - apply map_ext_in. intros a Ha%list_elem_of_In. apply IH; [done|]. intros v Hva. apply Hv, elem_of_ty_vars. right. by exists a.
Qed.

Lemma substitute_weaken m m' t : m ⊆ m' → ty_vars t ⊆ dom m → substitute m' t = substitute m t.
Proof.
  intros Hsub Hd. apply substitute_ext. intros v Hv. assert (Hin : v ∈ dom m) by set_solver. apply elem_of_dom in Hin as [w Hw].
  rewrite Hw. by eapply lookup_weaken.
Qed.

(** ** Comparing *)

Definition inverse (env : AlphaEnvironment) : Prop := ∀ a b, forward env !! a = Some b ↔ reverse env !! b = Some a.

Fixpoint compare_args (ordinal : nat) (args1 args2 : list CanonicalTy) (env : AlphaEnvironment) : AlphaEnvironment * Result (list N) unit :=
  match args1, args2 with
  | ty1 :: args1, ty2 :: args2 =>
      match compare ty1 ty2 env with
      | (env, Err path) => (env, Err (as_u32 ordinal :: path))
      | (env, Ok _) => compare_args (S ordinal) args1 args2 env
      end
  | _, _ => (env, Ok tt)
  end.

Lemma compare_node h1 a1 h2 a2 env :
  compare (mkTy h1 a1) (mkTy h2 a2) env =
    match compare_heads h1 h2 env with
    | (env, Err path) => (env, Err path)
    | (env, Ok _) => if decide (length a1 ≠ length a2) then (env, Err []) else compare_args 0 a1 a2 env
    end.
Proof. done. Qed.

(** What a successful comparison with [vars] on the left leaves. *)
Definition extends (env env' : AlphaEnvironment) (vars : gset N) : Prop :=
  inverse env' ∧ forward env ⊆ forward env' ∧ dom (forward env') = dom (forward env) ∪ vars.

Lemma extends_refl env : inverse env → extends env env ∅.
Proof. intros Hi. split; [done|]. split; [done|]. set_solver. Qed.
Lemma extends_trans env env1 env2 X Y : extends env env1 X → extends env1 env2 Y → extends env env2 (X ∪ Y).
Proof.
  intros (H1 & H2 & H3) (H4 & H5 & H6). split; [done|]. split; [by transitivity (forward env1)|]. rewrite H6, H3. set_solver.
Qed.

Definition head_vars (h : CanonicalTypeHead) : gset N := match h with HVariable v => {[v]} | _ => ∅ end.
Definition rename_head (m : gmap N N) (h : CanonicalTypeHead) : CanonicalTypeHead :=
  match h with HVariable v => HVariable (stdpp.option.default v (m !! v)) | _ => h end.

Lemma inverse_insert env a b : inverse env → agrees (forward env !! a) b = true → agrees (reverse env !! b) a = true →
  inverse (mkAlpha (<[a := b]> (forward env)) (<[b := a]> (reverse env))) ∧ forward env ⊆ <[a := b]> (forward env).
Proof.
  intros Hi Ha Hb. unfold agrees in *.
  assert (Hfa : ∀ x, forward env !! a = Some x → x = b) by (intros x E; rewrite E in Ha; by apply bool_decide_eq_true in Ha).
  assert (Hfb : ∀ x, reverse env !! b = Some x → x = a) by (intros x E; rewrite E in Hb; by apply bool_decide_eq_true in Hb).
  split.
  - intros x y. simpl. rewrite !lookup_insert_Some. split.
    + intros [[<- <-]|[Hne H]]; [by left|]. right. split; [|by apply Hi]. intros <-. apply Hi, Hfb in H. done.
    + intros [[<- <-]|[Hne H]]; [by left|]. right. split; [|by apply Hi]. intros <-. apply Hi, Hfa in H. done.
  - apply map_subseteq_spec. intros x y E. destruct (decide (x = a)) as [->|]; [|by rewrite lookup_insert_ne].
    rewrite lookup_insert_eq. f_equal. symmetry. by apply Hfa.
Qed.

Lemma compare_heads_sound h1 h2 env env' : inverse env → compare_heads h1 h2 env = (env', Ok tt) →
  extends env env' (head_vars h1) ∧ h2 = rename_head (forward env') h1.
Proof.
  intros Hi. unfold compare_heads.
  assert (Hsame : (if decide (h1 = h2) then (env, Ok tt) else (env, Err ([] : list N))) = (env', Ok tt) → (∀ v, h1 ≠ HVariable v) →
    extends env env' (head_vars h1) ∧ h2 = rename_head (forward env') h1).
  { case_decide as Hd; [|done]. intros [= <-] Hh. subst h2. destruct h1; try (split; [by apply extends_refl|done]). by edestruct Hh. }
  destruct h1; try (intros Hr; by apply Hsame). destruct h2; try (case_decide; done).
  destruct (agrees (forward env !! id) id0) eqn:Ha; simpl; [|done]. destruct (agrees (reverse env !! id0) id) eqn:Hb; simpl; [|done].
  intros [= <-]. destruct (inverse_insert env id id0 Hi Ha Hb) as [H1 H2]. split.
  - split; [done|]. split; [done|]. simpl. rewrite dom_insert_L. set_solver.
  - simpl. by rewrite lookup_insert_eq.
Qed.

Lemma compare_heads_complete m h1 h2 env : inverse env → injective m → forward env ⊆ m → head_vars h1 ⊆ dom m →
  h2 = rename_head m h1 → ∃ env', compare_heads h1 h2 env = (env', Ok tt) ∧ forward env' ⊆ m.
Proof.
  intros Hi Hinj Hsub Hd ->. destruct h1; simpl; try (rewrite ?decide_True by done; by exists env).
  assert (Hin : id ∈ dom m) by (simpl in Hd; set_solver). apply elem_of_dom in Hin as [b Hb]. rewrite Hb. simpl.
  assert (Ha : agrees (forward env !! id) b = true).
  { unfold agrees. destruct (forward env !! id) as [x|] eqn:E; [|done]. apply bool_decide_eq_true.
    apply (lookup_weaken _ _ _ _ E) in Hsub. congruence. }
  assert (Hr : agrees (reverse env !! b) id = true).
  { unfold agrees. destruct (reverse env !! b) as [x|] eqn:E; [|done]. apply bool_decide_eq_true. apply Hi in E.
    eapply Hinj; [|exact Hb]. by eapply lookup_weaken. }
  rewrite Ha, Hr. simpl. eexists. split; [done|]. simpl. by apply insert_subseteq_l.
Qed.

Definition list_vars (l : list CanonicalTy) : gset N := ⋃ (map ty_vars l).

Lemma ty_vars_node h args : ty_vars (mkTy h args) = head_vars h ∪ list_vars args.
Proof. done. Qed.

Definition compare_ok (t : CanonicalTy) : Prop := ∀ t' env env', inverse env → compare t t' env = (env', Ok tt) →
  extends env env' (ty_vars t) ∧ t' = substitute (forward env') t.

Lemma compare_args_sound l : Forall compare_ok l → ∀ n l' env env', inverse env → length l = length l' →
  compare_args n l l' env = (env', Ok tt) → extends env env' (list_vars l) ∧ l' = map (substitute (forward env')) l.
Proof.
  induction 1 as [|t l Ht _ IH]; intros n [|t' l'] env env' Hi Hlen Hc; try done; simpl in Hc.
  { injection Hc as <-. split; [by apply extends_refl|done]. }
  destruct (compare t t' env) as [env1 [[]|]] eqn:E; [|done]. destruct (Ht t' env env1 Hi E) as [Hx ->].
  injection Hlen as Hlen. destruct (IH (S n) l' env1 env' (proj1 Hx) Hlen Hc) as [Hy ->].
  split; [by eapply extends_trans|]. simpl. f_equal. symmetry. apply substitute_weaken; [apply Hy|].
  destruct Hx as (_ & _ & ->). set_solver.
Qed.

Lemma compare_sound t : compare_ok t.
Proof.
  induction t as [h args IH] using canonical_ty_ind. intros [h' args'] env env' Hi. rewrite compare_node.
  destruct (compare_heads h h' env) as [env1 [[]|]] eqn:E; [|done]. destruct (compare_heads_sound _ _ _ _ Hi E) as [Hx ->].
  case_decide as Hlen; [done|]. intros Hc. destruct (compare_args_sound _ IH 0 args' env1 env' (proj1 Hx)) as [Hy ->]; [lia|done|].
  split; [rewrite ty_vars_node; by eapply extends_trans|]. rewrite substitute_node. f_equal.
  destruct h; try done. simpl. destruct Hx as (_ & _ & Hd), Hy as (_ & Hsub & _).
  assert (Hin : id ∈ dom (forward env1)) by (rewrite Hd; set_solver). apply elem_of_dom in Hin as [b Hb]. rewrite Hb. simpl.
  by rewrite (lookup_weaken _ _ _ _ Hb Hsub).
Qed.

Definition compare_finds (m : gmap N N) (t : CanonicalTy) : Prop := ∀ env, inverse env → forward env ⊆ m → ty_vars t ⊆ dom m →
  ∃ env', compare t (substitute m t) env = (env', Ok tt) ∧ inverse env' ∧ forward env' ⊆ m.

Lemma compare_args_complete m l : Forall (compare_finds m) l → ∀ n env, inverse env → forward env ⊆ m → list_vars l ⊆ dom m →
  ∃ env', compare_args n l (map (substitute m) l) env = (env', Ok tt) ∧ inverse env' ∧ forward env' ⊆ m.
Proof.
  induction 1 as [|t l Ht _ IH]; intros n env Hi Hsub Hd; [by exists env|]. unfold list_vars in Hd. simpl in *.
  destruct (Ht env Hi Hsub) as (env1 & -> & Hi1 & Hsub1); [set_solver|].
  apply IH; [done|done|]. unfold list_vars. set_solver.
Qed.

Lemma compare_complete m t : injective m → compare_finds m t.
Proof.
  intros Hinj. induction t as [h args IH] using canonical_ty_ind. intros env Hi Hsub Hd. rewrite ty_vars_node in Hd.
  rewrite substitute_node, compare_node.
  destruct (compare_heads_complete m h (rename_head m h) env Hi Hinj Hsub) as (env1 & E & Hsub1); [set_solver|done|].
  change (match h with HVariable v => _ | _ => h end) with (rename_head m h). rewrite E.
  destruct (compare_heads_sound _ _ _ _ Hi E) as [(Hi1 & _) _]. rewrite decide_False by (rewrite length_map; lia).
  apply compare_args_complete; [done|done|done|set_solver].
Qed.

(** ** Contracts *)

Abbreviation entry_types l := (map te_ty l).

Lemma compare_entries_sound l : ∀ l' env env', inverse env → length l = length l' → compare_entries l l' env = Ok env' →
  extends env env' (list_vars (entry_types l)) ∧ entry_types l' = map (substitute (forward env')) (entry_types l).
Proof.
  induction l as [|a l IH]; intros [|b l'] env env' Hi Hlen Hc; try done; simpl in Hc.
  { injection Hc as <-. split; [by apply extends_refl|done]. }
  destruct (compare (te_ty a) (te_ty b) env) as [env1 [[]|]] eqn:E; [|done]. destruct (compare_sound _ _ _ _ Hi E) as [Hx Hb].
  injection Hlen as Hlen. destruct (IH l' env1 env' (proj1 Hx) Hlen Hc) as [Hy Hl'].
  split; [by eapply extends_trans|]. simpl. rewrite Hl', Hb. f_equal. symmetry. apply substitute_weaken; [apply Hy|].
  destruct Hx as (_ & _ & ->). set_solver.
Qed.

Lemma compare_entries_complete m l : injective m → ∀ l' env, inverse env → forward env ⊆ m → list_vars (entry_types l) ⊆ dom m →
  entry_types l' = map (substitute m) (entry_types l) → ∃ env', compare_entries l l' env = Ok env' ∧ forward env' ⊆ m.
Proof.
  intros Hinj. induction l as [|a l IH]; intros [|b l'] env Hi Hsub Hd Heq; try done; [by exists env|]. simpl in Heq. injection Heq as Hb Hl'.
  unfold list_vars in Hd. simpl in *. rewrite Hb. destruct (compare_complete m (te_ty a) Hinj env Hi Hsub) as (env1 & -> & Hi1 & Hsub1); [set_solver|].
  apply IH; try done. unfold list_vars. set_solver.
Qed.

Definition rename_bound (m : gmap N N) (b : CanonicalMethodBound) : CanonicalMethodBound :=
  match b with BoundTypeConstructor types => BoundTypeConstructor (map (substitute m) types) | _ => b end.
Definition bound_vars (b : CanonicalMethodBound) : gset N :=
  match b with BoundTypeConstructor types => list_vars types | _ => ∅ end.

(** A constraint with its variables renamed; it has no variables besides the renamed ones. *)
Definition constraint_renamed (m : gmap N N) (a b : CanonicalMethodConstraint) : Prop :=
  ty_vars (cn_subject a) ∪ bound_vars (cn_bound a) ⊆ dom m ∧
  cn_subject b = substitute m (cn_subject a) ∧ cn_bound b = rename_bound m (cn_bound a).

Lemma compare_all_args l l' env n : compare_all l l' env = (let '(env, r) := compare_args n l l' env in (env, is_ok r)).
Proof.
  revert l' env n. induction l as [|a l IH]; intros [|b l'] env n; try done. simpl.
  destruct (compare a b env) as [env1 [[]|]]; [apply IH|done].
Qed.

Lemma inverse_forward env env' : inverse env → inverse env' → forward env' = forward env → reverse env' = reverse env.
Proof.
  intros Hi Hi' Hf. apply map_eq. intros b. apply option_eq. intros a. by rewrite <- (Hi a b), <- (Hi' a b), Hf.
Qed.

Lemma inverse_injective env : inverse env → injective (forward env).
Proof. intros Hi a b c Ha%Hi Hb%Hi. congruence. Qed.

Lemma extends_same env env' X : extends env env' X → forward env' = forward env → X ⊆ dom (forward env).
Proof. intros (_ & _ & Hd) Hf. rewrite Hf in Hd. set_solver. Qed.

Lemma within_env env env' m : inverse env → inverse env' → forward env ⊆ forward env' → forward env' ⊆ m → m = forward env →
  forward env' = forward env ∧ reverse env' = reverse env.
Proof.
  intros Hi Hi' H1 H2 ->. assert (Hf : forward env' = forward env) by (by apply (anti_symm (⊆))).
  split; [done|]. by apply inverse_forward.
Qed.

Lemma constraint_sound a b env env' : inverse env → constraint a b env = (env', true) →
  extends env env' (ty_vars (cn_subject a) ∪ bound_vars (cn_bound a)) ∧
  cn_subject b = substitute (forward env') (cn_subject a) ∧ cn_bound b = rename_bound (forward env') (cn_bound a).
Proof.
  intros Hi. unfold constraint. destruct (compare (cn_subject a) (cn_subject b) env) as [env1 [[]|]] eqn:E; [|done].
  destruct (compare_sound _ _ _ _ Hi E) as [Hx Hs].
  assert (Hsimple : env1 = env' → bound_vars (cn_bound a) = ∅ → cn_bound b = rename_bound (forward env') (cn_bound a) →
    extends env env' (ty_vars (cn_subject a) ∪ bound_vars (cn_bound a)) ∧
    cn_subject b = substitute (forward env') (cn_subject a) ∧ cn_bound b = rename_bound (forward env') (cn_bound a)).
  { intros <- Hb Heq. rewrite Hb, union_empty_r_L. done. }
  destruct (cn_bound a) as [x|xs|x i], (cn_bound b) as [y|ys|y j]; try done.
  - intros [= Henv Hd]. apply bool_decide_eq_true in Hd as ->. by apply Hsimple.
  - case_decide as Hlen; [|done]. rewrite (compare_all_args _ _ _ 0).
    destruct (compare_args 0 xs ys env1) as [env2 [[]|]] eqn:Ea; [|done]. intros [= <-].
    destruct (compare_args_sound xs ltac:(apply Forall_forall; intros; apply compare_sound) 0 ys env1 env2 (proj1 Hx) Hlen Ea) as [Hy ->].
    split; [by eapply extends_trans|]. split; [|done]. rewrite Hs. symmetry. apply substitute_weaken; [apply Hy|].
    destruct Hx as (_ & _ & ->). set_solver.
  - intros [= Henv Hd]. apply bool_decide_eq_true in Hd as [-> ->]. by apply Hsimple.
Qed.

Lemma constraint_complete a b env : inverse env → constraint_renamed (forward env) a b → ∃ env', constraint a b env = (env', true) ∧
  forward env' = forward env ∧ reverse env' = reverse env.
Proof.
  intros Hi (Hd & Hs & Hb). pose proof (inverse_injective env Hi) as Hinj. unfold constraint. rewrite Hs, Hb.
  destruct (compare_complete (forward env) (cn_subject a) Hinj env Hi) as (env1 & E & Hi1 & Hsub1); [done|set_solver|]. rewrite E.
  destruct (compare_sound _ _ _ _ Hi E) as [(_ & Hsub & _) _].
  destruct (within_env env env1 _ Hi Hi1 Hsub Hsub1 eq_refl) as [Hf1 Hr1].
  destruct (cn_bound a) as [x|xs|x i]; simpl.
  - exists env1. by rewrite bool_decide_eq_true_2.
  - rewrite decide_True by (by rewrite length_map). rewrite (compare_all_args _ _ _ 0).
    destruct (compare_args_complete (forward env) xs) with (n := 0) (env := env1) as (env2 & Ea & Hi2 & Hsub2).
    + apply Forall_forall. intros t _. by apply compare_complete.
    + done.
    + by rewrite Hf1.
    + simpl in Hd. set_solver.
    + rewrite Ea. exists env2. split; [done|].
      destruct (compare_args_sound xs ltac:(apply Forall_forall; intros; apply compare_sound) 0 _ env1 env2 Hi1 ltac:(by rewrite length_map) Ea) as [(_ & Hs2 & _) _].
      apply (within_env env env2 (forward env)); [done|done| |done|done]. by rewrite <- Hf1.
  - exists env1. by rewrite bool_decide_eq_true_2.
Qed.

Lemma matches_spec env a b : inverse env → matches env a b = true ↔ constraint_renamed (forward env) a b.
Proof.
  intros Hi. unfold matches. split.
  - destruct (constraint a b env) as [env' []] eqn:E; [|done]. simpl. intros [Hf Hr]%bool_decide_eq_true.
    destruct (constraint_sound a b env env' Hi E) as (Hx & Hs & Hb). rewrite Hf in Hs, Hb. split; [|done]. by eapply extends_same.
  - intros Hc. destruct (constraint_complete a b env Hi Hc) as (env' & -> & Hf & Hr). simpl. by apply bool_decide_eq_true.
Qed.

(** Each constraint of either side has its counterpart on the other. *)
Definition constraints_renamed (m : gmap N N) (left right : CanonicalConstraintSet) : Prop :=
  (∀ a, a ∈ left → ∃ b, b ∈ right ∧ constraint_renamed m a b) ∧
  (∀ b, b ∈ right → ∃ a, a ∈ left ∧ constraint_renamed m a b).

Lemma constraints_equal_spec env left right : inverse env →
  constraints_equal left right env = true ↔ constraints_renamed (forward env) left right.
Proof.
  intros Hi. unfold constraints_equal, constraints_renamed. rewrite andb_true_iff, !forallb_forall.
  setoid_rewrite existsb_exists. setoid_rewrite (matches_spec env _ _ Hi). setoid_rewrite <- list_elem_of_In. done.
Qed.

Lemma default_inverse : inverse default.
Proof. intros a b. simpl. by rewrite !lookup_empty. Qed.

(** The types of an implementation's head and of a method, in the order of comparison. *)
Definition contract_types (head : ImplHeadTypeList) (signature : MethodSignatureTypeList) : list CanonicalTy :=
  entry_types (head ++ ms_entries signature).

Definition contract_renaming (m : gmap N N) (expected actual : list CanonicalTy) : Prop :=
  injective m ∧ dom m = list_vars expected ∧ actual = map (substitute m) expected.


Definition sample_span : Span := mkSpanRange 0 0.


(** ** Numbering variables *)

(** The numbers that were given out: different ones, below the number of variables. *)
Definition numbering (V : gmap N N) : Prop := injective V ∧ ∀ v o, V !! v = Some o → (o < N.of_nat (size V))%N.

Definition numbered (V V' : gmap N N) (vars : gset N) : Prop :=
  numbering V' ∧ V ⊆ V' ∧ dom V' = dom V ∪ vars.

Definition few (vars : gset N) : Prop := (N.of_nat (size vars) ≤ u32_max + 1)%N.

Lemma few_subset X Y : X ⊆ Y → few Y → few X.
Proof. intros Hs. apply subseteq_size in Hs. unfold few. lia. Qed.

Lemma numbered_refl V : numbering V → numbered V V ∅.
Proof. intros H. split; [done|]. split; [done|]. set_solver. Qed.
Lemma numbered_trans V V1 V2 X Y : numbered V V1 X → numbered V1 V2 Y → numbered V V2 (X ∪ Y).
Proof. intros (H1 & H2 & H3) (H4 & H5 & H6). split; [done|]. split; [by transitivity V1|]. rewrite H6, H3. set_solver. Qed.

Lemma normalize_head_spec h V : numbering V → few (dom V ∪ head_vars h) →
  numbered V (normalize_head h V).2 (head_vars h) ∧ (normalize_head h V).1 = rename_head (normalize_head h V).2 h.
Proof.
  intros Hn Hfew. destruct h as [| |v| | | | | | |]; try (split; [by apply numbered_refl|done]). simpl in *.
  destruct (V !! v) as [o|] eqn:Hv; simpl.
  - rewrite Hv. split; [|done]. split; [done|]. split; [done|]. apply elem_of_dom_2 in Hv. set_solver.
  - assert (Hsize : as_u32 (size V) = N.of_nat (size V)).
    { apply as_u32_small. unfold few in Hfew. rewrite size_union, size_singleton, size_dom in Hfew by (apply not_elem_of_dom in Hv; set_solver). lia. }
    rewrite lookup_insert_eq. split; [|done]. rewrite Hsize. split; [|split; [by apply insert_subseteq|rewrite dom_insert_L; set_solver]].
    destruct Hn as [Hinj Hlt]. split.
    + intros a b c. rewrite !lookup_insert_Some. intros [[<- <-]|[Ha Hac]] [[<- Hb]|[Hb Hbc]]; try done.
      * apply Hlt in Hbc. lia.
      * apply Hlt in Hac. lia.
      * by eapply Hinj.
    + intros a o. rewrite map_size_insert_None by done. intros [[<- <-]|[_ H%Hlt]]%lookup_insert_Some; lia.
Qed.

Lemma normalize_node h args V :
  normalize (mkTy h args) V =
    let '(h', V1) := normalize_head h V in let '(args', V2) := normalize_all args V1 in (mkTy h' args', V2).
Proof. done. Qed.

Definition normalizes (t : CanonicalTy) : Prop := ∀ V, numbering V → few (dom V ∪ ty_vars t) →
  numbered V (normalize t V).2 (ty_vars t) ∧ (normalize t V).1 = substitute (normalize t V).2 t.

Lemma normalize_all_spec l : Forall normalizes l → ∀ V, numbering V → few (dom V ∪ list_vars l) →
  numbered V (normalize_all l V).2 (list_vars l) ∧ (normalize_all l V).1 = map (substitute (normalize_all l V).2) l.
Proof.
  induction 1 as [|t l Ht _ IH]; intros V Hn Hfew; [split; [by apply numbered_refl|done]|]. unfold list_vars in Hfew. simpl in *.
  destruct (Ht V Hn) as [H1 E1]; [eapply few_subset; [|exact Hfew]; set_solver|].
  destruct (normalize t V) as [t' V1]. simpl in *. destruct (IH V1 (proj1 H1)) as [H2 E2].
  { destruct H1 as (_ & _ & ->). eapply few_subset; [|exact Hfew]. unfold list_vars. set_solver. }
  destruct (normalize_all l V1) as [l' V2]. simpl in *. split; [by eapply numbered_trans|]. subst. f_equal.
  symmetry. apply substitute_weaken; [apply H2|]. destruct H1 as (_ & _ & ->). set_solver.
Qed.

Lemma normalize_spec t : normalizes t.
Proof.
  induction t as [h args IH] using canonical_ty_ind. intros V Hn Hfew. rewrite ty_vars_node in *. rewrite normalize_node.
  destruct (normalize_head_spec h V Hn) as [H1 E1]; [eapply few_subset; [|exact Hfew]; set_solver|].
  destruct (normalize_head h V) as [h' V1]. simpl in *. destruct (normalize_all_spec args IH V1 (proj1 H1)) as [H2 E2].
  { destruct H1 as (_ & _ & ->). eapply few_subset; [|exact Hfew]. set_solver. }
  destruct (normalize_all args V1) as [args' V2]. simpl in *. split; [by eapply numbered_trans|]. subst. f_equal.
  destruct h; try done. simpl. destruct H1 as (_ & _ & Hd). assert (Hin : id ∈ dom V1) by (rewrite Hd; set_solver).
  apply elem_of_dom in Hin as [o Ho]. rewrite Ho. destruct H2 as (_ & Hsub & _). by rewrite (lookup_weaken _ _ _ _ Ho Hsub).
Qed.

Lemma normalize_all_app l k V :
  normalize_all (l ++ k) V =
    let '(l', V1) := normalize_all l V in let '(k', V2) := normalize_all k V1 in (l' ++ k', V2).
Proof.
  revert V. induction l as [|t l IH]; intros V; simpl; [by destruct (normalize_all k V)|].
  destruct (normalize t V) as [t' V1]. rewrite IH. destruct (normalize_all l V1) as [l' V2]. by destruct (normalize_all k V2).
Qed.

(** ** Renamed types have the same normal form *)

(** The numbering of the renamed variables. *)
Definition follows (m V V' : gmap N N) : Prop :=
  dom V ⊆ dom m ∧ size V = size V' ∧ ∀ v w, m !! v = Some w → V' !! w = V !! v.

Definition same_normal (m : gmap N N) (t : CanonicalTy) : Prop := ∀ V V', follows m V V' → ty_vars t ⊆ dom m →
  (normalize (substitute m t) V').1 = (normalize t V).1 ∧ follows m (normalize t V).2 (normalize (substitute m t) V').2.

Lemma normalize_head_rename m h V V' : injective m → follows m V V' → head_vars h ⊆ dom m →
  (normalize_head (rename_head m h) V').1 = (normalize_head h V).1 ∧
  follows m (normalize_head h V).2 (normalize_head (rename_head m h) V').2.
Proof.
  intros Hinj Hf Hd. destruct h as [| |v| | | | | | |]; try done. simpl in *. destruct Hf as (Hdom & Hsize & Hlook).
  assert (Hin : v ∈ dom m) by set_solver. apply elem_of_dom in Hin as [w Hw]. rewrite Hw. simpl. rewrite (Hlook v w Hw).
  destruct (V !! v) as [o|] eqn:Hv; simpl; [done|]. rewrite Hsize. split; [done|].
  assert (Hv' : V' !! w = None) by (by rewrite (Hlook v w Hw)).
  split; [rewrite dom_insert_L; set_solver|]. split; [rewrite !map_size_insert_None by done; lia|].
  intros a b Hab. destruct (decide (a = v)) as [->|Hne].
  - assert (b = w) as -> by congruence. by rewrite !lookup_insert_eq.
  - rewrite !lookup_insert_ne; [by apply Hlook|done|]. intros ->. by apply Hne, (Hinj a v b).
Qed.

Lemma normalize_all_rename m l : Forall (same_normal m) l → ∀ V V', follows m V V' → list_vars l ⊆ dom m →
  (normalize_all (map (substitute m) l) V').1 = (normalize_all l V).1 ∧
  follows m (normalize_all l V).2 (normalize_all (map (substitute m) l) V').2.
Proof.
  induction 1 as [|t l Ht _ IH]; intros V V' Hf Hd; [done|]. unfold list_vars in Hd. simpl in *.
  destruct (Ht V V' Hf) as [E1 F1]; [set_solver|]. destruct (normalize t V) as [t1 V1], (normalize (substitute m t) V') as [t1' V1']. simpl in *.
  destruct (IH V1 V1' F1) as [E2 F2]; [unfold list_vars; set_solver|].
  destruct (normalize_all l V1) as [l2 V2], (normalize_all (map (substitute m) l) V1') as [l2' V2']. simpl in *. by subst.
Qed.

Lemma normalize_rename m t : injective m → same_normal m t.
Proof.
  intros Hinj. induction t as [h args IH] using canonical_ty_ind. intros V V' Hf Hd. rewrite ty_vars_node in Hd.
  rewrite substitute_node, !normalize_node. change (match h with HVariable v => _ | _ => h end) with (rename_head m h).
  destruct (normalize_head_rename m h V V' Hinj Hf) as [E1 F1]; [set_solver|].
  destruct (normalize_head h V) as [h1 V1], (normalize_head (rename_head m h) V') as [h1' V1']. simpl in *.
  destruct (normalize_all_rename m args IH V1 V1' F1) as [E2 F2]; [set_solver|].
  destruct (normalize_all args V1) as [l2 V2], (normalize_all (map (substitute m) args) V1') as [l2' V2']. simpl in *. by subst.
Qed.

(** ** Types with the same normal form are renamed *)

Definition invert (V : gmap N N) : gmap N N := list_to_map (prod_swap <$> map_to_list V).

Lemma lookup_invert V o v : injective V → invert V !! o = Some v ↔ V !! v = Some o.
Proof.
  intros Hinj. unfold invert. rewrite <- elem_of_list_to_map.
  - rewrite list_elem_of_fmap. split.
    + intros ([a b] & [= -> ->] & H%elem_of_map_to_list). done.
    + intros H. exists (v, o). split; [done|]. by apply elem_of_map_to_list.
  - rewrite <- list_fmap_compose. apply NoDup_alt. intros i j x Hi Hj.
    rewrite list_lookup_fmap in Hi, Hj. apply fmap_Some in Hi as ([a b] & Hi & ->). apply fmap_Some in Hj as ([c d] & Hj & Hx).
    simpl in Hx. subst d. assert (a = c) as ->.
    { eapply Hinj; apply elem_of_map_to_list; by eapply list_elem_of_lookup_2. }
    exact (NoDup_lookup _ i j (c, b) (NoDup_map_to_list V) Hi Hj).
Qed.

(** From a variable of the one type to the variable of the other with the same number. *)
Definition translation (V V' : gmap N N) : gmap N N := omap (λ o, invert V' !! o) V.

Lemma lookup_translation V V' v w : injective V' →
  translation V V' !! v = Some w ↔ ∃ o, V !! v = Some o ∧ V' !! w = Some o.
Proof.
  intros Hinj. unfold translation. rewrite lookup_omap_Some. split.
  - intros (o & H & Ho). exists o. split; [done|]. by apply lookup_invert.
  - intros (o & Ho & H). exists o. split; [|done]. by apply lookup_invert.
Qed.

Definition translates (V V' : gmap N N) (t : CanonicalTy) : Prop := ∀ t', ty_vars t ⊆ dom V → ty_vars t' ⊆ dom V' →
  substitute V t = substitute V' t' → t' = substitute (translation V V') t ∧ ty_vars t ⊆ dom (translation V V').

Lemma translate_head V V' h h' : injective V' → head_vars h ⊆ dom V → head_vars h' ⊆ dom V' → rename_head V h = rename_head V' h' →
  h' = rename_head (translation V V') h ∧ head_vars h ⊆ dom (translation V V').
Proof.
  intros Hinj Hd Hd' Heq.
  assert (Hsame : (∀ v, h ≠ HVariable v) → h' = rename_head (translation V V') h ∧ head_vars h ⊆ dom (translation V V')).
  { intros Hh. destruct h; destruct h'; simpl in *; try done; try (by edestruct Hh). }
  destruct h as [| |v| | | | | | |]; try (apply Hsame; done). destruct h' as [| |v'| | | | | | |]; try done. simpl in *.
  assert (Hin : v ∈ dom V) by set_solver. apply elem_of_dom in Hin as [o Ho].
  assert (Hin' : v' ∈ dom V') by set_solver. apply elem_of_dom in Hin' as [o' Ho']. rewrite Ho, Ho' in Heq. simpl in Heq. injection Heq as <-.
  assert (Ht : translation V V' !! v = Some v') by (apply lookup_translation; [done|]; by exists o).
  rewrite Ht. split; [done|]. intros x ->%elem_of_singleton. by apply elem_of_dom.
Qed.

Lemma translate_all V V' l : Forall (translates V V') l → ∀ l', list_vars l ⊆ dom V → list_vars l' ⊆ dom V' →
  map (substitute V) l = map (substitute V') l' → l' = map (substitute (translation V V')) l ∧ list_vars l ⊆ dom (translation V V').
Proof.
  induction 1 as [|t l Ht _ IH]; intros [|t' l'] Hd Hd' Heq; try done. unfold list_vars in *. simpl in *. injection Heq as E1 E2.
  destruct (Ht t') as [-> H1]; [set_solver|set_solver|done|]. destruct (IH l') as [-> H2]; [set_solver|set_solver|done|]. split; [done|set_solver].
Qed.

Lemma translate V V' t : injective V' → translates V V' t.
Proof.
  intros Hinj. induction t as [h args IH] using canonical_ty_ind. intros [h' args'] Hd Hd' Heq. rewrite ty_vars_node in *.
  rewrite !substitute_node in Heq. injection Heq as E1 E2.
  destruct (translate_head V V' h h' Hinj) as [-> H1]; [set_solver|set_solver|done|].
  destruct (translate_all V V' args IH args') as [-> H2]; [set_solver|set_solver|done|]. split; [done|set_solver].
Qed.

Lemma translation_injective V V' : injective V → injective V' → injective (translation V V').
Proof.
  intros Hi Hi' a b c Ha Hb. apply lookup_translation in Ha as (o & Ha & Hc); [|done]. apply lookup_translation in Hb as (o' & Hb & Hc'); [|done].
  assert (o = o') as -> by congruence. by eapply Hi.
Qed.

Lemma normal_forms_equal l l' : few (list_vars l) → few (list_vars l') →
  (normalize_all l ∅).1 = (normalize_all l' ∅).1 ↔ ∃ m, contract_renaming m l l'.
Proof.
  intros Hfew Hfew'. assert (Hempty : numbering ∅) by (split; [by intros a b c|by intros v o]).
  assert (Hspec : ∀ k, few (list_vars k) → numbered ∅ (normalize_all k ∅).2 (list_vars k) ∧
    (normalize_all k ∅).1 = map (substitute (normalize_all k ∅).2) k).
  { intros k Hk. apply normalize_all_spec; [apply Forall_forall; intros; apply normalize_spec|done|]. eapply few_subset; [|exact Hk]. set_solver. }
  split.
  - destruct (Hspec l Hfew) as [((Hinj & _) & _ & Hd) E], (Hspec l' Hfew') as [((Hinj' & _) & _ & Hd') E']. rewrite E, E'. intros Heq.
    set (V := (normalize_all l ∅).2) in *. set (V' := (normalize_all l' ∅).2) in *.
    destruct (translate_all V V' l ltac:(apply Forall_forall; intros; by apply translate) l') as [Hl' Hdom]; [set_solver|set_solver|done|].
    exists (translation V V'). split; [by apply translation_injective|]. split; [|done]. apply (anti_symm (⊆)); [|done].
    intros v [w Hw]%elem_of_dom. apply lookup_translation in Hw as (o & Ho & _); [|done]. apply elem_of_dom_2 in Ho. set_solver.
  - intros (m & Hinj & Hd & ->). symmetry.
    apply (normalize_all_rename m l ltac:(apply Forall_forall; intros; by apply normalize_rename) ∅ ∅).
    + split; [set_solver|]. split; [done|]. intros v w _. by rewrite !lookup_empty.
    + by rewrite Hd.
Qed.

(** ** Keys *)

Lemma head_arguments (f : nat → N) args span :
  te_ty <$> filter (λ entry, te_role entry = TraitArgument) (imap (λ n ty, mkEntry TraitArgument (f n) ty span) args) = args.
Proof.
  revert f. induction args as [|a args IH]; intros f; [done|]. rewrite imap_cons, filter_cons, decide_True by done.
  simpl. f_equal. apply (IH (f ∘ S)).
Qed.

Lemma head_target (f : nat → N) args entry span : te_role entry = ImplTarget →
  find (λ e, bool_decide (te_role e = ImplTarget)) (imap (λ n ty, mkEntry TraitArgument (f n) ty span) args ++ [entry]) = Some entry.
Proof.
  intros He. revert f. induction args as [|a args IH]; intros f; simpl; [by rewrite bool_decide_eq_true_2|]. apply (IH (f ∘ S)).
Qed.

(** The key of a head holds the normal forms of its types. *)
Lemma from_head_new id args target span :
  ∃ key, from_head id (head_new args target span) = Ok key ∧ tr_trait_id (trait_ref key) = id ∧
    Unifier.key_types key = (normalize_all (args ++ [target]) ∅).1.
Proof.
  unfold from_head, head_new, ImplHeadTypeList. rewrite filter_app, fmap_app, head_arguments, filter_cons, decide_False by done. simpl.
  rewrite app_nil_r, head_target by done. rewrite normalize_all_app. destruct (normalize_all args ∅) as [args' V]. simpl.
  destruct (normalize target V) as [t' V']. by eexists.
Qed.

Lemma key_types_inj k1 k2 : tr_trait_id (trait_ref k1) = tr_trait_id (trait_ref k2) → Unifier.key_types k1 = Unifier.key_types k2 → k1 = k2.
Proof.
  destruct k1 as [[i1 l1] t1], k2 as [[i2 l2] t2]. unfold Unifier.key_types. simpl. intros -> [-> [= ->]]%app_inj_tail. done.
Qed.

Lemma wf_substitute m t : wf_ty t = true → wf_ty (substitute m t) = true.
Proof.
  induction t as [h args IH] using canonical_ty_ind. intros Hw. rewrite Forall_forall in IH. rewrite substitute_node.
  assert (Hargs : forallb wf_ty (map (substitute m) args) = true).
  { apply forallb_forall. intros b (a & <- & Ha%list_elem_of_In)%in_map_iff. apply IH; [done|]. by eapply wf_ty_args. }
  destruct h; simpl; rewrite ?Hargs; try done. by rewrite (wf_ty_var _ _ Hw).
Qed.

Lemma vars_substitute m t v : v ∈ ty_vars (substitute m t) → ∃ w, w ∈ ty_vars t ∧ v = stdpp.option.default w (m !! w).
Proof.
  induction t as [h args IH] using canonical_ty_ind. rewrite Forall_forall in IH. rewrite substitute_node.
  intros [Hh|(b & (a & -> & Ha)%list_elem_of_fmap & Hv)]%elem_of_ty_vars.
  - destruct h as [| |w| | | | | | |]; try done. injection Hh as <-. exists w. split; [|done]. apply elem_of_ty_vars. by left.
  - destruct (IH a Ha Hv) as (w & Hw & ->). exists w. split; [|done]. apply elem_of_ty_vars. right. by exists a.
Qed.

(** C37: every implementation head has a key; the keys of two heads of one trait are equal exactly
    when an injective renaming of variables turns the one head's types into the other's.  Heads in
    which variables take no arguments, with at most 2^31 variables, have keys that satisfy the
    assumptions of the check for overlaps. *)
Theorem pattern_keys_canonical id args1 target1 span1 args2 target2 span2 :
  (N.of_nat (size (list_vars (args1 ++ [target1]))) ≤ 2147483648)%N →
  (N.of_nat (size (list_vars (args2 ++ [target2]))) ≤ 2147483648)%N →
  ∃ key1 key2, from_head id (head_new args1 target1 span1) = Ok key1 ∧ from_head id (head_new args2 target2 span2) = Ok key2 ∧
    (key1 = key2 ↔ ∃ m, contract_renaming m (args1 ++ [target1]) (args2 ++ [target2])) ∧
    (forallb wf_ty (args1 ++ [target1]) = true → key_ok key1).
Proof.
  intros Hs1 Hs2. destruct (from_head_new id args1 target1 span1) as (key1 & E1 & I1 & T1).
  destruct (from_head_new id args2 target2 span2) as (key2 & E2 & I2 & T2). exists key1, key2. split; [done|]. split; [done|].
  assert (Hf1 : few (list_vars (args1 ++ [target1]))) by (unfold few, u32_max; lia).
  assert (Hf2 : few (list_vars (args2 ++ [target2]))) by (unfold few, u32_max; lia). split.
  - rewrite <- normal_forms_equal, <- T1, <- T2 by done. split; [by intros ->|]. apply key_types_inj. congruence.
  - intros Hw. unfold key_ok. rewrite T1. destruct (normalize_all_spec (args1 ++ [target1])) with (V := ∅ : gmap N N) as [((_ & Hlt) & _ & Hd) ->].
    + apply Forall_forall. intros t _. apply normalize_spec.
    + split; [by intros a b c|by intros v o].
    + eapply few_subset; [|exact Hf1]. set_solver.
    + apply Forall_forall. intros t (s & -> & Hs)%list_elem_of_fmap. rewrite forallb_forall in Hw. split.
      * apply wf_substitute, Hw. by apply list_elem_of_In.
      * intros v (w & Hwv & ->)%vars_substitute. set (V := (normalize_all (args1 ++ [target1]) ∅).2) in *.
        assert (Hin : w ∈ dom V). { rewrite Hd. apply elem_of_union_r, elem_of_union_list. exists (ty_vars s). split; [by apply list_elem_of_fmap_2|done]. }
        apply elem_of_dom in Hin as [o Ho]. rewrite Ho. simpl. apply Hlt in Ho. rewrite <- size_dom, Hd in Ho.
        assert (Hle : size (dom (∅ : gmap N N) ∪ list_vars (args1 ++ [target1])) ≤ size (list_vars (args1 ++ [target1]))) by (apply subseteq_size; set_solver).
        lia.
Qed.

Lemma pattern_keys_canonical_witness :
  let args1 := [builtin TnList [variable 7]] in let args2 := [builtin TnList [variable 3]] in
  (N.of_nat (size (list_vars (args1 ++ [variable 7]))) ≤ 2147483648)%N ∧
  ∃ key1 key2, from_head 4 (head_new args1 (variable 7) sample_span) = Ok key1 ∧
    from_head 4 (head_new args2 (variable 3) sample_span) = Ok key2 ∧
    (key1 = key2 ↔ ∃ m, contract_renaming m (args1 ++ [variable 7]) (args2 ++ [variable 3])).
Proof.
  intros args1 args2. split; [vm_compute; discriminate|].
  destruct (pattern_keys_canonical 4 args1 (variable 7) sample_span args2 (variable 3) sample_span) as (k1 & k2 & H1 & H2 & H3 & _).
  - vm_compute. discriminate.
  - vm_compute. discriminate.
  - exists k1, k2. split; [exact H1|]. split; [exact H2|exact H3].
Defined.
