(* ===== verification/ExprOperators.v ===== *)
(** * Operator expressions ([crates/spire/src/parser/expr.rs], [func_literal.rs], [sindr/src/pattern.rs])

    The tiers of infix operators, from the tightest to the loosest: facet chains, arithmetic and
    quoted calls, the pair constructor, comparisons, [&&] and [||], pipelines, and [`on`].
    All tiers associate to the left except the pair constructor.  The operands (literals, calls,
    blocks and everything else that [parse_postfix] reads) and the patterns of consumer calls
    belong to other parts of the parser; they are the interface [OperandParser].

    [pending_pipe_outer_call] tells the first operand after [|>] that its call receives one more
    argument; [parse_primary] takes it, so that it is true for one operand only.  Here it is the
    argument [pending] of the functions that pass it on.

    The loops of the source share [infix_loop]: a round recognises and consumes an operator of
    the tier, reads the right operand and combines it; it runs with [rounds] as fuel. *)

From S2P Require Import Prelude Names ListHandle Value ParseError StringLiteral Lexer ParserCore.

(** ** Quoted operators *)

Inductive BinOp : Type :=
| Add | Sub | Mul | Div (operator_span : Span) | Mod (operator_span : Span) | FacetChain
| Eq | Neq | Lt | Gt | Lte | Gte | Concat | Choice.

Inductive FuncLiteralOperatorKind : Type := FlBinOp (op : BinOp) | PairConstructor | SafeDivision | SafeModulo.
Inductive FuncLiteralOperatorTier : Type := TierExpr | TierPair | TierLogical.
Record FuncLiteralOperator : Type := mkFlOperator {
  fo_body : str;
  fo_kind : FuncLiteralOperatorKind;
  fo_tier : FuncLiteralOperatorTier;
}.

Record AstPath : Type := mkAstPath { path_span : Span; segments : list str }.
Inductive FuncLiteralBodyKind : Type := FlName (name : str) | FlPath (path : AstPath) | FlOperator (body : str).

Inductive FlowOpKind : Type :=
| FkPipeApply | FkPipeMap | FkPipeApplyContext | FkPipeBind | FkCompose | FkLiftCompose | FkKleisliCompose | FkChoice.

(** ** The parts of the parser that this one uses *)

Class OperandParser : Type := {
  Operand : Type;
  Pattern : Type;
  operand_span : Operand → Span;
  pattern_span : Pattern → Span;
  (** [parse_postfix], with the value of [pending_pipe_outer_call]. *)
  parse_postfix : bool → M Operand;
  parse_quoted_callee_call : Span → str → bool → bool → M Operand;
  parse_consumer_pattern : PatternConsumer → M Pattern;
}.

(** ** Expressions *)

Section Ast.
Context `{OperandParser}.

(** The forms that the operator tiers build; the forms that the operand parser builds are leaves. *)
Inductive Ast : Type :=
| Leaf (operand : Operand)
| Var (span : Span) (name : str)
| Path (span : Span) (path : AstPath)
| NamedInfixRef (span : Span) (path : AstPath)
| BinOpExpr (span : Span) (op : BinOp) (left right : Ast)
| TupleLiteral (span : Span) (items : list Ast)
| App (span : Span) (func : Ast) (args : list RecordLitArg)
| PatternConsumerCall (span : Span) (callee : Ast) (args : list AstPatternArgument)
| Pipe (span : Span) (left right : Ast)
| ContextMap (span : Span) (left right : Ast)
| ContextApply (span : Span) (left right : Ast)
| ContextBind (span : Span) (left right : Ast)
| Compose (span : Span) (left right : Ast)
| LiftedCompose (span : Span) (left right : Ast)
| KleisliCompose (span : Span) (left right : Ast)
with RecordLitArg : Type := Positional (value : Ast)
with AstPatternArgument : Type :=
| ExpressionArgument (span : Span) (expression : Ast)
| PatternArgument (span : Span) (pattern : Pattern).
End Ast.

Module ExprParser.
Import Parser Lexer.

Definition FUNC_LITERAL_OPERATORS : list FuncLiteralOperator :=
  [mkFlOperator (lit "+") (FlBinOp Add) TierExpr;
   mkFlOperator (lit "-") (FlBinOp Sub) TierExpr;
   mkFlOperator (lit "*") (FlBinOp Mul) TierExpr;
   mkFlOperator (lit "/") SafeDivision TierExpr;
   mkFlOperator (lit "%") SafeModulo TierExpr;
   mkFlOperator (lit "++") (FlBinOp Concat) TierExpr;
   mkFlOperator (lit "(,)") PairConstructor TierPair;
   mkFlOperator (lit "==") (FlBinOp Eq) TierLogical;
   mkFlOperator (lit "!=") (FlBinOp Neq) TierLogical;
   mkFlOperator (lit "<") (FlBinOp Lt) TierLogical;
   mkFlOperator (lit ">") (FlBinOp Gt) TierLogical;
   mkFlOperator (lit "<=") (FlBinOp Lte) TierLogical;
   mkFlOperator (lit ">=") (FlBinOp Gte) TierLogical].

Definition func_literal_operator (body : str) : option FuncLiteralOperator :=
  find (λ operator, bool_decide (fo_body operator = body)) FUNC_LITERAL_OPERATORS.

(** ** Pattern consumers ([sindr/src/pattern.rs]) *)

Definition consumer_owner (c : PatternConsumer) : str :=
  match c with AssertErrorMatches => lit "Test" | _ => lit "Kernel" end.
Definition consumer_name (c : PatternConsumer) : str :=
  match c with
  | IfLet => lit "if_let"
  | IfLetThen => lit "if_let_then"
  | IsMatch => lit "is_match"
  | ApplyPattern => lit "apply_pattern"
  | AssertErrorMatches => lit "assert_error_matches"
  end.
Definition consumer_arity (c : PatternConsumer) : nat :=
  match c with IfLet => 4 | IfLetThen | AssertErrorMatches => 3 | IsMatch | ApplyPattern => 2 end.
Definition from_name (name : str) : option PatternConsumer :=
  find (λ kind, bool_decide (consumer_name kind = name)) [IfLet; IfLetThen; IsMatch; ApplyPattern; AssertErrorMatches].
Definition from_source_path (segments : list str) : option PatternConsumer :=
  match segments with
  | [name] => from_name name
  | [owner; name] => kind ← from_name name; if decide (owner = consumer_owner kind) then Some kind else None
  | _ => None
  end.

(** [iter().find_map(f)]. *)
Fixpoint find_map {A B} (f : A → option B) (l : list A) : option B :=
  match l with
  | [] => None
  | x :: l => match f x with Some y => Some y | None => find_map f l end
  end.

Definition expr_error {A} (message : str) (span : Span) : M A := throw (ParseError.syntax ExpressionSyntax message span).

#[local] Instance consumer_eq_dec : EqDecision PatternConsumer.
Proof. solve_decision. Defined.

Definition validate_pattern_consumer_path (segments : list str) (span : Span) : Result ParseError unit :=
  match find_map from_name segments with
  | Some kind =>
      if decide (from_source_path segments ≠ Some kind)
      then Err (ParseError.syntax ExpressionSyntax
             (lit "Pattern consumer name `" ++ consumer_name kind ++ lit "` is reserved for the canonical "
                ++ consumer_owner kind ++ lit " consumer") span)
      else Ok tt
  | None => Ok tt
  end.

Definition parse_func_literal_body (body : str) (span : Span) : Result ParseError FuncLiteralBodyKind :=
  match func_literal_operator body with
  | Some _ => Ok (FlOperator body)
  | None =>
      match parse_func_literal_path body with
      | Some segments =>
          let? _ := validate_pattern_consumer_path segments span in
          Ok (FlPath (mkAstPath span segments))
      | None =>
          if is_func_literal_ident body then Ok (FlName body)
          else Err (ParseError.syntax ExpressionSyntax (lit "Unsupported FuncLiteral body: `" ++ body ++ lit "`") span)
      end
  end.

(** ** Operators *)

Definition flow_op_kind (t : Token) : option FlowOpKind :=
  match t with
  | TPipeApply => Some FkPipeApply
  | TPipeMap => Some FkPipeMap
  | TPipeApplyContext => Some FkPipeApplyContext
  | TPipeBind => Some FkPipeBind
  | TCompose => Some FkCompose
  | TLiftCompose => Some FkLiftCompose
  | TKleisliCompose => Some FkKleisliCompose
  | TChoice => Some FkChoice
  | _ => None
  end.

Definition flow_op_injects_first_argument (kind : FlowOpKind) : bool :=
  match kind with FkPipeApply | FkPipeMap | FkPipeBind => true | _ => false end.

Definition expr_binop (t : Token) (operator_span : Span) : option BinOp :=
  match t with
  | TPlus => Some Add
  | TMinus => Some Sub
  | TStar => Some Mul
  | TSlash => Some (Div operator_span)
  | TPercent => Some (Mod operator_span)
  | TConcat => Some Concat
  | _ => None
  end.

Definition logical_binop (t : Token) : option BinOp :=
  match t with
  | TEqEq => Some Eq
  | TBangEq => Some Neq
  | TLt => Some Lt
  | TGt => Some Gt
  | TLtEq => Some Lte
  | TGtEq => Some Gte
  | _ => None
  end.

Definition and_or_name (t : Token) : option str :=
  match t with TAndAnd => Some (lit "&&") | TOrOr => Some (lit "||") | _ => None end.

Definition expr_binop_from_func_literal (body : str) (operator_span : Span) : option BinOp :=
  operator ← func_literal_operator body;
  match fo_tier operator, fo_kind operator with
  | TierExpr, FlBinOp op => Some op
  | TierExpr, SafeDivision => Some (Div operator_span)
  | TierExpr, SafeModulo => Some (Mod operator_span)
  | _, _ => None
  end.

Definition logical_binop_from_func_literal (body : str) : option BinOp :=
  operator ← func_literal_operator body;
  match fo_tier operator, fo_kind operator with
  | TierLogical, FlBinOp op => Some op
  | _, _ => None
  end.

Definition is_pair_constructor_func_literal (body : str) : bool :=
  match func_literal_operator body with
  | Some operator => match fo_kind operator with PairConstructor => true | _ => false end
  | None => false
  end.

Definition one_of (names : list string) (body : str) : bool := bool_decide (body ∈ lit <$> names).
Definition and_or_func_literal_name (body : str) : bool := one_of ["and"; "or"]%string body.
Definition comparison_func_literal_name (body : str) : bool := one_of ["eq"; "neq"; "lt"; "lte"; "gt"; "gte"]%string body.
Definition logical_func_literal_name (body : str) : bool := and_or_func_literal_name body || comparison_func_literal_name body.

Definition is_function_on_path (path : AstPath) : bool := bool_decide (segments path = [lit "Function"; lit "on"]).

Section Expr.
Context `{OperandParser}.

Definition ast_span (a : Ast) : Span :=
  match a with
  | Leaf o => operand_span o
  | Var s _ | Path s _ | NamedInfixRef s _ | BinOpExpr s _ _ _ | TupleLiteral s _ | App s _ _ | PatternConsumerCall s _ _
  | Pipe s _ _ | ContextMap s _ _ | ContextApply s _ _ | ContextBind s _ _ | Compose s _ _ | LiftedCompose s _ _
  | KleisliCompose s _ _ => s
  end.

Definition between (left right : Ast) : Span := mkSpanRange (span_start (ast_span left)) (span_end (ast_span right)).

Definition function_on_path (span : Span) : Ast := Path span (mkAstPath span [lit "Function"; lit "on"]).

Definition low_precedence_on_target_callee (kind : FuncLiteralBodyKind) (span : Span) : option Ast :=
  match kind with
  | FlName name => if decide (name = lit "on") then Some (function_on_path span) else None
  | FlPath path => if is_function_on_path path then Some (Path (path_span path) path) else None
  | FlOperator _ => None
  end.

Definition lower_binop (left : Ast) (op : BinOp) (right : Ast) : Ast := BinOpExpr (between left right) op left right.
Definition lower_pair_constructor (left right : Ast) : Ast := TupleLiteral (between left right) [left; right].
Definition lower_func_literal_call (left func right : Ast) : Ast :=
  let func := match func with
    | Var span name => if decide (name ≠ lit "&&" ∧ name ≠ lit "||") then NamedInfixRef span (mkAstPath span [name]) else func
    | Path span path => NamedInfixRef span path
    | other => other
    end in
  App (between left right) func [Positional left; Positional right].

Definition source_pattern_consumer (callee : Ast) : option PatternConsumer :=
  match callee with
  | Var _ name => from_name name
  | Path _ path => from_source_path (segments path)
  | _ => None
  end.

(** ** Loops over operators *)

Definition of_parse {A} (r : Result ParseError A) : M A := match r with Ok a => mret a | Err e => throw e end.

Fixpoint infix_loop {Op R : Type} (next : M (option Op)) (rhs : Op → M R) (combine : Ast → Op → R → Result ParseError Ast)
    (fuel : nat) (left : Ast) : M Ast :=
  match fuel with
  | 0 => crash PFuel
  | S fuel' =>
      op ← next;
      match op with
      | None => mret left
      | Some op =>
          right ← rhs op;
          left ← of_parse (combine left op right);
          infix_loop next rhs combine fuel' left
      end
  end.
Definition infix {Op R : Type} (next : M (option Op)) (rhs : Op → M R) (combine : Ast → Op → R → Result ParseError Ast)
    (first : M Ast) : M Ast :=
  left ← first;
  n ← gets rounds;
  infix_loop next rhs combine n left.

Definition operand (pending : bool) : M Ast := o ← parse_postfix pending; mret (Leaf o).

(** ** Facet chains *)

Definition facet_next : M (option unit) :=
  t ← peek;
  match t with TArrow => advance;; mret (Some tt) | _ => mret None end.
Definition parse_facet_chain (pending : bool) : M Ast :=
  infix facet_next (λ _, operand false) (λ left _ right, Ok (lower_binop left FacetChain right)) (operand pending).

(** ** Arithmetic and quoted calls *)

Inductive expr_op : Type :=
| ExprBinOp (op : BinOp)
| ExprQuoted (kind : FuncLiteralBodyKind) (span : Span)
| ExprConsumer (callee : Ast) (kind : PatternConsumer).

Definition looser_than_expr (kind : FuncLiteralBodyKind) (span : Span) : bool :=
  match kind with
  | FlOperator body => (match logical_binop_from_func_literal body with Some _ => true | None => false end)
      || is_pair_constructor_func_literal body
  | FlName name => logical_func_literal_name name
  | FlPath _ => false
  end || match low_precedence_on_target_callee kind span with Some _ => true | None => false end.

Definition callee_of (kind : FuncLiteralBodyKind) (span : Span) : option Ast :=
  match kind with
  | FlName name => Some (Var span name)
  | FlPath path => Some (Path (path_span path) path)
  | FlOperator _ => None
  end.

Definition expr_next : M (option expr_op) :=
  t ← peek;
  span ← peek_span;
  match expr_binop t span with
  | Some op => advance;; mret (Some (ExprBinOp op))
  | None =>
      match t with
      | TFuncLiteral body =>
          kind ← of_parse (parse_func_literal_body body span);
          if looser_than_expr kind span then mret None
          else
            advance;;
            match callee_of kind span with
            | Some callee =>
                match source_pattern_consumer callee with
                | Some consumer =>
                    if decide (consumer_arity consumer ≠ 2)
                    then expr_error (consumer_name consumer ++ lit " requires a complete prefix call with "
                           ++ lit (pretty.pretty (consumer_arity consumer)) ++ lit " arguments") span
                    else mret (Some (ExprConsumer callee consumer))
                | None => mret (Some (ExprQuoted kind span))
                end
            | None => mret (Some (ExprQuoted kind span))
            end
      | _ => mret None
      end
  end.

Definition expr_rhs (op : expr_op) : M (Ast + Pattern) :=
  match op with
  | ExprConsumer _ kind => pattern ← parse_consumer_pattern kind; mret (inr pattern)
  | _ => right ← parse_facet_chain false; mret (inl right)
  end.

Definition expr_combine (left : Ast) (op : expr_op) (right : Ast + Pattern) : Result ParseError Ast :=
  match op, right with
  | ExprBinOp op, inl r => Ok (lower_binop left op r)
  | ExprQuoted kind span, inl r =>
      match kind with
      | FlOperator body =>
          match expr_binop_from_func_literal body span with
          | Some op => Ok (lower_binop left op r)
          | None => Err (ParseError.syntax ExpressionSyntax (lit "Unsupported FuncLiteral body: `" ++ body ++ lit "`") span)
          end
      | FlName name => Ok (lower_func_literal_call left (Var span name) r)
      | FlPath path => Ok (lower_func_literal_call left (Path (path_span path) path) r)
      end
  | ExprConsumer callee _, inr pattern =>
      Ok (PatternConsumerCall (mkSpanRange (span_start (ast_span left)) (span_end (pattern_span pattern))) callee
            [ExpressionArgument (ast_span left) left; PatternArgument (pattern_span pattern) pattern])
  | _, _ => Ok left
  end.

Definition parse_expr_class_expr (pending : bool) : M Ast :=
  infix expr_next expr_rhs expr_combine (parse_facet_chain pending).

(** ** Pairs *)

Definition pair_constructor_at : M bool :=
  t ← peek;
  second ← gets (peek_n 1);
  third ← gets (peek_n 2);
  mret (match t, second, third with TLParen, Some TComma, Some TRParen => true | _, _, _ => false end).
Definition consume_pair_constructor : M Span :=
  first ← advance;
  advance;;
  last ← advance;
  mret (mkSpanRange (span_start (sp_span first)) (span_end (sp_span last))).

Fixpoint pair_loop (fuel : nat) (pending : bool) : M Ast :=
  match fuel with
  | 0 => crash PFuel
  | S fuel' =>
      left ← parse_expr_class_expr pending;
      at_pair ← pair_constructor_at;
      t ← peek;
      let quoted := match t with TFuncLiteral body => is_pair_constructor_func_literal body | _ => false end in
      if negb (at_pair || quoted) then mret left
      else
        (if (at_pair : bool) then consume_pair_constructor;; mret tt else advance;; mret tt);;
        right ← pair_loop fuel' false;
        mret (lower_pair_constructor left right)
  end.
Definition parse_pair_expr (pending : bool) : M Ast := n ← gets rounds; pair_loop n pending.

(** ** Comparisons *)

Inductive logical_op : Type := LogicalBinOp (op : BinOp) | LogicalCall (callee : Ast).

Definition logical_next : M (option logical_op) :=
  t ← peek;
  match logical_binop t with
  | Some op => advance;; mret (Some (LogicalBinOp op))
  | None =>
      match t with
      | TFuncLiteral body =>
          span ← peek_span;
          kind ← of_parse (parse_func_literal_body body span);
          match kind with
          | FlOperator op_body =>
              match logical_binop_from_func_literal op_body with
              | Some op => advance;; mret (Some (LogicalBinOp op))
              | None => mret None
              end
          | FlName name =>
              if comparison_func_literal_name name then advance;; mret (Some (LogicalCall (Var span body))) else mret None
          | FlPath _ => mret None
          end
      | _ => mret None
      end
  end.

Definition logical_combine (left : Ast) (op : logical_op) (right : Ast) : Result ParseError Ast :=
  Ok (match op with
      | LogicalBinOp op => lower_binop left op right
      | LogicalCall callee => lower_func_literal_call left callee right
      end).

Definition parse_logical_expr (pending : bool) : M Ast :=
  infix logical_next (λ _, parse_pair_expr false) logical_combine (parse_pair_expr pending).

(** ** [&&] and [||] *)

Definition and_or_next : M (option Ast) :=
  t ← peek;
  match and_or_name t with
  | Some name => span ← peek_span; advance;; mret (Some (Var span name))
  | None =>
      match t with
      | TFuncLiteral body =>
          span ← peek_span;
          kind ← of_parse (parse_func_literal_body body span);
          match kind with
          | FlName name => if and_or_func_literal_name name then advance;; mret (Some (Var span name)) else mret None
          | _ => mret None
          end
      | _ => mret None
      end
  end.

Definition parse_and_or_expr (pending : bool) : M Ast :=
  infix and_or_next (λ _, parse_logical_expr false) (λ left callee right, Ok (lower_func_literal_call left callee right))
    (parse_logical_expr pending).

(** ** Pipelines *)

Definition at_newline (t : Token) : bool := match t with TNewline => true | _ => false end.
Definition is_choice (kind : FlowOpKind) : bool := match kind with FkChoice => true | _ => false end.
(** [self.pos = save]. *)
Definition rewind (save : nat) : M unit := λ p, (with_cursor p (synthetic_tokens p) save, Ok tt).

Definition skip_newlines_before_flow_op : M unit :=
  t ← peek;
  if negb (at_newline t) then mret tt
  else
    save ← gets pos;
    skip_newlines;;
    t ← peek;
    match flow_op_kind t with None => rewind save | Some _ => mret tt end.

(** Pipelines go on after newlines, except with [<|>]. *)
Definition flow_next : M (option FlowOpKind) :=
  t ← peek;
  stop ← (if negb (at_newline t) then mret false
          else
            save ← gets pos;
            skip_newlines_before_flow_op;;
            t ← peek;
            match t with TChoice => rewind save;; mret true | _ => mret false end);
  if (stop : bool) then mret None
  else
    t ← peek;
    match flow_op_kind t with
    | None => mret None
    | Some kind =>
        advance;;
        t ← peek;
        if is_choice kind && at_newline t
        then span ← peek_span; expr_error (lit "`<|>` must have its right operand on the same line") span
        else (if is_choice kind then mret tt else skip_newlines);; mret (Some kind)
    end.

Definition ends_pipeline_rhs (t : Token) : bool :=
  match t with
  | TNewline | TSemicolon | TComma | TRParen | TRBrack | TRBrace | TEof => true
  | _ => match flow_op_kind t with Some _ => true | None => false end
  end.

Definition flow_rhs (kind : FlowOpKind) : M Ast :=
  t ← peek;
  let direct := match t with
    | TFuncLiteral body => if flow_op_injects_first_argument kind && is_pair_constructor_func_literal body then Some body else None
    | _ => None
    end in
  match direct with
  | Some body =>
      span ← peek_span;
      pair_call ← parse_quoted_callee_call span body true false;
      t ← peek;
      if ends_pipeline_rhs t then mret (Leaf pair_call)
      else expr_error (lit "quoted pair constructor partial call must be the complete pipeline RHS") (operand_span pair_call)
  | None => parse_and_or_expr (flow_op_injects_first_argument kind)
  end.

Definition flow_combine (left : Ast) (kind : FlowOpKind) (right : Ast) : Result ParseError Ast :=
  let span := between left right in
  Ok (match kind with
      | FkPipeApply => Pipe span left right
      | FkPipeMap => ContextMap span left right
      | FkPipeApplyContext => ContextApply span left right
      | FkPipeBind => ContextBind span left right
      | FkCompose => Compose span left right
      | FkLiftCompose => LiftedCompose span left right
      | FkKleisliCompose => KleisliCompose span left right
      | FkChoice => BinOpExpr span Choice left right
      end).

Definition parse_flow_expr : M Ast := infix flow_next flow_rhs flow_combine (parse_and_or_expr false).

(** ** [`on`] *)

Definition on_next : M (option Ast) :=
  t ← peek;
  match t with
  | TFuncLiteral body =>
      span ← peek_span;
      kind ← of_parse (parse_func_literal_body body span);
      match low_precedence_on_target_callee kind span with
      | Some func => advance;; mret (Some func)
      | None => mret None
      end
  | _ => mret None
  end.

Definition parse_on_expr : M Ast :=
  infix on_next (λ _, parse_flow_expr) (λ left func right, Ok (lower_func_literal_call left func right)) parse_flow_expr.
Definition parse_expr : M Ast := parse_on_expr.

(** ** Looking ahead for an assignment *)

(** The depths of the brackets that are open. *)
Fixpoint top_level_token (predicate : Token → bool) (paren bracket brace : nat) (l : list Token) : bool :=
  match l with
  | [] => false
  | t :: l =>
      let outside := bool_decide (paren = 0 ∧ bracket = 0 ∧ brace = 0) in
      match t with
      | TLParen => top_level_token predicate (S paren) bracket brace l
      | TRParen => top_level_token predicate (paren - 1) bracket brace l
      | TLBrack => top_level_token predicate paren (S bracket) brace l
      | TRBrack => top_level_token predicate paren (bracket - 1) brace l
      | TLBrace => top_level_token predicate paren bracket (S brace) l
      | TRBrace => if outside then false else top_level_token predicate paren bracket (brace - 1) l
      | _ =>
          if outside && match t with TNewline | TSemicolon | TEof => true | _ => false end then false
          else if outside && predicate t then true
          else top_level_token predicate paren bracket brace l
      end
  end.
Definition stmt_has_top_level_token_from (p : Parser) (start : nat) (predicate : Token → bool) : bool :=
  top_level_token predicate 0 0 0 (sp_token <$> drop start (tokens p)).
Definition stmt_has_top_level_assignment_from (p : Parser) (start : nat) : bool :=
  stmt_has_top_level_token_from p start (λ t, match t with TBind | TSafeBind => true | _ => false end).
Definition stmt_has_top_level_at_from (p : Parser) (start : nat) : bool :=
  stmt_has_top_level_token_from p start (λ t, match t with TAt => true | _ => false end).

End Expr.
End ExprParser.
