(* ===== verification/ExprGrammar.v ===== *)
(** * The grammar of operator expressions

    The grammar says which tokens denote which expression; each tier is a sequence of expressions
    of the next tighter tier.  The promises of the operand parser are the class [OperandLaws].
    The lemmas on [infix] show once, for every tier, that the loop accepts exactly the
    sequences of the tier; those on [tokenwise] give what a tier with operators of one token
    needs, and each tier's operators are an instance. *)

From S2P Require Import Prelude Names ListHandle Value ParseError StringLiteral Lexer ParserCore ParserLaws ExprOperators.

Module ExprGrammar.
Import Parser ParserLaws ExprParser.

(** ** The strength of the operator at the front *)

Fixpoint skip_front (r : list Spanned) : list Spanned :=
  match r with
  | t :: r' => if at_newline (sp_token t) then skip_front r' else r
  | [] => []
  end.

Definition is_some {A} (o : option A) : bool := match o with Some _ => true | None => false end.

(** [None] stands for a quoted operator that is an error. *)
Definition body_level (body : str) (span : Span) : option nat :=
  match parse_func_literal_body body span with
  | Err _ => None
  | Ok (FlOperator b) =>
      Some (if is_some (logical_binop_from_func_literal b) then 5 else if is_pair_constructor_func_literal b then 6 else 7)
  | Ok (FlName n) =>
      Some (if and_or_func_literal_name n then 4 else if comparison_func_literal_name n then 5
            else if decide (n = lit "on") then 2 else 7)
  | Ok (FlPath p) => Some (if is_function_on_path p then 2 else 7)
  end.

Definition flow_front (r : list Spanned) : bool :=
  match r with t :: _ => is_some (flow_op_kind (sp_token t)) && negb (same_token (sp_token t) TChoice) | [] => false end.

(** The tier of the operator that the tokens start with, zero when they start with none. *)
Definition infix_level (r : list Spanned) : option nat :=
  match r with
  | [] => None
  | t :: r' =>
      match sp_token t with
      | TArrow => Some 8
      | TPlus | TMinus | TStar | TSlash | TPercent | TConcat => Some 7
      | TLParen => Some (match sp_token <$> r' !! 0, sp_token <$> r' !! 1 with Some TComma, Some TRParen => 6 | _, _ => 0 end)
      | TEqEq | TBangEq | TLt | TGt | TLtEq | TGtEq => Some 5
      | TAndAnd | TOrOr => Some 4
      | TPipeApply | TPipeMap | TPipeApplyContext | TPipeBind | TCompose | TLiftCompose | TKleisliCompose | TChoice => Some 3
      | TNewline => match skip_front r' with [] => None | front => Some (if flow_front front then 3 else 0) end
      | TFuncLiteral body => body_level body (sp_span t)
      | _ => Some 0
      end
  end.

Definition ends_expression (r : list Spanned) : bool :=
  match r with
  | t :: _ => match sp_token t with TNewline | TSemicolon | TComma | TRParen | TRBrack | TRBrace | TFatArrow | TEof => true | _ => false end
  | [] => false
  end.

(** What may follow an expression of tier [k]: a looser operator, or the end of the expression. *)
Definition stops (k : nat) (r : list Spanned) : Prop :=
  ∃ j, infix_level r = Some j ∧ j < k ∧ (j = 0 → ends_expression r = true).

Lemma stops_mono k k' r : k ≤ k' → stops k r → stops k' r.
Proof. intros Hk (j & Hj & Hlt & He). exists j. split_and!; [done|lia|done]. Qed.

Lemma stops_level k j r : infix_level r = Some (S j) → S j < k → stops k r.
Proof. intros Hl Hk. by exists (S j). Qed.

Lemma stops_ne k r : stops k r → r ≠ [].
Proof. by intros (j & Hj & _) ->. Qed.

(** An operand starts on its line. *)
Definition starts_operand (r : list Spanned) : Prop := ∃ t r', r = t :: r' ∧ sp_token t ≠ TNewline.

Lemma starts_operand_app ts r : starts_operand ts → starts_operand (ts ++ r).
Proof. intros (t & ts' & -> & Ht). by exists t, (ts' ++ r). Qed.

Lemma starts_operand_newline r : starts_operand r → starts_newline r = false ∧ r ≠ [].
Proof. intros (t & r' & -> & Ht). split; [|done]. simpl. by destruct (sp_token t). Qed.

(** ** The promises of the operand parser *)

(** Between operands no token is split. *)
Definition plain (p : Parser) : Prop := synthetic_tokens p = [].

Definition runs_plain {A} (m : M A) (p : Parser) (a : A) (r : list Spanned) : Prop :=
  ∃ p', m p = (p', Ok a) ∧ remaining p' = r ∧ same p p' ∧ plain p'.

Lemma plain_next p : plain p → plain (next p).
Proof. unfold plain, next. by intros ->. Qed.

Lemma runs_plain_bind {A B} (m : M A) (k : A → M B) p a b r r' :
  runs_plain m p a r → (∀ p', remaining p' = r → same p p' → plain p' → runs_plain (k a) p' b r') → runs_plain (m ≫= k) p b r'.
Proof.
  intros (p' & Hm & Hr & Hs & Hp) Hk. destruct (Hk p' Hr Hs Hp) as (p'' & Hk' & Hr' & Hs' & Hp').
  exists p''. rewrite (bind_run _ _ _ _ _ Hm). split_and!; [done|done|by etrans|done].
Qed.
Lemma runs_plain_ret {A} (a : A) p r : plain p → remaining p = r → runs_plain (mret a) p a r.
Proof. intros Hp Hr. by exists p. Qed.
Lemma runs_plain_gets {A} (f : Parser → A) p : plain p → runs_plain (gets f) p (f p) (remaining p).
Proof. intros Hp. by exists p. Qed.
Lemma runs_plain_peek p t r : plain p → remaining p = t :: r → runs_plain peek p (sp_token t) (t :: r).
Proof. intros Hp Hr. exists p. by rewrite (peek_eq _ _ _ Hr). Qed.
Lemma runs_plain_peek_span p t r : plain p → remaining p = t :: r → runs_plain peek_span p (sp_span t) (t :: r).
Proof. intros Hp Hr. exists p. by rewrite (peek_span_eq _ _ _ Hr). Qed.
Lemma runs_plain_advance p t r : plain p → remaining p = t :: r → runs_plain advance p t r.
Proof.
  intros Hp Hr. exists (next p). rewrite (advance_eq _ _ _ Hr), (remaining_next _ _ _ Hr).
  split_and!; [done|done|apply same_next|by apply plain_next].
Qed.

Definition sound {A} (m : M A) (S : list Spanned → A → Prop) : Prop :=
  ∀ p Q, well_ended p → plain p → (∀ ts a p', keeps p p' → plain p' → S ts a → remaining p = ts ++ remaining p' → Q a p') → wp m p Q.
Definition complete {A} (m : M A) (S : list Spanned → A → Prop) (follow : list Spanned → Prop) : Prop :=
  ∀ p ts a r, plain p → S ts a → remaining p = ts ++ r → follow r → runs_plain m p a r.

Class OperandLaws `{OperandParser} : Type := {
  operand_syntax : bool → list Spanned → Operand → Prop;
  pattern_syntax : PatternConsumer → list Spanned → Pattern → Prop;
  (** A call of the quoted pair constructor, the token first. *)
  pair_call_syntax : list Spanned → Operand → Prop;
  operand_starts b ts o : operand_syntax b ts o → starts_operand ts;
  pattern_starts k ts x : pattern_syntax k ts x → starts_operand ts;
  pair_call_starts ts o : pair_call_syntax ts o →
    ∃ t ts' body, ts = t :: ts' ∧ sp_token t = TFuncLiteral body ∧ is_pair_constructor_func_literal body = true;
  postfix_sound b : sound (parse_postfix b) (operand_syntax b);
  postfix_complete b : complete (parse_postfix b) (operand_syntax b) (stops 9);
  pattern_sound k : sound (parse_consumer_pattern k) (pattern_syntax k);
  pattern_complete k : complete (parse_consumer_pattern k) (pattern_syntax k) (stops 8);
  pair_call_sound p t r body Q : well_ended p → plain p → remaining p = t :: r → sp_token t = TFuncLiteral body →
    is_pair_constructor_func_literal body = true →
    (∀ ts o p', keeps p p' → plain p' → pair_call_syntax ts o → remaining p = ts ++ remaining p' → Q o p') →
    wp (parse_quoted_callee_call (sp_span t) body true false) p Q;
}.

(** ** Sequences *)

Section Infix.
Context `{OperandParser} {Op R : Type}.
Context (ops : list Spanned → Op → Prop) (rs : Op → list Spanned → R → Prop) (fs : list Spanned → Ast → Prop).
Context (combine : Ast → Op → R → Result ParseError Ast).

Inductive infix_tail : Ast → list Spanned → Ast → Prop :=
| tail_end a : infix_tail a [] a
| tail_more a ots op ts x a' rest b :
    ops ots op → rs op ts x → combine a op x = Ok a' → infix_tail a' rest b → infix_tail a (ots ++ ts ++ rest) b.

Definition infix_syntax (ts : list Spanned) (a : Ast) : Prop :=
  ∃ ts1 ts2 a1, ts = ts1 ++ ts2 ∧ fs ts1 a1 ∧ infix_tail a1 ts2 a.

Context (next : M (option Op)) (rhs : Op → M R) (first : M Ast).

Definition next_sound : Prop := ∀ p Q, well_ended p → plain p →
  (∀ ts op p', keeps p p' → plain p' → ops ts op → ts ≠ [] → remaining p = ts ++ remaining p' → Q (Some op) p') →
  (∀ p', keeps p p' → plain p' → remaining p' = remaining p → Q None p') → wp next p Q.

Lemma wp_of_parse {A} (r : Result ParseError A) p Q : well_ended p → (∀ a, r = Ok a → Q a p) → wp (of_parse r) p Q.
Proof. intros Hw HQ. destruct r as [a|e]; [|by apply wp_throw]. apply wp_ret; [done|]. by apply HQ. Qed.

Lemma wp_infix_loop (Hnext : next_sound) (Hrhs : ∀ op, sound (rhs op) (rs op)) fuel : ∀ a p Q,
  well_ended p → plain p → length (remaining p) < fuel →
  (∀ ts b p', keeps p p' → plain p' → infix_tail a ts b → remaining p = ts ++ remaining p' → Q b p') →
  wp (infix_loop next rhs combine fuel a) p Q.
Proof.
  induction fuel as [|fuel IH]; intros a p Q Hw Hp Hf HQ; [lia|]. simpl. apply wp_bind, Hnext; [done|done| |].
  - intros ots op p1 Hk1 Hp1 Hop Hne Hr1. apply wp_bind, Hrhs; [apply Hk1|done|]. intros ts x p2 Hk2 Hp2 Hx Hr2.
    apply wp_bind, wp_of_parse; [apply Hk2|]. intros a' Ha'.
    apply IH; [apply Hk2|done| |].
    { rewrite Hr1, Hr2, !length_app in Hf. destruct ots; [done|]. simpl in Hf. lia. }
    intros rest b p3 Hk3 Hp3 Ht Hr3. apply (HQ (ots ++ ts ++ rest)).
    + eapply keeps_after; [done|]. by eapply keeps_after.
    + done.
    + by econstructor.
    + rewrite Hr1, Hr2, Hr3. by rewrite <- !app_assoc.
  - intros p1 Hk1 Hp1 Hr1. apply wp_ret; [apply Hk1|]. apply (HQ []); [done|done|constructor|done].
Qed.

Lemma infix_sound : next_sound → (∀ op, sound (rhs op) (rs op)) → sound first fs → sound (infix next rhs combine first) infix_syntax.
Proof.
  intros Hnext Hrhs Hfirst p Q Hw Hp HQ. apply wp_bind, Hfirst; [done|done|]. intros ts1 a1 p1 Hk1 Hp1 H1 Hr1.
  apply wp_bind, wp_gets; [apply Hk1|]. apply wp_infix_loop; [done|done|apply Hk1|done|unfold rounds; lia|].
  intros ts2 b p2 Hk2 Hp2 H2 Hr2. apply (HQ (ts1 ++ ts2)).
  - by eapply keeps_after.
  - done.
  - by exists ts1, ts2, a1.
  - rewrite Hr1, Hr2. by rewrite app_assoc.
Qed.

(** Completeness: [follow] is what the right operands allow after them. *)
Context (stop follow : list Spanned → Prop).
Context (Hstop : ∀ r, stop r → follow r) (Hfollow : ∀ ots op x, ops ots op → starts_operand x → follow (ots ++ x)).
Context (Hsome : ∀ p ots op x, plain p → ops ots op → remaining p = ots ++ x → starts_operand x → runs_plain next p (Some op) x).
Context (Hnone : ∀ p, plain p → stop (remaining p) → runs_plain next p None (remaining p)).
Context (Hne : ∀ ots op, ops ots op → ots ≠ []).
Context (Hrhs : ∀ op, complete (rhs op) (rs op) follow) (Hstart : ∀ op ts x, rs op ts x → starts_operand ts).

Lemma tail_follow a ts b r : infix_tail a ts b → stop r → follow (ts ++ r).
Proof.
  intros Ht Hr. destruct Ht as [|a ots op ts x a' rest b Hop Hx _ _]; [by apply Hstop|].
  rewrite <- !app_assoc. eapply Hfollow; [done|]. by eapply starts_operand_app, Hstart.
Qed.

Lemma runs_infix_loop a ts b : infix_tail a ts b → ∀ fuel p r, plain p → remaining p = ts ++ r → stop r → length ts < fuel →
  runs_plain (infix_loop next rhs combine fuel a) p b r.
Proof.
  induction 1 as [a|a ots op ts x a' rest b Hop Hx Hc Ht IH]; intros fuel p r Hp Hr Hs Hf; (destruct fuel as [|fuel]; [simpl in *; lia|]); simpl.
  - simpl in Hr. subst r. eapply runs_plain_bind; [by apply Hnone|]. intros p1 Hr1 _ Hp1. by apply runs_plain_ret.
  - rewrite <- !app_assoc in Hr. eapply runs_plain_bind.
    { eapply Hsome; [done|done|exact Hr|]. by eapply starts_operand_app, Hstart. }
    intros p1 Hr1 _ Hp1. eapply runs_plain_bind; [eapply Hrhs; [done|done|exact Hr1|by eapply tail_follow]|].
    intros p2 Hr2 _ Hp2. rewrite Hc. eapply runs_plain_bind; [by apply runs_plain_ret|]. intros p3 Hr3 _ Hp3.
    apply IH; [done|congruence|done|]. rewrite !length_app in Hf. pose proof (Hne _ _ Hop) as Hn. destruct ots; [done|]. simpl in Hf. lia.
Qed.

Lemma infix_complete : complete first fs follow → complete (infix next rhs combine first) infix_syntax stop.
Proof.
  intros Hfirst p ts a r Hp (ts1 & ts2 & a1 & -> & H1 & H2) Hr Hs. rewrite <- app_assoc in Hr.
  eapply runs_plain_bind; [eapply Hfirst; [done|done|exact Hr|by eapply tail_follow]|]. intros p1 Hr1 _ Hp1.
  eapply runs_plain_bind; [by apply runs_plain_gets|]. intros p2 Hr2 _ Hp2.
  eapply runs_infix_loop; [done|done|by rewrite Hr2, Hr1|done|]. unfold rounds. rewrite Hr1, length_app. lia.
Qed.

Lemma infix_starts : (∀ ts a, fs ts a → starts_operand ts) → ∀ ts a, infix_syntax ts a → starts_operand ts.
Proof. intros Hfs ts a (ts1 & ts2 & a1 & -> & H1 & _). by eapply starts_operand_app, Hfs. Qed.
End Infix.

(** An operator that is one token. *)
Definition one_token {Op} (op_of : Spanned → option Op) (ts : list Spanned) (op : Op) : Prop := ∃ t, ts = [t] ∧ op_of t = Some op.

End ExprGrammar.

(** ** The operators of each tier *)

Module ExprTiers.
Import Parser ParserLaws ExprParser ExprGrammar.

(** ** Operators of one token *)

Section OneToken.
Context {Op : Type} (advance_if : M (option Op)) (op_of : Spanned → option Op) (k : nat).

(** The function consumes a token that [op_of] knows, whose tier is [k].  It fails only at a
    quoted operator of this tier, or at one that is wrong in every tier. *)
Definition tokenwise : Prop := ∀ p t r, remaining p = t :: r →
  match op_of t with
  | Some op => advance_if p = (next p, Ok (Some op)) ∧ sp_token t ≠ TEof ∧ ∀ x, infix_level (t :: x) = Some k
  | None => advance_if p = (p, Ok None) ∨
      ∃ p' e, advance_if p = (p', Err (Failed e)) ∧ sp_token t ≠ TEof ∧ (p' = p ∨ p' = next p) ∧
        (infix_level (t :: r) = None ∨ infix_level (t :: r) = Some k)
  end.

Lemma tokenwise_sound : tokenwise → next_sound (one_token op_of) advance_if.
Proof.
  intros Ht p Q Hw Hp Hs Hn. destruct (well_ended_cons _ Hw) as (t & r & Hr). specialize (Ht p t r Hr). unfold wp.
  destruct (op_of t) as [op|] eqn:Hop.
  - destruct Ht as (-> & Hne & _). pose proof (keeps_next _ _ _ Hw Hr Hne) as Hk. split; [done|].
    apply (Hs [t]); [done|by apply plain_next|by exists t|done|]. by rewrite Hr, (remaining_next _ _ _ Hr).
  - destruct Ht as [->|(p' & e & -> & Hne & Hp' & _)]; [split; [by split|by apply Hn]|].
    destruct Hp' as [->| ->]; [by split|by eapply keeps_next].
Qed.

Lemma tokenwise_some : tokenwise → ∀ p ots op x, plain p → one_token op_of ots op → remaining p = ots ++ x → starts_operand x →
  runs_plain advance_if p (Some op) x.
Proof.
  intros Ht p ots op x Hp (t & -> & Hop) Hr _. simpl in Hr. specialize (Ht p t x Hr). rewrite Hop in Ht. destruct Ht as (E & _ & _).
  exists (next p). split_and!; [done|by eapply remaining_next|apply same_next|by apply plain_next].
Qed.

Lemma tokenwise_none : tokenwise → ∀ p, plain p → stops k (remaining p) → runs_plain advance_if p None (remaining p).
Proof.
  intros Ht p Hp (j & Hj & Hlt & _). destruct (remaining p) as [|t r] eqn:Hr; [done|]. specialize (Ht p t r Hr).
  destruct (op_of t) as [op|].
  - destruct Ht as (_ & _ & Hl). rewrite Hl in Hj. injection Hj as <-. lia.
  - destruct Ht as [E|(p' & e & _ & _ & _ & [Hl|Hl])]; [by exists p|congruence|]. rewrite Hl in Hj. injection Hj as <-. lia.
Qed.

Lemma tokenwise_follow : 0 < k → tokenwise → ∀ ots op x, one_token op_of ots op → starts_operand x → stops (S k) (ots ++ x).
Proof.
  intros Hk Ht ots op x (t & -> & Hop) _. simpl.
  specialize (Ht (mkParser (t :: x) [] 0 [] 0) t x eq_refl). rewrite Hop in Ht. destruct Ht as (_ & _ & Hl).
  destruct k as [|k']; [lia|]. eapply stops_level; [apply Hl|lia].
Qed.
End OneToken.

Lemma one_token_ne {Op} (op_of : Spanned → option Op) ots op : one_token op_of ots op → ots ≠ [].
Proof. by intros (t & -> & _). Qed.

Section Tiers.
Context `{Hops : OperandParser}.

Ltac read H := rewrite ?(bind_run _ _ _ _ _ (peek_eq _ _ _ H)), ?(bind_run _ _ _ _ _ (peek_span_eq _ _ _ H)).
Ltac consume H := rewrite (bind_run _ _ _ _ _ (advance_eq _ _ _ H)).

Definition facet_of (t : Spanned) : option unit := match sp_token t with TArrow => Some tt | _ => None end.
Lemma facet_tokenwise : tokenwise facet_next facet_of 8.
Proof.
  intros p t r H. unfold facet_of, facet_next. read H. destruct (sp_token t) eqn:Ht; try (by left). consume H.
  split_and!; [done|done|]. intros x. simpl. by rewrite Ht.
Qed.

Definition and_or_of (t : Spanned) : option Ast :=
  match and_or_name (sp_token t), sp_token t with
  | Some name, _ => Some (Var (sp_span t) name)
  | None, TFuncLiteral body =>
      match parse_func_literal_body body (sp_span t) with
      | Ok (FlName name) => if and_or_func_literal_name name then Some (Var (sp_span t) name) else None
      | _ => None
      end
  | None, _ => None
  end.
Lemma and_or_tokenwise : tokenwise and_or_next and_or_of 4.
Proof.
  intros p t r H. unfold and_or_of, and_or_next. read H. destruct (sp_token t) eqn:Ht; simpl; try (by left);
    try (read H; consume H; split_and!; [done|done|]; intros x; simpl; by rewrite Ht).
  read H. destruct (parse_func_literal_body body (sp_span t)) as [kind|e] eqn:Hb; simpl.
  - rewrite (bind_run (mret kind) _ p p kind eq_refl). destruct kind as [name| |]; try (by left).
    destruct (and_or_func_literal_name name) eqn:Hn; [|by left]. consume H. split_and!; [done|done|].
    intros x. simpl. rewrite Ht. unfold body_level. by rewrite Hb, Hn.
  - right. exists p, e. split_and!; [done|done|by left|]. left. simpl. rewrite Ht. unfold body_level. by rewrite Hb.
Qed.

Definition on_of (t : Spanned) : option Ast :=
  match sp_token t with
  | TFuncLiteral body =>
      match parse_func_literal_body body (sp_span t) with
      | Ok kind => low_precedence_on_target_callee kind (sp_span t)
      | Err _ => None
      end
  | _ => None
  end.
Lemma on_tokenwise : tokenwise on_next on_of 2.
Proof.
  intros p t r H. unfold on_of, on_next. read H. destruct (sp_token t) eqn:Ht; simpl; try (by left).
  read H. destruct (parse_func_literal_body body (sp_span t)) as [kind|e] eqn:Hb; simpl.
  - rewrite (bind_run (mret kind) _ p p kind eq_refl).
    destruct (low_precedence_on_target_callee kind (sp_span t)) as [f|] eqn:Hf; [|by left]. consume H. split_and!; [done|done|].
    intros x. simpl. rewrite Ht. unfold body_level. rewrite Hb. destruct kind as [name|path|]; simpl in Hf; [| |done].
    + case_decide; [|done]. subst name. done.
    + by destruct (is_function_on_path path).
  - right. exists p, e. split_and!; [done|done|by left|]. left. simpl. rewrite Ht. unfold body_level. by rewrite Hb.
Qed.

Definition logical_of (t : Spanned) : option logical_op :=
  match logical_binop (sp_token t), sp_token t with
  | Some op, _ => Some (LogicalBinOp op)
  | None, TFuncLiteral body =>
      match parse_func_literal_body body (sp_span t) with
      | Ok (FlOperator b) => LogicalBinOp <$> logical_binop_from_func_literal b
      | Ok (FlName name) => if comparison_func_literal_name name then Some (LogicalCall (Var (sp_span t) body)) else None
      | _ => None
      end
  | None, _ => None
  end.

Lemma and_or_comparison name : comparison_func_literal_name name = true → and_or_func_literal_name name = false.
Proof.
  unfold comparison_func_literal_name, and_or_func_literal_name, one_of. intros H%bool_decide_eq_true.
  apply bool_decide_eq_false. intros H2. revert H H2. simpl. rewrite !elem_of_cons, elem_of_nil.
  intros [->|[->|[->|[->|[->|[->|[]]]]]]] [E|[E|[]]]; discriminate E.
Qed.

Lemma logical_tokenwise : tokenwise logical_next logical_of 5.
Proof.
  intros p t r H. unfold logical_of, logical_next. read H. destruct (sp_token t) eqn:Ht; simpl; try (by left);
    try (consume H; split_and!; [done|done|]; intros x; simpl; by rewrite Ht).
  read H. destruct (parse_func_literal_body body (sp_span t)) as [kind|e] eqn:Hb; simpl.
  - rewrite (bind_run (mret kind) _ p p kind eq_refl). destruct kind as [name|path|b]; [|by left|].
    + destruct (comparison_func_literal_name name) eqn:Hn; [|by left]. consume H. split_and!; [done|done|].
      intros x. simpl. rewrite Ht. unfold body_level. by rewrite Hb, (and_or_comparison _ Hn), Hn.
    + destruct (logical_binop_from_func_literal b) as [op|] eqn:Ho; simpl; [|by left]. consume H. split_and!; [done|done|].
      intros x. simpl. rewrite Ht. unfold body_level. by rewrite Hb, Ho.
  - right. exists p, e. split_and!; [done|done|by left|]. left. simpl. rewrite Ht. unfold body_level. by rewrite Hb.
Qed.

Definition quoted_of (kind : FuncLiteralBodyKind) (span : Span) : option expr_op :=
  match callee_of kind span with
  | Some callee =>
      match source_pattern_consumer callee with
      | Some consumer => if decide (consumer_arity consumer ≠ 2) then None else Some (ExprConsumer callee consumer)
      | None => Some (ExprQuoted kind span)
      end
  | None => Some (ExprQuoted kind span)
  end.
Definition expr_of (t : Spanned) : option expr_op :=
  match expr_binop (sp_token t) (sp_span t), sp_token t with
  | Some op, _ => Some (ExprBinOp op)
  | None, TFuncLiteral body =>
      match parse_func_literal_body body (sp_span t) with
      | Ok kind => if looser_than_expr kind (sp_span t) then None else quoted_of kind (sp_span t)
      | Err _ => None
      end
  | None, _ => None
  end.

Lemma expr_level body span kind :
  parse_func_literal_body body span = Ok kind → looser_than_expr kind span = false → body_level body span = Some 7.
Proof.
  unfold body_level, looser_than_expr. intros ->. destruct kind as [name|path|b]; simpl.
  - unfold logical_func_literal_name. intros [[-> ->]%orb_false_iff Ho]%orb_false_iff. by case_decide.
  - by destruct (is_function_on_path path).
  - rewrite orb_false_r. destruct (logical_binop_from_func_literal b); simpl; [done|]. by intros ->.
Qed.

Lemma expr_tokenwise : tokenwise expr_next expr_of 7.
Proof.
  intros p t r H. unfold expr_of, expr_next. read H. read H. destruct (sp_token t) eqn:Ht; simpl; try (by left);
    try (consume H; split_and!; [done|done|]; intros x; simpl; by rewrite Ht).
  destruct (parse_func_literal_body body (sp_span t)) as [kind|e] eqn:Hb; simpl.
  - rewrite (bind_run (mret kind) _ p p kind eq_refl). destruct (looser_than_expr kind (sp_span t)) eqn:Hl; [by left|].
    assert (Hlevel : ∀ x, infix_level (t :: x) = Some 7) by (intros x; simpl; rewrite Ht; by eapply expr_level).
    consume H. unfold quoted_of. destruct (callee_of kind (sp_span t)) as [callee|]; [|by split_and!].
    destruct (source_pattern_consumer callee) as [consumer|]; [|by split_and!]. case_decide; [|by split_and!].
    right. eexists _, _. split_and!; [done|done|by right|right; apply Hlevel].
  - right. exists p, e. split_and!; [done|done|by left|]. left. simpl. rewrite Ht. unfold body_level. by rewrite Hb.
Qed.
End Tiers.
End ExprTiers.
