(* ===== verification/ExprProps.v ===== *)
(** * The parser of operator expressions accepts its grammar

    [expression_grammar]: what the parser returns is what the grammar derives from the tokens it
    consumed, and it returns everything the grammar derives; so the tiers and their
    associativity are as the grammar says. *)

From S2P Require Import Prelude Names ListHandle Value ParseError StringLiteral Lexer ParserCore ParserLaws ExprOperators ExprGrammar.

Module ExprProps.
Import Parser ParserLaws ExprParser ExprGrammar ExprTiers.

Section Grammar.
Context `{Hlaws : OperandLaws}.

(** ** The grammar *)

Definition operand_ast (b : bool) (ts : list Spanned) (a : Ast) : Prop := ∃ o, operand_syntax b ts o ∧ a = Leaf o.

Definition facet_combine (left : Ast) (_ : unit) (right : Ast) : Result ParseError Ast := Ok (lower_binop left FacetChain right).
Definition facet_syntax (b : bool) : list Spanned → Ast → Prop :=
  infix_syntax (one_token facet_of) (λ _, operand_ast false) (operand_ast b) facet_combine.

Definition expr_rs (op : expr_op) (ts : list Spanned) (x : Ast + Pattern) : Prop :=
  match op with
  | ExprConsumer _ kind => ∃ pt, pattern_syntax kind ts pt ∧ x = inr pt
  | _ => ∃ a, facet_syntax false ts a ∧ x = inl a
  end.
Definition expr_syntax (b : bool) : list Spanned → Ast → Prop := infix_syntax (one_token expr_of) expr_rs (facet_syntax b) expr_combine.

(** The pair constructor, bare or quoted. *)
Definition pair_token (ts : list Spanned) : Prop :=
  (∃ l c r, ts = [l; c; r] ∧ sp_token l = TLParen ∧ sp_token c = TComma ∧ sp_token r = TRParen) ∨
  (∃ t body, ts = [t] ∧ sp_token t = TFuncLiteral body ∧ is_pair_constructor_func_literal body = true).

Inductive pair_syntax : bool → list Spanned → Ast → Prop :=
| Pair_one b ts a : expr_syntax b ts a → pair_syntax b ts a
| Pair_more b ts a pts us c :
    expr_syntax b ts a → pair_token pts → pair_syntax false us c →
    pair_syntax b (ts ++ pts ++ us) (lower_pair_constructor a c).

Definition logical_syntax (b : bool) : list Spanned → Ast → Prop :=
  infix_syntax (one_token logical_of) (λ _, pair_syntax false) (pair_syntax b) logical_combine.

Definition call_combine (left callee right : Ast) : Result ParseError Ast := Ok (lower_func_literal_call left callee right).
Definition and_or_syntax (b : bool) : list Spanned → Ast → Prop :=
  infix_syntax (one_token and_or_of) (λ _, logical_syntax false) (logical_syntax b) call_combine.

(** Newlines may surround the operators of pipelines, but not [<|>]. *)
Definition flow_ops (ts : list Spanned) (kind : FlowOpKind) : Prop :=
  ∃ nl1 t nl2, ts = nl1 ++ t :: nl2 ∧ flow_op_kind (sp_token t) = Some kind ∧ newlines nl1 ∧ newlines nl2 ∧
    (kind = FkChoice → nl1 = [] ∧ nl2 = []).

Definition starts_pair_call (ts : list Spanned) : bool :=
  match ts with t :: _ => match sp_token t with TFuncLiteral body => is_pair_constructor_func_literal body | _ => false end | [] => false end.

(** [calls]: whether a pipeline may go on with a partial call of the pair constructor. *)
Definition flow_rs (calls : bool) (kind : FlowOpKind) (ts : list Spanned) (a : Ast) : Prop :=
  (calls = true ∧ flow_op_injects_first_argument kind = true ∧ ∃ o, pair_call_syntax ts o ∧ a = Leaf o) ∨
  (flow_op_injects_first_argument kind && starts_pair_call ts = false ∧ and_or_syntax (flow_op_injects_first_argument kind) ts a).

Definition flow_syntax (calls : bool) : list Spanned → Ast → Prop :=
  infix_syntax flow_ops (flow_rs calls) (and_or_syntax false) flow_combine.
Definition expression_syntax (calls : bool) : list Spanned → Ast → Prop :=
  infix_syntax (one_token on_of) (λ _, flow_syntax calls) (flow_syntax calls) call_combine.

(** ** Tight tiers *)

Lemma operand_sound b : sound (operand b) (operand_ast b).
Proof.
  intros p Q Hw Hp HQ. apply wp_bind, postfix_sound; [done|done|]. intros ts o p' Hk Hp' Ho Hr. apply wp_ret; [apply Hk|].
  apply (HQ ts); [done|done|by exists o|done].
Qed.
Lemma operand_complete b : complete (operand b) (operand_ast b) (stops 9).
Proof.
  intros p ts a r Hp (o & Ho & ->) Hr Hs. eapply runs_plain_bind; [by eapply postfix_complete|]. intros p' Hr' _ Hp'. by apply runs_plain_ret.
Qed.
Lemma operand_ast_starts b ts a : operand_ast b ts a → starts_operand ts.
Proof. intros (o & Ho & _). by eapply operand_starts. Qed.

(** A tier of one-token operators is complete when its operands are. *)
Lemma tier_complete {Op R} (adv : M (option Op)) op_of k (rs : Op → list Spanned → R → Prop) fs combine rhs first :
  0 < k → tokenwise adv op_of k → (∀ op, complete (rhs op) (rs op) (stops (S k))) → (∀ op ts x, rs op ts x → starts_operand ts) →
  complete first fs (stops (S k)) →
  complete (infix adv rhs combine first) (infix_syntax (one_token op_of) rs fs combine) (stops k).
Proof.
  intros Hk Ht Hrhs Hstart Hfirst. eapply infix_complete; [| | | | |exact Hrhs|exact Hstart|exact Hfirst].
  - intros r. apply stops_mono. lia.
  - by apply (tokenwise_follow adv).
  - by eapply tokenwise_some.
  - by eapply tokenwise_none.
  - apply one_token_ne.
Qed.

Lemma facet_sound b : sound (parse_facet_chain b) (facet_syntax b).
Proof. apply infix_sound; [apply tokenwise_sound with (k := 8), facet_tokenwise|intros _; apply operand_sound|apply operand_sound]. Qed.
Lemma facet_complete b : complete (parse_facet_chain b) (facet_syntax b) (stops 8).
Proof.
  apply (tier_complete _ _ 8); [lia|apply facet_tokenwise|intros _; apply operand_complete|intros _; apply operand_ast_starts|apply operand_complete].
Qed.
Lemma facet_starts b ts a : facet_syntax b ts a → starts_operand ts.
Proof. apply infix_starts, operand_ast_starts. Qed.

Lemma expr_rhs_sound op : sound (expr_rhs op) (expr_rs op).
Proof.
  intros p Q Hw Hp HQ. destruct op as [op|kind span|callee kind]; simpl; apply wp_bind;
    [apply (facet_sound false)|apply (facet_sound false)|apply pattern_sound]; try done;
    intros ts x p' Hk Hp' Hx Hr; (apply wp_ret; [apply Hk|]); (apply (HQ ts); [done|done|by exists x|done]).
Qed.
Lemma expr_rhs_complete op : complete (expr_rhs op) (expr_rs op) (stops 8).
Proof.
  intros p ts x r Hp Hx Hr Hs. destruct op as [op|kind span|callee kind]; simpl in *; destruct Hx as (y & Hy & ->);
    (eapply runs_plain_bind; [by (eapply facet_complete || eapply pattern_complete)|]; intros p' Hr' _ Hp'; by apply runs_plain_ret).
Qed.
Lemma expr_rs_starts op ts x : expr_rs op ts x → starts_operand ts.
Proof. destruct op as [op|kind span|callee kind]; intros (y & Hy & _); [by eapply facet_starts|by eapply facet_starts|by eapply pattern_starts]. Qed.

Lemma expr_sound b : sound (parse_expr_class_expr b) (expr_syntax b).
Proof. apply infix_sound; [apply tokenwise_sound with (k := 7), expr_tokenwise|apply expr_rhs_sound|apply facet_sound]. Qed.
Lemma expr_complete b : complete (parse_expr_class_expr b) (expr_syntax b) (stops 7).
Proof. apply (tier_complete _ _ 7); [lia|apply expr_tokenwise|apply expr_rhs_complete|apply expr_rs_starts|apply facet_complete]. Qed.
Lemma expr_starts b ts a : expr_syntax b ts a → starts_operand ts.
Proof. apply infix_starts, facet_starts. Qed.

(** ** Pairs *)

Definition at_pair (r : list Spanned) : bool :=
  match r with
  | t :: r' => match sp_token t, sp_token <$> r' !! 0, sp_token <$> r' !! 1 with TLParen, Some TComma, Some TRParen => true | _, _, _ => false end
  | [] => false
  end.

Lemma pair_at_eq p t r : remaining p = t :: r → pair_constructor_at p = (p, Ok (at_pair (t :: r))).
Proof.
  intros Hr. unfold pair_constructor_at. rewrite (bind_run _ _ _ _ _ (peek_eq _ _ _ Hr)).
  rewrite (bind_run (gets _) _ p p _ eq_refl), (bind_run (gets _) _ p p _ eq_refl), !peek_n_eq, Hr. simpl.
  by destruct (sp_token t).
Qed.

Lemma at_pair_true t r : at_pair (t :: r) = true → ∃ c e r', r = c :: e :: r' ∧ sp_token t = TLParen ∧ sp_token c = TComma ∧ sp_token e = TRParen.
Proof.
  simpl. destruct (sp_token t); try done. destruct r as [|c [|e r']]; simpl; try done; [by destruct (sp_token c)|].
  destruct (sp_token c) eqn:Hc; try done. destruct (sp_token e) eqn:He; try done. intros _. by exists c, e, r'.
Qed.

Lemma pair_level_body body span : is_pair_constructor_func_literal body = true → body_level body span = Some 6.
Proof.
  intros Hp. unfold body_level, parse_func_literal_body. unfold is_pair_constructor_func_literal in Hp.
  destruct (func_literal_operator body) as [op|] eqn:Ho; [|done].
  assert (body = lit "(,)") as ->.
  { unfold func_literal_operator in Ho. apply find_Some in Ho as [Hin Hb]. apply bool_decide_eq_true in Hb as <-.
    unfold FUNC_LITERAL_OPERATORS in Hin. rewrite !elem_of_cons, elem_of_nil in Hin.
    repeat (destruct Hin as [->|Hin]; [done|]). done. }
  reflexivity.
Qed.

Lemma pair_token_stops pts x : pair_token pts → stops 7 (pts ++ x).
Proof.
  intros [(l & c & e & -> & Hl & Hc & He)|(t & body & -> & Ht & Hb)]; (eapply (stops_level _ 5); [|lia]); simpl.
  - by rewrite Hl, Hc, He.
  - rewrite Ht. by apply pair_level_body.
Qed.

Lemma not_pair_stops r : stops 6 r → at_pair r = false ∧ starts_pair_call r = false.
Proof.
  intros (j & Hj & Hlt & _). destruct r as [|t r]; [done|]. split.
  - destruct (at_pair (t :: r)) eqn:Ha; [|done]. apply at_pair_true in Ha as (c & e & r' & -> & Ht & Hc & He).
    simpl in Hj. rewrite Ht, Hc, He in Hj. injection Hj as <-. lia.
  - simpl. destruct (sp_token t) eqn:Ht; try done. destruct (is_pair_constructor_func_literal body) eqn:Hb; [|done].
    simpl in Hj. rewrite Ht, (pair_level_body _ _ Hb) in Hj. injection Hj as <-. lia.
Qed.

Lemma consume_pair_eq p l c e r : remaining p = l :: c :: e :: r →
  consume_pair_constructor p = (next (next (next p)), Ok (mkSpanRange (span_start (sp_span l)) (span_end (sp_span e)))).
Proof.
  intros Hr. unfold consume_pair_constructor. rewrite (bind_run _ _ _ _ _ (advance_eq _ _ _ Hr)).
  apply remaining_next in Hr. rewrite (bind_run _ _ _ _ _ (advance_eq _ _ _ Hr)). apply remaining_next in Hr.
  by rewrite (bind_run _ _ _ _ _ (advance_eq _ _ _ Hr)).
Qed.

Lemma keeps_next3 p l c e r : well_ended p → remaining p = l :: c :: e :: r →
  sp_token l ≠ TEof → sp_token c ≠ TEof → sp_token e ≠ TEof → keeps p (next (next (next p))) ∧ remaining (next (next (next p))) = r.
Proof.
  intros Hw Hr Hl Hc He. pose proof (keeps_next _ _ _ Hw Hr Hl) as H1. apply remaining_next in Hr.
  pose proof (keeps_next _ _ _ (proj2 H1) Hr Hc) as H2. apply remaining_next in Hr.
  pose proof (keeps_next _ _ _ (proj2 H2) Hr He) as H3. apply remaining_next in Hr.
  split; [|done]. eapply keeps_after; [done|]. by eapply keeps_after.
Qed.

Lemma pair_loop_sound fuel : ∀ b p Q, well_ended p → plain p → length (remaining p) < fuel →
  (∀ ts a p', keeps p p' → plain p' → pair_syntax b ts a → remaining p = ts ++ remaining p' → Q a p') → wp (pair_loop fuel b) p Q.
Proof.
  induction fuel as [|fuel IH]; intros b p Q Hw Hp Hf HQ; [lia|]. simpl. apply wp_bind, expr_sound; [done|done|].
  intros ts a p1 Hk1 Hp1 Ha Hr1. destruct (well_ended_cons _ (proj2 Hk1)) as (t & r & Hr).
  assert (Hlen : length (remaining p1) < S fuel) by (rewrite Hr1, length_app in Hf; lia).
  assert (Hstart : 0 < length ts) by (destruct (expr_starts _ _ _ Ha) as (? & ? & -> & _); simpl; lia).
  assert (Hrest : ∀ pts p2, keeps p1 p2 → plain p2 → pair_token pts → remaining p1 = pts ++ remaining p2 →
    wp (right ← pair_loop fuel false; mret (lower_pair_constructor a right)) p2 Q).
  { intros pts p2 Hk2 Hp2 Hpt Hr2. apply wp_bind, IH; [apply Hk2|done| |].
    - rewrite Hr1, Hr2, !length_app in Hf. lia.
    - intros us c p3 Hk3 Hp3 Hc Hr3. apply wp_ret; [apply Hk3|]. apply (HQ (ts ++ pts ++ us)).
      + eapply keeps_after; [done|]. by eapply keeps_after.
      + done.
      + by apply Pair_more.
      + rewrite Hr1, Hr2, Hr3. by rewrite <- !app_assoc. }
  eapply wp_continue; [rewrite (bind_run _ _ _ _ _ (pair_at_eq _ _ _ Hr)), (bind_run _ _ _ _ _ (peek_eq _ _ _ Hr)); reflexivity|by split; [|apply Hk1]|].
  destruct (at_pair (t :: r)) eqn:Hat; simpl.
  - apply at_pair_true in Hat as (c & e & r' & -> & Ht & Hc & He). eapply wp_continue.
    + rewrite (bind_run (consume_pair_constructor ;; mret tt) _ p1 (next (next (next p1))) tt); [reflexivity|].
      by rewrite (bind_run _ _ _ _ _ (consume_pair_eq _ _ _ _ _ Hr)).
    + by eapply keeps_next3; [apply Hk1|exact Hr|rewrite Ht|rewrite Hc|rewrite He].
    + destruct (keeps_next3 p1 t c e r' (proj2 Hk1) Hr) as [Hk3 Hr3]; [by rewrite Ht|by rewrite Hc|by rewrite He|].
      apply (Hrest [t; c; e]); [done|by repeat apply plain_next| |by rewrite Hr, Hr3].
      left. by exists t, c, e.
  - destruct (sp_token t) eqn:Ht; try (apply wp_ret; [apply Hk1|]; apply (HQ ts); [done|done|by constructor|done]).
    destruct (is_pair_constructor_func_literal body) eqn:Hb; simpl.
    + assert (Hk2 : keeps p1 (next p1)) by (eapply keeps_next; [apply Hk1|exact Hr|congruence]). eapply wp_continue; [|exact Hk2|].
      * rewrite (bind_run (advance ;; mret tt) _ p1 (next p1) tt); [reflexivity|]. by rewrite (bind_run _ _ _ _ _ (advance_eq _ _ _ Hr)).
      * apply (Hrest [t]); [done|by apply plain_next| |by rewrite Hr, (remaining_next _ _ _ Hr)]. right. by exists t, body.
    + apply wp_ret; [apply Hk1|]. apply (HQ ts); [done|done|by constructor|done].
Qed.

Lemma pair_sound b : sound (parse_pair_expr b) (pair_syntax b).
Proof. intros p Q Hw Hp HQ. apply wp_bind, wp_gets; [done|]. apply pair_loop_sound; [done|done|unfold rounds; lia|done]. Qed.

Lemma pair_starts b ts a : pair_syntax b ts a → starts_operand ts.
Proof. destruct 1; [by eapply expr_starts|]. by eapply starts_operand_app, expr_starts. Qed.

Lemma runs_pair_loop b ts a : pair_syntax b ts a → ∀ fuel p r, plain p → remaining p = ts ++ r → stops 6 r → length ts < fuel →
  runs_plain (pair_loop fuel b) p a r.
Proof.
  induction 1 as [b ts a Ha|b ts a pts us c Ha Hpt Hc IH]; intros fuel p r Hp Hr Hs Hf; (destruct fuel as [|fuel]; [simpl in *; lia|]); simpl.
  - eapply runs_plain_bind; [eapply expr_complete; [done|done|exact Hr|by eapply stops_mono; [|exact Hs]; lia]|]. intros p1 Hr1 _ Hp1.
    destruct (not_pair_stops _ Hs) as [Hat Hq]. pose proof (stops_ne _ _ Hs) as Hne. destruct r as [|t r]; [done|].
    unfold runs_plain. rewrite (bind_run _ _ _ _ _ (pair_at_eq _ _ _ Hr1)), Hat, (bind_run _ _ _ _ _ (peek_eq _ _ _ Hr1)).
    simpl in Hq. rewrite Hq. by exists p1.
  - rewrite <- !app_assoc in Hr.
    eapply runs_plain_bind; [eapply expr_complete; [done|done|exact Hr|by apply pair_token_stops]|]. intros p1 Hr1 _ Hp1.
    assert (Hn : 0 < length pts) by (destruct Hpt as [(? & ? & ? & -> & _)|(? & ? & -> & _)]; simpl; lia).
    assert (Hgo : ∀ p2, same p1 p2 → plain p2 → remaining p2 = us ++ r →
      ∃ p', (right ← pair_loop fuel false; mret (lower_pair_constructor a right)) p2 = (p', Ok (lower_pair_constructor a c)) ∧
        remaining p' = r ∧ same p1 p' ∧ plain p').
    { intros p2 Hs2 Hp2 Hr2. destruct (IH fuel p2 r Hp2 Hr2 Hs) as (p3 & E & H1 & H2 & H3); [rewrite !length_app in Hf; lia|].
      exists p3. rewrite (bind_run _ _ _ _ _ E). split_and!; [done|done|by etrans|done]. }
    destruct Hpt as [(l & x & e & -> & Hl & Hx & He)|(t & body & -> & Ht & Hb)]; simpl in Hr1.
    + unfold runs_plain. rewrite (bind_run _ _ _ _ _ (pair_at_eq _ _ _ Hr1)), (bind_run _ _ _ _ _ (peek_eq _ _ _ Hr1)). simpl.
      rewrite Hl, Hx, He. simpl. rewrite (bind_run (consume_pair_constructor ;; mret tt) _ p1 (next (next (next p1))) tt).
      * apply Hgo; [by repeat (etrans; [|apply same_next])|by repeat apply plain_next|]. by repeat eapply remaining_next.
      * by rewrite (bind_run _ _ _ _ _ (consume_pair_eq _ _ _ _ _ Hr1)).
    + unfold runs_plain. rewrite (bind_run _ _ _ _ _ (pair_at_eq _ _ _ Hr1)), (bind_run _ _ _ _ _ (peek_eq _ _ _ Hr1)). simpl.
      rewrite Ht, Hb. simpl. rewrite (bind_run (advance ;; mret tt) _ p1 (next p1) tt).
      * apply Hgo; [apply same_next|by apply plain_next|]. by eapply remaining_next.
      * by rewrite (bind_run _ _ _ _ _ (advance_eq _ _ _ Hr1)).
Qed.

Lemma pair_complete b : complete (parse_pair_expr b) (pair_syntax b) (stops 6).
Proof.
  intros p ts a r Hp Ha Hr Hs. eapply runs_plain_bind; [by apply runs_plain_gets|]. intros p1 Hr1 _ Hp1.
  eapply runs_pair_loop; [done|done|by rewrite Hr1|done|]. unfold rounds. rewrite Hr, length_app. lia.
Qed.

(** ** Comparisons, [&&] and [||] *)

Lemma logical_sound b : sound (parse_logical_expr b) (logical_syntax b).
Proof. apply infix_sound; [apply tokenwise_sound with (k := 5), logical_tokenwise|intros _; apply pair_sound|apply pair_sound]. Qed.
Lemma logical_complete b : complete (parse_logical_expr b) (logical_syntax b) (stops 5).
Proof. apply (tier_complete _ _ 5); [lia|apply logical_tokenwise|intros _; apply pair_complete|intros _; apply pair_starts|apply pair_complete]. Qed.
Lemma logical_starts b ts a : logical_syntax b ts a → starts_operand ts.
Proof. apply infix_starts, pair_starts. Qed.

Lemma and_or_sound b : sound (parse_and_or_expr b) (and_or_syntax b).
Proof. apply infix_sound; [apply tokenwise_sound with (k := 4), and_or_tokenwise|intros _; apply logical_sound|apply logical_sound]. Qed.
Lemma and_or_complete b : complete (parse_and_or_expr b) (and_or_syntax b) (stops 4).
Proof. apply (tier_complete _ _ 4); [lia|apply and_or_tokenwise|intros _; apply logical_complete|intros _; apply logical_starts|apply logical_complete]. Qed.
Lemma and_or_starts b ts a : and_or_syntax b ts a → starts_operand ts.
Proof. apply infix_starts, logical_starts. Qed.
End Grammar.
End ExprProps.
