(* ===== verification/ExprTheorems.v ===== *)
(** * Pipelines, and the theorem about operator expressions *)

From S2P Require Import Prelude Names ListHandle Value ParseError StringLiteral Lexer ParserCore ParserLaws ExprOperators ExprGrammar.
From S2P Require Import ExprProps.

Module ExprTheorems.
Import Parser ParserLaws ExprParser ExprGrammar ExprTiers ExprProps.

(** ** Newlines around the operators of a pipeline *)

Lemma skip_loop_plain fuel : ∀ p, plain p → plain (skip_newlines_loop fuel p).1.
Proof.
  induction fuel as [|fuel IH]; intros p Hp; [done|]. simpl. unfold mbind, M_bind.
  destruct (peek p) as [p1 [t|e]] eqn:Hpeek; unfold peek in Hpeek; destruct (front p) as [s|]; simplify_eq; simpl; [|done].
  destruct (sp_token s); try done. unfold advance. rewrite Hp. destruct (tokens p1 !! pos p1); [|done]. by apply IH.
Qed.

Lemma skip_plain p nl r : plain p → remaining p = nl ++ r → newlines nl → r ≠ [] → starts_newline r = false →
  runs_plain skip_newlines p tt r.
Proof.
  intros Hp Hr Hnl Hne Hs. destruct (skip_newlines_runs p nl r Hr Hnl Hne Hs) as (p' & E & H1 & H2).
  exists p'. split_and!; [done|done|done|]. unfold skip_newlines in E. rewrite (bind_run (gets _) _ p p _ eq_refl) in E.
  pose proof (skip_loop_plain (rounds p) p Hp) as Hpl. by rewrite E in Hpl.
Qed.

Lemma rewind_eq p p1 : plain p → plain p1 → same p p1 →
  rewind (pos p) p1 = (with_cursor p1 [] (pos p), Ok tt) ∧ remaining (with_cursor p1 [] (pos p)) = remaining p ∧
  same p (with_cursor p1 [] (pos p)) ∧ plain (with_cursor p1 [] (pos p)).
Proof.
  intros Hp Hp1 (Ht & Hi & Hd). unfold rewind. rewrite Hp1. split; [done|]. split; [|done].
  unfold remaining. simpl. rewrite Hp. simpl. by rewrite Ht.
Qed.

(** A front that is not an operator of a pipeline. *)
Lemma flow_none_runs p nl t r : plain p → remaining p = nl ++ t :: r → newlines nl → sp_token t ≠ TNewline →
  flow_op_kind (sp_token t) = None ∨ (nl ≠ [] ∧ sp_token t = TChoice) → runs_plain flow_next p None (remaining p).
Proof.
  intros Hp Hr Hnl Ht Hop. unfold flow_next, runs_plain. destruct nl as [|n nl].
  - simpl in Hr. rewrite (bind_run _ _ _ _ _ (peek_eq _ _ _ Hr)). assert (at_newline (sp_token t) = false) as -> by (by destruct (sp_token t)).
    simpl. rewrite (bind_run (mret false) _ p p false eq_refl), (bind_run _ _ _ _ _ (peek_eq _ _ _ Hr)).
    destruct Hop as [->|[? _]]; [|done]. by exists p.
  - apply Forall_cons in Hnl as [Hn Hnl]. assert (Hnn : sp_token n = TNewline) by done. simpl in Hr.
    assert (Hskip : runs_plain skip_newlines p tt (t :: r)).
    { eapply (skip_plain p (n :: nl)); [done|done|by constructor|done|]. simpl. by destruct (sp_token t). }
    destruct Hskip as (p1 & E1 & Hr1 & Hs1 & Hp1). destruct (rewind_eq p p1 Hp Hp1 Hs1) as (Hw & Hr0 & Hs0 & Hp0).
    set (p0 := with_cursor p1 [] (pos p)) in *.
    assert (Hbefore : skip_newlines_before_flow_op p = (match flow_op_kind (sp_token t) with None => p0 | Some _ => p1 end, Ok tt)).
    { unfold skip_newlines_before_flow_op. rewrite (bind_run _ _ _ _ _ (peek_eq _ _ _ Hr)), Hnn. simpl.
      rewrite (bind_run (gets _) _ p p _ eq_refl), (bind_run _ _ _ _ _ E1), (bind_run _ _ _ _ _ (peek_eq _ _ _ Hr1)).
      destruct (flow_op_kind (sp_token t)); [done|exact Hw]. }
    rewrite (bind_run _ _ _ _ _ (peek_eq _ _ _ Hr)), Hnn. simpl. destruct Hop as [Hop|[_ Hop]].
    + rewrite Hop in Hbefore. assert (Hr0' : remaining p0 = n :: nl ++ t :: r) by congruence.
      rewrite (bind_run _ _ p p0 false).
      * rewrite (bind_run _ _ _ _ _ (peek_eq _ _ _ Hr0')), Hnn. by exists p0.
      * rewrite (bind_run (gets _) _ p p _ eq_refl), (bind_run _ _ _ _ _ Hbefore), (bind_run _ _ _ _ _ (peek_eq _ _ _ Hr0')). by rewrite Hnn.
    + rewrite Hop in Hbefore. rewrite (bind_run _ _ p p0 true); [by exists p0|].
      rewrite (bind_run (gets _) _ p p _ eq_refl), (bind_run _ _ _ _ _ Hbefore), (bind_run _ _ _ _ _ (peek_eq _ _ _ Hr1)). rewrite Hop.
      by rewrite (bind_run _ _ _ _ _ Hw).
Qed.

(** The state from which the operator is read. *)
Lemma flow_at_operator p nl t r kind : plain p → remaining p = nl ++ t :: r → newlines nl → flow_op_kind (sp_token t) = Some kind →
  (kind = FkChoice → nl = []) →
  ∃ p1, remaining p1 = t :: r ∧ same p p1 ∧ plain p1 ∧
    flow_next p = (advance;;
        t ← peek;
        if is_choice kind && at_newline t
        then span ← peek_span; expr_error (lit "`<|>` must have its right operand on the same line") span
        else (if is_choice kind then mret tt else skip_newlines);; mret (Some kind)) p1.
Proof.
  intros Hp Hr Hnl Hop Hc. assert (Ht : at_newline (sp_token t) = false) by (by destruct (sp_token t)).
  unfold flow_next. destruct nl as [|n nl].
  - simpl in Hr. exists p. split_and!; [done|done|done|]. rewrite (bind_run _ _ _ _ _ (peek_eq _ _ _ Hr)), Ht. simpl.
    rewrite (bind_run (mret false) _ p p false eq_refl), (bind_run _ _ _ _ _ (peek_eq _ _ _ Hr)). by rewrite Hop.
  - apply Forall_cons in Hnl as [Hn Hnl]. assert (Hnn : sp_token n = TNewline) by done. simpl in Hr.
    assert (Hskip : runs_plain skip_newlines p tt (t :: r)).
    { eapply (skip_plain p (n :: nl)); [done|done|by constructor|done|]. simpl. by destruct (sp_token t). }
    destruct Hskip as (p1 & E1 & Hr1 & Hs1 & Hp1). exists p1. split_and!; [done|done|done|].
    assert (Hbefore : skip_newlines_before_flow_op p = (p1, Ok tt)).
    { unfold skip_newlines_before_flow_op. rewrite (bind_run _ _ _ _ _ (peek_eq _ _ _ Hr)), Hnn. simpl.
      rewrite (bind_run (gets _) _ p p _ eq_refl), (bind_run _ _ _ _ _ E1), (bind_run _ _ _ _ _ (peek_eq _ _ _ Hr1)). by rewrite Hop. }
    rewrite (bind_run _ _ _ _ _ (peek_eq _ _ _ Hr)), Hnn. simpl. rewrite (bind_run _ _ p p1 false).
    + rewrite (bind_run _ _ _ _ _ (peek_eq _ _ _ Hr1)). by rewrite Hop.
    + rewrite (bind_run (gets _) _ p p _ eq_refl), (bind_run _ _ _ _ _ Hbefore), (bind_run _ _ _ _ _ (peek_eq _ _ _ Hr1)).
      destruct (sp_token t) eqn:E; try done. injection Hop as <-. by specialize (Hc eq_refl).
Qed.

Lemma flow_some p ots kind x : plain p → flow_ops ots kind → remaining p = ots ++ x → starts_operand x →
  runs_plain flow_next p (Some kind) x.
Proof.
  intros Hp (nl1 & t & nl2 & -> & Hop & H1 & H2 & Hc) Hr Hx. rewrite <- app_assoc in Hr. simpl in Hr.
  destruct (flow_at_operator p nl1 t (nl2 ++ x) kind Hp Hr H1 Hop) as (p1 & Hr1 & Hs1 & Hp1 & E); [by intros [-> _]%Hc|].
  destruct (starts_operand_newline x Hx) as [Hxn Hxe].
  assert (Hend : runs_plain (advance;;
        t ← peek;
        if is_choice kind && at_newline t
        then span ← peek_span; expr_error (lit "`<|>` must have its right operand on the same line") span
        else (if is_choice kind then mret tt else skip_newlines);; mret (Some kind)) p1 (Some kind) x).
  { eapply runs_plain_bind; [by apply runs_plain_advance|]. intros p2 Hr2 _ Hp2.
    destruct (nl2 ++ x) as [|t2 r2] eqn:Ex; [by destruct nl2, x|].
    eapply runs_plain_bind; [by apply runs_plain_peek|]. intros p3 Hr3 _ Hp3. destruct (is_choice kind) eqn:Hk; simpl.
    - assert (kind = FkChoice) as -> by (by destruct kind). destruct (Hc eq_refl) as [_ ->]. simpl in Ex. subst x.
      simpl in Hxn. assert (at_newline (sp_token t2) = false) as -> by (by destruct (sp_token t2)).
      eapply runs_plain_bind; [by apply runs_plain_ret|]. intros p4 Hr4 _ Hp4. by apply runs_plain_ret.
    - eapply runs_plain_bind; [eapply (skip_plain _ nl2); [done|by rewrite Hr3|done|done|done]|].
      intros p4 Hr4 _ Hp4. by apply runs_plain_ret. }
  destruct Hend as (p' & E' & Hr' & Hs' & Hp'). exists p'. rewrite E. split_and!; [done|done|by etrans|done].
Qed.

Lemma runs_plain_wp {A} (m : M A) p a body r (Q : A → Parser → Prop) :
  runs_plain m p a r → well_ended p → remaining p = body ++ r → r ≠ [] →
  (∀ p', keeps p p' → plain p' → remaining p' = r → Q a p') → wp m p Q.
Proof.
  intros (p' & Hm & Hr & Hs & Hp) Hw Hb Hne HQ. unfold wp. rewrite Hm.
  assert (keeps p p') by (split; [done|by eapply well_ended_suffix]). split; [done|by apply HQ].
Qed.

Lemma front_split p : well_ended p → ∃ nl t r, remaining p = nl ++ t :: r ∧ newlines nl ∧ sp_token t ≠ TNewline.
Proof.
  intros Hw. destruct (newlines_split p Hw) as (nl & [|t r] & Hr & Hnl & Hne & Hs); [done|]. exists nl, t, r.
  split_and!; [done|done|]. intros Ht. simpl in Hs. by rewrite Ht in Hs.
Qed.

Lemma after_operator_sound p kind (Q : option FlowOpKind → Parser → Prop) : well_ended p → plain p →
  (∀ nl p', keeps p p' → plain p' → newlines nl → (kind = FkChoice → nl = []) → remaining p = nl ++ remaining p' → Q (Some kind) p') →
  wp (t ← peek;
      if is_choice kind && at_newline t
      then span ← peek_span; expr_error (lit "`<|>` must have its right operand on the same line") span
      else (if is_choice kind then mret tt else skip_newlines);; mret (Some kind)) p Q.
Proof.
  intros Hw Hp HQ. destruct (front_split p Hw) as (nl & t & r & Hr & Hnl & Ht). apply wp_bind, wp_peek; [done|].
  intros t' r' Hr'. destruct (is_choice kind) eqn:Hk; simpl.
  - destruct (at_newline (sp_token t')); [apply wp_bind, wp_peek_span; [done|]; intros; by apply wp_throw|].
    apply wp_bind, wp_ret; [done|]. apply wp_ret; [done|]. by apply (HQ []).
  - apply wp_bind. eapply (runs_plain_wp _ _ _ nl); [eapply (skip_plain _ nl); [done|exact Hr|done|done|]|done|exact Hr|done|].
    { simpl. by destruct (sp_token t). }
    intros p' Hk' Hp' Hr2. apply wp_ret; [apply Hk'|]. apply (HQ nl); [done|done|done|by intros ->|by rewrite Hr2].
Qed.

Lemma flow_next_sound : next_sound flow_ops flow_next.
Proof.
  intros p Q Hw Hp Hs Hn. destruct (front_split p Hw) as (nl & t & r & Hr & Hnl & Ht).
  assert (Hend : flow_op_kind (sp_token t) = None ∨ (nl ≠ [] ∧ sp_token t = TChoice) → wp flow_next p Q).
  { intros Hop. eapply (runs_plain_wp _ _ _ []); [by eapply flow_none_runs|done|done|by rewrite Hr; destruct nl|].
    intros p' Hk Hp' Hr'. by apply Hn. }
  destruct (flow_op_kind (sp_token t)) as [kind|] eqn:Hop; [|apply Hend; by left].
  assert (nl ≠ [] ∧ sp_token t = TChoice ∨ ¬ (nl ≠ [] ∧ sp_token t = TChoice)) as [Hc|Hc].
  { destruct nl; [right; by intros []|]. destruct (sp_token t); try (right; by intros []). by left. }
  { apply Hend. by right. }
  assert (Hnc : kind = FkChoice → nl = []).
  { intros ->. destruct nl as [|n nl]; [done|]. destruct Hc. split; [done|]. by destruct (sp_token t). }
  destruct (flow_at_operator p nl t r kind Hp Hr Hnl Hop Hnc) as (p1 & Hr1 & Hs1 & Hp1 & E).
  assert (Hk1 : keeps p p1) by (split; [done|by eapply well_ended_suffix]).
  eapply wp_continue; [exact E|done|]. apply wp_bind. eapply wp_advance; [apply Hk1|exact Hr1|by intros E'; rewrite E' in Hop|].
  intros Hk2 Hr2. apply after_operator_sound; [apply Hk2|by apply plain_next|]. intros nl2 p3 Hk3 Hp3 Hnl2 Hc2 Hr3.
  apply (Hs (nl ++ t :: nl2)).
  - eapply keeps_after; [done|]. by eapply keeps_after.
  - done.
  - exists nl, t, nl2. split_and!; [done|done|done|done|]. intros Hk. split; [by apply Hnc|by apply Hc2].
  - by destruct nl.
  - rewrite Hr, <- app_assoc. simpl. do 2 f_equal. by rewrite <- Hr2, Hr3.
Qed.

Lemma skip_front_newlines nl t r : newlines nl → sp_token t ≠ TNewline → skip_front (nl ++ t :: r) = t :: r.
Proof.
  intros Hnl Ht. induction Hnl as [|n nl Hn _ IH]; simpl.
  - by destruct (sp_token t).
  - by replace (sp_token n) with TNewline by done.
Qed.

Lemma skip_front_split r : ∃ nl, r = nl ++ skip_front r ∧ newlines nl ∧ starts_newline (skip_front r) = false.
Proof.
  induction r as [|t r (nl & IH & Hnl & Hs)]; [by exists []|]. simpl. destruct (at_newline (sp_token t)) eqn:Ht.
  - exists (t :: nl). simpl. rewrite <- IH. split_and!; [done| |done]. constructor; [|done]. unfold newline. by destruct (sp_token t).
  - exists []. split_and!; [done|done|]. simpl. by destruct (sp_token t).
Qed.

Lemma flow_none p : plain p → stops 3 (remaining p) → runs_plain flow_next p None (remaining p).
Proof.
  intros Hp (j & Hj & Hlt & _). destruct (remaining p) as [|n r] eqn:Hr; [done|].
  destruct (at_newline (sp_token n)) eqn:Hn.
  - assert (Hnn : sp_token n = TNewline) by (by destruct (sp_token n)). simpl in Hj. rewrite Hnn in Hj.
    destruct (skip_front_split r) as (nl & Er & Hnl & Hs). destruct (skip_front r) as [|t r']; [done|].
    rewrite <- Hr. apply (flow_none_runs p (n :: nl) t r'); [done|by rewrite Hr, Er|by constructor|by intros E; simpl in Hs; rewrite E in Hs|].
    simpl in Hj. destruct (flow_op_kind (sp_token t)) as [kind|] eqn:Hop; [|by left]. right. split; [done|].
    destruct (sp_token t); try done; simpl in Hj; injection Hj as <-; lia.
  - rewrite <- Hr. apply (flow_none_runs p [] n r); [done|done|done|by intros E; rewrite E in Hn|]. left. simpl in Hj.
    destruct (sp_token n); try done; injection Hj as <-; lia.
Qed.

Lemma flow_follow ots kind x : flow_ops ots kind → starts_operand x → stops 4 (ots ++ x).
Proof.
  intros (nl1 & t & nl2 & -> & Hop & H1 & H2 & Hc) Hx. eapply (stops_level _ 2); [|lia]. rewrite <- app_assoc. simpl.
  destruct nl1 as [|n nl1]; simpl.
  - by destruct (sp_token t).
  - apply Forall_cons in H1 as [Hn H1]. replace (sp_token n) with TNewline by done.
    rewrite skip_front_newlines by (done || by destruct (sp_token t)). simpl. rewrite Hop. simpl.
    destruct (sp_token t); try done. simpl in Hop. injection Hop as <-. by destruct (Hc eq_refl).
Qed.

Lemma flow_ops_ne ots kind : flow_ops ots kind → ots ≠ [].
Proof. by intros ([|] & t & nl2 & -> & _). Qed.

Section Grammar.
Context `{Hlaws : OperandLaws}.

Lemma flow_rs_starts calls kind ts a : flow_rs calls kind ts a → starts_operand ts.
Proof.
  intros [(_ & _ & o & Ho & _)|[_ Ha]]; [|by eapply and_or_starts].
  destruct (pair_call_starts _ _ Ho) as (t & ts' & body & -> & Ht & _). exists t, ts'. by rewrite Ht.
Qed.

(** The callee that [flow_rhs] recognises at the front. *)
Definition direct_call (kind : FlowOpKind) (t : Token) : option str :=
  match t with
  | TFuncLiteral body => if flow_op_injects_first_argument kind && is_pair_constructor_func_literal body then Some body else None
  | _ => None
  end.

Lemma direct_call_some kind t body : direct_call kind t = Some body →
  t = TFuncLiteral body ∧ flow_op_injects_first_argument kind = true ∧ is_pair_constructor_func_literal body = true.
Proof.
  destruct t; simpl; try done. destruct (flow_op_injects_first_argument kind); simpl; [|done].
  destruct (is_pair_constructor_func_literal _) eqn:Hb; [|done]. by intros [= ->].
Qed.

Lemma direct_call_none kind t ts : direct_call kind (sp_token t) = None ↔ flow_op_injects_first_argument kind && starts_pair_call (t :: ts) = false.
Proof.
  simpl. destruct (sp_token t); simpl; rewrite ?andb_false_r; try done.
  by destruct (flow_op_injects_first_argument kind && _).
Qed.

Lemma flow_rhs_sound kind : sound (flow_rhs kind) (flow_rs true kind).
Proof.
  intros p Q Hw Hp HQ. apply wp_bind, wp_peek; [done|]. intros t r Hr. fold (direct_call kind (sp_token t)). cbv zeta.
  destruct (direct_call kind (sp_token t)) as [body|] eqn:Hd.
  - apply direct_call_some in Hd as (Ht & Hi & Hb). eapply wp_continue;
      [by rewrite (bind_run _ _ _ _ _ (peek_span_eq _ _ _ Hr))|by split|].
    apply wp_bind. eapply pair_call_sound; [done|done|done|done|done|]. intros ts o p1 Hk1 Hp1 Ho Hr1.
    apply wp_bind, wp_peek; [apply Hk1|]. intros t1 r1 _. destruct (ends_pipeline_rhs _); [|by apply wp_throw; apply Hk1].
    apply wp_ret; [apply Hk1|]. apply (HQ ts); [done|done| |done]. left. split_and!; [done|done|by exists o].
  - apply and_or_sound; [done|done|]. intros ts a p1 Hk1 Hp1 Ha Hr1. apply (HQ ts); [done|done| |done]. right. split; [|done].
    destruct (and_or_starts _ _ _ Ha) as (t' & ts' & -> & _). rewrite Hr in Hr1. simpl in Hr1. injection Hr1 as <- _.
    by apply direct_call_none.
Qed.

Lemma flow_rhs_complete kind : complete (flow_rhs kind) (flow_rs false kind) (stops 4).
Proof.
  intros p ts a r Hp [(? & _)|[Hd Ha]] Hr Hs; [done|]. destruct (and_or_starts _ _ _ Ha) as (t & ts' & -> & _).
  eapply runs_plain_bind; [by apply runs_plain_peek|]. intros p1 Hr1 _ Hp1. fold (direct_call kind (sp_token t)). cbv zeta.
  apply (direct_call_none kind t ts') in Hd as ->. by eapply and_or_complete.
Qed.

Lemma flow_sound : sound parse_flow_expr (flow_syntax true).
Proof. apply infix_sound; [apply flow_next_sound|apply flow_rhs_sound|apply and_or_sound]. Qed.
Lemma flow_complete : complete parse_flow_expr (flow_syntax false) (stops 3).
Proof.
  eapply infix_complete with (follow := stops 4).
  - intros r. apply stops_mono. lia.
  - apply flow_follow.
  - intros p ots kind x. apply flow_some.
  - apply flow_none.
  - apply flow_ops_ne.
  - apply flow_rhs_complete.
  - apply flow_rs_starts.
  - apply and_or_complete.
Qed.
Lemma flow_starts calls ts a : flow_syntax calls ts a → starts_operand ts.
Proof. apply infix_starts, and_or_starts. Qed.

Lemma parse_expr_sound : sound parse_expr (expression_syntax true).
Proof. apply infix_sound; [apply tokenwise_sound with (k := 2), on_tokenwise|intros _; apply flow_sound|apply flow_sound]. Qed.
Lemma parse_expr_complete : complete parse_expr (expression_syntax false) (stops 2).
Proof. apply (tier_complete _ _ 2); [lia|apply on_tokenwise|intros _; apply flow_complete|intros _; apply flow_starts|apply flow_complete]. Qed.

End Grammar.

(** ** A sample

    Identifiers as the only operands and patterns. *)

Definition read_name : M (str * Span) :=
  t ← peek;
  span ← peek_span;
  match t with TIdent name => advance;; mret (name, span) | _ => expr_error (lit "name expected") span end.
Definition name_syntax (ts : list Spanned) (o : str * Span) : Prop := ∃ t, ts = [t] ∧ sp_token t = TIdent o.1 ∧ sp_span t = o.2.

Lemma read_name_sound : sound read_name name_syntax.
Proof.
  intros p Q Hw Hp HQ. apply wp_bind, wp_peek; [done|]. intros t r Hr. eapply wp_continue;
    [by rewrite (bind_run _ _ _ _ _ (peek_span_eq _ _ _ Hr))|by split|].
  destruct (sp_token t) eqn:Ht; try (by apply wp_throw). apply wp_bind. eapply wp_advance; [done|exact Hr|congruence|].
  intros Hk Hn. apply wp_ret; [apply Hk|]. apply (HQ [t]); [done|by apply plain_next|by exists t|by rewrite Hr, Hn].
Qed.

Lemma read_name_complete follow : complete read_name name_syntax follow.
Proof.
  intros p ts [n sp] r Hp (t & -> & Ht & Hsp) Hr _. simpl in *.
  eapply runs_plain_bind; [by apply runs_plain_peek|]. intros p1 Hr1 _ Hp1.
  eapply runs_plain_bind; [by apply runs_plain_peek_span|]. intros p2 Hr2 _ Hp2. rewrite Ht.
  eapply runs_plain_bind; [by apply runs_plain_advance|]. intros p3 Hr3 _ Hp3. subst sp. by apply runs_plain_ret.
Qed.

Lemma name_syntax_starts ts o : name_syntax ts o → starts_operand ts.
Proof. intros (t & -> & Ht & _). exists t, []. by rewrite Ht. Qed.

#[local] Instance sample_operands : OperandParser := {|
  Operand := str * Span; Pattern := str * Span; operand_span := snd; pattern_span := snd;
  parse_postfix _ := read_name;
  parse_quoted_callee_call span _ _ _ := expr_error (lit "name expected") span;
  parse_consumer_pattern _ := read_name |}.

#[local] Instance sample_laws : OperandLaws.
Proof.
  refine {| operand_syntax _ := name_syntax; pattern_syntax _ := name_syntax; pair_call_syntax _ _ := False |}.
  - intros b. apply name_syntax_starts.
  - intros b. apply name_syntax_starts.
  - done.
  - intros b. apply read_name_sound.
  - intros b. apply read_name_complete.
  - intros b. apply read_name_sound.
  - intros b. apply read_name_complete.
  - intros p t r body Q Hw _ _ _ _ _. by apply wp_throw.
Defined.

Definition tok (t : Token) (at_ : nat) : Spanned := mkSpanned t (mkSpanRange at_ (S at_)).
(** [a - b - c |> f]. *)
Definition sample_tokens : list Spanned :=
  [tok (TIdent (lit "a")) 0; tok TMinus 1; tok (TIdent (lit "b")) 2; tok TMinus 3; tok (TIdent (lit "c")) 4;
   tok TPipeApply 5; tok (TIdent (lit "f")) 6].
Definition sample_state : Parser := mkParser (sample_tokens ++ [tok TEof 7]) [] 0 [] 0.
Definition name_at (n : string) (i : nat) : Ast := Leaf (lit n, mkSpanRange i (S i)).
Definition sample_tree : Ast :=
  let sub := BinOpExpr (mkSpanRange 0 3) Sub (name_at "a" 0) (name_at "b" 2) in
  Pipe (mkSpanRange 0 7) (BinOpExpr (mkSpanRange 0 5) Sub sub (name_at "c" 4)) (name_at "f" 6).

Lemma tier_alone {Op R} (ops : list Spanned → Op → Prop) (rs : Op → list Spanned → R → Prop) fs combine ts a :
  fs ts a → infix_syntax ops rs fs combine ts a.
Proof. intros Ha. exists ts, [], a. split_and!; [by rewrite app_nil_r|done|constructor]. Qed.

Lemma name_operand b n i : facet_syntax b [tok (TIdent (lit n)) i] (name_at n i).
Proof. apply tier_alone. eexists. split; [|done]. by eexists. Qed.

Lemma sample_differences :
  expr_syntax false (take 5 sample_tokens) (BinOpExpr (mkSpanRange 0 5) Sub
    (BinOpExpr (mkSpanRange 0 3) Sub (name_at "a" 0) (name_at "b" 2)) (name_at "c" 4)).
Proof.
  exists [tok (TIdent (lit "a")) 0], (take 4 (drop 1 sample_tokens)), (name_at "a" 0).
  split_and!; [done|apply name_operand|].
  eapply (tail_more _ _ _ _ [tok TMinus 1] (ExprBinOp Sub) [tok (TIdent (lit "b")) 2] _ _ (take 2 (drop 3 sample_tokens)));
    [by eexists|eexists; split; [apply name_operand|done]|done|].
  eapply (tail_more _ _ _ _ [tok TMinus 3] (ExprBinOp Sub) [tok (TIdent (lit "c")) 4] _ _ []);
    [by eexists|eexists; split; [apply name_operand|done]|done|constructor].
Qed.

Lemma sample_derives : expression_syntax false sample_tokens sample_tree.
Proof.
  apply tier_alone. exists (take 5 sample_tokens), (drop 5 sample_tokens). eexists. split_and!.
  - done.
  - apply tier_alone, tier_alone, Pair_one, sample_differences.
  - eapply (tail_more _ _ _ _ [tok TPipeApply 5] FkPipeApply [tok (TIdent (lit "f")) 6] _ _ []).
    + exists [], (tok TPipeApply 5), []. by split_and!.
    + right. split; [done|]. apply tier_alone, tier_alone, Pair_one, tier_alone, name_operand.
    + done.
    + constructor.
Qed.


(** The pair constructor associates to the right, and binds tighter than comparison. *)
Example pairs_to_the_right :
  (parse_expr (mkParser [tok (TIdent (lit "a")) 0; tok (TFuncLiteral (lit "(,)")) 1; tok (TIdent (lit "b")) 2;
     tok TLParen 3; tok TComma 4; tok TRParen 5; tok (TIdent (lit "c")) 6; tok TEqEq 7; tok (TIdent (lit "d")) 8; tok TEof 9] [] 0 [] 0)).2
  = Ok (BinOpExpr (mkSpanRange 0 9) Eq
      (TupleLiteral (mkSpanRange 0 7) [name_at "a" 0; TupleLiteral (mkSpanRange 2 7) [name_at "b" 2; name_at "c" 6]]) (name_at "d" 8)).
Proof. vm_compute. reflexivity. Qed.
End ExprTheorems.
